(* ===== verification/_CoqProject ===== *)
-Q . S2P
Prelude.v
Txns.v
Tumblers.v
Addresses.v
AddrMaps.v
Arith.v
NsKeys.v
NsState.v
NsLaws.v
NsOps.v
NsInv.v
NsCalls.v
NsReach.v
Spans.v
SpanSets.v
Runs.v
Content.v
RunLists.v
RunUnions.v
VSpace.v
Provenance.v
Chain.v
ArrState.v
ArrReads.v
Views.v
World.v
Edits.v
EditInv.v
Shots.v
Minted.v
PublishOp.v
EditSteps.v
EditCalls.v
CopyCalls.v
InsertCalls.v
PublishGates.v
PublishBody.v
VersionCalls.v
PublishCalls.v
SetArrCalls.v
Retrieval.v
RetrievalLaws.v
RetrieveCalls.v
ShowCalls.v
FindCalls.v
CompareCalls.v
OrdSets.v
Endsets.v
ClassLaws.v
TypeRegistry.v
Spanfilade.v
SpanfiladeLaws.v
HomeWalk.v
HomeWalkLaws.v
LinkState.v
LinkStateLaws.v
LinkReads.v
Supersession.v
LinkFind.v
LinkChains.v
LinkFindLaws.v
LinkFindCalls.v
LinkSlots.v
LinkSamples.v
LinkWorld.v
LinkWrites.v
LinkGate.v
LinkCalls.v
EmitCalls.v
EditLinkCalls.v
SlotCalls.v
MakeLinkCalls.v
Discovery.v
DiscoveryLaws.v
DiscoveryCalls.v
DescriptorCalls.v
OrphanCalls.v
CoreReach.v
CoreSamples.v
WriteSamples.v
