(* ===== verification/Prelude.v ===== *)
(** * skep: addresses, namespace, content and arrangement, under a committing kernel

    skep is a docuverse engine: every piece of content has a permanent address, a
    document is a mutable arrangement of such addresses, and every change is a
    transaction of records appended to a journal. This library models the crates that
    carry that logic as executable definitions translated from their source, with the
    theorems that make them correct: [crates/skep-address] (M1), the commit path of
    [crates/skep-kernel] (M2), [crates/skep-namespace] (M3), [crates/skep-content]
    (M4), [crates/skep-arrangement] (M5) and the reads of [crates/skep-retrieval] (M6),
    the links of [crates/skep-links] (M7), reads and writes, and the discovery of
    [crates/skep-discovery] (M8), over the part of [crates/skep-engine/src/world.rs] that
    folds their slices.

    ** The parts and how they meet

    - [Prelude]: Rust's [Result] as [result]; a computation that can panic as
      [outcome], with its monad, every slice index, checked subtraction,
      [assert!] and [.expect] a point where it may be [Panicked]; list lemmas,
      tactics, the hint database [skep].
    - [Txns] ([skep-kernel/src/kernel.rs], [replay.rs], [journal/scan.rs]): a world
      and its fold ([WorldState]), a staging of pushed records, the sequencer, the
      frames a commit writes, [transact], and the replay fold [fold_to].
    - [Tumblers] ([skep-address/src/tumbler.rs]): a tumbler is a nonempty
      sequence of naturals ([Nat] is a [BigUint], so [N]); order, prefix, display.
    - [Addresses] ([address.rs]): the T4 scan, [validate], the fields, parents and
      containment. An [Address] carries the proof that its tumbler was admitted,
      as the Rust type does by its private field. [AddrMaps]: maps keyed by
      addresses, walked in their order.
    - [Arith] ([arithmetic.rs]): [⊕], [⊖], [inc] and its gate, displacement, shift,
      element addresses.
    - [NsKeys], [NsState] ([skep-namespace/src/ns.rs], [state.rs], [state/mint.rs],
      [state/query.rs], [ghost.rs], [record.rs]): chain keys and their lock keys, the
      frontiers and registries, the fold [apply_m3], the mints, the queries.
      [NsLaws]: what a mint issues. [NsOps] ([ops.rs]): the three public operations as
      closures of a transaction. [NsInv], [NsCalls], [NsReach]: the invariant
      [m3_ok], the operations as whole calls, the judgement of a query by its gates
      ([judged]), and what holds of reachable registries.
    - [Spans], [SpanSets] ([span.rs], [spanset.rs], [error.rs]): half-open tumbler
      intervals, their relations and gated algebra; sets of them, normalization,
      the canonical key, the two sweeps, the partition by length class.
    - [Runs] ([skep-arrangement/src/run.rs]): a run of consecutive element
      addresses; its span, and the offsets a span covers.
    - [Content] ([skep-content/src/store.rs], [routing.rs], [error.rs]): the
      write-once map of single values and byte stretches, staging, fold and reads.
    - [RunLists] ([run_list.rs]): one subspace of one document, a list of runs with
      implicit V-positions; splits, splices, clips, reads by ordinal.
    - [RunUnions] ([run_union.rs]), [VSpace] ([vspace.rs]), [Provenance]
      ([provenance.rs]), [Chain] ([chain.rs]: the version chain, and the reads of it
      that ask the registry).
    - [ArrState] ([state.rs]): the seven-field state, the journal records and the
      fold [apply_m5], arm by arm; the abstract machine it refines; replay.
      [ArrReads] ([reads.rs]): the queries over that state.
    - [Views]: a component that keeps to a part of the world; its staged records fold
      to what the kernel's root shows, up to the positions the folds stamp.
    - [World] ([skep-engine/src/world.rs]): the three core slices and their fold; the
      interface [HasSlices] by which any world that carries them offers them, which
      is what every client theorem is proved against; the monad [Txn] of a
      transaction's closure.
    - [Edits] ([skep-arrangement/src/ops.rs], [ops/*.rs], [ownership.rs],
      [deposit.rs], [seat.rs], [shot.rs]): the editing operations, each a closure and
      a call of the kernel.
    - [Shots] ([shot.rs]): a shot, which drafts it names, what it re-inserts, and its
      address form on both sides of the commit. [Minted] ([ops/publish.rs]): the map
      from a draft's positions to the fresh ones, as pieces of a chain. [PublishOp]
      ([ops/publish.rs]): the admission, the re-insert, the placement and PUBLISH.
    - [EditInv]: the joint invariant [core_ok] and the records that keep it.
      [EditSteps]: the gates and the staging of a body, and a body as a call.
      [EditCalls] (DELETE, REARRANGE, link seating), [CopyCalls] (COPY, REINSTATE),
      [InsertCalls], [VersionCalls] (VERSION, STAGE), [SetArrCalls]: each operation
      as a whole call. [PublishGates] (the admission, gate by gate), [PublishBody]
      (the renaming a shot makes, and its placement) and [PublishCalls]: PUBLISH.
      [CoreReach]: any history of
      calls. [CoreSamples]: the claims, and those of the reads, applied at concrete
      kernels.
    - [Retrieval] ([skep-retrieval/src/budget.rs], [vspan.rs], [query.rs],
      [query/*.rs]): the budgets, the gate of a request span and the seven reads over
      one snapshot, a [Query] being the world it pins. [RetrievalLaws]: what they
      share; [RetrieveCalls] (RETRIEVEV), [ShowCalls] (the extents, SHOWORIGIN,
      SHOWDELETIONS), [FindCalls] (FINDDOCSCONTAINING) and [CompareCalls] (COMPARE).

    - [OrdSets]: ordered sets and maps as finite sets walked in order.
      [Endsets] ([skep-links/src/endset.rs], [class.rs], [dedup.rs]): endsets, links,
      the coverage class and the identity an idempotent emit finds its incumbent by;
      [ClassLaws] what they identify. [TypeRegistry] ([registry.rs]).
    - [Spanfilade], [HomeWalk] ([state/spanfilade.rs]): the per-slot coverage index and
      the stab of one home; the streams of homes a query opens and the walk that merges
      them. [SpanfiladeLaws], [HomeWalkLaws]: what they find and name.
    - [LinkState] ([state.rs]): the map of links, every hint and its fold, the rebuild;
      [LinkStateLaws]: each hint as a function of the map. [LinkReads] and [LinkFind]
      ([state/reads.rs]): the raw, typed and supersession reads, and discovery.
      [Supersession]: the walk and currency. [LinkChains] (a home's links as one range),
      [LinkFindLaws], [LinkFindCalls], [LinkSlots]: the store's own discovery reads.
      [LinkSamples]: the claims at a concrete store.
    - [LinkWorld] ([skep-links/src/lib.rs], [skep-engine/src/world.rs]): the core's
      slices with the link store beside them, their fold, the interface [HasLinked] of
      which [HasSlices] is a part, the invariant [linked_ok] that ties the store to the
      namespace, and one deposit. [LinkWrites] ([writes.rs], [writes/*.rs], [budget.rs], [error.rs]):
      the deposit gate and every operation of [LinkWriter]. [LinkGate] (the gate),
      [LinkCalls] (a body as a call), [EmitCalls] (EMIT, NULLIFY,
      ASSERT_SUP, RETRACT_STALE), [EditLinkCalls] (EDITLINK), [SlotCalls] and
      [MakeLinkCalls] (MAKELINK). [WriteSamples]: the claims at concrete kernels.

    - [Discovery] ([skep-discovery/src/*.rs]): M8, over one snapshot of any world behind
      [HasLinked]: the image of a region on the reading surface, the reads of the links
      that touch it, the descriptor reads, the projection and reachability of one link,
      the orphans a deletion would leave, and the claims on an address. A reader is a
      predicate on homes. [DiscoveryLaws]: a walk of homes lists links in address order;
      what a page of such a list is; the links a touch stands for. [DiscoveryCalls] (the
      reads of a region), [DescriptorCalls] (the descriptor and the one-link reads) and
      [OrphanCalls] (orphans and claims); [WriteSamples] has their claims at concrete
      worlds.

    A file requires the ones before it that its code calls.

    ** What the theorems show

    *** The kernel and whole histories

    [transact_replays]: after any history of transactions and whatever the disk
    answered, the live world is what folding the journal from genesis answers at the
    root's coordinate, earlier boundaries read as they did, and each way a call can
    end leaves what it promises. [service_total]: from genesis, no sequence of calls
    of the modelled operations ever panics, and what it leaves satisfies J0 (a content
    position is allocated exactly when its value is stored) and S3★ (what is arranged
    is a stored position in a registered document). [service_permanent]: what no call
    takes back (registration, the publication bit on either side, seats, stored values,
    the content of a published document), and that a published document is frozen: every
    edit of it is turned away and leaves the kernel as it was.

    *** The operations

    For each operation [op], [op_exact] says, of any world behind [HasSlices], either
    build, any encoder and any answer of the disk: the call is total from a sound
    root and leaves a sound root; a refusal is the first of the operation's gates, in
    the pinned order the error type documents, and leaves the kernel as it was; an
    acknowledged call did exactly what it names, at the coordinate it answers, and
    nothing else. The abstract content of a document is the list of its addresses
    ([contents]); each edit is a list operation on it ([insert_at], [remove_at],
    [exchanged]). A shot's contract is a renaming [remint] of the positions it states:
    [publish_exact] and [pairing_exact] say the member, the store and the pairing are
    that renaming's; [shot_admission_exact] is the query a door asks ahead of it.

    *** The reads

    For each read, [read_exact] says, of any world that holds [core_ok], the call is
    total, refuses by the first of its gates (its budgets among them) and otherwise
    answers exactly what it promises of the reader's surface: [retrieve_exact] what
    each requested position shows, [compare_exact] the pairs of positions that hold
    one address, [find_exact] the documents that arrange a named address now,
    [extents_exact], [show_origin_exact], [show_deletions_exact]; [walk_price_bounds]
    that the price charged ahead of a walk bounds it, [gate_vspan_exact] the shape a
    request span must have.

    *** The links

    [class_exact] and [dedup_lock_exact]: a coverage class and the lock an idempotent
    emit takes identify exactly a coverage. [hints_rebuilt]: every hint is a function of
    the map of links, so the fold in any order and the rebuild agree, and the fold
    panics exactly outside its documented domain. Over a store whose keys are link
    addresses ([findable]): [stab_exact], [match_links_exact], [home_first_exact] and
    [slots_exact] say the discovery reads, which probe the index by homes, blocks,
    levels and residue, answer exactly a scan by overlap. [walk_exact] and
    [current_exact]: the supersession walk ends and is the chain of sole successors,
    and currency is every reachable sink with every claim on it.

    The writes, over any world behind [HasLinked]: each operation keeps [linked_ok]
    whatever the disk answers (every link at a minted address of its home's chain, a
    home's frontier the count of its links, only residents retracted, every claim of
    the schema the walk reads it under), never panics (so the arms the code marks
    [unreachable!] are), and refuses by the first of its gates. [emit_exact]: the least
    active incumbent the caller may read, or a fresh link at the home's next address.
    [nullify_exact], [assert_sup_exact], [editlink_exact]: besides, the target is
    retracted, the supersession operative. [makelink_exact] and
    [makelink_replacing_exact]: the link of the three slots, each covering exactly what
    its argument names, deposited and seated. [retract_stale_exact]: no registered type
    ages in this format.

    *** The discovery

    Each read is characterised on the map of links and on what the reading surface
    shows, with no mention of the index, the walk of homes or the touches it is computed
    from; the store is any searchable one ([findable]), which every store the writes
    leave is while its levels fit ([linked_ok_findable]). [findlinks_v_exact]: the active
    readable links a region touches, in address order. [count_v_exact],
    [window_v_exact], [count_v_by_home_exact]: its count, its pages, which tile it from
    any cursor, and its counts by home. [find_links_v_history_exact]: the retracted ones
    too, each with its positions. [retrieve_endsets_exact]: the touching endsets, each
    once and in order, within the span budget. [findlinks_ftt_exact]: a descriptor's
    links, whichever slot drives. [project_on_exact], [addressably_discoverable_exact],
    [delete_orphans_exact], [claims_exact]: the four reads that join a link's side with
    a document's.

    *** The registry and the store

    [reachable_laws], [grants_permanent], [ownership_exact], [chain_ends_exact],
    [mints_issue_next], [chains_partition], [ns_lock_key_injective] for M3;
    [content_immutable], [run_read_exact], [slice_roundtrip] for M4;
    [surfaces_exact] for the chain reads.

    *** The arrangement's state

    A span denotes a set of tumblers, [contains]; a span set the union, [denotes];
    a run the list of its addresses, [addrs]; a run-list the list [vmap], ordinal
    [p] being its [p]-th element. Every operation is proved to be the set or list
    operation it stands for, under these denotations, and none to panic on the
    values the types' doors let through: the invariants are [run_ok] (a positive
    width from a full element position), [RunList_ok] (runs valid and no two
    neighbours mergeable, so that a list is determined by its addresses),
    [canonical] (one length class, ascending, apart), [union_ok] and [state_ok].

    [apply_m5_refines] says one fold step is total on records with valid runs,
    preserves [state_ok] (which contains P4★: what is arranged is recorded in R), is
    a step of the abstract machine [spec_step] on two address lists per document, and
    lengthens R by exactly what was placed. [replay_documents] and [replay_metadata]
    carry that over any journal from genesis; [metadata_laws] states BIRTH★, SOURCE★,
    MOVED★, BASE★ and the terms. The reads are then exact: [project_exact] (footprint
    and presence), [finddocs_narrowing] (candidates, and candidates narrowed by
    presence), [deletions_exact] (placed once and not arranged now),
    [resolve_point_agree] and [admission_spec].

    *** The algebra

    The order is total; validation reports exactly the violated clauses; [⊕] and [⊖]
    are characterized component by component and invert each other where the code
    claims it; normal forms are unique, so [equiv] decides equality of denotation; the
    sweeps compute intersection and difference within their size bounds.

    ** Conventions

    A Rust [usize] that indexes or counts components is [nat]; where a length reaches
    arithmetic that could wrap, [usize_len] is a hypothesis. Sequence numbers are [N]
    with the wrap at 64 bits written out. Ordered maps are [gmap]s walked by ascending
    key ([ord_entries], [class_entries]). Iterators are the lists they yield; the
    laziness that some comments price is not modelled. [im::Vector] and [Vec] are
    lists, and sharing has no observable effect. Loops that are not structural take
    fuel, and a theorem says it is enough: the binary search [lower_bound_loop] has the
    bit length of the width ([offsets_covered_by_exact]); the walks of homes have what
    the streams still hold, or the keys ([touches_ok], [key_homes_ok], [under_loop_ok],
    [fewest_homes_ok]); the supersession loops have the number of successors any claim
    names ([walk_sup_ok], [reach_loop_ok]). A
    fallible function whose panics are shown impossible has two names: [f_at], the
    translation in [outcome], and [f], its value. [debug_assert!] is an assertion
    under a flag [debug], an argument of the store's operations, of the world and of
    the theorems, which hold of both builds. Two checks of a debug build in the link store are not
    branches but lemmas: the comparator of [keys_in_slots] meets links of one length
    ([hits_one_length]), and the count [home_frontier], kept modulo [2^64] as a release
    build keeps it, is exact below that ([home_frontier_exact]). The write-ahead log's write, which may
    fail or be unwound, is one answer of the type [CommitAnswer], an argument of every
    call; the record codec is an encoder and a decoder, with the round trip as the
    hypothesis of [transact_replays].

    ** What is not modelled

    Error formatting, hashing and the serde derives (the checked decoding doors
    are modelled as the functions they call). Of M2, the journal's bytes and files, checkpoints, history
    reads, attestation, threads and lock acquisition: a transaction is one step, which
    is what the kernel's single writer provides, and the lock keys a call takes are
    modelled as values ([ns_lock_key_injective]) that [transact] does not read. Of
    M7, the deposits of a publication ([writes/publication.rs]), which prices its plan in
    the bytes of the record codec, and the sharing of interned values. Such a deposit may
    claim a supersession of members, where every modelled one claims it of links: the
    schema clause of [linked_ok] is that of links, so a store holding a publication's
    claim is outside the theorems of the link writes. The engine's fold
    of a link moves two further slices, the grants and the identities, and its fold of the
    namespace the exception set: no operation modelled here reads them, and the law of
    [HasLinked] states what is relied on, that their folds leave these slices as they are
    and panic where these do. The layers above (coordination, the request surface and the
    daemons) are outside this library. The digits of a
    component are printed by a third-party type, a parameter of [display_lossless]
    with its documented behaviour as hypotheses. *)

From stdpp Require Export base tactics list numbers sorting option sets.
From Stdlib Require Export Lia.
From Stdlib Require Eqdep_dec.

#[global] Set Default Goal Selector "!".

(** ** Rust's [Result] *)

Inductive result (A E : Type) : Type :=
  | Ok (a : A)
  | Err (e : E).
Arguments Ok {A E} a.
Arguments Err {A E} e.

#[export] Instance result_eq_dec {A E} `{EqDecision A, EqDecision E} :
  EqDecision (result A E).
Proof. solve_decision. Defined.

Definition is_ok {A E} (r : result A E) : bool :=
  match r with Ok _ => true | Err _ => false end.

Definition result_map {A B E} (f : A → B) (r : result A E) : result B E :=
  match r with Ok a => Ok (f a) | Err e => Err e end.

Definition map_err {A E F} (f : E → F) (r : result A E) : result A F :=
  match r with Ok a => Ok a | Err e => Err (f e) end.

Definition ok_or {A E} (o : option A) (e : E) : result A E :=
  match o with Some a => Ok a | None => Err e end.

(** ** Panics

    A computation that can panic is an [outcome]: every slice index, checked
    natural subtraction, [assert!] and [.expect(..)] of the source is a point
    where it may be [Panicked], and a theorem, not a convention, says where it
    is not. *)

Inductive outcome (A : Type) : Type :=
  | Done (a : A)
  | Panicked.
Arguments Done {A} a.
Arguments Panicked {A}.

#[export] Instance outcome_ret : MRet outcome := λ A, Done.
#[export] Instance outcome_bind : MBind outcome := λ A B f m,
  match m with Done a => f a | Panicked => Panicked end.
#[export] Instance outcome_fmap : FMap outcome := λ A B f m,
  match m with Done a => Done (f a) | Panicked => Panicked end.

#[export] Instance outcome_eq_dec {A} `{EqDecision A} : EqDecision (outcome A).
Proof. solve_decision. Defined.

Definition is_done {A} (m : outcome A) : bool :=
  match m with Done _ => true | Panicked => false end.

(** A computation proved not to panic is its value. *)
Definition total {A} (m : outcome A) : is_done m = true → A :=
  match m with
  | Done a => λ _, a
  | Panicked => λ H, False_rect A (Bool.diff_false_true H)
  end.

(** [Option::expect] and [Result::expect]: the panic on the other case. *)
Definition expect_some {A} (o : option A) : outcome A :=
  match o with Some a => Done a | None => Panicked end.

Definition expect_ok {A E} (r : result A E) : outcome A :=
  match r with Ok a => Done a | Err _ => Panicked end.

(** [assert!] *)
Definition assert (b : bool) : outcome unit :=
  if b then Done tt else Panicked.

(** Slice indexing, which panics out of range. *)
Definition index {A} (l : list A) (i : nat) : outcome A := expect_some (l !! i).

(** [BigUint] subtraction, which panics below zero. *)
Definition nat_sub (a b : N) : outcome N :=
  if (b <=? a)%N then Done (a - b)%N else Panicked.

(** [usize] subtraction, which panics below zero (debug) and is never meant to wrap. *)
Definition usize_sub (a b : nat) : outcome nat :=
  if b <=? a then Done (a - b) else Panicked.

Declare Scope skep_scope.
Delimit Scope skep_scope with skep.
Open Scope skep_scope.

(** The [?] operator, through the panic layer. *)
Definition try_bind {A B E} (m : outcome (result A E)) (k : A → outcome (result B E)) :
    outcome (result B E) :=
  match m with
  | Done (Ok a) => k a
  | Done (Err e) => Done (Err e)
  | Panicked => Panicked
  end.

Notation "x ←? m ; k" := (try_bind m (λ x, k))
  (at level 20, m at level 100, k at level 200, right associativity,
   format "x  ←?  m ;  '/' k") : skep_scope.
Notation "' p ←? m ; k" := (try_bind m (λ x, match x with p => k end))
  (at level 20, p pattern, m at level 100, k at level 200, right associativity) : skep_scope.

(** The same walk over a list, left to right. *)
Fixpoint outcome_map {A B} (f : A → outcome B) (l : list A) : outcome (list B) :=
  match l with
  | [] => Done []
  | x :: l => y ← f x; ys ← outcome_map f l; Done (y :: ys)
  end.

(** ** Proof automation shared by the components *)

Create HintDb skep discriminated.
Create Rewrite HintDb skep.

(** Case on the innermost scrutinee of a [match] in the goal or a hypothesis. *)
Ltac case_on :=
  match goal with
  | |- context [match ?x with _ => _ end] =>
      lazymatch x with context [match _ with _ => _ end] => fail | _ => destruct x eqn:? end
  | H : context [match ?x with _ => _ end] |- _ =>
      lazymatch x with context [match _ with _ => _ end] => fail | _ => destruct x eqn:? end
  end.

(** Boolean connectives to propositions. *)
Ltac b2p :=
  repeat match goal with
  | H : (_ && _)%bool = true |- _ => apply andb_true_iff in H; destruct H
  | H : (_ && _)%bool = false |- _ => apply andb_false_iff in H
  | H : (_ || _)%bool = true |- _ => apply orb_true_iff in H
  | H : (_ || _)%bool = false |- _ => apply orb_false_iff in H; destruct H
  | H : negb _ = true |- _ => apply negb_true_iff in H
  | H : negb _ = false |- _ => apply negb_false_iff in H
  | H : bool_decide _ = true |- _ => apply bool_decide_eq_true in H
  | H : bool_decide _ = false |- _ => apply bool_decide_eq_false in H
  | H : (_ =? _)%N = true |- _ => apply N.eqb_eq in H
  | H : (_ =? _)%N = false |- _ => apply N.eqb_neq in H
  | H : (_ <=? _)%N = true |- _ => apply N.leb_le in H
  | H : (_ <=? _)%N = false |- _ => apply N.leb_gt in H
  | H : (_ <? _)%N = true |- _ => apply N.ltb_lt in H
  | H : (_ <? _)%N = false |- _ => apply N.ltb_ge in H
  | H : (_ =? _) = true |- _ => apply Nat.eqb_eq in H
  | H : (_ =? _) = false |- _ => apply Nat.eqb_neq in H
  | H : (_ <=? _) = true |- _ => apply Nat.leb_le in H
  | H : (_ <=? _) = false |- _ => apply Nat.leb_gt in H
  | H : (_ <? _) = true |- _ => apply Nat.ltb_lt in H
  | H : (_ <? _) = false |- _ => apply Nat.ltb_ge in H
  end.

(** ** Laws of the panic layer *)

Lemma total_Done {A} (m : outcome A) (H : is_done m = true) (a : A) :
  m = Done a → total m H = a.
Proof. intros ->. reflexivity. Qed.

Lemma total_spec {A} (m : outcome A) (H : is_done m = true) : m = Done (total m H).
Proof. destruct m; [reflexivity | discriminate]. Qed.

Lemma is_done_Done {A} (m : outcome A) (a : A) : m = Done a → is_done m = true.
Proof. intros ->. reflexivity. Qed.

Lemma nat_sub_ok a b : (b ≤ a)%N → nat_sub a b = Done (a - b)%N.
Proof. unfold nat_sub. intros H. apply N.leb_le in H. by rewrite H. Qed.

Lemma usize_sub_ok a b : b ≤ a → usize_sub a b = Done (a - b).
Proof. unfold usize_sub. intros H. apply Nat.leb_le in H. by rewrite H. Qed.

Lemma index_ok {A} (l : list A) i x : l !! i = Some x → index l i = Done x.
Proof. unfold index. by intros ->. Qed.

Lemma bind_Done {A B} (a : A) (f : A → outcome B) : (Done a ≫= f) = f a.
Proof. reflexivity. Qed.

(** What a finished bind went through. *)
Lemma bind_inv {A B} (m : outcome A) (f : A → outcome B) b :
  m ≫= f = Done b → ∃ a, m = Done a ∧ f a = Done b.
Proof. destruct m as [a|]; [|done]. intros H. by exists a. Qed.

Lemma outcome_map_done {A B} (f : A → outcome B) (g : A → B) l :
  (∀ x, x ∈ l → f x = Done (g x)) → outcome_map f l = Done (g <$> l).
Proof.
  induction l as [|x l IH]; intros H; [done|]. cbn.
  rewrite H by set_solver. cbn. rewrite IH by set_solver. done.
Qed.

#[export] Hint Rewrite @bind_Done : skep.

(** ** Unique proofs of boolean facts *)

Lemma bool_eq_pi (b c : bool) (p q : b = c) : p = q.
Proof. apply Eqdep_dec.UIP_dec, Bool.bool_dec. Qed.

(** ** Lists *)

Definition nonemptyb {A} (l : list A) : bool :=
  match l with [] => false | _ => true end.

Lemma nonemptyb_spec {A} (l : list A) : nonemptyb l = true ↔ l ≠ [].
Proof. destruct l; cbn; split; congruence. Qed.

Lemma nonemptyb_app_r {A} (l k : list A) : nonemptyb k = true → nonemptyb (l ++ k) = true.
Proof. destruct l; done. Qed.

Lemma nonemptyb_app_l {A} (l k : list A) : nonemptyb l = true → nonemptyb (l ++ k) = true.
Proof. destruct l; done. Qed.

Lemma nonempty_snoc {A} (l : list A) : l ≠ [] → ∃ k x, l = k ++ [x].
Proof. destruct l using rev_ind; [done | eauto]. Qed.

Lemma last_is_some {A} (l : list A) : nonemptyb l = true → ∃ x, last l = Some x.
Proof.
  intros H%nonemptyb_spec. destruct (nonempty_snoc l H) as (k & x & ->).
  exists x. apply last_snoc.
Qed.

Lemma take_length_app {A} (l k : list A) : take (length l) (l ++ k) = l.
Proof. apply take_app_length. Qed.

Lemma drop_length_app {A} (l k : list A) : drop (length l) (l ++ k) = k.
Proof. apply drop_app_length. Qed.

(** Slicing [&l[start..end]], which panics when the bounds cross or leave [l]. *)
Definition slice {A} (l : list A) (start stop : nat) : outcome (list A) :=
  if (start <=? stop) && (stop <=? length l)
  then Done (take (stop - start) (drop start l)) else Panicked.

Lemma slice_app {A} (p s q : list A) :
  slice (p ++ s ++ q) (length p) (length p + length s) = Done s.
Proof.
  unfold slice.
  replace (length p <=? length p + length s) with true by (symmetry; apply Nat.leb_le; lia).
  replace (length p + length s <=? length (p ++ s ++ q)) with true
    by (symmetry; apply Nat.leb_le; rewrite !length_app; lia).
  cbn. f_equal. rewrite drop_app_length, Nat.add_comm, Nat.add_sub.
  apply take_app_length.
Qed.

Lemma slice_to_end {A} (p s : list A) :
  slice (p ++ s) (length p) (length (p ++ s)) = Done s.
Proof.
  rewrite length_app. rewrite <- (app_nil_r s) at 1. apply slice_app.
Qed.

Lemma slice_shift {A} (p l : list A) a b :
  slice (p ++ l) (length p + a) (length p + b) = slice l a b.
Proof.
  unfold slice. rewrite length_app.
  replace (length p + a <=? length p + b) with (a <=? b)
    by (destruct (Nat.leb_spec a b), (Nat.leb_spec (length p + a) (length p + b)); lia).
  replace (length p + b <=? length p + length l) with (b <=? length l)
    by (destruct (Nat.leb_spec b (length l)),
          (Nat.leb_spec (length p + b) (length p + length l)); lia).
  replace (length p + b - (length p + a)) with (b - a) by lia.
  rewrite drop_app_ge by lia. by rewrite Nat.add_comm, Nat.add_sub.
Qed.

(** [Iterator::position] and [rposition]. *)
Fixpoint position {A} (p : A → bool) (l : list A) : option nat :=
  match l with
  | [] => None
  | x :: l => if p x then Some 0 else S <$> position p l
  end.

Fixpoint rposition {A} (p : A → bool) (l : list A) : option nat :=
  match l with
  | [] => None
  | x :: l =>
      match rposition p l with
      | Some i => Some (S i)
      | None => if p x then Some 0 else None
      end
  end.

Lemma position_Some {A} (p : A → bool) l i :
  position p l = Some i ↔
  ∃ l1 x l2, l = l1 ++ x :: l2 ∧ length l1 = i ∧ p x = true ∧ Forall (λ y, p y = false) l1.
Proof.
  revert i. induction l as [|y l IH]; intros i; cbn.
  - split; [done|]. intros ([|? ?] & ? & ? & ? & _); done.
  - destruct (p y) eqn:Hy.
    + split.
      * intros [= <-]. by exists [], y, l.
      * intros ([|z l1] & x & l2 & E & <- & Hx & F); cbn in *; simplify_eq; [done|].
        inv F. congruence.
    + rewrite fmap_Some. setoid_rewrite IH. split.
      * intros (j & (l1 & x & l2 & -> & <- & Hx & F) & ->).
        exists (y :: l1), x, l2. split_and!; try done. by constructor.
      * intros ([|z l1] & x & l2 & E & <- & Hx & F); cbn in *; simplify_eq; [congruence|].
        inv F. exists (length l1). split; [|done]. by exists l1, x, l2.
Qed.

Lemma position_None {A} (p : A → bool) l :
  position p l = None ↔ Forall (λ y, p y = false) l.
Proof.
  induction l as [|y l IH]; cbn; [done|]. rewrite Forall_cons.
  destruct (p y) eqn:Hy; [naive_solver|]. rewrite fmap_None, IH. naive_solver.
Qed.

Lemma rposition_snoc {A} (p : A → bool) l x :
  p x = true → rposition p (l ++ [x]) = Some (length l).
Proof. intros Hx. induction l as [|y l IH]; cbn; [by rewrite Hx|by rewrite IH]. Qed.

Lemma rposition_lt {A} (p : A → bool) l i : rposition p l = Some i → i < length l.
Proof.
  revert i. induction l as [|x l IH]; intros i; cbn; [done|].
  destruct (rposition p l) as [j|].
  - intros [= <-]. specialize (IH j eq_refl). lia.
  - destruct (p x); [|done]. intros [= <-]. lia.
Qed.

(** [(lo..hi).find(p)]: the least index of the range that [p] holds of. *)
Fixpoint find_from (p : nat → bool) (lo n : nat) : option nat :=
  match n with
  | 0 => None
  | S n => if p lo then Some lo else find_from p (S lo) n
  end.

Definition find_in (p : nat → bool) (lo hi : nat) : option nat := find_from p lo (hi - lo).

Lemma find_in_Some p lo hi d :
  find_in p lo hi = Some d ↔ lo ≤ d < hi ∧ p d = true ∧ ∀ i, lo ≤ i < d → p i = false.
Proof.
  unfold find_in. remember (hi - lo) as n eqn:Hn. revert lo Hn.
  induction n as [|n IH]; intros lo Hn; cbn; [split; [done|lia]|].
  destruct (p lo) eqn:Hp.
  - split; [intros [= <-]; split_and!; [lia|lia|done|lia]|].
    intros (H & Hd & Hi). f_equal. destruct (decide (lo = d)) as [|Hne]; [done|].
    rewrite Hi in Hp by lia. done.
  - rewrite IH by lia. split; intros (H & Hd & Hi); split_and!; try done; try lia.
    + intros i Hi'. destruct (decide (i = lo)) as [->|]; [done|]. apply Hi. lia.
    + destruct (decide (lo = d)) as [->|]; [congruence|lia].
    + intros i Hi'. apply Hi. lia.
Qed.

Lemma find_in_None p lo hi :
  find_in p lo hi = None ↔ ∀ i, lo ≤ i < hi → p i = false.
Proof.
  unfold find_in. remember (hi - lo) as n eqn:Hn. revert lo Hn.
  induction n as [|n IH]; intros lo Hn; cbn; [split; [lia|done]|].
  destruct (p lo) eqn:Hp.
  - split; [done|]. intros H. rewrite H in Hp by lia. done.
  - rewrite IH by lia. split; intros H i Hi; [|apply H; lia].
    destruct (decide (i = lo)) as [->|]; [done|]. apply H. lia.
Qed.
