(* ===== verification/Txns.v ===== *)
(** * Transactions: staging, commit and replay

    Models the commit path of [crates/skep-kernel/src/kernel.rs] ([Staging],
    [Sequencer], [transact_attested]) and the fold of
    [crates/skep-kernel/src/replay.rs] and [journal/scan.rs] ([records_to],
    [fold_to]), with the lock keys of [lib.rs]. The journal is the sequence of its
    committed records: frames, segments, checksums and the commit chain are below
    the model, and so is the disk, whose answer to one commit is an argument. *)

From stdpp Require Import relations.
From S2P Require Import Prelude.

Notation Seq := N (only parsing).

(** ** Lock keys *)

Inductive Space := Namespace | CoverageClass | Principals | Nodes.

(** [Space::tag], the variant's discriminant. *)
Definition space_tag (s : Space) : N :=
  match s with Namespace => 1 | CoverageClass => 2 | Principals => 3 | Nodes => 4 end.

Record LockKey := MkLockKey { lock_bytes : list N }.

Definition LockKey_new (space : Space) (bytes : list N) : LockKey :=
  MkLockKey (space_tag space :: bytes).

Lemma LockKey_new_inj s1 s2 b1 b2 :
  LockKey_new s1 b1 = LockKey_new s2 b2 → s1 = s2 ∧ b1 = b2.
Proof. intros [= Ht ->]. split; [|done]. by destruct s1, s2. Qed.

(** ** The world *)

(** [trait WorldState]: a world folds its records, each at a position. *)
Class WorldState (W R : Type) := apply : W → Seq → R → outcome W.

Definition fold_world {W R} `{WorldState W R} (w : W) (at_ : Seq) (rs : list R) : outcome W :=
  foldl (λ m r, w ← m; apply w at_ r) (Done w) rs.

(** ** The order *)

Definition u64_max : N := (2 ^ 64 - 1)%N.

Inductive BurnedSeqPolicy := Rollback | TolerateGap.

Record Sequencer := MkSequencer { high_water : N; floor : N; burned_seq : BurnedSeqPolicy }.

Definition recovered (floor : N) (burned_seq : BurnedSeqPolicy) : Sequencer :=
  MkSequencer floor floor burned_seq.

(** [checked_add], then the filter on the top coordinate. *)
Definition Sequencer_mint (sq : Sequencer) (n : N) : option (N * N * Sequencer) :=
  let last := (high_water sq + n)%N in
  if (u64_max <? last)%N then None
  else if (last <? u64_max)%N
  then Some ((high_water sq + 1)%N, last, MkSequencer last (floor sq) (burned_seq sq))
  else None.

Definition roll_back_to (sq : Sequencer) (base_seq : Seq) : Sequencer :=
  match burned_seq sq with
  | Rollback => MkSequencer (N.max base_seq (floor sq)) (floor sq) Rollback
  | TolerateGap => sq
  end.

(** ** Staging *)

Section Txns.
Context {W R Bytes : Type} `{World : WorldState W R}.
(** The codec of a record, third-party serialization. *)
Context (encode_record : R → Bytes) (decode_record : Bytes → option R).

Record Committed := MkCommitted { c_seq : Seq; c_world : W }.

Record Staging := MkStaging {
  stg_base : Committed;
  stg_working : W;
  stg_records : list R;
  stg_first : N
}.

Definition Staging_new (base : Committed) (first : N) : Staging :=
  MkStaging base (c_world base) [] first.

Definition base (s : Staging) : W := c_world (stg_base s).
Definition working (s : Staging) : W := stg_working s.

(** [self.first + self.records.len() as u64], wrapping at the width. *)
Definition push (s : Staging) (record : R) : outcome Staging :=
  let at_ := ((stg_first s + N.of_nat (length (stg_records s))) mod 2 ^ 64)%N in
  w ← apply (stg_working s) at_ record;
  Done (MkStaging (stg_base s) w (stg_records s ++ [record]) (stg_first s)).

Definition sealed (s : Staging) : outcome Staging :=
  let n := N.of_nat (length (stg_records s)) in
  if (n <=? 1)%N then Done s
  else
    let last := ((stg_first s + n - 1) mod 2 ^ 64)%N in
    w ← fold_world (c_world (stg_base s)) last (stg_records s);
    Done (MkStaging (stg_base s) w (stg_records s) (stg_first s)).

(** ** The journal, as the records its committed transactions hold *)

Record CommittedRecord := MkCommittedRecord { cr_seq : Seq; cr_at : Seq; cr_bytes : Bytes }.

(** One transaction's frames: the [i]-th record at [first + i], closed by a marker at [last]. *)
Definition frames (first last : N) (records : list R) : list CommittedRecord :=
  imap (λ i r, MkCommittedRecord (first + N.of_nat i)%N last (encode_record r)) records.

(** What the disk answers one commit: a failure's truncation may leave the frames
    standing, and an unwind past the barrier may or may not have installed. *)
Inductive UnwindRepair := RepairClean | Unrepaired (stands : bool) | AfterBarrier (installed : bool).

Inductive CommitAnswer :=
  | Acked
  | FailClean
  | FailUnencodable
  | FailOverBudget (bytes : N)
  | FailUnrepaired (stands : bool)
  | Unwound (repair : UnwindRepair).

Inductive TxnError (E : Type) :=
  | Rejected (e : E)
  | Durability
  | Unencodable
  | OverBudget (bytes : N)
  | Poisoned.

(** A call returns its result, or lets the commit region's panic propagate. *)
Inductive CallEnd (T E : Type) :=
  | Returned (r : result (T * Seq) (TxnError E))
  | Propagated.

Record Kernel := MkKernel {
  k_root : Committed;
  k_sequencer : Sequencer;
  k_poisoned : bool;
  k_journal : list CommittedRecord
}.

Definition snapshot (k : Kernel) : Committed := k_root k.

Definition transact {T E} (k : Kernel) (answer : CommitAnswer)
    (f : Staging → outcome (result T E * Staging)) : outcome (Kernel * CallEnd T E) :=
  if k_poisoned k then Done (k, Returned T E (Err (Poisoned E)))
  else
    let base := k_root k in
    let sq := k_sequencer k in
    '(r, stg) ← f (Staging_new base (N.min (high_water sq + 1) u64_max));
    match r with
    | Err e => Done (k, Returned T E (Err (Rejected E e)))
    | Ok value =>
        stg ← sealed stg;
        let n := N.of_nat (length (stg_records stg)) in
        if (n =? 0)%N then Done (k, Returned T E (Ok (value, c_seq base)))
        else
          match Sequencer_mint sq n with
          | None => Done (MkKernel base sq true (k_journal k), Returned T E (Err (Poisoned E)))
          | Some (first, last, sq') =>
              let rolled := roll_back_to sq' (c_seq base) in
              let written := k_journal k ++ frames first last (stg_records stg) in
              let kept (stands : bool) := if stands then written else k_journal k in
              let installed := MkCommitted last (stg_working stg) in
              Done match answer with
              | Acked => (MkKernel installed sq' false written, Returned T E (Ok (value, last)))
              | FailClean => (MkKernel base rolled false (k_journal k), Returned T E (Err (Durability E)))
              | FailUnencodable => (MkKernel base rolled false (k_journal k), Returned T E (Err (Unencodable E)))
              | FailOverBudget bytes =>
                  (MkKernel base rolled false (k_journal k), Returned T E (Err (OverBudget E bytes)))
              | FailUnrepaired stands =>
                  (MkKernel base sq' true (kept stands), Returned T E (Err (Poisoned E)))
              | Unwound RepairClean => (MkKernel base rolled false (k_journal k), Propagated T E)
              | Unwound (Unrepaired stands) => (MkKernel base sq' true (kept stands), Propagated T E)
              | Unwound (AfterBarrier inst) =>
                  (MkKernel (if inst then installed else base) sq' true written, Propagated T E)
              end
          end
    end.

(** ** Replay *)

Inductive Collect := Records (bound : option N) | Boundaries.

Record ScanOutcome := MkScanOutcome {
  sc_s_load : N;
  sc_collect : Collect;
  sc_records : list CommittedRecord
}.

Definition covers (sc : ScanOutcome) (bound : N) : bool :=
  match sc_collect sc with
  | Records collected => match collected with None => true | Some c => (bound <=? c)%N end
  | Boundaries => false
  end.

(** [sort_by_key] on the coordinate, which is stable. *)
Fixpoint insert_by_seq (e : CommittedRecord) (l : list CommittedRecord) : list CommittedRecord :=
  match l with
  | [] => [e]
  | x :: l' => if (cr_seq e <=? cr_seq x)%N then e :: l else x :: insert_by_seq e l'
  end.

Definition sort_by_seq (l : list CommittedRecord) : list CommittedRecord := foldr insert_by_seq [] l.

(** [windows(2).find(..)]: the first coordinate two neighbours share. *)
Fixpoint repeated_seq (l : list CommittedRecord) : option N :=
  match l with
  | x :: (y :: _) as l' => if (cr_seq x =? cr_seq y)%N then Some (cr_seq x) else repeated_seq l'
  | _ => None
  end.

Definition records_to (sc : ScanOutcome) (bound : N) : outcome (result (list CommittedRecord) N) :=
  _ ← assert (covers sc bound);
  let records := sort_by_seq
    (filter (λ e, (sc_s_load sc <? cr_seq e)%N && (cr_seq e <=? bound)%N = true) (sc_records sc)) in
  Done match repeated_seq records with Some at_ => Err at_ | None => Ok records end.

Fixpoint fold_records (w : W) (l : list CommittedRecord) : outcome (result W N) :=
  match l with
  | [] => Done (Ok w)
  | e :: l =>
      match decode_record (cr_bytes e) with
      | None => Done (Err (cr_seq e))
      | Some r => w ← apply w (cr_at e) r; fold_records w l
      end
  end.

(** [fold_to]: the error is [FoldFail]'s coordinate. *)
Definition fold_to (world : W) (sc : ScanOutcome) (bound : N) : outcome (result W N) :=
  l ←? records_to sc bound;
  fold_records world l.
End Txns.

(** ** Laws *)

Arguments Rejected {E} e.
Arguments Durability {E}.
Arguments Unencodable {E}.
Arguments OverBudget {E} bytes.
Arguments Poisoned {E}.
Arguments Returned {T E} r.
Arguments Propagated {T E}.
#[local] Arguments fold_to : simpl never.
Arguments MkStaging {W R}.
Arguments MkCommitted {W}.
Arguments MkKernel {W Bytes}.
Arguments MkScanOutcome {Bytes}.
Arguments c_seq {W} c.
Arguments c_world {W} c.
Arguments k_root {W Bytes} k.
Arguments k_journal {W Bytes} k.
Arguments k_sequencer {W Bytes} k.
Arguments k_poisoned {W Bytes} k.

(** What the private fields of a staging leave a closure: it pushes. *)
Inductive pushes {W R} `{WorldState W R} (s : Staging (W := W) (R := R)) : Staging (W := W) (R := R) → Prop :=
  | pushes_none : pushes s s
  | pushes_more s' r s'' : pushes s s' → push s' r = Done s'' → pushes s s''.

Definition closure {W R T E} `{WorldState W R}
    (f : Staging (W := W) (R := R) → outcome (result T E * Staging (W := W) (R := R))) : Prop :=
  ∀ s r s', f s = Done (r, s') → pushes s s'.

Section Laws.
Context {W R Bytes : Type} `{World : WorldState W R}.
Context (encode_record : R → Bytes) (decode_record : Bytes → option R).
#[local] Notation Staging := (Staging (W := W) (R := R)).
#[local] Notation Entry := (CommittedRecord (Bytes := Bytes)).

Lemma fold_world_app w at_ (l1 l2 : list R) :
  fold_world w at_ (l1 ++ l2) = (w ← fold_world w at_ l1; fold_world w at_ l2).
Proof using.
  unfold fold_world. rewrite foldl_app. generalize (foldl (λ m r, w ← m; apply w at_ r) (Done w) l1).
  intros m. destruct m as [w'|]; [done|]. cbn. induction l2; done.
Qed.

Lemma fold_world_cons w at_ r (l : list R) :
  fold_world w at_ (r :: l) = (w' ← apply w at_ r; fold_world w' at_ l).
Proof using. apply (fold_world_app w at_ [r] l). Qed.

(** A staging is its base folded with its records; for one record, at its own position. *)
Lemma pushes_inv base first (s : Staging) :
  pushes (Staging_new base first) s →
  stg_base s = base ∧ stg_first s = first ∧
  (stg_records s = [] → stg_working s = c_world base) ∧
  (∀ r, stg_records s = [r] → apply (c_world base) (first mod 2 ^ 64)%N r = Done (stg_working s)).
Proof using.
  induction 1 as [|s' r s'' _ (Hb & Hf & H0 & H1) Hp]; [done|].
  unfold push in Hp. apply bind_inv in Hp as (w & Ha & [= <-]). cbn. split_and!; [done|done| |].
  - intros E. by destruct (stg_records s').
  - intros r' E. destruct (stg_records s') as [|x [|??]] eqn:Er; [|done..].
    injection E as ->. rewrite H0, Hf in Ha by done. cbn in Ha. by rewrite N.add_0_r in Ha.
Qed.

(** Sealing leaves the records folded at the transaction's own coordinate. *)
Lemma sealed_ok base first (s s' : Staging) :
  pushes (Staging_new base first) s → sealed s = Done s' →
  (first + N.of_nat (length (stg_records s)) ≤ 2 ^ 64)%N →
  stg_base s' = base ∧ stg_records s' = stg_records s ∧
  fold_world (c_world base) (first + N.of_nat (length (stg_records s)) - 1) (stg_records s)
    = Done (stg_working s').
Proof using.
  intros (Hb & Hf & H0 & H1)%pushes_inv Hs Hw. unfold sealed in Hs.
  destruct (N.leb_spec (N.of_nat (length (stg_records s))) 1) as [Hn|Hn].
  - injection Hs as <-. split_and!; [done|done|].
    destruct (stg_records s) as [|r [|??]] eqn:E; [..|cbn in Hn; lia].
    + unfold fold_world. cbn. by rewrite H0.
    + specialize (H1 r eq_refl). unfold fold_world. cbn in *.
      rewrite N.mod_small in H1 by lia. rewrite <- H1. f_equal. lia.
  - apply bind_inv in Hs as (w & Ha & [= <-]). cbn. split_and!; [done|done|].
    rewrite N.mod_small in Ha by lia. by rewrite <- Hb, <- Hf.
Qed.

Lemma sealed_records (s s' : Staging) : sealed s = Done s' → stg_records s' = stg_records s.
Proof using.
  unfold sealed. destruct (_ <=? 1)%N; [by intros [= <-]|].
  by intros (w & _ & [= <-])%bind_inv.
Qed.

Lemma Sequencer_mint_Some sq n first last sq' :
  Sequencer_mint sq n = Some (first, last, sq') →
  first = (high_water sq + 1)%N ∧ last = (high_water sq + n)%N ∧ (last < u64_max)%N ∧
  high_water sq' = last.
Proof using.
  unfold Sequencer_mint. destruct (_ <? _)%N; [done|].
  destruct (N.ltb_spec (high_water sq + n) u64_max); [|done]. by intros [= <- <- <-].
Qed.

(** ** The journal's order *)

Definition ascending (l : list Entry) : Prop := StronglySorted (λ a b, (cr_seq a < cr_seq b)%N) l.

Lemma sort_ascending l : ascending l → sort_by_seq l = l.
Proof using.
  induction 1 as [|x l Hl IH Hx]; [done|].
  change (insert_by_seq x (sort_by_seq l) = x :: l). rewrite IH. destruct l as [|y l]; [done|]. cbn.
  apply Forall_cons in Hx as [Hx _]. by rewrite (proj2 (N.leb_le _ _)) by lia.
Qed.

Lemma repeated_ascending l : ascending l → repeated_seq l = None.
Proof using.
  induction 1 as [|x l Hl IH Hx]; [done|]. destruct l as [|y l]; [done|].
  apply Forall_cons in Hx as [Hx _]. cbn [repeated_seq].
  rewrite (proj2 (N.eqb_neq _ _)) by lia. done.
Qed.

Lemma ascending_filter (P : Entry → Prop) `{∀ x, Decision (P x)} l : ascending l → ascending (filter P l).
Proof using.
  induction 1 as [|x l Hl IH Hx]; [constructor|]. rewrite filter_cons. case_decide; [|done].
  constructor; [done|]. rewrite Forall_forall in *. intros y [_ Hy]%list_elem_of_filter. by apply Hx.
Qed.

Lemma ascending_app l k :
  ascending l → ascending k → (∀ x y, x ∈ l → y ∈ k → (cr_seq x < cr_seq y)%N) → ascending (l ++ k).
Proof using.
  induction 1 as [|x l Hl IH Hx]; [done|]. intros Hk Hlk. cbn. constructor.
  - apply IH; [done|]. intros; apply Hlk; [by right|done].
  - apply Forall_app. split; [done|]. apply Forall_forall. intros y Hy. apply Hlk; [by left|done].
Qed.

(** The whole journal, scanned from genesis. *)
Definition whole (journal : list Entry) : ScanOutcome := MkScanOutcome 0 (Records None) journal.

Definition upto (b : N) (l : list Entry) : list Entry := filter (λ e, (cr_seq e ≤ b)%N) l.

Lemma fold_to_upto w journal b :
  ascending journal → Forall (λ e, (0 < cr_seq e)%N) journal →
  fold_to decode_record w (whole journal) b = fold_records decode_record w (upto b journal).
Proof using.
  intros Ha Hp. unfold fold_to, records_to. cbn [covers whole sc_collect assert mbind outcome_bind sc_s_load sc_records].
  assert (filter (λ e, (0 <? cr_seq e)%N && (cr_seq e <=? b)%N = true) journal = upto b journal) as ->.
  { clear Ha. unfold upto. induction Hp as [|e l He Hl IH]; [done|]. rewrite !filter_cons, IH.
    apply decide_ext. rewrite andb_true_iff, N.ltb_lt, N.leb_le. tauto. }
  pose proof (ascending_filter (λ e, (cr_seq e ≤ b)%N) journal Ha) as Hf. fold (upto b journal) in Hf.
  by rewrite sort_ascending, repeated_ascending by done.
Qed.

Lemma fold_records_app w l1 l2 :
  fold_records decode_record w (l1 ++ l2) =
  (w ←? fold_records decode_record w l1; fold_records decode_record w l2).
Proof using.
  revert w. induction l1 as [|e l1 IH]; intros w; [done|]. cbn.
  destruct (decode_record (cr_bytes e)) as [r|]; [|done].
  destruct (apply w (cr_at e) r) as [w'|]; [|done]. apply IH.
Qed.

(** ** A transaction's frames *)

Lemma frames_seq first last (rs : list R) e :
  e ∈ frames encode_record first last rs →
  (first ≤ cr_seq e ∧ cr_seq e < first + N.of_nat (length rs))%N.
Proof using.
  unfold frames. intros (i & r & -> & Hi)%elem_of_lookup_imap. cbn. apply lookup_lt_Some in Hi. lia.
Qed.

Lemma frames_cons first last r (rs : list R) :
  frames encode_record first last (r :: rs) =
  MkCommittedRecord first last (encode_record r) :: frames encode_record (first + 1) last rs.
Proof using.
  unfold frames. rewrite imap_cons. cbn. f_equal; [by rewrite N.add_0_r|].
  apply imap_ext. intros i x _. cbn. f_equal. lia.
Qed.

Lemma frames_ascending first last (rs : list R) : ascending (frames encode_record first last rs).
Proof using.
  revert first. induction rs as [|r rs IH]; intros first; [constructor|].
  rewrite frames_cons. constructor; [apply IH|]. apply Forall_forall. intros e He%frames_seq. cbn. lia.
Qed.

Context (codec : ∀ r, decode_record (encode_record r) = Some r).

Lemma fold_frames w first last (rs : list R) :
  fold_records decode_record w (frames encode_record first last rs) =
  (w' ← fold_world w last rs; Done (Ok w')).
Proof using codec.
  revert w first. induction rs as [|r rs IH]; intros w first; [done|].
  rewrite frames_cons. cbn [fold_records cr_bytes cr_at]. rewrite codec.
  rewrite fold_world_cons. destruct (apply w last r) as [w'|]; [apply IH|done].
Qed.

Lemma upto_entries_app b (l k : list Entry) : upto b (l ++ k) = upto b l ++ upto b k.
Proof using. apply filter_app. Qed.

Lemma upto_entries_all b (l : list Entry) : (∀ e, e ∈ l → (cr_seq e ≤ b)%N) → upto b l = l.
Proof using.
  intros H. unfold upto. induction l as [|x l IH]; [done|].
  rewrite filter_cons_True by (apply H; by left). f_equal. apply IH. intros e He. apply H. by right.
Qed.

Lemma upto_entries_none b (l : list Entry) : (∀ e, e ∈ l → (b < cr_seq e)%N) → upto b l = [].
Proof using.
  intros H. unfold upto. induction l as [|x l IH]; [done|].
  rewrite filter_cons_False; [|specialize (H x ltac:(by left)); lia]. apply IH. intros e He. apply H. by right.
Qed.

(** ** The invariant of the commit path

    The root is what a fold of the journal from genesis answers at the root's own
    coordinate; a kernel not poisoned holds nothing past it. *)
Record kernel_ok (genesis : W) (k : Kernel (W := W) (Bytes := Bytes)) : Prop := {
  ok_ascending : ascending (k_journal k);
  ok_positive : Forall (λ e : Entry, (0 < cr_seq e)%N) (k_journal k);
  ok_order : (c_seq (k_root k) ≤ high_water (k_sequencer k))%N;
  ok_head : k_poisoned k = false → ∀ e, e ∈ k_journal k → (cr_seq e ≤ c_seq (k_root k))%N;
  ok_replay : fold_to decode_record genesis (whole (k_journal k)) (c_seq (k_root k))
    = Done (Ok (c_world (k_root k)))
}.

(** What a commit of [rs] on a sound kernel does to the journal. *)
Lemma commit_ok genesis k first last sq' (rs : list R) w b :
  kernel_ok genesis k → k_poisoned k = false →
  Sequencer_mint (k_sequencer k) (N.of_nat (length rs)) = Some (first, last, sq') →
  fold_world (c_world (k_root k)) last rs = Done w →
  let written := k_journal k ++ frames encode_record first last rs in
  first = (high_water (k_sequencer k) + 1)%N ∧ high_water sq' = last ∧
  (c_seq (k_root k) ≤ last)%N ∧ (last < u64_max)%N ∧ last = (first + N.of_nat (length rs) - 1)%N ∧
  ascending written ∧ Forall (λ e : Entry, (0 < cr_seq e)%N) written ∧
  (∀ e, e ∈ written → rs ≠ [] → (cr_seq e ≤ last)%N) ∧
  fold_to decode_record genesis (whole written) last = Done (Ok w) ∧
  ((b ≤ c_seq (k_root k))%N → upto b written = upto b (k_journal k)).
Proof using codec.
  intros [Ha Hp Ho Hh Hr] Hpo Hm Hf. specialize (Hh Hpo).
  apply Sequencer_mint_Some in Hm as (-> & -> & Hmax & Hsq).
  intros written; subst written.
  set (hw := high_water (k_sequencer k)) in *. set (fr := frames _ _ _ _).
  assert (Hfr : ∀ e, e ∈ fr → (hw + 1 ≤ cr_seq e ∧ cr_seq e ≤ hw + N.of_nat (length rs))%N).
  { intros e He%frames_seq. lia. }
  assert (Hasc : ascending (k_journal k ++ fr)).
  { apply ascending_app; [done|apply frames_ascending|]. intros x y Hx%Hh Hy%Hfr. lia. }
  assert (Hpos : Forall (λ e : Entry, (0 < cr_seq e)%N) (k_journal k ++ fr)).
  { apply Forall_app. split; [done|]. apply Forall_forall. intros e He%Hfr. lia. }
  split_and!; try done; [lia|lia| | |].
  - intros e [He%Hh|He%Hfr]%elem_of_app _; lia.
  - rewrite fold_to_upto by done. rewrite fold_to_upto in Hr by done.
    rewrite upto_entries_app, (upto_entries_all _ fr) by (intros e He%Hfr; lia).
    rewrite upto_entries_all in Hr by done. rewrite upto_entries_all by (intros e He%Hh; lia).
    rewrite fold_records_app, Hr. cbn [try_bind]. unfold fr. rewrite fold_frames.
    rewrite Hf. done.
  - intros Hb. rewrite upto_entries_app, (upto_entries_none _ fr), app_nil_r by (intros e He%Hfr; lia). done.
Qed.

(** The three shapes a call leaves the kernel in. *)
Lemma kept_ok genesis k sq p :
  kernel_ok genesis k → (c_seq (k_root k) ≤ high_water sq)%N →
  (p = false → k_poisoned k = false) →
  kernel_ok genesis (MkKernel (k_root k) sq p (k_journal k)).
Proof using. intros [] Hs Hp. constructor; cbn; auto. Qed.

Lemma rolled_order sq (b : N) : (b ≤ high_water sq)%N → (b ≤ high_water (roll_back_to sq b))%N.
Proof using. unfold roll_back_to. destruct (burned_seq sq); cbn; lia. Qed.

(** How a call ended, against the kernel it found and the one it left. *)
Definition call_ended {T E} (k k' : Kernel (W := W) (Bytes := Bytes))
    (f : Staging → outcome (result T E * Staging)) (e : CallEnd T E) : Prop :=
  match e with
  | Returned (Ok (v, at_)) =>
      at_ = c_seq (k_root k') ∧ k_poisoned k' = false ∧
      ∃ s first, f (Staging_new (k_root k) first) = Done (Ok v, s) ∧
        k_journal k' = k_journal k ++ frames encode_record first at_ (stg_records s)
  | Returned (Err Poisoned) => k_poisoned k' = true ∧ k_root k' = k_root k
  | Returned (Err _) => k_root k' = k_root k ∧ k_journal k' = k_journal k ∧ k_poisoned k' = false
  | Propagated => k_poisoned k' = true ∨ (k_root k' = k_root k ∧ k_journal k' = k_journal k)
  end.

Definition sound_step {T E} (genesis : W) (k k' : Kernel (W := W) (Bytes := Bytes))
    (f : Staging → outcome (result T E * Staging)) (e : CallEnd T E) : Prop :=
  kernel_ok genesis k' ∧
  (∀ b, (b ≤ c_seq (k_root k))%N →
     fold_to decode_record genesis (whole (k_journal k')) b =
     fold_to decode_record genesis (whole (k_journal k)) b) ∧
  (c_seq (k_root k) ≤ c_seq (k_root k'))%N ∧
  call_ended k k' f e.

Lemma kept_step {T E} genesis k sq p f (e : CallEnd T E) :
  kernel_ok genesis k → (c_seq (k_root k) ≤ high_water sq)%N → (p = false → k_poisoned k = false) →
  call_ended k (MkKernel (k_root k) sq p (k_journal k)) f e →
  sound_step genesis k (MkKernel (k_root k) sq p (k_journal k)) f e.
Proof using. intros. split_and!; [by apply kept_ok|done|done|done]. Qed.

(** The commit region, whatever the disk answers. *)
Lemma region_step {T E} genesis k f s first last sq' w (v : T) p (root : Committed (W := W)) (e : CallEnd T E) :
  kernel_ok genesis k → k_poisoned k = false →
  f (Staging_new (k_root k) first) = Done (Ok v, s) → stg_records s ≠ [] →
  Sequencer_mint (k_sequencer k) (N.of_nat (length (stg_records s))) = Some (first, last, sq') →
  fold_world (c_world (k_root k)) last (stg_records s) = Done w →
  (p = false → root = MkCommitted last w) → root = k_root k ∨ root = MkCommitted last w →
  (e = Returned (Ok (v, last)) ∧ p = false ∨ e = Propagated ∧ p = true ∨
   e = Returned (Err Poisoned) ∧ p = true ∧ root = k_root k) →
  sound_step genesis k
    (MkKernel root sq' p (k_journal k ++ frames encode_record first last (stg_records s))) f e.
Proof using codec.
  intros Hk Hpo Hf Hrs Hm Hw Hp Hroot He.
  destruct (commit_ok genesis k first last sq' _ w 0 Hk Hpo Hm Hw)
    as (_ & Hsq & Hlast & _ & _ & Ha & Hpos & Hle & Hfold & _).
  assert (Hup : ∀ b, (b ≤ c_seq (k_root k))%N →
    fold_to decode_record genesis
      (whole (k_journal k ++ frames encode_record first last (stg_records s))) b =
    fold_to decode_record genesis (whole (k_journal k)) b).
  { intros b Hb. destruct (commit_ok genesis k first last sq' _ w b Hk Hpo Hm Hw)
      as (_ & _ & _ & _ & _ & _ & _ & _ & _ & Hu).
    destruct Hk as [Hka Hkp _ _ _]. by rewrite !fold_to_upto, Hu. }
  assert (Hseq : (c_seq (k_root k) ≤ c_seq root ∧ c_seq root ≤ last)%N).
  { destruct Hroot as [-> | ->]; cbn; lia. }
  split_and!; [constructor; cbn| |apply Hseq|].
  - done.
  - done.
  - rewrite Hsq. apply Hseq.
  - intros Hpf e' He'. rewrite (Hp Hpf). cbn. by apply Hle.
  - destruct Hroot as [-> | ->]; [|done]. rewrite Hup by done. apply Hk.
  - done.
  - destruct He as [[-> ->]|[[-> ->]|(-> & -> & ->)]]; cbn; [|by left|done].
    rewrite (Hp eq_refl). cbn. split_and!; [done|done|]. by exists s, first.
Qed.

(** ** What one call does to the root *)

Lemma transact_inv {T E} (k : Kernel (W := W) (Bytes := Bytes)) answer
    (f : Staging → outcome (result T E * Staging)) k' (e : CallEnd T E) :
  closure f → transact encode_record k answer f = Done (k', e) →
  (k_root k' = k_root k ∨ ∃ v first s, f (Staging_new (k_root k) first) = Done (Ok v, s) ∧
     fold_world (c_world (k_root k)) (c_seq (k_root k')) (stg_records s) = Done (c_world (k_root k'))) ∧
  match e with
  | Returned (Ok (v, at_)) =>
      ∃ first s, f (Staging_new (k_root k) first) = Done (Ok v, s) ∧
        fold_world (c_world (k_root k)) at_ (stg_records s) = Done (c_world (k_root k'))
  | Returned (Err (Rejected er)) =>
      k' = k ∧ ∃ first s, f (Staging_new (k_root k) first) = Done (Err er, s)
  | _ => True
  end.
Proof using.
  intros Hf Ht. unfold transact in Ht. destruct (k_poisoned k).
  { injection Ht as <- <-. split; [by left|done]. }
  apply bind_inv in Ht as ([r s] & Hs & Ht). destruct r as [v|er].
  2: { injection Ht as <- <-. split; [by left|]. split; [done|by eexists _, _]. }
  apply bind_inv in Ht as (s' & Hseal & Ht). pose proof (sealed_records _ _ Hseal) as Hlen.
  destruct (pushes_inv _ _ _ (Hf _ _ _ Hs)) as (_ & _ & H0 & _).
  destruct (N.eqb_spec (N.of_nat (length (stg_records s'))) 0) as [Hz|Hz].
  { injection Ht as <- <-. split; [by left|]. eexists _, s. split; [exact Hs|].
    assert (stg_records s = []) as -> by (rewrite <- Hlen; by destruct (stg_records s')). done. }
  destruct (Sequencer_mint _ _) as [[[first last] sq']|] eqn:Hm.
  2: { injection Ht as <- <-. split; [by left|done]. }
  destruct (Sequencer_mint_Some _ _ _ _ _ Hm) as (Hfirst & Hlast & Hmax & _).
  rewrite N.min_l in Hs by lia. rewrite Hlen in Hlast, Hz.
  destruct (sealed_ok _ _ _ _ (Hf _ _ _ Hs) Hseal) as (_ & _ & Hfold); [unfold u64_max in *; lia|].
  replace (high_water (k_sequencer k) + 1 + N.of_nat (length (stg_records s)) - 1)%N
    with last in Hfold by lia.
  destruct answer as [| | |bytes|stands|[|stands|[]]]; injection Ht as <- <-;
    (split; [first [by left | right; by eexists v, _, s]|done || (by eexists _, s)]).
Qed.

(** A call panics only where its closure, or the fold of what it staged, does. *)
Lemma transact_done {T E} (k : Kernel (W := W) (Bytes := Bytes)) answer
    (f : Staging → outcome (result T E * Staging)) :
  closure f →
  (∀ first, ∃ r s, f (Staging_new (k_root k) first) = Done (r, s) ∧
     ∀ v at_, r = Ok v → ∃ w, fold_world (c_world (k_root k)) at_ (stg_records s) = Done w) →
  ∃ k' e, transact encode_record k answer f = Done (k', e).
Proof using.
  intros Hf Hd. unfold transact. destruct (k_poisoned k); [by eexists _, _|].
  destruct (Hd (N.min (high_water (k_sequencer k) + 1) u64_max)) as (r & s & Hs & Hw).
  rewrite Hs. cbn [mbind outcome_bind]. destruct r as [v|er]; [|by eexists _, _].
  destruct (pushes_inv _ _ _ (Hf _ _ _ Hs)) as (Hb & _).
  assert (∃ s', sealed s = Done s') as (s' & Hseal).
  { unfold sealed. destruct (_ <=? 1)%N; [by eexists|]. rewrite Hb.
    edestruct (Hw v) as (w & Hfold); [done|]. rewrite Hfold. by eexists. }
  rewrite Hseal. cbn [mbind outcome_bind]. destruct (_ =? 0)%N; [by eexists _, _|].
  destruct (Sequencer_mint _ _) as [[[first last] sq']|]; [|by eexists _, _].
  destruct answer as [| | | | |[]]; by eexists _, _.
Qed.
End Laws.

(** A call whose failed write was not repaired: the frames may stand, the kernel is
    poisoned. *)
Lemma unrepaired_step {W R Bytes T E} `{WorldState W R} (encode_record : R → Bytes) (decode_record : Bytes → option R)
    (genesis : W) (k : Kernel (W := W) (Bytes := Bytes)) f s first last sq' w (v : T) (stands : bool) (e : CallEnd T E) :
  (∀ r, decode_record (encode_record r) = Some r) →
  kernel_ok decode_record genesis k → k_poisoned k = false →
  f (Staging_new (k_root k) first) = Done (Ok v, s) → stg_records s ≠ [] →
  Sequencer_mint (k_sequencer k) (N.of_nat (length (stg_records s))) = Some (first, last, sq') →
  fold_world (c_world (k_root k)) last (stg_records s) = Done w →
  (c_seq (k_root k) ≤ high_water sq')%N →
  e = Propagated ∨ e = Returned (Err Poisoned) →
  sound_step encode_record decode_record genesis k
    (MkKernel (k_root k) sq' true
      (if stands then k_journal k ++ frames encode_record first last (stg_records s) else k_journal k)) f e.
Proof.
  intros codec Hk Hpo Hs Hne Hm Hfold Hord He. destruct stands.
  - eapply region_step; try done; [by left|]. destruct He as [-> | ->]; tauto.
  - apply kept_step; [done..|]. destruct He as [-> | ->]; cbn; auto.
Qed.

Lemma transact_sound {W R Bytes T E} `{WorldState W R}
    (encode_record : R → Bytes) (decode_record : Bytes → option R) (genesis : W)
    (k k' : Kernel (W := W) (Bytes := Bytes)) (answer : CommitAnswer)
    (f : Staging (W := W) (R := R) → outcome (result T E * Staging (W := W) (R := R)))
    (e : CallEnd T E) :
  (∀ r, decode_record (encode_record r) = Some r) → closure f →
  kernel_ok decode_record genesis k →
  transact encode_record k answer f = Done (k', e) →
  sound_step encode_record decode_record genesis k k' f e.
Proof.
  intros codec Hf Hk Ht. unfold transact in Ht.
  destruct (k_poisoned k) eqn:Hpo; [injection Ht as <- <-; by split_and!|].
  apply bind_inv in Ht as ([r s] & Hs & Ht). pose proof (ok_order _ _ _ Hk) as Ho.
  assert (Hsame : k = MkKernel (k_root k) (k_sequencer k) false (k_journal k)) by (destruct k; cbn in *; congruence).
  destruct r as [v|err]; [|injection Ht as <- <-; rewrite Hsame at 2; by apply kept_step].
  apply bind_inv in Ht as (s' & Hseal & Ht). pose proof (sealed_records _ _ Hseal) as Hlen.
  destruct (pushes_inv _ _ _ (Hf _ _ _ Hs)) as (_ & _ & H0 & _).
  destruct (N.eqb_spec (N.of_nat (length (stg_records s'))) 0) as [Hz|Hz].
  { injection Ht as <- <-. assert (stg_records s = []) as Hnil by (rewrite <- Hlen; destruct (stg_records s'); [done|cbn in Hz; lia]).
    split_and!; [done|done|lia|]. split_and!; [done|done|]. eexists s, _. split; [exact Hs|].
    rewrite Hnil. cbn. by rewrite app_nil_r. }
  destruct (Sequencer_mint (k_sequencer k) (N.of_nat (length (stg_records s')))) as [[[first last] sq']|] eqn:Hm.
  2: { injection Ht as <- <-. by apply kept_step. }
  destruct (Sequencer_mint_Some _ _ _ _ _ Hm) as (Hfirst & Hlast & Hmax & Hsq).
  rewrite N.min_l in Hs by lia. rewrite Hlen in Hlast. rewrite <- Hfirst in Hs.
  destruct (sealed_ok _ _ _ _ (Hf _ _ _ Hs) Hseal) as (Hbase & Hrec & Hfold); [unfold u64_max in *; lia|].
  replace (first + N.of_nat (length (stg_records s)) - 1)%N with last in Hfold by lia. rewrite Hrec in *.
  assert (Hne : stg_records s ≠ []) by (intros E'; rewrite E' in Hz; done).
  assert (Hord : (c_seq (k_root k) ≤ high_water sq')%N) by lia.
  assert (Hroll : (c_seq (k_root k) ≤ high_water (roll_back_to sq' (c_seq (k_root k))))%N) by by apply rolled_order.
  destruct answer as [| | |bytes|stands|[|stands|inst]]; injection Ht as <- <-.
  - eapply region_step; try done; [by right|by left].
  - by apply kept_step.
  - by apply kept_step.
  - by apply kept_step.
  - by eapply unrepaired_step; auto.
  - apply kept_step; [done..|]. by right.
  - by eapply unrepaired_step; auto.
  - eapply region_step; try done; [by destruct inst; auto|]. tauto.
Qed.

(** A kernel just opened at genesis. *)
Definition opened {W Bytes} (genesis : W) (policy : BurnedSeqPolicy) : Kernel (W := W) (Bytes := Bytes) :=
  MkKernel (MkCommitted 0%N genesis) (recovered 0 policy) false [].

Lemma opened_ok {W R Bytes} `{WorldState W R} (decode_record : Bytes → option R) (genesis : W) policy :
  kernel_ok decode_record genesis (opened genesis policy).
Proof. constructor; cbn; [constructor|constructor|done|set_solver|done]. Qed.

(** One call of a kernel's history, of any type, answered by any disk. *)
Inductive kernel_step {W R Bytes} `{WorldState W R} (encode_record : R → Bytes)
    (k k' : Kernel (W := W) (Bytes := Bytes)) : Prop :=
  | call_step {T E : Type} answer (f : Staging (W := W) (R := R) → outcome (result T E * Staging)) (e : CallEnd T E) :
      closure f → transact encode_record k answer f = Done (k', e) → kernel_step encode_record k k'.

Lemma reached_ok {W R Bytes} `{WorldState W R} (encode_record : R → Bytes) (decode_record : Bytes → option R) genesis
    (k k' : Kernel (W := W) (Bytes := Bytes)) :
  (∀ r, decode_record (encode_record r) = Some r) → rtc (kernel_step encode_record) k k' →
  kernel_ok decode_record genesis k → kernel_ok decode_record genesis k'.
Proof.
  intros codec. induction 1 as [|k k1 k2 [T E answer f e Hf Ht] _ IH]; [done|]. intros Hk. apply IH.
  by eapply transact_sound.
Qed.

(** C3. The kernel's commit path, after any history of calls and whatever the disk
    answered them. Any closure (its staging reached by [push] alone) and any answer
    leave a sound kernel: its root is what folding the journal from genesis answers
    at the root's coordinate, so the live world is the replayed one; every earlier
    boundary reads as it did; the head never moves back. A call that returns a
    value committed all of its records at the coordinate it names, contiguous
    after the head; a call that returns another error changed neither root nor
    journal; one that may have left unacknowledged frames poisons the kernel. *)
Theorem transact_replays {W R Bytes T E} `{WorldState W R}
    (encode_record : R → Bytes) (decode_record : Bytes → option R) (genesis : W) (policy : BurnedSeqPolicy)
    (k k' : Kernel (W := W) (Bytes := Bytes)) (answer : CommitAnswer)
    (f : Staging (W := W) (R := R) → outcome (result T E * Staging (W := W) (R := R)))
    (e : CallEnd T E) :
  (∀ r, decode_record (encode_record r) = Some r) → closure f →
  rtc (kernel_step encode_record) (opened genesis policy) k →
  transact encode_record k answer f = Done (k', e) →
  sound_step encode_record decode_record genesis k k' f e.
Proof.
  intros codec Hf Hk Ht. eapply transact_sound; [done|done| |done]. by eapply reached_ok, opened_ok.
Qed.

(** A world that keeps each record with the position it was folded at. *)
#[local] Instance trace_world : WorldState (list (N * N)) N := λ w at_ r, Done (w ++ [(at_, r)]).

Definition two_pushes (s : Staging (W := list (N * N)) (R := N)) :
    outcome (result unit unit * Staging (W := list (N * N)) (R := N)) :=
  s1 ← push s 7%N; s2 ← push s1 8%N; Done (Ok tt, s2).

Lemma transact_replays_witness :
  let k := opened [] Rollback in
  ∃ k', transact id k Acked two_pushes = Done (k', Returned (Ok (tt, 2%N))) ∧
    c_world (k_root k') = [(2, 7); (2, 8)]%N ∧
    sound_step id Some [] k k' two_pushes (Returned (Ok (tt, 2%N))).
Proof.
  eexists. split; [vm_compute; reflexivity|]. split; [reflexivity|].
  apply (transact_replays id Some [] Rollback (opened [] Rollback) _ Acked two_pushes).
  - intros r. reflexivity.
  - intros s r s' Hs. unfold two_pushes in Hs.
    apply bind_inv in Hs as (s1 & H1 & Hs). apply bind_inv in Hs as (s2 & H2 & [= _ <-]).
    apply (pushes_more _ s1 8%N); [|exact H2]. apply (pushes_more _ s 7%N); [apply pushes_none|exact H1].
  - apply rtc_refl.
  - vm_compute. reflexivity.
Defined.
