(* ===== verification/Tumblers.v ===== *)
(** * Tumblers: the value, its identity and its order

    Models [crates/skep-address/src/tumbler.rs]: the tumbler carrier (T0, a
    nonempty sequence of naturals, sealed behind [Tumbler_new]), the total
    component read, the prefix-smaller lexicographic order of T1/T2, the
    canonical rendering, and the prefix test. *)

From Stdlib Require Import Ascii String Orders OrdersTac.
From stdpp Require Import strings countable pretty.
From S2P Require Import Prelude.

(** [num_bigint::BigUint], the unbounded natural of a component. *)
Notation Nat := N (only parsing).

(** A 1-based component index. *)
Notation Pos := nat (only parsing).

Definition nat_is_zero (c : Nat) : bool := (N.size c =? 0)%N.

Inductive EmptySequence := EmptySequence_.

#[export] Instance EmptySequence_eq_dec : EqDecision EmptySequence.
Proof. solve_decision. Defined.

(** [struct Tumbler(Vec<Nat>)]: the private field is only ever set through a
    constructor that refuses or never meets the empty sequence, so the
    invariant T0 is a field of the record. *)
Record Tumbler := MkTumbler {
  comps : list Nat;
  T0 : nonemptyb comps = true
}.

Definition Tumbler_new (cs : list Nat) : result Tumbler EmptySequence :=
  match cs with
  | [] => Err EmptySequence_
  | c :: cs => Ok (MkTumbler (c :: cs) eq_refl)
  end.

(** [TryFrom<Vec<Nat>>], the deserialization mint path. *)
Definition Tumbler_try_from (cs : list Nat) : result Tumbler EmptySequence := Tumbler_new cs.

(** The internal constructor: it asserts that the sequence is nonempty. *)
Definition from_vec (cs : list Nat) : outcome Tumbler :=
  match cs with
  | [] => Panicked
  | c :: cs => Done (MkTumbler (c :: cs) eq_refl)
  end.

Definition Tumbler_len (t : Tumbler) : nat := length (comps t).

(** [i.checked_sub(1).and_then(|z| self.0.get(z))] *)
Definition Tumbler_get (t : Tumbler) (i : Pos) : option Nat :=
  match i with
  | 0 => None
  | S z => comps t !! z
  end.

Definition Tumbler_iter (t : Tumbler) : list Nat := comps t.

(** [Vec]'s lexicographic, prefix-smaller order. *)
Fixpoint list_cmp (a b : list Nat) : comparison :=
  match a, b with
  | [], [] => Eq
  | [], _ :: _ => Lt
  | _ :: _, [] => Gt
  | x :: a, y :: b => match (x ?= y)%N with Eq => list_cmp a b | c => c end
  end.

Definition cmp (a b : Tumbler) : comparison := list_cmp (comps a) (comps b).

Definition ltb (a b : Tumbler) : bool := match cmp a b with Lt => true | _ => false end.
Definition leb (a b : Tumbler) : bool := match cmp a b with Gt => false | _ => true end.

(** [std::cmp::max] and [std::cmp::min]: the second, resp. the first, on a tie. *)
Definition tmax (a b : Tumbler) : Tumbler := match cmp a b with Gt => a | _ => b end.
Definition tmin (a b : Tumbler) : Tumbler := match cmp a b with Gt => b | _ => a end.

Definition is_prefix (p q : Tumbler) : bool :=
  (Tumbler_len p <=? Tumbler_len q) &&
  bool_decide (comps p = take (Tumbler_len p) (comps q)).

(** [fmt::Display for Tumbler], over the decimal rendering of a natural. *)
Fixpoint display_comps (show : Nat → string) (i : nat) (cs : list Nat) : string :=
  match cs with
  | [] => EmptyString
  | c :: cs => String.append (if 0 <? i then "."%string else EmptyString)
        (String.append (show c) (display_comps show (S i) cs))
  end.

Definition Tumbler_display (show : Nat → string) (t : Tumbler) : string :=
  display_comps show 0 (comps t).

Declare Scope tumbler_scope.
Delimit Scope tumbler_scope with tum.
Open Scope tumbler_scope.
Infix "<?ₜ" := ltb (at level 70, no associativity) : tumbler_scope.
Infix "≤?ₜ" := leb (at level 70, no associativity) : tumbler_scope.

(** ** Identity (T3) *)

Lemma Tumbler_eq (a b : Tumbler) : comps a = comps b → a = b.
Proof.
  destruct a as [ca Ha], b as [cb Hb]. cbn. intros ->.
  f_equal. apply bool_eq_pi.
Qed.

#[export] Instance Tumbler_eq_dec : EqDecision Tumbler.
Proof.
  intros a b. destruct (decide (comps a = comps b)) as [H|H].
  - left. by apply Tumbler_eq.
  - right. intros ->. by apply H.
Defined.

Definition Tumbler_of (cs : list Nat) : option Tumbler :=
  match Tumbler_new cs with Ok t => Some t | Err _ => None end.

#[export] Program Instance Tumbler_countable : Countable Tumbler :=
  inj_countable comps Tumbler_of _.
Next Obligation. intros [[|c cs] H]; [done|]. cbn. f_equal. by apply Tumbler_eq. Qed.

Lemma comps_nonempty t : comps t ≠ [].
Proof. apply nonemptyb_spec, T0. Qed.

Lemma Tumbler_len_pos t : 0 < Tumbler_len t.
Proof. unfold Tumbler_len. pose proof (comps_nonempty t). destruct (comps t); [done|cbn; lia]. Qed.

Lemma comps_cons t : ∃ c cs, comps t = c :: cs.
Proof. pose proof (comps_nonempty t). destruct (comps t); [done|eauto]. Qed.

Lemma comps_snoc t : ∃ cs c, comps t = cs ++ [c].
Proof. apply nonempty_snoc, comps_nonempty. Qed.

Lemma from_vec_ok cs : nonemptyb cs = true → ∃ t, from_vec cs = Done t ∧ comps t = cs.
Proof. destruct cs; [done|]. intros _. eexists. split; reflexivity. Qed.

Lemma from_vec_comps cs t : from_vec cs = Done t ↔ comps t = cs.
Proof.
  split.
  - destruct cs; [done|]. intros [= <-]. done.
  - intros <-. destruct t as [[|c cs] H]; [done|]. cbn. f_equal. by apply Tumbler_eq.
Qed.

Lemma from_vec_self t : from_vec (comps t) = Done t.
Proof. by apply from_vec_comps. Qed.

Lemma Tumbler_new_Ok cs t : Tumbler_new cs = Ok t ↔ comps t = cs.
Proof.
  split.
  - destruct cs; [done|]. intros [= <-]. done.
  - intros <-. destruct t as [[|c cs] H]; [done|]. cbn. f_equal. by apply Tumbler_eq.
Qed.

Lemma nat_is_zero_spec c : nat_is_zero c = true ↔ c = 0%N.
Proof.
  unfold nat_is_zero. split.
  - intros H%N.eqb_eq. destruct c; [done|]. cbn in H. lia.
  - by intros ->.
Qed.

Lemma nat_is_zero_eqb c : nat_is_zero c = (c =? 0)%N.
Proof.
  destruct (nat_is_zero c) eqn:E.
  - apply nat_is_zero_spec in E. by subst.
  - symmetry. apply N.eqb_neq. intros ->. discriminate E.
Qed.

(** ** The order on component sequences *)

Lemma list_cmp_refl a : list_cmp a a = Eq.
Proof. induction a as [|x a IH]; [done|]. cbn. by rewrite N.compare_refl. Qed.

Lemma list_cmp_eq a b : list_cmp a b = Eq → a = b.
Proof.
  revert b. induction a as [|x a IH]; intros [|y b]; cbn; try done.
  destruct (N.compare_spec x y) as [->|?|?]; try done. intros H. f_equal. by apply IH.
Qed.

Lemma list_cmp_antisym a b : list_cmp b a = CompOpp (list_cmp a b).
Proof.
  revert b. induction a as [|x a IH]; intros [|y b]; cbn; try done.
  rewrite (N.compare_antisym x y). destruct (x ?= y)%N; cbn; [apply IH|done|done].
Qed.

Lemma list_cmp_trans a b c : list_cmp a b = Lt → list_cmp b c = Lt → list_cmp a c = Lt.
Proof.
  revert b c. induction a as [|x a IH]; intros [|y b] [|z c]; cbn; try done.
  destruct (N.compare_spec x y), (N.compare_spec y z), (N.compare_spec x z);
    intros ??; try done; try lia. eauto.
Qed.

Lemma list_cmp_app p a b : list_cmp (p ++ a) (p ++ b) = list_cmp a b.
Proof. induction p as [|x p IH]; [done|]. cbn. by rewrite N.compare_refl. Qed.

Lemma list_cmp_app_lt p x y a b : (x < y)%N → list_cmp (p ++ x :: a) (p ++ y :: b) = Lt.
Proof. intros H. rewrite list_cmp_app. cbn. by apply N.compare_lt_iff in H as ->. Qed.

Lemma list_cmp_prefix a b : b ≠ [] → list_cmp a (a ++ b) = Lt.
Proof.
  intros H. rewrite <- (app_nil_r a) at 1. rewrite list_cmp_app. by destruct b.
Qed.

(** The two ways to be below: a proper prefix, or a smaller component at the
    first difference. *)
Lemma list_cmp_lt_inv a b :
  list_cmp a b = Lt →
  (∃ e, e ≠ [] ∧ b = a ++ e) ∨
  (∃ p x y a' b', a = p ++ x :: a' ∧ b = p ++ y :: b' ∧ (x < y)%N).
Proof.
  revert b. induction a as [|x a IH]; intros [|y b]; cbn; try done.
  - intros _. left. eexists. split; [|reflexivity]. done.
  - destruct (N.compare_spec x y) as [->|?|?]; try done.
    + intros [(e & He & ->)|(p & u & v & a' & b' & -> & -> & Huv)]%IH.
      * left. eauto.
      * right. exists (y :: p), u, v, a', b'. done.
    + intros _. right. exists [], x, y, a, b. done.
Qed.

Lemma list_cmp_same_len_lt_inv a b :
  length a = length b → list_cmp a b = Lt →
  ∃ p x y a' b', a = p ++ x :: a' ∧ b = p ++ y :: b' ∧ (x < y)%N ∧ length a' = length b'.
Proof.
  intros Hlen [(e & He & ->)|(p & x & y & a' & b' & -> & -> & Hxy)]%list_cmp_lt_inv.
  - rewrite length_app in Hlen. destruct e; [done|cbn in *; lia].
  - exists p, x, y, a', b'. rewrite !length_app in Hlen. cbn in Hlen.
    repeat split; try done. lia.
Qed.

(** ** The order on tumblers (T1/T2) *)

Definition Tlt (a b : Tumbler) : Prop := cmp a b = Lt.
Definition Tle (a b : Tumbler) : Prop := cmp a b ≠ Gt.
Infix "<ₜ" := Tlt (at level 70, no associativity) : tumbler_scope.
Infix "≤ₜ" := Tle (at level 70, no associativity) : tumbler_scope.

Lemma cmp_eq a b : cmp a b = Eq ↔ a = b.
Proof.
  split.
  - intros H. by apply Tumbler_eq, list_cmp_eq.
  - intros ->. apply list_cmp_refl.
Qed.

Lemma cmp_antisym a b : cmp b a = CompOpp (cmp a b).
Proof. apply list_cmp_antisym. Qed.

Lemma cmp_gt a b : cmp a b = Gt ↔ b <ₜ a.
Proof. unfold Tlt. rewrite (cmp_antisym a b). by destruct (cmp a b). Qed.

#[export] Instance Tlt_strict : StrictOrder Tlt.
Proof.
  split.
  - intros a. unfold complement, Tlt, cmp. by rewrite list_cmp_refl.
  - intros a b c. apply list_cmp_trans.
Qed.

Lemma Tlt_total a b : a <ₜ b ∨ a = b ∨ b <ₜ a.
Proof.
  destruct (cmp a b) eqn:E.
  - right; left. by apply cmp_eq.
  - by left.
  - right; right. by apply cmp_gt.
Qed.

Lemma Tle_lteq a b : a ≤ₜ b ↔ a <ₜ b ∨ a = b.
Proof.
  unfold Tle, Tlt. destruct (cmp a b) eqn:E; split; try done; try tauto.
  - intros _. right. by apply cmp_eq.
  - intros [?| ->]; [done|]. assert (cmp b b = Eq) by by apply cmp_eq. congruence.
Qed.

(** The decision procedure [order] of the Standard Library, at tumblers. *)
Module TumblerTotalOrder <: TotalOrder.
Definition t := Tumbler.
Definition eq := @eq Tumbler.
Definition lt := Tlt.
Definition le := Tle.
Definition eq_equiv : Equivalence eq := _.
Definition lt_strorder : StrictOrder lt := Tlt_strict.
Definition lt_compat : Proper (eq ==> eq ==> iff) lt.
Proof. intros a b -> c d ->. reflexivity. Qed.
Definition le_lteq : ∀ x y, le x y ↔ lt x y ∨ eq x y := Tle_lteq.
Definition lt_total : ∀ x y, lt x y ∨ eq x y ∨ lt y x := Tlt_total.
End TumblerTotalOrder.
Module TumblerOrder := !MakeOrderTac TumblerTotalOrder TumblerTotalOrder.

Ltac torder := TumblerOrder.order.

Lemma ltb_lt a b : (a <?ₜ b) = true ↔ a <ₜ b.
Proof. unfold ltb, Tlt. by destruct (cmp a b). Qed.

Lemma leb_le a b : (a ≤?ₜ b) = true ↔ a ≤ₜ b.
Proof. unfold leb, Tle. by destruct (cmp a b). Qed.

Lemma ltb_spec a b : BoolSpec (a <ₜ b) (b ≤ₜ a) (a <?ₜ b).
Proof.
destruct (a <?ₜ b) eqn:E; constructor.
- by apply ltb_lt.
- assert (¬ a <ₜ b) by (rewrite <- ltb_lt; congruence). torder.
Qed.

Lemma leb_spec a b : BoolSpec (a ≤ₜ b) (b <ₜ a) (a ≤?ₜ b).
Proof.
destruct (a ≤?ₜ b) eqn:E; constructor.
- by apply leb_le.
- assert (¬ a ≤ₜ b) by (rewrite <- leb_le; congruence). torder.
Qed.

Lemma ltb_ge a b : (a <?ₜ b) = false ↔ b ≤ₜ a.
Proof. destruct (ltb_spec a b); split; intros; try done. torder. Qed.

Lemma leb_gt a b : (a ≤?ₜ b) = false ↔ b <ₜ a.
Proof. destruct (leb_spec a b); split; intros; try done. torder. Qed.

#[export] Instance Tle_preorder : PreOrder Tle.
Proof. split; [intros a | intros a b c ??]; torder. Qed.

#[export] Instance Tlt_dec : RelDecision Tlt.
Proof. intros a b. unfold Tlt. apply _. Defined.

#[export] Instance Tle_dec : RelDecision Tle.
Proof. intros a b. unfold Tle. apply _. Defined.

(** Tumbler comparisons in hypotheses and the goal, as propositions. *)
Ltac t2p :=
repeat match goal with
| H : (_ <?ₜ _) = true |- _ => apply ltb_lt in H
| H : (_ <?ₜ _) = false |- _ => apply ltb_ge in H
| H : (_ ≤?ₜ _) = true |- _ => apply leb_le in H
| H : (_ ≤?ₜ _) = false |- _ => apply leb_gt in H
| |- (_ <?ₜ _) = true => apply ltb_lt
| |- (_ <?ₜ _) = false => apply ltb_ge
| |- (_ ≤?ₜ _) = true => apply leb_le
| |- (_ ≤?ₜ _) = false => apply leb_gt
end.

(** Case on every tumbler comparison the goal or a hypothesis scrutinises. *)
Ltac tcase :=
repeat match goal with
| |- context [?a <?ₜ ?b] => destruct (ltb_spec a b)
| |- context [?a ≤?ₜ ?b] => destruct (leb_spec a b)
| H : context [?a <?ₜ ?b] |- _ => destruct (ltb_spec a b)
| H : context [?a ≤?ₜ ?b] |- _ => destruct (leb_spec a b)
end.

Lemma tmax_spec a b : (a ≤ₜ b ∧ tmax a b = b) ∨ (b <ₜ a ∧ tmax a b = a).
Proof.
unfold tmax. destruct (cmp a b) eqn:E.
- left. apply cmp_eq in E as ->. split; [torder|done].
- left. split; [|done]. unfold Tle. by rewrite E.
- right. by apply cmp_gt in E.
Qed.

Lemma tmin_spec a b : (a ≤ₜ b ∧ tmin a b = a) ∨ (b <ₜ a ∧ tmin a b = b).
Proof.
unfold tmin. destruct (cmp a b) eqn:E.
- left. apply cmp_eq in E as ->. split; [torder|done].
- left. split; [|done]. unfold Tle. by rewrite E.
- right. by apply cmp_gt in E.
Qed.

(** Replace every [tmax] and [tmin] by the operand it is. *)
Ltac tminmax :=
repeat match goal with
| |- context [tmax ?a ?b] => destruct (tmax_spec a b) as [[? ->]|[? ->]]
| |- context [tmin ?a ?b] => destruct (tmin_spec a b) as [[? ->]|[? ->]]
| H : context [tmax ?a ?b] |- _ => destruct (tmax_spec a b) as [[? Hm]|[? Hm]]; rewrite Hm in *; clear Hm
| H : context [tmin ?a ?b] |- _ => destruct (tmin_spec a b) as [[? Hm]|[? Hm]]; rewrite Hm in *; clear Hm
end.

(** ** Prefixes *)

Lemma is_prefix_spec p q : is_prefix p q = true ↔ comps p `prefix_of` comps q.
Proof.
unfold is_prefix, Tumbler_len. split.
- intros H. b2p. exists (drop (length (comps p)) (comps q)).
  rewrite H0 at 1. symmetry. apply take_drop.
- intros [k Hk]. rewrite Hk. apply andb_true_iff. split.
  + apply Nat.leb_le. rewrite length_app. lia.
  + apply bool_decide_eq_true. by rewrite take_app_length.
Qed.

Lemma prefix_le p q : comps p `prefix_of` comps q → p ≤ₜ q.
Proof.
intros [k Hk]. apply Tle_lteq. destruct (decide (k = [])) as [->|Hne].
- right. apply Tumbler_eq. by rewrite Hk, app_nil_r.
- left. unfold Tlt, cmp. rewrite Hk. by apply list_cmp_prefix.
Qed.

(** ** The claims *)

(** [Tumbler_len] at a position read: total, and exact on its range. *)
Lemma Tumbler_get_spec t i :
Tumbler_get t i = None ↔ i = 0 ∨ Tumbler_len t < i.
Proof.
destruct i as [|z]; cbn; [by split; [left|]|].
rewrite lookup_ge_None. unfold Tumbler_len. lia.
Qed.

Lemma append_nil r : String.append EmptyString r = r.
Proof. reflexivity. Qed.

Lemma append_cons a s r : String.append (String a s) r = String a (String.append s r).
Proof. reflexivity. Qed.

Section Display.
(** [Display] of the third-party [BigUint]: decimal digits, so injective and
    with no dot in it. *)
Context (show : Nat → string).

Definition dotless (s : string) : Prop := ("."%char) ∉ list_ascii_of_string s.

Context (show_inj : ∀ m n, show m = show n → m = n) (show_dotless : ∀ n, dotless (show n)).

Lemma dotless_cons a s : dotless (String a s) → a ≠ "."%char ∧ dotless s.
Proof using. unfold dotless. cbn. rewrite not_elem_of_cons. intros [? ?]. split; [done|done]. Qed.

(** What follows a component: nothing, or a dot. *)
Definition dot_or_end (r : string) : Prop := r = EmptyString ∨ ∃ r', r = String "." r'.

Lemma display_tail i cs : dot_or_end (display_comps show (S i) cs).
Proof using. destruct cs; [by left | right; eexists; cbn; by rewrite append_cons, append_nil]. Qed.

Lemma append_dotless_inj s1 s2 r1 r2 :
  dotless s1 → dotless s2 → dot_or_end r1 → dot_or_end r2 →
  String.append s1 r1 = String.append s2 r2 → s1 = s2 ∧ r1 = r2.
Proof using.
  revert s2. induction s1 as [|a s1 IH]; intros [|b s2] Hs1 Hs2 Hr1 Hr2 E;
    rewrite ?append_nil, ?append_cons in E.
  - done.
  - apply dotless_cons in Hs2 as [? ?]. destruct Hr1 as [->|[? ->]]; [done|]. congruence.
  - apply dotless_cons in Hs1 as [? ?]. destruct Hr2 as [->|[? ->]]; [done|]. congruence.
  - apply dotless_cons in Hs1 as [? ?]. apply dotless_cons in Hs2 as [? ?].
    injection E as -> E. destruct (IH s2) as [-> ->]; done.
Qed.

Lemma display_comps_inj i cs ds :
  display_comps show (S i) cs = display_comps show (S i) ds → cs = ds.
Proof using show_inj show_dotless.
  revert i ds. induction cs as [|c cs IH]; intros i [|d ds] E; cbn in E; try done.
  injection E as E.
  rewrite !append_nil in E.
  apply append_dotless_inj in E as [E1 E2]; auto using display_tail.
  f_equal; [by apply show_inj | eauto].
Qed.
End Display.

(** T1/T2: the tumbler order is a strict total order, agrees with identity
    (T3) and is prefix-smaller. *)
Theorem tumbler_order_total (a b c : Tumbler) :
  (cmp a b = Eq ↔ comps a = comps b) ∧
  cmp b a = CompOpp (cmp a b) ∧
  (cmp a b = Lt → cmp b c = Lt → cmp a c = Lt) ∧
  (is_prefix a b = true → comps a ≠ comps b → cmp a b = Lt).
Proof.
  repeat split.
  - by intros ->%cmp_eq.
  - intros H. apply cmp_eq. by apply Tumbler_eq.
  - apply cmp_antisym.
  - apply list_cmp_trans.
  - intros H%is_prefix_spec%prefix_le%Tle_lteq Hne. destruct H as [?| ->]; done.
Qed.

(** T3: the canonical rendering is lossless, over any rendering of a
    natural that is injective and dot-free (as decimal digits are). *)
Theorem display_lossless (show : Nat → string) (a b : Tumbler) :
  (∀ m n, show m = show n → m = n) → (∀ n, dotless (show n)) →
  Tumbler_display show a = Tumbler_display show b → a = b.
Proof.
  intros Hinj Hdot. unfold Tumbler_display.
  destruct (comps_cons a) as (x & xs & Ha), (comps_cons b) as (y & ys & Hb).
  rewrite Ha, Hb. cbn. rewrite !append_nil. intros E.
  apply append_dotless_inj in E as [E1 E2]; auto using display_tail.
  apply Tumbler_eq. rewrite Ha, Hb. f_equal; [by apply Hinj|].
  by apply (display_comps_inj show Hinj Hdot 0).
Qed.

(** ** Witnesses *)

(** A literal tumbler of the witnesses ([0] for the empty sequence). *)
Definition tum (cs : list Nat) : Tumbler :=
  match Tumbler_new cs with Ok t => t | Err _ => MkTumbler [0%N] eq_refl end.

Lemma dotless_String a s : a ≠ "."%char → dotless s → dotless (String a s).
Proof. unfold dotless. cbn. rewrite not_elem_of_cons. done. Qed.

Lemma pretty_N_go_dotless x s : dotless s → dotless (pretty_N_go x s).
Proof.
  revert s. induction (N.lt_wf_0 x) as [x _ IH]; intros s Hs.
  destruct (decide (x = 0)%N) as [->|Hx]; [by rewrite pretty_N_go_0|].
  rewrite pretty_N_go_step by lia. apply IH; [apply N.div_lt; lia|].
  apply dotless_String; [|done]. unfold pretty_N_char. by repeat case_match.
Qed.

(** Decimal rendering meets what [display_lossless] asks of [BigUint]. *)
Lemma pretty_dotless (n : Nat) : dotless (pretty n).
Proof.
  unfold pretty, pretty_N. case_decide.
  - apply dotless_String; [done|]. by apply not_elem_of_nil.
  - apply pretty_N_go_dotless. by apply not_elem_of_nil.
Qed.

Lemma display_lossless_witness :
  Tumbler_display pretty (tum [1; 0; 20]%N) = "1.0.20"%string ∧
  tum [1; 0; 20]%N = MkTumbler [1; 0; 20]%N eq_refl.
Proof.
  split; [vm_compute; reflexivity|].
  apply (display_lossless pretty); [apply (inj pretty)|apply pretty_dotless|reflexivity].
Defined.
