(* ===== verification/Addresses.v ===== *)
(** * Addresses: T4 validation, classification and field projection

    Models [crates/skep-address/src/address.rs]: the one-pass T4 scan, the
    classifier and the admission door over it, the sealed [Address] (a
    T4-valid tumbler with its derived level), the field projections N/U/D/E,
    the containment predicates, and the two truncations [parent] and
    [document_of]. *)

From stdpp Require Import countable.
From S2P Require Import Prelude Tumblers.

#[local] Arguments Nat.ltb : simpl never.

Inductive Level := Node | Account | Document | Element.

Inductive Class := CNode | CAccount | CDocument | CElement | CInvalid.

Definition Class_from (l : Level) : Class :=
  match l with
  | Node => CNode
  | Account => CAccount
  | Document => CDocument
  | Element => CElement
  end.

Inductive T4Clause := LeadingZero | TrailingZero | AdjacentZeros | OverDepth.

#[export] Instance Level_eq_dec : EqDecision Level.
Proof. solve_decision. Defined.
#[export] Instance Class_eq_dec : EqDecision Class.
Proof. solve_decision. Defined.
#[export] Instance T4Clause_eq_dec : EqDecision T4Clause.
Proof. solve_decision. Defined.

Record T4Error := MkT4Error { T4Error_clauses : list T4Clause }.

Record T4Scan := MkT4Scan {
  scan_zeros : nat;
  scan_clauses : list T4Clause
}.

Definition level_of_zeros (z : nat) : outcome Level :=
  match z with
  | 0 => Done Node
  | 1 => Done Account
  | 2 => Done Document
  | 3 => Done Element
  | _ => Panicked
  end.

(** [self.clauses.is_empty().then(|| level_of_zeros(self.zeros))] *)
Definition admitted_level (s : T4Scan) : outcome (option Level) :=
  if nonemptyb (scan_clauses s) then Done None
  else l ← level_of_zeros (scan_zeros s); Done (Some l).

(** One step of the scan: the zero count, whether two zeros met, whether the
    previous component was zero. *)
Definition scan_step (st : nat * bool * bool) (c : Nat) : nat * bool * bool :=
  let '(zero_count, adjacent_zeros, prev_zero) := st in
  if nat_is_zero c
  then (S zero_count, (if prev_zero then true else adjacent_zeros), true)
  else (zero_count, adjacent_zeros, false).

(** [Vec::push] under a condition. *)
Definition push_if (b : bool) (c : T4Clause) (l : list T4Clause) : list T4Clause :=
  if b then l ++ [c] else l.

Definition t4_scan_at (cs : list Nat) : outcome T4Scan :=
  let '(zero_count, adjacent_zeros, _) := fold_left scan_step cs (0, false, false) in
  first ← expect_some (head cs);
  last ← expect_some (last cs);
  let clauses := push_if (nat_is_zero first) LeadingZero [] in
  let clauses := push_if (nat_is_zero last) TrailingZero clauses in
  let clauses := push_if adjacent_zeros AdjacentZeros clauses in
  let clauses := push_if (3 <? zero_count) OverDepth clauses in
  Done (MkT4Scan zero_count clauses).

(** T0 makes both reads of the scan total. *)
Lemma t4_scan_done t : is_done (t4_scan_at (comps t)) = true.
Proof.
  unfold t4_scan_at. destruct (fold_left _ _ _) as [[z adj] prev].
  destruct (comps_snoc t) as (cs & c & Hs), (comps_cons t) as (d & ds & Hc).
  assert (head (comps t) = Some d) as -> by by rewrite Hc.
  assert (last (comps t) = Some c) as -> by by rewrite Hs, last_snoc.
  done.
Qed.

Definition t4_scan (t : Tumbler) : T4Scan := total (t4_scan_at (comps t)) (t4_scan_done t).

(** The scan counts a zero past three as a violated clause, so the level read
    never meets its [unreachable!]. *)
Lemma admitted_done t : is_done (admitted_level (t4_scan t)) = true.
Proof.
  pose proof (total_spec _ (t4_scan_done t)) as H. fold (t4_scan t) in H. revert H.
  generalize (t4_scan t). intros s. unfold t4_scan_at.
  destruct (fold_left _ _ _) as [[z adj] prev].
  destruct (head (comps t)) as [d|]; [|done].
  destruct (last (comps t)) as [c|]; [|done]. cbn. intros [= <-].
  unfold admitted_level, push_if. cbn.
  destruct (nat_is_zero d), (nat_is_zero c), adj, (3 <? z) eqn:Hz; try done.
  all: b2p; destruct z as [|[|[|[|z]]]]; done || lia.
Qed.

Definition t4_admitted (t : Tumbler) : option Level :=
  total (admitted_level (t4_scan t)) (admitted_done t).

Definition zeros (t : Tumbler) : nat := scan_zeros (t4_scan t).

Definition is_t4_valid (t : Tumbler) : bool :=
  match t4_admitted t with Some _ => true | None => false end.

Definition classify (t : Tumbler) : Class :=
  match t4_admitted t with Some l => Class_from l | None => CInvalid end.

(** [struct Address]: private fields, so only [validate] mints one. *)
Record Address := MkAddress {
  tumbler : Tumbler;
  level : Level;
  T4 : t4_admitted tumbler = Some level
}.

(** [match admitted { Some(level) => Ok(..), None => Err(..) }] *)
Definition admit_with (t : Tumbler) (admitted : option Level) :
    t4_admitted t = admitted → result Address T4Error :=
  match admitted with
  | Some l => λ H, Ok (MkAddress t l H)
  | None => λ _, Err (MkT4Error (scan_clauses (t4_scan t)))
  end.

Definition validate (t : Tumbler) : result Address T4Error :=
  admit_with t (t4_admitted t) eq_refl.

(** [TryFrom<Tumbler>] and [From<Address>]: the serde shadow pair. *)
Definition Address_try_from (t : Tumbler) : result Address T4Error := validate t.
Definition Tumbler_from (a : Address) : Tumbler := tumbler a.

(** [Ord for Address] *)
Definition Address_cmp (a b : Address) : comparison := cmp (tumbler a) (tumbler b).

Lemma Address_eq a b : tumbler a = tumbler b → a = b.
Proof.
  destruct a as [t l H], b as [t' l' H']. cbn. intros <-.
  assert (l = l') as <- by congruence. f_equal.
  apply (Eqdep_dec.UIP_dec (decide_rel eq)).
Qed.

#[export] Instance Address_eq_dec : EqDecision Address.
Proof.
  intros a b. destruct (decide (tumbler a = tumbler b)) as [H|H].
  - left. by apply Address_eq.
  - right. by intros ->.
Defined.

Lemma validate_Ok t a : validate t = Ok a ↔ tumbler a = t.
Proof.
  unfold validate. generalize (eq_refl (t4_admitted t)).
  generalize (t4_admitted t) at -1. intros [l|] H; cbn; split; try done.
  - by intros [= <-].
  - intros Ha. f_equal. by apply Address_eq.
  - destruct a as [t' l H']. cbn. intros ->. congruence.
Qed.

Lemma validate_is_ok t : is_ok (validate t) = is_t4_valid t.
Proof.
  unfold validate, is_t4_valid. generalize (eq_refl (t4_admitted t)).
  generalize (t4_admitted t) at -1. by intros [l|] H.
Qed.

Lemma validate_self a : validate (tumbler a) = Ok a.
Proof. by apply validate_Ok. Qed.

#[export] Program Instance Address_countable : Countable Address :=
  inj_countable tumbler (λ t, match validate t with Ok a => Some a | Err _ => None end) _.
Next Obligation. intros a. cbn. by rewrite validate_self. Qed.

(** ** Field projections *)

(** The 0-based indices of the separator (zero) components, ascending. *)
Fixpoint separators_from (i : nat) (cs : list Nat) : list nat :=
  match cs with
  | [] => []
  | c :: cs =>
      if nat_is_zero c then i :: separators_from (S i) cs else separators_from (S i) cs
  end.

Definition separators (cs : list Nat) : list nat := separators_from 0 cs.

Definition separator_at (cs : list Nat) (n : nat) : outcome (option nat) :=
  _ ← assert (1 <=? n); i ← usize_sub n 1; Done (separators cs !! i).

Definition field_at (cs : list Nat) (n : nat) : outcome (option (list Nat)) :=
  s ← separator_at cs n;
  match s with
  | None => Done None
  | Some s =>
      e ← separator_at cs (n + 1);
      sl ← slice cs (s + 1) (default (length cs) e);
      Done (Some sl)
  end.

Definition node_field_at (cs : list Nat) : outcome (list Nat) :=
  s ← separator_at cs 1; slice cs 0 (default (length cs) s).

Definition separator (a : Address) (n : nat) : outcome (option nat) :=
  separator_at (comps (tumbler a)) n.

Definition field (a : Address) (n : nat) : outcome (option (list Nat)) :=
  field_at (comps (tumbler a)) n.

(** The fields of a component sequence: what its zeros separate. *)
Fixpoint segs (cs : list Nat) : list (list Nat) :=
  match cs with
  | [] => [[]]
  | c :: cs =>
      if nat_is_zero c then [] :: segs cs
      else match segs cs with
           | s :: r => (c :: s) :: r
           | [] => [[c]]
           end
  end.

Definition zero_free (s : list Nat) : Prop := Forall (λ c, c ≠ 0%N) s.

Lemma seg_ind (P : list Nat → Prop) :
  (∀ s, zero_free s → P s) →
  (∀ s cs, zero_free s → P cs → P (s ++ 0%N :: cs)) →
  ∀ cs, P cs.
Proof.
  intros Hz Hs cs. remember (length cs) as n eqn:Hn. revert cs Hn.
  induction (lt_wf n) as [n _ IH]. intros cs ->.
  assert (zero_free cs ∨ ∃ s cs', zero_free s ∧ cs = s ++ 0%N :: cs') as [H|(s & cs' & H & ->)].
  { clear IH. induction cs as [|c cs IH]; [left; constructor|].
    destruct (decide (c = 0%N)) as [->|Hc]; [right; exists [], cs; split; [constructor|done]|].
    destruct IH as [H|(s & cs' & H & ->)]; [left; by constructor|right].
    exists (c :: s), cs'. split; [by constructor|done]. }
  - by apply Hz.
  - apply Hs; [done|]. eapply IH; [|reflexivity]. rewrite length_app. cbn. lia.
Qed.

Lemma segs_zf s : zero_free s → segs s = [s].
Proof.
  induction 1 as [|c s Hc H IH]; [done|]. cbn. rewrite IH.
  rewrite nat_is_zero_eqb. by apply N.eqb_neq in Hc as ->.
Qed.

Lemma segs_app s cs : zero_free s → segs (s ++ 0%N :: cs) = s :: segs cs.
Proof.
  induction 1 as [|c s Hc H IH]; [done|]. cbn. rewrite IH.
  rewrite nat_is_zero_eqb. by apply N.eqb_neq in Hc as ->.
Qed.

Lemma separators_from_add k cs : separators_from k cs = (λ i, k + i) <$> separators cs.
Proof.
  unfold separators. revert k. induction cs as [|c cs IH]; intros k; [done|]. cbn.
  rewrite (IH (S k)), (IH 1).
  destruct (nat_is_zero c); cbn; rewrite <- list_fmap_compose.
  - f_equal; [lia|]. apply list_fmap_ext. intros. cbn. lia.
  - apply list_fmap_ext. intros. cbn. lia.
Qed.

Lemma separators_cons c cs :
  separators (c :: cs) = (if nat_is_zero c then [0] else []) ++ (S <$> separators cs).
Proof.
  unfold separators at 1. cbn. rewrite (separators_from_add 1). by destruct (nat_is_zero c).
Qed.

Lemma separators_zf s : zero_free s → separators s = [].
Proof.
  induction 1 as [|c s Hc H IH]; [done|]. rewrite separators_cons, IH, nat_is_zero_eqb.
  by apply N.eqb_neq in Hc as ->.
Qed.

Lemma separators_app s cs :
  zero_free s →
  separators (s ++ 0%N :: cs) = length s :: ((λ i, length s + 1 + i) <$> separators cs).
Proof.
  induction 1 as [|c s Hc H IH]; [by apply separators_cons|].
  cbn [app]. rewrite separators_cons, IH, nat_is_zero_eqb.
  apply N.eqb_neq in Hc as ->. cbn. f_equal. by rewrite <- list_fmap_compose.
Qed.

Lemma separator_at_S cs n : separator_at cs (S n) = Done (separators cs !! n).
Proof. unfold separator_at. cbn. by rewrite Nat.sub_0_r. Qed.

(** Field [n ≥ 1] is the [n]-th segment, and reading it never panics. *)
Lemma field_at_segs cs n : field_at cs (S n) = Done (segs cs !! S n).
Proof.
  revert n. induction cs as [s Hs|s cs Hs IH] using seg_ind; intros n.
  - unfold field_at. rewrite separator_at_S, separators_zf, segs_zf by done. done.
  - unfold field_at in *. rewrite Nat.add_1_r, !separator_at_S in *.
    rewrite separators_app, segs_app by done. destruct n as [|n]; simpl.
    + destruct cs as [s' Hs'|s' cs' Hs' _] using seg_ind.
      * rewrite separators_zf, segs_zf by done. cbn.
        replace (s ++ 0%N :: s') with ((s ++ [0%N]) ++ s') by by rewrite <- app_assoc.
        replace (length s + 1) with (length (s ++ [0%N])) by by rewrite length_app.
        by rewrite slice_to_end.
      * rewrite separators_app, segs_app by done. cbn.
        replace (s ++ 0%N :: s' ++ 0%N :: cs') with ((s ++ [0%N]) ++ s' ++ (0%N :: cs'))
          by by rewrite <- app_assoc.
        replace (length s + 1) with (length (s ++ [0%N])) by by rewrite length_app.
        by rewrite slice_app.
    + specialize (IH n). rewrite Nat.add_1_r, !separator_at_S in IH.
      rewrite !list_lookup_fmap.
      destruct (separators cs !! n) as [i|] eqn:Hi; cbn in *; [|congruence].
      assert (Hsl : ∀ a b, slice (s ++ 0%N :: cs) (length s + 1 + a) (length s + 1 + b)
                    = slice cs a b).
      { intros a b. rewrite cons_middle, app_assoc.
        replace (length s + 1) with (length (s ++ [0%N])) by by rewrite length_app.
        apply slice_shift. }
      rewrite <- IH.
      replace (length s + 1 + i + 1) with (length s + 1 + (i + 1)) by lia.
      destruct (separators cs !! S n) as [j|]; cbn.
      * by rewrite Hsl.
      * replace (length (s ++ 0%N :: cs)) with (length s + 1 + length cs)
          by (rewrite length_app; cbn; lia).
        by rewrite Hsl.
Qed.

Lemma segs_nonempty cs : ∃ s r, segs cs = s :: r.
Proof.
  destruct cs as [s Hs|s cs Hs _] using seg_ind.
  - rewrite segs_zf by done. eauto.
  - rewrite segs_app by done. eauto.
Qed.

Lemma node_field_at_segs cs : ∃ s, node_field_at cs = Done s ∧ segs cs !! 0 = Some s.
Proof.
  unfold node_field_at. rewrite separator_at_S. cbn.
  destruct cs as [s Hs|s cs Hs _] using seg_ind.
  - rewrite separators_zf, segs_zf by done. cbn. exists s. split; [|done].
    apply (slice_to_end []).
  - rewrite separators_app, segs_app by done. cbn. exists s. split; [|done].
    apply (slice_app []).
Qed.

(** ** The scan *)

(** Two zeros side by side. *)
Definition has_adjacent (cs : list Nat) : Prop := ∃ p q, cs = p ++ 0%N :: 0%N :: q.

Lemma has_adjacent_cons c cs :
  has_adjacent (c :: cs) ↔ (c = 0%N ∧ head cs = Some 0%N) ∨ has_adjacent cs.
Proof.
  split.
  - intros ([|d p] & q & E); cbn in E; simplify_eq; [by left|right; by exists p, q].
  - intros [[-> H]|(p & q & ->)]; [|by exists (c :: p), q].
    destruct cs as [|d cs]; cbn in H; simplify_eq. by exists [], cs.
Qed.

Lemma scan_fold cs z adj prev :
  ∃ adj' prev', fold_left scan_step cs (z, adj, prev) = (z + length (separators cs), adj', prev') ∧
    (adj' = true ↔ adj = true ∨ (prev = true ∧ head cs = Some 0%N) ∨ has_adjacent cs).
Proof.
  revert z adj prev. induction cs as [|c cs IH]; intros z adj prev; cbn [fold_left].
  { exists adj, prev. cbn. rewrite Nat.add_0_r. split; [done|]. split; [by left|].
    intros [H|[[_ H]|(p & q & H)]]; [done|done|]. by destruct p. }
  unfold scan_step at 2. rewrite separators_cons, length_app, length_fmap, nat_is_zero_eqb.
  destruct (N.eqb_spec c 0) as [->|Hc]; cbn [length].
  - destruct (IH (S z) (if prev then true else adj) true) as (adj' & prev' & -> & Hadj).
    exists adj', prev'. split; [do 2 f_equal; lia|]. rewrite Hadj, has_adjacent_cons. cbn.
    destruct prev; naive_solver.
  - destruct (IH z adj false) as (adj' & prev' & -> & Hadj).
    exists adj', prev'. split; [do 2 f_equal; lia|]. rewrite Hadj, has_adjacent_cons. cbn.
    naive_solver.
Qed.

Lemma separators_segs cs : length (segs cs) = S (length (separators cs)).
Proof.
  induction cs as [s Hs|s cs Hs IH] using seg_ind.
  - by rewrite segs_zf, separators_zf.
  - rewrite segs_app, separators_app by done. cbn. by rewrite length_fmap, IH.
Qed.

(** What it means for a tumbler to violate a T4 clause. *)
Definition clause_violated (t : Tumbler) (c : T4Clause) : Prop :=
  match c with
  | LeadingZero => head (comps t) = Some 0%N
  | TrailingZero => last (comps t) = Some 0%N
  | AdjacentZeros => has_adjacent (comps t)
  | OverDepth => 3 < length (separators (comps t))
  end.

Definition all_clauses : list T4Clause := [LeadingZero; TrailingZero; AdjacentZeros; OverDepth].

(** The scan reports the zero count and exactly the violated clauses, each at
    most once, in declaration order. *)
Lemma t4_scan_spec t :
  scan_zeros (t4_scan t) = length (separators (comps t)) ∧
  (∀ c, c ∈ scan_clauses (t4_scan t) ↔ clause_violated t c) ∧
  scan_clauses (t4_scan t) `sublist_of` all_clauses.
Proof.
  pose proof (total_spec _ (t4_scan_done t)) as H. fold (t4_scan t) in H. revert H.
  generalize (t4_scan t). intros s. unfold t4_scan_at, clause_violated.
  destruct (scan_fold (comps t) 0 false false) as (adj & prev & -> & Hadj).
  destruct (head (comps t)) as [d|] eqn:Hd; [|done].
  destruct (last (comps t)) as [c|] eqn:Hc; [|done]. cbn. intros [= <-]. cbn.
  assert (Hadj' : if adj then has_adjacent (comps t) else ¬ has_adjacent (comps t))
    by (destruct adj; naive_solver).
  split; [done|]. rewrite !nat_is_zero_eqb. unfold push_if, all_clauses.
  destruct (N.eqb_spec d 0) as [->|?], (N.eqb_spec c 0) as [->|?], adj,
    (Nat.ltb_spec 3 (length (separators (comps t)))); cbn;
  (split; [intros []; rewrite ?elem_of_cons, ?elem_of_nil; split; intros;
            destruct_or?; try done; try lia; try (simplify_eq; tauto) | repeat constructor]).
Qed.

(** ** T4 validity as a property of the segments *)

(** One to four segments, none empty. *)
Definition t4_segs (cs : list Nat) : Prop :=
  Forall (λ s, s ≠ []) (segs cs) ∧ length (segs cs) ≤ 4.

Definition level_index (l : Level) : nat :=
  match l with Node => 0 | Account => 1 | Document => 2 | Element => 3 end.

Lemma has_adjacent_zf s cs :
  zero_free s →
  has_adjacent (s ++ 0%N :: cs) ↔ head cs = Some 0%N ∨ has_adjacent cs.
Proof.
  induction 1 as [|c s Hc H IH]; cbn; rewrite has_adjacent_cons; [naive_solver|].
  rewrite IH. naive_solver.
Qed.

Lemma zero_free_no_adjacent s : zero_free s → ¬ has_adjacent s.
Proof. intros H (p & q & ->). apply Forall_app in H as [_ H]. by inv H. Qed.

Lemma zero_free_head s : zero_free s → head s ≠ Some 0%N.
Proof. intros [|c s' Hc _]; [done|]. cbn. congruence. Qed.

Lemma zero_free_last s : zero_free s → last s ≠ Some 0%N.
Proof. intros H E%last_Some_elem_of. by eapply Forall_forall in H. Qed.

Lemma segs_nonempty_iff cs :
  cs ≠ [] →
  Forall (λ s, s ≠ []) (segs cs) ↔
  head cs ≠ Some 0%N ∧ last cs ≠ Some 0%N ∧ ¬ has_adjacent cs.
Proof.
  induction cs as [s Hs|s cs Hs IH] using seg_ind; intros Hne.
  - rewrite segs_zf by done. rewrite Forall_singleton.
    pose proof (zero_free_head s Hs). pose proof (zero_free_last s Hs).
    pose proof (zero_free_no_adjacent s Hs). naive_solver.
  - rewrite segs_app by done. rewrite Forall_cons, has_adjacent_zf by done.
    rewrite last_app_cons, last_cons.
    assert (head (s ++ 0%N :: cs) ≠ Some 0%N ↔ s ≠ []) as ->.
    { pose proof (zero_free_head s Hs). destruct s; cbn in *; naive_solver. }
    destruct (decide (cs = [])) as [->|Hcs].
    + cbn. rewrite Forall_singleton. naive_solver.
    + rewrite IH by done. destruct (nonempty_snoc cs Hcs) as (k & x & ->).
      rewrite last_snoc. naive_solver.
Qed.

Lemma t4_admitted_Some t l :
  t4_admitted t = Some l ↔ t4_segs (comps t) ∧ length (segs (comps t)) = S (level_index l).
Proof.
  unfold t4_admitted. pose proof (total_spec _ (admitted_done t)) as H. revert H.
  generalize (total (admitted_level (t4_scan t)) (admitted_done t)). intros o.
  destruct (t4_scan_spec t) as (Hz & Hc & _).
  unfold t4_segs. rewrite (segs_nonempty_iff _ (comps_nonempty t)), separators_segs.
  unfold admitted_level. rewrite Hz.
  destruct (scan_clauses (t4_scan t)) as [|c cl]; cbn.
  - assert (∀ c, ¬ clause_violated t c) as Hv by (intros c; rewrite <- Hc; set_solver).
    pose proof (Hv LeadingZero). pose proof (Hv TrailingZero).
    pose proof (Hv AdjacentZeros). pose proof (Hv OverDepth). cbn in *.
    destruct (length (separators (comps t))) as [|[|[|[|z]]]]; [..|lia]; intros [= <-];
      (destruct l; cbn; split; intros; try done; try lia; naive_solver lia).
  - intros [= <-]. split; [done|]. intros [[(H1 & H2 & H3) H4] _].
    assert (clause_violated t c) as Hv by (rewrite <- Hc; set_solver).
    destruct c; cbn in Hv; done || lia.
Qed.

Lemma is_t4_valid_segs t : is_t4_valid t = true ↔ t4_segs (comps t).
Proof.
  unfold is_t4_valid. split.
  - destruct (t4_admitted t) as [l|] eqn:E; [|done].
    intros _. by apply t4_admitted_Some in E as [? _].
  - intros H. destruct (segs_nonempty (comps t)) as (s & r & Hs).
    assert (∃ l, length (segs (comps t)) = S (level_index l)) as [l Hl].
    { destruct H as [_ H]. rewrite Hs in *. cbn in *.
      destruct (length r) as [|[|[|[|z]]]]; [by exists Node|by exists Account
        |by exists Document|by exists Element|lia]. }
    by rewrite (proj2 (t4_admitted_Some t l)).
Qed.

Lemma validate_segs t : t4_segs (comps t) → ∃ a, validate t = Ok a ∧ tumbler a = t.
Proof.
  intros H%is_t4_valid_segs. rewrite <- validate_is_ok in H.
  destruct (validate t) as [a|] eqn:E; [|done]. exists a. split; [done|]. by apply validate_Ok.
Qed.

Section Address.
Context (a : Address).

Lemma Address_segs : t4_segs (comps (tumbler a)).
Proof using. by destruct (proj1 (t4_admitted_Some _ _) (T4 a)). Qed.

Lemma Address_level_segs : length (segs (comps (tumbler a))) = S (level_index (level a)).
Proof using. by destruct (proj1 (t4_admitted_Some _ _) (T4 a)). Qed.

Lemma Address_seg_nonempty i s : segs (comps (tumbler a)) !! i = Some s → s ≠ [].
Proof using. intros H. destruct Address_segs as [F _]. by eapply Forall_lookup in F. Qed.
End Address.

Lemma zeros_separators t : zeros t = length (separators (comps t)).
Proof. apply t4_scan_spec. Qed.

(** ** T4 validity as the four clauses *)

Definition t4_ok (cs : list Nat) : Prop :=
  cs ≠ [] ∧ head cs ≠ Some 0%N ∧ last cs ≠ Some 0%N ∧
  ¬ has_adjacent cs ∧ length (separators cs) ≤ 3.

Lemma t4_ok_segs cs : cs ≠ [] → t4_ok cs ↔ t4_segs cs.
Proof.
  intros H. unfold t4_ok, t4_segs. rewrite segs_nonempty_iff, separators_segs by done.
  split; [intros (? & ? & ? & ? & ?)|intros [(? & ? & ?) ?]]; repeat split; try done; lia.
Qed.

Lemma is_t4_valid_ok t : is_t4_valid t = true ↔ t4_ok (comps t).
Proof. rewrite is_t4_valid_segs. symmetry. apply t4_ok_segs, comps_nonempty. Qed.

Lemma Address_ok a : t4_ok (comps (tumbler a)).
Proof. apply t4_ok_segs; [apply comps_nonempty|apply Address_segs]. Qed.

Lemma separators_count_app p q :
  length (separators (p ++ q)) = length (separators p) + length (separators q).
Proof.
  induction p as [|c p IH]; [done|]. cbn [app].
  rewrite !separators_cons, !length_app, !length_fmap, IH. lia.
Qed.

Lemma separators_count_zf s : zero_free s → length (separators s) = 0.
Proof. intros H. by rewrite separators_zf. Qed.

Lemma has_adjacent_app p q :
  has_adjacent (p ++ q) ↔
  has_adjacent p ∨ has_adjacent q ∨ (last p = Some 0%N ∧ head q = Some 0%N).
Proof.
  induction p as [|c p IH]; cbn [app].
  - split; [by right; left|]. intros [(x & y & E)|[?|[? _]]]; [by destruct x|done|done].
  - rewrite !has_adjacent_cons, IH, last_cons, head_app.
    destruct p as [|d p]; cbn; [|destruct (last (d :: p)) eqn:E]; try naive_solver.
    by apply last_None in E.
Qed.

Lemma t4_ok_prefix p q : p ≠ [] → last p ≠ Some 0%N → t4_ok (p ++ q) → t4_ok p.
Proof.
  intros Hne Hl (_ & Hh & _ & Ha & Hz). repeat split; try done.
  - destruct p; [done|]. exact Hh.
  - rewrite has_adjacent_app in Ha. tauto.
  - rewrite separators_count_app in Hz. lia.
Qed.

(** Appending a zero-free tail to a valid sequence keeps it valid. *)
Lemma t4_ok_app_zf p s : t4_ok p → zero_free s → t4_ok (p ++ s).
Proof.
  intros (Hne & Hh & Hl & Ha & Hz) Hs. destruct (decide (s = [])) as [->|Hse].
  { by rewrite app_nil_r. }
  repeat split.
  - by destruct p.
  - destruct p; [done|exact Hh].
  - rewrite last_app. destruct (nonempty_snoc s Hse) as (k & x & ->).
    rewrite last_snoc. apply Forall_app in Hs as [_ Hs]. inv Hs. congruence.
  - rewrite has_adjacent_app. pose proof (zero_free_no_adjacent s Hs). tauto.
  - rewrite separators_count_app, (separators_count_zf s Hs). lia.
Qed.

(** A valid sequence may open one more field, up to three separators. *)
Lemma t4_ok_app_field p s :
  t4_ok p → s ≠ [] → zero_free s → length (separators p) ≤ 2 → t4_ok (p ++ 0%N :: s).
Proof.
  intros (Hne & Hh & Hl & Ha & Hz) Hse Hs Hp. repeat split.
  - by destruct p.
  - destruct p; [done|exact Hh].
  - rewrite last_app_cons, last_cons.
    destruct (nonempty_snoc s Hse) as (k & x & ->).
    rewrite last_snoc. apply Forall_app in Hs as [_ Hs]. inv Hs. congruence.
  - rewrite has_adjacent_app, has_adjacent_cons. cbn.
    pose proof (zero_free_no_adjacent s Hs). pose proof (zero_free_head s Hs). naive_solver.
  - rewrite separators_count_app, separators_cons, (separators_zf s Hs). cbn. lia.
Qed.

(** Replacing the last component by a nonzero one keeps a valid sequence valid. *)
Lemma t4_ok_set_last p x y : t4_ok (p ++ [x]) → y ≠ 0%N → t4_ok (p ++ [y]).
Proof.
  intros (_ & Hh & Hl & Ha & Hz) Hy.
  rewrite last_snoc in Hl. repeat split.
  - by destruct p.
  - destruct p; [cbn; congruence|exact Hh].
  - rewrite last_snoc. congruence.
  - rewrite has_adjacent_app in *. cbn in *.
    assert (has_adjacent [y] ↔ False) as ->; [|naive_solver].
    split; [|done]. intros ([|? [|??]] & q & E); done.
  - rewrite separators_count_app, separators_cons in *.
    rewrite nat_is_zero_eqb in *. destruct (N.eqb_spec x 0), (N.eqb_spec y 0); subst; cbn in *;
      done || lia.
Qed.

(** ** The projections of an address *)

Lemma node_field_done a : is_done (node_field_at (comps (tumbler a))) = true.
Proof. destruct (node_field_at_segs (comps (tumbler a))) as (s & -> & _). done. Qed.

Definition node_field (a : Address) : list Nat :=
  total (node_field_at (comps (tumbler a))) (node_field_done a).

Lemma field_done a n : is_done (field a (S n)) = true.
Proof. unfold field. by rewrite field_at_segs. Qed.

Definition account_field (a : Address) : option (list Nat) := total (field a 1) (field_done a 0).
Definition document_field (a : Address) : option (list Nat) := total (field a 2) (field_done a 1).
Definition element_field (a : Address) : option (list Nat) := total (field a 3) (field_done a 2).

Lemma node_field_segs a : segs (comps (tumbler a)) !! 0 = Some (node_field a).
Proof.
  destruct (node_field_at_segs (comps (tumbler a))) as (s & E & H).
  unfold node_field. by rewrite (total_Done _ _ s E).
Qed.

Lemma account_field_segs a : account_field a = segs (comps (tumbler a)) !! 1.
Proof. apply total_Done, field_at_segs. Qed.
Lemma document_field_segs a : document_field a = segs (comps (tumbler a)) !! 2.
Proof. apply total_Done, field_at_segs. Qed.
Lemma element_field_segs a : element_field a = segs (comps (tumbler a)) !! 3.
Proof. apply total_Done, field_at_segs. Qed.

Definition subspace_at (e : option (list Nat)) : outcome (option Nat) :=
  match e with
  | None => Done None
  | Some e => x ← index e 0; Done (Some x)
  end.

Lemma subspace_done a : is_done (subspace_at (element_field a)) = true.
Proof.
  destruct (element_field a) as [e|] eqn:E; [|done].
  rewrite element_field_segs in E. apply Address_seg_nonempty in E. by destruct e.
Qed.

Definition subspace (a : Address) : option Nat :=
  total (subspace_at (element_field a)) (subspace_done a).

Definition document_prefix_at (a : Address) : outcome (option (list Nat)) :=
  let cs := comps (tumbler a) in
  match level a with
  | Node | Account => Done None
  | Document => Done (Some cs)
  | Element =>
      s ← separator a 3;
      s ← expect_some s;
      p ← slice cs 0 s;
      Done (Some p)
  end.

Definition content_subspace : Nat := 1%N.
Definition link_subspace : Nat := 2%N.

Definition same_node (a b : Address) : bool := bool_decide (node_field a = node_field b).

Definition same_account (a b : Address) : bool :=
  match account_field a, account_field b with
  | Some ua, Some ub => same_node a b && bool_decide (ua = ub)
  | _, _ => false
  end.

Definition same_document (a b : Address) : bool :=
  match document_field a, document_field b with
  | Some da, Some db => same_account a b && bool_decide (da = db)
  | _, _ => false
  end.

Definition starts_with (cs p : list Nat) : bool := bool_decide (take (length p) cs = p).

(** *** The four shapes of a valid address *)

Fixpoint unsegs (l : list (list Nat)) : list Nat :=
  match l with
  | [] => []
  | [s] => s
  | s :: r => s ++ 0%N :: unsegs r
  end.

Lemma unsegs_segs cs : unsegs (segs cs) = cs.
Proof.
  induction cs as [s Hs|s cs Hs IH] using seg_ind.
  - by rewrite segs_zf.
  - rewrite segs_app by done. destruct (segs_nonempty cs) as (x & r & E).
    rewrite E in *. cbn [unsegs] in *. by rewrite IH.
Qed.

Lemma segs_zero_free cs : Forall zero_free (segs cs).
Proof.
  induction cs as [s Hs|s cs Hs IH] using seg_ind.
  - rewrite segs_zf by done. by repeat constructor.
  - rewrite segs_app by done. by constructor.
Qed.

(** A field: a nonempty zero-free sequence. *)
Definition field_ok (s : list Nat) : Prop := zero_free s ∧ s ≠ [].

Lemma Address_fields_ok a : Forall field_ok (segs (comps (tumbler a))).
Proof.
  destruct (Address_segs a) as [H _]. pose proof (segs_zero_free (comps (tumbler a))) as H'.
  by apply Forall_and.
Qed.

Lemma Address_element_view a :
  level a = Element →
  ∃ n u d e, comps (tumbler a) = n ++ 0%N :: u ++ 0%N :: d ++ 0%N :: e ∧
    segs (comps (tumbler a)) = [n; u; d; e] ∧
    field_ok n ∧ field_ok u ∧ field_ok d ∧ field_ok e.
Proof.
  intros Hl. pose proof (Address_level_segs a) as H. rewrite Hl in H.
  pose proof (Address_fields_ok a) as F. pose proof (unsegs_segs (comps (tumbler a))) as U.
  destruct (segs (comps (tumbler a))) as [|n [|u [|d [|e [|]]]]]; try discriminate H.
  exists n, u, d, e. rewrite !Forall_cons in F. destruct_and! F. by split_and!; try rewrite <- U.
Qed.

Lemma Address_document_view a :
  level a = Document →
  ∃ n u d, comps (tumbler a) = n ++ 0%N :: u ++ 0%N :: d ∧
    segs (comps (tumbler a)) = [n; u; d] ∧ field_ok n ∧ field_ok u ∧ field_ok d.
Proof.
  intros Hl. pose proof (Address_level_segs a) as H. rewrite Hl in H.
  pose proof (Address_fields_ok a) as F. pose proof (unsegs_segs (comps (tumbler a))) as U.
  destruct (segs (comps (tumbler a))) as [|n [|u [|d [|]]]]; try discriminate H.
  exists n, u, d. rewrite !Forall_cons in F. destruct_and! F. by split_and!; try rewrite <- U.
Qed.

Lemma fields_app (n u d e : list Nat) :
  n ++ 0%N :: u ++ 0%N :: d ++ 0%N :: e = (n ++ 0%N :: u ++ 0%N :: d) ++ 0%N :: e.
Proof. repeat (rewrite <- app_assoc; cbn [app]). reflexivity. Qed.

(** The document prefix, and what follows it, of a document or element address. *)
Lemma document_prefix_at_spec a :
  match level a with
  | Node | Account => document_prefix_at a = Done None
  | Document => document_prefix_at a = Done (Some (comps (tumbler a)))
  | Element => ∃ p e, document_prefix_at a = Done (Some p) ∧
      comps (tumbler a) = p ++ 0%N :: e ∧ element_field a = Some e ∧ field_ok e ∧
      segs p = take 3 (segs (comps (tumbler a)))
  end.
Proof.
  unfold document_prefix_at. destruct (level a) eqn:Hl; try done.
  destruct (Address_element_view a Hl) as (n & u & d & e & E & S & Hn & Hu & Hd & He).
  exists (n ++ 0%N :: u ++ 0%N :: d), e. rewrite element_field_segs, S.
  unfold separator. rewrite separator_at_S, E.
  destruct Hn as [Hn ?], Hu as [Hu ?], Hd as [Hd ?].
  rewrite !separators_app by done. cbn. split; [|split; [apply fields_app|]].
  - replace (length n + 1 + (length u + 1 + length d))
      with (length (n ++ 0%N :: u ++ 0%N :: d))
      by (rewrite !length_app; cbn; rewrite length_app; cbn; lia).
    rewrite fields_app. generalize (n ++ 0%N :: u ++ 0%N :: d). intros p.
    pose proof (slice_app [] p (0%N :: e)) as Hsl. cbn in *. by rewrite Hsl.
  - split; [done|]. split; [done|]. by rewrite !segs_app, segs_zf.
Qed.

Lemma document_prefix_done a : is_done (document_prefix_at a) = true.
Proof.
  pose proof (document_prefix_at_spec a) as H. destruct (level a); try by rewrite H.
  by destruct H as (p & e & -> & _).
Qed.

Definition document_prefix (a : Address) : option (list Nat) :=
  total (document_prefix_at a) (document_prefix_done a).

Definition under_document (a b : Address) : bool :=
  match level a with
  | Document | Element =>
      match document_prefix b with
      | Some p => starts_with (comps (tumbler a)) p
      | None => false
      end
  | _ => false
  end.

(** ** Truncations *)

Definition parent_at (a : Address) : outcome (option Address) :=
  let cs := comps (tumbler a) in
  if length cs =? 1 then Done None
  else
    stop ← usize_sub (length cs) 1;
    i ← usize_sub stop 1;
    c ← index cs i;
    stop ← (if nat_is_zero c then usize_sub stop 1 else Done stop);
    p ← slice cs 0 stop;
    t ← from_vec p;
    b ← expect_ok (validate t);
    Done (Some b).

Definition document_of_at (a : Address) : outcome (option Address) :=
  match level a with
  | Document => Done (Some a)
  | _ =>
      match document_prefix a with
      | None => Done None
      | Some p =>
          t ← from_vec p;
          b ← expect_ok (validate t);
          Done (Some b)
      end
  end.

(** [from_vec] then [validate], on a sequence proved valid. *)
Lemma mint_ok cs :
  t4_ok cs → ∃ a, (t ← from_vec cs; expect_ok (validate t)) = Done a ∧ comps (tumbler a) = cs.
Proof.
  intros H. pose proof H as (Hne & _). apply nonemptyb_spec in Hne.
  destruct (from_vec_ok cs Hne) as (t & -> & <-).
  apply t4_ok_segs in H; [|apply comps_nonempty].
  destruct (validate_segs t H) as (a & Ha & <-). exists a. cbn. by rewrite Ha.
Qed.

Lemma mint_bind {B} cs (k : Address → outcome B) :
  (t ← from_vec cs; b ← expect_ok (validate t); k b)
  = (b ← (t ← from_vec cs; expect_ok (validate t)); k b).
Proof. by destruct (from_vec cs). Qed.

Lemma slice_prefix {A} (p q : list A) : slice (p ++ q) 0 (length p) = Done p.
Proof. pose proof (slice_app [] p q) as H. cbn in H. exact H. Qed.

Lemma index_snoc {A} (q : list A) x r : index (q ++ x :: r) (length q) = Done x.
Proof. apply index_ok. by rewrite list_lookup_middle. Qed.

Lemma parent_at_spec a :
  ∃ q x, comps (tumbler a) = q ++ [x] ∧
  match nonemptyb q, last q with
  | true, Some y =>
      ∃ b, parent_at a = Done (Some b) ∧
        comps (tumbler b) = (if nat_is_zero y then removelast q else q)
  | _, _ => q = [] ∧ parent_at a = Done None
  end.
Proof.
  destruct (comps_snoc (tumbler a)) as (q & x & E). exists q, x. split; [done|].
  pose proof (Address_ok a) as H. rewrite E in H.
  destruct (decide (q = [])) as [->|Hq].
  { cbn. split; [done|]. unfold parent_at. by rewrite E. }
  destruct (nonempty_snoc q Hq) as (r & y & ->). rewrite last_snoc.
  rewrite (proj2 (nonemptyb_spec _)) by done.
  unfold parent_at. rewrite E, !length_app. cbn [length].
  destruct (Nat.eqb_spec (length r + 1 + 1) 1) as [?|_]; [lia|].
  rewrite usize_sub_ok by lia. cbn [mbind outcome_bind].
  rewrite usize_sub_ok by lia. cbn [mbind outcome_bind].
  replace (length r + 1 + 1 - 1 - 1) with (length r) by lia.
  rewrite <- app_assoc in *. cbn [app] in *. rewrite index_snoc. cbn [mbind outcome_bind].
  rewrite nat_is_zero_eqb. destruct (N.eqb_spec y 0) as [->|Hy]; cbn [mbind outcome_bind].
  - rewrite slice_prefix. cbn [mbind outcome_bind]. rewrite mint_bind, removelast_last.
    destruct (mint_ok r) as (b & Hb & Hc).
    { destruct H as (Hne & Hh & Hl & Ha & Hz).
      assert (r ≠ []) by (intros ->; cbn in Hh; congruence).
      apply t4_ok_prefix with (q := [0%N; x]); [done| |done].
      intros Hr. apply Ha. rewrite has_adjacent_app. right; right. done. }
    rewrite Hb. exists b. done.
  - replace (length r + 1 + 1 - 1) with (length (r ++ [y])) by (rewrite length_app; cbn; lia).
    replace (r ++ [y; x]) with ((r ++ [y]) ++ [x]) in * by by rewrite <- app_assoc.
    rewrite slice_prefix. cbn [mbind outcome_bind]. rewrite mint_bind.
    destruct (mint_ok (r ++ [y])) as (b & Hb & Hc).
    { eapply t4_ok_prefix; [by destruct r| |exact H]. rewrite last_snoc. congruence. }
    rewrite Hb. exists b. done.
Qed.

Lemma parent_done a : is_done (parent_at a) = true.
Proof.
  destruct (parent_at_spec a) as (q & x & _ & H).
  destruct (nonemptyb q), (last q); try (by destruct H as (_ & ->)).
  by destruct H as (b & -> & _).
Qed.

Definition parent (a : Address) : option Address := total (parent_at a) (parent_done a).

Lemma document_prefix_ok a p : document_prefix a = Some p → t4_ok p.
Proof.
  intros H. pose proof (document_prefix_at_spec a) as S.
  pose proof (total_spec _ (document_prefix_done a)) as E. fold (document_prefix a) in E.
  rewrite H in E. pose proof (Address_ok a) as Hok.
  destruct (level a) eqn:Hl; [congruence..| |].
  - rewrite E in S. by simplify_eq.
  - destruct S as (p' & e & E' & Hc & _ & He & Sg). rewrite E in E'. simplify_eq.
    rewrite Hc in Hok. destruct (Address_element_view a Hl) as (n & u & d & e' & _ & S & F).
    rewrite S in Sg. cbn in Sg.
    assert (p' ≠ []) by (intros ->; by cbn in Sg).
    apply t4_ok_segs; [done|]. split; rewrite Sg; cbn; [|lia].
    destruct F as ([_ ?] & [_ ?] & [_ ?] & _). by repeat constructor.
Qed.

Lemma document_of_done a : is_done (document_of_at a) = true.
Proof.
  unfold document_of_at. destruct (level a); try done;
    destruct (document_prefix a) as [p|] eqn:E; try done;
    rewrite mint_bind; destruct (mint_ok p (document_prefix_ok a p E)) as (b & -> & _); done.
Qed.

Definition document_of (a : Address) : option Address :=
  total (document_of_at a) (document_of_done a).

(** ** The claims *)

(** T4: [validate] admits exactly the tumblers violating no clause, with the
    level its separators name; a refusal carries exactly the violated clauses,
    each once, in declaration order; the classifier agrees on both branches. *)
Theorem validate_spec (t : Tumbler) :
  match validate t with
  | Ok a =>
      tumbler a = t ∧ (∀ c, ¬ clause_violated t c) ∧
      zeros t = level_index (level a) ∧ classify t = Class_from (level a)
  | Err e =>
      T4Error_clauses e ≠ [] ∧ (∀ c, c ∈ T4Error_clauses e ↔ clause_violated t c) ∧
      T4Error_clauses e `sublist_of` all_clauses ∧ classify t = CInvalid
  end.
Proof.
  destruct (t4_scan_spec t) as (Hz & Hc & Hs).
  pose proof (validate_is_ok t) as Hok. unfold is_t4_valid in Hok. unfold classify.
  destruct (validate t) as [a|e] eqn:E.
  - apply validate_Ok in E as <-. rewrite (T4 a).
    destruct (proj1 (t4_admitted_Some _ _) (T4 a)) as [H Hl]. split_and!; [done| |..].
    + apply t4_ok_segs in H as (_ & ? & ? & ? & ?); [|apply comps_nonempty].
      intros []; cbn; try done. lia.
    + rewrite zeros_separators. rewrite separators_segs in Hl. lia.
    + done.
  - revert E Hok. unfold validate. generalize (eq_refl (t4_admitted t)).
    generalize (t4_admitted t) at -1. intros [l|] Hadm; [done|]. intros [= <-] _.
    cbn. rewrite ?Hadm. split_and!; try done. intros Hnil.
    assert (Hok : t4_ok (comps t)).
    { assert (∀ c, ¬ clause_violated t c) as Hv by (intros c; rewrite <- Hc, Hnil; set_solver).
      pose proof (Hv OverDepth). cbn in *.
      split_and!; [apply comps_nonempty|apply (Hv LeadingZero)|apply (Hv TrailingZero)
        |apply (Hv AdjacentZeros)|lia]. }
    apply is_t4_valid_ok in Hok. unfold is_t4_valid in Hok. by rewrite ?Hadm in Hok.
Qed.

Definition option_fields (l : list (option (list Nat))) : list (list Nat) := omap id l.

(** T4b: the fields of an address, rejoined with separators, are its
    components; each is nonempty and zero-free; which are present is the level;
    and the subspace is the element field's first numeral. *)
Theorem fields_spec (a : Address) :
  let fs := [Some (node_field a); account_field a; document_field a; element_field a] in
  comps (tumbler a) = unsegs (option_fields fs) ∧
  Forall field_ok (option_fields fs) ∧
  length (option_fields fs) = S (level_index (level a)) ∧
  (∀ i, S (level_index (level a)) ≤ i → i < 4 → fs !! i = Some None) ∧
  subspace a = (e ← element_field a; head e).
Proof.
  intros fs.
  assert (Hsub : subspace a = (e ← element_field a; head e)).
  { apply total_Done. pose proof (subspace_done a) as H. revert H. unfold subspace_at.
    destruct (element_field a) as [e|]; [|done]. unfold index. by destruct e. }
  assert (H : option_fields fs = segs (comps (tumbler a)) ∧
    ∀ i, S (level_index (level a)) ≤ i → i < 4 → fs !! i = Some None).
  { unfold fs. rewrite account_field_segs, document_field_segs, element_field_segs.
    pose proof (node_field_segs a) as Hn. pose proof (Address_level_segs a) as Hl.
    destruct (segs (comps (tumbler a))) as [|n [|u [|d [|e [|]]]]]; cbn in *; simplify_eq;
      destruct (level a); cbn in *; try lia; (split; [done|]);
      intros [|[|[|[|i]]]] ??; done || lia. }
  destruct H as [-> Hi]. split_and!; try done.
  - symmetry. apply unsegs_segs.
  - apply Address_fields_ok.
  - apply Address_level_segs.
Qed.

Lemma parent_longest_raw (a : Address) :
  match parent a with
  | None => Tumbler_len (tumbler a) = 1
  | Some p =>
      comps (tumbler p) ≠ comps (tumbler a) ∧
      is_prefix (tumbler p) (tumbler a) = true ∧
      ∀ q : Tumbler, is_t4_valid q = true → is_prefix q (tumbler a) = true →
        q ≠ tumbler a → is_prefix q (tumbler p) = true
  end.
Proof.
  destruct (parent_at_spec a) as (q & x & E & H). unfold parent, Tumbler_len.
  destruct (nonemptyb q) eqn:Hq.
  2: { destruct H as [-> H]. rewrite (total_Done _ _ _ H), E. done. }
  destruct (last_is_some q Hq) as [y Hy]. rewrite Hy in H.
  destruct H as (b & H & Hb). rewrite (total_Done _ _ _ H).
  apply last_Some in Hy as [r ->]. rewrite removelast_last in Hb.
  rewrite !is_prefix_spec. rewrite nat_is_zero_eqb in Hb.
  assert (Hlast : ∀ p : Tumbler, comps p `prefix_of` comps (tumbler a) → p ≠ tumbler a →
    comps p `prefix_of` r ++ [y]).
  { intros p [k Hk] Hp. rewrite E in Hk. destruct k as [|z k] using rev_ind.
    - rewrite app_nil_r in Hk. exfalso. apply Hp, Tumbler_eq. congruence.
    - rewrite app_assoc in Hk. apply app_inj_tail in Hk as [-> _]. by exists k. }
  split_and!.
  - rewrite E, Hb. intros Heq. apply (f_equal length) in Heq.
    destruct (y =? 0)%N; rewrite !length_app in Heq; cbn in Heq; lia.
  - rewrite E, Hb. destruct (y =? 0)%N; [exists ([y] ++ [x])|exists [x]];
      by rewrite ?app_assoc.
  - intros p Hp Hpre Hne. rewrite is_prefix_spec in *. rewrite Hb.
    specialize (Hlast p Hpre Hne). destruct (N.eqb_spec y 0) as [->|]; [|done].
    destruct Hlast as [k Hk]. destruct k as [|z k] using rev_ind.
    + rewrite app_nil_r in Hk. apply is_t4_valid_ok in Hp as (_ & _ & Hl & _).
      rewrite <- Hk, last_snoc in Hl. done.
    + rewrite app_assoc in Hk. apply app_inj_tail in Hk as [-> _]. by exists k.
Qed.

(** [parent] is the longest T4-valid proper prefix: [None] exactly on a
    one-component address, and otherwise a proper prefix that every T4-valid
    proper prefix is a prefix of. *)
Theorem parent_longest (a : Address) :
  match parent a with
  | None => Tumbler_len (tumbler a) = 1
  | Some p =>
      comps (tumbler p) ≠ comps (tumbler a) ∧
      is_prefix (tumbler p) (tumbler a) = true ∧
      ∀ q : Tumbler, is_t4_valid q = true → is_prefix q (tumbler a) = true →
        q ≠ tumbler a → is_prefix q (tumbler p) = true
  end.
Proof. apply parent_longest_raw. Qed.

Lemma segs_inj cs ds : segs cs = segs ds → cs = ds.
Proof. intros H. by rewrite <- (unsegs_segs cs), <- (unsegs_segs ds), H. Qed.

Lemma level_of_segs a n : length (segs (comps (tumbler a))) = S n → level_index (level a) = n.
Proof. rewrite Address_level_segs. lia. Qed.

Lemma level_index_inj l l' : level_index l = level_index l' → l = l'.
Proof. by destruct l, l'. Qed.

(** The document of a document or element address: its first three fields. *)
Lemma document_of_segs a :
  match document_of a with
  | None => level_index (level a) < 2
  | Some d =>
      2 ≤ level_index (level a) ∧ level d = Document ∧
      document_prefix a = Some (comps (tumbler d)) ∧
      segs (comps (tumbler d)) = take 3 (segs (comps (tumbler a))) ∧
      is_prefix (tumbler d) (tumbler a) = true
  end.
Proof.
  pose proof (total_spec _ (document_of_done a)) as H. fold (document_of a) in H.
  pose proof (total_spec _ (document_prefix_done a)) as E. fold (document_prefix a) in E.
  pose proof (document_prefix_at_spec a) as S. pose proof (Address_level_segs a) as Hls.
  revert H. unfold document_of_at. destruct (level a) eqn:Hl; cbn in *.
  - assert (document_prefix a = None) as -> by congruence. intros [= <-]. lia.
  - assert (document_prefix a = None) as -> by congruence. intros [= <-]. lia.
  - assert (document_prefix a = Some (comps (tumbler a))) as -> by congruence.
    intros [= <-]. split_and!; try done; [by rewrite take_ge by lia|].
    by apply is_prefix_spec.
  - destruct S as (p & e & E' & Hc & _ & _ & Sg).
    assert (document_prefix a = Some p) as Hp by congruence. rewrite Hp.
    destruct (mint_ok p (document_prefix_ok a p Hp)) as (d & Hd & Hdc).
    rewrite mint_bind, Hd. cbn. intros [= <-]. rewrite Hdc.
    split_and!; try done; [lia| |].
    + apply level_index_inj. apply level_of_segs. rewrite Hdc, Sg, length_take, Hls. done.
    + apply is_prefix_spec. rewrite Hdc, Hc. by exists (0%N :: e).
Qed.

(** [same_document], on the fields. *)
Lemma same_document_segs a b :
  same_document a b = true ↔
    2 ≤ level_index (level a) ∧ 2 ≤ level_index (level b) ∧
    take 3 (segs (comps (tumbler a))) = take 3 (segs (comps (tumbler b))).
Proof.
  unfold same_document, same_account, same_node.
  rewrite !document_field_segs, !account_field_segs.
  pose proof (node_field_segs a) as Na. pose proof (node_field_segs b) as Nb.
  pose proof (Address_level_segs a) as La. pose proof (Address_level_segs b) as Lb.
  destruct (segs (comps (tumbler a))) as [|n [|u [|d r]]]; cbn in *; simplify_eq;
    try (split; [done|lia]);
    destruct (segs (comps (tumbler b))) as [|n' [|u' [|d' r']]]; cbn in *; simplify_eq;
    try (split; [done|lia]).
  rewrite !take_0. rewrite !andb_true_iff, !bool_decide_eq_true. split.
  - intros [[-> ->] ->]. split_and!; [lia..|done].
  - intros (_ & _ & [= -> -> ->]). done.
Qed.

Lemma starts_with_prefix p a : starts_with (comps (tumbler a)) (comps (tumbler p)) = true ↔
  is_prefix (tumbler p) (tumbler a) = true.
Proof.
  unfold starts_with. rewrite bool_decide_eq_true, is_prefix_spec. split.
  - intros <-. by apply prefix_take.
  - intros [k ->]. apply take_app_length.
Qed.

(** [under_document], on the document prefix. *)
Lemma under_document_spec a b :
  under_document a b = true ↔
  2 ≤ level_index (level a) ∧
  ∃ d, document_of b = Some d ∧ is_prefix (tumbler d) (tumbler a) = true.
Proof.
  pose proof (document_of_segs b) as Db. unfold under_document.
  destruct (document_of b) as [db|].
  - destruct Db as (_ & _ & -> & _ & _).
    destruct (level a); cbn.
    1-2: split; [done|lia].
    all: split; [intros H; split; [lia|]; exists db; split; [done|by apply (starts_with_prefix db a)]
                |intros (_ & d & [= <-] & H); by apply (starts_with_prefix db a)].
  - assert (document_prefix b = None) as ->.
    { unfold document_prefix. apply total_Done. pose proof (document_prefix_at_spec b) as S.
      destruct (level b); cbn in Db; done || lia. }
    split; [by destruct (level a)|]. intros (_ & d & ? & _). done.
Qed.

(** T6: [document_of] is the one N·0·U·0·D prefix of a document or element
    address (itself on a document), [same_document] is agreement on it, and
    [under_document] is containment in its subtree. *)
Theorem containment_spec (a b : Address) :
  (document_of a = None ↔ level_index (level a) < 2) ∧
  (∀ d, document_of a = Some d →
     level d = Document ∧ is_prefix (tumbler d) (tumbler a) = true ∧
     same_document d a = true ∧ document_of d = Some d) ∧
  (same_document a b = true ↔ ∃ d, document_of a = Some d ∧ document_of b = Some d) ∧
  (under_document a b = true ↔
     2 ≤ level_index (level a) ∧
     ∃ d, document_of b = Some d ∧ is_prefix (tumbler d) (tumbler a) = true).
Proof.
  pose proof (document_of_segs a) as Da. pose proof (document_of_segs b) as Db.
  split_and!; [| | |apply under_document_spec].
  - destruct (document_of a); [|done]. split; [done|lia].
  - intros d E. rewrite E in Da. destruct Da as (La & Hl & Hp & Hs & Hpre).
    split_and!; try done.
    + apply same_document_segs. rewrite Hl, Hs. cbn. split_and!; [lia..|]. by rewrite take_take.
    + pose proof (document_of_segs d) as Dd. destruct (document_of d) as [d'|];
        rewrite Hl in Dd; cbn in Dd; [|lia]. destruct Dd as (_ & _ & _ & Hs' & _).
      f_equal. apply Address_eq, Tumbler_eq, segs_inj. rewrite Hs', Hs. by rewrite take_take.
  - rewrite same_document_segs. destruct (document_of a) as [da|], (document_of b) as [db|].
    2-4: split; [intros (? & ? & _); lia|intros (? & ? & ?); done].
    destruct Da as (? & _ & _ & Sa & _), Db as (? & _ & _ & Sb & _).
    rewrite <- Sa, <- Sb. split.
    + intros (_ & _ & E%segs_inj). exists da. split; [done|]. f_equal.
      by apply Address_eq, Tumbler_eq.
    + intros (d & [= ->] & [= ->]). done.
Qed.
