(* ===== verification/AddrMaps.v ===== *)
(** * Ordered maps keyed by addresses

    An [im::OrdMap] keyed by [Address] ([crates/skep-address/src/address.rs], its
    [Ord]) is a finite map whose walk is by ascending key. The walk is
    [ord_entries]; the searches and maxima the code takes over a walk are here
    too, with their laws. *)

From stdpp Require Import gmap sorting.
From S2P Require Import Prelude Tumblers Addresses.

(** [Ord for Address] as a relation, and [OrdMap::iter]. *)
Definition addr_le (a b : Address) : Prop := tumbler a ≤ₜ tumbler b.

#[export] Instance addr_le_dec : RelDecision addr_le.
Proof. intros a b. unfold addr_le. apply _. Defined.

#[export] Instance addr_le_trans : Transitive addr_le.
Proof. intros a b c. unfold addr_le. intros. torder. Qed.

#[export] Instance addr_le_total : Total addr_le.
Proof.
  intros a b. unfold addr_le. destruct (leb_spec (tumbler a) (tumbler b)); [by left|right; torder].
Qed.

Definition key_le {V} (p q : Address * V) : Prop := addr_le p.1 q.1.

#[export] Instance key_le_dec {V} : RelDecision (@key_le V).
Proof. intros p q. unfold key_le. apply _. Defined.

#[export] Instance key_le_trans {V} : Transitive (@key_le V).
Proof. intros p q s. unfold key_le. apply addr_le_trans. Qed.

#[export] Instance key_le_total {V} : Total (@key_le V).
Proof. intros p q. apply addr_le_total. Qed.

Definition ord_entries {V} (m : gmap Address V) : list (Address * V) :=
  merge_sort key_le (map_to_list m).

Lemma elem_of_ord_entries {V} (m : gmap Address V) k v : (k, v) ∈ ord_entries m ↔ m !! k = Some v.
Proof. unfold ord_entries. by rewrite merge_sort_Permutation, elem_of_map_to_list. Qed.

Lemma ord_entries_keys_NoDup {V} (m : gmap Address V) : NoDup (fst <$> ord_entries m).
Proof. unfold ord_entries. rewrite merge_sort_Permutation. apply NoDup_fst_map_to_list. Qed.

Lemma ord_entries_sorted {V} (m : gmap Address V) :
  StronglySorted (λ a b, tumbler a ≤ₜ tumbler b) (fst <$> ord_entries m).
Proof.
  unfold ord_entries. pose proof (StronglySorted_merge_sort key_le (map_to_list m)) as H.
  induction H as [|p l Hl IH Hp]; cbn; [constructor|]. constructor; [done|].
  apply Forall_fmap. eapply Forall_impl; [exact Hp|]. done.
Qed.

Lemma StronglySorted_fmap_filter {A B} (f : A → B) (R : B → B → Prop) (P : A → Prop)
    `{∀ x, Decision (P x)} l :
  StronglySorted R (f <$> l) → StronglySorted R (f <$> filter P l).
Proof.
  induction l as [|x l IH]; [done|]. cbn [fmap list_fmap]. intros [Hx Hl]%StronglySorted_cons.
  rewrite filter_cons. case_decide; [|by apply IH]. cbn [fmap list_fmap]. constructor; [by apply IH|].
  apply Forall_fmap. apply Forall_forall.
  intros y [_ Hy]%list_elem_of_filter.
  apply (proj1 (Forall_forall _ _) Hx (f y)). by apply list_elem_of_fmap_2.
Qed.

Lemma NoDup_fmap_filter {A B} (f : A → B) (P : A → Prop) `{∀ x, Decision (P x)} l :
  NoDup (f <$> l) → NoDup (f <$> filter P l).
Proof.
  induction l as [|x l IH]; [done|]. cbn [fmap list_fmap]. intros [Hx Hl]%NoDup_cons.
  rewrite filter_cons. case_decide; [|by apply IH]. cbn [fmap list_fmap]. apply NoDup_cons. split; [|by apply IH].
  intros (y & E & [_ Hy]%list_elem_of_filter)%list_elem_of_fmap. apply Hx. rewrite E.
  by apply list_elem_of_fmap_2.
Qed.
