(* ===== verification/Arith.v ===== *)
(** * Position arithmetic and the ordinal shift

    Models [crates/skep-address/src/arithmetic.rs]: the action point and
    [sig], tumbler addition and subtraction, [inc] with its T4 gate, the
    displacement (the partial inverse of addition), the ordinal-only shift and
    the element position. *)

From S2P Require Import Prelude Tumblers Addresses.

#[local] Arguments Nat.ltb : simpl never.

Definition nonzero (c : Nat) : bool := negb (nat_is_zero c).

Definition action_point (w : Tumbler) : option Pos :=
  S <$> position nonzero (comps w).

Inductive AddDomainClause := ZeroDisplacement | AddActionPointTooDeep.

Definition add_domain (a w : Tumbler) : result Pos AddDomainClause :=
  match ok_or (action_point w) ZeroDisplacement with
  | Err e => Err e
  | Ok k => if Tumbler_len a <? k then Err AddActionPointTooDeep else Ok k
  end.

Definition sig (t : Tumbler) : Pos :=
  match rposition nonzero (comps t) with
  | Some i => i + 1
  | None => Tumbler_len t
  end.

Inductive AddPrecond := AddPrecond_.
Inductive SubPrecond := SubPrecond_.
Inductive GateViolation := GateViolation_.

Definition add (a w : Tumbler) : outcome (result Tumbler AddPrecond) :=
  match map_err (λ _, AddPrecond_) (add_domain a w) with
  | Err e => Done (Err e)
  | Ok k =>
      i ← usize_sub k 1;
      pre ← slice (comps a) 0 i;
      x ← index (comps a) i;
      y ← index (comps w) i;
      post ← slice (comps w) k (Tumbler_len w);
      t ← from_vec (pre ++ [(x + y)%N] ++ post);
      Done (Ok t)
  end.

(** The zero-padded component at a 0-based index. *)
Definition padded_comp (t : Tumbler) (i : nat) : Nat := default 0%N (comps t !! i).

Definition sub (a w : Tumbler) : outcome (result Tumbler SubPrecond) :=
  if a <?ₜ w then Done (Err SubPrecond_)
  else
    let padded_len := Tumbler_len a `max` Tumbler_len w in
    match find_in (λ i, negb (padded_comp a i =? padded_comp w i)%N) 0 padded_len with
    | None => t ← from_vec (replicate padded_len 0%N); Done (Ok t)
    | Some d =>
        x ← nat_sub (padded_comp a d) (padded_comp w d);
        t ← from_vec (replicate d 0%N ++ [x] ++
                      (padded_comp a <$> seq (d + 1) (padded_len - (d + 1))));
        Done (Ok t)
    end.

Definition inc_at (t : Tumbler) (k : nat) : outcome Tumbler :=
  if k =? 0 then
    i ← usize_sub (sig t) 1;
    x ← index (comps t) i;
    from_vec (<[i := (x + 1)%N]> (comps t))
  else
    n ← usize_sub k 1;
    from_vec (comps t ++ replicate n 0%N ++ [1%N]).

Lemma inc_done t k : is_done (inc_at t k) = true.
Proof.
  unfold inc_at. destruct (Nat.eqb_spec k 0) as [->|Hk].
  - pose proof (Tumbler_len_pos t) as Hlen. unfold Tumbler_len in Hlen.
    assert (0 < sig t ≤ length (comps t)) as Hs.
    { unfold sig, Tumbler_len. destruct (rposition _ _) as [i|] eqn:E; [|lia].
      apply rposition_lt in E. lia. }
    rewrite usize_sub_ok by lia. cbn.
    destruct (lookup_lt_is_Some_2 (comps t) (sig t - 1)) as [x Hx]; [lia|].
    rewrite (index_ok _ _ x Hx). cbn.
    destruct (from_vec_ok (<[sig t - 1 := (x + 1)%N]> (comps t))) as (t' & -> & _); [|done].
    apply nonemptyb_spec. intros E. apply (f_equal length) in E.
    rewrite length_insert in E. cbn in E. lia.
  - rewrite usize_sub_ok by lia. cbn.
    destruct (from_vec_ok (comps t ++ replicate (k - 1) 0%N ++ [1%N])) as (t' & -> & _); [|done].
    apply nonemptyb_app_l, T0.
Qed.

Definition inc (t : Tumbler) (k : nat) : Tumbler := total (inc_at t k) (inc_done t k).

Definition inc_preserves_t4 (a : Address) (k : nat) : bool :=
  match k with
  | 0 | 1 => true
  | 2 => negb (bool_decide (level a = Element))
  | _ => false
  end.

Definition checked_inc_at (a : Address) (k : nat) : outcome (result Address GateViolation) :=
  if negb (inc_preserves_t4 a k) then Done (Err GateViolation_)
  else
    let next := inc (tumbler a) k in
    b ← expect_ok (validate next);
    Done (Ok b).

Definition displacement_at (a b : Tumbler) : outcome (option Tumbler) :=
  if b ≤?ₜ a then Done None
  else if Tumbler_len b <? Tumbler_len a then Done None
  else if is_prefix a b then Done None
  else
    r ← sub b a;
    w ← expect_ok r;
    Done (Some w).

(** [*out.last_mut().expect(..) += n] *)
Definition shift_at (v : Tumbler) (n : Nat) : outcome Tumbler :=
  x ← expect_some (last (comps v));
  from_vec (removelast (comps v) ++ [(x + n)%N]).

Lemma shift_done v n : is_done (shift_at v n) = true.
Proof.
  unfold shift_at. destruct (last_is_some _ (T0 v)) as [x ->]. cbn.
  destruct (from_vec_ok (removelast (comps v) ++ [(x + n)%N])) as (t & -> & _); [|done].
  by apply nonemptyb_app_r.
Qed.

Definition shift (v : Tumbler) (n : Nat) : Tumbler := total (shift_at v n) (shift_done v n).

Definition next_at_length (t : Tumbler) : Tumbler := shift t 1.

Lemma ordinal_done t : is_done (expect_some (last (comps t))) = true.
Proof. by destruct (last_is_some _ (T0 t)) as [x ->]. Qed.

(** [address::ordinal]: the last component. *)
Definition ordinal (t : Tumbler) : Nat := total (expect_some (last (comps t))) (ordinal_done t).

Record ElemPos := MkElemPos {
  ep_doc : Address;
  ep_subspace : Nat;
  ep_ordinal : Nat
}.

Inductive ElemError := DocNotDocument | SubspaceZero | OrdinalZero.

Definition elem_addr_at (p : ElemPos) : outcome (result Address ElemError) :=
  if negb (bool_decide (level (ep_doc p) = Document)) then Done (Err DocNotDocument)
  else if nat_is_zero (ep_subspace p) then Done (Err SubspaceZero)
  else if nat_is_zero (ep_ordinal p) then Done (Err OrdinalZero)
  else
    t ← from_vec (comps (tumbler (ep_doc p)) ++ [0%N; ep_subspace p; ep_ordinal p]);
    a ← expect_ok (validate t);
    Done (Ok a).

Definition shift_ordinal (p : ElemPos) (n : Nat) : ElemPos :=
  MkElemPos (ep_doc p) (ep_subspace p) (ep_ordinal p + n)%N.

(** ** Addition *)

Lemma nonzero_spec c : nonzero c = true ↔ c ≠ 0%N.
Proof. unfold nonzero. rewrite negb_true_iff, nat_is_zero_eqb. apply N.eqb_neq. Qed.

Lemma nonzero_false c : nonzero c = false ↔ c = 0%N.
Proof. unfold nonzero. rewrite negb_false_iff, nat_is_zero_eqb. apply N.eqb_eq. Qed.

Lemma all_zero_replicate l : Forall (λ y, nonzero y = false) l ↔ l = replicate (length l) 0%N.
Proof.
  induction l as [|x l IH]; cbn; [split; [done|constructor]|].
  rewrite Forall_cons, IH, nonzero_false. split; [intros [-> H]; by f_equal|].
  intros [= -> H]. done.
Qed.

(** The action point opens the displacement after zeros. *)
Lemma action_point_Some w k :
  action_point w = Some k ↔
  ∃ i x ws, k = S i ∧ comps w = replicate i 0%N ++ x :: ws ∧ x ≠ 0%N.
Proof.
  unfold action_point. rewrite fmap_Some. setoid_rewrite position_Some. split.
  - intros (i & (l1 & x & l2 & E & <- & Hx & F) & ->). apply nonzero_spec in Hx.
    apply all_zero_replicate in F. exists (length l1), x, l2. by rewrite E, <- F.
  - intros (i & x & ws & -> & E & Hx). exists i. split; [|done].
    exists (replicate i 0%N), x, ws. split_and!; [done|apply length_replicate|by apply nonzero_spec|].
    apply Forall_replicate, nonzero_false. done.
Qed.

Lemma action_point_None w :
  action_point w = None ↔ comps w = replicate (Tumbler_len w) 0%N.
Proof. unfold action_point. rewrite fmap_None, position_None. apply all_zero_replicate. Qed.

Lemma add_domain_Ok a w k :
  add_domain a w = Ok k ↔ action_point w = Some k ∧ k ≤ Tumbler_len a.
Proof.
  unfold add_domain. destruct (action_point w) as [j|]; cbn; [|by split; [|intros [? _]]].
  destruct (Nat.ltb_spec (Tumbler_len a) j); split; [done|intros [[= ->] ?]; lia| |].
  - by intros [= ->].
  - by intros [[= ->] ?].
Qed.

(** The three regions of a sum: the start's prefix, one component added, the
    displacement's tail. *)
Lemma add_app a w i p y r x ws :
  comps a = p ++ y :: r → length p = i → comps w = replicate i 0%N ++ x :: ws → x ≠ 0%N →
  ∃ t, add a w = Done (Ok t) ∧ comps t = p ++ (y + x)%N :: ws.
Proof.
  intros Ha Hi Hw Hx. unfold add.
  assert (add_domain a w = Ok (S i)) as ->.
  { apply add_domain_Ok. split; [apply action_point_Some; naive_solver|].
    unfold Tumbler_len. rewrite Ha, length_app. cbn. lia. }
  cbn [map_err]. rewrite usize_sub_ok by lia. cbn [mbind outcome_bind].
  replace (S i - 1) with i by lia. rewrite Ha, Hw, <- Hi, slice_prefix, index_snoc.
  pose proof (index_snoc (replicate (length p) 0%N) x ws) as Hix.
  rewrite length_replicate in Hix. cbn [mbind outcome_bind]. rewrite Hix. cbn [mbind outcome_bind]. unfold Tumbler_len. rewrite Hw, <- Hi.
  replace (replicate (length p) 0%N ++ x :: ws) with ((replicate (length p) 0%N ++ [x]) ++ ws)
    by by rewrite <- app_assoc.
  replace (S (length p)) with (length (replicate (length p) 0%N ++ [x]))
    by (rewrite length_app, length_replicate; cbn; lia).
  rewrite slice_to_end. cbn [mbind outcome_bind].
  destruct (from_vec_ok (p ++ [(y + x)%N] ++ ws)) as (t & -> & Ht); [by apply nonemptyb_app_r|].
  exists t. done.
Qed.

(** A displacement inside the domain splits both operands at the action point. *)
Lemma add_domain_view a w k :
  add_domain a w = Ok k →
  ∃ p y r x ws, comps a = p ++ y :: r ∧ k = S (length p) ∧
    comps w = replicate (length p) 0%N ++ x :: ws ∧ x ≠ 0%N.
Proof.
  intros [(i & x & ws & -> & Hw & Hx)%action_point_Some Hk]%add_domain_Ok.
  unfold Tumbler_len in Hk.
  destruct (lookup_lt_is_Some_2 (comps a) i) as [y Hy]; [lia|].
  apply list_elem_of_split_length in Hy as (p & r & Ha & Hp).
  exists p, y, r, x, ws. by rewrite <- Hp.
Qed.

Lemma add_Ok a w t :
  add a w = Done (Ok t) ↔
  ∃ p y r x ws, comps a = p ++ y :: r ∧ comps w = replicate (length p) 0%N ++ x :: ws ∧
    x ≠ 0%N ∧ comps t = p ++ (y + x)%N :: ws.
Proof.
  split.
  - intros H. destruct (add_domain a w) as [k|e] eqn:E.
    + destruct (add_domain_view a w k E) as (p & y & r & x & ws & Ha & _ & Hw & Hx).
      destruct (add_app a w (length p) p y r x ws Ha eq_refl Hw Hx) as (t' & H' & Ht).
      rewrite H in H'. simplify_eq. naive_solver.
    + unfold add in H. by rewrite E in H.
  - intros (p & y & r & x & ws & Ha & Hw & Hx & Ht).
    destruct (add_app a w (length p) p y r x ws Ha eq_refl Hw Hx) as (t' & -> & Ht').
    do 2 f_equal. apply Tumbler_eq. congruence.
Qed.

Lemma add_Err a w e :
  add_domain a w = Err e → add a w = Done (Err AddPrecond_).
Proof. unfold add. by intros ->. Qed.

Lemma add_lt a w t : add a w = Done (Ok t) → a <ₜ t.
Proof.
  intros (p & y & r & x & ws & Ha & _ & Hx & Ht)%add_Ok.
  unfold Tlt, cmp. rewrite Ha, Ht. apply list_cmp_app_lt. lia.
Qed.

Lemma add_len a w t : add a w = Done (Ok t) → Tumbler_len t = Tumbler_len w.
Proof.
  intros (p & y & r & x & ws & _ & Hw & _ & Ht)%add_Ok.
  unfold Tumbler_len. rewrite Hw, Ht, !length_app, length_replicate. done.
Qed.

Lemma list_cmp_cut p q y z r s :
  length p = length q → list_cmp (p ++ y :: r) (q ++ z :: s) ≠ Gt →
  (p = q ∧ (y ≤ z)%N) ∨ ∀ r' s', list_cmp (p ++ r') (q ++ s') = Lt.
Proof.
  revert q. induction p as [|c p IH]; intros [|d q] Hlen; cbn in *; try lia.
  - destruct (N.compare_spec y z); try done; intros _; left; (split; [done|lia]).
  - destruct (N.compare_spec c d) as [->|?|?]; try done; intros H'.
    + destruct (IH q ltac:(lia) H') as [[-> ?]|?]; [by left|by right].
    + by right.
Qed.

Lemma zeros_split_inj m n (x x' : Nat) ws ws' :
  replicate m 0%N ++ x :: ws = replicate n 0%N ++ x' :: ws' → x ≠ 0%N → x' ≠ 0%N →
  m = n ∧ x = x' ∧ ws = ws'.
Proof.
  revert n. induction m as [|m IH]; intros [|n] E Hx Hx'; cbn in E; injection E; intros.
  - done.
  - congruence.
  - congruence.
  - destruct (IH n) as (-> & -> & ->); done.
Qed.

(** Addition is weakly monotone in the start. *)
Lemma add_mono a b w s t :
  a ≤ₜ b → add a w = Done (Ok s) → add b w = Done (Ok t) → s ≤ₜ t.
Proof.
  intros Hab (p & y & r & x & ws & Ha & Hw & Hx & Hs)%add_Ok
    (q & z & r' & x' & ws' & Hb & Hw' & Hx' & Ht)%add_Ok.
  rewrite Hw in Hw'.
  destruct (zeros_split_inj _ _ _ _ _ _ Hw' Hx Hx') as (Hlen & <- & <-).
  unfold Tle, cmp in *. rewrite Ha, Hb in Hab. rewrite Hs, Ht.
  destruct (list_cmp_cut p q y z r r' Hlen Hab) as [[-> Hyz]|Hlt].
  - rewrite list_cmp_app. cbn. destruct (N.compare_spec (y + x) (z + x)); try done.
    + by rewrite list_cmp_refl.
    + lia.
  - by rewrite Hlt.
Qed.

(** ** Subtraction *)

Lemma padded_lookup t i x : comps t !! i = Some x → padded_comp t i = x.
Proof. unfold padded_comp. by intros ->. Qed.

Lemma padded_ge t i : Tumbler_len t ≤ i → padded_comp t i = 0%N.
Proof. unfold padded_comp, Tumbler_len. intros H. by rewrite lookup_ge_None_2. Qed.

Lemma padded_app_l t p q i : comps t = p ++ q → i < length p → padded_comp t i = default 0%N (p !! i).
Proof. unfold padded_comp. intros -> H. by rewrite lookup_app_l. Qed.

Lemma padded_middle t p x q : comps t = p ++ x :: q → padded_comp t (length p) = x.
Proof. intros E. apply padded_lookup. rewrite E. by apply list_lookup_middle. Qed.

Lemma padded_tail t p q : comps t = p ++ q → padded_comp t <$> seq (length p) (length q) = q.
Proof.
  revert p. induction q as [|x q IH]; intros p E; [done|]. cbn.
  rewrite (padded_middle t p x q E). f_equal.
  specialize (IH (p ++ [x])). rewrite length_app in IH. cbn in IH.
  rewrite Nat.add_1_r in IH. apply IH. by rewrite E, <- app_assoc.
Qed.

(** At the first padded difference of [w ≤ a], the larger component is [a]'s:
    the subtraction there cannot underflow. *)
Lemma padded_divergence a w d :
  w ≤ₜ a → padded_comp a d ≠ padded_comp w d →
  (∀ i, i < d → padded_comp a i = padded_comp w i) →
  (padded_comp w d < padded_comp a d)%N.
Proof.
  intros Hle Hd Heq. apply Tle_lteq in Hle as [Hlt| ->]; [|done].
  destruct (list_cmp_lt_inv _ _ Hlt) as [(e & He & Ha)|(p & x & y & w' & a' & Hw & Ha & Hxy)].
  - destruct (decide (d < length (comps w))) as [Hdl|Hdl].
    + exfalso. apply Hd. unfold padded_comp. by rewrite Ha, lookup_app_l.
    + rewrite (padded_ge w) in * by (unfold Tumbler_len; lia). lia.
  - destruct (Nat.lt_trichotomy d (length p)) as [H|[->|H]].
    + exfalso. apply Hd. by rewrite (padded_app_l a p _ d Ha), (padded_app_l w p _ d Hw).
    + by rewrite (padded_middle a p y a' Ha), (padded_middle w p x w' Hw).
    + specialize (Heq _ H). rewrite (padded_middle a p y a' Ha), (padded_middle w p x w' Hw) in Heq.
      lia.
Qed.

(** The difference's components past the first divergence. *)
Lemma sub_tail a d x r L :
  comps r = replicate d 0%N ++ [x] ++ (padded_comp a <$> seq (d + 1) (L - (d + 1))) →
  d < L → (∀ i, L ≤ i → padded_comp a i = 0%N) →
  Tumbler_len r = L ∧
  ∀ i, (i < d → padded_comp r i = 0%N) ∧ (i = d → padded_comp r i = x) ∧
       (d < i → padded_comp r i = padded_comp a i).
Proof.
  intros Hc HdL HL. split.
  - unfold Tumbler_len. rewrite Hc, !length_app, length_replicate, length_fmap, length_seq. cbn. lia.
  - intros i. unfold padded_comp at 1 2 3. rewrite Hc. split_and!.
    + intros Hi. rewrite lookup_app_l by by rewrite length_replicate. by rewrite lookup_replicate_2.
    + intros ->. by rewrite lookup_app_r, length_replicate, Nat.sub_diag by by rewrite length_replicate.
    + intros Hi. rewrite lookup_app_r, length_replicate by (rewrite length_replicate; lia).
      rewrite lookup_app_r by (cbn; lia). cbn [length]. rewrite list_lookup_fmap.
      destruct (decide (i < L)) as [HiL|HiL].
      * rewrite lookup_seq_lt by lia. cbn. f_equal. lia.
      * rewrite lookup_seq_ge by lia. cbn. symmetry. apply HL. lia.
Qed.

(** [⊖] is total past its gate: it refuses exactly [a < w]; otherwise the
    result has the padded length and is zero up to the first zero-padded
    difference, the component difference there (which cannot underflow), and
    [a]'s padded tail after it. *)
Theorem sub_spec (a w : Tumbler) :
  let L := Tumbler_len a `max` Tumbler_len w in
  match sub a w with
  | Panicked => False
  | Done (Err _) => a <ₜ w
  | Done (Ok r) =>
      w ≤ₜ a ∧ Tumbler_len r = L ∧
      ((∀ i, padded_comp a i = padded_comp w i ∧ padded_comp r i = 0%N) ∨
       ∃ d, d < L ∧ (padded_comp w d < padded_comp a d)%N ∧
         ∀ i, (i < d → padded_comp a i = padded_comp w i ∧ padded_comp r i = 0%N) ∧
              (i = d → (padded_comp r i + padded_comp w i = padded_comp a i)%N) ∧
              (d < i → padded_comp r i = padded_comp a i))
  end.
Proof.
  intros L. unfold sub. destruct (ltb_spec a w) as [Hlt|Hle]; [done|]. fold L.
  assert (HL : ∀ i, L ≤ i → padded_comp a i = 0%N ∧ padded_comp w i = 0%N).
  { intros i Hi. split; apply padded_ge; lia. }
  pose proof (Tumbler_len_pos a).
  destruct (find_in _ 0 L) as [d|] eqn:E.
  - apply find_in_Some in E as ([_ HdL] & Hd & Heq).
    apply negb_true_iff, N.eqb_neq in Hd.
    assert (Heq' : ∀ i, i < d → padded_comp a i = padded_comp w i).
    { intros i Hi. specialize (Heq i ltac:(lia)). by apply negb_false_iff, N.eqb_eq in Heq. }
    pose proof (padded_divergence a w d Hle Hd Heq') as Hgt.
    rewrite nat_sub_ok by lia. cbn [mbind outcome_bind].
    destruct (from_vec_ok (replicate d 0%N ++ [(padded_comp a d - padded_comp w d)%N] ++
      (padded_comp a <$> seq (d + 1) (L - (d + 1))))) as (r & Hr & Hc); [by apply nonemptyb_app_r|].
    rewrite Hr. cbn [mbind outcome_bind].
    destruct (sub_tail a d _ r L Hc HdL) as [Hlen Hi]; [intros i Hi; by destruct (HL i Hi)|].
    split_and!; [done|done|]. right. exists d. split_and!; [done..|]. intros i.
    destruct (Hi i) as (H1 & H2 & H3). split_and!; [intros ?; split; by auto| |done].
    intros ->. rewrite H2 by done. lia.
  - rewrite find_in_None in E.
    destruct (from_vec_ok (replicate L 0%N)) as (r & Hr & Hc).
    { destruct L eqn:HL'; [lia|done]. }
    rewrite Hr. cbn. split_and!; [done|unfold Tumbler_len at 1; by rewrite Hc, length_replicate|].
    left. intros i. split.
    + destruct (decide (i < L)) as [Hi|Hi].
      * specialize (E i ltac:(lia)). by apply negb_false_iff, N.eqb_eq in E.
      * destruct (HL i ltac:(lia)) as [-> ->]. done.
    + unfold padded_comp. rewrite Hc. destruct (replicate L 0%N !! i) eqn:Hx; [|done].
      by apply lookup_replicate in Hx as [-> _].
Qed.

(** The subtraction of endpoints that differ inside the shorter one. *)
Lemma sub_app a b p x y ra rb :
  comps a = p ++ x :: ra → comps b = p ++ y :: rb → (x < y)%N → length ra ≤ length rb →
  ∃ r, sub b a = Done (Ok r) ∧ comps r = replicate (length p) 0%N ++ (y - x)%N :: rb.
Proof.
  intros Ha Hb Hxy Hlen. unfold sub.
  assert (Hlt : a <ₜ b) by (unfold Tlt, cmp; rewrite Ha, Hb; by apply list_cmp_app_lt).
  destruct (ltb_spec b a) as [?|_]; [torder|].
  assert (HL : Tumbler_len b `max` Tumbler_len a = length p + S (length rb)).
  { unfold Tumbler_len. rewrite Ha, Hb, !length_app. cbn. lia. }
  rewrite HL.
  assert (find_in (λ i, negb (padded_comp b i =? padded_comp a i)%N) 0
            (length p + S (length rb)) = Some (length p)) as ->.
  { apply find_in_Some. split_and!; [lia|lia| |].
    - rewrite (padded_middle b p y rb Hb), (padded_middle a p x ra Ha).
      apply negb_true_iff, N.eqb_neq. lia.
    - intros i Hi. rewrite (padded_app_l a p _ i Ha), (padded_app_l b p _ i Hb) by lia.
      by rewrite N.eqb_refl. }
  rewrite (padded_middle b p y rb Hb), (padded_middle a p x ra Ha).
  rewrite nat_sub_ok by lia. cbn [mbind outcome_bind].
  replace (length p + S (length rb) - (length p + 1)) with (length rb) by lia.
  replace (length p + 1) with (length (p ++ [y])) by by rewrite length_app.
  rewrite (padded_tail b (p ++ [y]) rb) by by rewrite <- app_assoc.
  destruct (from_vec_ok (replicate (length p) 0%N ++ [(y - x)%N] ++ rb)) as (r & -> & Hr).
  { by apply nonemptyb_app_r. }
  exists r. done.
Qed.

Lemma displacement_at_Some a b w :
  displacement_at a b = Done (Some w) ↔
  Tumbler_len a ≤ Tumbler_len b ∧ add a w = Done (Ok b).
Proof.
  unfold displacement_at. split.
  - destruct (leb_spec b a) as [?|Hlt]; [done|].
    destruct (Nat.ltb_spec (Tumbler_len b) (Tumbler_len a)) as [?|Hlen]; [done|].
    destruct (is_prefix a b) eqn:Hpre; [done|]. intros H. split; [done|].
    unfold Tumbler_len in Hlen.
    destruct (list_cmp_lt_inv _ _ Hlt) as [(e & _ & E)|(p & x & y & ra & rb & Ha & Hb & Hxy)].
    { assert (is_prefix a b = true) by (apply is_prefix_spec; by exists e). congruence. }
    rewrite Ha, Hb, !length_app in Hlen. cbn in Hlen.
    destruct (sub_app a b p x y ra rb Ha Hb Hxy ltac:(lia)) as (r & Hr & Hc).
    rewrite Hr in H. cbn in H. simplify_eq. apply add_Ok.
    exists p, x, ra, (y - x)%N, rb. split_and!; try done; [lia|]. rewrite Hb. repeat f_equal. lia.
  - intros [Hlen Hadd]. pose proof (add_lt _ _ _ Hadd) as Hlt.
    apply add_Ok in Hadd as (p & x & ra & y & ws & Ha & Hw & Hy & Hb).
    destruct (leb_spec b a) as [?|_]; [torder|].
    destruct (Nat.ltb_spec (Tumbler_len b) (Tumbler_len a)) as [?|_]; [lia|].
    unfold Tumbler_len in Hlen. rewrite Ha, Hb, !length_app in Hlen. cbn in Hlen.
    assert (is_prefix a b = false) as ->.
    { apply not_true_iff_false. rewrite is_prefix_spec. intros [k Hk].
      rewrite Ha, Hb, <- app_assoc in Hk. apply app_inv_head in Hk. cbn in Hk.
      injection Hk. lia. }
    destruct (sub_app a b p x (x + y)%N ra ws Ha Hb ltac:(lia) ltac:(lia)) as (r & Hr & Hc).
    rewrite Hr. cbn. do 2 f_equal. apply Tumbler_eq. rewrite Hc, Hw. do 2 f_equal. lia.
Qed.

Lemma displacement_done a b : is_done (displacement_at a b) = true.
Proof.
  unfold displacement_at. destruct (leb_spec b a) as [?|Hlt]; [done|].
  destruct (_ <? _); [done|]. destruct (is_prefix a b); [done|].
  pose proof (sub_spec b a) as H. cbn in H.
  destruct (sub b a) as [[w|e]|]; [done|torder|done].
Qed.

Definition displacement (a b : Tumbler) : option Tumbler :=
  total (displacement_at a b) (displacement_done a b).

(** [⊕]: it refuses exactly outside its domain (no action point, or one past
    the start), never panics, and where defined is strictly increasing over the
    start, weakly monotone in it, of the displacement's length, and keeps the
    start's prefix before the action point. *)
Theorem add_spec (a w : Tumbler) :
  match add a w with
  | Panicked => False
  | Done (Err _) =>
      comps w = replicate (Tumbler_len w) 0%N ∨
      ∃ k, action_point w = Some k ∧ Tumbler_len a < k
  | Done (Ok t) =>
      a <ₜ t ∧ Tumbler_len t = Tumbler_len w ∧
      (∃ k, action_point w = Some k ∧ k ≤ Tumbler_len a ∧
        take (k - 1) (comps t) = take (k - 1) (comps a)) ∧
      ∀ b s, a ≤ₜ b → add b w = Done (Ok s) → t ≤ₜ s
  end.
Proof.
  destruct (add_domain a w) as [k|e] eqn:E.
  - destruct (add_domain_view a w k E) as (p & y & r & x & ws & Ha & Hk & Hw & Hx).
    destruct (add_app a w (length p) p y r x ws Ha eq_refl Hw Hx) as (t & H & Ht).
    rewrite H. split_and!; [by eapply add_lt|by eapply add_len| |].
    + apply add_domain_Ok in E as [? ?]. exists k. split_and!; [done..|].
      subst k. replace (S (length p) - 1) with (length p) by lia.
      by rewrite Ha, Ht, !take_app_length.
    + intros b s Hab Hs. by eapply add_mono.
  - rewrite (add_Err a w e E). unfold add_domain in E.
    destruct (action_point w) as [k|] eqn:Hk; cbn in E.
    + right. exists k. split; [done|]. destruct (Nat.ltb_spec (Tumbler_len a) k); [lia|done].
    + left. by apply action_point_None.
Qed.

(** D0-D2: the displacement is exactly the partial inverse of [⊕] towards a
    tumbler no shorter than the start: [displacement a b = Some w] iff
    [a ⊕ w = b] and [#a ≤ #b], so in particular it is unique. *)
Theorem displacement_spec (a b w : Tumbler) :
  displacement a b = Some w ↔ Tumbler_len a ≤ Tumbler_len b ∧ add a w = Done (Ok b).
Proof.
  rewrite <- displacement_at_Some. rewrite (total_spec _ (displacement_done a b)).
  unfold displacement. split; congruence.
Qed.

(** ** [inc] and its gate *)

Lemma inc_0 t : ∃ p x q, comps t = p ++ x :: q ∧ comps (inc t 0) = p ++ (x + 1)%N :: q ∧
  sig t = S (length p).
Proof.
  pose proof (total_spec _ (inc_done t 0)) as H. fold (inc t 0) in H. revert H.
  generalize (inc t 0). intros r. unfold inc_at. cbn.
  assert (Hs : 0 < sig t ≤ length (comps t)).
  { pose proof (Tumbler_len_pos t). unfold sig, Tumbler_len in *.
    destruct (rposition _ _) as [i|] eqn:E; [|lia]. apply rposition_lt in E. lia. }
  rewrite usize_sub_ok by lia. cbn.
  destruct (lookup_lt_is_Some_2 (comps t) (sig t - 1)) as [x Hx]; [lia|].
  rewrite (index_ok _ _ x Hx). cbn. intros H%from_vec_comps.
  apply list_elem_of_split_length in Hx as (p & q & E & Hp). exists p, x, q.
  split_and!; [done| |lia]. rewrite H, E, Hp. by rewrite insert_app_r_alt, Nat.sub_diag by lia.
Qed.

Lemma inc_S t n : comps (inc t (S n)) = comps t ++ replicate n 0%N ++ [1%N].
Proof.
  pose proof (total_spec _ (inc_done t (S n))) as H. fold (inc t (S n)) in H. revert H.
  generalize (inc t (S n)). intros r. unfold inc_at. cbn [Nat.eqb].
  rewrite usize_sub_ok by lia. cbn [mbind outcome_bind].
  replace (S n - 1) with n by lia. by intros H%from_vec_comps.
Qed.

Lemma Address_snoc a : ∃ q x, comps (tumbler a) = q ++ [x] ∧ x ≠ 0%N.
Proof.
  destruct (comps_snoc (tumbler a)) as (q & x & E). exists q, x. split; [done|].
  destruct (Address_ok a) as (_ & _ & Hl & _). rewrite E, last_snoc in Hl. congruence.
Qed.

(** TA5-SigValid: on an address, [sig] is the last position. *)
Lemma sig_address a : sig (tumbler a) = Tumbler_len (tumbler a).
Proof.
  destruct (Address_snoc a) as (q & x & E & Hx). unfold sig, Tumbler_len.
  rewrite E, rposition_snoc by by apply nonzero_spec. rewrite length_app. done.
Qed.

Lemma inc_0_address a : ∃ q x, comps (tumbler a) = q ++ [x] ∧ x ≠ 0%N ∧
  comps (inc (tumbler a) 0) = q ++ [(x + 1)%N].
Proof.
  destruct (Address_snoc a) as (q & x & E & Hx).
  destruct (inc_0 (tumbler a)) as (p & y & r & E' & Hi & Hs).
  rewrite sig_address in Hs. unfold Tumbler_len in Hs.
  rewrite E', length_app in Hs. cbn in Hs. destruct r; [|cbn in Hs; lia].
  rewrite E in E'. apply app_inj_tail in E' as [-> ->]. by exists p, y.
Qed.

Lemma Address_level_separators a :
  length (separators (comps (tumbler a))) = level_index (level a).
Proof. pose proof (Address_level_segs a) as H. rewrite separators_segs in H. lia. Qed.

Lemma t4_ok_replicate_gap p n q : 2 ≤ n → ¬ t4_ok (p ++ replicate n 0%N ++ q).
Proof.
  intros Hn (_ & _ & _ & Ha & _). apply Ha. destruct n as [|[|n]]; [lia..|].
  exists p, (replicate n 0%N ++ q). done.
Qed.

Lemma inc_valid a k : is_t4_valid (inc (tumbler a) k) = inc_preserves_t4 a k.
Proof.
  pose proof (Address_ok a) as H. pose proof (Address_level_separators a) as Hl.
  apply eq_true_iff_eq. rewrite is_t4_valid_ok. destruct k as [|[|[|k]]]; cbn [inc_preserves_t4].
  - destruct (inc_0_address a) as (q & x & E & Hx & ->). split; [done|]. intros _.
    rewrite E in H. eapply t4_ok_set_last; [done|lia].
  - rewrite inc_S. split; [done|]. intros _. cbn. apply t4_ok_app_zf; [done|]. by repeat constructor.
  - rewrite inc_S, negb_true_iff, bool_decide_eq_false. cbn. split.
    + intros (_ & _ & _ & _ & Hz) Hel.
      rewrite separators_count_app, Hl, Hel in Hz. cbn in Hz. lia.
    + intros Hne. apply t4_ok_app_field; [done..|by repeat constructor|].
      rewrite Hl. destruct (level a); cbn; try lia. done.
  - rewrite inc_S. split; [|done]. intros Hk. exfalso. revert Hk. apply t4_ok_replicate_gap. lia.
Qed.

Lemma checked_inc_done a k : is_done (checked_inc_at a k) = true.
Proof.
  unfold checked_inc_at. destruct (inc_preserves_t4 a k) eqn:E; cbn; [|done].
  rewrite <- inc_valid, <- validate_is_ok in E. by destruct (validate _).
Qed.

Definition checked_inc (a : Address) (k : nat) : result Address GateViolation :=
  total (checked_inc_at a k) (checked_inc_done a k).

Lemma checked_inc_ok a k :
  inc_preserves_t4 a k = true → ∃ b, checked_inc a k = Ok b ∧ tumbler b = inc (tumbler a) k.
Proof.
  intros E. pose proof (total_spec _ (checked_inc_done a k)) as H. fold (checked_inc a k) in H.
  revert H. unfold checked_inc_at. rewrite E. cbn.
  destruct (validate (inc (tumbler a) k)) as [b|] eqn:Hv; cbn; [|done]. intros [= <-].
  exists b. split; [done|]. by apply validate_Ok.
Qed.

Lemma inc_lt t k : t <ₜ inc t k.
Proof.
  unfold Tlt, cmp. destruct k as [|n].
  - destruct (inc_0 t) as (p & x & q & -> & -> & _). apply list_cmp_app_lt. lia.
  - rewrite inc_S. apply list_cmp_prefix. by destruct n.
Qed.

(** TA5a: the gate is exact ([inc_preserves_t4] holds iff the advanced
    tumbler is T4-valid, at every [k]), [checked_inc] is [inc] behind it, and the
    mint is strictly above its parent, at the level the gate's case names. *)
Theorem inc_gate_exact (a : Address) (k : nat) :
  is_t4_valid (inc (tumbler a) k) = inc_preserves_t4 a k ∧
  match checked_inc a k with
  | Err _ => inc_preserves_t4 a k = false
  | Ok b =>
      inc_preserves_t4 a k = true ∧ tumbler b = inc (tumbler a) k ∧ tumbler a <ₜ tumbler b ∧
      level_index (level b) = level_index (level a) + (if k =? 2 then 1 else 0)
  end.
Proof.
  split; [apply inc_valid|].
  pose proof (total_spec _ (checked_inc_done a k)) as H. fold (checked_inc a k) in H. revert H.
  generalize (checked_inc a k). intros r. unfold checked_inc_at.
  destruct (inc_preserves_t4 a k) eqn:E; cbn; [|by intros [= <-]].
  destruct (validate (inc (tumbler a) k)) as [b|] eqn:Hv; cbn; [|done]. intros [= <-].
  apply validate_Ok in Hv. split_and!; [done..|rewrite Hv; apply inc_lt|].
  rewrite <- !Address_level_separators, Hv. destruct k as [|[|[|k]]]; [..|done]; cbn.
  - destruct (inc_0_address a) as (q & x & -> & Hx & ->).
    rewrite !separators_count_app, !separators_cons, !nat_is_zero_eqb.
    destruct (N.eqb_spec x 0), (N.eqb_spec (x + 1) 0); cbn; lia.
  - rewrite inc_S, separators_count_app. cbn. lia.
  - rewrite inc_S, separators_count_app. cbn. lia.
Qed.

(** ** Element positions *)

Lemma elem_comps_ok p :
  level (ep_doc p) = Document → ep_subspace p ≠ 0%N → ep_ordinal p ≠ 0%N →
  t4_ok (comps (tumbler (ep_doc p)) ++ [0%N; ep_subspace p; ep_ordinal p]).
Proof.
  intros Hl Hs Ho. apply t4_ok_app_field; [apply Address_ok|done|by repeat constructor|].
  rewrite Address_level_separators, Hl. done.
Qed.

Lemma elem_addr_done p : is_done (elem_addr_at p) = true.
Proof.
  unfold elem_addr_at. destruct (bool_decide _) eqn:Hl; cbn; [|done].
  rewrite !nat_is_zero_eqb. destruct (N.eqb_spec (ep_subspace p) 0); [done|].
  destruct (N.eqb_spec (ep_ordinal p) 0); [done|]. b2p. rewrite mint_bind.
  destruct (mint_ok _ (elem_comps_ok p Hl n n0)) as (a & -> & _). done.
Qed.

Definition elem_addr (p : ElemPos) : result Address ElemError :=
  total (elem_addr_at p) (elem_addr_done p).

Lemma elem_addr_cases p :
  match elem_addr p with
  | Ok a =>
      level (ep_doc p) = Document ∧ ep_subspace p ≠ 0%N ∧ ep_ordinal p ≠ 0%N ∧
      comps (tumbler a) = comps (tumbler (ep_doc p)) ++ [0%N; ep_subspace p; ep_ordinal p]
  | Err DocNotDocument => level (ep_doc p) ≠ Document
  | Err SubspaceZero => level (ep_doc p) = Document ∧ ep_subspace p = 0%N
  | Err OrdinalZero =>
      level (ep_doc p) = Document ∧ ep_subspace p ≠ 0%N ∧ ep_ordinal p = 0%N
  end.
Proof.
  pose proof (total_spec _ (elem_addr_done p)) as H. fold (elem_addr p) in H. revert H.
  generalize (elem_addr p). intros r. unfold elem_addr_at.
  destruct (bool_decide _) eqn:Hl; cbn [negb]; b2p; [|by intros [= <-]].
  rewrite !nat_is_zero_eqb. destruct (N.eqb_spec (ep_subspace p) 0); [by intros [= <-]|].
  destruct (N.eqb_spec (ep_ordinal p) 0); [by intros [= <-]|]. rewrite mint_bind.
  destruct (mint_ok _ (elem_comps_ok p Hl n n0)) as (a & -> & Ha). intros [= <-]. done.
Qed.

(** [elem_addr]: the three guards in declaration order, exactly; past them
    the mint is [doc·0·subspace·ordinal], an element of that document and
    subspace; and equal addresses come from equal positions. *)
Theorem elem_addr_spec (p q : ElemPos) :
  match elem_addr p with
  | Err DocNotDocument => level (ep_doc p) ≠ Document
  | Err SubspaceZero => level (ep_doc p) = Document ∧ ep_subspace p = 0%N
  | Err OrdinalZero =>
      level (ep_doc p) = Document ∧ ep_subspace p ≠ 0%N ∧ ep_ordinal p = 0%N
  | Ok a =>
      (level (ep_doc p) = Document ∧ ep_subspace p ≠ 0%N ∧ ep_ordinal p ≠ 0%N) ∧
      level a = Element ∧ document_of a = Some (ep_doc p) ∧
      element_field a = Some [ep_subspace p; ep_ordinal p] ∧
      subspace a = Some (ep_subspace p) ∧ ordinal (tumbler a) = ep_ordinal p ∧
      (elem_addr q = Ok a → q = p)
  end.
Proof.
  pose proof (elem_addr_cases p) as H. destruct (elem_addr p) as [a|[]] eqn:E; [|done..].
  destruct H as (Hl & Hs & Ho & Ha).
  assert (Hseg : segs (comps (tumbler a)) = segs (comps (tumbler (ep_doc p))) ++
                   [[ep_subspace p; ep_ordinal p]]).
  { destruct (Address_document_view _ Hl) as (n & u & d & Hd & Hsd & [Hn _] & [Hu _] & [Hdd _]).
    rewrite Hsd, Ha, Hd. repeat (rewrite <- app_assoc; cbn [app]).
    rewrite !segs_app, segs_zf by (done || by repeat constructor). done. }
  pose proof (Address_level_segs (ep_doc p)) as Hd. rewrite Hl in Hd. cbn in Hd.
  assert (Hel : level a = Element).
  { apply level_index_inj, level_of_segs. rewrite Hseg, length_app, Hd. done. }
  assert (Hef : element_field a = Some [ep_subspace p; ep_ordinal p]).
  { rewrite element_field_segs, Hseg, lookup_app_r by lia. by rewrite Hd. }
  split_and!; try done.
  - pose proof (document_of_segs a) as D. destruct (document_of a) as [d|].
    2: { rewrite Hel in D. cbn in D. lia. }
    destruct D as (_ & _ & _ & D & _). f_equal. apply Address_eq, Tumbler_eq, segs_inj.
    rewrite D, Hseg, take_app_le, take_ge by lia. done.
  - apply total_Done. unfold subspace_at. by rewrite Hef.
  - unfold ordinal. apply total_Done. by rewrite Ha, last_app.
  - intros Eq. pose proof (elem_addr_cases q) as H. rewrite Eq in H.
    destruct H as (_ & _ & _ & Ha'). rewrite Ha in Ha'.
    apply app_inj_2 in Ha' as [Hdoc Htl]; [|done]. injection Htl as H1 H2.
    apply Tumbler_eq, Address_eq in Hdoc. destruct p, q. cbn in *. congruence.
Qed.

(** ** The ordinal shift *)

Lemma shift_app v n q x : comps v = q ++ [x] → comps (shift v n) = q ++ [(x + n)%N].
Proof.
  intros E. pose proof (total_spec _ (shift_done v n)) as H. fold (shift v n) in H. revert H.
  generalize (shift v n). intros r. unfold shift_at. rewrite E, last_snoc, removelast_last. cbn.
  by intros H%from_vec_comps.
Qed.

Lemma ordinal_app v q x : comps v = q ++ [x] → ordinal v = x.
Proof. intros E. unfold ordinal. apply total_Done. by rewrite E, last_snoc. Qed.

Lemma shift_len v n : Tumbler_len (shift v n) = Tumbler_len v.
Proof.
  destruct (comps_snoc v) as (q & x & E). unfold Tumbler_len.
  by rewrite (shift_app v n q x E), E, !length_app.
Qed.

Lemma shift_0 v : shift v 0 = v.
Proof.
  destruct (comps_snoc v) as (q & x & E). apply Tumbler_eq.
  by rewrite (shift_app v 0 q x E), N.add_0_r.
Qed.

Lemma shift_shift v m n : shift (shift v m) n = shift v (m + n)%N.
Proof.
  destruct (comps_snoc v) as (q & x & E). apply Tumbler_eq.
  rewrite (shift_app v (m + n) q x E), (shift_app (shift v m) n q (x + m)%N (shift_app v m q x E)).
  by rewrite N.add_assoc.
Qed.

Lemma list_cmp_snoc p x q y :
  length p = length q →
  list_cmp (p ++ [x]) (q ++ [y]) = match list_cmp p q with Eq => (x ?= y)%N | c => c end.
Proof.
  revert q. induction p as [|c p IH]; intros [|d q] Hlen; cbn in *; try lia.
  - by destruct (x ?= y)%N.
  - destruct (c ?= d)%N; [apply IH; lia|done|done].
Qed.

Lemma shift_cmp a b n :
  Tumbler_len a = Tumbler_len b → cmp (shift a n) (shift b n) = cmp a b.
Proof.
  destruct (comps_snoc a) as (p & x & Ea), (comps_snoc b) as (q & y & Eb).
  unfold cmp, Tumbler_len. rewrite (shift_app a n p x Ea), (shift_app b n q y Eb), Ea, Eb.
  rewrite !length_app. cbn. intros Hlen. rewrite !list_cmp_snoc by lia.
  destruct (list_cmp p q); [|done|done].
  destruct (N.compare_spec x y), (N.compare_spec (x + n) (y + n)); done || lia.
Qed.

Lemma shift_lt v m n : (m < n)%N → shift v m <ₜ shift v n.
Proof.
  intros H. destruct (comps_snoc v) as (q & x & E). unfold Tlt, cmp.
  rewrite (shift_app v m q x E), (shift_app v n q x E). apply list_cmp_app_lt. lia.
Qed.

Lemma next_lt t : t <ₜ next_at_length t.
Proof. rewrite <- (shift_0 t) at 1. apply shift_lt. lia. Qed.

Lemma next_len t : Tumbler_len (next_at_length t) = Tumbler_len t.
Proof. apply shift_len. Qed.

(** Between a tumbler and its successor at its length lie exactly its extensions. *)
Lemma next_between t u : t ≤ₜ u → u <ₜ next_at_length t → comps t `prefix_of` comps u.
Proof.
  intros Hle Hlt. destruct (comps_snoc t) as (q & x & E).
  unfold Tle, Tlt, cmp, next_at_length in *. rewrite (shift_app t 1 q x E) in Hlt.
  rewrite E in *. clear E. revert q Hle Hlt. generalize (comps u). intros us.
  induction us as [|c us IH]; intros [|d q] Hle Hlt; cbn in *; try done.
  - destruct (N.compare_spec x c) as [->|?|?]; try done; [by exists us|].
    destruct (N.compare_spec c (x + 1)); try done; try lia. subst. by destruct us.
  - destruct (N.compare_spec d c) as [->|?|?]; try done.
    + rewrite N.compare_refl in Hlt. by apply prefix_cons, IH.
    + destruct (N.compare_spec c d); done || lia.
Qed.

Lemma next_least t u : Tumbler_len u = Tumbler_len t → t <ₜ u → next_at_length t ≤ₜ u.
Proof.
  intros Hlen Hlt. destruct (leb_spec (next_at_length t) u) as [|H]; [done|].
  destruct (next_between t u ltac:(torder) H) as [k Hk]. exfalso.
  unfold Tumbler_len in Hlen. rewrite Hk, length_app in Hlen. destruct k; [|cbn in Hlen; lia].
  rewrite app_nil_r in Hk. apply Tumbler_eq in Hk. subst. torder.
Qed.

(** TS1-TS5: the ordinal shift preserves length, reflects and preserves the
    order at one length, composes additively from the identity at 0, is strictly
    monotone in the amount, and its unit step is the least tumbler of the same
    length strictly above. *)
Theorem shift_laws (a b : Tumbler) (m n : Nat) :
  Tumbler_len (shift a n) = Tumbler_len a ∧
  (Tumbler_len a = Tumbler_len b → cmp (shift a n) (shift b n) = cmp a b) ∧
  shift a 0 = a ∧ shift (shift a m) n = shift a (m + n)%N ∧
  ((m < n)%N ↔ shift a m <ₜ shift a n) ∧
  (Tumbler_len b = Tumbler_len a → a <ₜ b → next_at_length a ≤ₜ b).
Proof.
  split_and!; [apply shift_len|apply shift_cmp|apply shift_0|apply shift_shift| |apply next_least].
  split; [apply shift_lt|]. intros H. destruct (N.lt_trichotomy m n) as [?|[->|Hgt]]; [done|torder|].
  pose proof (shift_lt a n m Hgt). torder.
Qed.
