(* ===== verification/NsKeys.v ===== *)
(** * Namespaces: one chain, one frontier, one lock

    Models [crates/skep-namespace/src/ns.rs]: the key of a chain, the
    constructors of the chain families, the key an address sits under, a chain's
    slots by ordinal, and the injective encoding of a key. *)

From stdpp Require Import gmap.
From S2P Require Import Prelude Tumblers Addresses Arith Txns.

(** ** Keys *)

Inductive Generator := SameField | NextField.

#[export] Instance Generator_eq_dec : EqDecision Generator.
Proof. solve_decision. Defined.

(** [From<Generator> for u8] *)
Definition Generator_u8 (g : Generator) : N :=
  match g with SameField => 1%N | NextField => 2%N end.

(** [TryFrom<u8> for Generator] *)
Definition Generator_try_from (numeral : N) : result Generator unit :=
  if (numeral =? 1)%N then Ok SameField
  else if (numeral =? 2)%N then Ok NextField
  else Err tt.

(** [usize::from(u8::from(self))] *)
Definition inc_k (g : Generator) : nat := N.to_nat (Generator_u8 g).

Definition generator (anchor child : Level) : Generator :=
  if bool_decide (anchor = child) then SameField else NextField.

Record NsKey := MkNsKey { ns_parent : Tumbler; ns_g : Generator }.

#[export] Instance NsKey_eq_dec : EqDecision NsKey.
Proof. solve_decision. Defined.

#[export] Program Instance Generator_countable : Countable Generator :=
  inj_countable Generator_u8 (λ n, match Generator_try_from n with Ok g => Some g | Err _ => None end) _.
Next Obligation. by intros []. Qed.

#[export] Program Instance NsKey_countable : Countable NsKey :=
  inj_countable' (λ k, (ns_parent k, ns_g k)) (λ p, MkNsKey p.1 p.2) _.
Next Obligation. by intros []. Qed.

(** The at-rest door of a decoded anchor. *)
Definition t4_anchor (parent : Tumbler) : result Tumbler unit :=
  if negb (is_t4_valid parent) then Err tt else Ok parent.

Definition namespace_of (a : Address) : option NsKey :=
  match parent a with
  | Some anchor => Some (MkNsKey (tumbler anchor) (generator (level anchor) (level a)))
  | None => None
  end.

(** ** The chain families *)

Definition content_base (home : Address) : Tumbler := inc (tumbler home) 2.
Definition content_ns (home : Address) : NsKey := MkNsKey (content_base home) SameField.
Definition link_ns (home : Address) : NsKey := MkNsKey (inc (content_base home) 0) SameField.
Definition version_ns (source : Address) : NsKey := MkNsKey (tumbler source) SameField.
Definition document_ns (account : Address) : NsKey := MkNsKey (tumbler account) NextField.
Definition account_ns (parent : Address) : NsKey :=
  MkNsKey (tumbler parent) (generator (level parent) Account).

Definition is_content_or_link_slot (e : Address) : bool :=
  match element_field e with
  | Some [s; _] => (s =? content_subspace)%N || (s =? link_subspace)%N
  | _ => false
  end.

(** ** A chain's slots *)

Definition first_in (key : NsKey) : outcome (result Address GateViolation) :=
  anchor ← expect_ok (validate (ns_parent key));
  Done (checked_inc anchor (inc_k (ns_g key))).

Definition nth_in (key : NsKey) (n : Nat) : outcome (result Address GateViolation) :=
  _ ← assert (negb (nat_is_zero n));
  c1 ←? first_in key;
  m ← nat_sub n 1;
  b ← expect_ok (validate (shift (tumbler c1) m));
  Done (Ok b).

Definition first_document_address_at (account : Address) : outcome (option Address) :=
  if bool_decide (level account = Account)
  then r ← first_in (document_ns account); b ← expect_ok r; Done (Some b)
  else Done None.

Definition first_version_address_at (source : Address) : outcome (option Address) :=
  if bool_decide (level source = Document)
  then r ← first_in (version_ns source); b ← expect_ok r; Done (Some b)
  else Done None.

(** ** Lock keys *)

(** [u64::to_be_bytes]: the eight bytes of a 64-bit value, high byte first. *)
Definition u64_to_be_bytes (n : N) : list N :=
  (λ i, (N.shiftr n (8 * N.of_nat i)) mod 256)%N <$> rev (seq 0 8).

(** [(n as u64).to_be_bytes()] of a length. *)
Definition len_bytes (n : nat) : list N := u64_to_be_bytes (N.of_nat n mod 2 ^ 64)%N.

(** [to_bytes_be] is the third-party natural's magnitude. *)
Definition ns_lock_key (to_bytes_be : Nat → list N) (key : NsKey) : LockKey :=
  let comp c := let magnitude := to_bytes_be c in len_bytes (length magnitude) ++ magnitude in
  LockKey_new Namespace
    (len_bytes (Tumbler_len (ns_parent key)) ++
     concat (comp <$> comps (ns_parent key)) ++ [Generator_u8 (ns_g key)]).

(** ** Slots, denotationally

    A key whose anchor is an address its generator may advance names a chain, and
    slot [n] of that chain is the anchor, the generator's separator, [n]. *)

Definition key_ok (key : NsKey) : Prop :=
  ∃ p : Address, tumbler p = ns_parent key ∧ (ns_g key = NextField → level p ≠ Element).

Definition gap (g : Generator) : list Nat :=
  match g with SameField => [] | NextField => [0%N] end.

Definition slot (key : NsKey) (n : Nat) : list Nat :=
  comps (ns_parent key) ++ gap (ns_g key) ++ [n].

Definition next_level (l : Level) (g : Generator) : Level :=
  match g, l with
  | SameField, l => l
  | NextField, Node => Account
  | NextField, Account => Document
  | NextField, _ => Element
  end.

Lemma slot_inj key m n : slot key m = slot key n → m = n.
Proof. unfold slot. intros H. apply app_inv_head, app_inv_head in H. congruence. Qed.

Lemma inc_k_ok g p : (g = NextField → level p ≠ Element) ↔ inc_preserves_t4 p (inc_k g) = true.
Proof.
  destruct g; [done|]. change (inc_k NextField) with 2. cbn [inc_preserves_t4].
  rewrite negb_true_iff, bool_decide_eq_false. naive_solver.
Qed.

Lemma inc_comps t g : comps (inc t (inc_k g)) = comps t ++ gap g ++ [1%N].
Proof.
  destruct g; [change (inc_k SameField) with 1|change (inc_k NextField) with 2]; by rewrite inc_S.
Qed.

(** The opening slot of a chain, and what the two doors refuse. *)
Lemma first_in_cases key :
  match first_in key with
  | Panicked => is_t4_valid (ns_parent key) = false
  | Done (Err _) => is_t4_valid (ns_parent key) = true ∧ ¬ key_ok key
  | Done (Ok a) => key_ok key ∧ comps (tumbler a) = slot key 1
  end.
Proof.
  unfold first_in. rewrite <- validate_is_ok. destruct (validate (ns_parent key)) as [p|e] eqn:Hv; [|done].
  apply validate_Ok in Hv. cbn.
  pose proof (inc_gate_exact p (inc_k (ns_g key))) as [_ H]. destruct (checked_inc p _) as [a|e].
  - destruct H as (Hg & Ha & _). split; [exists p; split; [done|by apply inc_k_ok]|].
    unfold slot. by rewrite Ha, inc_comps, Hv.
  - split; [done|]. intros (q & Hq & Hok). assert (q = p) as -> by (apply Address_eq; congruence).
    pose proof (proj1 (inc_k_ok _ _) Hok). congruence.
Qed.

(** The address's level follows from its key's anchor. *)
Lemma slot_level key p a n :
  tumbler p = ns_parent key → comps (tumbler a) = slot key n → n ≠ 0%N →
  level a = next_level (level p) (ns_g key).
Proof.
  intros Hp Ha Hn. apply level_index_inj.
  pose proof (Address_level_separators a) as Hl. pose proof (Address_level_separators p) as Hlp.
  rewrite Ha in Hl. unfold slot in Hl. rewrite <- Hp, !separators_count_app, Hlp in Hl.
  pose proof (Address_ok a) as (_ & _ & _ & _ & Hz). rewrite Address_level_separators in Hz.
  rewrite <- Hl. revert Hl Hz.
  rewrite (separators_zf [n]) by by repeat constructor.
  destruct (ns_g key), (level p); cbn; intros; lia.
Qed.

Lemma slot_ok key n : key_ok key → n ≠ 0%N → ∃ a, comps (tumbler a) = slot key n.
Proof.
  intros Hk Hn. pose proof (first_in_cases key) as H.
  destruct (first_in key) as [[c1|e]|].
  - destruct H as [_ E]. pose proof (Address_ok c1) as Hok. rewrite E in Hok.
    unfold slot in Hok. rewrite app_assoc in Hok. apply (t4_ok_set_last _ 1%N n) in Hok; [|done].
    rewrite <- app_assoc in Hok. destruct (mint_ok (slot key n) Hok) as (a & _ & Ha). by exists a.
  - by destruct H as [_ []].
  - destruct Hk as (p & Hp & _). rewrite <- Hp, <- validate_is_ok, validate_self in H. done.
Qed.

(** [nth_in] is the slot, on every key and ordinal. *)
Lemma nth_in_cases key n :
  match nth_in key n with
  | Panicked => n = 0%N ∨ is_t4_valid (ns_parent key) = false
  | Done (Err _) => n ≠ 0%N ∧ is_t4_valid (ns_parent key) = true ∧ ¬ key_ok key
  | Done (Ok a) => n ≠ 0%N ∧ key_ok key ∧ comps (tumbler a) = slot key n
  end.
Proof.
  unfold nth_in. rewrite nat_is_zero_eqb. destruct (N.eqb_spec n 0) as [->|Hn]; cbn; [by left|].
  pose proof (first_in_cases key) as H. destruct (first_in key) as [[c1|e]|]; cbn; [|done|by right].
  destruct H as [Hk E]. rewrite nat_sub_ok by lia. cbn.
  destruct (slot_ok key n Hk Hn) as (a & Ha).
  assert (shift (tumbler c1) (n - 1) = tumbler a) as ->.
  { apply Tumbler_eq. unfold slot in E, Ha. rewrite app_assoc in E, Ha.
    rewrite (shift_app _ (n - 1) _ _ E), Ha. do 2 f_equal. lia. }
  rewrite validate_self. cbn. done.
Qed.

Lemma nth_in_Ok key n a :
  nth_in key n = Done (Ok a) ↔ n ≠ 0%N ∧ key_ok key ∧ comps (tumbler a) = slot key n.
Proof.
  pose proof (nth_in_cases key n) as H. split; [by intros E; rewrite E in H|].
  intros (Hn & Hk & Ha). destruct (nth_in key n) as [[b|e]|].
  - destruct H as (_ & _ & Hb). do 2 f_equal. apply Address_eq, Tumbler_eq. congruence.
  - by destruct H as (_ & _ & []).
  - destruct H as [?|H]; [done|]. destruct Hk as (p & Hp & _).
    rewrite <- Hp, <- validate_is_ok, validate_self in H. done.
Qed.

Lemma nth_in_total key n : key_ok key → n ≠ 0%N → ∃ a, nth_in key n = Done (Ok a).
Proof. intros Hk Hn. destruct (slot_ok key n Hk Hn) as (a & Ha). exists a. by apply nth_in_Ok. Qed.

Lemma slot_ordinal key a n : comps (tumbler a) = slot key n → ordinal (tumbler a) = n.
Proof. unfold slot. rewrite app_assoc. apply ordinal_app. Qed.

Lemma ordinal_nonzero a : ordinal (tumbler a) ≠ 0%N.
Proof. destruct (Address_snoc a) as (q & x & E & Hx). by rewrite (ordinal_app _ q x E). Qed.

(** ** Every address with a parent is one slot of one chain *)

Lemma slot_key_inj k1 k2 n1 n2 :
  key_ok k1 → key_ok k2 → slot k1 n1 = slot k2 n2 → k1 = k2 ∧ n1 = n2.
Proof.
  intros (p & Hp & _) (q & Hq & _). unfold slot. destruct k1 as [t1 g1], k2 as [t2 g2]. cbn in *. subst.
  rewrite !app_assoc. intros [E ->]%app_inj_tail. split; [|done].
  destruct (Address_snoc p) as (p' & x & Ep & Hx), (Address_snoc q) as (q' & y & Eq & Hy).
  destruct g1, g2; cbn in E; rewrite ?app_nil_r in E.
  - by apply Tumbler_eq in E as ->.
  - rewrite Ep in E. by apply app_inj_tail in E as [_ ->].
  - rewrite Eq in E. by apply app_inj_tail in E as [_ <-].
  - apply app_inj_tail in E as [E _]. by apply Tumbler_eq in E as ->.
Qed.

Lemma namespace_of_slot a key :
  namespace_of a = Some key → key_ok key ∧ comps (tumbler a) = slot key (ordinal (tumbler a)).
Proof.
  unfold namespace_of. destruct (parent_at_spec a) as (q & x & E & H).
  rewrite (ordinal_app _ q x E). unfold parent.
  destruct (nonemptyb q) eqn:Hq, (last q) as [y|] eqn:Hy;
    try (destruct H as [_ H]; by rewrite (total_Done _ _ _ H)).
  destruct H as (b & H & Hb). rewrite (total_Done _ _ _ H). intros [= <-].
  apply last_Some in Hy as [r ->]. rewrite removelast_last, nat_is_zero_eqb in Hb.
  pose proof (Address_level_separators a) as Hla. pose proof (Address_level_separators b) as Hlb.
  pose proof (Address_ok a) as (_ & _ & _ & _ & Hz). rewrite Address_level_separators in Hz.
  assert (Hx : x ≠ 0%N).
  { pose proof (ordinal_nonzero a) as Ho. by rewrite (ordinal_app _ _ x E) in Ho. }
  rewrite E, !separators_count_app, (separators_zf [x]) in Hla by by repeat constructor.
  unfold key_ok, slot, generator. cbn [ns_parent ns_g].
  destruct (N.eqb_spec y 0) as [->|Hne].
  - rewrite Hb in Hlb. cbn in Hla. assert (Hne : level b ≠ level a) by (intros Heq%(f_equal level_index); lia).
    rewrite bool_decide_eq_false_2 by done.
    cbn. rewrite Hb, E, <- app_assoc. split; [|done]. exists b. split; [done|]. intros _ Heq.
    rewrite Heq in Hlb. cbn in Hlb. lia.
  - assert (Hy0 : separators [y] = []) by (apply separators_zf; by repeat constructor).
    rewrite Hy0 in Hla. rewrite Hb, separators_count_app, Hy0 in Hlb. cbn [length] in Hla, Hlb.
    rewrite bool_decide_eq_true_2 by (apply level_index_inj; lia). rewrite Hb. split; [by exists b|done].
Qed.

Lemma namespace_of_None a : namespace_of a = None ↔ Tumbler_len (tumbler a) = 1.
Proof.
  unfold namespace_of. destruct (parent_at_spec a) as (q & x & E & H). unfold parent, Tumbler_len.
  destruct (nonemptyb q) eqn:Hq.
  - destruct (last_is_some q Hq) as [y Hy]. rewrite Hy in H. destruct H as (b & H & _).
    rewrite (total_Done _ _ _ H), E, length_app. cbn. split; [done|]. destruct q; [done|]. cbn. lia.
  - destruct H as [-> H]. rewrite (total_Done _ _ _ H), E. done.
Qed.

Lemma namespace_of_Some a key :
  namespace_of a = Some key ↔ key_ok key ∧ comps (tumbler a) = slot key (ordinal (tumbler a)).
Proof.
  split; [apply namespace_of_slot|]. intros [Hk Ha].
  destruct (namespace_of a) as [k|] eqn:E.
  - apply namespace_of_slot in E as [Hk' Ha']. rewrite Ha' in Ha at 1.
    by destruct (slot_key_inj k key _ _ Hk' Hk Ha) as [-> _].
  - apply namespace_of_None in E. unfold Tumbler_len, slot in *.
    rewrite Ha, !length_app in E. pose proof (Tumbler_len_pos (ns_parent key)).
    unfold Tumbler_len in *. cbn in E. lia.
Qed.

Lemma namespace_of_nth key n a : nth_in key n = Done (Ok a) → namespace_of a = Some key.
Proof.
  intros (_ & Hk & Ha)%nth_in_Ok. apply namespace_of_Some. split; [done|].
  by rewrite (slot_ordinal key a n Ha).
Qed.

(** B5/B6: the chains partition the addresses. [nth_in] answers exactly the
    slot (the anchor, the generator's separator, the ordinal) of a key its door
    and gate admit; [namespace_of] inverts it, so every address of two or more
    components is one slot of one chain, at its last component, and a
    one-component node is a slot of none. *)
Theorem chains_partition (key : NsKey) (n : Nat) (a : Address) :
  (nth_in key n = Done (Ok a) ↔ n ≠ 0%N ∧ key_ok key ∧ comps (tumbler a) = slot key n) ∧
  (nth_in key n = Done (Ok a) ↔ namespace_of a = Some key ∧ ordinal (tumbler a) = n) ∧
  (namespace_of a = None ↔ Tumbler_len (tumbler a) = 1) ∧
  (nth_in key n = Panicked ↔ n = 0%N ∨ is_t4_valid (ns_parent key) = false).
Proof.
  split_and!; [apply nth_in_Ok| |apply namespace_of_None|].
  - split.
    + intros H. split; [by eapply namespace_of_nth|]. apply nth_in_Ok in H as (_ & _ & H).
      by eapply slot_ordinal.
    + intros [[Hk Ha]%namespace_of_Some <-]. apply nth_in_Ok. split; [apply ordinal_nonzero|done].
  - pose proof (nth_in_cases key n) as H.
    split; [by intros E; rewrite E in H|]. intros Hp. destruct (nth_in key n) as [[b|e]|]; [..|done].
    + destruct H as (Hn & (p & Hpp & _) & _). destruct Hp as [?|Hp]; [done|].
      rewrite <- Hpp, <- validate_is_ok, validate_self in Hp. done.
    + destruct H as (Hn & Hv & _). destruct Hp as [?|Hp]; congruence.
Qed.

(** ** The chain families *)

Lemma key_ok_same p : key_ok (MkNsKey (tumbler p) SameField).
Proof. by exists p. Qed.

Lemma key_ok_next p : key_ok (MkNsKey (tumbler p) NextField) ↔ level p ≠ Element.
Proof.
  split; [|intros H; by exists p]. intros (q & Hq & H). cbn in *. apply Address_eq in Hq as ->. by apply H.
Qed.

Lemma content_base_comps home : comps (content_base home) = comps (tumbler home) ++ [0%N; 1%N].
Proof. unfold content_base. by rewrite inc_S. Qed.

(** The two element families of an address off the element tier. *)
Lemma element_key_ok home s :
  level home ≠ Element → s ≠ 0%N →
  ∃ p : Address, comps (tumbler p) = comps (tumbler home) ++ [0%N; s] ∧
    level p = next_level (level home) NextField.
Proof.
  intros Hl Hs. destruct (slot_ok (MkNsKey (tumbler home) NextField) s) as (p & Hp);
    [by apply key_ok_next|done|]. exists p. split; [by rewrite Hp|].
  by apply (slot_level (MkNsKey (tumbler home) NextField) home p s).
Qed.

Lemma inc_snoc_0 t q x : comps t = q ++ [x] → x ≠ 0%N → comps (inc t 0) = q ++ [(x + 1)%N].
Proof.
  intros E Hx. destruct (inc_0 t) as (p & y & r & E' & Hi & Hs).
  unfold sig in Hs. rewrite E, rposition_snoc in Hs by by apply nonzero_spec.
  rewrite E in E'. assert (Hlen : length q = length p) by lia.
  apply app_inj_1 in E' as [-> E']; [|done]. injection E' as -> <-. done.
Qed.

Lemma content_ns_slot home n : slot (content_ns home) n = comps (tumbler home) ++ [0%N; 1%N; n].
Proof. unfold slot. cbn. by rewrite content_base_comps, <- app_assoc. Qed.

Lemma link_ns_slot home n : slot (link_ns home) n = comps (tumbler home) ++ [0%N; 2%N; n].
Proof.
  unfold slot. cbn [link_ns ns_parent ns_g gap].
  pose proof (content_base_comps home) as E.
  change [0%N; 1%N] with ([0%N] ++ [1%N]) in E. rewrite app_assoc in E.
  rewrite (inc_snoc_0 _ _ _ E) by done. by repeat (rewrite <- app_assoc; cbn).
Qed.

Lemma content_ns_ok home : level home ≠ Element → key_ok (content_ns home).
Proof.
  intros Hl. destruct (element_key_ok home 1 Hl) as (p & Hp & _); [done|].
  exists p. split; [|done]. apply Tumbler_eq. by rewrite Hp, <- content_base_comps.
Qed.

Lemma link_ns_ok home : level home ≠ Element → key_ok (link_ns home).
Proof.
  intros Hl. destruct (element_key_ok home 2 Hl) as (p & Hp & _); [done|].
  exists p. split; [|done]. apply Tumbler_eq. rewrite Hp.
  pose proof (link_ns_slot home 0) as E. unfold slot in E. cbn in E.
  change [0%N; 2%N; 0%N] with ([0%N; 2%N] ++ [0%N]) in E. rewrite app_assoc in E.
  by apply app_inj_tail in E as [<- _].
Qed.

Lemma account_ns_ok parent : level parent = Node ∨ level parent = Account → key_ok (account_ns parent).
Proof.
  unfold account_ns, generator. intros [E|E]; rewrite E; cbn; [apply key_ok_next; congruence|apply key_ok_same].
Qed.

(** An address whose element field is [[s; n]] lies in the document before it. *)
Lemma element_pair_view e s n :
  element_field e = Some [s; n] ↔
  ∃ d, level d = Document ∧ comps (tumbler e) = comps (tumbler d) ++ [0%N; s; n].
Proof.
  split.
  - intros He. assert (Hl : level e = Element).
    { apply level_index_inj. pose proof (Address_level_segs e) as H.
      rewrite element_field_segs in He. apply lookup_lt_Some in He.
      pose proof (Address_ok e) as (_ & _ & _ & _ & Hz). rewrite Address_level_separators in Hz.
      cbn. lia. }
    destruct (Address_element_view e Hl) as (n' & u & d & el & E & Es & Hn & Hu & Hd & Hel).
    rewrite element_field_segs, Es in He. injection He as ->.
    assert (Hdoc : t4_segs (n' ++ 0%N :: u ++ 0%N :: d)).
    { unfold t4_segs. destruct Hn as [Hn ?], Hu as [Hu ?], Hd as [Hd ?].
      rewrite !segs_app, segs_zf by done. split; [by repeat constructor|cbn; lia]. }
    assert (Hne : n' ++ 0%N :: u ++ 0%N :: d ≠ []) by (by destruct n').
    apply t4_ok_segs in Hdoc; [|done].
    destruct (mint_ok _ Hdoc) as (b & _ & Hb). exists b. split.
    + apply level_index_inj. pose proof (Address_level_segs b) as Hlb. rewrite Hb in Hlb.
      destruct Hn as [Hn ?], Hu as [Hu ?], Hd as [Hd ?].
      rewrite !segs_app, segs_zf in Hlb by done. cbn in *. lia.
    + rewrite E, Hb. repeat (rewrite <- app_assoc; cbn [app]). done.
  - intros (d & Hl & E). pose proof (Address_ok e) as Hok.
    rewrite element_field_segs, E.
    destruct (Address_document_view d Hl) as (n' & u & f & Ed & Es & [Hn ?] & [Hu ?] & [Hf ?]).
    assert (Hsn : s ≠ 0%N ∧ n ≠ 0%N).
    { rewrite E in Hok. destruct Hok as (_ & _ & Hla & Ha & _).
      change [0%N; s; n] with ([0%N; s] ++ [n]) in *. rewrite app_assoc, last_snoc in Hla.
      split; [|congruence]. intros ->. apply Ha.
      by exists (comps (tumbler d)), [n]. }
    rewrite Ed. repeat (rewrite <- app_assoc; cbn [app]).
    assert (Hsnz : zero_free [s; n]) by (destruct Hsn; by repeat constructor).
    rewrite !segs_app, segs_zf by done. done.
Qed.

Lemma doc_slot_namespace d e s n k :
  level d = Document → comps (tumbler e) = comps (tumbler d) ++ [0%N; s; n] →
  key_ok k → (∀ m, slot k m = comps (tumbler d) ++ [0%N; s; m]) → namespace_of e = Some k.
Proof.
  intros Hl E Hk Hs. apply namespace_of_Some. split; [done|]. rewrite Hs.
  assert (ordinal (tumbler e) = n) as ->; [|done].
  apply (ordinal_app _ (comps (tumbler d) ++ [0%N; s])). by rewrite E, <- app_assoc.
Qed.

(** The test by subspace numerals is the test by keys. *)
Lemma is_slot_pair (b : Nat → bool) e :
  (match element_field e with Some [s; _] => b s | _ => false end) = true ↔
  ∃ d s n, level d = Document ∧ b s = true ∧ comps (tumbler e) = comps (tumbler d) ++ [0%N; s; n].
Proof.
  split.
  - destruct (element_field e) as [[|s [|n [|? ?]]]|] eqn:E; try done. intros Hb.
    apply element_pair_view in E as (d & Hd & E). naive_solver.
  - intros (d & s & n & Hd & Hb & E).
    assert (element_field e = Some [s; n]) as -> by (apply element_pair_view; by exists d). done.
Qed.

Lemma content_slot_namespace d e n :
  level d = Document → comps (tumbler e) = comps (tumbler d) ++ [0%N; 1%N; n] →
  namespace_of e = Some (content_ns d).
Proof.
  intros Hl E. apply (doc_slot_namespace d e 1 n); [done|done|apply content_ns_ok; congruence|].
  intros m. apply content_ns_slot.
Qed.

Lemma link_slot_namespace d e n :
  level d = Document → comps (tumbler e) = comps (tumbler d) ++ [0%N; 2%N; n] →
  namespace_of e = Some (link_ns d).
Proof.
  intros Hl E. apply (doc_slot_namespace d e 2 n); [done|done|apply link_ns_ok; congruence|].
  intros m. apply link_ns_slot.
Qed.

Lemma is_content_or_link_slot_ok e :
  is_content_or_link_slot e = true ↔
  ∃ d, level d = Document ∧ (namespace_of e = Some (content_ns d) ∨ namespace_of e = Some (link_ns d)).
Proof.
  unfold is_content_or_link_slot.
  rewrite (is_slot_pair (λ s, (s =? content_subspace)%N || (s =? link_subspace)%N)). split.
  - intros (d & s & n & Hl & Hs & E). exists d. split; [done|].
    apply orb_true_iff in Hs as [Hs|Hs]; apply N.eqb_eq in Hs as ->;
      [left; by eapply content_slot_namespace|right; by eapply link_slot_namespace].
  - intros (d & Hl & H). exists d.
    destruct H as [[_ E]%namespace_of_Some|[_ E]%namespace_of_Some].
    + rewrite content_ns_slot in E. by exists 1%N, (ordinal (tumbler e)).
    + rewrite link_ns_slot in E. by exists 2%N, (ordinal (tumbler e)).
Qed.

(** ** The published opening slots *)

Lemma first_in_ok key : key_ok key → ∃ a, first_in key = Done (Ok a) ∧ comps (tumbler a) = slot key 1.
Proof.
  intros Hk. pose proof (first_in_cases key) as H. destruct (first_in key) as [[a|e]|].
  - destruct H as [_ H]. by exists a.
  - by destruct H as [_ []].
  - destruct Hk as (p & Hp & _). rewrite <- Hp, <- validate_is_ok, validate_self in H. done.
Qed.

Lemma first_document_address_ok account :
  ∃ o, first_document_address_at account = Done o ∧
    match o with
    | Some b => level account = Account ∧ comps (tumbler b) = comps (tumbler account) ++ [0%N; 1%N]
    | None => level account ≠ Account
    end.
Proof.
  unfold first_document_address_at. case_bool_decide as Hl; [|by exists None].
  destruct (first_in_ok (document_ns account)) as (b & -> & Hb); [apply key_ok_next; congruence|].
  by exists (Some b).
Qed.

Lemma first_version_address_ok source :
  ∃ o, first_version_address_at source = Done o ∧
    match o with
    | Some b => level source = Document ∧ comps (tumbler b) = comps (tumbler source) ++ [1%N]
    | None => level source ≠ Document
    end.
Proof.
  unfold first_version_address_at. case_bool_decide as Hl; [|by exists None].
  destruct (first_in_ok (version_ns source) (key_ok_same source)) as (b & -> & Hb).
  by exists (Some b).
Qed.

Lemma first_document_address_done a : is_done (first_document_address_at a) = true.
Proof. by destruct (first_document_address_ok a) as (o & -> & _). Qed.

Lemma first_version_address_done a : is_done (first_version_address_at a) = true.
Proof. by destruct (first_version_address_ok a) as (o & -> & _). Qed.

Definition first_document_address (account : Address) : option Address :=
  total (first_document_address_at account) (first_document_address_done account).

Definition first_version_address (source : Address) : option Address :=
  total (first_version_address_at source) (first_version_address_done source).

(** ** Lock keys *)

Section LockKeys.
(** The magnitude bytes of the third-party natural determine it. *)
Context (to_bytes_be : Nat → list N) (to_bytes_inj : ∀ m n, to_bytes_be m = to_bytes_be n → m = n).

(** A length a 64-bit [usize] carries, which every vector in memory has. *)
Definition usize_len (n : nat) : Prop := (N.of_nat n < 2 ^ 64)%N.

Definition lockable (key : NsKey) : Prop :=
  usize_len (Tumbler_len (ns_parent key)) ∧
  Forall (λ c, usize_len (length (to_bytes_be c))) (comps (ns_parent key)).

Lemma len_bytes_length n : length (len_bytes n) = 8.
Proof using. done. Qed.

Definition be_value (l : list N) : N := fold_left (λ acc b, acc * 256 + b)%N l 0%N.

Lemma u64_be_value n : (n < 2 ^ 64)%N → be_value (u64_to_be_bytes n) = n.
Proof using.
  intros H. unfold be_value, u64_to_be_bytes. cbn [seq rev app fmap list_fmap fold_left].
  rewrite !N.shiftr_div_pow2.
  assert (Hs : ∀ k k', k' = (8 + k)%N →
    (n / 2 ^ k = n / 2 ^ k' * 256 + (n / 2 ^ k) mod 256)%N).
  { intros k k' ->. rewrite (N.add_comm 8 k), N.pow_add_r, <- N.Div0.div_div.
    change (2 ^ 8)%N with 256%N. pose proof (N.Div0.div_mod (n / 2 ^ k) 256). lia. }
  pose proof (Hs 0 8 eq_refl)%N. pose proof (Hs 8 16 eq_refl)%N. pose proof (Hs 16 24 eq_refl)%N.
  pose proof (Hs 24 32 eq_refl)%N. pose proof (Hs 32 40 eq_refl)%N. pose proof (Hs 40 48 eq_refl)%N.
  pose proof (Hs 48 56 eq_refl)%N. pose proof (Hs 56 64 eq_refl)%N.
  assert (n / 2 ^ 64 = 0)%N as E0 by (by apply N.div_small).
  assert (n / 2 ^ 0 = n)%N as E1 by (rewrite N.pow_0_r; apply N.div_1_r).
  change (8 * N.of_nat 7)%N with 56%N. change (8 * N.of_nat 6)%N with 48%N.
  change (8 * N.of_nat 5)%N with 40%N. change (8 * N.of_nat 4)%N with 32%N.
  change (8 * N.of_nat 3)%N with 24%N. change (8 * N.of_nat 2)%N with 16%N.
  change (8 * N.of_nat 1)%N with 8%N. change (8 * N.of_nat 0)%N with 0%N.
  lia.
Qed.

Lemma len_bytes_inj m n : usize_len m → usize_len n → len_bytes m = len_bytes n → m = n.
Proof using.
  unfold usize_len, len_bytes. intros Hm Hn E%(f_equal be_value).
  rewrite !N.mod_small in E by done. rewrite !u64_be_value in E by done. lia.
Qed.

Lemma app_len_inj (m1 m2 r1 r2 : list N) :
  usize_len (length m1) → usize_len (length m2) →
  len_bytes (length m1) ++ m1 ++ r1 = len_bytes (length m2) ++ m2 ++ r2 → m1 = m2 ∧ r1 = r2.
Proof using.
  intros H1 H2 [E1 E2]%app_inj_1; [|by rewrite !len_bytes_length].
  apply len_bytes_inj in E1; [|done..]. by apply app_inj_1 in E2.
Qed.

Lemma comp_bytes_inj cs ds r1 r2 :
  length cs = length ds →
  Forall (λ c, usize_len (length (to_bytes_be c))) cs →
  Forall (λ c, usize_len (length (to_bytes_be c))) ds →
  concat ((λ c, len_bytes (length (to_bytes_be c)) ++ to_bytes_be c) <$> cs) ++ r1 =
  concat ((λ c, len_bytes (length (to_bytes_be c)) ++ to_bytes_be c) <$> ds) ++ r2 →
  cs = ds ∧ r1 = r2.
Proof using to_bytes_inj.
  revert ds. induction cs as [|c cs IH]; intros [|d ds] Hlen Hc Hd E; try done.
  apply Forall_cons in Hc as [Hc Hcs], Hd as [Hd Hds].
  cbn [fmap list_fmap concat] in E. rewrite <- !app_assoc in E.
  apply app_len_inj in E as [E1%to_bytes_inj E2]; [|done..]. subst.
  destruct (IH ds) as [-> ->]; [cbn in Hlen; lia|done..].
Qed.

Lemma Generator_u8_inj g h : Generator_u8 g = Generator_u8 h → g = h.
Proof using. by destruct g, h. Qed.

Lemma ns_lock_key_inj k1 k2 :
  lockable k1 → lockable k2 → ns_lock_key to_bytes_be k1 = ns_lock_key to_bytes_be k2 → k1 = k2.
Proof using to_bytes_inj.
  intros [Hl1 Hc1] [Hl2 Hc2] [_ E]%LockKey_new_inj.
  apply app_inj_1 in E as [E1 E2]; [|by rewrite !len_bytes_length].
  apply len_bytes_inj in E1; [|done..]. unfold Tumbler_len in E1.
  apply comp_bytes_inj in E2 as [E2 E3]; [|done..].
  destruct k1, k2. cbn in *. apply Tumbler_eq in E2 as ->. f_equal.
  apply Generator_u8_inj. congruence.
Qed.
End LockKeys.

(** The lock key of a namespace is injective: distinct namespaces take
    distinct locks, over any injective rendering of a natural's magnitude and on
    the lengths a 64-bit count carries; and no key of one space is a key of
    another. *)
Theorem ns_lock_key_injective (to_bytes_be : Nat → list N) (k1 k2 : NsKey) (s1 s2 : Space)
    (b1 b2 : list N) :
  (∀ m n, to_bytes_be m = to_bytes_be n → m = n) →
  lockable to_bytes_be k1 → lockable to_bytes_be k2 →
  (ns_lock_key to_bytes_be k1 = ns_lock_key to_bytes_be k2 ↔ k1 = k2) ∧
  (LockKey_new s1 b1 = LockKey_new s2 b2 ↔ s1 = s2 ∧ b1 = b2).
Proof.
  intros Hinj H1 H2. split.
  - split; [by apply ns_lock_key_inj|by intros ->].
  - split; [apply LockKey_new_inj|by intros [-> ->]].
Qed.

(** The minimal magnitude, high byte first ([[0]] for zero), as the third-party
    type documents it: it meets the hypothesis above. *)
Fixpoint le_bytes (fuel : nat) (n : N) : list N :=
  match fuel with
  | 0 => []
  | S fuel => if (n <? 256)%N then [n] else (n mod 256)%N :: le_bytes fuel (n / 256)
  end.

Definition be_bytes (n : N) : list N := rev (le_bytes (S (N.to_nat (N.size n))) n).

Fixpoint le_value (l : list N) : N :=
  match l with [] => 0%N | b :: l => (b + 256 * le_value l)%N end.

Lemma le_bytes_value fuel n : (n < 256 ^ N.of_nat fuel)%N → le_value (le_bytes fuel n) = n.
Proof.
  revert n. induction fuel as [|fuel IH]; intros n Hn; cbn [le_bytes].
  { cbn in *. lia. }
  destruct (N.ltb_spec n 256); cbn [le_value]; [lia|].
  rewrite IH; [pose proof (N.Div0.div_mod n 256); lia|].
  rewrite Nat2N.inj_succ, N.pow_succ_r' in Hn. apply N.Div0.div_lt_upper_bound. lia.
Qed.

Lemma be_bytes_inj m n : be_bytes m = be_bytes n → m = n.
Proof.
  intros E%(f_equal (λ l, le_value (rev l))). unfold be_bytes in E. rewrite !rev_involutive in E.
  assert (H : ∀ k : N, (k < 256 ^ N.of_nat (S (N.to_nat (N.size k))))%N).
  { intros k. rewrite Nat2N.inj_succ, N2Nat.id. eapply N.lt_le_trans; [apply N.size_gt|].
    change 256%N with (2 ^ 8)%N. rewrite <- N.pow_mul_r. apply N.pow_le_mono_r; lia. }
  by rewrite !le_bytes_value in E.
Qed.

(** A literal address of the examples ([1] for an invalid sequence). *)
Definition adr (cs : list Nat) : Address :=
  match validate (tum cs) with Ok a => a | Err _ => MkAddress (MkTumbler [1%N] eq_refl) Node eq_refl end.

Lemma ns_lock_key_injective_witness :
  ns_lock_key be_bytes (version_ns (adr [1; 0; 300; 0; 2]%N)) ≠
  ns_lock_key be_bytes (document_ns (adr [1; 0; 300]%N)).
Proof.
  assert (L : ∀ k, forallb (λ c, length (be_bytes c) <? 9) (comps (ns_parent k)) = true →
    Tumbler_len (ns_parent k) < 9 → lockable be_bytes k).
  { intros k H Hl. split; [unfold usize_len; lia|]. apply Forall_forall. intros c Hc.
    rewrite forallb_forall in H. apply list_elem_of_In, H in Hc. apply Nat.ltb_lt in Hc.
    unfold usize_len. lia. }
  intros E. apply (ns_lock_key_injective be_bytes _ _ Namespace Nodes [] []) in E.
  - discriminate E.
  - apply be_bytes_inj.
  - apply L; [reflexivity|vm_compute; lia].
  - apply L; [reflexivity|vm_compute; lia].
Defined.
