(* ===== verification/NsState.v ===== *)
(** * The namespace state: allocation, the registries and ownership

    Models [crates/skep-namespace/src/state.rs], [state/mint.rs],
    [state/query.rs], [ghost.rs] and [record.rs]: the frontiers that are the
    allocation registry, the node and principal registries, the publication bits
    and commit positions; the fold of the four records; the six mints and the two
    peeks; membership, publication and ownership reads. Ordered maps are finite
    maps walked by ascending key; a [Seq] and a [PrincipalId] are the numbers they
    wrap. *)

From stdpp Require Import gmap.
From S2P Require Import Prelude Tumblers Addresses AddrMaps Arith Txns NsKeys.

Notation PrincipalId := N (only parsing).

(** ** Records ([record.rs]) *)

Definition BOOTSTRAP_PRINCIPAL : PrincipalId := 0%N.
Definition SYSTEM_PRINCIPAL : PrincipalId := 9000000000000000%N.

Record Allocation := MkAllocation { al_addr : Address; al_published : bool }.
Record RangeAllocation := MkRangeAllocation { ra_first : Address; ra_count : Nat }.
Record Principal := MkPrincipal { pr_prefix : Address; pr_id : PrincipalId }.

Inductive M3Rec :=
  | Allocate (al : Allocation)
  | RegisterNode (addr : Address)
  | RegisterPrincipal (pr : Principal)
  | AllocateRange (ra : RangeAllocation).

(** The four at-rest doors of a decoded record. *)
Definition parented_address (addr : Address) : result Address unit :=
  if Tumbler_len (tumbler addr) <? 2 then Err tt else Ok addr.

Definition content_range_first (addr : Address) : result Address unit :=
  match parented_address addr with
  | Err e => Err e
  | Ok first => if negb (bool_decide (level first = Element)) then Err tt else Ok first
  end.

Definition nonzero_count (count : Nat) : result Nat unit :=
  if (count =? 0)%N then Err tt else Ok count.

Definition account_tier_prefix (prefix : Address) : result Address unit :=
  if negb (bool_decide (level prefix = Account)) then Err tt else Ok prefix.

(** ** State ([state.rs]) *)

Definition NO_PUBLICATION_STATE : bool := false.
Definition MAX_NODE_COMPONENTS : nat := 32.
Definition MAX_PRINCIPAL_COMPONENTS : nat := 64.

Record M3State := MkM3State {
  frontiers : gmap NsKey Nat;
  nodes : gset Address;
  principals : gmap Address PrincipalId;
  publication : gmap Address bool;
  minted_at : gmap Address Seq
}.

(** The fixed addresses: a literal sequence past both doors. *)
Definition fixed_at (cs : list Nat) : outcome Address :=
  t ← expect_ok (Tumbler_new cs); expect_ok (validate t).

Definition bootstrap_root : Address := total (fixed_at [1]%N) eq_refl.
Definition system_node : Address := total (fixed_at [1; 1]%N) eq_refl.
Definition system_account : Address := total (fixed_at [1; 1; 0; 1]%N) eq_refl.
Definition ghost_home_document : Address := total (fixed_at [1; 1; 0; 1; 0; 1]%N) eq_refl.
Definition head_document : Address := total (fixed_at [1; 1; 0; 1; 0; 2]%N) eq_refl.
Definition time_document : Address := total (fixed_at [1; 1; 0; 1; 0; 4]%N) eq_refl.

(** *** The ghost floor ([ghost.rs]) *)

Definition GHOST_POSITIONS : N := 5%N.

Definition ghost_position_at (ordinal : N) : outcome Address :=
  _ ← assert ((1 <=? ordinal)%N && (ordinal <=? GHOST_POSITIONS)%N);
  expect_ok (elem_addr (MkElemPos ghost_home_document content_subspace ordinal)).

Definition is_ghost_ns (key : NsKey) : bool := bool_decide (key = content_ns ghost_home_document).

Definition ghost_floor (key : NsKey) : Nat :=
  if is_ghost_ns key then GHOST_POSITIONS else 0%N.

(** *** The frontier arithmetic *)

Definition effective_frontier (s : M3State) (key : NsKey) : Nat :=
  N.max (default 0%N (frontiers s !! key)) (ghost_floor key).

Definition next_in (s : M3State) (key : NsKey) : outcome (result Address GateViolation) :=
  next ←? nth_in key (effective_frontier s key + 1)%N;
  _ ← assert (negb (bool_decide (level next = Element)) || is_content_or_link_slot next);
  Done (Ok next).

(** *** The fold *)

Definition is_link_slot (e : Address) : bool :=
  match element_field e with Some [s; _] => (s =? link_subspace)%N | _ => false end.

(** [if !m.contains_key(k) { m.insert(k, v) }] *)
Definition insert_absent {V} (k : Address) (v : V) (m : gmap Address V) : gmap Address V :=
  if bool_decide (is_Some (m !! k)) then m else <[k := v]> m.

Definition apply_m3 (s : M3State) (at_ : Seq) (r : M3Rec) : outcome M3State :=
  match r with
  | Allocate (MkAllocation addr published) =>
      key ← expect_some (namespace_of addr);
      let n := ordinal (tumbler addr) in
      let next := (effective_frontier s key + 1)%N in
      _ ← assert (n =? next)%N;
      let pub := if bool_decide (level addr = Document)
                 then insert_absent addr published (publication s) else publication s in
      let ats := if bool_decide (level addr = Document) || is_link_slot addr
                 then insert_absent addr at_ (minted_at s) else minted_at s in
      Done (MkM3State (<[key := n]> (frontiers s)) (nodes s) (principals s) pub ats)
  | RegisterNode addr =>
      Done (MkM3State (frontiers s) ({[addr]} ∪ nodes s) (principals s) (publication s) (minted_at s))
  | RegisterPrincipal (MkPrincipal prefix id) =>
      Done (MkM3State (frontiers s) (nodes s) (insert_absent prefix id (principals s))
              (publication s) (minted_at s))
  | AllocateRange (MkRangeAllocation first count) =>
      key ← expect_some (namespace_of first);
      let n := ordinal (tumbler first) in
      let next := (effective_frontier s key + 1)%N in
      _ ← assert (n =? next)%N;
      m ← nat_sub (n + count) 1;
      Done (MkM3State (<[key := m]> (frontiers s)) (nodes s) (principals s) (publication s) (minted_at s))
  end.

Definition m3_roots : M3State :=
  MkM3State ∅ {[bootstrap_root]} {[bootstrap_root := BOOTSTRAP_PRINCIPAL]} ∅ ∅.

Definition m3_seed : list M3Rec :=
  [ RegisterNode system_node;
    Allocate (MkAllocation system_account NO_PUBLICATION_STATE);
    RegisterPrincipal (MkPrincipal system_account SYSTEM_PRINCIPAL);
    Allocate (MkAllocation ghost_home_document true);
    Allocate (MkAllocation head_document true) ].

Definition fold_m3 (s : M3State) (at_ : Seq) (rs : list M3Rec) : outcome M3State :=
  foldl (λ m r, s ← m; apply_m3 s at_ r) (Done s) rs.

Definition M3State_genesis_at : outcome M3State := fold_m3 m3_roots 0 m3_seed.

Lemma M3State_genesis_done : is_done M3State_genesis_at = true.
Proof. vm_compute. reflexivity. Qed.

Definition M3State_genesis : M3State := total M3State_genesis_at M3State_genesis_done.

(** ** Queries ([state/query.rs]) *)

Definition prefix_contains (prefix a : Address) : bool := is_prefix (tumbler prefix) (tumbler a).

Definition is_chain_member (s : M3State) (a : Address) : bool :=
  match namespace_of a with
  | None => false
  | Some key =>
      let n := ordinal (tumbler a) in
      (ghost_floor key <? n)%N &&
      match frontiers s !! key with Some m => (n <=? m)%N | None => false end
  end.

Definition is_allocated (s : M3State) (a : Address) : bool :=
  match level a with
  | Node => bool_decide (a ∈ nodes s)
  | Account | Document | Element => is_chain_member s a
  end.

Definition entity_level (s : M3State) (a : Address) : option Level :=
  if negb (bool_decide (level a = Element)) && is_allocated s a then Some (level a) else None.

Definition is_registered_document (s : M3State) (a : Address) : bool :=
  bool_decide (entity_level s a = Some Document).

Definition is_registered_account (s : M3State) (a : Address) : bool :=
  bool_decide (entity_level s a = Some Account).

Definition has_documents (s : M3State) (account : Address) : bool :=
  bool_decide (level account = Account) &&
  match frontiers s !! document_ns account with Some m => negb (nat_is_zero m) | None => false end.

Definition latest_version (s : M3State) (source : Address) : outcome (option Address) :=
  if negb (bool_decide (level source = Document)) then Done None
  else
    let key := version_ns source in
    match frontiers s !! key with
    | Some m =>
        if nat_is_zero m then Done None
        else r ← nth_in key m; a ← expect_ok r; Done (Some a)
    | None => Done None
    end.

Definition published (s : M3State) (doc : Address) : bool := default false (publication s !! doc).

Definition documents (s : M3State) : list (Address * bool) := ord_entries (publication s).

Definition minted_at_of (s : M3State) (a : Address) : option Seq := minted_at s !! a.

(** [Iterator::max_by_key]: the last of the greatest. *)
Definition max_by_key {A} (f : A → nat) (l : list A) : option A :=
  foldl (λ acc x,
    match acc with
    | None => Some x
    | Some y => if f x <? f y then Some y else Some x
    end) None l.

Definition omega_candidate (a p : Address) : bool :=
  match level p with Node | Account => prefix_contains p a | _ => false end.

Definition omega (s : M3State) (a : Address) : option (Address * PrincipalId) :=
  max_by_key (λ kv, Tumbler_len (tumbler kv.1))
    (filter (λ kv, omega_candidate a kv.1 = true) (ord_entries (principals s))).

Definition effective_owner (s : M3State) (a : Address) : option PrincipalId := snd <$> omega s a.
Definition effective_owner_prefix (s : M3State) (a : Address) : option Address := fst <$> omega s a.
Definition effective_owner_pair (s : M3State) (a : Address) : option (Address * PrincipalId) := omega s a.

Definition account_seat_at (s : M3State) (a : Address) : outcome (option (Address * PrincipalId)) :=
  match account_field a with
  | None => Done None
  | Some user =>
      let len := length (node_field a) + 1 + length user in
      prefix ← expect_ok (Tumbler_new (take len (comps (tumbler a))));
      account ← expect_ok (validate prefix);
      Done (match principals s !! account with Some id => Some (account, id) | None => None end)
  end.

Definition is_effective_owner (s : M3State) (id : PrincipalId) (a : Address) : bool :=
  bool_decide (effective_owner s a = Some id).

Definition principal_prefix (s : M3State) (id : PrincipalId) : option Address :=
  fst <$> List.find (λ kv, (kv.2 =? id)%N) (ord_entries (principals s)).

Definition principals_of (s : M3State) : list (Address * PrincipalId) := ord_entries (principals s).

(** The first entry past [p] in key order, and whether it extends [p]. *)
Definition has_principal_strictly_under (s : M3State) (p : Address) : bool :=
  match filter (λ kv, tumbler p <ₜ tumbler kv.1) (ord_entries (principals s)) with
  | (first, _) :: _ => prefix_contains p first
  | [] => false
  end.

(** ** Lock keys, mints and peeks ([state/mint.rs]) *)

Section Locks.
Context (to_bytes_be : Nat → list N).

Definition content_lock_key (home : Address) : LockKey := ns_lock_key to_bytes_be (content_ns home).
Definition link_lock_key (home : Address) : LockKey := ns_lock_key to_bytes_be (link_ns home).
Definition version_lock_key (source : Address) : LockKey := ns_lock_key to_bytes_be (version_ns source).
Definition document_lock_key (account : Address) : LockKey := ns_lock_key to_bytes_be (document_ns account).
Definition account_lock_key (parent : Address) : LockKey := ns_lock_key to_bytes_be (account_ns parent).
End Locks.

Definition principals_lock_key : LockKey := LockKey_new Principals [].
Definition nodes_lock_key : LockKey := LockKey_new Nodes [].

Inductive MintError :=
  | HomeNotRegistered
  | SourceNotRegistered
  | NotAnAccount
  | Gate (e : GateViolation).

(** [Result::map_err], through the panic layer. *)
Definition gated {A} (m : outcome (result A GateViolation)) : outcome (result A MintError) :=
  r ← m; Done (map_err Gate r).

Definition mint_on (s : M3State) (key : NsKey) (published : bool) :
    outcome (result (Address * M3Rec) GateViolation) :=
  addr ←? next_in s key;
  Done (Ok (addr, Allocate (MkAllocation addr published))).

Definition mint_content (s : M3State) (home : Address) : outcome (result (Address * M3Rec) MintError) :=
  if negb (is_registered_document s home) then Done (Err HomeNotRegistered)
  else gated (mint_on s (content_ns home) NO_PUBLICATION_STATE).

Definition mint_content_range (s : M3State) (home : Address) (count : Nat) :
    outcome (result (Address * M3Rec) MintError) :=
  _ ← assert (negb (count =? 0)%N);
  if negb (is_registered_document s home) then Done (Err HomeNotRegistered)
  else
    first ←? gated (next_in s (content_ns home));
    Done (Ok (first, AllocateRange (MkRangeAllocation first count))).

Definition mint_link (s : M3State) (home : Address) : outcome (result (Address * M3Rec) MintError) :=
  if negb (is_registered_document s home) then Done (Err HomeNotRegistered)
  else gated (mint_on s (link_ns home) NO_PUBLICATION_STATE).

Definition mint_version (s : M3State) (source : Address) (published : bool) :
    outcome (result (Address * M3Rec) MintError) :=
  if negb (is_registered_document s source) then Done (Err SourceNotRegistered)
  else gated (mint_on s (version_ns source) published).

Definition mint_document (s : M3State) (account : Address) (published : bool) :
    outcome (result (Address * M3Rec) MintError) :=
  if negb (is_registered_account s account) then Done (Err NotAnAccount)
  else gated (mint_on s (document_ns account) published).

Definition mint_account (s : M3State) (parent : Address) : outcome (option (Address * M3Rec)) :=
  match entity_level s parent with
  | Some Node | Some Account =>
      r ← mint_on s (account_ns parent) NO_PUBLICATION_STATE;
      minted ← expect_ok r;
      Done (Some minted)
  | _ => Done None
  end.

Definition next_account_prefix (s : M3State) (parent : Address) : outcome (option Address) :=
  minted ← mint_account s parent;
  Done (match minted with
        | Some (addr, _) =>
            if Tumbler_len (tumbler addr) <=? MAX_PRINCIPAL_COMPONENTS then Some addr else None
        | None => None
        end).

Definition next_content_address (s : M3State) (home : Address) : outcome (option Address) :=
  minted ← mint_content s home;
  match minted with
  | Err HomeNotRegistered => Done None
  | minted => p ← expect_ok minted; Done (Some p.1)
  end.
