(* ===== verification/NsLaws.v ===== *)
(** * The laws of allocation

    What one record of the namespace does to membership, what each mint issues,
    and the invariant every reachable namespace state has: allocation is closed
    under parents, the publication bits and commit positions are exactly those of
    the addresses that carry one, seats are exactly the allocated accounts, and an
    id is seated once. *)

From stdpp Require Import gmap.
From S2P Require Import Prelude Tumblers Addresses AddrMaps Arith NsKeys NsState.

#[local] Arguments Nat.ltb : simpl never.
#[local] Arguments ghost_floor : simpl never.
#[local] Arguments namespace_of : simpl never.
#[local] Arguments ordinal : simpl never.

(** ** Chain members *)

(** [a] is a slot of [key] realized by the count [m]. *)
Definition member_of (m : option Nat) (key : NsKey) (n : Nat) : Prop :=
  (ghost_floor key < n)%N ∧ ∃ k, m = Some k ∧ (n ≤ k)%N.

Lemma is_chain_member_ok s a :
  is_chain_member s a = true ↔
  ∃ key, namespace_of a = Some key ∧ member_of (frontiers s !! key) key (ordinal (tumbler a)).
Proof.
  unfold is_chain_member, member_of. destruct (namespace_of a) as [key|]; [|naive_solver].
  rewrite andb_true_iff, N.ltb_lt.
  destruct (frontiers s !! key) as [k|] eqn:E; [rewrite N.leb_le|]; naive_solver.
Qed.

Lemma is_allocated_chain s a : level a ≠ Node → is_allocated s a = is_chain_member s a.
Proof. unfold is_allocated. by destruct (level a). Qed.

Lemma namespace_inj a b key :
  namespace_of a = Some key → namespace_of b = Some key →
  ordinal (tumbler a) = ordinal (tumbler b) → a = b.
Proof.
  intros [_ Ea]%namespace_of_Some [_ Eb]%namespace_of_Some E.
  apply Address_eq, Tumbler_eq. by rewrite Ea, Eb, E.
Qed.

(** The count of a chain past its floor. *)
Lemma member_of_effective s key n :
  member_of (frontiers s !! key) key n ↔
  (ghost_floor key < n ∧ n ≤ effective_frontier s key)%N.
Proof.
  unfold member_of, effective_frontier.
  destruct (frontiers s !! key) as [k|]; cbn; split; intros; destruct_and?; try (split; [done|]).
  - naive_solver lia.
  - exists k. split; [done|]. lia.
  - naive_solver.
  - lia.
Qed.

Lemma is_chain_member_effective s a key :
  namespace_of a = Some key →
  is_chain_member s a = true ↔
  (ghost_floor key < ordinal (tumbler a) ∧ ordinal (tumbler a) ≤ effective_frontier s key)%N.
Proof.
  intros Hk. rewrite is_chain_member_ok. setoid_rewrite member_of_effective.
  split; [intros (k & Hk' & H)|intros H; by exists key]. rewrite Hk in Hk'. by injection Hk' as <-.
Qed.

(** ** What a record does *)

Lemma apply_allocate s at_ addr pub s' :
  apply_m3 s at_ (Allocate (MkAllocation addr pub)) = Done s' ↔
  ∃ key, namespace_of addr = Some key ∧
    ordinal (tumbler addr) = (effective_frontier s key + 1)%N ∧
    s' = MkM3State (<[key := ordinal (tumbler addr)]> (frontiers s)) (nodes s) (principals s)
           (if bool_decide (level addr = Document)
            then insert_absent addr pub (publication s) else publication s)
           (if bool_decide (level addr = Document) || is_link_slot addr
            then insert_absent addr at_ (minted_at s) else minted_at s).
Proof.
  cbn. destruct (namespace_of addr) as [key|]; cbn; [|naive_solver].
  destruct (N.eqb_spec (ordinal (tumbler addr)) (effective_frontier s key + 1)) as [E|E]; cbn; naive_solver.
Qed.

Lemma apply_range s at_ first count s' :
  count ≠ 0%N →
  apply_m3 s at_ (AllocateRange (MkRangeAllocation first count)) = Done s' ↔
  ∃ key, namespace_of first = Some key ∧
    ordinal (tumbler first) = (effective_frontier s key + 1)%N ∧
    s' = MkM3State (<[key := (effective_frontier s key + count)%N]> (frontiers s)) (nodes s)
           (principals s) (publication s) (minted_at s).
Proof.
  intros Hc. cbn. destruct (namespace_of first) as [key|]; cbn; [|naive_solver].
  destruct (N.eqb_spec (ordinal (tumbler first)) (effective_frontier s key + 1)) as [E|E]; cbn; [|naive_solver].
  rewrite nat_sub_ok by lia. cbn.
  replace (ordinal (tumbler first) + count - 1)%N with (effective_frontier s key + count)%N by lia.
  naive_solver.
Qed.

(** A frontier raised from the effective one to [m] adds the slots between. *)
Lemma frontier_raise s key m b fr' :
  (effective_frontier s key ≤ m)%N →
  frontiers fr' = <[key := m]> (frontiers s) →
  is_chain_member fr' b = true ↔
  is_chain_member s b = true ∨
  (namespace_of b = Some key ∧ (effective_frontier s key < ordinal (tumbler b))%N ∧
   (ordinal (tumbler b) ≤ m)%N).
Proof.
  intros Hm Hf. rewrite !is_chain_member_ok. setoid_rewrite Hf.
  destruct (namespace_of b) as [k|]; [|naive_solver].
  destruct (decide (k = key)) as [->|Hne].
  - setoid_rewrite member_of_effective. unfold member_of, effective_frontier in *.
    split.
    + intros (? & [= <-] & Hfl & ? & Hk & Hle). rewrite lookup_insert_eq in Hk. injection Hk as <-.
      destruct (N.lt_ge_cases (N.max (default 0%N (frontiers s !! key)) (ghost_floor key)) (ordinal (tumbler b))).
      * by right.
      * left. by exists key.
    + intros [(? & [= <-] & ? & ?)|(_ & ? & ?)]; exists key; (split; [done|]); (split; [lia|]);
        exists m; rewrite lookup_insert_eq; (split; [done|lia]).
  - split.
    + intros (? & [= <-] & H). left. exists k. by rewrite lookup_insert_ne in H.
    + intros [(? & [= <-] & H)|(? & _)]; [|naive_solver]. exists k. by rewrite lookup_insert_ne.
Qed.

Lemma allocate_members s at_ addr pub s' b :
  apply_m3 s at_ (Allocate (MkAllocation addr pub)) = Done s' →
  is_chain_member s' b = true ↔ is_chain_member s b = true ∨ b = addr.
Proof.
  intros (key & Hk & Ho & ->)%apply_allocate.
  rewrite (frontier_raise s key (ordinal (tumbler addr))) by (done || lia). f_equiv. split.
  - intros (Hb & ? & ?). eapply namespace_inj; [done..|lia].
  - intros ->. split_and!; [done|lia|done].
Qed.

Lemma range_members s at_ first count s' b :
  count ≠ 0%N → apply_m3 s at_ (AllocateRange (MkRangeAllocation first count)) = Done s' →
  is_chain_member s' b = true ↔
  is_chain_member s b = true ∨ ∃ i, (i < count)%N ∧ tumbler b = shift (tumbler first) i.
Proof.
  intros Hc (key & Hk & Ho & ->)%apply_range; [|done].
  rewrite (frontier_raise s key (effective_frontier s key + count)) by (done || lia). f_equiv.
  apply namespace_of_Some in Hk as [Hok E]. unfold slot in E. rewrite app_assoc in E. split.
  - intros ([_ Eb]%namespace_of_Some & H1 & H2). exists (ordinal (tumbler b) - (effective_frontier s key + 1))%N.
    split; [lia|]. apply Tumbler_eq. rewrite (shift_app _ _ _ _ E), Eb. unfold slot.
    rewrite app_assoc. do 2 f_equal. lia.
  - intros (i & Hi & Eb). assert (Hb : comps (tumbler b) = slot key (ordinal (tumbler first) + i)).
    { unfold slot. rewrite Eb, app_assoc. by apply shift_app. }
    pose proof (slot_ordinal _ _ _ Hb) as Hob. split_and!; [|lia..].
    apply namespace_of_Some. by rewrite Hob.
Qed.

(** ** Registered entities and the chains they anchor *)

Lemma entity_level_Some s a l :
  entity_level s a = Some l ↔ level a = l ∧ l ≠ Element ∧ is_allocated s a = true.
Proof.
  unfold entity_level. destruct (is_allocated s a); rewrite ?andb_true_r, ?andb_false_r; [|naive_solver].
  case_bool_decide; cbn; naive_solver.
Qed.

Lemma is_registered_document_ok s a :
  is_registered_document s a = true ↔ level a = Document ∧ is_allocated s a = true.
Proof. unfold is_registered_document. rewrite bool_decide_eq_true, entity_level_Some. naive_solver. Qed.

Lemma is_registered_account_ok s a :
  is_registered_account s a = true ↔ level a = Account ∧ is_allocated s a = true.
Proof. unfold is_registered_account. rewrite bool_decide_eq_true, entity_level_Some. naive_solver. Qed.

(** The chains the mints open: anchored at a registered entity of their tier. *)
Inductive family (s : M3State) : NsKey → Prop :=
  | fam_content h : is_registered_document s h = true → family s (content_ns h)
  | fam_link h : is_registered_document s h = true → family s (link_ns h)
  | fam_version d : is_registered_document s d = true → family s (version_ns d)
  | fam_document a : is_registered_account s a = true → family s (document_ns a)
  | fam_account p : entity_level s p = Some Node ∨ entity_level s p = Some Account → family s (account_ns p).

(** Their slots, by tier. *)
Lemma content_slot h a :
  level h = Document → namespace_of a = Some (content_ns h) →
  element_field a = Some [1%N; ordinal (tumbler a)].
Proof.
  intros Hl [_ E]%namespace_of_Some. apply element_pair_view. exists h.
  by rewrite E, content_ns_slot.
Qed.

Lemma link_slot h a :
  level h = Document → namespace_of a = Some (link_ns h) →
  element_field a = Some [2%N; ordinal (tumbler a)].
Proof.
  intros Hl [_ E]%namespace_of_Some. apply element_pair_view. exists h.
  by rewrite E, link_ns_slot.
Qed.

Lemma element_field_level a l : element_field a = Some l → level a = Element.
Proof.
  intros He. apply level_index_inj. pose proof (Address_level_segs a) as H.
  rewrite element_field_segs in He. apply lookup_lt_Some in He.
  pose proof (Address_ok a) as (_ & _ & _ & _ & Hz). rewrite Address_level_separators in Hz. cbn. lia.
Qed.

Lemma namespace_level p g a :
  namespace_of a = Some (MkNsKey (tumbler p) g) → level a = next_level (level p) g.
Proof.
  intros [_ E]%namespace_of_Some. eapply (slot_level (MkNsKey (tumbler p) g)); [done|exact E|].
  apply ordinal_nonzero.
Qed.

Lemma generator_next p : level p = Node ∨ level p = Account → next_level (level p) (generator (level p) Account) = Account.
Proof. unfold generator. intros [-> | ->]; done. Qed.

Lemma family_level s key a :
  family s key → namespace_of a = Some key →
  level a ≠ Node ∧ (level a = Element → is_content_or_link_slot a = true).
Proof.
  intros Hf Ha. destruct Hf as [h Hh|h Hh|d Hd|h Hh|p Hp].
  - apply is_registered_document_ok in Hh as [Hl _]. apply content_slot in Ha; [|done].
    unfold is_content_or_link_slot. by rewrite (element_field_level a _ Ha), Ha.
  - apply is_registered_document_ok in Hh as [Hl _]. apply link_slot in Ha; [|done].
    unfold is_content_or_link_slot. by rewrite (element_field_level a _ Ha), Ha.
  - apply is_registered_document_ok in Hd as [Hl _]. apply namespace_level in Ha. rewrite Hl in Ha. by rewrite Ha.
  - apply is_registered_account_ok in Hh as [Hl _]. apply namespace_level in Ha. rewrite Hl in Ha. by rewrite Ha.
  - rewrite !entity_level_Some in Hp. apply namespace_level in Ha.
    rewrite generator_next in Ha by naive_solver. by rewrite Ha.
Qed.

Lemma family_key_ok s key : family s key → key_ok key.
Proof.
  intros [h [Hl _]%is_registered_document_ok|h [Hl _]%is_registered_document_ok|d _|a [Hl _]%is_registered_account_ok|p Hp].
  - apply content_ns_ok. congruence.
  - apply link_ns_ok. congruence.
  - apply key_ok_same.
  - apply key_ok_next. congruence.
  - rewrite !entity_level_Some in Hp. apply account_ns_ok. naive_solver.
Qed.

(** ** Mints *)

(** The next slot of a family's chain: the door and the gate let it through. *)
Lemma next_in_ok s key :
  family s key →
  ∃ a, next_in s key = Done (Ok a) ∧ namespace_of a = Some key ∧
    ordinal (tumbler a) = (effective_frontier s key + 1)%N.
Proof.
  intros Hf. destruct (nth_in_total key (effective_frontier s key + 1)) as (a & Ha);
    [by eapply family_key_ok|lia|]. exists a.
  pose proof (namespace_of_nth _ _ _ Ha) as Hk. unfold next_in. rewrite Ha. cbn [try_bind].
  destruct (family_level s key a Hf Hk) as [_ Hel]. split_and!; [|done|].
  - case_bool_decide as Hl; cbn; [by rewrite Hel|done].
  - apply nth_in_Ok in Ha as (_ & _ & Ha). by eapply slot_ordinal.
Qed.

Lemma mint_on_ok s key pub :
  family s key →
  ∃ a, mint_on s key pub = Done (Ok (a, Allocate (MkAllocation a pub))) ∧
    next_in s key = Done (Ok a) ∧ namespace_of a = Some key ∧
    ordinal (tumbler a) = (effective_frontier s key + 1)%N.
Proof.
  intros Hf. destruct (next_in_ok s key Hf) as (a & Ha & Hk & Ho). exists a.
  unfold mint_on. by rewrite Ha.
Qed.

(** A mint's record folds, whatever the position, as long as the frontier stands. *)
Lemma allocate_done s key a pub at_ :
  namespace_of a = Some key → ordinal (tumbler a) = (effective_frontier s key + 1)%N →
  ∃ s', apply_m3 s at_ (Allocate (MkAllocation a pub)) = Done s'.
Proof. intros Hk Ho. eexists. apply apply_allocate. by exists key. Qed.

Lemma next_unallocated s key a :
  namespace_of a = Some key → ordinal (tumbler a) = (effective_frontier s key + 1)%N →
  is_chain_member s a = false.
Proof.
  intros Hk Ho. apply not_true_iff_false. intros H.
  apply (is_chain_member_effective s a key Hk) in H. lia.
Qed.

(** What a mint promises of its address and its record. *)
Definition issued (s : M3State) (key : NsKey) (pub : bool) (a : Address) (r : M3Rec) : Prop :=
  r = Allocate (MkAllocation a pub) ∧
  nth_in key (effective_frontier s key + 1) = Done (Ok a) ∧
  is_allocated s a = false ∧
  ∀ at_, ∃ s', apply_m3 s at_ r = Done s' ∧
    (∀ b, is_allocated s' b = true ↔ is_allocated s b = true ∨ b = a) ∧
    effective_frontier s' key = (effective_frontier s key + 1)%N.

Definition issued_range (s : M3State) (key : NsKey) (count : Nat) (a : Address) (r : M3Rec) : Prop :=
  r = AllocateRange (MkRangeAllocation a count) ∧
  nth_in key (effective_frontier s key + 1) = Done (Ok a) ∧
  (∀ i b, (i < count)%N → tumbler b = shift (tumbler a) i → is_allocated s b = false) ∧
  ∀ at_, ∃ s', apply_m3 s at_ r = Done s' ∧
    (∀ b, is_allocated s' b = true ↔
       is_allocated s b = true ∨ ∃ i, (i < count)%N ∧ tumbler b = shift (tumbler a) i) ∧
    effective_frontier s' key = (effective_frontier s key + count)%N.

Lemma allocated_allocate s at_ a pub s' b :
  level a ≠ Node → apply_m3 s at_ (Allocate (MkAllocation a pub)) = Done s' →
  is_allocated s' b = true ↔ is_allocated s b = true ∨ b = a.
Proof.
  intros Hl Ha. destruct (decide (level b = Node)) as [Hb|Hb].
  - apply apply_allocate in Ha as (key & _ & _ & ->). unfold is_allocated. rewrite Hb. cbn. naive_solver.
  - rewrite !is_allocated_chain by done. by eapply allocate_members.
Qed.

Lemma shift_level a b i : tumbler b = shift (tumbler a) i → level b = level a.
Proof.
  intros E. apply level_index_inj. rewrite <- !Address_level_separators, E.
  destruct (Address_snoc a) as (q & x & Ea & Hx). rewrite (shift_app _ i q x Ea), Ea.
  assert (zero_free [x] ∧ zero_free [(x + i)%N]) as [??] by (unfold zero_free; rewrite !Forall_singleton; lia).
  by rewrite !separators_count_app, (separators_zf [x]), (separators_zf [(x + i)%N]).
Qed.

Lemma allocated_range s at_ a count s' b :
  level a ≠ Node → count ≠ 0%N →
  apply_m3 s at_ (AllocateRange (MkRangeAllocation a count)) = Done s' →
  is_allocated s' b = true ↔
  is_allocated s b = true ∨ ∃ i, (i < count)%N ∧ tumbler b = shift (tumbler a) i.
Proof.
  intros Hl Hc Ha. destruct (decide (level b = Node)) as [Hb|Hb].
  - apply apply_range in Ha as (key & _ & _ & ->); [|done]. unfold is_allocated. rewrite Hb. cbn.
    split; [by left|]. intros [?|(i & _ & E%shift_level)]; [done|congruence].
  - rewrite !is_allocated_chain by done. by eapply range_members.
Qed.

Lemma family_issued s key pub :
  family s key → ∃ a r, mint_on s key pub = Done (Ok (a, r)) ∧ issued s key pub a r.
Proof.
  intros Hf. destruct (mint_on_ok s key pub Hf) as (a & Ha & _ & Hk & Ho).
  exists a, (Allocate (MkAllocation a pub)). split; [done|].
  destruct (family_level s key a Hf Hk) as [Hl _]. split_and!; [done| | |].
  - apply nth_in_Ok. apply namespace_of_Some in Hk as [Hok E]. rewrite <- Ho. split_and!; [lia|done..].
  - rewrite is_allocated_chain by done. by eapply next_unallocated.
  - intros at_. destruct (allocate_done s key a pub at_ Hk Ho) as (s' & Hs'). exists s'.
    split_and!; [done|intros b; by eapply allocated_allocate|].
    apply apply_allocate in Hs' as (k & Hk' & _ & ->). rewrite Hk in Hk'. injection Hk' as <-.
    unfold effective_frontier in *. cbn. rewrite lookup_insert_eq. cbn. lia.
Qed.

Lemma family_issued_range s key count :
  family s key → count ≠ 0%N →
  ∃ a, next_in s key = Done (Ok a) ∧
    issued_range s key count a (AllocateRange (MkRangeAllocation a count)).
Proof.
  intros Hf Hc. destruct (next_in_ok s key Hf) as (a & Ha & Hk & Ho).
  exists a. split; [done|]. destruct (family_level s key a Hf Hk) as [Hl _].
  assert (Hmem : ∀ at_, ∃ s', apply_m3 s at_ (AllocateRange (MkRangeAllocation a count)) = Done s').
  { intros at_. eexists. apply apply_range; [done|]. by exists key. }
  split_and!; [done| | |].
  - apply nth_in_Ok. apply namespace_of_Some in Hk as [Hok E]. rewrite <- Ho. split_and!; [lia|done..].
  - intros i b Hi Hb. rewrite is_allocated_chain by (by rewrite (shift_level a b i Hb)).
    apply not_true_iff_false. intros H. apply namespace_of_Some in Hk as [Hok E].
    assert (Eb : comps (tumbler b) = slot key (ordinal (tumbler a) + i)).
    { unfold slot in *. rewrite Hb, app_assoc in *. by apply shift_app. }
    pose proof (slot_ordinal _ _ _ Eb) as Hob.
    apply (is_chain_member_effective s b key) in H; [lia|]. apply namespace_of_Some. by rewrite Hob.
  - intros at_. destruct (Hmem at_) as (s' & Hs'). exists s'.
    split_and!; [done|intros b; by eapply allocated_range|].
    apply apply_range in Hs' as (k & Hk' & _ & ->); [|done]. rewrite Hk in Hk'. injection Hk' as <-.
    unfold effective_frontier. cbn. rewrite lookup_insert_eq. cbn. lia.
Qed.

(** The shape of a mint behind its gate. *)
Definition gate_or_issue (gate : bool) (e : MintError) (P : Address → M3Rec → Prop)
    (m : outcome (result (Address * M3Rec) MintError)) : Prop :=
  match m with
  | Done (Err e') => e' = e ∧ gate = false
  | Done (Ok (a, r)) => gate = true ∧ P a r
  | Panicked => False
  end.

Lemma gated_mint s key pub (gate : bool) e :
  (gate = true → family s key) →
  gate_or_issue gate e (issued s key pub)
    (if negb gate then Done (Err e) else gated (mint_on s key pub)).
Proof.
  intros Hf. destruct gate; cbn; [|done].
  destruct (family_issued s key pub (Hf eq_refl)) as (a & r & -> & H). done.
Qed.

Lemma content_range_issued s h count :
  if decide (count = 0%N) then mint_content_range s h count = Panicked
  else gate_or_issue (is_registered_document s h) HomeNotRegistered
         (issued_range s (content_ns h) count) (mint_content_range s h count).
Proof.
  unfold mint_content_range. destruct (decide (count = 0%N)) as [->|Hc]; [done|].
  destruct (N.eqb_spec count 0) as [?|_]; [done|]. cbn [negb assert mbind outcome_bind].
  destruct (is_registered_document s h) eqn:Hd; cbn [negb]; [|done].
  destruct (family_issued_range s (content_ns h) count) as (b & Hb & H); [by apply fam_content|done|].
  rewrite Hb. cbn [gated mbind outcome_bind map_err try_bind gate_or_issue]. done.
Qed.

Lemma account_issued s a :
  match mint_account s a with
  | Done (Some (b, r)) =>
      (entity_level s a = Some Node ∨ entity_level s a = Some Account) ∧
      issued s (account_ns a) NO_PUBLICATION_STATE b r
  | Done None => entity_level s a ≠ Some Node ∧ entity_level s a ≠ Some Account
  | Panicked => False
  end.
Proof.
  unfold mint_account.
  assert (∀ l, entity_level s a = Some l → l = Node ∨ l = Account →
    match (r ← mint_on s (account_ns a) NO_PUBLICATION_STATE; minted ← expect_ok r; Done (Some minted)) with
    | Done (Some (b, r)) => issued s (account_ns a) NO_PUBLICATION_STATE b r
    | _ => False
    end) as H.
  { intros l El Hl. destruct (family_issued s (account_ns a) NO_PUBLICATION_STATE) as (b & r & -> & H); [|done].
    apply fam_account. destruct Hl as [-> | ->]; auto. }
  destruct (entity_level s a) as [[]|] eqn:E; try done;
    specialize (H _ eq_refl ltac:(auto)); destruct (mint_on _ _ _) as [[[b r]|]|]; cbn in *; naive_solver.
Qed.

(** The six mints, on any state: none panics and the inc gate never refuses;
    each refuses exactly an anchor that is not registered at its tier; otherwise it
    issues the next slot of its own chain, unallocated, with a record that folds
    from that state, makes allocated that address and nothing else, and advances
    that chain by one (a range, by its count). *)
Theorem mints_issue_next (s : M3State) (a : Address) (pub : bool) (count : Nat) :
  gate_or_issue (is_registered_document s a) HomeNotRegistered
    (issued s (content_ns a) NO_PUBLICATION_STATE) (mint_content s a) ∧
  gate_or_issue (is_registered_document s a) HomeNotRegistered
    (issued s (link_ns a) NO_PUBLICATION_STATE) (mint_link s a) ∧
  gate_or_issue (is_registered_document s a) SourceNotRegistered
    (issued s (version_ns a) pub) (mint_version s a pub) ∧
  gate_or_issue (is_registered_account s a) NotAnAccount
    (issued s (document_ns a) pub) (mint_document s a pub) ∧
  (if decide (count = 0%N) then mint_content_range s a count = Panicked
   else gate_or_issue (is_registered_document s a) HomeNotRegistered
          (issued_range s (content_ns a) count) (mint_content_range s a count)) ∧
  match mint_account s a with
  | Done (Some (b, r)) =>
      (entity_level s a = Some Node ∨ entity_level s a = Some Account) ∧
      issued s (account_ns a) NO_PUBLICATION_STATE b r
  | Done None => entity_level s a ≠ Some Node ∧ entity_level s a ≠ Some Account
  | Panicked => False
  end.
Proof.
  split_and!.
  - apply gated_mint, fam_content.
  - apply gated_mint, fam_link.
  - apply gated_mint, fam_version.
  - apply gated_mint, fam_document.
  - apply content_range_issued.
  - apply account_issued.
Qed.
