(* ===== verification/NsOps.v ===== *)
(** * The namespace's entity operations

    Models [crates/skep-namespace/src/ops.rs] and [error.rs], over the interface
    of [lib.rs] ([HasM3]): each operation is its pre-work, then one transaction
    whose closure reads the staging's base and working worlds, judges its gates in
    order, mints, and pushes its records. *)

From stdpp Require Import gmap.
From S2P Require Import Prelude Txns Tumblers Addresses AddrMaps Arith NsKeys NsState.

(** What a world that carries the namespace promises it: an accessor to the slice,
    an injection of its records, and a fold that agrees with the slice's own. *)
Class HasM3 (W R : Type) `{WorldState W R} := {
  m3 : W → M3State;
  of_m3 : M3Rec → R;
  m3_fold : ∀ w at_ r, m3 <$> apply w at_ (of_m3 r) = apply_m3 (m3 w) at_ r
}.

(** The slice is a world by itself. *)
#[export] Instance m3_world : WorldState M3State M3Rec := apply_m3.

#[export] Instance m3_has_m3 : HasM3 M3State M3Rec.
Proof. refine {| m3 := id; of_m3 := id |}. intros w at_ r. unfold id. change (apply w at_ r) with (apply_m3 w at_ r).
  by destruct (apply_m3 w at_ r).
Defined.

(** ** Refusals ([error.rs]) *)

Inductive CreateDocumentError := NotOwner | Mint (e : MintError).

Inductive DelegateError :=
  | DNotValid
  | NotAccountTier
  | DTooDeep
  | DelegatorUnknown
  | NotAncestor
  | NotAuthorized
  | NotTopDown
  | DNotFresh
  | DuplicateId
  | ParentNotRegistered
  | NotNextForm.

Inductive RegisterNodeError :=
  | RNotValid
  | NotNode
  | RTooDeep
  | RNotFresh
  | NotDescendantOfBootstrap.

Section Ops.
Context {W R : Type} `{WS : WorldState W R} `{HM : !HasM3 W R}.
#[local] Notation Staging := (Staging (W := W) (R := R)).

(** A refusal returns the staging as it stands, which the transaction discards. *)
Definition refuse {T E} (stg : Staging) (e : E) : outcome (result T E * Staging) := Done (Err e, stg).

(** The closure of [create_new_document]. *)
Definition create_new_document_in (caller : PrincipalId) (account : Address) (flag : option bool)
    (stg : Staging) : outcome (result Address CreateDocumentError * Staging) :=
  if negb (is_effective_owner (m3 (base stg)) caller account) then refuse stg NotOwner
  else
    let s := m3 (working stg) in
    let published := match flag with Some b => b | None => negb (has_documents s account) end in
    minted ← mint_document s account published;
    match minted with
    | Err e => refuse stg (Mint e)
    | Ok (addr, rec) => stg ← push stg (of_m3 rec); Done (Ok addr, stg)
    end.

(** The pre-work of [delegate], refused before any transaction opens. *)
Definition delegate_prework (new_prefix : Tumbler) : result Address DelegateError :=
  match validate new_prefix with
  | Err _ => Err DNotValid
  | Ok new_prefix =>
      if negb (bool_decide (level new_prefix = Account)) then Err NotAccountTier
      else if MAX_PRINCIPAL_COMPONENTS <? Tumbler_len (tumbler new_prefix) then Err DTooDeep
      else Ok new_prefix
  end.

(** The closure of [delegate], under the parent the pre-work found. *)
Definition delegate_in (delegator : PrincipalId) (parent new_prefix : Address) (new_id : PrincipalId)
    (stg : Staging) : outcome (result Address DelegateError * Staging) :=
  let s := m3 (base stg) in
  match principal_prefix s delegator with
  | None => refuse stg DelegatorUnknown
  | Some delegator_prefix =>
      if negb (prefix_contains delegator_prefix new_prefix) || bool_decide (delegator_prefix = new_prefix)
      then refuse stg NotAncestor
      else if negb (is_effective_owner s delegator new_prefix) then refuse stg NotAuthorized
      else if has_principal_strictly_under s new_prefix then refuse stg NotTopDown
      else if is_allocated s new_prefix then refuse stg DNotFresh
      else if bool_decide (is_Some (principal_prefix s new_id)) then refuse stg DuplicateId
      else
        minted ← mint_account (m3 (working stg)) parent;
        match minted with
        | None => refuse stg ParentNotRegistered
        | Some (next, rec) =>
            if negb (bool_decide (next = new_prefix)) then refuse stg NotNextForm
            else
              stg ← push stg (of_m3 rec);
              stg ← push stg (of_m3 (RegisterPrincipal (MkPrincipal next new_id)));
              Done (Ok new_prefix, stg)
        end
  end.

Definition register_node_prework (addr : Tumbler) : result Address RegisterNodeError :=
  match validate addr with
  | Err _ => Err RNotValid
  | Ok addr =>
      if negb (bool_decide (level addr = Node)) then Err NotNode
      else if MAX_NODE_COMPONENTS <? Tumbler_len (tumbler addr) then Err RTooDeep
      else Ok addr
  end.

Definition register_node_in (addr : Address) (stg : Staging) :
    outcome (result Address RegisterNodeError * Staging) :=
  if bool_decide (is_Some (entity_level (m3 (base stg)) addr)) then refuse stg RNotFresh
  else if negb (prefix_contains bootstrap_root addr) then refuse stg NotDescendantOfBootstrap
  else stg ← push stg (of_m3 (RegisterNode addr)); Done (Ok addr, stg).

(** ** The operations, over the kernel *)

Section Kernel.
Context {Bytes : Type} (encode_record : R → Bytes).
#[local] Notation Kernel := (Kernel (W := W) (Bytes := Bytes)).
#[local] Notation Call E := (outcome (Kernel * CallEnd Address E)).

Definition create_new_document (k : Kernel) (answer : CommitAnswer)
    (caller : PrincipalId) (account : Address) (flag : option bool) : Call CreateDocumentError :=
  transact encode_record k answer (create_new_document_in caller account flag).

Definition delegate (k : Kernel) (answer : CommitAnswer)
    (delegator : PrincipalId) (new_prefix : Tumbler) (new_id : PrincipalId) : Call DelegateError :=
  match delegate_prework new_prefix with
  | Err e => Done (k, Returned (Err (Rejected e)))
  | Ok new_prefix =>
      parent ← expect_some (parent new_prefix);
      transact encode_record k answer (delegate_in delegator parent new_prefix new_id)
  end.

Definition register_node (k : Kernel) (answer : CommitAnswer) (addr : Tumbler) : Call RegisterNodeError :=
  match register_node_prework addr with
  | Err e => Done (k, Returned (Err (Rejected e)))
  | Ok addr => transact encode_record k answer (register_node_in addr)
  end.

Definition fork (k : Kernel) (answer : CommitAnswer) (caller : PrincipalId) (flag : option bool) :
    Call CreateDocumentError :=
  match principal_prefix (m3 (c_world (snapshot k))) caller with
  | None => Done (k, Returned (Err (Rejected NotOwner)))
  | Some pfx => create_new_document k answer caller pfx flag
  end.
End Kernel.
End Ops.
