(* ===== verification/NsInv.v ===== *)
(** * Reachable namespace states: the invariant, ownership and permanence

    The ownership reads are characterized against the registry; the invariant
    [m3_ok] holds at genesis and is kept by every transaction the operations and
    the mints can commit, so it holds of every reachable state; from it follow
    parent closure, the owner of a document, and that nothing granted is taken
    back. *)

From stdpp Require Import gmap.
From S2P Require Import Prelude Txns Tumblers Addresses AddrMaps Arith NsKeys NsState NsLaws NsOps.

#[local] Arguments Nat.ltb : simpl never.
#[local] Arguments apply_m3 : simpl never.
#[local] Arguments namespace_of : simpl never.

(** ** Walks of the registry *)

Lemma max_by_key_snoc {A} (f : A → nat) l x :
  max_by_key f (l ++ [x]) =
  match max_by_key f l with None => Some x | Some y => if f x <? f y then Some y else Some x end.
Proof. unfold max_by_key. by rewrite foldl_snoc. Qed.

Lemma max_by_key_spec {A} (f : A → nat) l :
  match max_by_key f l with
  | None => l = []
  | Some x => x ∈ l ∧ ∀ y, y ∈ l → f y ≤ f x
  end.
Proof.
  induction l as [|x l IH] using rev_ind; [done|]. rewrite max_by_key_snoc.
  destruct (max_by_key f l) as [y|]; [|subst; split; [set_solver|set_solver]].
  destruct IH as [Hy Hmax]. destruct (Nat.ltb_spec (f x) (f y)); (split; [set_solver|]);
    intros z [Hz| ->%list_elem_of_singleton]%elem_of_app; try lia; specialize (Hmax z Hz); lia.
Qed.

(** A seat that covers [a], at the tier O1a admits. *)
Definition covers_seat (s : M3State) (a p : Address) (id : PrincipalId) : Prop :=
  principals s !! p = Some id ∧ (level p = Node ∨ level p = Account) ∧ prefix_contains p a = true.

Lemma omega_candidate_ok a p :
  omega_candidate a p = true ↔ (level p = Node ∨ level p = Account) ∧ prefix_contains p a = true.
Proof. unfold omega_candidate. destruct (level p); naive_solver. Qed.

Lemma prefixes_same_len (p q a : Address) :
  prefix_contains p a = true → prefix_contains q a = true →
  Tumbler_len (tumbler p) = Tumbler_len (tumbler q) → p = q.
Proof.
  unfold prefix_contains, Tumbler_len. rewrite !is_prefix_spec. intros [k Hk] [k' Hk'] Hlen.
  apply Address_eq, Tumbler_eq. rewrite Hk in Hk'. by apply app_inj_1 in Hk' as [-> _].
Qed.

Lemma omega_spec s a :
  match omega s a with
  | Some (p, id) =>
      covers_seat s a p id ∧
      ∀ q id', covers_seat s a q id' → q ≠ p → Tumbler_len (tumbler q) < Tumbler_len (tumbler p)
  | None => ∀ p id, ¬ covers_seat s a p id
  end.
Proof.
  unfold omega. set (l := filter _ _).
  assert (Hl : ∀ p id, (p, id) ∈ l ↔ covers_seat s a p id).
  { intros p id. unfold l, covers_seat. rewrite list_elem_of_filter, elem_of_ord_entries, omega_candidate_ok. cbn. tauto. }
  pose proof (max_by_key_spec (λ kv : Address * PrincipalId, Tumbler_len (tumbler kv.1)) l) as H.
  destruct (max_by_key _ l) as [[p id]|].
  - destruct H as [Hin Hmax]. apply Hl in Hin. split; [done|]. intros q id' Hq Hne.
    pose proof (Hmax (q, id') ltac:(by apply Hl)) as Hle. cbn in Hle.
    destruct (decide (Tumbler_len (tumbler q) = Tumbler_len (tumbler p))) as [E|]; [|lia].
    destruct Hne. destruct Hin as (_ & _ & Hp), Hq as (_ & _ & Hq). by eapply prefixes_same_len.
  - intros p id Hp%Hl. rewrite H in Hp. by apply elem_of_nil in Hp.
Qed.

(** The extensions of a tumbler are convex. *)
Lemma list_between_prefix (p r k : list Nat) :
  list_cmp p r ≠ Gt → list_cmp r (p ++ k) ≠ Gt → p `prefix_of` r.
Proof.
  revert r. induction p as [|x p IH]; intros r Hpr Hrq; [by exists r|].
  destruct r as [|y r]; [done|]. cbn in *.
  destruct (N.compare_spec x y) as [->|Hlt|]; [|exfalso|done].
  - rewrite N.compare_refl in Hrq. by apply prefix_cons, IH.
  - destruct (N.compare_spec y x); [lia|lia|done].
Qed.

Definition strictly_under (p q : Address) : Prop := prefix_contains p q = true ∧ p ≠ q.

Lemma strictly_under_lt p q : strictly_under p q → tumbler p <ₜ tumbler q.
Proof.
  intros [H Hne]. apply is_prefix_spec, prefix_le, Tle_lteq in H as [?|E]; [done|].
  by apply Address_eq in E.
Qed.

Lemma sorted_head_le {V} (l : list (Address * V)) x y :
  StronglySorted (λ a b, tumbler a ≤ₜ tumbler b) (fst <$> x :: l) → y ∈ x :: l →
  tumbler x.1 ≤ₜ tumbler y.1.
Proof.
  cbn. intros [Hx _]%StronglySorted_cons [->|Hy]%elem_of_cons; [torder|].
  rewrite Forall_forall in Hx. apply Hx. by apply list_elem_of_fmap_2.
Qed.

Lemma has_principal_strictly_under_ok s p :
  has_principal_strictly_under s p = true ↔
  ∃ q id, principals s !! q = Some id ∧ strictly_under p q.
Proof.
  unfold has_principal_strictly_under.
  pose proof (StronglySorted_fmap_filter fst _ (λ kv : Address * PrincipalId, tumbler p <ₜ tumbler kv.1) _
    (ord_entries_sorted (principals s))) as Hs.
  assert (Hl : ∀ q id, (q, id) ∈ filter (λ kv : Address * PrincipalId, tumbler p <ₜ tumbler kv.1) (ord_entries (principals s))
    ↔ tumbler p <ₜ tumbler q ∧ principals s !! q = Some id).
  { intros q id. by rewrite list_elem_of_filter, elem_of_ord_entries. }
  revert Hs Hl. generalize (filter (λ kv : Address * PrincipalId, tumbler p <ₜ tumbler kv.1) (ord_entries (principals s))).
  intros l Hs Hl. destruct l as [|[first fid] l].
  - split; [done|]. intros (q & id & Hq & Hu%strictly_under_lt).
    exfalso. eapply not_elem_of_nil. exact (proj2 (Hl q id) (conj Hu Hq)).
  - destruct (proj1 (Hl first fid) ltac:(by left)) as [Hlt Hf]. split.
    + intros H. exists first, fid. split; [done|]. split; [done|]. intros <-. torder.
    + intros (q & id & Hq & Hu). pose proof (strictly_under_lt p q Hu) as Hpq.
      pose proof (sorted_head_le _ _ (q, id) Hs (proj2 (Hl q id) (conj Hpq Hq))) as Hle. cbn in Hle.
      destruct Hu as [[k Hk]%is_prefix_spec _]. apply is_prefix_spec.
      apply (list_between_prefix _ _ k).
      * unfold Tlt, cmp in Hlt. by rewrite Hlt.
      * rewrite <- Hk. exact Hle.
Qed.

Lemma principal_prefix_ok s id :
  match principal_prefix s id with
  | Some p => principals s !! p = Some id
  | None => ∀ p, principals s !! p ≠ Some id
  end.
Proof.
  unfold principal_prefix. destruct (List.find _ _) as [[p id']|] eqn:E; cbn.
  - apply List.find_some in E as [Hin Heq]. cbn in Heq. apply N.eqb_eq in Heq as ->.
    by apply elem_of_ord_entries, list_elem_of_In.
  - intros p Hp. apply elem_of_ord_entries, list_elem_of_In in Hp.
    pose proof (List.find_none _ _ E _ Hp) as H. cbn in H. by rewrite N.eqb_refl in H.
Qed.

(** ** The account of an address *)

Lemma account_view a :
  level a ≠ Node →
  ∃ n u acct rest, account_field a = Some u ∧ node_field a = n ∧
    level acct = Account ∧ comps (tumbler acct) = n ++ 0%N :: u ∧
    comps (tumbler a) = comps (tumbler acct) ++ rest ∧
    (rest = [] ∨ ∃ rest', rest = 0%N :: rest').
Proof.
  intros Hl. pose proof (Address_level_segs a) as H. pose proof (Address_fields_ok a) as F.
  pose proof (unsegs_segs (comps (tumbler a))) as U. pose proof (node_field_segs a) as Nf.
  pose proof (account_field_segs a) as Af.
  destruct (segs (comps (tumbler a))) as [|n [|u tl]]; cbn in *; [done|by destruct (level a)|].
  rewrite !Forall_cons in F. destruct F as ([Hn Hn'] & [Hu Hu'] & _).
  assert (Hok : t4_ok (n ++ 0%N :: u)).
  { apply t4_ok_segs; [by destruct n|]. unfold t4_segs. rewrite segs_app, segs_zf by done.
    split; [by repeat constructor|cbn; lia]. }
  destruct (mint_ok _ Hok) as (acct & _ & Hacct).
  exists n, u, acct, (match tl with [] => [] | _ => 0%N :: unsegs tl end).
  split_and!; [done|congruence| |done| |].
  - apply level_index_inj. pose proof (Address_level_segs acct) as La.
    rewrite Hacct, segs_app, segs_zf in La by done. cbn in *. lia.
  - rewrite <- U, Hacct. destruct tl; [by rewrite app_nil_r|]. by rewrite <- app_assoc.
  - destruct tl; [by left|right; by eexists].
Qed.

(** No node or account above [a] is longer than its account. *)
Lemma account_longest a p acct rest :
  comps (tumbler a) = comps (tumbler acct) ++ rest → level acct = Account →
  (rest = [] ∨ ∃ rest', rest = 0%N :: rest') →
  level p = Node ∨ level p = Account → prefix_contains p a = true →
  Tumbler_len (tumbler p) ≤ Tumbler_len (tumbler acct).
Proof.
  intros E Hacct Hr Hp Hpre. apply is_prefix_spec in Hpre as [k Hk]. unfold Tumbler_len.
  destruct (Nat.le_gt_cases (length (comps (tumbler p))) (length (comps (tumbler acct)))) as [|Hgt]; [done|].
  exfalso. rewrite E in Hk.
  apply (f_equal (take (length (comps (tumbler p))))) in Hk. rewrite take_app_length in Hk.
  rewrite take_app_ge in Hk by lia. destruct Hr as [->|(r & ->)].
  - rewrite take_nil, app_nil_r in Hk. rewrite Hk in Hgt. lia.
  - destruct (length (comps (tumbler p)) - length (comps (tumbler acct))) as [|m] eqn:Em; [lia|].
    cbn [take] in Hk. pose proof (Address_level_separators p) as Hlp.
    rewrite <- Hk, separators_count_app, Address_level_separators, Hacct, separators_cons in Hlp.
    cbn in Hlp. rewrite length_fmap in Hlp. destruct Hp as [Hp|Hp]; rewrite Hp in Hlp; cbn in Hlp; lia.
Qed.

Lemma account_seat_ok s a :
  match level a with
  | Node => account_seat_at s a = Done None
  | _ => ∃ acct rest, level acct = Account ∧ comps (tumbler a) = comps (tumbler acct) ++ rest ∧
      (rest = [] ∨ ∃ rest', rest = 0%N :: rest') ∧
      account_seat_at s a = Done (pair acct <$> principals s !! acct)
  end.
Proof.
  unfold account_seat_at. destruct (decide (level a = Node)) as [Hl|Hl].
  - rewrite Hl, account_field_segs. pose proof (Address_level_segs a) as H. rewrite Hl in H.
    destruct (segs (comps (tumbler a))) as [|? [|]]; done.
  - destruct (account_view a Hl) as (n & u & acct & rest & Hu & Hn & Hla & Hc & E & Hr).
    assert (∃ acct rest, level acct = Account ∧ comps (tumbler a) = comps (tumbler acct) ++ rest ∧
      (rest = [] ∨ ∃ rest', rest = 0%N :: rest') ∧
      account_seat_at s a = Done (pair acct <$> principals s !! acct)) as H; [|by destruct (level a)].
    exists acct, rest. split_and!; [done..|]. unfold account_seat_at. rewrite Hu, Hn.
    assert (take (length n + 1 + length u) (comps (tumbler a)) = comps (tumbler acct)) as ->.
    { rewrite E. replace (length n + 1 + length u) with (length (comps (tumbler acct)))
        by (rewrite Hc, length_app; cbn; lia). apply take_app_length. }
    rewrite (proj2 (Tumbler_new_Ok _ (tumbler acct)) eq_refl). cbn. rewrite validate_self. cbn.
    by destruct (principals s !! acct).
Qed.

Lemma account_seat_done s a : is_done (account_seat_at s a) = true.
Proof.
  pose proof (account_seat_ok s a) as H.
  destruct (level a); [by rewrite H|..]; by destruct H as (? & ? & _ & _ & _ & ->).
Qed.

Definition account_seat (s : M3State) (a : Address) : option (Address * PrincipalId) :=
  total (account_seat_at s a) (account_seat_done s a).

(** Wherever the account's own seat stands, it is the longest covering one. *)
Lemma account_seat_omega s a acct id :
  account_seat s a = Some (acct, id) → omega s a = Some (acct, id) ∧ level acct = Account.
Proof.
  unfold account_seat. pose proof (account_seat_ok s a) as H. destruct (level a) eqn:Hl.
  { rewrite (total_Done _ _ _ H). done. }
  all: destruct H as (acct' & rest & Hla & E & Hr & H); rewrite (total_Done _ _ _ H);
    destruct (principals s !! acct') as [id'|] eqn:Hp; [|done]; intros [= <- <-]; (split; [|done]);
    assert (covers_seat s a acct' id') by
      (split_and!; [done|by right|apply is_prefix_spec; rewrite E; by eexists]);
    pose proof (omega_spec s a) as Ho; destruct (omega s a) as [[q idq]|]; [|by destruct (Ho acct' id')];
    destruct Ho as [Hq Hmax]; destruct (decide (acct' = q)) as [<-|Hne];
    [destruct Hq as [Hq _]; congruence|];
    specialize (Hmax acct' id' ltac:(done) Hne);
    destruct Hq as (_ & Hlq & Hpq); pose proof (account_longest a q acct' rest E Hla Hr Hlq Hpq); lia.
Qed.

(** ** The invariant *)

Record m3_ok (s : M3State) : Prop := {
  inv_family : ∀ k m, frontiers s !! k = Some m → family s k;
  inv_publication : ∀ d, is_Some (publication s !! d) ↔ is_registered_document s d = true;
  inv_minted : ∀ a, is_Some (minted_at s !! a) ↔
    is_registered_document s a = true ∨ (is_link_slot a = true ∧ is_allocated s a = true);
  inv_seat : ∀ p, level p = Account → is_Some (principals s !! p) ↔ is_allocated s p = true;
  inv_tier : ∀ p id, principals s !! p = Some id → p = bootstrap_root ∨ level p = Account;
  inv_ids : ∀ p q id, principals s !! p = Some id → principals s !! q = Some id → p = q;
  inv_root : principals s !! bootstrap_root = Some BOOTSTRAP_PRINCIPAL ∧ bootstrap_root ∈ nodes s;
  inv_nodes : ∀ n, n ∈ nodes s → level n = Node ∧ prefix_contains bootstrap_root n = true ∧
    Tumbler_len (tumbler n) ≤ MAX_NODE_COMPONENTS
}.

(** Allocation only grows. *)
Definition grown (s s' : M3State) : Prop := ∀ b, is_allocated s b = true → is_allocated s' b = true.

Lemma entity_grown s s' p l : grown s s' → entity_level s p = Some l → entity_level s' p = Some l.
Proof. rewrite !entity_level_Some. intros Hg (? & ? & ?). auto. Qed.

Lemma family_grown s s' k : grown s s' → family s k → family s' k.
Proof.
  intros Hg Hf.
  assert (Hd : ∀ d, is_registered_document s d = true → is_registered_document s' d = true).
  { intros d. rewrite !is_registered_document_ok. intros [? ?]; auto. }
  assert (Ha : ∀ d, is_registered_account s d = true → is_registered_account s' d = true).
  { intros d. rewrite !is_registered_account_ok. intros [? ?]; auto. }
  destruct Hf; constructor; auto. destruct H; [left|right]; by eapply entity_grown.
Qed.

Lemma insert_absent_is_Some {V} (k : Address) (v : V) m j :
  is_Some (insert_absent k v m !! j) ↔ is_Some (m !! j) ∨ j = k.
Proof.
  unfold insert_absent. case_bool_decide as H.
  - split; [by left|]. by intros [?| ->].
  - destruct (decide (k = j)) as [->|Hne].
    + rewrite lookup_insert_eq. split; [by right|done].
    + rewrite lookup_insert_ne by done. naive_solver.
Qed.

Lemma insert_absent_keeps {V} (k j : Address) (v w : V) m :
  m !! j = Some w → insert_absent k v m !! j = Some w.
Proof.
  intros H. unfold insert_absent. case_bool_decide as Hk; [done|].
  rewrite lookup_insert_ne; [done|]. intros ->. by destruct Hk.
Qed.

(** The registry part of the invariant past one allocated address. *)
Lemma allocate_registry s key a pub at_ s' :
  m3_ok s → family s key → namespace_of a = Some key →
  apply_m3 s at_ (Allocate (MkAllocation a pub)) = Done s' →
  grown s s' ∧ (∀ b, is_allocated s' b = true ↔ is_allocated s b = true ∨ b = a) ∧
  (∀ k m, frontiers s' !! k = Some m → family s' k) ∧
  (∀ d, is_Some (publication s' !! d) ↔ is_registered_document s' d = true) ∧
  (∀ b, is_Some (minted_at s' !! b) ↔
    is_registered_document s' b = true ∨ (is_link_slot b = true ∧ is_allocated s' b = true)) ∧
  nodes s' = nodes s ∧ principals s' = principals s.
Proof.
  intros Hok Hf Hk Hs. destruct (family_level s key a Hf Hk) as [Hl _].
  assert (Hal : ∀ b, is_allocated s' b = true ↔ is_allocated s b = true ∨ b = a).
  { intros b. by eapply allocated_allocate. }
  assert (Hg : grown s s') by (intros b Hb; apply Hal; by left).
  assert (Hdoc : ∀ d, is_registered_document s' d = true ↔
    is_registered_document s d = true ∨ (level d = Document ∧ d = a)).
  { intros d. rewrite !is_registered_document_ok, Hal. tauto. }
  apply apply_allocate in Hs as (k & Hk' & Ho & Es). rewrite Hk in Hk'. injection Hk' as <-.
  pose proof (inv_publication s Hok) as Hp. pose proof (inv_minted s Hok) as Hm.
  split_and!; [done|done| | | |by rewrite Es|by rewrite Es].
  - intros k m Hkm. rewrite Es in Hkm. cbn in Hkm. destruct (decide (k = key)) as [->|Hne].
    + by eapply family_grown.
    + rewrite lookup_insert_ne in Hkm by done. eapply family_grown; [done|]. by eapply inv_family.
  - intros d. rewrite Hdoc, Es. cbn. case_bool_decide as Hd.
    + rewrite insert_absent_is_Some, Hp. naive_solver.
    + rewrite Hp. naive_solver.
  - intros b. rewrite Hdoc, Hal, Es. cbn. case_bool_decide as Hd; cbn.
    + rewrite insert_absent_is_Some, Hm. split; [intros [[?|[? ?]]| ->]; auto|].
      intros [[?|[? ->]]|[? [?| ->]]]; auto.
    + destruct (is_link_slot a) eqn:Hla.
      * rewrite insert_absent_is_Some, Hm. split; [intros [[?|[? ?]]| ->]; auto|].
        intros [[?|[? ->]]|[? [?| ->]]]; auto.
      * rewrite Hm. split; [intros [?|[? ?]]; auto|].
        intros [[?|[? ->]]|[? [?| ->]]]; [by left|done|by right|congruence].
Qed.

Lemma allocate_ok s key a pub at_ s' :
  m3_ok s → family s key → namespace_of a = Some key → level a ≠ Account →
  apply_m3 s at_ (Allocate (MkAllocation a pub)) = Done s' → m3_ok s'.
Proof.
  intros Hok Hf Hk Hl Hs.
  destruct (allocate_registry s key a pub at_ s' Hok Hf Hk Hs) as (_ & Hal & ? & ? & ? & Hn & Hp).
  destruct Hok. constructor; rewrite ?Hp, ?Hn; try done.
  intros p Hlp. rewrite Hal, inv_seat0 by done. split; [by left|]. intros [?| ->]; [done|congruence].
Qed.

(** An account is allocated and seated in one transaction, under a fresh id. *)
Lemma seat_ok s key a id pub at_ at' s' s'' :
  m3_ok s → family s key → namespace_of a = Some key → level a = Account →
  (∀ p, principals s !! p ≠ Some id) → is_allocated s a = false →
  apply_m3 s at_ (Allocate (MkAllocation a pub)) = Done s' →
  apply_m3 s' at' (RegisterPrincipal (MkPrincipal a id)) = Done s'' → m3_ok s''.
Proof.
  intros Hok Hf Hk Hl Hid Hfree Hs Hs'.
  destruct (allocate_registry s key a pub at_ s' Hok Hf Hk Hs) as (_ & Hal & Hfam & Hpub & Hmin & Hn & Hp).
  unfold apply_m3 in Hs'. injection Hs' as <-.
  assert (Hno : principals s !! a = None).
  { apply eq_None_not_Some. rewrite (inv_seat s Hok) by done. by rewrite Hfree. }
  assert (Hins : insert_absent a id (principals s') = <[a := id]> (principals s)).
  { unfold insert_absent. rewrite Hp, bool_decide_eq_false_2; [done|]. by rewrite Hno; intros [? ?]. }
  assert (Hroot : bootstrap_root ≠ a) by (intros <-; done).
  set (s'' := MkM3State _ _ _ _ _).
  assert (Hg : grown s' s'') by (intros b Hb; exact Hb).
  destruct Hok. constructor; cbn; rewrite ?Hins; cbn.
  - intros k m Hkm. eapply family_grown; [exact Hg|]. by eapply Hfam.
  - exact Hpub.
  - exact Hmin.
  - intros p Hlp. destruct (decide (p = a)) as [->|Hne].
    + rewrite lookup_insert_eq. split; [|done]. intros _. apply Hal. by right.
    + rewrite lookup_insert_ne, inv_seat0 by done. change (is_allocated s'' p) with (is_allocated s' p).
      rewrite Hal. naive_solver.
  - intros p id' Hpi. destruct (decide (p = a)) as [->|Hne]; [by right|].
    rewrite lookup_insert_ne in Hpi by done. by eapply inv_tier0.
  - intros p q id'. rewrite !lookup_insert_Some.
    intros [[<- <-]|[Hne Hpi]] [[<- Hq]|[Hne' Hqi]]; [done|by destruct (Hid q)| |by eapply inv_ids0].
    subst. by destruct (Hid p).
  - rewrite lookup_insert_ne, Hn by done. done.
  - rewrite Hn. done.
Qed.

Lemma node_ok s n at_ s' :
  m3_ok s → level n = Node → prefix_contains bootstrap_root n = true →
  Tumbler_len (tumbler n) ≤ MAX_NODE_COMPONENTS →
  apply_m3 s at_ (RegisterNode n) = Done s' →
  m3_ok s' ∧ ∀ b, is_allocated s' b = true ↔ is_allocated s b = true ∨ b = n.
Proof.
  intros Hok Hl Hr Hlen Hs. unfold apply_m3 in Hs. injection Hs as <-.
  set (s' := MkM3State _ _ _ _ _).
  assert (Hal : ∀ b, is_allocated s' b = true ↔ is_allocated s b = true ∨ b = n).
  { intros b. unfold is_allocated, s'. destruct (level b) eqn:Hb; cbn;
      [rewrite !bool_decide_eq_true; set_solver| | |];
      (split; [by left|]; intros [?| ->]; [done|congruence]). }
  assert (Hg : grown s s') by (intros b Hb; apply Hal; by left).
  split; [|done]. destruct Hok. constructor; try done.
  - intros k m Hkm. by eapply family_grown, inv_family0.
  - intros d. change (publication s') with (publication s). rewrite (inv_publication0 d), !is_registered_document_ok, Hal.
    split; [intros [? ?]; auto|]. intros [? [?| ->]]; [auto|congruence].
  - intros a. change (minted_at s') with (minted_at s). rewrite (inv_minted0 a), !is_registered_document_ok, Hal.
    split; [intros [[? ?]|[? ?]]; auto|].
    intros [[? [?| ->]]|[Hls [?| ->]]]; [by left|congruence|by right|].
    unfold is_link_slot in Hls. destruct (element_field n) eqn:He; [|done].
    apply element_field_level in He. congruence.
  - intros p Hlp. change (principals s') with (principals s). rewrite (inv_seat0 p Hlp), Hal.
    split; [by left|]. intros [?| ->]; [done|congruence].
  - cbn. split; [apply inv_root0|]. destruct inv_root0. set_solver.
  - cbn. intros m [->%elem_of_singleton|Hm]%elem_of_union; [done|by apply inv_nodes0].
Qed.

Lemma range_ok s h a count at_ s' :
  m3_ok s → is_registered_document s h = true → namespace_of a = Some (content_ns h) → count ≠ 0%N →
  apply_m3 s at_ (AllocateRange (MkRangeAllocation a count)) = Done s' →
  m3_ok s' ∧ grown s s'.
Proof.
  intros Hok Hh Hk Hc Hs.
  assert (He : element_field a = Some [1%N; ordinal (tumbler a)]).
  { apply is_registered_document_ok in Hh as [Hl _]. by eapply content_slot. }
  pose proof (element_field_level _ _ He) as Hl.
  assert (Hal : ∀ b, is_allocated s' b = true ↔
    is_allocated s b = true ∨ ∃ i, (i < count)%N ∧ tumbler b = shift (tumbler a) i).
  { intros b. eapply allocated_range; [congruence|done..]. }
  assert (Hnew : ∀ b i, tumbler b = shift (tumbler a) i → level b = Element ∧ is_link_slot b = false).
  { intros b i Hb. rewrite (shift_level a b i Hb). split; [done|].
    apply element_pair_view in He as (d & Hd & E).
    assert (element_field b = Some [1%N; (ordinal (tumbler a) + i)%N]) as Hb'.
    { apply element_pair_view. exists d. split; [done|]. rewrite Hb.
      change [0%N; 1%N; ordinal (tumbler a)] with ([0%N; 1%N] ++ [ordinal (tumbler a)]) in E.
      rewrite app_assoc in E. rewrite (shift_app _ _ _ _ E). by rewrite <- app_assoc. }
    unfold is_link_slot. by rewrite Hb'. }
  assert (Hg : grown s s') by (intros b Hb; apply Hal; by left).
  split; [|done]. apply apply_range in Hs as (k & Hk' & Ho & Es); [|done].
  rewrite Hk in Hk'. injection Hk' as <-.
  destruct Hok. constructor; try by rewrite Es.
  - intros k m Hkm. rewrite Es in Hkm. cbn in Hkm. destruct (decide (k = content_ns h)) as [->|Hne].
    + eapply family_grown; [done|]. by apply fam_content.
    + rewrite lookup_insert_ne in Hkm by done. eapply family_grown; [done|]. by eapply inv_family0.
  - intros d. rewrite !is_registered_document_ok, Hal. rewrite Es. cbn.
    rewrite (inv_publication0 d), is_registered_document_ok. split; [intros [? ?]; auto|].
    intros [? [?|(i & _ & Hi%Hnew)]]; [done|]. destruct Hi. congruence.
  - intros b. rewrite !is_registered_document_ok, Hal. rewrite Es. cbn.
    rewrite (inv_minted0 b), is_registered_document_ok. split; [intros [[? ?]|[? ?]]; auto|].
    intros [[? [?|(i & _ & Hi%Hnew)]]|[? [?|(i & _ & Hi%Hnew)]]];
      [by left|destruct Hi; congruence|by right|destruct Hi; congruence].
  - intros p Hlp. rewrite Hal. rewrite Es. cbn. rewrite inv_seat0 by done. split; [by left|].
    intros [?|(i & _ & Hi%Hnew)]; [done|]. destruct Hi. congruence.
Qed.

(** ** Transactions on the slice *)

#[local] Notation fresh s first := (Staging_new (MkCommitted 0%N s) first).

(** What may commit: a mint's record, or the records one operation stages, folded at
    any position. *)
Inductive m3_step (s : M3State) : M3State → Prop :=
  | step_content h a r at_ s' :
      mint_content s h = Done (Ok (a, r)) → apply_m3 s at_ r = Done s' → m3_step s s'
  | step_range h count a r at_ s' :
      mint_content_range s h count = Done (Ok (a, r)) → apply_m3 s at_ r = Done s' → m3_step s s'
  | step_link h a r at_ s' :
      mint_link s h = Done (Ok (a, r)) → apply_m3 s at_ r = Done s' → m3_step s s'
  | step_version d pub a r at_ s' :
      mint_version s d pub = Done (Ok (a, r)) → apply_m3 s at_ r = Done s' → m3_step s s'
  | step_document acct pub a r at_ s' :
      mint_document s acct pub = Done (Ok (a, r)) → apply_m3 s at_ r = Done s' → m3_step s s'
  | step_create caller acct flag first a stg at_ s' :
      create_new_document_in caller acct flag (fresh s first) = Done (Ok a, stg) →
      fold_world s at_ (stg_records stg) = Done s' → m3_step s s'
  | step_delegate d t np par id first a stg at_ s' :
      delegate_prework t = Ok np → parent np = Some par →
      delegate_in d par np id (fresh s first) = Done (Ok a, stg) →
      fold_world s at_ (stg_records stg) = Done s' → m3_step s s'
  | step_node t n first a stg at_ s' :
      register_node_prework t = Ok n →
      register_node_in n (fresh s first) = Done (Ok a, stg) →
      fold_world s at_ (stg_records stg) = Done s' → m3_step s s'.

Definition reachable : M3State → Prop := rtc m3_step M3State_genesis.

(** ** What an operation's closure does, over any world that carries the slice *)

Section Closures.
Context {W R : Type} `{WS : WorldState W R} `{HM : !HasM3 W R}.
#[local] Notation Staging := (Staging (W := W) (R := R)).

(** A push of a slice record is the slice's fold. *)
Lemma push_m3 (stg : Staging) r stg' :
  push stg (of_m3 r) = Done stg' →
  ∃ at_, apply_m3 (m3 (working stg)) at_ r = Done (m3 (working stg')) ∧
    stg_records stg' = stg_records stg ++ [of_m3 r] ∧ stg_base stg' = stg_base stg ∧
    stg_first stg' = stg_first stg.
Proof using.
  intros (w & Ha & [= <-])%bind_inv. eexists. split; [|done].
  rewrite <- m3_fold. unfold working. rewrite Ha. done.
Qed.

Lemma push_m3_done (stg : Staging) r :
  (∀ at_, ∃ s', apply_m3 (m3 (working stg)) at_ r = Done s') → ∃ stg', push stg (of_m3 r) = Done stg'.
Proof using.
  intros Hd. unfold push. cbv zeta.
  generalize ((stg_first stg + N.of_nat (length (stg_records stg))) mod 2 ^ 64)%N. intros at_.
  destruct (Hd at_) as (s' & Hs). unfold working in Hs. rewrite <- m3_fold in Hs.
  destruct (apply (stg_working stg) at_ (of_m3 r)) as [w|]; [|done]. by eexists.
Qed.

(** *** create_new_document *)

Lemma issued_facts s key pub a r :
  issued s key pub a r →
  r = Allocate (MkAllocation a pub) ∧ namespace_of a = Some key ∧
  ordinal (tumbler a) = (effective_frontier s key + 1)%N ∧ is_allocated s a = false ∧
  ∀ at_, ∃ s', apply_m3 s at_ r = Done s'.
Proof using.
  intros (-> & Hn & Hf & Hs). split_and!; [done|by eapply namespace_of_nth| |done|].
  - apply nth_in_Ok in Hn as (_ & _ & E). by eapply slot_ordinal.
  - intros at_. destruct (Hs at_) as (s' & ? & _). by exists s'.
Qed.

Lemma create_in_ok caller account flag base first :
  let s := m3 (c_world base) in
  let stg := Staging_new base first : Staging in
  match create_new_document_in caller account flag stg with
  | Done (Err NotOwner, stg') => stg' = stg ∧ effective_owner s account ≠ Some caller
  | Done (Err (Mint e), stg') =>
      stg' = stg ∧ effective_owner s account = Some caller ∧ e = NotAnAccount ∧
      is_registered_account s account = false
  | Done (Ok a, stg') =>
      let bit := match flag with Some b => b | None => negb (has_documents s account) end in
      effective_owner s account = Some caller ∧ is_registered_account s account = true ∧
      issued s (document_ns account) bit a (Allocate (MkAllocation a bit)) ∧
      stg_records stg' = [of_m3 (Allocate (MkAllocation a bit))] ∧
      ∃ at_, apply_m3 s at_ (Allocate (MkAllocation a bit)) = Done (m3 (working stg'))
  | Panicked => False
  end.
Proof using.
  intros s stg. unfold create_new_document_in.
  change (m3 (Txns.base stg)) with s. change (m3 (working stg)) with s.
  unfold is_effective_owner. case_bool_decide as Ho; cbn [negb]; [|done].
  set (bit := match flag with Some b => b | None => _ end).
  pose proof (gated_mint s (document_ns account) bit (is_registered_account s account) NotAnAccount
    (fam_document s account)) as Hm.
  change (if negb (is_registered_account s account) then Done (Err NotAnAccount)
          else gated (mint_on s (document_ns account) bit)) with (mint_document s account bit) in Hm.
  destruct (mint_document s account bit) as [[[a r]|e]|]; cbn [mbind outcome_bind]; [..|done].
  2: { destruct Hm as [-> Hr]. done. }
  destruct Hm as [Hr Hi]. destruct (issued_facts _ _ _ _ _ Hi) as (-> & _ & _ & _ & Hd).
  destruct (push_m3_done stg (Allocate (MkAllocation a bit)) Hd) as (stg' & Hp). rewrite Hp. cbn.
  apply push_m3 in Hp as (at_ & Ha & Hrec & _ & _). split_and!; try done. by exists at_.
Qed.

(** *** register_node *)

Lemma register_node_in_ok n base first :
  let s := m3 (c_world base) in
  let stg := Staging_new base first : Staging in
  match register_node_in n stg with
  | Done (Err RNotFresh, stg') => stg' = stg ∧ is_Some (entity_level s n)
  | Done (Err NotDescendantOfBootstrap, stg') =>
      stg' = stg ∧ entity_level s n = None ∧ prefix_contains bootstrap_root n = false
  | Done (Err _, _) => False
  | Done (Ok a, stg') =>
      a = n ∧ entity_level s n = None ∧ prefix_contains bootstrap_root n = true ∧
      stg_records stg' = [of_m3 (RegisterNode n)] ∧
      ∃ at_, apply_m3 s at_ (RegisterNode n) = Done (m3 (working stg'))
  | Panicked => False
  end.
Proof using.
  intros s stg. unfold register_node_in.
  change (m3 (Txns.base stg)) with s. case_bool_decide as Hf; cbn [negb]; [done|].
  apply eq_None_not_Some in Hf.
  destruct (prefix_contains bootstrap_root n) eqn:Hp; cbn [negb]; [|done].
  destruct (push_m3_done stg (RegisterNode n)) as (stg' & Hs); [by eexists|]. rewrite Hs. cbn.
  apply push_m3 in Hs as (at_ & Ha & Hrec & _ & _). split_and!; try done. by exists at_.
Qed.

(** *** delegate *)

(** The first refusal, in a pinned order, whose condition holds. *)
Definition first_refusal {E} (gates : list (E * Prop)) (e : E) : Prop :=
  ∃ l P k, gates = l ++ (e, P) :: k ∧ P ∧ Forall (λ g, ¬ g.2) l.

(** The gates of [delegate]'s closure, as conditions on the registry. *)
Definition delegate_gates (s : M3State) (d : PrincipalId) (par np : Address) (id : PrincipalId) :
    list (DelegateError * Prop) :=
  [ (DelegatorUnknown, ∀ p, principals s !! p ≠ Some d);
    (NotAncestor, ∀ p, principals s !! p = Some d → ¬ strictly_under p np);
    (NotAuthorized, effective_owner s np ≠ Some d);
    (NotTopDown, ∃ q id', principals s !! q = Some id' ∧ strictly_under np q);
    (DNotFresh, is_allocated s np = true);
    (DuplicateId, ∃ p, principals s !! p = Some id);
    (ParentNotRegistered, entity_level s par ≠ Some Node ∧ entity_level s par ≠ Some Account);
    (NotNextForm, nth_in (account_ns par) (effective_frontier s (account_ns par) + 1) ≠ Done (Ok np)) ].

Lemma first_refusal_here {E} (e : E) (P : Prop) k : P → first_refusal ((e, P) :: k) e.
Proof using. intros HP. exists [], P, k. split_and!; [done|done|constructor]. Qed.

Lemma first_refusal_next {E} (g : E * Prop) k e : ¬ g.2 → first_refusal k e → first_refusal (g :: k) e.
Proof using.
  intros Hg (l & P & r & -> & HP & Hl). exists (g :: l), P, r. split_and!; [done|done|by constructor].
Qed.

Lemma not_ancestor_ok s d p np :
  m3_ok s → principals s !! p = Some d →
  negb (prefix_contains p np) || bool_decide (p = np) = true ↔
  ∀ q, principals s !! q = Some d → ¬ strictly_under q np.
Proof using.
  intros Hok Hp. rewrite orb_true_iff, negb_true_iff, bool_decide_eq_true. split.
  - intros H q Hq. rewrite (inv_ids s Hok q p d Hq Hp). intros [Hc Hne]. destruct H; congruence.
  - intros H. destruct (prefix_contains p np) eqn:Hc; [|by left]. right.
    destruct (decide (p = np)) as [|Hne]; [done|]. by destruct (H p Hp).
Qed.

Lemma delegate_in_ok d par np id base first :
  let s := m3 (c_world base) in
  let stg := Staging_new base first : Staging in
  m3_ok s →
  match delegate_in d par np id stg with
  | Done (Err e, stg') => stg' = stg ∧ first_refusal (delegate_gates s d par np id) e
  | Done (Ok a, stg') =>
      a = np ∧ Forall (λ g, ¬ g.2) (delegate_gates s d par np id) ∧
      stg_records stg' = of_m3 <$> [Allocate (MkAllocation np NO_PUBLICATION_STATE);
                                     RegisterPrincipal (MkPrincipal np id)] ∧
      issued s (account_ns par) NO_PUBLICATION_STATE np (Allocate (MkAllocation np NO_PUBLICATION_STATE)) ∧
      (∃ s' at_ at', apply_m3 s at_ (Allocate (MkAllocation np NO_PUBLICATION_STATE)) = Done s' ∧
         apply_m3 s' at' (RegisterPrincipal (MkPrincipal np id)) = Done (m3 (working stg')))
  | Panicked => False
  end.
Proof using.
  intros s stg Hok. unfold delegate_in, delegate_gates.
  change (m3 (Txns.base stg)) with s. change (m3 (working stg)) with s.
  pose proof (principal_prefix_ok s d) as Hd. destruct (principal_prefix s d) as [p|].
  2: { split; [done|]. by apply first_refusal_here. }
  assert (H1 : ¬ ∀ q, principals s !! q ≠ Some d) by (intros H; by apply (H p)).
  pose proof (not_ancestor_ok s d p np Hok Hd) as H2.
  destruct (negb (prefix_contains p np) || bool_decide (p = np)).
  { split; [done|]. apply first_refusal_next; [done|]. apply first_refusal_here. by apply H2. }
  assert (H2' : ¬ ∀ q, principals s !! q = Some d → ¬ strictly_under q np) by (intros H; by apply H2 in H).
  unfold is_effective_owner. case_bool_decide as H3; cbn [negb].
  2: { split; [done|]. do 2 (apply first_refusal_next; [done|]). by apply first_refusal_here. }
  pose proof (has_principal_strictly_under_ok s np) as H4.
  destruct (has_principal_strictly_under s np).
  { split; [done|]. do 3 (apply first_refusal_next; [by cbn; auto|]).
    apply first_refusal_here. by apply H4. }
  assert (H4' : ¬ ∃ q id', principals s !! q = Some id' ∧ strictly_under np q) by (intros H; by apply H4 in H).
  destruct (is_allocated s np) eqn:H5.
  { split; [done|]. do 4 (apply first_refusal_next; [by cbn; auto|]). by apply first_refusal_here. }
  pose proof (principal_prefix_ok s id) as H6. case_bool_decide as H6'.
  { destruct H6' as [q Hq]. rewrite Hq in H6. split; [done|].
    do 5 (apply first_refusal_next; [by cbn; auto; congruence|]). apply first_refusal_here. by exists q. }
  apply eq_None_not_Some in H6'. rewrite H6' in H6.
  assert (H6'' : ¬ ∃ q, principals s !! q = Some id) by (intros [q Hq]; by apply (H6 q)).
  pose proof (account_issued s par) as H7. destruct (mint_account s par) as [[[next r]|]|];
    cbn [mbind outcome_bind]; [..|done].
  2: { split; [done|]. do 6 (apply first_refusal_next; [by cbn; auto; congruence|]). by apply first_refusal_here. }
  destruct H7 as [H7 Hi]. destruct (issued_facts _ _ _ _ _ Hi) as (-> & _ & _ & _ & Hdone).
  assert (H7' : ¬ (entity_level s par ≠ Some Node ∧ entity_level s par ≠ Some Account)) by tauto.
  assert (Hn : nth_in (account_ns par) (effective_frontier s (account_ns par) + 1) = Done (Ok next))
    by apply Hi.
  rewrite Hn. case_bool_decide as H8; cbn [negb].
  2: { split; [done|]. do 7 (apply first_refusal_next; [by cbn; auto; congruence|]).
       apply first_refusal_here. congruence. }
  subst next. destruct (push_m3_done stg _ Hdone) as (s1 & Hp1). rewrite Hp1. cbn [mbind outcome_bind].
  destruct (push_m3_done s1 (RegisterPrincipal (MkPrincipal np id))) as (s2 & Hp2); [by eexists|].
  rewrite Hp2. cbn [mbind outcome_bind].
  apply push_m3 in Hp1 as (at1 & Ha1 & Hr1 & _ & _). apply push_m3 in Hp2 as (at2 & Ha2 & Hr2 & _ & _).
  split; [done|]. split; [|split; [by rewrite Hr2, Hr1|split; [done|by eexists _, _, _]]].
  repeat (apply Forall_cons; split; [by cbn; auto; congruence|]). apply Forall_nil_2.
Qed.
End Closures.

(** ** The invariant is kept *)

(** What a step leaves as it found it, and what it may add. *)
Definition preserved (s s' : M3State) : Prop :=
  grown s s' ∧
  (∀ d b, publication s !! d = Some b → publication s' !! d = Some b) ∧
  (∀ p id, principals s !! p = Some id → principals s' !! p = Some id) ∧
  (∀ a q, minted_at s !! a = Some q → minted_at s' !! a = Some q) ∧
  (∀ k, (effective_frontier s k ≤ effective_frontier s' k)%N).

#[export] Instance preserved_preorder : PreOrder preserved.
Proof.
  split; [intros s; unfold preserved, grown; split_and!; auto; intros; lia|].
  intros s1 s2 s3 (G & P & Q & M & F) (G' & P' & Q' & M' & F'). split_and!.
  - intros b Hb. auto.
  - auto.
  - auto.
  - auto.
  - intros k. specialize (F k). specialize (F' k). lia.
Qed.

Lemma frontier_insert_le s key n k s' :
  frontiers s' = <[key := n]> (frontiers s) → (effective_frontier s key ≤ n)%N →
  (effective_frontier s k ≤ effective_frontier s' k)%N.
Proof.
  intros E Hn. unfold effective_frontier in *. rewrite E.
  destruct (decide (k = key)) as [->|Hne]; [rewrite lookup_insert_eq; cbn; lia|].
  by rewrite lookup_insert_ne.
Qed.

(** Every record of the journal, whatever its origin, takes nothing back. *)
Lemma apply_preserved s at_ r s' :
  match r with
  | Allocate al => level (al_addr al) ≠ Node
  | AllocateRange ra => ra_count ra ≠ 0%N ∧ level (ra_first ra) ≠ Node
  | _ => True
  end →
  apply_m3 s at_ r = Done s' → preserved s s'.
Proof.
  destruct r as [[a pub]|n|[p id]|[a count]]; cbn [al_addr ra_count ra_first]; intros Hr Hs.
  - pose proof (λ b, allocated_allocate s at_ a pub s' b Hr Hs) as Hal.
    apply apply_allocate in Hs as (key & Hk & Ho & ->). split_and!; cbn.
    + intros b Hb. apply Hal. by left.
    + intros d b Hd. case_bool_decide; [by apply insert_absent_keeps|done].
    + done.
    + intros b q Hq. destruct (_ || _); [by apply insert_absent_keeps|done].
    + intros k. eapply frontier_insert_le; [reflexivity|lia].
  - unfold apply_m3 in Hs. injection Hs as <-. split_and!; try done; try (intros k; apply N.le_refl).
    intros b. unfold is_allocated. destruct (level b); [|done..].
    rewrite !bool_decide_eq_true. cbn. set_solver.
  - unfold apply_m3 in Hs. injection Hs as <-. split_and!; try done; try (intros k; apply N.le_refl).
    { intros b Hb. exact Hb. }
    intros q id' Hq. cbn. by apply insert_absent_keeps.
  - destruct Hr as [Hc Hl]. pose proof (λ b, allocated_range s at_ a count s' b Hl Hc Hs) as Hal.
    apply apply_range in Hs as (key & Hk & Ho & ->); [|done]. split_and!; try done.
    + intros b Hb. apply Hal. by left.
    + intros k. eapply frontier_insert_le; [reflexivity|lia].
Qed.

Lemma issued_ok s key pub a r at_ s' :
  m3_ok s → family s key → (∀ b, namespace_of b = Some key → level b ≠ Account) →
  issued s key pub a r → apply_m3 s at_ r = Done s' → m3_ok s' ∧ preserved s s'.
Proof.
  intros Hok Hf Hl (-> & Hn & _) Hs. pose proof (namespace_of_nth _ _ _ Hn) as Hk.
  destruct (family_level s key a Hf Hk) as [Hnode _].
  split; [eapply allocate_ok; eauto|]. refine (apply_preserved _ _ _ _ _ Hs). exact Hnode.
Qed.

Lemma fold_one s at_ (r : M3Rec) : fold_world s at_ [r] = apply_m3 s at_ r.
Proof. reflexivity. Qed.

Lemma doc_chain_levels s h k b :
  is_registered_document s h = true →
  k = content_ns h ∨ k = link_ns h ∨ k = version_ns h → namespace_of b = Some k → level b ≠ Account.
Proof.
  intros [Hl _]%is_registered_document_ok [->|[->| ->]] Hb.
  - apply content_slot in Hb; [|done]. apply element_field_level in Hb. congruence.
  - apply link_slot in Hb; [|done]. apply element_field_level in Hb. congruence.
  - apply namespace_level in Hb. rewrite Hl in Hb. cbn in Hb. congruence.
Qed.

Lemma account_chain_levels s a b :
  is_registered_account s a = true → namespace_of b = Some (document_ns a) → level b ≠ Account.
Proof.
  intros [Hl _]%is_registered_account_ok Hb. apply namespace_level in Hb. rewrite Hl in Hb.
  cbn in Hb. congruence.
Qed.

(** A mint behind its gate, stepped. *)
Lemma mint_step s key pub gate e m a r at_ s' :
  m3_ok s → (gate = true → family s key) →
  (gate = true → ∀ b, namespace_of b = Some key → level b ≠ Account) →
  gate_or_issue gate e (issued s key pub) m → m = Done (Ok (a, r)) →
  apply_m3 s at_ r = Done s' → m3_ok s' ∧ preserved s s'.
Proof.
  intros Hok Hf Hl Hm -> Hs. destruct Hm as [Hg Hi]. eapply issued_ok; eauto.
Qed.

Lemma delegate_step s np par id at_ s' :
  m3_ok s → level np = Account → (∀ p, principals s !! p ≠ Some id) →
  entity_level s par = Some Node ∨ entity_level s par = Some Account →
  issued s (account_ns par) NO_PUBLICATION_STATE np (Allocate (MkAllocation np NO_PUBLICATION_STATE)) →
  fold_world s at_ [Allocate (MkAllocation np NO_PUBLICATION_STATE); RegisterPrincipal (MkPrincipal np id)]
    = Done s' →
  m3_ok s' ∧ preserved s s'.
Proof.
  intros Hok Hl Hid Hpar (_ & Hn & Hfree & _) Hs. unfold fold_world in Hs. cbn [foldl] in Hs.
  rewrite bind_Done in Hs.
  apply bind_inv in Hs as (s1 & Hs1 & Hs2).
  pose proof (namespace_of_nth _ _ _ Hn) as Hk. split.
  - eapply (seat_ok s _ np id _ at_ at_ s1 s'); [exact Hok| |exact Hk|exact Hl|exact Hid|exact Hfree|exact Hs1|exact Hs2].
    by apply fam_account.
  - transitivity s1; [refine (apply_preserved _ _ _ _ _ Hs1); cbn; congruence|].
    by refine (apply_preserved _ _ _ _ _ Hs2).
Qed.

Lemma m3_step_ok s s' : m3_ok s → m3_step s s' → m3_ok s' ∧ preserved s s'.
Proof.
  intros Hok Hstep.
  destruct Hstep as [h a r at_ s' Hm Hs|h count a r at_ s' Hm Hs|h a r at_ s' Hm Hs|d pub a r at_ s' Hm Hs
    |acct pub a r at_ s' Hm Hs|caller acct flag first a stg at_ s' Hm Hs
    |d t np par id first a stg at_ s' Hpre Hpar Hm Hs|t n first a stg at_ s' Hpre Hm Hs].
  - eapply (mint_step s _ _ _ _ _ _ _ _ _ Hok (fam_content s h)); [|apply gated_mint, fam_content|exact Hm|exact Hs].
    intros Hh b. eapply doc_chain_levels; eauto.
  - pose proof (content_range_issued s h count) as H. destruct (decide (count = 0%N)); [congruence|].
    rewrite Hm in H. destruct H as [Hh (-> & Hn & _)]. pose proof (namespace_of_nth _ _ _ Hn) as Hk.
    destruct (family_level s _ a (fam_content s h Hh) Hk) as [Hnode _].
    split; [by eapply range_ok|]. refine (apply_preserved _ _ _ _ _ Hs). done.
  - eapply (mint_step s _ _ _ _ _ _ _ _ _ Hok (fam_link s h)); [|apply gated_mint, fam_link|exact Hm|exact Hs].
    intros Hh b. eapply doc_chain_levels; eauto.
  - eapply (mint_step s _ _ _ _ _ _ _ _ _ Hok (fam_version s d)); [|apply gated_mint, fam_version|exact Hm|exact Hs].
    intros Hh b. eapply doc_chain_levels; eauto.
  - eapply (mint_step s _ _ _ _ _ _ _ _ _ Hok (fam_document s acct)); [|apply gated_mint, fam_document|exact Hm|exact Hs].
    intros Hh b. by eapply account_chain_levels.
  - pose proof (create_in_ok caller acct flag (MkCommitted 0%N s) first) as H. cbv zeta in H.
    change (m3 (c_world (MkCommitted 0%N s))) with s in H. rewrite Hm in H.
    destruct H as (_ & Hreg & Hi & Hrec & _). cbn in Hrec. rewrite Hrec, fold_one in Hs.
    eapply issued_ok; [exact Hok|by apply fam_document| |exact Hi|exact Hs].
    intros b. by eapply account_chain_levels.
  - pose proof (delegate_in_ok d par np id (MkCommitted 0%N s) first Hok) as H.
    rewrite Hm in H. destruct H as (_ & Hg & Hrec & Hi & _). cbn in Hrec. rewrite Hrec in Hs.
    unfold delegate_gates in Hg. rewrite !Forall_cons in Hg. destruct_and! Hg. cbn in *.
    eapply (delegate_step s np par id at_ s' Hok); [| | |exact Hi|exact Hs].
    + unfold delegate_prework in Hpre. destruct (validate t) as [x|]; [|done].
      case_bool_decide; [|done]. cbn in Hpre. destruct (_ <? _); [done|]. by injection Hpre as <-.
    + naive_solver.
    + destruct (entity_level s par) as [[]|]; naive_solver.
  - pose proof (register_node_in_ok n (MkCommitted 0%N s) first) as H. cbv zeta in H.
    change (m3 (c_world (MkCommitted 0%N s))) with s in H. rewrite Hm in H.
    destruct H as (_ & _ & Hr & Hrec & _). cbn in Hrec. rewrite Hrec, fold_one in Hs.
    unfold register_node_prework in Hpre. destruct (validate t) as [x|]; [|done].
    case_bool_decide as Hl; [|done]. cbn in Hpre. destruct (Nat.ltb_spec MAX_NODE_COMPONENTS (Tumbler_len (tumbler x))); [done|].
    injection Hpre as <-. split; [by eapply node_ok|]. by refine (apply_preserved _ _ _ _ _ Hs).
Qed.

(** ** Genesis *)

Lemma roots_principals p id :
  principals m3_roots !! p = Some id → p = bootstrap_root ∧ id = BOOTSTRAP_PRINCIPAL.
Proof. cbn. by intros [<- <-]%lookup_singleton_Some. Qed.

Lemma roots_ok : m3_ok m3_roots.
Proof.
  assert (Hnone : ∀ a, level a ≠ Node → is_allocated m3_roots a = false).
  { intros a Hl. rewrite is_allocated_chain by done. apply not_true_iff_false.
    intros (key & _ & _ & k & Hk & _)%is_chain_member_ok. cbn in Hk. by rewrite lookup_empty in Hk. }
  assert (Hroot : level bootstrap_root = Node) by reflexivity.
  constructor; cbn.
  - intros k m Hk. by rewrite lookup_empty in Hk.
  - intros d. rewrite lookup_empty, is_registered_document_ok. split; [by intros [? ?]|].
    intros [Hl Ha]. rewrite Hnone in Ha by congruence. done.
  - intros a. rewrite lookup_empty, is_registered_document_ok. split; [by intros [? ?]|].
    intros [[Hl Ha]|[Hl Ha]].
    + rewrite Hnone in Ha by congruence. done.
    + unfold is_link_slot in Hl. destruct (element_field a) eqn:He; [|done].
      apply element_field_level in He. rewrite Hnone in Ha by congruence. done.
  - intros p Hl. rewrite Hnone by congruence. split; [|done].
    intros [id [<- _]%lookup_singleton_Some]. congruence.
  - intros p id [<- _]%lookup_singleton_Some. by left.
  - intros p q id [<- _]%lookup_singleton_Some [<- _]%lookup_singleton_Some. done.
  - split; [apply lookup_singleton_eq|set_solver].
  - intros n ->%elem_of_singleton. split_and!; [done|apply is_prefix_spec; done|].
    unfold MAX_NODE_COMPONENTS. vm_compute. lia.
Qed.

Lemma fixed_key p g a :
  (g = NextField → level p ≠ Element) →
  comps (tumbler a) = comps (tumbler p) ++ gap g ++ [ordinal (tumbler a)] →
  namespace_of a = Some (MkNsKey (tumbler p) g).
Proof. intros Hg E. apply namespace_of_Some. split; [by exists p|]. exact E. Qed.

Lemma seed_document s d pub s' :
  m3_ok s → is_registered_account s system_account = true →
  level d = Document → namespace_of d = Some (document_ns system_account) →
  apply_m3 s 0 (Allocate (MkAllocation d pub)) = Done s' →
  m3_ok s' ∧ is_registered_account s' system_account = true.
Proof.
  intros Hok Hr Hl Hkd Hs. split.
  - eapply allocate_ok; [exact Hok|by apply fam_document|exact Hkd|congruence|exact Hs].
  - rewrite is_registered_account_ok in *. destruct Hr as [Hla Ha]. split; [done|].
    eapply allocated_allocate; [|exact Hs|by left]. congruence.
Qed.

Lemma m3_genesis_ok : m3_ok M3State_genesis.
Proof.
  assert (H : M3State_genesis_at = Done M3State_genesis) by apply total_spec.
  unfold M3State_genesis_at, fold_m3, m3_seed in H. cbn [foldl] in H. rewrite bind_Done in H.
  apply bind_inv in H as (s4 & H & Hs5). apply bind_inv in H as (s3 & H & Hs4).
  apply bind_inv in H as (s2 & H & Hs3). apply bind_inv in H as (s1 & Hs1 & Hs2).
  destruct (node_ok _ system_node 0 s1 roots_ok) as [Hok1 Hal1];
    [reflexivity|reflexivity|vm_compute; lia|exact Hs1|].
  assert (Hf : family s1 (account_ns system_node)).
  { apply fam_account. left. apply entity_level_Some. split_and!; [reflexivity|done|].
    apply Hal1. by right. }
  assert (Hk : namespace_of system_account = Some (account_ns system_node)).
  { apply fixed_key; [done|reflexivity]. }
  assert (Hp1 : principals s1 = principals m3_roots).
  { unfold apply_m3 in Hs1. injection Hs1 as <-. done. }
  assert (Hfree : is_allocated s1 system_account = false).
  { apply not_true_iff_false. intros [Ha|Heq]%Hal1; [|discriminate (f_equal level Heq)].
    destruct (inv_seat _ roots_ok system_account eq_refl) as [_ Hs].
    destruct (Hs Ha) as [id [Heq _]%roots_principals]. discriminate (f_equal level Heq). }
  assert (Hok3 : m3_ok s3).
  { apply (seat_ok s1 (account_ns system_node) system_account SYSTEM_PRINCIPAL
      NO_PUBLICATION_STATE 0 0 s2 s3 Hok1 Hf Hk eq_refl); [|exact Hfree|exact Hs2|exact Hs3].
    intros p. rewrite Hp1. intros [_ Heq]%roots_principals. discriminate Heq. }
  assert (Hreg : is_registered_account s3 system_account = true).
  { apply is_registered_account_ok. split; [reflexivity|]. apply (inv_seat s3 Hok3); [reflexivity|].
    unfold apply_m3 in Hs3. injection Hs3 as <-. cbn. apply insert_absent_is_Some. by right. }
  assert (Hkd : ∀ d, comps (tumbler d) = comps (tumbler system_account) ++ [0%N; ordinal (tumbler d)] →
    namespace_of d = Some (document_ns system_account)) by (intros d E; by apply fixed_key).
  destruct (seed_document _ _ _ _ Hok3 Hreg (eq_refl : level ghost_home_document = Document)
    (Hkd ghost_home_document eq_refl) Hs4) as [Hok4 Hreg4].
  by destruct (seed_document _ _ _ _ Hok4 Hreg4 (eq_refl : level head_document = Document)
    (Hkd head_document eq_refl) Hs5).
Qed.

Lemma reachable_ok s : reachable s → m3_ok s.
Proof.
  unfold reachable. intros H. assert (G := m3_genesis_ok). induction H as [|s s1 s2 Hst Hrt IH]; [done|].
  apply IH. by apply (m3_step_ok s s1).
Qed.

(** ** Parents *)

Lemma namespace_parent a key :
  namespace_of a = Some key → ∃ p, parent a = Some p ∧ tumbler p = ns_parent key.
Proof. unfold namespace_of. destruct (parent a) as [p|]; [|done]. intros [= <-]. by exists p. Qed.

(** The chain an allocated address sits on is some registered entity's. *)
Lemma allocated_family s a :
  m3_ok s → level a ≠ Node → is_allocated s a = true →
  ∃ key, namespace_of a = Some key ∧ family s key.
Proof.
  intros Hok Hl Ha. rewrite is_allocated_chain in Ha by done.
  apply is_chain_member_ok in Ha as (key & Hk & _ & m & Hm & _).
  exists key. split; [done|]. by eapply inv_family.
Qed.

Lemma parent_registered s a :
  m3_ok s → level a = Account ∨ level a = Document → is_allocated s a = true →
  ∃ p l, parent a = Some p ∧ entity_level s p = Some l.
Proof.
  intros Hok Hl Ha.
  destruct (allocated_family s a Hok ltac:(destruct Hl; congruence) Ha) as (key & Hk & Hf).
  destruct (namespace_parent a key Hk) as (p & Hp & Ht).
  assert (He : level a ≠ Element) by (destruct Hl; congruence).
  destruct Hf as [h Hh|h Hh|d Hd|x Hx|q Hq].
  - apply is_registered_document_ok in Hh as [Hlh _]. apply content_slot in Hk; [|done].
    by apply element_field_level in Hk.
  - apply is_registered_document_ok in Hh as [Hlh _]. apply link_slot in Hk; [|done].
    by apply element_field_level in Hk.
  - exists p, Document. split; [done|]. apply Address_eq in Ht as ->.
    apply is_registered_document_ok in Hd as [? ?]. by apply entity_level_Some.
  - exists p, Account. split; [done|]. apply Address_eq in Ht as ->.
    apply is_registered_account_ok in Hx as [? ?]. by apply entity_level_Some.
  - apply Address_eq in Ht as ->. destruct Hq as [Hq|Hq]; eauto.
Qed.

Lemma document_of_under d e s n :
  level d = Document → comps (tumbler e) = comps (tumbler d) ++ [0%N; s; n] → document_of e = Some d.
Proof.
  intros Hl E. pose proof (document_of_segs e) as De.
  assert (He : element_field e = Some [s; n]) by (apply element_pair_view; by exists d).
  pose proof (element_field_level _ _ He) as Hle.
  assert (Hsn : zero_free [s; n]).
  { rewrite element_field_segs in He. pose proof (segs_zero_free (comps (tumbler e))) as F.
    rewrite Forall_lookup in F. by apply (F 3). }
  destruct (document_of e) as [d'|]; [|rewrite Hle in De; cbn in De; lia].
  destruct De as (_ & _ & _ & Hs & _). f_equal. apply Address_eq, Tumbler_eq, segs_inj. rewrite Hs, E.
  destruct (Address_document_view d Hl) as (n' & u & f & Ed & Es & [Hn ?] & [Hu ?] & [Hf ?]).
  rewrite Es, Ed. repeat (rewrite <- app_assoc; cbn [app]).
  by rewrite !segs_app, segs_zf by done.
Qed.

Lemma element_home s e :
  m3_ok s → level e = Element → is_allocated s e = true →
  is_content_or_link_slot e = true ∧ ∃ d, document_of e = Some d ∧ is_registered_document s d = true.
Proof.
  intros Hok Hl Ha. destruct (allocated_family s e Hok ltac:(congruence) Ha) as (key & Hk & Hf).
  split; [by eapply family_level|].
  destruct Hf as [h Hh|h Hh|d Hd|x Hx|q Hq].
  - exists h. split; [|done]. apply namespace_of_Some in Hk as [_ E]. rewrite content_ns_slot in E.
    eapply document_of_under; [|exact E]. by apply is_registered_document_ok in Hh as [? _].
  - exists h. split; [|done]. apply namespace_of_Some in Hk as [_ E]. rewrite link_ns_slot in E.
    eapply document_of_under; [|exact E]. by apply is_registered_document_ok in Hh as [? _].
  - apply is_registered_document_ok in Hd as [Hd _]. apply namespace_level in Hk. rewrite Hd, Hl in Hk. done.
  - apply is_registered_account_ok in Hx as [Hx _]. apply namespace_level in Hk. rewrite Hx, Hl in Hk. done.
  - rewrite !entity_level_Some in Hq. apply namespace_level in Hk. rewrite generator_next in Hk; [congruence|].
    destruct Hq as [(-> & _)|(-> & _)]; auto.
Qed.

(** An address is registered with every entity above it, up to its account. *)
Lemma account_registered s a acct rest :
  m3_ok s → level a = Account ∨ level a = Document → is_allocated s a = true →
  level acct = Account → comps (tumbler a) = comps (tumbler acct) ++ rest →
  is_allocated s acct = true.
Proof.
  intros Hok. remember (Tumbler_len (tumbler a)) as n eqn:Hn. revert a rest Hn.
  induction (lt_wf n) as [n _ IH]. intros a rest -> Hl Ha Hacct E.
  destruct (decide (a = acct)) as [->|Hne]; [done|].
  destruct (parent_registered s a Hok Hl Ha) as (p & l & Hp & He).
  apply entity_level_Some in He as (Hlp & Hel & Hap).
  pose proof (parent_longest_raw a) as Hlong. rewrite Hp in Hlong.
  destruct Hlong as (Hpa & Hprefix & Hmax).
  assert (Hpre : is_prefix (tumbler acct) (tumbler p) = true).
  { apply Hmax; [apply is_t4_valid_ok, Address_ok|apply is_prefix_spec; rewrite E; by eexists|].
    intros Heq. apply Hne. by apply Address_eq. }
  apply is_prefix_spec in Hpre as [k Hk]. apply is_prefix_spec in Hprefix as [k' Hk'].
  assert (Hlen : Tumbler_len (tumbler p) < Tumbler_len (tumbler a)).
  { unfold Tumbler_len. rewrite Hk', length_app. destruct k'; [|cbn; lia].
    rewrite app_nil_r in Hk'. congruence. }
  eapply (IH _ Hlen p k eq_refl); [|done|done|done].
  pose proof (Address_level_separators p) as Hs. rewrite Hk, separators_count_app,
    Address_level_separators, Hacct in Hs. cbn in Hs.
  destruct (level p); cbn in Hs; [lia|by left|by right|congruence].
Qed.
