(* ===== verification/NsCalls.v ===== *)
(** * The namespace's operations, run as transactions of the kernel

    [create_new_document], [delegate] and [register_node] over any world that
    carries the slice: a call never panics on a reachable namespace, leaves a
    reachable one whatever the disk answers, refuses for the first gate of its
    pinned order that fails, and on success did exactly what it names. *)

From stdpp Require Import gmap.
From S2P Require Import Prelude Txns Tumblers Addresses AddrMaps Arith NsKeys NsState NsLaws NsOps NsInv.

#[local] Arguments apply_m3 : simpl never.
#[local] Arguments namespace_of : simpl never.
#[local] Arguments Nat.ltb : simpl never.

(** ** The seats past a delegation *)

Lemma covers_total p q a :
  prefix_contains p a = true → prefix_contains q a = true →
  prefix_contains p q = true ∨ Tumbler_len (tumbler q) < Tumbler_len (tumbler p).
Proof.
  unfold prefix_contains, Tumbler_len. rewrite !is_prefix_spec. intros Hp Hq.
  destruct (prefix_weak_total _ _ _ Hp Hq) as [|H]; [by left|].
  destruct (decide (length (comps (tumbler p)) ≤ length (comps (tumbler q)))) as [Hle|]; [left|right; lia].
  by rewrite (prefix_length_eq _ _ H Hle).
Qed.

Lemma omega_unique s a p id :
  covers_seat s a p id → (∀ q id', covers_seat s a q id' → q ≠ p → Tumbler_len (tumbler q) < Tumbler_len (tumbler p)) →
  omega s a = Some (p, id).
Proof.
  intros Hc Hmax. pose proof (omega_spec s a) as H. destruct (omega s a) as [[q idq]|]; [|by destruct (H p id)].
  destruct H as [Hq Hqmax]. destruct (decide (q = p)) as [->|Hne].
  - destruct Hc as [Hp _], Hq as [Hq _]. congruence.
  - specialize (Hmax q idq Hq Hne). specialize (Hqmax p id Hc ltac:(done)). lia.
Qed.

Lemma omega_ext s s' a :
  (∀ q id, covers_seat s' a q id ↔ covers_seat s a q id) → omega s' a = omega s a.
Proof.
  intros H. pose proof (omega_spec s a) as Ho. destruct (omega s a) as [[p id]|].
  - destruct Ho as [Hc Hmax]. apply omega_unique; [by apply H|]. intros q id' Hq. apply (Hmax q id'). by apply H.
  - pose proof (omega_spec s' a) as Ho'. destruct (omega s' a) as [[q id']|]; [|done].
    destruct Ho' as [Hq _]. apply H in Hq. by destruct (Ho q id').
Qed.

(** A seat taken at a prefix with no seat at or under it owns what it covers and
    nothing else. *)
Lemma omega_seated s s' np id a :
  principals s' = <[np := id]> (principals s) → principals s !! np = None → level np = Account →
  (¬ ∃ q id', principals s !! q = Some id' ∧ strictly_under np q) →
  omega s' a = if prefix_contains np a then Some (np, id) else omega s a.
Proof.
  intros Hp Hn Hl Hu. destruct (prefix_contains np a) eqn:Ha.
  - apply omega_unique; [split_and!; [by rewrite Hp, lookup_insert_eq|by right|done]|].
    intros q id' (Hq & _ & Hqa) Hne. rewrite Hp, lookup_insert_ne in Hq by done.
    destruct (covers_total np q a Ha Hqa) as [Hnq|]; [|done].
    destruct Hu. exists q, id'. split; [done|by split].
  - apply omega_ext. intros q id'. unfold covers_seat. rewrite Hp.
    destruct (decide (np = q)) as [<-|Hne]; [|by rewrite lookup_insert_ne].
    rewrite Ha. naive_solver.
Qed.

(** In a reachable state an allocated account never reaches [delegate]'s freshness gate. *)
Lemma delegate_fresh s d np :
  m3_ok s → level np = Account →
  (¬ ∀ q, principals s !! q = Some d → ¬ strictly_under q np) → effective_owner s np = Some d →
  is_allocated s np = false.
Proof.
  intros Hok Hl Hq Ho. apply not_true_iff_false. intros Ha. apply Hq. intros q Hqd [_ Hqne]. apply Hqne.
  apply (inv_seat s Hok) in Ha as [id0 Hid]; [|done].
  assert (Hw : omega s np = Some (np, id0)).
  { apply omega_unique; [split_and!; [done|by right|by apply is_prefix_spec]|].
    intros r id' (Hr & _ & Hrn) Hne. apply is_prefix_spec in Hrn as [k Hk]. unfold Tumbler_len.
    rewrite Hk, length_app. destruct k; [|cbn; lia]. rewrite app_nil_r in Hk.
    apply Tumbler_eq, Address_eq in Hk. congruence. }
  unfold effective_owner in Ho. rewrite Hw in Ho. injection Ho as ->.
  by eapply (inv_ids s Hok).
Qed.

(** ** Steps of the slice, from what a closure promises *)

#[local] Notation fresh s := (Staging_new (MkCommitted 0%N s) 0%N).

Lemma first_refusal_none {E} (gates : list (E * Prop)) e :
  Forall (λ g, ¬ g.2) gates → ¬ first_refusal gates e.
Proof. intros Hg (l & P & k & -> & HP & _). rewrite Forall_app, Forall_cons in Hg. tauto. Qed.

Lemma first_refusal_nil {E} (e : E) : first_refusal [] e ↔ False.
Proof. split; [|done]. intros (l & P & k & H & _). by destruct l. Qed.

Lemma first_refusal_cons {E} (x e : E) P k :
  first_refusal ((x, P) :: k) e ↔ (x = e ∧ P) ∨ (¬ P ∧ first_refusal k e).
Proof.
  split.
  - intros (l & Q & k' & H & HQ & Hl). destruct l as [|g l]; injection H as H1 H2.
    + left. by subst.
    + right. rewrite Forall_cons in Hl. destruct Hl as [Hg Hl]. subst. split; [exact Hg|]. by exists l, Q, k'.
  - intros [[-> HP]|[HP H]]; [by apply first_refusal_here|by apply first_refusal_next].
Qed.

Lemma issued_same s key pub a r b r' : issued s key pub a r → issued s key pub b r' → a = b.
Proof. intros (_ & Ha & _) (_ & Hb & _). congruence. Qed.

Definition document_bit (s : M3State) (account : Address) (flag : option bool) : bool :=
  match flag with Some b => b | None => negb (has_documents s account) end.

Lemma create_step s caller acct flag a r at_ s' :
  effective_owner s acct = Some caller → is_registered_account s acct = true →
  issued s (document_ns acct) (document_bit s acct flag) a r →
  fold_world s at_ [r] = Done s' → m3_step s s'.
Proof.
  intros Ho Hr Hi Hs. pose proof (create_in_ok caller acct flag (MkCommitted 0%N s) 0%N) as H.
  cbv zeta in H. change (m3 (c_world (MkCommitted 0%N s))) with s in H.
  destruct (create_new_document_in _ _ _ _) as [[[b|[|e]] stg]|] eqn:E; [| |destruct H as (_ & _ & _ & ?); congruence|done].
  - destruct H as (_ & _ & Hi' & Hrec & _). change (of_m3 ?x) with x in Hrec.
    eapply step_create; [exact E|]. rewrite Hrec. unfold document_bit in Hi.
    rewrite (issued_same _ _ _ _ _ _ _ Hi Hi') in Hi. destruct Hi as [-> _]. exact Hs.
  - destruct H as [_ H]. congruence.
Qed.

Lemma node_step s t n at_ s' :
  register_node_prework t = Ok n → entity_level s n = None → prefix_contains bootstrap_root n = true →
  fold_world s at_ [RegisterNode n] = Done s' → m3_step s s'.
Proof.
  intros Hpre Hn Hb Hs. pose proof (register_node_in_ok n (MkCommitted 0%N s) 0%N) as H.
  cbv zeta in H. change (m3 (c_world (MkCommitted 0%N s))) with s in H.
  destruct (register_node_in _ _) as [[[b|e] stg]|] eqn:E; [| |done].
  - destruct H as (_ & _ & _ & Hrec & _). eapply step_node; [exact Hpre|exact E|]. by rewrite Hrec.
  - destruct e; try done; destruct H as (_ & H); destruct H; congruence.
Qed.

Definition delegation (np : Address) (id : PrincipalId) : list M3Rec :=
  [Allocate (MkAllocation np NO_PUBLICATION_STATE); RegisterPrincipal (MkPrincipal np id)].

Lemma delegate_step_of s d t np par id at_ s' :
  m3_ok s → delegate_prework t = Ok np → parent np = Some par →
  Forall (λ g, ¬ g.2) (delegate_gates s d par np id) →
  fold_world s at_ (delegation np id) = Done s' → m3_step s s'.
Proof.
  intros Hok Hpre Hpar Hg Hs. pose proof (delegate_in_ok d par np id (MkCommitted 0%N s) 0%N Hok) as H.
  change (m3 (c_world (MkCommitted 0%N s))) with s in H.
  destruct (delegate_in _ _ _ _ _) as [[[b|e] stg]|] eqn:E; [| |done].
  - destruct H as (_ & _ & Hrec & _). eapply step_delegate; [exact Hpre|exact Hpar|exact E|].
    by rewrite Hrec.
  - destruct H as [_ H]. by apply first_refusal_none in H.
Qed.

Lemma delegate_prework_ok t np : delegate_prework t = Ok np → level np = Account ∧ tumbler np = t.
Proof.
  unfold delegate_prework. destruct (validate t) as [x|] eqn:Hv; [|done].
  case_bool_decide as Hl; [|done]. cbn [negb]. destruct (_ <? _); [done|]. intros [= <-].
  split; [done|]. by apply validate_Ok in Hv.
Qed.

Lemma account_parent a : level a = Account → ∃ p, parent a = Some p.
Proof.
  intros Hl. pose proof (parent_longest_raw a) as H. destruct (parent a) as [p|]; [by exists p|]. exfalso.
  destruct (account_view a) as (n & u & acct & rest & _ & _ & _ & Hc & E & _); [congruence|].
  unfold Tumbler_len in H. rewrite E, Hc, !length_app in H. cbn in H.
  assert (n ≠ []) as Hn; [|destruct n; [done|cbn in H; lia]].
  intros ->. pose proof (Address_ok a) as Ha. rewrite E, Hc in Ha. by destruct Ha as (_ & Hz & _).
Qed.

Lemma insert_absent_None {V} (k : Address) (v : V) m : m !! k = None → insert_absent k v m = <[k := v]> m.
Proof. intros H. unfold insert_absent. rewrite bool_decide_eq_false_2; [done|]. rewrite H. by intros [? ?]. Qed.

Lemma insert_absent_fresh {V} (k : Address) (v : V) m : m !! k = None → insert_absent k v m !! k = Some v.
Proof. intros H. rewrite insert_absent_None by done. apply lookup_insert_eq. Qed.

(** What a delegation leaves of the registry. *)
Lemma delegation_fold s np id at_ s' :
  m3_ok s → level np = Account → is_allocated s np = false →
  fold_world s at_ (delegation np id) = Done s' →
  principals s !! np = None ∧ principals s' = <[np := id]> (principals s) ∧
  is_allocated s' np = true ∧ publication s' = publication s.
Proof.
  intros Hok Hl Hf Hs. unfold fold_world, delegation in Hs. cbn [foldl] in Hs. rewrite bind_Done in Hs.
  apply bind_inv in Hs as (s1 & Hs1 & [= <-]).
  assert (Hn : principals s !! np = None).
  { apply eq_None_not_Some. rewrite (inv_seat s Hok) by done. congruence. }
  pose proof (λ b, allocated_allocate s at_ np _ s1 b ltac:(congruence) Hs1) as Hal.
  apply apply_allocate in Hs1 as (key & _ & _ & ->). cbn. rewrite Hl. cbn. split_and!; [done| | |done].
  - by apply insert_absent_None.
  - apply Hal. by right.
Qed.

(** What the allocation of a fresh document leaves of the registry. *)
Lemma document_fold s d bit at_ s' :
  m3_ok s → level d = Document → is_allocated s d = false →
  fold_world s at_ [Allocate (MkAllocation d bit)] = Done s' →
  is_registered_document s' d = true ∧ publication s' !! d = Some bit ∧
  minted_at s' !! d = Some at_ ∧ principals s' = principals s ∧
  (∀ b, is_allocated s' b = true ↔ is_allocated s b = true ∨ b = d).
Proof.
  intros Hok Hl Hf Hs. rewrite fold_one in Hs.
  pose proof (λ b, allocated_allocate s at_ d _ s' b ltac:(congruence) Hs) as Hal.
  assert (Hp : publication s !! d = None).
  { apply eq_None_not_Some. rewrite (inv_publication s Hok), is_registered_document_ok. intros [_ ?]. congruence. }
  assert (Hm : minted_at s !! d = None).
  { apply eq_None_not_Some. rewrite (inv_minted s Hok), is_registered_document_ok. intros [[_ H]|[_ H]]; congruence. }
  apply apply_allocate in Hs as (key & _ & _ & ->). split_and!.
  - apply is_registered_document_ok. split; [done|]. apply Hal. by right.
  - cbn. rewrite bool_decide_eq_true_2 by done. by apply insert_absent_fresh.
  - cbn. rewrite bool_decide_eq_true_2 by done. by apply insert_absent_fresh.
  - done.
  - exact Hal.
Qed.

Lemma register_node_prework_ok t n :
  register_node_prework t = Ok n → tumbler n = t ∧ level n = Node ∧ Tumbler_len t ≤ MAX_NODE_COMPONENTS.
Proof.
  unfold register_node_prework. destruct (validate t) as [x|] eqn:Hv; [|done].
  case_bool_decide as Hl; [|done]. cbn [negb].
  destruct (Nat.ltb_spec MAX_NODE_COMPONENTS (Tumbler_len (tumbler x))); [done|]. intros [= <-].
  apply validate_Ok in Hv as <-. by split_and!.
Qed.

Lemma prework_not_fresh t : delegate_prework t ≠ Err DNotFresh.
Proof.
  unfold delegate_prework. destruct (validate t) as [x|]; [|done].
  case_bool_decide; [|done]. cbn [negb]. by destruct (_ <? _).
Qed.

Lemma delegate_gates_passed s d par np id :
  Forall (λ g, ¬ g.2) (delegate_gates s d par np id) →
  is_allocated s np = false ∧ ¬ ∃ q id', principals s !! q = Some id' ∧ strictly_under np q.
Proof.
  unfold delegate_gates. rewrite !Forall_cons. cbn. intros (_ & _ & _ & Hu & Hf & _).
  split; [|done]. by apply not_true_iff_false.
Qed.

Lemma delegate_never_stale s d par np id :
  m3_ok s → level np = Account → ¬ first_refusal (delegate_gates s d par np id) DNotFresh.
Proof.
  intros Hok Hl. unfold delegate_gates. rewrite !first_refusal_cons, first_refusal_nil. cbn.
  intros [[? _]|(H1 & [[? _]|(H2 & [[? _]|(H3 & [[? _]|(_ & [[_ HP]|(_ & H)])])])])]; try done.
  2: naive_solver.
  rewrite (delegate_fresh s d np) in HP; [done|done|done|exact H2|by apply dec_stable].
Qed.

(** ** The closures, over a world that carries the slice *)

Section Calls.
Context {W R : Type} `{WS : WorldState W R} `{HM : !HasM3 W R}.
Context {Bytes : Type} (encode_record : R → Bytes).
#[local] Notation Staging := (Staging (W := W) (R := R)).
#[local] Notation Kernel := (Kernel (W := W) (Bytes := Bytes)).

Lemma fold_m3_world (w : W) at_ (rs : list M3Rec) :
  m3 <$> fold_world w at_ (of_m3 <$> rs) = fold_world (m3 w) at_ rs.
Proof using.
  revert w. induction rs as [|r rs IH]; intros w; [done|].
  rewrite fmap_cons, !fold_world_cons, <- m3_fold. destruct (apply w at_ (of_m3 r)) as [w'|]; [|done].
  cbn. apply IH.
Qed.

Lemma fold_m3_inv (w : W) at_ (rs : list M3Rec) w' :
  fold_world w at_ (of_m3 <$> rs) = Done w' → fold_world (m3 w) at_ rs = Done (m3 w').
Proof using. rewrite <- fold_m3_world. by intros ->. Qed.

Lemma fold_m3_total (w : W) at_ (rs : list M3Rec) s' :
  fold_world (m3 w) at_ rs = Done s' → ∃ w', fold_world w at_ (of_m3 <$> rs) = Done w'.
Proof using. rewrite <- fold_m3_world. destruct (fold_world w at_ _) as [w'|]; [by exists w'|done]. Qed.

Lemma pushes_one (stg stg' : Staging) r : push stg r = Done stg' → pushes stg stg'.
Proof using. intros H. eapply pushes_more; [apply pushes_none|exact H]. Qed.

Lemma create_closure caller account flag : closure (create_new_document_in caller account flag : Staging → _).
Proof using.
  intros stg r stg' H. unfold create_new_document_in in H.
  destruct (negb _); [injection H as <- <-; constructor|].
  apply bind_inv in H as ([[a rec]|e] & _ & H); [|injection H as <- <-; constructor].
  apply bind_inv in H as (s1 & Hp & [= <- <-]). by apply pushes_one in Hp.
Qed.

Lemma register_node_closure n : closure (register_node_in n : Staging → _).
Proof using.
  intros stg r stg' H. unfold register_node_in in H. case_bool_decide; [injection H as <- <-; constructor|].
  destruct (negb _); [injection H as <- <-; constructor|].
  apply bind_inv in H as (s1 & Hp & [= <- <-]). by apply pushes_one in Hp.
Qed.

Lemma delegate_closure d par np id : closure (delegate_in d par np id : Staging → _).
Proof using.
  intros stg r stg' H. unfold delegate_in in H.
  destruct (principal_prefix _ d) as [p|]; [|injection H as <- <-; constructor].
  repeat (destruct (negb _ || _) in H || destruct (negb (is_effective_owner _ _ _)) in H
    || destruct (has_principal_strictly_under _ _) in H || destruct (is_allocated _ _) in H;
    [injection H as <- <-; constructor|]).
  case_bool_decide; [injection H as <- <-; constructor|].
  apply bind_inv in H as ([[next rec]|] & _ & H); [|injection H as <- <-; constructor].
  destruct (negb _); [injection H as <- <-; constructor|].
  apply bind_inv in H as (s1 & Hp1 & H). apply bind_inv in H as (s2 & Hp2 & [= <- <-]).
  eapply pushes_more; [by apply pushes_one in Hp1|exact Hp2].
Qed.

(** *** Fixpoints of a call *)

(** A namespace closure as a whole call: what it needs of the closure to be total and
    to leave a reachable slice. *)
Lemma m3_call {T E} (k : Kernel) answer (f : Staging → outcome (result T E * Staging)) :
  closure f →
  (∀ first, ∃ r stg, f (Staging_new (k_root k) first) = Done (r, stg) ∧
     ∀ v, r = Ok v → ∃ rs, stg_records stg = of_m3 <$> rs ∧
       (∀ at_, ∃ s', fold_world (m3 (c_world (k_root k))) at_ rs = Done s') ∧
       (∀ at_ s', fold_world (m3 (c_world (k_root k))) at_ rs = Done s' →
          m3_step (m3 (c_world (k_root k))) s')) →
  ∃ k' e, transact encode_record k answer f = Done (k', e) ∧
    (reachable (m3 (c_world (k_root k))) → reachable (m3 (c_world (k_root k')))) ∧
    match e with
    | Returned (Ok (v, at_)) =>
        ∃ first stg, f (Staging_new (k_root k) first) = Done (Ok v, stg) ∧
          ∀ rs, stg_records stg = of_m3 <$> rs →
            fold_world (m3 (c_world (k_root k))) at_ rs = Done (m3 (c_world (k_root k')))
    | Returned (Err (Rejected er)) =>
        k' = k ∧ ∃ first stg, f (Staging_new (k_root k) first) = Done (Err er, stg)
    | _ => True
    end.
Proof using.
  intros Hf Hc. destruct (transact_done encode_record k answer f Hf) as (k' & e & Ht).
  { intros first. destruct (Hc first) as (r & stg & Hs & Hv). exists r, stg. split; [done|].
    intros v at_ Hr. destruct (Hv v Hr) as (rs & -> & Hd & _). destruct (Hd at_) as (s' & Hs').
    by eapply fold_m3_total. }
  exists k', e. split; [done|]. destruct (transact_inv encode_record k answer f k' e Hf Ht) as [Hr He].
  assert (Hok : ∀ v first stg, f (Staging_new (k_root k) first) = Done (Ok v, stg) →
    ∃ rs, stg_records stg = of_m3 <$> rs ∧ ∀ at_ s', fold_world (m3 (c_world (k_root k))) at_ rs = Done s' →
      m3_step (m3 (c_world (k_root k))) s').
  { intros v first stg Hs. destruct (Hc first) as (r' & stg' & Hs' & Hv). rewrite Hs in Hs'.
    injection Hs' as <- <-. destruct (Hv v eq_refl) as (rs & ? & _ & ?). by exists rs. }
  split.
  - intros Hreach. destruct Hr as [->|(v & first & stg & Hs & Hw)]; [done|].
    destruct (Hok v first stg Hs) as (rs & Hrs & Hst). rewrite Hrs in Hw. apply fold_m3_inv, Hst in Hw.
    unfold reachable in *. etransitivity; [exact Hreach|by apply rtc_once].
  - destruct e as [[[v at_]|[er| | | |]]|]; try done. destruct He as (first & stg & Hs & Hw).
    exists first, stg. split; [done|]. intros rs Hrs. rewrite Hrs in Hw. by apply fold_m3_inv.
Qed.

(** *** The three operations *)

Lemma create_call (k : Kernel) answer caller account flag :
  let s := m3 (c_world (k_root k)) in
  ∃ k' e, create_new_document encode_record k answer caller account flag = Done (k', e) ∧
    (reachable s → reachable (m3 (c_world (k_root k')))) ∧
    match e with
    | Returned (Ok (d, at_)) =>
        effective_owner s account = Some caller ∧ is_registered_account s account = true ∧
        issued s (document_ns account) (document_bit s account flag) d
          (Allocate (MkAllocation d (document_bit s account flag))) ∧
        fold_world s at_ [Allocate (MkAllocation d (document_bit s account flag))]
          = Done (m3 (c_world (k_root k')))
    | Returned (Err (Rejected NotOwner)) => k' = k ∧ effective_owner s account ≠ Some caller
    | Returned (Err (Rejected (Mint er))) =>
        k' = k ∧ effective_owner s account = Some caller ∧ er = NotAnAccount ∧
        is_registered_account s account = false
    | _ => True
    end.
Proof using.
  intros s. unfold create_new_document.
  pose proof (λ first, create_in_ok caller account flag (k_root k) first) as Hin. cbv zeta in Hin. fold s in Hin.
  destruct (m3_call k answer (create_new_document_in caller account flag)) as (k' & e & Ht & Hr & He).
  { apply create_closure. }
  { intros first. specialize (Hin first). destruct (create_new_document_in _ _ _ _) as [[r stg]|]; [|done].
    exists r, stg. split; [done|]. intros d ->. destruct Hin as (Ho & Ha & Hi & Hrec & _).
    exists [Allocate (MkAllocation d (document_bit s account flag))]. split; [exact Hrec|]. split.
    - intros at_. rewrite fold_one. by apply (issued_facts _ _ _ _ _ Hi).
    - intros at_ s'. by apply (create_step s caller account flag d). }
  exists k', e. split; [done|]. split; [done|]. destruct e as [[[d at_]|[er| | | |]]|]; try done.
  - destruct He as (first & stg & Hs & Hf). specialize (Hin first). rewrite Hs in Hin.
    destruct Hin as (Ho & Ha & Hi & Hrec & _). split_and!; [done|done|exact Hi|].
    apply Hf. exact Hrec.
  - destruct He as (-> & first & stg & Hs). specialize (Hin first). rewrite Hs in Hin.
    destruct er; destruct Hin as [_ Hin]; by split.
Qed.
Lemma delegate_call (k : Kernel) answer d t id :
  let s := m3 (c_world (k_root k)) in
  m3_ok s →
  ∃ k' e, delegate encode_record k answer d t id = Done (k', e) ∧
    (reachable s → reachable (m3 (c_world (k_root k')))) ∧
    match e with
    | Returned (Ok (np, at_)) =>
        ∃ par, delegate_prework t = Ok np ∧ parent np = Some par ∧
          Forall (λ g, ¬ g.2) (delegate_gates s d par np id) ∧
          fold_world s at_ (delegation np id) = Done (m3 (c_world (k_root k')))
    | Returned (Err (Rejected er)) =>
        k' = k ∧ (delegate_prework t = Err er ∨
          ∃ np par, delegate_prework t = Ok np ∧ parent np = Some par ∧
            first_refusal (delegate_gates s d par np id) er)
    | _ => True
    end.
Proof using.
  intros s Hok. unfold delegate. destruct (delegate_prework t) as [np|er] eqn:Hpre.
  2: { eexists _, _. split; [done|]. split; [done|]. split; [done|by left]. }
  destruct (account_parent np) as [par Hpar]; [by apply delegate_prework_ok in Hpre as [? _]|].
  rewrite Hpar. cbn [expect_some mbind outcome_bind].
  pose proof (λ first, delegate_in_ok d par np id (k_root k) first Hok) as Hin. fold s in Hin.
  destruct (m3_call k answer (delegate_in d par np id)) as (k' & e & Ht & Hr & He).
  { apply delegate_closure. }
  { intros first. specialize (Hin first). destruct (delegate_in _ _ _ _ _) as [[r stg]|]; [|done].
    exists r, stg. split; [done|]. intros a ->. destruct Hin as (-> & Hg & Hrec & Hi & _).
    exists (delegation np id). split; [exact Hrec|]. split.
    - intros at_. destruct (issued_facts _ _ _ _ _ Hi) as (_ & _ & _ & _ & Hd).
      destruct (Hd at_) as (s1 & Hs1). unfold delegation. rewrite fold_world_cons.
      fold s. change (apply s at_ ?r) with (apply_m3 s at_ r). rewrite Hs1. by eexists.
    - intros at_ s'. by apply (delegate_step_of s d t np par id). }
  exists k', e. split; [done|]. split; [done|]. destruct e as [[[a at_]|[er| | | |]]|]; try done.
  - destruct He as (first & stg & Hs & Hf). specialize (Hin first). rewrite Hs in Hin.
    destruct Hin as (-> & Hg & Hrec & _). exists par. split_and!; [done..|]. by apply Hf.
  - destruct He as (-> & first & stg & Hs). specialize (Hin first). rewrite Hs in Hin.
    split; [done|]. right. exists np, par. by destruct Hin as [_ ?].
Qed.

Lemma register_node_call (k : Kernel) answer t :
  let s := m3 (c_world (k_root k)) in
  ∃ k' e, register_node encode_record k answer t = Done (k', e) ∧
    (reachable s → reachable (m3 (c_world (k_root k')))) ∧
    match e with
    | Returned (Ok (n, at_)) =>
        register_node_prework t = Ok n ∧ entity_level s n = None ∧ prefix_contains bootstrap_root n = true ∧
        fold_world s at_ [RegisterNode n] = Done (m3 (c_world (k_root k')))
    | Returned (Err (Rejected er)) =>
        k' = k ∧ (register_node_prework t = Err er ∨
          ∃ n, register_node_prework t = Ok n ∧
            first_refusal [(RNotFresh, is_Some (entity_level s n));
              (NotDescendantOfBootstrap, prefix_contains bootstrap_root n = false)] er)
    | _ => True
    end.
Proof using.
  intros s. unfold register_node. destruct (register_node_prework t) as [n|er] eqn:Hpre.
  2: { eexists _, _. split; [done|]. split; [done|]. split; [done|by left]. }
  pose proof (λ first, register_node_in_ok n (k_root k) first) as Hin. cbv zeta in Hin. fold s in Hin.
  destruct (m3_call k answer (register_node_in n)) as (k' & e & Ht & Hr & He).
  { apply register_node_closure. }
  { intros first. specialize (Hin first). destruct (register_node_in _ _) as [[r stg]|]; [|done].
    exists r, stg. split; [done|]. intros a ->. destruct Hin as (-> & Hn & Hb & Hrec & _).
    exists [RegisterNode n]. split; [exact Hrec|]. split.
    - intros at_. by eexists.
    - intros at_ s'. by apply (node_step s t). }
  exists k', e. split; [done|]. split; [done|]. destruct e as [[[a at_]|[er| | | |]]|]; try done.
  - destruct He as (first & stg & Hs & Hf). specialize (Hin first). rewrite Hs in Hin.
    destruct Hin as (-> & Hn & Hb & Hrec & _). split_and!; [done..|]. by apply Hf.
  - destruct He as (-> & first & stg & Hs). specialize (Hin first). rewrite Hs in Hin.
    split; [done|]. right. exists n. split; [done|]. destruct er; try done.
    + apply first_refusal_here. apply Hin.
    + destruct Hin as (_ & Hn & Hb). apply first_refusal_next; [|by apply first_refusal_here].
      rewrite Hn. by intros [? ?].
Qed.

End Calls.

(** ** The claims *)

(** [create_new_document] on a reachable namespace never panics and leaves a
    reachable one whatever the disk answers. Acknowledged, its caller owned a
    registered account, and the new document is the next slot of that account's
    document chain: fresh before, registered after, born with the flag's publication
    bit (by default, private but for the account's first), its mint position the
    commit's own, no other address allocated and no seat moved. It refuses a caller
    who is not the effective owner, then an account that is not registered, and a
    refusal leaves the kernel as it was. *)
Theorem create_document_exact {W R Bytes : Type} `{WS : WorldState W R} `{HM : !HasM3 W R}
    (encode_record : R → Bytes) (k : Kernel (W := W) (Bytes := Bytes)) (answer : CommitAnswer)
    (caller : PrincipalId) (account : Address) (flag : option bool) :
  let s := m3 (c_world (k_root k)) in
  reachable s →
  ∃ k' e, create_new_document encode_record k answer caller account flag = Done (k', e) ∧
    let s' := m3 (c_world (k_root k')) in
    reachable s' ∧
    match e with
    | Returned (Ok (d, at_)) =>
        effective_owner s account = Some caller ∧ is_registered_account s account = true ∧
        nth_in (document_ns account) (effective_frontier s (document_ns account) + 1) = Done (Ok d) ∧
        is_allocated s d = false ∧ is_registered_document s' d = true ∧
        publication s' !! d = Some (document_bit s account flag) ∧
        minted_at s' !! d = Some at_ ∧ principals s' = principals s ∧
        ∀ b, is_allocated s' b = true ↔ is_allocated s b = true ∨ b = d
    | Returned (Err (Rejected NotOwner)) => k' = k ∧ effective_owner s account ≠ Some caller
    | Returned (Err (Rejected (Mint er))) =>
        k' = k ∧ effective_owner s account = Some caller ∧ er = NotAnAccount ∧
        is_registered_account s account = false
    | _ => True
    end.
Proof.
  intros s Hr. destruct (create_call encode_record k answer caller account flag) as (k' & e & Ht & Hreach & He).
  exists k', e. split; [exact Ht|]. split; [by apply Hreach|].
  destruct e as [[[d at_]|[er| | | |]]|]; try done.
  destruct He as (Ho & Ha & Hi & Hs). destruct (issued_facts _ _ _ _ _ Hi) as (_ & Hk & _ & Hf & _).
  assert (Hl : level d = Document).
  { apply namespace_level in Hk. apply is_registered_account_ok in Ha as [Ha _]. by rewrite Ha in Hk. }
  destruct (document_fold s d _ at_ _ (reachable_ok s Hr) Hl Hf Hs) as (? & ? & ? & ? & ?).
  destruct Hi as (_ & ? & _). by split_and!.
Qed.

(** C35. [delegate] on a reachable namespace never panics, leaves a reachable one, and
    answers by its pinned order: the pre-work's refusals on the candidate, then the
    first of its gates that fails, never the freshness gate, which the owner and
    ancestor gates before it imply. Acknowledged, the prefix is the next account slot
    under its parent, registered and seated for the new id; exactly the addresses it
    covers changed owner, and no publication bit moved. *)
Theorem delegate_exact {W R Bytes : Type} `{WS : WorldState W R} `{HM : !HasM3 W R}
    (encode_record : R → Bytes) (k : Kernel (W := W) (Bytes := Bytes)) (answer : CommitAnswer)
    (delegator : PrincipalId) (t : Tumbler) (new_id : PrincipalId) :
  let s := m3 (c_world (k_root k)) in
  reachable s →
  ∃ k' e, delegate encode_record k answer delegator t new_id = Done (k', e) ∧
    let s' := m3 (c_world (k_root k')) in
    reachable s' ∧
    match e with
    | Returned (Ok (np, _)) =>
        tumbler np = t ∧
        (∃ par, parent np = Some par ∧ Forall (λ g, ¬ g.2) (delegate_gates s delegator par np new_id)) ∧
        is_registered_account s' np = true ∧ principals s' = <[np := new_id]> (principals s) ∧
        publication s' = publication s ∧
        ∀ a, omega s' a = if prefix_contains np a then Some (np, new_id) else omega s a
    | Returned (Err (Rejected er)) =>
        k' = k ∧ er ≠ DNotFresh ∧
        (delegate_prework t = Err er ∨
          ∃ np par, delegate_prework t = Ok np ∧ parent np = Some par ∧
            first_refusal (delegate_gates s delegator par np new_id) er)
    | _ => True
    end.
Proof.
  intros s Hr. pose proof (reachable_ok s Hr) as Hok.
  destruct (delegate_call encode_record k answer delegator t new_id Hok) as (k' & e & Ht & Hreach & He).
  exists k', e. split; [exact Ht|]. split; [by apply Hreach|].
  destruct e as [[[np at_]|[er| | | |]]|]; try done.
  - destruct He as (par & Hpre & Hpar & Hg & Hf). destruct (delegate_prework_ok t np Hpre) as [Hl Htn].
    destruct (delegate_gates_passed _ _ _ _ _ Hg) as (Hfresh & Hunder).
    destruct (delegation_fold s np new_id at_ _ Hok Hl Hfresh Hf) as (Hn & Hp & Ha & Hpub).
    split_and!; [done|by exists par|by apply is_registered_account_ok|done|done|].
    intros a. by apply omega_seated.
  - destruct He as (-> & He). split_and!; [done| |done]. intros ->.
    destruct He as [He|(np & par & Hpre & Hpar & Hfr)]; [by apply prework_not_fresh in He|].
    destruct (delegate_prework_ok t np Hpre) as [Hl _].
    by apply (delegate_never_stale s delegator par np new_id Hok Hl).
Qed.

(** [register_node] on a reachable namespace never panics, leaves a reachable one,
    and admits exactly a fresh node address under the bootstrap root within the depth
    cap, refusing in its pinned order; acknowledged, it registers that node and
    touches nothing else. *)
Theorem register_node_exact {W R Bytes : Type} `{WS : WorldState W R} `{HM : !HasM3 W R}
    (encode_record : R → Bytes) (k : Kernel (W := W) (Bytes := Bytes)) (answer : CommitAnswer) (t : Tumbler) :
  let s := m3 (c_world (k_root k)) in
  reachable s →
  ∃ k' e, register_node encode_record k answer t = Done (k', e) ∧
    let s' := m3 (c_world (k_root k')) in
    reachable s' ∧
    match e with
    | Returned (Ok (n, _)) =>
        tumbler n = t ∧ level n = Node ∧ Tumbler_len t ≤ MAX_NODE_COMPONENTS ∧
        prefix_contains bootstrap_root n = true ∧ entity_level s n = None ∧
        s' = MkM3State (frontiers s) ({[n]} ∪ nodes s) (principals s) (publication s) (minted_at s)
    | Returned (Err (Rejected er)) =>
        k' = k ∧ (register_node_prework t = Err er ∨
          ∃ n, register_node_prework t = Ok n ∧
            first_refusal [(RNotFresh, is_Some (entity_level s n));
              (NotDescendantOfBootstrap, prefix_contains bootstrap_root n = false)] er)
    | _ => True
    end.
Proof.
  intros s Hr. destruct (register_node_call encode_record k answer t) as (k' & e & Ht & Hreach & He).
  exists k', e. split; [exact Ht|]. split; [by apply Hreach|].
  destruct e as [[[n at_]|[er| | | |]]|]; try done.
  destruct He as (Hpre & Hn & Hb & Hf). destruct (register_node_prework_ok t n Hpre) as (Htn & Hl & Hlen).
  split_and!; try done. rewrite fold_one in Hf. by injection Hf as <-.
Qed.

(** ** The claims at the genesis kernel *)

#[local] Notation genesis_kernel := (opened (Bytes := M3Rec) M3State_genesis Rollback).

(** What an acknowledged call answers, for a check by evaluation. *)
Definition answered {E} (c : outcome (Kernel (W := M3State) (Bytes := M3Rec) * CallEnd Address E))
    (cs : list Nat) (at_ : Seq) : bool :=
  match c with
  | Done (_, Returned (Ok (a, n))) => bool_decide (comps (tumbler a) = cs) && (n =? at_)%N
  | _ => false
  end.

Lemma create_document_exact_witness :
  answered (create_new_document id genesis_kernel Acked SYSTEM_PRINCIPAL system_account (Some true))
    [1; 1; 0; 1; 0; 3]%N 1 = true ∧
  ∃ k' e, create_new_document id genesis_kernel Acked SYSTEM_PRINCIPAL system_account (Some true) = Done (k', e) ∧
    reachable (c_world (k_root k')).
Proof.
  split; [vm_compute; reflexivity|].
  destruct (create_document_exact id genesis_kernel Acked SYSTEM_PRINCIPAL system_account (Some true))
    as (k' & e & Ht & Hr & _); [apply rtc_refl|].
  exists k', e. split; [exact Ht|exact Hr].
Defined.

Lemma delegate_exact_witness :
  answered (delegate id genesis_kernel Acked SYSTEM_PRINCIPAL (tumbler (adr [1; 1; 0; 1; 1]%N)) 7%N)
    [1; 1; 0; 1; 1]%N 2 = true ∧
  ∃ k' e, delegate id genesis_kernel Acked SYSTEM_PRINCIPAL (tumbler (adr [1; 1; 0; 1; 1]%N)) 7%N = Done (k', e) ∧
    reachable (c_world (k_root k')).
Proof.
  split; [vm_compute; reflexivity|].
  destruct (delegate_exact id genesis_kernel Acked SYSTEM_PRINCIPAL (tumbler (adr [1; 1; 0; 1; 1]%N)) 7%N)
    as (k' & e & Ht & Hr & _); [apply rtc_refl|].
  exists k', e. split; [exact Ht|exact Hr].
Defined.

Lemma register_node_exact_witness :
  answered (register_node id genesis_kernel Acked (tumbler (adr [1; 2]%N))) [1; 2]%N 1 = true ∧
  ∃ k' e, register_node id genesis_kernel Acked (tumbler (adr [1; 2]%N)) = Done (k', e) ∧
    reachable (c_world (k_root k')).
Proof.
  split; [vm_compute; reflexivity|].
  destruct (register_node_exact id genesis_kernel Acked (tumbler (adr [1; 2]%N)))
    as (k' & e & Ht & Hr & _); [apply rtc_refl|].
  exists k', e. split; [exact Ht|exact Hr].
Defined.

(** ** The gates of a query *)

(** A result that refuses by the first gate that holds, and passes when none does. *)
Definition judged {A E} (r : result A E) (gates : list (E * Prop)) (P : A → Prop) : Prop :=
  match r with
  | Ok a => Forall (λ g, ¬ g.2) gates ∧ P a
  | Err e => first_refusal gates e
  end.

Lemma judged_conseq {A E} (r : result A E) gates (P Q : A → Prop) :
  judged r gates P → (∀ a, P a → Q a) → judged r gates Q.
Proof. destruct r; [|done]. intros [? ?] HPQ. split; [done|by apply HPQ]. Qed.

Lemma judged_gate {A E} (b : bool) (e : E) (P : Prop) (r : result A E) gates Q :
  (b = true ↔ P) → (b = false → judged r gates Q) → judged (if b then Err e else r) ((e, P) :: gates) Q.
Proof.
  intros Hb Hr. destruct b.
  - apply first_refusal_here. by apply Hb.
  - specialize (Hr eq_refl). assert (Hn : ¬ P) by (intros HP; by apply Hb in HP). destruct r; cbn in *.
    + destruct Hr. split; [by constructor|done].
    + by apply first_refusal_next.
Qed.

Lemma judged_seq {A B E} (r : result A E) (f : A → result B E) g1 g2 P Q :
  judged r g1 P → (∀ a, P a → judged (f a) g2 Q) →
  judged (match r with Ok a => f a | Err e => Err e end) (g1 ++ g2) Q.
Proof.
  destruct r as [a|e]; cbn.
  - intros [Hg HP] Hf. specialize (Hf a HP). destruct (f a) as [b|e]; cbn in *.
    + destruct Hf. split; [by apply Forall_app|done].
    + destruct Hf as (l & R & k & -> & HR & Hl). exists (g1 ++ l), R, k.
      split_and!; [by rewrite app_assoc|done|by apply Forall_app].
  - intros (l & R & k & -> & HR & Hl) _. exists l, R, (k ++ g2). split_and!; [by rewrite <- app_assoc|done|done].
Qed.

Lemma judged_ok {A E} (a : A) (P : A → Prop) : P a → judged (Ok a : result A E) [] P.
Proof. intros HP. split; [constructor|done]. Qed.

(** Two fallible reads in a row. *)
Lemma judged_try {A B E} (m : outcome (result A E)) (f : A → outcome (result B E)) g1 g2 P Q :
  (∃ r, m = Done r ∧ judged r g1 P) → (∀ a, P a → ∃ r, f a = Done r ∧ judged r g2 Q) →
  ∃ r, try_bind m f = Done r ∧ judged r (g1 ++ g2) Q.
Proof.
  intros (r & -> & Hr) Hf. destruct r as [a|e]; cbn.
  - destruct Hr as [Hg HP]. destruct (Hf a HP) as (r & -> & Hr). exists r. split; [done|].
    by apply (judged_seq (Ok a) (λ _, r) g1 g2 P Q).
  - exists (Err e). split; [done|]. destruct Hr as (l & X & k & -> & HX & Hl). exists l, X, (k ++ g2).
    split_and!; [by rewrite <- app_assoc|done|done].
Qed.

Lemma judged_passed {A E} (r : result A E) gates (P : A → Prop) :
  judged r gates P → judged r gates (λ a, P a ∧ Forall (λ g, ¬ g.2) gates).
Proof. destruct r; [|done]. by intros [? ?]. Qed.

(** A step that refuses for one reason, by a condition of its own. *)
Lemma judged_one {A E} (r : result A E) e (P : Prop) Q :
  match r with Ok a => ¬ P ∧ Q a | Err e' => e' = e ∧ P end → judged r [(e, P)] Q.
Proof.
  destruct r as [a|e']; cbn; intros [H1 H2]; [split; [by repeat constructor|done]|]. subst. by apply first_refusal_here.
Qed.

(** The gates under other names, and by equivalent conditions. *)
Lemma judged_map_err {A E F} (r : result A E) (f : E → F) gates Q :
  judged r gates Q → judged (map_err f r) ((λ g, (f g.1, g.2)) <$> gates) Q.
Proof.
  destruct r as [a|e]; cbn.
  - intros [Hg HQ]. split; [|done]. by apply Forall_fmap.
  - intros (l & P & k & -> & HP & Hl). exists ((λ g, (f g.1, g.2)) <$> l), P, ((λ g, (f g.1, g.2)) <$> k).
    rewrite fmap_app. split_and!; [done|done|by apply Forall_fmap].
Qed.

Lemma judged_nil {A E} (r : result A E) (P : A → Prop) : judged r [] P → ∃ a, r = Ok a ∧ P a.
Proof. destruct r as [a|e]; [intros [_ ?]; by exists a|]. by intros []%first_refusal_nil. Qed.

(** A gate that does not hold. *)
Lemma judged_skip {A E} (r : result A E) e (P : Prop) gates Q : ¬ P → judged r gates Q → judged r ((e, P) :: gates) Q.
Proof.
  intros HP Hr. destruct r as [a|e']; cbn in *.
  - destruct Hr. split; [by constructor|done].
  - by apply first_refusal_next.
Qed.

(** One gate, by an equivalent condition. *)
Lemma judged_iff {A E} (r : result A E) e (P P' : Prop) Q : (P ↔ P') → judged r [(e, P)] Q → judged r [(e, P')] Q.
Proof.
  intros HP. destruct r as [a|e']; cbn.
  - rewrite !Forall_singleton. cbn. by rewrite HP.
  - rewrite !first_refusal_cons. by rewrite HP.
Qed.
