(* ===== verification/NsReach.v ===== *)
(** * What every reachable namespace state promises

    The namespace's contract, over the states its own transactions reach from
    genesis: where addresses stand, who owns them, what an operation admits, and
    that nothing granted is taken back. *)

From stdpp Require Import gmap.
From S2P Require Import Prelude Txns Tumblers Addresses AddrMaps Arith NsKeys NsState NsLaws NsOps NsInv NsCalls.

#[local] Arguments apply_m3 : simpl never.
#[local] Arguments namespace_of : simpl never.
#[local] Notation fresh s first := (Staging_new (MkCommitted 0%N s) first).

(** ** Chain ends *)

Lemma floor_zero p g : level p ≠ Element → ghost_floor (MkNsKey (tumbler p) g) = 0%N.
Proof.
  intros Hl. unfold ghost_floor, is_ghost_ns. case_bool_decide as E; [|done]. exfalso. apply Hl.
  destruct (element_key_ok ghost_home_document 1) as (q & Hq & Hlq); [discriminate|done|].
  assert (p = q) as ->; [|rewrite Hlq; reflexivity].
  apply Address_eq, Tumbler_eq. injection E as E _. by rewrite E, content_base_comps, Hq.
Qed.

(** The count of a chain off the element tier is its latest member's ordinal. *)
Lemma chain_count s p g m :
  level p ≠ Element → frontiers s !! MkNsKey (tumbler p) g = Some m → m ≠ 0%N →
  key_ok (MkNsKey (tumbler p) g) →
  ∃ d, nth_in (MkNsKey (tumbler p) g) m = Done (Ok d) ∧
    namespace_of d = Some (MkNsKey (tumbler p) g) ∧ is_chain_member s d = true ∧
    ∀ e, namespace_of e = Some (MkNsKey (tumbler p) g) → is_chain_member s e = true →
      (ordinal (tumbler e) ≤ ordinal (tumbler d))%N.
Proof.
  intros Hl Hm Hz Hk. destruct (nth_in_total _ m Hk Hz) as (d & Hd).
  pose proof (namespace_of_nth _ _ _ Hd) as Hkd. exists d. split_and!; [done|done| |].
  all: apply nth_in_Ok in Hd as (_ & _ & Ed); pose proof (slot_ordinal _ _ _ Ed) as Ho.
  - apply is_chain_member_ok. eexists. split; [done|]. unfold member_of. rewrite floor_zero by done.
    split; [lia|]. exists m. split; [done|lia].
  - intros e He (k & Hke & _ & m' & Hm' & Hle)%is_chain_member_ok. rewrite He in Hke. injection Hke as <-.
    rewrite Hm in Hm'. injection Hm' as <-. lia.
Qed.

Lemma chain_empty s p g e :
  match frontiers s !! MkNsKey (tumbler p) g with Some m => m = 0%N | None => True end →
  namespace_of e = Some (MkNsKey (tumbler p) g) → is_chain_member s e = false.
Proof.
  intros Hm He. apply not_true_iff_false. intros (k & Hke & _ & m & Hm' & Hle)%is_chain_member_ok.
  rewrite He in Hke. injection Hke as <-. rewrite Hm' in Hm. subst.
  pose proof (ordinal_nonzero e). lia.
Qed.

Lemma has_documents_ok s account :
  has_documents s account = true ↔
  level account = Account ∧
  ∃ d, namespace_of d = Some (document_ns account) ∧ is_registered_document s d = true.
Proof.
  unfold has_documents. rewrite andb_true_iff, bool_decide_eq_true.
  assert (Hlev : ∀ d, level account = Account → namespace_of d = Some (document_ns account) → level d = Document).
  { intros d Hl Hd. apply namespace_level in Hd. by rewrite Hl in Hd. }
  split; intros [Hl H]; (split; [done|]).
  - destruct (frontiers s !! document_ns account) as [m|] eqn:Hm; [|done].
    apply negb_true_iff in H. rewrite nat_is_zero_eqb in H. apply N.eqb_neq in H.
    destruct (chain_count s account NextField m) as (d & _ & Hd & Hc & _);
      [congruence|done|done|apply key_ok_next; congruence|].
    exists d. split; [done|]. pose proof (Hlev d Hl Hd) as Hld. apply is_registered_document_ok.
    split; [done|]. rewrite is_allocated_chain by congruence. done.
  - destruct H as (d & Hd & [Hld Ha]%is_registered_document_ok).
    rewrite is_allocated_chain in Ha by congruence.
    destruct (frontiers s !! document_ns account) as [m|] eqn:Hm.
    + apply negb_true_iff. rewrite nat_is_zero_eqb. apply N.eqb_neq. intros ->.
      rewrite (chain_empty s account NextField d) in Ha; [done| |done].
      change (MkNsKey (tumbler account) NextField) with (document_ns account). by rewrite Hm.
    + rewrite (chain_empty s account NextField d) in Ha; [done| |done].
      change (MkNsKey (tumbler account) NextField) with (document_ns account). by rewrite Hm.
Qed.

Lemma latest_version_ok s d :
  match latest_version s d with
  | Panicked => False
  | Done None => level d = Document → ∀ v, namespace_of v = Some (version_ns d) → is_registered_document s v = false
  | Done (Some v) =>
      level d = Document ∧ namespace_of v = Some (version_ns d) ∧ is_registered_document s v = true ∧
      ∀ w, namespace_of w = Some (version_ns d) → is_registered_document s w = true →
        (ordinal (tumbler w) ≤ ordinal (tumbler v))%N
  end.
Proof.
  unfold latest_version. case_bool_decide as Hl; cbn [negb]; [|done].
  assert (Hlev : ∀ v, namespace_of v = Some (version_ns d) → level v = Document).
  { intros v Hv. apply namespace_level in Hv. by rewrite Hl in Hv. }
  assert (Hreg : ∀ v, namespace_of v = Some (version_ns d) → is_registered_document s v = is_chain_member s v).
  { intros v Hv. apply eq_true_iff_eq. rewrite is_registered_document_ok, <- (is_allocated_chain s v)
      by (rewrite (Hlev v Hv); done). rewrite (Hlev v Hv). naive_solver. }
  destruct (frontiers s !! version_ns d) as [m|] eqn:Hm.
  2: { intros _ v Hv. rewrite (Hreg v Hv). apply (chain_empty s d SameField); [|done].
       change (MkNsKey (tumbler d) SameField) with (version_ns d). by rewrite Hm. }
  rewrite nat_is_zero_eqb. destruct (N.eqb_spec m 0) as [->|Hz].
  { intros _ v Hv. rewrite (Hreg v Hv). apply (chain_empty s d SameField); [|done].
    change (MkNsKey (tumbler d) SameField) with (version_ns d). by rewrite Hm. }
  destruct (chain_count s d SameField m) as (v & Hv & Hk & Hc & Hmax);
    [congruence|done|done|apply key_ok_same|].
  change (MkNsKey (tumbler d) SameField) with (version_ns d) in *. rewrite Hv. cbn.
  split_and!; [done|done|by rewrite Hreg|]. intros w Hw Hr. apply Hmax; [done|]. by rewrite <- Hreg.
Qed.

(** A ghost position is a content slot at or below the floor. *)
Lemma ghost_unallocated s n g : ghost_position_at n = Done g → is_allocated s g = false.
Proof.
  unfold ghost_position_at, assert. destruct ((1 <=? n)%N && (n <=? GHOST_POSITIONS)%N) eqn:Hn; [|done].
  cbn [mbind outcome_bind]. b2p.
  pose proof (elem_addr_cases (MkElemPos ghost_home_document content_subspace n)) as Hc.
  destruct (elem_addr _) as [a|e]; [|done]. cbn. intros [= <-]. destruct Hc as (_ & _ & _ & E). cbn in E.
  pose proof (content_slot_namespace ghost_home_document a n eq_refl E) as Hk.
  assert (Ho : ordinal (tumbler a) = n).
  { apply namespace_of_Some in Hk as [_ Hs]. rewrite content_ns_slot, E in Hs.
    cbn in Hs. congruence. }
  assert (Hl : level a = Element).
  { apply (element_field_level a [content_subspace; n]), element_pair_view.
    exists ghost_home_document. split; [reflexivity|exact E]. }
  rewrite is_allocated_chain by congruence. apply not_true_iff_false.
  intros (k & Hk' & Hf & _)%is_chain_member_ok. rewrite Hk in Hk'. injection Hk' as <-.
  unfold ghost_floor, is_ghost_ns in Hf. rewrite bool_decide_eq_true_2 in Hf by done. lia.
Qed.

(** ** The claims *)

(** C33. What holds of every reachable namespace state: a registered account or
    document has a registered parent (P8), an allocated element is a content or
    link slot of a registered document, no ghost position is ever allocated;
    publication bits are exactly the registered documents', mint positions exactly
    the documents' and links'; an account is seated iff it is allocated, every
    other seat is the root's, and an id is seated once. *)
Theorem reachable_laws (s : M3State) :
  reachable s →
  (∀ a, level a = Account ∨ level a = Document → is_allocated s a = true →
     ∃ p l, parent a = Some p ∧ entity_level s p = Some l) ∧
  (∀ e, level e = Element → is_allocated s e = true →
     is_content_or_link_slot e = true ∧ ∃ d, document_of e = Some d ∧ is_registered_document s d = true) ∧
  (∀ n g, ghost_position_at n = Done g → is_allocated s g = false) ∧
  (∀ d, is_Some (publication s !! d) ↔ is_registered_document s d = true) ∧
  (∀ a, is_Some (minted_at_of s a) ↔
     is_registered_document s a = true ∨ (is_link_slot a = true ∧ is_allocated s a = true)) ∧
  (∀ p, level p = Account → is_Some (principals s !! p) ↔ is_registered_account s p = true) ∧
  (∀ p id, principals s !! p = Some id → level p = Account ∨ p = bootstrap_root ∧ id = BOOTSTRAP_PRINCIPAL) ∧
  (∀ p id, principals s !! p = Some id → principal_prefix s id = Some p).
Proof.
  intros Hok%reachable_ok. split_and!.
  - intros a. by apply parent_registered.
  - intros e. by apply element_home.
  - intros n g Hg. by eapply ghost_unallocated.
  - apply (inv_publication s Hok).
  - apply (inv_minted s Hok).
  - intros p Hl. rewrite (inv_seat s Hok) by done. rewrite is_registered_account_ok. tauto.
  - intros p id Hp. destruct (inv_tier s Hok p id Hp) as [->|?]; [right|by left].
    split; [done|]. destruct (inv_root s Hok) as [Hr _]. congruence.
  - intros p id Hp. pose proof (principal_prefix_ok s id) as H.
    destruct (principal_prefix s id) as [q|]; [|by destruct (H p)].
    f_equal. by eapply (inv_ids s Hok).
Qed.

(** C34. Nothing granted is taken back, over any sequence of transactions: an
    allocated address, a document's publication bit, a seat and a mint position
    stand forever, frontiers never fall, and the later state keeps the invariant. *)
Theorem grants_permanent (s s' : M3State) :
  reachable s → rtc m3_step s s' →
  reachable s' ∧
  (∀ a, is_allocated s a = true → is_allocated s' a = true) ∧
  (∀ d, is_registered_document s d = true → published s' d = published s d) ∧
  (∀ p id, principals s !! p = Some id → principals s' !! p = Some id) ∧
  (∀ a q, minted_at_of s a = Some q → minted_at_of s' a = Some q) ∧
  (∀ k, (effective_frontier s k ≤ effective_frontier s' k)%N).
Proof.
  intros Hr Hs. assert (Hp : preserved s s').
  { clear -Hr Hs. pose proof (reachable_ok s Hr) as Hok. clear Hr.
    induction Hs as [|s s1 s2 Hst _ IH]; [reflexivity|].
    destruct (m3_step_ok s s1 Hok Hst) as [Hok1 Hp]. etransitivity; [exact Hp|by apply IH]. }
  destruct Hp as (G & P & Q & M & F). split_and!; try done.
  - unfold reachable in *. by transitivity s.
  - intros d Hd. apply (inv_publication s (reachable_ok s Hr)) in Hd as [b Hb].
    unfold published. by rewrite Hb, (P d b Hb).
Qed.

(** Ownership. ω is the longest seat of node or account tier that covers an
    address, so at most one id is its effective owner; a registered account or
    document of a reachable state is owned at its own account, which
    [account_seat] finds without a walk. *)
Theorem ownership_exact (s : M3State) (a : Address) :
  match omega s a with
  | Some (p, id) =>
      covers_seat s a p id ∧
      ∀ q id', covers_seat s a q id' → q ≠ p → Tumbler_len (tumbler q) < Tumbler_len (tumbler p)
  | None => ∀ p id, ¬ covers_seat s a p id
  end ∧
  (∀ id id', is_effective_owner s id a = true → is_effective_owner s id' a = true → id = id') ∧
  (∀ seat, account_seat s a = Some seat → omega s a = Some seat) ∧
  (reachable s → level a = Account ∨ level a = Document → is_allocated s a = true →
     ∃ acct id, account_seat s a = Some (acct, id) ∧ level acct = Account ∧
       prefix_contains acct a = true ∧ is_effective_owner s id a = true).
Proof.
  split_and!.
  - apply omega_spec.
  - unfold is_effective_owner. intros id id'. rewrite !bool_decide_eq_true. congruence.
  - intros [acct id] H. by apply account_seat_omega.
  - intros Hr Hl Ha. pose proof (reachable_ok s Hr) as Hok.
    assert (∃ acct id, account_seat s a = Some (acct, id) ∧ prefix_contains acct a = true)
      as (acct & id & Hs & Hp).
    { pose proof (account_seat_ok s a) as H.
      assert (∃ acct rest, level acct = Account ∧ comps (tumbler a) = comps (tumbler acct) ++ rest ∧
        account_seat_at s a = Done (pair acct <$> principals s !! acct)) as (acct & rest & Hla & E & Hs).
      { destruct Hl as [Hl|Hl]; rewrite Hl in H; destruct H as (acct & rest & ? & ? & _ & ?); eauto. }
      pose proof (account_registered s a acct rest Hok Hl Ha Hla E) as Hreg.
      apply (inv_seat s Hok) in Hreg as [id Hid]; [|done]. exists acct, id. split.
      - unfold account_seat. rewrite (total_Done _ _ _ Hs), Hid. done.
      - apply is_prefix_spec. rewrite E. by eexists. }
    destruct (account_seat_omega s a acct id Hs) as [Ho Hla]. exists acct, id. split_and!; try done.
    unfold is_effective_owner, effective_owner. by rewrite Ho, bool_decide_eq_true_2.
Qed.

(** Chain ends: an account has documents iff one is registered on its document
    chain, and a document's latest version is the greatest registered member of its
    version chain, [None] exactly when there is none. *)
Theorem chain_ends_exact (s : M3State) (a : Address) :
  (has_documents s a = true ↔
     level a = Account ∧
     ∃ d, namespace_of d = Some (document_ns a) ∧ is_registered_document s d = true) ∧
  match latest_version s a with
  | Panicked => False
  | Done None => level a = Document → ∀ v, namespace_of v = Some (version_ns a) → is_registered_document s v = false
  | Done (Some v) =>
      level a = Document ∧ namespace_of v = Some (version_ns a) ∧ is_registered_document s v = true ∧
      ∀ w, namespace_of w = Some (version_ns a) → is_registered_document s w = true →
        (ordinal (tumbler w) ≤ ordinal (tumbler v))%N
  end.
Proof. split; [apply has_documents_ok|apply latest_version_ok]. Qed.

(** ** The claims at the genesis state *)

Lemma reachable_laws_witness :
  reachable M3State_genesis ∧
  ∃ p l, parent head_document = Some p ∧ entity_level M3State_genesis p = Some l.
Proof.
  assert (Hr : reachable M3State_genesis) by apply rtc_refl. split; [exact Hr|].
  apply (reachable_laws M3State_genesis Hr); [right; reflexivity|vm_compute; reflexivity].
Defined.

(** A step from genesis, for the witness: a second node. *)
Lemma node_reached : ∃ s', rtc m3_step M3State_genesis s' ∧ s' ≠ M3State_genesis.
Proof.
  set (n := adr [1; 2]%N). set (g := M3State_genesis).
  exists (MkM3State (frontiers g) ({[n]} ∪ nodes g) (principals g) (publication g) (minted_at g)). split.
  - apply rtc_once, (node_step g (tumbler n) n 0); [|vm_compute; reflexivity..|reflexivity].
    unfold register_node_prework. rewrite validate_self. reflexivity.
  - intros E. assert (Hn : n ∈ nodes g) by (rewrite <- E; cbn; set_solver).
    assert (Hf : is_allocated g n = false) by (vm_compute; reflexivity).
    unfold is_allocated in Hf. change (level n) with Node in Hf. cbn [level] in Hf.
    by rewrite bool_decide_eq_true_2 in Hf.
Qed.

Lemma grants_permanent_witness :
  is_allocated M3State_genesis head_document = true ∧
  ∃ s', rtc m3_step M3State_genesis s' ∧ s' ≠ M3State_genesis ∧ is_allocated s' head_document = true.
Proof.
  split; [vm_compute; reflexivity|].
  destruct (node_reached) as (s' & Hs & Hne). exists s'. split; [exact Hs|]. split; [exact Hne|].
  apply (grants_permanent M3State_genesis s'); [apply rtc_refl|exact Hs|vm_compute; reflexivity].
Defined.

Lemma ownership_exact_witness :
  ∃ acct id, account_seat M3State_genesis head_document = Some (acct, id) ∧
    is_effective_owner M3State_genesis id head_document = true.
Proof.
  destruct (ownership_exact M3State_genesis head_document) as (_ & _ & _ & H).
  destruct H as (acct & id & Hs & _ & _ & Ho); [apply rtc_refl|right; reflexivity|vm_compute; reflexivity|].
  by exists acct, id.
Defined.
