(* ===== verification/Spans.v ===== *)
(** * Spans and the pairwise interval algebra

    Models [crates/skep-address/src/span.rs]: the sealed span value
    ([start], [width], with T12 as its invariant), construction from endpoints,
    the derived reach, the subtree span, the five-case classification, and the
    level-gated pairwise operations [intersect], [merge] and [split]
    ([difference] returns a span-set and is in SpanSets.v). *)

From stdpp Require Import countable.
From S2P Require Import Prelude Tumblers Addresses Arith.

(** [error.rs]: the rejection shared by the span and span-set algebra. *)
Inductive LevelMismatch := LevelMismatch_.

Inductive T12Clause := ZeroWidth | ActionPointTooDeep.

Inductive WfError := NotIncreasing | WfLevelMismatch.

#[export] Instance LevelMismatch_eq_dec : EqDecision LevelMismatch.
Proof. solve_decision. Defined.

(** [struct Span]: private fields; T12 is the domain of [⊕] at the pair. *)
Record Span := MkSpan {
  start : Tumbler;
  width : Tumbler;
  T12 : is_ok (add_domain start width) = true
}.

(** [match add_domain(..) { Ok(_) => .., Err(..) => .. }] *)
Definition Span_admit (s w : Tumbler) (d : result Pos AddDomainClause) :
    is_ok (add_domain s w) = is_ok d → result Span T12Clause :=
  match d with
  | Ok _ => λ H, Ok (MkSpan s w H)
  | Err ZeroDisplacement => λ _, Err ZeroWidth
  | Err AddActionPointTooDeep => λ _, Err ActionPointTooDeep
  end.

Definition Span_new (s w : Tumbler) : result Span T12Clause :=
  Span_admit s w (add_domain s w) eq_refl.

(** [TryFrom<(Tumbler, Tumbler)>] and [From<Span>]: the serde shadow pair. *)
Definition Span_try_from (p : Tumbler * Tumbler) : result Span T12Clause := Span_new p.1 p.2.
Definition Span_into (s : Span) : Tumbler * Tumbler := (start s, width s).

Lemma Span_eq a b : start a = start b → width a = width b → a = b.
Proof.
  destruct a as [s w H], b as [s' w' H']. cbn. intros <- <-. f_equal. apply bool_eq_pi.
Qed.

#[export] Instance Span_eq_dec : EqDecision Span.
Proof.
  intros a b. destruct (decide (Span_into a = Span_into b)) as [H|H].
  - left. unfold Span_into in H. injection H. intros. by apply Span_eq.
  - right. by intros ->.
Defined.

Lemma Span_new_Ok s w sp : Span_new s w = Ok sp ↔ start sp = s ∧ width sp = w.
Proof.
  unfold Span_new.
  assert (Hg : ∀ d H, Span_admit s w d H = Ok sp → start sp = s ∧ width sp = w).
  { intros [k|[]] H; cbn; [by intros [= <-]|done..]. }
  split; [apply Hg|]. intros [<- <-].
  assert (Hs : ∀ d H, is_ok d = true → Span_admit (start sp) (width sp) d H = Ok sp).
  { intros [k|e] H Hd; [|done]. cbn. f_equal. by apply Span_eq. }
  apply Hs, T12.
Qed.

Lemma Span_new_Err s w e :
  Span_new s w = Err e ↔
  match e with
  | ZeroWidth => add_domain s w = Err ZeroDisplacement
  | ActionPointTooDeep => add_domain s w = Err AddActionPointTooDeep
  end.
Proof.
  unfold Span_new.
  assert (Hg : ∀ d H, d = add_domain s w → Span_admit s w d H = Err e ↔
    match e with
    | ZeroWidth => add_domain s w = Err ZeroDisplacement
    | ActionPointTooDeep => add_domain s w = Err AddActionPointTooDeep
    end).
  { intros [k|[]] H <-; cbn; destruct e; naive_solver. }
  by apply Hg.
Qed.

#[export] Program Instance Span_countable : Countable Span :=
  inj_countable Span_into (λ p, match Span_try_from p with Ok s => Some s | Err _ => None end) _.
Next Obligation.
  intros s. unfold Span_try_from, Span_into. cbn.
  by rewrite (proj2 (Span_new_Ok (start s) (width s) s)).
Qed.

Definition Span_from_endpoints (s r : Tumbler) : outcome (result Span WfError) :=
  if negb (Tumbler_len s =? Tumbler_len r) then Done (Err WfLevelMismatch)
  else if r ≤?ₜ s then Done (Err NotIncreasing)
  else
    d ← sub r s;
    w ← expect_ok d;
    sp ← expect_ok (Span_new s w);
    Done (Ok sp).

(** [add(..).expect("T12 ⇒ ⊕ precondition holds")] *)
Definition reach_at (s : Span) : outcome Tumbler := r ← add (start s) (width s); expect_ok r.

Lemma reach_done s : is_done (reach_at s) = true.
Proof.
  unfold reach_at. destruct (add_domain (start s) (width s)) as [k|] eqn:E.
  - destruct (add_domain_view _ _ k E) as (p & y & r & x & ws & Ha & _ & Hw & Hx).
    destruct (add_app _ _ (length p) p y r x ws Ha eq_refl Hw Hx) as (t & -> & _). done.
  - pose proof (T12 s) as H. by rewrite E in H.
Qed.

Definition reach (s : Span) : Tumbler := total (reach_at s) (reach_done s).

Definition contains (s : Span) (t : Tumbler) : bool := (start s ≤?ₜ t) && (t <?ₜ reach s).

Definition is_level_uniform (s : Span) : bool := Tumbler_len (start s) =? Tumbler_len (width s).

(** [struct Endpoints]: a span in its derived [(start, reach)] form. *)
Record Endpoints := MkEndpoints { e_start : Tumbler; e_reach : Tumbler }.

Definition Endpoints_of (s : Span) : Endpoints := MkEndpoints (start s) (reach s).

Definition into_span (e : Endpoints) : outcome (result Span WfError) :=
  Span_from_endpoints (e_start e) (e_reach e).

Definition subtree_of_at (p : Tumbler) : outcome Span :=
  r ← Span_from_endpoints p (next_at_length p); expect_ok r.

(** ** Classification *)

Inductive SpanRel := Separated | Adjacent | ProperOverlap | Containment | Equal.

Inductive OrientedRel :=
  | OSeparated | OAdjacent | OEqual | AContainsB | BContainsA | OverlapAFirst | OverlapBFirst.

Definition relate (a b : Endpoints) : OrientedRel :=
  let max_start := tmax (e_start a) (e_start b) in
  let min_reach := tmin (e_reach a) (e_reach b) in
  if min_reach <?ₜ max_start then OSeparated
  else if bool_decide (max_start = min_reach) then OAdjacent
  else if bool_decide (e_start a = e_start b) && bool_decide (e_reach a = e_reach b) then OEqual
  else if (e_start a ≤?ₜ e_start b) && (e_reach b ≤?ₜ e_reach a) then AContainsB
  else if (e_start b ≤?ₜ e_start a) && (e_reach a ≤?ₜ e_reach b) then BContainsA
  else if e_start a <?ₜ e_start b then OverlapAFirst
  else OverlapBFirst.

Definition separated (a b : Endpoints) : bool :=
  tmin (e_reach a) (e_reach b) <?ₜ tmax (e_start a) (e_start b).

(** [(start < reach).then(|| Span::from_endpoints(..).expect(..))] *)
Definition intersection (a b : Endpoints) : outcome (option Span) :=
  let s := tmax (e_start a) (e_start b) in
  let r := tmin (e_reach a) (e_reach b) in
  if s <?ₜ r then
    d ← Span_from_endpoints s r;
    sp ← expect_ok d;
    Done (Some sp)
  else Done None.

Definition classify_spans (a b : Span) : SpanRel :=
  match relate (Endpoints_of a) (Endpoints_of b) with
  | OSeparated => Separated
  | OAdjacent => Adjacent
  | OEqual => Equal
  | AContainsB | BContainsA => Containment
  | OverlapAFirst | OverlapBFirst => ProperOverlap
  end.

(** ** The gated pairwise operations *)

Definition gated_endpoints (a b : Span) : result (Endpoints * Endpoints) LevelMismatch :=
  if is_level_uniform a && is_level_uniform b &&
     (Tumbler_len (start a) =? Tumbler_len (start b))
  then Ok (Endpoints_of a, Endpoints_of b)
  else Err LevelMismatch_.

Definition intersect (a b : Span) : outcome (result (option Span) LevelMismatch) :=
  '(ea, eb) ←? Done (gated_endpoints a b);
  o ← intersection ea eb;
  Done (Ok o).

Definition merge (a b : Span) : outcome (result (option Span) LevelMismatch) :=
  '(ea, eb) ←? Done (gated_endpoints a b);
  if separated ea eb then Done (Ok None)
  else
    let s := tmin (e_start ea) (e_start eb) in
    let r := tmax (e_reach ea) (e_reach eb) in
    d ← Span_from_endpoints s r;
    sp ← expect_ok d;
    Done (Ok (Some sp)).

Inductive SplitError := NotInterior | SplitLevelMismatch.

Definition split (s : Span) (p : Tumbler) : outcome (result (Span * Span) SplitError) :=
  if negb (is_level_uniform s) || negb (Tumbler_len (start s) =? Tumbler_len p)
  then Done (Err SplitLevelMismatch)
  else
    let r := reach s in
    if negb ((start s <?ₜ p) && (p <?ₜ r)) then Done (Err NotInterior)
    else
      l ← Span_from_endpoints (start s) p;
      left ← expect_ok l;
      d ← Span_from_endpoints p r;
      right ← expect_ok d;
      Done (Ok (left, right)).

(** ** Construction from endpoints *)

Lemma reach_add s : add (start s) (width s) = Done (Ok (reach s)).
Proof.
  pose proof (total_spec _ (reach_done s)) as H. fold (reach s) in H. revert H.
  unfold reach_at. destruct (add (start s) (width s)) as [[r|e]|]; cbn; [|done..].
  by intros [= ->].
Qed.

Lemma start_lt_reach s : start s <ₜ reach s.
Proof. eapply add_lt, reach_add. Qed.

Lemma reach_len s : Tumbler_len (reach s) = Tumbler_len (width s).
Proof. eapply add_len, reach_add. Qed.

Lemma level_uniform_spec s :
  is_level_uniform s = true ↔ Tumbler_len (start s) = Tumbler_len (width s).
Proof. apply Nat.eqb_eq. Qed.

Lemma uniform_reach_len s :
  is_level_uniform s = true → Tumbler_len (reach s) = Tumbler_len (start s).
Proof. rewrite level_uniform_spec, reach_len. done. Qed.

Lemma from_endpoints_ok s r :
  Tumbler_len s = Tumbler_len r → s <ₜ r →
  ∃ sp, Span_from_endpoints s r = Done (Ok sp) ∧ start sp = s ∧ reach sp = r ∧
    is_level_uniform sp = true.
Proof.
  intros Hlen Hlt. unfold Span_from_endpoints.
  rewrite (proj2 (Nat.eqb_eq _ _) Hlen). cbn [negb].
  destruct (leb_spec r s) as [?|_]; [torder|].
  destruct (list_cmp_same_len_lt_inv _ _ Hlen Hlt) as (p & x & y & ra & rb & Hs & Hr & Hxy & Hl).
  destruct (sub_app s r p x y ra rb Hs Hr Hxy ltac:(lia)) as (w & Hw & Hc).
  rewrite Hw. cbn.
  destruct (add_app s w (length p) p x ra (y - x)%N rb Hs eq_refl Hc ltac:(lia)) as (t & Ht & Htc).
  assert (Hdom : is_ok (add_domain s w) = true).
  { destruct (add_domain s w) as [k|e] eqn:E; [done|]. by rewrite (add_Err s w e E) in Ht. }
  pose proof (proj2 (Span_new_Ok s w (MkSpan s w Hdom)) (conj eq_refl eq_refl)) as ->. cbn.
  eexists. split; [reflexivity|]. split_and!; [done| |].
  - unfold reach. apply total_Done. unfold reach_at. cbn. rewrite Ht. cbn. f_equal.
    apply Tumbler_eq. rewrite Htc, Hr. do 2 f_equal. lia.
  - apply Nat.eqb_eq. cbn. unfold Tumbler_len in *. rewrite Hs, Hc, !length_app, length_replicate.
    cbn. lia.
Qed.

(** A level-uniform span is its two endpoints. *)
Lemma uniform_span_eq a b :
  is_level_uniform a = true → is_level_uniform b = true →
  start a = start b → reach a = reach b → a = b.
Proof.
  intros Ha Hb Hs Hr. apply Span_eq; [done|].
  pose proof (reach_add a) as Ra. pose proof (reach_add b) as Rb.
  rewrite <- Hs, <- Hr in Rb.
  assert (Hlen : Tumbler_len (start a) ≤ Tumbler_len (reach a)) by (rewrite uniform_reach_len; done).
  pose proof (proj2 (displacement_at_Some _ _ _) (conj Hlen Ra)) as Da.
  pose proof (proj2 (displacement_at_Some _ _ _) (conj Hlen Rb)) as Db. congruence.
Qed.

Lemma from_endpoints_cases s r :
  match Span_from_endpoints s r with
  | Panicked => False
  | Done (Err WfLevelMismatch) => Tumbler_len s ≠ Tumbler_len r
  | Done (Err NotIncreasing) => Tumbler_len s = Tumbler_len r ∧ r ≤ₜ s
  | Done (Ok sp) => start sp = s ∧ reach sp = r ∧ is_level_uniform sp = true
  end.
Proof.
  destruct (decide (Tumbler_len s = Tumbler_len r)) as [Hlen|Hlen].
  - destruct (leb_spec r s) as [Hle|Hlt].
    + unfold Span_from_endpoints. rewrite (proj2 (Nat.eqb_eq _ _) Hlen). cbn.
      by rewrite (proj2 (leb_le r s) Hle).
    + destruct (from_endpoints_ok s r Hlen Hlt) as (sp & -> & ?). done.
  - unfold Span_from_endpoints. by rewrite (proj2 (Nat.eqb_neq _ _) Hlen).
Qed.

Lemma from_endpoints_self s :
  is_level_uniform s = true → Span_from_endpoints (start s) (reach s) = Done (Ok s).
Proof.
  intros Hu. destruct (from_endpoints_ok (start s) (reach s)) as (sp & -> & Hs & Hr & Hsu).
  - by rewrite uniform_reach_len.
  - apply start_lt_reach.
  - do 2 f_equal. by apply uniform_span_eq.
Qed.

Lemma subtree_of_done p : is_done (subtree_of_at p) = true.
Proof.
  unfold subtree_of_at.
  destruct (from_endpoints_ok p (next_at_length p)) as (sp & -> & _); [|apply next_lt|done].
  by rewrite next_len.
Qed.

Definition subtree_of (p : Tumbler) : Span := total (subtree_of_at p) (subtree_of_done p).

Lemma subtree_of_spec p :
  start (subtree_of p) = p ∧ reach (subtree_of p) = next_at_length p ∧
  is_level_uniform (subtree_of p) = true.
Proof.
  destruct (from_endpoints_ok p (next_at_length p)) as (sp & H & Hs); [by rewrite next_len|apply next_lt|].
  assert (subtree_of p = sp) as ->; [|done].
  apply total_Done. unfold subtree_of_at. by rewrite H.
Qed.

Lemma contains_spec s t : contains s t = true ↔ start s ≤ₜ t ∧ t <ₜ reach s.
Proof. unfold contains. by rewrite andb_true_iff, leb_le, ltb_lt. Qed.

Lemma contains_false s t : contains s t = false ↔ t <ₜ start s ∨ reach s ≤ₜ t.
Proof. unfold contains. by rewrite andb_false_iff, leb_gt, ltb_ge. Qed.

Lemma contains_start s : contains s (start s) = true.
Proof. apply contains_spec. pose proof (start_lt_reach s). split; torder. Qed.

Lemma subtree_contains p t : contains (subtree_of p) t = is_prefix p t.
Proof.
  destruct (subtree_of_spec p) as (Hs & Hr & _).
  apply eq_true_iff_eq. rewrite contains_spec, is_prefix_spec, Hs, Hr. split.
  - intros [? ?]. by apply next_between.
  - intros Hp. split; [by apply prefix_le|].
    destruct Hp as [k Hk]. destruct (comps_snoc p) as (q & x & E). unfold Tlt, cmp.
    rewrite Hk, E. unfold next_at_length. rewrite (shift_app p 1 q x E), <- app_assoc. cbn.
    apply list_cmp_app_lt. lia.
Qed.

(** Inclusion of denotations is inclusion of endpoint pairs. *)
Lemma span_incl_iff a b :
  (∀ t, contains a t = true → contains b t = true) ↔
  start b ≤ₜ start a ∧ reach a ≤ₜ reach b.
Proof.
  split.
  - intros H. pose proof (H (start a) (contains_start a)) as [Hs Hs']%contains_spec.
    split; [done|]. destruct (leb_spec (reach a) (reach b)) as [|Hlt]; [done|].
    assert (contains a (reach b) = true) as [_ Hb]%H%contains_spec; [|torder].
    apply contains_spec. split; torder.
  - intros [Hs Hr] t [? ?]%contains_spec. apply contains_spec. split; torder.
Qed.

(** ** The claims *)

(** WF: [from_endpoints] refuses a length mismatch first, then
    non-increasing endpoints, never panics, and otherwise builds the
    level-uniform span with exactly these endpoints; and a level-uniform span is
    rebuilt from its own endpoints. *)
Theorem from_endpoints_spec (s r : Tumbler) (sp : Span) :
  match Span_from_endpoints s r with
  | Panicked => False
  | Done (Err WfLevelMismatch) => Tumbler_len s ≠ Tumbler_len r
  | Done (Err NotIncreasing) => Tumbler_len s = Tumbler_len r ∧ r ≤ₜ s
  | Done (Ok sp) => start sp = s ∧ reach sp = r ∧ is_level_uniform sp = true
  end ∧
  (is_level_uniform sp = true → Span_from_endpoints (start sp) (reach sp) = Done (Ok sp)).
Proof. split; [apply from_endpoints_cases|apply from_endpoints_self]. Qed.

(** T5: the subtree span of [p] denotes exactly the extensions of [p], for
    any carrier prefix. *)
Theorem subtree_of_exact (p t : Tumbler) :
  contains (subtree_of p) t = is_prefix p t.
Proof. apply subtree_contains. Qed.

Lemma relate_cases a b :
  e_start a <ₜ e_reach a → e_start b <ₜ e_reach b →
  match relate a b with
  | OSeparated => e_reach a <ₜ e_start b ∨ e_reach b <ₜ e_start a
  | OAdjacent => e_reach a = e_start b ∨ e_reach b = e_start a
  | OEqual => e_start a = e_start b ∧ e_reach a = e_reach b
  | AContainsB => e_start a ≤ₜ e_start b ∧ e_reach b ≤ₜ e_reach a ∧
      (e_start a <ₜ e_start b ∨ e_reach b <ₜ e_reach a)
  | BContainsA => e_start b ≤ₜ e_start a ∧ e_reach a ≤ₜ e_reach b ∧
      (e_start b <ₜ e_start a ∨ e_reach a <ₜ e_reach b)
  | OverlapAFirst => e_start a <ₜ e_start b ∧ e_start b <ₜ e_reach a ∧ e_reach a <ₜ e_reach b
  | OverlapBFirst => e_start b <ₜ e_start a ∧ e_start a <ₜ e_reach b ∧ e_reach b <ₜ e_reach a
  end.
Proof.
  destruct a as [sa ra], b as [sb rb]. cbn. intros Ha Hb. unfold relate. cbn.
  tminmax;
  repeat match goal with
  | |- context [if ?c then _ else _] => destruct c eqn:?
  end; repeat (b2p; t2p; destruct_or?);
  first [ split_and!; torder | left; torder | right; torder
        | split_and!; [torder|torder|first [left; torder|right; torder]] ].
Qed.

(** Separated spans share no position. *)
Lemma classify_disjoint a b t :
  classify_spans a b = Separated → contains a t && contains b t = false.
Proof.
  pose proof (relate_cases (Endpoints_of a) (Endpoints_of b) (start_lt_reach a) (start_lt_reach b))
    as H.
  unfold classify_spans. cbn in H. destruct (relate _ _); try done. intros _.
  pose proof (start_lt_reach a). pose proof (start_lt_reach b).
  apply andb_false_iff. rewrite !contains_false.
  destruct (leb_spec (start a) t), (ltb_spec t (reach a)), H; first
    [left; left; torder|left; right; torder|right; left; torder|right; right; torder].
Qed.

(** SC: the five-case classification is exact on any two spans, mixed lengths
    included: separated and adjacent spans share no position (with and without a
    gap), equal ones denote the same set, containment is inclusion of unequal
    denotations, and a proper overlap has a shared position and one of each
    span's own. *)
Theorem classify_spans_exact (a b : Span) :
  match classify_spans a b with
  | Separated =>
      (∀ t, contains a t && contains b t = false) ∧
      (reach a <ₜ start b ∨ reach b <ₜ start a)
  | Adjacent =>
      (∀ t, contains a t && contains b t = false) ∧ (reach a = start b ∨ reach b = start a)
  | Equal => ∀ t, contains a t = contains b t
  | Containment =>
      ((∀ t, contains a t = true → contains b t = true) ∨
       (∀ t, contains b t = true → contains a t = true)) ∧
      ∃ t, contains a t ≠ contains b t
  | ProperOverlap =>
      (∃ t, contains a t && contains b t = true) ∧
      (∃ t, contains a t = true ∧ contains b t = false) ∧
      (∃ t, contains b t = true ∧ contains a t = false)
  end.
Proof.
  pose proof (start_lt_reach a) as Ha. pose proof (start_lt_reach b) as Hb.
  pose proof (relate_cases (Endpoints_of a) (Endpoints_of b) Ha Hb) as H.
  unfold classify_spans. cbn in H. destruct (relate _ _).
  - split; [|done]. intros t. apply andb_false_iff. rewrite !contains_false.
    destruct (leb_spec (start a) t), (ltb_spec t (reach a)), H; first
      [left; left; torder|left; right; torder|right; left; torder|right; right; torder].
  - split; [|done]. intros t. apply andb_false_iff. rewrite !contains_false.
    destruct (leb_spec (start a) t), (ltb_spec t (reach a)), H; first
      [left; left; torder|left; right; torder|right; left; torder|right; right; torder].
  - destruct H as [Hs Hr]. intros t. unfold contains. by rewrite Hs, Hr.
  - destruct H as (Hs & Hr & Hne). split; [right; by apply span_incl_iff|].
    destruct Hne as [Hlt|Hlt].
    + exists (start a). rewrite contains_start, (proj2 (contains_false b (start a))); [done|by left].
    + exists (reach b). rewrite (proj2 (contains_spec a (reach b))) by (split; torder).
      rewrite (proj2 (contains_false b (reach b))); [done|right; torder].
  - destruct H as (Hs & Hr & Hne). split; [left; by apply span_incl_iff|].
    destruct Hne as [Hlt|Hlt].
    + exists (start b). rewrite contains_start, (proj2 (contains_false a (start b))); [done|by left].
    + exists (reach a). rewrite (proj2 (contains_spec b (reach a))) by (split; torder).
      rewrite (proj2 (contains_false a (reach a))); [done|right; torder].
  - destruct H as (H1 & H2 & H3). split_and!.
    + exists (start b). rewrite andb_true_iff, !contains_spec. split_and!; torder.
    + exists (start a). rewrite contains_spec, contains_false. split; [split; torder|by left].
    + exists (reach a). rewrite contains_spec, contains_false. split; [split; torder|right; torder].
  - destruct H as (H1 & H2 & H3). split_and!.
    + exists (start a). rewrite andb_true_iff, !contains_spec. split_and!; torder.
    + exists (reach b). rewrite contains_spec, contains_false. split; [split; torder|right; torder].
    + exists (start b). rewrite contains_spec, contains_false. split; [split; torder|by left].
Qed.

(** Membership in an optional span. *)
Definition opt_contains (o : option Span) (t : Tumbler) : bool :=
  match o with Some s => contains s t | None => false end.

(** The level gate of the pairwise operations. *)
Definition level_compatible (a b : Span) : Prop :=
  is_level_uniform a = true ∧ is_level_uniform b = true ∧
  Tumbler_len (start a) = Tumbler_len (start b).

Lemma gated_endpoints_cases a b :
  (level_compatible a b ∧ gated_endpoints a b = Ok (Endpoints_of a, Endpoints_of b)) ∨
  (¬ level_compatible a b ∧ gated_endpoints a b = Err LevelMismatch_).
Proof.
  unfold gated_endpoints, level_compatible.
  destruct (is_level_uniform a), (is_level_uniform b),
    (Nat.eqb_spec (Tumbler_len (start a)) (Tumbler_len (start b))); cbn; naive_solver.
Qed.

(** Endpoints of one length class. *)
Definition ends_ok (L : nat) (e : Endpoints) : Prop :=
  Tumbler_len (e_start e) = L ∧ Tumbler_len (e_reach e) = L ∧ e_start e <ₜ e_reach e.

Lemma ends_ok_of s : is_level_uniform s = true → ends_ok (Tumbler_len (start s)) (Endpoints_of s).
Proof. intros H. split_and!; [done|by apply uniform_reach_len|apply start_lt_reach]. Qed.

Lemma tmax_len L a b : Tumbler_len a = L → Tumbler_len b = L → Tumbler_len (tmax a b) = L.
Proof. intros. by destruct (tmax_spec a b) as [[_ ->]|[_ ->]]. Qed.

Lemma tmin_len L a b : Tumbler_len a = L → Tumbler_len b = L → Tumbler_len (tmin a b) = L.
Proof. intros. by destruct (tmin_spec a b) as [[_ ->]|[_ ->]]. Qed.

(** Membership by endpoints. *)
Definition e_contains (e : Endpoints) (t : Tumbler) : bool :=
  (e_start e ≤?ₜ t) && (t <?ₜ e_reach e).

Lemma e_contains_of s t : e_contains (Endpoints_of s) t = contains s t.
Proof. reflexivity. Qed.

Lemma into_span_ok L e :
  ends_ok L e → ∃ s, into_span e = Done (Ok s) ∧ Endpoints_of s = e ∧ is_level_uniform s = true.
Proof.
  intros (Hs & Hr & Hlt). destruct (from_endpoints_ok (e_start e) (e_reach e)) as (s & H & E1 & E2 & Hu);
    [congruence|done|]. exists s. unfold into_span, Endpoints_of. rewrite E1, E2. by destruct e.
Qed.

Lemma intersection_ok L a b :
  ends_ok L a → ends_ok L b →
  ∃ o, intersection a b = Done o ∧
    (∀ t, opt_contains o t = e_contains a t && e_contains b t) ∧
    match o with
    | Some s => is_level_uniform s = true ∧ Tumbler_len (start s) = L ∧
        start s = tmax (e_start a) (e_start b) ∧ reach s = tmin (e_reach a) (e_reach b)
    | None => tmin (e_reach a) (e_reach b) ≤ₜ tmax (e_start a) (e_start b)
    end.
Proof.
  intros (Ha1 & Ha2 & Ha3) (Hb1 & Hb2 & Hb3). unfold intersection.
  pose proof (tmax_len L _ _ Ha1 Hb1) as Hs. pose proof (tmin_len L _ _ Ha2 Hb2) as Hr.
  destruct (ltb_spec (tmax (e_start a) (e_start b)) (tmin (e_reach a) (e_reach b))) as [Hlt|Hge].
  - destruct (from_endpoints_ok _ _ (eq_trans Hs (eq_sym Hr)) Hlt) as (s & -> & E1 & E2 & Hu).
    exists (Some s). split; [done|]. split; [|by rewrite E1].
    intros t. cbn. apply eq_true_iff_eq. unfold e_contains.
    rewrite !andb_true_iff, !leb_le, !ltb_lt, contains_spec, E1, E2. clear.
    tminmax; split; intros; destruct_and!; split_and!; torder.
  - exists None. split; [done|]. split; [|done]. intros t. cbn. symmetry.
    apply not_true_iff_false. unfold e_contains.
    rewrite !andb_true_iff, !leb_le, !ltb_lt. clear -Hge.
    intros [[? ?] [? ?]]. tminmax; torder.
Qed.

(** [intersect] in terms of the endpoints. *)
Lemma intersect_denotes a b :
  level_compatible a b →
  ∃ o, intersect a b = Done (Ok o) ∧
    (∀ t, opt_contains o t = contains a t && contains b t) ∧
    match o with
    | Some s => Tumbler_len (start s) = Tumbler_len (start a) ∧ is_level_uniform s = true ∧
        start a ≤ₜ start s ∧ reach s ≤ₜ reach a
    | None => True
    end.
Proof.
  intros Hc. pose proof Hc as (Ha & Hb & Hlen). unfold intersect.
  destruct (gated_endpoints_cases a b) as [[_ ->]|[? _]]; [|done]. cbn.
  destruct (intersection_ok (Tumbler_len (start a)) (Endpoints_of a) (Endpoints_of b))
    as (o & -> & Hd & Ho); [by apply ends_ok_of|rewrite Hlen; by apply ends_ok_of|].
  exists o. split_and!; [done|done|]. destruct o as [s|]; [|done].
  destruct Ho as (Hu & Hl & Es & Er). rewrite Es, Er in *. cbn in *.
  split_and!; try done; tminmax; torder.
Qed.

(** S1/S11a: [intersect] refuses exactly an incompatible pair, even a
    separated one, never panics, and otherwise denotes the intersection, as one
    level-uniform span or none. *)
Theorem intersect_spec (a b : Span) :
  match intersect a b with
  | Panicked => False
  | Done (Err _) => ¬ level_compatible a b
  | Done (Ok o) =>
      level_compatible a b ∧ (∀ t, opt_contains o t = contains a t && contains b t) ∧
      match o with
      | Some s => is_level_uniform s = true ∧ Tumbler_len (start s) = Tumbler_len (start a)
      | None => classify_spans a b = Separated ∨ classify_spans a b = Adjacent
      end
  end.
Proof.
  unfold intersect. destruct (gated_endpoints_cases a b) as [[Hc ->]|[Hc ->]]; cbn; [|done].
  pose proof Hc as (Ha & Hb & Hlen).
  destruct (intersection_ok (Tumbler_len (start a)) (Endpoints_of a) (Endpoints_of b))
    as (o & -> & Hd & Ho); [by apply ends_ok_of|rewrite Hlen; by apply ends_ok_of|].
  cbn. split; [done|]. split; [done|]. destruct o as [s|]; [naive_solver|].
  unfold classify_spans. pose proof (start_lt_reach a). pose proof (start_lt_reach b).
  pose proof (relate_cases (Endpoints_of a) (Endpoints_of b)) as Hr. cbn in *.
  destruct (relate _ _); try (by auto); exfalso; specialize (Hr ltac:(done) ltac:(done));
    destruct_and? Hr; tminmax; torder.
Qed.

Lemma separated_spec a b :
  e_start a <ₜ e_reach a → e_start b <ₜ e_reach b →
  separated a b = true ↔ e_reach a <ₜ e_start b ∨ e_reach b <ₜ e_start a.
Proof.
  intros Ha Hb. unfold separated. rewrite ltb_lt. tminmax; split;
    intros; destruct_or?; try torder; first [left; torder|right; torder].
Qed.

(** Contiguous endpoint pairs join into one interval. *)
Lemma join_denotes a b t :
  e_start a <ₜ e_reach a → e_start b <ₜ e_reach b → separated a b = false →
  e_contains (MkEndpoints (tmin (e_start a) (e_start b)) (tmax (e_reach a) (e_reach b))) t
  = e_contains a t || e_contains b t.
Proof.
  intros Ha Hb Hs. apply not_true_iff_false in Hs. rewrite separated_spec in Hs by done.
  assert (¬ e_reach a <ₜ e_start b) by tauto. assert (¬ e_reach b <ₜ e_start a) by tauto.
  unfold e_contains. cbn. apply eq_true_iff_eq.
  rewrite orb_true_iff, !andb_true_iff, !leb_le, !ltb_lt.
  destruct (leb_spec (e_start a) t), (ltb_spec t (e_reach a)),
    (leb_spec (e_start b) t), (ltb_spec t (e_reach b));
  tminmax; split; intros; destruct_or?; destruct_and?; try (split; torder); try torder;
    first [left; split; torder|right; split; torder].
Qed.

(** S3: [merge] refuses exactly an incompatible pair, never panics, answers
    [None] exactly on separated operands, and otherwise one level-uniform span
    denoting the union. *)
Theorem merge_spec (a b : Span) :
  match merge a b with
  | Panicked => False
  | Done (Err _) => ¬ level_compatible a b
  | Done (Ok None) => level_compatible a b ∧ classify_spans a b = Separated
  | Done (Ok (Some s)) =>
      level_compatible a b ∧ classify_spans a b ≠ Separated ∧
      is_level_uniform s = true ∧ ∀ t, contains s t = contains a t || contains b t
  end.
Proof.
  unfold merge. destruct (gated_endpoints_cases a b) as [[Hc ->]|[Hc ->]]; cbn; [|done].
  pose proof Hc as (Ha & Hb & Hlen).
  pose proof (ends_ok_of a Ha) as (Ha1 & Ha2 & Ha3).
  pose proof (ends_ok_of b Hb) as (Hb1 & Hb2 & Hb3). rewrite <- Hlen in Hb1, Hb2.
  assert (Hcl : classify_spans a b = Separated ↔ separated (Endpoints_of a) (Endpoints_of b) = true).
  { unfold classify_spans, relate, separated.
    destruct (_ <?ₜ _); [done|]. split; [|done]. by repeat case_match. }
  destruct (separated _ _) eqn:Hs; [naive_solver|].
  set (s := tmin (start a) (start b)). set (r := tmax (reach a) (reach b)).
  assert (Hlt : s <ₜ r) by (unfold s, r; cbn in *; tminmax; torder).
  assert (Hl : Tumbler_len s = Tumbler_len r).
  { unfold s, r. cbn in *. transitivity (Tumbler_len (start a)); [|symmetry];
      [by apply tmin_len|by apply tmax_len]. }
  destruct (from_endpoints_ok s r Hl Hlt) as (sp & -> & E1 & E2 & Hu). cbn.
  split_and!; [done|naive_solver|done|]. intros t.
  rewrite <- !e_contains_of. unfold Endpoints_of at 1. rewrite E1, E2.
  by apply (join_denotes (Endpoints_of a) (Endpoints_of b)).
Qed.

(** S4/S5: [split] refuses a level mismatch first, then a point that is not
    strictly interior, never panics, and otherwise cuts the span into two
    level-uniform parts that meet at the point, are disjoint and denote the whole
    together, with widths that add up to the span. *)
Theorem split_spec (s : Span) (p : Tumbler) :
  match split s p with
  | Panicked => False
  | Done (Err SplitLevelMismatch) =>
      is_level_uniform s = false ∨ Tumbler_len (start s) ≠ Tumbler_len p
  | Done (Err NotInterior) =>
      is_level_uniform s = true ∧ Tumbler_len (start s) = Tumbler_len p ∧
      ¬ (start s <ₜ p ∧ p <ₜ reach s)
  | Done (Ok (l, r)) =>
      (start l = start s ∧ reach l = p ∧ start r = p ∧ reach r = reach s) ∧
      is_level_uniform l = true ∧ is_level_uniform r = true ∧
      (∀ t, contains s t = contains l t || contains r t) ∧
      (∀ t, contains l t && contains r t = false) ∧
      add (start s) (width l) = Done (Ok p) ∧ add p (width r) = Done (Ok (reach s))
  end.
Proof.
  unfold split. destruct (is_level_uniform s) eqn:Hu; cbn; [|by left].
  destruct (Nat.eqb_spec (Tumbler_len (start s)) (Tumbler_len p)) as [Hlen|Hlen]; cbn; [|by right].
  destruct (ltb_spec (start s) p) as [H1|H1], (ltb_spec p (reach s)) as [H2|H2]; cbn;
    try (split_and!; [done|done|intros [? ?]; torder]).
  destruct (from_endpoints_ok _ _ Hlen H1) as (l & -> & L1 & L2 & Lu). cbn.
  destruct (from_endpoints_ok p (reach s)) as (r & -> & R1 & R2 & Ru);
    [by rewrite uniform_reach_len|done|]. cbn.
  split_and!; try done.
  - intros t. unfold contains. rewrite L1, L2, R1, R2. apply eq_true_iff_eq.
    rewrite orb_true_iff, !andb_true_iff, !leb_le, !ltb_lt.
    destruct (ltb_spec t p); split; intros; destruct_or?; destruct_and?;
      try (split; torder); first [left; split; torder|right; split; torder].
  - intros t. apply andb_false_iff. rewrite !contains_false, L1, L2, R1, R2.
    destruct (ltb_spec t p); [right; by left|left; by right].
  - pose proof (reach_add l) as R. by rewrite L1, L2 in R.
  - pose proof (reach_add r) as R. by rewrite R1, R2 in R.
Qed.
