(* ===== verification/SpanSets.v ===== *)
(** * Span-sets, their canonical form and the set-level algebra

    Models [crates/skep-address/src/spanset.rs] and the one operation of
    [span.rs] that answers a span-set, [difference]. A span-set is a list of
    spans denoting their union; [normalize] is its canonical form, and the
    set operations are single sweeps over canonical forms. The sweeps' index
    cursors are the suffixes of the vectors they still have to read. *)

From stdpp Require Import gmap sorting.
From S2P Require Import Prelude Tumblers Addresses Arith Spans.

(** ** Data *)

Record SpanSet := MkSpanSet { spans : list Span }.

#[export] Instance SpanSet_eq_dec : EqDecision SpanSet.
Proof. solve_decision. Defined.

Record CanonicalForm := MkCanonicalForm { as_set : SpanSet }.

#[export] Instance CanonicalForm_eq_dec : EqDecision CanonicalForm.
Proof. solve_decision. Defined.

Definition empty : SpanSet := MkSpanSet [].

Definition singleton (s : Span) : SpanSet := MkSpanSet [s].

Definition SpanSet_len (s : SpanSet) : nat := length (spans s).

Definition SpanSet_is_empty (s : SpanSet) : bool := negb (nonemptyb (spans s)).

(** [collect::<SpanSet>()]: the spans as given. *)
Definition from_iter (l : list Span) : SpanSet := MkSpanSet l.

Definition level_class (s : SpanSet) : result (option nat) LevelMismatch :=
  match spans s with
  | [] => Ok None
  | first :: _ =>
      let shared_length := Tumbler_len (start first) in
      if existsb (λ s, negb (is_level_uniform s) || negb (Tumbler_len (start s) =? shared_length))
           (spans s)
      then Err LevelMismatch_
      else Ok (Some shared_length)
  end.

(** [classes.entry(len).or_default().push(s)], over the spans in order. *)
Definition by_level_class (s : SpanSet) : gmap nat SpanSet :=
  from_iter <$>
    foldl (λ classes s,
             let len := Tumbler_len (start s) in
             <[len := default [] (classes !! len) ++ [s]]> classes)
      (∅ : gmap nat (list Span)) (spans s).

(** ** Normalization *)

(** [sort_by(|x, y| x.start.cmp(&y.start))]: the stable sort by start. *)
Fixpoint insert_by_start (x : Endpoints) (l : list Endpoints) : list Endpoints :=
  match l with
  | [] => [x]
  | y :: l => if e_start x ≤?ₜ e_start y then x :: y :: l else y :: insert_by_start x l
  end.

Fixpoint sort_by_start (l : list Endpoints) : list Endpoints :=
  match l with [] => [] | x :: l => insert_by_start x (sort_by_start l) end.

(** [into_span().expect(..)] *)
Definition into_span_expect (e : Endpoints) : outcome Span := r ← into_span e; expect_ok r.

(** The coalescing loop: [run] is the interval being grown, [rest] what follows. *)
Fixpoint coalesce (run : Endpoints) (rest : list Endpoints) : outcome (list Span) :=
  match rest with
  | [] => s ← into_span_expect run; Done [s]
  | following :: rest =>
      if negb (separated run following) then
        coalesce
          (if e_reach run <?ₜ e_reach following
           then MkEndpoints (e_start run) (e_reach following) else run) rest
      else
        s ← into_span_expect run;
        out ← coalesce following rest;
        Done (s :: out)
  end.

Definition normalize_at (set : SpanSet) : outcome (result SpanSet LevelMismatch) :=
  class ←? Done (level_class set);
  match class with
  | None => Done (Ok empty)
  | Some _ =>
      match sort_by_start (Endpoints_of <$> spans set) with
      | [] => Panicked
      | run :: rest => out ← coalesce run rest; Done (Ok (from_iter out))
      end
  end.

Definition denotes (set : SpanSet) (t : Tumbler) : bool :=
  existsb (λ s, contains s t) (spans set).

Definition union (a b : SpanSet) : SpanSet := MkSpanSet (spans a ++ spans b).

(** ** Canonical lists of spans *)

(** N1 and N2: ascending, and every earlier span ends strictly before any later
    one begins. *)
Definition gap (a b : Span) : Prop := reach a <ₜ start b.

(** One length class: S8's precondition. *)
Definition in_class (L : nat) (l : list Span) : Prop :=
  Forall (λ s, is_level_uniform s = true ∧ Tumbler_len (start s) = L) l.

Record canonical (L : nat) (l : list Span) : Prop := {
  canonical_class : in_class L l;
  canonical_gaps : StronglySorted gap l
}.

Definition any (l : list Span) (t : Tumbler) : bool := existsb (λ s, contains s t) l.
Definition e_any (l : list Endpoints) (t : Tumbler) : bool := existsb (λ e, e_contains e t) l.

#[local] Arguments any : simpl never.
#[local] Arguments e_any : simpl never.

Lemma any_cons s l t : any (s :: l) t = contains s t || any l t.
Proof. reflexivity. Qed.

Lemma e_any_cons e l t : e_any (e :: l) t = e_contains e t || e_any l t.
Proof. reflexivity. Qed.

Lemma any_app l k t : any (l ++ k) t = any l t || any k t.
Proof. apply existsb_app. Qed.

Lemma any_spec l t : any l t = true ↔ ∃ s, s ∈ l ∧ contains s t = true.
Proof.
  unfold any. rewrite existsb_exists. split; intros (s & Hs & Ht); exists s;
    rewrite ?list_elem_of_In in *; done.
Qed.

Lemma any_false l t : any l t = false ↔ ∀ s, s ∈ l → contains s t = false.
Proof.
  rewrite <- not_true_iff_false, any_spec. split.
  - intros H s Hs. apply not_true_iff_false. intros Ht. apply H. eauto.
  - intros H (s & Hs & Ht). rewrite H in Ht; done.
Qed.

Lemma e_any_of l t : e_any (Endpoints_of <$> l) t = any l t.
Proof. induction l as [|s l IH]; [done|]. unfold e_any, any in *. cbn. by rewrite IH. Qed.

Lemma e_any_spec l t : e_any l t = true ↔ ∃ e, e ∈ l ∧ e_start e ≤ₜ t ∧ t <ₜ e_reach e.
Proof.
  unfold e_any. rewrite existsb_exists. unfold e_contains.
  split; intros (s & Hs & Ht); exists s;
    rewrite ?list_elem_of_In, ?andb_true_iff, ?leb_le, ?ltb_lt in *; done.
Qed.

Lemma e_any_false_after l t : (∀ e, e ∈ l → t <ₜ e_start e) → e_any l t = false.
Proof.
  intros H. apply not_true_iff_false. rewrite e_any_spec. intros (e & He%H & ? & ?). torder.
Qed.

Lemma canonical_nil L : canonical L [].
Proof. split; constructor. Qed.

Lemma canonical_cons L s l :
  canonical L (s :: l) ↔
  (is_level_uniform s = true ∧ Tumbler_len (start s) = L) ∧
  (∀ x, x ∈ l → reach s <ₜ start x) ∧ canonical L l.
Proof.
  split.
  - intros [[? F]%Forall_cons [? G]%StronglySorted_cons]. split; [done|]. split; [|done].
    by apply Forall_forall.
  - intros (Hs & Hg & [F G]). split; constructor; try done. by apply Forall_forall.
Qed.

Lemma canonical_app L l k :
  canonical L l → canonical L k → (∀ x y, x ∈ l → y ∈ k → reach x <ₜ start y) →
  canonical L (l ++ k).
Proof.
  intros Hl Hk. induction l as [|s l IH]; [done|]. intros H. cbn.
  apply canonical_cons in Hl as (Hs & Hg & Hl). apply canonical_cons. split_and!; [naive_solver..| |].
  - intros x [Hx|Hx]%elem_of_app; [by apply Hg|]. apply H; set_solver.
  - apply IH; [done|]. intros; apply H; set_solver.
Qed.

Lemma canonical_singleton L s :
  is_level_uniform s = true → Tumbler_len (start s) = L → canonical L [s].
Proof. intros. apply canonical_cons. split_and!; [done|done|set_solver|apply canonical_nil]. Qed.

(** The head of a canonical list starts at the least point it denotes, ... *)
Lemma canonical_head_start x xs y ys :
  (∀ z, z ∈ ys → reach y <ₜ start z) →
  any (x :: xs) (start x) = any (y :: ys) (start x) → start y ≤ₜ start x.
Proof.
  intros Hg E. assert (any (x :: xs) (start x) = true) as Hx.
  { apply any_spec. exists x. split; [set_solver|apply contains_start]. }
  rewrite E in Hx. apply any_spec in Hx as (z & Hz & [Hc _]%contains_spec).
  apply elem_of_cons in Hz as [->|Hz%Hg]; [done|]. pose proof (start_lt_reach y). torder.
Qed.

(** ... and reaches the least point above it that is not denoted. *)
Lemma canonical_head_reach x xs y ys :
  start x = start y → (∀ z, z ∈ xs → reach x <ₜ start z) →
  any (x :: xs) (reach x) = any (y :: ys) (reach x) → reach y ≤ₜ reach x.
Proof.
  intros Hxy Hg E. destruct (ltb_spec (reach x) (reach y)) as [Hlt|]; [|done].
  pose proof (start_lt_reach x). assert (any (y :: ys) (reach x) = true) as Ht.
  { apply any_spec. exists y. split; [set_solver|]. apply contains_spec. split; torder. }
  rewrite Ht in E. apply any_spec in E as (z & Hz & [? ?]%contains_spec).
  apply elem_of_cons in Hz as [->|Hz%Hg]; torder.
Qed.

(** S9: a canonical list is determined by what it denotes, across length classes. *)
Lemma canonical_unique L M l k :
  canonical L l → canonical M k → (∀ t, any l t = any k t) → l = k.
Proof.
  revert k. induction l as [|a l IH]; intros [|b k] Hl Hk H; [done| | |].
  - specialize (H (start b)). by rewrite any_cons, contains_start in H.
  - specialize (H (start a)). by rewrite any_cons, contains_start in H.
  - apply canonical_cons in Hl as ([Ha HaL] & Hga & Hl).
    apply canonical_cons in Hk as ([Hb HbM] & Hgb & Hk).
    pose proof (canonical_head_start a l b k Hgb (H _)) as H1. pose proof (canonical_head_start b k a l Hga (eq_sym (H _))) as H2.
    assert (Hs : start a = start b) by torder. clear H1 H2.
    pose proof (canonical_head_reach a l b k Hs Hga (H _)) as H1.
    pose proof (canonical_head_reach b k a l (eq_sym Hs) Hgb (eq_sym (H _))) as H2.
    assert (a = b) as <- by (apply uniform_span_eq; [done|done|done|torder]).
    f_equal. apply IH; [done|done|]. intros t. specialize (H t). rewrite !any_cons in H.
    destruct (contains a t) eqn:Ht; [|done]. apply contains_spec in Ht as [_ Ht].
    rewrite (proj2 (any_false l t)), (proj2 (any_false k t)); [done|..];
      intros s Hx; apply contains_false; left; [apply Hgb in Hx|apply Hga in Hx]; torder.
Qed.

(** ** The sort *)

Definition starts_le (x y : Endpoints) : Prop := e_start x ≤ₜ e_start y.

Lemma insert_by_start_perm x l : insert_by_start x l ≡ₚ x :: l.
Proof.
  induction l as [|y l IH]; cbn; [done|]. destruct (_ ≤?ₜ _); [done|].
  rewrite IH. by constructor.
Qed.

Lemma sort_by_start_perm l : sort_by_start l ≡ₚ l.
Proof. induction l as [|x l IH]; cbn; [done|]. by rewrite insert_by_start_perm, IH. Qed.

Lemma insert_by_start_sorted x l :
  StronglySorted starts_le l → StronglySorted starts_le (insert_by_start x l).
Proof.
  induction l as [|y l IH]; cbn; intros H; [by repeat constructor|].
  apply StronglySorted_cons in H as [Hy H].
  destruct (leb_spec (e_start x) (e_start y)) as [Hle|Hlt].
  - constructor; [by constructor|]. constructor; [done|].
    eapply Forall_impl; [exact Hy|]. unfold starts_le. intros; torder.
  - constructor; [by apply IH|]. rewrite insert_by_start_perm. constructor; [|done].
    unfold starts_le. torder.
Qed.

Lemma sort_by_start_sorted l : StronglySorted starts_le (sort_by_start l).
Proof. induction l; cbn; [constructor|by apply insert_by_start_sorted]. Qed.

(** ** The coalescing loop *)

Lemma into_span_expect_ok L e :
  ends_ok L e → ∃ s, into_span_expect e = Done s ∧ start s = e_start e ∧ reach s = e_reach e ∧
    is_level_uniform s = true ∧ Tumbler_len (start s) = L.
Proof.
  intros He. destruct (into_span_ok L e He) as (s & H & Hs & Hu). exists s.
  unfold into_span_expect. rewrite H, <- Hs. cbn. split_and!; try done.
  destruct He as [<- _]. by rewrite <- Hs.
Qed.

(** What the loop produces from a growing interval and the sorted rest. *)
Lemma coalesce_ok L rest run :
  ends_ok L run → Forall (ends_ok L) rest → StronglySorted starts_le (run :: rest) →
  ∃ s out, coalesce run rest = Done (s :: out) ∧ canonical L (s :: out) ∧
    start s = e_start run ∧ length out ≤ length rest ∧
    ∀ t, any (s :: out) t = e_contains run t || e_any rest t.
Proof.
  revert run. induction rest as [|f rest IH]; intros run Hrun Hrest Hsort; cbn.
  - destruct (into_span_expect_ok L run Hrun) as (s & -> & Hs & Hr & Hu & HL).
    exists s, []. split_and!; [done|by apply canonical_singleton|done|done|].
    intros t. rewrite any_cons. unfold e_contains. by rewrite <- Hs, <- Hr.
  - apply Forall_cons in Hrest as [Hf Hrest].
    pose proof Hsort as [Hle Hsort']%StronglySorted_cons.
    apply Forall_cons in Hle as [Hrf Hle]. unfold starts_le in Hrf.
    destruct (separated run f) eqn:Hsep; cbn [negb].
    + destruct (into_span_expect_ok L run Hrun) as (s & -> & Hs & Hr & Hu & HL).
      destruct (IH f Hf Hrest Hsort') as (s' & out & -> & Hc & Hs' & Hlen & Hd). cbn [mbind outcome_bind].
      assert (Hgap : reach s <ₜ start s').
      { apply separated_spec in Hsep; [|apply Hrun|apply Hf]. rewrite Hs', Hr.
        destruct Hf as (_ & _ & Hf). destruct Hsep; torder. }
      exists s, (s' :: out). split_and!; [done| |done|cbn; lia|].
      * apply canonical_cons. split_and!; [done|done| |done].
        apply canonical_cons in Hc as (_ & Hg & _). intros x [->|Hx%Hg]%elem_of_cons; [done|].
        pose proof (start_lt_reach s'). torder.
      * intros t. rewrite any_cons, e_any_cons, Hd.
        unfold e_contains. by rewrite <- Hs, <- Hr.
    + set (run' := if _ <?ₜ _ then _ else _).
      assert (Hrun' : run' = MkEndpoints (tmin (e_start run) (e_start f)) (tmax (e_reach run) (e_reach f))).
      { unfold run'. destruct run as [rs rr], f as [fs fr]. cbn in *. tcase; f_equal; tminmax; first [done|torder]. }
      assert (Hst : e_start run' = e_start run).
      { rewrite Hrun'. cbn. tminmax; torder. }
      destruct (IH run') as (s & out & -> & Hc & Hs & Hlen & Hd).
      { rewrite Hrun'. destruct Hrun as (? & ? & ?), Hf as (? & ? & ?). split_and!; cbn.
        - by apply tmin_len.
        - by apply tmax_len.
        - tminmax; torder. }
      { done. }
      { constructor; [by inv Hsort'|].
        eapply Forall_impl; [exact Hle|]. unfold starts_le. by rewrite Hst. }
      exists s, out. split_and!; [done|done|congruence|lia|]. intros t. rewrite Hd, Hrun'.
      rewrite join_denotes; [|apply Hrun|apply Hf|done]. by rewrite e_any_cons, orb_assoc.
Qed.

(** ** The level gate and [normalize] *)

Lemma level_class_cases set :
  match level_class set with
  | Ok None => spans set = []
  | Ok (Some L) => spans set ≠ [] ∧ in_class L (spans set)
  | Err _ => ∀ L, ¬ in_class L (spans set)
  end.
Proof.
  unfold level_class. destruct (spans set) as [|s l] eqn:E; [done|].
  destruct (existsb _ _) eqn:Hb.
  - intros L HL. apply existsb_exists in Hb as (x & Hx%list_elem_of_In & Hb).
    pose proof (proj1 (Forall_forall _ _) HL) as HF.
    destruct (HF x Hx) as [Hu <-]. rewrite Hu in Hb. cbn in Hb.
    destruct (HF s ltac:(set_solver)) as [_ Hs]. apply negb_true_iff, Nat.eqb_neq in Hb. done.
  - split; [done|]. apply Forall_forall. intros x Hx. apply not_true_iff_false in Hb.
    rewrite existsb_exists in Hb. destruct (is_level_uniform x) eqn:Hu, (Nat.eqb_spec (Tumbler_len (start x)) (Tumbler_len (start s))) as [|Hne];
      [done|exfalso; apply Hb; exists x; rewrite <- list_elem_of_In, Hu; split; [done|cbn..]..]; [|done..].
    by apply negb_true_iff, Nat.eqb_neq.
Qed.

Lemma level_class_in L set : in_class L (spans set) → spans set ≠ [] → level_class set = Ok (Some L).
Proof.
  intros H Hne. pose proof (level_class_cases set) as Hc.
  destruct (level_class set) as [[M|]|]; [|done|by apply Hc in H].
  destruct Hc as [_ Hc]. destruct (spans set) as [|s l]; [done|].
  apply Forall_cons in H as [[_ <-] _]. by apply Forall_cons in Hc as [[_ <-] _].
Qed.

Lemma normalize_at_cases set :
  (∃ L n, in_class L (spans set) ∧ normalize_at set = Done (Ok n) ∧ canonical L (spans n) ∧
     (∀ t, denotes n t = denotes set t) ∧ SpanSet_len n ≤ SpanSet_len set) ∨
  ((∀ L, ¬ in_class L (spans set)) ∧ normalize_at set = Done (Err LevelMismatch_)).
Proof.
  unfold normalize_at. pose proof (level_class_cases set) as Hc.
  destruct (level_class set) as [[L|]|[]]; cbn [try_bind]; [left|left|by right].
  - exists L. destruct Hc as [Hne Hc].
    pose proof (sort_by_start_perm (Endpoints_of <$> spans set)) as Hp.
    pose proof (sort_by_start_sorted (Endpoints_of <$> spans set)) as Hs.
    destruct (sort_by_start _) as [|run rest].
    { by apply Permutation_nil_l, eq_sym, fmap_nil_inv in Hp. }
    assert (HF : Forall (ends_ok L) (run :: rest)).
    { rewrite Hp. apply Forall_fmap. eapply Forall_impl; [exact Hc|]. cbn.
      intros s [Hu <-]. by apply ends_ok_of. }
    apply Forall_cons in HF as [Hrun Hrest].
    destruct (coalesce_ok L rest run Hrun Hrest Hs) as (s & out & -> & Hcan & _ & Hlen & Hd).
    exists (from_iter (s :: out)). split_and!; [done|done|done| |].
    + intros t. unfold denotes. fold (any (spans set) t). rewrite <- e_any_of.
      transitivity (e_any (run :: rest) t); [apply Hd|].
      apply eq_true_iff_eq. rewrite !e_any_spec. by setoid_rewrite Hp.
    + apply Permutation_length in Hp. rewrite length_fmap in Hp. cbn in *.
      unfold SpanSet_len. cbn. lia.
  - exists 0, empty. rewrite Hc. split_and!; [apply Forall_nil_2|done|apply canonical_nil| |cbn; lia].
    intros t. unfold denotes. by rewrite Hc.
Qed.

Lemma normalize_done set : is_done (normalize_at set) = true.
Proof.
  destruct (normalize_at_cases set) as [(L & n & _ & H & _)|[_ H]]; by rewrite H.
Qed.

Definition normalize (set : SpanSet) : result SpanSet LevelMismatch :=
  total (normalize_at set) (normalize_done set).

Definition is_normalized (set : SpanSet) : bool :=
  match normalize set with Ok n => bool_decide (n = set) | Err _ => false end.

Lemma normalize_cases set :
  match normalize set with
  | Ok n => ∃ L, in_class L (spans set) ∧ canonical L (spans n) ∧
      (∀ t, denotes n t = denotes set t) ∧ SpanSet_len n ≤ SpanSet_len set
  | Err _ => ∀ L, ¬ in_class L (spans set)
  end.
Proof.
  pose proof (total_spec _ (normalize_done set)) as H. fold (normalize set) in H.
  destruct (normalize_at_cases set) as [(L & n & Hc & E & Hn)|[Hc E]]; rewrite E in H;
    injection H as <-; [by exists L|done].
Qed.

Lemma normalize_in L set : in_class L (spans set) → ∃ n, normalize set = Ok n.
Proof.
  intros H. pose proof (normalize_cases set) as Hn.
  destruct (normalize set) as [n|]; [by eexists|by apply Hn in H].
Qed.

(** A canonical set is its own canonical form. *)
Lemma normalize_canonical L set : canonical L (spans set) → normalize set = Ok set.
Proof.
  intros Hc. destruct (normalize_in L set (canonical_class _ _ Hc)) as [n E].
  pose proof (normalize_cases set) as H. rewrite E in *. destruct H as (M & _ & Hn & Hd & _).
  f_equal. destruct n as [n], set as [l]. f_equal. by eapply canonical_unique.
Qed.

Lemma is_normalized_spec set : is_normalized set = true ↔ ∃ L, canonical L (spans set).
Proof.
  unfold is_normalized. split.
  - pose proof (normalize_cases set) as H. destruct (normalize set) as [n|]; [|done].
    intros ->%bool_decide_eq_true. destruct H as (L & _ & H & _). by exists L.
  - intros [L H]. rewrite (normalize_canonical L set H). by apply bool_decide_eq_true.
Qed.

(** ** The operations over canonical forms *)

Definition canonical_key (set : SpanSet) : result CanonicalForm LevelMismatch :=
  match normalize set with Ok n => Ok (MkCanonicalForm n) | Err e => Err e end.

Definition equiv (a b : SpanSet) : result bool LevelMismatch :=
  match normalize a with
  | Ok na => match normalize b with Ok nb => Ok (bool_decide (na = nb)) | Err e => Err e end
  | Err e => Err e
  end.

Definition normalized_endpoints (a b : SpanSet) :
    result (list Endpoints * list Endpoints) LevelMismatch :=
  match normalize a with
  | Err e => Err e
  | Ok na =>
      match normalize b with
      | Err e => Err e
      | Ok nb =>
          match level_class na with
          | Err e => Err e
          | Ok ca =>
              match level_class nb with
              | Err e => Err e
              | Ok cb =>
                  if match ca, cb with Some la, Some lb => negb (la =? lb) | _, _ => false end
                  then Err LevelMismatch_
                  else Ok (Endpoints_of <$> spans na, Endpoints_of <$> spans nb)
              end
          end
      end
  end.

(** The two-cursor loop of [intersect_sets]: the lists are what lies at and
    beyond the cursors [i] and [j]. *)
Fixpoint intersect_sweep (a_spans : list Endpoints) : list Endpoints → outcome (list Span) :=
  fix sweep_b (b_spans : list Endpoints) : outcome (list Span) :=
    match a_spans, b_spans with
    | a :: a_rest, b :: b_rest =>
        o ← intersection a b;
        out ← (if e_reach a ≤?ₜ e_reach b
               then intersect_sweep a_rest (b :: b_rest)
               else sweep_b b_rest);
        Done (option_list o ++ out)
    | _, _ => Done []
    end.

Definition intersect_sets (a b : SpanSet) : outcome (result SpanSet LevelMismatch) :=
  '(a_spans, b_spans) ←? Done (normalized_endpoints a b);
  out ← intersect_sweep a_spans b_spans;
  Done (Ok (from_iter out)).

(** [while j < b_spans.len() && b_spans[j].reach <= a_span.start { j += 1 }] *)
Fixpoint skip_before (s : Tumbler) (b_spans : list Endpoints) : list Endpoints :=
  match b_spans with
  | b :: b_rest => if e_reach b ≤?ₜ s then skip_before s b_rest else b :: b_rest
  | [] => []
  end.

(** [if start < reach { out.push(from_endpoints(start, reach).expect(..)) }] *)
Definition push_between (s r : Tumbler) : outcome (list Span) :=
  if s <?ₜ r then d ← Span_from_endpoints s r; sp ← expect_ok d; Done [sp] else Done [].

(** The inner loop: the gaps of one a-span, and where its survivor stands after. *)
Fixpoint carve (a_reach surviving_from : Tumbler) (b_spans : list Endpoints) :
    outcome (list Span * Tumbler) :=
  match b_spans with
  | [] => Done ([], surviving_from)
  | b :: b_rest =>
      if negb (e_start b <?ₜ a_reach) then Done ([], surviving_from)
      else
        pushed ← push_between surviving_from (e_start b);
        let surviving_from :=
          if surviving_from <?ₜ e_reach b then e_reach b else surviving_from in
        if a_reach ≤?ₜ surviving_from then Done (pushed, surviving_from)
        else
          rest ← carve a_reach surviving_from b_rest;
          Done (pushed ++ rest.1, rest.2)
  end.

Fixpoint difference_sweep (a_spans b_spans : list Endpoints) : outcome (list Span) :=
  match a_spans with
  | [] => Done []
  | a :: a_rest =>
      let b_spans := skip_before (e_start a) b_spans in
      gaps ← carve (e_reach a) (e_start a) b_spans;
      tail ← push_between gaps.2 (e_reach a);
      out ← difference_sweep a_rest b_spans;
      Done (gaps.1 ++ tail ++ out)
  end.

Definition difference_sets (a b : SpanSet) : outcome (result SpanSet LevelMismatch) :=
  '(a_spans, b_spans) ←? Done (normalized_endpoints a b);
  out ← difference_sweep a_spans b_spans;
  Done (Ok (from_iter out)).

(** [span.rs]'s [difference]: at most two spans. *)
Definition difference (a b : Span) : outcome (result SpanSet LevelMismatch) :=
  '(ea, eb) ←? Done (gated_endpoints a b);
  let left := r ← Span_from_endpoints (e_start ea) (e_start eb); expect_ok r in
  let right := r ← Span_from_endpoints (e_reach eb) (e_reach ea); expect_ok r in
  match relate ea eb with
  | OSeparated | OAdjacent => Done (Ok (singleton a))
  | OEqual | BContainsA => Done (Ok empty)
  | AContainsB =>
      l ← (if e_start ea <?ₜ e_start eb then s ← left; Done [s] else Done []);
      r ← (if e_reach eb <?ₜ e_reach ea then s ← right; Done [s] else Done []);
      Done (Ok (from_iter (l ++ r)))
  | OverlapAFirst => s ← left; Done (Ok (singleton s))
  | OverlapBFirst => s ← right; Done (Ok (singleton s))
  end.

(** [hull]: the extremes of one walk over the points. *)
Definition hull_at (points : list Tumbler) : outcome (result (option Span) LevelMismatch) :=
  match points with
  | [] => Done (Ok None)
  | first :: points =>
      let '(min_point, max_point) :=
        foldl (λ '(lo, hi) p, (if p <?ₜ lo then p else lo, if hi <?ₜ p then p else hi))
          (first, first) points in
      if negb (Tumbler_len min_point =? Tumbler_len max_point) then Done (Err LevelMismatch_)
      else
        r ← Span_from_endpoints min_point (next_at_length max_point);
        s ← expect_ok r;
        Done (Ok (Some s))
  end.

Definition cover (points : list Tumbler) : SpanSet := from_iter (subtree_of <$> points).

(** ** [union] and [equiv] *)

(** [a ⊔ b] up to the canonical form: the same canonical key. *)
Definition same_key (a b : SpanSet) : Prop := canonical_key a = canonical_key b.

#[export] Instance same_key_equivalence : Equivalence same_key.
Proof.
  unfold same_key. split; [by intros a|by intros a b|]. intros a b c. congruence.
Qed.

Lemma denotes_union a b t : denotes (union a b) t = denotes a t || denotes b t.
Proof. apply any_app. Qed.

Lemma equiv_cases a b :
  match equiv a b with
  | Ok v => (v = true ↔ ∀ t, denotes a t = denotes b t) ∧
      (∃ L, in_class L (spans a)) ∧ (∃ L, in_class L (spans b))
  | Err _ => (∀ L, ¬ in_class L (spans a)) ∨ (∀ L, ¬ in_class L (spans b))
  end.
Proof.
  unfold equiv. pose proof (normalize_cases a) as Ha. pose proof (normalize_cases b) as Hb.
  destruct (normalize a) as [na|], (normalize b) as [nb|]; [|by right|by left|by left].
  destruct Ha as (L & Hac & Hna & Hda & _), Hb as (M & Hbc & Hnb & Hdb & _).
  split; [|eauto]. rewrite bool_decide_eq_true. split.
  - intros <- t. by rewrite <- Hda, Hdb.
  - intros H. destruct na as [na], nb as [nb]. f_equal. apply (canonical_unique L M); [done..|].
    intros t. etransitivity; [apply Hda|]. rewrite H. symmetry. apply Hdb.
Qed.

(** Whether a set has a length class at all is its canonical key's success. *)
Lemma key_ok_in a : is_ok (canonical_key a) = true ↔ ∃ L, in_class L (spans a).
Proof.
  unfold canonical_key. pose proof (normalize_cases a) as H.
  destruct (normalize a) as [n|]; cbn.
  - destruct H as (L & H & _). split; [by exists L|done].
  - split; [done|]. intros [L HL]. by apply H in HL.
Qed.

(** Two sets of one class denote the same exactly when their keys agree. *)
Lemma same_key_iff L M a b :
  in_class L (spans a) → in_class M (spans b) →
  same_key a b ↔ ∀ t, denotes a t = denotes b t.
Proof.
  intros Ha Hb. pose proof (equiv_cases a b) as H. revert H. unfold same_key, canonical_key, equiv.
  destruct (normalize_in L a Ha) as [na ->], (normalize_in M b Hb) as [nb ->].
  rewrite bool_decide_eq_true. intros [<- _]. split; [by intros [= ->]|by intros ->].
Qed.

Lemma in_class_app L l k : in_class L (l ++ k) ↔ in_class L l ∧ in_class L k.
Proof. apply Forall_app. Qed.

(** ** The sweeps over canonical endpoint lists *)

Fixpoint e_canonical (L : nat) (l : list Endpoints) : Prop :=
  match l with
  | [] => True
  | e :: l => ends_ok L e ∧ (∀ x, x ∈ l → e_reach e <ₜ e_start x) ∧ e_canonical L l
  end.

Lemma e_canonical_of L l : canonical L l → e_canonical L (Endpoints_of <$> l).
Proof.
  induction l as [|s l IH]; cbn; [done|]. intros ([Hu <-] & Hg & Hc)%canonical_cons.
  split_and!; [by apply ends_ok_of| |by apply IH].
  intros x (y & -> & Hy)%list_elem_of_fmap. by apply Hg.
Qed.

Lemma e_canonical_any_after L e l t :
  e_canonical L (e :: l) → t <ₜ e_reach e → e_any l t = false.
Proof.
  intros (_ & Hg & _) Ht. apply e_any_false_after. intros x Hx%Hg. torder.
Qed.

Lemma intersect_sweep_cons a as_ b bs :
  intersect_sweep (a :: as_) (b :: bs) =
    (o ← intersection a b;
     out ← (if e_reach a ≤?ₜ e_reach b
            then intersect_sweep as_ (b :: bs) else intersect_sweep (a :: as_) bs);
     Done (option_list o ++ out)).
Proof. reflexivity. Qed.

(** What the intersection sweep owes: a canonical list of the common points, no
    longer than the operands together, that begins above either operand's starts. *)
Record intersects (L : nat) (as_ bs : list Endpoints) (out : list Span) : Prop := {
  intersects_canonical : canonical L out;
  intersects_length : length out ≤ length as_ + length bs;
  intersects_any t : any out t = e_any as_ t && e_any bs t;
  intersects_starts p :
    (∀ x, x ∈ as_ → p <ₜ e_start x) ∨ (∀ x, x ∈ bs → p <ₜ e_start x) →
    ∀ s, s ∈ out → p <ₜ start s
}.

Lemma intersects_nil L as_ bs : as_ = [] ∨ bs = [] → intersects L as_ bs [].
Proof.
  intros H. split; [apply canonical_nil|cbn; lia| |set_solver].
  intros t. destruct H as [-> | ->]; [done|]. by rewrite andb_false_r.
Qed.

(** The head of the side that ends first meets only the other side's head. *)
Lemma intersect_heads L a as_ b bs t :
  e_canonical L (a :: as_) → e_canonical L (b :: bs) →
  e_any (a :: as_) t && e_any (b :: bs) t =
    (e_contains a t && e_contains b t) ||
    (if e_reach a ≤?ₜ e_reach b then e_any as_ t && e_any (b :: bs) t
     else e_any (a :: as_) t && e_any bs t).
Proof.
  intros Ha Hb. rewrite !e_any_cons.
  destruct (leb_spec (e_reach a) (e_reach b)) as [Hle|Hlt].
  - destruct (e_contains a t) eqn:Hat; cbn; [|done].
    apply andb_true_iff in Hat as [_ Hat%ltb_lt].
    rewrite (e_canonical_any_after L a as_ t Ha Hat),
      (e_canonical_any_after L b bs t Hb ltac:(torder)). by rewrite !orb_false_r.
  - destruct (e_contains b t) eqn:Hbt; cbn; [|by rewrite andb_false_r].
    apply andb_true_iff in Hbt as [_ Hbt%ltb_lt].
    rewrite (e_canonical_any_after L a as_ t Ha ltac:(torder)),
      (e_canonical_any_after L b bs t Hb Hbt).
    by rewrite !andb_true_r, !orb_false_r, andb_false_r, orb_false_r.
Qed.

Lemma intersects_step L a as_ b bs o out :
  e_canonical L (a :: as_) → e_canonical L (b :: bs) → intersection a b = Done o →
  (if e_reach a ≤?ₜ e_reach b then intersects L as_ (b :: bs) out
   else intersects L (a :: as_) bs out) →
  intersects L (a :: as_) (b :: bs) (option_list o ++ out).
Proof.
  intros Ha Hb Ho Hrec. pose proof Ha as (Hae & Hag & _). pose proof Hb as (Hbe & Hbg & _).
  destruct (intersection_ok L a b Hae Hbe) as (o' & Ho' & Hod & Hos).
  rewrite Ho' in Ho. injection Ho as ->.
  assert (Hgap : ∀ s, s ∈ out → tmin (e_reach a) (e_reach b) <ₜ start s).
  { destruct (leb_spec (e_reach a) (e_reach b));
      apply (intersects_starts _ _ _ _ Hrec); [left|right]; intros x Hx;
      [apply Hag in Hx|apply Hbg in Hx]; tminmax; torder. }
  assert (Hout : canonical L out) by (destruct (_ ≤?ₜ _); apply Hrec).
  split.
  - apply canonical_app; [|done|].
    + destruct o as [s|]; [|apply canonical_nil].
      destruct Hos as (? & ? & _). by apply canonical_singleton.
    + intros x y Hx Hy%Hgap. destruct o as [s|]; [|set_solver].
      apply list_elem_of_singleton in Hx as ->. by destruct Hos as (_ & _ & _ & ->).
  - assert (length out ≤ S (length as_ + length bs)).
    { destruct (_ ≤?ₜ _); pose proof (intersects_length _ _ _ _ Hrec); cbn in *; lia. }
    destruct o; cbn; lia.
  - intros t. rewrite any_app, (intersect_heads L) by done. f_equal.
    + rewrite <- Hod. destruct o; cbn; [|done]. by rewrite any_cons, orb_false_r.
    + destruct (_ ≤?ₜ _); apply (intersects_any _ _ _ _ Hrec).
  - intros p Hp s [Hs|Hs]%elem_of_app.
    + destruct o as [s'|]; [|set_solver]. apply list_elem_of_singleton in Hs as ->.
      destruct Hos as (_ & _ & -> & _). destruct Hp as [Hp|Hp];
        [specialize (Hp a ltac:(set_solver))|specialize (Hp b ltac:(set_solver))]; tminmax; torder.
    + destruct (_ ≤?ₜ _); apply (intersects_starts _ _ _ _ Hrec p); set_solver.
Qed.

Lemma intersect_sweep_ok L as_ bs :
  e_canonical L as_ → e_canonical L bs →
  ∃ out, intersect_sweep as_ bs = Done out ∧ intersects L as_ bs out.
Proof.
  revert bs. induction as_ as [|a as_ IHa]; intros bs Ha Hb.
  { exists []. split; [by destruct bs|]. apply intersects_nil. by left. }
  induction bs as [|b bs IHb].
  { exists []. split; [done|]. apply intersects_nil. by right. }
  rewrite intersect_sweep_cons.
  destruct (intersection_ok L a b (proj1 Ha) (proj1 Hb)) as (o & Ho & _). rewrite Ho.
  pose proof (λ out, intersects_step L a as_ b bs o out Ha Hb Ho) as Hstep.
  destruct Ha as (Hae & Hag & Ha), Hb as (Hbe & Hbg & Hb). cbn [mbind outcome_bind].
  destruct (_ ≤?ₜ _); [destruct (IHa (b :: bs)) as (out & -> & H)|destruct IHb as (out & -> & H)];
    try done; exists (option_list o ++ out); (split; [done|by apply Hstep]).
Qed.

Lemma push_between_ok L s r :
  Tumbler_len s = L → Tumbler_len r = L →
  ∃ l, push_between s r = Done l ∧ canonical L l ∧
    length l = (if s <?ₜ r then 1 else 0) ∧
    (∀ t, any l t = (s ≤?ₜ t) && (t <?ₜ r)) ∧ (∀ x, x ∈ l → start x = s ∧ reach x = r).
Proof.
  intros Hs Hr. unfold push_between. destruct (ltb_spec s r) as [Hlt|Hge].
  - destruct (from_endpoints_ok s r) as (sp & -> & E1 & E2 & Hu); [congruence|done|].
    exists [sp]. split_and!; [done|apply canonical_singleton; congruence|done| |].
    + intros t. rewrite any_cons, orb_false_r. unfold contains. by rewrite E1, E2.
    + by intros x ->%list_elem_of_singleton.
  - exists []. split_and!; [done|apply canonical_nil|done| |set_solver].
    intros t. symmetry. apply not_true_iff_false. rewrite andb_true_iff, leb_le, ltb_lt.
    intros [? ?]. torder.
Qed.

(** How many b-spans start strictly inside [(lo, hi)]. *)
Definition starts_in (lo hi : Tumbler) (bs : list Endpoints) : nat :=
  length (filter (λ b, lo <ₜ e_start b ∧ e_start b <ₜ hi) bs).

Lemma starts_in_mono lo lo' hi bs : lo ≤ₜ lo' → starts_in lo' hi bs ≤ starts_in lo hi bs.
Proof.
  intros H. unfold starts_in. induction bs as [|b bs IH]; [done|]. rewrite !filter_cons.
  repeat case_decide; cbn; try lia. destruct_and!. exfalso. match goal with H : ¬ _ |- _ => apply H end.
  split; torder.
Qed.

(** What the inner loop owes for the part [[from, a_reach)] of an a-span. *)
Record carved (L : nat) (a_reach from : Tumbler) (bs : list Endpoints)
    (gaps : list Span) (last : Tumbler) : Prop := {
  carved_canonical : canonical L gaps;
  carved_last_len : Tumbler_len last = L;
  carved_last : from ≤ₜ last;
  carved_gaps x : x ∈ gaps → from ≤ₜ start x ∧ reach x <ₜ last ∧ reach x <ₜ a_reach;
  carved_any t : any gaps t || (last ≤?ₜ t) && (t <?ₜ a_reach)
    = (from ≤?ₜ t) && (t <?ₜ a_reach) && negb (e_any bs t);
  carved_length : length gaps ≤ starts_in from a_reach bs
}.

Lemma carved_nil L a_reach from bs :
  Tumbler_len from = L → (∀ b, b ∈ bs → a_reach ≤ₜ e_start b) →
  carved L a_reach from bs [] from.
Proof.
  intros Hl Hb. split; [apply canonical_nil|done|torder|set_solver| |cbn; lia].
  intros t. change (any [] t) with false.
  destruct (ltb_spec t a_reach) as [Hlt|]; [|by rewrite !andb_false_r].
  rewrite (e_any_false_after bs t); [by rewrite !andb_true_r|]. intros b Hx%Hb. torder.
Qed.

(** The gap before a b-span, and what is left once it is past. *)
Lemma carved_any_step L a_reach from b bs pushed t :
  e_canonical L (b :: bs) → from <ₜ a_reach → e_start b <ₜ a_reach →
  (∀ t, any pushed t = (from ≤?ₜ t) && (t <?ₜ e_start b)) →
  let from' := if from <?ₜ e_reach b then e_reach b else from in
  any pushed t || ((from' ≤?ₜ t) && (t <?ₜ a_reach) && negb (e_any bs t))
    = (from ≤?ₜ t) && (t <?ₜ a_reach) && negb (e_any (b :: bs) t).
Proof.
  intros Hb Hfa Hba Hp from'. rewrite e_any_cons, Hp. unfold e_contains.
  pose proof Hb as ((_ & _ & Hlt) & _).
  assert (Hafter : t <ₜ e_reach b → e_any bs t = false) by (by apply (e_canonical_any_after L)).
  unfold from'. clear from' Hp.
  destruct (ltb_spec from (e_reach b)), (leb_spec from t), (ltb_spec t a_reach),
    (ltb_spec t (e_start b)), (leb_spec (e_start b) t), (ltb_spec t (e_reach b)),
    (leb_spec (e_reach b) t); cbn; try torder; rewrite ?Hafter by torder; try done;
    try (exfalso; torder); by rewrite ?negb_involutive, ?andb_true_r.
Qed.

Lemma carved_step L a_reach from b bs pushed gaps last :
  e_canonical L (b :: bs) → from <ₜ a_reach → e_start b <ₜ a_reach → Tumbler_len from = L →
  push_between from (e_start b) = Done pushed →
  carved L a_reach (if from <?ₜ e_reach b then e_reach b else from) bs gaps last →
  carved L a_reach from (b :: bs) (pushed ++ gaps) last.
Proof.
  intros Hb Hfa Hba Hlen Hpush HC. pose proof Hb as ((Hbs & Hbr & Hblt) & _ & _).
  destruct (push_between_ok L from (e_start b)) as (l & E & Hc & Hl1 & Hd & Hx); [done|done|].
  rewrite E in Hpush. injection Hpush as ->.
  pose proof (carved_last _ _ _ _ _ _ HC) as Hlast.
  assert (Hfrom : from ≤ₜ (if from <?ₜ e_reach b then e_reach b else from)) by (tcase; torder).
  assert (Hreach : e_reach b ≤ₜ (if from <?ₜ e_reach b then e_reach b else from)) by (tcase; torder).
  split; try apply HC.
  - apply canonical_app; [done|apply HC|]. intros x y [_ ->]%Hx Hy.
    apply (carved_gaps _ _ _ _ _ _ HC) in Hy as [Hy _]. torder.
  - torder.
  - intros x [[E1 ->]%Hx|Hy]%elem_of_app.
    + rewrite E1. split_and!; torder.
    + apply (carved_gaps _ _ _ _ _ _ HC) in Hy as (? & ? & ?). split_and!; torder.
  - intros t. rewrite any_app, <- orb_assoc, (carved_any _ _ _ _ _ _ HC t).
    by apply (carved_any_step L).
  - rewrite length_app, Hl1. pose proof (carved_length _ _ _ _ _ _ HC) as Hc1.
    pose proof (starts_in_mono _ _ a_reach bs Hfrom) as Hc2.
    unfold starts_in in *. rewrite filter_cons.
    destruct (ltb_spec from (e_start b)); case_decide; cbn; try lia. naive_solver.
Qed.

Lemma carve_ok L a_reach bs from :
  e_canonical L bs → from <ₜ a_reach → Tumbler_len from = L →
  ∃ gaps last, carve a_reach from bs = Done (gaps, last) ∧ carved L a_reach from bs gaps last.
Proof.
  revert from. induction bs as [|b bs IH]; intros from Hb Hlt Hlen; cbn [carve].
  { exists [], from. split; [done|]. apply carved_nil; [done|set_solver]. }
  pose proof Hb as ((Hbs & Hbr & Hblt) & Hbg & Hb').
  destruct (ltb_spec (e_start b) a_reach) as [Hba|Hba]; cbn [negb].
  2: { exists [], from. split; [done|]. apply carved_nil; [done|].
       intros x [->|Hx%Hbg]%elem_of_cons; [done|torder]. }
  destruct (push_between_ok L from (e_start b)) as (pushed & Hp & _); [done|done|].
  rewrite Hp. cbn [mbind outcome_bind].
  pose proof (λ gaps last, carved_step L a_reach from b bs pushed gaps last Hb Hlt Hba Hlen Hp) as Hstep.
  set (from' := if from <?ₜ e_reach b then e_reach b else from) in *.
  assert (Hl' : Tumbler_len from' = L) by (unfold from'; by tcase).
  destruct (leb_spec a_reach from') as [Hle|Hlt'].
  - exists pushed, from'. split; [done|]. rewrite <- (app_nil_r pushed). apply Hstep.
    apply carved_nil; [done|]. intros x Hx%Hbg. unfold from' in Hle. revert Hle. tcase; intros; torder.
  - destruct (IH from' Hb' Hlt' Hl') as (gaps & last & -> & HC).
    exists (pushed ++ gaps), last. split; [done|]. by apply Hstep.
Qed.

Lemma skip_before_suffix s bs :
  ∃ pre, bs = pre ++ skip_before s bs ∧ ∀ x, x ∈ pre → e_reach x ≤ₜ s.
Proof.
  induction bs as [|b bs (pre & E & Hp)]; cbn; [exists []; split; [done|set_solver]|].
  destruct (leb_spec (e_reach b) s) as [Hle|]; [|exists []; split; [done|set_solver]].
  exists (b :: pre). split; [by rewrite E at 1|]. intros x [->|]%elem_of_cons; [done|by apply Hp].
Qed.

Lemma e_canonical_suffix L pre l : e_canonical L (pre ++ l) → e_canonical L l.
Proof. induction pre as [|e pre IH]; [done|]. intros (_ & _ & H). by apply IH. Qed.

Lemma e_any_app l k t : e_any (l ++ k) t = e_any l t || e_any k t.
Proof. apply existsb_app. Qed.

(** b-spans wholly at-or-before a point touch nothing from that point on. *)
Lemma e_any_skip s bs t : s ≤ₜ t → e_any (skip_before s bs) t = e_any bs t.
Proof.
  intros Hst. destruct (skip_before_suffix s bs) as (pre & E & Hp). rewrite E at 2.
  rewrite e_any_app. destruct (e_any pre t) eqn:H; [|done].
  apply e_any_spec in H as (e & He%Hp & _ & ?). torder.
Qed.

(** The b-spans that start strictly above a point. *)
Definition starts_above (p : Tumbler) (bs : list Endpoints) : nat :=
  length (filter (λ b, p <ₜ e_start b) bs).

Lemma starts_above_le p bs : starts_above p bs ≤ length bs.
Proof. apply length_filter. Qed.

Lemma starts_above_split p q hi bs :
  p ≤ₜ q → q <ₜ hi → starts_in q hi bs + starts_above hi bs ≤ starts_above p bs.
Proof.
  intros Hpq Hqh. unfold starts_in, starts_above. induction bs as [|b bs IH]; [done|].
  rewrite !filter_cons. repeat case_decide; cbn; destruct_and?; try lia; exfalso;
    try torder; match goal with H : ¬ _ |- _ => apply H; torder end.
Qed.

Lemma starts_above_skip p s bs : starts_above p (skip_before s bs) ≤ starts_above p bs.
Proof.
  destruct (skip_before_suffix s bs) as (pre & E & _). rewrite E at 2.
  unfold starts_above. rewrite filter_app, length_app. lia.
Qed.

(** What the difference sweep owes. *)
Record differs (L : nat) (as_ bs : list Endpoints) (out : list Span) : Prop := {
  differs_canonical : canonical L out;
  differs_any t : any out t = e_any as_ t && negb (e_any bs t);
  differs_starts p : (∀ x, x ∈ as_ → p <ₜ e_start x) → ∀ s, s ∈ out → p <ₜ start s;
  differs_length p : (∀ x, x ∈ as_ → p ≤ₜ e_start x) →
    length out ≤ length as_ + starts_above p bs
}.

Lemma differs_step L a as_ bs bs' gaps last tail out :
  e_canonical L (a :: as_) → e_canonical L bs' → bs' = skip_before (e_start a) bs →
  carved L (e_reach a) (e_start a) bs' gaps last →
  push_between last (e_reach a) = Done tail →
  differs L as_ bs' out →
  differs L (a :: as_) bs (gaps ++ tail ++ out).
Proof.
  intros Ha Hb' Hb HC Htail HD. pose proof Ha as ((Has & Har & Halt) & Hag & _).
  destruct (push_between_ok L last (e_reach a)) as (l & E & Hc & Hl1 & Hd & Hx);
    [apply HC|done|]. rewrite E in Htail. injection Htail as ->.
  pose proof (differs_starts _ _ _ _ HD (e_reach a) Hag) as Hout.
  pose proof (carved_last _ _ _ _ _ _ HC) as Hlast.
  pose proof (carved_gaps _ _ _ _ _ _ HC) as Hgaps.
  split.
  - apply canonical_app; [apply HC|apply canonical_app; [done|apply HD|]|].
    + intros x y [_ ->]%Hx Hy%Hout. done.
    + intros x y (_ & H1 & H2)%Hgaps [[-> _]%Hx|Hy%Hout]%elem_of_app; torder.
  - intros t. rewrite !any_app, Hd, orb_assoc, (carved_any _ _ _ _ _ _ HC), (differs_any _ _ _ _ HD).
    rewrite e_any_cons. unfold e_contains at 1. subst bs'.
    destruct (leb_spec (e_start a) t) as [Hat|Hat]; [rewrite e_any_skip by done|].
    + destruct (t <?ₜ _), (e_any as_ t), (e_any bs t); done.
    + rewrite (e_any_false_after as_ t); [done|]. intros x Hxx%Hag. torder.
  - intros p Hp s Hs. pose proof (Hp a ltac:(set_solver)) as Hpa.
    rewrite !elem_of_app in Hs. destruct Hs as [(Hs & _)%Hgaps|[[-> _]%Hx|Hs%Hout]]; torder.
  - intros p Hp. rewrite !length_app, Hl1.
    pose proof (carved_length _ _ _ _ _ _ HC) as H1.
    pose proof (differs_length _ _ _ _ HD (e_reach a)) as H2.
    pose proof (starts_above_split p (e_start a) (e_reach a) bs' (Hp a ltac:(set_solver)) Halt) as H3.
    pose proof (starts_above_skip p (e_start a) bs) as H4. rewrite <- Hb in H4.
    assert (∀ x, x ∈ as_ → e_reach a ≤ₜ e_start x) as H5 by (intros x Hxx%Hag; torder).
    specialize (H2 H5). cbn [length]. destruct (_ <?ₜ _); lia.
Qed.

Lemma difference_sweep_ok L as_ bs :
  e_canonical L as_ → e_canonical L bs →
  ∃ out, difference_sweep as_ bs = Done out ∧ differs L as_ bs out.
Proof.
  revert bs. induction as_ as [|a as_ IH]; intros bs Ha Hb; cbn [difference_sweep].
  { exists []. split; [done|]. split; [apply canonical_nil|done|set_solver|cbn; lia]. }
  pose proof Ha as ((Has & Har & Halt) & _ & Ha').
  assert (Hb' : e_canonical L (skip_before (e_start a) bs)).
  { destruct (skip_before_suffix (e_start a) bs) as (pre & E & _). rewrite E in Hb.
    by eapply e_canonical_suffix. }
  destruct (carve_ok L (e_reach a) _ (e_start a) Hb' Halt Has) as (gaps & last & -> & HC). cbn.
  destruct (push_between_ok L last (e_reach a)) as (tail & Ht & _); [apply HC|done|].
  rewrite Ht. cbn. destruct (IH _ Ha' Hb') as (out & -> & HD). cbn.
  exists (gaps ++ tail ++ out). split; [done|]. by eapply differs_step.
Qed.

(** ** The gate of the set operations *)

Lemma in_class_unique L M l : in_class L l → in_class M l → l ≠ [] → L = M.
Proof.
  destruct l as [|s l]; [done|]. intros [[_ <-] _]%Forall_cons [[_ <-] _]%Forall_cons. done.
Qed.

Lemma level_class_canonical L n :
  canonical L (spans n) → level_class n = Ok (if nonemptyb (spans n) then Some L else None).
Proof.
  intros [Hc _]. destruct (nonemptyb (spans n)) eqn:E.
  - by apply level_class_in, nonemptyb_spec.
  - unfold level_class. by destruct (spans n).
Qed.

(** A set and its canonical form are empty together. *)
Lemma same_denotation_nil a b :
  (∀ t, denotes a t = denotes b t) → spans a = [] → spans b = [].
Proof.
  destruct b as [[|s l]]; [done|]. intros Hd Ha. specialize (Hd (start s)).
  unfold denotes in Hd. cbn in Hd. by rewrite Ha, contains_start in Hd.
Qed.

Lemma nil_in_class L l : l = [] → in_class L l.
Proof. intros ->. apply Forall_nil_2. Qed.

Lemma nil_canonical L l : l = [] → canonical L l.
Proof. intros ->. apply canonical_nil. Qed.

(** The working form of two sets in one class: canonical on both sides, with the
    same denotations, and no longer than the sets given. *)
Definition gated (a b : SpanSet) (ea eb : list Endpoints) (L : nat) : Prop :=
  in_class L (spans a) ∧ in_class L (spans b) ∧ e_canonical L ea ∧ e_canonical L eb ∧
  (∀ t, e_any ea t = denotes a t) ∧ (∀ t, e_any eb t = denotes b t) ∧
  length ea ≤ SpanSet_len a ∧ length eb ≤ SpanSet_len b.

Lemma normalized_endpoints_cases a b :
  match normalized_endpoints a b with
  | Err _ => ∀ L, ¬ (in_class L (spans a) ∧ in_class L (spans b))
  | Ok (ea, eb) => ∃ L, gated a b ea eb L
  end.
Proof.
  unfold normalized_endpoints.
  pose proof (normalize_cases a) as Ha. destruct (normalize a) as [na|]; [|naive_solver].
  pose proof (normalize_cases b) as Hb. destruct (normalize b) as [nb|]; [|naive_solver].
  destruct Ha as (La & Hac & Hna & Hda & Hla), Hb as (Lb & Hbc & Hnb & Hdb & Hlb).
  rewrite (level_class_canonical La na Hna), (level_class_canonical Lb nb Hnb).
  assert (Hok : ∀ L, in_class L (spans a) → in_class L (spans b) →
    canonical L (spans na) → canonical L (spans nb) →
    ∃ L, gated a b (Endpoints_of <$> spans na) (Endpoints_of <$> spans nb) L).
  { intros L H1 H2 H3 H4. exists L. unfold gated. rewrite !length_fmap.
    split_and!; try done; try (by apply e_canonical_of); intros t; rewrite e_any_of;
      [apply Hda|apply Hdb]. }
  destruct (nonemptyb (spans na)) eqn:Ea.
  2: { assert (En : spans na = []) by (by destruct (spans na)).
       apply (Hok Lb); [|done|by apply nil_canonical|done].
       by apply nil_in_class, (same_denotation_nil na). }
  destruct (nonemptyb (spans nb)) eqn:Eb.
  2: { assert (En : spans nb = []) by (by destruct (spans nb)).
       apply (Hok La); [done| |done|by apply nil_canonical].
       by apply nil_in_class, (same_denotation_nil nb). }
  destruct (Nat.eqb_spec La Lb) as [<-|Hne]; cbn [negb]; [by apply (Hok La)|].
  intros L [H1 H2]. apply Hne. apply nonemptyb_spec in Ea, Eb. trans L.
  - eapply in_class_unique; [exact Hac|exact H1|]. intros E.
    by apply Ea, (same_denotation_nil a).
  - eapply in_class_unique; [exact H2|exact Hbc|]. intros E.
    by apply Eb, (same_denotation_nil b).
Qed.

(** Both sets lie in one length class, ⟨⟩ in any. *)
Definition sets_compatible (a b : SpanSet) : Prop :=
  ∃ L, in_class L (spans a) ∧ in_class L (spans b).

Lemma difference_sets_cases a b :
  match difference_sets a b with
  | Panicked => False
  | Done (Err _) => ¬ sets_compatible a b
  | Done (Ok s) => ∃ L, in_class L (spans a) ∧ in_class L (spans b) ∧ canonical L (spans s) ∧
      (∀ t, denotes s t = denotes a t && negb (denotes b t)) ∧
      SpanSet_len s ≤ SpanSet_len a + SpanSet_len b
  end.
Proof.
  unfold difference_sets, sets_compatible. pose proof (normalized_endpoints_cases a b) as H.
  destruct (normalized_endpoints a b) as [[ea eb]|]; cbn; [|naive_solver].
  destruct H as (L & Ha & Hb & Hea & Heb & Hda & Hdb & Hla & Hlb).
  destruct (difference_sweep_ok L ea eb Hea Heb) as (out & -> & HD). cbn. exists L. split_and!; [done|done|apply HD| |].
  - intros t. rewrite <- Hda, <- Hdb. apply (differs_any _ _ _ _ HD).
  - assert (Hp : ∃ p, ∀ x, x ∈ ea → p ≤ₜ e_start x).
    { destruct ea as [|e ea]; [exists (tum []); set_solver|]. exists (e_start e).
      destruct Hea as ((_ & _ & ?) & Hg & _). intros x [->|Hx%Hg]%elem_of_cons; torder. }
    destruct Hp as [p Hp]. pose proof (differs_length _ _ _ _ HD p Hp) as H1.
    pose proof (starts_above_le p eb) as H2. unfold SpanSet_len in *. cbn. lia.
Qed.

Lemma difference_sets_class L a b :
  spans a ≠ [] → in_class L (spans a) → in_class L (spans b) →
  ∃ s, difference_sets a b = Done (Ok s) ∧ canonical L (spans s) ∧
    ∀ t, denotes s t = denotes a t && negb (denotes b t).
Proof.
  intros Hne Ha Hb. pose proof (difference_sets_cases a b) as H.
  destruct (difference_sets a b) as [[s|]|]; [|exfalso; apply H; by exists L|done].
  destruct H as (M & HM & _ & Hc & Hd & _). exists s.
  by rewrite (in_class_unique _ _ _ Ha HM Hne).
Qed.

(** ** The claims *)

(** S8/S9: [normalize] never panics, refuses exactly the sets that are not one
    class of level-uniform spans, and otherwise denotes the same set in ascending,
    pairwise-separated, level-uniform spans, no more of them than it was given; a
    second pass changes nothing, and [is_normalized] recognises exactly these. *)
Theorem normalize_spec (set : SpanSet) :
  match normalize_at set with
  | Panicked => False
  | Done (Err _) => ∀ L, ¬ in_class L (spans set)
  | Done (Ok n) =>
      (∀ t, denotes n t = denotes set t) ∧
      (∃ L, in_class L (spans set) ∧ in_class L (spans n)) ∧
      StronglySorted (λ a b, reach a <ₜ start b) (spans n) ∧
      SpanSet_len n ≤ SpanSet_len set ∧
      normalize_at n = Done (Ok n) ∧ is_normalized n = true ∧
      (is_normalized set = true ↔ n = set)
  end.
Proof.
  rewrite (total_spec _ (normalize_done set)). fold (normalize set).
  pose proof (normalize_cases set) as H. destruct (normalize set) as [n|] eqn:E; [|done].
  destruct H as (L & Hc & Hn & Hd & Hlen). pose proof (normalize_canonical L n Hn) as Hnn.
  split_and!; [done|exists L; split; [done|apply Hn]|apply Hn|done| | |].
  - rewrite (total_spec _ (normalize_done n)). by fold (normalize n); f_equal.
  - apply is_normalized_spec. by exists L.
  - unfold is_normalized. rewrite E. apply bool_decide_eq_true.
Qed.

(** S9: [equiv] refuses exactly when one operand has no canonical form, and
    otherwise answers denotational equality, across length classes too; and the
    canonical key of two sets agrees exactly when they denote the same. *)
Theorem equiv_exact (a b : SpanSet) :
  match equiv a b with
  | Err _ => canonical_key a = Err LevelMismatch_ ∨ canonical_key b = Err LevelMismatch_
  | Ok v =>
      is_ok (canonical_key a) = true ∧ is_ok (canonical_key b) = true ∧
      (v = true ↔ ∀ t, denotes a t = denotes b t) ∧
      (canonical_key a = canonical_key b ↔ ∀ t, denotes a t = denotes b t)
  end.
Proof.
  pose proof (equiv_cases a b) as H. destruct (equiv a b) as [v|].
  - destruct H as (Hv & Ha & Hb). rewrite !key_ok_in. split_and!; try done.
    destruct Ha as [L Ha], Hb as [M Hb]. by apply (same_key_iff L M).
  - assert (Hk : ∀ s, (∀ L, ¬ in_class L (spans s)) → canonical_key s = Err LevelMismatch_).
    { intros s Hs. destruct (canonical_key s) as [k|[]] eqn:E; [|done].
      destruct (proj1 (key_ok_in s)) as [L HL]; [by rewrite E|by apply Hs in HL]. }
    destruct H; [left|right]; by apply Hk.
Qed.

(** S10: span-sets form a join-semilattice under [union] up to the canonical
    key: [union] denotes the union, is associative as it stands, and within one
    class is commutative and idempotent, has [⟨⟩] as unit and respects the key. *)
Theorem union_semilattice (a b c d : SpanSet) (L : nat) :
  in_class L (spans a) → in_class L (spans b) → in_class L (spans c) → in_class L (spans d) →
  (∀ t, denotes (union a b) t = denotes a t || denotes b t) ∧
  union a (union b c) = union (union a b) c ∧
  same_key (union a b) (union b a) ∧ same_key (union a a) a ∧
  union empty a = a ∧ union a empty = a ∧
  (same_key a c → same_key b d → same_key (union a b) (union c d)).
Proof.
  intros Ha Hb Hc Hd.
  assert (Hu : ∀ x y, in_class L (spans x) → in_class L (spans y) → in_class L (spans (union x y))).
  { intros x y Hx Hy. by apply in_class_app. }
  split_and!; [apply denotes_union| | | | | |].
  - unfold union. cbn. by rewrite app_assoc.
  - apply (same_key_iff L L); [by apply Hu..|]. intros t. rewrite !denotes_union. apply orb_comm.
  - apply (same_key_iff L L); [by apply Hu|done|]. intros t. rewrite denotes_union. apply orb_diag.
  - by destruct a.
  - unfold union. rewrite app_nil_r. by destruct a.
  - rewrite !(same_key_iff L L) by auto. intros H1 H2 t. by rewrite !denotes_union, H1, H2.
Qed.

(** [intersect_sets] never panics, refuses exactly the pairs without a common
    class, and otherwise is a normalized set denoting the intersection, of at most
    [|a| + |b|] spans. *)
Theorem intersect_sets_spec (a b : SpanSet) :
  match intersect_sets a b with
  | Panicked => False
  | Done (Err _) => ¬ sets_compatible a b
  | Done (Ok s) =>
      sets_compatible a b ∧ (∀ t, denotes s t = denotes a t && denotes b t) ∧
      is_normalized s = true ∧ SpanSet_len s ≤ SpanSet_len a + SpanSet_len b
  end.
Proof.
  unfold intersect_sets, sets_compatible. pose proof (normalized_endpoints_cases a b) as H.
  destruct (normalized_endpoints a b) as [[ea eb]|]; cbn; [|naive_solver].
  destruct H as (L & Ha & Hb & Hea & Heb & Hda & Hdb & Hla & Hlb).
  destruct (intersect_sweep_ok L ea eb Hea Heb) as (out & -> & HI). cbn. split_and!.
  - by exists L.
  - intros t. rewrite <- Hda, <- Hdb. apply (intersects_any _ _ _ _ HI).
  - apply is_normalized_spec. exists L. apply HI.
  - pose proof (intersects_length _ _ _ _ HI). unfold SpanSet_len in *. cbn. lia.
Qed.

(** S11: [difference_sets] never panics, refuses exactly the pairs without a
    common class, and otherwise is a normalized set denoting the set difference,
    within the fan-out bound [|a| + |b|]. *)
Theorem difference_sets_spec (a b : SpanSet) :
  match difference_sets a b with
  | Panicked => False
  | Done (Err _) => ¬ sets_compatible a b
  | Done (Ok s) =>
      sets_compatible a b ∧ (∀ t, denotes s t = denotes a t && negb (denotes b t)) ∧
      is_normalized s = true ∧ SpanSet_len s ≤ SpanSet_len a + SpanSet_len b
  end.
Proof.
  pose proof (difference_sets_cases a b) as H. destruct (difference_sets a b) as [[s|]|]; try done.
  destruct H as (L & Ha & Hb & Hc & Hd & Hl). split_and!; [by exists L|done| |done].
  apply is_normalized_spec. by exists L.
Qed.

Lemma union_semilattice_witness :
  let a := singleton (subtree_of (tum [1%N])) in
  let b := singleton (subtree_of (tum [2%N])) in
  same_key (union a b) (union b a).
Proof.
  intros a b.
  assert (H : ∀ p, Tumbler_len p = 1 → in_class 1 (spans (singleton (subtree_of p)))).
  { intros p Hp. destruct (subtree_of_spec p) as (Hs & _ & Hu). apply Forall_singleton.
    split; [done|by rewrite Hs]. }
  refine (proj1 (proj2 (proj2 (union_semilattice a b a b 1 _ _ _ _)))); by apply H.
Defined.

(** Off the disjoint cases, [difference] is the left and the right complement,
    each where it is nonempty. *)
Lemma difference_pieces a b ea eb :
  gated_endpoints a b = Ok (ea, eb) → ea = Endpoints_of a → eb = Endpoints_of b →
  difference a b =
    match relate ea eb with
    | OSeparated | OAdjacent => Done (Ok (singleton a))
    | _ =>
        l ← push_between (start a) (start b);
        r ← push_between (reach b) (reach a);
        Done (Ok (from_iter (l ++ r)))
    end.
Proof.
  intros Hg -> ->. unfold difference. rewrite Hg. cbn.
  pose proof (relate_cases (Endpoints_of a) (Endpoints_of b) (start_lt_reach a) (start_lt_reach b))
    as Hrel. cbn in Hrel.
  unfold push_between. destruct (relate _ _); try reflexivity;
    destruct (ltb_spec (start a) (start b)), (ltb_spec (reach b) (reach a)); destruct_and?;
    try reflexivity; try (exfalso; torder);
    repeat match goal with |- context [Span_from_endpoints ?s ?r] =>
      destruct (Span_from_endpoints s r) as [[]|] end; reflexivity.
Qed.

Lemma in_class_canonical_one L s : in_class L [s] → canonical L [s].
Proof. intros [[Hu Hs] _]%Forall_cons. by apply canonical_singleton. Qed.

Lemma difference_ok a b :
  level_compatible a b →
  ∃ d, difference a b = Done (Ok d) ∧
    (∀ t, denotes d t = contains a t && negb (contains b t)) ∧
    SpanSet_len d ≤ 2 ∧ canonical (Tumbler_len (start a)) (spans d).
Proof.
  intros Hc. pose proof Hc as (Ha & Hb & Hlen).
  destruct (gated_endpoints_cases a b) as [[_ Hg]|[? _]]; [|done].
  rewrite (difference_pieces a b _ _ Hg eq_refl eq_refl). clear Hg.
  pose proof (ends_ok_of a Ha) as (Ha1 & Ha2 & Ha3).
  pose proof (ends_ok_of b Hb) as (Hb1 & Hb2 & Hb3). rewrite <- Hlen in Hb1, Hb2. cbn in *.
  destruct (push_between_ok _ (start a) (start b) Ha1 Hb1) as (l & -> & Hlc & Hll & Hld & Hlx).
  destruct (push_between_ok _ (reach b) (reach a) Hb2 Ha2) as (r & -> & Hrc & Hrl & Hrd & Hrx).
  pose proof (relate_cases (Endpoints_of a) (Endpoints_of b) Ha3 Hb3) as Hrel. cbn in Hrel.
  assert (Hdisj : reach a ≤ₜ start b ∨ reach b ≤ₜ start a →
    ∃ d, Done (Ok (singleton a)) = Done (A := result SpanSet LevelMismatch) (Ok d) ∧
    (∀ t, denotes d t = contains a t && negb (contains b t)) ∧
    SpanSet_len d ≤ 2 ∧ canonical (Tumbler_len (start a)) (spans d)).
  { intros H. exists (singleton a). split_and!; [done| |cbn; lia|by apply canonical_singleton].
    intros t. unfold denotes. cbn. rewrite orb_false_r. unfold contains.
    destruct (leb_spec (start a) t), (ltb_spec t (reach a)), (leb_spec (start b) t),
      (ltb_spec t (reach b)), H; cbn; first [done|exfalso; torder]. }
  assert (Hcut : start b ≤ₜ reach a → start a ≤ₜ reach b →
    ∃ d, Done (Ok (from_iter (l ++ r))) = Done (A := result SpanSet LevelMismatch) (Ok d) ∧
    (∀ t, denotes d t = contains a t && negb (contains b t)) ∧
    SpanSet_len d ≤ 2 ∧ canonical (Tumbler_len (start a)) (spans d)).
  { intros H1 H2. exists (from_iter (l ++ r)). split_and!; [done| | |].
    - intros t. etransitivity; [apply any_app|]. rewrite Hld, Hrd. unfold contains.
      destruct (leb_spec (start a) t), (ltb_spec t (reach a)), (leb_spec (start b) t),
        (ltb_spec t (reach b)), (ltb_spec t (start b)), (leb_spec (reach b) t);
        cbn; first [done|exfalso; torder].
    - unfold SpanSet_len. cbn. rewrite length_app, Hll, Hrl. repeat case_match; lia.
    - apply canonical_app; [done..|]. intros x y [_ ->]%Hlx [-> _]%Hrx. done. }
  destruct (relate _ _); cbn; [apply Hdisj|apply Hdisj|apply Hcut..]; destruct_and?; destruct_or?;
    try torder; first [left; torder|right; torder].
Qed.

(** S11d: [difference] refuses exactly an incompatible pair, never panics, and
    otherwise is a normalized set of at most two spans denoting the difference. *)
Theorem difference_spec (a b : Span) :
  match difference a b with
  | Panicked => False
  | Done (Err _) => ¬ level_compatible a b
  | Done (Ok d) =>
      level_compatible a b ∧ (∀ t, denotes d t = contains a t && negb (contains b t)) ∧
      SpanSet_len d ≤ 2 ∧ is_normalized d = true
  end.
Proof.
  destruct (gated_endpoints_cases a b) as [[Hc _]|[Hc Hg]].
  - destruct (difference_ok a b Hc) as (d & -> & Hd & Hlen & Hcan). split_and!; try done.
    apply is_normalized_spec. eauto.
  - unfold difference. by rewrite Hg.
Qed.

(** ** The partition by class, the hull and the cover *)

Definition spans_of_len (k : nat) (l : list Span) : list Span :=
  filter (λ s, Tumbler_len (start s) = k) l.

Lemma by_level_class_fold l m k :
  foldl (λ classes s,
           let len := Tumbler_len (start s) in
           <[len := default [] (classes !! len) ++ [s]]> classes) m l !! k
  = match spans_of_len k l with
    | [] => (m : gmap nat (list Span)) !! k
    | x :: xs => Some (default [] (m !! k) ++ x :: xs)
    end.
Proof.
  revert m. induction l as [|s l IH]; intros m; [done|]. cbn [foldl]. rewrite IH.
  unfold spans_of_len. rewrite filter_cons. destruct (decide (_ = k)) as [<-|Hne].
  - rewrite lookup_insert_eq. destruct (filter _ l); [done|]. cbn. by rewrite <- app_assoc.
  - by rewrite lookup_insert_ne.
Qed.

Lemma by_level_class_lookup set k :
  by_level_class set !! k =
    match spans_of_len k (spans set) with [] => None | l => Some (from_iter l) end.
Proof.
  unfold by_level_class. rewrite lookup_fmap, by_level_class_fold.
  case_match; [by rewrite lookup_empty|]. by rewrite lookup_empty.
Qed.

Lemma denotes_from_iter l t : denotes (from_iter l) t = any l t.
Proof. reflexivity. Qed.

(** [by_level_class] partitions the component spans by the length of their
    start, order kept and no class empty: the classes together denote the set, and
    each class of level-uniform spans has a canonical form. *)
Theorem by_level_class_spec (set : SpanSet) :
  (∀ k c, by_level_class set !! k = Some c ↔
     spans c ≠ [] ∧ spans c = filter (λ s, Tumbler_len (start s) = k) (spans set)) ∧
  (∀ t, denotes set t = true ↔
     ∃ k c, by_level_class set !! k = Some c ∧ denotes c t = true) ∧
  (∀ k c, Forall (λ s, is_level_uniform s = true) (spans set) →
     by_level_class set !! k = Some c → is_ok (canonical_key c) = true).
Proof.
  assert (Hlook : ∀ k c, by_level_class set !! k = Some c ↔
     spans c ≠ [] ∧ spans c = spans_of_len k (spans set)).
  { intros k [c]. rewrite by_level_class_lookup. destruct (spans_of_len _ _) as [|x xs]; cbn.
    - split; [done|]. by intros [? ->].
    - split; [by intros [= <-]|]. by intros [_ ->]. }
  split_and!; [exact Hlook| |].
  - intros t. unfold denotes. fold (any (spans set) t). rewrite any_spec. split.
    + intros (s & Hs & Ht). set (k := Tumbler_len (start s)).
      assert (Hin : s ∈ spans_of_len k (spans set)) by by apply list_elem_of_filter.
      exists k, (from_iter (spans_of_len k (spans set))). split.
      * apply Hlook. split; [|done]. cbn. by destruct (spans_of_len k (spans set)); [apply elem_of_nil in Hin|].
      * apply any_spec. by exists s.
    + intros (k & c & [_ Hc]%Hlook & Ht). apply any_spec in Ht as (s & Hs & Ht).
      rewrite Hc in Hs. apply list_elem_of_filter in Hs as [_ Hs]. by exists s.
  - intros k c HF [_ Hc]%Hlook. apply key_ok_in. exists k. rewrite Hc.
    apply Forall_forall. intros s [Hk Hs]%list_elem_of_filter. split; [|done].
    by eapply (proj1 (Forall_forall _ _)) in HF.
Qed.

Lemma extremes_spec points first :
  let '(lo, hi) := foldl (λ '(lo, hi) p, (if p <?ₜ lo then p else lo, if hi <?ₜ p then p else hi))
    (first, first) points in
  lo ∈ first :: points ∧ hi ∈ first :: points ∧ ∀ p, p ∈ first :: points → lo ≤ₜ p ∧ p ≤ₜ hi.
Proof.
  induction points as [|x points IH] using rev_ind; cbn.
  - split_and!; [set_solver..|]. intros p ->%list_elem_of_singleton. split; torder.
  - rewrite foldl_app. cbn. destruct (foldl _ _ points) as [lo hi].
    destruct IH as (Hlo & Hhi & H).
    assert (Hsplit : ∀ p, p ∈ first :: points ++ [x] ↔ p ∈ first :: points ∨ p = x) by set_solver.
    setoid_rewrite Hsplit. split_and!.
    + destruct (_ <?ₜ _); [by right|by left].
    + destruct (_ <?ₜ _); [by right|by left].
    + pose proof (H lo Hlo) as [_ Hlh]. intros p [[? ?]%H| ->];
        destruct (ltb_spec x lo), (ltb_spec hi x); split; torder.
Qed.

(** S0: [hull] never panics; it answers [None] exactly for no points, refuses
    exactly when the least and the greatest point differ in length, and otherwise
    is a level-uniform span that covers every point and that no other covering
    span of its class is tighter than. *)
Theorem hull_spec (points : list Tumbler) :
  match hull_at points with
  | Panicked => False
  | Done (Ok None) => points = []
  | Done (Err _) => ∃ lo hi, lo ∈ points ∧ hi ∈ points ∧
      (∀ p, p ∈ points → lo ≤ₜ p ∧ p ≤ₜ hi) ∧ Tumbler_len lo ≠ Tumbler_len hi
  | Done (Ok (Some s)) =>
      is_level_uniform s = true ∧ start s ∈ points ∧ (∀ p, p ∈ points → contains s p = true) ∧
      ∀ s', is_level_uniform s' = true → Tumbler_len (start s') = Tumbler_len (start s) →
        (∀ p, p ∈ points → contains s' p = true) → start s' ≤ₜ start s ∧ reach s ≤ₜ reach s'
  end.
Proof.
  unfold hull_at. destruct points as [|first points]; [done|].
  pose proof (extremes_spec points first) as H.
  destruct (foldl _ _ points) as [lo hi]. destruct H as (Hlo & Hhi & H).
  destruct (Nat.eqb_spec (Tumbler_len lo) (Tumbler_len hi)) as [Hlen|Hlen]; cbn [negb];
    [|by exists lo, hi].
  destruct (H lo Hlo) as [_ Hlh]. pose proof (next_lt hi) as Hn.
  destruct (from_endpoints_ok lo (next_at_length hi)) as (s & -> & Es & Er & Hu);
    [by rewrite next_len|torder|]. cbn. split_and!; [done|by rewrite Es| |].
  - intros p [? ?]%H. apply contains_spec. rewrite Es, Er. split; torder.
  - intros s' Hu' Hl' Hc. rewrite Es in *. rewrite Er.
    pose proof (Hc lo Hlo) as [? _]%contains_spec. pose proof (Hc hi Hhi) as [_ ?]%contains_spec.
    split; [done|]. apply next_least; [|done]. rewrite uniform_reach_len by done. congruence.
Qed.

(** S7: [cover] has one span per point, each level-uniform, and denotes exactly
    the extensions of the points, the points themselves among them. *)
Theorem cover_spec (points : list Tumbler) :
  SpanSet_len (cover points) = length points ∧
  Forall (λ s, is_level_uniform s = true) (spans (cover points)) ∧
  (∀ t, denotes (cover points) t = true ↔ ∃ p, p ∈ points ∧ is_prefix p t = true) ∧
  ∀ p, p ∈ points → denotes (cover points) p = true.
Proof.
  assert (Hd : ∀ t, denotes (cover points) t = true ↔ ∃ p, p ∈ points ∧ is_prefix p t = true).
  { intros t. unfold denotes. fold (any (spans (cover points)) t). rewrite any_spec. split.
    - intros (s & (p & -> & Hp)%list_elem_of_fmap & Ht). exists p. split; [done|].
      rewrite <- Ht. symmetry. apply subtree_contains.
    - intros (p & Hp & Ht). exists (subtree_of p). split; [by apply list_elem_of_fmap_2|].
      rewrite <- Ht. apply subtree_contains. }
  split_and!; [apply length_fmap| |exact Hd|].
  - apply Forall_fmap, Forall_true. intros p. apply subtree_of_spec.
  - intros p Hp. apply Hd. exists p. split; [done|]. by apply is_prefix_spec.
Qed.
