(* ===== verification/Runs.v ===== *)
(** * Runs: contiguous I-extents and their position arithmetic

    Models [crates/skep-arrangement/src/run.rs]: the run value and its checked
    door, the address at an offset, the reach, the walk over a run's addresses,
    the I-extent lift, and the offsets a span covers, in both of its branches.
    A run is a plain record here, since the crate's own sites build it by
    literal; its standing invariants are the predicate [run_ok], which those
    sites are proved to keep. *)

From stdpp Require Import numbers.
From S2P Require Import Prelude Tumblers Addresses Arith Spans.

Record Run := MkRun { i_start : Address; run_width : Nat }.

#[export] Instance Run_eq_dec : EqDecision Run.
Proof. solve_decision. Defined.

Inductive RunError := RunZeroWidth | NotAnElementPosition.

Record OffsetRange := MkOffsetRange { off_lo : Nat; off_hi : Nat }.

(** [hi - lo], a checked natural subtraction. *)
Definition OffsetRange_width (r : OffsetRange) : outcome Nat := nat_sub (off_hi r) (off_lo r).

Definition admits_start (a : Address) : bool :=
  match element_field a with Some e => length e =? 2 | None => false end.

Definition Run_new (a : Address) (w : Nat) : result Run RunError :=
  if nat_is_zero w then Err RunZeroWidth
  else if negb (admits_start a) then Err NotAnElementPosition
  else Ok (MkRun a w).

(** [TryFrom<RunShadow>]: the decode door. *)
Definition Run_try_from (s : Address * Nat) : result Run RunError := Run_new s.1 s.2.

(** The [debug_assert!] on the offset is a panic point. *)
Definition tumbler_at (r : Run) (k : Nat) : outcome Tumbler :=
  _ ← assert (k <=? run_width r)%N;
  Done (shift (tumbler (i_start r)) k).

Definition addr_at (r : Run) (k : Nat) : outcome Address :=
  t ← tumbler_at r k;
  expect_ok (validate t).

Definition run_reach_at (r : Run) : outcome Tumbler := tumbler_at r (run_width r).

(** The offsets [0, w), ascending. *)
Definition offsets (w : Nat) : list Nat := N.of_nat <$> seq 0 (N.to_nat w).

(** [from_fn]'s closure state is the next offset; it yields while [k < width]. *)
Definition addrs_of (r : Run) : outcome (list Address) :=
  outcome_map (addr_at r) (offsets (run_width r)).

Definition iextent (r : Run) : outcome Span :=
  reach ← run_reach_at r;
  s ← Span_from_endpoints (tumbler (i_start r)) reach;
  expect_ok s.

(** The binary search; the fuel bounds the halvings of [hi - lo]. *)
Fixpoint lower_bound_loop (r : Run) (bound : Tumbler) (fuel : nat) (lo hi : Nat) : outcome Nat :=
  if (lo <? hi)%N then
    match fuel with
    | 0 => Panicked
    | S fuel =>
        let mid := ((lo + hi) / 2)%N in
        t ← tumbler_at r mid;
        if bound ≤?ₜ t then lower_bound_loop r bound fuel lo mid
        else lower_bound_loop r bound fuel (mid + 1)%N hi
    end
  else Done lo.

Definition lower_bound (r : Run) (bound : Tumbler) : outcome Nat :=
  lower_bound_loop r bound (N.to_nat (N.size (run_width r))) 0 (run_width r).

Definition offsets_covered_by (r : Run) (span : Span) : outcome (option OffsetRange) :=
  let addr_len := Tumbler_len (tumbler (i_start r)) in
  if is_level_uniform span && (Tumbler_len (start span) =? addr_len) then
    e ← iextent r;
    i ← intersect e span;
    i ← expect_ok i;
    match i with
    | None => Done None
    | Some intersection =>
        let start_ordinal := ordinal (tumbler (i_start r)) in
        lo ← nat_sub (ordinal (start intersection)) start_ordinal;
        hi ← nat_sub (ordinal (reach intersection)) start_ordinal;
        Done (Some (MkOffsetRange lo hi))
    end
  else
    k_lo ← lower_bound r (start span);
    k_hi ← lower_bound r (reach span);
    Done (if (k_lo <? k_hi)%N then Some (MkOffsetRange k_lo k_hi) else None).

(** ** The standing invariants *)

Definition run_ok (r : Run) : Prop := (1 ≤ run_width r)%N ∧ admits_start (i_start r) = true.

#[export] Instance run_ok_dec r : Decision (run_ok r).
Proof. unfold run_ok. apply _. Defined.

(** A full element position: everything but the ordinal, and the ordinal. *)
Lemma admits_start_view a :
  admits_start a = true ↔
  ∃ n u d s x, comps (tumbler a) = (n ++ 0%N :: u ++ 0%N :: d ++ [0%N; s]) ++ [x] ∧
    field_ok n ∧ field_ok u ∧ field_ok d ∧ s ≠ 0%N ∧ x ≠ 0%N.
Proof.
  unfold admits_start. rewrite element_field_segs. split.
  - destruct (segs (comps (tumbler a)) !! 3) as [e|] eqn:E; [|done]. intros He%Nat.eqb_eq.
    assert (Hl : level a = Element).
    { apply lookup_lt_Some in E. rewrite Address_level_segs in E. destruct (level a); cbn in E; lia || done. }
    destruct (Address_element_view a Hl) as (n & u & d & e' & Ec & Es & Hn & Hu & Hd & Hz & _).
    rewrite Es in E. injection E as ->. destruct e as [|s [|x [|]]]; try discriminate He.
    apply Forall_cons in Hz as [Hs Hz]. apply Forall_cons in Hz as [Hx _].
    exists n, u, d, s, x. split_and!; try done. rewrite Ec.
    repeat (rewrite <- app_assoc; cbn [app]). done.
  - intros (n & u & d & s & x & E & [Hn _] & [Hu _] & [Hd _] & Hs & Hx). rewrite E.
    repeat (rewrite <- app_assoc; cbn [app]). rewrite !segs_app by done.
    rewrite segs_zf; [done|]. by repeat constructor.
Qed.

Lemma shift_comps_ok a k : t4_ok (comps (shift (tumbler a) k)).
Proof.
  destruct (Address_snoc a) as (q & x & E & Hx). rewrite (shift_app _ k q x E).
  apply (t4_ok_set_last q x); [|lia]. rewrite <- E. apply Address_ok.
Qed.

(** The address [k] ordinals past [a]: shifting keeps T4. *)
Lemma addr_shift_done a k : is_done (expect_ok (validate (shift (tumbler a) k))) = true.
Proof.
  pose proof (validate_is_ok (shift (tumbler a) k)) as H.
  rewrite (proj2 (is_t4_valid_ok _) (shift_comps_ok a k)) in H. by destruct (validate _).
Qed.

Definition addr_shift (a : Address) (k : Nat) : Address :=
  total (expect_ok (validate (shift (tumbler a) k))) (addr_shift_done a k).

Lemma addr_shift_tumbler a k : tumbler (addr_shift a k) = shift (tumbler a) k.
Proof.
  pose proof (total_spec _ (addr_shift_done a k)) as H. fold (addr_shift a k) in H.
  destruct (validate _) as [b|] eqn:E; [|done]. injection H as <-. by apply validate_Ok.
Qed.

Lemma addr_shift_0 a : addr_shift a 0 = a.
Proof. apply Address_eq. by rewrite addr_shift_tumbler, shift_0. Qed.

Lemma addr_shift_shift a j k : addr_shift (addr_shift a j) k = addr_shift a (j + k).
Proof. apply Address_eq. by rewrite !addr_shift_tumbler, shift_shift. Qed.

Lemma addr_shift_inj a j k : addr_shift a j = addr_shift a k → j = k.
Proof.
  intros H. apply (f_equal tumbler) in H. rewrite !addr_shift_tumbler in H.
  destruct (N.lt_trichotomy j k) as [Hlt|[?|Hlt]]; [|done|];
    apply (shift_lt (tumbler a)) in Hlt; rewrite H in Hlt; torder.
Qed.

Lemma admits_shift a k : admits_start a = true → admits_start (addr_shift a k) = true.
Proof.
  rewrite !admits_start_view. intros (n & u & d & s & x & E & Hn & Hu & Hd & Hs & Hx).
  exists n, u, d, s, (x + k)%N. rewrite addr_shift_tumbler, (shift_app _ k _ x E).
  split_and!; try done. lia.
Qed.

Lemma addr_at_ok r k : (k ≤ run_width r)%N → addr_at r k = Done (addr_shift (i_start r) k).
Proof.
  intros H. unfold addr_at, tumbler_at, assert. apply N.leb_le in H. rewrite H. cbn.
  apply total_spec.
Qed.

Definition run_reach (r : Run) : Tumbler := shift (tumbler (i_start r)) (run_width r).

Lemma run_reach_ok r : run_reach_at r = Done (run_reach r).
Proof. unfold run_reach_at, tumbler_at, assert. by rewrite N.leb_refl. Qed.

(** The addresses a run denotes, in I-order. *)
Definition addrs (r : Run) : list Address := addr_shift (i_start r) <$> offsets (run_width r).

Lemma elem_of_offsets w k : k ∈ offsets w ↔ (k < w)%N.
Proof.
  unfold offsets. rewrite list_elem_of_fmap. setoid_rewrite elem_of_seq. split.
  - intros (i & -> & ?). lia.
  - intros ?. exists (N.to_nat k). lia.
Qed.

Lemma offsets_split j w :
  (j ≤ w)%N → offsets w = offsets j ++ ((λ k, j + k)%N <$> offsets (w - j)).
Proof.
  intros H. unfold offsets. replace (N.to_nat w) with (N.to_nat j + N.to_nat (w - j)) by lia.
  rewrite seq_app, fmap_app. f_equal. cbn.
  rewrite <- (Nat.add_0_r (N.to_nat j)) at 1. rewrite <- fmap_add_seq, <- !list_fmap_compose.
  apply list_fmap_ext. intros i x _. cbn. lia.
Qed.

Lemma addrs_of_ok r : addrs_of r = Done (addrs r).
Proof.
  apply outcome_map_done. intros k Hk%elem_of_offsets. apply addr_at_ok. lia.
Qed.

Lemma elem_of_addrs r a : a ∈ addrs r ↔ ∃ k, (k < run_width r)%N ∧ a = addr_shift (i_start r) k.
Proof.
  unfold addrs. rewrite list_elem_of_fmap. setoid_rewrite elem_of_offsets. naive_solver.
Qed.

Lemma addrs_length r : length (addrs r) = N.to_nat (run_width r).
Proof. unfold addrs, offsets. by rewrite !length_fmap, length_seq. Qed.

Lemma addrs_NoDup r : NoDup (addrs r).
Proof.
  apply NoDup_fmap_2_strong; [intros j k _ _; apply addr_shift_inj|].
  apply NoDup_fmap_2_strong; [intros i j _ _; apply Nat2N.inj|apply NoDup_seq].
Qed.

(** ** The I-extent *)

Lemma run_start_lt r : run_ok r → tumbler (i_start r) <ₜ run_reach r.
Proof. intros [H _]. rewrite <- (shift_0 (tumbler (i_start r))) at 1. apply shift_lt. lia. Qed.

Lemma iextent_ok r :
  run_ok r → ∃ s, iextent r = Done s ∧ start s = tumbler (i_start r) ∧ reach s = run_reach r ∧
    is_level_uniform s = true.
Proof.
  intros Hr. destruct (from_endpoints_ok (tumbler (i_start r)) (run_reach r)) as (s & E & Hs);
    [symmetry; apply shift_len|by apply run_start_lt|].
  exists s. split; [|done]. unfold iextent. by rewrite run_reach_ok, bind_Done, E.
Qed.

(** A tumbler of a run's own length between its start and its reach is one of its
    positions or its reach. *)
Lemma between_shifts v w t :
  Tumbler_len t = Tumbler_len v → v ≤ₜ t → t ≤ₜ shift v w → ∃ k, (k ≤ w)%N ∧ t = shift v k.
Proof.
  destruct (comps_snoc v) as (q & x & Ev), (comps_snoc t) as (p & y & Et).
  unfold Tumbler_len, Tle, cmp. rewrite (shift_app v w q x Ev), Ev, Et, !length_app. cbn.
  intros Hlen H1 H2. rewrite !list_cmp_snoc in * by lia. rewrite (list_cmp_antisym q p) in H2.
  destruct (list_cmp q p) eqn:E; cbn in *; [|done..]. apply list_cmp_eq in E as ->.
  exists (y - x)%N. destruct (N.compare_spec x y), (N.compare_spec y (x + w)); try done;
    (split; [lia|]; apply Tumbler_eq; rewrite (shift_app v _ p x Ev), Et; do 2 f_equal; lia).
Qed.

(** What lies in [[v, v + w)] is exactly the extensions of its positions. *)
Lemma extent_prefixes v w t :
  (v ≤ₜ t ∧ t <ₜ shift v w) ↔ ∃ k, (k < w)%N ∧ is_prefix (shift v k) t = true.
Proof.
  split.
  - induction w as [|w IH] using N.peano_ind; intros [Hv Ht]; [rewrite shift_0 in Ht; torder|].
    destruct (ltb_spec t (shift v w)) as [Hlt|Hge].
    + destruct IH as (k & ? & ?); [done|]. exists k. split; [lia|done].
    + exists w. split; [lia|]. apply is_prefix_spec. apply next_between; [done|].
      unfold next_at_length. rewrite shift_shift. by replace (w + 1)%N with (N.succ w) by lia.
  - intros (k & Hk & Hp). rewrite <- subtree_contains in Hp. apply contains_spec in Hp.
    destruct (subtree_of_spec (shift v k)) as (-> & -> & _) in Hp. destruct Hp as [H1 H2].
    assert (v ≤ₜ shift v k).
    { rewrite <- (shift_0 v) at 1. destruct (N.eq_dec k 0%N) as [->|]; [torder|].
      pose proof (shift_lt v 0%N k ltac:(lia)). torder. }
    assert (next_at_length (shift v k) ≤ₜ shift v w).
    { unfold next_at_length. rewrite shift_shift. destruct (N.eq_dec (k + 1)%N w) as [->|]; [torder|].
      pose proof (shift_lt v (k + 1)%N w ltac:(lia)). torder. }
    split; torder.
Qed.

Lemma shift_le_iff v j k : shift v j ≤ₜ shift v k ↔ (j ≤ k)%N.
Proof.
  split; intros H.
  - destruct (N.le_gt_cases j k) as [|Hlt]; [done|]. apply (shift_lt v) in Hlt. torder.
  - destruct (N.eq_dec j k) as [->|]; [torder|]. pose proof (shift_lt v j k ltac:(lia)). torder.
Qed.

Lemma shift_lt_iff v j k : shift v j <ₜ shift v k ↔ (j < k)%N.
Proof.
  split; intros H; [|by apply shift_lt]. destruct (N.lt_ge_cases j k) as [|Hle]; [done|].
  apply (shift_le_iff v) in Hle. torder.
Qed.

(** ** The boundary search *)

(** [m] is the least offset in [[0, width]] at or past the bound. *)
Definition is_lower_bound (r : Run) (bound : Tumbler) (m : Nat) : Prop :=
  (m ≤ run_width r)%N ∧ (∀ k, (k < m)%N → shift (tumbler (i_start r)) k <ₜ bound) ∧
  (∀ k, (m ≤ k < run_width r)%N → bound ≤ₜ shift (tumbler (i_start r)) k).

Lemma lower_bound_loop_ok r bound fuel lo hi :
  (lo ≤ hi ≤ run_width r)%N → (hi - lo < 2 ^ N.of_nat fuel)%N →
  (∀ k, (k < lo)%N → shift (tumbler (i_start r)) k <ₜ bound) →
  (∀ k, (hi ≤ k < run_width r)%N → bound ≤ₜ shift (tumbler (i_start r)) k) →
  ∃ m, lower_bound_loop r bound fuel lo hi = Done m ∧ is_lower_bound r bound m.
Proof.
  revert lo hi. induction fuel as [|fuel IH]; intros lo hi Hle Hf Hlo Hhi; cbn [lower_bound_loop].
  - destruct (N.ltb_spec lo hi); [cbn in Hf; lia|].
    exists lo. split; [done|]. split_and!; [lia|done|]. intros k Hk. apply Hhi. lia.
  - destruct (N.ltb_spec lo hi) as [Hlt|]; cycle 1.
    { exists lo. split; [done|]. split_and!; [lia|done|]. intros k Hk. apply Hhi. lia. }
    set (mid := ((lo + hi) / 2)%N).
    assert (Hmid : (lo ≤ mid < hi)%N).
    { split; [apply N.div_le_lower_bound; lia|apply N.Div0.div_lt_upper_bound; lia]. }
    assert (Hpow : (2 ^ N.of_nat (S fuel) = 2 * 2 ^ N.of_nat fuel)%N).
    { rewrite Nat2N.inj_succ. apply N.pow_succ_r'. }
    assert (Hhalf : (hi - lo < 2 * (mid - lo) + 2)%N ∧ (2 * (mid - lo) ≤ hi - lo)%N).
    { pose proof (N.div_mod (lo + hi) 2%N ltac:(lia)) as Hd. fold mid in Hd.
      pose proof (N.mod_lt (lo + hi) 2%N ltac:(lia)) as Hb.
      clearbody mid. revert Hd Hb. generalize ((lo + hi) mod 2)%N. lia. }
    clearbody mid.
    unfold tumbler_at, assert. rewrite (proj2 (N.leb_le mid (run_width r))) by lia. cbn.
    destruct (leb_spec bound (shift (tumbler (i_start r)) mid)) as [Hb|Hb]; apply IH; try lia; try done.
    + intros k Hk. pose proof (proj2 (shift_le_iff (tumbler (i_start r)) mid k) ltac:(lia)). torder.
    + intros k Hk. pose proof (proj2 (shift_le_iff (tumbler (i_start r)) k mid) ltac:(lia)). torder.
Qed.

Lemma lower_bound_ok r bound : ∃ m, lower_bound r bound = Done m ∧ is_lower_bound r bound m.
Proof.
  apply lower_bound_loop_ok; [lia| |lia|lia]. rewrite N2Nat.id, N.sub_0_r. apply N.size_gt.
Qed.

(** ** The offsets a span covers *)

(** The covered offsets are exactly the range answered, [None] when there are none. *)
Definition covers_exactly (r : Run) (span : Span) (o : option OffsetRange) : Prop :=
  match o with
  | Some c => (off_lo c < off_hi c ≤ run_width r)%N ∧
      ∀ k, (k < run_width r)%N →
        contains span (shift (tumbler (i_start r)) k) = true ↔ (off_lo c ≤ k < off_hi c)%N
  | None => ∀ k, (k < run_width r)%N → contains span (shift (tumbler (i_start r)) k) = false
  end.

Lemma ordinal_shift v k : ordinal (shift v k) = (ordinal v + k)%N.
Proof.
  destruct (comps_snoc v) as (q & x & E).
  by rewrite (ordinal_app _ _ _ (shift_app v k q x E)), (ordinal_app _ _ _ E).
Qed.

Lemma ordinal_offset v k : nat_sub (ordinal (shift v k)) (ordinal v) = Done k.
Proof. rewrite ordinal_shift, nat_sub_ok by lia. f_equal. lia. Qed.

(** The intersection of a run's extent with a span of its class, by offsets. *)
Lemma extent_intersect r span :
  run_ok r → is_level_uniform span = true →
  Tumbler_len (start span) = Tumbler_len (tumbler (i_start r)) →
  ∃ e o, iextent r = Done e ∧ intersect e span = Done (Ok o) ∧
    match o with
    | None => ∀ k, (k < run_width r)%N → contains span (shift (tumbler (i_start r)) k) = false
    | Some i => ∃ k1 k2, (k1 < k2 ≤ run_width r)%N ∧
        start i = shift (tumbler (i_start r)) k1 ∧ reach i = shift (tumbler (i_start r)) k2 ∧
        ∀ k, (k < run_width r)%N → contains span (shift (tumbler (i_start r)) k)
          = contains i (shift (tumbler (i_start r)) k)
    end.
Proof.
  intros Hr Hu Hlen. destruct (iextent_ok r Hr) as (e & He & Hes & Her & Heu).
  pose proof (intersect_denotes e span) as Hi. unfold level_compatible in Hi.
  rewrite Hes in Hi. destruct Hi as (o & Ho & Hd & Hs); [done|].
  exists e, o. split_and!; [done|done|].
  assert (Hin : ∀ k, (k < run_width r)%N → contains e (shift (tumbler (i_start r)) k) = true).
  { intros k Hk. apply contains_spec. rewrite Hes, Her. unfold run_reach.
    rewrite shift_lt_iff. split; [|done]. rewrite <- (shift_0 (tumbler (i_start r))) at 1.
    apply shift_le_iff. lia. }
  assert (Hd' : ∀ k, (k < run_width r)%N → contains span (shift (tumbler (i_start r)) k)
    = opt_contains o (shift (tumbler (i_start r)) k)).
  { intros k Hk. by rewrite Hd, (Hin k Hk). }
  destruct o as [i|]; [|done]. destruct Hs as (Hil & Hiu & Hes' & Hir).
  pose proof (start_lt_reach i) as Hlt. rewrite Her in Hir.
  destruct (between_shifts (tumbler (i_start r)) (run_width r) (start i)) as (k1 & Hk1 & E1);
    [done|done|unfold run_reach in Hir; torder|].
  destruct (between_shifts (tumbler (i_start r)) (run_width r) (reach i)) as (k2 & Hk2 & E2);
    [by rewrite uniform_reach_len|torder|done|].
  exists k1, k2. rewrite E1, E2 in Hlt. apply shift_lt_iff in Hlt. split_and!; try done; lia.
Qed.

Lemma offsets_covered_by_ok r span :
  run_ok r → ∃ o, offsets_covered_by r span = Done o ∧ covers_exactly r span o.
Proof.
  intros Hr. unfold offsets_covered_by.
  destruct (is_level_uniform span) eqn:Hu,
    (Nat.eqb_spec (Tumbler_len (start span)) (Tumbler_len (tumbler (i_start r)))) as [Hl|Hl]; cbn [andb].
  2-4: destruct (lower_bound_ok r (start span)) as (lo & -> & Hlo1 & Hlo2 & Hlo3);
    destruct (lower_bound_ok r (reach span)) as (hi & -> & Hhi1 & Hhi2 & Hhi3);
    eexists; (split; [reflexivity|]);
    assert (Hc : ∀ k, (k < run_width r)%N →
      contains span (shift (tumbler (i_start r)) k) = true ↔ (lo ≤ k < hi)%N)
      by (intros k Hk; rewrite contains_spec; split;
          [intros [H1 H2]; split;
             [destruct (N.le_gt_cases lo k) as [|Hc%Hlo2]; [done|torder]
             |destruct (N.lt_ge_cases k hi) as [|Hc]; [done|];
              assert (reach span ≤ₜ shift (tumbler (i_start r)) k) by (apply Hhi3; lia); torder]
          |intros [H1 H2]; split; [apply Hlo3; lia|by apply Hhi2]]);
    destruct (N.ltb_spec lo hi); cbn; [split; [lia|done]|];
    intros k Hk; apply not_true_iff_false; rewrite Hc by done; lia.
  destruct (extent_intersect r span Hr Hu Hl) as (e & o & -> & Hi & Ho).
  cbn [mbind outcome_bind]. rewrite Hi. cbn. destruct o as [i|]; [|by exists None].
  destruct Ho as (k1 & k2 & Hk & E1 & E2 & Hc). rewrite E1, E2, !ordinal_offset. cbn.
  eexists. split; [reflexivity|]. cbn. split; [lia|]. intros k Hkw.
  rewrite Hc, contains_spec, E1, E2, shift_le_iff, shift_lt_iff by done. done.
Qed.

(** ** The claims *)

(** A run's checked door refuses a zero width first and then a start that is
    not a full element position, and lets exactly the runs of the standing
    invariant through; on such a run nothing panics: its addresses are the
    [width] distinct full element positions from its start on, in order, and its
    I-extent is the level-uniform span that covers exactly their extensions. *)
Theorem run_spec (a : Address) (w : Nat) :
  match Run_new a w with
  | Err RunZeroWidth => w = 0%N
  | Err NotAnElementPosition => w ≠ 0%N ∧ admits_start a = false
  | Ok r =>
      (r = MkRun a w ∧ run_ok r) ∧
      (∃ l, addrs_of r = Done l ∧ length l = N.to_nat w ∧ NoDup l ∧
         Forall (λ b, admits_start b = true) l ∧
         (∀ k, (k < w)%N → l !! N.to_nat k = Some (addr_shift a k))) ∧
      ∃ s, iextent r = Done s ∧ is_level_uniform s = true ∧
        ∀ t, contains s t = true ↔ ∃ b, b ∈ addrs r ∧ is_prefix (tumbler b) t = true
  end.
Proof.
  unfold Run_new. rewrite nat_is_zero_eqb. destruct (N.eqb_spec w 0) as [|Hw]; [done|].
  destruct (admits_start a) eqn:Ha; cbn [negb]; [|done].
  assert (Hr : run_ok (MkRun a w)) by (split; [cbn; lia|done]).
  split; [done|]. split.
  - exists (addrs (MkRun a w)). split_and!; [apply addrs_of_ok|apply addrs_length| | |].
    + apply addrs_NoDup.
    + apply Forall_forall. intros b (k & _ & ->)%elem_of_addrs. by apply admits_shift.
    + intros k Hk. unfold addrs, offsets. cbn. rewrite !list_lookup_fmap, lookup_seq_lt by lia.
      cbn. by rewrite N2Nat.id.
  - destruct (iextent_ok _ Hr) as (s & -> & Es & Er & Hu). exists s. split_and!; [done|done|].
    intros t. rewrite contains_spec, Es, Er. unfold run_reach. rewrite extent_prefixes. cbn.
    split.
    + intros (k & Hk & Hp). exists (addr_shift a k). split; [|by rewrite addr_shift_tumbler].
      apply elem_of_addrs. by exists k.
    + intros (b & (k & Hk & ->)%elem_of_addrs & Hp). exists k. split; [done|].
      by rewrite <- addr_shift_tumbler.
Qed.

(** [offsets_covered_by] never panics on a well-formed run and never runs its
    search out; whichever branch a span takes, level-uniform at the run's length
    or any other, the answer is a nonempty range within [[0, width]] of exactly
    the offsets whose address the span contains, and [None] when it contains
    none. *)
Theorem offsets_covered_by_exact (r : Run) (span : Span) :
  run_ok r →
  ∃ o, offsets_covered_by r span = Done o ∧
    match o with
    | None => ∀ b, b ∈ addrs r → contains span (tumbler b) = false
    | Some c =>
        (off_lo c < off_hi c ≤ run_width r)%N ∧
        OffsetRange_width c = Done (off_hi c - off_lo c)%N ∧
        ∀ k, (k < run_width r)%N →
          contains span (tumbler (addr_shift (i_start r) k)) = true
          ↔ (off_lo c ≤ k < off_hi c)%N
    end.
Proof.
  intros Hr. destruct (offsets_covered_by_ok r span Hr) as (o & -> & Ho). exists o. split; [done|].
  destruct o as [c|]; cbn in Ho.
  - destruct Ho as [Hlt Hc]. split_and!; [lia|lia| |].
    + unfold OffsetRange_width. apply nat_sub_ok. lia.
    + intros k Hk. by rewrite addr_shift_tumbler, Hc.
  - intros b (k & Hk & ->)%elem_of_addrs. rewrite addr_shift_tumbler. by apply Ho.
Qed.

(** Concrete positions of one document's content chain: [1.0.1.0.1.0.1.x], x ≥ 1. *)
Definition sample_start : Address :=
  MkAddress (tum [1; 0; 1; 0; 1; 0; 1; 1]%N) Element eq_refl.

Definition sample_run (k w : Nat) : Run := MkRun (addr_shift sample_start k) w.

Lemma sample_run_ok k w : (1 ≤ w)%N → run_ok (sample_run k w).
Proof. intros Hw. split; [done|]. by apply admits_shift. Qed.

Lemma offsets_covered_by_exact_witness :
  ∃ o, offsets_covered_by (sample_run 4 4) (subtree_of (tum [1; 0; 1; 0; 1; 0; 1]%N)) = Done o.
Proof.
  destruct (offsets_covered_by_exact (sample_run 4 4) (subtree_of (tum [1; 0; 1; 0; 1; 0; 1]%N))
    (sample_run_ok 4 4 ltac:(lia))) as (o & Ho & _).
  exists o. exact Ho.
Defined.
