(* ===== verification/Content.v ===== *)
(** * The content store

    Models [crates/skep-content/src/store.rs], [value.rs], [error.rs] and
    [routing.rs] (M4): values and byte stretches at their addresses, the two folds,
    the point queries, the run read ([Pieces]), the decode door, and the two staging
    doors. The map is walked by ascending key. A [debug_assert!] panics in a build
    with debug assertions and is nothing in a release build: the flag [debug] of
    the section is that build setting, and every law holds for both. *)

From stdpp Require Import gmap.
From Stdlib Require Import Strings.Byte.
From S2P Require Import Prelude Tumblers Addresses AddrMaps Arith Runs.

#[export] Instance byte_eq_dec : EqDecision byte := Byte.byte_eq_dec.

(** ** Values, entries and records *)

Notation Val := (list byte) (only parsing).

Inductive Stored := Value (v : Val) | Stretch (bytes : list byte).

#[export] Instance Stored_eq_dec : EqDecision Stored.
Proof. solve_decision. Defined.

Definition Stored_width (s : Stored) : nat :=
  match s with Value _ => 1 | Stretch bytes => length bytes end.

Definition Stored_reach (s : Stored) (key : Tumbler) : Tumbler :=
  shift key (N.of_nat (Stored_width s)).

Definition is_stretch (s : Stored) : bool := match s with Stretch _ => true | _ => false end.

Definition Stored_covers (s : Stored) (key t : Tumbler) : bool :=
  bool_decide (key = t) || (is_stretch s && (key <?ₜ t) && (t <?ₜ Stored_reach s key)).

Inductive Piece := PBytes (bytes : list byte) | PValue (v : Val).

Definition Stored_piece (s : Stored) : Piece :=
  match s with Value v => PValue v | Stretch bytes => PBytes bytes end.

Definition Piece_as_bytes (p : Piece) : list byte :=
  match p with PBytes bytes => bytes | PValue v => v end.

Definition to_val (p : Piece) : Val := Piece_as_bytes p.

Inductive ContentError :=
  | AlreadyStored (t : Tumbler)
  | EmptyStretch
  | Overlap (first reach : Tumbler).

Record ContentWrite := MkContentWrite { cw_addr : Address; cw_val : Val }.
Record ContentStretch := MkContentStretch { cs_first : Address; cs_bytes : list byte }.

Definition ContentStretch_len (r : ContentStretch) : nat := length (cs_bytes r).

Definition ContentStretch_reach (r : ContentStretch) : Tumbler :=
  shift (tumbler (cs_first r)) (N.of_nat (length (cs_bytes r))).

(** The at-rest door of a decoded stretch. *)
Definition ContentStretch_try_from (first : Address) (bytes : list byte) :
    result ContentStretch ContentError :=
  if negb (nonemptyb bytes) then Err EmptyStretch else Ok (MkContentStretch first bytes).

(** ** Offsets *)

(** [usize::try_from] of a natural. *)
Definition usize_try_from (n : Nat) : option nat :=
  if (n <? 2 ^ 64)%N then Some (N.to_nat n) else None.

(** [key.len() - 1] never underflows: a tumbler has a component. *)
Definition same_chain (key t : Tumbler) : bool :=
  (Tumbler_len key =? Tumbler_len t) &&
  forallb (λ p, (p.1 =? p.2)%N) (take (Tumbler_len key - 1) (zip (comps key) (comps t))).

Definition offset_in (key : Tumbler) (len : nat) (t : Tumbler) : option nat :=
  if negb (same_chain key t) || (ordinal t <? ordinal key)%N then None
  else
    k ← usize_try_from (ordinal t - ordinal key)%N;
    if k <? len then Some k else None.

(** ** The slice *)

Notation ContentStore := (gmap Address Stored) (only parsing).

Definition ContentStore_default : ContentStore := ∅.

(** [range(..=t).next_back()] and [range(t..)]. *)
Definition at_or_below (c : ContentStore) (t : Tumbler) : option (Address * Stored) :=
  last (filter (λ kv : Address * Stored, tumbler kv.1 ≤ₜ t) (ord_entries c)).

Definition entries_from (c : ContentStore) (t : Tumbler) : list (Address * Stored) :=
  filter (λ kv : Address * Stored, t ≤ₜ tumbler kv.1) (ord_entries c).

Definition holds_a_key_in (c : ContentStore) (from reach : Tumbler) : bool :=
  match entries_from c from with (key, _) :: _ => tumbler key <?ₜ reach | [] => false end.

Definition contains_content (c : ContentStore) (a : Tumbler) : bool :=
  match at_or_below c a with Some (key, stored) => Stored_covers stored (tumbler key) a | None => false end.

Definition value_at (c : ContentStore) (a : Tumbler) : outcome (option Piece) :=
  match at_or_below c a with
  | None => Done None
  | Some (key, Value v) => Done (if bool_decide (tumbler key = a) then Some (PValue v) else None)
  | Some (key, Stretch bytes) =>
      match offset_in (tumbler key) (length bytes) a with
      | None => Done None
      | Some k => b ← slice bytes k (k + 1); Done (Some (PBytes b))
      end
  end.

(** *** The run read *)

Record Pieces := MkPieces {
  pc_walk : option (list (Address * Stored));
  pc_cursor : Tumbler;
  pc_remaining : Nat
}.

Definition pieces (c : ContentStore) (start : Tumbler) (width : Nat) : Pieces :=
  MkPieces ((λ kv : Address * Stored, entries_from c (tumbler kv.1)) <$> at_or_below c start) start width.

(** What one entry lends at the cursor, and how much of it. *)
Definition covering (key : Tumbler) (stored : Stored) (cursor : Tumbler) (remaining : Nat) :
    outcome (option (Piece * nat)) :=
  match stored with
  | Value v => Done (if bool_decide (key = cursor) then Some (PValue v, 1) else None)
  | Stretch bytes =>
      match offset_in key (length bytes) cursor with
      | None => Done None
      | Some k =>
          available ← usize_sub (length bytes) k;
          let take := match usize_try_from remaining with None => available | Some n => Nat.min n available end in
          b ← slice bytes k (k + take);
          Done (Some (PBytes b, take))
      end
  end.

(** The loop of [next], over what the walk has left. *)
Fixpoint next_piece (walk : list (Address * Stored)) (cursor : Tumbler) (remaining : Nat) :
    outcome (option Piece * Pieces) :=
  match walk with
  | [] => Done (None, MkPieces None cursor remaining)
  | (key, stored) :: walk =>
      found ← covering (tumbler key) stored cursor remaining;
      match found with
      | None =>
          if tumbler key <?ₜ cursor then next_piece walk cursor remaining
          else Done (None, MkPieces None cursor remaining)
      | Some (piece, taken) =>
          let taken := N.of_nat taken in
          left ← nat_sub remaining taken;
          Done (Some piece, MkPieces (Some walk) (shift cursor taken) left)
      end
  end.

Definition Pieces_next (p : Pieces) : outcome (option Piece * Pieces) :=
  if (pc_remaining p =? 0)%N then Done (None, p)
  else
    match pc_walk p with
    | None => Done (None, p)
    | Some walk => next_piece walk (pc_cursor p) (pc_remaining p)
    end.

(** Pulling the iterator to its end: each piece consumes an entry of the walk. *)
Fixpoint pull (fuel : nat) (p : Pieces) : outcome (list Piece * Pieces) :=
  match fuel with
  | 0 => Done ([], p)
  | S fuel =>
      '(o, p) ← Pieces_next p;
      match o with
      | None => Done ([], p)
      | Some piece => '(l, p) ← pull fuel p; Done (piece :: l, p)
      end
  end.

Definition drain (p : Pieces) : outcome (list Piece * Pieces) :=
  pull (S (match pc_walk p with Some walk => length walk | None => 0 end)) p.

Definition covered (p : Pieces) : outcome bool :=
  '(_, p) ← drain p; Done (pc_remaining p =? 0)%N.

(** *** The folds and the staging doors, in either build *)

Definition content_routed (a : Address) : bool :=
  bool_decide (level a = Element) && bool_decide (subspace a = Some content_subspace).

Section Build.
Context (debug : bool).

Definition debug_assert (b : bool) : outcome unit := if debug then assert b else Done tt.

Definition apply_write (c : ContentStore) (r : ContentWrite) : outcome ContentStore :=
  let already_stored := contains_content c (tumbler (cw_addr r)) in
  _ ← debug_assert (negb already_stored);
  Done (if already_stored then c else <[cw_addr r := Value (cw_val r)]> c).

Definition apply_stretch (c : ContentStore) (r : ContentStretch) : outcome ContentStore :=
  let first := tumbler (cs_first r) in
  let stored_or_overlapping := contains_content c first || holds_a_key_in c first (ContentStretch_reach r) in
  _ ← debug_assert (negb stored_or_overlapping);
  Done (if stored_or_overlapping then c else <[cs_first r := Stretch (cs_bytes r)]> c).

Definition stage_write (c : ContentStore) (addr : Address) (v : Val) :
    outcome (result ContentWrite ContentError) :=
  _ ← debug_assert (content_routed addr);
  Done (if contains_content c (tumbler addr) then Err (AlreadyStored (tumbler addr))
        else Ok (MkContentWrite addr v)).

Definition stage_stretch (c : ContentStore) (first : Address) (bytes : list byte) :
    outcome (result ContentStretch ContentError) :=
  if negb (nonemptyb bytes) then Done (Err EmptyStretch)
  else
    _ ← debug_assert (content_routed first);
    let reach := shift (tumbler first) (N.of_nat (length bytes)) in
    Done (if contains_content c (tumbler first) then Err (AlreadyStored (tumbler first))
          else if holds_a_key_in c (tumbler first) reach then Err (Overlap (tumbler first) reach)
          else Ok (MkContentStretch first bytes)).
End Build.

(** *** The decode door: the entries of one serialized slice *)

Inductive SliceError := NamedTwice | ZeroStretch | OverlapsNeighbour.

Fixpoint insert_entries (c : ContentStore) (entries : list (Address * Stored)) :
    result ContentStore SliceError :=
  match entries with
  | [] => Ok c
  | (key, stored) :: entries =>
      if bool_decide (is_Some (c !! key)) then Err NamedTwice
      else insert_entries (<[key := stored]> c) entries
  end.

Fixpoint check_neighbours (walk : list (Address * Stored)) : option SliceError :=
  match walk with
  | [] => None
  | (key, stored) :: walk =>
      match stored with
      | Value _ => check_neighbours walk
      | Stretch bytes =>
          if negb (nonemptyb bytes) then Some ZeroStretch
          else
            match walk with
            | (next, _) :: _ =>
                if tumbler next <?ₜ Stored_reach stored (tumbler key) then Some OverlapsNeighbour
                else check_neighbours walk
            | [] => check_neighbours walk
            end
      end
  end.

Definition entry_by_entry (entries : list (Address * Stored)) : result ContentStore SliceError :=
  match insert_entries ∅ entries with
  | Err e => Err e
  | Ok c => match check_neighbours (ord_entries c) with Some e => Err e | None => Ok c end
  end.

(** ** Laws: offsets *)

Lemma zip_agree_eq (p q : list Nat) :
  length p = length q → forallb (λ z, (z.1 =? z.2)%N) (zip p q) = true → p = q.
Proof.
  revert q. induction p as [|x p IH]; intros [|y q]; cbn; try done.
  intros [= Hl] [->%N.eqb_eq Hz]%andb_true_iff. f_equal. by apply IH.
Qed.

Lemma same_chain_spec key t :
  same_chain key t = true ↔ ∃ q x y, comps key = q ++ [x] ∧ comps t = q ++ [y].
Proof.
  destruct (comps_snoc key) as (q & x & Ek), (comps_snoc t) as (r & y & Et).
  unfold same_chain, Tumbler_len. rewrite andb_true_iff, Nat.eqb_eq, Ek, Et, !length_app. cbn.
  rewrite Nat.add_sub. split.
  - intros [Hl Hz]. assert (Hqr : length q = length r) by lia. exists q, x, y. split; [done|]. f_equal.
    symmetry. apply zip_agree_eq; [done|].
    rewrite zip_with_app in Hz by done. rewrite take_app_le in Hz by (rewrite length_zip_with; lia).
    by rewrite take_ge in Hz by (rewrite length_zip_with; lia).
  - intros (p & x' & y' & E1 & E2). apply app_inj_2 in E1 as [-> _]; [|done].
    apply app_inj_2 in E2 as [-> _]; [|done]. split; [done|].
    rewrite zip_with_app by done. rewrite take_app_le by (rewrite length_zip_with; lia).
    rewrite take_ge by (rewrite length_zip_with; lia). clear.
    induction p as [|c p IH]; [done|]. cbn. by rewrite N.eqb_refl.
Qed.

Lemma offset_in_spec key len t k :
  (N.of_nat len < 2 ^ 64)%N → offset_in key len t = Some k ↔ k < len ∧ t = shift key (N.of_nat k).
Proof.
  intros Hlen. unfold offset_in. split.
  - destruct (same_chain key t) eqn:Hs; [|done]. apply same_chain_spec in Hs as (q & x & y & Ek & Et).
    rewrite (ordinal_app _ _ _ Ek), (ordinal_app _ _ _ Et). cbn [negb orb].
    destruct (N.ltb_spec y x) as [|Hxy]; [done|]. unfold usize_try_from.
    destruct (N.ltb_spec (y - x) (2 ^ 64)); [|done].
    cbn [mbind option_bind].
    destruct (Nat.ltb_spec (N.to_nat (y - x)) len); [|done]. intros [= <-]. split; [done|].
    apply Tumbler_eq. rewrite (shift_app _ _ _ _ Ek), Et. do 2 f_equal. lia.
  - intros [Hk ->]. destruct (comps_snoc key) as (q & x & Ek).
    pose proof (shift_app _ (N.of_nat k) _ _ Ek) as Et.
    rewrite (proj2 (same_chain_spec _ _)) by eauto 6.
    rewrite (ordinal_app _ _ _ Ek), (ordinal_app _ _ _ Et). cbn [negb orb].
    destruct (N.ltb_spec (x + N.of_nat k) x); [lia|]. unfold usize_try_from.
    replace (x + N.of_nat k - x)%N with (N.of_nat k) by lia.
    destruct (N.ltb_spec (N.of_nat k) (2 ^ 64)); [|lia].
    cbn [mbind option_bind]. rewrite Nat2N.id.
    by destruct (Nat.ltb_spec k len); [|lia].
Qed.

(** ** The invariant and what a slice holds *)

(** A stretch is nonempty, its length a machine word; no key opens inside it. *)
Record store_ok (c : ContentStore) : Prop := {
  so_stretch : ∀ key bs, c !! key = Some (Stretch bs) → bs ≠ [] ∧ (N.of_nat (length bs) < 2 ^ 64)%N;
  so_apart : ∀ key bs key', c !! key = Some (Stretch bs) → is_Some (c !! key') →
    tumbler key <ₜ tumbler key' → Stored_reach (Stretch bs) (tumbler key) ≤ₜ tumbler key'
}.

(** The value at an entry's [k]-th position, a byte of a stretch being one of its own. *)
Definition held (s : Stored) (k : N) : option Val :=
  match s with
  | Value v => if (k =? 0)%N then Some v else None
  | Stretch bytes => (λ b, [b]) <$> bytes !! N.to_nat k
  end.

Definition stores (c : ContentStore) (t : Tumbler) (v : Val) : Prop :=
  ∃ key s k, c !! key = Some s ∧ t = shift (tumbler key) k ∧ held s k = Some v.

Lemma held_lt s k v : held s k = Some v → (k < N.of_nat (Stored_width s))%N.
Proof.
  destruct s as [w|bs]; cbn.
  - destruct (N.eqb_spec k 0); [lia|done].
  - destruct (bs !! N.to_nat k) eqn:E; [|done]. apply lookup_lt_Some in E. lia.
Qed.

Lemma held_covers s key k v : held s k = Some v → Stored_covers s key (shift key k) = true.
Proof.
  intros H. unfold Stored_covers. apply orb_true_iff. destruct (decide (k = 0%N)) as [->|Hk].
  - left. by rewrite shift_0, bool_decide_eq_true_2.
  - right. pose proof (held_lt s k v H) as Hlt. destruct s as [w|bs]; cbn in *.
    { by destruct (N.eqb_spec k 0). }
    rewrite andb_true_iff. split.
    + destruct (ltb_spec key (shift key k)) as [|Hle]; [done|]. exfalso.
      rewrite <- (shift_0 key) in Hle at 2. apply shift_le_iff in Hle. lia.
    + destruct (ltb_spec (shift key k) (Stored_reach (Stretch bs) key)) as [|Hle]; [done|]. exfalso.
      apply shift_le_iff in Hle. cbn in Hle. lia.
Qed.

Lemma Stored_covers_spec s key t :
  Stored_covers s key t = true ↔
  key = t ∨ is_stretch s = true ∧ key <ₜ t ∧ t <ₜ Stored_reach s key.
Proof.
  unfold Stored_covers. rewrite orb_true_iff, !andb_true_iff, bool_decide_eq_true, !ltb_lt. tauto.
Qed.

Lemma sorted_last_le {V} (l : list (Address * V)) x y :
  StronglySorted (λ a b, tumbler a ≤ₜ tumbler b) (fst <$> l) → last l = Some x → y ∈ l →
  tumbler y.1 ≤ₜ tumbler x.1.
Proof.
  intros Hs Hl Hy. apply last_Some in Hl as (k & ->). apply elem_of_app in Hy as [Hy| ->%list_elem_of_singleton]; [|torder].
  rewrite fmap_app in Hs. induction k as [|z k IH]; [by apply elem_of_nil in Hy|].
  cbn in Hs. apply StronglySorted_cons in Hs as [Hz Hs]. apply elem_of_cons in Hy as [->|Hy]; [|by apply IH].
  rewrite Forall_forall in Hz. apply Hz. apply elem_of_app. right. by apply list_elem_of_singleton.
Qed.

Lemma at_or_below_spec c t :
  match at_or_below c t with
  | Some (key, s) => c !! key = Some s ∧ tumbler key ≤ₜ t ∧
      ∀ key', is_Some (c !! key') → tumbler key' ≤ₜ t → tumbler key' ≤ₜ tumbler key
  | None => ∀ key, is_Some (c !! key) → t <ₜ tumbler key
  end.
Proof.
  unfold at_or_below. set (l := filter _ _).
  assert (Hl : ∀ key s, (key, s) ∈ l ↔ tumbler key ≤ₜ t ∧ c !! key = Some s).
  { intros key s. unfold l. by rewrite list_elem_of_filter, elem_of_ord_entries. }
  assert (Hs : StronglySorted (λ a b, tumbler a ≤ₜ tumbler b) (fst <$> l))
    by apply StronglySorted_fmap_filter, ord_entries_sorted.
  destruct (last l) as [[key s]|] eqn:E.
  - assert (Hin : (key, s) ∈ l) by (by apply last_Some_elem_of).
    apply Hl in Hin as [Hle Hc]. split_and!; [done|done|]. intros key' [s' Hs'] Hle'.
    apply (sorted_last_le l (key, s) (key', s') Hs E). by apply Hl.
  - intros key [s Hc]. apply last_None in E. destruct (ltb_spec t (tumbler key)) as [|Hle]; [done|].
    exfalso. apply (not_elem_of_nil (key, s)). rewrite <- E. by apply Hl.
Qed.

Lemma at_or_below_cover c t key s :
  store_ok c → c !! key = Some s → Stored_covers s (tumbler key) t = true →
  at_or_below c t = Some (key, s).
Proof.
  intros Hok Hc Hcov%Stored_covers_spec.
  assert (Hle : tumbler key ≤ₜ t) by (destruct Hcov as [->|(_ & ? & _)]; torder).
  pose proof (at_or_below_spec c t) as H. destruct (at_or_below c t) as [[key' s']|].
  - destruct H as (Hc' & Hle' & Hmax). pose proof (Hmax key ltac:(by eexists) Hle) as Hkk.
    destruct (decide (key = key')) as [->|Hne]; [congruence|]. exfalso.
    assert (Hlt : tumbler key <ₜ tumbler key').
    { apply Tle_lteq in Hkk as [?|?%Address_eq]; done. }
    destruct Hcov as [E|(Hst & _ & Hr)]; [rewrite E in Hlt; torder|].
    destruct s as [|bs]; [done|]. pose proof (so_apart c Hok key bs key' Hc ltac:(by eexists) Hlt). torder.
  - specialize (H key ltac:(by eexists)). torder.
Qed.

Lemma contains_content_ok c t :
  store_ok c → contains_content c t = true ↔
  ∃ key s, c !! key = Some s ∧ Stored_covers s (tumbler key) t = true.
Proof.
  intros Hok. unfold contains_content. split.
  - pose proof (at_or_below_spec c t) as H. destruct (at_or_below c t) as [[key s]|]; [|done].
    intros Hcov. exists key, s. by destruct H.
  - intros (key & s & Hc & Hcov). by rewrite (at_or_below_cover c t key s Hok Hc Hcov).
Qed.

Lemma stores_contains c t v : store_ok c → stores c t v → contains_content c t = true.
Proof.
  intros Hok (key & s & k & Hc & -> & Hh). apply contains_content_ok; [done|].
  exists key, s. split; [done|]. by eapply held_covers.
Qed.

Lemma slice_one {A} (l : list A) k x : l !! k = Some x → slice l k (k + 1) = Done [x].
Proof.
  intros H. pose proof (lookup_lt_Some _ _ _ H) as Hlt. unfold slice.
  destruct (Nat.leb_spec k (k + 1)); [|lia]. destruct (Nat.leb_spec (k + 1) (length l)); [|lia]. cbn.
  replace (k + 1 - k) with 1 by lia. by rewrite (drop_S _ _ _ H).
Qed.

(** The point read answers the entry's own position, and nothing else does. *)
Lemma value_at_ok c t :
  store_ok c → ∃ o, value_at c t = Done o ∧ ∀ v, to_val <$> o = Some v ↔ stores c t v.
Proof.
  intros Hok. unfold value_at. pose proof (at_or_below_spec c t) as H.
  assert (Huniq : ∀ v, stores c t v → ∃ key s k, at_or_below c t = Some (key, s) ∧
    t = shift (tumbler key) k ∧ held s k = Some v).
  { intros v (key & s & k & Hc & Ht & Hh). exists key, s, k. split_and!; [|done|done].
    apply at_or_below_cover; [done|done|]. rewrite Ht. by eapply held_covers. }
  destruct (at_or_below c t) as [[key [w|bs]]|].
  - destruct H as (Hc & _ & _). eexists. split; [done|]. intros v. case_bool_decide as E; cbn.
    + split.
      * intros [= <-]. exists key, (Value w), 0%N. by rewrite shift_0.
      * intros (key' & s & k & [= <- <-] & Ht & Hh)%Huniq. cbn in Hh. by destruct (k =? 0)%N.
    + split; [done|]. intros (key' & s & k & [= <- <-] & Ht & Hh)%Huniq. cbn in Hh.
      destruct (N.eqb_spec k 0) as [->|]; [|done]. by rewrite shift_0 in Ht.
  - destruct H as (Hc & _ & _). destruct (so_stretch c Hok key bs Hc) as [_ Hlen].
    destruct (offset_in (tumbler key) (length bs) t) as [k|] eqn:Ho.
    + apply offset_in_spec in Ho as [Hk Ht]; [|done].
      destruct (lookup_lt_is_Some_2 bs k Hk) as [b Hb]. rewrite (slice_one bs k b Hb). cbn.
      eexists. split; [done|]. intros v. cbn. split.
      * intros [= <-]. exists key, (Stretch bs), (N.of_nat k). cbn. by rewrite Nat2N.id, Hb.
      * intros (key' & s & j & [= <- <-] & Ht' & Hh)%Huniq. cbn in Hh. rewrite Ht in Ht'.
        assert (j = N.of_nat k) as ->.
        { apply N.le_antisymm; eapply shift_le_iff; rewrite Ht'; torder. }
        by rewrite Nat2N.id, Hb in Hh.
    + eexists. split; [done|]. intros v. cbn. split; [done|].
      intros (key' & s & j & [= <- <-] & Ht' & Hh)%Huniq. pose proof (held_lt _ _ _ Hh) as Hlt. cbn in Hlt.
      rewrite (proj2 (offset_in_spec (tumbler key) (length bs) t (N.to_nat j) Hlen)) in Ho; [done|].
      split; [lia|]. by rewrite N2Nat.id.
  - eexists. split; [done|]. intros v. split; [done|].
    by intros (key' & s & j & ? & _)%Huniq.
Qed.

(** ** The folds *)

Lemma entries_from_elem c t key s : (key, s) ∈ entries_from c t ↔ t ≤ₜ tumbler key ∧ c !! key = Some s.
Proof. unfold entries_from. by rewrite list_elem_of_filter, elem_of_ord_entries. Qed.

Lemma entries_from_sorted c t :
  StronglySorted (λ a b, tumbler a ≤ₜ tumbler b) (fst <$> entries_from c t).
Proof. apply StronglySorted_fmap_filter, ord_entries_sorted. Qed.

Lemma holds_a_key_in_ok c from reach :
  holds_a_key_in c from reach = true ↔
  ∃ key, is_Some (c !! key) ∧ from ≤ₜ tumbler key ∧ tumbler key <ₜ reach.
Proof.
  unfold holds_a_key_in. pose proof (entries_from_elem c from) as Hl.
  pose proof (entries_from_sorted c from) as Hs. destruct (entries_from c from) as [|[key s] l].
  - split; [done|]. intros (key & [s Hc] & Hle & _). exfalso.
    apply (not_elem_of_nil (key, s)). by apply Hl.
  - rewrite ltb_lt. destruct (proj1 (Hl key s) ltac:(by left)) as [Hle Hc]. split.
    + intros Hlt. exists key. split_and!; [by eexists|done|done].
    + intros (key' & [s' Hc'] & Hle' & Hlt').
      pose proof (proj2 (Hl key' s') (conj Hle' Hc')) as Hin. cbn in Hs.
      apply StronglySorted_cons in Hs as [Hk _]. rewrite Forall_forall in Hk.
      apply elem_of_cons in Hin as [[= -> ->]|Hin]; [done|].
      pose proof (Hk key' (list_elem_of_fmap_2 fst _ _ Hin)). torder.
Qed.

Lemma not_contained_absent c a : store_ok c → contains_content c (tumbler a) = false → c !! a = None.
Proof.
  intros Hok H. apply eq_None_not_Some. intros [s Hc].
  rewrite (proj2 (contains_content_ok c (tumbler a) Hok)) in H; [done|].
  exists a, s. split; [done|]. apply Stored_covers_spec. by left.
Qed.

(** A fresh entry keeps the invariant. *)
Lemma store_insert c a s :
  store_ok c → contains_content c (tumbler a) = false →
  match s with
  | Stretch bs => bs ≠ [] ∧ (N.of_nat (length bs) < 2 ^ 64)%N ∧
      holds_a_key_in c (tumbler a) (Stored_reach s (tumbler a)) = false
  | Value _ => True
  end →
  store_ok (<[a := s]> c).
Proof.
  intros Hok Hc Hs. split.
  - intros key bs. destruct (decide (a = key)) as [<-|Hne].
    + rewrite lookup_insert_eq. intros [= ->]. naive_solver.
    + rewrite lookup_insert_ne by done. apply (so_stretch c Hok).
  - intros key bs key' Hk Hk' Hlt. destruct (decide (a = key)) as [<-|Hne].
    + rewrite lookup_insert_eq in Hk. injection Hk as ->. destruct Hs as (_ & _ & Hh).
      rewrite lookup_insert_ne in Hk' by (intros <-; torder).
      destruct (leb_spec (Stored_reach (Stretch bs) (tumbler a)) (tumbler key')) as [|Hr]; [done|].
      exfalso. apply not_true_iff_false in Hh. apply Hh, holds_a_key_in_ok. exists key'. split_and!; [done|torder|done].
    + rewrite lookup_insert_ne in Hk by done. destruct (decide (a = key')) as [<-|Hne'].
      * destruct (leb_spec (Stored_reach (Stretch bs) (tumbler key)) (tumbler a)) as [|Hr]; [done|].
        exfalso. apply not_true_iff_false in Hc. apply Hc, contains_content_ok; [done|].
        exists key, (Stretch bs). split; [done|]. apply Stored_covers_spec. right. by split_and!.
      * rewrite lookup_insert_ne in Hk' by done. by apply (so_apart c Hok key bs key').
Qed.

(** And stores exactly what it holds, everything else as before. *)
Lemma stores_insert c a s t v :
  c !! a = None →
  stores (<[a := s]> c) t v ↔ (∃ k, t = shift (tumbler a) k ∧ held s k = Some v) ∨ stores c t v.
Proof.
  intros Hn. split.
  - intros (key & s' & k & Hc & Ht & Hh). destruct (decide (a = key)) as [<-|Hne].
    + rewrite lookup_insert_eq in Hc. injection Hc as ->. left. by exists k.
    + rewrite lookup_insert_ne in Hc by done. right. by exists key, s', k.
  - intros [(k & Ht & Hh)|(key & s' & k & Hc & Ht & Hh)].
    + exists a, s, k. by rewrite lookup_insert_eq.
    + exists key, s', k. rewrite lookup_insert_ne; [done|]. intros <-. congruence.
Qed.

Lemma stage_write_ok debug c a v :
  store_ok c → content_routed a = true →
  match stage_write debug c a v with
  | Done (Ok r) => r = MkContentWrite a v ∧ contains_content c (tumbler a) = false ∧
      apply_write debug c r = Done (<[a := Value v]> c) ∧ store_ok (<[a := Value v]> c) ∧
      ∀ t w, stores (<[a := Value v]> c) t w ↔ (t = tumbler a ∧ w = v) ∨ stores c t w
  | Done (Err e) => e = AlreadyStored (tumbler a) ∧ contains_content c (tumbler a) = true
  | Panicked => False
  end.
Proof.
  intros Hok Hr. unfold stage_write, debug_assert. rewrite Hr.
  assert (Hd : (if debug then assert true else Done tt) = Done tt) by by destruct debug.
  rewrite Hd. cbn [mbind outcome_bind]. destruct (contains_content c (tumbler a)) eqn:Hc; [done|].
  split_and!; [done|done| |by apply store_insert|].
  - unfold apply_write, debug_assert. cbn [cw_addr cw_val]. rewrite Hc. cbn [negb]. by rewrite Hd.
  - intros t w. rewrite stores_insert by (by apply not_contained_absent). cbn.
    split; intros [Hl|?]; [left|by right|left|by right].
    + destruct Hl as (k & Ht & Hk). destruct (N.eqb_spec k 0) as [Hz|]; [|done].
      rewrite Hz, shift_0 in Ht. by injection Hk as ->.
    + destruct Hl as [-> ->]. exists 0%N. by rewrite shift_0.
Qed.

Lemma stage_stretch_ok debug c a bs :
  store_ok c → content_routed a = true → (N.of_nat (length bs) < 2 ^ 64)%N →
  match stage_stretch debug c a bs with
  | Done (Ok r) => r = MkContentStretch a bs ∧ bs ≠ [] ∧
      apply_stretch debug c r = Done (<[a := Stretch bs]> c) ∧ store_ok (<[a := Stretch bs]> c) ∧
      ∀ t w, stores (<[a := Stretch bs]> c) t w ↔
        (∃ k b, t = shift (tumbler a) (N.of_nat k) ∧ bs !! k = Some b ∧ w = [b]) ∨ stores c t w
  | Done (Err e) =>
      (e = EmptyStretch ∧ bs = []) ∨
      (e = AlreadyStored (tumbler a) ∧ contains_content c (tumbler a) = true) ∨
      (e = Overlap (tumbler a) (shift (tumbler a) (N.of_nat (length bs))) ∧
       contains_content c (tumbler a) = false ∧
       ∃ key, is_Some (c !! key) ∧ tumbler a ≤ₜ tumbler key ∧
         tumbler key <ₜ shift (tumbler a) (N.of_nat (length bs)))
  | Panicked => False
  end.
Proof.
  intros Hok Hr Hlen. unfold stage_stretch, debug_assert.
  destruct (nonemptyb bs) eqn:Hne; cbn [negb]; [|left; by destruct bs].
  apply nonemptyb_spec in Hne. rewrite Hr.
  assert (Hd : (if debug then assert true else Done tt) = Done tt) by by destruct debug.
  rewrite Hd. cbn [mbind outcome_bind]. destruct (contains_content c (tumbler a)) eqn:Hc; [by right; left|].
  destruct (holds_a_key_in _ _ _) eqn:Hh.
  { right. right. split_and!; [done|done|]. by apply holds_a_key_in_ok. }
  split_and!; [done|done| |by apply store_insert|].
  - unfold apply_stretch, debug_assert, ContentStretch_reach. cbn [cs_first cs_bytes].
    rewrite Hc, Hh. cbn [negb orb]. by rewrite Hd.
  - intros t w. rewrite stores_insert by (by apply not_contained_absent). cbn.
    split; intros [Hl|?]; [left|by right|left|by right].
    + destruct Hl as (k & -> & Hk). destruct (bs !! N.to_nat k) as [b|] eqn:Hb; [|done].
      injection Hk as <-.
      exists (N.to_nat k), b. by rewrite N2Nat.id.
    + destruct Hl as (k & b & -> & Hb & ->). exists (N.of_nat k). rewrite Nat2N.id. by rewrite Hb.
Qed.

(** ** The run read *)

(** The values a piece lends, one to a position. *)
Definition piece_vals (p : Piece) : list Val :=
  match p with PBytes bytes => (λ b, [b]) <$> bytes | PValue v => [v] end.

Lemma shift_inj a b j : shift a j = shift b j → a = b.
Proof.
  destruct (comps_snoc a) as (p & x & Ea), (comps_snoc b) as (q & y & Eb). intros E.
  apply (f_equal comps) in E. rewrite (shift_app _ _ _ _ Ea), (shift_app _ _ _ _ Eb) in E.
  apply app_inj_2 in E as [-> [= H]]; [|done]. apply Tumbler_eq. rewrite Ea, Eb. do 2 f_equal. lia.
Qed.

Lemma shift_ge v k : v ≤ₜ shift v k.
Proof. rewrite <- (shift_0 v) at 1. apply shift_le_iff. lia. Qed.

Lemma shift_eq v j k : shift v j = shift v k → j = k.
Proof. intros E. apply N.le_antisymm; apply (shift_le_iff v); rewrite E; torder. Qed.

Lemma held_0 key c s : store_ok c → c !! key = Some s → is_Some (held s 0).
Proof.
  intros Hok Hc. destruct s as [v|bs]; [by eexists|]. destruct (so_stretch c Hok key bs Hc) as [Hne _].
  destruct bs; [done|by eexists].
Qed.

(** An entry that opens at or before a position and does not hold it holds none after. *)
Lemma no_later s key t k v j :
  (∀ k v, held s k = Some v → shift key k ≠ t) → key <ₜ t → held s k = Some v →
  shift key k ≠ shift t j.
Proof.
  intros Hno Hlt Hk E. destruct s as [w|bs]; cbn in Hk.
  - destruct (N.eqb_spec k 0) as [Hz|]; [|done]. rewrite Hz, shift_0 in E.
    pose proof (shift_ge t j). rewrite <- E in *. torder.
  - destruct (N.le_gt_cases j k) as [Hjk|Hjk].
    + destruct (bs !! N.to_nat k) as [b|] eqn:Hb; [|done]. apply lookup_lt_Some in Hb.
      destruct (lookup_lt_is_Some_2 bs (N.to_nat (k - j)) ltac:(lia)) as [b' Hb'].
      apply (Hno (k - j)%N [b']); [cbn; by rewrite Hb'|]. apply (shift_inj _ _ j).
      rewrite shift_shift, <- E. f_equal. lia.
    + assert (key = shift t (j - k)) as ->; [|pose proof (shift_ge t (j - k)); torder].
      apply (shift_inj _ _ k). rewrite shift_shift, E. f_equal. lia.
Qed.

(** What one entry lends: as many positions from the cursor as it holds and are wanted. *)
Lemma covering_ok c key s cursor remaining :
  store_ok c → c !! key = Some s → remaining ≠ 0%N →
  match covering (tumbler key) s cursor remaining with
  | Done None => ∀ k v, held s k = Some v → shift (tumbler key) k ≠ cursor
  | Done (Some (p, n)) =>
      1 ≤ n ∧ (N.of_nat n ≤ remaining)%N ∧ length (piece_vals p) = n ∧
      (∀ i v, piece_vals p !! i = Some v → stores c (shift cursor (N.of_nat i)) v) ∧
      ((N.of_nat n < remaining)%N → ∀ k v j, held s k = Some v →
         shift (tumbler key) k ≠ shift cursor (N.of_nat n + j))
  | Panicked => False
  end.
Proof.
  intros Hok Hc Hr. destruct s as [w|bs]; cbn [covering].
  - case_bool_decide as E.
    + cbn. split_and!; [done|lia|done| |].
      * intros [|i] v; [|done]. intros [= <-]. exists key, (Value w), 0%N. by rewrite E.
      * intros _ k v j. destruct (N.eqb_spec k 0) as [->|]; [|done]. intros _ E'.
        rewrite <- E in E'. apply shift_eq in E'. lia.
    + intros k v. cbn. destruct (N.eqb_spec k 0) as [->|]; [|done]. by rewrite shift_0.
  - destruct (so_stretch c Hok key bs Hc) as [_ Hlen].
    destruct (offset_in (tumbler key) (length bs) cursor) as [k|] eqn:Ho.
    2: { intros k v Hk Hkc. pose proof (held_lt _ _ _ Hk) as Hlt. cbn in Hlt.
         rewrite (proj2 (offset_in_spec (tumbler key) (length bs) cursor (N.to_nat k) Hlen)) in Ho; [done|].
         split; [lia|]. by rewrite N2Nat.id. }
    apply offset_in_spec in Ho as [Hk ->]; [|done]. rewrite usize_sub_ok by lia. cbn [mbind outcome_bind].
    set (n := match usize_try_from remaining with None => _ | Some n => _ end).
    assert (Hn : 1 ≤ n ∧ n ≤ length bs - k ∧ (N.of_nat n ≤ remaining)%N ∧
      ((N.of_nat n < remaining)%N → n = length bs - k)).
    { unfold n, usize_try_from. destruct (N.ltb_spec remaining (2 ^ 64)); lia. }
    destruct Hn as (H1 & H2 & H3 & H4). unfold slice.
    destruct (Nat.leb_spec k (k + n)); [|lia]. destruct (Nat.leb_spec (k + n) (length bs)); [|lia].
    cbn [andb mbind outcome_bind piece_vals]. replace (k + n - k) with n by lia.
    rewrite length_fmap, length_take, length_drop. split_and!; [done|done|lia| |].
    + intros i v Hi. rewrite list_lookup_fmap in Hi. apply fmap_Some in Hi as (b & Hb & ->).
      apply lookup_take_Some in Hb as [Hb Hi]. rewrite lookup_drop in Hb.
      exists key, (Stretch bs), (N.of_nat (k + i)). split_and!; [done| |].
      * rewrite shift_shift. f_equal. lia.
      * cbn. by rewrite Nat2N.id, Hb.
    + intros Hlt j v i Hj E. pose proof (held_lt _ _ _ Hj) as Hjl. cbn in Hjl. specialize (H4 Hlt).
      rewrite shift_shift in E. apply shift_eq in E. lia.
Qed.

(** The part of the walk behind the cursor holds nothing from the cursor on. *)
Definition walk_ok (c : ContentStore) (walk : list (Address * Stored)) (cursor : Tumbler) : Prop :=
  ∃ pre, ord_entries c = pre ++ walk ∧
    ∀ key s k v j, (key, s) ∈ pre → held s k = Some v → shift (tumbler key) k ≠ shift cursor j.

Lemma walk_head c key s walk cursor :
  walk_ok c ((key, s) :: walk) cursor →
  c !! key = Some s ∧ ∀ key', key' ∈ fst <$> walk → tumbler key ≤ₜ tumbler key'.
Proof.
  intros (pre & E & _). split.
  - apply elem_of_ord_entries. rewrite E. apply elem_of_app. right. by left.
  - intros key' Hk. pose proof (ord_entries_sorted c) as Hs. rewrite E, fmap_app in Hs.
    induction pre as [|x pre IH] in Hs |- *; [|cbn in Hs; by apply StronglySorted_cons in Hs as [_ ?]; apply IH].
    cbn in Hs. apply StronglySorted_cons in Hs as [Hx _]. rewrite Forall_forall in Hx. by apply Hx.
Qed.

Lemma walk_pass c key s walk cursor n :
  walk_ok c ((key, s) :: walk) cursor →
  (∀ k v j, held s k = Some v → shift (tumbler key) k ≠ shift cursor (n + j)) →
  walk_ok c walk (shift cursor n).
Proof.
  intros (pre & E & Hpre) Hs. exists (pre ++ [(key, s)]). split; [by rewrite <- app_assoc|].
  intros key' s' k v j [Hin|[= -> ->]%list_elem_of_singleton]%elem_of_app Hh; rewrite shift_shift.
  - by apply (Hpre key' s' k v).
  - by apply Hs with v.
Qed.

Lemma walk_stores c walk cursor v :
  walk_ok c walk cursor → stores c cursor v →
  ∃ key s k, (key, s) ∈ walk ∧ cursor = shift (tumbler key) k ∧ held s k = Some v.
Proof.
  intros (pre & E & Hpre) (key & s & k & Hc & Ht & Hh). exists key, s, k. split; [|done].
  apply elem_of_ord_entries in Hc. rewrite E in Hc. apply elem_of_app in Hc as [Hc|]; [|done].
  exfalso. apply (Hpre key s k v 0%N Hc Hh). by rewrite shift_0.
Qed.

Lemma next_piece_ok c walk cursor remaining :
  store_ok c → walk_ok c walk cursor → remaining ≠ 0%N →
  match next_piece walk cursor remaining with
  | Done (Some p, MkPieces (Some walk') cursor' rest) =>
      let n := N.of_nat (length (piece_vals p)) in
      (1 ≤ n)%N ∧ (n ≤ remaining)%N ∧ cursor' = shift cursor n ∧ rest = (remaining - n)%N ∧
      length walk' < length walk ∧ (rest ≠ 0%N → walk_ok c walk' cursor') ∧
      ∀ i v, piece_vals p !! i = Some v → stores c (shift cursor (N.of_nat i)) v
  | Done (None, MkPieces None cursor' rest) => rest = remaining ∧ ∀ v, ¬ stores c cursor v
  | _ => False
  end.
Proof.
  intros Hok Hw Hr. induction walk as [|[key s] walk IH]; cbn [next_piece].
  { split; [done|]. intros v (? & ? & ? & Hin & _)%(walk_stores c [] cursor v Hw). by apply elem_of_nil in Hin. }
  destruct (walk_head _ _ _ _ _ Hw) as [Hc Hsorted].
  pose proof (covering_ok c key s cursor remaining Hok Hc Hr) as Hcov.
  destruct (covering (tumbler key) s cursor remaining) as [[[p n]|]|]; [..|done]; cbn [mbind outcome_bind].
  - destruct Hcov as (H1 & H2 & Hlen & Hv & Hpass). rewrite nat_sub_ok by done. cbn [mbind outcome_bind].
    rewrite Hlen. split_and!; [lia|done|done|done|cbn; lia| |done].
    intros Hl. apply (walk_pass c key s); [done|]. intros k v j Hk. apply Hpass with v; [lia|done].
  - destruct (ltb_spec (tumbler key) cursor) as [Hlt|Hle].
    + assert (Hw' : walk_ok c walk cursor).
      { rewrite <- (shift_0 cursor). apply (walk_pass c key s); [done|].
        intros k v j Hk. rewrite N.add_0_l. by eapply no_later. }
      specialize (IH Hw'). destruct (next_piece walk cursor remaining) as [[[p|] [[walk'|] cursor' rest]]|]; try done.
      destruct IH as (? & ? & ? & ? & ? & ? & ?). split_and!; try done. cbn. lia.
    + split; [done|]. intros v (key' & s' & k & Hin & Ht & Hh)%(walk_stores c _ cursor v Hw).
      pose proof (shift_ge (tumbler key') k) as Hge. rewrite <- Ht in Hge.
      apply elem_of_cons in Hin as [[= -> ->]|Hin]; [by apply (Hcov k v)|].
      pose proof (Hsorted key' (list_elem_of_fmap_2 fst _ _ Hin)) as Hkk.
      assert (tumbler key = cursor) as Hkc by torder.
      destruct (held_0 key c s Hok Hc) as [v0 Hv0]. apply (Hcov 0%N v0 Hv0). by rewrite shift_0.
Qed.

(** The values of a window: what a drain lends, position by position. *)
Definition lent (c : ContentStore) (start : Tumbler) (width : Nat) (vals : list Val) (rest : Nat) : Prop :=
  (N.of_nat (length vals) + rest = width)%N ∧
  (∀ i v, vals !! i = Some v → stores c (shift start (N.of_nat i)) v) ∧
  (rest ≠ 0%N → ∀ v, ¬ stores c (shift start (N.of_nat (length vals))) v).

Lemma pull_ok c fuel walk cursor remaining :
  store_ok c → (remaining ≠ 0%N → walk_ok c walk cursor) → length walk < fuel →
  ∃ l p, pull fuel (MkPieces (Some walk) cursor remaining) = Done (l, p) ∧
    lent c cursor remaining (l ≫= piece_vals) (pc_remaining p).
Proof.
  intros Hok. revert walk cursor remaining. induction fuel as [|fuel IH]; intros walk cursor remaining Hw Hf; [lia|].
  cbn [pull]. unfold Pieces_next. cbn [pc_walk pc_cursor pc_remaining].
  destruct (N.eqb_spec remaining 0) as [->|Hr]; cbn [mbind outcome_bind].
  { exists [], (MkPieces (Some walk) cursor 0). split; [done|]. by split_and!. }
  pose proof (next_piece_ok c walk cursor remaining Hok (Hw Hr) Hr) as Hn.
  destruct (next_piece walk cursor remaining) as [[[p|] [[walk'|] cursor' rest]]|]; try done; cbn [mbind outcome_bind].
  - destruct Hn as (H1 & H2 & -> & -> & Hlen & Hw' & Hv).
    destruct (IH walk' (shift cursor (N.of_nat (length (piece_vals p)))) (remaining - N.of_nat (length (piece_vals p)))%N
      Hw' ltac:(lia)) as (l & q & Hp & Hlen' & Hv' & Hstop).
    rewrite Hp. cbn [mbind outcome_bind]. exists (p :: l), q. split; [done|].
    cbn [mbind list_bind]. fold (l ≫= piece_vals). split_and!.
    + rewrite length_app. lia.
    + intros i v [Hi|[Hi Hl]]%lookup_app_Some; [by apply Hv|]. apply Hv' in Hl. rewrite shift_shift in Hl.
      by replace (N.of_nat (length (piece_vals p)) + N.of_nat (i - length (piece_vals p)))%N with (N.of_nat i) in Hl by lia.
    + intros Hne v. specialize (Hstop Hne v). rewrite shift_shift in Hstop. by rewrite length_app, Nat2N.inj_add.
  - destruct Hn as [-> Hn]. exists [], (MkPieces None cursor' remaining). split; [done|].
    split_and!; [done|done|]. intros _ v. rewrite shift_0. apply Hn.
Qed.

Lemma filter_id {A} (P : A → Prop) `{∀ x, Decision (P x)} (l : list A) :
  (∀ x, x ∈ l → P x) → filter P l = l.
Proof.
  induction l as [|x l IH]; [done|]. intros Hl. rewrite filter_cons_True by (apply Hl; by left).
  f_equal. apply IH. intros y Hy. apply Hl. by right.
Qed.

Lemma entries_suffix c t : ∃ pre, ord_entries c = pre ++ entries_from c t ∧
  ∀ key s, (key, s) ∈ pre → tumbler key <ₜ t.
Proof.
  unfold entries_from. pose proof (ord_entries_sorted c) as Hs.
  induction (ord_entries c) as [|[key s] l IH]; [by exists []; split; [done|intros ? ? ?%elem_of_nil]|].
  cbn in Hs. apply StronglySorted_cons in Hs as [Hk Hs]. rewrite filter_cons.
  case_decide as Hd; cbn in Hd.
  - exists []. split; [|by intros ? ? ?%elem_of_nil]. cbn. f_equal. symmetry. apply filter_id.
    intros [key' s'] Hin. cbn. rewrite Forall_forall in Hk.
    pose proof (Hk key' (list_elem_of_fmap_2 fst _ _ Hin)). torder.
  - destruct (IH Hs) as (pre & E & Hpre). exists ((key, s) :: pre). split; [by rewrite E at 1|].
    intros key' s' [[= -> ->]|Hin]%elem_of_cons; [torder|by apply (Hpre _ s')].
Qed.

Lemma drain_ok c start width :
  store_ok c → ∃ l p, drain (pieces c start width) = Done (l, p) ∧
    lent c start width (l ≫= piece_vals) (pc_remaining p).
Proof.
  intros Hok. unfold drain, pieces. pose proof (at_or_below_spec c start) as H.
  destruct (at_or_below c start) as [[key s]|]; cbn [fmap option_fmap option_map pc_walk].
  - destruct H as (Hc & Hle & _). cbn [fst]. apply (pull_ok c); [done| |lia]. intros _.
    destruct (entries_suffix c (tumbler key)) as (pre & E & Hpre). exists pre. split; [done|].
    intros key' s' k v j Hin Hh Heq. pose proof (Hpre key' s' Hin) as Hlt.
    assert (Hc' : c !! key' = Some s').
    { apply elem_of_ord_entries. rewrite E. apply elem_of_app. by left. }
    pose proof (held_covers s' (tumbler key') k v Hh) as Hcov. rewrite Heq in Hcov.
    pose proof (shift_ge start j). apply Stored_covers_spec in Hcov as [Hkt|(Hst & _ & Hr)]; [rewrite Hkt in Hlt; torder|].
    destruct s' as [|bs]; [done|]. pose proof (so_apart c Hok key' bs key Hc' ltac:(by eexists) Hlt). torder.
  - cbn [length pull]. unfold Pieces_next. cbn [pc_walk pc_remaining].
    assert (Hno : ∀ v, ¬ stores c (shift start 0) v).
    { intros v (key & s & k & Hc & Ht & _). pose proof (H key ltac:(by eexists)) as Hlt.
      pose proof (shift_ge (tumbler key) k). rewrite shift_0 in Ht. rewrite <- Ht in *. torder. }
    exists [], (MkPieces None start width). destruct (width =? 0)%N; (split; [done|]; by split_and!).
Qed.

Lemma covered_ok c start width :
  store_ok c → ∃ b, covered (pieces c start width) = Done b ∧
    (b = true ↔ ∀ k, (k < width)%N → ∃ v, stores c (shift start k) v).
Proof.
  intros Hok. destruct (drain_ok c start width Hok) as (l & p & Hd & Hlen & Hv & Hstop).
  unfold covered. rewrite Hd. cbn [mbind outcome_bind]. eexists. split; [done|]. rewrite N.eqb_eq. split.
  - intros Hz k Hk. destruct (lookup_lt_is_Some_2 (l ≫= piece_vals) (N.to_nat k) ltac:(lia)) as [v Hl].
    exists v. apply Hv in Hl. by rewrite N2Nat.id in Hl.
  - intros Hall. destruct (N.eq_dec (pc_remaining p) 0%N) as [|Hne]; [done|]. exfalso.
    destruct (Hall (N.of_nat (length (l ≫= piece_vals))) ltac:(lia)) as [v Hst]. by apply (Hstop Hne v).
Qed.

(** ** The decode door *)

Lemma insert_entries_ok c entries :
  match insert_entries c entries with
  | Ok c' => NoDup (fst <$> entries) ∧ (∀ key, key ∈ fst <$> entries → c !! key = None) ∧
      ∀ key s, c' !! key = Some s ↔ (key, s) ∈ entries ∨ c !! key = Some s
  | Err e => e = NamedTwice ∧
      (¬ NoDup (fst <$> entries) ∨ ∃ key, key ∈ fst <$> entries ∧ is_Some (c !! key))
  end.
Proof.
  revert c. induction entries as [|[key s] entries IH]; intros c; cbn [insert_entries].
  { split_and!; [constructor|by intros ? ?%elem_of_nil|]. intros key s. split; [by right|].
    by intros [?%elem_of_nil|?]. }
  case_bool_decide as Hc.
  { split; [done|]. right. exists key. split; [by left|done]. }
  specialize (IH (<[key := s]> c)). apply eq_None_not_Some in Hc.
  destruct (insert_entries _ entries) as [c'|e].
  - destruct IH as (Hnd & Hfree & Hc').
    assert (Hk : key ∉ fst <$> entries).
    { intros Hin. apply Hfree in Hin. by rewrite lookup_insert_eq in Hin. }
    split_and!.
    + cbn. by constructor.
    + cbn. intros key' [->|Hin]%elem_of_cons; [done|]. pose proof (Hfree key' Hin) as Hf.
      rewrite lookup_insert_ne in Hf; [done|]. by intros <-.
    + intros key' s'. rewrite Hc', elem_of_cons. destruct (decide (key = key')) as [<-|Hne].
      * rewrite lookup_insert_eq, Hc. split; [intros [?|[= ->]]; tauto|]. intros [[[= ->]|?]|?]; [by right|by left|done].
      * rewrite lookup_insert_ne by done. split; [tauto|]. intros [[[= <- <-]|?]|?]; [done|by left|by right].
  - destruct IH as [-> [Hnd|(key' & Hin & Hs)]]; (split; [done|]).
    + left. cbn. by intros [_ ?]%NoDup_cons.
    + destruct (decide (key = key')) as [<-|Hne].
      * left. cbn. by intros [? _]%NoDup_cons.
      * right. exists key'. rewrite lookup_insert_ne in Hs by done. split; [by right|done].
Qed.

(** One ordered pass decides the invariant. *)
Lemma check_neighbours_ok l :
  StronglySorted (λ a b, tumbler a ≤ₜ tumbler b) (fst <$> l) →
  check_neighbours l = None ↔
  ∀ pre key bs post, l = pre ++ (key, Stretch bs) :: post →
    bs ≠ [] ∧ ∀ key', key' ∈ fst <$> post → Stored_reach (Stretch bs) (tumbler key) ≤ₜ tumbler key'.
Proof.
  induction l as [|[key s] l IH]; cbn [check_neighbours]; intros Hs.
  { split; [|done]. intros _ pre ? ? ? E. by destruct pre. }
  cbn in Hs. apply StronglySorted_cons in Hs as [Hk Hs]. specialize (IH Hs).
  destruct s as [v|bs].
  - rewrite IH. split; intros H pre key' bs post E.
    + destruct pre as [|x pre]; [done|]. injection E as _ E. by apply (H pre).
    + apply (H ((key, Value v) :: pre)). by rewrite E.
  - destruct (nonemptyb bs) eqn:Hne; cbn [negb].
    2: { split; [done|]. intros H. destruct (H [] key bs l eq_refl) as [Hb _].
         by apply nonemptyb_spec in Hb; rewrite Hb in Hne. }
    apply nonemptyb_spec in Hne.
    assert (Hnext : ((∀ key', key' ∈ fst <$> l → Stored_reach (Stretch bs) (tumbler key) ≤ₜ tumbler key') ∧
      check_neighbours l = None) ↔
      ∀ pre key0 bs0 post, (key, Stretch bs) :: l = pre ++ (key0, Stretch bs0) :: post →
        bs0 ≠ [] ∧ ∀ key', key' ∈ fst <$> post → Stored_reach (Stretch bs0) (tumbler key0) ≤ₜ tumbler key').
    { rewrite IH. split.
      - intros [Hr H] pre key0 bs0 post E. destruct pre as [|x pre]; [by injection E as -> -> ->|].
        injection E as _ E. by apply (H pre).
      - intros H. split; [by apply (H [])|]. intros pre key0 bs0 post E.
        apply (H ((key, Stretch bs) :: pre)). by rewrite E. }
    rewrite <- Hnext. destruct l as [|[next sn] l]; [naive_solver set_solver|].
    destruct (ltb_spec (tumbler next) (Stored_reach (Stretch bs) (tumbler key))) as [Hlt|Hle].
    + split; [done|]. intros [Hr _]. pose proof (Hr next ltac:(by left)). torder.
    + split; [|by intros [_ ?]]. intros Hc. split; [|done]. cbn. intros key' [->|Hin]%elem_of_cons; [done|].
      cbn in Hs. apply StronglySorted_cons in Hs as [Hn _]. rewrite Forall_forall in Hn.
      pose proof (Hn key' Hin). torder.
Qed.

Lemma ord_entries_split (c : ContentStore) pre key s post :
  ord_entries c = pre ++ (key, s) :: post →
  ∀ key', key' ∈ fst <$> post ↔ is_Some (c !! key') ∧ tumbler key <ₜ tumbler key'.
Proof.
  intros E key'. pose proof (ord_entries_sorted c) as Hs. pose proof (ord_entries_keys_NoDup c) as Hnd.
  assert (Hin : ∀ k, is_Some (c !! k) ↔ k ∈ fst <$> ord_entries c).
  { intros k. rewrite list_elem_of_fmap. split.
    - intros [v Hv]. exists (k, v). by rewrite elem_of_ord_entries.
    - intros ([k0 v] & -> & Hv). apply elem_of_ord_entries in Hv. by eexists. }
  rewrite Hin. clear Hin. rewrite E in *. rewrite fmap_app in *. cbn [fmap list_fmap fst] in *.
  induction pre as [|[k0 v0] pre IH] in Hs, Hnd |- *; cbn [fmap list_fmap app fst] in *.
  - apply StronglySorted_cons in Hs as [Hk _]. apply NoDup_cons in Hnd as [Hn _].
    rewrite Forall_forall in Hk. rewrite elem_of_cons. split.
    + intros Hp. split; [by right|]. destruct (proj1 (Tle_lteq _ _) (Hk key' Hp)) as [?|?%Address_eq]; [done|].
      by subst.
    + intros [[->|?] Hlt]; [torder|done].
  - apply StronglySorted_cons in Hs as [Hk Hs]. apply NoDup_cons in Hnd as [Hn Hnd].
    rewrite (IH Hs Hnd), elem_of_cons. split; [by intros [? ?]; split; [right|]|].
    intros [[->|?] Hlt]; [|done]. exfalso. rewrite Forall_forall in Hk.
    pose proof (Hk key ltac:(apply elem_of_app; right; by left)). torder.
Qed.

(** Every stretch's length is a machine word, as a boxed slice's is. *)
Definition sized (entries : list (Address * Stored)) : Prop :=
  ∀ key bs, (key, Stretch bs) ∈ entries → (N.of_nat (length bs) < 2 ^ 64)%N.

Lemma neighbours_store (c : ContentStore) :
  sized (ord_entries c) → check_neighbours (ord_entries c) = None ↔ store_ok c.
Proof.
  intros Hz. rewrite check_neighbours_ok by apply ord_entries_sorted. split.
  - intros H.
    assert (Hat : ∀ key bs, c !! key = Some (Stretch bs) → bs ≠ [] ∧
      ∀ key', is_Some (c !! key') → tumbler key <ₜ tumbler key' →
        Stored_reach (Stretch bs) (tumbler key) ≤ₜ tumbler key').
    { intros key bs Hc. apply elem_of_ord_entries in Hc.
      apply list_elem_of_split in Hc as (pre & post & E). destruct (H pre key bs post E) as [Hne Hr].
      split; [done|]. intros key' Hs Hlt. apply Hr. by apply (ord_entries_split c pre key _ post E). }
    split.
    + intros key bs Hc. split; [by apply (Hat key)|]. apply (Hz key). by apply elem_of_ord_entries.
    + intros key bs key' Hc. by apply Hat.
  - intros Hok pre key bs post E.
    assert (Hc : c !! key = Some (Stretch bs)).
    { apply elem_of_ord_entries. rewrite E. apply elem_of_app. right. by left. }
    split; [by apply (so_stretch c Hok key)|]. intros key' Hin.
    apply (ord_entries_split c pre key _ post E) in Hin as [Hs Hlt]. by apply (so_apart c Hok key bs).
Qed.

Lemma insert_entries_perm entries (c : ContentStore) :
  insert_entries ∅ entries = Ok c ↔ entries ≡ₚ ord_entries c.
Proof.
  pose proof (insert_entries_ok ∅ entries) as H. split.
  - intros E. rewrite E in H. destruct H as (Hnd & _ & Hc). apply NoDup_Permutation.
    + by apply (NoDup_fmap_1 fst).
    + apply (NoDup_fmap_1 fst), ord_entries_keys_NoDup.
    + intros [key s]. rewrite elem_of_ord_entries, Hc, lookup_empty. naive_solver.
  - intros Hp. destruct (insert_entries ∅ entries) as [c'|e].
    + f_equal. apply map_eq. intros key. apply option_eq. intros s.
      destruct H as (_ & _ & ->). rewrite Hp, elem_of_ord_entries, lookup_empty. naive_solver.
    + destruct H as [_ [Hnd|(key & _ & [? Hs])]]; [|by rewrite lookup_empty in Hs].
      exfalso. apply Hnd. rewrite Hp. apply ord_entries_keys_NoDup.
Qed.

(** ** The claims *)

(** C36. S0, content immutability. Past its routing assertion a staging door refuses
    exactly an address already stored, an empty stretch, or a stretch a stored key
    lies inside; what it admits folds, in either build, to a slice that keeps the
    invariant, stores exactly the new values at exactly their addresses, and every
    value that was stored where it was. *)
Theorem content_immutable (debug : bool) (c : ContentStore) (a : Address) (v : Val) (bs : list byte) :
  store_ok c → content_routed a = true → (N.of_nat (length bs) < 2 ^ 64)%N →
  match stage_write debug c a v with
  | Done (Ok r) => ∃ c', apply_write debug c r = Done c' ∧ store_ok c' ∧
      ∀ t w, stores c' t w ↔ (t = tumbler a ∧ w = v) ∨ stores c t w
  | Done (Err e) => e = AlreadyStored (tumbler a) ∧ contains_content c (tumbler a) = true
  | Panicked => False
  end ∧
  match stage_stretch debug c a bs with
  | Done (Ok r) => bs ≠ [] ∧ ∃ c', apply_stretch debug c r = Done c' ∧ store_ok c' ∧
      ∀ t w, stores c' t w ↔
        (∃ k b, t = shift (tumbler a) (N.of_nat k) ∧ bs !! k = Some b ∧ w = [b]) ∨ stores c t w
  | Done (Err e) =>
      (e = EmptyStretch ∧ bs = []) ∨
      (e = AlreadyStored (tumbler a) ∧ contains_content c (tumbler a) = true) ∨
      (e = Overlap (tumbler a) (shift (tumbler a) (N.of_nat (length bs))) ∧
       ∃ key, is_Some (c !! key) ∧ tumbler a ≤ₜ tumbler key ∧
         tumbler key <ₜ shift (tumbler a) (N.of_nat (length bs)))
  | Panicked => False
  end.
Proof.
  intros Hok Hr Hlen. pose proof (stage_write_ok debug c a v Hok Hr) as Hw.
  pose proof (stage_stretch_ok debug c a bs Hok Hr Hlen) as Hs. split.
  - destruct (stage_write debug c a v) as [[r|e]|]; [|done..]. destruct Hw as (-> & _ & ? & ? & ?). by eexists.
  - destruct (stage_stretch debug c a bs) as [[r|e]|]; [|naive_solver|done].
    destruct Hs as (-> & ? & ? & ? & ?). split; [done|]. by eexists.
Qed.

(** The reads agree: a point read answers exactly what is stored at the address;
    the run read never panics and ends, lending the values of the window's positions
    in order up to the first that holds nothing; [covered] holds exactly when every
    position of the window holds a value. *)
Theorem run_read_exact (c : ContentStore) (start : Tumbler) (width : Nat) :
  store_ok c →
  (∃ o, value_at c start = Done o ∧ ∀ v, to_val <$> o = Some v ↔ stores c start v) ∧
  (∃ l p, drain (pieces c start width) = Done (l, p) ∧
     lent c start width (l ≫= piece_vals) (pc_remaining p)) ∧
  (∃ b, covered (pieces c start width) = Done b ∧
     (b = true ↔ ∀ k, (k < width)%N → ∃ v, stores c (shift start k) v)).
Proof.
  intros Hok. split_and!; [by apply value_at_ok|by apply drain_ok|by apply covered_ok].
Qed.

(** C37. The serialized form. A slice decodes from its own entries, in any order, and
    whatever entries decode are those of a slice that holds the invariant. *)
Theorem slice_roundtrip (entries : list (Address * Stored)) (c : ContentStore) :
  sized entries →
  entry_by_entry entries = Ok c ↔ store_ok c ∧ entries ≡ₚ ord_entries c.
Proof.
  intros Hz. unfold entry_by_entry. split.
  - destruct (insert_entries ∅ entries) as [c'|e] eqn:E; [|done]. apply insert_entries_perm in E.
    destruct (check_neighbours _) eqn:Hc; [done|]. intros [= <-]. split; [|done].
    apply neighbours_store; [|done]. intros key bs. rewrite <- E. apply Hz.
  - intros [Hok Hp]. rewrite (proj2 (insert_entries_perm entries c) Hp).
    rewrite (proj2 (neighbours_store c ltac:(intros key bs; rewrite <- Hp; apply Hz)) Hok). done.
Qed.

(** ** The claims at a small slice *)

Definition sample_store : ContentStore :=
  {[sample_start := Stretch [x61; x62; x63]; addr_shift sample_start 3 := Value [x64; x65]]}.

Lemma sample_store_ok : store_ok sample_store.
Proof.
  assert (Hl : ∀ key s, sample_store !! key = Some s →
    (key, s) = (sample_start, Stretch [x61; x62; x63]) ∨ (key, s) = (addr_shift sample_start 3, Value [x64; x65])).
  { intros key s. unfold sample_store. rewrite lookup_insert_Some, lookup_singleton_Some. naive_solver. }
  split.
  - intros key bs [[= -> ->]|[=]]%Hl. done.
  - intros key bs key' [[= -> ->]|[=]]%Hl [s [[= -> ->]|[= -> ->]]%Hl] Hlt; [torder|].
    change (Stored_reach _ _) with (shift (tumbler sample_start) 3). rewrite addr_shift_tumbler. torder.
Qed.

Lemma content_immutable_witness :
  ∃ r c', stage_write true sample_store (addr_shift sample_start 4) [x66] = Done (Ok r) ∧
    apply_write true sample_store r = Done c' ∧ stores c' (shift (tumbler sample_start) 1) [x62].
Proof.
  destruct (content_immutable true sample_store (addr_shift sample_start 4) [x66] [x67])
    as [Hw _]; [apply sample_store_ok|vm_compute; reflexivity|vm_compute; reflexivity|].
  destruct (stage_write true sample_store (addr_shift sample_start 4) [x66]) as [[r|e]|]; [| |done].
  - destruct Hw as (c' & Ha & _ & Hst). exists r, c'. split_and!; [reflexivity|exact Ha|].
    apply Hst. right. exists sample_start, (Stretch [x61; x62; x63]), 1%N. split_and!; reflexivity.
  - destruct Hw as [_ Hc]. exfalso. revert Hc.
    assert (contains_content sample_store (tumbler (addr_shift sample_start 4)) = false) as ->
      by (vm_compute; reflexivity). done.
Defined.

Lemma run_read_exact_witness :
  ∃ b, covered (pieces sample_store (tumbler sample_start) 4) = Done b ∧
    (b = true ↔ ∀ k, (k < 4)%N → ∃ v, stores sample_store (shift (tumbler sample_start) k) v).
Proof. apply (run_read_exact sample_store (tumbler sample_start) 4). apply sample_store_ok. Defined.

Lemma slice_roundtrip_witness : entry_by_entry (ord_entries sample_store) = Ok sample_store.
Proof.
  apply (slice_roundtrip (ord_entries sample_store) sample_store).
  - intros key bs Hin. apply elem_of_ord_entries in Hin. by apply (so_stretch _ sample_store_ok key).
  - split; [apply sample_store_ok|reflexivity].
Defined.
