(* ===== verification/RunLists.v ===== *)
(** * The run-list: implicit positions, splices and clips

    Models [crates/skep-arrangement/src/run_list.rs]. A run-list stores runs
    alone; a run's V-start is the prefix sum of the widths before it. What a
    list means is the sequence of addresses it denotes, [flat], and every
    operation is proved to be the list operation it stands for on that
    sequence, keeping the two invariants: every run well formed, and no two
    neighbours I-adjacent. Iterators are the lists they yield. *)

From S2P Require Import Prelude Tumblers Addresses Arith Spans SpanSets Runs.

#[local] Arguments N.add : simpl never.
#[local] Arguments N.sub : simpl never.

(** ** Data and operations *)

Definition i_adjacent (left : Run) (right_start : Address) : bool :=
  bool_decide (run_reach left = tumbler right_start).

(** [runs] is the vector being accumulated; its last run is widened in place. *)
Definition extend_or_push_run (runs : list Run) (run : Run) : list Run :=
  match last runs with
  | Some l =>
      if i_adjacent l (i_start run)
      then removelast runs ++ [MkRun (i_start l) (run_width l + run_width run)]
      else runs ++ [run]
  | None => runs ++ [run]
  end.

Definition coalesced (runs : list Run) : list Run := foldl extend_or_push_run [] runs.

Record RunList := MkRunList { rl_runs : list Run }.

#[export] Instance RunList_eq_dec : EqDecision RunList.
Proof. solve_decision. Defined.

(** [RunList::default()]. *)
Definition RunList_default : RunList := MkRunList [].

(** [From<RunListShadow>]: the decode door repairs. *)
Definition RunList_from (shadow : list Run) : RunList := MkRunList (coalesced shadow).

Record Block := MkBlock { v_start : Nat; b_run : Run }.

Definition v_reach (b : Block) : Nat := (v_start b + run_width (b_run b))%N.

(** The prefix-sum walk, from the running start. *)
Fixpoint blocks_from (v : Nat) (runs : list Run) : list Block :=
  match runs with
  | [] => []
  | r :: runs => MkBlock v r :: blocks_from (v + run_width r) runs
  end.

Definition blocks_of (runs : list Run) : list Block := blocks_from 1 runs.

Fixpoint split_blocks (ord : Nat) (left : list Run) (blocks : list Block) :
    outcome (list Run * list Run) :=
  match blocks with
  | [] => Done (left, [])
  | b :: blocks =>
      if (ord =? v_start b)%N then Done (left, b_run b :: (b_run <$> blocks))
      else if (ord <? v_reach b)%N then
        kept ← nat_sub ord (v_start b);
        right_start ← addr_at (b_run b) kept;
        right_width ← nat_sub (run_width (b_run b)) kept;
        Done (left ++ [MkRun (i_start (b_run b)) kept],
              MkRun right_start right_width :: (b_run <$> blocks))
      else split_blocks ord (left ++ [b_run b]) blocks
  end.

Definition split_runs (runs : list Run) (ord : Nat) : outcome (list Run * list Run) :=
  if (ord <=? 1)%N then Done ([], runs) else split_blocks ord [] (blocks_of runs).

Definition total_width (l : RunList) : Nat := foldr (λ r n, (run_width r + n)%N) 0%N (rl_runs l).

Definition run_count (l : RunList) : nat := length (rl_runs l).

Definition RunList_is_empty (l : RunList) : bool := negb (nonemptyb (rl_runs l)).

Definition iter_blocks (l : RunList) : list Block := blocks_of (rl_runs l).

Definition locate (l : RunList) (ord : Nat) : outcome (option (Run * Nat)) :=
  if nat_is_zero ord then Done None
  else
    match List.find (λ b, (ord <? v_reach b)%N) (iter_blocks l) with
    | None => Done None
    | Some b => off ← nat_sub ord (v_start b); Done (Some (b_run b, off))
    end.

Definition point (l : RunList) (ord : Nat) : outcome (option Address) :=
  found ← locate l ord;
  match found with
  | None => Done None
  | Some (run, off) => a ← addr_at run off; Done (Some a)
  end.

(** [any(|r| r.iextent().contains(..))], stopping at the first that does. *)
Fixpoint any_holds (a : Address) (runs : list Run) : outcome bool :=
  match runs with
  | [] => Done false
  | r :: runs =>
      e ← iextent r;
      if contains e (tumbler a) then Done true else any_holds a runs
  end.

Definition holds (l : RunList) (a : Address) : outcome bool := any_holds a (rl_runs l).

Definition split_at (l : RunList) (ord : Nat) : outcome (list Run * list Run) :=
  split_runs (rl_runs l) ord.

Definition splice_in (l : RunList) (ord : Nat) (new_runs : list Run) : outcome RunList :=
  '(acc, suffix) ← split_at l ord;
  Done (MkRunList (coalesced (acc ++ new_runs ++ suffix))).

Definition append (l : RunList) (run : Run) : outcome RunList :=
  splice_in l (total_width l + 1) [run].

Definition remove_range (l : RunList) (from width : Nat) : outcome RunList :=
  '(kept, rest) ← split_at l from;
  '(_, suffix) ← split_runs rest (width + 1);
  Done (MkRunList (coalesced (kept ++ suffix))).

(** The descending peel: the regions right to left, and what is left of the first cut. *)
Fixpoint peel (prefix : list Run) (cuts : list Nat) : outcome (list Run * list (list Run)) :=
  match cuts with
  | [] => Done (prefix, [])
  | cut :: cuts =>
      '(kept, region) ← split_runs prefix cut;
      '(prefix, regions) ← peel kept cuts;
      Done (prefix, region :: regions)
  end.

Definition reorder (l : RunList) (cut_ordinals : list Nat) : outcome RunList :=
  match last cut_ordinals with
  | None => Done l
  | Some lst =>
      '(prefix, exterior_right) ← split_at l lst;
      '(prefix, regions) ← peel prefix (rev (removelast cut_ordinals));
      Done (MkRunList (coalesced (prefix ++ concat regions ++ exterior_right)))
  end.

(** [Iterator::take_while] *)
Fixpoint take_while {A} (p : A → bool) (l : list A) : list A :=
  match l with [] => [] | x :: l => if p x then x :: take_while p l else [] end.

Definition clip_block (lo : Nat) (hi_excl : option Nat) (b : Block) : outcome (option Run) :=
  let v_reach := v_reach b in
  if (v_reach <=? lo)%N then Done None
  else
    let first := N.max (v_start b) lo in
    let past := match hi_excl with Some hi => N.min v_reach hi | None => v_reach end in
    if (first =? v_start b)%N && (past =? v_reach)%N then Done (Some (b_run b))
    else
      off ← nat_sub first (v_start b);
      a ← addr_at (b_run b) off;
      w ← nat_sub past first;
      Done (Some (MkRun a w)).

(** [filter_map]'s kept items. *)
Definition clipped (l : list (option Run)) : list Run := omap id l.

Definition clipped_runs (l : RunList) (lo : Nat) (hi_excl : option Nat) : outcome (list Run) :=
  kept ← outcome_map (clip_block lo hi_excl)
    (take_while (λ b, match hi_excl with Some hi => (v_start b <? hi)%N | None => true end)
       (iter_blocks l));
  Done (clipped kept).

Definition iter_resolve_range (l : RunList) (ord count : Nat) : outcome (list Run) :=
  let lo := N.max ord 1 in
  let hi_excl := (ord + count)%N in
  if (lo <? hi_excl)%N then clipped_runs l lo (Some hi_excl) else Done [].

Definition iter_resolve_from (l : RunList) (ord : Nat) : outcome (list Run) :=
  clipped_runs l (N.max ord 1) None.

Definition image (l : RunList) : outcome SpanSet :=
  es ← outcome_map iextent (rl_runs l);
  Done (from_iter es).

(** ** What a run-list denotes, and its invariant *)

Definition flat (runs : list Run) : list Address := runs ≫= addrs.

Definition runs_ok (runs : list Run) : Prop := Forall run_ok runs.

(** No two neighbours are I-adjacent. *)
Fixpoint merged (runs : list Run) : Prop :=
  match runs with
  | [] => True
  | a :: l => match l with b :: _ => i_adjacent a (i_start b) = false | [] => True end ∧ merged l
  end.

Record RunList_ok (l : RunList) : Prop := {
  rl_ok : runs_ok (rl_runs l);
  rl_merged : merged (rl_runs l)
}.

(** The V→I map of one subspace: ordinal [p] is the [p]-th address. *)
Definition vmap (l : RunList) : list Address := flat (rl_runs l).

Lemma flat_app l k : flat (l ++ k) = flat l ++ flat k.
Proof. apply bind_app. Qed.

Lemma flat_cons r l : flat (r :: l) = addrs r ++ flat l.
Proof. reflexivity. Qed.

Lemma flat_nil : flat [] = [].
Proof. reflexivity. Qed.

#[global] Arguments flat : simpl never.

Lemma total_width_flat l : total_width l = N.of_nat (length (vmap l)).
Proof.
  unfold total_width, vmap. induction (rl_runs l) as [|r k IH]; [done|].
  cbn [foldr]. rewrite IH, flat_cons, length_app, addrs_length. lia.
Qed.

Lemma runs_ok_app l k : runs_ok (l ++ k) ↔ runs_ok l ∧ runs_ok k.
Proof. apply Forall_app. Qed.

(** ** Run surgery on the addresses *)

Lemma offsets_take j w : (j ≤ w)%N → take (N.to_nat j) (offsets w) = offsets j.
Proof.
  intros H. rewrite (offsets_split j w H). rewrite take_app_length'; [done|].
  unfold offsets. by rewrite length_fmap, length_seq.
Qed.

Lemma addrs_cut a j w :
  (j ≤ w)%N → addrs (MkRun a w) = addrs (MkRun a j) ++ addrs (MkRun (addr_shift a j) (w - j)).
Proof.
  intros H. unfold addrs. cbn. rewrite (offsets_split j w H), fmap_app. f_equal.
  rewrite <- list_fmap_compose. apply list_fmap_ext. intros i k _. cbn.
  by rewrite addr_shift_shift.
Qed.

(** A clipped run is the sublist of its run's addresses. *)
Lemma addrs_clip a j n w :
  (j + n ≤ w)%N →
  addrs (MkRun (addr_shift a j) n) = take (N.to_nat n) (drop (N.to_nat j) (addrs (MkRun a w))).
Proof.
  intros H. rewrite (addrs_cut a j w) by lia.
  rewrite drop_app_length' by (by rewrite addrs_length).
  rewrite (addrs_cut (addr_shift a j) n (w - j)) by lia.
  by rewrite take_app_length' by (by rewrite addrs_length).
Qed.

Lemma i_adjacent_spec l a :
  i_adjacent l a = true ↔ a = addr_shift (i_start l) (run_width l).
Proof.
  unfold i_adjacent. rewrite bool_decide_eq_true. unfold run_reach.
  rewrite <- addr_shift_tumbler. split; [|by intros ->]. intros H. by apply Address_eq.
Qed.

Lemma addrs_join l r :
  i_adjacent l (i_start r) = true →
  addrs (MkRun (i_start l) (run_width l + run_width r)) = addrs l ++ addrs r.
Proof.
  intros Hadj%i_adjacent_spec. rewrite (addrs_cut _ (run_width l)) by lia.
  rewrite <- Hadj. replace (run_width l + run_width r - run_width l)%N with (run_width r) by lia.
  by destruct l, r.
Qed.

(** ** The accumulator and [coalesced] *)

Lemma snoc_view {A} (l : list A) : l = [] ∨ ∃ k x, l = k ++ [x].
Proof. destruct l as [|x k] using rev_ind; [by left|right; eauto]. Qed.

Lemma merged_app l k :
  merged (l ++ k) ↔ merged l ∧ merged k ∧
    ∀ a b, last l = Some a → head k = Some b → i_adjacent a (i_start b) = false.
Proof.
  induction l as [|r l IH]; [naive_solver|]. cbn [app merged]. rewrite IH.
  destruct l as [|s l]; cbn [app].
  - destruct k as [|b k]; cbn; naive_solver.
  - rewrite last_cons_cons. naive_solver.
Qed.

Lemma extend_snoc k x run :
  extend_or_push_run (k ++ [x]) run =
    if i_adjacent x (i_start run) then k ++ [MkRun (i_start x) (run_width x + run_width run)]
    else k ++ [x; run].
Proof.
  unfold extend_or_push_run. rewrite last_snoc, removelast_last.
  destruct (i_adjacent _ _); [done|]. by rewrite <- app_assoc.
Qed.

Lemma extend_flat l r : flat (extend_or_push_run l r) = flat l ++ addrs r.
Proof.
  destruct (snoc_view l) as [->|(k & x & ->)].
  { change (extend_or_push_run [] r) with [r]. by rewrite flat_cons, flat_nil, app_nil_r. }
  rewrite extend_snoc. destruct (i_adjacent _ _) eqn:E.
  - by rewrite !flat_app, !flat_cons, flat_nil, !app_nil_r, (addrs_join x r E), app_assoc.
  - by rewrite !flat_app, !flat_cons, flat_nil, !app_nil_r, app_assoc.
Qed.

Lemma runs_ok_cons r l : runs_ok (r :: l) ↔ run_ok r ∧ runs_ok l.
Proof. apply Forall_cons. Qed.

Lemma runs_ok_nil : runs_ok [].
Proof. apply Forall_nil_2. Qed.

#[export] Hint Resolve runs_ok_nil : core.

Lemma extend_ok l r : runs_ok l → run_ok r → runs_ok (extend_or_push_run l r).
Proof.
  intros Hl Hr. destruct (snoc_view l) as [->|(k & x & ->)]; [by apply runs_ok_cons|].
  rewrite extend_snoc. rewrite runs_ok_app, runs_ok_cons in Hl. destruct Hl as (Hk & Hx & _).
  destruct (i_adjacent _ _); rewrite runs_ok_app, !runs_ok_cons; split_and!; try done;
    destruct Hx, Hr; split; cbn; [lia|done].
Qed.

Lemma extend_merged l r : merged l → merged (extend_or_push_run l r).
Proof.
  intros Hl. destruct (snoc_view l) as [->|(k & x & ->)]; [done|].
  rewrite extend_snoc. apply merged_app in Hl as (Hk & _ & Hl).
  destruct (i_adjacent _ _) eqn:E; apply merged_app; split_and!; try done.
  intros a b Ha [= <-]. cbn. by apply (Hl a x).
Qed.

Lemma foldl_extend_flat l acc : flat (foldl extend_or_push_run acc l) = flat acc ++ flat l.
Proof.
  revert acc. induction l as [|r l IH]; intros acc; cbn [foldl]; [by rewrite flat_nil, app_nil_r|].
  by rewrite IH, extend_flat, flat_cons, app_assoc.
Qed.

Lemma coalesced_flat l : flat (coalesced l) = flat l.
Proof. apply foldl_extend_flat. Qed.

Lemma coalesced_ok l : runs_ok l → runs_ok (coalesced l).
Proof.
  intros H. unfold coalesced. pose proof runs_ok_nil as Hacc. revert Hacc.
  generalize (@nil Run) as acc. induction H as [|r l Hr _ IH]; intros acc Hacc; [done|].
  apply IH. by apply extend_ok.
Qed.

Lemma coalesced_merged l : merged (coalesced l).
Proof.
  unfold coalesced. assert (Hacc : merged []) by done. revert Hacc.
  generalize (@nil Run) as acc. induction l as [|r l IH]; intros acc Hacc; [done|].
  apply IH. by apply extend_merged.
Qed.

Lemma coalesced_list_ok l : runs_ok l → RunList_ok (MkRunList (coalesced l)).
Proof. intros H. split; [by apply coalesced_ok|apply coalesced_merged]. Qed.

Lemma vmap_coalesced l : vmap (MkRunList (coalesced l)) = flat l.
Proof. apply coalesced_flat. Qed.

(** ** The canonical decomposition is unique *)

Lemma addrs_lookup r k : (k < run_width r)%N → addrs r !! N.to_nat k = Some (addr_shift (i_start r) k).
Proof.
  intros Hk. unfold addrs, offsets. rewrite !list_lookup_fmap, lookup_seq_lt by lia.
  cbn. by rewrite N2Nat.id.
Qed.

Lemma flat_head r l : run_ok r → flat (r :: l) !! 0 = Some (i_start r).
Proof.
  intros [Hw _]. rewrite flat_cons, lookup_app_l by (rewrite addrs_length; lia).
  change (addrs r !! N.to_nat 0 = Some (i_start r)).
  rewrite addrs_lookup by lia. by rewrite addr_shift_0.
Qed.

(** In a merged list the address after the first run's last is not its reach. *)
Lemma flat_after_head r l :
  runs_ok (r :: l) → merged (r :: l) →
  flat (r :: l) !! N.to_nat (run_width r) ≠ Some (addr_shift (i_start r) (run_width r)).
Proof.
  intros [Hr Hl]%runs_ok_cons [Hm _]. rewrite flat_cons, lookup_app_r by (rewrite addrs_length; lia).
  rewrite addrs_length, Nat.sub_diag. destruct l as [|s l]; [done|].
  apply runs_ok_cons in Hl as [Hs _]. rewrite (flat_head s l Hs). intros [= E].
  apply not_true_iff_false in Hm. by apply Hm, i_adjacent_spec.
Qed.

Lemma head_width_le r s l k :
  runs_ok (r :: l) → runs_ok (s :: k) → merged (r :: l) → flat (r :: l) = flat (s :: k) →
  i_start r = i_start s → (run_width s ≤ run_width r)%N.
Proof.
  intros Hr Hs Hm Hf Ha. destruct (N.le_gt_cases (run_width s) (run_width r)) as [|Hlt]; [done|].
  exfalso. apply (flat_after_head r l Hr Hm). rewrite Hf, flat_cons.
  rewrite lookup_app_l by (rewrite addrs_length; lia). rewrite addrs_lookup by done. by rewrite Ha.
Qed.

Lemma canonical_runs_unique l k :
  runs_ok l → runs_ok k → merged l → merged k → flat l = flat k → l = k.
Proof.
  revert k. induction l as [|r l IH]; intros [|s k] Hl Hk Ml Mk Hf; [done| | |].
  - apply runs_ok_cons in Hk as [Hs _]. pose proof (flat_head s k Hs) as H. by rewrite <- Hf in H.
  - apply runs_ok_cons in Hl as [Hr _]. pose proof (flat_head r l Hr) as H. by rewrite Hf in H.
  - pose proof (proj1 (runs_ok_cons _ _) Hl) as [Hr Hl'].
    pose proof (proj1 (runs_ok_cons _ _) Hk) as [Hs Hk'].
    assert (Ha : i_start r = i_start s).
    { pose proof (flat_head r l Hr) as H1. pose proof (flat_head s k Hs) as H2. congruence. }
    pose proof (head_width_le r s l k Hl Hk Ml Hf Ha).
    pose proof (head_width_le s r k l Hk Hl Mk (eq_sym Hf) (eq_sym Ha)).
    assert (r = s) as <- by (destruct r, s; cbn in *; f_equal; [done|lia]).
    f_equal. destruct Ml as [_ Ml], Mk as [_ Mk]. apply IH; try done.
    rewrite !flat_cons in Hf. by apply app_inv_head in Hf.
Qed.

(** Equal maps are equal lists. *)
Lemma RunList_ext l k : RunList_ok l → RunList_ok k → vmap l = vmap k → l = k.
Proof.
  destruct l as [l], k as [k]. intros [Hl Ml] [Hk Mk] H. f_equal. by apply canonical_runs_unique.
Qed.

(** A run list that is already merged is its own coalesced form. *)
Lemma coalesced_merged_id l : runs_ok l → merged l → coalesced l = l.
Proof.
  intros Hl Hm. apply canonical_runs_unique; try done.
  - by apply coalesced_ok.
  - apply coalesced_merged.
  - apply coalesced_flat.
Qed.

(** ** Splitting *)

Lemma blocks_runs v l : b_run <$> blocks_from v l = l.
Proof. revert v. induction l as [|r l IH]; intros v; [done|]. cbn. by rewrite IH. Qed.

(** A split list denotes the two parts of what it denoted. *)
Definition split_of (l left right : list Run) (n : nat) : Prop :=
  runs_ok left ∧ runs_ok right ∧ flat left = take n (flat l) ∧ flat right = drop n (flat l).

Lemma split_blocks_ok ord l v acc :
  runs_ok l → (v ≤ ord)%N →
  ∃ left right, split_blocks ord acc (blocks_from v l) = Done (acc ++ left, right) ∧
    split_of l left right (N.to_nat (ord - v)).
Proof.
  intros Hl. revert v acc. induction Hl as [|r l Hr Hl IH]; intros v acc Hv; cbn [blocks_from split_blocks].
  { exists [], []. rewrite app_nil_r. split; [done|]. unfold split_of. rewrite flat_nil.
    split_and!; [done|done|by rewrite take_nil|by rewrite drop_nil]. }
  unfold v_reach. cbn [v_start b_run]. rewrite blocks_runs.
  destruct (N.eqb_spec ord v) as [->|Hne].
  { exists [], (r :: l). rewrite app_nil_r, N.sub_diag. split; [done|].
    split_and!; try done. by apply runs_ok_cons. }
  destruct (N.ltb_spec ord (v + run_width r)) as [Hlt|Hge].
  - rewrite nat_sub_ok by lia. cbn. rewrite addr_at_ok by lia. cbn. rewrite nat_sub_ok by lia. cbn.
    set (j := (ord - v)%N). eexists _, _. split; [reflexivity|].
    pose proof (addrs_cut (i_start r) j (run_width r) ltac:(lia)) as Hcut.
    replace (MkRun (i_start r) (run_width r)) with r in Hcut by (by destruct r).
    destruct Hr as [Hw Hs]. split_and!.
    + apply runs_ok_cons. split; [|done]. split; cbn; [lia|done].
    + apply runs_ok_cons. split; [|done]. split; cbn; [lia|by apply admits_shift].
    + rewrite !flat_cons, flat_nil, Hcut, app_nil_r, <- app_assoc.
      by rewrite take_app_length' by (by rewrite addrs_length).
    + rewrite !flat_cons, Hcut, <- app_assoc.
      by rewrite drop_app_length' by (by rewrite addrs_length).
  - destruct (IH (v + run_width r)%N (acc ++ [r]) ltac:(lia)) as (left & right & -> & H1 & H2 & H3 & H4).
    exists (r :: left), right. rewrite <- app_assoc. split; [done|]. unfold split_of.
    split_and!; [|done| |].
    + by apply runs_ok_cons.
    + rewrite !flat_cons, H3, take_app_ge by (rewrite addrs_length; lia).
      rewrite addrs_length. do 2 f_equal. lia.
    + rewrite flat_cons, H4, drop_app_ge by (rewrite addrs_length; lia).
      rewrite addrs_length. f_equal. lia.
Qed.

Lemma split_runs_ok l ord :
  runs_ok l → ∃ left right, split_runs l ord = Done (left, right) ∧
    split_of l left right (N.to_nat (ord - 1)).
Proof.
  intros Hl. unfold split_runs. destruct (N.leb_spec ord 1) as [Hle|Hgt].
  - exists [], l. replace (N.to_nat (ord - 1)) with 0 by lia. split; [done|]. by split_and!.
  - apply (split_blocks_ok ord l 1 []); [done|lia].
Qed.

(** ** The mutators *)

Lemma splice_in_ok l ord new :
  RunList_ok l → runs_ok new →
  ∃ l', splice_in l ord new = Done l' ∧ RunList_ok l' ∧
    vmap l' = take (N.to_nat (ord - 1)) (vmap l) ++ flat new ++ drop (N.to_nat (ord - 1)) (vmap l).
Proof.
  intros [Hl _] Hn. unfold splice_in, split_at.
  destruct (split_runs_ok (rl_runs l) ord Hl) as (lft & rgt & -> & H1 & H2 & H3 & H4). cbn.
  eexists. split; [reflexivity|]. split.
  - apply coalesced_list_ok. by rewrite !runs_ok_app.
  - by rewrite vmap_coalesced, !flat_app, H3, H4.
Qed.

Lemma append_ok l r :
  RunList_ok l → run_ok r →
  ∃ l', append l r = Done l' ∧ RunList_ok l' ∧ vmap l' = vmap l ++ addrs r.
Proof.
  intros Hl Hr. unfold append.
  destruct (splice_in_ok l (total_width l + 1) [r]) as (l' & -> & Hl' & E); [done|by apply runs_ok_cons|].
  exists l'. split_and!; [done|done|]. rewrite E, total_width_flat.
  replace (N.to_nat _) with (length (vmap l)) by lia.
  rewrite take_ge, drop_ge by lia. by rewrite flat_cons, flat_nil, !app_nil_r.
Qed.

Lemma remove_range_ok l from width :
  RunList_ok l →
  ∃ l', remove_range l from width = Done l' ∧ RunList_ok l' ∧
    vmap l' = take (N.to_nat (from - 1)) (vmap l) ++
              drop (N.to_nat (from - 1) + N.to_nat width) (vmap l).
Proof.
  intros [Hl _]. unfold remove_range, split_at.
  destruct (split_runs_ok (rl_runs l) from Hl) as (lft & rest & -> & H1 & H2 & H3 & H4). cbn.
  destruct (split_runs_ok rest (width + 1) H2) as (mid & rgt & -> & H5 & H6 & H7 & H8). cbn.
  eexists. split; [reflexivity|]. split.
  - apply coalesced_list_ok. by rewrite runs_ok_app.
  - rewrite vmap_coalesced, flat_app, H3, H8, H4, drop_drop. do 2 f_equal. lia.
Qed.

(** The peel on the addresses. *)
Fixpoint peel_flat (prefix : list Address) (cuts : list Nat) : list Address * list (list Address) :=
  match cuts with
  | [] => (prefix, [])
  | c :: cuts =>
      let '(p, rs) := peel_flat (take (N.to_nat (c - 1)) prefix) cuts in
      (p, drop (N.to_nat (c - 1)) prefix :: rs)
  end.

Lemma peel_ok prefix cuts :
  runs_ok prefix →
  ∃ p rs, peel prefix cuts = Done (p, rs) ∧ runs_ok p ∧ runs_ok (concat rs) ∧
    peel_flat (flat prefix) cuts = (flat p, flat <$> rs).
Proof.
  revert prefix. induction cuts as [|c cuts IH]; intros prefix Hp; cbn; [by exists prefix, []|].
  destruct (split_runs_ok prefix c Hp) as (lft & region & -> & H1 & H2 & H3 & H4). cbn.
  destruct (IH lft H1) as (p & rs & -> & Hpok & Hrs & E). cbn.
  exists p, (region :: rs). split_and!; [done|done| |].
  - cbn. by rewrite runs_ok_app.
  - by rewrite <- H3, <- H4, E.
Qed.

Lemma peel_flat_perm prefix cuts p rs :
  peel_flat prefix cuts = (p, rs) → p ++ concat rs ≡ₚ prefix.
Proof.
  revert prefix p rs. induction cuts as [|c cuts IH]; intros prefix p rs; cbn.
  - intros [= <- <-]. cbn. by rewrite app_nil_r.
  - destruct (peel_flat _ cuts) as [p' rs'] eqn:E. intros [= <- <-]. cbn.
    apply IH in E. rewrite <- (take_drop (N.to_nat (c - 1)) prefix) at 2. rewrite <- E.
    rewrite <- app_assoc. f_equiv. apply Permutation_app_comm.
Qed.

Lemma flat_concat rs : flat (concat rs) = concat (flat <$> rs).
Proof. induction rs as [|r rs IH]; [done|]. cbn. by rewrite flat_app, IH. Qed.

Lemma reorder_ok l cuts lst :
  RunList_ok l → last cuts = Some lst →
  ∃ l', reorder l cuts = Done l' ∧ RunList_ok l' ∧
    let '(p, rs) := peel_flat (take (N.to_nat (lst - 1)) (vmap l)) (rev (removelast cuts)) in
    vmap l' = p ++ concat rs ++ drop (N.to_nat (lst - 1)) (vmap l).
Proof.
  intros [Hl _] Hlast. unfold reorder, split_at. rewrite Hlast.
  destruct (split_runs_ok (rl_runs l) lst Hl) as (lft & rgt & -> & H1 & H2 & H3 & H4). cbn.
  destruct (peel_ok lft (rev (removelast cuts)) H1) as (p & rs & -> & Hp & Hrs & E). cbn.
  eexists. split; [reflexivity|]. split.
  - apply coalesced_list_ok. by rewrite !runs_ok_app.
  - unfold vmap at 1. rewrite <- H3, E. by rewrite vmap_coalesced, !flat_app, flat_concat, H4.
Qed.

(** ** Reads by ordinal *)

Lemma find_block v l ord :
  runs_ok l → (v ≤ ord)%N →
  match List.find (λ b, (ord <? v_reach b)%N) (blocks_from v l) with
  | None => flat l !! N.to_nat (ord - v) = None
  | Some b => (v_start b ≤ ord < v_reach b)%N ∧ b_run b ∈ l ∧
      flat l !! N.to_nat (ord - v) = Some (addr_shift (i_start (b_run b)) (ord - v_start b))
  end.
Proof.
  intros Hl. revert v. induction Hl as [|r l Hr Hl IH]; intros v Hv; cbn [blocks_from List.find]; [done|].
  unfold v_reach at 1. cbn [v_start b_run]. destruct (N.ltb_spec ord (v + run_width r)) as [Hlt|Hge].
  - unfold v_reach. cbn. split_and!; [lia|lia|set_solver|].
    rewrite flat_cons, lookup_app_l by (rewrite addrs_length; lia). apply addrs_lookup. lia.
  - specialize (IH (v + run_width r)%N ltac:(lia)). rewrite flat_cons.
    rewrite lookup_app_r by (rewrite addrs_length; lia). rewrite addrs_length.
    replace (N.to_nat (ord - v) - N.to_nat (run_width r)) with (N.to_nat (ord - (v + run_width r))) by lia.
    destruct (List.find _ _) as [b|]; [|done]. destruct IH as (? & ? & ?). split_and!; try done; [lia..|set_solver].
Qed.

Lemma locate_ok l ord :
  RunList_ok l →
  match locate l ord with
  | Panicked => False
  | Done None => (ord = 0 ∨ N.of_nat (length (vmap l)) < ord)%N
  | Done (Some (r, off)) => r ∈ rl_runs l ∧ (off < run_width r)%N ∧ ord ≠ 0%N ∧
      vmap l !! N.to_nat (ord - 1) = Some (addr_shift (i_start r) off)
  end.
Proof.
  intros [Hl _]. unfold locate. rewrite nat_is_zero_eqb. destruct (N.eqb_spec ord 0); [by left|].
  pose proof (find_block 1 (rl_runs l) ord Hl ltac:(lia)) as H. unfold iter_blocks, blocks_of.
  destruct (List.find _ _) as [b|].
  - destruct H as (Hb & Hin & Hlk). rewrite nat_sub_ok by lia. cbn. split_and!; try done.
    unfold v_reach in Hb. lia.
  - right. apply lookup_ge_None in H. fold (vmap l) in H. lia.
Qed.

Lemma point_ok l ord :
  RunList_ok l →
  point l ord = Done (if (ord =? 0)%N then None else vmap l !! N.to_nat (ord - 1)).
Proof.
  intros Hl. pose proof (locate_ok l ord Hl) as H. unfold point.
  destruct (locate l ord) as [[[r off]|]|]; cbn; [| |done].
  - destruct H as (_ & Ho & Hne & ->). rewrite addr_at_ok by lia. cbn.
    by rewrite (proj2 (N.eqb_neq _ _) Hne).
  - destruct (N.eqb_spec ord 0); [done|]. symmetry. f_equal. apply lookup_ge_None. lia.
Qed.

(** ** Membership *)

(** The address [a] is one of, or extends one of, the addresses of a list. *)
Definition under_some (l : list Address) (a : Tumbler) : Prop :=
  ∃ b, b ∈ l ∧ is_prefix (tumbler b) a = true.

Lemma extent_under r e t :
  run_ok r → iextent r = Done e → contains e t = true ↔ under_some (addrs r) t.
Proof.
  intros Hr He. destruct (iextent_ok r Hr) as (s & Hs & Es & Er & _).
  rewrite Hs in He. injection He as <-. rewrite contains_spec, Es, Er.
  unfold run_reach. rewrite extent_prefixes. unfold under_some. split.
  - intros (k & Hk & Hp). exists (addr_shift (i_start r) k). rewrite addr_shift_tumbler.
    split; [|done]. apply elem_of_addrs. by exists k.
  - intros (b & (k & Hk & ->)%elem_of_addrs & Hp). rewrite addr_shift_tumbler in Hp. by exists k.
Qed.

Lemma under_some_app l k a : under_some (l ++ k) a ↔ under_some l a ∨ under_some k a.
Proof. unfold under_some. setoid_rewrite elem_of_app. naive_solver. Qed.

Lemma any_holds_ok a l :
  runs_ok l → ∃ b, any_holds a l = Done b ∧ (b = true ↔ under_some (flat l) (tumbler a)).
Proof.
  induction 1 as [|r l Hr Hl (b & IH & Hb)]; cbn [any_holds].
  { exists false. split; [done|]. split; [done|]. intros (? & Hx & _). by apply elem_of_nil in Hx. }
  destruct (iextent_ok r Hr) as (e & He & _). rewrite He. cbn.
  pose proof (extent_under r e (tumbler a) Hr He) as Hc.
  rewrite flat_cons. setoid_rewrite under_some_app.
  destruct (contains e (tumbler a)); [exists true|exists b]; (split; [done|]); naive_solver.
Qed.

(** Between full element positions, an extension is the position itself. *)
Lemma element_prefix_eq a b :
  admits_start a = true → admits_start b = true →
  is_prefix (tumbler b) (tumbler a) = true → a = b.
Proof.
  intros Ha (n & u & d & s & x & E & [Hn _] & [Hu _] & [Hd _] & Hs & Hx)%admits_start_view
    [k Hk]%is_prefix_spec.
  apply admits_start_view in Ha as (n' & u' & d' & s' & x' & E' & [Hn' _] & [Hu' _] & [Hd' _] & Hs' & Hx').
  assert (Hseg : segs (comps (tumbler a)) = [n'; u'; d'; [s'; x']]).
  { rewrite E'. repeat (rewrite <- app_assoc; cbn [app]). rewrite !segs_app by done.
    rewrite segs_zf; [done|]. by repeat constructor. }
  assert (Hseg' : segs (comps (tumbler a)) = n :: u :: d :: segs (s :: x :: k)).
  { rewrite Hk, E. repeat (rewrite <- app_assoc; cbn [app]). by rewrite !segs_app by done. }
  rewrite Hseg in Hseg'. pose proof (f_equal (λ l, unsegs (drop 3 l)) Hseg') as Hk'.
  change ([s'; x'] = unsegs (segs (s :: x :: k))) in Hk'. rewrite unsegs_segs in Hk'. injection Hk' as -> -> <-. rewrite app_nil_r in Hk. apply Address_eq. by apply Tumbler_eq.
Qed.

Lemma flat_admits l a : runs_ok l → a ∈ flat l → admits_start a = true.
Proof.
  intros Hl Ha. unfold flat in Ha. apply list_elem_of_bind in Ha as (r & Ha & Hr).
  eapply Forall_forall in Hl as [_ Hs]; [|exact Hr].
  apply elem_of_addrs in Ha as (k & _ & ->). by apply admits_shift.
Qed.

Lemma under_some_admits l a :
  (∀ b, b ∈ l → admits_start b = true) → admits_start a = true →
  under_some l (tumbler a) ↔ a ∈ l.
Proof.
  intros Hl Ha. split.
  - intros (b & Hb & Hp). by rewrite (element_prefix_eq a b Ha (Hl b Hb) Hp).
  - intros Hin. exists a. split; [done|]. by apply is_prefix_spec.
Qed.

Lemma under_some_element l a :
  runs_ok l → admits_start a = true → under_some (flat l) (tumbler a) ↔ a ∈ flat l.
Proof. intros Hl. apply under_some_admits. intros b. by apply flat_admits. Qed.

Lemma image_ok l :
  RunList_ok l → ∃ s, image l = Done s ∧ SpanSet_len s = run_count l ∧
    Forall (λ x, is_level_uniform x = true) (spans s) ∧
    ∀ t, denotes s t = true ↔ under_some (vmap l) t.
Proof.
  intros [Hl _]. unfold image, run_count, vmap.
  assert (H : ∃ es, outcome_map iextent (rl_runs l) = Done es ∧ length es = length (rl_runs l) ∧
    Forall (λ x, is_level_uniform x = true) es ∧
    ∀ t, any es t = true ↔ under_some (flat (rl_runs l)) t).
  { induction Hl as [|r k Hr Hk (es & E & Hlen & Hu & Hd)]; cbn [outcome_map].
    - exists []. split_and!; [done|done|apply Forall_nil_2|]. intros t. split; [done|].
      intros (? & Hx & _). by apply elem_of_nil in Hx.
    - destruct (iextent_ok r Hr) as (e & He & _ & _ & Heu). rewrite He, E. cbn.
      exists (e :: es). split_and!; [done|cbn; lia|by apply Forall_cons|].
      intros t. rewrite any_cons, orb_true_iff, Hd, flat_cons, under_some_app.
      by rewrite (extent_under r e t Hr He). }
  destruct H as (es & -> & Hlen & Hu & Hd). by exists (from_iter es).
Qed.

(** ** Clipping *)

(** The part of an address sequence before an optional exclusive bound, the
    sequence's first element standing at ordinal [f]. *)
Definition upto (hi : option Nat) (f : Nat) (l : list Address) : list Address :=
  match hi with Some hi => take (N.to_nat (hi - f)) l | None => l end.

Definition before (hi : option Nat) (v : Nat) : Prop :=
  match hi with Some hi => (v < hi)%N | None => True end.

#[export] Instance before_dec hi v : Decision (before hi v).
Proof. destruct hi; cbn; apply _. Defined.

Lemma upto_app hi f l k :
  upto hi f (l ++ k) = upto hi f l ++ upto hi (f + N.of_nat (length l)) k.
Proof.
  destruct hi as [hi|]; [|done]. cbn. rewrite take_app. do 2 f_equal. lia.
Qed.

Lemma option_list_Some {A} (x : A) : option_list (Some x) = [x].
Proof. reflexivity. Qed.

Lemma clip_block_ok lo hi v r :
  run_ok r → before hi v → before hi lo →
  ∃ o, clip_block lo hi (MkBlock v r) = Done o ∧ runs_ok (option_list o) ∧
    flat (option_list o) = upto hi (N.max v lo) (drop (N.to_nat (lo - v)) (addrs r)).
Proof.
  intros Hr Hv Hlo. unfold clip_block, v_reach. cbn [v_start b_run].
  destruct (N.leb_spec (v + run_width r) lo) as [Hle|Hlt].
  { exists None. split_and!; [done|done|]. rewrite drop_ge by (rewrite addrs_length; lia).
    destruct hi; cbn; by rewrite ?take_nil. }
  set (past := match hi with Some hi => N.min (v + run_width r) hi | None => (v + run_width r)%N end).
  assert (Hpast : (N.max v lo < past ≤ v + run_width r)%N).
  { destruct Hr as [Hw _]. unfold past. destruct hi; cbn in *; lia. }
  assert (Hup : upto hi (N.max v lo) (drop (N.to_nat (lo - v)) (addrs r))
    = take (N.to_nat (past - N.max v lo)) (drop (N.to_nat (lo - v)) (addrs r))).
  { unfold past. destruct hi as [hi|]; cbn.
    - destruct (N.le_gt_cases hi (v + run_width r)) as [H|H].
      + do 2 f_equal. lia.
      + rewrite !take_ge by (rewrite length_drop, addrs_length; lia). done.
    - by rewrite take_ge by (rewrite length_drop, addrs_length; lia). }
  rewrite Hup. clearbody past.
  destruct (N.eqb_spec (N.max v lo) v) as [Hf|Hf], (N.eqb_spec past (v + run_width r)) as [Hp|Hp]; cbn [andb].
  1: { exists (Some r). rewrite option_list_Some. split_and!; [done|by apply runs_ok_cons|].
       replace (N.to_nat (lo - v)) with 0 by lia. rewrite drop_0, take_ge by (rewrite addrs_length; lia).
       by rewrite flat_cons, flat_nil, app_nil_r. }
  all: rewrite !nat_sub_ok by lia; cbn [mbind outcome_bind]; rewrite addr_at_ok by lia;
    cbn [mbind outcome_bind];
    eexists; (split; [reflexivity|]); rewrite option_list_Some; destruct Hr as [Hw Hs]; split;
    [apply runs_ok_cons; split; [split; cbn; [lia|by apply admits_shift]|done]|];
    rewrite flat_cons, flat_nil, app_nil_r, (addrs_clip _ _ _ (run_width r)) by lia;
    replace (MkRun (i_start r) (run_width r)) with r by (by destruct r);
    by replace (N.max v lo - v)%N with (lo - v)%N by lia.
Qed.

Lemma clipped_cons o l : clipped (o :: l) = option_list o ++ clipped l.
Proof. by destruct o. Qed.

Lemma clip_walk lo hi l v :
  runs_ok l → before hi lo →
  ∃ os, outcome_map (clip_block lo hi)
      (take_while (λ b, match hi with Some hi => (v_start b <? hi)%N | None => true end)
         (blocks_from v l)) = Done os ∧ runs_ok (clipped os) ∧
    flat (clipped os) = upto hi (N.max v lo) (drop (N.to_nat (lo - v)) (flat l)).
Proof.
  intros Hl Hlo. revert v. induction Hl as [|r l Hr Hl IH]; intros v; cbn [blocks_from take_while].
  { exists []. split_and!; [done|done|]. rewrite flat_nil, drop_nil. by destruct hi; cbn; rewrite ?take_nil. }
  cbn [v_start]. destruct (decide (before hi v)) as [Hv|Hv]; cycle 1.
  { destruct hi as [hi|]; [|done]. cbn in Hv, Hlo. destruct (N.ltb_spec v hi) as [|Hge]; [done|].
    exists []. split_and!; [done|done|]. cbn [upto]. by replace (N.to_nat (hi - _)) with 0 by lia. }
  assert ((match hi with Some hi => v <? hi | None => true end)%N = true) as ->.
  { destruct hi; [by apply N.ltb_lt|done]. }
  cbn [outcome_map]. destruct (clip_block_ok lo hi v r Hr Hv Hlo) as (o & -> & Ho & Ef).
  destruct (IH (v + run_width r)%N) as (os & -> & Hos & Efs). cbn [mbind outcome_bind].
  exists (o :: os). rewrite clipped_cons, runs_ok_app, flat_app, Ef, Efs. split_and!; [done..|].
  rewrite flat_cons, drop_app, addrs_length, upto_app, length_drop, addrs_length. f_equal.
  replace (N.to_nat (lo - (v + run_width r))) with (N.to_nat (lo - v) - N.to_nat (run_width r)) by lia.
  destruct hi as [hi|]; [|done]. cbn.
  destruct (N.le_gt_cases lo (v + run_width r)) as [H|H].
  - do 2 f_equal. lia.
  - do 2 f_equal. lia.
Qed.

Lemma clipped_runs_ok l lo hi :
  RunList_ok l → (1 ≤ lo)%N → before hi lo →
  ∃ rs, clipped_runs l lo hi = Done rs ∧ runs_ok rs ∧
    flat rs = upto hi lo (drop (N.to_nat (lo - 1)) (vmap l)).
Proof.
  intros [Hl _] Hlo Hb. unfold clipped_runs, iter_blocks, blocks_of.
  destruct (clip_walk lo hi (rl_runs l) 1 Hl Hb) as (os & -> & Hos & E). cbn.
  exists (clipped os). split_and!; [done|done|]. rewrite E.
  by replace (N.max 1 lo) with lo by lia.
Qed.

Lemma iter_resolve_range_ok l ord count :
  RunList_ok l →
  ∃ rs, iter_resolve_range l ord count = Done rs ∧ runs_ok rs ∧
    flat rs = take (N.to_nat (ord + count - N.max ord 1)) (drop (N.to_nat (ord - 1)) (vmap l)).
Proof.
  intros Hl. unfold iter_resolve_range. destruct (N.ltb_spec (N.max ord 1) (ord + count)) as [Hlt|Hge].
  - destruct (clipped_runs_ok l (N.max ord 1) (Some (ord + count)%N) Hl) as (rs & -> & Hrs & E);
      [lia|done|]. exists rs. split_and!; [done|done|]. rewrite E. cbn [upto].
    do 3 f_equal. lia.
  - exists []. split_and!; [done|done|]. by replace (N.to_nat _) with 0 by lia.
Qed.

(** ** The claims *)

(** M12: [coalesced] keeps the addresses a run sequence denotes and the runs
    well formed, leaves no two neighbours I-adjacent, changes nothing on a second
    pass, and its result is the only such decomposition of those addresses. *)
Theorem coalesced_canonical (l : list Run) :
  runs_ok l →
  flat (coalesced l) = flat l ∧ runs_ok (coalesced l) ∧ merged (coalesced l) ∧
  coalesced (coalesced l) = coalesced l ∧
  ∀ k, runs_ok k → merged k → flat k = flat l → k = coalesced l.
Proof.
  intros Hl. pose proof (coalesced_ok l Hl) as Hc. pose proof (coalesced_merged l) as Hm.
  split_and!; [apply coalesced_flat|done|done|by apply coalesced_merged_id|].
  intros k Hk Mk E. apply canonical_runs_unique; try done. by rewrite coalesced_flat.
Qed.

(** [splice_in] never panics on a well-formed list: the new addresses enter
    before ordinal [ord], clamped to the ends, everything else keeps its order, and
    the invariants hold after; [append] is the splice past the last address. *)
Theorem splice_in_spec (l : RunList) (ord : Nat) (new : list Run) (r : Run) :
  RunList_ok l → runs_ok new → run_ok r →
  (∃ l', splice_in l ord new = Done l' ∧ RunList_ok l' ∧
     vmap l' = take (N.to_nat (ord - 1)) (vmap l) ++ flat new ++ drop (N.to_nat (ord - 1)) (vmap l) ∧
     total_width l' = (total_width l + N.of_nat (length (flat new)))%N) ∧
  (∃ l', append l r = Done l' ∧ RunList_ok l' ∧ vmap l' = vmap l ++ addrs r).
Proof.
  intros Hl Hn Hr. split; [|by apply append_ok].
  destruct (splice_in_ok l ord new Hl Hn) as (l' & E & Hl' & Hv). exists l'.
  split_and!; [done|done|done|]. rewrite !total_width_flat, Hv, !length_app.
  rewrite <- (take_drop (N.to_nat (ord - 1)) (vmap l)) at 3. rewrite length_app. lia.
Qed.

(** [remove_range] never panics on a well-formed list and removes exactly the
    ordinals [[from, from + width)], as far as they are arranged: later addresses
    close the gap in order, and the invariants hold after; what a splice put in,
    removing it takes out again, leaving the very same list. *)
Theorem remove_range_spec (l : RunList) (from width : Nat) (new : list Run) :
  RunList_ok l → runs_ok new →
  (∃ l', remove_range l from width = Done l' ∧ RunList_ok l' ∧
     vmap l' = take (N.to_nat (from - 1)) (vmap l) ++
               drop (N.to_nat (from - 1) + N.to_nat width) (vmap l)) ∧
  ((1 ≤ from ≤ total_width l + 1)%N →
     (l' ← splice_in l from new; remove_range l' from (N.of_nat (length (flat new)))) = Done l).
Proof.
  intros Hl Hn. split; [by apply remove_range_ok|]. intros Hf. rewrite total_width_flat in Hf.
  destruct (splice_in_ok l from new Hl Hn) as (m & -> & Hm & Em). cbn.
  destruct (remove_range_ok m from (N.of_nat (length (flat new))) Hm) as (l' & -> & Hl' & E).
  f_equal. apply RunList_ext; [done|done|]. rewrite E, Em.
  assert (Hlen : length (take (N.to_nat (from - 1)) (vmap l)) = N.to_nat (from - 1))
    by (rewrite length_take; lia).
  rewrite take_app_length' by done. rewrite Nat2N.id, app_assoc, drop_app_length'.
  - apply take_drop.
  - by rewrite length_app, Hlen.
Qed.

(** [reorder] never panics on a well-formed list, whatever the cut vector, and
    only permutes the addresses; with fewer than three cuts it changes nothing;
    three ascending cuts exchange the two regions they bound, and four exchange
    the outer two around the middle. *)
Theorem reorder_spec (l : RunList) (cuts : list Nat) :
  RunList_ok l →
  ∃ l', reorder l cuts = Done l' ∧ RunList_ok l' ∧ vmap l' ≡ₚ vmap l ∧
    (length cuts < 3 → l' = l) ∧
    let upto c := take (N.to_nat (c - 1)) (vmap l) in
    let region c d := drop (N.to_nat (c - 1)) (upto d) in
    let past c := drop (N.to_nat (c - 1)) (vmap l) in
    (∀ c0 c1 c2, cuts = [c0; c1; c2] → (c0 ≤ c1 ≤ c2)%N →
       vmap l' = upto c0 ++ region c1 c2 ++ region c0 c1 ++ past c2) ∧
    (∀ c0 c1 c2 c3, cuts = [c0; c1; c2; c3] → (c0 ≤ c1)%N → (c1 ≤ c2 ≤ c3)%N →
       vmap l' = upto c0 ++ region c2 c3 ++ region c1 c2 ++ region c0 c1 ++ past c3).
Proof.
  intros Hl. destruct (last cuts) as [lst|] eqn:Hlast; cycle 1.
  { apply last_None in Hlast as ->. exists l. by split_and!. }
  destruct (reorder_ok l cuts lst Hl Hlast) as (l' & E & Hl' & Hv). exists l'.
  destruct (peel_flat _ _) as [p rs] eqn:Hp in Hv.
  assert (Htt : ∀ c d, (c ≤ d)%N → take (N.to_nat (c - 1)) (take (N.to_nat (d - 1)) (vmap l))
    = take (N.to_nat (c - 1)) (vmap l)) by (intros; rewrite take_take; f_equal; lia).
  split_and!; [done|done| | |].
  - rewrite Hv, app_assoc, (peel_flat_perm _ _ _ _ Hp). by rewrite take_drop.
  - intros Hlen. apply RunList_ext; [done|done|]. rewrite Hv.
    destruct cuts as [|c0 [|c1 [|]]]; cbn in Hlen; try lia; cbn in Hlast, Hp; simplify_eq; cbn.
    + apply take_drop.
    + rewrite app_nil_r, app_assoc, take_drop. apply take_drop.
  - cbv zeta. split.
    + intros c0 c1 c2 -> [H1 H2]. cbn in Hlast, Hp. simplify_eq. rewrite Hv. cbn.
      rewrite !Htt by lia. by rewrite app_nil_r, <- !app_assoc.
    + intros c0 c1 c2 c3 -> H0 [H1 H2]. cbn in Hlast, Hp. simplify_eq. rewrite Hv. cbn.
      rewrite !Htt by lia. by rewrite app_nil_r, <- !app_assoc.
Qed.

(** The reads by ordinal never panic on a well-formed list: [point] is the
    address at the 1-based ordinal and [None] off the arrangement, [locate] the
    run and offset that hold it, and [total_width] the number of addresses. *)
Theorem point_spec (l : RunList) (ord : Nat) :
  RunList_ok l →
  point l ord = Done (if (ord =? 0)%N then None else vmap l !! N.to_nat (ord - 1)) ∧
  total_width l = N.of_nat (length (vmap l)) ∧
  match locate l ord with
  | Panicked => False
  | Done None => (ord = 0 ∨ total_width l < ord)%N
  | Done (Some (r, off)) => r ∈ rl_runs l ∧ (off < run_width r)%N ∧
      (1 ≤ ord ≤ total_width l)%N ∧ point l ord = Done (Some (addr_shift (i_start r) off))
  end.
Proof.
  intros Hl. split_and!; [by apply point_ok|apply total_width_flat|].
  pose proof (locate_ok l ord Hl) as H. rewrite total_width_flat, (point_ok l ord Hl).
  destruct (locate l ord) as [[[r off]|]|]; [|done|done].
  destruct H as (Hr & Ho & Hne & Hk). rewrite (proj2 (N.eqb_neq _ _) Hne), Hk.
  apply lookup_lt_Some in Hk. split_and!; try done; lia.
Qed.

(** [holds] and [image] never panic on a well-formed list. [holds] answers
    whether the address is one of the list's own or extends one, so on full
    element positions it is membership; the I-image has one level-uniform span a
    run and denotes exactly the extensions of the list's addresses. *)
Theorem holds_spec (l : RunList) (a : Address) :
  RunList_ok l →
  (∃ b, holds l a = Done b ∧
     (b = true ↔ ∃ c, c ∈ vmap l ∧ is_prefix (tumbler c) (tumbler a) = true) ∧
     (admits_start a = true → b = true ↔ a ∈ vmap l)) ∧
  ∃ s, image l = Done s ∧ SpanSet_len s = run_count l ∧
    Forall (λ x, is_level_uniform x = true) (spans s) ∧
    ∀ t, denotes s t = true ↔ ∃ c, c ∈ vmap l ∧ is_prefix (tumbler c) t = true.
Proof.
  intros Hl. split; [|by apply image_ok]. pose proof (rl_ok _ Hl) as Hr.
  destruct (any_holds_ok a (rl_runs l) Hr) as (b & E & Hb). exists b. split_and!; [done|done|].
  intros Ha. rewrite Hb. by apply under_some_element.
Qed.

(** The clips never panic on a well-formed list: [iter_resolve_range] yields
    well-formed runs of exactly the arranged addresses at the ordinals
    [[ord, ord + count)] from 1 on, in order, and [iter_resolve_from] of every
    address from [ord] on. *)
Theorem resolve_spec (l : RunList) (ord count : Nat) :
  RunList_ok l →
  (∃ rs, iter_resolve_range l ord count = Done rs ∧ runs_ok rs ∧
     ∀ i, flat rs !! i =
       if bool_decide (N.max ord 1 + N.of_nat i < ord + count)%N
       then vmap l !! (N.to_nat (ord - 1) + i) else None) ∧
  (∃ rs, iter_resolve_from l ord = Done rs ∧ runs_ok rs ∧
     flat rs = drop (N.to_nat (ord - 1)) (vmap l)).
Proof.
  intros Hl. split.
  - destruct (iter_resolve_range_ok l ord count Hl) as (rs & E & Hrs & Hf).
    exists rs. split_and!; [done|done|]. intros i. rewrite Hf. case_bool_decide as H.
    + rewrite lookup_take_lt by lia. by rewrite lookup_drop.
    + apply lookup_take_ge. lia.
  - destruct (clipped_runs_ok l (N.max ord 1) None Hl) as (rs & E & Hrs & Hf); [lia|done|].
    exists rs. split_and!; [done|done|]. rewrite Hf. cbn [upto]. do 2 f_equal. lia.
Qed.

(** ** The claims at a concrete list *)

Definition sample_list : RunList := MkRunList [sample_run 0 4; sample_run 9 2].

Lemma sample_runs_ok : runs_ok (rl_runs sample_list).
Proof.
  unfold sample_list. cbn [rl_runs]. rewrite !runs_ok_cons.
  split_and!; [by apply sample_run_ok..|apply runs_ok_nil].
Qed.

Lemma sample_merged : merged (rl_runs sample_list).
Proof.
  split; [|done]. apply not_true_iff_false. rewrite i_adjacent_spec. cbn.
  rewrite addr_shift_shift. intros H%addr_shift_inj. done.
Qed.

Lemma sample_list_ok : RunList_ok sample_list.
Proof. split; [apply sample_runs_ok|apply sample_merged]. Qed.

Lemma coalesced_canonical_witness :
  coalesced [sample_run 0 1; sample_run 1 3; sample_run 9 2] = rl_runs sample_list.
Proof.
  assert (H : runs_ok [sample_run 0 1; sample_run 1 3; sample_run 9 2]).
  { rewrite !runs_ok_cons. split_and!; [by apply sample_run_ok..|apply runs_ok_nil]. }
  destruct (coalesced_canonical _ H) as (_ & _ & _ & _ & Hu).
  symmetry. apply Hu; [apply sample_runs_ok|apply sample_merged|].
  unfold sample_list, sample_run. cbn [rl_runs]. rewrite !flat_cons, flat_nil.
  rewrite (addrs_cut _ 1 4) by lia.
  by rewrite <- app_assoc, addr_shift_shift.
Defined.

Lemma splice_in_spec_witness : ∃ l', append sample_list (sample_run 20 1) = Done l' ∧ RunList_ok l'.
Proof.
  destruct (splice_in_spec sample_list 1 [sample_run 20 1] (sample_run 20 1)) as (_ & l' & E & H & _).
  - apply sample_list_ok.
  - rewrite runs_ok_cons. split; [by apply sample_run_ok|apply runs_ok_nil].
  - by apply sample_run_ok.
  - exists l'. by split.
Defined.

Lemma remove_range_spec_witness :
  (l' ← splice_in sample_list 2 [sample_run 20 3];
   remove_range l' 2 (N.of_nat (length (flat [sample_run 20 3])))) = Done sample_list.
Proof.
  apply (remove_range_spec sample_list 2 3 [sample_run 20 3]).
  - apply sample_list_ok.
  - rewrite runs_ok_cons. split; [by apply sample_run_ok|apply runs_ok_nil].
  - vm_compute. split; discriminate.
Defined.

Lemma reorder_spec_witness :
  ∃ l', reorder sample_list [1; 3; 5]%N = Done l' ∧ vmap l' ≡ₚ vmap sample_list.
Proof.
  destruct (reorder_spec sample_list [1; 3; 5]%N sample_list_ok) as (l' & E & _ & H & _).
  exists l'. by split.
Defined.

Lemma point_spec_witness : total_width sample_list = N.of_nat (length (vmap sample_list)).
Proof. apply (point_spec sample_list 3 sample_list_ok). Defined.

Lemma holds_spec_witness : ∃ b, holds sample_list sample_start = Done b.
Proof.
  destruct (holds_spec sample_list sample_start sample_list_ok) as [(b & E & _) _]. by exists b.
Defined.

Lemma resolve_spec_witness : ∃ rs, iter_resolve_range sample_list 3 4 = Done rs ∧ runs_ok rs.
Proof.
  destruct (resolve_spec sample_list 3 4 sample_list_ok) as [(rs & E & H & _) _]. by exists rs.
Defined.
