(* ===== verification/RunUnions.v ===== *)
(** * The union of a run set's I-extents

    Models [crates/skep-arrangement/src/run_union.rs]: the content-chain test,
    the one-pass join of the sorted runs into pieces, and the single-search
    coverage question. [sort_unstable_by] is any sort: the theorems hold for
    every order it may leave equal starts in. *)

From S2P Require Import Prelude Tumblers Addresses Arith Spans Runs RunLists.

#[local] Arguments N.add : simpl never.
#[local] Arguments N.sub : simpl never.

(** [s.iter().zip(t.iter()).take(s.len() - 1).all(..)]; a tumbler has a component. *)
Definition same_content_chain (a b : Run) : bool :=
  let s := tumbler (i_start a) in
  let t := tumbler (i_start b) in
  (Tumbler_len s =? Tumbler_len t) &&
  forallb (λ '(x, y), (x =? y)%N) (take (Tumbler_len s - 1) (zip (comps s) (comps t))).

Record UnionPiece := MkUnionPiece { u_first : Run; u_furthest : Run }.

Definition piece_reach (p : UnionPiece) : Tumbler := run_reach (u_furthest p).

Record RunUnion := MkRunUnion { pieces : list UnionPiece }.

(** The joining pass over the sorted runs; [last_reach] is kept beside the pieces. *)
Fixpoint join (ps : list UnionPiece) (last_reach : option Tumbler) (sorted : list Run) :
    list UnionPiece :=
  match sorted with
  | [] => ps
  | run :: sorted =>
      let r := run_reach run in
      match last ps, last_reach with
      | Some piece, Some reach =>
          if same_content_chain (u_first piece) run && (tumbler (i_start run) ≤?ₜ reach) then
            if reach <?ₜ r
            then join (removelast ps ++ [MkUnionPiece (u_first piece) run]) (Some r) sorted
            else join ps (Some reach) sorted
          else join (ps ++ [MkUnionPiece run run]) (Some r) sorted
      | _, _ => join (ps ++ [MkUnionPiece run run]) (Some r) sorted
      end
  end.

(** [sort_unstable_by(..)] leaves some sorted permutation. *)
Definition sorted_by_start (l sorted : list Run) : Prop :=
  sorted ≡ₚ l ∧ StronglySorted (λ a b, tumbler (i_start a) ≤ₜ tumbler (i_start b)) sorted.

(** [RunUnion::of], from the runs as the sort left them. *)
Definition RunUnion_of (sorted : list Run) : RunUnion := MkRunUnion (join [] None sorted).

(** [partition_point] on a partitioned slice: how many leading elements pass. *)
Definition partition_point {A} (p : A → bool) (l : list A) : nat := length (take_while p l).

Definition covers (u : RunUnion) (run : Run) : bool :=
  let at_ := partition_point
    (λ piece, tumbler (i_start (u_first piece)) ≤?ₜ tumbler (i_start run)) (pieces u) in
  match last (take at_ (pieces u)) with
  | Some piece => same_content_chain (u_first piece) run && (run_reach run ≤?ₜ piece_reach piece)
  | None => false
  end.

Definition to_run (p : UnionPiece) : outcome Run :=
  w ← nat_sub (ordinal (piece_reach p)) (ordinal (tumbler (i_start (u_first p))));
  Done (MkRun (i_start (u_first p)) w).

Definition union_runs (u : RunUnion) : outcome (list Run) := outcome_map to_run (pieces u).

(** ** Chains and ordinals *)

(** A position is its chain and its ordinal. *)
Definition chain (a : Address) : list Nat := removelast (comps (tumbler a)).
Definition ord (a : Address) : Nat := ordinal (tumbler a).

Lemma chain_ord a : comps (tumbler a) = chain a ++ [ord a].
Proof.
  destruct (comps_snoc (tumbler a)) as (q & x & E). unfold chain, ord.
  by rewrite (ordinal_app _ q x E), E, removelast_last.
Qed.

Lemma chain_ord_eq a b : chain a = chain b → ord a = ord b → a = b.
Proof. intros Hc Ho. apply Address_eq, Tumbler_eq. by rewrite !chain_ord, Hc, Ho. Qed.

Lemma ord_shift a k : ord (addr_shift a k) = (ord a + k)%N.
Proof. unfold ord. by rewrite addr_shift_tumbler, ordinal_shift. Qed.

Lemma chain_shift a k : chain (addr_shift a k) = chain a.
Proof.
  unfold chain at 1. by rewrite addr_shift_tumbler, (shift_app _ k _ _ (chain_ord a)), removelast_last.
Qed.

Definition r_chain (r : Run) : list Nat := chain (i_start r).
Definition r_lo (r : Run) : Nat := ord (i_start r).
Definition r_hi (r : Run) : Nat := (r_lo r + run_width r)%N.

Lemma run_reach_comps r : comps (run_reach r) = r_chain r ++ [r_hi r].
Proof. apply shift_app, chain_ord. Qed.

(** An address of a run, by chain and ordinal. *)
Lemma elem_of_addrs_ord r a :
  a ∈ addrs r ↔ chain a = r_chain r ∧ (r_lo r ≤ ord a < r_hi r)%N.
Proof.
  rewrite elem_of_addrs. unfold r_hi, r_lo, r_chain. split.
  - intros (k & Hk & ->). rewrite chain_shift, ord_shift. split; [done|lia].
  - intros [Hc Ho]. exists (ord a - ord (i_start r))%N. split; [lia|].
    apply chain_ord_eq; [by rewrite chain_shift|]. rewrite ord_shift. lia.
Qed.

Lemma chain_le s t c x y :
  comps s = c ++ [x] → comps t = c ++ [y] → s ≤ₜ t ↔ (x ≤ y)%N.
Proof.
  intros Es Et. unfold Tle, cmp. rewrite Es, Et, list_cmp_app. cbn.
  destruct (N.compare_spec x y); split; try done; lia.
Qed.

Lemma chain_lt s t c x y :
  comps s = c ++ [x] → comps t = c ++ [y] → s <ₜ t ↔ (x < y)%N.
Proof.
  intros Es Et. unfold Tlt, cmp. rewrite Es, Et, list_cmp_app. cbn.
  destruct (N.compare_spec x y); split; try done; lia.
Qed.

Lemma forallb_zip_eq (l k : list Nat) :
  length l = length k → forallb (λ '(x, y), (x =? y)%N) (zip l k) = true ↔ l = k.
Proof.
  revert k. induction l as [|x l IH]; intros [|y k] Hlen; try done.
  cbn. rewrite andb_true_iff, N.eqb_eq, IH by (cbn in Hlen; lia). naive_solver.
Qed.

Lemma same_content_chain_spec a b : same_content_chain a b = true ↔ r_chain a = r_chain b.
Proof.
  unfold same_content_chain, r_chain, Tumbler_len.
  rewrite (chain_ord (i_start a)), (chain_ord (i_start b)), !length_app. cbn.
  set (c := chain (i_start a)). set (d := chain (i_start b)).
  rewrite andb_true_iff, Nat.eqb_eq. split.
  - intros [Hlen H]. assert (Hcd : length c = length d) by lia.
    rewrite Nat.add_sub, zip_with_app, take_app_length' in H
      by (rewrite ?length_zip_with; lia). by apply forallb_zip_eq.
  - intros Hcd. rewrite <- Hcd. split; [done|].
    rewrite Nat.add_sub, zip_with_app, take_app_length' by (rewrite ?length_zip_with; lia).
    by apply forallb_zip_eq.
Qed.

(** A full element position that extends a chain does so by one component. *)
Lemma chain_extend a b r :
  admits_start a = true → admits_start b = true → comps (tumbler b) = chain a ++ r →
  r ≠ [] → ∃ y, r = [y].
Proof.
  intros (n & u & d & s & x & E & [Hn _] & [Hu _] & [Hd _] & Hs & Hx)%admits_start_view
    (n' & u' & d' & s' & x' & E' & [Hn' _] & [Hu' _] & [Hd' _] & Hs' & Hx')%admits_start_view Er Hne.
  assert (Hseg : segs (comps (tumbler b)) = [n'; u'; d'; [s'; x']]).
  { rewrite E'. repeat (rewrite <- app_assoc; cbn [app]). rewrite !segs_app by done.
    rewrite segs_zf; [done|]. by repeat constructor. }
  assert (Hseg' : segs (comps (tumbler b)) = n :: u :: d :: segs (s :: r)).
  { rewrite Er. unfold chain. rewrite E, removelast_last.
    repeat (rewrite <- app_assoc; cbn [app]). by rewrite !segs_app by done. }
  rewrite Hseg in Hseg'. pose proof (f_equal (λ l, unsegs (drop 3 l)) Hseg') as Hk'.
  change ([s'; x'] = unsegs (segs (s :: r))) in Hk'. rewrite unsegs_segs in Hk'.
  injection Hk' as -> <-. by exists x'.
Qed.

(** Among full element positions one chain's are convex in the tumbler order. *)
Lemma between_prefix p x z (b : list Nat) :
  list_cmp (p ++ [x]) b ≠ Gt → list_cmp b (p ++ [z]) ≠ Gt → ∃ r, r ≠ [] ∧ b = p ++ r.
Proof.
  revert b. induction p as [|c p IH]; intros b H1 H2; cbn in *.
  - destruct b as [|y b]; [done|]. by exists (y :: b).
  - destruct b as [|y b]; [done|]. cbn in *.
    destruct (N.compare_spec c y) as [->|Hlt|Hgt]; [|destruct (N.compare_spec y c); done || lia|done].
    rewrite N.compare_refl in H2. destruct (IH b H1 H2) as (r & Hr & ->). by exists r.
Qed.

Lemma chain_convex a b c :
  admits_start a = true → admits_start b = true → chain a = chain c →
  tumbler a ≤ₜ tumbler b → tumbler b ≤ₜ tumbler c → chain b = chain a.
Proof.
  intros Ha Hb Hac H1 H2. unfold Tle, cmp in *.
  rewrite (chain_ord a) in H1. rewrite (chain_ord c), <- Hac in H2.
  destruct (between_prefix _ _ _ _ H1 H2) as (r & Hr & E).
  destruct (chain_extend a b r Ha Hb E Hr) as [y ->]. unfold chain at 1. by rewrite E, removelast_last.
Qed.

(** ** What the joining pass keeps *)

Definition p_start (p : UnionPiece) : Tumbler := tumbler (i_start (u_first p)).
Definition p_chain (p : UnionPiece) : list Nat := r_chain (u_first p).
Definition p_lo (p : UnionPiece) : Nat := r_lo (u_first p).
Definition p_hi (p : UnionPiece) : Nat := r_hi (u_furthest p).

Definition p_holds (p : UnionPiece) (a : Address) : Prop :=
  chain a = p_chain p ∧ (p_lo p ≤ ord a < p_hi p)%N.

Definition piece_ok (p : UnionPiece) : Prop :=
  admits_start (i_start (u_first p)) = true ∧ r_chain (u_furthest p) = p_chain p ∧
  (p_lo p < p_hi p)%N.

(** [p] lies wholly before [q], with a gap between them within one chain. *)
Definition p_before (p q : UnionPiece) : Prop :=
  p_start p <ₜ p_start q ∧ (p_chain p = p_chain q → (p_hi p < p_lo q)%N).

Record union_ok (ps : list UnionPiece) (l : list Run) : Prop := {
  union_pieces : Forall piece_ok ps;
  union_sorted : StronglySorted p_before ps;
  union_holds a : (∃ p, p ∈ ps ∧ p_holds p a) ↔ a ∈ flat l
}.

Lemma p_start_comps p : comps (p_start p) = p_chain p ++ [p_lo p].
Proof. apply chain_ord. Qed.

Lemma piece_reach_comps p : piece_ok p → comps (piece_reach p) = p_chain p ++ [p_hi p].
Proof. intros (_ & <- & _). apply run_reach_comps. Qed.

Lemma r_start_comps r : comps (tumbler (i_start r)) = r_chain r ++ [r_lo r].
Proof. apply chain_ord. Qed.

Lemma run_lo_hi r : run_ok r → (r_lo r < r_hi r)%N.
Proof. intros [Hw _]. unfold r_hi. lia. Qed.

Lemma piece_of_run_ok r : run_ok r → piece_ok (MkUnionPiece r r).
Proof. intros Hr. split_and!; [apply Hr|done|by apply run_lo_hi]. Qed.

Lemma holds_of_run r a : p_holds (MkUnionPiece r r) a ↔ a ∈ addrs r.
Proof. symmetry. apply elem_of_addrs_ord. Qed.

(** One step of the pass, the last reach read off the last piece. *)
Definition join_step (ps : list UnionPiece) (run : Run) : list UnionPiece :=
  match last ps with
  | Some piece =>
      if same_content_chain (u_first piece) run && (tumbler (i_start run) ≤?ₜ piece_reach piece)
      then if piece_reach piece <?ₜ run_reach run
           then removelast ps ++ [MkUnionPiece (u_first piece) run] else ps
      else ps ++ [MkUnionPiece run run]
  | None => ps ++ [MkUnionPiece run run]
  end.

Lemma join_fold sorted ps :
  join ps (piece_reach <$> last ps) sorted = foldl join_step ps sorted.
Proof.
  revert ps. induction sorted as [|run sorted IH]; intros ps; [done|]. cbn [join foldl].
  rewrite <- IH. unfold join_step. destruct (last ps) as [piece|] eqn:Hl; cbn [fmap option_fmap option_map].
  - destruct (_ && _) eqn:Hc; [destruct (_ <?ₜ _)|]; rewrite ?last_snoc; try done. by rewrite Hl.
  - by rewrite last_snoc.
Qed.

Lemma StronglySorted_snoc {A} (R : A → A → Prop) l x :
  StronglySorted R (l ++ [x]) ↔ StronglySorted R l ∧ ∀ y, y ∈ l → R y x.
Proof.
  rewrite StronglySorted_app. split.
  - intros (H & Hl & _). split; [done|]. intros y Hy. apply H; set_solver.
  - intros [Hl H]. split_and!; [|done|repeat constructor].
    intros y z Hy ->%list_elem_of_singleton. by apply H.
Qed.

Lemma union_last_ok k q l : union_ok (k ++ [q]) l → piece_ok q.
Proof. intros H. pose proof (union_pieces _ _ H) as F. by apply Forall_app in F as [_ [F _]%Forall_cons]. Qed.

(** Opening a piece for a run that joins none. *)
Lemma union_push ps l run :
  union_ok ps l → run_ok run →
  (∀ p, p ∈ ps → p_before p (MkUnionPiece run run)) →
  union_ok (ps ++ [MkUnionPiece run run]) (l ++ [run]).
Proof.
  intros [HF HS HH] Hr Hb. split.
  - apply Forall_app. split; [done|]. apply Forall_singleton. by apply piece_of_run_ok.
  - by apply StronglySorted_snoc.
  - intros a. rewrite flat_app, elem_of_app, <- HH, flat_cons, flat_nil, app_nil_r, <- holds_of_run.
    setoid_rewrite elem_of_app. setoid_rewrite list_elem_of_singleton. naive_solver.
Qed.

(** Joining a run to the last piece, which it overlaps or abuts. *)
Lemma union_join k q l run f :
  union_ok (k ++ [q]) l → run_ok run → p_chain q = r_chain run →
  (p_lo q ≤ r_lo run ≤ p_hi q)%N → r_chain f = p_chain q → r_hi f = N.max (p_hi q) (r_hi run) →
  union_ok (k ++ [MkUnionPiece (u_first q) f]) (l ++ [run]).
Proof.
  intros H Hr Hc Hlo Hfc Hf. pose proof (union_last_ok k q l H) as (Hq1 & Hq2 & Hq3).
  pose proof (run_lo_hi run Hr) as Hlh. destruct H as [HF HS HH]. split.
  - apply Forall_app in HF as [HF _]. apply Forall_app. split; [done|]. apply Forall_singleton.
    split_and!; [done|done|]. unfold p_lo, p_hi in *. cbn. lia.
  - apply StronglySorted_snoc in HS as [HS Hb]. apply StronglySorted_snoc. split; [done|].
    intros y Hy. apply Hb, Hy.
  - intros a. rewrite flat_app, elem_of_app, <- HH, flat_cons, flat_nil, app_nil_r, elem_of_addrs_ord.
    assert (Hsnoc : ∀ x, (∃ p, p ∈ k ++ [x] ∧ p_holds p a) ↔ (∃ p, p ∈ k ∧ p_holds p a) ∨ p_holds x a).
    { intros x. setoid_rewrite elem_of_app. setoid_rewrite list_elem_of_singleton. naive_solver. }
    assert (Hjoin : p_holds (MkUnionPiece (u_first q) f) a ↔
      p_holds q a ∨ (chain a = r_chain run ∧ (r_lo run ≤ ord a < r_hi run)%N)).
    { unfold p_holds, p_chain, p_lo, p_hi in *. cbn. rewrite Hf, <- Hc. split.
      - intros [-> Ho]. destruct (N.lt_ge_cases (ord a) (r_hi (u_furthest q))); [left|right];
          (split; [done|lia]).
      - intros [[-> Ho]|[-> Ho]]; (split; [done|lia]). }
    rewrite !Hsnoc, Hjoin. tauto.
Qed.

Lemma p_start_snoc k q l p : union_ok (k ++ [q]) l → p ∈ k ++ [q] → p = q ∨ p_before p q.
Proof.
  intros [_ HS _] Hp. apply StronglySorted_snoc in HS as [_ Hb].
  apply elem_of_app in Hp as [Hp| ->%list_elem_of_singleton]; [right; by apply Hb|by left].
Qed.

(** A run past the last piece's reach, or off its chain, lies after every piece. *)
Lemma union_all_before k q l run :
  union_ok (k ++ [q]) l → run_ok run → (∀ p, p ∈ k ++ [q] → p_start p ≤ₜ tumbler (i_start run)) →
  ¬ (p_chain q = r_chain run ∧ tumbler (i_start run) ≤ₜ piece_reach q) →
  ∀ p, p ∈ k ++ [q] → p_before p (MkUnionPiece run run).
Proof.
  intros H Hr Hle Hno. pose proof (union_last_ok k q l H) as Hq.
  assert (Hqb : p_before q (MkUnionPiece run run)).
  { assert (Hgap : p_chain q = r_chain run → (p_hi q < r_lo run)%N).
    { intros Hc. destruct (N.lt_ge_cases (p_hi q) (r_lo run)) as [|Hge]; [done|].
      exfalso. apply Hno. split; [done|].
      apply (chain_le _ _ (r_chain run) (r_lo run) (p_hi q)); [apply r_start_comps| |done].
      rewrite <- Hc. by apply piece_reach_comps. }
    split; [|done]. pose proof (Hle q ltac:(set_solver)) as Hs. unfold p_start in *. cbn.
    destruct (decide (tumbler (i_start (u_first q)) = tumbler (i_start run))) as [E|]; [|torder].
    apply Address_eq in E. exfalso. destruct Hq as (_ & _ & Hq). unfold p_lo, p_hi, p_chain, r_chain, r_lo in *.
    rewrite E in *. specialize (Hgap eq_refl). lia. }
  intros p Hp. destruct (p_start_snoc k q l p H Hp) as [->|[Hb1 Hb2]]; [done|].
  destruct Hqb as [Hq1 Hq2]. split; [torder|]. intros Hc. cbn in Hc.
  assert (Hcq : p_chain q = p_chain p).
  { pose proof (union_pieces _ _ H) as HF. eapply Forall_forall in HF as (Hpa & _); [|exact Hp].
    apply (chain_convex (i_start (u_first p)) (i_start (u_first q)) (i_start run)); try done.
    - apply Hq.
    - change (p_start p ≤ₜ p_start q). torder.
    - apply Hle. set_solver. }
  specialize (Hb2 (eq_sym Hcq)). specialize (Hq2 (eq_trans Hcq Hc)).
  destruct Hq as (_ & _ & Hq). change (p_hi p < r_lo run)%N. change (p_hi q < r_lo run)%N in Hq2. lia.
Qed.

Lemma join_step_ok ps l run :
  union_ok ps l → run_ok run → (∀ p, p ∈ ps → p_start p ≤ₜ tumbler (i_start run)) →
  union_ok (join_step ps run) (l ++ [run]) ∧
  ∀ p, p ∈ join_step ps run → p_start p ≤ₜ tumbler (i_start run).
Proof.
  intros H Hr Hle. destruct (snoc_view ps) as [->|(k & q & ->)].
  { change (join_step [] run) with ([] ++ [MkUnionPiece run run]). split.
    - apply union_push; [done|done|]. intros p Hp. by apply elem_of_nil in Hp.
    - intros p ->%list_elem_of_singleton. unfold p_start. cbn. torder. }
  unfold join_step. rewrite last_snoc, removelast_last.
  pose proof (union_last_ok k q l H) as Hq.
  destruct (same_content_chain (u_first q) run) eqn:Hc; cbn [andb].
  - apply same_content_chain_spec in Hc. pose proof (piece_reach_comps q Hq) as Hqr.
    unfold p_chain in Hqr. rewrite Hc in Hqr.
    destruct (leb_spec (tumbler (i_start run)) (piece_reach q)) as [Hsr|Hsr].
    + apply (chain_le _ _ (r_chain run) (r_lo run) (p_hi q) (r_start_comps run) Hqr) in Hsr.
      pose proof (Hle q ltac:(set_solver)) as Hlo.
      pose proof (p_start_comps q) as Hqs. unfold p_chain in Hqs. rewrite Hc in Hqs.
      apply (chain_le _ _ (r_chain run) (p_lo q) (r_lo run) Hqs (r_start_comps run)) in Hlo.
      destruct (ltb_spec (piece_reach q) (run_reach run)) as [Hlt|Hge].
      * apply (chain_lt _ _ (r_chain run) (p_hi q) (r_hi run) Hqr (run_reach_comps run)) in Hlt.
        split; [apply union_join; try done; lia|].
        intros p [Hp| ->%list_elem_of_singleton]%elem_of_app; [apply Hle; set_solver|].
        apply (Hle q). set_solver.
      * apply (chain_le _ _ (r_chain run) (r_hi run) (p_hi q) (run_reach_comps run) Hqr) in Hge.
        split; [|done]. destruct q as [qf qr]. apply (union_join k (MkUnionPiece qf qr)); try done.
        -- apply Hq.
        -- unfold p_hi in *. cbn in *. lia.
    + split; [apply union_push; [done|done|]|].
      * apply (union_all_before k q l); [done|done|done|]. intros [_ ?]. torder.
      * intros p [Hp| ->%list_elem_of_singleton]%elem_of_app; [by apply Hle|]. unfold p_start. cbn. torder.
  - split; [apply union_push; [done|done|]|].
    + apply (union_all_before k q l); [done|done|done|]. intros [Hcc _].
      apply not_true_iff_false in Hc. by apply Hc, same_content_chain_spec.
    + intros p [Hp| ->%list_elem_of_singleton]%elem_of_app; [by apply Hle|]. unfold p_start. cbn. torder.
Qed.

Lemma join_all_ok sorted ps l :
  union_ok ps l → runs_ok sorted →
  StronglySorted (λ a b, tumbler (i_start a) ≤ₜ tumbler (i_start b)) sorted →
  (∀ p r, p ∈ ps → r ∈ sorted → p_start p ≤ₜ tumbler (i_start r)) →
  union_ok (foldl join_step ps sorted) (l ++ sorted).
Proof.
  intros Hu Hok. revert ps l Hu. induction Hok as [|run sorted Hr Hok IH]; intros ps l Hu HS Hle; cbn [foldl].
  { by rewrite app_nil_r. }
  apply StronglySorted_cons in HS as [Hrun HS].
  destruct (join_step_ok ps l run Hu Hr) as [Hu' Hle'].
  { intros p Hp. apply Hle; set_solver. }
  specialize (IH _ _ Hu' HS). rewrite <- app_assoc in IH. apply IH.
  intros p r Hp%Hle' Hin. eapply Forall_forall in Hrun; [|exact Hin]. cbn in Hrun. torder.
Qed.

Lemma union_nil_ok : union_ok [] [].
Proof.
  split; [apply Forall_nil_2|constructor|]. intros a. rewrite flat_nil. split.
  - intros (p & Hp & _). by apply elem_of_nil in Hp.
  - intros Ha. by apply elem_of_nil in Ha.
Qed.

Lemma RunUnion_of_ok l sorted :
  runs_ok l → sorted_by_start l sorted → union_ok (pieces (RunUnion_of sorted)) l.
Proof.
  intros Hl [Hp HS]. unfold RunUnion_of. cbn [pieces].
  change (@None Tumbler) with (piece_reach <$> last (@nil UnionPiece)). rewrite join_fold.
  assert (Hok : runs_ok sorted) by (unfold runs_ok; by rewrite Hp).
  destruct (join_all_ok sorted [] [] union_nil_ok Hok HS) as [HF HSS HH].
  { intros p r Hin. by apply elem_of_nil in Hin. }
  split; [done|done|]. intros a. rewrite HH. cbn. unfold flat. by rewrite Hp.
Qed.

(** ** The search *)

Lemma take_while_split {A} (p : A → bool) l :
  ∃ k, l = take_while p l ++ k ∧ Forall (λ x, p x = true) (take_while p l) ∧
    ∀ x, head k = Some x → p x = false.
Proof.
  induction l as [|x l (k & E & HF & Hk)]; cbn; [exists []; split_and!; [done|apply Forall_nil_2|done]|].
  destruct (p x) eqn:Hx.
  - exists k. split_and!; [by rewrite E at 1|by apply Forall_cons|done].
  - exists (x :: l). split_and!; [done|apply Forall_nil_2|]. by intros y [= <-].
Qed.

(** The piece the search lands on is the last that opens at or before the run. *)
Lemma covers_search ps l run :
  union_ok ps l →
  ∃ k rest, ps = k ++ rest ∧
    covers (MkRunUnion ps) run = match last k with
      | Some q => same_content_chain (u_first q) run && (run_reach run ≤?ₜ piece_reach q)
      | None => false end ∧
    (∀ p, p ∈ k → p_start p ≤ₜ tumbler (i_start run)) ∧
    (∀ p, p ∈ rest → tumbler (i_start run) <ₜ p_start p).
Proof.
  intros [_ HS _]. unfold covers, partition_point. cbn [pieces].
  set (pred := λ piece, tumbler (i_start (u_first piece)) ≤?ₜ tumbler (i_start run)).
  destruct (take_while_split pred ps) as (rest & E & HF & Hrest).
  exists (take_while pred ps), rest. split; [done|]. split; [|split].
  - rewrite E at 2. by rewrite take_app_length.
  - intros p Hp. eapply Forall_forall in HF; [|exact Hp]. by apply leb_le in HF.
  - intros p Hp. destruct rest as [|q rest]; [by apply elem_of_nil in Hp|].
    pose proof (Hrest q eq_refl) as Hq%leb_gt. fold (p_start q) in Hq.
    rewrite E in HS. apply StronglySorted_app in HS as (_ & _ & HS).
    apply StronglySorted_cons in HS as [Hb _].
    apply elem_of_cons in Hp as [->|Hp]; [done|].
    eapply Forall_forall in Hb as [Hb _]; [|exact Hp]. torder.
Qed.

(** Two pieces of one chain: the same, or a gap apart. *)
Lemma pieces_apart k q rest l p :
  union_ok (k ++ q :: rest) l → p ∈ k ++ q :: rest → p_chain p = p_chain q →
  p = q ∨ (p ∈ k ∧ (p_hi p < p_lo q)%N) ∨ (p ∈ rest ∧ (p_hi q < p_lo p)%N).
Proof.
  intros [_ HS _] Hp Hc. apply StronglySorted_app in HS as (Hkq & _ & HS).
  apply StronglySorted_cons in HS as [Hqr _].
  apply elem_of_app in Hp as [Hp|[->|Hp]%elem_of_cons]; [right; left|by left|right; right]; (split; [done|]).
  - destruct (Hkq p q Hp ltac:(set_solver)) as [_ Hg]. by apply Hg.
  - eapply Forall_forall in Hqr as [_ Hg]; [|exact Hp]. by apply Hg.
Qed.

(** Only the last piece that opens at or before a run can hold its start. *)
Lemma holding_piece_last k q rest l run p :
  union_ok ((k ++ [q]) ++ rest) l →
  (∀ p, p ∈ k ++ [q] → p_start p ≤ₜ tumbler (i_start run)) →
  (∀ p, p ∈ rest → tumbler (i_start run) <ₜ p_start p) →
  p ∈ (k ++ [q]) ++ rest → p_holds p (i_start run) → p = q.
Proof.
  intros Hu Hk Hrest Hp [Hpc Hpo].
  change (r_chain run = p_chain p) in Hpc. change (p_lo p ≤ r_lo run < p_hi p)%N in Hpo.
  pose proof (p_start_comps p) as Hps. rewrite <- Hpc in Hps.
  apply elem_of_app in Hp as [[Hp| ->%list_elem_of_singleton]%elem_of_app|Hp%Hrest]; [|done|].
  - exfalso. pose proof (union_sorted _ _ Hu) as HS.
    apply StronglySorted_app in HS as (_ & HS & _). apply StronglySorted_snoc in HS as [_ Hb].
    destruct (Hb p Hp) as [Hpq Hg].
    assert (HF : ∀ x, x ∈ k ++ [q] → piece_ok x).
    { intros x Hx. pose proof (union_pieces _ _ Hu) as HF.
      eapply Forall_forall in HF; [exact HF|set_solver]. }
    assert (Hqc : p_chain q = p_chain p).
    { apply (chain_convex (i_start (u_first p)) (i_start (u_first q)) (i_start run));
        [apply HF; set_solver|apply HF; set_solver|done| |].
      - change (p_start p ≤ₜ p_start q). torder.
      - apply (Hk q). set_solver. }
    specialize (Hg (eq_sym Hqc)). pose proof (Hk q ltac:(set_solver)) as Hlo.
    pose proof (p_start_comps q) as Hqs. rewrite Hqc, <- Hpc in Hqs.
    apply (chain_le _ _ _ _ _ Hqs (r_start_comps run)) in Hlo. lia.
  - apply (chain_lt _ _ _ _ _ (r_start_comps run) Hps) in Hp. lia.
Qed.

(** A run whose addresses are all held ends within the piece that holds its start. *)
Lemma held_run_reach k q rest l run :
  union_ok (k ++ q :: rest) l → piece_ok q → run_ok run →
  (∀ a, a ∈ addrs run → a ∈ flat l) → p_holds q (i_start run) → (r_hi run ≤ p_hi q)%N.
Proof.
  intros Hu Hq Hr Hall [Hpc Hpo].
  change (r_chain run = p_chain q) in Hpc. change (p_lo q ≤ r_lo run < p_hi q)%N in Hpo.
  destruct (N.le_gt_cases (r_hi run) (p_hi q)) as [|Hgt]; [done|exfalso].
  set (a := addr_shift (i_start run) (p_hi q - r_lo run)).
  assert (Ha : chain a = r_chain run ∧ ord a = p_hi q).
  { unfold a. rewrite chain_shift, ord_shift. split; [done|]. unfold r_lo in *. lia. }
  destruct Ha as [Hac Hao].
  destruct (proj2 (union_holds _ _ Hu a)) as (p' & Hp' & Hc' & Ho').
  { apply Hall, elem_of_addrs_ord. rewrite Hac, Hao. split; [done|lia]. }
  rewrite Hac, Hpc in Hc'. rewrite Hao in Ho'.
  destruct (pieces_apart k q rest l p' Hu Hp' (eq_sym Hc')) as [->|[[_ Hg]|[_ Hg]]]; lia.
Qed.

Lemma covers_ok ps l run :
  union_ok ps l → run_ok run →
  covers (MkRunUnion ps) run = true ↔ ∀ a, a ∈ addrs run → a ∈ flat l.
Proof.
  intros Hu Hr. pose proof (run_lo_hi run Hr) as Hlh.
  assert (HF : ∀ x, x ∈ ps → piece_ok x) by (apply Forall_forall, Hu).
  destruct (covers_search ps l run Hu) as (k & rest & -> & -> & Hk & Hrest). split.
  - destruct (last k) as [q|] eqn:Hq; [|done].
    apply last_Some in Hq as [k' ->]. rewrite andb_true_iff, same_content_chain_spec, leb_le.
    intros [Hc Hreach] a [Hca Hoa]%elem_of_addrs_ord. apply (union_holds _ _ Hu).
    exists q. split; [set_solver|]. pose proof (Hk q ltac:(set_solver)) as Hlo.
    pose proof (piece_reach_comps q (HF q ltac:(set_solver))) as Hqr.
    pose proof (p_start_comps q) as Hqs. unfold p_chain in *. rewrite Hc in *.
    apply (chain_le _ _ _ _ _ Hqs (r_start_comps run)) in Hlo.
    apply (chain_le _ _ _ _ _ (run_reach_comps run) Hqr) in Hreach.
    split; [unfold p_chain; congruence|lia].
  - intros Hall. destruct (proj2 (union_holds _ _ Hu (i_start run))) as (p & Hp & Hpo).
    { apply Hall, elem_of_addrs_ord. split; [done|]. unfold r_lo in *. lia. }
    destruct (snoc_view k) as [->|(k' & q & ->)].
    { exfalso. cbn in Hp. apply Hrest in Hp. destruct Hpo as [Hpc Hpo].
      change (r_chain run = p_chain p) in Hpc. change (p_lo p ≤ r_lo run < p_hi p)%N in Hpo.
      pose proof (p_start_comps p) as Hps. rewrite <- Hpc in Hps.
      apply (chain_lt _ _ _ _ _ (r_start_comps run) Hps) in Hp. lia. }
    rewrite last_snoc. rewrite (holding_piece_last k' q rest l run p) in Hpo by done.
    assert (Hqok : piece_ok q) by (apply HF; set_solver).
    rewrite <- app_assoc in Hu. cbn [app] in Hu.
    pose proof (held_run_reach k' q rest l run Hu Hqok Hr Hall Hpo) as Hle.
    destruct Hpo as [Hpc _]. change (r_chain run = p_chain q) in Hpc.
    apply andb_true_iff. rewrite same_content_chain_spec, leb_le. split; [done|].
    pose proof (piece_reach_comps q Hqok) as Hqr. rewrite <- Hpc in Hqr.
    by apply (chain_le _ _ _ _ _ (run_reach_comps run) Hqr).
Qed.

(** ** The pieces as runs *)

Definition piece_run (p : UnionPiece) : Run := MkRun (i_start (u_first p)) (p_hi p - p_lo p).

Lemma to_run_ok p : piece_ok p → to_run p = Done (piece_run p) ∧ run_ok (piece_run p).
Proof.
  intros Hp. unfold to_run. fold (p_start p).
  rewrite (ordinal_app _ _ _ (piece_reach_comps p Hp)).
  rewrite (ordinal_app _ _ _ (p_start_comps p)). destruct Hp as (Ha & _ & Hlt).
  rewrite nat_sub_ok by lia. split; [done|]. split; [cbn; lia|done].
Qed.

Lemma elem_of_piece_run p a : piece_ok p → a ∈ addrs (piece_run p) ↔ p_holds p a.
Proof.
  intros (_ & _ & Hlt). rewrite elem_of_addrs_ord. unfold p_holds, r_hi.
  change (r_chain (piece_run p)) with (p_chain p). change (r_lo (piece_run p)) with (p_lo p).
  cbn [run_width piece_run]. by replace (p_lo p + (p_hi p - p_lo p))%N with (p_hi p) by lia.
Qed.

Lemma elem_of_flat_pieces ps a :
  Forall piece_ok ps → a ∈ flat (piece_run <$> ps) ↔ ∃ p, p ∈ ps ∧ p_holds p a.
Proof.
  induction 1 as [|p ps Hp Hps IH]; cbn [fmap list_fmap].
  - rewrite flat_nil. split; [intros Ha; by apply elem_of_nil in Ha|].
    intros (p & Hp & _). by apply elem_of_nil in Hp.
  - rewrite flat_cons, elem_of_app, IH, elem_of_piece_run by done. setoid_rewrite elem_of_cons.
    naive_solver.
Qed.

Lemma flat_pieces_NoDup ps :
  Forall piece_ok ps → StronglySorted p_before ps → NoDup (flat (piece_run <$> ps)).
Proof.
  induction 1 as [|p ps Hp Hps IH]; intros HS; cbn [fmap list_fmap]; [apply NoDup_nil_2|].
  apply StronglySorted_cons in HS as [Hb HS]. rewrite flat_cons. apply NoDup_app.
  split_and!; [apply addrs_NoDup| |by apply IH].
  intros a [Hc Ho]%(elem_of_piece_run p a Hp) (q & Hq & Hcq & Hoq)%elem_of_flat_pieces; [|done].
  pose proof (proj1 (Forall_forall _ _) Hb q Hq) as [_ Hg].
  specialize (Hg ltac:(congruence)). lia.
Qed.

Lemma join_length sorted ps : length (foldl join_step ps sorted) ≤ length ps + length sorted.
Proof.
  revert ps. induction sorted as [|r sorted IH]; intros ps; cbn [foldl length]; [lia|].
  etransitivity; [apply IH|]. unfold join_step.
  destruct (snoc_view ps) as [->|(k & q & ->)]; [cbn; lia|]. rewrite last_snoc, removelast_last.
  destruct (_ && _); [destruct (_ <?ₜ _)|]; rewrite ?length_app; cbn; lia.
Qed.

(** ** The claim *)

(** Whatever order the unstable sort leaves equal starts in, the union of
    well-formed runs answers [covers] exactly: every address of the run asked is
    held by some run of the set; and its pieces as runs never underflow, are well
    formed and no more than the runs given, and hold each address of the set
    exactly once and no other. *)
Theorem run_union_exact (l sorted : list Run) (run : Run) :
  runs_ok l → sorted_by_start l sorted → run_ok run →
  (covers (RunUnion_of sorted) run = true ↔ ∀ a, a ∈ addrs run → a ∈ flat l) ∧
  ∃ rs, union_runs (RunUnion_of sorted) = Done rs ∧ runs_ok rs ∧ length rs ≤ length l ∧
    NoDup (flat rs) ∧ ∀ a, a ∈ flat rs ↔ a ∈ flat l.
Proof.
  intros Hl Hs Hr. pose proof (RunUnion_of_ok l sorted Hl Hs) as Hu.
  split; [by apply covers_ok|]. destruct Hu as [HF HS HH].
  exists (piece_run <$> pieces (RunUnion_of sorted)). split_and!.
  - apply outcome_map_done. intros p Hp. by apply to_run_ok, (proj1 (Forall_forall _ _) HF).
  - apply Forall_fmap. eapply Forall_impl; [exact HF|]. intros p Hp. by apply to_run_ok.
  - rewrite length_fmap. destruct Hs as [<- _]. unfold RunUnion_of. cbn [pieces].
    change (@None Tumbler) with (piece_reach <$> last (@nil UnionPiece)). rewrite join_fold.
    apply (join_length sorted []).
  - by apply flat_pieces_NoDup.
  - intros a. by rewrite elem_of_flat_pieces.
Qed.

Lemma run_union_exact_witness :
  covers (RunUnion_of [sample_run 0 2; sample_run 1 3]) (sample_run 1 2) = true.
Proof.
  apply (run_union_exact [sample_run 1 3; sample_run 0 2] [sample_run 0 2; sample_run 1 3]
    (sample_run 1 2)).
  - rewrite !runs_ok_cons. split_and!; [by apply sample_run_ok..|apply runs_ok_nil].
  - split; [apply Permutation_swap|]. repeat constructor. unfold sample_run. cbn.
    rewrite !addr_shift_tumbler. by apply shift_le_iff.
  - by apply sample_run_ok.
  - intros a (k & Hk & ->)%elem_of_addrs. rewrite flat_cons. apply elem_of_app. left.
    apply elem_of_addrs. exists k. cbn in *. split; [lia|done].
Defined.
