(* ===== verification/VSpace.v ===== *)
(** * V-space values: positions, copy specs and ordinal-level spans

    Models [crates/skep-arrangement/src/vspace.rs]: the depth-2 V-position, the
    copy spec, and the ordinal-level V-range from its two sides, the reader
    [as_ordinal_vspan] and the builder [ordinal_vspan]. *)

From S2P Require Import Prelude Tumblers Addresses Arith Spans.

Record VPos := MkVPos { vp_subspace : Nat; vp_ordinal : Nat }.

#[export] Instance VPos_eq_dec : EqDecision VPos.
Proof. solve_decision. Defined.

(** The derived order: the fields in declaration order. *)
Definition VPos_cmp (a b : VPos) : comparison :=
  match (vp_subspace a ?= vp_subspace b)%N with
  | Eq => (vp_ordinal a ?= vp_ordinal b)%N
  | c => c
  end.

Definition VPos_content (ordinal : Nat) : VPos := MkVPos content_subspace ordinal.

Definition VPos_is_content (p : VPos) : bool := (vp_subspace p =? content_subspace)%N.

Record VSpec := MkVSpec { vs_source : Address; vs_span : Span }.

Record OrdinalVSpan := MkOrdinalVSpan { ov_subspace : Nat; ov_ordinal : Nat; ov_count : Nat }.

Definition OrdinalVSpan_is_content (o : OrdinalVSpan) : bool := (ov_subspace o =? content_subspace)%N.

Definition as_ordinal_vspan (span : Span) : option OrdinalVSpan :=
  let start := start span in
  let width := width span in
  if negb (Tumbler_len start =? 2) || negb (Tumbler_len width =? 2) ||
     negb (match Tumbler_get width 1 with Some w => nat_is_zero w | None => false end)
  then None
  else
    s ← Tumbler_get start 1;
    o ← Tumbler_get start 2;
    c ← Tumbler_get width 2;
    Some (MkOrdinalVSpan s o c).

Definition is_ordinal_vspan (span : Span) : bool := bool_decide (is_Some (as_ordinal_vspan span)).

Definition ordinal_vspan (at_ : VPos) (count : Nat) : outcome (option Span) :=
  if nat_is_zero count then Done None
  else
    start ← expect_ok (Tumbler_new [vp_subspace at_; vp_ordinal at_]);
    width ← expect_ok (Tumbler_new [0%N; count]);
    s ← expect_ok (Span_new start width);
    Done (Some s).

(** ** Lemmas *)

Lemma comps_two t : Tumbler_len t = 2 → ∃ x y, comps t = [x; y].
Proof.
  unfold Tumbler_len. destruct (comps t) as [|x [|y [|]]]; try discriminate. by exists x, y.
Qed.

Lemma as_ordinal_vspan_Some s o :
  as_ordinal_vspan s = Some o ↔
  comps (start s) = [ov_subspace o; ov_ordinal o] ∧ comps (width s) = [0%N; ov_count o].
Proof.
  unfold as_ordinal_vspan. split.
  - destruct (Nat.eqb_spec (Tumbler_len (start s)) 2) as [Hs|]; [|done].
    destruct (Nat.eqb_spec (Tumbler_len (width s)) 2) as [Hw|]; [|done].
    destruct (comps_two _ Hs) as (a & b & Es), (comps_two _ Hw) as (z & c & Ew).
    unfold Tumbler_get. rewrite Es, Ew. cbn. rewrite nat_is_zero_eqb.
    destruct (N.eqb_spec z 0) as [->|]; [|done]. by intros [= <-].
  - intros [Es Ew]. unfold Tumbler_get, Tumbler_len. rewrite Es, Ew. by destruct o.
Qed.

Lemma Tumbler_new_cons x l : ∃ t, Tumbler_new (x :: l) = Ok t ∧ comps t = x :: l.
Proof.
  destruct (Tumbler_new (x :: l)) as [t|] eqn:E; [|done].
  exists t. split; [done|]. by apply Tumbler_new_Ok.
Qed.

Lemma ordinal_vspan_ok at_ count :
  count ≠ 0%N →
  ∃ s, ordinal_vspan at_ count = Done (Some s) ∧
    comps (start s) = [vp_subspace at_; vp_ordinal at_] ∧ comps (width s) = [0%N; count].
Proof.
  intros Hc. unfold ordinal_vspan. rewrite nat_is_zero_eqb, (proj2 (N.eqb_neq _ _) Hc).
  destruct (Tumbler_new_cons (vp_subspace at_) [vp_ordinal at_]) as (s & -> & Es).
  destruct (Tumbler_new_cons 0%N [count]) as (w & -> & Ew). cbn.
  assert (Hd : is_ok (add_domain s w) = true).
  { assert (Hk : add_domain s w = Ok 2); [|by rewrite Hk].
    apply add_domain_Ok. split; [|unfold Tumbler_len; by rewrite Es].
    apply action_point_Some. exists 1, count, []. by rewrite Ew. }
  exists (MkSpan s w Hd). by rewrite (proj2 (Span_new_Ok s w (MkSpan s w Hd)) (conj eq_refl eq_refl)).
Qed.

(** What a built range spans: its end, its class, and its depth-2 positions. *)
Lemma ordinal_vspan_spans at_ count s :
  comps (start s) = [vp_subspace at_; vp_ordinal at_] → comps (width s) = [0%N; count] →
  count ≠ 0%N →
  comps (reach s) = [vp_subspace at_; vp_ordinal at_ + count]%N ∧
  is_level_uniform s = true ∧
  ∀ t p, comps t = [vp_subspace p; vp_ordinal p] →
    contains s t = true ↔ vp_subspace p = vp_subspace at_ ∧
      (vp_ordinal at_ ≤ vp_ordinal p < vp_ordinal at_ + count)%N.
Proof.
  intros Es Ew Hc.
  assert (Hr : comps (reach s) = [vp_subspace at_; vp_ordinal at_ + count]%N).
  { destruct (add_app (start s) (width s) 1 [vp_subspace at_] (vp_ordinal at_) [] count [])
      as (t & Ht & Etc); [done|done|done|done|].
    rewrite reach_add in Ht. injection Ht as ->. done. }
  split_and!; [done|by rewrite level_uniform_spec; unfold Tumbler_len; rewrite Es, Ew|].
  intros t p Ep. rewrite contains_spec. unfold Tle, Tlt, cmp. rewrite Es, Hr, Ep. cbn.
  destruct (N.compare_spec (vp_subspace at_) (vp_subspace p)),
    (N.compare_spec (vp_subspace p) (vp_subspace at_)),
    (N.compare_spec (vp_ordinal at_) (vp_ordinal p)),
    (N.compare_spec (vp_ordinal p) (vp_ordinal at_ + count)); cbn;
    (split; [intros [? ?]|intros (? & ? & ?)]); try done; try lia;
    (split; [done || lia|]); try done; lia.
Qed.

(** A V-position is the depth-2 tumbler of its components, ordered alike. *)
Lemma VPos_cmp_list a b :
  VPos_cmp a b = list_cmp [vp_subspace a; vp_ordinal a] [vp_subspace b; vp_ordinal b].
Proof.
  unfold VPos_cmp. cbn. destruct (_ ?= _)%N; [|done..]. by destruct (_ ?= _)%N.
Qed.

(** ** The claim *)

(** The ordinal-level V-range, from both sides. The builder never panics,
    refuses exactly a zero count, and what it builds reads back to the three
    quantities it was built from, ends at the ordinal [count] further, and contains
    a depth-2 position exactly when it is in the subspace at one of those ordinals;
    whatever the reader accepts, the builder rebuilds. *)
Theorem ordinal_vspan_roundtrip (at_ : VPos) (count : Nat) (span : Span) (o : OrdinalVSpan) :
  match ordinal_vspan at_ count with
  | Panicked => False
  | Done None => count = 0%N
  | Done (Some s) =>
      count ≠ 0%N ∧
      as_ordinal_vspan s = Some (MkOrdinalVSpan (vp_subspace at_) (vp_ordinal at_) count) ∧
      comps (reach s) = [vp_subspace at_; vp_ordinal at_ + count]%N ∧
      ∀ t p, comps t = [vp_subspace p; vp_ordinal p] →
        contains s t = true ↔ vp_subspace p = vp_subspace at_ ∧
          (vp_ordinal at_ ≤ vp_ordinal p < vp_ordinal at_ + count)%N
  end ∧
  (as_ordinal_vspan span = Some o →
     ov_count o ≠ 0%N ∧
     ordinal_vspan (MkVPos (ov_subspace o) (ov_ordinal o)) (ov_count o) = Done (Some span)).
Proof.
  split.
  - destruct (N.eq_dec count 0%N) as [->|Hc]; [done|].
    destruct (ordinal_vspan_ok at_ count Hc) as (s & -> & Es & Ew).
    destruct (ordinal_vspan_spans at_ count s Es Ew Hc) as (Hr & _ & Hp).
    split_and!; [done|by apply as_ordinal_vspan_Some|done|exact Hp].
  - intros [Es Ew]%as_ordinal_vspan_Some.
    assert (Hc : ov_count o ≠ 0%N).
    { intros Hz. rewrite Hz in Ew. pose proof (T12 span) as HT. unfold add_domain in HT.
      rewrite (proj2 (action_point_None (width span))) in HT; [done|].
      unfold Tumbler_len. by rewrite Ew. }
    split; [done|].
    destruct (ordinal_vspan_ok (MkVPos (ov_subspace o) (ov_ordinal o)) (ov_count o) Hc)
      as (s & -> & Es' & Ew').
    do 2 f_equal. apply Span_eq; apply Tumbler_eq; cbn in *; congruence.
Qed.

Lemma ordinal_vspan_roundtrip_witness :
  ∃ s, as_ordinal_vspan s = Some (MkOrdinalVSpan 1 7 4) ∧
    ordinal_vspan (MkVPos 1 7) 4 = Done (Some s).
Proof.
  destruct (ordinal_vspan_ok (MkVPos 1 7) 4 ltac:(done)) as (s & E & Es & Ew).
  exists s. split; [by apply as_ordinal_vspan_Some|].
  apply (ordinal_vspan_roundtrip (MkVPos 1 7) 4 s (MkOrdinalVSpan 1 7 4)).
  by apply as_ordinal_vspan_Some.
Defined.
