(* ===== verification/Provenance.v ===== *)
(** * The provenance relation R

    Models [crates/skep-arrangement/src/provenance.rs]: per document, the
    I-extents of every run it ever placed, in placement order. [append] is the
    only mutator. An ordered map is a finite map whose walk is by key, in the
    tumbler order. *)

From stdpp Require Import gmap sorting.
From S2P Require Import Prelude Tumblers Addresses AddrMaps Arith Spans SpanSets Runs RunLists.

Record Provenance := MkProvenance { relation : gmap Address (list Span) }.

Definition Provenance_default : Provenance := MkProvenance ∅.

(** [TryFrom<ProvenanceShadow>]: level-uniformity re-established on decode. *)
Definition Provenance_try_from (shadow : gmap Address (list Span)) : result Provenance unit :=
  if forallb (λ kv, forallb is_level_uniform kv.2) (map_to_list shadow)
  then Ok (MkProvenance shadow) else Err tt.

(** [spans.extend(runs.map(Run::iextent))], into the map under [doc]. *)
Definition provenance_append (r : Provenance) (doc : Address) (runs : list Run) :
    outcome Provenance :=
  let recorded := default [] (relation r !! doc) in
  lifted ← outcome_map iextent runs;
  Done (MkProvenance (<[doc := recorded ++ lifted]> (relation r))).

Definition ever_contained (r : Provenance) (doc : Address) : SpanSet :=
  match relation r !! doc with Some v => from_iter v | None => empty end.

Definition recorded_span_count (r : Provenance) (doc : Address) : nat :=
  match relation r !! doc with Some v => length v | None => 0 end.

Definition not_separated (a b : Span) : bool :=
  match classify_spans a b with Separated => false | _ => true end.

Definition docs_ever_containing (r : Provenance) (coverage : SpanSet) : list Address :=
  fst <$> filter (λ kv,
    existsb (λ placed, existsb (not_separated placed) (spans coverage)) kv.2 = true)
    (ord_entries (relation r)).

(** ** The relation's invariant: every recorded span is some run's I-extent *)

Definition is_extent (s : Span) : Prop := ∃ r, run_ok r ∧ iextent r = Done s.

Definition provenance_ok (r : Provenance) : Prop :=
  map_Forall (λ _ v, Forall is_extent v) (relation r).

Definition recorded (r : Provenance) (doc : Address) : list Span := spans (ever_contained r doc).

Lemma recorded_lookup r doc : recorded r doc = default [] (relation r !! doc).
Proof. unfold recorded, ever_contained. by destruct (relation r !! doc). Qed.

Lemma recorded_count r doc : recorded_span_count r doc = length (recorded r doc).
Proof. rewrite recorded_lookup. unfold recorded_span_count. by destruct (relation r !! doc). Qed.

Lemma recorded_extents r doc : provenance_ok r → Forall is_extent (recorded r doc).
Proof.
  intros H. rewrite recorded_lookup. destruct (relation r !! doc) as [v|] eqn:E; [|apply Forall_nil_2].
  by apply (H doc v E).
Qed.

Lemma iextents_ok runs :
  runs_ok runs → ∃ es, outcome_map iextent runs = Done es ∧ Forall is_extent es ∧
    ∀ t, any es t = true ↔ under_some (flat runs) t.
Proof.
  induction 1 as [|r k Hr Hk (es & E & He & Hd)]; cbn [outcome_map].
  - exists []. split_and!; [done|apply Forall_nil_2|]. intros t. split; [done|].
    intros (? & Hx & _). by apply elem_of_nil in Hx.
  - destruct (iextent_ok r Hr) as (e & Hre & _). rewrite Hre, E. cbn.
    exists (e :: es). split_and!; [done|apply Forall_cons; split; [by exists r|done]|].
    intros t. by rewrite any_cons, orb_true_iff, Hd, flat_cons, under_some_app,
      (extent_under r e t Hr Hre).
Qed.

Lemma is_extent_uniform s : is_extent s → is_level_uniform s = true.
Proof. intros (r & Hr & E). destruct (iextent_ok r Hr) as (e & E' & _ & _ & Hu). congruence. Qed.

(** [append] lengthens one document's sequence and touches no other. *)
Lemma provenance_append_ok r doc runs :
  provenance_ok r → runs_ok runs →
  ∃ r' es, provenance_append r doc runs = Done r' ∧ provenance_ok r' ∧
    recorded r' doc = recorded r doc ++ es ∧
    (∀ t, any es t = true ↔ under_some (flat runs) t) ∧
    ∀ d, d ≠ doc → recorded r' d = recorded r d.
Proof.
  intros Hr Hruns. unfold provenance_append.
  destruct (iextents_ok runs Hruns) as (es & -> & He & Hd). cbn.
  eexists _, es. split; [reflexivity|]. split_and!.
  - apply map_Forall_insert_2; [|done]. apply Forall_app. split; [|done].
    rewrite <- recorded_lookup. by apply recorded_extents.
  - by rewrite !recorded_lookup; cbn; rewrite lookup_insert_eq.
  - done.
  - intros d Hne. rewrite !recorded_lookup. cbn. by rewrite lookup_insert_ne.
Qed.

(** ** The candidate read *)

Lemma not_separated_overlap a b t :
  contains a t = true → contains b t = true → not_separated a b = true.
Proof.
  intros Ha Hb. unfold not_separated. pose proof (classify_disjoint a b t) as H.
  destruct (classify_spans a b); try done. exfalso. specialize (H eq_refl). by rewrite Ha, Hb in H.
Qed.

Lemma docs_ever_containing_ok r coverage :
  let docs := docs_ever_containing r coverage in
  (∀ d, d ∈ docs ↔ ∃ p c, p ∈ recorded r d ∧ c ∈ spans coverage ∧ not_separated p c = true) ∧
  NoDup docs ∧ StronglySorted (λ a b, tumbler a ≤ₜ tumbler b) docs.
Proof.
  split_and!.
  - intros d. unfold docs_ever_containing. rewrite list_elem_of_fmap. split.
    + intros ([k v] & -> & [Hex Hin]%list_elem_of_filter). apply elem_of_ord_entries in Hin. cbn in *.
      apply existsb_exists in Hex as (p & Hp%list_elem_of_In & Hc).
      apply existsb_exists in Hc as (c & Hc%list_elem_of_In & Hs). exists p, c.
      rewrite recorded_lookup, Hin. done.
    + intros (p & c & Hp & Hc & Hs). rewrite recorded_lookup in Hp.
      destruct (relation r !! d) as [v|] eqn:E; [|by apply elem_of_nil in Hp].
      exists (d, v). split; [done|]. apply list_elem_of_filter. split; [|by apply elem_of_ord_entries].
      apply existsb_exists. exists p. split; [by apply list_elem_of_In|].
      apply existsb_exists. exists c. split; [by apply list_elem_of_In|done].
  - apply NoDup_fmap_filter, ord_entries_keys_NoDup.
  - apply StronglySorted_fmap_filter, ord_entries_sorted.
Qed.
