(* ===== verification/Chain.v ===== *)
(** * A document's version chain, by address arithmetic

    Models the pure half of [crates/skep-arrangement/src/chain.rs], the trunk
    projection and the birth-version test, over the slot addresses of [NsKeys], and the
    reads that ask the namespace for its frontiers and publication bits. *)

From stdpp Require Import gmap.
From S2P Require Import Prelude Txns Tumblers Addresses AddrMaps Arith NsKeys NsState NsLaws NsOps NsInv NsReach.

Definition trunk_of_at (a : Address) : outcome Address :=
  match level a, document_field a with
  | Document, Some field =>
      versions ← usize_sub (length field) 1;
      if versions =? 0 then Done a
      else
        kept ← usize_sub (Tumbler_len (tumbler a)) versions;
        trunk ← expect_ok (Tumbler_new (take kept (comps (tumbler a))));
        expect_ok (validate trunk)
  | _, _ => Done a
  end.

(** A document's trunk and what follows it. *)
Lemma document_trunk_view a :
  level a = Document →
  ∃ n u c vs, comps (tumbler a) = (n ++ 0%N :: u ++ [0%N; c]) ++ vs ∧
    document_field a = Some (c :: vs) ∧ field_ok n ∧ field_ok u ∧ field_ok (c :: vs).
Proof.
  intros Hl. destruct (Address_document_view a Hl) as (n & u & d & E & Es & Hn & Hu & Hd).
  destruct d as [|c vs]; [by destruct Hd|]. exists n, u, c, vs.
  rewrite document_field_segs, Es. split_and!; try done. rewrite E.
  repeat (rewrite <- app_assoc; cbn [app]). done.
Qed.

Lemma trunk_segs n u c (vs : list Nat) :
  field_ok n → field_ok u → field_ok (c :: vs) →
  t4_segs ((n ++ 0%N :: u ++ [0%N; c]) ++ vs) ∧
  segs ((n ++ 0%N :: u ++ [0%N; c]) ++ vs) = [n; u; c :: vs].
Proof.
  intros [Hn Hn'] [Hu Hu'] [Hd Hd'].
  assert (E : segs ((n ++ 0%N :: u ++ [0%N; c]) ++ vs) = [n; u; c :: vs]).
  { repeat (rewrite <- app_assoc; cbn [app]). rewrite !segs_app by done. by rewrite segs_zf. }
  split; [|done]. unfold t4_segs. rewrite E. split; [by repeat constructor|cbn; lia].
Qed.

Lemma document_of_comps a n u d :
  segs (comps (tumbler a)) = [n; u; d] → level a = Document ∧ document_field a = Some d.
Proof.
  intros E. split; [|by rewrite document_field_segs, E].
  apply level_index_inj. pose proof (Address_level_segs a) as H. rewrite E in H. cbn in *. lia.
Qed.

(** The trunk keeps the first component of the document field. *)
Lemma trunk_of_at_ok a :
  ∃ t, trunk_of_at a = Done t ∧
    match level a with
    | Document => ∃ n u c vs, comps (tumbler a) = (n ++ 0%N :: u ++ [0%N; c]) ++ vs ∧
        document_field a = Some (c :: vs) ∧ comps (tumbler t) = n ++ 0%N :: u ++ [0%N; c] ∧
        level t = Document ∧ document_field t = Some [c]
    | _ => t = a
    end.
Proof.
  unfold trunk_of_at. destruct (level a) eqn:Hl; try (by exists a).
  destruct (document_trunk_view a Hl) as (n & u & c & vs & E & Ed & Hn & Hu & Hd). rewrite Ed.
  rewrite usize_sub_ok by (cbn; lia). cbn [mbind outcome_bind].
  assert (Hc : field_ok [c]).
  { destruct Hd as [Hd _]. apply Forall_cons in Hd as [Hc _]. split; [by repeat constructor|done]. }
  assert (Hsub : length (c :: vs) - 1 = length vs) by (cbn; lia). rewrite Hsub.
  destruct (trunk_segs n u c [] Hn Hu Hc) as [Hok Hs]. rewrite app_nil_r in Hok, Hs.
  destruct (Nat.eqb_spec (length vs) 0) as [Hz|Hz].
  - destruct vs; [|done]. rewrite app_nil_r in E. exists a. split; [done|].
    exists n, u, c, []. rewrite app_nil_r. split_and!; done.
  - unfold Tumbler_len. rewrite E, length_app, usize_sub_ok by lia.
    cbn [mbind outcome_bind]. rewrite Nat.add_sub, take_app_length.
    destruct (Tumbler_new (n ++ 0%N :: u ++ [0%N; c])) as [t|[]] eqn:Ht; cycle 1.
    { unfold Tumbler_new in Ht. by destruct n. }
    apply Tumbler_new_Ok in Ht. cbn.
    destruct (validate_segs t) as (b & -> & Eb); [by rewrite Ht|].
    exists b. split; [done|]. rewrite <- Ht, <- Eb in Hs.
    destruct (document_of_comps b n u [c] Hs) as [Hbl Hbd].
    exists n, u, c, vs. rewrite Eb. split_and!; done.
Qed.

Lemma trunk_of_done a : is_done (trunk_of_at a) = true.
Proof. by destruct (trunk_of_at_ok a) as (t & -> & _). Qed.

Definition trunk_of (a : Address) : Address := total (trunk_of_at a) (trunk_of_done a).

Lemma trunk_of_ok a :
  match level a with
  | Document => ∃ n u c vs, comps (tumbler a) = (n ++ 0%N :: u ++ [0%N; c]) ++ vs ∧
      document_field a = Some (c :: vs) ∧ comps (tumbler (trunk_of a)) = n ++ 0%N :: u ++ [0%N; c] ∧
      level (trunk_of a) = Document ∧ document_field (trunk_of a) = Some [c]
  | _ => trunk_of a = a
  end.
Proof.
  destruct (trunk_of_at_ok a) as (t & E & H). unfold trunk_of.
  rewrite (total_Done _ _ t E). done.
Qed.

Definition is_birth_version (doc : Address) : bool :=
  let trunk := trunk_of doc in
  negb (bool_decide (trunk = doc)) && bool_decide (first_version_address trunk = Some doc).

Lemma is_birth_version_ok a :
  is_birth_version a = true ↔ level a = Document ∧ ∃ c, document_field a = Some [c; 1%N].
Proof.
  unfold is_birth_version. rewrite andb_true_iff, negb_true_iff, bool_decide_eq_false, bool_decide_eq_true.
  pose proof (trunk_of_ok a) as Ht.
  destruct (first_version_address_ok (trunk_of a)) as (o & Eo & Ho).
  unfold first_version_address. rewrite (total_Done _ _ o Eo). split.
  - intros [Hne ->]. destruct (level a) eqn:Hl; try done.
    destruct Ht as (n & u & c & vs & E & Ed & Et & _). split; [done|]. exists c.
    destruct Ho as [_ Ho]. rewrite Et, E in Ho. apply app_inv_head in Ho as ->. done.
  - intros [Hl (c & Hc)]. rewrite Hl in Ht.
    destruct Ht as (n & u & c' & vs & E & Ed & Et & Hlt & Hdt). rewrite Ed in Hc. injection Hc as -> ->.
    split.
    + intros Heq. rewrite Heq in Hdt. congruence.
    + destruct o as [b|]; [|done]. destruct Ho as [_ Ho]. f_equal. apply Address_eq, Tumbler_eq.
      by rewrite Ho, Et, E.
Qed.

(** PUB-2.15 and PUB-2.34: [trunk_of] never panics, keeps exactly the first
    component of a document's document field, so it is a document, a prefix of
    what it projects and its own trunk, and leaves every other tier as it is;
    [is_birth_version] holds exactly of a trunk's first own member [D.1]. *)
Theorem trunk_spec (a : Address) :
  (level a = Document →
     ∃ c vs, document_field a = Some (c :: vs) ∧ document_field (trunk_of a) = Some [c] ∧
       level (trunk_of a) = Document ∧
       comps (tumbler a) = comps (tumbler (trunk_of a)) ++ vs) ∧
  (level a ≠ Document → trunk_of a = a) ∧
  trunk_of (trunk_of a) = trunk_of a ∧
  (is_birth_version a = true ↔ level a = Document ∧ ∃ c, document_field a = Some [c; 1%N]) ∧
  (is_birth_version a = true → comps (tumbler a) = comps (tumbler (trunk_of a)) ++ [1%N]).
Proof.
  pose proof (trunk_of_ok a) as Ht.
  assert (Hdoc : level a = Document → ∃ c vs, document_field a = Some (c :: vs) ∧
    document_field (trunk_of a) = Some [c] ∧ level (trunk_of a) = Document ∧
    comps (tumbler a) = comps (tumbler (trunk_of a)) ++ vs).
  { intros Hl. rewrite Hl in Ht. destruct Ht as (n & u & c & vs & E & Ed & Et & Hlt & Hdt).
    exists c, vs. split_and!; try done. by rewrite E, Et. }
  split_and!; [done| | |apply is_birth_version_ok|].
  - intros Hl. by destruct (level a).
  - destruct (decide (level a = Document)) as [Hl|Hl].
    + destruct (Hdoc Hl) as (c & vs & _ & Hd & Hlt & _). pose proof (trunk_of_ok (trunk_of a)) as Htt.
      rewrite Hlt in Htt. destruct Htt as (n & u & c' & vs' & E & Ed & Et & _).
      rewrite Hd in Ed. injection Ed as <- <-. rewrite app_nil_r in E.
      apply Address_eq, Tumbler_eq. congruence.
    + assert (Hid : trunk_of a = a) by by destruct (level a). by rewrite !Hid.
  - intros [Hl [c Hc]]%is_birth_version_ok. destruct (Hdoc Hl) as (c' & vs & Hd & _ & _ & E).
    rewrite Hc in Hd. injection Hd as <- <-. done.
Qed.

(** ** The reads that ask the registry *)

Definition trunk_head (m3 : M3State) (doc : Address) : outcome (option Address) :=
  latest_version m3 (trunk_of doc).

Definition birth_version (m3 : M3State) (doc : Address) : outcome (option Address) :=
  head ← trunk_head m3 doc;
  Done match head with None => None | Some _ => first_version_address (trunk_of doc) end.

Definition published_target (m3 : M3State) (doc : Address) : bool := published m3 (trunk_of doc).

Definition reading_surface (m3 : M3State) (doc : Address) : outcome Address :=
  if negb (bool_decide (trunk_of doc = doc)) then Done doc
  else if negb (published_target m3 doc) then Done doc
  else head ← trunk_head m3 doc; Done (default doc head).

Definition deposit_surface (m3 : M3State) (doc : Address) : outcome Address :=
  if negb (published_target m3 doc) then Done doc
  else head ← trunk_head m3 doc; Done (default (trunk_of doc) head).

(** ** Trunks *)

Lemma trunk_view a :
  level a = Document →
  ∃ n u c vs, field_ok n ∧ field_ok u ∧ field_ok (c :: vs) ∧
    comps (tumbler a) = comps (tumbler (trunk_of a)) ++ vs ∧
    segs (comps (tumbler a)) = [n; u; c :: vs] ∧ comps (tumbler (trunk_of a)) = n ++ 0%N :: u ++ [0%N; c] ∧
    level (trunk_of a) = Document.
Proof.
  intros Hl. destruct (document_trunk_view a Hl) as (n & u & c & vs & E & Ed & Hn & Hu & Hd).
  pose proof (trunk_of_ok a) as Ht. rewrite Hl in Ht.
  destruct Ht as (n' & u' & c' & vs' & E' & Ed' & Et & Hlt & _). rewrite Ed in Ed'. injection Ed' as <- <-.
  destruct (trunk_segs n u c vs Hn Hu Hd) as [_ Hs]. rewrite <- E in Hs.
  rewrite E in E'. apply app_inv_tail in E'. rewrite <- E' in Et.
  exists n, u, c, vs. by rewrite Et.
Qed.

Lemma trunk_idem a : trunk_of (trunk_of a) = trunk_of a.
Proof.
  destruct (decide (level a = Document)) as [Hl|Hl].
  2: { assert (trunk_of a = a) as -> by (pose proof (trunk_of_ok a); by destruct (level a)).
       pose proof (trunk_of_ok a). by destruct (level a). }
  destruct (trunk_view a Hl) as (n & u & c & vs & Hn & Hu & Hd & _ & _ & Et & Hlt).
  destruct (trunk_view _ Hlt) as (n' & u' & c' & vs' & _ & _ & _ & E & Es & Et' & _).
  assert (Hc : field_ok [c]).
  { destruct Hd as [Hd _]. apply Forall_cons in Hd as [Hc _]. split; [by repeat constructor|done]. }
  destruct (trunk_segs n u c [] Hn Hu Hc) as [_ Hs]. rewrite app_nil_r, <- Et, Es in Hs.
  injection Hs as -> -> -> ->. apply Address_eq, Tumbler_eq. congruence.
Qed.

(** A document that extends a trunk is in its chain. *)
Lemma trunk_unique d t vs :
  level d = Document → level t = Document → trunk_of t = t →
  comps (tumbler d) = comps (tumbler t) ++ vs → trunk_of d = t.
Proof.
  intros Hd Ht Htt E.
  destruct (trunk_view t Ht) as (n & u & c & vt & [Hn _] & [Hu _] & _ & _ & _ & Et & _). rewrite Htt in Et.
  destruct (trunk_view d Hd) as (n' & u' & c' & vd & _ & _ & [Hz _] & _ & Es & Etd & _).
  rewrite E, Et in Es. repeat (rewrite <- app_assoc in Es; cbn [app] in Es).
  rewrite !segs_app in Es by done. injection Es as -> -> Es.
  assert (Hcv : c :: vs = c' :: vd).
  { apply segs_inj. rewrite (segs_zf (c' :: vd)) by done. exact Es. }
  injection Hcv as -> ->. apply Address_eq, Tumbler_eq. congruence.
Qed.

(** A member's trunk is registered whenever the member is. *)
Lemma trunk_registered s d :
  m3_ok s → is_registered_document s d = true → is_registered_document s (trunk_of d) = true.
Proof.
  intros Hok. remember (Tumbler_len (tumbler d)) as k eqn:Hk. revert d Hk.
  induction (lt_wf k) as [k _ IH]. intros d -> Hd.
  destruct (decide (trunk_of d = d)) as [->|Hne]; [done|].
  pose proof Hd as [Hl Ha]%is_registered_document_ok.
  destruct (trunk_view d Hl) as (n & u & c & vs & _ & _ & _ & E & _ & _ & Hlt).
  destruct (parent_registered s d Hok (or_intror Hl) Ha) as (p & l & Hp & He).
  apply entity_level_Some in He as (Hlp & Hel & Hap).
  pose proof (parent_longest_raw d) as Hlong. rewrite Hp in Hlong. destruct Hlong as (Hpd & Hpre & Hmax).
  assert (Htp : is_prefix (tumbler (trunk_of d)) (tumbler p) = true).
  { apply Hmax; [apply is_t4_valid_ok, Address_ok|apply is_prefix_spec; rewrite E; by eexists|].
    intros Heq. apply Hne. by apply Address_eq. }
  apply is_prefix_spec in Htp as [k Hkp]. apply is_prefix_spec in Hpre as [k' Hk'].
  assert (Hlpd : level p = Document).
  { pose proof (Address_level_separators p) as Hs. rewrite Hkp, separators_count_app,
      Address_level_separators, Hlt in Hs. cbn in Hs. destruct (level p); cbn in Hs; try lia; congruence. }
  assert (trunk_of p = trunk_of d) as Htt.
  { apply (trunk_unique p (trunk_of d) k Hlpd Hlt (trunk_idem d) Hkp). }
  rewrite <- Htt. apply (IH (Tumbler_len (tumbler p))); [|done|by apply is_registered_document_ok].
  unfold Tumbler_len. rewrite Hk', length_app. destruct k'; [|cbn; lia].
  rewrite app_nil_r in Hk'. congruence.
Qed.

(** ** The reads *)

Lemma trunk_head_ok m3 doc :
  match trunk_head m3 doc with
  | Panicked => False
  | Done None => level doc = Document →
      ∀ v, namespace_of v = Some (version_ns (trunk_of doc)) → is_registered_document m3 v = false
  | Done (Some v) => level doc = Document ∧ namespace_of v = Some (version_ns (trunk_of doc)) ∧
      is_registered_document m3 v = true ∧ trunk_of v = trunk_of doc ∧ trunk_of v ≠ v ∧
      ∀ w, namespace_of w = Some (version_ns (trunk_of doc)) → is_registered_document m3 w = true →
        (ordinal (tumbler w) ≤ ordinal (tumbler v))%N
  end.
Proof.
  unfold trunk_head. pose proof (latest_version_ok m3 (trunk_of doc)) as H.
  destruct (latest_version m3 (trunk_of doc)) as [[v|]|]; [| |done].
  - destruct H as (Hl & Hk & Hr & Hmax).
    assert (Hld : level doc = Document).
    { pose proof (trunk_of_ok doc). destruct (level doc) eqn:E; congruence. }
    assert (Hlv : level v = Document) by by apply is_registered_document_ok in Hr as [? _].
    pose proof Hk as Hs. apply namespace_of_Some in Hs as [_ Hs]. cbn in Hs.
    assert (Htv : trunk_of v = trunk_of doc).
    { eapply trunk_unique; [done|done|apply trunk_idem|exact Hs]. }
    split_and!; try done. intros Hv. rewrite Htv in Hv. rewrite Hv in Hs.
    change (comps (tumbler v) = comps (tumbler v) ++ [ordinal (tumbler v)]) in Hs.
    apply (f_equal length) in Hs. rewrite length_app in Hs. cbn in Hs. lia.
  - intros Hl. apply H. by destruct (trunk_view doc Hl) as (? & ? & ? & ? & _ & _ & _ & _ & _ & _ & ?).
Qed.

(** What the two surfaces are, of a registered document. *)
Lemma surfaces_ok m3 doc :
  m3_ok m3 → is_registered_document m3 doc = true →
  ∃ head r d, trunk_head m3 doc = Done head ∧ reading_surface m3 doc = Done r ∧
    deposit_surface m3 doc = Done d ∧
    r = (if decide (trunk_of doc = doc) then if published_target m3 doc then default doc head else doc else doc) ∧
    d = (if published_target m3 doc then default (trunk_of doc) head else doc) ∧
    is_registered_document m3 r = true ∧ is_registered_document m3 d = true ∧
    trunk_of r = trunk_of doc ∧ trunk_of d = trunk_of doc.
Proof.
  intros Hok Hr. pose proof (trunk_head_ok m3 doc) as Hh.
  destruct (trunk_head m3 doc) as [head|] eqn:Eh; [|done].
  pose proof (trunk_registered m3 doc Hok Hr) as Htr.
  exists head, (if decide (trunk_of doc = doc) then if published_target m3 doc then default doc head else doc else doc),
    (if published_target m3 doc then default (trunk_of doc) head else doc).
  unfold reading_surface, deposit_surface. rewrite Eh. split_and!; try done.
  - case_bool_decide; case_decide; try done. by destruct (published_target m3 doc).
  - by destruct (published_target m3 doc).
  - case_decide; [|done]. destruct (published_target m3 doc); [|done].
    destruct head as [v|]; [|done]. cbn. naive_solver.
  - destruct (published_target m3 doc); [|done]. destruct head as [v|]; [|done]. cbn. naive_solver.
  - case_decide; [|done]. destruct (published_target m3 doc); [|done].
    destruct head as [v|]; [|done]. cbn. naive_solver.
  - destruct (published_target m3 doc); [|done].
    destruct head as [v|]; cbn; [naive_solver|apply trunk_idem].
Qed.

Lemma birth_version_ok m3 doc :
  level doc = Document →
  match birth_version m3 doc with
  | Panicked => False
  | Done None => ∀ v, namespace_of v = Some (version_ns (trunk_of doc)) → is_registered_document m3 v = false
  | Done (Some b) => is_birth_version b = true ∧ is_registered_document m3 b = true ∧ trunk_of b = trunk_of doc
  end.
Proof.
  intros Hl. unfold birth_version. pose proof (trunk_head_ok m3 doc) as H.
  destruct (trunk_head m3 doc) as [[v|]|]; cbn [mbind outcome_bind]; [|by apply H|done].
  destruct H as (_ & Hk & Hr & _ & _ & _).
  destruct (trunk_view doc Hl) as (n & u & c & vs & _ & _ & _ & _ & _ & Et & Hlt).
  destruct (first_version_address_ok (trunk_of doc)) as (o & Eo & Ho).
  unfold first_version_address. rewrite (total_Done _ _ o Eo). destruct o as [b|]; [|done].
  destruct Ho as [_ Eb].
  assert (Hkb : namespace_of b = Some (version_ns (trunk_of doc))).
  { apply namespace_of_Some. split; [apply key_ok_same|].
    assert (ordinal (tumbler b) = 1%N) as ->; [|done]. by eapply ordinal_app. }
  assert (Hlb : level b = Document) by (apply namespace_level in Hkb; by rewrite Hlt in Hkb).
  assert (Htb : trunk_of b = trunk_of doc) by (by eapply trunk_unique; [..|apply trunk_idem|exact Eb]).
  split_and!; [| |done].
  - unfold is_birth_version. rewrite Htb. apply andb_true_iff. split.
    + apply negb_true_iff, bool_decide_eq_false. intros E. rewrite E in Eb.
      apply (f_equal length) in Eb. rewrite length_app in Eb. cbn in Eb. lia.
    + apply bool_decide_eq_true. unfold first_version_address. by rewrite (total_Done _ _ _ Eo).
  - apply is_registered_document_ok in Hr as [Hlv Hv]. apply is_registered_document_ok. split; [done|].
    rewrite is_allocated_chain in Hv |- * by congruence. apply is_chain_member_ok in Hv as (k & Hk' & Hf & m & Hm & Hle).
    rewrite Hk in Hk'. injection Hk' as <-. apply is_chain_member_ok. exists (version_ns (trunk_of doc)).
    split; [done|]. rewrite (ordinal_app _ _ _ Eb). unfold member_of.
    assert (ghost_floor (version_ns (trunk_of doc)) = 0%N) as -> by (apply floor_zero; congruence).
    split; [lia|].
    exists m. split; [done|]. pose proof (ordinal_nonzero v). lia.
Qed.

(** The head-float (PUB-2.49 to PUB-2.66), of a registered document: none of the
    chain reads panics; a trunk is registered and answers for its members; the head is
    the trunk's greatest registered member and the birth version its first; a reader of
    a member or a private document answers itself and of a published trunk its head; a
    deposit lands on the head whichever address of the chain is named; both surfaces
    are registered documents of the same chain, and they differ only at a pinned
    member of a published chain. *)
Theorem surfaces_exact (m3 : M3State) (doc : Address) :
  reachable m3 → is_registered_document m3 doc = true →
  is_registered_document m3 (trunk_of doc) = true ∧
  ∃ head r d, trunk_head m3 doc = Done head ∧ reading_surface m3 doc = Done r ∧
    deposit_surface m3 doc = Done d ∧
    match head with
    | Some v => namespace_of v = Some (version_ns (trunk_of doc)) ∧ is_registered_document m3 v = true ∧
        (∀ w, namespace_of w = Some (version_ns (trunk_of doc)) → is_registered_document m3 w = true →
          (ordinal (tumbler w) ≤ ordinal (tumbler v))%N) ∧
        ∃ b, birth_version m3 doc = Done (Some b) ∧ is_birth_version b = true ∧ is_registered_document m3 b = true
    | None => birth_version m3 doc = Done None ∧
        ∀ v, namespace_of v = Some (version_ns (trunk_of doc)) → is_registered_document m3 v = false
    end ∧
    (trunk_of doc ≠ doc ∨ published_target m3 doc = false → r = doc) ∧
    (trunk_of doc = doc → published_target m3 doc = true → r = default doc head) ∧
    (published_target m3 doc = true → d = default (trunk_of doc) head) ∧
    (published_target m3 doc = false → d = doc) ∧
    (is_registered_document m3 r = true ∧ trunk_of r = trunk_of doc) ∧
    (is_registered_document m3 d = true ∧ trunk_of d = trunk_of doc) ∧
    (r ≠ d → trunk_of doc ≠ doc ∧ published_target m3 doc = true).
Proof.
  intros Hreach Hr. pose proof (reachable_ok m3 Hreach) as Hok. split; [by apply trunk_registered|].
  destruct (surfaces_ok m3 doc Hok Hr) as (head & r & d & Eh & Er & Ed & Hre & Hde & ? & ? & ? & ?).
  exists head, r, d. split; [done|]. split; [done|]. split; [done|]. split.
  - assert (Hl : level doc = Document) by by apply is_registered_document_ok in Hr as [? _].
    pose proof (trunk_head_ok m3 doc) as Hh. rewrite Eh in Hh. pose proof (birth_version_ok m3 doc Hl) as Hb.
    unfold birth_version in *. rewrite Eh in *. cbn [mbind outcome_bind] in *. destruct head as [v|].
    + destruct Hh as (_ & Hk & Hrv & _ & _ & Hmax). split_and!; [done|done|done|].
      destruct (first_version_address (trunk_of doc)) as [b|].
      * exists b. naive_solver.
      * specialize (Hb v Hk). congruence.
    + by split; [|apply Hh].
  - subst r d. destruct (decide (trunk_of doc = doc)) as [Ht|Ht], (published_target m3 doc);
      (split_and!; try done; try naive_solver).
    intros Hne. rewrite Ht in Hne. done.
Qed.

Lemma surfaces_exact_witness :
  is_registered_document M3State_genesis head_document = true ∧
  ∃ r, reading_surface M3State_genesis head_document = Done r ∧ trunk_of r = trunk_of head_document.
Proof.
  assert (Hr : is_registered_document M3State_genesis head_document = true) by (vm_compute; reflexivity).
  split; [exact Hr|].
  destruct (surfaces_exact M3State_genesis head_document (rtc_refl _ _) Hr) as (_ & head & r & d & _ & H).
  exists r. split; apply H.
Defined.
