(* ===== verification/ArrState.v ===== *)
(** * The arrangement state, its journal records and the fold

    Models [crates/skep-arrangement/src/state.rs]: the per-document arrangement,
    the seven-field state, the journal delta [M5Rec] and the fold [apply_m5],
    arm by arm; then the abstract machine the fold refines, the class
    invariants it preserves, and replay. Maps are finite maps; a [Seq] is the
    number it wraps. *)

From stdpp Require Import gmap.
From S2P Require Import Prelude Tumblers Addresses Arith Spans SpanSets Runs RunLists Provenance Chain.

Notation Seq := N (only parsing).

(** ** Data *)

Record DocArrangement := MkDocArrangement { content : RunList; link : RunList }.

Definition DocArrangement_default : DocArrangement :=
  MkDocArrangement RunList_default RunList_default.

Definition arr_list (a : DocArrangement) (subspace : Nat) : option RunList :=
  if (subspace =? content_subspace)%N then Some (content a)
  else if (subspace =? link_subspace)%N then Some (link a)
  else None.

Record Marker := MkMarker {
  mk_sides : list Address;
  mk_head : Address;
  mk_head_copied : Nat;
  mk_at : Seq
}.

Record Merge := MkMerge {
  mg_sides : list Address;
  mg_head : Address;
  mg_head_copied : Nat
}.

(** [From<&Marker> for Merge] *)
Definition Merge_from (m : Marker) : Merge := MkMerge (mk_sides m) (mk_head m) (mk_head_copied m).

Definition stamped (m : Merge) (at_ : Seq) : Marker :=
  MkMarker (mg_sides m) (mg_head m) (mg_head_copied m) at_.

Record DraftBase := MkDraftBase {
  db_base : Address;
  db_extent : Nat;
  db_source : Address;
  db_merge : option Marker
}.

Record ShotTerms := MkShotTerms { placed : Nat; base_extent : option Nat }.

Inductive M5Rec :=
  | ContentPlace (doc : Address) (ordinal : Nat) (runs : list Run)
  | ContentRemove (doc : Address) (from width : Nat)
  | ContentReorder (doc : Address) (cut_ordinals : list Nat)
  | LinkSeat (doc link : Address)
  | VersionSnapshot (source new : Address)
  | ShotPlace (doc : Address) (runs : list Run) (terms : ShotTerms) (draft : option Address)
  | DraftBaseRec (draft base : Address) (extent : Nat) (source : Address) (merge : option Merge).

Record M5State := MkM5State {
  arrangements : gmap Address DocArrangement;
  provenance : Provenance;
  birth_extents : gmap Address Nat;
  shot_terms : gmap Address ShotTerms;
  fork_sources : gmap Address Address;
  arranged_at : gmap Address Seq;
  draft_bases : gmap Address DraftBase
}.

Definition genesis : M5State := MkM5State ∅ Provenance_default ∅ ∅ ∅ ∅ ∅.

(** ** Reads of the maps *)

Definition arrangement_of (s : M5State) (doc : Address) : DocArrangement :=
  default DocArrangement_default (arrangements s !! doc).

Definition content_list (s : M5State) (doc : Address) : RunList := content (arrangement_of s doc).

Definition link_list (s : M5State) (doc : Address) : RunList := link (arrangement_of s doc).

Definition birth_extent (s : M5State) (member : Address) : option Nat := birth_extents s !! member.

Definition shot_terms_of (s : M5State) (member : Address) : option ShotTerms := shot_terms s !! member.

Definition arranged_at_of (s : M5State) (doc : Address) : option Seq := arranged_at s !! doc.

(** ** The fold *)

Definition arrangements_with_content (s : M5State) (doc : Address)
    (f : RunList → outcome RunList) : outcome (gmap Address DocArrangement) :=
  let arr := arrangement_of s doc in
  c ← f (content arr);
  Done (<[doc := MkDocArrangement c (link arr)]> (arrangements s)).

Definition arrangements_with_link (s : M5State) (doc : Address)
    (f : RunList → outcome RunList) : outcome (gmap Address DocArrangement) :=
  let arr := arrangement_of s doc in
  l ← f (link arr);
  Done (<[doc := MkDocArrangement (content arr) l]> (arrangements s)).

Definition birth_extents_noting (s : M5State) (doc : Address) (born_with : Nat) : gmap Address Nat :=
  if negb (is_birth_version doc) || bool_decide (is_Some (birth_extents s !! doc))
  then birth_extents s
  else <[doc := born_with]> (birth_extents s).

Definition apply_m5 (s : M5State) (at_ : Seq) (r : M5Rec) : outcome M5State :=
  let moved doc := <[doc := at_]> (arranged_at s) in
  match r with
  | ContentPlace doc ordinal runs =>
      arrs ← arrangements_with_content s doc (λ c, splice_in c ordinal runs);
      prov ← provenance_append (provenance s) doc runs;
      Done (MkM5State arrs prov (birth_extents s) (shot_terms s) (fork_sources s)
              (moved doc) (draft_bases s))
  | ShotPlace doc runs terms draft =>
      c ← splice_in (content_list s doc) 1 runs;
      let births := birth_extents_noting s doc (total_width c) in
      let all_terms := <[doc := terms]> (shot_terms s) in
      let bases :=
        match draft with
        | Some d =>
            let source := match draft_bases s !! d with Some standing => db_source standing | None => doc end in
            <[d := MkDraftBase doc (total_width c) source None]> (draft_bases s)
        | None => draft_bases s
        end in
      let ats := moved doc in
      if negb (nonemptyb runs) then
        Done (MkM5State (arrangements s) (provenance s) births all_terms (fork_sources s) ats bases)
      else
        arrs ← arrangements_with_content s doc (λ _, Done c);
        prov ← provenance_append (provenance s) doc runs;
        Done (MkM5State arrs prov births all_terms (fork_sources s) ats bases)
  | ContentRemove doc from width =>
      arrs ← arrangements_with_content s doc (λ c, remove_range c from width);
      Done (MkM5State arrs (provenance s) (birth_extents s) (shot_terms s) (fork_sources s)
              (moved doc) (draft_bases s))
  | ContentReorder doc cut_ordinals =>
      arrs ← arrangements_with_content s doc (λ c, reorder c cut_ordinals);
      Done (MkM5State arrs (provenance s) (birth_extents s) (shot_terms s) (fork_sources s)
              (moved doc) (draft_bases s))
  | LinkSeat doc link =>
      arrs ← match Run_new link 1 with
        | Ok seated => arrangements_with_link s doc (λ l, append l seated)
        | Err _ => Done (arrangements s)
        end;
      Done (MkM5State arrs (provenance s) (birth_extents s) (shot_terms s) (fork_sources s)
              (arranged_at s) (draft_bases s))
  | VersionSnapshot source new =>
      let c := content_list s source in
      let births := birth_extents_noting s new (total_width c) in
      let sources := <[new := source]> (fork_sources s) in
      let ats := moved new in
      if RunList_is_empty c then
        Done (MkM5State (arrangements s) (provenance s) births (shot_terms s) sources ats (draft_bases s))
      else
        prov ← provenance_append (provenance s) new (rl_runs c);
        let arr := MkDocArrangement c RunList_default in
        Done (MkM5State (<[new := arr]> (arrangements s)) prov births (shot_terms s) sources ats
                (draft_bases s))
  | DraftBaseRec draft base extent source merge =>
      Done (MkM5State (arrangements s) (provenance s) (birth_extents s) (shot_terms s)
              (fork_sources s) (arranged_at s)
              (<[draft := MkDraftBase base extent source ((λ m, stamped m at_) <$> merge)]>
                 (draft_bases s)))
  end.

Definition rebuild_derived (s : M5State) : M5State := s.

(** The journal folded from a state, record by record. *)
Fixpoint replay (s : M5State) (journal : list (Seq * M5Rec)) : outcome M5State :=
  match journal with
  | [] => Done s
  | (at_, r) :: journal => s' ← apply_m5 s at_ r; replay s' journal
  end.

(** ** The abstract machine

    A document is two sequences of addresses, its content and its links, and a
    record is a list operation on them. *)

Definition insert_at (ord : Nat) (new l : list Address) : list Address :=
  take (N.to_nat (ord - 1)) l ++ new ++ drop (N.to_nat (ord - 1)) l.

Definition remove_at (from width : Nat) (l : list Address) : list Address :=
  take (N.to_nat (from - 1)) l ++ drop (N.to_nat (from - 1) + N.to_nat width) l.

Definition tile (cuts : list Nat) (l : list Address) : list Address :=
  match last cuts with
  | None => l
  | Some lst =>
      let '(p, rs) := peel_flat (take (N.to_nat (lst - 1)) l) (rev (removelast cuts)) in
      p ++ concat rs ++ drop (N.to_nat (lst - 1)) l
  end.

Definition upd {V} (f : Address → V) (doc : Address) (v : V) : Address → V :=
  λ d, if decide (d = doc) then v else f d.

Record Docs := MkDocs { d_content : Address → list Address; d_link : Address → list Address }.

Definition spec_step (m : Docs) (r : M5Rec) : Docs :=
  let c := d_content m in
  let l := d_link m in
  match r with
  | ContentPlace doc ord runs => MkDocs (upd c doc (insert_at ord (flat runs) (c doc))) l
  | ShotPlace doc runs _ _ => MkDocs (upd c doc (insert_at 1 (flat runs) (c doc))) l
  | ContentRemove doc from width => MkDocs (upd c doc (remove_at from width (c doc))) l
  | ContentReorder doc cuts => MkDocs (upd c doc (tile cuts (c doc))) l
  | LinkSeat doc lk => if admits_start lk then MkDocs c (upd l doc (l doc ++ [lk])) else m
  | VersionSnapshot source new =>
      if decide (c source = []) then m
      else MkDocs (upd c new (c source)) (upd l new [])
  | DraftBaseRec _ _ _ _ _ => m
  end.

(** What a record places in a document: what R gains. *)
Definition placed_by (m : Docs) (r : M5Rec) (d : Address) : list Address :=
  match r with
  | ContentPlace doc _ runs | ShotPlace doc runs _ _ => if decide (d = doc) then flat runs else []
  | VersionSnapshot source new => if decide (d = new) then d_content m source else []
  | _ => []
  end.

(** What a state denotes. *)
Definition docs_of (s : M5State) : Docs :=
  MkDocs (λ d, vmap (content_list s d)) (λ d, vmap (link_list s d)).

Definition docs_eq (m n : Docs) : Prop :=
  (∀ d, d_content m d = d_content n d) ∧ (∀ d, d_link m d = d_link n d).

#[export] Instance docs_eq_equivalence : Equivalence docs_eq.
Proof.
  split.
  - by intros m.
  - intros m n [H1 H2]. by split.
  - intros m n o [H1 H2] [H3 H4]. split; intros d; [by rewrite H1|by rewrite H2].
Qed.

(** ** The invariants *)

(** A record's runs came through [Run]'s own doors. *)
Definition rec_ok (r : M5Rec) : Prop :=
  match r with
  | ContentPlace _ _ runs | ShotPlace _ runs _ _ => runs_ok runs
  | _ => True
  end.

Record state_ok (s : M5State) : Prop := {
  so_lists : map_Forall (λ _ a, RunList_ok (content a) ∧ RunList_ok (link a)) (arrangements s);
  so_provenance : provenance_ok (provenance s);
  (** P4★: present containment is recorded. *)
  so_recorded d a : a ∈ vmap (content_list s d) → any (recorded (provenance s) d) (tumbler a) = true
}.

(** ** Lookup through the updates *)

Lemma content_list_insert s s' doc arr d :
  arrangements s' = <[doc := arr]> (arrangements s) →
  content_list s' d = if decide (d = doc) then content arr else content_list s d.
Proof.
  intros E. unfold content_list, arrangement_of. rewrite E. destruct (decide (d = doc)) as [->|Hne].
  - by rewrite lookup_insert_eq.
  - by rewrite lookup_insert_ne by congruence.
Qed.

Lemma link_list_insert s s' doc arr d :
  arrangements s' = <[doc := arr]> (arrangements s) →
  link_list s' d = if decide (d = doc) then link arr else link_list s d.
Proof.
  intros E. unfold link_list, arrangement_of. rewrite E. destruct (decide (d = doc)) as [->|Hne].
  - by rewrite lookup_insert_eq.
  - by rewrite lookup_insert_ne by congruence.
Qed.

Lemma default_list_ok : RunList_ok RunList_default.
Proof. split; [apply runs_ok_nil|done]. Qed.

Lemma lists_ok s d : state_ok s → RunList_ok (content_list s d) ∧ RunList_ok (link_list s d).
Proof.
  intros H. unfold content_list, link_list, arrangement_of.
  destruct (arrangements s !! d) as [a|] eqn:E; cbn.
  - by apply (so_lists _ H d a E).
  - split; apply default_list_ok.
Qed.

Lemma reorder_tile l cuts :
  RunList_ok l → ∃ l', reorder l cuts = Done l' ∧ RunList_ok l' ∧ vmap l' = tile cuts (vmap l).
Proof.
  intros Hl. unfold tile. destruct (last cuts) as [lst|] eqn:E.
  - destruct (reorder_ok l cuts lst Hl E) as (l' & H1 & H2 & H3). exists l'. split_and!; [done|done|].
    by destruct (peel_flat _ _).
  - exists l. unfold reorder. by rewrite E.
Qed.

Lemma tile_perm cuts l : tile cuts l ≡ₚ l.
Proof.
  unfold tile. destruct (last cuts); [|done]. destruct (peel_flat _ _) as [p rs] eqn:E.
  rewrite app_assoc, (peel_flat_perm _ _ _ _ E). by rewrite take_drop.
Qed.

Lemma under_some_self l a : a ∈ l → under_some l (tumbler a).
Proof. intros H. exists a. split; [done|]. by apply is_prefix_spec. Qed.

(** One document's content replaced, its record lengthened by [es]: the invariants
    hold after when every new address is an old one or in [es]. *)
Lemma state_ok_content s s' doc arr es :
  state_ok s → arrangements s' = <[doc := arr]> (arrangements s) →
  RunList_ok (content arr) → RunList_ok (link arr) → provenance_ok (provenance s') →
  recorded (provenance s') doc = recorded (provenance s) doc ++ es →
  (∀ d, d ≠ doc → recorded (provenance s') d = recorded (provenance s) d) →
  (∀ a, a ∈ vmap (content arr) → a ∈ vmap (content_list s doc) ∨ any es (tumbler a) = true) →
  state_ok s'.
Proof.
  intros Hs Ha Hc Hl Hp Hrec Hother Hin. split; [|done|].
  - rewrite Ha. apply map_Forall_insert_2; [done|apply Hs].
  - intros d a. rewrite (content_list_insert s s' doc arr d Ha).
    destruct (decide (d = doc)) as [->|Hne].
    + rewrite Hrec, any_app. intros [Ho|Hn]%Hin; [by rewrite (so_recorded _ Hs doc a Ho)|].
      by rewrite Hn, orb_true_r.
    + rewrite (Hother d Hne). apply Hs.
Qed.

(** The arrangement maps and R untouched. *)
Lemma state_ok_same s s' :
  state_ok s → arrangements s' = arrangements s → provenance s' = provenance s → state_ok s'.
Proof.
  intros [H1 H2 H3] Ea Ep. split; [by rewrite Ea|by rewrite Ep|].
  intros d a. unfold content_list, arrangement_of. rewrite Ea, Ep. apply H3.
Qed.

(** R grows: each document's record is lengthened by spans covering exactly what
    [pl] says was placed there. *)
Definition grows (p p' : Provenance) (pl : Address → list Address) : Prop :=
  ∀ d, ∃ es, recorded p' d = recorded p d ++ es ∧ ∀ t, any es t = true ↔ under_some (pl d) t.

Definition nothing : Address → list Address := λ _, [].

Definition only (doc : Address) (l : list Address) : Address → list Address := upd nothing doc l.

(** What a fold step owes: the invariants, the abstract step, and R growing. *)
Record step_ok (s s' : M5State) (r : M5Rec) : Prop := {
  step_state : state_ok s';
  step_docs : docs_eq (docs_of s') (spec_step (docs_of s) r);
  step_records : grows (provenance s) (provenance s') (placed_by (docs_of s) r)
}.

Lemma under_some_nil t : ¬ under_some [] t.
Proof. intros (a & Ha & _). by apply elem_of_nil in Ha. Qed.

Lemma grows_nothing p pl : (∀ d, pl d = []) → grows p p pl.
Proof.
  intros H d. exists []. rewrite app_nil_r, H. split; [done|]. intros t.
  split; [done|]. by intros ?%under_some_nil.
Qed.

Lemma grows_only p p' doc es l :
  recorded p' doc = recorded p doc ++ es → (∀ d, d ≠ doc → recorded p' d = recorded p d) →
  (∀ t, any es t = true ↔ under_some l t) → grows p p' (only doc l).
Proof.
  intros H1 H2 H3 d. unfold only, upd. destruct (decide (d = doc)) as [->|Hne]; [by exists es|].
  rewrite H2 by done. by apply grows_nothing.
Qed.

(** The arms that place runs into one document's content. *)
Lemma step_place s s' doc c runs ord :
  state_ok s → runs_ok runs → RunList_ok c →
  vmap c = insert_at ord (flat runs) (vmap (content_list s doc)) →
  arrangements s' = <[doc := MkDocArrangement c (link_list s doc)]> (arrangements s) →
  provenance_append (provenance s) doc runs = Done (provenance s') →
  state_ok s' ∧
  docs_eq (docs_of s') (MkDocs (upd (d_content (docs_of s)) doc (vmap c)) (d_link (docs_of s))) ∧
  grows (provenance s) (provenance s') (only doc (flat runs)).
Proof.
  intros Hs Hr Hc Hv Ha Hp.
  destruct (provenance_append_ok (provenance s) doc runs (so_provenance _ Hs) Hr)
    as (p' & es & E & Hpo & Hrec & Hes & Hother).
  rewrite E in Hp. injection Hp as Ep. rewrite Ep in *. split_and!.
  - apply (state_ok_content s s' doc _ es Hs Ha); try done; [by apply lists_ok|].
    intros a. cbn. rewrite Hv. unfold insert_at. rewrite !elem_of_app.
    intros [Hin|[Hin|Hin]]; [left|right|left].
    + rewrite <- (take_drop (N.to_nat (ord - 1)) (vmap _)). apply elem_of_app. by left.
    + apply Hes. by apply under_some_self.
    + rewrite <- (take_drop (N.to_nat (ord - 1)) (vmap _)). apply elem_of_app. by right.
  - split; intros d; cbn.
    + rewrite (content_list_insert s s' doc _ d Ha). unfold upd. by destruct (decide (d = doc)).
    + rewrite (link_list_insert s s' doc _ d Ha). by destruct (decide (d = doc)) as [->|].
  - by apply (grows_only _ _ doc es).
Qed.

(** The arms that only rearrange or drop one document's content. *)
Lemma step_content s s' doc c :
  state_ok s → RunList_ok c → (∀ a, a ∈ vmap c → a ∈ vmap (content_list s doc)) →
  arrangements s' = <[doc := MkDocArrangement c (link_list s doc)]> (arrangements s) →
  provenance s' = provenance s →
  state_ok s' ∧
  docs_eq (docs_of s') (MkDocs (upd (d_content (docs_of s)) doc (vmap c)) (d_link (docs_of s))) ∧
  grows (provenance s) (provenance s') nothing.
Proof.
  intros Hs Hc Hin Ha Hp. split_and!.
  - apply (state_ok_content s s' doc _ [] Hs Ha); try done; [by apply lists_ok|..].
    + rewrite Hp. apply Hs.
    + by rewrite Hp, app_nil_r.
    + intros d _. by rewrite Hp.
    + intros a Hx. left. by apply Hin.
  - split; intros d; cbn.
    + rewrite (content_list_insert s s' doc _ d Ha). unfold upd. by destruct (decide (d = doc)).
    + rewrite (link_list_insert s s' doc _ d Ha). by destruct (decide (d = doc)) as [->|].
  - rewrite Hp. by apply grows_nothing.
Qed.

Lemma docs_of_same s s' : arrangements s' = arrangements s → docs_eq (docs_of s') (docs_of s).
Proof. intros E. unfold docs_of, content_list, link_list, arrangement_of. by rewrite E. Qed.

Lemma step_same s s' :
  state_ok s → arrangements s' = arrangements s → provenance s' = provenance s →
  state_ok s' ∧ docs_eq (docs_of s') (docs_of s) ∧
  grows (provenance s) (provenance s') nothing.
Proof.
  intros Hs Ha Hp. split_and!; [by eapply state_ok_same|by apply docs_of_same|rewrite Hp; by apply grows_nothing].
Qed.

Lemma sample_seat_ok link : admits_start link = true → run_ok (MkRun link 1).
Proof. intros H. split; [cbn; lia|done]. Qed.

(** The link seat appends one address to one document's links. *)
Lemma step_link s s' doc l :
  state_ok s → RunList_ok l →
  arrangements s' = <[doc := MkDocArrangement (content_list s doc) l]> (arrangements s) →
  provenance s' = provenance s →
  state_ok s' ∧
  docs_eq (docs_of s') (MkDocs (d_content (docs_of s)) (upd (d_link (docs_of s)) doc (vmap l))) ∧
  grows (provenance s) (provenance s') nothing.
Proof.
  intros Hs Hl Ha Hp. split_and!.
  - apply (state_ok_content s s' doc _ [] Hs Ha); try done; [by apply lists_ok|..].
    + rewrite Hp. apply Hs.
    + by rewrite Hp, app_nil_r.
    + intros d _. by rewrite Hp.
    + intros a Hx. by left.
  - split; intros d; cbn.
    + rewrite (content_list_insert s s' doc _ d Ha). by destruct (decide (d = doc)) as [->|].
    + rewrite (link_list_insert s s' doc _ d Ha). unfold upd. by destruct (decide (d = doc)).
  - rewrite Hp. by apply grows_nothing.
Qed.

(** The snapshot shares a non-empty source's content into [new], links empty. *)
Lemma step_share s s' source new :
  state_ok s → arrangements s' = <[new := MkDocArrangement (content_list s source) RunList_default]>
    (arrangements s) →
  provenance_append (provenance s) new (rl_runs (content_list s source)) = Done (provenance s') →
  state_ok s' ∧
  docs_eq (docs_of s') (MkDocs (upd (d_content (docs_of s)) new (d_content (docs_of s) source))
    (upd (d_link (docs_of s)) new [])) ∧
  grows (provenance s) (provenance s') (only new (d_content (docs_of s) source)).
Proof.
  intros Hs Ha Hp. pose proof (proj1 (lists_ok s source Hs)) as Hc.
  destruct (provenance_append_ok (provenance s) new (rl_runs (content_list s source))
    (so_provenance _ Hs) (rl_ok _ Hc)) as (p' & es & E & Hpo & Hrec & Hes & Hother).
  rewrite E in Hp. injection Hp as Ep. rewrite Ep in *. split_and!.
  - apply (state_ok_content s s' new _ es Hs Ha); try done.
    intros a Hin. right. apply Hes. by apply under_some_self.
  - split; intros d; cbn.
    + rewrite (content_list_insert s s' new _ d Ha). unfold upd. by destruct (decide (d = new)).
    + rewrite (link_list_insert s s' new _ d Ha). unfold upd. by destruct (decide (d = new)).
  - by apply (grows_only _ _ new es).
Qed.

Lemma nonemptyb_runs_flat l : RunList_ok l → RunList_is_empty l = bool_decide (vmap l = []).
Proof.
  intros [Hl _]. unfold RunList_is_empty, vmap. destruct (rl_runs l) as [|r k]; [done|]. cbn.
  symmetry. apply bool_decide_eq_false. intros E. apply runs_ok_cons in Hl as [Hr _].
  pose proof (flat_head r k Hr) as H. by rewrite E in H.
Qed.

Lemma insert_at_nil l : insert_at 1 [] l = l.
Proof. unfold insert_at. by rewrite take_drop. Qed.

Lemma upd_same {V} (f : Address → V) doc d : upd f doc (f doc) d = f d.
Proof. unfold upd. by destruct (decide (d = doc)) as [->|]. Qed.

(** *** Arm by arm *)

Lemma step_of s s' r m pl :
  spec_step (docs_of s) r = m → (∀ d, placed_by (docs_of s) r d = pl d) →
  state_ok s' ∧ docs_eq (docs_of s') m ∧ grows (provenance s) (provenance s') pl → step_ok s s' r.
Proof.
  intros <- Hpl (? & ? & Hg). split; [done|done|]. intros d. rewrite Hpl. apply Hg.
Qed.

Lemma apply_place s at_ doc ord runs :
  state_ok s → runs_ok runs →
  ∃ s', apply_m5 s at_ (ContentPlace doc ord runs) = Done s' ∧ step_ok s s' (ContentPlace doc ord runs).
Proof.
  intros Hs Hr. cbn [apply_m5]. unfold arrangements_with_content. fold (content_list s doc).
  destruct (splice_in_ok _ ord runs (proj1 (lists_ok s doc Hs)) Hr) as (c & -> & Hc & Hv). cbn.
  destruct (provenance_append_ok _ doc runs (so_provenance _ Hs) Hr) as (p & es & E & _).
  rewrite E. eexists. split; [reflexivity|].
  eapply step_of; [cbn; unfold insert_at; rewrite <- Hv; reflexivity|reflexivity|].
  by eapply step_place.
Qed.

Lemma apply_remove s at_ doc from w :
  state_ok s →
  ∃ s', apply_m5 s at_ (ContentRemove doc from w) = Done s' ∧ step_ok s s' (ContentRemove doc from w).
Proof.
  intros Hs. cbn [apply_m5]. unfold arrangements_with_content. fold (content_list s doc).
  destruct (remove_range_ok _ from w (proj1 (lists_ok s doc Hs))) as (c & -> & Hc & Hv). cbn.
  eexists. split; [reflexivity|].
  eapply step_of; [cbn; unfold remove_at; rewrite <- Hv; reflexivity|reflexivity|].
  eapply step_content; [done|done| |done|done].
  intros a. rewrite Hv, elem_of_app. intros [H|H].
  - rewrite <- (take_drop (N.to_nat (from - 1)) (vmap _)). apply elem_of_app. by left.
  - rewrite <- (take_drop (N.to_nat (from - 1) + N.to_nat w) (vmap _)). apply elem_of_app. by right.
Qed.

Lemma apply_reorder s at_ doc cuts :
  state_ok s →
  ∃ s', apply_m5 s at_ (ContentReorder doc cuts) = Done s' ∧ step_ok s s' (ContentReorder doc cuts).
Proof.
  intros Hs. cbn [apply_m5]. unfold arrangements_with_content. fold (content_list s doc).
  destruct (reorder_tile _ cuts (proj1 (lists_ok s doc Hs))) as (c & -> & Hc & Hv). cbn.
  eexists. split; [reflexivity|].
  eapply step_of; [cbn; rewrite <- Hv; reflexivity|reflexivity|].
  eapply step_content; [done|done| |done|done].
  intros a. by rewrite Hv, tile_perm.
Qed.

Lemma Run_new_seat lk :
  Run_new lk 1 = if admits_start lk then Ok (MkRun lk 1) else Err NotAnElementPosition.
Proof. unfold Run_new. rewrite nat_is_zero_eqb. cbn. by destruct (admits_start lk). Qed.

Lemma addrs_seat lk : addrs (MkRun lk 1) = [lk].
Proof. transitivity [addr_shift lk 0%N]; [reflexivity|by rewrite addr_shift_0]. Qed.

Lemma apply_seat s at_ doc lk :
  state_ok s →
  ∃ s', apply_m5 s at_ (LinkSeat doc lk) = Done s' ∧ step_ok s s' (LinkSeat doc lk).
Proof.
  intros Hs. cbn [apply_m5]. rewrite Run_new_seat. unfold arrangements_with_link.
  fold (link_list s doc). destruct (admits_start lk) eqn:Ha.
  - destruct (append_ok (link_list s doc) (MkRun lk 1) (proj2 (lists_ok s doc Hs)))
      as (l & -> & Hl & Hv); [by apply sample_seat_ok|]. cbn.
    eexists. split; [reflexivity|]. rewrite addrs_seat in Hv.
    eapply step_of; [cbn; rewrite Ha, <- Hv; reflexivity|reflexivity|]. by eapply step_link.
  - cbn. eexists. split; [reflexivity|].
    eapply step_of; [cbn; rewrite Ha; reflexivity|done|]. by apply step_same.
Qed.

Lemma apply_snapshot s at_ source new :
  state_ok s →
  ∃ s', apply_m5 s at_ (VersionSnapshot source new) = Done s' ∧ step_ok s s' (VersionSnapshot source new).
Proof.
  intros Hs. cbn [apply_m5]. pose proof (proj1 (lists_ok s source Hs)) as Hc.
  rewrite (nonemptyb_runs_flat _ Hc). case_bool_decide as He.
  - eexists. split; [reflexivity|].
    eapply (step_of _ _ _ _ nothing); [cbn; rewrite decide_True by done; reflexivity|intros d; cbn; by case_decide|]. by apply step_same.
  - destruct (provenance_append_ok _ new _ (so_provenance _ Hs) (rl_ok _ Hc)) as (p & es & E & _).
    rewrite E. cbn. eexists. split; [reflexivity|].
    eapply step_of; [cbn; rewrite decide_False by done; reflexivity|reflexivity|]. by apply step_share.
Qed.

Lemma apply_shot s at_ doc runs terms draft :
  state_ok s → runs_ok runs →
  ∃ s', apply_m5 s at_ (ShotPlace doc runs terms draft) = Done s' ∧
    step_ok s s' (ShotPlace doc runs terms draft).
Proof.
  intros Hs Hr. cbn [apply_m5]. unfold arrangements_with_content. fold (content_list s doc).
  destruct (splice_in_ok _ 1 runs (proj1 (lists_ok s doc Hs)) Hr) as (c & -> & Hc & Hv).
  cbn [mbind outcome_bind]. destruct runs as [|r runs]; cbn [nonemptyb negb].
  - eexists. split; [reflexivity|].
    eapply (step_of _ _ _ _ nothing); [reflexivity|intros d; cbn; by case_decide|].
    match goal with |- _ ∧ docs_eq (docs_of ?s2) _ ∧ _ => destruct (step_same s s2) as (H1 & H2 & H3) end;
      [done|done|done|].
    split_and!; [done| |done]. etransitivity; [exact H2|].
    split; intros d; cbn; [|done]. rewrite flat_nil, insert_at_nil.
    by rewrite (upd_same (λ d, vmap (content_list s d))).
  - destruct (provenance_append_ok _ doc (r :: runs) (so_provenance _ Hs) Hr) as (p & es & E & _).
    rewrite E. cbn [mbind outcome_bind]. eexists. split; [reflexivity|].
    eapply (step_of _ _ _ _ (only doc (flat (r :: runs))));
      [cbn; unfold insert_at; rewrite <- Hv; reflexivity|done|].
    by eapply step_place.
Qed.

(** The fold: total on well-formed input, a step of the abstract machine, the
    invariants and R's history kept. *)
Lemma apply_m5_ok s at_ r :
  state_ok s → rec_ok r → ∃ s', apply_m5 s at_ r = Done s' ∧ step_ok s s' r.
Proof.
  intros Hs Hr. destruct r; [by apply apply_place|by apply apply_remove|by apply apply_reorder
    |by apply apply_seat|by apply apply_snapshot|by apply apply_shot|].
  eexists. split; [reflexivity|]. eapply step_of; [reflexivity|done|]. by apply step_same.
Qed.

(** ** What the records say about the metadata fields *)

(** Whether a record changes [doc]'s content arrangement. *)
Definition touches (r : M5Rec) (doc : Address) : bool :=
  match r with
  | ContentPlace d _ _ | ContentRemove d _ _ | ContentReorder d _ | ShotPlace d _ _ _
  | VersionSnapshot _ d => bool_decide (d = doc)
  | LinkSeat _ _ | DraftBaseRec _ _ _ _ _ => false
  end.

(** What a minting record leaves its member holding. *)
Definition minted (m : Docs) (r : M5Rec) (doc : Address) : option (list Address) :=
  match r with
  | ShotPlace d runs _ _ => if decide (d = doc) then Some (insert_at 1 (flat runs) (d_content m d)) else None
  | VersionSnapshot source d => if decide (d = doc) then Some (d_content m source) else None
  | _ => None
  end.

Definition count (l : list Address) : Nat := N.of_nat (length l).

(** The birth extent a record notes: a birth version's, at its mint. *)
Definition notes_birth (m : Docs) (r : M5Rec) (doc : Address) : option Nat :=
  if is_birth_version doc then count <$> minted m r doc else None.

Definition notes_terms (r : M5Rec) (doc : Address) : option ShotTerms :=
  match r with ShotPlace d _ terms _ => if decide (d = doc) then Some terms else None | _ => None end.

Definition notes_source (r : M5Rec) (doc : Address) : option Address :=
  match r with VersionSnapshot src d => if decide (d = doc) then Some src else None | _ => None end.

(** The base entry after a record, from the one standing. *)
Definition moves_base (m : Docs) (at_ : Seq) (r : M5Rec) (draft : Address)
    (standing : option DraftBase) : option DraftBase :=
  match r with
  | ShotPlace doc runs _ (Some d) =>
      if decide (d = draft)
      then Some (MkDraftBase doc (count (insert_at 1 (flat runs) (d_content m doc)))
                   (default doc (db_source <$> standing)) None)
      else standing
  | DraftBaseRec d base extent src merge =>
      if decide (d = draft)
      then Some (MkDraftBase base extent src ((λ mg, stamped mg at_) <$> merge)) else standing
  | _ => standing
  end.

(** The five fields after a record, in terms of the abstract documents before it. *)
Record meta_ok (s s' : M5State) (at_ : Seq) (r : M5Rec) : Prop := {
  meta_birth m : birth_extents s' !! m =
    match birth_extents s !! m with Some e => Some e | None => notes_birth (docs_of s) r m end;
  meta_terms m : shot_terms s' !! m =
    match notes_terms r m with Some t => Some t | None => shot_terms s !! m end;
  meta_source d : fork_sources s' !! d =
    match notes_source r d with Some a => Some a | None => fork_sources s !! d end;
  meta_moved d : arranged_at s' !! d = if touches r d then Some at_ else arranged_at s !! d;
  meta_base d : draft_bases s' !! d = moves_base (docs_of s) at_ r d (draft_bases s !! d)
}.

Lemma insert_lookup {V} (m : gmap Address V) k v i :
  <[k := v]> m !! i = if decide (k = i) then Some v else m !! i.
Proof. apply lookup_insert. Qed.

Lemma insert_lookup_bool {V} (m : gmap Address V) k v i :
  <[k := v]> m !! i = if bool_decide (k = i) then Some v else m !! i.
Proof. rewrite insert_lookup. by case_decide; case_bool_decide. Qed.

Lemma noting_lookup s doc e m :
  birth_extents_noting s doc e !! m =
  match birth_extents s !! m with
  | Some x => Some x
  | None => if is_birth_version m then (if decide (doc = m) then Some e else None) else None
  end.
Proof.
  unfold birth_extents_noting. destruct (is_birth_version doc) eqn:Hb; cbn.
  - case_bool_decide as Hs.
    + destruct (birth_extents s !! m) eqn:E; [done|].
      destruct (decide (doc = m)) as [->|]; [|by destruct (is_birth_version m)].
      rewrite E in Hs. by destruct Hs.
    + rewrite insert_lookup. destruct (decide (doc = m)) as [->|].
      * rewrite Hb. destruct (birth_extents s !! m); [|done]. exfalso. by apply Hs.
      * destruct (birth_extents s !! m); [done|]. by destruct (is_birth_version m).
  - destruct (birth_extents s !! m); [done|]. destruct (is_birth_version m) eqn:Hm; [|done].
    destruct (decide (doc = m)) as [->|]; [congruence|done].
Qed.

Lemma spliced_count s doc runs c :
  state_ok s → runs_ok runs → splice_in (content_list s doc) 1 runs = Done c →
  total_width c = count (insert_at 1 (flat runs) (vmap (content_list s doc))).
Proof.
  intros Hs Hr E. destruct (splice_in_ok _ 1 runs (proj1 (lists_ok s doc Hs)) Hr) as (c' & E' & _ & Hv).
  rewrite E in E'. injection E' as <-. unfold insert_at. rewrite <- Hv. apply total_width_flat.
Qed.

(** The arms other than the two mints note no birth, no terms, no source. *)
Lemma meta_plain s s' at_ r :
  (∀ m, notes_birth (docs_of s) r m = None) → (∀ d, notes_terms r d = None) →
  (∀ d, notes_source r d = None) → (∀ d b, moves_base (docs_of s) at_ r d b = b) →
  birth_extents s' = birth_extents s → shot_terms s' = shot_terms s →
  fork_sources s' = fork_sources s → draft_bases s' = draft_bases s →
  (∀ d, arranged_at s' !! d = if touches r d then Some at_ else arranged_at s !! d) →
  meta_ok s s' at_ r.
Proof.
  intros Hb Ht Hf Hd Eb Et Ef Ed Ha. split; [| | |done|].
  - intros m. rewrite Hb, Eb. by destruct (_ !! m).
  - intros d. by rewrite Ht, Et.
  - intros d. by rewrite Hf, Ef.
  - intros d. by rewrite Hd, Ed.
Qed.

Lemma notes_birth_none m r : (∀ d, minted m r d = None) → ∀ d, notes_birth m r d = None.
Proof. intros H d. unfold notes_birth. rewrite H. by destruct (is_birth_version d). Qed.

Lemma meta_shot s s' at_ doc runs terms draft c :
  state_ok s → runs_ok runs → splice_in (content_list s doc) 1 runs = Done c →
  birth_extents s' = birth_extents_noting s doc (total_width c) →
  shot_terms s' = <[doc := terms]> (shot_terms s) → fork_sources s' = fork_sources s →
  arranged_at s' = <[doc := at_]> (arranged_at s) →
  draft_bases s' =
    match draft with
    | Some d =>
        let source := match draft_bases s !! d with Some standing => db_source standing | None => doc end in
        <[d := MkDraftBase doc (total_width c) source None]> (draft_bases s)
    | None => draft_bases s
    end →
  meta_ok s s' at_ (ShotPlace doc runs terms draft).
Proof.
  intros Hs Hr Hc Eb Et Ef Ea Ed. rewrite (spliced_count s doc runs c Hs Hr Hc) in *. split; intros d.
  - rewrite Eb, noting_lookup. unfold notes_birth. cbn. by destruct (decide (doc = d)) as [->|].
  - rewrite Et, insert_lookup. cbn. by destruct (decide (doc = d)).
  - by rewrite Ef.
  - by rewrite Ea, insert_lookup_bool.
  - rewrite Ed. destruct draft as [x|]; [|done]. rewrite insert_lookup. cbn.
    destruct (decide (x = d)) as [->|]; [|done]. by destruct (draft_bases s !! d).
Qed.

Lemma meta_snapshot s s' at_ source new :
  birth_extents s' = birth_extents_noting s new (total_width (content_list s source)) →
  shot_terms s' = shot_terms s → fork_sources s' = <[new := source]> (fork_sources s) →
  arranged_at s' = <[new := at_]> (arranged_at s) → draft_bases s' = draft_bases s →
  meta_ok s s' at_ (VersionSnapshot source new).
Proof.
  intros Eb Et Ef Ea Ed. rewrite total_width_flat in Eb. split; intros d.
  - rewrite Eb, noting_lookup. unfold notes_birth. cbn. by destruct (decide (new = d)) as [->|].
  - by rewrite Et.
  - rewrite Ef, insert_lookup. cbn. by destruct (decide (new = d)).
  - by rewrite Ea, insert_lookup_bool.
  - by rewrite Ed.
Qed.

Lemma apply_meta s s' at_ r :
  state_ok s → rec_ok r → apply_m5 s at_ r = Done s' → meta_ok s s' at_ r.
Proof.
  intros Hs Hr H. destruct r; cbn [apply_m5] in H; cbn [rec_ok] in Hr.
  - apply bind_inv in H as (a & _ & (p & _ & [= <-])%bind_inv).
    apply meta_plain; try done; [by apply notes_birth_none|]. intros d. apply insert_lookup_bool.
  - apply bind_inv in H as (a & _ & [= <-]).
    apply meta_plain; try done; [by apply notes_birth_none|]. intros d. apply insert_lookup_bool.
  - apply bind_inv in H as (a & _ & [= <-]).
    apply meta_plain; try done; [by apply notes_birth_none|]. intros d. apply insert_lookup_bool.
  - apply bind_inv in H as (a & _ & [= <-]).
    apply meta_plain; try done. by apply notes_birth_none.
  - destruct (RunList_is_empty _); [injection H as <-|apply bind_inv in H as (p & _ & [= <-])];
      by apply meta_snapshot.
  - apply bind_inv in H as (c & Hc & H).
    destruct (nonemptyb runs); cbn in H;
      [apply bind_inv in H as (p & _ & [= <-])|injection H as <-]; by eapply meta_shot.
  - injection H as <-. split; intros m; cbn.
    + unfold notes_birth. cbn. destruct (is_birth_version m); by destruct (birth_extents s !! m).
    + done.
    + done.
    + done.
    + rewrite insert_lookup. by destruct (decide (draft = m)).
Qed.

(** ** Replay *)

Lemma upd_ext {V} (f g : Address → V) doc v w :
  (∀ d, f d = g d) → v = w → ∀ d, upd f doc v d = upd g doc w d.
Proof. intros H -> d. unfold upd. by rewrite H. Qed.

#[export] Instance spec_step_proper : Proper (docs_eq ==> eq ==> docs_eq) spec_step.
Proof.
  intros m n [Hc Hl] r ? <-. destruct r; cbn; try rewrite !Hc; try rewrite !Hl; try done.
  - split; [by apply upd_ext|done].
  - split; [by apply upd_ext|done].
  - split; [by apply upd_ext|done].
  - destruct (admits_start _); split; cbn; try done. by apply upd_ext.
  - destruct (decide _); split; cbn; try done; by apply upd_ext.
  - split; [by apply upd_ext|done].
Qed.

#[export] Instance placed_by_proper : Proper (docs_eq ==> eq ==> eq ==> eq) placed_by.
Proof. intros m n [Hc _] r ? <- d ? <-. destruct r; cbn; try done. by rewrite Hc. Qed.

#[export] Instance notes_birth_proper : Proper (docs_eq ==> eq ==> eq ==> eq) notes_birth.
Proof.
  intros m n [Hc _] r ? <- d ? <-. unfold notes_birth, minted. destruct r; try done; by rewrite Hc.
Qed.

#[export] Instance moves_base_proper :
  Proper (docs_eq ==> eq ==> eq ==> eq ==> eq ==> eq) moves_base.
Proof.
  intros m n [Hc _] a ? <- r ? <- d ? <- b ? <-. unfold moves_base. destruct r; try done.
  by rewrite Hc.
Qed.

Notation journal := (list (Seq * M5Rec)).

Definition spec_run (m : Docs) (j : journal) : Docs := foldl (λ m e, spec_step m e.2) m j.

(** Everything a journal ever placed in a document, in order. *)
Fixpoint history (m : Docs) (j : journal) (d : Address) : list Address :=
  match j with
  | [] => []
  | e :: j => placed_by m e.2 d ++ history (spec_step m e.2) j d
  end.

(** The first mint of a birth version fixes its extent. *)
Fixpoint born_with (m : Docs) (j : journal) (d : Address) : option Nat :=
  match j with
  | [] => None
  | e :: j => match notes_birth m e.2 d with Some n => Some n | None => born_with (spec_step m e.2) j d end
  end.

(** The last record to say something. *)
Fixpoint last_noted {A} (note : Seq * M5Rec → option A) (j : journal) : option A :=
  match j with
  | [] => None
  | e :: j => match last_noted note j with Some a => Some a | None => note e end
  end.

Definition last_move (j : journal) (d : Address) : option Seq :=
  last_noted (λ e, if touches e.2 d then Some e.1 else None) j.

Fixpoint base_of (m : Docs) (j : journal) (d : Address) (standing : option DraftBase) : option DraftBase :=
  match j with
  | [] => standing
  | e :: j => base_of (spec_step m e.2) j d (moves_base m e.1 e.2 d standing)
  end.

#[export] Instance spec_run_proper : Proper (docs_eq ==> eq ==> docs_eq) spec_run.
Proof.
  intros m n H j ? <-. revert m n H. induction j as [|e j IH]; intros m n H; [done|].
  unfold spec_run. cbn [foldl]. apply IH. by rewrite H.
Qed.

#[export] Instance history_proper : Proper (docs_eq ==> eq ==> eq ==> eq) history.
Proof.
  intros m n H j ? <- d ? <-. revert m n H. induction j as [|e j IH]; intros m n H; [done|].
  cbn. f_equal; [by rewrite H|apply IH; by rewrite H].
Qed.

#[export] Instance born_with_proper : Proper (docs_eq ==> eq ==> eq ==> eq) born_with.
Proof.
  intros m n H j ? <- d ? <-. revert m n H. induction j as [|e j IH]; intros m n H; [done|].
  cbn. assert (E : notes_birth m e.2 d = notes_birth n e.2 d) by by rewrite H. rewrite E.
  destruct (notes_birth n e.2 d); [done|]. apply IH. by rewrite H.
Qed.

#[export] Instance base_of_proper : Proper (docs_eq ==> eq ==> eq ==> eq ==> eq) base_of.
Proof.
  intros m n H j ? <- d ? <- b ? <-. revert m n b H. induction j as [|e j IH]; intros m n b H; [done|].
  cbn. assert (E : moves_base m e.1 e.2 d b = moves_base n e.1 e.2 d b) by by rewrite H.
  rewrite E. apply IH. by rewrite H.
Qed.

Lemma grows_cons p p1 p2 f g :
  grows p p1 f → grows p1 p2 g → grows p p2 (λ d, f d ++ g d).
Proof.
  intros H1 H2 d. destruct (H1 d) as (e1 & E1 & D1), (H2 d) as (e2 & E2 & D2).
  exists (e1 ++ e2). rewrite E2, E1, app_assoc. split; [done|].
  intros t. by rewrite any_app, orb_true_iff, D1, D2, under_some_app.
Qed.

(** What a replay owes, from any well-formed state. *)
Record replay_result (s s' : M5State) (j : journal) : Prop := {
  rr_state : state_ok s';
  rr_docs : docs_eq (docs_of s') (spec_run (docs_of s) j);
  rr_records : grows (provenance s) (provenance s') (history (docs_of s) j);
  rr_birth m : birth_extents s' !! m =
    match birth_extents s !! m with Some e => Some e | None => born_with (docs_of s) j m end;
  rr_terms m : shot_terms s' !! m =
    match last_noted (λ e, notes_terms e.2 m) j with Some t => Some t | None => shot_terms s !! m end;
  rr_source d : fork_sources s' !! d =
    match last_noted (λ e, notes_source e.2 d) j with Some a => Some a | None => fork_sources s !! d end;
  rr_moved d : arranged_at s' !! d =
    match last_move j d with Some a => Some a | None => arranged_at s !! d end;
  rr_base d : draft_bases s' !! d = base_of (docs_of s) j d (draft_bases s !! d)
}.

Definition journal_ok (j : journal) : Prop := Forall (λ e, rec_ok e.2) j.

Lemma replay_ok s j :
  state_ok s → journal_ok j → ∃ s', replay s j = Done s' ∧ replay_result s s' j.
Proof.
  intros Hs Hj. revert s Hs. induction Hj as [|[at_ r] j Hr Hj IH]; intros s Hs; cbn [replay].
  - exists s. split; [done|]. split; try done; [by apply grows_nothing|].
    intros m. by destruct (birth_extents s !! m).
  - destruct (apply_m5_ok s at_ r Hs Hr) as (s1 & E1 & [Hs1 Hd1 Hg1]).
    pose proof (apply_meta s s1 at_ r Hs Hr E1) as [B1 T1 F1 A1 D1]. rewrite E1. cbn [mbind outcome_bind].
    destruct (IH s1 Hs1) as (s' & E2 & [Hs2 Hd2 Hg2 B2 T2 F2 A2 D2]). exists s'. split; [done|].
    split; [done| | | | | | |].
    + rewrite Hd2, Hd1. done.
    + intros d. destruct (grows_cons _ _ _ _ _ Hg1 Hg2 d) as (es & E & D). exists es.
      split; [done|]. intros t. rewrite D. cbn. by rewrite Hd1.
    + intros m. assert (E : born_with (docs_of s1) j m = born_with (spec_step (docs_of s) r) j m)
        by by rewrite Hd1.
      rewrite B2, B1, E. cbn. by destruct (birth_extents s !! m).
    + intros m. rewrite T2, T1. cbn. by destruct (last_noted _ j).
    + intros d. rewrite F2, F1. cbn. by destruct (last_noted _ j).
    + intros d. rewrite A2, A1. unfold last_move. cbn. destruct (last_noted _ j); [done|].
      by destruct (touches r d).
    + intros d. by rewrite D2, D1, Hd1.
Qed.

Lemma genesis_ok : state_ok genesis.
Proof.
  split; [apply map_Forall_empty|apply map_Forall_empty|].
  intros d a H. unfold content_list, arrangement_of in H. cbn in H. rewrite lookup_empty in H.
  by apply elem_of_nil in H.
Qed.

(** Only the touched documents' content changes. *)
Lemma untouched_content m r d : touches r d = false → d_content (spec_step m r) d = d_content m d.
Proof.
  destruct r; cbn; unfold upd; try done; intros H; try (apply bool_decide_eq_false in H).
  - by rewrite decide_False by congruence.
  - by rewrite decide_False by congruence.
  - by rewrite decide_False by congruence.
  - by destruct (admits_start _).
  - destruct (decide (d_content m source = [])); cbn; [done|]. by rewrite decide_False by congruence.
  - by rewrite decide_False by congruence.
Qed.

Lemma replay_app s j k : replay s (j ++ k) = s' ← replay s j; replay s' k.
Proof.
  revert s. induction j as [|[at_ r] j IH]; intros s; [done|]. cbn [app replay].
  destruct (apply_m5 s at_ r) as [s1|]; [apply IH|done].
Qed.

(** Everything placed is a full element position. *)
Definition docs_elements (m : Docs) : Prop :=
  ∀ d a, a ∈ d_content m d → admits_start a = true.

Lemma upd_elements (c : Address → list Address) doc l :
  (∀ d a, a ∈ c d → admits_start a = true) → (∀ a, a ∈ l → admits_start a = true) →
  ∀ d a, a ∈ upd c doc l d → admits_start a = true.
Proof. intros Hc Hl d a. unfold upd. case_decide; [apply Hl|apply Hc]. Qed.

Lemma insert_at_elements ord runs l :
  runs_ok runs → (∀ a, a ∈ l → admits_start a = true) →
  ∀ a, a ∈ insert_at ord (flat runs) l → admits_start a = true.
Proof.
  intros Hr Hl a. unfold insert_at. rewrite !elem_of_app. intros [H|[H|H]].
  - apply Hl. rewrite <- (take_drop (N.to_nat (ord - 1)) l). set_solver.
  - by eapply flat_admits.
  - apply Hl. rewrite <- (take_drop (N.to_nat (ord - 1)) l). set_solver.
Qed.

Lemma remove_at_sublist from w (l : list Address) a : a ∈ remove_at from w l → a ∈ l.
Proof.
  unfold remove_at. rewrite elem_of_app. intros [H|H].
  - rewrite <- (take_drop (N.to_nat (from - 1)) l). set_solver.
  - rewrite <- (take_drop (N.to_nat (from - 1) + N.to_nat w) l). set_solver.
Qed.

Lemma spec_step_elements m r : docs_elements m → rec_ok r → docs_elements (spec_step m r).
Proof.
  intros Hm Hr. destruct r; cbn; unfold docs_elements; cbn; try done.
  - apply upd_elements; [done|]. apply insert_at_elements; [done|apply Hm].
  - apply upd_elements; [done|]. intros a Ha%remove_at_sublist. by eapply Hm.
  - apply upd_elements; [done|]. intros a. rewrite tile_perm. apply Hm.
  - by destruct (admits_start _).
  - destruct (decide _); [done|]. apply upd_elements; [done|apply Hm].
  - apply upd_elements; [done|]. apply insert_at_elements; [done|apply Hm].
Qed.

Lemma history_elements m j doc :
  docs_elements m → journal_ok j → ∀ a, a ∈ history m j doc → admits_start a = true.
Proof.
  intros Hm Hj. revert m Hm. induction Hj as [|[at_ r] j Hr Hj IH]; intros m Hm a; cbn [history].
  { by intros ?%elem_of_nil. }
  rewrite elem_of_app. intros [Ha|Ha]; [|eapply IH; [|exact Ha]; by apply spec_step_elements].
  destruct r; cbn in Ha, Hr; try (by apply elem_of_nil in Ha); case_decide; try (by apply elem_of_nil in Ha).
  - by eapply flat_admits.
  - by eapply Hm.
  - by eapply flat_admits.
Qed.

(** No document holds anything. *)
Definition no_docs : Docs := MkDocs (λ _, []) (λ _, []).

Lemma no_docs_elements : docs_elements no_docs.
Proof. by intros d a ?%elem_of_nil. Qed.

Lemma docs_of_genesis : docs_of genesis = no_docs.
Proof. done. Qed.

Lemma grows_from_genesis p pl :
  grows (provenance genesis) p pl → ∀ d t, any (recorded p d) t = true ↔ under_some (pl d) t.
Proof.
  intros H d t. destruct (H d) as (es & E & D). rewrite E.
  replace (recorded (provenance genesis) d) with (@nil Span); [apply D|].
  rewrite recorded_lookup. cbn. by rewrite lookup_empty.
Qed.

(** ** The claims *)

(** C38. One fold step. On a state that holds the class invariants and a record
    whose runs came through [Run]'s door, whatever else the record says, the fold
    does not panic; the state it returns holds the invariants again (maximally
    merged lists of valid runs, every recorded span some run's I-extent, and P4★:
    every arranged address recorded); its documents are the abstract list
    operation on the old ones, [LinkSeat]'s refusal and the empty snapshot
    included; and R only grows, each document's record by spans covering exactly
    what the record placed there. *)
Theorem apply_m5_refines (s : M5State) (at_ : Seq) (r : M5Rec) :
  state_ok s → rec_ok r →
  ∃ s', apply_m5 s at_ r = Done s' ∧ state_ok s' ∧
    docs_eq (docs_of s') (spec_step (docs_of s) r) ∧
    ∀ d, ∃ es, recorded (provenance s') d = recorded (provenance s) d ++ es ∧
      ∀ t, any es t = true ↔ under_some (placed_by (docs_of s) r d) t.
Proof.
  intros Hs Hr. destruct (apply_m5_ok s at_ r Hs Hr) as (s' & E & [H1 H2 H3]). by exists s'.
Qed.

(** The metadata fields, step by step. BIRTH★: an extent noted never moves,
    and one is noted at the record minting a birth version and no other, as the
    count of what the record leaves it holding. TERMS and SOURCE★: set by the shot,
    and the snapshot, of that very address. MOVED★: the position is this record's
    exactly for the documents it touches, and a document whose content changed was
    touched. BASE★: the shot that names a draft moves its base to the member, whole,
    its source kept and its marker cleared; the base record installs what it
    carries, its marker stamped with this position; nothing else moves one. *)
Theorem metadata_laws (s s' : M5State) (at_ : Seq) (r : M5Rec) :
  state_ok s → rec_ok r → apply_m5 s at_ r = Done s' →
  (∀ m, birth_extent s' m =
     match birth_extent s m with Some e => Some e | None => notes_birth (docs_of s) r m end) ∧
  (∀ m, shot_terms_of s' m =
     match notes_terms r m with Some t => Some t | None => shot_terms_of s m end) ∧
  (∀ d, fork_sources s' !! d =
     match notes_source r d with Some a => Some a | None => fork_sources s !! d end) ∧
  (∀ d, arranged_at_of s' d = if touches r d then Some at_ else arranged_at_of s d) ∧
  (∀ d, vmap (content_list s' d) ≠ vmap (content_list s d) → touches r d = true) ∧
  (∀ d, draft_bases s' !! d = moves_base (docs_of s) at_ r d (draft_bases s !! d)).
Proof.
  intros Hs Hr E. destruct (apply_meta s s' at_ r Hs Hr E) as [B T F A D]. split_and!; try done.
  intros d Hne. destruct (touches r d) eqn:Ht; [done|]. exfalso. apply Hne.
  destruct (apply_m5_ok s at_ r Hs Hr) as (s2 & E2 & [_ [Hc _] _]). rewrite E in E2. injection E2 as <-.
  specialize (Hc d). by rewrite (untouched_content _ _ _ Ht) in Hc.
Qed.

(** Replay. A journal of records with valid runs folds from genesis without a
    panic, to a state holding every class invariant whose documents are the
    journal's list operations folded over the empty ones, and whose R covers, for
    each document, exactly everything the journal ever placed in it, removed or
    not; and folding may stop at any prefix and resume from the state reached, as a
    checkpoint does. *)
Theorem replay_documents (j k : journal) :
  journal_ok (j ++ k) →
  ∃ c s, replay genesis j = Done c ∧ replay c k = Done s ∧ replay genesis (j ++ k) = Done s ∧
    state_ok c ∧ state_ok s ∧
    docs_eq (docs_of s) (spec_run no_docs (j ++ k)) ∧
    ∀ d t, any (recorded (provenance s) d) t = true ↔ under_some (history no_docs (j ++ k) d) t.
Proof.
  intros [Hj Hk]%Forall_app.
  destruct (replay_ok genesis j genesis_ok Hj) as (c & Ec & Hc).
  destruct (replay_ok c k (rr_state _ _ _ Hc) Hk) as (s & Es & Hs).
  destruct (replay_ok genesis (j ++ k) genesis_ok) as (s' & E & H); [by apply Forall_app|].
  assert (s' = s) as ->.
  { rewrite replay_app, Ec in E. cbn in E. congruence. }
  exists c, s. split_and!; [done|done|done|apply Hc|apply Hs|apply H|].
  apply grows_from_genesis, H.
Qed.

(** The metadata of a replayed journal, read off the journal: the birth extent
    is the first mint's of a birth version, the terms and the fork source the last
    record's to set them, the arranged-at position that of the last record to touch
    the document, and a draft's base the fold of the records that move it. *)
Theorem replay_metadata (j : journal) :
  journal_ok j →
  ∃ s, replay genesis j = Done s ∧
    (∀ m, birth_extent s m = born_with no_docs j m) ∧
    (∀ m, shot_terms_of s m = last_noted (λ e, notes_terms e.2 m) j) ∧
    (∀ d, fork_sources s !! d = last_noted (λ e, notes_source e.2 d) j) ∧
    (∀ d, arranged_at_of s d = last_move j d) ∧
    ∀ d, draft_bases s !! d = base_of no_docs j d None.
Proof.
  intros Hj. destruct (replay_ok genesis j genesis_ok Hj) as (s & E & [_ _ _ B T F A D]).
  exists s. split_and!; [done|..]; intros d.
  - unfold birth_extent. by rewrite B.
  - unfold shot_terms_of. rewrite T. by destruct (last_noted _ j).
  - rewrite F. by destruct (last_noted _ j).
  - unfold arranged_at_of. rewrite A. by destruct (last_move j d).
  - by rewrite D.
Qed.

(** A shot of six positions, a removal inside it, a reorder, a snapshot. *)
Definition sample_doc : Address := sample_start.

Definition sample_version : Address := addr_shift sample_start 9.

Definition sample_journal : journal :=
  [(1, ShotPlace sample_doc [sample_run 0 4; sample_run 20 2] (MkShotTerms 6 None) None);
   (2, ContentRemove sample_doc 2 2);
   (3, ContentReorder sample_doc [1; 2; 4]);
   (4, VersionSnapshot sample_doc sample_version)]%N.

(** What the version is born holding: the addresses the reorder left. *)
Definition sample_content : list (list Nat) :=
  (λ x, [1; 0; 1; 0; 1; 0; 1; x]%N) <$> [4; 21; 1; 22]%N.

Lemma sample_journal_ok : journal_ok sample_journal.
Proof.
  apply Forall_cons. split.
  - do 2 (apply runs_ok_cons; split; [by apply sample_run_ok|]). apply runs_ok_nil.
  - repeat (apply Forall_cons; split; [exact I|]). apply Forall_nil_2.
Qed.

Lemma apply_m5_refines_witness :
  ∃ s', apply_m5 genesis 1 (ShotPlace sample_doc [sample_run 0 4] (MkShotTerms 4 None) None) = Done s' ∧
    state_ok s'.
Proof.
  destruct (apply_m5_refines genesis 1 (ShotPlace sample_doc [sample_run 0 4] (MkShotTerms 4 None) None))
    as (s' & E & H & _); [apply genesis_ok| |by exists s'].
  apply runs_ok_cons. split; [by apply sample_run_ok|apply runs_ok_nil].
Defined.

Lemma metadata_laws_witness :
  ∃ s', apply_m5 genesis 7 (VersionSnapshot sample_doc sample_version) = Done s' ∧
    arranged_at_of s' sample_version = Some 7%N ∧
    fork_sources s' !! sample_version = Some sample_doc.
Proof.
  assert (E : is_done (apply_m5 genesis 7 (VersionSnapshot sample_doc sample_version)) = true)
    by reflexivity.
  destruct (apply_m5 genesis 7 (VersionSnapshot sample_doc sample_version)) as [s'|] eqn:H; [|done].
  destruct (metadata_laws genesis s' 7 (VersionSnapshot sample_doc sample_version) genesis_ok I H)
    as (_ & _ & F & A & _).
  exists s'. split; [done|]. split; [by rewrite A|by rewrite F].
Defined.

Lemma replay_documents_witness :
  ∃ s, replay genesis (sample_journal ++ []) = Done s ∧
    (λ a, comps (tumbler a)) <$> d_content (docs_of s) sample_version = sample_content.
Proof.
  destruct (replay_documents sample_journal []) as (c & s & _ & _ & E & _ & _ & [Hd _] & _).
  - rewrite app_nil_r. apply sample_journal_ok.
  - exists s. split; [done|]. rewrite Hd. vm_compute. reflexivity.
Defined.

Lemma replay_metadata_witness :
  ∃ s, replay genesis sample_journal = Done s ∧
    arranged_at_of s sample_doc = Some 3%N ∧ fork_sources s !! sample_version = Some sample_doc.
Proof.
  destruct (replay_metadata sample_journal sample_journal_ok) as (s & E & _ & _ & F & A & _).
  exists s. split; [done|]. split; [rewrite A|rewrite F]; vm_compute; reflexivity.
Defined.
