(* ===== verification/ArrReads.v ===== *)
(** * Reads of the arrangement state

    Models [crates/skep-arrangement/src/reads.rs]: resolution, the run
    decompositions and counts, the admission predicates the ops ask, the I→V
    projection, presence, deletions and the provenance candidates, over the
    state of ArrState. A read that walks runs is an [outcome]; the claims say
    none panics on a state that holds the class invariants. *)

From stdpp Require Import gmap sorting.
From S2P Require Import Prelude Tumblers Addresses Arith Spans SpanSets Runs RunLists VSpace Provenance Chain ArrState.

(** ** Resolution *)

Definition iter_resolve (s : M5State) (doc : Address) (span : Span) : outcome (list Run) :=
  match as_ordinal_vspan span with
  | None => Done []
  | Some vspan =>
      match arr_list (arrangement_of s doc) (ov_subspace vspan) with
      | None => Done []
      | Some l => iter_resolve_range l (ov_ordinal vspan) (ov_count vspan)
      end
  end.

Definition resolve (s : M5State) (doc : Address) (span : Span) : outcome (list Run) :=
  iter_resolve s doc span.

Definition state_point (s : M5State) (doc : Address) (p : VPos) : outcome (option Address) :=
  match arr_list (arrangement_of s doc) (vp_subspace p) with
  | None => Done None
  | Some l => point l (vp_ordinal p)
  end.

Definition content_runs (s : M5State) (doc : Address) : list Run := rl_runs (content_list s doc).

Definition link_runs (s : M5State) (doc : Address) : list Run := rl_runs (link_list s doc).

Definition content_count (s : M5State) (doc : Address) : Nat := total_width (content_list s doc).

Definition link_count (s : M5State) (doc : Address) : Nat := total_width (link_list s doc).

Definition content_run_count (s : M5State) (doc : Address) : nat := run_count (content_list s doc).

Definition link_run_count (s : M5State) (doc : Address) : nat := run_count (link_list s doc).

Definition state_recorded_span_count (s : M5State) (doc : Address) : nat :=
  recorded_span_count (provenance s) doc.

(** ** Admission *)

Definition admits_content_boundary (s : M5State) (doc : Address) (ord : Nat) : bool :=
  ((1 <=? ord) && (ord <=? content_count s doc + 1))%N.

Definition content_is_empty (s : M5State) (doc : Address) : bool :=
  RunList_is_empty (content_list s doc).

Definition arranges_content_position (s : M5State) (doc : Address) (ord : Nat) : outcome bool :=
  found ← locate (content_list s doc) ord;
  Done (bool_decide (is_Some found)).

Definition names_fresh_content_position (s : M5State) (doc : Address) (at_ : VPos) : bool :=
  VPos_is_content at_ && (content_count s doc <? vp_ordinal at_)%N.

Definition contains_content_range (s : M5State) (doc : Address) (from width : Nat) : bool :=
  (from + width <=? content_count s doc + 1)%N.

Definition content_runs_past (s : M5State) (doc : Address) (extent : Nat) : outcome (list Run) :=
  iter_resolve_from (content_list s doc) (extent + 1).

Definition seats_link (s : M5State) (doc link : Address) : outcome bool :=
  holds (link_list s doc) link.

(** ** Projection and presence *)

(** The inner loop: one block against the coverage. *)
Fixpoint project_covers (b : Block) (covers : list Span) : outcome (list Span) :=
  match covers with
  | [] => Done []
  | cover :: covers =>
      covered ← offsets_covered_by (b_run b) cover;
      match covered with
      | None => project_covers b covers
      | Some covered =>
          let at_ := VPos_content (v_start b + off_lo covered) in
          w ← OffsetRange_width covered;
          v ← ordinal_vspan at_ w;
          v ← expect_some v;
          rest ← project_covers b covers;
          Done (v :: rest)
      end
  end.

Fixpoint project_blocks (blocks : list Block) (covers : list Span) : outcome (list Span) :=
  match blocks with
  | [] => Done []
  | b :: blocks =>
      vspans ← project_covers b covers;
      rest ← project_blocks blocks covers;
      Done (vspans ++ rest)
  end.

Definition project (s : M5State) (doc : Address) (coverage : SpanSet) : outcome SpanSet :=
  vspans ← project_blocks (iter_blocks (content_list s doc)) (spans coverage);
  let set := from_iter vspans in
  expect_ok (normalize set).

(** [coverage.iter().any(..)], and [runs.any(..)] over it, each stopping at the
    first yes. *)
Fixpoint any_cover (run : Run) (covers : list Span) : outcome bool :=
  match covers with
  | [] => Done false
  | cover :: covers =>
      o ← offsets_covered_by run cover;
      if bool_decide (is_Some o) then Done true else any_cover run covers
  end.

Fixpoint any_run (runs : list Run) (covers : list Span) : outcome bool :=
  match runs with
  | [] => Done false
  | run :: runs =>
      b ← any_cover run covers;
      if (b : bool) then Done true else any_run runs covers
  end.

Definition arranges_any (s : M5State) (doc : Address) (coverage : SpanSet) : outcome bool :=
  any_run (rl_runs (content_list s doc)) (spans coverage).

(** ** Deletions and provenance *)

Definition content_image (s : M5State) (doc : Address) : outcome SpanSet :=
  image (content_list s doc).

(** The partition's walk, by ascending length. *)
Definition class_le (p q : nat * SpanSet) : Prop := p.1 ≤ q.1.

#[export] Instance class_le_dec : RelDecision class_le.
Proof. intros p q. unfold class_le. apply _. Defined.

Definition class_entries (m : gmap nat SpanSet) : list (nat * SpanSet) :=
  merge_sort class_le (map_to_list m).

Fixpoint deletions_loop (image : gmap nat SpanSet) (out : SpanSet)
    (classes : list (nat * SpanSet)) : outcome SpanSet :=
  match classes with
  | [] => Done out
  | (len, ever) :: classes =>
      let now := default empty (image !! len) in
      r ← difference_sets ever now;
      deleted ← expect_ok r;
      deletions_loop image (union out deleted) classes
  end.

Definition deletions (s : M5State) (doc : Address) : outcome SpanSet :=
  now ← content_image s doc;
  let image := by_level_class now in
  deletions_loop image empty (class_entries (by_level_class (ever_contained (provenance s) doc))).

Definition fork_source (s : M5State) (doc : Address) : option Address := fork_sources s !! doc.

Definition draft_base (s : M5State) (draft : Address) : option DraftBase := draft_bases s !! draft.

Definition state_docs_ever_containing (s : M5State) (coverage : SpanSet) : list Address :=
  docs_ever_containing (provenance s) coverage.

(** ** The projection's loops *)

Lemma in_class_cons L x l :
  in_class L (x :: l) ↔ (is_level_uniform x = true ∧ Tumbler_len (start x) = L) ∧ in_class L l.
Proof. unfold in_class. by rewrite Forall_cons. Qed.

Lemma in_class_nil L : in_class L [].
Proof. apply Forall_nil_2. Qed.

(** A depth-2 position, as a tumbler. *)
Definition at_position (t : Tumbler) (p : VPos) : Prop := comps t = [vp_subspace p; vp_ordinal p].

(** One cover's V-range, from the offsets it covers. *)
Lemma covered_vspan v c :
  (off_lo c < off_hi c)%N →
  ∃ w x, OffsetRange_width c = Done w ∧
    ordinal_vspan (VPos_content (v + off_lo c)) w = Done (Some x) ∧
    is_level_uniform x = true ∧ Tumbler_len (start x) = 2 ∧
    ∀ t p, at_position t p →
      contains x t = true ↔ VPos_is_content p = true ∧
        (v + off_lo c ≤ vp_ordinal p < v + off_hi c)%N.
Proof.
  intros Hlt. exists (off_hi c - off_lo c)%N. unfold OffsetRange_width. rewrite nat_sub_ok by lia.
  destruct (ordinal_vspan_ok (VPos_content (v + off_lo c)) (off_hi c - off_lo c)) as (x & E & Es & Ew); [lia|].
  destruct (ordinal_vspan_spans (VPos_content (v + off_lo c)) _ x Es Ew ltac:(lia)) as (_ & Hu & Hc).
  exists x. split_and!; [done|done|done|unfold Tumbler_len; by rewrite Es|].
  intros t p Hp. rewrite (Hc t p Hp). unfold VPos_is_content. rewrite N.eqb_eq. cbn.
  replace (v + off_lo c + (off_hi c - off_lo c))%N with (v + off_hi c)%N by lia. done.
Qed.

Lemma project_covers_ok v r covers :
  run_ok r →
  ∃ l, project_covers (MkBlock v r) covers = Done l ∧ in_class 2 l ∧
    ∀ t p, at_position t p →
      any l t = true ↔ VPos_is_content p = true ∧
        ∃ k, (k < run_width r)%N ∧ vp_ordinal p = (v + k)%N ∧
          any covers (tumbler (addr_shift (i_start r) k)) = true.
Proof.
  intros Hr. induction covers as [|cover covers (l & El & Hl & Hd)]; cbn [project_covers].
  { exists []. split_and!; [done|apply in_class_nil|]. intros t p _. split; [done|]. by intros (_ & k & _ & _ & ?). }
  destruct (offsets_covered_by_ok r cover Hr) as (o & E & Ho). cbn [b_run v_start].
  rewrite E. cbn [mbind outcome_bind]. destruct o as [c|]; cbn in Ho.
  - destruct Ho as [Hlt Hc]. destruct (covered_vspan v c) as (w & x & -> & Ex & Hu & Hlen & Hx); [lia|].
    cbn [mbind outcome_bind]. rewrite Ex. cbn [mbind outcome_bind expect_some]. rewrite El.
    cbn [mbind outcome_bind]. exists (x :: l). split_and!; [done|by apply in_class_cons|].
    intros t p Hp. rewrite any_cons, orb_true_iff, (Hx t p Hp), (Hd t p Hp).
    setoid_rewrite any_cons. setoid_rewrite orb_true_iff. split.
    + intros [[H1 H2]|(H1 & k & H2 & H3 & H4)]; (split; [done|]); [|by exists k; auto].
      exists (vp_ordinal p - v)%N. split_and!; [lia|lia|]. left. rewrite addr_shift_tumbler.
      apply Hc; lia.
    + intros (H1 & k & H2 & H3 & [H4|H4]); [left|by right; split; [done|exists k]]. split; [done|].
      rewrite addr_shift_tumbler in H4. apply Hc in H4; lia.
  - exists l. split_and!; [done|done|]. intros t p Hp. rewrite (Hd t p Hp).
    setoid_rewrite any_cons. split; [intros (H1 & k & H2 & H3 & H4)|intros (H1 & k & H2 & H3 & H4)].
    + split; [done|]. exists k. by rewrite H4, orb_true_r.
    + split; [done|]. exists k. rewrite addr_shift_tumbler, (Ho k H2), <- addr_shift_tumbler in H4. done.
Qed.

Lemma project_blocks_ok v runs covers :
  runs_ok runs →
  ∃ l, project_blocks (blocks_from v runs) covers = Done l ∧ in_class 2 l ∧
    ∀ t p, at_position t p →
      any l t = true ↔ VPos_is_content p = true ∧ (v ≤ vp_ordinal p)%N ∧
        ∃ a, flat runs !! N.to_nat (vp_ordinal p - v) = Some a ∧ any covers (tumbler a) = true.
Proof.
  intros Hr. revert v. induction Hr as [|r runs Hr Hruns IH]; intros v; cbn [blocks_from project_blocks].
  { exists []. split_and!; [done|apply in_class_nil|]. intros t p _. split; [done|].
    by intros (_ & _ & a & ? & _). }
  destruct (project_covers_ok v r covers Hr) as (l1 & -> & H1 & D1).
  destruct (IH (v + run_width r)%N) as (l2 & -> & H2 & D2). cbn [mbind outcome_bind].
  exists (l1 ++ l2). split_and!; [done|by apply in_class_app|]. intros t p Hp.
  rewrite any_app, orb_true_iff, (D1 t p Hp), (D2 t p Hp), flat_cons. split.
  - intros [(Hcp & k & Hk & E & Hcov)|(Hcp & Hle & a & Hlk & Hcov)]; (split_and!; [done|lia|]).
    + exists (addr_shift (i_start r) k). split; [|done].
      rewrite lookup_app_l by (rewrite addrs_length; lia).
      replace (vp_ordinal p - v)%N with k by lia. by apply addrs_lookup.
    + exists a. split; [|done]. rewrite lookup_app_r by (rewrite addrs_length; lia).
      rewrite addrs_length. rewrite <- Hlk. f_equal. lia.
  - intros (Hcp & Hle & a & Hlk & Hcov). destruct (N.lt_ge_cases (vp_ordinal p - v) (run_width r)) as [Hlt|Hge].
    + left. split; [done|]. exists (vp_ordinal p - v)%N. split_and!; [done|lia|].
      rewrite lookup_app_l, addrs_lookup in Hlk by (rewrite ?addrs_length; lia). by injection Hlk as ->.
    + right. split_and!; [done|lia|]. exists a. split; [|done].
      rewrite lookup_app_r, addrs_length in Hlk by (rewrite addrs_length; lia). rewrite <- Hlk. f_equal. lia.
Qed.

(** The present tense: an arranged address the coverage contains. *)
Definition meets (l : list Address) (coverage : SpanSet) : Prop :=
  ∃ a, a ∈ l ∧ denotes coverage (tumbler a) = true.

Lemma meets_app l k c : meets (l ++ k) c ↔ meets l c ∨ meets k c.
Proof. unfold meets. setoid_rewrite elem_of_app. naive_solver. Qed.

Lemma any_cover_ok r covers :
  run_ok r → ∃ b, any_cover r covers = Done b ∧ (b = true ↔ meets (addrs r) (from_iter covers)).
Proof.
  intros Hr. induction covers as [|c covers (b & E & Hb)]; cbn [any_cover].
  { exists false. split; [done|]. split; [done|]. by intros (a & _ & ?). }
  destruct (offsets_covered_by_ok r c Hr) as (o & -> & Ho). cbn [mbind outcome_bind].
  assert (Hcons : meets (addrs r) (from_iter (c :: covers)) ↔
    (∃ k, (k < run_width r)%N ∧ contains c (shift (tumbler (i_start r)) k) = true) ∨
    meets (addrs r) (from_iter covers)).
  { unfold meets. setoid_rewrite denotes_from_iter. setoid_rewrite any_cons.
    setoid_rewrite orb_true_iff. setoid_rewrite elem_of_addrs. split.
    - intros (a & (k & Hk & ->) & [H|H]); [left; exists k; by rewrite <- addr_shift_tumbler|right].
      exists (addr_shift (i_start r) k). split; [by exists k|done].
    - intros [(k & Hk & H)|(a & Ha & H)]; [|by exists a; auto].
      exists (addr_shift (i_start r) k). rewrite addr_shift_tumbler. split; [by exists k|by left]. }
  setoid_rewrite Hcons. destruct o as [o|]; cbn in Ho.
  - rewrite bool_decide_true by done. exists true. split; [done|]. split; [|done]. intros _. left.
    destruct Ho as [Hlt Hc]. exists (off_lo o). split; [lia|]. apply Hc; lia.
  - rewrite bool_decide_false by (intros [? ?]; done). exists b. split; [done|]. rewrite Hb.
    split; [by right|]. intros [(k & Hk & H)|?]; [|done]. by rewrite Ho in H.
Qed.

Lemma any_run_ok runs coverage :
  runs_ok runs → ∃ b, any_run runs (spans coverage) = Done b ∧ (b = true ↔ meets (flat runs) coverage).
Proof.
  induction 1 as [|r runs Hr Hruns (b & E & Hb)]; cbn [any_run].
  { exists false. split; [done|]. split; [done|]. intros (a & Ha & _). by apply elem_of_nil in Ha. }
  destruct (any_cover_ok r (spans coverage) Hr) as (c & -> & Hc). cbn [mbind outcome_bind].
  rewrite flat_cons. setoid_rewrite meets_app. destruct coverage as [cs]. cbn in *.
  destruct c; [exists true|exists b]; (split; [done|]); naive_solver.
Qed.

(** ** The deletions loop *)

#[export] Instance class_le_trans : Transitive class_le.
Proof. intros p q r. unfold class_le. lia. Qed.

#[export] Instance class_le_total : Total class_le.
Proof. intros p q. unfold class_le. lia. Qed.

Lemma elem_of_class_entries (m : gmap nat SpanSet) k c :
  (k, c) ∈ class_entries m ↔ m !! k = Some c.
Proof. unfold class_entries. by rewrite merge_sort_Permutation, elem_of_map_to_list. Qed.

Lemma class_entries_ascend (m : gmap nat SpanSet) :
  StronglySorted (λ p q : nat * SpanSet, p.1 < q.1) (class_entries m).
Proof.
  assert (Hn : NoDup (fst <$> class_entries m)).
  { unfold class_entries. rewrite merge_sort_Permutation. apply NoDup_fst_map_to_list. }
  pose proof (StronglySorted_merge_sort class_le (map_to_list m)) as Hs.
  fold (class_entries m) in Hs. revert Hn. induction Hs as [|p l Hl IH Hp]; [constructor|].
  cbn [fmap list_fmap]. intros [Hx Hn]%NoDup_cons. constructor; [by apply IH|].
  apply Forall_forall. intros q Hq. eapply Forall_forall in Hp; [|exact Hq].
  assert (p.1 ≠ q.1); [|unfold class_le in Hp; lia].
  intros E. apply Hx. rewrite E. by apply list_elem_of_fmap_2.
Qed.

Lemma class_of_in_class set k c :
  Forall (λ x, is_level_uniform x = true) (spans set) → by_level_class set !! k = Some c →
  spans c ≠ [] ∧ in_class k (spans c).
Proof.
  intros Hu Hc. rewrite by_level_class_lookup in Hc.
  destruct (spans_of_len k (spans set)) as [|x l] eqn:E; [done|]. injection Hc as <-.
  split; [done|]. cbn. rewrite <- E. apply Forall_forall. intros y [Hk Hy]%list_elem_of_filter.
  split; [|done]. by eapply (proj1 (Forall_forall _ _)) in Hu.
Qed.

Lemma class_or_empty set k :
  Forall (λ x, is_level_uniform x = true) (spans set) →
  in_class k (spans (default empty (by_level_class set !! k))).
Proof.
  intros Hu. destruct (by_level_class set !! k) eqn:E; cbn; [|apply in_class_nil].
  by eapply class_of_in_class.
Qed.

(** A class denotes what its spans of the set do. *)
Lemma denotes_class set k t :
  denotes (default empty (by_level_class set !! k)) t = true ↔
  ∃ x, x ∈ spans set ∧ Tumbler_len (start x) = k ∧ contains x t = true.
Proof.
  rewrite by_level_class_lookup.
  assert (H : denotes (default empty (match spans_of_len k (spans set) with
    [] => None | l => Some (from_iter l) end)) t = any (spans_of_len k (spans set)) t).
  { by destruct (spans_of_len k (spans set)). }
  rewrite H, any_spec. unfold spans_of_len. setoid_rewrite list_elem_of_filter. naive_solver.
Qed.

Definition deleted_of (image : gmap nat SpanSet) (kc : nat * SpanSet) (d : list Span) : Prop :=
  canonical kc.1 d ∧
  ∀ t, any d t = denotes kc.2 t && negb (denotes (default empty (image !! kc.1)) t).

Lemma deletions_loop_ok image out classes :
  Forall (λ kc : nat * SpanSet, spans kc.2 ≠ [] ∧ in_class kc.1 (spans kc.2)) classes →
  (∀ k, in_class k (spans (default empty (image !! k)))) →
  ∃ ds, deletions_loop image out classes = Done (MkSpanSet (spans out ++ concat ds)) ∧
    Forall2 (deleted_of image) classes ds.
Proof.
  intros Hc Hi. revert out. induction Hc as [|[k c] classes [Hne Hk] Hc IH]; intros out; cbn [deletions_loop].
  { exists []. split; [|constructor]. cbn. rewrite app_nil_r. by destruct out. }
  destruct (difference_sets_class k c _ Hne Hk (Hi k)) as (d & -> & Hcan & Hd).
  cbn [mbind outcome_bind expect_ok]. destruct (IH (union out d)) as (ds & -> & H2).
  exists (spans d :: ds). split; [|by constructor]. cbn. by rewrite <- app_assoc.
Qed.

Lemma any_concat ds t : any (concat ds) t = existsb (λ d, any d t) ds.
Proof. induction ds as [|d ds IH]; [done|]. cbn [concat existsb]. by rewrite any_app, IH. Qed.

Lemma any_deleted image classes ds t :
  Forall2 (deleted_of image) classes ds →
  any (concat ds) t = true ↔ ∃ k c, (k, c) ∈ classes ∧ denotes c t = true ∧
    denotes (default empty (image !! k)) t = false.
Proof.
  rewrite any_concat. induction 1 as [|[k c] d classes ds [_ Hd] H2 IH]; cbn [existsb].
  { split; [done|]. by intros (k & c & ?%elem_of_nil & _). }
  rewrite orb_true_iff, IH, Hd, andb_true_iff, negb_true_iff. cbn. setoid_rewrite elem_of_cons. split.
  - intros [[? ?]|(k' & c' & ? & ? & ?)]; [exists k, c|exists k', c']; naive_solver.
  - intros (k' & c' & [[= -> ->]|?] & ? & ?); [by left|right]. eauto.
Qed.

(** Ascending classes, normalized within: the order the answer comes in. *)
Definition class_then_order (x y : Span) : Prop :=
  Tumbler_len (start x) < Tumbler_len (start y) ∨
  Tumbler_len (start x) = Tumbler_len (start y) ∧ reach x <ₜ start y.

Lemma StronglySorted_app_2 {A} (R : A → A → Prop) l k :
  StronglySorted R l → StronglySorted R k → (∀ x y, x ∈ l → y ∈ k → R x y) →
  StronglySorted R (l ++ k).
Proof.
  induction 1 as [|x l Hl IH Hx]; [done|]. intros Hk H. cbn. constructor.
  - apply IH; [done|]. intros. apply H; set_solver.
  - apply Forall_app. split; [done|]. apply Forall_forall. intros y Hy. apply H; set_solver.
Qed.

Lemma deleted_in_order image classes ds :
  StronglySorted (λ p q : nat * SpanSet, p.1 < q.1) classes → Forall2 (deleted_of image) classes ds →
  StronglySorted class_then_order (concat ds) ∧
  Forall (λ x, is_level_uniform x = true) (concat ds) ∧
  ∀ x, x ∈ concat ds → ∃ kc, kc ∈ classes ∧ Tumbler_len (start x) = kc.1.
Proof.
  intros Hs H. revert Hs. induction H as [|[k c] d classes ds [Hd _] H2 IH]; intros Hs.
  { split_and!; [constructor|apply Forall_nil_2|]. by intros x ?%elem_of_nil. }
  apply StronglySorted_cons in Hs as [Hk Hs]. destruct (IH Hs) as (H3 & H4 & H5). cbn [concat].
  cbn in Hd. pose proof (canonical_class _ _ Hd) as Hc. unfold in_class in Hc.
  rewrite Forall_forall in Hc. split_and!.
  - apply StronglySorted_app_2; [|done|].
    + clear -Hd. induction d as [|x d IH]; [constructor|].
      apply canonical_cons in Hd as ([_ Hx] & Hg & Hd). constructor; [by apply IH|].
      apply Forall_forall. intros y Hy. right. split; [|by apply Hg].
      pose proof (canonical_class _ _ Hd) as Hc. unfold in_class in Hc. rewrite Forall_forall in Hc.
      destruct (Hc y Hy) as [_ E]. congruence.
    + intros x y Hx ([k' c'] & Hkc & E)%H5. left. destruct (Hc x Hx) as [_ ->]. rewrite E.
      by apply (proj1 (Forall_forall _ _) Hk (k', c')).
  - apply Forall_app. split; [|done]. apply Forall_forall. intros x Hx. by apply Hc.
  - intros x [Hx|Hx]%elem_of_app.
    + exists (k, c). split; [set_solver|]. by apply Hc.
    + destruct (H5 x Hx) as (kc & ? & ?). exists kc. split; [set_solver|done].
Qed.

(** A run's I-extent holds element positions of its own length only. *)
Lemma extent_element_len e a :
  is_extent e → admits_start a = true → contains e (tumbler a) = true →
  Tumbler_len (start e) = Tumbler_len (tumbler a).
Proof.
  intros (r & Hr & He) Ha Hc. apply (extent_under r e _ Hr He) in Hc.
  assert (Hin : a ∈ flat [r]).
  { apply under_some_element; [apply runs_ok_cons; split; [done|apply runs_ok_nil]|done|].
    by rewrite flat_cons, flat_nil, app_nil_r. }
  rewrite flat_cons, flat_nil, app_nil_r in Hin. apply elem_of_addrs in Hin as (k & _ & ->).
  destruct (iextent_ok r Hr) as (e' & He' & Es & _). rewrite He in He'. injection He' as <-.
  rewrite Es, addr_shift_tumbler. symmetry. apply shift_len.
Qed.

(** ** The reads on a well-formed state *)

Lemma content_ok s doc : state_ok s → RunList_ok (content_list s doc).
Proof. intros H. by apply lists_ok. Qed.

Lemma list_of_subspace s doc sub l :
  state_ok s → arr_list (arrangement_of s doc) sub = Some l → RunList_ok l.
Proof.
  intros H. destruct (lists_ok s doc H) as [Hc Hl]. unfold arr_list.
  case_match; [by intros [= <-]|]. case_match; [by intros [= <-]|done].
Qed.

Lemma at_position_start x :
  Tumbler_len (start x) = 2 → ∃ p, at_position (start x) p.
Proof. intros (a & b & E)%comps_two. by exists (MkVPos a b). Qed.

Lemma project_ok s doc coverage :
  state_ok s →
  ∃ f, project s doc coverage = Done f ∧ canonical 2 (spans f) ∧
    ∀ t p, at_position t p →
      denotes f t = true ↔ VPos_is_content p = true ∧ (1 ≤ vp_ordinal p)%N ∧
        ∃ a, vmap (content_list s doc) !! N.to_nat (vp_ordinal p - 1) = Some a ∧
          denotes coverage (tumbler a) = true.
Proof.
  intros Hs. unfold project, iter_blocks, blocks_of.
  destruct (project_blocks_ok 1 _ (spans coverage) (rl_ok _ (content_ok s doc Hs))) as (l & -> & Hl & Hd).
  cbn [mbind outcome_bind]. destruct (normalize_in 2 (from_iter l) Hl) as [n En].
  rewrite En. exists n. split; [done|].
  pose proof (normalize_cases (from_iter l)) as H. rewrite En in H. destruct H as (M & HM & Hc & Hdn & _).
  split.
  - destruct (decide (l = [])) as [->|Hne].
    + apply nil_canonical. destruct (spans n) as [|x k] eqn:Ex; [done|]. exfalso.
      specialize (Hdn (start x)). unfold denotes in Hdn. rewrite Ex in Hdn. cbn in Hdn.
      by rewrite contains_start in Hdn.
    + by rewrite (in_class_unique 2 M l Hl HM Hne).
  - intros t p Hp. rewrite Hdn. by apply Hd.
Qed.

Lemma image_extents l :
  RunList_ok l → ∃ es, image l = Done (from_iter es) ∧ Forall is_extent es ∧
    ∀ t, any es t = true ↔ under_some (vmap l) t.
Proof.
  intros [Hl _]. unfold image. destruct (iextents_ok _ Hl) as (es & -> & He & Hd). by exists es.
Qed.

Lemma extents_uniform es : Forall is_extent es → Forall (λ x, is_level_uniform x = true) es.
Proof. intros H. eapply Forall_impl; [exact H|]. apply is_extent_uniform. Qed.

Lemma any_extent_len es a :
  Forall is_extent es → admits_start a = true →
  any es (tumbler a) = true ↔
  ∃ x, x ∈ es ∧ Tumbler_len (start x) = Tumbler_len (tumbler a) ∧ contains x (tumbler a) = true.
Proof.
  intros He Ha. rewrite any_spec. split; [|naive_solver]. intros (x & Hx & Hc). exists x.
  split_and!; [done| |done]. apply extent_element_len; [|done|done].
  by eapply (proj1 (Forall_forall _ _)) in He.
Qed.

Lemma deletions_ok s doc :
  state_ok s →
  ∃ d, deletions s doc = Done d ∧ Forall (λ x, is_level_uniform x = true) (spans d) ∧
    StronglySorted class_then_order (spans d) ∧
    ∀ a, admits_start a = true →
      denotes d (tumbler a) = true ↔
      any (recorded (provenance s) doc) (tumbler a) = true ∧ a ∉ vmap (content_list s doc).
Proof.
  intros Hs. unfold deletions, content_image.
  destruct (image_extents _ (content_ok s doc Hs)) as (es & -> & He & Hd). cbn [mbind outcome_bind].
  pose proof (recorded_extents _ doc (so_provenance _ Hs)) as Hr.
  set (ever := ever_contained (provenance s) doc) in *. change (spans ever) with (recorded (provenance s) doc) in *.
  destruct (deletions_loop_ok (by_level_class (from_iter es)) empty (class_entries (by_level_class ever)))
    as (ds & -> & H2).
  { apply Forall_forall. intros [k c] Hkc%elem_of_class_entries. cbn.
    apply (class_of_in_class ever); [by apply extents_uniform|done]. }
  { intros k. apply class_or_empty. by apply extents_uniform. }
  destruct (deleted_in_order _ _ _ (class_entries_ascend _) H2) as (H3 & H4 & _).
  eexists. split; [reflexivity|]. cbn [spans app empty]. split_and!; [done|done|].
  intros a Ha. change (any (concat ds) (tumbler a) = true ↔ any (recorded (provenance s) doc) (tumbler a) = true ∧ a ∉ vmap (content_list s doc)).
  rewrite (any_deleted _ _ _ _ H2), (any_extent_len _ a Hr Ha).
  rewrite <- (under_some_element (rl_runs (content_list s doc)) a (rl_ok _ (content_ok s doc Hs)) Ha).
  fold (vmap (content_list s doc)). rewrite <- Hd, (any_extent_len _ a He Ha).
  setoid_rewrite elem_of_class_entries. split.
  - intros (k & c & Hk & Hc & Hn).
    assert (Hc' : denotes (default empty (by_level_class ever !! k)) (tumbler a) = true) by by rewrite Hk.
    apply denotes_class in Hc' as (x & Hx & Hlx & Hcx).
    assert (k = Tumbler_len (tumbler a)) as ->.
    { rewrite <- Hlx. apply extent_element_len; [|done|done]. by eapply (proj1 (Forall_forall _ _)) in Hr. }
    split; [by exists x|]. intros Hin. apply not_true_iff_false in Hn. apply Hn.
    by apply denotes_class.
  - intros [Hx Hn]. exists (Tumbler_len (tumbler a)).
    pose proof (proj2 (denotes_class ever (Tumbler_len (tumbler a)) (tumbler a)) Hx) as Hc.
    destruct (by_level_class ever !! Tumbler_len (tumbler a)) as [c|] eqn:E; [|done].
    exists c. split_and!; [done|done|]. apply not_true_iff_false. intros Hc'%denotes_class. by apply Hn.
Qed.

(** Position [p]'s address, as the reads see it. *)
Lemma state_point_ok s doc p l :
  state_ok s → arr_list (arrangement_of s doc) (vp_subspace p) = Some l →
  state_point s doc p =
    Done (if (vp_ordinal p =? 0)%N then None else vmap l !! N.to_nat (vp_ordinal p - 1)).
Proof.
  intros Hs E. unfold state_point. rewrite E. apply point_ok. by eapply list_of_subspace.
Qed.

(** ** The claims *)

(** Resolution and the point read never panic on a well-formed state. A span
    the shape reader refuses, or one of a subspace other than content and links,
    resolves to nothing; any other to well-formed runs whose [i]-th address is the
    one the point read answers at ordinal [max(ord, 1) + i], for exactly the
    ordinals before [ord + count] that are arranged. *)
Theorem resolve_point_agree (s : M5State) (doc : Address) (span : Span) (p : VPos) :
  state_ok s →
  (∃ o, state_point s doc p = Done o ∧
     (o = None ↔ arr_list (arrangement_of s doc) (vp_subspace p) = None ∨ vp_ordinal p = 0%N ∨
        ∃ l, arr_list (arrangement_of s doc) (vp_subspace p) = Some l ∧
          (total_width l < vp_ordinal p)%N)) ∧
  match as_ordinal_vspan span with
  | None => resolve s doc span = Done []
  | Some v =>
      ∃ rs, resolve s doc span = Done rs ∧ runs_ok rs ∧
        (arr_list (arrangement_of s doc) (ov_subspace v) = None → rs = []) ∧
        ∀ i a, flat rs !! i = Some a ↔
          (N.max (ov_ordinal v) 1 + N.of_nat i < ov_ordinal v + ov_count v)%N ∧
          state_point s doc (MkVPos (ov_subspace v) (N.max (ov_ordinal v) 1 + N.of_nat i)) = Done (Some a)
  end.
Proof.
  intros Hs. split.
  - destruct (arr_list (arrangement_of s doc) (vp_subspace p)) as [l|] eqn:E.
    + rewrite (state_point_ok s doc p l Hs E). eexists. split; [done|]. setoid_rewrite total_width_flat.
      destruct (N.eqb_spec (vp_ordinal p) 0) as [|Hne]; [naive_solver|]. split.
      * intros H%lookup_ge_None. right. right. exists l. split; [done|]. lia.
      * intros [?|[?|(l' & [= <-] & H)]]; [done..|]. apply lookup_ge_None. lia.
    + exists None. unfold state_point. rewrite E. naive_solver.
  - unfold resolve, iter_resolve. destruct (as_ordinal_vspan span) as [[sub ord count]|]; [|done].
    cbn [ov_subspace ov_ordinal ov_count].
    destruct (arr_list (arrangement_of s doc) sub) as [l|] eqn:E; cycle 1.
    { exists []. split_and!; [done|apply runs_ok_nil|done|]. intros i a. unfold state_point. cbn.
      rewrite E. split; [by rewrite flat_nil|]. by intros [_ ?]. }
    destruct (iter_resolve_range_ok l ord count (list_of_subspace _ _ _ _ Hs E)) as (rs & -> & Hrs & Hf).
    exists rs. split_and!; [done|done|done|]. intros i a.
    rewrite (state_point_ok s doc (MkVPos sub _) l Hs E), Hf, lookup_take_Some, lookup_drop. cbn [vp_ordinal].
    rewrite (proj2 (N.eqb_neq _ _)) by lia.
    replace (N.to_nat (ord - 1) + i) with (N.to_nat (N.max ord 1 + N.of_nat i - 1)) by lia.
    split; [intros [H ?]|intros [? H]].
    all: try (injection H as H); rewrite ?H; split; first [done|lia].
Qed.

(** Projection and presence never panic on a well-formed state. The footprint
    is normalized, of depth-2 V-spans, and holds a position exactly when it is a
    content position whose arranged address the coverage contains, whatever lengths
    the coverage mixes; presence answers exactly whether the footprint is nonempty,
    which is whether some arranged address is covered. *)
Theorem project_exact (s : M5State) (doc : Address) (coverage : SpanSet) :
  state_ok s →
  ∃ f b, project s doc coverage = Done f ∧ arranges_any s doc coverage = Done b ∧
    is_normalized f = true ∧
    Forall (λ x, is_level_uniform x = true ∧ Tumbler_len (start x) = 2) (spans f) ∧
    (∀ t p, at_position t p →
       denotes f t = true ↔ VPos_is_content p = true ∧ ∃ a,
         state_point s doc p = Done (Some a) ∧ denotes coverage (tumbler a) = true) ∧
    b = negb (SpanSet_is_empty f) ∧
    (b = true ↔ ∃ a, a ∈ vmap (content_list s doc) ∧ denotes coverage (tumbler a) = true).
Proof.
  intros Hs. destruct (project_ok s doc coverage Hs) as (f & Ef & Hc & Hd).
  destruct (any_run_ok _ coverage (rl_ok _ (content_ok s doc Hs))) as (b & Eb & Hb).
  fold (vmap (content_list s doc)) in Hb. exists f, b.
  split_and!; [done|done|apply is_normalized_spec; by exists 2|apply Hc| | |done].
  - intros t p Hp. rewrite (Hd t p Hp). split; intros (Hcp & H); (split; [done|]).
    + destruct H as (Hge & a & Ha & Hcov). exists a. split; [|done].
      rewrite (state_point_ok s doc p (content_list s doc) Hs).
      * by rewrite (proj2 (N.eqb_neq _ _)), Ha by lia.
      * unfold VPos_is_content in Hcp. unfold arr_list. by rewrite Hcp.
    + destruct H as (a & Ha & Hcov). rewrite (state_point_ok s doc p (content_list s doc) Hs) in Ha.
      * destruct (N.eqb_spec (vp_ordinal p) 0); [done|]. injection Ha as Ha. split; [lia|]. by exists a.
      * unfold VPos_is_content in Hcp. unfold arr_list. by rewrite Hcp.
  - apply eq_bool_prop_intro. rewrite !Is_true_true, Hb. split.
    + intros (a & Ha & Hcov). apply list_elem_of_lookup in Ha as [i Hi].
      pose proof (proj2 (Hd (tum [1; 1 + N.of_nat i]%N) (VPos_content (1 + N.of_nat i)) eq_refl)) as H.
      destruct (spans f) as [|x k] eqn:Ex; [|unfold SpanSet_is_empty; by rewrite Ex].
      unfold denotes in H. rewrite Ex in H. discriminate H. split_and!; [done|cbn; lia|].
      exists a. cbn. by replace (N.to_nat (1 + N.of_nat i - 1)) with i by lia.
    + unfold SpanSet_is_empty. destruct (spans f) as [|x k] eqn:Ex; [done|]. intros _.
      pose proof (canonical_class _ _ Hc) as Hin. apply in_class_cons in Hin as [[_ Hx] _].
      destruct (at_position_start x Hx) as [p Hp].
      destruct (proj1 (Hd (start x) p Hp)) as (_ & _ & a & Ha & Hcov).
      { unfold denotes. rewrite Ex. cbn. by rewrite contains_start. }
      exists a. split; [by eapply list_elem_of_lookup_2|done].
Qed.

(** FINDDOCSCONTAINING's two reads. The candidates are the documents with a
    recorded span not [Separated] from a span of the coverage, each once, in the
    tumbler order; and narrowed by presence they are exactly the documents that
    arrange a covered address now: P4★ leaves no false negative, presence admits
    neither a ghost nor a merely adjacent candidate. *)
Lemma finddocs_narrowing (s : M5State) (coverage : SpanSet) :
  state_ok s →
  let docs := state_docs_ever_containing s coverage in
  NoDup docs ∧ StronglySorted (λ a b, tumbler a ≤ₜ tumbler b) docs ∧
  (∀ d, d ∈ docs ↔ ∃ p c, p ∈ recorded (provenance s) d ∧ c ∈ spans coverage ∧
     classify_spans p c ≠ Separated) ∧
  (∀ d, d ∈ docs ∧ arranges_any s d coverage = Done true ↔
     ∃ a, a ∈ vmap (content_list s d) ∧ denotes coverage (tumbler a) = true).
Proof.
  intros Hs. destruct (docs_ever_containing_ok (provenance s) coverage) as (Hin & Hn & Ho).
  assert (Hns : ∀ p c, not_separated p c = true ↔ classify_spans p c ≠ Separated).
  { intros p c. unfold not_separated. by destruct (classify_spans p c). }
  split_and!; [done|done| |].
  - intros d. unfold state_docs_ever_containing. rewrite Hin. by setoid_rewrite Hns.
  - intros d. destruct (any_run_ok _ coverage (rl_ok _ (content_ok s d Hs))) as (b & Eb & Hb).
    unfold arranges_any. rewrite Eb. fold (vmap (content_list s d)) in Hb. split.
    + intros [_ [= ->]]. by apply Hb.
    + intros H. split; [|f_equal; by apply Hb]. apply Hin. destruct H as (a & Ha & Hcov).
      pose proof (so_recorded _ Hs d a Ha) as Hrec. apply any_spec in Hrec as (p & Hp & Hpa).
      apply any_spec in Hcov as (c & Hc & Hca). exists p, c. split_and!; [done|done|].
      by eapply not_separated_overlap.
Qed.

(** C39. SHOWDELETIONS, from the journal. After any replay of well-formed records
    the read does not panic, its spans are level-uniform, ascending by class and
    normalized within each, and it holds a full element position exactly when the
    journal placed it in the document at some record and the document does not
    arrange it now. *)
Theorem deletions_exact (j : list (N * M5Rec)) (doc : Address) :
  journal_ok j →
  ∃ s d, replay genesis j = Done s ∧ deletions s doc = Done d ∧
    Forall (λ x, is_level_uniform x = true) (spans d) ∧
    StronglySorted class_then_order (spans d) ∧
    ∀ a, admits_start a = true →
      denotes d (tumbler a) = true ↔
      a ∈ history no_docs j doc ∧ a ∉ d_content (spec_run no_docs j) doc.
Proof.
  intros Hj. destruct (replay_ok genesis j genesis_ok Hj) as (s & E & [Hs Hd Hg _ _ _ _ _]).
  destruct (deletions_ok s doc Hs) as (d & Ed & Hu & Ho & Hden). exists s, d.
  split_and!; [done|done|done|done|]. intros a Ha. rewrite (Hden a Ha).
  rewrite (grows_from_genesis _ _ Hg doc). destruct Hd as [Hc _].
  change (vmap (content_list s doc)) with (d_content (docs_of s) doc). rewrite Hc.
  rewrite under_some_admits; [done| |done].
  apply history_elements; [apply no_docs_elements|done].
Qed.

Lemma content_count_ok s doc : content_count s doc = count (vmap (content_list s doc)).
Proof. apply total_width_flat. Qed.

Lemma arranges_position_ok s doc ord :
  state_ok s →
  ∃ b, arranges_content_position s doc ord = Done b ∧
    (b = true ↔ (1 ≤ ord ≤ content_count s doc)%N).
Proof.
  intros Hs. pose proof (locate_ok _ ord (content_ok s doc Hs)) as H.
  unfold arranges_content_position. rewrite content_count_ok. unfold count.
  destruct (locate _ ord) as [[[r off]|]|]; [| |done]; cbn; eexists; (split; [reflexivity|]).
  - split; [|done]. intros _. destruct H as (_ & _ & Hne & Hk%lookup_lt_Some). lia.
  - split; [done|]. lia.
Qed.

(** The admission predicates, by what they admit. The position test is the
    arranged ordinals, decided without a panic; a boundary that is also a fresh
    position takes a placement as an append, every arranged position undisturbed;
    a range the two deletion tests admit is removed whole, the count falling by its
    width; the runs past an extent are the content after it, and a seated link is
    one the link arrangement holds. *)
Theorem admission_spec (s : M5State) (doc : Address) (at_ : N) (ord width : Nat) (runs : list Run)
    (lk : Address) :
  state_ok s → runs_ok runs → admits_start lk = true →
  (∃ b, arranges_content_position s doc ord = Done b ∧
     (b = true ↔ (1 ≤ ord ≤ content_count s doc)%N) ∧
     (b = true → contains_content_range s doc ord width = true →
        ∃ s', apply_m5 s at_ (ContentRemove doc ord width) = Done s' ∧
          (content_count s' doc + width = content_count s doc)%N)) ∧
  (admits_content_boundary s doc ord = true →
   names_fresh_content_position s doc (VPos_content ord) = true →
     ∃ s', apply_m5 s at_ (ContentPlace doc ord runs) = Done s' ∧
       vmap (content_list s' doc) = vmap (content_list s doc) ++ flat runs) ∧
  (content_is_empty s doc = true ↔ content_count s doc = 0%N) ∧
  (∃ rs, content_runs_past s doc ord = Done rs ∧ runs_ok rs ∧
     flat rs = drop (N.to_nat ord) (vmap (content_list s doc))) ∧
  ∃ b, seats_link s doc lk = Done b ∧ (b = true ↔ lk ∈ vmap (link_list s doc)).
Proof.
  intros Hs Hr Hl. split_and!.
  - destruct (arranges_position_ok s doc ord Hs) as (b & E & Hb). exists b. split_and!; [done|done|].
    intros ->. apply proj1 in Hb. specialize (Hb eq_refl). intros Hw%N.leb_le.
    destruct (apply_m5_ok s at_ (ContentRemove doc ord width) Hs I) as (s' & E' & [_ [Hd _] _]).
    exists s'. split; [done|]. specialize (Hd doc). cbn in Hd. unfold upd in Hd.
    rewrite decide_True in Hd by done. rewrite !content_count_ok in *. rewrite Hd. unfold remove_at, count in *.
    rewrite length_app, length_take, length_drop. lia.
  - intros [H1%N.leb_le H2%N.leb_le]%andb_prop H3. unfold names_fresh_content_position in H3.
    apply andb_prop in H3 as [_ H3%N.ltb_lt]. cbn in H3.
    destruct (apply_m5_ok s at_ (ContentPlace doc ord runs) Hs Hr) as (s' & E' & [_ [Hd _] _]).
    exists s'. split; [done|]. specialize (Hd doc). cbn in Hd. unfold upd in Hd.
    rewrite decide_True in Hd by done. rewrite Hd, content_count_ok in *. unfold insert_at, count in *.
    rewrite take_ge, drop_ge by lia. by rewrite app_nil_r.
  - unfold content_is_empty. rewrite (nonemptyb_runs_flat _ (content_ok s doc Hs)), content_count_ok.
    unfold count. case_bool_decide as Hv; [by rewrite Hv|]. split; [done|].
    destruct (vmap _); [done|cbn; lia].
  - unfold content_runs_past, iter_resolve_from.
    destruct (clipped_runs_ok _ (N.max (ord + 1) 1) None (content_ok s doc Hs)) as (rs & -> & Hrs & Hf);
      [lia|done|]. exists rs. split_and!; [done|done|]. rewrite Hf. cbn [upto]. f_equal. lia.
  - destruct (lists_ok s doc Hs) as [_ Hlk]. unfold seats_link, holds.
    destruct (any_holds_ok lk _ (rl_ok _ Hlk)) as (b & -> & Hb). exists b. split; [done|].
    rewrite Hb. by apply under_some_element; [apply Hlk|].
Qed.

(** ** The claims at the sample journal *)

Lemma sample_replay : ∃ s, replay genesis sample_journal = Done s ∧ state_ok s.
Proof.
  destruct (replay_ok genesis _ genesis_ok sample_journal_ok) as (s & E & [H _ _ _ _ _ _ _]).
  exact (ex_intro _ s (conj E H)).
Qed.

Definition sample_coverage : SpanSet := from_iter [subtree_of (tumbler sample_start)].

Lemma resolve_point_agree_witness :
  ∃ s o, replay genesis sample_journal = Done s ∧
    state_point s sample_doc (VPos_content 2) = Done o.
Proof.
  destruct sample_replay as (s & E & Hs).
  destruct (resolve_point_agree s sample_doc (subtree_of (tumbler sample_start)) (VPos_content 2) Hs)
    as ((o & Ho & _) & _). exists s, o. exact (conj E Ho).
Defined.

Lemma project_exact_witness :
  ∃ s f, replay genesis sample_journal = Done s ∧ project s sample_doc sample_coverage = Done f ∧
    is_normalized f = true.
Proof.
  destruct sample_replay as (s & E & Hs).
  destruct (project_exact s sample_doc sample_coverage Hs) as (f & b & Ef & _ & Hn & _).
  exists s, f. exact (conj E (conj Ef Hn)).
Defined.

Lemma deletions_exact_witness :
  ∃ s d, replay genesis sample_journal = Done s ∧ deletions s sample_doc = Done d ∧
    denotes d (tumbler (addr_shift sample_start 1)) = true.
Proof.
  destruct (deletions_exact sample_journal sample_doc sample_journal_ok) as (s & d & E & Ed & _ & _ & H).
  exists s, d. split_and!; [done|done|]. apply H; [by apply admits_shift|].
  split.
  - apply (bool_decide_unpack (addr_shift sample_start 1 ∈ history no_docs sample_journal sample_doc)).
    vm_compute. exact I.
  - apply (bool_decide_unpack (addr_shift sample_start 1 ∉
      d_content (spec_run no_docs sample_journal) sample_doc)).
    vm_compute. exact I.
Defined.

Lemma admission_spec_witness :
  ∃ s b, replay genesis sample_journal = Done s ∧ seats_link s sample_doc sample_start = Done b.
Proof.
  destruct sample_replay as (s & E & Hs).
  destruct (admission_spec s sample_doc 9 1 1 [] sample_start Hs runs_ok_nil eq_refl)
    as (_ & _ & _ & _ & b & Hb & _). exists s, b. exact (conj E Hb).
Defined.
