(* ===== verification/Views.v ===== *)
(** * A view of the world

    A component reads a part of the world and pushes records of its own; the world's
    fold, seen through that part, is the part's. What such a component stages folds
    once at each record's own position and again at the marker's, so its theorems
    speak of the part up to the positions the folds stamp. This file is that argument
    once: a transaction whose body keeps to one view, from what the body promises of
    the staged view to what the kernel's root shows after the call. *)

From S2P Require Import Prelude Txns.

Section Views.
Context {W R : Type} `{WS : WorldState W R}.
#[local] Notation Staging := (Staging (W := W) (R := R)).

Lemma pushes_trans (s1 s2 s3 : Staging) : pushes s1 s2 → pushes s2 s3 → pushes s1 s3.
Proof using. intros H12 H23. induction H23; [done|by eapply pushes_more]. Qed.

(** Records staged on a base, each folded at its own position. *)
Inductive staged_by {V RV : Type} (step : V → Seq → RV → outcome V) (s : V) : list RV → V → Prop :=
  | staged_none : staged_by step s [] s
  | staged_more rs u at_ r u' : staged_by step s rs u → step u at_ r = Done u' → staged_by step s (rs ++ [r]) u'.

Context {V RV : Type} (view : W → V) (of_view : RV → R) (step : V → Seq → RV → outcome V).
Context (view_fold : ∀ w at_ r, view <$> apply w at_ (of_view r) = step (view w) at_ r).

Definition fold_view (v : V) (at_ : Seq) (rs : list RV) : outcome V := fold_world (H := step) v at_ rs.

Lemma fold_view_world (w : W) at_ (rs : list RV) :
  view <$> fold_world w at_ (of_view <$> rs) = fold_view (view w) at_ rs.
Proof using view_fold.
  unfold fold_view. revert w. induction rs as [|r rs IH]; intros w; [done|].
  rewrite fmap_cons, !fold_world_cons. change (apply (view w) at_ r) with (step (view w) at_ r).
  rewrite <- view_fold. destruct (apply w at_ (of_view r)) as [w'|]; [|done]. cbn. apply IH.
Qed.

(** A push of the view's record is the view's fold. *)
Lemma push_view (stg : Staging) r :
  (∀ at_, ∃ v', step (view (working stg)) at_ r = Done v') →
  ∃ stg' at_, push stg (of_view r) = Done stg' ∧ step (view (working stg)) at_ r = Done (view (working stg')) ∧
    stg_records stg' = stg_records stg ++ [of_view r] ∧ stg_base stg' = stg_base stg.
Proof using view_fold.
  intros Hd. unfold push. cbv zeta.
  generalize ((stg_first stg + N.of_nat (length (stg_records stg))) mod 2 ^ 64)%N. intros at_.
  destruct (Hd at_) as (v' & Hv). unfold working in *.
  pose proof (view_fold (stg_working stg) at_ r) as Hf. rewrite Hv in Hf.
  destruct (apply (stg_working stg) at_ (of_view r)) as [w|]; [|done]. cbn.
  eexists _, at_. split; [reflexivity|]. split; [|done]. rewrite Hv. cbn in *. congruence.
Qed.

(** ** A staging, as the view's records folded on a base *)

Definition on_view (v : V) (rs : list RV) (stg : Staging) : Prop :=
  stg_records stg = of_view <$> rs ∧ staged_by step v rs (view (working stg)).

Lemma on_view_new root first : on_view (view (c_world root)) [] (Staging_new root first).
Proof using. split; [done|constructor]. Qed.

Lemma on_view_push v rs stg r (P : V → Prop) :
  on_view v rs stg → (∀ at_, ∃ v', step (view (working stg)) at_ r = Done v' ∧ P v') →
  ∃ stg', push stg (of_view r) = Done stg' ∧ on_view v (rs ++ [r]) stg' ∧ P (view (working stg')) ∧ stg_base stg' = stg_base stg.
Proof using view_fold.
  intros [Hr Hs] Hd. destruct (push_view stg r) as (stg' & at_ & Hp & Ha & Hrec & Hb).
  { intros at_. destruct (Hd at_) as (v' & ? & _). by exists v'. }
  destruct (Hd at_) as (v' & Ha' & HP). rewrite Ha in Ha'. injection Ha' as <-.
  exists stg'. split; [done|]. split; [|done]. split; [by rewrite Hrec, Hr, fmap_app|by eapply staged_more].
Qed.

(** ** Positions aside *)

Context (same : V → V → Prop) (same_refl : ∀ v, same v v).
Context (same_step : ∀ u s at1 at2 r u', step u at1 r = Done u' → same u s → ∃ s', step s at2 r = Done s' ∧ same u' s').

(** Sealing staged records at one coordinate leaves the same view. *)
Lemma staged_by_seal s rs u at_ : staged_by step s rs u → ∃ u', fold_view s at_ rs = Done u' ∧ same u u'.
Proof using same_refl same_step.
  unfold fold_view. induction 1 as [|rs u at1 r u1 _ (u' & Hf & Hs) Hr]; [by exists s|].
  destruct (same_step u u' at1 at_ r u1 Hr Hs) as (u1' & Hr' & Hs').
  exists u1'. split; [|done]. rewrite fold_world_app, Hf. exact Hr'.
Qed.

Lemma fold_staged (w w' : W) at_ rs u :
  staged_by step (view w) rs u → fold_world w at_ (of_view <$> rs) = Done w' →
  fold_view (view w) at_ rs = Done (view w') ∧ same u (view w').
Proof using view_fold same_refl same_step.
  intros Hs Hf. pose proof (fold_view_world w at_ rs) as H. rewrite Hf in H. cbn in H.
  destruct (staged_by_seal _ rs u at_ Hs) as (u' & Hu & Hsame). rewrite Hu in H.
  injection H as <-. by rewrite Hu.
Qed.

(** ** A whole call *)

Context {Bytes : Type} (encode_record : R → Bytes).
#[local] Notation Kernel := (Kernel (W := W) (Bytes := Bytes)).

(** What a body of the view does on a staging of its base: it refuses, or answers with
    its records staged. *)
Definition body_ends {T E} (m : outcome (result T E * Staging)) (refuses : E → Prop) (Q : T → Staging → Prop) : Prop :=
  match m with
  | Panicked => False
  | Done (Err e, _) => refuses e
  | Done (Ok v, stg) => Q v stg
  end.

(** A body as a call: total, its root the old one or its records folded on it, its
    refusals the body's. *)
Lemma view_ends {T E} (k : Kernel) answer (f : Staging → outcome (result T E * Staging)) refuses (Q : T → list RV → V → Prop) :
  let root j := view (c_world (k_root j)) in
  let folded v at_ k' := ∃ rs u, Q v rs u ∧ same u (root k') ∧ fold_view (root k) at_ rs = Done (root k') in
  closure f →
  (∀ first, body_ends (f (Staging_new (k_root k) first)) refuses
     (λ v stg', ∃ rs, on_view (root k) rs stg' ∧ Q v rs (view (working stg')))) →
  ∃ k' e, transact encode_record k answer f = Done (k', e) ∧
    (k_root k' = k_root k ∨ ∃ v at_, folded v at_ k') ∧
    match e with
    | Returned (Ok (v, at_)) => folded v at_ k'
    | Returned (Err (Rejected er)) => k' = k ∧ refuses er
    | _ => True
    end.
Proof using view_fold same_refl same_step.
  intros root folded Hf Hb. destruct (transact_done encode_record k answer f Hf) as (k' & e & Ht).
  { intros first. specialize (Hb first). destruct (f _) as [[r stg]|]; [|done]. exists r, stg. split; [done|].
    intros v at_ ->. destruct Hb as (rs & [-> Hst] & _). destruct (staged_by_seal _ rs _ at_ Hst) as (u' & Hu & _).
    pose proof (fold_view_world (c_world (k_root k)) at_ rs) as H. subst root. cbv beta in Hu. rewrite Hu in H.
    destruct (fold_world (c_world (k_root k)) at_ (of_view <$> rs)) as [w|]; [by exists w|done]. }
  assert (Hfold : ∀ v first stg at_, f (Staging_new (k_root k) first) = Done (Ok v, stg) →
    fold_world (c_world (k_root k)) at_ (stg_records stg) = Done (c_world (k_root k')) → folded v at_ k').
  { intros v first stg at_ Hs Hw. specialize (Hb first). rewrite Hs in Hb. destruct Hb as (rs & [Hrs Hst] & HQ).
    rewrite Hrs in Hw. destruct (fold_staged _ _ _ _ _ Hst Hw) as [Hfold Hsame]. by exists rs, (view (working stg)). }
  exists k', e. split; [done|]. destruct (transact_inv encode_record k answer f k' e Hf Ht) as [Hr He]. split.
  - destruct Hr as [Hr|(v & first & stg & Hs & Hw)]; [by left|right]. exists v, (c_seq (k_root k')). by eapply Hfold.
  - destruct e as [[[v at_]|[er| | | |]]|]; try done.
    + destruct He as (first & stg & Hs & Hw). by eapply Hfold.
    + destruct He as (-> & first & stg & Hs). split; [done|]. specialize (Hb first). by rewrite Hs in Hb.
Qed.
End Views.
