(* ===== verification/World.v ===== *)
(** * The world the editing operations commit against

    The three slices the arrangement's operations read and write, folded as
    [crates/skep-engine/src/world.rs] folds them ([WorldState::apply], the
    namespace, content, stretch and arrangement arms, and the fold-side check
    [stretch_within_frontier]); the interface by which any world that carries the
    slices offers them ([HasM3], [HasContent] and [HasM5] of the crates, with the one
    law that ties the accessors to the fold); and the monad of a transaction's
    closure, a staging and a typed refusal threaded through, over
    [crates/skep-kernel]'s [Staging]. *)

From stdpp Require Import gmap.
From S2P Require Import Prelude Txns Views Tumblers Addresses AddrMaps Arith NsKeys NsState NsLaws NsOps NsInv Runs Content RunLists Provenance ArrState.

(** ** The slices *)

Record Slices := MkSlices {
  sl_namespace : M3State;
  sl_content : gmap Address Stored;
  sl_arrangement : M5State
}.

(** [Record], the variants of these slices. *)
Inductive CoreRec :=
  | RecNamespace (r : M3Rec)
  | RecContent (r : ContentWrite)
  | RecContentStretch (r : ContentStretch)
  | RecArrangement (r : M5Rec).

Definition stretch_within_frontier (namespace : M3State) (stretch : ContentStretch) : outcome bool :=
  match document_of (cs_first stretch) with
  | None => Done true
  | Some home =>
      next ← next_content_address namespace home;
      Done match next with
        | None => true
        | Some next => ContentStretch_reach stretch ≤?ₜ tumbler next
        end
  end.

Definition apply_slices (debug : bool) (w : Slices) (at_ : Seq) (r : CoreRec) : outcome Slices :=
  match r with
  | RecNamespace x =>
      n ← apply_m3 (sl_namespace w) at_ x;
      Done (MkSlices n (sl_content w) (sl_arrangement w))
  | RecContent x =>
      c ← apply_write debug (sl_content w) x;
      Done (MkSlices (sl_namespace w) c (sl_arrangement w))
  | RecContentStretch x =>
      within ← (if debug then stretch_within_frontier (sl_namespace w) x else Done true);
      _ ← assert within;
      c ← apply_stretch debug (sl_content w) x;
      Done (MkSlices (sl_namespace w) c (sl_arrangement w))
  | RecArrangement x =>
      a ← apply_m5 (sl_arrangement w) at_ x;
      Done (MkSlices (sl_namespace w) (sl_content w) a)
  end.

(** ** The interface *)

(** A world that carries the slices: accessors, an injection of their records, and
    a fold that agrees with theirs. *)
Class HasSlices (debug : bool) (W R : Type) `{WorldState W R} := {
  slices : W → Slices;
  of_core : CoreRec → R;
  slices_fold : ∀ w at_ r, slices <$> apply w at_ (of_core r) = apply_slices debug (slices w) at_ r
}.

(** The slices are a world by themselves, in either build. *)
#[export] Instance slices_world (debug : bool) : WorldState Slices CoreRec | 10 := apply_slices debug.

Lemma slices_self_fold debug (w : Slices) at_ r :
  (λ s : Slices, s) <$> apply_slices debug w at_ r = apply_slices debug w at_ r.
Proof. by destruct (apply_slices debug w at_ r). Qed.

#[export] Instance slices_has_slices debug :
  HasSlices debug Slices CoreRec (H := slices_world debug) | 10 :=
  {| slices := λ w, w; of_core := λ r, r; slices_fold := slices_self_fold debug |}.

(** ** The closure of a transaction *)

Section Closure.
Context {W R : Type} `{WS : WorldState W R}.
#[local] Notation Staging := (Staging (W := W) (R := R)).

(** A closure's body: it reads and pushes on the staging, refuses, or panics. *)
Definition Txn (E A : Type) : Type := Staging → outcome (result A E * Staging).

Definition txn_ret {E A} (a : A) : Txn E A := λ stg, Done (Ok a, stg).

(** [?] and sequencing: a refusal ends the body. *)
Definition txn_bind {E A B} (m : Txn E A) (f : A → Txn E B) : Txn E B := λ stg,
  '(r, stg) ← m stg;
  match r with Ok a => f a stg | Err e => Done (Err e, stg) end.

Definition refused {E A} (e : E) : Txn E A := λ stg, Done (Err e, stg).

(** [stg.working()]. *)
Definition working_world {E} : Txn E W := λ stg, Done (Ok (working stg), stg).

Definition from_result {E A} (r : result A E) : Txn E A := λ stg, Done (r, stg).

(** A call that may panic. *)
Definition from_outcome {E A} (m : outcome A) : Txn E A := λ stg, a ← m; Done (Ok a, stg).

(** [stg.push(..)]. *)
Definition stage {E} (r : R) : Txn E unit := λ stg, stg ← push stg r; Done (Ok tt, stg).

Definition refuse_if {E} (b : bool) (e : E) : Txn E unit := if b then refused e else txn_ret tt.
End Closure.

Declare Scope txn_scope.
Delimit Scope txn_scope with txn.
Notation "x ←ₜ m ; k" := (txn_bind m (λ x, k))
  (at level 20, m at level 100, k at level 200, right associativity) : txn_scope.
Notation "' p ←ₜ m ; k" := (txn_bind m (λ x, match x with p => k end))
  (at level 20, p pattern, m at level 100, k at level 200, right associativity) : txn_scope.

(** ** Laws of the interface *)

Section Interface.
Context {debug : bool} {W R : Type} `{WS : WorldState W R} `{HS : !HasSlices debug W R}.
#[local] Notation Staging := (Staging (W := W) (R := R)).

(** The namespace's own interface is a part of this one. *)
#[export] Instance slices_m3 : HasM3 W R.
Proof using HS.
  refine {| m3 := λ w, sl_namespace (slices w); of_m3 := λ r, of_core (RecNamespace r) |}.
  intros w at_ r. pose proof (slices_fold w at_ (RecNamespace r)) as H. cbn [apply_slices] in H.
  destruct (apply w at_ (of_core (RecNamespace r))) as [w'|]; cbn in *.
  - destruct (apply_m3 (sl_namespace (slices w)) at_ r) as [n|]; [|done]. cbn in H.
    injection H as H. by rewrite H.
  - by destruct (apply_m3 (sl_namespace (slices w)) at_ r).
Defined.

(** [world.content()] and [world.m5()]. *)
Definition content_store (w : W) : gmap Address Stored := sl_content (slices w).
Definition m5 (w : W) : M5State := sl_arrangement (slices w).

Definition view (stg : Staging) : Slices := slices (working stg).

Definition fold_slices (s : Slices) (at_ : Seq) (rs : list CoreRec) : outcome Slices :=
  fold_world (H := slices_world debug) s at_ rs.

Lemma fold_slices_world (w : W) at_ (rs : list CoreRec) :
  slices <$> fold_world w at_ (of_core <$> rs) = fold_slices (slices w) at_ rs.
Proof using. apply fold_view_world, slices_fold. Qed.

(** *** Closures *)

Lemma closure_ret {E A} (a : A) : closure (txn_ret a : Txn E A).
Proof using. intros s r s' [= <- <-]. constructor. Qed.

Lemma closure_refused {E A} (e : E) : closure (refused e : Txn E A).
Proof using. intros s r s' [= <- <-]. constructor. Qed.

Lemma closure_working {E} : closure (working_world : Txn E W).
Proof using. intros s r s' [= <- <-]. constructor. Qed.

Lemma closure_from_result {E A} (x : result A E) : closure (from_result x : Txn E A).
Proof using. intros s r s' [= <- <-]. constructor. Qed.

Lemma closure_from_outcome {E A} (m : outcome A) : closure (from_outcome m : Txn E A).
Proof using. intros s r s' (a & _ & [= <- <-])%bind_inv. constructor. Qed.

Lemma closure_stage {E} r : closure (stage r : Txn E unit).
Proof using. intros s x s' (stg & Hp & [= <- <-])%bind_inv. eapply pushes_more; [constructor|exact Hp]. Qed.

Lemma closure_refuse_if {E} b (e : E) : closure (refuse_if b e : Txn E unit).
Proof using. destruct b; [apply closure_refused|apply closure_ret]. Qed.

Lemma closure_bind {E A B} (m : Txn E A) (f : A → Txn E B) :
  closure m → (∀ a, closure (f a)) → closure (txn_bind m f).
Proof using.
  intros Hm Hf s r s' ([x s1] & H1 & H2)%bind_inv. destruct x as [a|e].
  - eapply pushes_trans; [by eapply Hm|by eapply Hf].
  - injection H2 as <- <-. by eapply Hm.
Qed.

(** *** What a body does, gate by gate *)

Definition txn_spec {E A} (m : Txn E A) (stg : Staging) (gates : list (E * Prop))
    (Q : A → Staging → Prop) : Prop :=
  match m stg with
  | Panicked => False
  | Done (Err e, _) => first_refusal gates e
  | Done (Ok a, stg') => Forall (λ g, ¬ g.2) gates ∧ Q a stg'
  end.

Lemma spec_ret {E A} (a : A) stg (Q : A → Staging → Prop) : Q a stg → txn_spec (txn_ret a : Txn E A) stg [] Q.
Proof using. by split. Qed.

Lemma spec_bind {E A B} (m : Txn E A) (f : A → Txn E B) stg gates Q a stg' :
  m stg = Done (Ok a, stg') → txn_spec (f a) stg' gates Q → txn_spec (txn_bind m f) stg gates Q.
Proof using. intros Hm. unfold txn_spec, txn_bind. by rewrite Hm. Qed.

Lemma spec_refuse {E B} (b : bool) (e : E) (P : Prop) (f : unit → Txn E B) stg gates Q :
  (b = true ↔ P) → (b = false → txn_spec (f tt) stg gates Q) →
  txn_spec (txn_bind (refuse_if b e) f) stg ((e, P) :: gates) Q.
Proof using.
  intros HP Hf. unfold txn_spec, txn_bind, refuse_if. destruct b; cbn.
  - apply first_refusal_here. by apply HP.
  - specialize (Hf eq_refl). unfold txn_spec in Hf.
    assert (Hn : ¬ P) by (intros H; by apply HP in H).
    destruct (f tt stg) as [[[a|e']  stg']|]; [|by apply first_refusal_next|done].
    destruct Hf as [Hg HQ]. split; [by constructor|done].
Qed.

Lemma spec_working {E B} (f : W → Txn E B) stg gates Q :
  txn_spec (f (working stg)) stg gates Q → txn_spec (txn_bind working_world f) stg gates Q.
Proof using. done. Qed.

Lemma spec_outcome {E A B} (m : outcome A) (a : A) (f : A → Txn E B) stg gates Q :
  m = Done a → txn_spec (f a) stg gates Q → txn_spec (txn_bind (from_outcome m) f) stg gates Q.
Proof using. intros ->. done. Qed.

Lemma spec_stage {E B} r (f : unit → Txn E B) stg stg' gates Q :
  push stg r = Done stg' → txn_spec (f tt) stg' gates Q → txn_spec (txn_bind (stage r) f) stg gates Q.
Proof using. intros Hp Hs. unfold txn_spec, txn_bind, stage. by rewrite Hp. Qed.
End Interface.

(** ** Positions aside

    A transaction of several records folds each at its own coordinate while it is
    staged and again at the marker's when it is sealed; the two folds leave the same
    slices but for the positions they stamp (the mint positions, [arranged_at], a
    draft marker's [at]). *)

Record same_slices (u s : Slices) : Prop := {
  same_frontiers : frontiers (sl_namespace s) = frontiers (sl_namespace u);
  same_nodes : nodes (sl_namespace s) = nodes (sl_namespace u);
  same_principals : principals (sl_namespace s) = principals (sl_namespace u);
  same_publication : publication (sl_namespace s) = publication (sl_namespace u);
  same_minted : ∀ a, is_Some (minted_at (sl_namespace s) !! a) ↔ is_Some (minted_at (sl_namespace u) !! a);
  same_content : sl_content s = sl_content u;
  same_arrangements : arrangements (sl_arrangement s) = arrangements (sl_arrangement u);
  same_provenance : provenance (sl_arrangement s) = provenance (sl_arrangement u);
  same_births : birth_extents (sl_arrangement s) = birth_extents (sl_arrangement u);
  same_terms : shot_terms (sl_arrangement s) = shot_terms (sl_arrangement u);
  same_sources : fork_sources (sl_arrangement s) = fork_sources (sl_arrangement u);
  same_bases : db_base <$> draft_bases (sl_arrangement s) = db_base <$> draft_bases (sl_arrangement u)
}.

#[export] Instance same_slices_refl : Reflexive same_slices.
Proof. by split. Qed.

Lemma apply_m3_same u s at1 at2 r u' :
  apply_m3 u at1 r = Done u' →
  frontiers s = frontiers u → nodes s = nodes u → principals s = principals u → publication s = publication u →
  (∀ a, is_Some (minted_at s !! a) ↔ is_Some (minted_at u !! a)) →
  ∃ s', apply_m3 s at2 r = Done s' ∧ frontiers s' = frontiers u' ∧ nodes s' = nodes u' ∧
    principals s' = principals u' ∧ publication s' = publication u' ∧
    (∀ a, is_Some (minted_at s' !! a) ↔ is_Some (minted_at u' !! a)).
Proof.
  destruct u as [f n p b m], s as [f' n' p' b' m']; cbn. intros Hu -> -> -> -> Hm.
  destruct r as [[a pub]|x|[x id]|[a count]]; unfold apply_m3, effective_frontier in *; cbn in *.
  - destruct (expect_some (namespace_of a)) as [key|]; [|done]. cbn in *.
    destruct (assert _) as [[]|]; [|done]. injection Hu as <-. eexists. split_and!; [done..|].
    intros b'. cbn. destruct (_ || _); [|done]. by rewrite !insert_absent_is_Some, Hm.
  - injection Hu as <-. eexists. by split_and!.
  - injection Hu as <-. eexists. by split_and!.
  - destruct (expect_some (namespace_of a)) as [key|]; [|done]. cbn in *.
    destruct (assert _) as [[]|]; [|done]. cbn in *. destruct (nat_sub _ _) as [k|]; [|done]. injection Hu as <-.
    eexists. by split_and!.
Qed.

#[local] Arguments splice_in : simpl never.
#[local] Arguments remove_range : simpl never.
#[local] Arguments reorder : simpl never.
#[local] Arguments provenance_append : simpl never.
#[local] Arguments RunList_is_empty : simpl never.
#[local] Arguments nonemptyb : simpl never.

Lemma apply_m5_same u s at1 at2 r u' :
  apply_m5 u at1 r = Done u' →
  arrangements s = arrangements u → provenance s = provenance u → birth_extents s = birth_extents u →
  shot_terms s = shot_terms u → fork_sources s = fork_sources u →
  db_base <$> draft_bases s = db_base <$> draft_bases u →
  ∃ s', apply_m5 s at2 r = Done s' ∧ arrangements s' = arrangements u' ∧ provenance s' = provenance u' ∧
    birth_extents s' = birth_extents u' ∧ shot_terms s' = shot_terms u' ∧ fork_sources s' = fork_sources u' ∧
    db_base <$> draft_bases s' = db_base <$> draft_bases u'.
Proof.
  destruct u as [a p b t f m d], s as [a' p' b' t' f' m' d']; cbn. intros Hu -> -> -> -> -> Hd.
  destruct r; unfold apply_m5, arrangements_with_content, arrangements_with_link, content_list,
    arrangement_of, birth_extents_noting in *; cbn in *.
  - destruct (splice_in _ _ _) as [c|]; [|done]. cbn in *.
    destruct (provenance_append _ _ _); [|done]. injection Hu as <-. eexists. by split.
  - destruct (remove_range _ _ _) as [c|]; [|done]. injection Hu as <-. eexists. by split.
  - destruct (reorder _ _) as [c|]; [|done]. injection Hu as <-. eexists. by split.
  - apply bind_inv in Hu as (arrs & Ha & [= <-]). rewrite Ha. eexists. by split.
  - destruct (RunList_is_empty _).
    + injection Hu as <-. eexists. by split.
    + destruct (provenance_append _ _ _); [|done]. injection Hu as <-. eexists. by split.
  - destruct (splice_in _ _ _) as [c|]; [|done]. cbn in *. destruct (negb _).
    + injection Hu as <-. eexists. split_and!; try done. cbn. destruct draft; [|done]. by rewrite !fmap_insert, Hd.
    + destruct (provenance_append _ _ _); [|done]. injection Hu as <-. eexists. split_and!; try done. cbn.
      destruct draft; [|done]. by rewrite !fmap_insert, Hd.
  - injection Hu as <-. eexists. split_and!; try done. cbn. by rewrite !fmap_insert, Hd.
Qed.

Lemma stretch_within_same u s x :
  frontiers s = frontiers u → nodes s = nodes u → stretch_within_frontier s x = stretch_within_frontier u x.
Proof. destruct u, s; cbn. by intros -> ->. Qed.

Lemma apply_slices_same debug u s at1 at2 r u' :
  apply_slices debug u at1 r = Done u' → same_slices u s →
  ∃ s', apply_slices debug s at2 r = Done s' ∧ same_slices u' s'.
Proof.
  destruct u as [n c a], s as [n' c' a']. intros Hu [H1 H2 H3 H4 H5 H6 H7 H8 H9 H10 H11 H12]. cbn in *. subst c'.
  destruct r as [r|r|r|r]; cbn [apply_slices sl_namespace sl_content sl_arrangement] in *.
  - apply bind_inv in Hu as (m & Hm & [= <-]).
    destruct (apply_m3_same n n' at1 at2 r m Hm) as (m' & -> & ? & ? & ? & ? & ?); [done..|].
    eexists. split; [reflexivity|]. by split.
  - apply bind_inv in Hu as (m & Hm & [= <-]). rewrite Hm. eexists. split; [reflexivity|]. by split.
  - rewrite (stretch_within_same n n') by done.
    apply bind_inv in Hu as (within & -> & Hu). apply bind_inv in Hu as ([] & Ha & Hu).
    apply bind_inv in Hu as (m & Hm & [= <-]). cbn [mbind outcome_bind]. rewrite Ha. cbn [mbind outcome_bind].
    rewrite Hm. eexists. split; [reflexivity|]. by split.
  - apply bind_inv in Hu as (m & Hm & [= <-]).
    destruct (apply_m5_same a a' at1 at2 r m Hm) as (m' & -> & ? & ? & ? & ? & ? & ?); [done..|].
    eexists. split; [reflexivity|]. by split.
Qed.

(** Records staged on a base, each folded at its own position. *)
Notation staged debug := (staged_by (apply_slices debug)).

(** Sealing them at one coordinate leaves the same slices. *)
Lemma staged_seal debug s rs u at_ :
  staged debug s rs u → ∃ u', fold_world (H := slices_world debug) s at_ rs = Done u' ∧ same_slices u u'.
Proof. apply staged_by_seal; [done|]. intros u1 s1 at1 at2 r u1' Hr Hs. by apply (apply_slices_same debug u1 s1 at1 at2). Qed.
