(* ===== verification/Edits.v ===== *)
(** * The editing and versioning operations

    Models [crates/skep-arrangement/src/ops.rs] and [ops/insert.rs], [ops/delete.rs],
    [ops/rearrange.rs], [ops/copy.rs], [ops/reinstate.rs], [ops/version.rs],
    [ops/stage.rs], [ops/set_arrangement.rs], with [ownership.rs], [deposit.rs],
    [seat.rs], the run's origin of [shot.rs] and the refusals of [error.rs]: each
    operation is the body of one transaction over the working world, its checks in the
    code's order, its records pushed as the code pushes them. The lock keys a call
    passes are not read by any body and are left out. A count compared with a budget
    is an [N]. *)

From stdpp Require Import gmap.
From S2P Require Import Prelude Txns Tumblers Addresses AddrMaps Arith Spans NsKeys NsState NsOps Runs Content RunLists VSpace Provenance Chain ArrState ArrReads World.

#[local] Open Scope txn_scope.

(** ** Ownership ([ownership.rs]) *)

Inductive Caller := Caller_Principal (p : PrincipalId) | Caller_System.

Definition is_owner (c : Caller) (m3 : M3State) (doc : Address) : bool :=
  match c with
  | Caller_System => true
  | Caller_Principal p => is_effective_owner m3 p doc
  end.

Definition passes_ownership_gate (c : Caller) (m3 : M3State) (doc : Address) : bool :=
  is_registered_document m3 doc && is_owner c m3 doc.

Definition gate_write {E} (m3 : M3State) (caller : Caller) (doc : Address)
    (not_registered : E) (not_owner : Address → E) : result unit E :=
  if negb (is_registered_document m3 doc) then Err not_registered
  else if negb (is_owner caller m3 doc) then Err (not_owner doc)
  else Ok tt.

(** ** What the operations share ([ops.rs], [deposit.rs], [shot.rs]) *)

Definition MAX_PLACED_RUNS : N := 65536%N.
Definition MAX_COPY_RESOLVE_STEPS : N := 1048576%N.

Inductive AsOf := Typed (s : Seq) | Unchecked.

Definition arrangement_moved (m5 : M5State) (doc : Address) (as_of : AsOf) : option (Seq * Seq) :=
  match as_of with
  | Unchecked => None
  | Typed typed =>
      match arranged_at_of m5 doc with
      | Some current => if (typed <? current)%N then Some (typed, current) else None
      | None => None
      end
  end.

Inductive Deposit := Undeclared | Declared (ty : Address).

Definition COMMONS_TYPE_SUBSPACE : Nat := 3%N.
Definition DEPOSIT_CLASS_ORDINALS : list Nat := [1; 2; 55; 56]%N.

Definition deposit_class_types_at : outcome (list Address) :=
  outcome_map (λ ordinal,
    expect_ok (elem_addr (MkElemPos ghost_home_document COMMONS_TYPE_SUBSPACE ordinal)))
    DEPOSIT_CLASS_ORDINALS.

Definition deposit_class_types : list Address := total deposit_class_types_at eq_refl.

Definition run_origin_document (run : Run) : option Address :=
  if negb (bool_decide (subspace (i_start run) = Some content_subspace)) then None
  else trunk_of <$> document_of (i_start run).

Record ShotRun := MkShotRun { sr_origin : Address; sr_run : Run }.

Record Base := MkBase { ba_member : Address; ba_extent : Nat }.

(** ** Link seating ([seat.rs]) *)

Inductive SeatError := NotLinkAddress | NotHomeLink | AlreadySeated.

Definition stage_seat_link (m5 : M5State) (doc link : Address) : outcome (result M5Rec SeatError) :=
  if negb (admits_start link) || negb (bool_decide (subspace link = Some link_subspace))
  then Done (Err NotLinkAddress)
  else if negb (bool_decide (document_of link = Some doc)) then Done (Err NotHomeLink)
  else
    seated ← seats_link m5 doc link;
    Done match seated with true => Err AlreadySeated | false => Ok (LinkSeat doc link) end.

Section Shared.
Context {debug : bool} {W R : Type} `{WS : WorldState W R} `{HS : !HasSlices debug W R}.
#[local] Notation Txn := (Txn (W := W) (R := R)).

(** *** J0's two steps *)

Definition allocate_for_placement {E} (of_mint : MintError → E) (of_content : ContentError → E)
    (home : Address) (value : list Byte.byte) (runs : list Run) : Txn E (list Run) := (
  w ←ₜ working_world;
  minted ←ₜ from_outcome (mint_content (m3 w) home);
  '(addr, m3rec) ←ₜ from_result (map_err of_mint minted);
  _ ←ₜ stage (of_core (RecNamespace m3rec));
  w ←ₜ working_world;
  write ←ₜ from_outcome (stage_write debug (content_store w) addr value);
  write ←ₜ from_result (map_err of_content write);
  _ ←ₜ stage (of_core (RecContent write));
  txn_ret (extend_or_push_run runs (MkRun addr 1)))%txn.

(** The count a range mint's record carries. *)
Definition minted_count (r : M3Rec) : option Nat :=
  match r with AllocateRange range => Some (ra_count range) | _ => None end.

Definition allocate_stretch_for_placement {E} (of_mint : MintError → E) (of_content : ContentError → E)
    (home : Address) (bytes : list Byte.byte) (runs : list Run) : Txn E (list Run) := (
  let width := N.of_nat (length bytes) in
  w ←ₜ working_world;
  minted ←ₜ from_outcome (mint_content_range (m3 w) home width);
  '(first, m3rec) ←ₜ from_result (map_err of_mint minted);
  let count := minted_count m3rec in
  _ ←ₜ stage (of_core (RecNamespace m3rec));
  w ←ₜ working_world;
  stretch ←ₜ from_outcome (stage_stretch debug (content_store w) first bytes);
  stretch ←ₜ from_result (map_err of_content stretch);
  let written := N.of_nat (ContentStretch_len stretch) in
  _ ←ₜ stage (of_core (RecContentStretch stretch));
  _ ←ₜ from_outcome (debug_assert debug (bool_decide (count = Some written)));
  txn_ret (extend_or_push_run runs (MkRun first width)))%txn.
End Shared.

(** ** DELETE ([ops/delete.rs]) *)

Module Delete.
Inductive DeleteError :=
  | DocNotRegistered
  | NotOwner (a : Address)
  | PublishedTarget
  | ArrangementMoved (as_of current : Seq)
  | NotContentSubspace
  | NotArranged
  | OutOfBounds
  | EmptyWidth.

Section Delete.
Context {debug : bool} {W R : Type} `{WS : WorldState W R} `{HS : !HasSlices debug W R}.
#[local] Notation Txn := (Txn (W := W) (R := R)).

Definition stage_delete_at (caller : Caller) (doc : Address) (p : VPos) (width : Nat) (as_of : AsOf) :
    Txn DeleteError unit := (
  w ←ₜ working_world;
  _ ←ₜ from_result (gate_write (m3 w) caller doc DocNotRegistered NotOwner);
  _ ←ₜ refuse_if (published_target (m3 w) doc) PublishedTarget;
  _ ←ₜ match arrangement_moved (m5 w) doc as_of with
       | Some (as_of, current) => refused (ArrangementMoved as_of current)
       | None => txn_ret tt
       end;
  _ ←ₜ refuse_if (negb (VPos_is_content p)) NotContentSubspace;
  arranged ←ₜ from_outcome (arranges_content_position (m5 w) doc (vp_ordinal p));
  _ ←ₜ refuse_if (negb arranged) NotArranged;
  _ ←ₜ refuse_if (negb (contains_content_range (m5 w) doc (vp_ordinal p) width)) OutOfBounds;
  _ ←ₜ refuse_if (width =? 0)%N EmptyWidth;
  stage (of_core (RecArrangement (ContentRemove doc (vp_ordinal p) width))))%txn.
End Delete.
End Delete.

(** ** REARRANGE ([ops/rearrange.rs]) *)

Module Rearrange.
Inductive RearrangeError :=
  | DocNotRegistered
  | NotOwner (a : Address)
  | PublishedTarget
  | ArrangementMoved (as_of current : Seq)
  | BadCutCount
  | NotAscending
  | NotContentSubspace
  | OutOfBounds
  | EmptyContentSubspace.

(** [cuts.windows(2).all(..)] on the ordinals. *)
Fixpoint ascending_cuts (cuts : list VPos) : bool :=
  match cuts with
  | c :: (d :: _) as cuts' => (vp_ordinal c <? vp_ordinal d)%N && ascending_cuts cuts'
  | _ => true
  end.

Section Rearrange.
Context {debug : bool} {W R : Type} `{WS : WorldState W R} `{HS : !HasSlices debug W R}.
#[local] Notation Txn := (Txn (W := W) (R := R)).

Definition rearrange_in (caller : Caller) (doc : Address) (cuts : list VPos) (as_of : AsOf) :
    Txn RearrangeError unit := (
  w ←ₜ working_world;
  _ ←ₜ from_result (gate_write (m3 w) caller doc DocNotRegistered NotOwner);
  _ ←ₜ refuse_if (published_target (m3 w) doc) PublishedTarget;
  _ ←ₜ match arrangement_moved (m5 w) doc as_of with
       | Some (as_of, current) => refused (ArrangementMoved as_of current)
       | None => txn_ret tt
       end;
  '(first, last) ←ₜ match cuts with
       | [first; _; last] | [first; _; _; last] => txn_ret (first, last)
       | _ => refused BadCutCount
       end;
  _ ←ₜ refuse_if (negb (ascending_cuts cuts)) NotAscending;
  _ ←ₜ refuse_if (existsb (λ c, negb (VPos_is_content c)) cuts) NotContentSubspace;
  _ ←ₜ refuse_if (negb (admits_content_boundary (m5 w) doc (vp_ordinal first))
                  || negb (admits_content_boundary (m5 w) doc (vp_ordinal last))) OutOfBounds;
  _ ←ₜ refuse_if (content_is_empty (m5 w) doc) EmptyContentSubspace;
  stage (of_core (RecArrangement (ContentReorder doc (vp_ordinal <$> cuts)))))%txn.
End Rearrange.
End Rearrange.

(** ** COPY ([ops/copy.rs]) *)

Module Copy.
Inductive CopyError :=
  | DocNotRegistered
  | NotOwner (a : Address)
  | PublishedTarget
  | ArrangementMoved (as_of current : Seq)
  | NotContentSubspace
  | OutOfBounds
  | SourceNotRegistered
  | EmptySource
  | NotOrdinalVSpan
  | SourceNotContentSubspace
  | DanglingSource
  | TooManyRuns
  | EmptyResult.

Section Copy.
Context {debug : bool} {W R : Type} `{WS : WorldState W R} `{HS : !HasSlices debug W R}.
#[local] Notation Txn := (Txn (W := W) (R := R)).

(** The inner loop: one spec's resolved runs. *)
Fixpoint accumulate (w : W) (resolved : list Run) (runs : list Run) : Txn CopyError (list Run) :=
  match resolved with
  | [] => txn_ret runs
  | run :: resolved => (
      _ ←ₜ refuse_if (negb (contains_content (content_store w) (tumbler (i_start run)))) DanglingSource;
      let runs := extend_or_push_run runs run in
      _ ←ₜ refuse_if (MAX_PLACED_RUNS <? N.of_nat (length runs))%N TooManyRuns;
      accumulate w resolved runs)%txn
  end.

(** The outer loop, over the specs; [steps] saturates at the machine word. *)
Fixpoint resolve_specs (w : W) (specs : list VSpec) (steps : N) (runs : list Run) : Txn CopyError (list Run) :=
  match specs with
  | [] => txn_ret runs
  | spec :: specs => (
      _ ←ₜ refuse_if (negb (is_registered_document (m3 w) (vs_source spec))) SourceNotRegistered;
      vspan ←ₜ from_result (ok_or (as_ordinal_vspan (vs_span spec)) NotOrdinalVSpan);
      _ ←ₜ refuse_if (negb (OrdinalVSpan_is_content vspan)) SourceNotContentSubspace;
      _ ←ₜ refuse_if (content_is_empty (m5 w) (vs_source spec)) EmptySource;
      let steps := N.min (steps + N.of_nat (content_run_count (m5 w) (vs_source spec))) u64_max in
      _ ←ₜ refuse_if (MAX_COPY_RESOLVE_STEPS <? steps)%N TooManyRuns;
      resolved ←ₜ from_outcome (iter_resolve (m5 w) (vs_source spec) (vs_span spec));
      runs ←ₜ accumulate w resolved runs;
      resolve_specs w specs steps runs)%txn
  end.

Definition copy_in (caller : Caller) (doc : Address) (at_ : VPos) (specs : list VSpec) (as_of : AsOf) :
    Txn CopyError unit := (
  w ←ₜ working_world;
  _ ←ₜ from_result (gate_write (m3 w) caller doc DocNotRegistered NotOwner);
  _ ←ₜ refuse_if (published_target (m3 w) doc) PublishedTarget;
  _ ←ₜ match arrangement_moved (m5 w) doc as_of with
       | Some (as_of, current) => refused (ArrangementMoved as_of current)
       | None => txn_ret tt
       end;
  _ ←ₜ refuse_if (negb (VPos_is_content at_)) NotContentSubspace;
  _ ←ₜ refuse_if (negb (admits_content_boundary (m5 w) doc (vp_ordinal at_))) OutOfBounds;
  runs ←ₜ resolve_specs w specs 0 [];
  _ ←ₜ refuse_if (negb (nonemptyb runs)) EmptyResult;
  stage (of_core (RecArrangement (ContentPlace doc (vp_ordinal at_) runs))))%txn.
End Copy.
End Copy.

(** ** REINSTATE ([ops/reinstate.rs]) *)

Module Reinstate.
Inductive ReinstateError :=
  | DocNotRegistered
  | NotOwner (a : Address)
  | PublishedTarget
  | ArrangementMoved (as_of current : Seq)
  | NotContentSubspace
  | OutOfBounds
  | BadRun
  | SourceNotRegistered
  | DanglingSource
  | TooManyRuns
  | EmptyResult.

Section Reinstate.
Context {debug : bool} {W R : Type} `{WS : WorldState W R} `{HS : !HasSlices debug W R}.
#[local] Notation Txn := (Txn (W := W) (R := R)).

Fixpoint place_stated (w : W) (runs : list ShotRun) (placement : list Run) : Txn ReinstateError (list Run) :=
  match runs with
  | [] => txn_ret placement
  | MkShotRun origin run :: runs => (
      origin_doc ←ₜ from_result (ok_or (run_origin_document run) BadRun);
      _ ←ₜ refuse_if (negb (bool_decide (origin_doc = trunk_of origin))) BadRun;
      _ ←ₜ refuse_if (negb (is_registered_document (m3 w) origin_doc)) SourceNotRegistered;
      stored ←ₜ from_outcome (covered (pieces (content_store w) (tumbler (i_start run)) (run_width run)));
      _ ←ₜ refuse_if (negb stored) DanglingSource;
      let placement := extend_or_push_run placement run in
      _ ←ₜ refuse_if (MAX_PLACED_RUNS <? N.of_nat (length placement))%N TooManyRuns;
      place_stated w runs placement)%txn
  end.

Definition stage_reinstate_at (caller : Caller) (doc : Address) (at_ : VPos) (runs : list ShotRun)
    (as_of : AsOf) : Txn ReinstateError unit := (
  w ←ₜ working_world;
  _ ←ₜ from_result (gate_write (m3 w) caller doc DocNotRegistered NotOwner);
  _ ←ₜ refuse_if (published_target (m3 w) doc) PublishedTarget;
  _ ←ₜ match arrangement_moved (m5 w) doc as_of with
       | Some (as_of, current) => refused (ArrangementMoved as_of current)
       | None => txn_ret tt
       end;
  _ ←ₜ refuse_if (negb (VPos_is_content at_)) NotContentSubspace;
  _ ←ₜ refuse_if (negb (admits_content_boundary (m5 w) doc (vp_ordinal at_))) OutOfBounds;
  placement ←ₜ place_stated w runs [];
  _ ←ₜ refuse_if (negb (nonemptyb placement)) EmptyResult;
  stage (of_core (RecArrangement (ContentPlace doc (vp_ordinal at_) placement))))%txn.
End Reinstate.
End Reinstate.

(** ** INSERT ([ops/insert.rs]) *)

Module Insert.
Inductive InsertError :=
  | DocNotRegistered
  | NotOwner (a : Address)
  | PublishedTarget
  | ArrangementMoved (as_of current : Seq)
  | NotContentSubspace
  | OutOfBounds
  | EmptyContent
  | Mint (e : MintError)
  | ContentRefused (e : ContentError).

Section Insert.
Context {debug : bool} {W R : Type} `{WS : WorldState W R} `{HS : !HasSlices debug W R}.
#[local] Notation Txn := (Txn (W := W) (R := R)).

(** Where an insert lands, decided with the published-target refusal. *)
Definition insert_surface (w : W) (doc : Address) (at_ : VPos) (deposit : Deposit) : Txn InsertError Address :=
  if negb (published_target (m3 w) doc) then txn_ret doc
  else
    match deposit with
    | Declared ty =>
        if negb (existsb (λ x, bool_decide (x = ty)) deposit_class_types) then refused PublishedTarget
        else (
          surface ←ₜ from_outcome (deposit_surface (m3 w) doc);
          _ ←ₜ refuse_if (negb (names_fresh_content_position (m5 w) surface at_)) PublishedTarget;
          txn_ret surface)%txn
    | Undeclared => refused PublishedTarget
    end.

(** The pending byte run, flushed as one stretch. *)
Definition flush (doc : Address) (pending : list Byte.byte) (runs : list Run) : Txn InsertError (list Run) :=
  if nonemptyb pending then allocate_stretch_for_placement Mint ContentRefused doc pending runs
  else txn_ret runs.

(** The coalescing walk. *)
Fixpoint place_values (doc : Address) (values : list (list Byte.byte)) (pending : list Byte.byte)
    (runs : list Run) : Txn InsertError (list Run) :=
  match values with
  | [] => flush doc pending runs
  | [byte] :: values => place_values doc values (pending ++ [byte]) runs
  | value :: values => (
      runs ←ₜ flush doc pending runs;
      runs ←ₜ allocate_for_placement Mint ContentRefused doc value runs;
      place_values doc values [] runs)%txn
  end.

Definition insert_in (caller : Caller) (doc : Address) (at_ : VPos) (values : list (list Byte.byte))
    (deposit : Deposit) (as_of : AsOf) : Txn InsertError Address := (
  w ←ₜ working_world;
  _ ←ₜ from_result (gate_write (m3 w) caller doc DocNotRegistered NotOwner);
  surface ←ₜ insert_surface w doc at_ deposit;
  _ ←ₜ match arrangement_moved (m5 w) surface as_of with
       | Some (as_of, current) => refused (ArrangementMoved as_of current)
       | None => txn_ret tt
       end;
  _ ←ₜ refuse_if (negb (nonemptyb values)) EmptyContent;
  _ ←ₜ refuse_if (negb (VPos_is_content at_)) NotContentSubspace;
  _ ←ₜ refuse_if (negb (admits_content_boundary (m5 w) surface (vp_ordinal at_))) OutOfBounds;
  runs ←ₜ place_values doc values [] [];
  first ←ₜ from_outcome (expect_some (head runs));
  _ ←ₜ stage (of_core (RecArrangement (ContentPlace surface (vp_ordinal at_) runs)));
  txn_ret (i_start first))%txn.
End Insert.
End Insert.

(** ** CREATENEWVERSION ([ops/version.rs]) *)

Module Version.
Inductive VersionError :=
  | SourceNotRegistered
  | NotAPrincipal
  | NodeTierCrossOwner
  | PrivateSourceVersionless
  | PrivateVersionOfPublished
  | Mint (e : MintError).

Inductive Branch := Owned | CrossOwner (prefix : Address).

(** The four reads off the snapshot, before the transaction opens. *)
Definition version_prework (snapshot_m3 : M3State) (principal : PrincipalId) (source : Address) :
    result Branch VersionError :=
  if negb (is_registered_document snapshot_m3 source) then Err SourceNotRegistered
  else if is_effective_owner snapshot_m3 principal source then Ok Owned
  else
    match principal_prefix snapshot_m3 principal with
    | None => Err NotAPrincipal
    | Some prefix =>
        if negb (is_registered_account snapshot_m3 prefix) then Err NodeTierCrossOwner
        else Ok (CrossOwner prefix)
    end.

Section Version.
Context {debug : bool} {W R : Type} `{WS : WorldState W R} `{HS : !HasSlices debug W R}.
#[local] Notation Txn := (Txn (W := W) (R := R)).

Definition version_in (branch : Branch) (source : Address) (published : option bool) :
    Txn VersionError Address := (
  w ←ₜ working_world;
  let m3 := m3 w in
  let source_published := published_target m3 source in
  let fork_published := default source_published published in
  minted ←ₜ match branch with
       | Owned => (
           _ ←ₜ refuse_if (negb source_published) PrivateSourceVersionless;
           _ ←ₜ refuse_if (negb fork_published) PrivateVersionOfPublished;
           from_outcome (mint_version m3 source fork_published))%txn
       | CrossOwner prefix => from_outcome (mint_document m3 prefix fork_published)
       end;
  '(fork, m3rec) ←ₜ from_result (map_err Mint minted);
  surface ←ₜ from_outcome (reading_surface m3 source);
  _ ←ₜ stage (of_core (RecNamespace m3rec));
  _ ←ₜ stage (of_core (RecArrangement (VersionSnapshot surface fork)));
  txn_ret fork)%txn.
End Version.
End Version.

(** ** STAGE ([ops/stage.rs]) *)

Module Stage.
Inductive StageError := SourceNotRegistered | NotAPrincipal | NodeTierCrossOwner | Mint (e : MintError).

Definition stage_prework (snapshot_m3 : M3State) (principal : PrincipalId) (from : Address) :
    result Address StageError :=
  if negb (is_registered_document snapshot_m3 from) then Err SourceNotRegistered
  else
    match principal_prefix snapshot_m3 principal with
    | None => Err NotAPrincipal
    | Some prefix =>
        if negb (is_registered_account snapshot_m3 prefix) then Err NodeTierCrossOwner else Ok prefix
    end.

Section Stage.
Context {debug : bool} {W R : Type} `{WS : WorldState W R} `{HS : !HasSlices debug W R}.
#[local] Notation Txn := (Txn (W := W) (R := R)).

(** The base, extent and marker content the draft records: the surface's own where it
    is published, else the source draft's, or none. *)
Definition recorded_base (w : W) (surface : Address) : option (Address * Nat * option Merge) :=
  if published_target (m3 w) surface then Some (surface, content_count (m5 w) surface, None)
  else
    (λ standing : DraftBase, (db_base standing, db_extent standing, Merge_from <$> db_merge standing))
      <$> draft_base (m5 w) surface.

Definition stage_in (prefix from : Address) : Txn StageError Address := (
  w ←ₜ working_world;
  surface ←ₜ from_outcome (reading_surface (m3 w) from);
  let recorded := recorded_base w surface in
  minted ←ₜ from_outcome (mint_document (m3 w) prefix false);
  '(draft, m3rec) ←ₜ from_result (map_err Mint minted);
  _ ←ₜ stage (of_core (RecNamespace m3rec));
  _ ←ₜ stage (of_core (RecArrangement (VersionSnapshot surface draft)));
  _ ←ₜ match recorded with
       | Some (base, extent, merge) =>
           stage (of_core (RecArrangement (DraftBaseRec draft base extent surface merge)))
       | None => txn_ret tt
       end;
  txn_ret draft)%txn.
End Stage.
End Stage.

(** ** SET_ARRANGEMENT ([ops/set_arrangement.rs]) *)

Module SetArr.
Inductive SetArrangementError :=
  | DocNotRegistered
  | NotOwner (a : Address)
  | PublishedTarget
  | ArrangementMoved (as_of current : Seq)
  | BaseNotInChain
  | BaseExtentTooLarge
  | ForkBaseMoved (source : Address)
  | NoBaseToRecord
  | BadRun
  | SourceNotRegistered
  | DanglingSource
  | TooManyRuns.

Record SetArrangement := MkSetArrangement {
  sa_runs : list ShotRun;
  sa_head : option Base;
  sa_base : option Base;
  sa_merge : option (list Address)
}.

Definition in_chain (member trunk : Address) : bool :=
  bool_decide (member = trunk) || bool_decide (trunk_of member = trunk).

Definition judge_registration (m3 : M3State) (pair : Base) : result unit SetArrangementError :=
  if is_registered_document m3 (ba_member pair) then Ok tt else Err SourceNotRegistered.

Definition judge_pair (debug : bool) (m3 : M3State) (m5 : M5State) (pair : Base) (trunk : Address) :
    outcome (result unit SetArrangementError) :=
  match judge_registration m3 pair with
  | Err e => Done (Err e)
  | Ok _ =>
      if negb (in_chain (ba_member pair) trunk) then Done (Err BaseNotInChain)
      else
        _ ← debug_assert debug (published_target m3 (ba_member pair));
        Done (if (content_count m5 (ba_member pair) <? ba_extent pair)%N then Err BaseExtentTooLarge else Ok tt)
  end.

(** [unreachable!] in the last arm of each. *)
Definition of_delete (e : Delete.DeleteError) : outcome SetArrangementError :=
  match e with
  | Delete.DocNotRegistered => Done DocNotRegistered
  | Delete.NotOwner a => Done (NotOwner a)
  | Delete.PublishedTarget => Done PublishedTarget
  | Delete.ArrangementMoved as_of current => Done (ArrangementMoved as_of current)
  | _ => Panicked
  end.

Definition of_reinstate (e : Reinstate.ReinstateError) : outcome SetArrangementError :=
  match e with
  | Reinstate.DocNotRegistered => Done DocNotRegistered
  | Reinstate.NotOwner a => Done (NotOwner a)
  | Reinstate.PublishedTarget => Done PublishedTarget
  | Reinstate.ArrangementMoved as_of current => Done (ArrangementMoved as_of current)
  | Reinstate.BadRun => Done BadRun
  | Reinstate.SourceNotRegistered => Done SourceNotRegistered
  | Reinstate.DanglingSource => Done DanglingSource
  | Reinstate.TooManyRuns => Done TooManyRuns
  | _ => Panicked
  end.

Section SetArr.
Context {debug : bool} {W R : Type} `{WS : WorldState W R} `{HS : !HasSlices debug W R}.
#[local] Notation Txn := (Txn (W := W) (R := R)).

(** [.map_err(f)?] on a body, the conversion itself able to panic. *)
Definition txn_map_err {E F A} (f : E → outcome F) (m : Txn E A) : Txn F A := λ stg,
  '(r, stg) ← m stg;
  match r with
  | Ok a => Done (Ok a, stg)
  | Err e => e ← f e; Done (Err e, stg)
  end.

(** Every judgment off one reading of the working world, but the gate and the two
    checks it shares with the edits. *)
Definition judge_request (w : W) (doc : Address) (request : SetArrangement) :
    Txn SetArrangementError (option DraftBase * option Address) := (
  let standing := draft_base (m5 w) doc in
  let fork :=
    match standing, fork_source (m5 w) doc with
    | None, Some source => if published_target (m3 w) source then Some source else None
    | _, _ => None
    end in
  _ ←ₜ match sa_head request with
       | None => txn_ret tt
       | Some head => (
           let chain :=
             match standing with
             | Some b => Some (trunk_of (db_base b))
             | None => trunk_of <$> fork
             end in
           judged ←ₜ from_outcome
             match chain with
             | Some chain => judge_pair debug (m3 w) (m5 w) head chain
             | None => Done (judge_registration (m3 w) head)
             end;
           _ ←ₜ from_result judged;
           match fork with
           | Some source => refuse_if (negb (bool_decide (source = ba_member head))) (ForkBaseMoved source)
           | None => txn_ret tt
           end)%txn
       end;
  _ ←ₜ match sa_base request with
       | None => txn_ret tt
       | Some base =>
           match standing with
           | None => refused NoBaseToRecord
           | Some standing => (
               judged ←ₜ from_outcome (judge_pair debug (m3 w) (m5 w) base (trunk_of (db_base standing)));
               from_result judged)%txn
           end
       end;
  head_moved ←ₜ from_outcome
    match sa_head request with
    | None => Done None
    | Some head =>
        current ← trunk_head (m3 w) (ba_member head);
        Done match current with
          | Some current => if bool_decide (current = ba_member head) then None else Some current
          | None => None
          end
    end;
  txn_ret (standing, head_moved))%txn.

Definition stage_set_arrangement (caller : Caller) (doc : Address) (request : SetArrangement) (as_of : AsOf) :
    Txn SetArrangementError (option Address) := (
  w ←ₜ working_world;
  _ ←ₜ from_result (gate_write (m3 w) caller doc DocNotRegistered NotOwner);
  _ ←ₜ refuse_if (published_target (m3 w) doc) PublishedTarget;
  _ ←ₜ match arrangement_moved (m5 w) doc as_of with
       | Some (as_of, current) => refused (ArrangementMoved as_of current)
       | None => txn_ret tt
       end;
  '(standing, head_moved) ←ₜ judge_request w doc request;
  let count := content_count (m5 w) doc in
  _ ←ₜ (if (count =? 0)%N then txn_ret tt
        else txn_map_err of_delete (Delete.stage_delete_at caller doc (VPos_content 1) count Unchecked));
  _ ←ₜ (if negb (nonemptyb (sa_runs request)) then txn_ret tt
        else txn_map_err of_reinstate
               (Reinstate.stage_reinstate_at caller doc (VPos_content 1) (sa_runs request) Unchecked));
  _ ←ₜ match sa_base request, standing with
       | Some base, Some standing =>
           let merge :=
             match sa_head request, sa_merge request with
             | Some head, Some sides => Some (MkMerge sides (ba_member head) (ba_extent head))
             | _, _ => None
             end in
           stage (of_core (RecArrangement
             (DraftBaseRec doc (ba_member base) (ba_extent base) (db_source standing) merge)))
       | _, _ => txn_ret tt
       end;
  txn_ret head_moved)%txn.
End SetArr.
End SetArr.

(** ** The operations, over the kernel *)

Section Kernel.
Context {debug : bool} {W R Bytes : Type} `{WS : WorldState W R} `{HS : !HasSlices debug W R}.
Context (encode_record : R → Bytes).
#[local] Notation Kernel := (Kernel (W := W) (Bytes := Bytes)).
#[local] Notation Call T E := (outcome (Kernel * CallEnd T E)).

Definition delete (k : Kernel) (answer : CommitAnswer) (caller : Caller) (doc : Address) (p : VPos)
    (width : Nat) (as_of : AsOf) : Call unit Delete.DeleteError :=
  transact encode_record k answer (Delete.stage_delete_at caller doc p width as_of).

Definition rearrange (k : Kernel) (answer : CommitAnswer) (caller : Caller) (doc : Address)
    (cuts : list VPos) (as_of : AsOf) : Call unit Rearrange.RearrangeError :=
  transact encode_record k answer (Rearrange.rearrange_in caller doc cuts as_of).

Definition copy (k : Kernel) (answer : CommitAnswer) (caller : Caller) (doc : Address) (at_ : VPos)
    (specs : list VSpec) (as_of : AsOf) : Call unit Copy.CopyError :=
  transact encode_record k answer (Copy.copy_in caller doc at_ specs as_of).

Definition reinstate (k : Kernel) (answer : CommitAnswer) (caller : Caller) (doc : Address) (at_ : VPos)
    (runs : list ShotRun) (as_of : AsOf) : Call unit Reinstate.ReinstateError :=
  transact encode_record k answer (Reinstate.stage_reinstate_at caller doc at_ runs as_of).

Definition insert (k : Kernel) (answer : CommitAnswer) (caller : Caller) (doc : Address) (at_ : VPos)
    (values : list (list Byte.byte)) (deposit : Deposit) (as_of : AsOf) : Call Address Insert.InsertError :=
  transact encode_record k answer (Insert.insert_in caller doc at_ values deposit as_of).

Definition version (k : Kernel) (answer : CommitAnswer) (principal : PrincipalId) (source : Address)
    (published : option bool) : Call Address Version.VersionError :=
  match Version.version_prework (m3 (c_world (snapshot k))) principal source with
  | Err e => Done (k, Returned (Err (Rejected e)))
  | Ok branch => transact encode_record k answer (Version.version_in branch source published)
  end.

Definition stage_draft (k : Kernel) (answer : CommitAnswer) (principal : PrincipalId) (from : Address) :
    Call Address Stage.StageError :=
  match Stage.stage_prework (m3 (c_world (snapshot k))) principal from with
  | Err e => Done (k, Returned (Err (Rejected e)))
  | Ok prefix => transact encode_record k answer (Stage.stage_in prefix from)
  end.

Definition set_arrangement (k : Kernel) (answer : CommitAnswer) (caller : Caller) (doc : Address)
    (request : SetArr.SetArrangement) (as_of : AsOf) : Call (option Address) SetArr.SetArrangementError :=
  transact encode_record k answer (SetArr.stage_set_arrangement caller doc request as_of).

Definition seat_link (k : Kernel) (answer : CommitAnswer) (doc link : Address) : Call Address SeatError :=
  transact encode_record k answer (
    w ←ₜ working_world;
    rec ←ₜ from_outcome (stage_seat_link (m5 w) doc link);
    rec ←ₜ from_result rec;
    _ ←ₜ stage (of_core (RecArrangement rec));
    txn_ret link)%txn.
End Kernel.
