(* ===== verification/EditInv.v ===== *)
(** * What the slices keep between them

    The invariant [core_ok] that ties the three slices: the namespace's and the
    arrangement's own invariants; J0, a content position is allocated exactly when it
    holds a value; and S3★, every arranged address is a stored content position of a
    registered document's arrangement. Here it is shown of genesis and kept by the
    records the operations stage: the arrangement's, and J0's two steps, a mint with
    its value or its stretch. *)

From stdpp Require Import gmap.
From S2P Require Import Prelude Txns Tumblers Addresses AddrMaps Arith Spans NsKeys NsState NsLaws NsOps NsInv NsCalls NsReach Runs Content RunLists VSpace Provenance Chain ArrState ArrReads World Edits.

#[local] Arguments apply_m3 : simpl never.
#[local] Arguments namespace_of : simpl never.
#[local] Arguments effective_frontier : simpl never.

(** ** Content positions *)

(** A full position of a document's content subspace. *)
Definition content_position (a : Address) : Prop := ∃ n, element_field a = Some [content_subspace; n].

Lemma content_position_admits a : content_position a → admits_start a = true.
Proof. intros (n & E). unfold admits_start. by rewrite E. Qed.

Lemma content_position_view a :
  content_position a ↔ ∃ d n, level d = Document ∧ comps (tumbler a) = comps (tumbler d) ++ [0%N; 1%N; n].
Proof.
  unfold content_position. split.
  - intros (n & E). change content_subspace with 1%N in E. apply element_pair_view in E as (d & Hl & E). eauto.
  - intros (d & n & Hl & E). exists n. apply element_pair_view. by exists d.
Qed.

Lemma content_position_routed a : content_position a → content_routed a = true.
Proof.
  intros (n & E). unfold content_routed. apply andb_true_iff. split; apply bool_decide_eq_true.
  - by eapply element_field_level.
  - assert (Hs : subspace a = (e ← element_field a; head e)); [|by rewrite Hs, E].
    unfold subspace. apply total_Done. rewrite E. done.
Qed.

Lemma content_position_shift a k : content_position a → content_position (addr_shift a k).
Proof.
  rewrite !content_position_view. intros (d & n & Hl & E). exists d, (n + k)%N. split; [done|].
  rewrite addr_shift_tumbler, (shift_app _ k (comps (tumbler d) ++ [0%N; 1%N]) n) by (by rewrite E, <- app_assoc).
  by rewrite <- app_assoc.
Qed.

(** The [n]-th content position of a document's chain. *)
Definition content_at (h : Address) (n : N) (t : Tumbler) : Prop :=
  comps t = comps (tumbler h) ++ [0%N; 1%N; n].

Lemma content_at_inj h n t u : content_at h n t → content_at h n u → t = u.
Proof. unfold content_at. intros Ht Hu. apply Tumbler_eq. congruence. Qed.

Lemma content_at_shift h n t k : content_at h n t → content_at h (n + k) (shift t k).
Proof.
  unfold content_at. intros E. rewrite (shift_app _ k (comps (tumbler h) ++ [0%N; 1%N]) n) by (by rewrite E, <- app_assoc).
  by rewrite <- app_assoc.
Qed.

Lemma content_at_position h n a : level h = Document → content_at h n (tumbler a) → content_position a.
Proof. intros Hl E. apply content_position_view. by exists h, n. Qed.

Lemma content_at_iff h n t k u : content_at h n t → content_at h (n + k) u ↔ u = shift t k.
Proof.
  intros Ht. split; [intros Hu; by eapply content_at_inj, content_at_shift|intros ->; by apply content_at_shift].
Qed.

(** ** The invariant *)

Notation contents w := (d_content (docs_of (sl_arrangement w))).
Notation links w := (d_link (docs_of (sl_arrangement w))).

Record core_ok (w : Slices) : Prop := {
  co_m3 : m3_ok (sl_namespace w);
  co_m5 : state_ok (sl_arrangement w);
  co_store : store_ok (sl_content w);
  co_keys : ∀ key s, sl_content w !! key = Some s → content_position key;
  (** J0 *)
  co_minted : ∀ a, content_position a →
    is_allocated (sl_namespace w) a = true ↔ ∃ v, stores (sl_content w) (tumbler a) v;
  (** S3★ *)
  co_arranged : ∀ doc a, a ∈ contents w doc →
    is_registered_document (sl_namespace w) doc = true ∧ content_position a ∧
    ∃ v, stores (sl_content w) (tumbler a) v;
  (** A draft is based on a published chain. *)
  co_bases : ∀ d b, draft_bases (sl_arrangement w) !! d = Some b → published_target (sl_namespace w) (db_base b) = true
}.

(** The base a record notes is published. *)
Definition bases_ok (ns : M3State) (r : M5Rec) : Prop :=
  match r with
  | DraftBaseRec _ base _ _ _ => published_target ns base = true
  | ShotPlace doc _ _ (Some _) => published_target ns doc = true
  | _ => True
  end.

(** At a content position, the store's presence test is the stored value. *)
Lemma contains_position w a :
  core_ok w → content_position a →
  contains_content (sl_content w) (tumbler a) = true ↔ ∃ v, stores (sl_content w) (tumbler a) v.
Proof.
  intros Hok Ha. split; [|by intros (v & Hv); eapply stores_contains; [apply Hok|]].
  rewrite contains_content_ok by apply Hok. intros (key & s & Hc & Hcov%Stored_covers_spec).
  assert (∃ k, (k < N.of_nat (Stored_width s))%N ∧ tumbler a = shift (tumbler key) k) as (k & Hk & Hak).
  { destruct Hcov as [<-|(_ & Hlt & Hr)].
    - exists 0%N. rewrite shift_0. split; [|done]. destruct (held_0 key _ s (co_store _ Hok) Hc) as [v Hv].
      by apply held_lt in Hv.
    - destruct (proj1 (extent_prefixes (tumbler key) (N.of_nat (Stored_width s)) (tumbler a))) as (k & Hk & Hp).
      { split; [torder|done]. }
      exists k. split; [done|]. rewrite <- addr_shift_tumbler in Hp |- *. f_equal.
      apply element_prefix_eq; [by apply content_position_admits| |done].
      apply content_position_admits, content_position_shift. by apply (co_keys _ Hok key s). }
  assert (is_Some (held s k)) as [v Hv].
  { destruct s as [v|bs]; cbn in *; [assert (k = 0%N) as -> by lia; by eexists|].
    destruct (lookup_lt_is_Some_2 bs (N.to_nat k) ltac:(lia)) as [b Hb]. rewrite Hb. by eexists. }
  exists v, key, s, k. by split_and!.
Qed.

(** ** The arrangement's records *)

Lemma spec_step_elements_in m r d a :
  a ∈ d_content (spec_step m r) d → a ∈ d_content m d ∨ a ∈ placed_by m r d.
Proof.
  destruct r; cbn; unfold upd; try (by left).
  - case_decide as E; [subst|by left]. unfold insert_at. rewrite !elem_of_app. intros [H|[H|H]]; [left|by right|left].
    + by eapply subseteq_take.
    + by eapply subseteq_drop.
  - case_decide as E; [subst|by left]. intros H. left. by eapply remove_at_sublist.
  - case_decide as E; [subst|by left]. rewrite tile_perm. by left.
  - case_match; by left.
  - case_decide; [by left|]. cbn. case_decide as E; [|by left]. by right.
  - case_decide as E; [subst|by left]. unfold insert_at. rewrite !elem_of_app. intros [H|[H|H]]; [left|by right|left].
    + by eapply subseteq_take.
    + by eapply subseteq_drop.
Qed.

(** A record that places only stored positions in registered documents. *)
Lemma arrangement_step w at_ r :
  core_ok w → rec_ok r → bases_ok (sl_namespace w) r →
  (∀ d a, a ∈ placed_by (docs_of (sl_arrangement w)) r d →
     is_registered_document (sl_namespace w) d = true ∧ content_position a ∧
     ∃ v, stores (sl_content w) (tumbler a) v) →
  ∃ arr, apply_m5 (sl_arrangement w) at_ r = Done arr ∧
    core_ok (MkSlices (sl_namespace w) (sl_content w) arr) ∧
    docs_eq (docs_of arr) (spec_step (docs_of (sl_arrangement w)) r).
Proof.
  intros Hok Hr Hb Hp. destruct (apply_m5_ok (sl_arrangement w) at_ r (co_m5 _ Hok) Hr) as (arr & Ha & [Hs Hd _]).
  exists arr. split_and!; [done| |done].
  pose proof (meta_base _ _ _ _ (apply_meta _ _ _ _ (co_m5 _ Hok) Hr Ha)) as Hm. destruct Hok. split; cbn; try done.
  - intros doc a Hin. destruct Hd as [Hc _]. specialize (Hc doc). cbn in Hc. rewrite Hc in Hin.
    apply spec_step_elements_in in Hin as [Hin|Hin]; [by apply co_arranged0|by apply Hp].
  - intros d b. rewrite Hm. destruct r; cbn; try apply co_bases0.
    + destruct draft as [x|]; [|apply co_bases0]. case_decide; [|apply co_bases0]. by intros [= <-].
    + case_decide; [|apply co_bases0]. by intros [= <-].
Qed.

(** ** J0's two steps *)

Record grew (h : Address) (w w' : Slices) (vals : list (list Byte.byte)) : Prop := {
  g_frontier : effective_frontier (sl_namespace w') (content_ns h) =
    (effective_frontier (sl_namespace w) (content_ns h) + N.of_nat (length vals))%N;
  g_chains : ∀ key, key ≠ content_ns h → effective_frontier (sl_namespace w') key = effective_frontier (sl_namespace w) key;
  g_arr : sl_arrangement w' = sl_arrangement w;
  g_publication : publication (sl_namespace w') = publication (sl_namespace w);
  g_principals : principals (sl_namespace w') = principals (sl_namespace w);
  g_grown : preserved (sl_namespace w) (sl_namespace w');
  g_docs : ∀ d, is_registered_document (sl_namespace w') d = is_registered_document (sl_namespace w) d;
  g_stores : ∀ t v, stores (sl_content w') t v ↔ stores (sl_content w) t v ∨
    ∃ i, vals !! i = Some v ∧
      content_at h (effective_frontier (sl_namespace w) (content_ns h) + 1 + N.of_nat i) t
}.

Lemma grew_none h w : grew h w w [].
Proof.
  split; try done; cbn; [lia|]. intros t v. split; [by left|]. by intros [?|(i & ? & _)].
Qed.

Lemma grew_trans h w1 w2 w3 vs ws : grew h w1 w2 vs → grew h w2 w3 ws → grew h w1 w3 (vs ++ ws).
Proof.
  intros [F C A P Q G D S] [F' C' A' P' Q' G' D' S']. split; try congruence.
  - rewrite F', F, length_app. lia.
  - intros key Hk. by rewrite C', C.
  - by etransitivity.
  - intros t v. rewrite S', S, F. split.
    + intros [[?|(i & Hi & Ht)]|(i & Hi & Ht)]; [by left|right|right].
      * exists i. split; [by apply lookup_app_l_Some|done].
      * exists (length vs + i). rewrite lookup_app_r by lia. rewrite Nat.add_comm, Nat.add_sub. split; [done|].
        by replace (effective_frontier (sl_namespace w1) (content_ns h) + 1 + N.of_nat (i + length vs))%N with
          (effective_frontier (sl_namespace w1) (content_ns h) + N.of_nat (length vs) + 1 + N.of_nat i)%N by lia.
    + intros [?|(i & Hi & Ht)]; [by left; left|]. apply lookup_app_Some in Hi as [Hi|[Hle Hi]].
      * left. right. by exists i.
      * right. exists (i - length vs). split; [done|].
        by replace (effective_frontier (sl_namespace w1) (content_ns h) + N.of_nat (length vs) + 1 +
          N.of_nat (i - length vs))%N with (effective_frontier (sl_namespace w1) (content_ns h) + 1 + N.of_nat i)%N by lia.
Qed.

(** A mint of [length vals] positions with their values keeps the invariant. *)
Lemma grew_ok h w ns' c' vals first :
  core_ok w → is_registered_document (sl_namespace w) h = true →
  content_at h (effective_frontier (sl_namespace w) (content_ns h) + 1) (tumbler first) →
  m3_ok ns' → preserved (sl_namespace w) ns' →
  publication ns' = publication (sl_namespace w) → principals ns' = principals (sl_namespace w) →
  effective_frontier ns' (content_ns h) =
    (effective_frontier (sl_namespace w) (content_ns h) + N.of_nat (length vals))%N →
  (∀ key, key ≠ content_ns h → effective_frontier ns' key = effective_frontier (sl_namespace w) key) →
  (∀ b, is_allocated ns' b = true ↔ is_allocated (sl_namespace w) b = true ∨
     ∃ i, (i < N.of_nat (length vals))%N ∧ tumbler b = shift (tumbler first) i) →
  store_ok c' → (∀ key s, c' !! key = Some s → sl_content w !! key = Some s ∨ key = first) →
  (∀ t v, stores c' t v ↔ (∃ i, vals !! i = Some v ∧ t = shift (tumbler first) (N.of_nat i)) ∨
     stores (sl_content w) t v) →
  grew h w (MkSlices ns' c' (sl_arrangement w)) vals ∧ core_ok (MkSlices ns' c' (sl_arrangement w)).
Proof.
  intros Hok Hh Hfirst Hns Hpre Hpub Hpri Hfr Hch Hal Hst Hkeys Hstores.
  assert (Hl : level h = Document) by by apply is_registered_document_ok in Hh as [? _].
  pose proof (content_at_position h _ first Hl Hfirst) as Hpos.
  assert (Hdocs : ∀ d, is_registered_document ns' d = is_registered_document (sl_namespace w) d).
  { intros d. apply eq_true_iff_eq. rewrite !is_registered_document_ok, Hal. split; [|by intros [? ?]; split; [|left]].
    intros [Hd [Ha|(i & _ & E)]]; [done|]. exfalso. rewrite <- addr_shift_tumbler in E. apply Address_eq in E as ->.
    destruct (content_position_shift first i Hpos) as (n & En). apply element_field_level in En. congruence. }
  split.
  - split; try done. cbn. intros t v. rewrite Hstores. split.
    + intros [(i & Hi & ->)|?]; [right|by left]. exists i. split; [done|]. by apply content_at_shift.
    + intros [?|(i & Hi & Ht)]; [by right|left]. exists i. split; [done|]. by apply (content_at_iff h _ _ _ _ Hfirst).
  - split; cbn; try done; [apply Hok|..].
    + intros key s [Hk| ->]%Hkeys; [by eapply co_keys|done].
    + intros a Ha. rewrite Hal, (co_minted _ Hok a Ha). split.
      * intros [[v Hv]|(i & Hi & E)].
        -- exists v. apply Hstores. by right.
        -- destruct (lookup_lt_is_Some_2 vals (N.to_nat i) ltac:(lia)) as [v Hv]. exists v. apply Hstores. left.
           exists (N.to_nat i). by rewrite N2Nat.id.
      * intros [v [(i & Hi & E)|Hv]%Hstores]; [right|left; by exists v].
        exists (N.of_nat i). apply lookup_lt_Some in Hi. split; [lia|done].
    + intros doc a (Hd & Ha & v & Hv)%(co_arranged _ Hok). rewrite Hdocs. split_and!; [done|done|].
      exists v. apply Hstores. by right.
    + intros d b Hb. unfold published_target, published. rewrite Hpub. by apply (co_bases _ Hok d b).
Qed.

(** A fresh content position is not in the store. *)
Lemma fresh_not_contained w a :
  core_ok w → content_position a → is_allocated (sl_namespace w) a = false →
  contains_content (sl_content w) (tumbler a) = false.
Proof.
  intros Hok Ha Hf. apply not_true_iff_false. rewrite contains_position, <- co_minted by done. congruence.
Qed.

Lemma content_chain_levels h b :
  level h = Document → namespace_of b = Some (content_ns h) → level b = Element.
Proof. intros Hl Hb. apply content_slot in Hb; [|done]. by apply element_field_level in Hb. Qed.

(** The fold-side check holds of the stretch a range mint was made for. *)
Lemma stretch_within h ns a bs :
  m3_ok ns → is_registered_document ns h = true → bs ≠ [] →
  content_at h (effective_frontier ns (content_ns h) + 1) (shift (tumbler a) (N.of_nat (length bs))) →
  stretch_within_frontier ns (MkContentStretch a bs) = Done true.
Proof.
  intros Hok Hh Hne Ht. pose proof Hh as [Hl _]%is_registered_document_ok.
  assert (Hdoc : document_of a = Some h).
  { destruct (comps_snoc (tumbler a)) as (q & x & Ea). unfold content_at in Ht.
    rewrite (shift_app _ _ _ _ Ea) in Ht.
    change [0%N; 1%N; ?n] with ([0%N; 1%N] ++ [n]) in Ht. rewrite app_assoc in Ht.
    apply app_inj_2 in Ht as [-> _]; [|done]. apply (document_of_under h a 1%N x Hl). by rewrite Ea, <- app_assoc. }
  unfold stretch_within_frontier. cbn [cs_first]. rewrite Hdoc. unfold next_content_address.
  pose proof (gated_mint ns (content_ns h) NO_PUBLICATION_STATE (is_registered_document ns h) HomeNotRegistered
    (fam_content _ h)) as Hm.
  rewrite Hh in Hm. cbn [negb] in Hm. unfold mint_content. rewrite Hh. cbn [negb].
  destruct (gated _) as [[[b r]|e]|]; [|by destruct Hm|done]. destruct Hm as [_ Hi].
  cbn [mbind outcome_bind expect_ok fst]. f_equal.
  destruct Hi as (_ & Hn & _). apply nth_in_Ok in Hn as (_ & _ & Hs). rewrite content_ns_slot in Hs.
  unfold ContentStretch_reach. cbn [cs_first cs_bytes].
  rewrite (content_at_inj h _ (shift (tumbler a) (N.of_nat (length bs))) (tumbler b) Ht Hs).
  by destruct (leb_spec (tumbler b) (tumbler b)) as [|?]; [|torder].
Qed.

Section Steps.
Context (debug : bool).

(** One atom: a mint and a write. *)
Lemma atom_steps h w v :
  core_ok w → is_registered_document (sl_namespace w) h = true →
  ∃ a r wr, mint_content (sl_namespace w) h = Done (Ok (a, r)) ∧
    content_at h (effective_frontier (sl_namespace w) (content_ns h) + 1) (tumbler a) ∧
    stage_write debug (sl_content w) a v = Done (Ok wr) ∧
    ∀ at1, ∃ w1, apply_slices debug w at1 (RecNamespace r) = Done w1 ∧ sl_content w1 = sl_content w ∧
      ∀ at2, ∃ w2, apply_slices debug w1 at2 (RecContent wr) = Done w2 ∧ grew h w w2 [v] ∧ core_ok w2.
Proof.
  intros Hok Hh. pose proof Hh as [Hl _]%is_registered_document_ok.
  pose proof (gated_mint (sl_namespace w) (content_ns h) NO_PUBLICATION_STATE
    (is_registered_document (sl_namespace w) h) HomeNotRegistered (fam_content _ h)) as Hm.
  rewrite Hh in Hm. cbn [negb] in Hm. unfold mint_content. rewrite Hh. cbn [negb].
  destruct (gated _) as [[[a r]|e]|]; [|by destruct Hm|done]. destruct Hm as [_ Hi].
  destruct (issued_facts _ _ _ _ _ Hi) as (-> & Hk & Ho & Hf & Hd).
  assert (Ha : content_at h (effective_frontier (sl_namespace w) (content_ns h) + 1) (tumbler a)).
  { apply namespace_of_Some in Hk as [_ Hs]. rewrite Ho, content_ns_slot in Hs. exact Hs. }
  pose proof (content_at_position h _ a Hl Ha) as Hpos.
  pose proof (stage_write_ok debug (sl_content w) a v (co_store _ Hok) (content_position_routed a Hpos)) as Hw.
  pose proof (fresh_not_contained w a Hok Hpos Hf) as Hc.
  destruct (stage_write debug (sl_content w) a v) as [[wr|e]|] eqn:Ew; [|destruct Hw; congruence|done].
  destruct Hw as (-> & _ & Hap & Hst & Hstores).
  eexists a, _, _. split_and!; [done|done|done|]. intros at1.
  destruct (Hd at1) as (ns' & Hns). cbn [apply_slices sl_content]. rewrite Hns. eexists. split; [done|]. split; [done|].
  intros at2. cbn [sl_content]. rewrite Hap. eexists. split; [done|].
  destruct (issued_ok _ _ _ _ _ _ _ (co_m3 _ Hok) (fam_content _ h Hh)
    (λ b Hb, ltac:(pose proof (content_chain_levels h b Hl Hb); congruence)) Hi Hns) as [Hns_ok Hpre].
  pose proof Hns as (key & Hk' & Ho' & Hns')%apply_allocate. rewrite Hk in Hk'. injection Hk' as <-.
  assert (Hel : level a = Element) by by eapply content_chain_levels.
  apply (grew_ok h w ns' _ [v] a); try done.
  - by rewrite Hns', Hel.
  - by rewrite Hns'.
  - rewrite Hns'. unfold effective_frontier at 1. cbn [frontiers]. rewrite lookup_insert_eq, Ho. cbn. unfold effective_frontier. lia.
  - intros key Hk''. rewrite Hns'. unfold effective_frontier. cbn [frontiers]. by rewrite lookup_insert_ne by congruence.
  - intros b. rewrite (allocated_allocate _ at1 a _ ns' b ltac:(congruence) Hns). cbn. split.
    + intros [?| ->]; [by left|right]. exists 0%N. rewrite shift_0. split; [lia|done].
    + intros [?|(i & Hi' & Eb)]; [by left|right]. assert (i = 0%N) as -> by lia.
      rewrite shift_0 in Eb. by apply Address_eq.
  - intros key s. rewrite lookup_insert_Some. naive_solver.
  - intros t u. rewrite Hstores. cbn. split.
    + intros [[-> ->]|?]; [left; exists 0|by right]. by rewrite shift_0.
    + intros [(i & Hi' & ->)|?]; [left|by right]. destruct i as [|[]]; [|done..]. injection Hi' as ->. by rewrite shift_0.
Qed.

(** A byte run: a range mint and a stretch, one number. *)
Lemma stretch_steps h w bs :
  core_ok w → is_registered_document (sl_namespace w) h = true → bs ≠ [] → (N.of_nat (length bs) < 2 ^ 64)%N →
  ∃ a st, mint_content_range (sl_namespace w) h (N.of_nat (length bs)) =
      Done (Ok (a, AllocateRange (MkRangeAllocation a (N.of_nat (length bs))))) ∧
    content_at h (effective_frontier (sl_namespace w) (content_ns h) + 1) (tumbler a) ∧
    stage_stretch debug (sl_content w) a bs = Done (Ok st) ∧ length (cs_bytes st) = length bs ∧
    ∀ at1, ∃ w1, apply_slices debug w at1
        (RecNamespace (AllocateRange (MkRangeAllocation a (N.of_nat (length bs))))) = Done w1 ∧
      sl_content w1 = sl_content w ∧
      ∀ at2, ∃ w2, apply_slices debug w1 at2 (RecContentStretch st) = Done w2 ∧
        grew h w w2 ((λ b, [b]) <$> bs) ∧ core_ok w2.
Proof.
  intros Hok Hh Hne Hlen. pose proof Hh as [Hl _]%is_registered_document_ok.
  assert (Hcount : N.of_nat (length bs) ≠ 0%N) by (destruct bs; [done|cbn; lia]).
  pose proof (content_range_issued (sl_namespace w) h (N.of_nat (length bs))) as Hm.
  rewrite decide_False in Hm by done. rewrite Hh in Hm.
  destruct (mint_content_range _ h _) as [[[a r]|e]|] eqn:E; [|by destruct Hm|done].
  destruct Hm as [_ (-> & Hn & Hfree & Hd)]. pose proof (namespace_of_nth _ _ _ Hn) as Hk.
  assert (Ha : content_at h (effective_frontier (sl_namespace w) (content_ns h) + 1) (tumbler a)).
  { apply nth_in_Ok in Hn as (_ & _ & Hs). rewrite content_ns_slot in Hs. exact Hs. }
  pose proof (content_at_position h _ a Hl Ha) as Hpos.
  assert (Hfree' : ∀ i, (i < N.of_nat (length bs))%N →
    contains_content (sl_content w) (shift (tumbler a) i) = false).
  { intros i Hi. rewrite <- addr_shift_tumbler. apply fresh_not_contained; [done|by apply content_position_shift|].
    apply (Hfree i); [done|apply addr_shift_tumbler]. }
  pose proof (stage_stretch_ok debug (sl_content w) a bs (co_store _ Hok) (content_position_routed a Hpos) Hlen) as Hw.
  destruct (stage_stretch debug (sl_content w) a bs) as [[st|e]|] eqn:Ew; [| |done].
  2: { exfalso. destruct Hw as [[_ ?]|[[_ Hc]|(_ & _ & key & [s Hs] & Hle & Hlt)]]; [done| |].
       - specialize (Hfree' 0%N ltac:(lia)). rewrite shift_0 in Hfree'. congruence.
       - destruct (proj1 (extent_prefixes (tumbler a) (N.of_nat (length bs)) (tumbler key))) as (k & Hk' & Hp); [done|].
         rewrite <- addr_shift_tumbler in Hp.
         pose proof (co_keys _ Hok key s Hs) as Hkp.
         apply element_prefix_eq in Hp as ->; [|by apply content_position_admits|by apply content_position_admits, content_position_shift].
         specialize (Hfree' k Hk'). rewrite <- addr_shift_tumbler in Hfree'.
         apply not_true_iff_false in Hfree'. apply Hfree', contains_content_ok; [apply Hok|].
         exists (addr_shift a k), s. split; [done|]. apply Stored_covers_spec. by left. }
  destruct Hw as (-> & _ & Hap & Hst & Hstores).
  exists a, (MkContentStretch a bs). split_and!; [done|done|done|done|]. intros at1.
  destruct (Hd at1) as (ns' & Hns & Hal & Hfr). cbn [apply_slices]. rewrite Hns. eexists. split; [done|]. split; [done|].
  intros at2. cbn [sl_namespace sl_content].
  destruct (range_ok _ h a _ at1 ns' (co_m3 _ Hok) Hh Hk Hcount Hns) as [Hns_ok Hgrown].
  assert (Hel : level a = Element) by by eapply content_chain_levels.
  assert (Hpre : preserved (sl_namespace w) ns').
  { refine (apply_preserved _ _ _ _ _ Hns). cbn. split; [done|congruence]. }
  assert (Hwithin : (if debug then stretch_within_frontier ns' (MkContentStretch a bs) else Done true) = Done true).
  { destruct debug; [|done]. apply (stretch_within h); [done| |done|].
    - apply is_registered_document_ok. split; [done|]. apply Hgrown. by apply is_registered_document_ok in Hh as [_ ?].
    - rewrite Hfr. replace (effective_frontier (sl_namespace w) (content_ns h) + N.of_nat (length bs) + 1)%N with
        (effective_frontier (sl_namespace w) (content_ns h) + 1 + N.of_nat (length bs))%N by lia.
      by apply content_at_shift. }
  rewrite Hwithin. cbn [mbind outcome_bind assert]. rewrite Hap. eexists. split; [done|].
  pose proof Hns as (key & Hk' & Ho' & Hns')%apply_range; [|done].
  apply (grew_ok h w ns' _ ((λ b, [b]) <$> bs) a); rewrite ?length_fmap; try done.
  - by rewrite Hns'.
  - by rewrite Hns'.
  - intros key' Hk''. rewrite Hns'. unfold effective_frontier. cbn [frontiers]. by rewrite lookup_insert_ne by congruence.
  - intros key' s. rewrite lookup_insert_Some. naive_solver.
  - intros t u. rewrite Hstores. setoid_rewrite list_lookup_fmap. split.
    + intros [(k & b & -> & Hb & ->)|?]; [left|by right]. exists k. by rewrite Hb.
    + intros [(i & Hi & ->)|?]; [left|by right]. destruct (bs !! i) as [b|] eqn:Hb; [|done].
      injection Hi as <-. by exists i, b.
Qed.
End Steps.
