(* ===== verification/Shots.v ===== *)
(** * The publish shot's values

    Models [crates/skep-arrangement/src/shot.rs]: a shot's request, the drafts it
    names, the runs it re-inserts and their count, and its address form on both sides
    of the commit, for the request and for the member it minted. The signed body
    spells each form as its windows and, between them, how many values each stretch
    holds; [spelled] is that spelling, and the two sides are shown to agree in it. *)

From stdpp Require Import gmap.
From S2P Require Import Prelude Txns Tumblers Addresses AddrMaps Arith Spans NsKeys NsState NsLaws NsOps NsInv NsCalls NsReach Runs Content RunLists RunUnions VSpace Provenance Chain ArrState ArrReads World Edits EditInv.

#[local] Arguments content_list : simpl never.
#[local] Arguments extend_or_push_run : simpl never.
#[local] Arguments trunk_of : simpl never.
#[local] Arguments N.add : simpl never.

(** ** The request *)

Record Shot := MkShot {
  sh_base : option Base;
  sh_draft : option Address;
  sh_also : list Address;
  sh_runs : list ShotRun
}.

Definition draft_document (shot : Shot) : option Address := trunk_of <$> sh_draft shot.

Definition named_drafts (shot : Shot) : list Address := trunk_of <$> option_list (sh_draft shot) ++ sh_also shot.

Definition is_draft_native (shot : Shot) (origin_doc : Address) : bool :=
  existsb (λ draft, bool_decide (draft = origin_doc)) (named_drafts shot).

Definition reinserted_runs (shot : Shot) : list Run :=
  filter (λ run, match run_origin_document run with Some d => is_draft_native shot d | None => false end = true)
    (sr_run <$> sh_runs shot).

Definition reinserted_runs_of (shot : Shot) (draft_doc : Address) : list Run :=
  filter (λ run, is_draft_native shot draft_doc = true ∧ run_origin_document run = Some draft_doc)
    (sr_run <$> sh_runs shot).

(** [RunUnion::of]'s unstable sort by start, by one of the sorts it may be. *)
Definition start_le (a b : Run) : Prop := tumbler (i_start a) ≤ₜ tumbler (i_start b).

#[export] Instance start_le_dec a b : Decision (start_le a b).
Proof. unfold start_le. apply _. Defined.

#[export] Instance start_le_total : Total start_le.
Proof. intros a b. unfold start_le. destruct (Tlt_total (tumbler (i_start a)) (tumbler (i_start b))) as [?|[?|?]]; [left|left|right]; torder. Qed.

#[export] Instance start_le_trans : Transitive start_le.
Proof. intros a b c. unfold start_le. intros. torder. Qed.

Definition union_of (runs : list Run) : RunUnion := RunUnion_of (merge_sort start_le runs).

Definition reinserted_values (shot : Shot) : outcome Nat :=
  runs ← union_runs (union_of (reinserted_runs shot));
  Done (foldr N.add 0%N (run_width <$> (runs : list Run))).

(** ** The address form *)

Inductive SegmentRun := SegValue (r : Run) | SegWindow (r : Run).

Definition segment_run (s : SegmentRun) : Run := match s with SegValue r | SegWindow r => r end.

(** The loop over the runs, [windows] the consecutive windows in hand. *)
Fixpoint address_form_loop (shot : Shot) (trunk : Address) (runs : list ShotRun) (windows : list Run) : list SegmentRun :=
  match runs with
  | [] => SegWindow <$> windows
  | stated :: runs =>
      let run := sr_run stated in
      let by_value :=
        match run_origin_document run with
        | Some origin_doc => bool_decide (origin_doc = trunk) || is_draft_native shot origin_doc
        | None => false
        end in
      if by_value then (SegWindow <$> windows) ++ SegValue run :: address_form_loop shot trunk runs []
      else address_form_loop shot trunk runs (extend_or_push_run windows run)
  end.

Definition address_form (shot : Shot) (doc : Address) : list SegmentRun :=
  address_form_loop shot (trunk_of doc) (sh_runs shot) [].

Definition address_form_of (m5 : M5State) (member : Address) (placed : Nat) : outcome (list SegmentRun) :=
  let trunk := trunk_of member in
  runs ← RunLists.iter_resolve_range (content_list m5 member) 1 placed;
  Done ((λ run, if bool_decide (run_origin_document run = Some trunk) then SegValue run else SegWindow run) <$> (runs : list Run)).

(** ** The sort, and what the re-insert counts *)

Lemma union_of_sorted l : sorted_by_start l (merge_sort start_le l).
Proof. split; [apply merge_sort_Permutation|]. apply (StronglySorted_merge_sort start_le). Qed.

Lemma sum_widths runs : foldr N.add 0%N (run_width <$> runs) = N.of_nat (length (flat runs)).
Proof.
  induction runs as [|r runs IH]; [done|]. rewrite flat_cons, length_app, addrs_length. cbn. rewrite IH. lia.
Qed.

(** How many distinct positions the re-inserted runs name. *)
Lemma reinserted_values_ok shot :
  Forall (λ r, run_ok (sr_run r)) (sh_runs shot) →
  reinserted_values shot = Done (N.of_nat (length (remove_dups (flat (reinserted_runs shot))))).
Proof.
  intros Hr. assert (Hl : runs_ok (reinserted_runs shot)).
  { apply Forall_forall. intros r (_ & Hin)%list_elem_of_filter. apply list_elem_of_fmap in Hin as (x & -> & Hx).
    by apply (proj1 (Forall_forall _ _) Hr). }
  pose proof (RunUnion_of_ok _ _ Hl (union_of_sorted (reinserted_runs shot))) as [HF HS HH].
  unfold reinserted_values, union_runs, union_of.
  rewrite (outcome_map_done to_run piece_run) by (intros p Hp; by apply to_run_ok, (proj1 (Forall_forall _ _) HF)).
  cbn [mbind outcome_bind]. rewrite sum_widths. do 2 f_equal. apply Permutation_length, NoDup_Permutation.
  - by apply flat_pieces_NoDup.
  - apply NoDup_remove_dups.
  - intros a. rewrite elem_of_remove_dups, <- HH, elem_of_flat_pieces by done. done.
Qed.

(** ** Origin documents, position by position *)

Definition origin_of (a : Address) : option Address := run_origin_document (MkRun a 1).

Lemma origin_start r : run_origin_document r = origin_of (i_start r).
Proof. done. Qed.

Lemma origin_content_at d a n :
  level d = Document → content_at d n (tumbler a) → origin_of a = Some (trunk_of d).
Proof.
  intros Hl Ha. pose proof (content_position_routed a (content_at_position d n a Hl Ha)) as Hc.
  unfold content_routed in Hc. apply andb_true_iff in Hc as [_ Hs%bool_decide_eq_true].
  unfold origin_of, run_origin_document. cbn [i_start]. rewrite bool_decide_eq_true_2 by done. cbn [negb].
  by rewrite (document_of_under d a 1 n Hl Ha).
Qed.

Lemma origin_position a d : admits_start a = true → origin_of a = Some d → content_position a.
Proof.
  intros Hs Ho. unfold origin_of, run_origin_document in Ho. cbn [i_start] in Ho.
  case_bool_decide as Hc; [|done]. clear Ho. unfold admits_start in Hs. unfold content_position.
  destruct (element_field a) as [[|x [|y [|]]]|] eqn:Ef; try done. exists y.
  assert (Hx : subspace a = (e ← element_field a; head e)).
  { unfold subspace. apply total_Done. rewrite Ef. done. }
  rewrite Ef in Hx. cbn in Hx. congruence.
Qed.

Lemma origin_shift a k : admits_start a = true → origin_of (addr_shift a k) = origin_of a.
Proof.
  intros Hs. destruct (origin_of a) as [d|] eqn:Ho.
  - pose proof (origin_position a d Hs Ho) as (h & n & Hl & E)%content_position_view.
    rewrite (origin_content_at h a n Hl E) in Ho. rewrite <- Ho. apply (origin_content_at h _ (n + k) Hl).
    rewrite addr_shift_tumbler. by apply content_at_shift.
  - destruct (origin_of (addr_shift a k)) as [d|] eqn:Ho'; [|done]. exfalso.
    pose proof (origin_position _ d (admits_shift a k Hs) Ho') as Hp.
    assert (Ha : content_position a).
    { apply content_position_view in Hp as (h & n & Hl & E). apply content_position_view.
      destruct (comps_snoc (tumbler a)) as (q & x & Ea). rewrite addr_shift_tumbler, (shift_app _ k _ _ Ea) in E.
      change [0%N; 1%N; n] with ([0%N; 1%N] ++ [n]) in E. rewrite app_assoc in E. apply app_inj_2 in E as [Eq _]; [|done].
      exists h, x. split; [done|]. by rewrite Ea, Eq, <- app_assoc. }
    apply content_position_view in Ha as (h & n & Hl & E). rewrite (origin_content_at h a n Hl E) in Ho. done.
Qed.

Lemma origin_addrs r a : run_ok r → a ∈ addrs r → origin_of a = run_origin_document r.
Proof. intros [_ Hs] (k & _ & ->)%elem_of_addrs. by rewrite origin_shift. Qed.

(** ** The spelling *)

(** The signed body's segments: each window, and each stretch of values by its count. *)
Fixpoint spelled (form : list SegmentRun) : list (Run + N) :=
  match form with
  | [] => []
  | SegWindow r :: form => inl r :: spelled form
  | SegValue r :: form =>
      match spelled form with
      | inr n :: rest => inr (run_width r + n)%N :: rest
      | rest => inr (run_width r) :: rest
      end
  end.

(** The same from the positions alone, a value's address forgotten. *)
Definition spell_step (t : option Address) (rest : list (Run + N)) : list (Run + N) :=
  match t, rest with
  | None, inr n :: rest => inr (1 + n)%N :: rest
  | None, _ => inr 1%N :: rest
  | Some a, inl r :: tail =>
      if bool_decide (i_start r = addr_shift a 1) then inl (MkRun a (1 + run_width r)) :: tail
      else inl (MkRun a 1) :: rest
  | Some a, _ => inl (MkRun a 1) :: rest
  end.

Definition spell (tags : list (option Address)) : list (Run + N) := foldr spell_step [] tags.

Definition tags_of (s : SegmentRun) : list (option Address) :=
  match s with SegValue r => (λ _, None) <$> addrs r | SegWindow r => Some <$> addrs r end.

(** Consecutive windows cannot be one run. *)
Fixpoint windows_apart (form : list SegmentRun) : Prop :=
  match form with
  | [] => True
  | s :: form =>
      match s, form with
      | SegWindow a, SegWindow b :: _ => i_adjacent a (i_start b) = false
      | _, _ => True
      end ∧ windows_apart form
  end.

Lemma addrs_one a : addrs (MkRun a 1) = [a].
Proof. unfold addrs. change (offsets (run_width (MkRun a 1))) with [0%N]. cbn [fmap list_fmap i_start]. by rewrite addr_shift_0. Qed.

Lemma addrs_cons a w : (1 < w)%N → addrs (MkRun a w) = a :: addrs (MkRun (addr_shift a 1) (w - 1)).
Proof. intros Hw. rewrite (addrs_cut a 1%N) by lia. by rewrite addrs_one. Qed.

Lemma spell_values r rest :
  (1 ≤ run_width r)%N →
  foldr spell_step rest ((λ _ : Address, None) <$> addrs r) =
  match rest with inr n :: rest => inr (run_width r + n)%N :: rest | _ => inr (run_width r) :: rest end.
Proof.
  destruct r as [a w]. cbn [run_width]. revert a. induction w as [w IH] using (well_founded_induction N.lt_wf_0).
  intros a Hw. destruct (N.eq_dec w 1%N) as [->|Hne]; [by rewrite addrs_one; destruct rest as [|[]]|].
  rewrite addrs_cons by lia. cbn [fmap list_fmap foldr]. rewrite IH by lia.
  destruct rest as [|[r|n] rest]; cbn [spell_step]; f_equal; f_equal; lia.
Qed.

Lemma spell_window r rest :
  (1 ≤ run_width r)%N → match rest with inl b :: _ => i_adjacent r (i_start b) = false | _ => True end →
  foldr spell_step rest (Some <$> addrs r) = inl r :: rest.
Proof.
  destruct r as [a w]. cbn [run_width]. revert a. induction w as [w IH] using (well_founded_induction N.lt_wf_0).
  intros a Hw Hr. destruct (N.eq_dec w 1%N) as [->|Hne].
  - rewrite addrs_one. cbn. destruct rest as [|[b|n] rest]; [done| |done]. case_bool_decide as Hb; [|done]. exfalso.
    apply not_true_iff_false in Hr. apply Hr, i_adjacent_spec. done.
  - rewrite addrs_cons by lia. cbn [fmap list_fmap foldr]. rewrite IH; [|lia|lia|].
    + cbn [spell_step i_start run_width]. rewrite bool_decide_eq_true_2 by done. do 3 f_equal. lia.
    + destruct rest as [|[b|n] rest]; [done| |done]. apply not_true_iff_false in Hr. apply not_true_iff_false.
      rewrite !i_adjacent_spec in *. cbn [i_start run_width] in *. intros Hb. apply Hr.
      rewrite Hb, addr_shift_shift. f_equal. lia.
Qed.

Lemma spelled_spell form :
  Forall (λ s, (1 ≤ run_width (segment_run s))%N) form → windows_apart form →
  spelled form = spell (form ≫= tags_of).
Proof.
  induction form as [|s form IH]; intros Hw Ha; [done|]. apply Forall_cons in Hw as [Hs Hw].
  destruct Ha as [Hsep Ha]. cbn [mbind list_bind]. unfold spell. rewrite foldr_app. fold (spell (form ≫= tags_of)).
  rewrite <- (IH Hw Ha). destruct s as [r|r]; cbn [spelled tags_of segment_run] in *.
  - rewrite spell_values by done. by destruct (spelled form) as [|[]].
  - rewrite spell_window; [done|done|]. destruct form as [|[b|b] form]; cbn [spelled]; [done| |done].
    by destruct (spelled form) as [|[]].
Qed.

(** ** The member's side: the clip of a merged list is merged *)

Lemma clip_from_one hi v r :
  run_ok r → (1 ≤ v)%N → (v < hi)%N →
  clip_block 1 (Some hi) (MkBlock v r) =
    Done (Some (if (v + run_width r <=? hi)%N then r else MkRun (i_start r) (hi - v))).
Proof.
  intros [Hw _] Hv Hh. unfold clip_block, v_reach. cbn [v_start b_run].
  destruct (N.leb_spec (v + run_width r) 1) as [|_]; [lia|]. rewrite N.max_l, N.eqb_refl by lia. cbn [andb].
  destruct (N.leb_spec (v + run_width r) hi) as [Hle|Hgt].
  - rewrite N.min_l, N.eqb_refl by lia. done.
  - rewrite N.min_r by lia. destruct (N.eqb_spec hi (v + run_width r)) as [|_]; [lia|].
    rewrite !nat_sub_ok by lia. cbn [mbind outcome_bind]. rewrite N.sub_diag, addr_at_ok by lia.
    cbn [mbind outcome_bind]. by rewrite addr_shift_0.
Qed.

Lemma clip_merged hi rs v os :
  runs_ok rs → merged rs → (1 ≤ v)%N →
  outcome_map (clip_block 1 (Some hi)) (take_while (λ b, (v_start b <? hi)%N) (blocks_from v rs)) = Done os →
  merged (clipped os) ∧ ∀ b, head (clipped os) = Some b → ∃ r, head rs = Some r ∧ i_start b = i_start r.
Proof.
  intros Hr. revert v os. induction Hr as [|r rs Hr Hrs IH]; intros v os Hm Hv; [by intros [= <-]|].
  cbn [blocks_from take_while v_start]. destruct (N.ltb_spec v hi) as [Hlt|]; [|by intros [= <-]].
  cbn [outcome_map]. rewrite clip_from_one by done. cbn [mbind outcome_bind].
  intros (os' & E & [= <-])%bind_inv. pose proof Hm as [Hadj Hm']. pose proof Hr as [Hw _].
  destruct (IH (v + run_width r)%N os' Hm' ltac:(lia) E) as [IH1 IH2].
  change (clipped (Some ?x :: os')) with (x :: clipped os'). split.
  2: { intros b [= <-]. exists r. by destruct (_ <=? _)%N. }
  cbn [merged]. split; [|done]. destruct (clipped os') as [|b k] eqn:Ek; [done|].
  destruct (IH2 b eq_refl) as (r2 & Hhd & ->). destruct rs as [|r' rs]; [done|]. injection Hhd as <-.
  destruct (N.leb_spec (v + run_width r) hi) as [|Hgt]; [done|]. exfalso.
  cbn [blocks_from take_while v_start] in E. destruct (N.ltb_spec (v + run_width r) hi); [lia|].
  by injection E as <-.
Qed.

(** The leading [placed] positions of a list, as the runs that resolve them. *)
Lemma resolve_leading l placed :
  RunList_ok l →
  ∃ rs, RunLists.iter_resolve_range l 1 placed = Done rs ∧ runs_ok rs ∧ merged rs ∧
    flat rs = take (N.to_nat placed) (vmap l).
Proof.
  intros Hl. destruct (iter_resolve_range_ok l 1 placed Hl) as (rs & E & Hr & Hf).
  exists rs. split_and!; [done|done| |]; cycle 1.
  { rewrite Hf. change (N.to_nat (1 - 1)) with 0. rewrite drop_0. f_equal. lia. }
  unfold RunLists.iter_resolve_range in E. destruct (_ <? _)%N; [|by injection E as <-].
  unfold clipped_runs, iter_blocks, blocks_of in E. apply bind_inv in E as (os & E & [= <-]).
  change (N.max 1 1) with 1%N in E. eapply (clip_merged _ (rl_runs l) 1); [apply Hl|apply Hl|done|exact E].
Qed.

(** ** The two sides agree *)

Section Forms.
Context (shot : Shot) (trunk : Address).

(** A position of the request that the body spells by value: the trunk's own, or a
    named draft's. *)
Definition by_value (a : Address) : bool :=
  match origin_of a with
  | Some d => bool_decide (d = trunk) || is_draft_native shot d
  | None => false
  end.

Definition request_tag (a : Address) : option Address := if by_value a then None else Some a.

Lemma windows_apart_windows l rest :
  merged l → match rest with SegWindow _ :: _ => False | _ => True end → windows_apart rest →
  windows_apart ((SegWindow <$> l) ++ rest).
Proof using.
  intros Hl Hr Hrest. induction l as [|a l IH]; [done|]. destruct Hl as [Ha Hl]. cbn. split; [|by apply IH].
  destruct l as [|b l]; [by destruct rest as [|[]]|done].
Qed.

Lemma windows_tags windows :
  Forall (λ a, by_value a = false) (flat windows) → (SegWindow <$> windows) ≫= tags_of = request_tag <$> flat windows.
Proof using.
  induction windows as [|w windows IH]; [done|]. rewrite flat_cons, Forall_app, fmap_cons, bind_cons, fmap_app.
  intros [Hw Hv]. rewrite IH by done. f_equal. apply list_fmap_ext. intros i a Ha.
  unfold request_tag. by rewrite (proj1 (Forall_lookup _ _) Hw i a Ha).
Qed.

Lemma request_form_ok runs windows :
  Forall (λ r, run_ok (sr_run r)) runs → runs_ok windows → merged windows → Forall (λ a, by_value a = false) (flat windows) →
  let form := address_form_loop shot trunk runs windows in
  Forall (λ s, (1 ≤ run_width (segment_run s))%N) form ∧ windows_apart form ∧
  form ≫= tags_of = request_tag <$> (flat windows ++ (runs ≫= λ r, addrs (sr_run r))).
Proof using.
  intros Hr. revert windows. induction Hr as [|[origin run] runs Hrun Hr IH]; intros windows Hw Hm Hv; cbn [address_form_loop sr_run].
  - cbn. rewrite app_nil_r. split_and!.
    + apply Forall_fmap. eapply Forall_impl; [exact Hw|]. by intros r [? _].
    + rewrite <- (app_nil_r (SegWindow <$> windows)). by apply windows_apart_windows.
    + by apply windows_tags.
  - assert (Hby : ∀ a, a ∈ addrs run → by_value a =
      match run_origin_document run with Some d => bool_decide (d = trunk) || is_draft_native shot d | None => false end).
    { intros a Ha. unfold by_value. by rewrite (origin_addrs run a Hrun Ha). }
    destruct (match run_origin_document run with Some d => _ | None => false end) eqn:Eb.
    + destruct (IH [] (Forall_nil_2 _) I (Forall_nil_2 _)) as (IH1 & IH2 & IH3). cbn [app] in IH3. split_and!.
      * rewrite Forall_app, Forall_cons. split_and!; [|apply Hrun|done].
        apply Forall_fmap. eapply Forall_impl; [exact Hw|]. by intros r [? _].
      * apply windows_apart_windows; [done|done|]. by split.
      * rewrite bind_app, windows_tags, fmap_app by done. f_equal. rewrite !bind_cons, fmap_app. cbn [tags_of sr_run].
        rewrite IH3, flat_nil. cbn [app]. f_equal. apply list_fmap_ext. intros i a Ha. unfold request_tag.
        by rewrite (Hby a) by by eapply list_elem_of_lookup_2.
    + destruct (IH (extend_or_push_run windows run)) as (IH1 & IH2 & IH3);
        [by apply extend_ok|by apply extend_merged| |].
      { rewrite extend_flat, Forall_app. split; [done|]. apply Forall_forall. exact Hby. }
      split_and!; [done|done|]. rewrite IH3, extend_flat, bind_cons. by rewrite <- app_assoc.
Qed.
End Forms.

Definition member_tag (trunk a : Address) : option Address :=
  if bool_decide (origin_of a = Some trunk) then None else Some a.

Lemma member_form_ok trunk rs :
  runs_ok rs → merged rs →
  let form := (λ run, if bool_decide (run_origin_document run = Some trunk) then SegValue run else SegWindow run) <$> rs in
  Forall (λ s, (1 ≤ run_width (segment_run s))%N) form ∧ windows_apart form ∧
  form ≫= tags_of = member_tag trunk <$> flat rs.
Proof.
  intros Hr Hm. cbv zeta. split_and!.
  - apply Forall_fmap. eapply Forall_impl; [exact Hr|]. intros r [Hw _]. cbn. by case_bool_decide.
  - induction rs as [|r rs IH]; [done|]. apply Forall_cons in Hr as [_ Hr]. destruct Hm as [Ha Hm].
    rewrite fmap_cons. cbn [windows_apart]. split; [|by apply IH].
    case_bool_decide; [done|]. destruct rs as [|b rs]; [done|]. cbn. by case_bool_decide.
  - clear Hm. induction Hr as [|r rs Hr _ IH]; [done|]. rewrite fmap_cons, bind_cons, flat_cons, fmap_app, IH. f_equal.
    assert (Ht : ∀ a, a ∈ addrs r → member_tag trunk a = if bool_decide (run_origin_document r = Some trunk) then None else Some a).
    { intros a Ha. unfold member_tag. by rewrite (origin_addrs r a Hr Ha). }
    destruct (bool_decide (run_origin_document r = Some trunk)); cbn [tags_of]; apply list_fmap_ext; intros i a Ha;
      by rewrite (Ht a) by by eapply list_elem_of_lookup_2.
Qed.

(** The member's form, read at the client's positions, spells what the request's did,
    whenever those positions are the request's under a renaming that takes what is
    spelled by value into the trunk's own space and leaves the windows. *)
Lemma forms_agree shot doc (m5 : M5State) member (f : Address → Address) :
  state_ok m5 → trunk_of member = trunk_of doc → Forall (λ r, run_ok (sr_run r)) (sh_runs shot) →
  let stated := sh_runs shot ≫= λ r, addrs (sr_run r) in
  let placed := N.of_nat (length stated) in
  take (length stated) (vmap (content_list m5 member)) = f <$> stated →
  (∀ a, a ∈ stated → by_value shot (trunk_of doc) a = true → origin_of (f a) = Some (trunk_of doc)) →
  (∀ a, a ∈ stated → by_value shot (trunk_of doc) a = false → f a = a) →
  ∃ form, address_form_of m5 member placed = Done form ∧ spelled form = spelled (address_form shot doc).
Proof.
  intros Hok Ht Hr stated placed Hc Hin Hout. destruct (lists_ok m5 member Hok) as [Hl _].
  destruct (resolve_leading (content_list m5 member) placed Hl) as (rs & E & Hrs & Hm & Hf).
  destruct (member_form_ok (trunk_of member) rs Hrs Hm) as (F1 & F2 & F3).
  destruct (request_form_ok shot (trunk_of doc) (sh_runs shot) [] Hr (Forall_nil_2 _) I (Forall_nil_2 _)) as (G1 & G2 & G3).
  unfold address_form_of. rewrite E. cbn [mbind outcome_bind]. eexists. split; [reflexivity|].
  unfold address_form. rewrite !spelled_spell by done. f_equal. rewrite F3, G3, flat_nil, Hf, Ht. cbn [app].
  unfold placed. rewrite Nat2N.id, Hc, <- list_fmap_compose. apply list_fmap_ext. intros i a Ha%list_elem_of_lookup_2.
  unfold compose, member_tag, request_tag. fold stated in Ha. destruct (by_value shot (trunk_of doc) a) eqn:Eb.
  - by rewrite (Hin a Ha Eb), bool_decide_eq_true_2.
  - rewrite (Hout a Ha Eb), bool_decide_eq_false_2; [done|]. intros Ho. unfold by_value in Eb. rewrite Ho in Eb.
    by rewrite bool_decide_eq_true_2 in Eb.
Qed.
