(* ===== verification/Minted.v ===== *)
(** * The identities a shot has minted

    Models the placement's bookkeeping of [crates/skep-arrangement/src/ops/publish.rs]:
    which positions of the named drafts a shot has re-inserted so far and where each
    landed, how the next run splits into the pieces it has minted and the pieces it has
    not, and the pairing a composite reads. The pieces filed under a chain are read as
    one partial map on addresses, [reminted], which every operation is shown to
    implement. *)

From stdpp Require Import gmap sorting.
From S2P Require Import Prelude Tumblers Addresses Arith Spans Runs Content RunLists RunUnions.

#[local] Arguments N.add : simpl never.
#[local] Arguments N.sub : simpl never.

(** ** The data *)

Record MintedRun := MkMintedRun {
  mr_from : Run;
  mr_to : Run;
  mr_home : Address;
  mr_index : nat;
  mr_minted : bool
}.

Notation Pairing := (list MintedRun) (only parsing).

Inductive Portion := Referenced (from to : Run) | Unminted (run : Run).

(** The pieces of one chain: first ordinal, then width and the fresh run's start. *)
Notation MintedPieces := (gmap Nat (Nat * Address)) (only parsing).

Notation MintedIdentity := (gmap (list Nat) MintedPieces) (only parsing).

Definition chain_and_ordinal (a : Address) : outcome (list Nat * Nat) :=
  ord ← expect_some (last (comps (tumbler a)));
  Done (removelast (comps (tumbler a)), ord).

(** A [BTreeMap]'s walk, by ascending key. *)
Definition first_le (p q : Nat * (Nat * Address)) : Prop := (p.1 ≤ q.1)%N.

#[export] Instance first_le_dec : RelDecision first_le.
Proof. intros p q. unfold first_le. apply _. Defined.

#[export] Instance first_le_trans : Transitive first_le.
Proof. intros p q r. unfold first_le. lia. Qed.

#[export] Instance first_le_total : Total first_le.
Proof. intros p q. unfold first_le. lia. Qed.

Definition ascending_pieces (m : MintedPieces) : list (Nat * (Nat * Address)) :=
  merge_sort first_le (map_to_list m).

(** [range(..reach).rev()], walked until a piece ends at or below the start. *)
Fixpoint walk_back (start reach : Nat) (entries : list (Nat * (Nat * Address)))
    (covered : list (Nat * Nat * Address)) : outcome (list (Nat * Nat * Address)) :=
  match entries with
  | [] => Done covered
  | (first, (width, fresh)) :: entries =>
      let piece_reach := (first + width)%N in
      if (piece_reach <=? start)%N then Done covered
      else
        let lo := if (start <? first)%N then first else start in
        let hi := if (piece_reach <? reach)%N then piece_reach else reach in
        fresh_run ← expect_ok (Run_new fresh width);
        offset ← nat_sub lo first;
        fresh_at_lo ← addr_at fresh_run offset;
        walk_back start reach entries (covered ++ [(lo, hi, fresh_at_lo)])
  end.

(** The closure [piece]. *)
Definition piece_of (run : Run) (start lo hi : Nat) : outcome Run :=
  offset ← nat_sub lo start;
  a ← addr_at run offset;
  width ← nat_sub hi lo;
  expect_ok (Run_new a width).

Definition unminted_until (run : Run) (start cursor lo : Nat) (portions : list Portion) : outcome (list Portion) :=
  if (cursor <? lo)%N then piece ← piece_of run start cursor lo; Done (portions ++ [Unminted piece])
  else Done portions.

Fixpoint portions_loop (run : Run) (start reach cursor : Nat) (covered : list (Nat * Nat * Address))
    (portions : list Portion) : outcome (list Portion) :=
  match covered with
  | [] => unminted_until run start cursor reach portions
  | (lo, hi, fresh_at_lo) :: covered =>
      portions ← unminted_until run start cursor lo portions;
      from ← piece_of run start lo hi;
      width ← nat_sub hi lo;
      to ← expect_ok (Run_new fresh_at_lo width);
      portions_loop run start reach hi covered ((portions : list Portion) ++ [Referenced from to])
  end.

Definition portions_of (minted : MintedIdentity) (run : Run) : outcome (list Portion) :=
  '(chain, start) ← chain_and_ordinal (i_start run);
  let reach := (start + run_width run)%N in
  covered ← match minted !! chain with
    | Some pieces =>
        walk_back start reach (reverse (filter (λ e, (e.1 < reach)%N) (ascending_pieces pieces))) []
    | None => Done []
    end;
  portions_loop run start reach start (reverse covered) [].

Fixpoint note_loop (piece : Run) (first : Nat) (home : Address) (index : nat) (fresh : list Run)
    (pieces : MintedPieces) (offset : Nat) (pairing : Pairing) : outcome (MintedPieces * Nat * Pairing) :=
  match fresh with
  | [] => Done (pieces, offset, pairing)
  | to :: fresh =>
      a ← addr_at piece offset;
      from ← expect_ok (Run_new a (run_width to));
      note_loop piece first home index fresh (<[(first + offset)%N := (run_width to, i_start to)]> pieces)
        (offset + run_width to)%N (pairing ++ [MkMintedRun from to home index true])
  end.

Definition note (debug : bool) (minted : MintedIdentity) (piece : Run) (fresh : list Run) (home : Address)
    (index : nat) (pairing : Pairing) : outcome (MintedIdentity * Pairing) :=
  '(chain, first) ← chain_and_ordinal (i_start piece);
  '(pieces, offset, pairing) ← note_loop piece first home index fresh (default ∅ (minted !! chain)) 0 pairing;
  _ ← debug_assert debug (offset =? run_width piece)%N;
  Done (<[chain := pieces]> minted, pairing).

(** ** The map the pieces are *)

Definition holds_ord (o : Nat) (e : Nat * (Nat * Address)) : bool :=
  (e.1 <=? o)%N && (o <? e.1 + e.2.1)%N.

Definition reminted (minted : MintedIdentity) (a : Address) : option Address :=
  pieces ← minted !! chain a;
  '(first, (_, fresh)) ← head (filter (λ e, holds_ord (ord a) e = true) (map_to_list (pieces : MintedPieces)));
  Some (addr_shift fresh (ord a - first)).

(** The pieces of a chain are runs, and never overlap. *)
Record pieces_ok (m : MintedPieces) : Prop := {
  pk_runs : ∀ first w fresh, m !! first = Some (w, fresh) → run_ok (MkRun fresh w);
  pk_apart : ∀ f1 w1 a1 f2 w2 a2,
    m !! f1 = Some (w1, a1) → m !! f2 = Some (w2, a2) → (f1 < f2)%N → (f1 + w1 ≤ f2)%N
}.

Definition minted_ok (minted : MintedIdentity) : Prop := ∀ c m, minted !! c = Some m → pieces_ok m.

Lemma minted_ok_empty : minted_ok ∅.
Proof. by intros c m. Qed.

Lemma reminted_empty a : reminted ∅ a = None.
Proof. done. Qed.

Lemma chain_and_ordinal_ok a : chain_and_ordinal a = Done (chain a, ord a).
Proof. unfold chain_and_ordinal. rewrite chain_ord, last_snoc. cbn. by rewrite removelast_last. Qed.

Lemma reminted_Some minted a b :
  minted_ok minted →
  reminted minted a = Some b ↔
  ∃ m first w fresh, minted !! chain a = Some m ∧ m !! first = Some (w, fresh) ∧
    (first ≤ ord a < first + w)%N ∧ b = addr_shift fresh (ord a - first).
Proof.
  intros Hok. unfold reminted. destruct (minted !! chain a) as [m|] eqn:Em; cbn [mbind option_bind].
  2: { split; [done|]. by intros (? & ? & ? & ? & ? & _). }
  assert (Hin : ∀ f w x, (f, (w, x)) ∈ filter (λ e, holds_ord (ord a) e = true) (map_to_list m) ↔
    m !! f = Some (w, x) ∧ (f ≤ ord a < f + w)%N).
  { intros f w x. rewrite list_elem_of_filter, elem_of_map_to_list. unfold holds_ord. cbn.
    rewrite andb_true_iff, N.leb_le, N.ltb_lt. tauto. }
  destruct (filter _ _) as [|[f [w x]] l] eqn:Ef; cbn [head mbind option_bind].
  - split; [done|]. intros (m' & f & w & x & [= <-] & Hm & Ho & _). exfalso.
    by apply (not_elem_of_nil (f, (w, x))), Hin.
  - assert ((f, (w, x)) ∈ (f, (w, x)) :: l) as [Hm Ho]%Hin by by left. split.
    + intros [= <-]. by exists m, f, w, x.
    + intros (m' & f' & w' & x' & [= <-] & Hm' & Ho' & ->).
      assert (f = f') as <-.
      { destruct (N.lt_trichotomy f f') as [Hlt|[?|Hlt]]; [|done|].
        - pose proof (pk_apart _ (Hok _ _ Em) _ _ _ _ _ _ Hm Hm' Hlt). lia.
        - pose proof (pk_apart _ (Hok _ _ Em) _ _ _ _ _ _ Hm' Hm Hlt). lia. }
      congruence.
Qed.

(** ** Noting a piece *)

Lemma pieces_ok_at minted c : minted_ok minted → pieces_ok (default ∅ (minted !! c)).
Proof. intros Hok. destruct (minted !! c) as [m|] eqn:E; [by eapply Hok|]. by split. Qed.

(** The address at an ordinal of a run. *)
Lemma ord_addr r o : (r_lo r ≤ o < r_hi r)%N → ∃ a, a ∈ addrs r ∧ chain a = r_chain r ∧ ord a = o.
Proof.
  intros Ho. exists (addr_shift (i_start r) (o - r_lo r)). rewrite chain_shift, ord_shift.
  unfold r_hi, r_lo in *. split_and!; [|done|lia]. apply elem_of_addrs. exists (o - ord (i_start r))%N. split; [lia|done].
Qed.

Lemma minted_insert minted r fresh :
  minted_ok minted → run_ok r → run_ok (MkRun fresh (run_width r)) → (∀ a, a ∈ addrs r → reminted minted a = None) →
  let minted' : MintedIdentity :=
    <[r_chain r := <[r_lo r := (run_width r, fresh)]> (default ∅ (minted !! r_chain r))]> minted in
  minted_ok minted' ∧
  ∀ a, reminted minted' a = if decide (a ∈ addrs r) then Some (addr_shift fresh (ord a - r_lo r)) else reminted minted a.
Proof.
  intros Hok Hr Hf Hfree minted'. pose proof (pieces_ok_at minted (r_chain r) Hok) as Hp.
  set (m := default ∅ (minted !! r_chain r)) in *.
  assert (Hclash : ∀ f w x o, m !! f = Some (w, x) → (f ≤ o < f + w)%N → (r_lo r ≤ o < r_hi r)%N → False).
  { intros f w x o Hm Ho Hor. destruct (ord_addr r o Hor) as (a & Ha & Hc & Hoa).
    assert (reminted minted a = Some (addr_shift x (ord a - f))) as E; [|by rewrite Hfree in E].
    apply reminted_Some; [done|]. unfold m in Hm. rewrite <- Hc in Hm. destruct (minted !! chain a) as [m'|] eqn:Em; [|done].
    exists m', f, w, x. by rewrite Hoa. }
  assert (Hwid : ∀ f w x, m !! f = Some (w, x) → (1 ≤ w)%N) by (intros f w x Hm; by apply (pk_runs _ Hp f w x)).
  assert (Hlh : (r_lo r < r_hi r)%N) by by apply run_lo_hi.
  assert (Hok' : minted_ok minted').
  { intros c m'. unfold minted'. rewrite lookup_insert_Some. intros [[_ <-]|[_ Hm]]; [|by eapply Hok]. split.
    - intros f w x. rewrite lookup_insert_Some. intros [[<- [= <- <-]]|[_ Hm]]; [done|by apply (pk_runs _ Hp f)].
    - intros f1 w1 a1 f2 w2 a2. rewrite !lookup_insert_Some.
      intros [[<- [= <- <-]]|[Hn1 Hm1]] [[<- [= <- <-]]|[Hn2 Hm2]] Hlt; try lia.
      + destruct (N.le_gt_cases (r_hi r) f2) as [|Hgt]; [done|]. exfalso.
        apply (Hclash _ _ _ f2 Hm2); [pose proof (Hwid _ _ _ Hm2); lia|lia].
      + destruct (N.le_gt_cases (f1 + w1)%N (r_lo r)) as [|Hgt]; [done|]. exfalso.
        apply (Hclash _ _ _ (r_lo r) Hm1); lia.
      + by apply (pk_apart _ Hp f1 w1 a1 f2 w2 a2). }
  split; [done|]. intros a. apply option_eq. intros b. rewrite reminted_Some by done. unfold minted'. case_decide as Hin.
  - apply elem_of_addrs_ord in Hin as [Hc Ho]. rewrite Hc. split.
    + intros (m' & f & w & x & [[_ <-]|[? _]]%lookup_insert_Some & Hm & Hof & ->); [|done].
      apply lookup_insert_Some in Hm as [[<- [= <- <-]]|[Hn Hm]]; [done|]. exfalso. by eapply Hclash.
    + intros [= <-]. eexists _, (r_lo r), (run_width r), fresh. split; [apply lookup_insert_eq|].
      split; [apply lookup_insert_eq|by split].
  - rewrite reminted_Some by done. split.
    + intros (m' & f & w & x & [[Hc <-]|[Hc Hm']]%lookup_insert_Some & Hm & Hof & ->).
      * apply lookup_insert_Some in Hm as [[<- [= <- <-]]|[Hn Hm]].
        -- exfalso. apply Hin, elem_of_addrs_ord. by split.
        -- unfold m in Hm. rewrite Hc in Hm. destruct (minted !! chain a) as [m'|] eqn:Em; [|done]. by exists m', f, w, x.
      * by exists m', f, w, x.
    + intros (m' & f & w & x & Hm' & Hm & Hof & ->).
      destruct (decide (r_chain r = chain a)) as [Hc|Hc].
      * eexists _, f, w, x. rewrite Hc, lookup_insert_eq. split; [done|]. split; [|done].
        rewrite lookup_insert_ne; [unfold m; by rewrite Hc, Hm'|]. intros <-. apply (Hclash (r_lo r) w x (r_lo r)); [|lia|lia].
        unfold m. by rewrite Hc, Hm'.
      * exists m', f, w, x. by rewrite lookup_insert_ne.
Qed.

(** The same, the chain's pieces in hand. *)
Lemma filed_insert minted c r fresh (ps : MintedPieces) :
  let filed (ps : MintedPieces) : MintedIdentity := <[c := ps]> minted in
  minted_ok (filed ps) → r_chain r = c → run_ok r → run_ok (MkRun fresh (run_width r)) →
  (∀ a, a ∈ addrs r → reminted (filed ps) a = None) →
  let ps' := <[r_lo r := (run_width r, fresh)]> ps in
  minted_ok (filed ps') ∧
  ∀ a, reminted (filed ps') a =
    if decide (a ∈ addrs r) then Some (addr_shift fresh (ord a - r_lo r)) else reminted (filed ps) a.
Proof.
  intros filed Hok Hc Hr Hf Hfree ps'. pose proof (minted_insert (filed ps) r fresh Hok Hr Hf Hfree) as H.
  unfold filed in H at 1 2 3. cbv zeta in H. rewrite Hc, lookup_insert_eq, !insert_insert_eq in H. exact H.
Qed.

(** Part of a run, by its ordinals. *)
Definition window (r : Run) (a b : Nat) : Run := MkRun (addr_shift (i_start r) (a - r_lo r)) (b - a).

Lemma window_cut r a m b : (r_lo r ≤ a ≤ m)%N → (m ≤ b)%N → addrs (window r a b) = addrs (window r a m) ++ addrs (window r m b).
Proof.
  intros Ha Hb. unfold window. rewrite (addrs_cut _ (m - a)%N (b - a)%N) by lia. rewrite addr_shift_shift.
  replace (a - r_lo r + (m - a))%N with (m - r_lo r)%N by lia. by replace (b - a - (m - a))%N with (b - m)%N by lia.
Qed.

Lemma window_all r : addrs (window r (r_lo r) (r_hi r)) = addrs r.
Proof.
  unfold window, r_hi. rewrite N.sub_diag, addr_shift_0. replace (r_lo r + run_width r - r_lo r)%N with (run_width r) by lia.
  by destruct r.
Qed.

Lemma window_none r a : addrs (window r a a) = [].
Proof. unfold window. by rewrite N.sub_diag. Qed.

Lemma window_ok r a b : run_ok r → (a < b)%N → run_ok (window r a b).
Proof. intros [_ Hr] Hab. split; [cbn; lia|]. by apply admits_shift. Qed.

Lemma window_lo r a b : (r_lo r ≤ a)%N → r_lo (window r a b) = a.
Proof. intros Ha. unfold window, r_lo in *. cbn [i_start]. rewrite ord_shift. lia. Qed.

Lemma window_chain r a b : r_chain (window r a b) = r_chain r.
Proof. apply chain_shift. Qed.

Lemma elem_of_window r a b x :
  (r_lo r ≤ a)%N → x ∈ addrs (window r a b) ↔ chain x = r_chain r ∧ (a ≤ ord x < b)%N.
Proof.
  intros Ha. rewrite elem_of_addrs_ord, window_chain. unfold r_hi. rewrite window_lo by done.
  change (run_width (window r a b)) with (b - a)%N. split; (intros [? ?]; split; [done|lia]).
Qed.

Lemma Run_new_ok r : run_ok r → Run_new (i_start r) (run_width r) = Ok r.
Proof.
  intros [Hw Ha]. unfold Run_new. rewrite Ha, nat_is_zero_eqb. destruct (N.eqb_spec (run_width r) 0); [lia|by destruct r].
Qed.

(** A map that takes a run's positions to another's, in order. *)
Definition carries (f : Address → option Address) (from to : Run) : Prop := f <$> addrs from = Some <$> addrs to.

Lemma carries_at f from to :
  run_width from = run_width to →
  (∀ k, (k < run_width to)%N → f (addr_shift (i_start from) k) = Some (addr_shift (i_start to) k)) → carries f from to.
Proof.
  intros Hw Hf. unfold carries, addrs. rewrite Hw, <- !list_fmap_compose. apply list_fmap_ext.
  intros i k Hk%list_elem_of_lookup_2%elem_of_offsets. cbn. by apply Hf.
Qed.

Lemma carries_ext f g from to : (∀ a, a ∈ addrs from → g a = f a) → carries f from to → carries g from to.
Proof.
  unfold carries. intros Hfg <-. apply list_fmap_ext. intros i a Ha%list_elem_of_lookup_2. by apply Hfg.
Qed.

Record pair_ok (f : Address → option Address) (home : Address) (index : nat) (by_mint : bool) (e : MintedRun) : Prop := {
  po_from : run_ok (mr_from e);
  po_to : run_ok (mr_to e);
  po_carries : carries f (mr_from e) (mr_to e);
  po_home : mr_home e = home;
  po_index : mr_index e = index;
  po_minted : mr_minted e = by_mint
}.

Lemma note_loop_ok minted piece home index fresh pieces offset pairing :
  let filed (ps : MintedPieces) : MintedIdentity := <[r_chain piece := ps]> minted in
  let rest := window piece (r_lo piece + offset) (r_hi piece) in
  run_ok piece → minted_ok (filed pieces) → runs_ok fresh → (offset + N.of_nat (length (flat fresh)) = run_width piece)%N →
  (∀ a, a ∈ addrs rest → reminted (filed pieces) a = None) →
  ∃ pieces' entries,
    note_loop piece (r_lo piece) home index fresh pieces offset pairing = Done (pieces', run_width piece, pairing ++ entries) ∧
    minted_ok (filed pieces') ∧ (∀ a, a ∉ addrs rest → reminted (filed pieces') a = reminted (filed pieces) a) ∧
    reminted (filed pieces') <$> addrs rest = Some <$> flat fresh ∧
    flat (mr_from <$> entries) = addrs rest ∧ Forall (pair_ok (reminted (filed pieces')) home index true) entries.
Proof.
  intros filed rest Hp Hok Hf. revert pieces offset pairing rest Hok.
  induction Hf as [|to fresh Hto Hfr IH]; intros pieces offset pairing rest Hok Hlen Hfree.
  - rewrite flat_nil in Hlen. cbn [length] in Hlen. assert (offset = run_width piece) as -> by lia. unfold rest. fold (r_hi piece). rewrite window_none.
    exists pieces, []. cbn [note_loop]. rewrite app_nil_r. by split_and!.
  - cbn [note_loop]. rewrite flat_cons, length_app, addrs_length in Hlen.
    pose proof Hto as [Hw Hs]. rewrite addr_at_ok by lia. cbn [mbind outcome_bind].
    set (from := window piece (r_lo piece + offset) (r_lo piece + offset + run_width to)).
    assert (Hfe : from = MkRun (addr_shift (i_start piece) offset) (run_width to)).
    { unfold from, window. f_equal; [f_equal|]; lia. }
    assert (Hfrom : run_ok from) by (apply window_ok; [done|lia]).
    assert (Hcut : addrs rest = addrs from ++ addrs (window piece (r_lo piece + (offset + run_width to)) (r_hi piece))).
    { unfold rest, from. rewrite N.add_assoc. apply window_cut; [lia|]. unfold r_hi. lia. }
    pose proof (addrs_NoDup rest) as Hnd. rewrite Hcut in Hnd. apply NoDup_app in Hnd as (_ & Hdis & _).
    assert (Hnew : Run_new (addr_shift (i_start piece) offset) (run_width to) = Ok from).
    { rewrite Hfe in Hfrom |- *. exact (Run_new_ok _ Hfrom). }
    rewrite Hnew. cbn [expect_ok mbind outcome_bind].
    assert (Hwid : run_width from = run_width to) by by rewrite Hfe.
    destruct (filed_insert minted (r_chain piece) from (i_start to) pieces Hok (window_chain _ _ _) Hfrom) as [Hok' Hrem].
    { rewrite Hwid. by destruct to. }
    { intros a Ha. apply Hfree. rewrite Hcut. apply elem_of_app. by left. }
    assert (Hlo : r_lo from = (r_lo piece + offset)%N) by (apply window_lo; lia).
    rewrite Hlo, Hwid in Hok', Hrem. fold filed in Hok', Hrem.
    destruct (IH (<[(r_lo piece + offset)%N := (run_width to, i_start to)]> pieces) (offset + run_width to)%N
      (pairing ++ [MkMintedRun from to home index true])) as (pieces' & entries & E & H1 & H2 & H3 & H4 & H5).
    { exact Hok'. }
    { lia. }
    { intros a Ha. rewrite Hrem, decide_False by (intros Hx; by apply (Hdis a)). apply Hfree. rewrite Hcut. apply elem_of_app. by right. }
    assert (Hcar : carries (reminted (filed pieces')) from to).
    { apply (carries_ext (reminted (filed (<[(r_lo piece + offset)%N := (run_width to, i_start to)]> pieces)))).
      - intros a Ha. apply H2. by apply Hdis.
      - apply carries_at; [done|]. intros k Hk. rewrite Hrem, decide_True.
        + rewrite ord_shift, Hfe. cbn [i_start]. rewrite ord_shift. unfold r_lo. do 2 f_equal. lia.
        + apply elem_of_addrs. exists k. rewrite Hwid. by split. }
    exists pieces', (MkMintedRun from to home index true :: entries). rewrite E, <- app_assoc, Hcut. split_and!; try done.
    + intros a [Ha1 Ha2]%not_elem_of_app. by rewrite (H2 a Ha2), Hrem, decide_False.
    + rewrite fmap_app, flat_cons, fmap_app, H3. f_equal. exact Hcar.
    + by rewrite fmap_cons, flat_cons, H4.
    + by constructor.
Qed.

(** Opening an absent chain's entry changes nothing. *)
Lemma filed_default minted c :
  minted_ok minted →
  let minted' : MintedIdentity := <[c := default ∅ (minted !! c)]> minted in
  minted_ok minted' ∧ ∀ a, reminted minted' a = reminted minted a.
Proof.
  intros Hok minted'. destruct (minted !! c) as [m|] eqn:E; cbn in minted'.
  - assert (minted' = minted) as -> by by apply insert_id. done.
  - split.
    + intros c' m. unfold minted'. rewrite lookup_insert_Some. intros [[_ <-]|[_ Hm]]; [by split|by eapply Hok].
    + intros a. unfold reminted, minted'. rewrite lookup_insert. case_decide as Hc; [subst; by rewrite E|done].
Qed.

Lemma note_ok debug minted piece fresh home index pairing :
  run_ok piece → minted_ok minted → runs_ok fresh → length (flat fresh) = length (addrs piece) →
  (∀ a, a ∈ addrs piece → reminted minted a = None) →
  ∃ minted' entries,
    note debug minted piece fresh home index pairing = Done (minted', pairing ++ entries) ∧ minted_ok minted' ∧
    (∀ a, a ∉ addrs piece → reminted minted' a = reminted minted a) ∧
    reminted minted' <$> addrs piece = Some <$> flat fresh ∧
    flat (mr_from <$> entries) = addrs piece ∧ Forall (pair_ok (reminted minted') home index true) entries.
Proof.
  intros Hp Hok Hf Hlen Hfree. unfold note. rewrite chain_and_ordinal_ok. cbn [mbind outcome_bind].
  destruct (filed_default minted (r_chain piece) Hok) as [Hok' Hsame].
  destruct (note_loop_ok minted piece home index fresh (default ∅ (minted !! r_chain piece)) 0 pairing)
    as (pieces' & entries & E & H1 & H2 & H3 & H4 & H5);
    [done|done|done|rewrite Hlen, addrs_length; lia|..].
  { intros a. rewrite N.add_0_r, window_all, Hsame. apply Hfree. }
  rewrite N.add_0_r, window_all in *. fold (r_lo piece) (r_chain piece). rewrite E. cbn [mbind outcome_bind].
  rewrite N.eqb_refl. exists (<[r_chain piece := pieces']> minted), entries.
  split; [by destruct debug|]. split_and!; try done. intros a Ha. by rewrite H2, Hsame.
Qed.

(** ** Splitting a run *)

Definition portion_run (p : Portion) : Run := match p with Referenced from _ => from | Unminted run => run end.

(** What a portion says of its positions. *)
Definition portion_ok (f : Address → option Address) (p : Portion) : Prop :=
  match p with
  | Referenced from to => run_ok from ∧ run_ok to ∧ carries f from to
  | Unminted run => run_ok run ∧ ∀ a, a ∈ addrs run → f a = None
  end.

(** The overlaps found, ascending, each with what its positions became. *)
Fixpoint overlaps (f : Address → option Address) (run : Run) (cursor : Nat) (covered : list (Nat * Nat * Address)) : Prop :=
  match covered with
  | [] => (cursor ≤ r_hi run)%N ∧ ∀ a, a ∈ addrs (window run cursor (r_hi run)) → f a = None
  | (lo, hi, fresh) :: covered =>
      (cursor ≤ lo)%N ∧ (lo < hi)%N ∧ (∀ a, a ∈ addrs (window run cursor lo) → f a = None) ∧
      run_ok (MkRun fresh (hi - lo)) ∧ carries f (window run lo hi) (MkRun fresh (hi - lo)) ∧ overlaps f run hi covered
  end.

Lemma overlaps_reach f run cursor covered : overlaps f run cursor covered → (cursor ≤ r_hi run)%N.
Proof.
  revert cursor. induction covered as [|[[lo hi] fresh] covered IH]; intros cursor; cbn; [by intros [? _]|].
  intros (? & ? & _ & _ & _ & H%IH). lia.
Qed.

Lemma overlaps_widen f run a b covered :
  (r_lo run ≤ a)%N → (a ≤ b)%N → (∀ x, x ∈ addrs (window run a b) → f x = None) →
  overlaps f run b covered → overlaps f run a covered.
Proof.
  intros Ha Hab Hf. destruct covered as [|[[lo hi] fresh] covered]; cbn.
  - intros [Hb H]. split; [lia|]. intros x. rewrite (window_cut run a b) by lia. rewrite elem_of_app.
    intros [?|?]; [by apply Hf|by apply H].
  - intros (Hb & Hlh & H & Hrest). split_and!; [lia|done| |apply Hrest..]. intros x.
    rewrite (window_cut run a b) by lia. rewrite elem_of_app. intros [?|?]; [by apply Hf|by apply H].
Qed.

Lemma piece_of_ok run a b :
  run_ok run → (r_lo run ≤ a)%N → (a < b)%N → (b ≤ r_hi run)%N →
  piece_of run (r_lo run) a b = Done (window run a b) ∧ run_ok (window run a b).
Proof.
  intros Hr Ha Hab Hb. pose proof (window_ok run a b Hr Hab) as Hw. split; [|done]. unfold piece_of, r_hi in *.
  rewrite (nat_sub_ok a), (nat_sub_ok b) by lia. cbn [mbind outcome_bind]. rewrite addr_at_ok by lia. cbn [mbind outcome_bind].
  pose proof (Run_new_ok _ Hw) as E. cbn [window i_start run_width] in E. by rewrite E.
Qed.

Lemma unminted_until_ok f run cursor lo portions :
  run_ok run → (r_lo run ≤ cursor ≤ lo)%N → (lo ≤ r_hi run)%N → (∀ a, a ∈ addrs (window run cursor lo) → f a = None) →
  ∃ ps, unminted_until run (r_lo run) cursor lo portions = Done (portions ++ ps) ∧ Forall (portion_ok f) ps ∧
    flat (portion_run <$> ps) = addrs (window run cursor lo).
Proof.
  intros Hr Hc Hl Hf. unfold unminted_until. destruct (N.ltb_spec cursor lo) as [Hlt|Hge].
  - destruct (piece_of_ok run cursor lo Hr ltac:(lia) Hlt Hl) as [-> Hw]. exists [Unminted (window run cursor lo)].
    split; [done|]. split; [constructor; [by split|by constructor]|].
    rewrite fmap_cons, flat_cons. cbn. by rewrite flat_nil, app_nil_r.
  - assert (cursor = lo) as -> by lia. exists []. rewrite app_nil_r, window_none. by split_and!.
Qed.

Lemma portions_loop_ok f run cursor covered portions :
  run_ok run → (r_lo run ≤ cursor)%N → overlaps f run cursor covered →
  ∃ ps, portions_loop run (r_lo run) (r_hi run) cursor covered portions = Done (portions ++ ps) ∧
    Forall (portion_ok f) ps ∧ flat (portion_run <$> ps) = addrs (window run cursor (r_hi run)).
Proof.
  intros Hr. revert cursor portions. induction covered as [|[[lo hi] fresh] covered IH]; intros cursor portions Hc.
  - intros [Hle Hf]. by apply unminted_until_ok.
  - intros (Hlo & Hlh & Hf & Hfresh & Hcar & Hrest). pose proof (overlaps_reach _ _ _ _ Hrest) as Hhi.
    destruct (unminted_until_ok f run cursor lo portions) as (ps1 & E1 & F1 & L1); [done|lia|lia|done|].
    cbn [portions_loop]. rewrite E1. cbn [mbind outcome_bind].
    destruct (piece_of_ok run lo hi Hr) as [-> Hw]; [lia..|]. cbn [mbind outcome_bind].
    rewrite nat_sub_ok by lia. cbn [mbind outcome_bind]. pose proof (Run_new_ok _ Hfresh) as En. cbn [i_start run_width] in En.
    rewrite En. cbn [expect_ok mbind outcome_bind].
    destruct (IH hi ((portions ++ ps1) ++ [Referenced (window run lo hi) (MkRun fresh (hi - lo))])) as (ps2 & E2 & F2 & L2); [lia|done|].
    exists (ps1 ++ Referenced (window run lo hi) (MkRun fresh (hi - lo)) :: ps2). rewrite E2, <- !app_assoc. split_and!; [done| |].
    + rewrite Forall_app, Forall_cons. by split_and!.
    + rewrite fmap_app, flat_app, fmap_cons, flat_cons, L1, L2. cbn [portion_run].
      rewrite <- window_cut by lia. symmetry. apply window_cut; lia.
Qed.

Lemma reminted_none minted run a b :
  minted_ok minted → (r_lo run ≤ a)%N →
  (∀ m f w x o, minted !! r_chain run = Some m → m !! f = Some (w, x) → (f ≤ o < f + w)%N → (a ≤ o < b)%N → False) →
  ∀ y, y ∈ addrs (window run a b) → reminted minted y = None.
Proof.
  intros Hok Ha Hno y [Hc Ho]%elem_of_window; [|done]. destruct (reminted minted y) as [z|] eqn:E; [|done].
  apply reminted_Some in E as (m & f & w & x & Hm & Hf & Hof & _); [|done]. rewrite Hc in Hm. by edestruct Hno.
Qed.

Section Walk.
Context (minted : MintedIdentity) (run : Run) (m : MintedPieces).
Context (Hok : minted_ok minted) (Hrun : run_ok run) (Hm : minted !! r_chain run = Some m).

(** What is left of the walk, above [bound]: every overlap below it is still to come. *)
Record walking (entries : list (Nat * (Nat * Address))) (bound : Nat) : Prop := {
  wk_desc : StronglySorted (λ p q, (q.1 < p.1)%N) entries;
  wk_in : ∀ e, e ∈ entries → m !! e.1 = Some e.2 ∧ (e.1 < r_hi run)%N ∧ ((e.1 + e.2.1 ≤ bound)%N ∨ bound = r_hi run);
  wk_all : ∀ f w x o, m !! f = Some (w, x) → (f ≤ o < f + w)%N → (r_lo run ≤ o < bound)%N → (f, (w, x)) ∈ entries;
  wk_lo : (r_lo run ≤ bound ≤ r_hi run)%N
}.

Lemma walking_below f w x entries bound g v y :
  walking ((f, (w, x)) :: entries) bound → (g, (v, y)) ∈ entries → (g + v ≤ f)%N.
Proof using Hok Hm.
  intros [Hd Hin _ _] Hg. apply StronglySorted_cons in Hd as [Hd _].
  pose proof (proj1 (Forall_forall _ _) Hd _ Hg) as Hlt. cbn in Hlt.
  destruct (Hin _ ltac:(by left)) as (Hf & _). destruct (Hin (g, (v, y)) ltac:(by right)) as (Hy & _). cbn in Hf, Hy.
  by apply (pk_apart _ (Hok _ _ Hm) g v y f w x).
Qed.

(** One overlap taken. *)
Lemma walking_step f w x entries bound covered :
  walking ((f, (w, x)) :: entries) bound → (r_lo run < f + w)%N → overlaps (reminted minted) run bound covered →
  let lo := N.max (r_lo run) f in
  let hi := N.min (f + w) (r_hi run) in
  (lo < hi)%N ∧ walking entries lo ∧
  overlaps (reminted minted) run lo ((lo, hi, addr_shift x (lo - f)) :: covered).
Proof using Hok Hrun Hm.
  intros Hw Hover Hov lo hi. pose proof Hw as [Hd Hin Hall Hlo].
  destruct (Hin _ ltac:(by left)) as (Hf & Hfr & Hb). cbn in Hf, Hfr, Hb.
  pose proof (run_lo_hi run Hrun) as Hlh. pose proof (pk_runs _ (Hok _ _ Hm) _ _ _ Hf) as [Hw1 Hx]. cbn in Hw1, Hx.
  assert (Hlos : lo = N.max (r_lo run) f) by done. assert (Hhis : hi = N.min (f + w) (r_hi run)) by done. clearbody lo hi.
  assert (lo < hi)%N as Hlt by lia. split; [done|]. split.
  - split.
    + by apply StronglySorted_cons in Hd as [_ Hd].
    + intros [g [v y]] Hg. destruct (Hin (g, (v, y)) ltac:(by right)) as (Hy & Hyr & _). cbn in *.
      pose proof (walking_below _ _ _ _ _ _ _ _ Hw Hg). split_and!; [done|done|left; lia].
    + intros g v y o Hy Ho Hor. destruct (elem_of_cons entries (g, (v, y)) (f, (w, x))) as [Hc _].
      destruct (Hc (Hall g v y o Hy Ho ltac:(lia))) as [[= -> -> ->]|]; [lia|done].
    + lia.
  - cbn [overlaps]. split_and!; [lia|done|by rewrite window_none; intros a ?%not_elem_of_nil| | |].
    + split; [cbn; lia|]. by apply admits_shift.
    + apply carries_at; [done|]. intros k Hk. cbn [run_width i_start window] in *. apply reminted_Some; [done|].
      exists m, f, w, x. rewrite !chain_shift, !ord_shift. fold (r_lo run). split_and!; [done|done|lia|lia|].
      rewrite addr_shift_shift. f_equal. lia.
    + apply (overlaps_widen _ _ hi bound); [lia|lia| |done].
      apply reminted_none; [done|lia|]. intros m' g v y o Hm' Hy Ho Hor.
      assert (m' = m) as -> by congruence.
      destruct (elem_of_cons entries (g, (v, y)) (f, (w, x))) as [Hc _].
      destruct (Hc (Hall g v y o Hy Ho ltac:(lia))) as [[= -> -> ->]|Hg]; [lia|].
      pose proof (walking_below _ _ _ _ _ _ _ _ Hw Hg). lia.
Qed.

Lemma walk_back_ok entries bound covered :
  walking entries bound → overlaps (reminted minted) run bound (reverse covered) →
  ∃ covered', walk_back (r_lo run) (r_hi run) entries covered = Done covered' ∧
    overlaps (reminted minted) run (r_lo run) (reverse covered').
Proof using Hok Hrun Hm.
  revert bound covered. induction entries as [|[f [w x]] entries IH]; intros bound covered Hw Hov.
  - exists covered. split; [done|]. destruct Hw as [_ _ Hall Hlo]. apply (overlaps_widen _ _ _ bound); [lia|lia| |done].
    apply reminted_none; [done|lia|]. intros m' g v y o Hm' Hy Ho Hor. assert (m' = m) as -> by congruence.
    by apply (not_elem_of_nil (g, (v, y))), (Hall g v y o).
  - cbn [walk_back]. destruct (N.leb_spec (f + w) (r_lo run)) as [Hle|Hgt].
    + exists covered. split; [done|]. pose proof Hw as [_ _ Hall Hlo]. apply (overlaps_widen _ _ _ bound); [lia|lia| |done].
      apply reminted_none; [done|lia|]. intros m' g v y o Hm' Hy Ho Hor. assert (m' = m) as -> by congruence.
      destruct (elem_of_cons entries (g, (v, y)) (f, (w, x))) as [Hc _].
      destruct (Hc (Hall g v y o Hy Ho Hor)) as [[= -> -> ->]|Hg]; [lia|].
      pose proof (walking_below _ _ _ _ _ _ _ _ Hw Hg). lia.
    + destruct (walking_step f w x entries bound (reverse covered) Hw Hgt Hov) as (Hlt & Hw' & Hov').
      destruct (wk_in _ _ Hw _ ltac:(by left)) as (Hf & _). cbn in Hf.
      pose proof (Run_new_ok _ (pk_runs _ (Hok _ _ Hm) _ _ _ Hf)) as En. cbn [i_start run_width] in En.
      assert ((if (r_lo run <? f)%N then f else r_lo run) = N.max (r_lo run) f) as ->
        by (destruct (N.ltb_spec (r_lo run) f); lia).
      assert ((if (f + w <? r_hi run)%N then (f + w)%N else r_hi run) = N.min (f + w) (r_hi run)) as ->
        by (destruct (N.ltb_spec (f + w) (r_hi run)); lia).
      rewrite En. cbn [expect_ok mbind outcome_bind]. rewrite nat_sub_ok by lia. cbn [mbind outcome_bind].
      rewrite addr_at_ok by (cbn; lia). cbn [mbind outcome_bind i_start].
      eapply IH; [exact Hw'|]. by rewrite reverse_snoc.
Qed.
End Walk.

(** A map's walk, strictly ascending, and backwards. *)
Lemma sorted_reverse {A} (R : A → A → Prop) l : StronglySorted R l → StronglySorted (flip R) (reverse l).
Proof.
  induction 1 as [|x l Hl IH Hx]; [constructor|]. rewrite reverse_cons. apply StronglySorted_snoc. split; [done|].
  intros y. rewrite elem_of_reverse. by apply (proj1 (Forall_forall _ _) Hx).
Qed.

Lemma sorted_filter {A} (R : A → A → Prop) (P : A → Prop) `{∀ x, Decision (P x)} l :
  StronglySorted R l → StronglySorted R (filter P l).
Proof.
  induction 1 as [|x l Hl IH Hx]; [constructor|]. rewrite filter_cons. case_decide; [|done]. constructor; [done|].
  apply Forall_forall. intros y [_ Hy]%list_elem_of_filter. by apply (proj1 (Forall_forall _ _) Hx).
Qed.

Lemma ascending_pieces_sorted m : StronglySorted (λ p q, (p.1 < q.1)%N) (ascending_pieces m).
Proof.
  assert (Hnd : NoDup (fst <$> ascending_pieces m)).
  { unfold ascending_pieces. rewrite merge_sort_Permutation. apply NoDup_fst_map_to_list. }
  pose proof (StronglySorted_merge_sort first_le (map_to_list m)) as Hs. fold (ascending_pieces m) in Hs.
  induction Hs as [|p l Hl IH Hp]; [constructor|]. rewrite fmap_cons in Hnd. apply NoDup_cons in Hnd as [Hn Hnd].
  constructor; [by apply IH|]. apply Forall_forall. intros q Hq. pose proof (proj1 (Forall_forall _ _) Hp q Hq) as Hle.
  unfold first_le in Hle. destruct (N.eq_dec p.1 q.1) as [E|]; [|lia]. exfalso. apply Hn. rewrite E. by apply list_elem_of_fmap_2.
Qed.

(** The split is exact: the portions tile the run in order, a referenced one names what
    its positions became, and an unminted one holds none that was minted. *)
Lemma portions_of_ok minted run :
  minted_ok minted → run_ok run →
  ∃ ps, portions_of minted run = Done ps ∧ Forall (portion_ok (reminted minted)) ps ∧ flat (portion_run <$> ps) = addrs run.
Proof.
  intros Hok Hr. unfold portions_of. rewrite chain_and_ordinal_ok. cbn [mbind outcome_bind].
  fold (r_chain run) (r_lo run). fold (r_hi run). pose proof (run_lo_hi run Hr) as Hlh.
  assert (Hcov : ∃ covered,
    match minted !! r_chain run with
    | Some pieces => walk_back (r_lo run) (r_hi run) (reverse (filter (λ e, (e.1 < r_hi run)%N) (ascending_pieces pieces))) []
    | None => Done []
    end = Done covered ∧ overlaps (reminted minted) run (r_lo run) (reverse covered)).
  { destruct (minted !! r_chain run) as [m|] eqn:Em.
    - apply (walk_back_ok minted run m Hok Hr Em _ (r_hi run)); 
        [|by split; [|intros a; rewrite window_none; intros ?%not_elem_of_nil]].
      assert (Hin : ∀ e, e ∈ reverse (filter (λ e, (e.1 < r_hi run)%N) (ascending_pieces m)) ↔ m !! e.1 = Some e.2 ∧ (e.1 < r_hi run)%N).
      { intros [f e]. rewrite elem_of_reverse, list_elem_of_filter. unfold ascending_pieces.
        rewrite merge_sort_Permutation, elem_of_map_to_list. cbn. tauto. }
      split; [|intros e [? ?]%Hin; auto|intros f w x o Hf Ho Hor; apply Hin; cbn; split; [done|lia]|lia].
      apply sorted_reverse, sorted_filter, ascending_pieces_sorted.
    - exists []. split; [done|]. split; [lia|]. rewrite window_all. intros a Ha. unfold reminted.
      apply elem_of_addrs_ord in Ha as [-> _]. by rewrite Em. }
  destruct Hcov as (covered & E & Hov). rewrite E. cbn [mbind outcome_bind].
  destruct (portions_loop_ok (reminted minted) run (r_lo run) (reverse covered) [] Hr ltac:(lia) Hov) as (ps & Ep & Hps & Hf).
  exists ps. by rewrite Ep, Hf, window_all.
Qed.
