(* ===== verification/PublishOp.v ===== *)
(** * PUBLISH, the shot

    Models [crates/skep-arrangement/src/ops/publish.rs], with its refusals
    ([error.rs]) and its cap ([ops.rs]): the shot's admission through its source gate,
    the query a door asks of it and the form that mints the edition; the re-insert of a
    draft's piece; the placement of the supplied runs and of the base's tail; and the
    member's mint and its placing record, one transaction. [readable] is the caller's
    predicate, a function of the world it is handed and the origin it is asked about,
    as its precondition requires. The lock keys are left out, as for the edits. *)

From stdpp Require Import gmap.
From S2P Require Import Prelude Txns Tumblers Addresses AddrMaps Arith Spans NsKeys NsState NsOps Runs Content RunLists RunUnions VSpace Provenance Chain ArrState ArrReads World Edits EditInv Shots Minted.

#[local] Open Scope txn_scope.

Definition MAX_REINSERTED_VALUES : N := 131072%N.

Module Publish.
Inductive PublishError :=
  | DocNotRegistered
  | NotOwner (a : Address)
  | SourceNotRegistered
  | BadRun
  | BaseNotInChain
  | BaseSuperseded
  | BaseExtentTooLarge
  | ClaimRefused (a : Address)
  | PrivateSourceVersionless
  | Withheld (a : Address)
  | DanglingSource
  | TooManyRuns
  | TooManyValues
  | Mint (e : MintError)
  | ContentRefused (e : ContentError).

Record SettledRun := MkSettledRun { st_run : Run; st_origin_doc : Address }.

Record Admission := MkAdmission { ad_anchor : Address; ad_supplied : list SettledRun }.

(** ** The admission *)

(** Each named draft: its registration, then its owner. *)
Fixpoint settle_drafts (m3 : M3State) (caller : Caller) (drafts : list Address) : result unit PublishError :=
  match drafts with
  | [] => Ok tt
  | draft_doc :: drafts =>
      if negb (is_registered_document m3 draft_doc) then Err SourceNotRegistered
      else if negb (is_owner caller m3 draft_doc) then Err (NotOwner draft_doc)
      else settle_drafts m3 caller drafts
  end.

Definition settle_run (m3 : M3State) (stated : ShotRun) : result SettledRun PublishError :=
  match run_origin_document (sr_run stated) with
  | None => Err BadRun
  | Some origin_doc =>
      if negb (bool_decide (origin_doc = trunk_of (sr_origin stated))) then Err BadRun
      else if negb (is_registered_document m3 origin_doc) then Err SourceNotRegistered
      else Ok (MkSettledRun (sr_run stated) origin_doc)
  end.

(** [.collect()] into a [Result]. *)
Fixpoint settle_each (m3 : M3State) (runs : list ShotRun) : result (list SettledRun) PublishError :=
  match runs with
  | [] => Ok []
  | stated :: runs =>
      match settle_run m3 stated with
      | Err e => Err e
      | Ok settled =>
          match settle_each m3 runs with Err e => Err e | Ok l => Ok (settled :: l) end
      end
  end.

Definition settle_runs (m3 : M3State) (caller : Caller) (shot : Shot) : result (list SettledRun) PublishError :=
  if match sh_base shot with Some base => negb (is_registered_document m3 (ba_member base)) | None => false end
  then Err SourceNotRegistered
  else
    match settle_drafts m3 caller (named_drafts shot) with
    | Err e => Err e
    | Ok _ => settle_each m3 (sh_runs shot)
    end.

Section Publish.
Context {debug : bool} {W R : Type} `{WS : WorldState W R} `{HS : !HasSlices debug W R}.
#[local] Notation Txn := (Txn (W := W) (R := R)).

(** The loop of the source gate, [admitted] the origins already let through. *)
Fixpoint source_gate_loop (world : W) (trunk : option Address) (base_union : option RunUnion)
    (supplied : list SettledRun) (admitted : gset Address) (readable : W → Address → bool) : result unit PublishError :=
  match supplied with
  | [] => Ok tt
  | MkSettledRun run origin_doc :: supplied =>
      if bool_decide (Some origin_doc = trunk) || bool_decide (origin_doc ∈ admitted)
      then source_gate_loop world trunk base_union supplied admitted readable
      else
        let carried := match base_union with Some u => covers u run | None => false end in
        if carried then source_gate_loop world trunk base_union supplied admitted readable
        else if negb (readable world origin_doc) then Err (Withheld origin_doc)
        else source_gate_loop world trunk base_union supplied ({[origin_doc]} ∪ admitted) readable
  end.

Definition source_gate (world : W) (trunk : option Address) (shot : Shot) (supplied : list SettledRun)
    (readable : W → Address → bool) : result unit PublishError :=
  source_gate_loop world trunk ((λ base, union_of (content_runs (m5 world) (ba_member base))) <$> sh_base shot)
    supplied ∅ readable.

(** The anchor, with the base's shape; [head] the trunk's, read before the mint. *)
Definition anchor_of (world : W) (doc trunk : Address) (head : option Address) (base : option Base) :
    outcome (result Address PublishError) :=
  match base with
  | None => Done match head with Some _ => Err BaseSuperseded | None => Ok trunk end
  | Some base =>
      if negb (bool_decide (ba_member base = trunk)) && negb (bool_decide (trunk_of (ba_member base) = trunk))
      then Done (Err BaseNotInChain)
      else if (content_count (m5 world) (ba_member base) <? ba_extent base)%N then Done (Err BaseExtentTooLarge)
      else if bool_decide (ba_member base = trunk)
      then birth ← birth_version (m3 world) doc; Done (Ok (default trunk birth))
      else if bool_decide (head = Some (ba_member base)) then Done (Ok trunk)
      else Done (Ok (ba_member base))
  end.

(** The source's [admit]. *)
Definition admit_shot (world : W) (caller : Caller) (doc : Address) (shot : Shot) (readable : W → Address → bool) :
    outcome (result Admission PublishError) :=
  let trunk := trunk_of doc in
  _ ←? Done (gate_write (m3 world) caller doc DocNotRegistered NotOwner);
  supplied ←? Done (settle_runs (m3 world) caller shot);
  _ ←? Done (if negb (published_target (m3 world) doc) then Err PrivateSourceVersionless else Ok tt);
  head ← trunk_head (m3 world) doc;
  anchor ←? anchor_of world doc trunk head (sh_base shot);
  _ ←? Done (source_gate world (Some trunk) shot supplied readable);
  Done (Ok (MkAdmission anchor supplied)).

Definition shot_admission (world : W) (caller : Caller) (doc : Address) (shot : Shot) (readable : W → Address → bool) :
    outcome (result unit PublishError) :=
  admission ← admit_shot world caller doc shot readable;
  Done (result_map (λ _, tt) admission).

Definition mint_admission (world : W) (caller : Caller) (account : Address) (shot : Shot)
    (readable : W → Address → bool) : result unit PublishError :=
  if negb (is_registered_account (m3 world) account) then Err DocNotRegistered
  else if negb (is_owner caller (m3 world) account) then Err (NotOwner account)
  else
    match sh_base shot with
    | Some _ => Err BaseNotInChain
    | None =>
        match settle_runs (m3 world) caller shot with
        | Err e => Err e
        | Ok supplied => source_gate world None shot supplied readable
        end
    end.

(** ** The re-insert *)

Inductive Part := PartRun (bytes : list Byte.byte) | PartAtom (v : list Byte.byte).

Definition flush_part (pending : list Byte.byte) (parts : list Part) : list Part :=
  if nonemptyb pending then parts ++ [PartRun pending] else parts.

Fixpoint parts_walk (pieces : list Piece) (pending : list Byte.byte) (parts : list Part) : list Byte.byte * list Part :=
  match pieces with
  | [] => (pending, parts)
  | PBytes bytes :: pieces => parts_walk pieces (pending ++ bytes) parts
  | PValue v :: pieces =>
      if length v =? 1 then parts_walk pieces (pending ++ v) parts
      else parts_walk pieces [] (flush_part pending parts ++ [PartAtom v])
  end.

Fixpoint stage_parts (trunk : Address) (parts : list Part) (fresh : list Run) : Txn PublishError (list Run) :=
  match parts with
  | [] => txn_ret fresh
  | PartRun bytes :: parts => (
      fresh ←ₜ allocate_stretch_for_placement Mint ContentRefused trunk bytes fresh;
      stage_parts trunk parts fresh)%txn
  | PartAtom value :: parts => (
      fresh ←ₜ allocate_for_placement Mint ContentRefused trunk value fresh;
      stage_parts trunk parts fresh)%txn
  end.

Definition reinsert (trunk : Address) (piece : Run) : Txn PublishError (list Run) := (
  w ←ₜ working_world;
  '(pieces, rest) ←ₜ from_outcome (drain (Content.pieces (content_store w) (tumbler (i_start piece)) (run_width piece)));
  let '(pending, parts) := parts_walk pieces [] [] in
  _ ←ₜ from_outcome (assert (pc_remaining rest =? 0)%N);
  stage_parts trunk (flush_part pending parts) [])%txn.

(** ** The placement *)

(** One run's portions, in order. *)
Fixpoint place_portions (trunk origin_doc : Address) (index : nat) (portions : list Portion) (placement : list Run)
    (minted : MintedIdentity) (pairing : Pairing) : Txn PublishError (list Run * MintedIdentity * Pairing) :=
  match portions with
  | [] => txn_ret (placement, minted, pairing)
  | Referenced from to :: portions =>
      place_portions trunk origin_doc index portions (extend_or_push_run placement to) minted
        (pairing ++ [MkMintedRun from to origin_doc index false])
  | Unminted piece :: portions => (
      fresh ←ₜ reinsert trunk piece;
      '(minted, pairing) ←ₜ from_outcome (note debug minted piece fresh origin_doc index pairing);
      place_portions trunk origin_doc index portions (foldl extend_or_push_run placement fresh) minted pairing)%txn
  end.

Fixpoint place_supplied (shot : Shot) (trunk : Address) (index : nat) (supplied : list SettledRun)
    (placement : list Run) (minted : MintedIdentity) (pairing : Pairing) : Txn PublishError (list Run * Pairing) :=
  match supplied with
  | [] => txn_ret (placement, pairing)
  | MkSettledRun run origin_doc :: supplied => (
      '(placement, minted, pairing) ←ₜ
        (if is_draft_native shot origin_doc then (
          portions ←ₜ from_outcome (portions_of minted run);
          place_portions trunk origin_doc index portions placement minted pairing)%txn
         else txn_ret (extend_or_push_run placement run, minted, pairing));
      _ ←ₜ refuse_if (MAX_PLACED_RUNS <? N.of_nat (length (placement : list Run)))%N TooManyRuns;
      place_supplied shot trunk (S index) supplied placement minted pairing)%txn
  end.

(** The base's tail, measured as each run is accumulated. *)
Fixpoint carry_tail (runs : list Run) (placement : list Run) : Txn PublishError (list Run) :=
  match runs with
  | [] => txn_ret placement
  | run :: runs => (
      let placement := extend_or_push_run placement run in
      _ ←ₜ refuse_if (MAX_PLACED_RUNS <? N.of_nat (length placement))%N TooManyRuns;
      carry_tail runs placement)%txn
  end.

(** Every run of the union, read once. *)
Fixpoint all_stored (w : W) (runs : list Run) : Txn PublishError unit :=
  match runs with
  | [] => txn_ret tt
  | run :: runs => (
      stored ←ₜ from_outcome (covered (Content.pieces (content_store w) (tumbler (i_start run)) (run_width run)));
      _ ←ₜ refuse_if (negb stored) DanglingSource;
      all_stored w runs)%txn
  end.

Definition stage_publish (caller : Caller) (doc : Address) (shot : Shot) (readable : W → Address → bool) :
    Txn PublishError (Address * Pairing) := (
  let trunk := trunk_of doc in
  reinserted ←ₜ from_outcome (reinserted_values shot);
  w ←ₜ working_world;
  admission ←ₜ from_outcome (admit_shot w caller doc shot readable);
  '(MkAdmission anchor supplied) ←ₜ from_result admission;
  _ ←ₜ refuse_if (MAX_REINSERTED_VALUES <? reinserted)%N TooManyValues;
  w ←ₜ working_world;
  union ←ₜ from_outcome (union_runs (union_of (st_run <$> supplied)));
  _ ←ₜ all_stored w union;
  let placed := foldr N.add 0%N (run_width <$> (st_run <$> supplied)) in
  '(placement, pairing) ←ₜ place_supplied shot trunk 0 supplied [] ∅ [];
  placement ←ₜ match sh_base shot with
       | Some base => (
           w ←ₜ working_world;
           runs ←ₜ from_outcome (content_runs_past (m5 w) (ba_member base) (ba_extent base));
           carry_tail runs placement)%txn
       | None => txn_ret placement
       end;
  w ←ₜ working_world;
  minted ←ₜ from_outcome (mint_version (m3 w) anchor true);
  '(member, m3rec) ←ₜ from_result (map_err Mint minted);
  _ ←ₜ stage (of_core (RecNamespace m3rec));
  _ ←ₜ stage (of_core (RecArrangement
         (ShotPlace member placement (MkShotTerms placed (ba_extent <$> sh_base shot)) (sh_draft shot))));
  txn_ret (member, pairing))%txn.

(** The body of [publish], the pairing dropped. *)
Definition publish_in (caller : Caller) (doc : Address) (shot : Shot) (readable : W → Address → bool) :
    Txn PublishError Address := (
  '(member, pairing) ←ₜ stage_publish caller doc shot readable;
  txn_ret member)%txn.
End Publish.
End Publish.

Definition publish {debug : bool} {W R Bytes : Type} `{WS : WorldState W R} `{HS : !HasSlices debug W R}
    (encode_record : R → Bytes) (k : Kernel (W := W) (Bytes := Bytes)) (answer : CommitAnswer) (caller : Caller)
    (doc : Address) (shot : Shot) (readable : W → Address → bool) :
    outcome (Kernel (W := W) (Bytes := Bytes) * CallEnd Address Publish.PublishError) :=
  transact encode_record k answer (Publish.publish_in caller doc shot readable).
