(* ===== verification/EditSteps.v ===== *)
(** * What an edit's transaction does

    The machinery the editing operations' theorems share: the gates every edit runs
    first, in their pinned order; a staging as records folded on the base slices; and
    a whole call, from what its body promises of the working slices to what the
    kernel's root holds after it. *)

From stdpp Require Import gmap.
From S2P Require Import Prelude Txns Views Tumblers Addresses AddrMaps Arith Spans NsKeys NsState NsLaws NsOps NsInv NsCalls NsReach Runs Content RunLists VSpace Provenance Chain ArrState ArrReads World Edits EditInv.

#[local] Arguments apply_m3 : simpl never.
#[local] Arguments apply_m5 : simpl never.
#[local] Arguments published_target : simpl never.
#[local] Open Scope txn_scope.

(** ** The gates every edit runs first *)

Definition owns (s : M3State) (c : Caller) (doc : Address) : Prop :=
  match c with
  | Caller_System => True
  | Caller_Principal p => effective_owner s doc = Some p
  end.

Lemma is_owner_ok s c doc : is_owner c s doc = true ↔ owns s c doc.
Proof. destruct c; [|done]. cbn. unfold is_effective_owner. by rewrite bool_decide_eq_true. Qed.

(** An edit typed against [t] is stale when the arrangement moved past it. *)
Definition moved_gates {E} (am : Seq → Seq → E) (a : M5State) (doc : Address) (as_of : AsOf) : list (E * Prop) :=
  match as_of, arranged_at_of a doc with
  | Typed t, Some c => [(am t c, (t < c)%N)]
  | _, _ => []
  end.

Definition edit_gates {E} (nr : E) (no : Address → E) (pt : E) (am : Seq → Seq → E)
    (s : Slices) (caller : Caller) (doc : Address) (as_of : AsOf) : list (E * Prop) :=
  (nr, is_registered_document (sl_namespace s) doc = false) ::
  (no doc, ¬ owns (sl_namespace s) caller doc) ::
  (pt, published_target (sl_namespace s) doc = true) ::
  moved_gates am (sl_arrangement s) doc as_of.

Lemma first_refusal_app {E} (g1 g2 : list (E * Prop)) e :
  first_refusal (g1 ++ g2) e → first_refusal g1 e ∨ (Forall (λ g, ¬ g.2) g1 ∧ first_refusal g2 e).
Proof.
  induction g1 as [|[x P] g1 IH]; [by right|]. cbn. rewrite !first_refusal_cons, Forall_cons. cbn.
  intros [?|[HP [H|[H1 H2]]%IH]]; [by left; left|by left; right|by right].
Qed.

Lemma edit_gates_refusal {E} (nr : E) no pt am s caller doc as_of e :
  first_refusal (edit_gates nr no pt am s caller doc as_of) e →
  (e = nr ∧ is_registered_document (sl_namespace s) doc = false) ∨ e = no doc ∨ e = pt ∨
  ∃ t c, e = am t c.
Proof.
  unfold edit_gates, moved_gates. rewrite !first_refusal_cons.
  intros [[<- ?]|(_ & [[<- _]|(_ & [[<- _]|(_ & H)])])]; [by left|by right; left|by right; right; left|].
  right. right. right. destruct as_of as [t|]; [|by apply first_refusal_nil in H].
  destruct (arranged_at_of _ _) as [c|]; [|by apply first_refusal_nil in H].
  rewrite first_refusal_cons, first_refusal_nil in H. destruct H as [[<- _]|[_ []]]. by exists t, c.
Qed.

Lemma same_slices_sym u s : same_slices u s → same_slices s u.
Proof. intros []. by split. Qed.

Lemma same_ns u s : same_slices u s →
  (∀ key, effective_frontier (sl_namespace s) key = effective_frontier (sl_namespace u) key) ∧
  (∀ a, is_allocated (sl_namespace s) a = is_allocated (sl_namespace u) a) ∧
  (∀ d, is_registered_document (sl_namespace s) d = is_registered_document (sl_namespace u) d).
Proof.
  intros H. assert (Ef : frontiers (sl_namespace s) = frontiers (sl_namespace u)) by apply H.
  assert (En : nodes (sl_namespace s) = nodes (sl_namespace u)) by apply H.
  destruct (sl_namespace s), (sl_namespace u); cbn in *. by subst.
Qed.

Lemma same_docs u s : same_slices u s →
  (∀ d, content_list (sl_arrangement s) d = content_list (sl_arrangement u) d) ∧
  (∀ d, link_list (sl_arrangement s) d = link_list (sl_arrangement u) d).
Proof. intros H. unfold content_list, link_list, arrangement_of. by rewrite (same_arrangements _ _ H). Qed.

(** The invariant reads no position. *)
Lemma core_ok_same u s : core_ok u → same_slices u s → core_ok s.
Proof.
  intros [Hm Ha Hst Hk Hmin Harr Hbase] Hs. destruct (same_ns u s Hs) as (Hf & Hal & Hd).
  destruct (same_docs u s Hs) as [Hc _]. destruct Hs as [E1 E2 E3 E4 E5 E6 E7 E8 E9 E10 E11 E12].
  split; rewrite ?E6; try done.
  - destruct Hm as [I1 I2 I3 I4 I5 I6 I7 I8]. split.
    + intros key m. rewrite E1. intros Hkey. apply (family_grown (sl_namespace u)); [|by eapply I1].
      intros b. by rewrite Hal.
    + intros d. rewrite E4, Hd. apply I2.
    + intros a. rewrite E5, Hd, Hal. apply I3.
    + intros p. rewrite E3, Hal. apply I4.
    + intros p id. rewrite E3. apply I5.
    + intros p q id. rewrite E3. apply I6.
    + rewrite E2, E3. exact I7.
    + intros n. rewrite E2. apply I8.
  - by eapply state_ok_same.
  - intros a. rewrite Hal. apply Hmin.
  - intros doc a. cbn. rewrite Hc, Hd. apply Harr.
  - intros d b Hb. unfold published_target, published. rewrite E4.
    apply (f_equal (lookup d)) in E12. rewrite !lookup_fmap, Hb in E12. symmetry in E12.
    apply fmap_Some in E12 as (b' & Hb' & ->). by apply (Hbase d b').
Qed.

Section Steps.
Context {debug : bool} {W R : Type} `{WS : WorldState W R} `{HS : !HasSlices debug W R}.
#[local] Notation Staging := (Staging (W := W) (R := R)).
#[local] Notation Txn := (Txn (W := W) (R := R)).
#[local] Notation apply_slices := (apply_slices debug).

(** ** Bodies, gate by gate *)

Lemma spec_seq {E A B} (m : Txn E A) (f : A → Txn E B) stg g1 g2 Q :
  txn_spec m stg g1 (λ a stg', txn_spec (f a) stg' g2 Q) →
  txn_spec (txn_bind m f) stg (g1 ++ g2) Q.
Proof using.
  unfold txn_spec, txn_bind. destruct (m stg) as [[[a|e] stg']|]; cbn; [|intros H|done].
  - intros [H1 H2]. destruct (f a stg') as [[[b|e] stg'']|]; [| |done].
    + destruct H2 as [H2 HQ]. split; [by apply Forall_app|done].
    + destruct H2 as (l & P & k & -> & HP & Hl). exists (g1 ++ l), P, k.
      split_and!; [by rewrite app_assoc|done|by apply Forall_app].
  - destruct H as (l & P & k & -> & HP & Hl). exists l, P, (k ++ g2). split_and!; [by rewrite <- app_assoc|done|done].
Qed.

Lemma spec_conseq {E A} (m : Txn E A) stg gates Q Q' :
  txn_spec m stg gates Q → (∀ a stg', Q a stg' → Q' a stg') → txn_spec m stg gates Q'.
Proof using.
  unfold txn_spec. destruct (m stg) as [[[a|e] stg']|]; [|done..]. intros [? ?] HQ. split; [done|by apply HQ].
Qed.

Lemma spec_gate_write {E B} (nr : E) no caller doc (f : unit → Txn E B) stg gates Q :
  let s := sl_namespace (view stg) in
  (is_registered_document s doc = true → owns s caller doc → txn_spec (f tt) stg gates Q) →
  txn_spec (txn_bind (from_result (gate_write (m3 (working stg)) caller doc nr no)) f) stg
    ((nr, is_registered_document s doc = false) :: (no doc, ¬ owns s caller doc) :: gates) Q.
Proof using.
  intros s Hf. unfold gate_write. change (m3 (working stg)) with s.
  destruct (is_registered_document s doc) eqn:Hd; cbn [negb].
  2: { by apply first_refusal_here. }
  destruct (is_owner caller s doc) eqn:Ho; cbn [negb].
  - specialize (Hf eq_refl (proj1 (is_owner_ok _ _ _) Ho)). unfold txn_spec, txn_bind, from_result in *. cbn.
    destruct (f tt stg) as [[[a|e] stg']|]; [| |done].
    + destruct Hf as [Hg HQ]. split; [|done]. constructor; [done|]. constructor; [|done]. cbn.
      intros Hn. apply Hn. by apply is_owner_ok.
    + apply first_refusal_next; [done|]. apply first_refusal_next; [|done]. cbn. intros Hn. apply Hn.
      by apply is_owner_ok.
  - apply first_refusal_next; [done|]. apply first_refusal_here. intros Hn. apply is_owner_ok in Hn. congruence.
Qed.

Lemma spec_moved {E B} (am : Seq → Seq → E) doc as_of (f : unit → Txn E B) stg gates Q :
  let a := sl_arrangement (view stg) in
  (Forall (λ g, ¬ g.2) (moved_gates am a doc as_of) → txn_spec (f tt) stg gates Q) →
  txn_spec (txn_bind (match arrangement_moved (m5 (working stg)) doc as_of with
    | Some (x, y) => refused (am x y) | None => txn_ret tt end) f) stg
    (moved_gates am a doc as_of ++ gates) Q.
Proof using.
  intros a Hf. unfold arrangement_moved, moved_gates in *. change (m5 (working stg)) with a.
  destruct as_of as [t|]; [|by apply Hf]. destruct (arranged_at_of a doc) as [c|]; [|by apply Hf].
  destruct (N.ltb_spec t c) as [Hlt|Hge].
  - by apply first_refusal_here.
  - assert (Hn : ¬ (t < c)%N) by lia. specialize (Hf ltac:(by constructor)).
    unfold txn_spec, txn_bind, txn_ret in *. cbn in *. destruct (f tt stg) as [[[b|e] stg']|]; [| |done].
    + destruct Hf as [Hg HQ]. split; [by constructor|done].
    + by apply first_refusal_next.
Qed.

(** The four gates an edit of a draft opens with. *)
Lemma spec_edit {E B} (nr : E) no pt am caller doc as_of (f : Txn E B) stg gates Q :
  let s := view stg in
  (is_registered_document (sl_namespace s) doc = true → owns (sl_namespace s) caller doc →
   published_target (sl_namespace s) doc = false → txn_spec f stg gates Q) →
  txn_spec (
    _ ←ₜ from_result (gate_write (m3 (working stg)) caller doc nr no);
    _ ←ₜ refuse_if (published_target (m3 (working stg)) doc) pt;
    _ ←ₜ match arrangement_moved (m5 (working stg)) doc as_of with
         | Some (x, y) => refused (am x y) | None => txn_ret tt end;
    f) stg (edit_gates nr no pt am s caller doc as_of ++ gates) Q.
Proof using.
  intros s Hf. apply spec_gate_write. intros Hd Ho. apply spec_refuse; [done|]. intros Hp.
  apply spec_moved. intros _. by apply Hf.
Qed.

(** ** A staging, as records folded on the base *)

Definition on_base (s : Slices) (rs : list CoreRec) (stg : Staging) : Prop :=
  on_view slices of_core apply_slices s rs stg.

Lemma on_base_new root first : on_base (slices (c_world root)) [] (Staging_new root first).
Proof using. apply on_view_new. Qed.

Lemma on_base_push s rs stg r (P : Slices → Prop) :
  on_base s rs stg → (∀ at_, ∃ s', apply_slices (view stg) at_ r = Done s' ∧ P s') →
  ∃ stg', push stg (of_core r) = Done stg' ∧ on_base s (rs ++ [r]) stg' ∧ P (view stg').
Proof using.
  intros Hb Hd. destruct (on_view_push slices of_core apply_slices slices_fold s rs stg r P Hb Hd) as (stg' & ? & ? & ? & _).
  by exists stg'.
Qed.

(** The last record of a body. *)
Lemma spec_stage_end {E} s rs stg r (P : Slices → Prop) :
  on_base s rs stg → (∀ at_, ∃ s', apply_slices (view stg) at_ r = Done s' ∧ P s') →
  txn_spec (stage (of_core r) : Txn E unit) stg [] (λ _ stg', on_base s (rs ++ [r]) stg' ∧ P (view stg')).
Proof using.
  intros Hb Hd. destruct (on_base_push s rs stg r P Hb Hd) as (stg' & Hp & ? & ?).
  unfold txn_spec, stage. rewrite Hp. cbn. by split_and!.
Qed.

Lemma spec_stage_mid {E B} s rs stg r (P : Slices → Prop) (f : unit → Txn E B) gates Q :
  on_base s rs stg → (∀ at_, ∃ s', apply_slices (view stg) at_ r = Done s' ∧ P s') →
  (∀ stg', on_base s (rs ++ [r]) stg' → P (view stg') → txn_spec (f tt) stg' gates Q) →
  txn_spec (txn_bind (stage (of_core r)) f) stg gates Q.
Proof using.
  intros Hb Hd Hf. destruct (on_base_push s rs stg r P Hb Hd) as (stg' & Hp & ? & ?).
  eapply spec_stage; [exact Hp|]. by apply Hf.
Qed.

(** An arrangement record that places only stored positions in registered documents. *)
Lemma arrangement_push w at_ r :
  core_ok w → rec_ok r → bases_ok (sl_namespace w) r →
  (∀ d a, a ∈ placed_by (docs_of (sl_arrangement w)) r d →
     is_registered_document (sl_namespace w) d = true ∧ content_position a ∧
     ∃ v, stores (sl_content w) (tumbler a) v) →
  ∃ s', apply_slices w at_ (RecArrangement r) = Done s' ∧ core_ok s' ∧
    sl_namespace s' = sl_namespace w ∧ sl_content s' = sl_content w ∧
    docs_eq (docs_of (sl_arrangement s')) (spec_step (docs_of (sl_arrangement w)) r).
Proof using.
  intros Hok Hr Hb Hp. destruct (arrangement_step w at_ r Hok Hr Hb Hp) as (arr & Ha & Hok' & Hd).
  cbn [World.apply_slices]. rewrite Ha. eexists. by split_and!.
Qed.

(** ** A whole call *)

Context {Bytes : Type} (encode_record : R → Bytes).
#[local] Notation Kernel := (Kernel (W := W) (Bytes := Bytes)).

Definition root_slices (k : Kernel) : Slices := slices (c_world (k_root k)).

(** A body as a call: total, its root the old one or its records folded on it, its
    gates the refusals it makes. *)
Lemma core_ends {T E} (k : Kernel) answer (f : Txn E T) gates (Q : T → list CoreRec → Slices → Prop) :
  let folded v at_ k' := Forall (λ g, ¬ g.2) gates ∧ ∃ rs u, core_ok u ∧ Q v rs u ∧ same_slices u (root_slices k') ∧
    fold_slices (debug := debug) (root_slices k) at_ rs = Done (root_slices k') in
  closure f →
  (∀ first, txn_spec f (Staging_new (k_root k) first) gates
     (λ v stg', ∃ rs, on_base (root_slices k) rs stg' ∧ core_ok (view stg') ∧ Q v rs (view stg'))) →
  ∃ k' e, transact encode_record k answer f = Done (k', e) ∧
    (k_root k' = k_root k ∨ ∃ v at_, folded v at_ k') ∧
    match e with
    | Returned (Ok (v, at_)) => folded v at_ k'
    | Returned (Err (Rejected er)) => k' = k ∧ first_refusal gates er
    | _ => True
    end.
Proof using.
  intros folded Hf Hb.
  destruct (view_ends slices of_core apply_slices slices_fold same_slices same_slices_refl (apply_slices_same debug)
    encode_record k answer f (first_refusal gates) (λ v rs u, Forall (λ g, ¬ g.2) gates ∧ core_ok u ∧ Q v rs u) Hf)
    as (k' & e & Ht & Hr & He).
  { intros first. specialize (Hb first). unfold txn_spec, body_ends in *. destruct (f _) as [[[v|er] stg]|]; [|done..].
    destruct Hb as (Hg & rs & ? & ? & ?). by exists rs. }
  exists k', e. split; [done|]. split.
  - destruct Hr as [?|(v & at_ & rs & u & (? & ? & ?) & ? & ?)]; [by left|right]. exists v, at_. split; [done|]. by exists rs, u.
  - destruct e as [[[v at_]|[er| | | |]]|]; try done. destruct He as (rs & u & (? & ? & ?) & ? & ?). split; [done|]. by exists rs, u.
Qed.

(** The same, [core_ok] kept whatever the disk answers. *)
Lemma core_call {T E} (k : Kernel) answer (f : Txn E T) gates (Q : T → list CoreRec → Slices → Prop) :
  closure f → core_ok (root_slices k) →
  (∀ stg, on_base (root_slices k) [] stg → view stg = root_slices k →
     txn_spec f stg gates (λ v stg', ∃ rs, on_base (root_slices k) rs stg' ∧ core_ok (view stg') ∧ Q v rs (view stg'))) →
  ∃ k' e, transact encode_record k answer f = Done (k', e) ∧ core_ok (root_slices k') ∧
    match e with
    | Returned (Ok (v, at_)) =>
        Forall (λ g, ¬ g.2) gates ∧ ∃ rs u, Q v rs u ∧ same_slices u (root_slices k') ∧
          fold_slices (debug := debug) (root_slices k) at_ rs = Done (root_slices k')
    | Returned (Err (Rejected er)) => k' = k ∧ first_refusal gates er
    | _ => True
    end.
Proof using.
  intros Hf Hok Hspec. destruct (core_ends k answer f gates Q Hf) as (k' & e & Ht & Hr & He).
  { intros first. apply Hspec; [apply on_base_new|done]. }
  exists k', e. split; [done|]. split.
  - destruct Hr as [Hr|(v & at_ & _ & rs & u & Hu & _ & Hsame & _)]; [unfold root_slices; by rewrite Hr|].
    by eapply core_ok_same.
  - destruct e as [[[v at_]|[er| | | |]]|]; try done. destruct He as (Hg & rs & u & _ & ? & ? & ?). eauto 6.
Qed.
End Steps.

(** Closures, by the shape of their bodies. *)
Ltac closes :=
  repeat match goal with
  | |- closure (txn_bind _ _) => apply closure_bind; [|intros ?]
  | |- closure (txn_ret _) => apply closure_ret
  | |- closure (refused _) => apply closure_refused
  | |- closure working_world => apply closure_working
  | |- closure (from_result _) => apply closure_from_result
  | |- closure (from_outcome _) => apply closure_from_outcome
  | |- closure (stage _) => apply closure_stage
  | |- closure (refuse_if _ _) => apply closure_refuse_if
  | |- closure (match ?x with _ => _ end) => destruct x
  | |- closure (let _ := _ in _) => cbv zeta
  end.
