(* ===== verification/EditCalls.v ===== *)
(** * The edits of a draft's arrangement

    DELETE, REARRANGE, COPY and REINSTATE as calls of the kernel, over any world that
    carries the slices: each is total, refuses by its pinned order and, acknowledged,
    did to one document's content exactly what its abstract step says, at the
    coordinate it answers. *)

From stdpp Require Import gmap.
From S2P Require Import Prelude Txns Tumblers Addresses AddrMaps Arith Spans NsKeys NsState NsLaws NsOps NsInv NsCalls NsReach Runs Content RunLists VSpace Provenance Chain ArrState ArrReads World Edits EditInv EditSteps.

#[local] Arguments apply_m3 : simpl never.
#[local] Arguments apply_m5 : simpl never.
#[local] Arguments published_target : simpl never.
#[local] Arguments content_list : simpl never.

(** ** One edit record, as a change of the slices *)

(** One document's content replaced, at a coordinate, and nothing else of the
    arrangement's lists and positions. *)
Record edited (a a' : M5State) (at_ : Seq) (doc : Address) (l : list Address) : Prop := {
  ed_here : vmap (content_list a' doc) = l;
  ed_elsewhere : ∀ d, d ≠ doc → vmap (content_list a' d) = vmap (content_list a d);
  ed_links : ∀ d, vmap (link_list a' d) = vmap (link_list a d);
  ed_moved : arranged_at_of a' doc = Some at_;
  ed_unmoved : ∀ d, d ≠ doc → arranged_at_of a' d = arranged_at_of a d
}.

(** And no address or value moved either. *)
Definition arranged (s s' : Slices) (at_ : Seq) (doc : Address) (l : list Address) : Prop :=
  sl_namespace s' = sl_namespace s ∧ sl_content s' = sl_content s ∧
  edited (sl_arrangement s) (sl_arrangement s') at_ doc l.

Definition edits (r : M5Rec) (doc : Address) : Prop :=
  match r with
  | ContentPlace d _ _ | ContentRemove d _ _ | ContentReorder d _ => d = doc
  | _ => False
  end.

Lemma fold_one_arrangement debug s at_ r s' :
  fold_slices (debug := debug) s at_ [RecArrangement r] = Done s' →
  ∃ arr, apply_m5 (sl_arrangement s) at_ r = Done arr ∧ s' = MkSlices (sl_namespace s) (sl_content s) arr.
Proof.
  unfold fold_slices, fold_world. cbn [foldl mbind outcome_bind].
  change (apply s at_ ?x) with (apply_slices debug s at_ x). cbn [apply_slices].
  intros (arr & Ha & [= <-])%bind_inv. by exists arr.
Qed.

Lemma apply_edit a a' at_ r doc :
  state_ok a → rec_ok r → edits r doc → apply_m5 a at_ r = Done a' →
  edited a a' at_ doc (d_content (spec_step (docs_of a) r) doc).
Proof.
  intros Hok Hr He Ha. destruct (apply_m5_ok a at_ r Hok Hr) as (a2 & Ha' & [_ [Hc Hl] _]).
  rewrite Ha in Ha'. injection Ha' as <-.
  pose proof (meta_moved _ _ _ _ (apply_meta _ _ _ _ Hok Hr Ha)) as Hm.
  assert (Ht : ∀ d, touches r d = bool_decide (doc = d)).
  { intros d. destruct r; try done; cbn in He; subst; done. }
  split; cbn [docs_of d_content d_link] in Hc, Hl; try done.
  - intros d Hd. rewrite Hc. destruct r; try done; cbn in He; subst; cbn; unfold upd; by rewrite decide_False.
  - intros d. rewrite Hl. by destruct r.
  - unfold arranged_at_of. rewrite Hm, Ht. by rewrite bool_decide_eq_true_2.
  - intros d Hd. unfold arranged_at_of. rewrite Hm, Ht. by rewrite bool_decide_eq_false_2.
Qed.

Lemma fold_edit debug s at_ r doc s' :
  core_ok s → rec_ok r → edits r doc →
  fold_slices (debug := debug) s at_ [RecArrangement r] = Done s' →
  arranged s s' at_ doc (d_content (spec_step (docs_of (sl_arrangement s)) r) doc).
Proof.
  intros Hok Hr He (arr & Ha & ->)%fold_one_arrangement. split_and!; [done|done|].
  apply apply_edit; [apply Hok|done|done|done].
Qed.

(** Three ascending cuts exchange the two regions they bound, four the outer two
    around the middle. *)
Definition exchanged (cuts : list Nat) (l l' : list Address) : Prop :=
  let upto c := take (N.to_nat (c - 1)) l in
  let region c d := drop (N.to_nat (c - 1)) (upto d) in
  let past c := drop (N.to_nat (c - 1)) l in
  match cuts with
  | [c0; c1; c2] => l' = upto c0 ++ region c1 c2 ++ region c0 c1 ++ past c2
  | [c0; c1; c2; c3] => l' = upto c0 ++ region c2 c3 ++ region c1 c2 ++ region c0 c1 ++ past c3
  | _ => False
  end.

Lemma tile_exchanged cuts l :
  Sorted N.lt cuts → length cuts = 3 ∨ length cuts = 4 → exchanged cuts l (tile cuts l).
Proof.
  intros Hs%Sorted_StronglySorted Hlen; [|intros ? ? ?; lia].
  assert (Htt : ∀ c d, (c ≤ d)%N → take (N.to_nat (c - 1)) (take (N.to_nat (d - 1)) l) = take (N.to_nat (c - 1)) l)
    by (intros; rewrite take_take; f_equal; lia).
  unfold tile. destruct cuts as [|c0 [|c1 [|c2 [|c3 [|]]]]]; cbn in Hlen; try lia; cbn;
    repeat match goal with H : StronglySorted _ (_ :: _) |- _ => apply StronglySorted_inv in H as [? ?] end;
    rewrite ?Forall_cons in *; destruct_and?; rewrite !Htt by lia; by rewrite app_nil_r, <- !app_assoc.
Qed.

Lemma ascending_cuts_ok cuts : Rearrange.ascending_cuts cuts = true ↔ Sorted N.lt (vp_ordinal <$> cuts).
Proof.
  induction cuts as [|c [|d cuts] IH]; [by split; [constructor|]|by split; [repeat constructor|]|].
  change (((vp_ordinal c <? vp_ordinal d)%N && Rearrange.ascending_cuts (d :: cuts) = true)
    ↔ Sorted N.lt (vp_ordinal c :: (vp_ordinal <$> d :: cuts))).
  rewrite andb_true_iff, IH, N.ltb_lt. split.
  - intros [? ?]. constructor; [done|by constructor].
  - intros [H1 H2]%Sorted_inv. split; [by inversion H2|done].
Qed.

(** What a call answers, refusals by their pinned order. *)
Definition answers {W Bytes T E} (k k' : Kernel (W := W) (Bytes := Bytes)) (e : CallEnd T E)
    (gates : list (E * Prop)) (Q : T → Seq → Prop) : Prop :=
  match e with
  | Returned (Ok (v, at_)) => Forall (λ g, ¬ g.2) gates ∧ Q v at_
  | Returned (Err (Rejected er)) => k' = k ∧ first_refusal gates er
  | _ => True
  end.

Section Edit.
Context {debug : bool} {W R Bytes : Type} `{WS : WorldState W R} `{HS : !HasSlices debug W R}.
Context (encode_record : R → Bytes).
#[local] Notation Kernel := (Kernel (W := W) (Bytes := Bytes)).
#[local] Notation Staging := (Staging (W := W) (R := R)).
#[local] Notation Txn := (Txn (W := W) (R := R)).

(** A body that stages one edit record, which leaves the document holding [l]. *)
Lemma edit_call_any {E} (k : Kernel) answer (f : Txn E unit) gates doc l (P : M5Rec → Prop) :
  let s := root_slices k in
  closure f → core_ok s →
  (∀ r, P r → rec_ok r ∧ edits r doc ∧ d_content (spec_step (docs_of (sl_arrangement s)) r) doc = l) →
  (∀ stg, on_base s [] stg → view stg = s →
     txn_spec f stg gates (λ _ stg', ∃ r, P r ∧ on_base s [RecArrangement r] stg' ∧ core_ok (view stg'))) →
  ∃ k' e, transact encode_record k answer f = Done (k', e) ∧ core_ok (root_slices k') ∧
    answers k k' e gates (λ _ at_, arranged s (root_slices k') at_ doc l).
Proof using.
  intros s Hf Hok HP Hspec.
  destruct (core_call encode_record k answer f gates (λ _ rs _, ∃ r, P r ∧ rs = [RecArrangement r]) Hf Hok)
    as (k' & e & Ht & Hok' & H).
  { intros stg Hb Hv. eapply spec_conseq; [by apply Hspec|]. cbv beta. intros [] stg' (r & Hr & ? & ?).
    eexists. split; [done|]. split; [done|]. by exists r. }
  exists k', e. split; [done|]. split; [done|]. destruct e as [[[v at_]|[er| | | |]]|]; try done.
  destruct H as (Hg & rs & u & (r & Hr & ->) & _ & Hfold). split; [done|].
  destruct (HP r Hr) as (? & ? & <-). by eapply fold_edit.
Qed.

Lemma edit_call {E} (k : Kernel) answer (f : Txn E unit) gates doc r l :
  let s := root_slices k in
  closure f → core_ok s → rec_ok r → edits r doc → d_content (spec_step (docs_of (sl_arrangement s)) r) doc = l →
  (∀ stg, on_base s [] stg → view stg = s →
     txn_spec f stg gates (λ _ stg', on_base s [RecArrangement r] stg' ∧ core_ok (view stg'))) →
  ∃ k' e, transact encode_record k answer f = Done (k', e) ∧ core_ok (root_slices k') ∧
    answers k k' e gates (λ _ at_, arranged s (root_slices k') at_ doc l).
Proof using.
  intros s Hf Hok Hr He Hl Hspec. apply (edit_call_any k answer f gates doc l (eq r) Hf Hok); [by intros ? <-|].
  intros stg Hb Hv. eapply spec_conseq; [by apply Hspec|]. cbv beta. intros [] stg' ?. by exists r.
Qed.

(** The last step of such a body, after whatever was staged before it. *)
Lemma spec_edit_end {E} s0 rs s (stg : Staging) r :
  on_base s0 rs stg → view stg = s → core_ok s → rec_ok r → bases_ok (sl_namespace s) r →
  (∀ d a, a ∈ placed_by (docs_of (sl_arrangement s)) r d →
     is_registered_document (sl_namespace s) d = true ∧ content_position a ∧
     ∃ v, stores (sl_content s) (tumbler a) v) →
  txn_spec (stage (of_core (RecArrangement r)) : Txn E unit) stg []
    (λ _ stg', on_base s0 (rs ++ [RecArrangement r]) stg' ∧ core_ok (view stg') ∧
       sl_namespace (view stg') = sl_namespace s ∧ sl_content (view stg') = sl_content s ∧
       docs_eq (docs_of (sl_arrangement (view stg'))) (spec_step (docs_of (sl_arrangement s)) r)).
Proof using.
  intros Hb Hv Hok Hr Hbs Hp. apply (spec_stage_end s0 rs stg (RecArrangement r) (λ w, core_ok w ∧
    sl_namespace w = sl_namespace s ∧ sl_content w = sl_content s ∧
    docs_eq (docs_of (sl_arrangement w)) (spec_step (docs_of (sl_arrangement s)) r)) Hb).
  rewrite Hv. intros at_. by apply arrangement_push.
Qed.

(** After the record, and what the slices are then. *)
Definition then_staged (s0 : Slices) (rs : list CoreRec) (s : Slices) (r : M5Rec) (stg' : Staging) : Prop :=
  on_base s0 (rs ++ [RecArrangement r]) stg' ∧ core_ok (view stg') ∧
  sl_namespace (view stg') = sl_namespace s ∧ sl_content (view stg') = sl_content s ∧
  docs_eq (docs_of (sl_arrangement (view stg'))) (spec_step (docs_of (sl_arrangement s)) r).

(** *** DELETE *)

Lemma delete_closure caller doc p width as_of : closure (Delete.stage_delete_at caller doc p width as_of : Txn _ _).
Proof using. unfold Delete.stage_delete_at. closes. Qed.

Definition delete_gates (s : Slices) (caller : Caller) (doc : Address) (p : VPos) (width : Nat) (as_of : AsOf) :
    list (Delete.DeleteError * Prop) :=
  edit_gates Delete.DocNotRegistered Delete.NotOwner Delete.PublishedTarget Delete.ArrangementMoved s caller doc as_of ++
  [ (Delete.NotContentSubspace, vp_subspace p ≠ content_subspace);
    (Delete.NotArranged, ¬ (1 ≤ vp_ordinal p ≤ count (contents s doc))%N);
    (Delete.OutOfBounds, (count (contents s doc) + 1 < vp_ordinal p + width)%N);
    (Delete.EmptyWidth, width = 0%N) ].

Lemma delete_spec s0 rs s caller doc p width as_of (stg : Staging) :
  on_base s0 rs stg → view stg = s → core_ok s →
  txn_spec (Delete.stage_delete_at caller doc p width as_of) stg (delete_gates s caller doc p width as_of)
    (λ _ stg', then_staged s0 rs s (ContentRemove doc (vp_ordinal p) width) stg').
Proof using.
  intros Hb Hv Hok. unfold Delete.stage_delete_at, delete_gates. apply spec_working.
  rewrite <- Hv at 1. apply spec_edit. rewrite Hv. intros _ _ _.
  change (m5 (working stg)) with (sl_arrangement (view stg)). rewrite Hv.
  pose proof (content_count_ok (sl_arrangement s) doc) as Hn.
  apply spec_refuse; [unfold VPos_is_content; rewrite negb_true_iff; apply N.eqb_neq|]. intros _.
  destruct (arranges_position_ok (sl_arrangement s) doc (vp_ordinal p) (co_m5 _ Hok)) as (b & E & Hb').
  eapply spec_outcome; [exact E|]. rewrite Hn in Hb'.
  apply spec_refuse; [destruct b; cbn; naive_solver|]. intros _.
  apply spec_refuse; [unfold contains_content_range; rewrite Hn, negb_true_iff; apply N.leb_gt|]. intros _.
  apply spec_refuse; [apply N.eqb_eq|]. intros _.
  apply spec_edit_end; [done|done|done|done|done|]. by intros d a H%not_elem_of_nil.
Qed.

(** *** REARRANGE *)

Lemma rearrange_closure caller doc cuts as_of : closure (Rearrange.rearrange_in caller doc cuts as_of : Txn _ _).
Proof using. unfold Rearrange.rearrange_in. closes. Qed.

Definition rearrange_gates (s : Slices) (caller : Caller) (doc : Address) (cuts : list VPos) (as_of : AsOf) :
    list (Rearrange.RearrangeError * Prop) :=
  edit_gates Rearrange.DocNotRegistered Rearrange.NotOwner Rearrange.PublishedTarget Rearrange.ArrangementMoved
    s caller doc as_of ++
  [ (Rearrange.BadCutCount, length cuts ≠ 3 ∧ length cuts ≠ 4);
    (Rearrange.NotAscending, ¬ Sorted N.lt (vp_ordinal <$> cuts));
    (Rearrange.NotContentSubspace, ∃ c, c ∈ cuts ∧ vp_subspace c ≠ content_subspace);
    (Rearrange.OutOfBounds, ∃ c, (head cuts = Some c ∨ last cuts = Some c) ∧
       ¬ (1 ≤ vp_ordinal c ≤ count (contents s doc) + 1)%N);
    (Rearrange.EmptyContentSubspace, contents s doc = []) ].

Lemma boundary_ok a doc ord :
  admits_content_boundary a doc ord = true ↔ (1 ≤ ord ≤ count (vmap (content_list a doc)) + 1)%N.
Proof using.
  unfold admits_content_boundary. by rewrite content_count_ok, andb_true_iff, !N.leb_le.
Qed.

Lemma content_is_empty_ok a doc : state_ok a → content_is_empty a doc = true ↔ vmap (content_list a doc) = [].
Proof using.
  intros Ha. unfold content_is_empty. by rewrite (nonemptyb_runs_flat _ (content_ok a doc Ha)), bool_decide_eq_true.
Qed.

Lemma rearrange_spec s caller doc cuts as_of (stg : Staging) :
  on_base s [] stg → view stg = s → core_ok s →
  txn_spec (Rearrange.rearrange_in caller doc cuts as_of) stg (rearrange_gates s caller doc cuts as_of)
    (λ _ stg', on_base s [RecArrangement (ContentReorder doc (vp_ordinal <$> cuts))] stg' ∧ core_ok (view stg')).
Proof using.
  intros Hb Hv Hok. unfold Rearrange.rearrange_in, rearrange_gates. apply spec_working.
  rewrite <- Hv at 1. apply spec_edit. rewrite Hv. intros _ _ _.
  apply (spec_seq _ _ _ [(Rearrange.BadCutCount, length cuts ≠ 3 ∧ length cuts ≠ 4)]).
  eapply (spec_conseq _ _ _ (λ fl stg', stg' = stg ∧ head cuts = Some fl.1 ∧ last cuts = Some fl.2)).
  { destruct cuts as [|c0 [|c1 [|c2 [|c3 [|]]]]];
      first [by apply first_refusal_here
            |split; [constructor; [cbn; lia|constructor]|by split_and!]]. }
  intros [c_fst c_lst] stg' (-> & Hfst & Hlst). cbn [fst snd] in Hfst, Hlst.
  change (m5 (working stg)) with (sl_arrangement (view stg)). rewrite Hv.
  apply spec_refuse; [rewrite negb_true_iff, <- ascending_cuts_ok; by destruct (Rearrange.ascending_cuts cuts)|].
  intros _.
  apply spec_refuse.
  { rewrite existsb_exists. split; intros (c & Hc & Hn); exists c.
    - apply list_elem_of_In in Hc. split; [done|]. by apply negb_true_iff, N.eqb_neq in Hn.
    - apply list_elem_of_In in Hc. split; [done|]. by apply negb_true_iff, N.eqb_neq. }
  intros _. apply spec_refuse.
  { rewrite orb_true_iff, !negb_true_iff, <- !not_true_iff_false, !boundary_ok. split.
    - intros [H|H]; [exists c_fst|exists c_lst]; (split; [by auto|exact H]).
    - intros (c & [Hc|Hc] & Hn); [left; rewrite Hfst in Hc|right; rewrite Hlst in Hc]; by injection Hc as <-. }
  intros _. apply spec_refuse; [by apply content_is_empty_ok, Hok|]. intros _.
  eapply spec_conseq; [apply (spec_edit_end s []); [done|done|done|done|done|by intros d a ?%not_elem_of_nil]|].
  by intros [] stg' (? & ? & _).
Qed.

(** Cuts that pass the bounds leave no empty subspace to refuse. *)
Lemma rearrange_never_empty s caller doc cuts as_of :
  ¬ first_refusal (rearrange_gates s caller doc cuts as_of) Rearrange.EmptyContentSubspace.
Proof using.
  unfold rearrange_gates. intros [H|[_ H]]%first_refusal_app.
  { apply edit_gates_refusal in H. naive_solver. }
  rewrite !first_refusal_cons, first_refusal_nil in H.
  destruct H as [[? _]|(Hlen & [[? _]|(Hs & [[? _]|(_ & [[? _]|(Hb & [[_ He]|[_ []]])])])])]; try done.
  apply dec_stable in Hs. rewrite He in Hb.
  assert (Hb' : ∀ c, head cuts = Some c ∨ last cuts = Some c → (1 ≤ vp_ordinal c ≤ 1)%N).
  { intros c Hc. destruct (decide (1 ≤ vp_ordinal c ≤ 1)%N) as [|Hn]; [done|]. exfalso. apply Hb. exists c. done. }
  apply Sorted_StronglySorted in Hs; [|intros ? ? ?; lia].
  destruct cuts as [|c0 [|c1 cuts]]; [cbn in Hlen; lia..|].
  pose proof (Hb' c0 (or_introl eq_refl)) as H0.
  destruct (last (c0 :: c1 :: cuts)) as [d|] eqn:Hd; [|by apply last_None in Hd].
  pose proof (Hb' d (or_intror eq_refl)) as H1. rewrite last_cons_cons in Hd. apply last_Some_elem_of in Hd.
  rewrite fmap_cons in Hs. apply StronglySorted_inv in Hs as [_ Hs]. rewrite Forall_forall in Hs.
  specialize (Hs (vp_ordinal d) (list_elem_of_fmap_2 _ _ _ Hd)). lia.
Qed.

(** *** Seating a link *)

Definition seat_gates (s : Slices) (doc link : Address) : list (SeatError * Prop) :=
  [ (NotLinkAddress, admits_start link = false ∨ subspace link ≠ Some link_subspace);
    (NotHomeLink, document_of link ≠ Some doc);
    (AlreadySeated, link ∈ links s doc) ].

Lemma seats_link_ok a doc link :
  state_ok a → admits_start link = true →
  ∃ b, seats_link a doc link = Done b ∧ (b = true ↔ link ∈ vmap (link_list a doc)).
Proof using.
  intros Ha Hl. destruct (lists_ok a doc Ha) as [_ Hk]. unfold seats_link, holds.
  destruct (any_holds_ok link _ (rl_ok _ Hk)) as (b & -> & Hb). exists b. split; [done|].
  rewrite Hb. by apply under_some_element; [apply Hk|].
Qed.

Lemma stage_seat_ok s doc link :
  core_ok s →
  match stage_seat_link (sl_arrangement s) doc link with
  | Panicked => False
  | Done (Err e) => first_refusal (seat_gates s doc link) e
  | Done (Ok r) => Forall (λ g, ¬ g.2) (seat_gates s doc link) ∧ r = LinkSeat doc link ∧ admits_start link = true
  end.
Proof using.
  intros Hok. unfold stage_seat_link, seat_gates. destruct (admits_start link) eqn:Ha; cbn [negb orb].
  2: { apply first_refusal_here. by left. }
  destruct (decide (subspace link = Some link_subspace)) as [Hs|Hs];
    [rewrite (bool_decide_eq_true_2 _ Hs)|rewrite (bool_decide_eq_false_2 _ Hs)]; cbn [negb].
  2: { apply first_refusal_here. by right. }
  assert (Hn : ¬ (true = false ∨ subspace link ≠ Some link_subspace)) by (intros [?|?]; done).
  case_bool_decide as Hd; cbn [negb].
  2: { by apply first_refusal_next, first_refusal_here. }
  destruct (seats_link_ok (sl_arrangement s) doc link (co_m5 _ Hok) Ha) as (b & -> & Hb). cbn [mbind outcome_bind].
  destruct b.
  - apply first_refusal_next; [done|]. apply first_refusal_next; [cbn; tauto|]. apply first_refusal_here. by apply Hb.
  - split; [|done]. repeat constructor; cbn; [done|tauto|]. intros H%Hb. done.
Qed.

Lemma seat_spec s doc link (stg : Staging) :
  on_base s [] stg → view stg = s → core_ok s →
  txn_spec (txn_bind working_world (λ w, txn_bind (from_outcome (stage_seat_link (m5 w) doc link)) (λ rec,
    txn_bind (from_result rec) (λ rec, txn_bind (stage (of_core (RecArrangement rec))) (λ _, txn_ret link)))))
    stg (seat_gates s doc link)
    (λ v stg', ∃ rs, on_base s rs stg' ∧ core_ok (view stg') ∧
       (v = link ∧ rs = [RecArrangement (LinkSeat doc link)] ∧ admits_start link = true)).
Proof using.
  intros Hb Hv Hok. apply spec_working. change (m5 (working stg)) with (sl_arrangement (view stg)). rewrite Hv.
  pose proof (stage_seat_ok s doc link Hok) as H.
  destruct (stage_seat_link (sl_arrangement s) doc link) as [[r|e]|] eqn:E; [| |done].
  2: { unfold txn_spec, txn_bind, from_outcome, from_result. cbn. done. }
  destruct H as (Hg & -> & Ha). eapply spec_outcome; [reflexivity|].
  eapply spec_bind; [reflexivity|]. rewrite <- (app_nil_r (seat_gates s doc link)).
  assert (Hlast : txn_spec (E := SeatError)
    (txn_bind (stage (of_core (RecArrangement (LinkSeat doc link)))) (λ _, txn_ret link)) stg [] (λ v stg', ∃ rs, on_base s rs stg' ∧ core_ok (view stg') ∧
       (v = link ∧ rs = [RecArrangement (LinkSeat doc link)] ∧ admits_start link = true))).
  { apply (spec_stage_mid s [] stg (RecArrangement (LinkSeat doc link)) core_ok _ _ _ Hb).
    - rewrite Hv. intros at_. destruct (arrangement_push (debug := debug) s at_ (LinkSeat doc link) Hok I I) as (s' & ? & ? & _);
        [by intros d a ?%not_elem_of_nil|by exists s'].
    - intros stg' Hb' Hok'. apply spec_ret. by eexists. }
  unfold txn_spec in *. destruct (txn_bind _ _ stg) as [[[v|e] stg']|]; [|by apply first_refusal_nil in Hlast|done].
  destruct Hlast as [_ HQ]. split; [|done]. by apply Forall_app.
Qed.
End Edit.

(** ** The claims *)

(** C6. DELETE from a sound root never panics and leaves a sound one whatever the disk
    answers. It refuses by its pinned order: the document's registration, its
    ownership, a published target, a stale edit, the subspace, the position, the
    range, the width. Acknowledged, the document's content is the old one without the
    range, its last move is the call's own coordinate, and no other document, no
    link, no stored value and no address moved. *)
Theorem delete_exact {debug : bool} {W R Bytes : Type} `{WS : WorldState W R} `{HS : !HasSlices debug W R}
    (encode_record : R → Bytes) (k : Kernel (W := W) (Bytes := Bytes)) (answer : CommitAnswer)
    (caller : Caller) (doc : Address) (p : VPos) (width : Nat) (as_of : AsOf) :
  let s := root_slices k in
  core_ok s →
  ∃ k' e, delete encode_record k answer caller doc p width as_of = Done (k', e) ∧ core_ok (root_slices k') ∧
    answers k k' e (delete_gates s caller doc p width as_of) (λ _ at_,
      arranged s (root_slices k') at_ doc (remove_at (vp_ordinal p) width (contents s doc))).
Proof.
  intros s Hok.
  apply (edit_call encode_record k answer _ _ _ (ContentRemove doc (vp_ordinal p) width));
    [apply delete_closure|exact Hok|exact I|reflexivity| |].
  - cbn. unfold upd. by rewrite decide_True.
  - intros stg Hb Hv. eapply spec_conseq; [by apply (delete_spec s [])|]. by intros [] stg' (? & ? & _).
Qed.

(** REARRANGE from a sound root never panics, leaves a sound one, and refuses by
    its pinned order; its last verdict, the empty subspace, is never reached.
    Acknowledged, the two or three regions the cuts bound are exchanged and nothing
    else moved. *)
Theorem rearrange_exact {debug : bool} {W R Bytes : Type} `{WS : WorldState W R} `{HS : !HasSlices debug W R}
    (encode_record : R → Bytes) (k : Kernel (W := W) (Bytes := Bytes)) (answer : CommitAnswer)
    (caller : Caller) (doc : Address) (cuts : list VPos) (as_of : AsOf) :
  let s := root_slices k in
  core_ok s →
  ∃ k' e, rearrange encode_record k answer caller doc cuts as_of = Done (k', e) ∧ core_ok (root_slices k') ∧
    e ≠ Returned (Err (Rejected Rearrange.EmptyContentSubspace)) ∧
    answers k k' e (rearrange_gates s caller doc cuts as_of) (λ _ at_,
      ∃ l, arranged s (root_slices k') at_ doc l ∧ exchanged (vp_ordinal <$> cuts) (contents s doc) l).
Proof.
  intros s Hok.
  destruct (edit_call encode_record k answer (Rearrange.rearrange_in caller doc cuts as_of)
    (rearrange_gates s caller doc cuts as_of) doc (ContentReorder doc (vp_ordinal <$> cuts))
    (tile (vp_ordinal <$> cuts) (contents s doc))) as (k' & e & Ht & Hok' & H);
    [apply rearrange_closure|exact Hok|exact I|reflexivity|cbn; unfold upd; by rewrite decide_True| |].
  { intros stg Hb Hv. by apply rearrange_spec. }
  exists k', e. split; [exact Ht|]. split; [exact Hok'|].
  destruct e as [[[v at_]|[er| | | |]]|]; try (by split).
  - split; [done|]. destruct H as [Hg Ha]. split; [exact Hg|]. eexists. split; [exact Ha|].
    unfold rearrange_gates in Hg. rewrite Forall_app, !Forall_cons in Hg. destruct Hg as (_ & Hlen & Hs & _).
    cbn in Hlen, Hs. apply dec_stable in Hs. apply tile_exchanged; [done|]. rewrite length_fmap. lia.
  - split; [|exact H]. intros [= ->]. destruct H as [_ H]. by apply rearrange_never_empty in H.
Qed.

(** Seating a link from a sound root never panics and leaves a sound one. It
    refuses an address that is not a full link position, a link of another home, then
    a second seat; acknowledged, the document's links gain that one at the end, and
    no content, position or other document moved. *)
Theorem seat_link_exact {debug : bool} {W R Bytes : Type} `{WS : WorldState W R} `{HS : !HasSlices debug W R}
    (encode_record : R → Bytes) (k : Kernel (W := W) (Bytes := Bytes)) (answer : CommitAnswer)
    (doc link : Address) :
  let s := root_slices k in
  core_ok s →
  ∃ k' e, seat_link encode_record k answer doc link = Done (k', e) ∧ core_ok (root_slices k') ∧
    answers k k' e (seat_gates s doc link) (λ v _,
      let s' := root_slices k' in
      v = link ∧ sl_namespace s' = sl_namespace s ∧ sl_content s' = sl_content s ∧
      (∀ d, contents s' d = contents s d) ∧
      (∀ d, links s' d = if decide (d = doc) then links s doc ++ [link] else links s d) ∧
      arranged_at (sl_arrangement s') = arranged_at (sl_arrangement s)).
Proof.
  cbv zeta. intros Hok. unfold seat_link.
  match goal with |- context [transact _ _ _ ?f] => destruct (core_call encode_record k answer f (seat_gates (root_slices k) doc link)
    (λ v rs _, v = link ∧ rs = [RecArrangement (LinkSeat doc link)] ∧ admits_start link = true))
    as (k' & e & Ht & Hok' & H); [closes|exact Hok|intros stg Hb Hv; by apply seat_spec|] end.
  exists k', e. split; [exact Ht|]. split; [exact Hok'|]. destruct e as [[[v at_]|[er| | | |]]|]; try done.
  destruct H as (Hg & rs & u & (-> & -> & Ha) & _ & Hfold). split; [exact Hg|].
  apply fold_one_arrangement in Hfold as (arr & Harr & Hs'). rewrite Hs'.
  destruct (apply_m5_ok _ at_ (LinkSeat doc link) (co_m5 _ Hok) I) as (arr' & Ha' & [_ [Hc Hl] _]).
  rewrite Harr in Ha'. injection Ha' as <-. cbn in Hc, Hl. rewrite Ha in Hc, Hl.
  split_and!; [done|done|done|exact Hc|exact Hl|]. cbn. apply map_eq. intros d.
  by rewrite (meta_moved _ _ _ _ (apply_meta _ _ _ (LinkSeat doc link) (co_m5 _ Hok) I Harr)).
Qed.
