(* ===== verification/CopyCalls.v ===== *)
(** * Transclusion: COPY and REINSTATE

    The two edits that place addresses the store already holds. COPY resolves its
    specs against the working arrangement; REINSTATE is handed its runs and asks the
    store for every position of each. Both share the placement budget. *)

From stdpp Require Import gmap.
From S2P Require Import Prelude Txns Tumblers Addresses AddrMaps Arith Spans NsKeys NsState NsLaws NsOps NsInv NsCalls NsReach Runs Content RunLists VSpace Provenance Chain ArrState ArrReads World Edits EditInv EditSteps EditCalls.

#[local] Arguments apply_m3 : simpl never.
#[local] Arguments apply_m5 : simpl never.
#[local] Arguments published_target : simpl never.
#[local] Arguments content_list : simpl never.
#[local] Arguments extend_or_push_run : simpl never.

(** ** The accumulator's length *)

Lemma extend_length l r : length l ≤ length (extend_or_push_run l r).
Proof.
  destruct (snoc_view l) as [->|(k & x & ->)]; [cbn; lia|]. rewrite extend_snoc.
  case_match; rewrite !length_app; cbn; lia.
Qed.

Lemma foldl_extend_length rs l : length l ≤ length (foldl extend_or_push_run l rs).
Proof.
  revert l. induction rs as [|r rs IH]; intros l; cbn; [done|]. pose proof (extend_length l r).
  specialize (IH (extend_or_push_run l r)). lia.
Qed.

Lemma foldl_extend_ok rs l : runs_ok l → runs_ok rs → runs_ok (foldl extend_or_push_run l rs).
Proof.
  revert l. induction rs as [|r rs IH]; intros l Hl Hrs; cbn; [done|].
  apply runs_ok_cons in Hrs as [Hr Hrs]. apply IH; [by apply extend_ok|done].
Qed.

Lemma flat_empty rs : runs_ok rs → nonemptyb rs = false ↔ flat rs = [].
Proof.
  destruct rs as [|r rs]; [done|]. intros [Hr _]%runs_ok_cons. split; [done|].
  intros E. pose proof (flat_head r rs Hr) as H. by rewrite E in H.
Qed.

Lemma nonemptyb_flat rs : runs_ok rs → negb (nonemptyb rs) = true ↔ flat rs = [].
Proof. intros Hr. by rewrite negb_true_iff, flat_empty. Qed.

(** ** COPY *)

(** What a spec resolves to against the base, as addresses and as runs. *)
Definition spec_addrs (s : Slices) (spec : VSpec) : list Address :=
  match as_ordinal_vspan (vs_span spec) with
  | Some o =>
      take (N.to_nat (ov_ordinal o + ov_count o - N.max (ov_ordinal o) 1))
        (drop (N.to_nat (ov_ordinal o - 1)) (contents s (vs_source spec)))
  | None => []
  end.

Definition spec_runs (s : Slices) (spec : VSpec) : list Run :=
  match iter_resolve (sl_arrangement s) (vs_source spec) (vs_span spec) with Done rs => rs | Panicked => [] end.

Lemma spec_runs_ok s spec o :
  core_ok s → as_ordinal_vspan (vs_span spec) = Some o → ov_subspace o = content_subspace →
  iter_resolve (sl_arrangement s) (vs_source spec) (vs_span spec) = Done (spec_runs s spec) ∧
  runs_ok (spec_runs s spec) ∧ flat (spec_runs s spec) = spec_addrs s spec.
Proof.
  intros Hok E Hc. unfold spec_runs, spec_addrs, iter_resolve. rewrite E.
  unfold arr_list. rewrite Hc. cbn [N.eqb].
  assert (Hl : RunList_ok (content_list (sl_arrangement s) (vs_source spec))) by apply content_ok, Hok.
  change (content (arrangement_of (sl_arrangement s) (vs_source spec))) with
    (content_list (sl_arrangement s) (vs_source spec)).
  rewrite N.eqb_refl.
  destruct (iter_resolve_range_ok _ (ov_ordinal o) (ov_count o) Hl) as (rs & -> & Hrs & Hf). done.
Qed.

(** Every address a spec resolves to is arranged, so stored. *)
Lemma spec_addrs_stored s spec a :
  core_ok s → a ∈ spec_addrs s spec → content_position a ∧ ∃ v, stores (sl_content s) (tumbler a) v.
Proof.
  intros Hok Ha. unfold spec_addrs in Ha. destruct (as_ordinal_vspan (vs_span spec)) as [o|]; [|by apply elem_of_nil in Ha].
  apply subseteq_take, subseteq_drop in Ha. by destruct (co_arranged _ Hok _ _ Ha) as (_ & ? & ?).
Qed.

(** The gates of the resolution, spec by spec, [steps] and [runs] the two budgets' use
    so far. *)
Fixpoint spec_gates (s : Slices) (specs : list VSpec) (steps : N) (runs : list Run) :
    list (Copy.CopyError * Prop) :=
  match specs with
  | [] => []
  | spec :: specs =>
      let steps := N.min (steps + N.of_nat (content_run_count (sl_arrangement s) (vs_source spec))) u64_max in
      let runs := foldl extend_or_push_run runs (spec_runs s spec) in
      (Copy.SourceNotRegistered, is_registered_document (sl_namespace s) (vs_source spec) = false) ::
      (Copy.NotOrdinalVSpan, as_ordinal_vspan (vs_span spec) = None) ::
      (Copy.SourceNotContentSubspace,
        ∃ o, as_ordinal_vspan (vs_span spec) = Some o ∧ ov_subspace o ≠ content_subspace) ::
      (Copy.EmptySource, contents s (vs_source spec) = []) ::
      (Copy.TooManyRuns, (MAX_COPY_RESOLVE_STEPS < steps)%N) ::
      (Copy.TooManyRuns, (MAX_PLACED_RUNS < N.of_nat (length runs))%N) ::
      spec_gates s specs steps runs
  end.

Definition copied (s : Slices) (specs : list VSpec) : list Address := specs ≫= spec_addrs s.

Definition copy_gates (s : Slices) (caller : Caller) (doc : Address) (at_ : VPos) (specs : list VSpec)
    (as_of : AsOf) : list (Copy.CopyError * Prop) :=
  edit_gates Copy.DocNotRegistered Copy.NotOwner Copy.PublishedTarget Copy.ArrangementMoved s caller doc as_of ++
  (Copy.NotContentSubspace, vp_subspace at_ ≠ content_subspace) ::
  (Copy.OutOfBounds, ¬ (1 ≤ vp_ordinal at_ ≤ count (contents s doc) + 1)%N) ::
  spec_gates s specs 0 [] ++ [(Copy.EmptyResult, copied s specs = [])].

Lemma spec_gates_dangling s specs steps runs : ¬ first_refusal (spec_gates s specs steps runs) Copy.DanglingSource.
Proof.
  revert steps runs. induction specs as [|spec specs IH]; intros steps runs; cbn [spec_gates].
  { by intros ?%first_refusal_nil. }
  rewrite !first_refusal_cons.
  specialize (IH (N.min (steps + N.of_nat (content_run_count (sl_arrangement s) (vs_source spec))) u64_max)
    (foldl extend_or_push_run runs (spec_runs s spec))). naive_solver.
Qed.

Lemma copy_never_dangling s caller doc at_ specs as_of :
  ¬ first_refusal (copy_gates s caller doc at_ specs as_of) Copy.DanglingSource.
Proof.
  unfold copy_gates. intros [H|[_ H]]%first_refusal_app; [apply edit_gates_refusal in H; naive_solver|].
  rewrite !first_refusal_cons in H. destruct H as [[? _]|(_ & [[? _]|(_ & H)])]; [done..|].
  apply first_refusal_app in H as [H|[_ H]]; [by apply spec_gates_dangling in H|].
  rewrite first_refusal_cons, first_refusal_nil in H. naive_solver.
Qed.

Section Copy.
Context {debug : bool} {W R Bytes : Type} `{WS : WorldState W R} `{HS : !HasSlices debug W R}.
Context (encode_record : R → Bytes).
#[local] Notation Kernel := (Kernel (W := W) (Bytes := Bytes)).
#[local] Notation Staging := (Staging (W := W) (R := R)).
#[local] Notation Txn := (Txn (W := W) (R := R)).

Lemma accumulate_closure (w : W) rs runs : closure (Copy.accumulate w rs runs : Txn _ _).
Proof using. revert runs. induction rs as [|r rs IH]; intros runs; cbn [Copy.accumulate]; closes. apply IH. Qed.

Lemma resolve_specs_closure (w : W) specs steps runs : closure (Copy.resolve_specs w specs steps runs : Txn _ _).
Proof using.
  revert steps runs. induction specs as [|spec specs IH]; intros steps runs; cbn [Copy.resolve_specs]; closes.
  - apply accumulate_closure.
  - apply IH.
Qed.

Lemma copy_closure caller doc at_ specs as_of : closure (Copy.copy_in caller doc at_ specs as_of : Txn _ _).
Proof using. unfold Copy.copy_in. closes. apply resolve_specs_closure. Qed.

(** The inner loop refuses exactly past the budget, over stored runs. *)
Lemma accumulate_ok (w : W) rs runs (stg : Staging) :
  runs_ok rs → (∀ a, a ∈ flat rs → content_position a ∧ ∃ v, stores (sl_content (slices w)) (tumbler a) v) →
  store_ok (sl_content (slices w)) → (N.of_nat (length runs) ≤ MAX_PLACED_RUNS)%N →
  txn_spec (Copy.accumulate w rs runs) stg
    [(Copy.TooManyRuns, (MAX_PLACED_RUNS < N.of_nat (length (foldl extend_or_push_run runs rs)))%N)]
    (λ l stg', stg' = stg ∧ l = foldl extend_or_push_run runs rs).
Proof using.
  intros Hrs Hst Hok. revert runs. induction rs as [|r rs IH]; intros runs Hlen; cbn [Copy.accumulate].
  { split; [|done]. repeat constructor. cbn. lia. }
  apply runs_ok_cons in Hrs as [Hr Hrs].
  assert (Hhead : i_start r ∈ flat (r :: rs)) by (eapply list_elem_of_lookup_2; by apply flat_head).
  destruct (Hst _ Hhead) as (_ & v & Hv). change (content_store w) with (sl_content (slices w)).
  rewrite (stores_contains _ _ _ Hok Hv). cbn [negb foldl].
  set (l := extend_or_push_run runs r). pose proof (foldl_extend_length rs l) as Hge.
  eapply spec_bind; [reflexivity|].
  destruct (N.ltb_spec MAX_PLACED_RUNS (N.of_nat (length l))) as [Hlt|Hle].
  - apply first_refusal_here. lia.
  - eapply spec_bind; [reflexivity|]. apply IH; [done| |lia].
    intros a Ha. apply Hst. rewrite flat_cons, elem_of_app. by right.
Qed.

Lemma resolve_specs_ok (w : W) specs steps runs (stg : Staging) :
  let s := slices w in
  core_ok s → runs_ok runs → (N.of_nat (length runs) ≤ MAX_PLACED_RUNS)%N →
  txn_spec (Copy.resolve_specs w specs steps runs) stg (spec_gates s specs steps runs)
    (λ l stg', stg' = stg ∧ runs_ok l ∧ flat l = flat runs ++ copied s specs).
Proof using.
  intros s Hok. revert steps runs. induction specs as [|spec specs IH]; intros steps runs Hr Hlen;
    cbn [Copy.resolve_specs spec_gates].
  { split; [constructor|]. split_and!; [done|done|]. by rewrite app_nil_r. }
  apply spec_refuse; [change (m3 w) with (sl_namespace s); by rewrite negb_true_iff|]. intros _.
  destruct (as_ordinal_vspan (vs_span spec)) as [o|] eqn:Eo; cbn [ok_or].
  2: { apply first_refusal_here. done. }
  assert (Hskip : ∀ m : Txn Copy.CopyError (list Run), ∀ g Q, txn_spec m stg g Q →
    txn_spec m stg ((Copy.NotOrdinalVSpan, Some o = None) :: g) Q).
  { intros m g Q. unfold txn_spec. destruct (m stg) as [[[a|e] stg']|]; [| |done].
    - intros [Hg HQ]. split; [by constructor|done].
    - by apply first_refusal_next. }
  apply Hskip. eapply spec_bind; [reflexivity|].
  apply spec_refuse.
  { unfold OrdinalVSpan_is_content. rewrite negb_true_iff, N.eqb_neq. split; [by exists o|]. by intros (? & [= <-] & ?). }
  intros Hc%negb_false_iff%N.eqb_eq.
  apply spec_refuse; [apply content_is_empty_ok, Hok|]. intros _.
  apply spec_refuse; [apply N.ltb_lt|]. intros _.
  destruct (spec_runs_ok s spec o Hok Eo Hc) as (E & Hrs & Hf).
  eapply spec_outcome; [exact E|].
  apply (spec_seq _ _ stg [(Copy.TooManyRuns, (MAX_PLACED_RUNS < N.of_nat (length (foldl extend_or_push_run runs (spec_runs s spec))))%N)]).
  pose proof (accumulate_ok w (spec_runs s spec) runs stg Hrs) as Hacc.
  unfold txn_spec at 1. unfold txn_spec at 1 in Hacc.
  destruct (Copy.accumulate w (spec_runs s spec) runs stg) as [[[l|e] stg']|].
  - destruct Hacc as (Hg & -> & ->); [|apply Hok|done|]. { rewrite Hf. intros a. by apply spec_addrs_stored. }
    split; [done|]. apply Forall_cons in Hg as [Hg _]. cbn in Hg.
    eapply spec_conseq; [apply IH; [by apply foldl_extend_ok|lia]|]. cbv beta.
    intros l stg' (-> & ? & Hl). split_and!; [done|done|]. rewrite Hl, foldl_extend_flat, Hf. by rewrite <- app_assoc.
  - apply Hacc; [|apply Hok|done]. rewrite Hf. intros a. by apply spec_addrs_stored.
  - apply Hacc; [|apply Hok|done]. rewrite Hf. intros a. by apply spec_addrs_stored.
Qed.

(** The placement both edits end with. *)
Definition places (doc : Address) (ord : Nat) (l : list Address) (r : M5Rec) : Prop :=
  ∃ runs, r = ContentPlace doc ord runs ∧ runs_ok runs ∧ flat runs = l.

Lemma places_edit s doc ord l r :
  places doc ord l r →
  rec_ok r ∧ edits r doc ∧ d_content (spec_step (docs_of (sl_arrangement s)) r) doc = insert_at ord l (contents s doc).
Proof using.
  intros (runs & -> & Hr & <-). split_and!; [done|done|]. cbn. unfold upd. by rewrite decide_True.
Qed.

Lemma spec_place {E} s0 rs s (stg : Staging) doc ord runs :
  on_base s0 rs stg → view stg = s → core_ok s → is_registered_document (sl_namespace s) doc = true → runs_ok runs →
  (∀ a, a ∈ flat runs → content_position a ∧ ∃ v, stores (sl_content s) (tumbler a) v) →
  txn_spec (stage (of_core (RecArrangement (ContentPlace doc ord runs))) : Txn E unit) stg []
    (λ _ stg', ∃ r, places doc ord (flat runs) r ∧ then_staged s0 rs s r stg').
Proof using.
  intros Hb Hv Hok Hd Hr Hst. eapply spec_conseq; [apply (spec_edit_end s0 rs s); [done|done|done|done|done|]|].
  - intros d a. cbn. case_decide as Ed; [subst|by intros ?%not_elem_of_nil]. intros Ha. split; [done|]. by apply Hst.
  - cbv beta. intros [] stg' ?. eexists. split; [|done]. by exists runs.
Qed.

Lemma copy_spec s caller doc at_ specs as_of (stg : Staging) :
  on_base s [] stg → view stg = s → core_ok s →
  txn_spec (Copy.copy_in caller doc at_ specs as_of) stg (copy_gates s caller doc at_ specs as_of)
    (λ _ stg', ∃ r, places doc (vp_ordinal at_) (copied s specs) r ∧
       on_base s [RecArrangement r] stg' ∧ core_ok (view stg')).
Proof using.
  intros Hb Hv Hok. unfold Copy.copy_in, copy_gates. apply spec_working.
  rewrite <- Hv at 1. apply spec_edit. rewrite Hv. intros Hd _ _.
  change (m5 (working stg)) with (sl_arrangement (view stg)). rewrite Hv.
  apply spec_refuse; [unfold VPos_is_content; rewrite negb_true_iff; apply N.eqb_neq|]. intros _.
  apply spec_refuse; [by rewrite negb_true_iff, <- not_true_iff_false, boundary_ok|]. intros _.
  apply spec_seq. pose proof (resolve_specs_ok (working stg) specs 0 [] stg) as H.
  change (slices (working stg)) with (view stg) in H. rewrite Hv in H.
  eapply spec_conseq; [apply H; [done|apply runs_ok_nil|cbn; lia]|]. cbv beta.
  intros runs stg' (-> & Hr & Hf). rewrite flat_nil in Hf. cbn [app] in Hf.
  apply spec_refuse; [by rewrite nonemptyb_flat, Hf|]. intros _. rewrite <- Hf.
  eapply spec_conseq; [apply (spec_place s [] s); try done|].
  - rewrite Hf. intros a (spec & Ha & _)%list_elem_of_bind. by apply (spec_addrs_stored s spec).
  - intros [] stg' (r & ? & ? & ? & _). by exists r.
Qed.
End Copy.

(** ** REINSTATE *)

(** The gates of the walk over the stated runs, [placement] the accumulator so far. *)
Fixpoint stated_gates (s : Slices) (runs : list ShotRun) (placement : list Run) :
    list (Reinstate.ReinstateError * Prop) :=
  match runs with
  | [] => []
  | MkShotRun origin run :: runs =>
      let placement := extend_or_push_run placement run in
      (Reinstate.BadRun, run_origin_document run ≠ Some (trunk_of origin)) ::
      (Reinstate.SourceNotRegistered, is_registered_document (sl_namespace s) (trunk_of origin) = false) ::
      (Reinstate.DanglingSource, ¬ ∀ a, a ∈ addrs run → ∃ v, stores (sl_content s) (tumbler a) v) ::
      (Reinstate.TooManyRuns, (MAX_PLACED_RUNS < N.of_nat (length placement))%N) ::
      stated_gates s runs placement
  end.

Definition stated (runs : list ShotRun) : list Address := runs ≫= (λ r, addrs (sr_run r)).

Definition reinstate_gates (s : Slices) (caller : Caller) (doc : Address) (at_ : VPos) (runs : list ShotRun)
    (as_of : AsOf) : list (Reinstate.ReinstateError * Prop) :=
  edit_gates Reinstate.DocNotRegistered Reinstate.NotOwner Reinstate.PublishedTarget Reinstate.ArrangementMoved
    s caller doc as_of ++
  (Reinstate.NotContentSubspace, vp_subspace at_ ≠ content_subspace) ::
  (Reinstate.OutOfBounds, ¬ (1 ≤ vp_ordinal at_ ≤ count (contents s doc) + 1)%N) ::
  stated_gates s runs [] ++ [(Reinstate.EmptyResult, runs = [])].

(** The runs of a request came through [Run]'s own doors. *)
Definition stated_ok (runs : list ShotRun) : Prop := Forall (λ r, run_ok (sr_run r)) runs.

(** A run whose origin document is decided holds content positions. *)
Lemma origin_content run d a :
  run_ok run → run_origin_document run = Some d → a ∈ addrs run → content_position a.
Proof.
  intros [_ Hs] Ho (k & _ & ->)%elem_of_addrs. apply content_position_shift.
  unfold run_origin_document in Ho. case_bool_decide as Hc; [|done]. clear Ho.
  unfold admits_start in Hs. unfold content_position.
  destruct (element_field (i_start run)) as [[|x [|y [|]]]|] eqn:E; try done. exists y.
  assert (Hx : subspace (i_start run) = (e ← element_field (i_start run); head e)).
  { unfold subspace. apply total_Done. rewrite E. done. }
  rewrite E in Hx. cbn in Hx. congruence.
Qed.

Section Reinstate.
Context {debug : bool} {W R Bytes : Type} `{WS : WorldState W R} `{HS : !HasSlices debug W R}.
#[local] Notation Staging := (Staging (W := W) (R := R)).
#[local] Notation Txn := (Txn (W := W) (R := R)).

Lemma place_stated_closure (w : W) runs placement : closure (Reinstate.place_stated w runs placement : Txn _ _).
Proof using.
  revert placement. induction runs as [|[origin run] runs IH]; intros placement; cbn [Reinstate.place_stated]; closes.
  apply IH.
Qed.

Lemma reinstate_closure caller doc at_ runs as_of :
  closure (Reinstate.stage_reinstate_at caller doc at_ runs as_of : Txn _ _).
Proof using. unfold Reinstate.stage_reinstate_at. closes. apply place_stated_closure. Qed.

Lemma run_stored_ok s run :
  core_ok s →
  ∃ b, covered (pieces (sl_content s) (tumbler (i_start run)) (run_width run)) = Done b ∧
    (b = true ↔ ∀ a, a ∈ addrs run → ∃ v, stores (sl_content s) (tumbler a) v).
Proof using.
  intros Hok. destruct (covered_ok (sl_content s) (tumbler (i_start run)) (run_width run) (co_store _ Hok)) as (b & E & Hb).
  exists b. split; [done|]. rewrite Hb. split.
  - intros H0 a (k & Hk & ->)%elem_of_addrs. rewrite addr_shift_tumbler. by apply H0.
  - intros H0 k Hk. rewrite <- addr_shift_tumbler. apply H0, elem_of_addrs. by exists k.
Qed.

Lemma place_stated_ok (w : W) runs placement (stg : Staging) :
  let s := slices w in
  core_ok s → stated_ok runs → runs_ok placement →
  txn_spec (Reinstate.place_stated w runs placement) stg (stated_gates s runs placement)
    (λ l stg', stg' = stg ∧ runs_ok l ∧ flat l = flat placement ++ stated runs ∧
       ∀ a, a ∈ stated runs → content_position a ∧ ∃ v, stores (sl_content s) (tumbler a) v).
Proof using.
  intros s Hok. revert placement. induction runs as [|[origin run] runs IH]; intros placement Hs Hp;
    cbn [Reinstate.place_stated stated_gates].
  { split; [constructor|]. split_and!; [done|done|by rewrite app_nil_r|]. by intros a ?%not_elem_of_nil. }
  apply Forall_cons in Hs as [Hr Hs]. cbn [sr_run] in Hr.
  destruct (run_origin_document run) as [d|] eqn:Ed; cbn [ok_or].
  2: { by apply first_refusal_here. }
  eapply spec_bind; [reflexivity|].
  apply spec_refuse; [rewrite negb_true_iff, bool_decide_eq_false; naive_solver|].
  intros ->%negb_false_iff%bool_decide_eq_true.
  apply spec_refuse; [change (m3 w) with (sl_namespace s); by rewrite negb_true_iff|]. intros _.
  change (content_store w) with (sl_content s). destruct (run_stored_ok s run Hok) as (b & E & Hb).
  eapply spec_outcome; [exact E|].
  apply spec_refuse; [by rewrite negb_true_iff, <- not_true_iff_false, Hb|]. intros Hst%negb_false_iff. rewrite Hb in Hst.
  apply spec_refuse; [apply N.ltb_lt|]. intros _.
  eapply spec_conseq; [apply IH; [done|by apply extend_ok]|]. cbv beta.
  intros l stg' (-> & ? & Hf & Hstored). split_and!; [done|done| |].
  - rewrite Hf, extend_flat. unfold stated. by rewrite bind_cons, <- app_assoc.
  - intros a. unfold stated. rewrite bind_cons, elem_of_app. intros [Ha|Ha]; [|by apply Hstored].
    split; [by eapply origin_content|by apply Hst].
Qed.

Lemma reinstate_spec s0 rs s caller doc at_ runs as_of (stg : Staging) :
  on_base s0 rs stg → view stg = s → core_ok s → stated_ok runs →
  txn_spec (Reinstate.stage_reinstate_at caller doc at_ runs as_of) stg (reinstate_gates s caller doc at_ runs as_of)
    (λ _ stg', ∃ r, places doc (vp_ordinal at_) (stated runs) r ∧ then_staged s0 rs s r stg').
Proof using.
  intros Hb Hv Hok Hs. unfold Reinstate.stage_reinstate_at, reinstate_gates. apply spec_working.
  rewrite <- Hv at 1. apply spec_edit. rewrite Hv. intros Hd _ _.
  change (m5 (working stg)) with (sl_arrangement (view stg)). rewrite Hv.
  apply spec_refuse; [unfold VPos_is_content; rewrite negb_true_iff; apply N.eqb_neq|]. intros _.
  apply spec_refuse; [by rewrite negb_true_iff, <- not_true_iff_false, boundary_ok|]. intros _.
  apply spec_seq. pose proof (place_stated_ok (working stg) runs [] stg) as H.
  change (slices (working stg)) with (view stg) in H. rewrite Hv in H.
  eapply spec_conseq; [apply H; [done|done|apply runs_ok_nil]|]. cbv beta.
  intros l stg' (-> & Hr & Hf & Hst). rewrite flat_nil in Hf. cbn [app] in Hf.
  apply spec_refuse; [|intros _; rewrite <- Hf; apply spec_place; try done; by rewrite Hf].
  rewrite nonemptyb_flat, Hf by done. destruct runs as [|[o r] runs]; [done|]. split; [|done].
  apply Forall_cons in Hs as [Hr' _]. intros E. pose proof (flat_head r [] Hr') as Hh.
  unfold stated in E. rewrite bind_cons in E. apply app_eq_nil in E as [E _]. cbn [sr_run] in E.
  by rewrite flat_cons, E in Hh.
Qed.
End Reinstate.

(** ** The claims *)

(** C10. COPY from a sound root never panics and leaves a sound one. It refuses by its
    pinned order, the gates every edit opens with, the target position, then spec by
    spec the source's registration, the span's shape and subspace, the source's
    content, and the two budgets; what a spec resolves to is arranged, so it is
    stored, and the dangling-source verdict is never reached. Acknowledged, the
    specs' content is placed in order at the position and nothing else moved. *)
Theorem copy_exact {debug : bool} {W R Bytes : Type} `{WS : WorldState W R} `{HS : !HasSlices debug W R}
    (encode_record : R → Bytes) (k : Kernel (W := W) (Bytes := Bytes)) (answer : CommitAnswer)
    (caller : Caller) (doc : Address) (at_ : VPos) (specs : list VSpec) (as_of : AsOf) :
  let s := root_slices k in
  core_ok s →
  ∃ k' e, copy encode_record k answer caller doc at_ specs as_of = Done (k', e) ∧ core_ok (root_slices k') ∧
    (e ≠ Returned (Err (Rejected Copy.DanglingSource))) ∧
    answers k k' e (copy_gates s caller doc at_ specs as_of) (λ _ p,
      arranged s (root_slices k') p doc (insert_at (vp_ordinal at_) (copied s specs) (contents s doc))).
Proof.
  intros s Hok.
  destruct (edit_call_any encode_record k answer (Copy.copy_in caller doc at_ specs as_of)
    (copy_gates s caller doc at_ specs as_of) doc (insert_at (vp_ordinal at_) (copied s specs) (contents s doc))
    (places doc (vp_ordinal at_) (copied s specs))) as (k' & e & Ht & Hok' & H);
    [apply copy_closure|exact Hok|intros r; apply places_edit|intros stg Hb Hv; by apply copy_spec|].
  exists k', e. split; [exact Ht|]. split; [exact Hok'|]. split; [|exact H].
  intros ->. destruct H as [_ H]. by apply copy_never_dangling in H.
Qed.

(** REINSTATE from a sound root never panics, leaves a sound one and refuses by its
    pinned order: run by run the origin named, its registration, a position of the
    run that holds nothing, and the budget. Acknowledged, the stated positions are
    placed in order and nothing else moved: what left a document goes back by the
    addresses it had. *)
Theorem reinstate_exact {debug : bool} {W R Bytes : Type} `{WS : WorldState W R} `{HS : !HasSlices debug W R}
    (encode_record : R → Bytes) (k : Kernel (W := W) (Bytes := Bytes)) (answer : CommitAnswer)
    (caller : Caller) (doc : Address) (at_ : VPos) (runs : list ShotRun) (as_of : AsOf) :
  let s := root_slices k in
  core_ok s → stated_ok runs →
  ∃ k' e, reinstate encode_record k answer caller doc at_ runs as_of = Done (k', e) ∧ core_ok (root_slices k') ∧
    answers k k' e (reinstate_gates s caller doc at_ runs as_of) (λ _ p,
      arranged s (root_slices k') p doc (insert_at (vp_ordinal at_) (stated runs) (contents s doc))).
Proof.
  intros s Hok Hs.
  apply (edit_call_any encode_record k answer _ _ doc _ (places doc (vp_ordinal at_) (stated runs)));
    [apply reinstate_closure|exact Hok|intros r; apply places_edit|].
  intros stg Hb Hv. eapply spec_conseq; [by apply (reinstate_spec s [])|]. intros [] stg' (r & ? & ? & ? & _). by exists r.
Qed.
