(* ===== verification/InsertCalls.v ===== *)
(** * INSERT

    The one edit that mints: each value of the request gets the document's next
    content position, one record pair for an atom, one range and one stretch for a
    run of single bytes, and the whole is placed in the arrangement the insert lands
    in, the document's own or, for a declared deposit, its chain's head. *)

From stdpp Require Import gmap.
From S2P Require Import Prelude Txns Tumblers Addresses AddrMaps Arith Spans NsKeys NsState NsLaws NsOps NsInv NsCalls NsReach Runs Content RunLists VSpace Provenance Chain ArrState ArrReads World Edits EditInv EditSteps EditCalls CopyCalls.

#[local] Arguments apply_m3 : simpl never.
#[local] Arguments apply_m5 : simpl never.
#[local] Arguments published_target : simpl never.
#[local] Arguments content_list : simpl never.
#[local] Arguments extend_or_push_run : simpl never.
#[local] Arguments effective_frontier : simpl never.

(** ** What a placement mints *)

(** A record that moves no arrangement. *)
Definition quiet (r : CoreRec) : Prop := match r with RecArrangement _ => False | _ => True end.

(** [runs'] holds what [runs] held, then the next content positions of [h]'s chain. *)
Definition placed_at (h : Address) (n : N) (m : nat) (runs runs' : list Run) : Prop :=
  runs_ok runs' ∧ ∃ l, flat runs' = flat runs ++ l ∧ length l = m ∧
    ∀ i a, l !! i = Some a → content_at h (n + 1 + N.of_nat i) (tumbler a).

Lemma placed_none h n runs : runs_ok runs → placed_at h n 0 runs runs.
Proof. intros Hr. split; [done|]. exists []. by rewrite app_nil_r. Qed.

Lemma placed_trans h n m1 m2 r1 r2 r3 :
  placed_at h n m1 r1 r2 → placed_at h (n + N.of_nat m1) m2 r2 r3 → placed_at h n (m1 + m2) r1 r3.
Proof.
  intros (_ & l1 & E1 & L1 & H1) (Hr & l2 & E2 & L2 & H2). split; [done|]. exists (l1 ++ l2).
  split_and!; [by rewrite E2, E1, <- app_assoc|rewrite length_app; lia|].
  intros i a [Hi|[Hle Hi]]%lookup_app_Some; [by apply H1|]. specialize (H2 _ _ Hi).
  by replace (n + 1 + N.of_nat i)%N with (n + N.of_nat m1 + 1 + N.of_nat (i - length l1))%N by lia.
Qed.

(** One run of fresh positions. *)
Lemma placed_run h n a w runs :
  level h = Document → runs_ok runs → (1 ≤ w)%N → content_at h (n + 1) (tumbler a) →
  placed_at h n (N.to_nat w) runs (extend_or_push_run runs (MkRun a w)).
Proof.
  intros Hl Hr Hw Ha. assert (Hrun : run_ok (MkRun a w)).
  { split; [done|]. by apply content_position_admits, (content_at_position h (n + 1)). }
  split; [by apply extend_ok|]. exists (addrs (MkRun a w)). rewrite extend_flat.
  assert (Hlen : length (addrs (MkRun a w)) = N.to_nat w).
  { unfold addrs, offsets. by rewrite !length_fmap, length_seq. }
  split_and!; [done|done|]. intros i b Hi. pose proof (lookup_lt_Some _ _ _ Hi) as Hlt.
  rewrite <- (Nat2N.id i), addrs_lookup in Hi by (cbn; lia). injection Hi as <-. cbn [i_start].
  rewrite addr_shift_tumbler. by apply content_at_shift.
Qed.

Section Mint.
Context {debug : bool} {W R Bytes : Type} `{WS : WorldState W R} `{HS : !HasSlices debug W R}.
#[local] Notation Staging := (Staging (W := W) (R := R)).
#[local] Notation Txn := (Txn (W := W) (R := R)).

(** A step of the walk: it mints and stores [vals], whatever is pending. *)
Definition grows_by (s : Slices) (h : Address) (stg : Staging) (vals : list (list Byte.byte)) (runs : list Run)
    (runs' : list Run) (stg' : Staging) (rs rs' : list CoreRec) : Prop :=
  on_base s (rs ++ rs') stg' ∧ Forall quiet rs' ∧ core_ok (view stg') ∧ grew h (view stg) (view stg') vals ∧
  placed_at h (effective_frontier (sl_namespace (view stg)) (content_ns h)) (length vals) runs runs'.

Lemma grows_by_trans s h stg1 stg2 stg3 v1 v2 r1 r2 r3 rs a b :
  grows_by s h stg1 v1 r1 r2 stg2 rs a → grows_by s h stg2 v2 r2 r3 stg3 (rs ++ a) b →
  grows_by s h stg1 (v1 ++ v2) r1 r3 stg3 rs (a ++ b).
Proof using.
  intros (_ & Ha & _ & G1 & P1) (Hb & Hq & Hok & G2 & P2). split_and!.
  - by rewrite app_assoc.
  - by apply Forall_app.
  - done.
  - by eapply grew_trans.
  - rewrite length_app. eapply placed_trans; [done|]. by rewrite (g_frontier _ _ _ _ G1) in P2.
Qed.

Lemma atom_placed {E} (of_mint : MintError → E) of_content s rs (stg : Staging) h v runs :
  on_base s rs stg → core_ok (view stg) → is_registered_document (sl_namespace (view stg)) h = true → runs_ok runs →
  ∃ rs' stg' runs', allocate_for_placement of_mint of_content h v runs stg = Done (Ok runs', stg') ∧
    grows_by s h stg [v] runs runs' stg' rs rs'.
Proof using.
  intros Hb Hok Hh Hr. pose proof Hh as [Hl _]%is_registered_document_ok.
  destruct (atom_steps debug h (view stg) v Hok Hh) as (a & r & wr & Hm & Ha & Hw & Hstep).
  destruct (on_base_push s rs stg (RecNamespace r) _ Hb Hstep) as (stg1 & Hp1 & Hb1 & Hc & Hstep2).
  destruct (on_base_push s _ stg1 (RecContent wr) _ Hb1 Hstep2) as (stg2 & Hp2 & Hb2 & Hg & Hok2).
  exists [RecNamespace r; RecContent wr], stg2, (extend_or_push_run runs (MkRun a 1)). split.
  - unfold allocate_for_placement, txn_bind, working_world, from_outcome, from_result, stage, txn_ret.
    cbn [mbind outcome_bind]. change (m3 (working stg)) with (sl_namespace (view stg)). rewrite Hm.
    cbn [mbind outcome_bind map_err]. rewrite Hp1. cbn [mbind outcome_bind].
    change (content_store (working stg1)) with (sl_content (view stg1)). rewrite Hc, Hw.
    cbn [mbind outcome_bind map_err]. rewrite Hp2. done.
  - split_and!; [by rewrite <- app_assoc in Hb2|by repeat constructor|done|done|].
    by apply (placed_run h _ a 1).
Qed.

Lemma stretch_placed {E} (of_mint : MintError → E) of_content s rs (stg : Staging) h bs runs :
  on_base s rs stg → core_ok (view stg) → is_registered_document (sl_namespace (view stg)) h = true → runs_ok runs →
  bs ≠ [] → usize_len (length bs) →
  ∃ rs' stg' runs', allocate_stretch_for_placement of_mint of_content h bs runs stg = Done (Ok runs', stg') ∧
    grows_by s h stg ((λ b, [b]) <$> bs) runs runs' stg' rs rs'.
Proof using.
  intros Hb Hok Hh Hr Hne Hlen. pose proof Hh as [Hl _]%is_registered_document_ok.
  destruct (stretch_steps debug h (view stg) bs Hok Hh Hne Hlen) as (a & st & Hm & Ha & Hw & Hst & Hstep).
  destruct (on_base_push s rs stg _ _ Hb Hstep) as (stg1 & Hp1 & Hb1 & Hc & Hstep2).
  destruct (on_base_push s _ stg1 (RecContentStretch st) _ Hb1 Hstep2) as (stg2 & Hp2 & Hb2 & Hg & Hok2).
  eexists [_; RecContentStretch st], stg2, (extend_or_push_run runs (MkRun a (N.of_nat (length bs)))). split.
  - unfold allocate_stretch_for_placement, txn_bind, working_world, from_outcome, from_result, stage, txn_ret.
    cbn [mbind outcome_bind]. change (m3 (working stg)) with (sl_namespace (view stg)). rewrite Hm.
    cbn [mbind outcome_bind map_err]. rewrite Hp1. cbn [mbind outcome_bind].
    change (content_store (working stg1)) with (sl_content (view stg1)). rewrite Hc, Hw.
    cbn [mbind outcome_bind map_err]. rewrite Hp2. cbn [mbind outcome_bind minted_count ra_count].
    unfold ContentStretch_len. rewrite Hst, bool_decide_eq_true_2 by done.
    unfold debug_assert. by destruct debug.
  - split_and!; [by rewrite <- app_assoc in Hb2|by repeat constructor|done|done|].
    rewrite length_fmap. replace (length bs) with (N.to_nat (N.of_nat (length bs))) at 1 by apply Nat2N.id.
    apply placed_run; [done|done| |done]. destruct bs; [done|cbn; lia].
Qed.

Lemma flush_ok s rs (stg : Staging) h pending runs :
  on_base s rs stg → core_ok (view stg) → is_registered_document (sl_namespace (view stg)) h = true → runs_ok runs →
  usize_len (length pending) →
  ∃ rs' stg' runs', Insert.flush h pending runs stg = Done (Ok runs', stg') ∧
    grows_by s h stg ((λ b, [b]) <$> pending) runs runs' stg' rs rs'.
Proof using.
  intros Hb Hok Hh Hr Hlen. unfold Insert.flush. destruct pending as [|b pending]; cbn [nonemptyb].
  - exists [], stg, runs. split; [done|]. split_and!; [by rewrite app_nil_r|done|done|apply grew_none|by apply placed_none].
  - by apply stretch_placed.
Qed.

(** The coalescing walk never refuses: each value, in order, at the next position. *)
Lemma place_values_ok s rs (stg : Staging) h values pending runs :
  on_base s rs stg → core_ok (view stg) → is_registered_document (sl_namespace (view stg)) h = true → runs_ok runs →
  usize_len (length pending + length values) →
  ∃ rs' stg' runs', Insert.place_values h values pending runs stg = Done (Ok runs', stg') ∧
    grows_by s h stg (((λ b, [b]) <$> pending) ++ values) runs runs' stg' rs rs'.
Proof using.
  revert stg rs pending runs. induction values as [|value values IH]; intros stg rs pending runs Hb Hok Hh Hr Hlen.
  { rewrite app_nil_r. apply flush_ok; [done..|]. unfold usize_len in *. cbn in *. lia. }
  assert (Hpend : ∀ b, value = [b] → ∃ rs' stg' runs',
    Insert.place_values h ([b] :: values) pending runs stg = Done (Ok runs', stg') ∧
    grows_by s h stg (((λ b, [b]) <$> pending) ++ [b] :: values) runs runs' stg' rs rs').
  { intros b _. destruct (IH stg rs (pending ++ [b]) runs) as (rs' & stg' & runs' & E & H); try done.
    - rewrite length_app. unfold usize_len in *. cbn in *. lia.
    - exists rs', stg', runs'. split; [exact E|]. rewrite fmap_app in H. by rewrite <- app_assoc in H. }
  assert (Hatom : (∀ b, value ≠ [b]) → ∃ rs' stg' runs',
    Insert.place_values h (value :: values) pending runs stg = Done (Ok runs', stg') ∧
    grows_by s h stg (((λ b, [b]) <$> pending) ++ value :: values) runs runs' stg' rs rs').
  { intros Hne. destruct (flush_ok s rs stg h pending runs) as (rs1 & stg1 & runs1 & E1 & H1); try done.
    { unfold usize_len in *. cbn in *. lia. }
    pose proof H1 as (Hb1 & _ & Hok1 & G1 & Hr1 & _).
    destruct (atom_placed Insert.Mint Insert.ContentRefused s _ stg1 h value runs1 Hb1 Hok1) as (rs2 & stg2 & runs2 & E2 & H2);
      [by rewrite (g_docs _ _ _ _ G1)|done|].
    pose proof H2 as (Hb2 & _ & Hok2 & G2 & Hr2 & _).
    destruct (IH stg2 ((rs ++ rs1) ++ rs2) [] runs2) as (rs3 & stg3 & runs3 & E3 & H3); try done.
    { by rewrite (g_docs _ _ _ _ G2), (g_docs _ _ _ _ G1). }
    { unfold usize_len in *. cbn in *. lia. }
    exists (rs1 ++ rs2 ++ rs3), stg3, runs3. split.
    - assert (Hcase : Insert.place_values h (value :: values) pending runs =
        (runs ←ₜ Insert.flush h pending runs;
         runs ←ₜ allocate_for_placement Insert.Mint Insert.ContentRefused h value runs;
         Insert.place_values h values [] runs)%txn).
      { destruct value as [|b [|b' value]]; [done|by destruct (Hne b)|done]. }
      rewrite Hcase. unfold txn_bind. rewrite E1. cbn [mbind outcome_bind]. rewrite E2. cbn [mbind outcome_bind]. exact E3.
    - eapply grows_by_trans; [exact H1|]. change (value :: values) with ([value] ++ values).
      eapply grows_by_trans; [exact H2|]. exact H3. }
  destruct value as [|b [|b' value]]; [by apply Hatom|by apply Hpend|by apply Hatom].
Qed.
End Mint.

(** ** Where an insert lands *)

Definition lands (m3 : M3State) (doc : Address) : Address :=
  if published_target m3 doc then
    match trunk_head m3 doc with Done (Some v) => v | _ => trunk_of doc end
  else doc.

Lemma deposit_lands m3 doc : deposit_surface m3 doc = Done (lands m3 doc).
Proof.
  unfold deposit_surface, lands. destruct (published_target m3 doc); cbn [negb]; [|done].
  pose proof (trunk_head_ok m3 doc) as H. by destruct (trunk_head m3 doc) as [[v|]|].
Qed.

Lemma lands_registered m3 doc :
  m3_ok m3 → is_registered_document m3 doc = true → is_registered_document m3 (lands m3 doc) = true.
Proof.
  intros Hok Hd. destruct (surfaces_ok m3 doc Hok Hd) as (hd & r & d & _ & _ & E & _ & _ & _ & Hr & _).
  rewrite deposit_lands in E. by injection E as ->.
Qed.

(** The one insert a published document admits. *)
Definition declared_deposit (s : Slices) (doc : Address) (at_ : VPos) (deposit : Deposit) : Prop :=
  ∃ ty, deposit = Declared ty ∧ ty ∈ deposit_class_types ∧ vp_subspace at_ = content_subspace ∧
    (count (contents s (lands (sl_namespace s) doc)) < vp_ordinal at_)%N.

Definition insert_gates (s : Slices) (caller : Caller) (doc : Address) (at_ : VPos)
    (values : list (list Byte.byte)) (deposit : Deposit) (as_of : AsOf) : list (Insert.InsertError * Prop) :=
  let surface := lands (sl_namespace s) doc in
  (Insert.DocNotRegistered, is_registered_document (sl_namespace s) doc = false) ::
  (Insert.NotOwner doc, ¬ owns (sl_namespace s) caller doc) ::
  (Insert.PublishedTarget,
    published_target (sl_namespace s) doc = true ∧ ¬ declared_deposit s doc at_ deposit) ::
  moved_gates Insert.ArrangementMoved (sl_arrangement s) surface as_of ++
  [ (Insert.EmptyContent, values = []);
    (Insert.NotContentSubspace, vp_subspace at_ ≠ content_subspace);
    (Insert.OutOfBounds, ¬ (1 ≤ vp_ordinal at_ ≤ count (contents s surface) + 1)%N) ].

(** What the values became. *)
Record inserted (s s' : Slices) (doc : Address) (values : list (list Byte.byte)) (l : list Address) : Prop := {
  in_length : length l = length values;
  in_slots : ∀ i a, l !! i = Some a →
    content_at doc (effective_frontier (sl_namespace s) (content_ns doc) + 1 + N.of_nat i) (tumbler a);
  in_fresh : ∀ a, a ∈ l → is_allocated (sl_namespace s) a = false;
  in_frontier : effective_frontier (sl_namespace s') (content_ns doc) =
    (effective_frontier (sl_namespace s) (content_ns doc) + N.of_nat (length values))%N;
  in_stores : ∀ t v, stores (sl_content s') t v ↔ stores (sl_content s) t v ∨
    ∃ i a, l !! i = Some a ∧ values !! i = Some v ∧ t = tumbler a;
  in_publication : publication (sl_namespace s') = publication (sl_namespace s);
  in_principals : principals (sl_namespace s') = principals (sl_namespace s);
  in_docs : ∀ d, is_registered_document (sl_namespace s') d = is_registered_document (sl_namespace s) d
}.

Lemma content_at_fresh ns doc i a :
  level doc = Document → content_at doc (effective_frontier ns (content_ns doc) + 1 + i) (tumbler a) →
  is_allocated ns a = false.
Proof.
  intros Hl Ha. apply not_true_iff_false. pose proof (content_at_position doc _ a Hl Ha) as [n Hp].
  apply element_field_level in Hp. rewrite is_allocated_chain by congruence.
  assert (Hk : namespace_of a = Some (content_ns doc)).
  { eapply namespace_of_nth. apply nth_in_Ok. split_and!; [| |rewrite content_ns_slot; exact Ha]; [lia|].
    apply content_ns_ok. congruence. }
  rewrite (is_chain_member_effective _ _ _ Hk). intros [_ H].
  assert (Ho : ordinal (tumbler a) = (effective_frontier ns (content_ns doc) + 1 + i)%N).
  { apply (ordinal_app _ (comps (tumbler doc) ++ [0%N; 1%N])). rewrite Ha. by rewrite <- app_assoc. }
  lia.
Qed.

Lemma grew_inserted s w doc values l :
  is_registered_document (sl_namespace s) doc = true → grew doc s w values → length l = length values →
  (∀ i a, l !! i = Some a →
    content_at doc (effective_frontier (sl_namespace s) (content_ns doc) + 1 + N.of_nat i) (tumbler a)) →
  inserted s w doc values l.
Proof.
  intros [Hl _]%is_registered_document_ok [F _ A P Q G D S] Hlen Hslots. split; try done.
  - intros a [i Hi]%list_elem_of_lookup. by eapply content_at_fresh, Hslots.
  - intros t v. rewrite S. split; (intros [?|H]; [by left|right]).
    + destruct H as (i & Hi & Ht). destruct (lookup_lt_is_Some_2 l i) as [a Ha].
      { rewrite Hlen. by apply lookup_lt_Some in Hi. }
      exists i, a. split_and!; [done|done|]. eapply content_at_inj; [exact Ht|by apply Hslots].
    + destruct H as (i & a & Ha & Hi & ->). exists i. split; [done|]. by apply Hslots.
Qed.

Lemma inserted_same s w s' doc values l :
  inserted s w doc values l → effective_frontier (sl_namespace s') = effective_frontier (sl_namespace w) →
  sl_content s' = sl_content w → publication (sl_namespace s') = publication (sl_namespace w) →
  principals (sl_namespace s') = principals (sl_namespace w) →
  (∀ d, is_registered_document (sl_namespace s') d = is_registered_document (sl_namespace w) d) →
  inserted s s' doc values l.
Proof.
  intros [H1 H2 H3 H4 H5 H6 H7 H8] E1 E2 E3 E4 E5. split; try done.
  - by rewrite E1.
  - intros t v. by rewrite E2.
  - congruence.
  - congruence.
  - intros d. by rewrite E5.
Qed.

Section Insert.
Context {debug : bool} {W R Bytes : Type} `{WS : WorldState W R} `{HS : !HasSlices debug W R}.
Context (encode_record : R → Bytes).
#[local] Notation Kernel := (Kernel (W := W) (Bytes := Bytes)).
#[local] Notation Staging := (Staging (W := W) (R := R)).
#[local] Notation Txn := (Txn (W := W) (R := R)).

Lemma allocate_closure {E} (om : MintError → E) oc h v runs : closure (allocate_for_placement om oc h v runs : Txn E _).
Proof using. unfold allocate_for_placement. closes. Qed.

Lemma allocate_stretch_closure {E} (om : MintError → E) oc h bs runs :
  closure (allocate_stretch_for_placement om oc h bs runs : Txn E _).
Proof using. unfold allocate_stretch_for_placement. closes. Qed.

Lemma flush_closure h pending runs : closure (Insert.flush h pending runs : Txn _ _).
Proof using. unfold Insert.flush. closes. apply allocate_stretch_closure. Qed.

Lemma place_values_closure h values pending runs : closure (Insert.place_values h values pending runs : Txn _ _).
Proof using.
  revert pending runs. induction values as [|value values IH]; intros pending runs; cbn [Insert.place_values];
    [apply flush_closure|].
  assert (Hatom : closure (txn_bind (Insert.flush h pending runs) (λ runs,
    txn_bind (allocate_for_placement Insert.Mint Insert.ContentRefused h value runs)
      (λ runs, Insert.place_values h values [] runs)) : Txn _ _)).
  { closes; [apply flush_closure|apply allocate_closure|apply IH]. }
  destruct value as [|b [|b' value]]; [exact Hatom|apply IH|exact Hatom].
Qed.

Lemma insert_closure caller doc at_ values deposit as_of :
  closure (Insert.insert_in caller doc at_ values deposit as_of : Txn _ _).
Proof using. unfold Insert.insert_in, Insert.insert_surface. closes. apply place_values_closure. Qed.

Lemma insert_surface_ok s doc at_ deposit (w : W) (stg : Staging) :
  slices w = s →
  txn_spec (Insert.insert_surface w doc at_ deposit) stg
    [(Insert.PublishedTarget, published_target (sl_namespace s) doc = true ∧ ¬ declared_deposit s doc at_ deposit)]
    (λ a stg', stg' = stg ∧ a = lands (sl_namespace s) doc).
Proof using.
  intros Hw. unfold Insert.insert_surface, declared_deposit. change (m3 w) with (sl_namespace (slices w)).
  change (m5 w) with (sl_arrangement (slices w)). rewrite Hw.
  destruct (published_target (sl_namespace s) doc) eqn:Hp; cbn [negb].
  2: { split; [repeat constructor; by intros [? _]|]. unfold lands. by rewrite Hp. }
  destruct deposit as [|ty].
  { apply first_refusal_here. split; [done|]. by intros (? & ? & _). }
  assert (Hin : existsb (λ x, bool_decide (x = ty)) deposit_class_types = true ↔ ty ∈ deposit_class_types).
  { rewrite existsb_exists. setoid_rewrite bool_decide_eq_true. setoid_rewrite <- list_elem_of_In. naive_solver. }
  destruct (existsb _ _); cbn [negb].
  2: { apply first_refusal_here. split; [done|]. intros (? & [= <-] & Ht & _). by apply Hin in Ht. }
  eapply spec_outcome; [apply deposit_lands|].
  assert (Hf : names_fresh_content_position (sl_arrangement s) (lands (sl_namespace s) doc) at_ = true ↔
    vp_subspace at_ = content_subspace ∧ (count (contents s (lands (sl_namespace s) doc)) < vp_ordinal at_)%N).
  { unfold names_fresh_content_position, VPos_is_content.
    by rewrite andb_true_iff, N.eqb_eq, content_count_ok, N.ltb_lt. }
  assert (Hdec : declared_deposit s doc at_ (Declared ty) ↔
    names_fresh_content_position (sl_arrangement s) (lands (sl_namespace s) doc) at_ = true).
  { rewrite Hf. unfold declared_deposit. split; [naive_solver|]. intros [? ?]. exists ty. by rewrite <- Hin. }
  apply spec_refuse; [|intros _; by split].
  fold (declared_deposit s doc at_ (Declared ty)). rewrite Hdec.
  destruct (names_fresh_content_position _ _ _); cbn; naive_solver.
Qed.

(** What the body stages. *)
Definition insert_staged (s : Slices) (doc : Address) (at_ : VPos) (values : list (list Byte.byte))
    (first : Address) (rs : list CoreRec) (u : Slices) : Prop :=
  ∃ rs0 r l, rs = rs0 ++ [RecArrangement r] ∧ Forall quiet rs0 ∧ places (lands (sl_namespace s) doc) (vp_ordinal at_) l r ∧
    head l = Some first ∧ inserted s u doc values l.

Lemma insert_spec s caller doc at_ values deposit as_of (stg : Staging) :
  on_base s [] stg → view stg = s → core_ok s → usize_len (length values) →
  txn_spec (Insert.insert_in caller doc at_ values deposit as_of) stg (insert_gates s caller doc at_ values deposit as_of)
    (λ v stg', ∃ rs, on_base s rs stg' ∧ core_ok (view stg') ∧ insert_staged s doc at_ values v rs (view stg')).
Proof using.
  intros Hb <- Hok Hlen. unfold Insert.insert_in, insert_gates. cbv zeta. apply spec_working.
  apply spec_gate_write. intros Hd _.
  apply (spec_seq _ _ stg [_]). eapply spec_conseq; [by apply (insert_surface_ok (view stg))|]. cbv beta.
  intros ? stg' (-> & ->). apply spec_moved. intros _.
  change (m5 (working stg)) with (sl_arrangement (view stg)). remember (view stg) as s eqn:Hv. symmetry in Hv.
  apply spec_refuse; [by destruct values|]. intros Hne%negb_false_iff.
  apply spec_refuse; [unfold VPos_is_content; rewrite negb_true_iff; apply N.eqb_neq|]. intros _.
  apply spec_refuse; [by rewrite negb_true_iff, <- not_true_iff_false, boundary_ok|]. intros _.
  destruct (place_values_ok s [] stg doc values [] []) as (rs & stg1 & runs & E & Hb1 & Hq & Hok1 & Hg & Hr & l & Hf & Hl & Hslots);
    [done|by rewrite Hv|by rewrite Hv|apply runs_ok_nil|done|].
  rewrite Hv in Hg, Hslots. cbn [fmap list_fmap app length] in Hg, Hl. rewrite flat_nil in Hf. cbn [app] in Hf.
  eapply spec_bind; [exact E|].
  pose proof (grew_inserted s (view stg1) doc values l Hd Hg Hl Hslots) as Hins.
  assert (∃ run runs', runs = run :: runs' ∧ head l = Some (i_start run)) as (run & runs' & -> & Hhd).
  { destruct runs as [|run runs']; [rewrite flat_nil in Hf; subst l; by destruct values|].
    exists run, runs'. split; [done|]. apply runs_ok_cons in Hr as [Hrun _]. rewrite <- Hf, head_lookup. by apply flat_head. }
  eapply spec_outcome; [reflexivity|].
  set (surface := lands (sl_namespace s) doc).
  apply (spec_stage_mid s rs stg1 (RecArrangement (ContentPlace surface (vp_ordinal at_) (run :: runs')))
    (λ w, core_ok w ∧ sl_namespace w = sl_namespace (view stg1) ∧ sl_content w = sl_content (view stg1))); [done|..].
  - intros at1. destruct (arrangement_push (debug := debug) (view stg1) at1 (ContentPlace surface (vp_ordinal at_) (run :: runs')) Hok1 Hr I)
      as (s2 & ? & ? & ? & ? & _); [|by exists s2].
    intros d a. cbn [placed_by]. case_decide as Ed; [subst d|by intros ?%not_elem_of_nil]. rewrite Hf.
    intros [i Hi]%list_elem_of_lookup. split; [|split].
    + rewrite (g_docs _ _ _ _ Hg). apply lands_registered; [apply Hok|done].
    + apply is_registered_document_ok in Hd as [Hlv _]. by eapply content_at_position, Hslots.
    + destruct (lookup_lt_is_Some_2 values i) as [v Hvi]; [rewrite <- Hl; by eapply lookup_lt_Some|].
      exists v. apply (g_stores _ _ _ _ Hg). right. exists i. split; [done|]. by apply Hslots.
  - intros stg2 Hb2 (Hok2 & E1 & E2). apply spec_ret. eexists. split; [exact Hb2|]. split; [done|].
    eexists rs, _, l. split_and!; [done|done|by eexists|done|].
    apply (inserted_same s (view stg1)); [done|by rewrite E1|done|by rewrite E1|by rewrite E1|intros ?; by rewrite E1].
Qed.
End Insert.

(** ** The whole call *)

Lemma fold_quiet debug s at_ rs s1 :
  fold_slices (debug := debug) s at_ rs = Done s1 → Forall quiet rs → sl_arrangement s1 = sl_arrangement s.
Proof.
  unfold fold_slices. revert s. induction rs as [|r rs IH]; intros s Hf Hq; [by injection Hf as <-|].
  apply Forall_cons in Hq as [Hr Hq]. rewrite fold_world_cons in Hf. apply bind_inv in Hf as (s2 & Ha & Hf).
  rewrite (IH s2 Hf Hq). change (apply_slices debug s at_ r = Done s2) in Ha.
  destruct r; cbn [apply_slices] in Ha; [| | |done].
  - by apply bind_inv in Ha as (n & _ & [= <-]).
  - by apply bind_inv in Ha as (c & _ & [= <-]).
  - apply bind_inv in Ha as (b & _ & Ha). apply bind_inv in Ha as (? & _ & Ha). by apply bind_inv in Ha as (c & _ & [= <-]).
Qed.

(** Records that move no arrangement, then one that does. *)
Lemma fold_quiet_then debug s at_ rs r s' :
  fold_slices (debug := debug) s at_ (rs ++ [RecArrangement r]) = Done s' → Forall quiet rs →
  apply_m5 (sl_arrangement s) at_ r = Done (sl_arrangement s').
Proof.
  unfold fold_slices. rewrite fold_world_app. intros (s1 & H1 & H2)%bind_inv Hq.
  rewrite <- (fold_quiet debug s at_ rs s1 H1 Hq). apply fold_one_arrangement in H2 as (arr & Ha & ->). exact Ha.
Qed.

(** What the records leave, sealed at the call's own coordinate. *)
Lemma insert_folded debug s s' u p doc at_ values first rs :
  core_ok s → insert_staged s doc at_ values first rs u → same_slices u s' →
  fold_slices (debug := debug) s p rs = Done s' →
  ∃ l, head l = Some first ∧ inserted s s' doc values l ∧
    edited (sl_arrangement s) (sl_arrangement s') p (lands (sl_namespace s) doc)
      (insert_at (vp_ordinal at_) l (contents s (lands (sl_namespace s) doc))).
Proof.
  intros Hok (rs0 & r & l & -> & Hq & Hr & Hhd & Hins) Hsame Hf. exists l. split; [done|]. split.
  - destruct (same_ns _ _ Hsame) as (Hfr & _ & Hd). destruct Hsame as [E1 E2 E3 E4 E5 E6 _ _ _ _ _ _].
    destruct Hins as [H1 H2 H3 H4 H5 H6 H7 H8]. split; try done.
    + by rewrite Hfr.
    + intros t v. by rewrite E6.
    + congruence.
    + congruence.
    + intros d. by rewrite Hd.
  - apply (fold_quiet_then debug s p rs0 r) in Hf; [|done].
    destruct (places_edit s _ _ _ _ Hr) as (Hro & Hed & E). rewrite <- E. by apply apply_edit; [apply Hok|..].
Qed.

(** C5. INSERT from a sound root never panics, leaves a sound one, and refuses by its
    pinned order: registration, ownership, a published target (but for a declared
    deposit of the class at a fresh position of the chain's head), a stale edit, no
    values, the subspace, the position; no mint and no store refusal ever reaches the
    caller. Acknowledged, the i-th value holds the document's i-th next content
    position, unallocated before; every stored value stands and nothing else is
    stored; the arrangement the insert lands in holds the new positions in order at
    the asked ordinal, moved at the call's own coordinate; no other arrangement moved;
    and the answer is the first new position. *)
Theorem insert_exact {debug : bool} {W R Bytes : Type} `{WS : WorldState W R} `{HS : !HasSlices debug W R}
    (encode_record : R → Bytes) (k : Kernel (W := W) (Bytes := Bytes)) (answer : CommitAnswer)
    (caller : Caller) (doc : Address) (at_ : VPos) (values : list (list Byte.byte)) (deposit : Deposit) (as_of : AsOf) :
  let s := root_slices k in
  core_ok s → usize_len (length values) →
  ∃ k' e, insert encode_record k answer caller doc at_ values deposit as_of = Done (k', e) ∧ core_ok (root_slices k') ∧
    answers k k' e (insert_gates s caller doc at_ values deposit as_of) (λ first p,
      ∃ l, head l = Some first ∧ inserted s (root_slices k') doc values l ∧
        let surface := lands (sl_namespace s) doc in
        edited (sl_arrangement s) (sl_arrangement (root_slices k')) p surface
          (insert_at (vp_ordinal at_) l (contents s surface))).
Proof.
  intros s Hok Hlen.
  destruct (core_call encode_record k answer (Insert.insert_in caller doc at_ values deposit as_of)
    (insert_gates s caller doc at_ values deposit as_of) (insert_staged s doc at_ values))
    as (k' & e & Ht & Hok' & H);
    [apply insert_closure|exact Hok|intros stg Hb Hv; by apply insert_spec|].
  exists k', e. split; [exact Ht|]. split; [exact Hok'|]. destruct e as [[[first p]|[er| | | |]]|]; try done.
  destruct H as (Hg & rs & u & Hst & Hsame & Hf). split; [exact Hg|]. by eapply insert_folded.
Qed.
