(* ===== verification/PublishGates.v ===== *)
(** * What a shot's admission judges

    The admission of [PublishOp.v] as an ordered list of gates, each with the
    condition that refuses it: registration and ownership, the base's, the drafts' and
    the origins' registration, the publication, the base's shape, and the source gate.
    Then the renaming a shot makes, [remint]: which positions are its drafts', in the
    order it meets them, and where each lands. *)

From stdpp Require Import gmap.
From S2P Require Import Prelude Txns Tumblers Addresses AddrMaps Arith Spans NsKeys NsState NsLaws NsOps NsInv NsCalls NsReach Runs Content RunLists RunUnions VSpace Provenance Chain ArrState ArrReads World Edits EditInv Shots Minted PublishOp EditSteps EditCalls CopyCalls InsertCalls.

#[local] Arguments published_target : simpl never.
#[local] Arguments content_list : simpl never.
#[local] Arguments trunk_of : simpl never.
#[local] Arguments effective_frontier : simpl never.
#[local] Arguments N.add : simpl never.

Lemma gate_write_judged {E} (s : M3State) caller doc (nr : E) no :
  judged (gate_write s caller doc nr no) [(nr, is_registered_document s doc = false); (no doc, ¬ owns s caller doc)]
    (λ _, is_registered_document s doc = true).
Proof.
  unfold gate_write. apply judged_gate; [by rewrite negb_true_iff|]. intros Hd%negb_false_iff.
  apply judged_gate; [by rewrite negb_true_iff, <- is_owner_ok, not_true_iff_false|]. intros _. by apply judged_ok.
Qed.

(** ** The admission's gates *)

Import Publish.

Section Gates.
Context (s : Slices) (caller : Caller) (doc : Address) (shot : Shot) (readable : Address → bool).
#[local] Notation ns := (sl_namespace s).

Definition draft_gates (drafts : list Address) : list (PublishError * Prop) :=
  drafts ≫= λ d, [(SourceNotRegistered, is_registered_document ns d = false); (NotOwner d, ¬ owns ns caller d)].

Definition run_gates (runs : list ShotRun) : list (PublishError * Prop) :=
  runs ≫= λ r, [ (BadRun, run_origin_document (sr_run r) ≠ Some (trunk_of (sr_origin r)));
                 (SourceNotRegistered, is_registered_document ns (trunk_of (sr_origin r)) = false) ].

Definition settle_gates : list (PublishError * Prop) :=
  (SourceNotRegistered, ∃ b, sh_base shot = Some b ∧ is_registered_document ns (ba_member b) = false) ::
  draft_gates (named_drafts shot) ++ run_gates (sh_runs shot).

(** What the base already arranges. *)
Definition arranged_by_base (r : Run) : Prop :=
  ∃ b, sh_base shot = Some b ∧ ∀ a, a ∈ addrs r → a ∈ contents s (ba_member b).

Definition source_gates (trunk : option Address) (runs : list ShotRun) : list (PublishError * Prop) :=
  (λ r, (Withheld (trunk_of (sr_origin r)),
         trunk ≠ Some (trunk_of (sr_origin r)) ∧ ¬ arranged_by_base (sr_run r) ∧ readable (trunk_of (sr_origin r)) = false))
    <$> runs.

(** The head of the chain, and the member the shot is minted under. *)
Definition chain_head : option Address := match trunk_head ns doc with Done h => h | Panicked => None end.

Definition anchor : Address :=
  match sh_base shot with
  | None => trunk_of doc
  | Some b =>
      if decide (ba_member b = trunk_of doc) then
        match birth_version ns doc with Done (Some v) => v | _ => trunk_of doc end
      else if decide (chain_head = Some (ba_member b)) then trunk_of doc
      else ba_member b
  end.

Definition base_shape_gates : list (PublishError * Prop) :=
  match sh_base shot with
  | None => [(BaseSuperseded, is_Some chain_head)]
  | Some b => [ (BaseNotInChain, ba_member b ≠ trunk_of doc ∧ trunk_of (ba_member b) ≠ trunk_of doc);
                (BaseExtentTooLarge, (count (contents s (ba_member b)) < ba_extent b)%N) ]
  end.

Definition admission_gates : list (PublishError * Prop) :=
  (DocNotRegistered, is_registered_document ns doc = false) ::
  (NotOwner doc, ¬ owns ns caller doc) ::
  settle_gates ++
  (PrivateSourceVersionless, published_target ns doc = false) ::
  base_shape_gates ++ source_gates (Some (trunk_of doc)) (sh_runs shot).

(** What is settled of a run. *)
Definition settled (r : ShotRun) : SettledRun := MkSettledRun (sr_run r) (trunk_of (sr_origin r)).

Definition origins_stated (runs : list ShotRun) : Prop :=
  Forall (λ r, run_origin_document (sr_run r) = Some (trunk_of (sr_origin r)) ∧
    is_registered_document ns (trunk_of (sr_origin r)) = true) runs.
End Gates.

Section Admission.
Context (s : Slices) (caller : Caller) (doc : Address) (shot : Shot).
#[local] Notation ns := (sl_namespace s).

Lemma settle_drafts_ok drafts :
  judged (settle_drafts ns caller drafts) (draft_gates s caller drafts) (λ _, True).
Proof using.
  induction drafts as [|d drafts IH]; [by apply judged_ok|]. cbn [settle_drafts].
  unfold draft_gates. rewrite bind_cons. fold (draft_gates s caller drafts). cbn [app].
  apply judged_gate; [by rewrite negb_true_iff|]. intros _.
  apply judged_gate; [by rewrite negb_true_iff, <- is_owner_ok, not_true_iff_false|]. intros _. exact IH.
Qed.

Lemma settle_run_ok r :
  judged (settle_run ns r)
    [ (BadRun, run_origin_document (sr_run r) ≠ Some (trunk_of (sr_origin r)));
      (SourceNotRegistered, is_registered_document ns (trunk_of (sr_origin r)) = false) ]
    (λ st, st = settled r ∧ origins_stated s [r]).
Proof using.
  unfold settle_run. destruct (run_origin_document (sr_run r)) as [d|] eqn:Ho.
  2: { by apply first_refusal_here. }
  destruct (decide (d = trunk_of (sr_origin r))) as [->|Hne].
  - rewrite bool_decide_eq_true_2 by done. cbn [negb].
    apply (judged_gate false); [split; [done|congruence]|]. intros _.
    destruct (is_registered_document ns (trunk_of (sr_origin r))) eqn:Hr; cbn [negb].
    + apply (judged_gate false); [split; congruence|]. intros _. apply judged_ok. split; [done|]. by repeat constructor.
    + by apply first_refusal_here.
  - rewrite bool_decide_eq_false_2 by done. apply first_refusal_here. congruence.
Qed.

Lemma settle_each_ok runs :
  judged (settle_each ns runs) (run_gates s runs) (λ l, l = settled <$> runs ∧ origins_stated s runs).
Proof using.
  induction runs as [|r runs IH]; [apply judged_ok; by repeat constructor|].
  cbn [settle_each]. unfold run_gates. rewrite bind_cons. fold (run_gates s runs). eapply judged_seq; [apply settle_run_ok|].
  intros _ [-> Hr]. rewrite <- (app_nil_r (run_gates s runs)). eapply judged_seq; [exact IH|].
  intros l [-> Hl]. apply judged_ok. split; [done|]. apply Forall_cons in Hr as [Hr _]. by constructor.
Qed.

Lemma settle_runs_ok :
  judged (settle_runs ns caller shot) (settle_gates s caller shot)
    (λ l, l = settled <$> sh_runs shot ∧ origins_stated s (sh_runs shot)).
Proof using.
  unfold settle_runs, settle_gates. apply judged_gate.
  - destruct (sh_base shot) as [b|]; [|split; [done|by intros (? & ? & _)]]. rewrite negb_true_iff. naive_solver.
  - intros _. eapply judged_seq; [apply settle_drafts_ok|]. intros _ _. apply settle_each_ok.
Qed.

Lemma chain_head_ok : trunk_head ns doc = Done (chain_head s doc).
Proof using. unfold chain_head. pose proof (trunk_head_ok ns doc). by destruct (trunk_head ns doc). Qed.

Context {debug : bool} {W R : Type} `{WS : WorldState W R} `{HS : !HasSlices debug W R}.
Context (w : W) (Hw : slices w = s) (Hok : core_ok s).

Lemma anchor_of_ok :
  level doc = Document →
  ∃ r, anchor_of w doc (trunk_of doc) (chain_head s doc) (sh_base shot) = Done r ∧
    judged r (base_shape_gates s doc shot) (λ a, a = anchor s doc shot).
Proof using Hw HS.
  intros Hl. unfold anchor_of, anchor, base_shape_gates. change (m5 w) with (sl_arrangement (slices w)).
  change (m3 w) with (sl_namespace (slices w)). rewrite Hw.
  destruct (sh_base shot) as [b|].
  - rewrite content_count_ok. change (vmap (content_list (sl_arrangement s) (ba_member b))) with (contents s (ba_member b)).
    assert (Hgoal : ∃ r, (if bool_decide (ba_member b = trunk_of doc)
        then birth ← birth_version ns doc; Done (Ok (default (trunk_of doc) birth))
        else if bool_decide (chain_head s doc = Some (ba_member b)) then Done (Ok (trunk_of doc)) else Done (Ok (ba_member b)))
      = Done r ∧ judged (E := PublishError) r [] (λ a, a =
        if decide (ba_member b = trunk_of doc) then match birth_version ns doc with Done (Some v) => v | _ => trunk_of doc end
        else if decide (chain_head s doc = Some (ba_member b)) then trunk_of doc else ba_member b)).
    { pose proof (birth_version_ok ns doc Hl) as Hb. case_bool_decide.
      - rewrite decide_True by done. destruct (birth_version ns doc) as [[v|]|]; [..|done]; eexists; (split; [done|]); by apply judged_ok.
      - rewrite decide_False by done. case_bool_decide; case_decide; try done; eexists; (split; [done|]); by apply judged_ok. }
    destruct Hgoal as (r & -> & Hr).
    destruct (bool_decide (ba_member b = trunk_of doc)) eqn:E1, (bool_decide (trunk_of (ba_member b) = trunk_of doc)) eqn:E2;
      cbn [negb andb]; try apply bool_decide_eq_true in E1; try apply bool_decide_eq_true in E2;
      try apply bool_decide_eq_false in E1; try apply bool_decide_eq_false in E2.
    4: { eexists. split; [done|]. by apply first_refusal_here. }
    all: destruct (N.ltb_spec (count (contents s (ba_member b))) (ba_extent b)) as [Hlt|Hge];
      [eexists; split; [done|]; apply (judged_gate false); [split; [done|by intros [? ?]]|]; intros _; by apply first_refusal_here|].
    all: exists r; split; [done|]; apply (judged_gate false); [split; [done|by intros [? ?]]|]; intros _;
      apply (judged_gate false); [split; [done|lia]|]; intros _; exact Hr.
  - eexists. split; [done|]. destruct (chain_head s doc) as [v|].
    + apply first_refusal_here. by eexists.
    + apply (judged_gate false); [split; [done|by intros [? ?]]|]. intros _. by apply judged_ok.
Qed.

Lemma covers_union l run : runs_ok l → run_ok run → covers (union_of l) run = true ↔ ∀ a, a ∈ addrs run → a ∈ flat l.
Proof using.
  intros Hl Hr. pose proof (RunUnion_of_ok _ _ Hl (union_of_sorted l)) as Hu. unfold union_of.
  destruct (RunUnion_of _) as [ps]. by apply covers_ok.
Qed.

Context (readable : W → Address → bool).

Lemma source_gate_loop_ok trunk runs (admitted : gset Address) :
  Forall (λ r, run_ok (sr_run r)) runs → (∀ d, d ∈ admitted → readable w d = true) →
  judged (source_gate_loop w trunk ((λ base, union_of (content_runs (m5 w) (ba_member base))) <$> sh_base shot)
      (settled <$> runs) admitted readable)
    (source_gates s shot (readable w) trunk runs) (λ _, True).
Proof using Hw Hok HS.
  intros Hr. revert admitted. induction Hr as [|r runs Hr Hrs IH]; intros admitted Had; [by apply judged_ok|].
  rewrite fmap_cons. cbn [source_gate_loop settled]. unfold source_gates. rewrite fmap_cons. fold (source_gates s shot (readable w) trunk runs).
  set (d := trunk_of (sr_origin r)).
  assert (Hskip : ∀ x, ¬ (trunk ≠ Some d ∧ ¬ arranged_by_base s shot (sr_run r) ∧ readable w d = false) →
    judged x (source_gates s shot (readable w) trunk runs) (λ _, True) →
    judged x ((Withheld d, trunk ≠ Some d ∧ ¬ arranged_by_base s shot (sr_run r) ∧ readable w d = false)
      :: source_gates s shot (readable w) trunk runs) (λ _ : unit, True)).
  { intros x Hn Hx. apply (judged_gate false); [by split|]. by intros _. }
  case_bool_decide as Ht; cbn [orb]; [apply Hskip; [by intros (? & _)|by apply IH]|].
  case_bool_decide as Ha; [apply Hskip; [intros (_ & _ & ?); pose proof (Had d Ha); congruence|by apply IH]|].
  assert (Hcar : match (λ base, union_of (content_runs (m5 w) (ba_member base))) <$> sh_base shot with
    | Some u => covers u (sr_run r) | None => false end = true ↔ arranged_by_base s shot (sr_run r)).
  { unfold arranged_by_base. destruct (sh_base shot) as [b|]; cbn [fmap option_fmap option_map].
    - rewrite covers_union; [|apply lists_ok; rewrite <- Hw in Hok; apply Hok|done].
      change (m5 w) with (sl_arrangement (slices w)). rewrite Hw. split; [by exists b|]. by intros (? & [= <-] & ?).
    - split; [done|]. by intros (? & ? & _). }
  destruct (match _ <$> _ with Some u => _ | None => _ end).
  - apply Hskip; [intros (_ & Hn & _); apply Hn; by apply Hcar|by apply IH].
  - apply judged_gate.
    + rewrite negb_true_iff. split; [|by intros (_ & _ & ?)]. intros Hread. split_and!; [congruence| |done].
      intros Hc. by apply Hcar in Hc.
    + intros Hread%negb_false_iff. apply IH. intros d' [->%elem_of_singleton|Hd']%elem_of_union; [done|by apply Had].
Qed.

(** The admission, through the source gate. *)
Lemma admit_shot_ok :
  Forall (λ r, run_ok (sr_run r)) (sh_runs shot) →
  ∃ r, admit_shot w caller doc shot readable = Done r ∧
    judged r (admission_gates s caller doc shot (readable w))
      (λ ad, ad = MkAdmission (anchor s doc shot) (settled <$> sh_runs shot) ∧ origins_stated s (sh_runs shot)).
Proof using Hw Hok HS.
  intros Hr. unfold admit_shot, admission_gates. change (m3 w) with (sl_namespace (slices w)). rewrite Hw.
  eapply (judged_try _ _ [_; _]); [eexists; split; [done|apply gate_write_judged]|]. intros [] Hd.
  pose proof Hd as [Hl _]%is_registered_document_ok.
  eapply judged_try; [eexists; split; [done|apply settle_runs_ok]|]. intros _ [-> Hor].
  eapply (judged_try _ _ [_]).
  { eexists. split; [done|]. apply (judged_gate _ _ _ _ [] (λ _, True)); [by rewrite negb_true_iff|]. intros _. by apply judged_ok. }
  intros _ _. rewrite chain_head_ok. cbn [mbind outcome_bind].
  eapply judged_try; [by apply anchor_of_ok|]. intros _ ->. rewrite <- (app_nil_r (source_gates _ _ _ _ _)).
  eapply judged_try; [eexists; split; [done|by apply source_gate_loop_ok]|]. intros _ _.
  eexists. split; [done|]. by apply judged_ok.
Qed.

(** The form that mints its edition: the account in the document's place, no base, and
    no run exempt. *)
Definition mint_gates (account : Address) : list (PublishError * Prop) :=
  (DocNotRegistered, is_registered_account ns account = false) ::
  (NotOwner account, ¬ owns ns caller account) ::
  (BaseNotInChain, is_Some (sh_base shot)) ::
  settle_gates s caller shot ++ source_gates s shot (readable w) None (sh_runs shot).

Lemma mint_admission_ok account :
  Forall (λ r, run_ok (sr_run r)) (sh_runs shot) →
  judged (mint_admission w caller account shot readable) (mint_gates account) (λ _, True).
Proof using Hw Hok HS.
  intros Hr. unfold mint_admission, mint_gates. change (m3 w) with (sl_namespace (slices w)). rewrite Hw.
  apply judged_gate; [by rewrite negb_true_iff|]. intros _.
  apply judged_gate; [by rewrite negb_true_iff, <- is_owner_ok, not_true_iff_false|]. intros _.
  destruct (sh_base shot) as [b|] eqn:Eb.
  - by apply first_refusal_here.
  - apply (judged_gate false); [split; [done|by intros [? ?]]|]. intros _.
    eapply judged_seq; [apply settle_runs_ok|]. intros _ [-> _]. by apply source_gate_loop_ok.
Qed.
End Admission.
