(* ===== verification/PublishBody.v ===== *)
(** * The shot's placement

    What the placement of a shot leaves in a staging, position by position: the drafts'
    positions in the order the shot first meets them, each minted once and placed by
    reference after; the member's runs, which hold the stated positions under that
    renaming, then the base's tail; and the pairing, which tiles every draft's run with
    what each piece became. *)

From stdpp Require Import gmap.
From S2P Require Import Prelude Txns Tumblers Addresses AddrMaps Arith Spans NsKeys NsState NsLaws NsOps NsInv NsCalls NsReach Runs Content RunLists RunUnions VSpace Provenance Chain ArrState ArrReads World Edits EditInv Shots Minted PublishOp EditSteps EditCalls CopyCalls InsertCalls PublishGates.

#[local] Arguments published_target : simpl never.
#[local] Arguments content_list : simpl never.
#[local] Arguments trunk_of : simpl never.
#[local] Arguments extend_or_push_run : simpl never.
#[local] Arguments effective_frontier : simpl never.
#[local] Arguments N.add : simpl never.
#[local] Open Scope txn_scope.

Import Publish.

(** ** The positions a list names, each at its first occurrence *)

Definition firsts (l : list Address) : list Address :=
  foldl (λ acc a, if decide (a ∈ acc) then acc else acc ++ [a]) [] l.

Lemma firsts_snoc l a : firsts (l ++ [a]) = if decide (a ∈ firsts l) then firsts l else firsts l ++ [a].
Proof. unfold firsts. by rewrite foldl_app. Qed.

Lemma elem_of_firsts l a : a ∈ firsts l ↔ a ∈ l.
Proof.
  induction l as [|x l IH] using rev_ind; [done|]. rewrite firsts_snoc, elem_of_app, list_elem_of_singleton.
  case_decide as Hx; [|by rewrite elem_of_app, list_elem_of_singleton, IH]. rewrite IH. split; [by left|].
  intros [?| ->]; [done|]. by apply IH.
Qed.

Lemma firsts_NoDup l : NoDup (firsts l).
Proof.
  induction l as [|x l IH] using rev_ind; [constructor|]. rewrite firsts_snoc. case_decide; [done|].
  apply NoDup_app. split_and!; [done| |by apply NoDup_singleton]. intros y Hy ->%list_elem_of_singleton. done.
Qed.

Lemma firsts_app l k : ∃ m, firsts (l ++ k) = firsts l ++ m.
Proof.
  induction k as [|x k [m IH]] using rev_ind; [exists []; by rewrite !app_nil_r|].
  rewrite app_assoc, firsts_snoc, IH. case_decide; [by exists m|]. exists (m ++ [x]). by rewrite app_assoc.
Qed.

Lemma firsts_old l k : (∀ a, a ∈ k → a ∈ l) → firsts (l ++ k) = firsts l.
Proof.
  induction k as [|x k IH] using rev_ind; intros Hk; [by rewrite app_nil_r|].
  assert (Hk' : ∀ a, a ∈ k → a ∈ l) by (intros a Ha; apply Hk, elem_of_app; by left).
  rewrite app_assoc, firsts_snoc, IH by done. rewrite decide_True; [done|].
  apply elem_of_firsts, Hk, elem_of_app. right. by left.
Qed.

Lemma firsts_new l k : NoDup k → (∀ a, a ∈ k → a ∉ l) → firsts (l ++ k) = firsts l ++ k.
Proof.
  induction k as [|x k IH] using rev_ind; intros Hnd Hk; [by rewrite !app_nil_r|].
  apply NoDup_app in Hnd as (Hnd & Hdis & _).
  assert (Hk' : ∀ a, a ∈ k → a ∉ l) by (intros a Ha; apply Hk, elem_of_app; by left).
  rewrite app_assoc, firsts_snoc, IH by done. rewrite decide_False; [by rewrite app_assoc|].
  rewrite elem_of_app, elem_of_firsts. intros [?|?]; [apply (Hk x); [apply elem_of_app; right; by left|done]|].
  apply (Hdis x); [done|by left].
Qed.

Lemma firsts_length l : length (firsts l) = length (remove_dups l).
Proof.
  apply Permutation_length, NoDup_Permutation; [apply firsts_NoDup|apply NoDup_remove_dups|].
  intros a. by rewrite elem_of_firsts, elem_of_remove_dups.
Qed.

(** ** The renaming *)

(** A position of a named draft. *)
Definition native (shot : Shot) (a : Address) : bool :=
  match origin_of a with Some d => is_draft_native shot d | None => false end.

Definition natives (shot : Shot) (l : list Address) : list Address := firsts (filter (λ a, native shot a = true) l).

(** The shot's renaming: its drafts' positions, in the order it meets them, to the next
    positions of the trunk's own chain; every other to itself. *)
Record remint (s : Slices) (trunk : Address) (shot : Shot) (f : Address → Address) : Prop := {
  rm_native : ∀ i a, natives shot (stated (sh_runs shot)) !! i = Some a →
    content_at trunk (effective_frontier (sl_namespace s) (content_ns trunk) + 1 + N.of_nat i) (tumbler (f a));
  rm_other : ∀ a, native shot a = false → f a = a
}.

Lemma natives_app shot l k : ∃ m, natives shot (l ++ k) = natives shot l ++ m.
Proof. unfold natives. rewrite filter_app. apply firsts_app. Qed.

Lemma elem_of_natives shot l a : a ∈ natives shot l ↔ a ∈ l ∧ native shot a = true.
Proof. unfold natives. rewrite elem_of_firsts, list_elem_of_filter. tauto. Qed.

Lemma natives_foreign shot l k : (∀ a, a ∈ k → native shot a = false) → natives shot (l ++ k) = natives shot l.
Proof.
  intros Hk. unfold natives. rewrite filter_app. assert (filter (λ a, native shot a = true) k = []) as ->; [|by rewrite app_nil_r].
  (induction k as [|x k IH]; [done|]; rewrite filter_cons_False by (rewrite Hk by (by left); done); apply IH; intros a Ha; apply Hk; by right).
Qed.

Lemma filter_all shot (k : list Address) : (∀ a, a ∈ k → native shot a = true) → filter (λ a, native shot a = true) k = k.
Proof. intros Hk. by apply filter_id. Qed.

Lemma natives_old shot l k : (∀ a, a ∈ k → a ∈ natives shot l) → natives shot (l ++ k) = natives shot l.
Proof.
  intros Hk. unfold natives. rewrite filter_app. apply firsts_old. intros a [_ Ha]%list_elem_of_filter.
  by apply elem_of_firsts, Hk.
Qed.

Lemma natives_new shot l k :
  NoDup k → (∀ a, a ∈ k → native shot a = true ∧ a ∉ natives shot l) → natives shot (l ++ k) = natives shot l ++ k.
Proof.
  intros Hnd Hk. unfold natives. rewrite filter_app, (filter_all shot k) by (intros a Ha; by apply Hk).
  apply firsts_new; [done|]. intros a Ha Hin. destruct (Hk a Ha) as [_ Hn]. apply Hn. by apply elem_of_firsts.
Qed.

Lemma native_run shot r a : run_ok r → a ∈ addrs r →
  native shot a = match run_origin_document r with Some d => is_draft_native shot d | None => false end.
Proof. intros Hr Ha. unfold native. by rewrite (origin_addrs r a Hr Ha). Qed.

(** The renaming exists, and is one on what the shot states. *)
Lemma remint_exists s trunk shot :
  is_registered_document (sl_namespace s) trunk = true → ∃ f, remint s trunk shot f.
Proof.
  intros Ht. pose proof (gated_mint (sl_namespace s) (content_ns trunk) NO_PUBLICATION_STATE
    (is_registered_document (sl_namespace s) trunk) HomeNotRegistered (fam_content _ trunk)) as Hm.
  rewrite Ht in Hm. cbn [negb] in Hm. destruct (gated _) as [[[b r]|e]|]; [|by destruct Hm|done].
  destruct Hm as [_ (_ & Hn & _)]. apply nth_in_Ok in Hn as (_ & _ & Hs). rewrite content_ns_slot in Hs.
  set (order := natives shot (stated (sh_runs shot))).
  exists (λ a, match list_find (a =.) order with Some (i, _) => addr_shift b (N.of_nat i) | None => a end). split.
  - intros i a Hi. fold order in Hi. destruct (list_find (a =.) order) as [[j x]|] eqn:Ef.
    + apply list_find_Some in Ef as (Hj & <- & _).
      assert (i = j) as -> by (eapply NoDup_lookup; [apply firsts_NoDup|exact Hi|exact Hj]).
      rewrite addr_shift_tumbler. by apply content_at_shift.
    + eapply list_find_None in Ef. rewrite Forall_forall in Ef. exfalso. by apply (Ef a); [eapply list_elem_of_lookup_2|].
  - intros a Ha. destruct (list_find (a =.) order) as [[j x]|] eqn:Ef; [|done].
    apply list_find_Some in Ef as (Hj & <- & _). apply list_elem_of_lookup_2, elem_of_natives in Hj as [_ ?]. congruence.
Qed.

Lemma remint_unique s trunk shot f g :
  remint s trunk shot f → remint s trunk shot g → 
  f <$> stated (sh_runs shot) = g <$> stated (sh_runs shot).
Proof.
  intros [F1 F2] [G1 G2]. apply list_fmap_ext. intros i a Ha%list_elem_of_lookup_2.
  destruct (native shot a) eqn:Hn; [|by rewrite F2, G2].
  assert (a ∈ natives shot (stated (sh_runs shot))) as [j Hj]%list_elem_of_lookup by by apply elem_of_natives.
  apply Address_eq. eapply content_at_inj; [by apply F1|by apply G1].
Qed.

(** ** The re-insert of a piece *)

Lemma bind_nil {A B} (f : A → list B) : [] ≫= f = [].
Proof. done. Qed.

Definition part_vals (p : Part) : list (list Byte.byte) :=
  match p with PartRun bytes => (λ b, [b]) <$> bytes | PartAtom v => [v] end.

Definition part_ok (p : Part) : Prop := match p with PartRun bytes => bytes ≠ [] | PartAtom _ => True end.

Lemma flush_part_vals pending parts :
  flush_part pending parts ≫= part_vals = (parts ≫= part_vals) ++ ((λ b, [b]) <$> pending).
Proof.
  unfold flush_part. destruct pending as [|b pending]; cbn [nonemptyb]; [by rewrite app_nil_r|].
  by rewrite bind_app, bind_cons, bind_nil, app_nil_r.
Qed.

Lemma flush_part_ok pending parts : Forall part_ok parts → Forall part_ok (flush_part pending parts).
Proof.
  intros Hp. unfold flush_part. destruct pending as [|b pending]; cbn [nonemptyb]; [done|].
  apply Forall_app. split; [done|]. by repeat constructor.
Qed.

(** The walk loses no value and no order, and cuts no empty run. *)
Lemma parts_walk_ok ps pending parts :
  let '(pending', parts') := parts_walk ps pending parts in
  flush_part pending' parts' ≫= part_vals = (parts ≫= part_vals) ++ ((λ b, [b]) <$> pending) ++ (ps ≫= piece_vals) ∧
  (Forall part_ok parts → Forall part_ok parts').
Proof.
  revert pending parts. induction ps as [|[bytes|v] ps IH]; intros pending parts; cbn [parts_walk].
  - split; [by rewrite flush_part_vals, bind_nil, app_nil_r|done].
  - specialize (IH (pending ++ bytes) parts). destruct (parts_walk _ _ _) as [pending' parts'].
    destruct IH as [-> ?]. split; [|done]. by rewrite fmap_app, bind_cons, <- app_assoc.
  - destruct (Nat.eqb_spec (length v) 1) as [Hv|Hv].
    + specialize (IH (pending ++ v) parts). destruct (parts_walk _ _ _) as [pending' parts'].
      destruct IH as [-> ?]. split; [|done]. rewrite fmap_app, bind_cons, <- app_assoc.
      destruct v as [|b [|]]; [done| |done]. done.
    + specialize (IH [] (flush_part pending parts ++ [PartAtom v])). destruct (parts_walk _ _ _) as [pending' parts'].
      destruct IH as [-> Hp]. split.
      * rewrite bind_app, flush_part_vals, bind_cons, bind_nil, bind_cons. cbn [part_vals piece_vals fmap list_fmap app].
        by rewrite <- !app_assoc.
      * intros H. apply Hp, Forall_app. split; [by apply flush_part_ok|by repeat constructor].
Qed.

Section Body.
Context {debug : bool} {W R : Type} `{WS : WorldState W R} `{HS : !HasSlices debug W R}.
#[local] Notation Staging := (Staging (W := W) (R := R)).
#[local] Notation Txn := (Txn (W := W) (R := R)).

Lemma stage_parts_ok s rs (stg : Staging) h parts fresh :
  on_base s rs stg → core_ok (view stg) → is_registered_document (sl_namespace (view stg)) h = true → runs_ok fresh →
  Forall part_ok parts → usize_len (length (parts ≫= part_vals)) →
  ∃ rs' stg' fresh', stage_parts h parts fresh stg = Done (Ok fresh', stg') ∧
    grows_by s h stg (parts ≫= part_vals) fresh fresh' stg' rs rs'.
Proof using.
  intros Hb Hok Hh Hr Hp. revert stg rs fresh Hb Hok Hh Hr. induction Hp as [|p parts Hp Hps IH]; intros stg rs fresh Hb Hok Hh Hr Hlen.
  { exists [], stg, fresh. split; [done|]. split_and!; [by rewrite app_nil_r|done|done|apply grew_none|by apply placed_none]. }
  rewrite bind_cons, length_app in Hlen.
  assert (Hstep : ∃ rs1 stg1 fresh1, (match p with
      | PartRun bytes => allocate_stretch_for_placement Mint ContentRefused h bytes fresh
      | PartAtom v => allocate_for_placement Mint ContentRefused h v fresh end) stg = Done (Ok fresh1, stg1) ∧
    grows_by s h stg (part_vals p) fresh fresh1 stg1 rs rs1).
  { destruct p as [bytes|v]; cbn [part_vals] in *.
    - apply stretch_placed; [done..|]. rewrite length_fmap in Hlen. unfold usize_len in *. lia.
    - by apply atom_placed. }
  destruct Hstep as (rs1 & stg1 & fresh1 & E1 & H1). pose proof H1 as (Hb1 & _ & Hok1 & G1 & Hr1 & _).
  destruct (IH stg1 (rs ++ rs1) fresh1) as (rs2 & stg2 & fresh2 & E2 & H2); [done|done| |done| |].
  { by rewrite (g_docs _ _ _ _ G1). }
  { unfold usize_len in *. lia. }
  exists (rs1 ++ rs2), stg2, fresh2. split; [|rewrite bind_cons; by eapply grows_by_trans].
  destruct p as [bytes|v]; cbn [stage_parts]; unfold txn_bind; rewrite E1; exact E2.
Qed.

Lemma reinsert_ok s rs (stg : Staging) h piece :
  on_base s rs stg → core_ok (view stg) → is_registered_document (sl_namespace (view stg)) h = true →
  (∀ a, a ∈ addrs piece → ∃ v, stores (sl_content (view stg)) (tumbler a) v) → usize_len (length (addrs piece)) →
  ∃ rs' stg' fresh vals, reinsert h piece stg = Done (Ok fresh, stg') ∧
    grows_by s h stg vals [] fresh stg' rs rs' ∧ length vals = length (addrs piece) ∧
    ∀ i a v, addrs piece !! i = Some a → vals !! i = Some v → stores (sl_content (view stg)) (tumbler a) v.
Proof using.
  intros Hb Hok Hh Hst Hlen. unfold reinsert.
  destruct (drain_ok (sl_content (view stg)) (tumbler (i_start piece)) (run_width piece) (co_store _ Hok))
    as (l & p & Hd & Hcount & Hvals & Hstop).
  assert (Hzero : pc_remaining p = 0%N).
  { destruct (N.eq_dec (pc_remaining p) 0%N) as [|Hne]; [done|]. exfalso.
    destruct (Hst (addr_shift (i_start piece) (N.of_nat (length (l ≫= piece_vals))))) as [v Hv].
    { apply elem_of_addrs. eexists. split; [|done]. lia. }
    rewrite addr_shift_tumbler in Hv. by apply (Hstop Hne v). }
  pose proof (parts_walk_ok l [] []) as Hw. destruct (parts_walk l [] []) as [pending parts] eqn:Ew.
  cbn [fmap list_fmap app] in Hw. rewrite bind_nil in Hw. cbn [app] in Hw. destruct Hw as [Hv Hp].
  rewrite addrs_length in *.
  destruct (stage_parts_ok s rs stg h (flush_part pending parts) []) as (rs' & stg' & fresh & E & H); try done.
  { apply flush_part_ok, Hp. constructor. }
  { rewrite Hv. unfold usize_len in *. lia. }
  exists rs', stg', fresh, (l ≫= piece_vals). rewrite <- Hv at 1. split_and!; [|exact H|lia|].
  - unfold txn_bind, working_world, from_outcome. cbn [mbind outcome_bind].
    change (content_store (working stg)) with (sl_content (view stg)). rewrite Hd. cbn [mbind outcome_bind].
    rewrite Ew, Hzero. cbn [N.eqb assert mbind outcome_bind]. exact E.
  - intros i a v Ha Hi. apply Hvals in Hi. pose proof (lookup_lt_Some _ _ _ Ha) as Hlt. rewrite addrs_length in Hlt.
    rewrite <- (Nat2N.id i), addrs_lookup in Ha by lia. injection Ha as <-. by rewrite addr_shift_tumbler.
Qed.

(** ** The placement, position by position *)

Section Placement.
Context (s : Slices) (trunk : Address) (shot : Shot) (f : Address → Address).
Context (Hs : core_ok s) (Htrunk : is_registered_document (sl_namespace s) trunk = true) (Hf : remint s trunk shot f).
#[local] Notation asked := (stated (sh_runs shot)).
#[local] Notation F := (effective_frontier (sl_namespace s) (content_ns trunk)).
Context (Hstored : ∀ a, a ∈ asked → ∃ v, stores (sl_content s) (tumbler a) v).

(** The staging once the positions [placed] are in the member. *)
Record placing (placed : list Address) (stg : Staging) (rs : list CoreRec) (placement : list Run)
    (minted : MintedIdentity) : Prop := {
  pg_base : on_base s rs stg;
  pg_quiet : Forall quiet rs;
  pg_core : core_ok (view stg);
  pg_vals : ∃ vals, grew trunk s (view stg) vals ∧ length vals = length (natives shot placed) ∧
    ∀ i a v, natives shot placed !! i = Some a → vals !! i = Some v → stores (sl_content s) (tumbler a) v;
  pg_minted : minted_ok minted;
  pg_map : ∀ a, reminted minted a = if decide (a ∈ natives shot placed) then Some (f a) else None;
  pg_runs : runs_ok placement;
  pg_merged : merged placement;
  pg_flat : flat placement = f <$> placed
}.

(** A position stored at the start is at no fresh slot of the trunk's. *)
Lemma stored_not_fresh a v n :
  stores (sl_content s) (tumbler a) v → content_at trunk (F + 1 + n) (tumbler a) → False.
Proof using Hs Htrunk.
  intros Hv Ha. pose proof Htrunk as [Hl _]%is_registered_document_ok.
  pose proof (content_at_fresh _ _ _ _ Hl Ha) as Hn. apply not_true_iff_false in Hn. apply Hn.
  apply (co_minted _ Hs a); [by eapply content_at_position|]. by exists v.
Qed.

(** A run placed by reference. *)
Lemma placing_extend placed stg rs placement minted to l :
  placing placed stg rs placement minted → run_ok to → addrs to = f <$> l → natives shot (placed ++ l) = natives shot placed →
  placing (placed ++ l) stg rs (extend_or_push_run placement to) minted.
Proof using.
  intros [H1 H2 H3 H4 H5 H6 H7 H8 H9] Hto Hl Hn. split; rewrite ?Hn; try done.
  - by apply extend_ok.
  - by apply extend_merged.
  - by rewrite extend_flat, H9, fmap_app, Hl.
Qed.

Lemma foldl_extend_merged rs l : merged l → merged (foldl extend_or_push_run l rs).
Proof using. revert l. induction rs as [|r rs IH]; intros l Hl; [done|]. cbn. by apply IH, extend_merged. Qed.

(** What an entry of the pairing says of its piece. *)
Definition entry_ok (home : Address) (index : nat) (e : MintedRun) : Prop :=
  pair_ok (λ a, Some (f a)) home index (mr_minted e) e.

(** A piece re-inserted: its positions join the drafts' order, each at its next slot. *)
Lemma placing_reinsert placed stg rs placement minted piece home index pairing rest :
  placing placed stg rs placement minted → run_ok piece → asked = (placed ++ addrs piece) ++ rest →
  natives shot (placed ++ addrs piece) = natives shot placed ++ addrs piece → usize_len (length (addrs piece)) →
  ∃ stg' rs' fresh minted' entries, reinsert trunk piece stg = Done (Ok fresh, stg') ∧
    note debug minted piece fresh home index pairing = Done (minted', pairing ++ entries) ∧
    placing (placed ++ addrs piece) stg' rs' (foldl extend_or_push_run placement fresh) minted' ∧
    Forall (λ e, entry_ok home index e ∧ mr_minted e = true) entries ∧ flat (mr_from <$> entries) = addrs piece.
Proof using Hs Htrunk Hf Hstored.
  intros [Hb Hq Hok (vals & G & Hlen & Hvals) Hmok Hmap Hr Hm Hflat] Hpiece Hst Hn Husz.
  destruct (reinsert_ok s rs stg trunk piece Hb Hok) as (rs' & stg' & fresh & vals' & E & (Hb' & Hq' & Hok' & G' & Hfr & l & Hl & Hll & Hslots) & Hlen' & Hvals').
  { by rewrite (g_docs _ _ _ _ G). }
  { intros a Ha. destruct (Hstored a) as [v Hv]; [rewrite Hst, !elem_of_app; auto|].
    exists v. apply (g_stores _ _ _ _ G). by left. }
  { done. }
  cbn in Hl. rewrite flat_nil in Hl. cbn [app] in Hl. rewrite <- Hl in Hll, Hslots. clear l Hl.
  rewrite (g_frontier _ _ _ _ G), Hlen in Hslots.
  assert (Hrename : flat fresh = f <$> addrs piece).
  { apply list_eq_same_length with (n := length (addrs piece)); [by rewrite length_fmap|by rewrite Hll, Hlen'|].
    intros i x y _ Hx Hy. apply list_lookup_fmap_Some in Hy as (a & -> & Ha). apply Address_eq.
    eapply content_at_inj; [by apply Hslots|].
    destruct (natives_app shot (placed ++ addrs piece) rest) as [m Em]. rewrite <- Hst, Hn in Em.
    replace (F + N.of_nat (length (natives shot placed)) + 1 + N.of_nat i)%N
      with (F + 1 + N.of_nat (length (natives shot placed) + i))%N by lia.
    apply (rm_native _ _ _ _ Hf). rewrite Em. apply lookup_app_l_Some. rewrite lookup_app_r by lia.
    by rewrite Nat.add_comm, Nat.add_sub. }
  destruct (note_ok debug minted piece fresh home index pairing) as (minted' & entries & En & N1 & N2 & N3 & N4 & N5);
    [done|done|done|by rewrite Hll, Hlen'| |].
  { intros a Ha. rewrite Hmap, decide_False; [done|]. intros Hin.
    pose proof (firsts_NoDup (filter (λ a, native shot a = true) (placed ++ addrs piece))) as Hnd.
    change (NoDup (natives shot (placed ++ addrs piece))) in Hnd. rewrite Hn in Hnd. apply NoDup_app in Hnd as (_ & Hd & _).
    by apply (Hd a). }
  assert (Hmap' : ∀ a, a ∈ addrs piece → reminted minted' a = Some (f a)).
  { intros a [i Hi]%list_elem_of_lookup. apply (f_equal (lookup i)) in N3. rewrite Hrename, !list_lookup_fmap, Hi in N3.
    by injection N3. }
  exists stg', (rs ++ rs'), fresh, minted', entries. split_and!; [done|done| | |done].
  - split; try done.
    + by apply Forall_app.
    + exists (vals ++ vals'). split; [by eapply grew_trans|]. rewrite Hn, !length_app. split; [lia|].
      intros i a v [Ha|[Hle Ha]]%lookup_app_Some Hv.
      * apply lookup_lt_Some in Ha as Hlt. rewrite lookup_app_l in Hv by lia. by eapply Hvals.
      * rewrite lookup_app_r, Hlen in Hv by lia. specialize (Hvals' _ _ _ Ha Hv).
        apply (g_stores _ _ _ _ G) in Hvals' as [?|(j & _ & Hat)]; [done|]. exfalso.
        destruct (Hstored a) as [u Hu]; [rewrite Hst, !elem_of_app; left; right; by eapply list_elem_of_lookup_2|].
        by eapply stored_not_fresh.
    + intros a. rewrite Hn. destruct (decide (a ∈ addrs piece)) as [Ha|Ha].
      * rewrite decide_True by (apply elem_of_app; by right). by apply Hmap'.
      * rewrite N2, Hmap by done. apply decide_ext. rewrite elem_of_app. tauto.
    + by apply foldl_extend_ok.
    + by apply foldl_extend_merged.
    + by rewrite foldl_extend_flat, Hflat, Hrename, fmap_app.
  - apply Forall_forall. intros e He. pose proof (proj1 (Forall_forall _ _) N5 e He) as [P1 P2 P3 P4 P5 P6].
    split; [|done]. split; try done. eapply carries_ext; [|exact P3]. intros a Ha. symmetry. apply Hmap'.
    rewrite <- N4. apply list_elem_of_bind. exists (mr_from e). split; [done|]. by apply list_elem_of_fmap_2.
Qed.

(** What a portion says of its positions, in terms of the renaming. *)
Definition portion_fits (placed : list Address) (p : Portion) : Prop :=
  match p with
  | Referenced from to => run_ok from ∧ run_ok to ∧ addrs to = f <$> addrs from ∧ ∀ a, a ∈ addrs from → a ∈ natives shot placed
  | Unminted run => run_ok run ∧ ∀ a, a ∈ addrs run → a ∉ natives shot placed
  end.

Lemma portions_fit placed minted p :
  (∀ a, reminted minted a = if decide (a ∈ natives shot placed) then Some (f a) else None) →
  portion_ok (reminted minted) p → portion_fits placed p.
Proof using.
  intros Hmap. destruct p as [from to|run]; cbn.
  - intros (H1 & H2 & Hc). unfold carries in Hc.
    assert (Hin : ∀ a, a ∈ addrs from → a ∈ natives shot placed ∧ reminted minted a = Some (f a)).
    { intros a [i Hi]%list_elem_of_lookup. apply (f_equal (lookup i)) in Hc. rewrite !list_lookup_fmap, Hi in Hc. cbn in Hc.
      rewrite Hmap in Hc |- *. case_decide; [done|]. by destruct (addrs to !! i). }
    split_and!; [done|done| |by intros a [? _]%Hin]. apply (inj (fmap Some)). rewrite <- Hc, <- list_fmap_compose.
    apply list_fmap_ext. intros i a Ha%list_elem_of_lookup_2. by apply Hin.
  - intros [H1 H2]. split; [done|]. intros a Ha Hin. specialize (H2 a Ha). rewrite Hmap, decide_True in H2; done.
Qed.

(** Placing earlier pieces of the same run leaves a later portion fitting. *)
Lemma fits_after placed l p :
  (∀ a, a ∈ l → a ∉ addrs (portion_run p)) → portion_fits placed p → portion_fits (placed ++ l) p.
Proof using.
  intros Hd. destruct p as [from to|run]; cbn in *.
  - intros (H1 & H2 & H3 & H4). split_and!; try done. intros a Ha. apply elem_of_natives. apply H4, elem_of_natives in Ha as [? ?].
    split; [apply elem_of_app; by left|done].
  - intros [H1 H2]. split; [done|]. intros a Ha [Hin Hn]%elem_of_natives. apply elem_of_app in Hin as [Hin|Hin].
    + apply (H2 a Ha), elem_of_natives. done.
    + by apply (Hd a).
Qed.

(** The entries of one run: they tile it, and the minted ones are its new positions. *)
Record block_ok (home : Address) (index : nat) (l : list Address) (block : list MintedRun) : Prop := {
  bk_entries : Forall (entry_ok home index) block;
  bk_tiles : flat (mr_from <$> block) = l
}.

Definition minted_from (pairing : list MintedRun) : list Address :=
  flat (mr_from <$> filter (λ e, mr_minted e = true) pairing).

Lemma minted_from_app p q : minted_from (p ++ q) = minted_from p ++ minted_from q.
Proof using. unfold minted_from. by rewrite filter_app, fmap_app, flat_app. Qed.

Lemma minted_from_all p : Forall (λ e, mr_minted e = true) p → minted_from p = flat (mr_from <$> p).
Proof using.
  intros Hp. unfold minted_from. f_equal. f_equal. apply filter_id. by apply Forall_forall.
Qed.

Lemma place_portions_ok portions placed stg rs placement minted home index pairing rest :
  placing placed stg rs placement minted → Forall (portion_fits placed) portions →
  NoDup (flat (portion_run <$> portions)) → (∀ a, a ∈ flat (portion_run <$> portions) → native shot a = true) →
  asked = (placed ++ flat (portion_run <$> portions)) ++ rest → usize_len (length (flat (portion_run <$> portions))) →
  ∃ stg' rs' placement' minted' block,
    place_portions trunk home index portions placement minted pairing stg = Done (Ok (placement', minted', pairing ++ block), stg') ∧
    placing (placed ++ flat (portion_run <$> portions)) stg' rs' placement' minted' ∧
    block_ok home index (flat (portion_run <$> portions)) block ∧
    natives shot (placed ++ flat (portion_run <$> portions)) = natives shot placed ++ minted_from block.
Proof using Hs Htrunk Hf Hstored.
  revert placed stg rs placement minted pairing.
  induction portions as [|p portions IH]; intros placed stg rs placement minted pairing Hpl Hfit Hnd Hnat Hst Hlen.
  { change (flat (portion_run <$> [])) with (@nil Address). exists stg, rs, placement, minted, [].
    change (minted_from []) with (@nil Address). rewrite !app_nil_r. split_and!; [done|done|by split|done]. }
  rewrite fmap_cons, flat_cons in *. apply Forall_cons in Hfit as [Hp Hfit]. apply NoDup_app in Hnd as (Hnd1 & Hdis & Hnd2).
  set (l1 := addrs (portion_run p)) in *. set (l2 := flat (portion_run <$> portions)) in *.
  rewrite length_app in Hlen.
  assert (Hfit' : Forall (portion_fits (placed ++ l1)) portions).
  { apply Forall_forall. intros q Hq. apply fits_after; [|by apply (proj1 (Forall_forall _ _) Hfit)]. intros a Ha Ha'.
    apply (Hdis a Ha). unfold l2, flat. apply list_elem_of_bind. exists (portion_run q). split; [done|]. by apply list_elem_of_fmap_2. }
  assert (Hstep : ∃ stg1 rs1 placement1 minted1 block1,
    place_portions trunk home index (p :: portions) placement minted pairing stg =
      place_portions trunk home index portions placement1 minted1 (pairing ++ block1) stg1 ∧
    placing (placed ++ l1) stg1 rs1 placement1 minted1 ∧ block_ok home index l1 block1 ∧
    natives shot (placed ++ l1) = natives shot placed ++ minted_from block1).
  { destruct p as [from to|piece]; cbn [portion_run portion_fits] in *.
    - destruct Hp as (H1 & H2 & H3 & H4). exists stg, rs, (extend_or_push_run placement to), minted, [MkMintedRun from to home index false].
      assert (Hold : natives shot (placed ++ l1) = natives shot placed) by by apply natives_old.
      split_and!; [done|by apply placing_extend| |by rewrite app_nil_r].
      split; [|cbn; by rewrite flat_cons, flat_nil, app_nil_r]. constructor; [|done].
      split; try done. unfold carries. cbn. rewrite H3, <- list_fmap_compose. done.
    - destruct Hp as [H1 H2].
      assert (Hnew : natives shot (placed ++ l1) = natives shot placed ++ l1).
      { apply natives_new; [done|]. intros a Ha. split; [|by apply H2]. apply Hnat, elem_of_app. by left. }
      destruct (placing_reinsert placed stg rs placement minted piece home index pairing (l2 ++ rest) Hpl H1)
        as (stg1 & rs1 & fresh & minted1 & block1 & E1 & E2 & Hpl1 & Hen & Htile); [by rewrite Hst, <- !app_assoc|done| |].
      { unfold usize_len in *. fold l1. lia. }
      exists stg1, rs1, (foldl extend_or_push_run placement fresh), minted1, block1. split_and!; [|done| |].
      + cbn [place_portions]. unfold txn_bind, from_outcome. rewrite E1. cbn [mbind outcome_bind]. rewrite E2. done.
      + split; [|done]. eapply Forall_impl; [exact Hen|]. by intros e [? _].
      + rewrite Hnew, minted_from_all, Htile; [done|]. eapply Forall_impl; [exact Hen|]. by intros e [_ ?]. }
  destruct Hstep as (stg1 & rs1 & placement1 & minted1 & block1 & -> & Hpl1 & [Hb1 Ht1] & Hn1).
  destruct (IH (placed ++ l1) stg1 rs1 placement1 minted1 (pairing ++ block1) Hpl1 Hfit' Hnd2)
    as (stg2 & rs2 & placement2 & minted2 & block2 & E2 & Hpl2 & [Hb2 Ht2] & Hn2).
  { intros a Ha. apply Hnat, elem_of_app. by right. }
  { by rewrite Hst, <- !app_assoc. }
  { unfold usize_len in *. lia. }
  exists stg2, rs2, placement2, minted2, (block1 ++ block2). rewrite E2, <- app_assoc. rewrite <- app_assoc in Hpl2, Hn2.
  split_and!; [done|done| |by rewrite Hn2, Hn1, minted_from_app, <- app_assoc].
  split; [by apply Forall_app|]. by rewrite fmap_app, flat_app, Ht1, Ht2.
Qed.

(** ** The whole placement *)

(** One block of the pairing to a run, in order; a draft's run is tiled, no other is paired. *)
Record blocks_ok (runs : list ShotRun) (blocks : list (list MintedRun)) : Prop := {
  bs_length : length blocks = length runs;
  bs_blocks : ∀ i r b, runs !! i = Some r → blocks !! i = Some b →
    block_ok (trunk_of (sr_origin r)) i
      (if is_draft_native shot (trunk_of (sr_origin r)) then addrs (sr_run r) else []) b;
  bs_minted : minted_from (concat blocks) = natives shot (stated runs)
}.

Lemma blocks_snoc runs blocks r b :
  blocks_ok runs blocks →
  block_ok (trunk_of (sr_origin r)) (length runs)
    (if is_draft_native shot (trunk_of (sr_origin r)) then addrs (sr_run r) else []) b →
  natives shot (stated runs ++ addrs (sr_run r)) = natives shot (stated runs) ++ minted_from b →
  blocks_ok (runs ++ [r]) (blocks ++ [b]).
Proof using.
  intros [H1 H2 H3] Hb Hn. split.
  - rewrite !length_app, H1. done.
  - intros i r' b' [Hr|[Hle Hr]]%lookup_app_Some Hb'.
    + rewrite lookup_app_l in Hb' by (rewrite H1; by eapply lookup_lt_Some). by apply H2.
    + rewrite lookup_app_r in Hb' by (rewrite H1; lia). rewrite H1 in Hb'.
      destruct (i - length runs) as [|j] eqn:Ei; [|by destruct j]. injection Hr as <-. injection Hb' as <-.
      by replace i with (length runs) by lia.
  - rewrite concat_app, minted_from_app, H3. cbn [concat]. rewrite app_nil_r. unfold stated in *.
    rewrite bind_app, bind_cons, bind_nil, app_nil_r. done.
Qed.

(** More runs than a member may hold, already on a prefix of what it would hold. *)
Definition overfull (target : list Address) : Prop :=
  ∃ runs rest, runs_ok runs ∧ merged runs ∧ target = flat runs ++ rest ∧ (MAX_PLACED_RUNS < N.of_nat (length runs))%N.

Definition ends {E A} (m : Txn E A) (stg : Staging) (Q : A → Staging → Prop) (refuses : E → Prop) : Prop :=
  match m stg with
  | Done (Ok a, stg') => Q a stg'
  | Done (Err e, _) => refuses e
  | Panicked => False
  end.

Lemma placing_overfull placed stg rs placement minted rest :
  placing placed stg rs placement minted → asked = placed ++ rest → (MAX_PLACED_RUNS < N.of_nat (length placement))%N →
  overfull (f <$> asked).
Proof using.
  intros [_ _ _ _ _ _ Hr Hm Hfl] -> Hlt. exists placement, (f <$> rest). by rewrite Hfl, fmap_app.
Qed.

(** A draft's run names no more positions than the shot re-inserts. *)
Lemma native_run_length r :
  r ∈ sh_runs shot → run_ok (sr_run r) → (∀ a, a ∈ addrs (sr_run r) → native shot a = true) →
  length (addrs (sr_run r)) ≤ length (natives shot asked).
Proof using.
  intros Hr Hok Hn. apply submseteq_length, NoDup_submseteq; [apply addrs_NoDup|]. intros a Ha.
  apply elem_of_natives. split; [|by apply Hn]. apply list_elem_of_bind. by exists r.
Qed.

Lemma place_one_ok runs1 r blocks stg rs placement minted rest :
  placing (stated runs1) stg rs placement minted → blocks_ok runs1 blocks →
  r ∈ sh_runs shot → run_ok (sr_run r) → run_origin_document (sr_run r) = Some (trunk_of (sr_origin r)) →
  asked = (stated runs1 ++ addrs (sr_run r)) ++ rest → usize_len (length (natives shot asked)) →
  ∃ stg' rs' placement' minted' block,
    (if is_draft_native shot (trunk_of (sr_origin r)) then
       txn_bind (from_outcome (portions_of minted (sr_run r))) (λ portions,
         place_portions trunk (trunk_of (sr_origin r)) (length runs1) portions placement minted (concat blocks))
     else txn_ret (extend_or_push_run placement (sr_run r), minted, concat blocks)) stg
      = Done (Ok (placement', minted', concat (blocks ++ [block])), stg') ∧
    placing (stated (runs1 ++ [r])) stg' rs' placement' minted' ∧ blocks_ok (runs1 ++ [r]) (blocks ++ [block]).
Proof using Hs Htrunk Hf Hstored.
  intros Hpl Hbl Hin Hr Ho Hst Hlen. pose proof (λ a Ha, native_run shot (sr_run r) a Hr Ha) as Hn. rewrite Ho in Hn.
  assert (Hsnoc : stated (runs1 ++ [r]) = stated runs1 ++ addrs (sr_run r)).
  { unfold stated. by rewrite bind_app, bind_cons, bind_nil, app_nil_r. }
  rewrite Hsnoc. destruct (is_draft_native shot (trunk_of (sr_origin r))) eqn:En.
  - destruct (portions_of_ok minted (sr_run r) (pg_minted _ _ _ _ _ Hpl) Hr) as (ps & Ep & Hps & Hflat).
    assert (Hfit : Forall (portion_fits (stated runs1)) ps).
    { eapply Forall_impl; [exact Hps|]. intros p. by apply portions_fit, Hpl. }
    destruct (place_portions_ok ps (stated runs1) stg rs placement minted (trunk_of (sr_origin r)) (length runs1)
      (concat blocks) rest Hpl Hfit) as (stg' & rs' & placement' & minted' & block & E & Hpl' & Hbk & Hnat); rewrite ?Hflat.
    { apply addrs_NoDup. }
    { exact Hn. }
    { exact Hst. }
    { pose proof (native_run_length r Hin Hr Hn). unfold usize_len in *. lia. }
    rewrite Hflat in *. exists stg', rs', placement', minted', block. split_and!; [|done|].
    + unfold txn_bind, from_outcome. rewrite Ep. cbn [mbind outcome_bind]. rewrite E, concat_app. cbn [concat].
      by rewrite app_nil_r.
    + apply blocks_snoc; [done|by rewrite En|done].
  - assert (Hid : f <$> addrs (sr_run r) = addrs (sr_run r)).
    { rewrite <- (list_fmap_id (addrs (sr_run r))) at 2. apply list_fmap_ext. intros i a Ha%list_elem_of_lookup_2.
      by apply (rm_other _ _ _ _ Hf), Hn. }
    assert (Hold : natives shot (stated runs1 ++ addrs (sr_run r)) = natives shot (stated runs1)).
    { apply natives_foreign. exact Hn. }
    exists stg, rs, (extend_or_push_run placement (sr_run r)), minted, []. split_and!.
    + rewrite concat_app. cbn [concat]. by rewrite !app_nil_r.
    + by apply placing_extend.
    + apply blocks_snoc; [done| |by rewrite Hold, app_nil_r]. rewrite En. split; [constructor|done].
Qed.

Lemma place_supplied_ok runs1 runs2 blocks stg rs placement minted :
  sh_runs shot = runs1 ++ runs2 → placing (stated runs1) stg rs placement minted → blocks_ok runs1 blocks →
  Forall (λ r, run_ok (sr_run r) ∧ run_origin_document (sr_run r) = Some (trunk_of (sr_origin r))) runs2 →
  usize_len (length (natives shot asked)) → (N.of_nat (length placement) ≤ MAX_PLACED_RUNS)%N →
  ends (place_supplied shot trunk (length runs1) (settled <$> runs2) placement minted (concat blocks)) stg
    (λ x stg', ∃ rs' minted' blocks', placing asked stg' rs' x.1 minted' ∧ x.2 = concat blocks' ∧
       blocks_ok (sh_runs shot) blocks' ∧ (N.of_nat (length x.1) ≤ MAX_PLACED_RUNS)%N)
    (λ e, e = TooManyRuns ∧ overfull (f <$> asked)).
Proof using Hs Htrunk Hf Hstored.
  revert runs1 blocks stg rs placement minted. induction runs2 as [|r runs2 IH]; intros runs1 blocks stg rs placement minted Hst Hpl Hbl Hr Hlen Hmax.
  { rewrite app_nil_r in Hst. rewrite <- Hst in *. unfold ends. cbn. by exists rs, minted, blocks. }
  apply Forall_cons in Hr as [[Hr Ho] Hrs].
  destruct (place_one_ok runs1 r blocks stg rs placement minted (stated runs2) Hpl Hbl) as
    (stg' & rs' & placement' & minted' & block & E & Hpl' & Hbl'); [|done|done| |done|].
  { rewrite Hst. apply elem_of_app. right. by left. }
  { rewrite Hst. unfold stated. by rewrite bind_app, bind_cons, <- app_assoc. }
  rewrite fmap_cons. unfold ends, settled at 1. cbn [place_supplied]. unfold txn_bind at 1. rewrite E. cbn [mbind outcome_bind].
  destruct (N.ltb_spec MAX_PLACED_RUNS (N.of_nat (length placement'))) as [Hlt|Hge].
  - unfold txn_bind, refuse_if, refused. cbn [mbind outcome_bind]. split; [done|].
    apply (placing_overfull _ _ _ _ _ (stated runs2) Hpl'); [|done].
    rewrite Hst. unfold stated. by rewrite !bind_app, !bind_cons, bind_nil, app_nil_r, <- app_assoc.
  - unfold txn_bind at 1, refuse_if, txn_ret at 1. cbn [mbind outcome_bind].
    assert (S (length runs1) = length (runs1 ++ [r])) as -> by (rewrite length_app; cbn; lia).
    apply (IH (runs1 ++ [r]) (blocks ++ [block]) stg' rs'); try done. by rewrite <- app_assoc.
Qed.
End Placement.
End Body.
