(* ===== verification/VersionCalls.v ===== *)
(** * VERSION and STAGE

    The two operations that mint a document and give it another's arrangement: a
    version of one's own document on its chain or a copy in one's account, and a
    draft. Each stages a namespace record and the snapshot of the surface a reader of
    the source sees; a draft also records the base it was cut from. *)

From stdpp Require Import gmap.
From S2P Require Import Prelude Txns Tumblers Addresses AddrMaps Arith Spans NsKeys NsState NsLaws NsOps NsInv NsCalls NsReach Runs Content RunLists VSpace Provenance Chain ArrState ArrReads World Edits EditInv EditSteps EditCalls InsertCalls.

#[local] Arguments apply_m3 : simpl never.
#[local] Arguments apply_m5 : simpl never.
#[local] Arguments published_target : simpl never.
#[local] Arguments content_list : simpl never.
#[local] Arguments effective_frontier : simpl never.
#[local] Arguments namespace_of : simpl never.

(** ** A document minted *)

Lemma published_grown ns ns' x :
  (∀ d b, publication ns !! d = Some b → publication ns' !! d = Some b) →
  published_target ns x = true → published_target ns' x = true.
Proof.
  intros Hpub. unfold published_target, published. destruct (publication ns !! _) as [b|] eqn:E; [|done].
  cbn. intros ->. by rewrite (Hpub _ _ E).
Qed.

(** A mint keeps the invariant where it mints no content position. *)
Lemma core_ok_minted s ns' :
  core_ok s → m3_ok ns' →
  (∀ b, content_position b → is_allocated ns' b = is_allocated (sl_namespace s) b) →
  grown (sl_namespace s) ns' →
  (∀ d b, publication (sl_namespace s) !! d = Some b → publication ns' !! d = Some b) →
  core_ok (MkSlices ns' (sl_content s) (sl_arrangement s)).
Proof.
  intros [Hm Ha Hst Hk Hmin Harr Hbase] Hns Hal Hg Hpub. split; cbn; try done.
  - intros a Hp. rewrite Hal by done. by apply Hmin.
  - intros doc a Hin. destruct (Harr doc a Hin) as (Hd & ? & ?). split_and!; [|done|done].
    apply is_registered_document_ok in Hd as [Hl Hd]. apply is_registered_document_ok. split; [done|by apply Hg].
  - intros d b Hb. by eapply published_grown, Hbase.
Qed.

(** A registration mints no element. *)
Lemma core_ok_grown s ns' :
  core_ok s → m3_ok ns' →
  (∀ b, level b = Element → is_allocated ns' b = is_allocated (sl_namespace s) b) →
  grown (sl_namespace s) ns' →
  (∀ d b, publication (sl_namespace s) !! d = Some b → publication ns' !! d = Some b) →
  core_ok (MkSlices ns' (sl_content s) (sl_arrangement s)).
Proof.
  intros Hok Hns Hal. apply core_ok_minted; [done|done|]. intros b [n Hp]. apply Hal. by eapply element_field_level.
Qed.

(** What the mint of a document leaves of the registry. *)
Record document_minted (ns ns' : M3State) (p : Seq) (d : Address) (bit : bool) : Prop := {
  dm_fresh : is_allocated ns d = false;
  dm_registered : is_registered_document ns' d = true;
  dm_bit : publication ns' !! d = Some bit;
  dm_minted : minted_at ns' !! d = Some p;
  dm_bits : ∀ x b, publication ns !! x = Some b → publication ns' !! x = Some b;
  dm_only : ∀ b, is_allocated ns' b = true ↔ is_allocated ns b = true ∨ b = d;
  dm_principals : principals ns' = principals ns
}.

Definition document_key (ns : M3State) (key : NsKey) : Prop :=
  (∃ d, key = version_ns d ∧ is_registered_document ns d = true) ∨
  (∃ a, key = document_ns a ∧ is_registered_account ns a = true).

Lemma document_key_facts ns key :
  document_key ns key → family ns key ∧ ∀ b, namespace_of b = Some key → level b = Document.
Proof.
  intros [(d & -> & Hd)|(a & -> & Ha)]; (split; [by constructor|]); intros b Hb; apply namespace_level in Hb.
  - apply is_registered_document_ok in Hd as [Hl _]. by rewrite Hl in Hb.
  - apply is_registered_account_ok in Ha as [Hl _]. by rewrite Hl in Hb.
Qed.

Lemma document_step s key bit d r :
  core_ok s → document_key (sl_namespace s) key → issued (sl_namespace s) key bit d r →
  ∀ at_, ∃ ns', apply_m3 (sl_namespace s) at_ r = Done ns' ∧
    core_ok (MkSlices ns' (sl_content s) (sl_arrangement s)) ∧
    document_minted (sl_namespace s) ns' at_ d bit.
Proof.
  intros Hok Hk Hi at_. destruct (document_key_facts _ _ Hk) as [Hf Hlev].
  destruct (issued_facts _ _ _ _ _ Hi) as (-> & Hkd & _ & Hfresh & Hd). destruct (Hd at_) as (ns' & Hns).
  exists ns'. split; [done|]. pose proof (Hlev d Hkd) as Hl.
  destruct (document_fold (sl_namespace s) d bit at_ ns' (co_m3 _ Hok) Hl Hfresh Hns) as (H1 & H2 & H3 & H4 & H5).
  destruct (issued_ok (sl_namespace s) key bit d (Allocate (MkAllocation d bit)) at_ ns') as [Hns_ok Hpre];
    [apply Hok|exact Hf|intros b Hb; by rewrite (Hlev b Hb)|exact Hi|exact Hns|].
  split; [|split; try done; apply Hpre]. apply core_ok_grown; [done|done| | |apply Hpre].
  - intros b Hb. apply eq_true_iff_eq. rewrite H5. split; [|by left]. intros [?|E]; [done|]. congruence.
  - intros b Hb. apply H5. by left.
Qed.

(** ** A fork: the mint, and the surface's arrangement under the new name *)

Record forked (s s' : Slices) (p : Seq) (surface fork : Address) (bit : bool) : Prop := {
  fk_minted : document_minted (sl_namespace s) (sl_namespace s') p fork bit;
  fk_store : sl_content s' = sl_content s;
  fk_content : contents s' fork = contents s surface;
  fk_elsewhere : ∀ d, d ≠ fork → contents s' d = contents s d ∧ links s' d = links s d;
  fk_source : fork_source (sl_arrangement s') fork = Some surface
}.

(** An unregistered document arranges nothing. *)
Lemma unregistered_empty s d : core_ok s → is_allocated (sl_namespace s) d = false → contents s d = [].
Proof.
  intros Hok Hd. destruct (contents s d) as [|a l] eqn:E; [done|]. exfalso.
  destruct (co_arranged _ Hok d a) as (H & _); [rewrite E; by left|].
  apply is_registered_document_ok in H as [_ H]. congruence.
Qed.

Lemma apply_fork s p surface fork a' :
  core_ok s → is_allocated (sl_namespace s) fork = false →
  apply_m5 (sl_arrangement s) p (VersionSnapshot surface fork) = Done a' →
  vmap (content_list a' fork) = contents s surface ∧
  (∀ d, d ≠ fork → vmap (content_list a' d) = contents s d ∧ vmap (link_list a' d) = links s d) ∧
  fork_source a' fork = Some surface ∧ draft_bases a' = draft_bases (sl_arrangement s).
Proof.
  intros Hok Hfr Ha. destruct (apply_m5_ok (sl_arrangement s) p (VersionSnapshot surface fork) (co_m5 _ Hok) I)
    as (a2 & Ha' & [_ [Hc Hl] _]). rewrite Ha in Ha'. injection Ha' as <-.
  pose proof (apply_meta _ _ _ (VersionSnapshot surface fork) (co_m5 _ Hok) I Ha) as [_ _ Hsrc _ Hbase].
  pose proof (unregistered_empty s fork Hok Hfr) as He. cbn [spec_step docs_of d_content d_link] in *.
  split_and!.
  - rewrite Hc. case_decide as Es; cbn; [by rewrite Es|]. unfold upd. by rewrite decide_True.
  - intros d Hd. rewrite Hc, Hl. case_decide as Es; [done|]. cbn. unfold upd. by rewrite !decide_False.
  - unfold fork_source. rewrite Hsrc. cbn. by rewrite decide_True.
  - apply map_eq. intros d. rewrite Hbase. done.
Qed.

(** What a reader of [doc] is shown. *)
Definition reads (m3 : M3State) (doc : Address) : Address :=
  if bool_decide (trunk_of doc = doc) && published_target m3 doc then
    match trunk_head m3 doc with Done (Some v) => v | _ => doc end
  else doc.

Lemma reading_reads m3 doc : reading_surface m3 doc = Done (reads m3 doc).
Proof.
  unfold reading_surface, reads. case_bool_decide; cbn [negb andb]; [|done].
  destruct (published_target m3 doc); cbn [negb]; [|done].
  pose proof (trunk_head_ok m3 doc) as H'. by destruct (trunk_head m3 doc) as [[v|]|].
Qed.

(** The two records a fork stages, folded at the call's coordinate. *)
Lemma fold_fork debug s p r surface fork key bit s' :
  core_ok s → document_key (sl_namespace s) key → issued (sl_namespace s) key bit fork r →
  fold_slices (debug := debug) s p [RecNamespace r; RecArrangement (VersionSnapshot surface fork)] = Done s' →
  forked s s' p surface fork bit ∧ draft_bases (sl_arrangement s') = draft_bases (sl_arrangement s).
Proof.
  intros Hok Hk Hi Hf. destruct (document_step s key bit fork r Hok Hk Hi p) as (ns' & Hns & _ & Hdm).
  unfold fold_slices in Hf. rewrite fold_world_cons in Hf. apply bind_inv in Hf as (s1 & H1 & H2).
  change (apply_slices debug s p (RecNamespace r) = Done s1) in H1. cbn [apply_slices] in H1. rewrite Hns in H1.
  injection H1 as <-. apply fold_one_arrangement in H2 as (arr & Ha & ->). cbn in Ha.
  destruct (apply_fork s p surface fork arr Hok (dm_fresh _ _ _ _ _ Hdm) Ha) as (? & ? & ? & ?). by split.
Qed.

Section Fork.
Context {debug : bool} {W R Bytes : Type} `{WS : WorldState W R} `{HS : !HasSlices debug W R}.
Context (encode_record : R → Bytes).
#[local] Notation Kernel := (Kernel (W := W) (Bytes := Bytes)).
#[local] Notation Staging := (Staging (W := W) (R := R)).
#[local] Notation Txn := (Txn (W := W) (R := R)).

Lemma spec_fork {E A} (f : unit → Txn E A) s (stg : Staging) key bit fork r surface gates Q :
  on_base s [] stg → view stg = s → core_ok s →
  document_key (sl_namespace s) key → issued (sl_namespace s) key bit fork r →
  (∀ stg', on_base s [RecNamespace r; RecArrangement (VersionSnapshot surface fork)] stg' → core_ok (view stg') →
     (∀ x, published_target (sl_namespace s) x = true → published_target (sl_namespace (view stg')) x = true) →
     txn_spec (f tt) stg' gates Q) →
  txn_spec (txn_bind (stage (of_core (RecNamespace r)))
    (λ _, txn_bind (stage (of_core (RecArrangement (VersionSnapshot surface fork)))) f)) stg gates Q.
Proof using.
  intros Hb Hv Hok Hk Hi Hf.
  apply (spec_stage_mid s [] stg (RecNamespace r)
    (λ w, core_ok w ∧ is_registered_document (sl_namespace w) fork = true ∧
       ∀ x, published_target (sl_namespace s) x = true → published_target (sl_namespace w) x = true)); [done|..].
  - rewrite Hv. intros at1. destruct (document_step s key bit fork r Hok Hk Hi at1) as (ns' & Hns & Hok' & Hdm).
    cbn [apply_slices]. rewrite Hns. eexists. split; [reflexivity|].
    split_and!; [done|apply Hdm|]. intros x. apply published_grown, Hdm.
  - intros stg1 Hb1 (Hok1 & Hd & Hpub).
    apply (spec_stage_mid s [RecNamespace r] stg1 (RecArrangement (VersionSnapshot surface fork)) (λ w, core_ok w ∧ sl_namespace w = sl_namespace (view stg1))); [done| |].
    + intros at2. destruct (arrangement_push (debug := debug) (view stg1) at2 (VersionSnapshot surface fork) Hok1 I I)
      as (s2 & ? & ? & ? & _); [|by exists s2].
    intros d a. cbn. case_decide as Ed; [subst d|by intros ?%not_elem_of_nil]. intros Ha.
    destruct (co_arranged _ Hok1 _ _ Ha) as (_ & ? & ?). by split_and!.
    + intros stg2 Hb2 [Hok2 E2]. apply Hf; [done|done|]. intros x. rewrite E2. apply Hpub.
Qed.

(** *** VERSION *)

Definition version_gates (s : Slices) (principal : PrincipalId) (source : Address) (published : option bool) :
    list (Version.VersionError * Prop) :=
  let ns := sl_namespace s in
  [ (Version.SourceNotRegistered, is_registered_document ns source = false);
    (Version.NotAPrincipal,
      effective_owner ns source ≠ Some principal ∧ ∀ p, principals ns !! p ≠ Some principal);
    (Version.NodeTierCrossOwner,
      effective_owner ns source ≠ Some principal ∧
      ∃ p, principals ns !! p = Some principal ∧ is_registered_account ns p = false);
    (Version.PrivateSourceVersionless,
      effective_owner ns source = Some principal ∧ published_target ns source = false);
    (Version.PrivateVersionOfPublished, effective_owner ns source = Some principal ∧ published = Some false) ].

(** The chain the fork is minted on. *)
Definition version_key (s : Slices) (principal : PrincipalId) (source : Address) (key : NsKey) : Prop :=
  let ns := sl_namespace s in
  (effective_owner ns source = Some principal ∧ key = version_ns source) ∨
  (effective_owner ns source ≠ Some principal ∧ ∃ p, principals ns !! p = Some principal ∧ key = document_ns p).

Lemma version_closure branch source published : closure (Version.version_in branch source published : Txn _ _).
Proof using. unfold Version.version_in. closes. Qed.

Definition version_staged (s : Slices) (source : Address) (bit : bool) (key : NsKey) (fork : Address) (rs : list CoreRec) : Prop :=
  ∃ r, rs = [RecNamespace r; RecArrangement (VersionSnapshot (reads (sl_namespace s) source) fork)] ∧
    document_key (sl_namespace s) key ∧ issued (sl_namespace s) key bit fork r.

Lemma spec_mint {E} (m : outcome (result (Address * M3Rec) MintError)) (stg : Staging) gate e P
    (Q : result (Address * M3Rec) MintError → Staging → Prop) :
  gate_or_issue gate e P m → gate = true → (∀ a r, P a r → Q (Ok (a, r)) stg) →
  txn_spec (from_outcome m : Txn E _) stg [] Q.
Proof using.
  intros Hm Hg HQ. destruct m as [[[a r]|er]|]; [| |done].
  - split; [constructor|]. apply HQ. by destruct Hm.
  - destruct Hm as [_ Hm]. congruence.
Qed.

Lemma version_tail s (stg : Staging) source key bit fork r :
  on_base s [] stg → view stg = s → core_ok s →
  document_key (sl_namespace s) key → issued (sl_namespace s) key bit fork r →
  txn_spec (txn_bind (from_result (map_err Version.Mint (Ok (fork, r)))) (λ x, match x with (fork, m3rec) =>
      txn_bind (from_outcome (reading_surface (sl_namespace s) source)) (λ surface,
      txn_bind (stage (of_core (RecNamespace m3rec))) (λ _,
      txn_bind (stage (of_core (RecArrangement (VersionSnapshot surface fork)))) (λ _, txn_ret fork))) end))
    stg [] (λ fork stg', ∃ rs, on_base s rs stg' ∧ core_ok (view stg') ∧ version_staged s source bit key fork rs).
Proof using.
  intros Hb Hv Hok Hk Hi. eapply spec_bind; [reflexivity|]. cbv beta iota.
  eapply spec_outcome; [apply reading_reads|].
  eapply spec_fork; [done..|exact Hi|]. intros stg' Hb' Hok' _. apply spec_ret.
  eexists. split; [exact Hb'|]. split; [done|]. by exists r.
Qed.

(** A version on the source's own chain. *)
Lemma owned_spec s (stg : Staging) source published :
  on_base s [] stg → view stg = s → core_ok s → is_registered_document (sl_namespace s) source = true →
  txn_spec (Version.version_in Version.Owned source published) stg
    ([ (Version.PrivateSourceVersionless, published_target (sl_namespace s) source = false);
       (Version.PrivateVersionOfPublished, published = Some false) ] ++ [])
    (λ fork stg', ∃ rs, on_base s rs stg' ∧ core_ok (view stg') ∧
       version_staged s source (default (published_target (sl_namespace s) source) published) (version_ns source) fork rs).
Proof using.
  intros Hb <- Hok Hd. unfold Version.version_in. apply spec_working. cbv zeta.
  change (m3 (working stg)) with (sl_namespace (view stg)). apply spec_seq.
  apply spec_refuse; [by rewrite negb_true_iff|]. intros Hp%negb_false_iff.
  apply spec_refuse; [rewrite Hp; destruct published as [[]|]; cbn; split; congruence|]. intros _.
  pose proof (gated_mint (sl_namespace (view stg)) (version_ns source)
    (default (published_target (sl_namespace (view stg)) source) published)
    (is_registered_document (sl_namespace (view stg)) source) SourceNotRegistered (fam_version _ source)) as Hm.
  eapply spec_mint; [exact Hm|done|]. intros fork r Hi. apply version_tail; [done|done|done| |done].
  left. by exists source.
Qed.

(** A copy in the caller's account. *)
Lemma cross_spec s (stg : Staging) source published prefix :
  on_base s [] stg → view stg = s → core_ok s → is_registered_account (sl_namespace s) prefix = true →
  txn_spec (Version.version_in (Version.CrossOwner prefix) source published) stg ([] ++ [])
    (λ fork stg', ∃ rs, on_base s rs stg' ∧ core_ok (view stg') ∧
       version_staged s source (default (published_target (sl_namespace s) source) published) (document_ns prefix) fork rs).
Proof using.
  intros Hb <- Hok Hd. unfold Version.version_in. apply spec_working. cbv zeta.
  change (m3 (working stg)) with (sl_namespace (view stg)). apply spec_seq.
  pose proof (gated_mint (sl_namespace (view stg)) (document_ns prefix)
    (default (published_target (sl_namespace (view stg)) source) published)
    (is_registered_account (sl_namespace (view stg)) prefix) NotAnAccount (fam_document _ prefix)) as Hm.
  eapply spec_mint; [exact Hm|done|]. intros fork r Hi. apply version_tail; [done|done|done| |done].
  right. by exists prefix.
Qed.

Definition version_done (s : Slices) (source : Address) (bit : bool) (key : NsKey) (k' : Kernel) (fork : Address) (p : Seq) : Prop :=
  nth_in key (effective_frontier (sl_namespace s) key + 1) = Done (Ok fork) ∧
  forked s (root_slices k') p (reads (sl_namespace s) source) fork bit.

Lemma version_call (k : Kernel) answer branch source published gates key :
  let s := root_slices k in
  let bit := default (published_target (sl_namespace s) source) published in
  core_ok s →
  (∀ stg : Staging, on_base s [] stg → view stg = s →
     txn_spec (Version.version_in branch source published) stg gates
       (λ fork stg', ∃ rs, on_base s rs stg' ∧ core_ok (view stg') ∧ version_staged s source bit key fork rs)) →
  ∃ k' e, transact encode_record k answer (Version.version_in branch source published) = Done (k', e) ∧
    core_ok (root_slices k') ∧ answers k k' e gates (version_done s source bit key k').
Proof using.
  intros s bit Hok Hspec.
  destruct (core_call encode_record k answer (Version.version_in branch source published) gates
    (λ fork rs _, version_staged s source bit key fork rs)) as (k' & e & Ht & Hok' & H);
    [apply version_closure|exact Hok|exact Hspec|].
  exists k', e. split; [done|]. split; [done|]. destruct e as [[[fork p]|[er| | | |]]|]; try done.
  destruct H as (Hg & rs & u & (r & -> & Hk & Hi) & _ & Hf). split; [done|]. split; [apply Hi|].
  by eapply fold_fork.
Qed.
End Fork.

(** ** STAGE *)

Definition stage_gates (s : Slices) (principal : PrincipalId) (from : Address) : list (Stage.StageError * Prop) :=
  let ns := sl_namespace s in
  [ (Stage.SourceNotRegistered, is_registered_document ns from = false);
    (Stage.NotAPrincipal, ∀ p, principals ns !! p ≠ Some principal);
    (Stage.NodeTierCrossOwner, ∃ p, principals ns !! p = Some principal ∧ is_registered_account ns p = false) ].

(** The base a draft of [surface] starts from: the surface, with what it holds now, if
    it is published; the base standing on a private one, if any. *)
Definition base_taken (s : Slices) (surface : Address) : option (Address * Nat * option Merge) :=
  if published_target (sl_namespace s) surface then Some (surface, count (contents s surface), None)
  else
    (λ b, (db_base b, db_extent b, Merge_from <$> db_merge b)) <$> draft_base (sl_arrangement s) surface.

Lemma base_taken_published s surface :
  core_ok s → match base_taken s surface with
    | Some (base, _, _) => published_target (sl_namespace s) base = true | None => True end.
Proof.
  intros Hok. unfold base_taken. destruct (published_target (sl_namespace s) surface) eqn:Hp; [done|].
  unfold draft_base. destruct (draft_bases _ !! surface) as [b|] eqn:Hb; cbn; [|done]. by eapply co_bases.
Qed.

Definition base_recorded (s : Slices) (surface draft : Address) (p : Seq) : option DraftBase :=
  match base_taken s surface with
  | Some (base, extent, merge) => Some (MkDraftBase base extent surface ((λ m, stamped m p) <$> merge))
  | None => draft_base (sl_arrangement s) draft
  end.

Definition base_records (s : Slices) (surface draft : Address) : list CoreRec :=
  match base_taken s surface with
  | Some (base, extent, merge) => [RecArrangement (DraftBaseRec draft base extent surface merge)]
  | None => []
  end.

Lemma recorded_taken {debug W R} `{WS : WorldState W R} `{HS : !HasSlices debug W R} (w : W) surface :
  Stage.recorded_base w surface = base_taken (slices w) surface.
Proof. unfold Stage.recorded_base, base_taken. change (m5 w) with (sl_arrangement (slices w)).
  by rewrite content_count_ok. Qed.

Lemma fold_draft debug s p r surface draft key s' :
  core_ok s → document_key (sl_namespace s) key → issued (sl_namespace s) key false draft r →
  fold_slices (debug := debug) s p
    ([RecNamespace r; RecArrangement (VersionSnapshot surface draft)] ++ base_records s surface draft) = Done s' →
  forked s s' p surface draft false ∧ draft_base (sl_arrangement s') draft = base_recorded s surface draft p ∧
  ∀ d, d ≠ draft → draft_base (sl_arrangement s') d = draft_base (sl_arrangement s) d.
Proof.
  intros Hok Hk Hi Hf. unfold fold_slices in Hf. rewrite fold_world_app in Hf. apply bind_inv in Hf as (s1 & H1 & H2).
  destruct (fold_fork debug s p r surface draft key false s1 Hok Hk Hi H1) as [[Hm Hst Hc He Hs] Hb].
  unfold base_records, base_recorded, draft_base in *. destruct (base_taken s surface) as [[[base extent] merge]|].
  - apply fold_one_arrangement in H2 as (arr & Ha & ->). unfold apply_m5 in Ha. injection Ha as <-.
    split; [by split|]. cbn [sl_arrangement draft_bases]. split; [by rewrite lookup_insert_eq|].
    intros d Hd. by rewrite lookup_insert_ne, Hb.
  - injection H2 as <-. by rewrite Hb.
Qed.

Section Stage.
Context {debug : bool} {W R Bytes : Type} `{WS : WorldState W R} `{HS : !HasSlices debug W R}.
Context (encode_record : R → Bytes).
#[local] Notation Kernel := (Kernel (W := W) (Bytes := Bytes)).
#[local] Notation Staging := (Staging (W := W) (R := R)).
#[local] Notation Txn := (Txn (W := W) (R := R)).

Lemma stage_closure prefix from : closure (Stage.stage_in prefix from : Txn _ _).
Proof using. unfold Stage.stage_in. closes. Qed.

Definition draft_staged (s : Slices) (prefix from draft : Address) (rs : list CoreRec) : Prop :=
  let surface := reads (sl_namespace s) from in
  ∃ r, rs = [RecNamespace r; RecArrangement (VersionSnapshot surface draft)] ++ base_records s surface draft ∧
    issued (sl_namespace s) (document_ns prefix) false draft r.

Lemma stage_spec s (stg : Staging) prefix from :
  on_base s [] stg → view stg = s → core_ok s → is_registered_account (sl_namespace s) prefix = true →
  txn_spec (Stage.stage_in prefix from) stg []
    (λ draft stg', ∃ rs, on_base s rs stg' ∧ core_ok (view stg') ∧ draft_staged s prefix from draft rs).
Proof using.
  intros Hb <- Hok Hd. unfold Stage.stage_in. apply spec_working. cbv zeta.
  change (m3 (working stg)) with (sl_namespace (view stg)).
  eapply spec_outcome; [apply reading_reads|]. rewrite recorded_taken. change (slices (working stg)) with (view stg).
  set (surface := reads (sl_namespace (view stg)) from).
  pose proof (gated_mint (sl_namespace (view stg)) (document_ns prefix) false
    (is_registered_account (sl_namespace (view stg)) prefix) NotAnAccount (fam_document _ prefix)) as Hm.
  apply (spec_seq _ _ stg []). eapply spec_mint; [exact Hm|done|]. intros draft r Hi.
  eapply spec_bind; [reflexivity|]. cbv beta iota.
  eapply spec_fork; [done..| |exact Hi|]; [right; by exists prefix|]. intros stg1 Hb1 Hok1 Hpub1.
  assert (Hend : ∀ stg2 : Staging,
    on_base (view stg) ([RecNamespace r; RecArrangement (VersionSnapshot surface draft)] ++ base_records (view stg) surface draft) stg2 →
    core_ok (view stg2) → txn_spec (txn_ret draft : Txn Stage.StageError Address) stg2 []
    (λ draft stg', ∃ rs, on_base (view stg) rs stg' ∧ core_ok (view stg') ∧ draft_staged (view stg) prefix from draft rs)).
  { intros stg2 Hb2 Hok2. apply spec_ret. eexists. split; [exact Hb2|]. split; [done|]. by exists r. }
  pose proof (base_taken_published (view stg) surface Hok) as Htaken.
  unfold base_records in Hend. destruct (base_taken (view stg) surface) as [[[base extent] merge]|].
  - apply (spec_stage_mid (view stg) _ stg1 (RecArrangement (DraftBaseRec draft base extent surface merge)) core_ok _ _ _ Hb1); [|by apply Hend].
    intros at1. destruct (arrangement_push (debug := debug) (view stg1) at1 (DraftBaseRec draft base extent surface merge) Hok1 I (Hpub1 _ Htaken))
      as (s2 & ? & ? & _); [by intros d a ?%not_elem_of_nil|by exists s2].
  - eapply spec_bind; [reflexivity|]. by apply Hend.
Qed.
End Stage.

(** ** The claims *)

(** C8. VERSION from a sound root never panics and leaves a sound one, by its pinned
    order: the source's registration; for another's document, the caller's seat and
    its tier; for one's own, the two privacy refusals; no mint refusal ever reaches
    the caller. Acknowledged, the new document is the next slot of the source's
    version chain for its owner, of the caller's document chain for another, fresh
    before, registered at the call's coordinate with the publication asked for (the
    source's, by default); it holds what a reader of the source sees, is forked from
    that surface, and no other document or value moved. *)
Theorem version_exact {debug : bool} {W R Bytes : Type} `{WS : WorldState W R} `{HS : !HasSlices debug W R}
    (encode_record : R → Bytes) (k : Kernel (W := W) (Bytes := Bytes)) (answer : CommitAnswer)
    (principal : PrincipalId) (source : Address) (published : option bool) :
  let s := root_slices k in
  core_ok s →
  ∃ k' e, version encode_record k answer principal source published = Done (k', e) ∧ core_ok (root_slices k') ∧
    answers k k' e (version_gates s principal source published) (λ fork p,
      ∃ key, version_key s principal source key ∧
        nth_in key (effective_frontier (sl_namespace s) key + 1) = Done (Ok fork) ∧
        forked s (root_slices k') p (reads (sl_namespace s) source) fork
          (default (published_target (sl_namespace s) source) published)).
Proof.
  intros s Hok. unfold version, Version.version_prework. change (m3 (c_world (snapshot k))) with (sl_namespace s).
  unfold version_gates, version_key.
  destruct (is_registered_document (sl_namespace s) source) eqn:Hd; cbn [negb].
  2: { eexists k, _. split; [done|]. split; [done|]. split; [done|]. by apply first_refusal_here. }
  unfold is_effective_owner. case_bool_decide as Ho.
  - destruct (version_call encode_record k answer Version.Owned source published _ (version_ns source) Hok
      (λ stg Hb Hv, owned_spec s stg source published Hb Hv Hok Hd)) as (k' & e & Ht & Hok' & H).
    exists k', e. split; [exact Ht|]. split; [exact Hok'|]. destruct e as [[[fork p]|[er| | | |]]|]; try done.
    + destruct H as [Hg [Hn Hf]]. rewrite app_nil_r, !Forall_cons in Hg. cbn in Hg. split.
      * repeat constructor; cbn; naive_solver.
      * exists (version_ns source). split_and!; [by left|done|done].
    + destruct H as [-> H]. split; [done|]. rewrite app_nil_r, !first_refusal_cons in H.
      rewrite !first_refusal_cons. cbn. naive_solver.
  - pose proof (principal_prefix_ok (sl_namespace s) principal) as Hp.
    destruct (principal_prefix (sl_namespace s) principal) as [prefix|].
    2: { eexists k, _. split; [done|]. split; [done|]. split; [done|]. rewrite !first_refusal_cons. cbn. naive_solver. }
    destruct (is_registered_account (sl_namespace s) prefix) eqn:Hacc; cbn [negb].
    2: { eexists k, _. split; [done|]. split; [done|]. split; [done|]. rewrite !first_refusal_cons. cbn.
         right. split; [congruence|]. right. split; [naive_solver|]. left. split; [done|]. split; [done|]. by exists prefix. }
    destruct (version_call encode_record k answer (Version.CrossOwner prefix) source published _ (document_ns prefix) Hok
      (λ stg Hb Hv, cross_spec s stg source published prefix Hb Hv Hok Hacc)) as (k' & e & Ht & Hok' & H).
    exists k', e. split; [exact Ht|]. split; [exact Hok'|]. destruct e as [[[fork p]|[er| | | |]]|]; try done.
    + destruct H as [_ [Hn Hf]]. split.
      * assert (Hid : ∀ q, principals (sl_namespace s) !! q = Some principal → q = prefix).
        { intros q Hq. by eapply (inv_ids _ (co_m3 _ Hok)). }
        rewrite !Forall_cons. cbn. split_and!; try (by intros [? ?]); [congruence|naive_solver| |by constructor].
        intros [_ (q & ->%Hid & ?)]. congruence.
      * exists (document_ns prefix). split_and!; [right; split; [done|by exists prefix]|done|done].
    + destruct H as [_ H]. by apply first_refusal_nil in H.
Qed.

(** C9. STAGE from a sound root never panics and leaves a sound one. It refuses an
    unregistered source, then a caller with no seat, then a node's; acknowledged, the
    draft is the next private document of the caller's account, fresh before, holding
    what a reader of the source sees; its base is that surface with what it holds, if
    published, else the base standing on it; no other document, value or base
    moved. *)
Theorem stage_exact {debug : bool} {W R Bytes : Type} `{WS : WorldState W R} `{HS : !HasSlices debug W R}
    (encode_record : R → Bytes) (k : Kernel (W := W) (Bytes := Bytes)) (answer : CommitAnswer)
    (principal : PrincipalId) (from : Address) :
  let s := root_slices k in
  core_ok s →
  ∃ k' e, stage_draft encode_record k answer principal from = Done (k', e) ∧ core_ok (root_slices k') ∧
    answers k k' e (stage_gates s principal from) (λ draft p,
      let s' := root_slices k' in
      let surface := reads (sl_namespace s) from in
      (∃ prefix, principals (sl_namespace s) !! prefix = Some principal ∧
         nth_in (document_ns prefix) (effective_frontier (sl_namespace s) (document_ns prefix) + 1) = Done (Ok draft)) ∧
      forked s s' p surface draft false ∧
      draft_base (sl_arrangement s') draft = base_recorded s surface draft p ∧
      ∀ d, d ≠ draft → draft_base (sl_arrangement s') d = draft_base (sl_arrangement s) d).
Proof.
  intros s Hok. unfold stage_draft, Stage.stage_prework. change (m3 (c_world (snapshot k))) with (sl_namespace s).
  unfold stage_gates.
  destruct (is_registered_document (sl_namespace s) from) eqn:Hd; cbn [negb].
  2: { eexists k, _. split; [done|]. split; [done|]. split; [done|]. by apply first_refusal_here. }
  pose proof (principal_prefix_ok (sl_namespace s) principal) as Hp.
  destruct (principal_prefix (sl_namespace s) principal) as [prefix|].
  2: { eexists k, _. split; [done|]. split; [done|]. split; [done|]. rewrite !first_refusal_cons. cbn. naive_solver. }
  destruct (is_registered_account (sl_namespace s) prefix) eqn:Hacc; cbn [negb].
  2: { eexists k, _. split; [done|]. split; [done|]. split; [done|]. rewrite !first_refusal_cons. cbn. naive_solver. }
  destruct (core_call encode_record k answer (Stage.stage_in prefix from) []
    (λ draft rs _, draft_staged s prefix from draft rs)) as (k' & e & Ht & Hok' & H);
    [apply stage_closure|exact Hok|intros stg Hb Hv; by apply stage_spec|].
  exists k', e. split; [exact Ht|]. split; [exact Hok'|]. destruct e as [[[draft p]|[er| | | |]]|]; try done.
  - destruct H as (_ & rs & u & (r & -> & Hi) & _ & Hf). split.
    + assert (Hid : ∀ q, principals (sl_namespace s) !! q = Some principal → q = prefix).
      { intros q Hq. by eapply (inv_ids _ (co_m3 _ Hok)). }
      rewrite !Forall_cons. cbn. split_and!; [congruence|naive_solver| |by constructor].
      intros (q & ->%Hid & ?). congruence.
    + split; [exists prefix; split; [done|apply Hi]|]. eapply (fold_draft debug s p r _ draft (document_ns prefix));
        [exact Hok|right; by exists prefix|exact Hi|exact Hf].
  - destruct H as [_ H]. by apply first_refusal_nil in H.
Qed.
