(* ===== verification/PublishCalls.v ===== *)
(** * PUBLISH

    The shot as a call: its refusals in their pinned order, the member it mints, what
    the member holds position by position, where each draft's position landed, and the
    pairing handed to a composite. *)

From stdpp Require Import gmap.
From S2P Require Import Prelude Txns Tumblers Addresses AddrMaps Arith Spans NsKeys NsState NsLaws NsOps NsInv NsCalls NsReach Runs Content RunLists RunUnions VSpace Provenance Chain ArrState ArrReads World Edits EditInv Shots Minted PublishOp EditSteps EditCalls CopyCalls InsertCalls PublishGates PublishBody VersionCalls.

#[local] Arguments apply_m3 : simpl never.
#[local] Arguments apply_m5 : simpl never.
#[local] Arguments published_target : simpl never.
#[local] Arguments content_list : simpl never.
#[local] Arguments trunk_of : simpl never.
#[local] Arguments extend_or_push_run : simpl never.
#[local] Arguments effective_frontier : simpl never.
#[local] Arguments namespace_of : simpl never.
#[local] Arguments N.add : simpl never.
#[local] Open Scope txn_scope.

Import Publish.

(** ** Too many runs *)

(** The one run-list that holds a sequence of positions has more runs than a member may. *)
Definition too_long (l : list Address) : Prop :=
  ∃ runs, runs_ok runs ∧ merged runs ∧ flat runs = l ∧ (MAX_PLACED_RUNS < N.of_nat (length runs))%N.

Lemma overfull_too_long l : overfull l → Forall (λ a, admits_start a = true) l → too_long l.
Proof.
  intros (runs & rest & Hr & Hm & -> & Hlt) Ha. apply Forall_app in Ha as [_ Ha].
  exists (foldl extend_or_push_run runs ((λ a, MkRun a 1) <$> rest)).
  assert (Hones : runs_ok ((λ a, MkRun a 1) <$> rest)).
  { apply Forall_fmap. eapply Forall_impl; [exact Ha|]. intros a H. split; [cbn; lia|done]. }
  split_and!; [by apply foldl_extend_ok|by apply foldl_extend_merged| |].
  - rewrite foldl_extend_flat. f_equal. clear. induction rest as [|a rest IH]; [done|].
    rewrite fmap_cons, flat_cons, IH. by rewrite addrs_one.
  - pose proof (foldl_extend_length ((λ a, MkRun a 1) <$> rest) runs). lia.
Qed.

Lemma not_too_long runs : runs_ok runs → merged runs → (N.of_nat (length runs) ≤ MAX_PLACED_RUNS)%N → ¬ too_long (flat runs).
Proof.
  intros Hr Hm Hle (rs & Hrs & Hms & E & Hlt). assert (rs = runs) as -> by by apply canonical_runs_unique. lia.
Qed.

(** ** The anchor and the tail *)

Lemma trunk_extend d t vs :
  level d = Document → level t = Document → comps (tumbler d) = comps (tumbler t) ++ vs → trunk_of d = trunk_of t.
Proof.
  intros Hd Ht E. destruct (trunk_view t Ht) as (n & u & c & vt & _ & _ & _ & Et & _ & _ & Hlt).
  eapply (trunk_unique d (trunk_of t) (vt ++ vs)); [done|done|apply trunk_idem|]. by rewrite E, Et, <- app_assoc.
Qed.

Lemma anchor_registered s caller doc shot readable :
  core_ok s → Forall (λ g, ¬ g.2) (admission_gates s caller doc shot readable) →
  is_registered_document (sl_namespace s) doc = true ∧ published_target (sl_namespace s) doc = true ∧
  is_registered_document (sl_namespace s) (trunk_of doc) = true ∧
  is_registered_document (sl_namespace s) (anchor s doc shot) = true ∧ trunk_of (anchor s doc shot) = trunk_of doc.
Proof.
  intros Hok Hg. unfold admission_gates, settle_gates in Hg. cbn [app] in Hg.
  rewrite !Forall_cons, !Forall_app, Forall_cons, Forall_app in Hg. cbn [snd] in Hg.
  destruct Hg as (Hd & _ & Hbase & (_ & _) & Hp & Hshape & _).
  apply not_false_is_true in Hd. apply not_false_is_true in Hp.
  pose proof (trunk_registered _ _ (co_m3 _ Hok) Hd) as Ht. split_and!; [done|done|done|..].
  all: unfold anchor, base_shape_gates in *; destruct (sh_base shot) as [b|]; [|try done; apply trunk_idem].
  all: rewrite !Forall_cons in Hshape; cbn [snd] in Hshape; destruct Hshape as (Hc & _).
  all: pose proof Hd as [Hl _]%is_registered_document_ok; pose proof (birth_version_ok (sl_namespace s) doc Hl) as Hb.
  all: repeat case_decide; try done; try apply trunk_idem.
  - destruct (birth_version _ _) as [[v|]|]; [by destruct Hb as (_ & ? & _)|done..].
  - apply not_false_is_true. intros Hn. apply Hbase. by exists b.
  - destruct (birth_version _ _) as [[v|]|]; [by destruct Hb as (_ & _ & ?)|apply trunk_idem..].
  - destruct (decide (trunk_of (ba_member b) = trunk_of doc)) as [|Hne]; [done|]. exfalso. by apply Hc.
Qed.

(** The base's positions past the extent its copy took. *)
Definition base_tail (s : Slices) (shot : Shot) : list Address :=
  match sh_base shot with
  | Some b => drop (N.to_nat (ba_extent b)) (contents s (ba_member b))
  | None => []
  end.

Lemma runs_past_ok a doc extent :
  state_ok a → ∃ rs, content_runs_past a doc extent = Done rs ∧ runs_ok rs ∧
    flat rs = drop (N.to_nat extent) (vmap (content_list a doc)).
Proof.
  intros Ha. destruct (clipped_runs_ok (content_list a doc) (N.max (extent + 1) 1) None (proj1 (lists_ok a doc Ha)))
    as (rs & E & Hr & Hf); [lia|done|].
  exists rs. split_and!; [exact E|done|]. rewrite Hf. cbn [upto]. f_equal. lia.
Qed.

Lemma elem_of_reinserted shot r :
  r ∈ reinserted_runs shot ↔
  match run_origin_document r with Some d => is_draft_native shot d = true | None => False end ∧
  ∃ x, x ∈ sh_runs shot ∧ r = sr_run x.
Proof.
  unfold reinserted_runs. rewrite list_elem_of_filter, list_elem_of_fmap. split; intros [Hn (x & ? & ?)].
  - split; [|by exists x]. by destruct (run_origin_document r).
  - split; [|by exists x]. by destruct (run_origin_document r).
Qed.

Lemma elem_of_flat (runs : list Run) (a : Address) : a ∈ flat runs ↔ ∃ r, r ∈ runs ∧ a ∈ addrs r.
Proof. unfold flat. rewrite list_elem_of_bind. naive_solver. Qed.

Lemma elem_of_stated (runs : list ShotRun) (a : Address) : a ∈ stated runs ↔ ∃ x, x ∈ runs ∧ a ∈ addrs (sr_run x).
Proof. unfold stated. rewrite list_elem_of_bind. naive_solver. Qed.

(** The values a shot re-inserts, counted off the request: its drafts' positions. *)
Lemma reinserted_natives shot :
  Forall (λ r, run_ok (sr_run r)) (sh_runs shot) →
  reinserted_values shot = Done (N.of_nat (length (natives shot (stated (sh_runs shot))))).
Proof.
  intros Hr. rewrite reinserted_values_ok by done. do 2 f_equal. apply Permutation_length, NoDup_Permutation.
  - apply NoDup_remove_dups.
  - apply firsts_NoDup.
  - intros a. rewrite elem_of_remove_dups, elem_of_natives, elem_of_stated, elem_of_flat. rewrite Forall_forall in Hr. split.
    + intros (r & (Hn & x & Hx & ->)%elem_of_reinserted & Ha). split; [by exists x|]. rewrite (native_run shot (sr_run x) a (Hr x Hx) Ha).
      by destruct (run_origin_document (sr_run x)).
    + intros [(x & Hx & Ha) Hn]. rewrite (native_run shot (sr_run x) a (Hr x Hx) Ha) in Hn.
      exists (sr_run x). split; [|done]. apply elem_of_reinserted. split; [|by exists x]. by destruct (run_origin_document (sr_run x)).
Qed.

Lemma flat_stated (runs : list ShotRun) : flat (sr_run <$> runs) = stated runs.
Proof. unfold flat, stated. induction runs as [|r runs IH]; [done|]. by rewrite fmap_cons, !bind_cons, IH. Qed.

(** Every position of the runs, once. *)
Lemma union_flat l :
  runs_ok l → ∃ rs, union_runs (union_of l) = Done rs ∧ ∀ a, a ∈ flat rs ↔ a ∈ flat l.
Proof.
  intros Hl. pose proof (RunUnion_of_ok _ _ Hl (union_of_sorted l)) as [HF HS HH].
  exists (piece_run <$> pieces (union_of l)). split.
  - unfold union_runs, union_of. apply outcome_map_done. intros p Hp. by apply to_run_ok, (proj1 (Forall_forall _ _) HF).
  - intros a. by rewrite <- HH, <- elem_of_flat_pieces.
Qed.

(** ** The refusals, and the member *)

Definition shot_target (s : Slices) (shot : Shot) (f : Address → Address) : list Address :=
  (f <$> stated (sh_runs shot)) ++ base_tail s shot.

Definition publish_gates (s : Slices) (caller : Caller) (doc : Address) (shot : Shot) (readable : Address → bool) :
    list (PublishError * Prop) :=
  admission_gates s caller doc shot readable ++
  [ (TooManyValues, (MAX_REINSERTED_VALUES < count (natives shot (stated (sh_runs shot))))%N);
    (DanglingSource, ¬ ∀ a, a ∈ stated (sh_runs shot) → ∃ v, stores (sl_content s) (tumbler a) v);
    (TooManyRuns, ∃ f, remint s (trunk_of doc) shot f ∧ too_long (shot_target s shot f)) ].

(** What the placing record carries beside its runs. *)
Definition terms_of (shot : Shot) : ShotTerms :=
  MkShotTerms (count (stated (sh_runs shot))) (ba_extent <$> sh_base shot).

(** Every position of the member is a content position... *)
Lemma target_content s doc shot f :
  core_ok s → is_registered_document (sl_namespace s) (trunk_of doc) = true → remint s (trunk_of doc) shot f →
  stated_ok (sh_runs shot) → origins_stated s (sh_runs shot) →
  ∀ a, a ∈ shot_target s shot f → content_position a.
Proof.
  intros Hok Ht [Hnat Hoth] Hr Ho a. pose proof Ht as [Hl _]%is_registered_document_ok.
  unfold shot_target. rewrite elem_of_app, list_elem_of_fmap. intros [(b & -> & Hb)|Hb].
  - destruct (native shot b) eqn:Hn.
    + assert (b ∈ natives shot (stated (sh_runs shot))) as [i Hi]%list_elem_of_lookup by by apply elem_of_natives.
      eapply content_at_position; [done|by apply Hnat].
    + rewrite Hoth by done. apply elem_of_stated in Hb as (x & Hx & Hb). unfold stated_ok, origins_stated in *.
      rewrite Forall_forall in Hr, Ho. destruct (Ho x Hx) as [Hox _]. pose proof (Hr x Hx) as Hrx.
      apply (origin_position b (trunk_of (sr_origin x))); [|by rewrite (origin_addrs (sr_run x))].
      apply elem_of_addrs in Hb as (k & _ & ->). apply admits_shift, Hrx.
  - unfold base_tail in Hb. destruct (sh_base shot) as [b'|]; [|by apply not_elem_of_nil in Hb].
    apply subseteq_drop in Hb. by destruct (co_arranged _ Hok _ _ Hb) as (_ & Hp & _).
Qed.

(** ...and stored, once the drafts' are. *)
Lemma target_stored s doc shot f u vals :
  core_ok s → remint s (trunk_of doc) shot f →
  (∀ a, a ∈ stated (sh_runs shot) → ∃ v, stores (sl_content s) (tumbler a) v) →
  grew (trunk_of doc) s u vals → length vals = length (natives shot (stated (sh_runs shot))) →
  ∀ a, a ∈ shot_target s shot f → ∃ v, stores (sl_content u) (tumbler a) v.
Proof.
  intros Hok [Hnat Hoth] Hst G Hlen a.
  unfold shot_target. rewrite elem_of_app, list_elem_of_fmap. intros [(b & -> & Hb)|Hb].
  - destruct (native shot b) eqn:Hn.
    + assert (b ∈ natives shot (stated (sh_runs shot))) as [i Hi]%list_elem_of_lookup by by apply elem_of_natives.
      destruct (lookup_lt_is_Some_2 vals i) as [v Hv]; [rewrite Hlen; by eapply lookup_lt_Some|].
      exists v. apply (g_stores _ _ _ _ G). right. exists i. split; [done|by apply Hnat].
    + rewrite Hoth by done. destruct (Hst b Hb) as [v Hv]. exists v. apply (g_stores _ _ _ _ G). by left.
  - unfold base_tail in Hb. destruct (sh_base shot) as [b'|]; [|by apply not_elem_of_nil in Hb].
    apply subseteq_drop in Hb. destruct (co_arranged _ Hok _ _ Hb) as (_ & Hp & v & Hv).
    exists v. apply (g_stores _ _ _ _ G). by left.
Qed.

Section Publish.
Context {debug : bool} {W R : Type} `{WS : WorldState W R} `{HS : !HasSlices debug W R}.
#[local] Notation Staging := (Staging (W := W) (R := R)).
#[local] Notation Txn := (Txn (W := W) (R := R)).

Lemma carry_tail_ok runs placement (stg : Staging) :
  runs_ok placement → merged placement → (N.of_nat (length placement) ≤ MAX_PLACED_RUNS)%N → runs_ok runs →
  ends (carry_tail runs placement) stg
    (λ pl stg', stg' = stg ∧ runs_ok pl ∧ merged pl ∧ flat pl = flat placement ++ flat runs ∧
       (N.of_nat (length pl) ≤ MAX_PLACED_RUNS)%N)
    (λ e, e = TooManyRuns ∧ overfull (flat placement ++ flat runs)).
Proof using.
  intros Hp Hm Hmax Hr. revert placement Hp Hm Hmax. induction Hr as [|r runs Hr Hrs IH]; intros placement Hp Hm Hmax.
  { unfold ends. cbn. by rewrite flat_nil, app_nil_r. }
  unfold ends. cbn [carry_tail]. unfold txn_bind at 1. cbv zeta. rewrite flat_cons, app_assoc, <- extend_flat.
  pose proof (extend_ok _ _ Hp Hr) as Hp'. pose proof (extend_merged _ r Hm) as Hm'.
  destruct (N.ltb_spec MAX_PLACED_RUNS (N.of_nat (length (extend_or_push_run placement r)))) as [Hlt|Hge].
  - cbn. split; [done|]. by exists (extend_or_push_run placement r), (flat runs).
  - cbn [refuse_if]. unfold txn_ret. cbn [mbind outcome_bind]. by apply IH.
Qed.

Lemma all_stored_ok (w : W) runs (stg : Staging) :
  core_ok (slices w) →
  let all := ∀ a, a ∈ flat runs → ∃ v, stores (sl_content (slices w)) (tumbler a) v in
  txn_spec (all_stored w runs) stg [(DanglingSource, ¬ all)] (λ _ stg', stg' = stg ∧ all).
Proof using.
  intros Hok. induction runs as [|r runs IH]; cbn [all_stored]; cbv zeta in *.
  { assert (Hnil : ∀ a, a ∈ flat [] → ∃ v, stores (sl_content (slices w)) (tumbler a) v) by by intros a ?%not_elem_of_nil.
    split; [|done]. constructor; [|done]. cbn. intros H. by apply H. }
  destruct (run_stored_ok (slices w) r Hok) as (b & Ec & Hbr).
  eapply spec_outcome; [exact Ec|]. destruct b; cbn [negb].
  - eapply spec_bind; [reflexivity|]. unfold txn_spec in *. destruct (all_stored w runs stg) as [[[u|e] stg']|]; [| |done].
    + destruct IH as (_ & -> & Hall).
      assert (Hall' : ∀ a, a ∈ flat (r :: runs) → ∃ v, stores (sl_content (slices w)) (tumbler a) v).
      { intros a. rewrite flat_cons, elem_of_app. intros [Ha|Ha]; [by apply Hbr|by apply Hall]. }
      split; [|done]. constructor; [|done]. cbn. intros Hn. by apply Hn.
    + apply first_refusal_cons in IH as [[<- Hn]|[_ []%first_refusal_nil]]. apply first_refusal_here.
      intros Hall. apply Hn. intros a Ha. apply Hall. rewrite flat_cons, elem_of_app. by right.
  - unfold txn_spec, txn_bind, refuse_if, refused. cbn. apply first_refusal_here. intros Hall.
    assert (false = true); [|done]. apply Hbr. intros a Ha. apply Hall. rewrite flat_cons, elem_of_app. by left.
Qed.

Lemma spec_judged {E A B} (r : result A E) (f : A → Txn E B) stg g1 g2 P Q :
  judged r g1 P → (∀ a, P a → txn_spec (f a) stg g2 Q) → txn_spec (txn_bind (from_result r) f) stg (g1 ++ g2) Q.
Proof using.
  intros Hr Hf. apply (spec_seq (from_result r) f stg g1 g2 Q). unfold txn_spec, from_result.
  destruct r as [a|e]; [|exact Hr]. destruct Hr as [Hg HP]. split; [done|by apply Hf].
Qed.

Lemma ends_conseq {E A} (m : Txn E A) (stg : Staging) (Q Q' : A → Staging → Prop) (P P' : E → Prop) :
  ends m stg Q P → (∀ x stg', Q x stg' → Q' x stg') → (∀ e, P e → P' e) → ends m stg Q' P'.
Proof using. unfold ends. intros H HQ HP. destruct (m stg) as [[[x|e] stg']|]; [by apply HQ|by apply HP|done]. Qed.

(** A step that may refuse for a reason the steps after it may also find. *)
Lemma spec_first {E A B} (m : Txn E A) (f : A → Txn E B) stg e0 (P : Prop) g Q1 Q :
  ends m stg Q1 (λ e, e = e0 ∧ P) →
  (∀ x stg', Q1 x stg' → txn_spec (f x) stg' ((e0, P) :: g) Q) → txn_spec (txn_bind m f) stg ((e0, P) :: g) Q.
Proof using.
  unfold ends, txn_spec, txn_bind. destruct (m stg) as [[[x|e] stg']|]; [|intros [-> ?] _|done]; cbn [mbind outcome_bind].
  - intros Hx Hf. by apply Hf.
  - by apply first_refusal_here.
Qed.

(** The last such step. *)
Lemma spec_last_end {E A B} (m : Txn E A) (f : A → Txn E B) stg e0 (P : Prop) g Q1 Q :
  ends m stg Q1 (λ e, e = e0 ∧ P) →
  (∀ x stg', Q1 x stg' → ¬ P ∧ txn_spec (f x) stg' g Q) → txn_spec (txn_bind m f) stg ((e0, P) :: g) Q.
Proof using.
  intros Hm Hf. eapply spec_first; [exact Hm|]. intros x stg' Hx. destruct (Hf x stg' Hx) as [Hn H]. unfold txn_spec in *.
  destruct (f x stg') as [[[b|e] stg'']|]; [| |done].
  - destruct H. split; [by constructor|done].
  - by apply first_refusal_next.
Qed.

(** *** The member: its mint, then its placing *)

(** What a shot stages: its re-inserts, one document, and one placing record. *)
Definition shot_staged (s : Slices) (doc : Address) (shot : Shot) (out : Address * Pairing) (rs : list CoreRec) : Prop :=
  ∃ f vals rs0 u r placement blocks,
    rs = (rs0 ++ [RecNamespace r]) ++ [RecArrangement (ShotPlace out.1 placement (terms_of shot) (sh_draft shot))] ∧
    Forall quiet rs0 ∧ staged debug s rs0 u ∧ core_ok u ∧ grew (trunk_of doc) s u vals ∧
    issued (sl_namespace u) (version_ns (anchor s doc shot)) true out.1 r ∧
    runs_ok placement ∧ flat placement = shot_target s shot f ∧
    remint s (trunk_of doc) shot f ∧ length vals = length (natives shot (stated (sh_runs shot))) ∧
    (∀ i a v, natives shot (stated (sh_runs shot)) !! i = Some a → vals !! i = Some v → stores (sl_content s) (tumbler a) v) ∧
    out.2 = concat blocks ∧ blocks_ok shot f (sh_runs shot) blocks.

(** A member minted under the anchor is of the trunk. *)
Lemma member_trunk ns d member r :
  level d = Document → issued ns (version_ns d) true member r → trunk_of member = trunk_of d.
Proof using.
  intros Hl Hi. destruct (issued_facts _ _ _ _ _ Hi) as (_ & Hm & _).
  pose proof (namespace_level _ _ _ Hm) as Hlm. rewrite Hl in Hlm. apply namespace_of_Some in Hm as [_ E].
  by apply (trunk_extend _ _ [ordinal (tumbler member)]).
Qed.

Lemma place_member_spec s doc shot f vals rs0 placement pairing blocks (stg : Staging) :
  on_base s rs0 stg → Forall quiet rs0 → core_ok s → core_ok (view stg) → grew (trunk_of doc) s (view stg) vals →
  runs_ok placement → flat placement = shot_target s shot f → remint s (trunk_of doc) shot f →
  length vals = length (natives shot (stated (sh_runs shot))) →
  (∀ i a v, natives shot (stated (sh_runs shot)) !! i = Some a → vals !! i = Some v → stores (sl_content s) (tumbler a) v) →
  pairing = concat blocks → blocks_ok shot f (sh_runs shot) blocks →
  is_registered_document (sl_namespace s) (anchor s doc shot) = true → trunk_of (anchor s doc shot) = trunk_of doc →
  published_target (sl_namespace s) doc = true →
  (∀ a, a ∈ shot_target s shot f → content_position a ∧ ∃ v, stores (sl_content (view stg)) (tumbler a) v) →
  txn_spec (
    w ←ₜ working_world;
    minted ←ₜ from_outcome (mint_version (m3 w) (anchor s doc shot) true);
    '(member, m3rec) ←ₜ from_result (map_err Mint minted);
    _ ←ₜ stage (of_core (RecNamespace m3rec));
    _ ←ₜ stage (of_core (RecArrangement (ShotPlace member placement (terms_of shot) (sh_draft shot))));
    txn_ret (member, pairing))%txn stg []
    (λ out stg', ∃ rs, on_base s rs stg' ∧ core_ok (view stg') ∧ shot_staged s doc shot out rs).
Proof using.
  intros Hb Hq Hok0 Hok G Hr Hfl Hf Hlen Hvals Hpair Hbl Ha Hta Hp Htgt. apply spec_working.
  change (m3 (working stg)) with (sl_namespace (view stg)).
  rewrite <- (g_docs _ _ _ _ G) in Ha. set (anc := anchor s doc shot) in *.
  pose proof (gated_mint (sl_namespace (view stg)) (version_ns anc) true
    (is_registered_document (sl_namespace (view stg)) anc) NsState.SourceNotRegistered (fam_version _ anc)) as Hm.
  apply (spec_seq _ _ stg [] []). eapply spec_mint; [exact Hm|done|]. intros member r Hi.
  eapply spec_bind; [reflexivity|]. cbv beta iota.
  assert (Hk : document_key (sl_namespace (view stg)) (version_ns anc)) by (left; by exists anc).
  apply (spec_stage_mid s rs0 stg (RecNamespace r)
    (λ w, core_ok w ∧ is_registered_document (sl_namespace w) member = true ∧
       sl_content w = sl_content (view stg) ∧ sl_arrangement w = sl_arrangement (view stg) ∧
       published_target (sl_namespace w) doc = true)); [done|..].
  { intros at1. destruct (document_step (view stg) _ true member r Hok Hk Hi at1) as (ns' & Hns & Hok' & Hdm).
    cbn [apply_slices]. rewrite Hns. eexists. split; [reflexivity|]. split_and!; [done|apply Hdm|done|done|].
    eapply published_grown; [apply Hdm|]. unfold published_target, published in *. by rewrite (g_publication _ _ _ _ G). }
  intros stg1 Hb1 (Hok1 & Hd & Ec & Ea & Hpub).
  assert (Htm : trunk_of member = trunk_of doc).
  { rewrite <- Hta. apply is_registered_document_ok in Ha as [Hl _]. by eapply member_trunk. }
  apply (spec_stage_mid s (rs0 ++ [RecNamespace r]) stg1 (RecArrangement (ShotPlace member placement (terms_of shot) (sh_draft shot))) core_ok); [done|..].
  - intros at2. destruct (arrangement_push (debug := debug) (view stg1) at2
      (ShotPlace member placement (terms_of shot) (sh_draft shot)) Hok1 Hr) as (s2 & ? & ? & _); [| |by exists s2].
    + cbn. destruct (sh_draft shot); [|done]. unfold published_target in *. by rewrite Htm.
    + intros d a. cbn [placed_by]. case_decide as Ed; [subst d|by intros ?%not_elem_of_nil]. rewrite Hfl, Ec.
      intros Hin. split; [done|by apply Htgt].
  - intros stg2 Hb2 Hok2. apply spec_ret. eexists. split; [exact Hb2|]. split; [done|].
    exists f, vals, rs0, (view stg), r, placement, blocks. destruct Hb as [_ Hst]. by split_and!.
Qed.

Lemma spec_gate_iff {E A} (m : Txn E A) stg (e : E) (P P' : Prop) Q :
  txn_spec m stg [(e, P)] Q → (P ↔ P') → txn_spec m stg [(e, P')] Q.
Proof using.
  unfold txn_spec. intros H HP. destruct (m stg) as [[[a|x] stg']|]; [| |done].
  - destruct H as [H ?]. split; [|done]. rewrite Forall_singleton in *. cbn in *. by rewrite <- HP.
  - apply first_refusal_cons in H as [[<- Hx]|[_ []%first_refusal_nil]]. apply first_refusal_here. by apply HP.
Qed.

(** The placement: a shot that states too much is refused, and only one. *)
Lemma place_target s doc shot f (stg : Staging) :
  on_base s [] stg → view stg = s → core_ok s → is_registered_document (sl_namespace s) (trunk_of doc) = true →
  remint s (trunk_of doc) shot f → stated_ok (sh_runs shot) → origins_stated s (sh_runs shot) →
  (∀ a, a ∈ stated (sh_runs shot) → ∃ v, stores (sl_content s) (tumbler a) v) →
  usize_len (length (natives shot (stated (sh_runs shot)))) →
  ends (place_supplied shot (trunk_of doc) 0 (settled <$> sh_runs shot) [] ∅ []) stg
    (λ x stg', ∃ rs' minted' blocks, placing s (trunk_of doc) shot f (stated (sh_runs shot)) stg' rs' x.1 minted' ∧
       x.2 = concat blocks ∧ blocks_ok shot f (sh_runs shot) blocks ∧ (N.of_nat (length x.1) ≤ MAX_PLACED_RUNS)%N)
    (λ e, e = TooManyRuns ∧ overfull (f <$> stated (sh_runs shot))).
Proof using.
  intros Hb Hv Hok Ht Hf Hr Ho Hst Hlen.
  apply (place_supplied_ok s (trunk_of doc) shot f Hok Ht Hf Hst [] (sh_runs shot) [] stg [] [] ∅); try done.
  - split; try done; [by rewrite Hv|exists []; rewrite Hv; split_and!; [apply grew_none|done|done]|..].
  - apply Forall_forall. intros r Hx. unfold stated_ok, origins_stated in *. rewrite Forall_forall in Hr, Ho.
    split; [by apply Hr|by apply Ho].
Qed.

Lemma member_runs_spec s doc shot f (stg : Staging) rs0 placement minted :
  core_ok s → placing s (trunk_of doc) shot f (stated (sh_runs shot)) stg rs0 placement minted →
  (N.of_nat (length placement) ≤ MAX_PLACED_RUNS)%N →
  ends (match sh_base shot with
       | Some base => (
           w ←ₜ working_world;
           runs ←ₜ from_outcome (content_runs_past (m5 w) (ba_member base) (ba_extent base));
           carry_tail runs placement)%txn
       | None => txn_ret placement
       end) stg
    (λ pl stg', stg' = stg ∧ runs_ok pl ∧ merged pl ∧ flat pl = shot_target s shot f ∧
       (N.of_nat (length pl) ≤ MAX_PLACED_RUNS)%N)
    (λ e, e = TooManyRuns ∧ overfull (shot_target s shot f)).
Proof using.
  intros Hok Hpl Hmax. pose proof (pg_runs _ _ _ _ _ _ _ _ _ Hpl) as Hr. pose proof (pg_merged _ _ _ _ _ _ _ _ _ Hpl) as Hm.
  pose proof (pg_flat _ _ _ _ _ _ _ _ _ Hpl) as Hfl. destruct (pg_vals _ _ _ _ _ _ _ _ _ Hpl) as (vals & G & _).
  unfold shot_target, base_tail. destruct (sh_base shot) as [b|].
  - unfold ends, txn_bind at 1, working_world. cbn [mbind outcome_bind]. unfold txn_bind, from_outcome.
    change (m5 (working stg)) with (sl_arrangement (view stg)). rewrite (g_arr _ _ _ _ G).
    destruct (runs_past_ok (sl_arrangement s) (ba_member b) (ba_extent b) (co_m5 _ Hok)) as (rs & E & Hrs & Hfs).
    rewrite E. cbn [mbind outcome_bind]. change (vmap (content_list (sl_arrangement s) (ba_member b))) with (contents s (ba_member b)) in Hfs. rewrite <- Hfs, <- Hfl.
    by apply carry_tail_ok.
  - unfold ends. cbn. by rewrite app_nil_r.
Qed.

Lemma publish_spec s caller doc shot readable (w0 : W) (stg : Staging) :
  on_base s [] stg → view stg = s → working stg = w0 → core_ok s → stated_ok (sh_runs shot) →
  txn_spec (stage_publish caller doc shot readable) stg (publish_gates s caller doc shot (readable w0))
    (λ out stg', ∃ rs, on_base s rs stg' ∧ core_ok (view stg') ∧ shot_staged s doc shot out rs).
Proof using.
  intros Hb Hv Hw Hok Hr. unfold stage_publish, publish_gates. cbv zeta.
  eapply spec_outcome; [by apply reinserted_natives|]. apply spec_working. rewrite Hw.
  assert (Hs0 : slices w0 = s) by by rewrite <- Hv, <- Hw.
  destruct (admit_shot_ok s caller doc shot w0 Hs0 Hok readable Hr) as (adm & Ea & Hadm).
  eapply spec_outcome; [exact Ea|].
  eapply spec_judged; [apply judged_passed, Hadm|]. intros _ [[-> Ho] Hg].
  destruct (anchor_registered s caller doc shot (readable w0) Hok Hg) as (_ & Hp & Ht & Hanc & Hta).
  destruct (remint_exists s (trunk_of doc) shot Ht) as [f Hf]. pose proof (remint_unique s (trunk_of doc) shot f) as Huniq.
  apply spec_refuse; [by rewrite N.ltb_lt|]. intros Hmany%N.ltb_ge. apply spec_working. rewrite Hw.
  assert (Hruns : st_run <$> (settled <$> sh_runs shot) = sr_run <$> sh_runs shot) by by rewrite <- list_fmap_compose.
  rewrite Hruns. destruct (union_flat (sr_run <$> sh_runs shot)) as (u & Eu & Hu); [by apply Forall_fmap|].
  rewrite flat_stated in Hu. eapply spec_outcome; [exact Eu|].
  apply (spec_seq _ _ stg [_]). eapply spec_conseq.
  { eapply (spec_gate_iff _ _ DanglingSource); [apply all_stored_ok; by rewrite Hs0|]. rewrite Hs0.
    split; intros Hn Hall; apply Hn; intros a Ha; by apply Hall, Hu. }
  cbv beta. intros _ stg' [-> Hst]. setoid_rewrite Hu in Hst. rewrite Hs0 in Hst. rewrite sum_widths, flat_stated.
  set (target := shot_target s shot f).
  assert (Hiff : (∃ g, remint s (trunk_of doc) shot g ∧ too_long (shot_target s shot g)) ↔ too_long target).
  { split; [|by exists f]. intros (g & Hg' & Hl). unfold target, shot_target in *. by rewrite (Huniq g). }
  apply (spec_gate_iff _ _ _ (too_long target)); [|by rewrite Hiff].
  pose proof (target_content s doc shot f Hok Ht Hf Hr Ho) as Hpos. fold target in Hpos.
  assert (Hadmit : Forall (λ a, admits_start a = true) target).
  { apply Forall_forall. intros a Ha. by apply content_position_admits, Hpos. }
  assert (Hlong : ∀ l, l `prefix_of` target → overfull l → too_long target).
  { intros l [k ->] (rs & rest & ? & ? & -> & ?). apply overfull_too_long; [|done]. exists rs, (rest ++ k).
    by rewrite app_assoc. }
  eapply spec_first.
  { eapply ends_conseq; [apply (place_target s doc shot f stg Hb Hv Hok Ht Hf Hr Ho Hst)|..].
    - unfold usize_len. unfold MAX_REINSERTED_VALUES, count in Hmany. lia.
    - intros x stg' Hx. exact Hx.
    - intros e [-> Hover]. split; [done|]. eapply Hlong; [|exact Hover]. by exists (base_tail s shot). }
  intros [placement0 pairing] stg1 (rs0 & minted' & blocks & Hpl & Hpair & Hbl & Hmax). cbn [fst snd] in *.
  eapply spec_last_end.
  { eapply ends_conseq; [by apply (member_runs_spec s doc shot f stg1 rs0 placement0 minted' Hok Hpl)|..].
    - intros x stg' Hx. exact Hx.
    - intros e [-> Hover]. split; [done|]. by eapply Hlong. }
  cbv beta. intros placement stg2 (-> & Hpr & Hpm & Hfl & Hle). destruct Hpl as [Hb1 Hq Hok1 (vals & G & Hlen & Hvals) _ _ _ _ _].
  split; [unfold target; rewrite <- Hfl; by apply not_too_long|].
  eapply (place_member_spec s doc shot f vals rs0 placement pairing blocks stg1); try done.
  intros a Ha. split; [by apply Hpos|by apply (target_stored s doc shot f (view stg1) vals)].
Qed.

(** *** Closures *)

Lemma stage_parts_closure trunk parts fresh : closure (stage_parts trunk parts fresh : Txn _ _).
Proof using.
  revert fresh. induction parts as [|[bytes|v] parts IH]; intros fresh; cbn [stage_parts]; closes;
    [apply allocate_stretch_closure|apply IH|apply allocate_closure|apply IH].
Qed.

Lemma place_portions_closure trunk home index portions placement minted pairing :
  closure (place_portions trunk home index portions placement minted pairing : Txn _ _).
Proof using.
  revert placement minted pairing. induction portions as [|[from to|piece] portions IH]; intros; cbn [place_portions]; closes;
    try apply IH. unfold reinsert. closes. apply stage_parts_closure.
Qed.

Lemma place_supplied_closure shot trunk index supplied placement minted pairing :
  closure (place_supplied shot trunk index supplied placement minted pairing : Txn _ _).
Proof using.
  revert index placement minted pairing. induction supplied as [|[run home] supplied IH]; intros; cbn [place_supplied]; closes;
    [apply place_portions_closure|apply IH].
Qed.

Lemma carry_tail_closure runs placement : closure (carry_tail runs placement : Txn _ _).
Proof using. revert placement. induction runs as [|r runs IH]; intros; cbn [carry_tail]; closes. apply IH. Qed.

Lemma all_stored_closure (w : W) runs : closure (all_stored w runs : Txn _ _).
Proof using. induction runs as [|r runs IH]; cbn [all_stored]; closes. apply IH. Qed.

Lemma stage_publish_closure caller doc shot readable : closure (stage_publish caller doc shot readable : Txn _ _).
Proof using.
  unfold stage_publish. closes; [apply all_stored_closure|apply place_supplied_closure|apply carry_tail_closure].
Qed.

Lemma publish_closure caller doc shot readable : closure (publish_in caller doc shot readable : Txn _ _).
Proof using. unfold publish_in. closes. apply stage_publish_closure. Qed.
End Publish.

(** ** What the shot leaves *)

Record shot_done (s s' : Slices) (p : Seq) (doc : Address) (shot : Shot) (f : Address → Address) (member : Address) : Prop := {
  sd_slot : nth_in (version_ns (anchor s doc shot)) (effective_frontier (sl_namespace s) (version_ns (anchor s doc shot)) + 1) =
    Done (Ok member);
  sd_trunk : trunk_of member = trunk_of doc;
  sd_fresh : is_allocated (sl_namespace s) member = false;
  sd_documents : ∀ d, is_registered_document (sl_namespace s') d = true ↔ is_registered_document (sl_namespace s) d = true ∨ d = member;
  sd_bit : publication (sl_namespace s') !! member = Some true;
  sd_bits : ∀ x b, publication (sl_namespace s) !! x = Some b → publication (sl_namespace s') !! x = Some b;
  sd_minted : minted_at (sl_namespace s') !! member = Some p;
  sd_principals : principals (sl_namespace s') = principals (sl_namespace s);
  sd_frontier : effective_frontier (sl_namespace s') (content_ns (trunk_of doc)) =
    (effective_frontier (sl_namespace s) (content_ns (trunk_of doc)) + count (natives shot (stated (sh_runs shot))))%N;
  sd_stores : ∀ t v, stores (sl_content s') t v ↔ stores (sl_content s) t v ∨
    ∃ a, a ∈ natives shot (stated (sh_runs shot)) ∧ t = tumbler (f a) ∧ stores (sl_content s) (tumbler a) v;
  sd_member : edited (sl_arrangement s) (sl_arrangement s') p member (shot_target s shot f);
  sd_terms : ∀ d, shot_terms (sl_arrangement s') !! d =
    if decide (member = d) then Some (terms_of shot) else shot_terms (sl_arrangement s) !! d;
  sd_bases : ∀ d, draft_base (sl_arrangement s') d =
    if decide (sh_draft shot = Some d)
    then Some (MkDraftBase member (count (shot_target s shot f)) (default member (db_source <$> draft_base (sl_arrangement s) d)) None)
    else draft_base (sl_arrangement s) d
}.

Lemma stores_unique c t v v' : store_ok c → stores c t v → stores c t v' → v = v'.
Proof. intros Hok. destruct (value_at_ok c t Hok) as (o & _ & Ho). rewrite <- !Ho. congruence. Qed.

(** The document minted under [d], and the content chain its trunk keeps. *)
Lemma version_not_content ns d h member r :
  level d = Document → level h = Document → issued ns (version_ns d) true member r → version_ns d ≠ content_ns h.
Proof.
  intros Hd Hh Hi E. destruct (issued_facts _ _ _ _ _ Hi) as (_ & Hm & _).
  pose proof (namespace_level _ _ _ Hm) as Hl. rewrite E in Hm. apply (content_slot h member Hh) in Hm.
  apply element_field_level in Hm. rewrite Hd in Hl. cbn in Hl. congruence.
Qed.

(** The mint, folded at the call's coordinate over what the re-inserts left. *)
Lemma mint_folded ns p d member ns' :
  m3_ok ns → level d = Document → namespace_of member = Some (version_ns d) → is_allocated ns member = false →
  apply_m3 ns p (Allocate (MkAllocation member true)) = Done ns' →
  document_minted ns ns' p member true ∧
  ∀ key, key ≠ version_ns d → effective_frontier ns' key = effective_frontier ns key.
Proof.
  intros Hok Hl Hk Hfresh Ha. pose proof (namespace_level _ _ _ Hk) as Hlm. rewrite Hl in Hlm.
  destruct (document_fold ns member true p ns' Hok Hlm Hfresh Ha) as (H1 & H2 & H3 & H4 & H5). split.
  - split; try done. intros x b Hx. rewrite <- Hx. pose proof Hx as Hx'.
    apply apply_allocate in Ha as (? & _ & _ & ->). cbn [publication]. rewrite bool_decide_eq_true_2 by done.
    unfold insert_absent. clear H1 H2 H3 H4 H5. case_bool_decide as Hs; [done|]. apply lookup_insert_ne. intros E. apply Hs. rewrite E. by eexists.
  - intros key Hne. apply apply_allocate in Ha as (key' & Hk' & _ & ->). rewrite Hk in Hk'. injection Hk' as <-.
    unfold effective_frontier. cbn [frontiers]. by rewrite lookup_insert_ne.
Qed.

(** What the placing record leaves of the arrangements. *)
Lemma placing_folded a p member placement shot a' :
  state_ok a → runs_ok placement → vmap (content_list a member) = [] →
  apply_m5 a p (ShotPlace member placement (terms_of shot) (sh_draft shot)) = Done a' →
  edited a a' p member (flat placement) ∧
  (∀ d, shot_terms a' !! d = if decide (member = d) then Some (terms_of shot) else shot_terms a !! d) ∧
  ∀ d, draft_base a' d = if decide (sh_draft shot = Some d)
    then Some (MkDraftBase member (count (flat placement)) (default member (db_source <$> draft_base a d)) None)
    else draft_base a d.
Proof.
  intros Hok Hr He Ha.
  destruct (apply_m5_ok a p (ShotPlace member placement (terms_of shot) (sh_draft shot)) Hok Hr)
    as (a2 & Ha' & [_ [Hc Hl] _]). rewrite Ha in Ha'. injection Ha' as <-.
  pose proof (apply_meta _ _ _ (ShotPlace member placement (terms_of shot) (sh_draft shot)) Hok Hr Ha) as [_ Ht _ Hm Hb]. cbn [spec_step docs_of d_content d_link] in *.
  assert (Hins : insert_at 1 (flat placement) (vmap (content_list a member)) = flat placement).
  { rewrite He. unfold insert_at. cbn. by rewrite take_nil, drop_nil, app_nil_r. }
  split_and!.
  - split.
    + rewrite Hc. unfold upd. by rewrite decide_True, Hins.
    + intros d Hd. rewrite Hc. unfold upd. by rewrite decide_False.
    + intros d. apply Hl.
    + unfold arranged_at_of. rewrite Hm. cbn. by rewrite bool_decide_eq_true_2.
    + intros d Hd. unfold arranged_at_of. rewrite Hm. cbn. by rewrite bool_decide_eq_false_2.
  - intros d. rewrite Ht. cbn. by case_decide.
  - intros d. unfold draft_base. rewrite Hb. cbn. rewrite Hins. destruct (sh_draft shot) as [x|]; [|done].
    destruct (decide (x = d)) as [->|]; [by rewrite decide_True|by rewrite decide_False by congruence].
Qed.

(** What the drafts' values became, position by position. *)
Lemma reminted_stores s u trunk shot f vals :
  store_ok (sl_content s) → remint s trunk shot f → grew trunk s u vals →
  length vals = length (natives shot (stated (sh_runs shot))) →
  (∀ i a v, natives shot (stated (sh_runs shot)) !! i = Some a → vals !! i = Some v → stores (sl_content s) (tumbler a) v) →
  ∀ t v, stores (sl_content u) t v ↔ stores (sl_content s) t v ∨
    ∃ a, a ∈ natives shot (stated (sh_runs shot)) ∧ t = tumbler (f a) ∧ stores (sl_content s) (tumbler a) v.
Proof.
  intros Hok [Hn _] G Hlen Hv t v. rewrite (g_stores _ _ _ _ G). apply or_iff_compat_l. split.
  - intros (i & Hi & Ht). destruct (lookup_lt_is_Some_2 (natives shot (stated (sh_runs shot))) i) as [a Ha].
    { rewrite <- Hlen. by eapply lookup_lt_Some. }
    exists a. split_and!; [by eapply list_elem_of_lookup_2| |by eapply Hv].
    by eapply content_at_inj, Hn.
  - intros (a & [i Hi]%list_elem_of_lookup & -> & Hs). exists i. split; [|by apply Hn].
    destruct (lookup_lt_is_Some_2 vals i) as [v' Hv']; [rewrite Hlen; by eapply lookup_lt_Some|].
    by rewrite (stores_unique _ _ v v' Hok Hs (Hv i a v' Hi Hv')).
Qed.

Lemma shot_folded debug s s' p doc shot out rs :
  core_ok s → is_registered_document (sl_namespace s) (trunk_of doc) = true →
  is_registered_document (sl_namespace s) (anchor s doc shot) = true → trunk_of (anchor s doc shot) = trunk_of doc →
  shot_staged (debug := debug) s doc shot out rs → fold_slices (debug := debug) s p rs = Done s' →
  ∃ f blocks, remint s (trunk_of doc) shot f ∧ shot_done s s' p doc shot f out.1 ∧
    out.2 = concat blocks ∧ blocks_ok shot f (sh_runs shot) blocks.
Proof.
  intros Hok Ht Ha Hta (f & vals & rs0 & u & r & placement & blocks & -> & Hq & Hst & Hoku & G & Hi & Hr & Hfl & Hf & Hlen & Hv & Hp & Hbl) Hfold.
  exists f, blocks. split; [done|]. split; [|done].
  pose proof Ha as [Hla _]%is_registered_document_ok. pose proof Ht as [Hlt _]%is_registered_document_ok.
  pose proof (version_not_content _ _ (trunk_of doc) _ _ Hla Hlt Hi) as Hkey.
  assert (Hq' : Forall quiet (rs0 ++ [RecNamespace r])) by (apply Forall_app; split; [done|by repeat constructor]).
  pose proof (fold_quiet_then debug s p _ _ s' Hfold Hq') as Harr.
  destruct (staged_seal debug s rs0 u p Hst) as (s1 & Hs1 & Hsame). destruct (same_ns _ _ Hsame) as (Hfr & Hal & Hd).
  unfold fold_slices in Hfold. rewrite <- app_assoc, fold_world_app, Hs1 in Hfold. cbn [mbind outcome_bind app] in Hfold.
  rewrite fold_world_cons in Hfold. apply bind_inv in Hfold as (s2 & H2 & H3).
  change (apply_slices debug s1 p (RecNamespace r) = Done s2) in H2. cbn [apply_slices] in H2.
  apply bind_inv in H2 as (ns' & Hns & [= <-]). apply fold_one_arrangement in H3 as (arr & _ & ->).
  cbn [sl_namespace sl_content sl_arrangement] in *.
  destruct (issued_facts _ _ _ _ _ Hi) as (-> & Hk & _ & Hfresh & _).
  assert (Hok1 : core_ok s1) by by eapply core_ok_same.
  destruct (mint_folded (sl_namespace s1) p _ out.1 ns' (co_m3 _ Hok1) Hla Hk) as [[M1 M2 M3 M4 M5 M6 M7] Hfront];
    [by rewrite Hal|done|].
  assert (Hpub : publication (sl_namespace s1) = publication (sl_namespace s)).
  { rewrite (same_publication _ _ Hsame). apply G. }
  assert (Hnew : is_allocated (sl_namespace s) out.1 = false).
  { apply not_true_iff_false. intros Hx. apply (g_grown _ _ _ _ G) in Hx. congruence. }
  destruct (placing_folded (sl_arrangement s) p out.1 placement shot arr (co_m5 _ Hok) Hr) as (P1 & P2 & P3);
    [by apply unregistered_empty|done|]. rewrite Hfl in *.
  split; cbn [sl_namespace sl_content sl_arrangement]; try done.
  - rewrite <- (g_chains _ _ _ _ G _ Hkey). apply Hi.
  - rewrite <- Hta. by eapply member_trunk.
  - intros d. rewrite <- (g_docs _ _ _ _ G), <- Hd, !is_registered_document_ok, M6.
    assert (level out.1 = Document) by (pose proof (namespace_level _ _ _ Hk) as E; by rewrite Hla in E).
    naive_solver.
  - intros x b. rewrite <- Hpub. apply M5.
  - rewrite M7, (same_principals _ _ Hsame). apply G.
  - rewrite Hfront by done. rewrite Hfr, (g_frontier _ _ _ _ G), Hlen. done.
  - rewrite (same_content _ _ Hsame). by eapply reminted_stores; [apply Hok|..].
Qed.

(** The two signed forms spell alike: the member's, read back, and the request's. *)
Lemma forms_of_shot s s' p doc shot f member :
  state_ok (sl_arrangement s') → stated_ok (sh_runs shot) → is_registered_document (sl_namespace s) (trunk_of doc) = true →
  remint s (trunk_of doc) shot f → shot_done s s' p doc shot f member →
  ∃ form, address_form_of (sl_arrangement s') member (count (stated (sh_runs shot))) = Done form ∧
    spelled form = spelled (address_form shot doc).
Proof.
  intros Ha Hr Ht [Hn Ho] D. pose proof Ht as [Hl _]%is_registered_document_ok.
  apply (forms_agree shot doc (sl_arrangement s') member f Ha (sd_trunk _ _ _ _ _ _ _ D) Hr).
  - rewrite (ed_here _ _ _ _ _ (sd_member _ _ _ _ _ _ _ D)). unfold shot_target.
    by rewrite take_app_length' by (by rewrite length_fmap).
  - intros a Hin Hby. destruct (native shot a) eqn:Hna.
    + assert (a ∈ natives shot (stated (sh_runs shot))) as [i Hi]%list_elem_of_lookup by by apply elem_of_natives.
      rewrite (origin_content_at (trunk_of doc) (f a) _ Hl (Hn i a Hi)). by rewrite trunk_idem.
    + rewrite Ho by done. unfold by_value, native in *. destruct (origin_of a) as [d|]; [|done].
      rewrite Hna, orb_false_r in Hby. apply bool_decide_eq_true in Hby. by rewrite Hby.
  - intros a _ Hby. apply Ho. unfold by_value, native in *. destruct (origin_of a) as [d|]; [|done].
    by apply orb_false_iff in Hby as [_ ?].
Qed.

Section Call.
Context {debug : bool} {W R Bytes : Type} `{WS : WorldState W R} `{HS : !HasSlices debug W R}.
Context (encode_record : R → Bytes).
#[local] Notation Kernel := (Kernel (W := W) (Bytes := Bytes)).
#[local] Notation Txn := (Txn (W := W) (R := R)).

(** The staged shot as a transaction, its whole answer. *)
Lemma shot_call {T} (k : Kernel) answer caller doc shot (readable : W → Address → bool)
    (f : Txn PublishError T) (g : Address * Pairing → T) :
  let s := root_slices k in
  closure f → core_ok s → stated_ok (sh_runs shot) →
  (∀ stg gates Q, txn_spec (stage_publish caller doc shot readable) stg gates (λ out, Q (g out)) → txn_spec f stg gates Q) →
  ∃ k' e, transact encode_record k answer f = Done (k', e) ∧ core_ok (root_slices k') ∧
    answers k k' e (publish_gates s caller doc shot (readable (c_world (k_root k)))) (λ v p, ∃ out f blocks,
      v = g out ∧ remint s (trunk_of doc) shot f ∧ shot_done s (root_slices k') p doc shot f out.1 ∧
      out.2 = concat blocks ∧ blocks_ok shot f (sh_runs shot) blocks ∧
      ∃ form, address_form_of (sl_arrangement (root_slices k')) out.1 (count (stated (sh_runs shot))) = Done form ∧
        spelled form = spelled (address_form shot doc)).
Proof using.
  intros s Hcl Hok Hr Hf.
  destruct (core_ends (debug := debug) encode_record k answer f (publish_gates s caller doc shot (readable (c_world (k_root k))))
    (λ v rs _, ∃ out, v = g out ∧ shot_staged (debug := debug) s doc shot out rs) Hcl) as (k' & e & Ht & Hroot & He).
  { intros first. apply Hf. eapply spec_conseq; [by apply publish_spec; [apply on_base_new|..]|].
    cbv beta. intros out stg' (rs & ? & ? & ?). exists rs. split_and!; [done|done|by exists out]. }
  exists k', e. split; [done|].
  assert (Hk' : core_ok (root_slices k')).
  { destruct Hroot as [E|(v & p & _ & rs & u & Hu & _ & Hsame & _)]; [unfold root_slices; by rewrite E|].
    by eapply core_ok_same. }
  split; [done|]. destruct e as [[[v p]|[er| | | |]]|]; try done.
  destruct He as (Hg & rs & u & _ & (out & -> & Hst) & _ & Hfold). split; [done|].
  pose proof Hg as Hg'. unfold publish_gates in Hg'. apply Forall_app in Hg' as [Hadm _].
  destruct (anchor_registered s caller doc shot _ Hok Hadm) as (_ & _ & Htr & Hanc & Hta).
  destruct (shot_folded debug s (root_slices k') p doc shot out rs Hok Htr Hanc Hta Hst Hfold) as (f' & blocks & Hre & Hd & Hp & Hb).
  exists out, f', blocks. split_and!; try done. eapply forms_of_shot; [apply Hk'|done..].
Qed.
End Call.

(** ** The claims *)

(** C4. PUBLISH from a sound root never panics and leaves a sound one, and refuses by its
    pinned order: registration, ownership, the base's registration, each named
    draft's registration and owner, each run's origin and its registration, the
    document's publication, the base's shape, the caller's right to each origin the
    base does not already arrange, the cap on re-inserted values, a stated position
    that holds nothing, and the cap on the member's runs, which refuses exactly when
    the one canonical run-list of what the member would hold has more; no mint and no
    store refusal ever reaches the caller. Acknowledged, the member is the anchor's
    next version, fresh before, the one new document, published, minted at the
    call's coordinate; each distinct position of a named draft holds its value again
    at the trunk's next content position, in the order the shot meets them, and
    nothing else is stored; the member holds the stated positions under that
    renaming, then what the base holds past the extent the copy took; no other
    arrangement moved; its terms and the named draft's base are the shot's; and the
    member's address form spells what the request's does. *)
Theorem publish_exact {debug : bool} {W R Bytes : Type} `{WS : WorldState W R} `{HS : !HasSlices debug W R}
    (encode_record : R → Bytes) (k : Kernel (W := W) (Bytes := Bytes)) (answer : CommitAnswer)
    (caller : Caller) (doc : Address) (shot : Shot) (readable : W → Address → bool) :
  let s := root_slices k in
  core_ok s → stated_ok (sh_runs shot) →
  ∃ k' e, publish encode_record k answer caller doc shot readable = Done (k', e) ∧ core_ok (root_slices k') ∧
    answers k k' e (publish_gates s caller doc shot (readable (c_world (k_root k)))) (λ member p, ∃ f,
      remint s (trunk_of doc) shot f ∧ shot_done s (root_slices k') p doc shot f member ∧
      ∃ form, address_form_of (sl_arrangement (root_slices k')) member (count (stated (sh_runs shot))) = Done form ∧
        spelled form = spelled (address_form shot doc)).
Proof.
  intros s Hok Hr.
  destruct (shot_call encode_record k answer caller doc shot readable (publish_in caller doc shot readable) fst)
    as (k' & e & Ht & Hok' & He); [apply publish_closure|done|done| |].
  - intros stg gates Q Hs. unfold publish_in. rewrite <- (app_nil_r gates). apply spec_seq.
    eapply spec_conseq; [exact Hs|]. cbv beta. intros [member pairing] stg' HQ. by apply spec_ret.
  - exists k', e. split; [exact Ht|]. split; [done|]. destruct e as [[[member p]|[er| | | |]]|]; try done.
    destruct He as (Hg & out & f & blocks & -> & ? & ? & _ & _ & ?). split; [done|]. by exists f.
Qed.

(** C31. The pairing a composite is handed with the member: one block of entries to
    each stated run, in order, the block of a draft's run tiling the run and every
    other block empty; each entry gives the origin the run names, the run's index,
    and where the piece landed, a run of the member carrying the shot's renaming; the
    entries marked minted are exactly the positions re-inserted, each once, in the
    order of their new positions. *)
Theorem pairing_exact {debug : bool} {W R Bytes : Type} `{WS : WorldState W R} `{HS : !HasSlices debug W R}
    (encode_record : R → Bytes) (k : Kernel (W := W) (Bytes := Bytes)) (answer : CommitAnswer)
    (caller : Caller) (doc : Address) (shot : Shot) (readable : W → Address → bool) :
  let s := root_slices k in
  core_ok s → stated_ok (sh_runs shot) →
  ∃ k' e, transact encode_record k answer (stage_publish caller doc shot readable) = Done (k', e) ∧
    answers k k' e (publish_gates s caller doc shot (readable (c_world (k_root k)))) (λ out p, ∃ f blocks,
      remint s (trunk_of doc) shot f ∧ shot_done s (root_slices k') p doc shot f out.1 ∧
      out.2 = concat blocks ∧ blocks_ok shot f (sh_runs shot) blocks).
Proof.
  intros s Hok Hr.
  destruct (shot_call encode_record k answer caller doc shot readable (stage_publish caller doc shot readable) id)
    as (k' & e & Ht & _ & He); [apply stage_publish_closure|done|done|done|].
  exists k', e. split; [exact Ht|]. destruct e as [[[[member pairing] p]|[er| | | |]]|]; try done.
  destruct He as (Hg & out & f & blocks & -> & ? & ? & ? & ? & _). split; [done|]. by exists f, blocks.
Qed.

(** C32. The admissions a door asks ahead of a shot never panic and refuse by their
    order: the shot's by exactly the refusals that open PUBLISH's own, and that of a
    shot which mints its edition by the account's registration and owner, a base
    named at all, then the same judgements of drafts and runs, and the source gate
    with no origin exempt. *)
Theorem shot_admission_exact {debug : bool} {W R : Type} `{WS : WorldState W R} `{HS : !HasSlices debug W R}
    (w : W) (caller : Caller) (doc account : Address) (shot : Shot) (readable : W → Address → bool) :
  let s := slices w in
  core_ok s → stated_ok (sh_runs shot) →
  (∃ r, shot_admission w caller doc shot readable = Done r ∧
     judged r (admission_gates s caller doc shot (readable w)) (λ _, True)) ∧
  judged (mint_admission w caller account shot readable) (mint_gates s caller shot w readable account) (λ _, True).
Proof.
  intros s Hok Hr. split; [|by apply mint_admission_ok].
  destruct (admit_shot_ok s caller doc shot w eq_refl Hok readable Hr) as (r & E & H).
  unfold shot_admission. rewrite E. eexists. split; [reflexivity|]. destruct r as [ad|e]; [|exact H]. by destruct H.
Qed.
