(* ===== verification/SetArrCalls.v ===== *)
(** * SET_ARRANGEMENT

    One transaction that replaces a draft's whole content: the request's pairs judged
    against the chains they must lie in, the standing content removed by DELETE's
    body, the stated runs placed by REINSTATE's, the base recorded. The conversions
    of the two inner verdicts have unreachable arms, and no call reaches one. *)

From stdpp Require Import gmap.
From S2P Require Import Prelude Txns Tumblers Addresses AddrMaps Arith Spans NsKeys NsState NsLaws NsOps NsInv NsCalls NsReach Runs Content RunLists VSpace Provenance Chain ArrState ArrReads World Edits EditInv EditSteps EditCalls CopyCalls.

#[local] Arguments apply_m3 : simpl never.
#[local] Arguments apply_m5 : simpl never.
#[local] Arguments published_target : simpl never.
#[local] Arguments content_list : simpl never.
#[local] Arguments trunk_of : simpl never.

Notation SetError := SetArr.SetArrangementError.

(** ** The judgments, as gates *)

Definition pair_gates (s : Slices) (pair : Base) (trunk : Address) : list (SetError * Prop) :=
  [ (SetArr.SourceNotRegistered, is_registered_document (sl_namespace s) (ba_member pair) = false);
    (SetArr.BaseNotInChain, ba_member pair ≠ trunk ∧ trunk_of (ba_member pair) ≠ trunk);
    (SetArr.BaseExtentTooLarge, (count (contents s (ba_member pair)) < ba_extent pair)%N) ].

(** The published surface a draft with no recorded base was forked from. *)
Definition fork_from (s : Slices) (doc : Address) : option Address :=
  match draft_base (sl_arrangement s) doc, fork_source (sl_arrangement s) doc with
  | None, Some source => if published_target (sl_namespace s) source then Some source else None
  | _, _ => None
  end.

Definition head_gates (s : Slices) (doc : Address) (head : option Base) : list (SetError * Prop) :=
  match head with
  | None => []
  | Some head =>
      match draft_base (sl_arrangement s) doc, fork_from s doc with
      | Some standing, _ => pair_gates s head (trunk_of (db_base standing))
      | None, Some source =>
          pair_gates s head (trunk_of source) ++ [(SetArr.ForkBaseMoved source, source ≠ ba_member head)]
      | None, None =>
          [(SetArr.SourceNotRegistered, is_registered_document (sl_namespace s) (ba_member head) = false)]
      end
  end.

Definition base_gates (s : Slices) (doc : Address) (base : option Base) : list (SetError * Prop) :=
  match base, draft_base (sl_arrangement s) doc with
  | None, _ => []
  | Some _, None => [(SetArr.NoBaseToRecord, True)]
  | Some base, Some standing => pair_gates s base (trunk_of (db_base standing))
  end.

(** REINSTATE's verdicts on the runs, by this operation's names. *)
Definition lowered (e : Reinstate.ReinstateError) : SetError :=
  match SetArr.of_reinstate e with Done f => f | Panicked => SetArr.TooManyRuns end.

Definition set_gates (s : Slices) (caller : Caller) (doc : Address) (request : SetArr.SetArrangement) (as_of : AsOf) :
    list (SetError * Prop) :=
  edit_gates SetArr.DocNotRegistered SetArr.NotOwner SetArr.PublishedTarget SetArr.ArrangementMoved s caller doc as_of ++
  head_gates s doc (SetArr.sa_head request) ++ base_gates s doc (SetArr.sa_base request) ++
  ((λ g, (lowered g.1, g.2)) <$> stated_gates s (SetArr.sa_runs request) []).

(** The head the request names, against the chain's current one. *)
Definition head_tell (s : Slices) (request : SetArr.SetArrangement) : option Address :=
  match SetArr.sa_head request with
  | None => None
  | Some head =>
      match trunk_head (sl_namespace s) (ba_member head) with
      | Done (Some current) => if decide (current = ba_member head) then None else Some current
      | _ => None
      end
  end.

(** The base recorded, if one is. *)
Definition base_set (s : Slices) (doc : Address) (request : SetArr.SetArrangement) : option M5Rec :=
  match SetArr.sa_base request, draft_base (sl_arrangement s) doc with
  | Some base, Some standing =>
      Some (DraftBaseRec doc (ba_member base) (ba_extent base) (db_source standing)
        match SetArr.sa_head request, SetArr.sa_merge request with
        | Some head, Some sides => Some (MkMerge sides (ba_member head) (ba_extent head))
        | _, _ => None
        end)
  | _, _ => None
  end.

Lemma in_chain_ok member trunk :
  SetArr.in_chain member trunk = false ↔ member ≠ trunk ∧ trunk_of member ≠ trunk.
Proof. unfold SetArr.in_chain. by rewrite orb_false_iff, !bool_decide_eq_false. Qed.

(** A member of a published chain is published: the judgment's precondition. *)
Lemma chain_published ns member a :
  published_target ns a = true → SetArr.in_chain member (trunk_of a) = true → published_target ns member = true.
Proof.
  intros Hp [E|E]%orb_true_iff; apply bool_decide_eq_true in E; unfold published_target in *.
  - rewrite E. by rewrite trunk_idem.
  - by rewrite E.
Qed.

Section SetArr.
Context {debug : bool} {W R Bytes : Type} `{WS : WorldState W R} `{HS : !HasSlices debug W R}.
Context (encode_record : R → Bytes).
#[local] Notation Kernel := (Kernel (W := W) (Bytes := Bytes)).
#[local] Notation Staging := (Staging (W := W) (R := R)).
#[local] Notation Txn := (Txn (W := W) (R := R)).

(** A pair judged against a published chain: never past a debug assertion. *)
Lemma spec_judge_pair {A} s pair a (f : unit → Txn SetError A) (stg : Staging) gates Q :
  published_target (sl_namespace s) a = true →
  txn_spec (f tt) stg gates Q →
  txn_spec (txn_bind (from_outcome (SetArr.judge_pair debug (sl_namespace s) (sl_arrangement s) pair (trunk_of a)))
    (λ judged, txn_bind (from_result judged) f)) stg (pair_gates s pair (trunk_of a) ++ gates) Q.
Proof using HS.
  intros Hp Hf. unfold SetArr.judge_pair, SetArr.judge_registration, pair_gates.
  destruct (is_registered_document (sl_namespace s) (ba_member pair)) eqn:Hd.
  2: { eapply spec_outcome; [reflexivity|]. by apply first_refusal_here. }
  destruct (SetArr.in_chain (ba_member pair) (trunk_of a)) eqn:Hc; cbn [negb].
  2: { eapply spec_outcome; [reflexivity|]. apply first_refusal_next; [done|]. apply first_refusal_here. by apply in_chain_ok. }
  rewrite (chain_published _ _ _ Hp Hc). unfold debug_assert.
  assert ((if debug then assert true else Done tt) = Done tt) as -> by by destruct debug.
  cbn [mbind outcome_bind].
  assert (Hn : ¬ (ba_member pair ≠ trunk_of a ∧ trunk_of (ba_member pair) ≠ trunk_of a)).
  { intros H%in_chain_ok. congruence. }
  rewrite content_count_ok. fold (contents s (ba_member pair)).
  eapply spec_outcome; [reflexivity|].
  destruct (N.ltb_spec (count (vmap (content_list (sl_arrangement s) (ba_member pair)))) (ba_extent pair)) as [Hlt|Hge].
  - apply first_refusal_next; [done|]. apply first_refusal_next; [done|]. by apply first_refusal_here.
  - unfold txn_spec, txn_bind, from_result in *. cbn. destruct (f tt stg) as [[[b|e] stg']|]; [| |done].
    + destruct Hf as [Hg HQ]. split; [|done]. do 2 (constructor; [done|]). constructor; [cbn; lia|done].
    + apply first_refusal_next; [done|]. apply first_refusal_next; [done|]. apply first_refusal_next; [cbn; lia|done].
Qed.

Lemma spec_last {E} (b : bool) (e : E) (P : Prop) (stg : Staging) :
  (b = true ↔ P) → txn_spec (refuse_if b e : Txn E unit) stg [(e, P)] (λ _ stg', stg' = stg).
Proof using HS.
  intros HP. unfold txn_spec, refuse_if. destruct b; cbn; [by apply first_refusal_here, HP|].
  split; [|done]. repeat constructor. cbn. intros H%HP. done.
Qed.

Lemma spec_registration s (pair : Base) (stg : Staging) :
  txn_spec (txn_bind (from_outcome (Done (SetArr.judge_registration (sl_namespace s) pair)))
    (λ judged, txn_bind (from_result judged) (λ _, txn_ret tt)) : Txn SetError unit) stg
    [(SetArr.SourceNotRegistered, is_registered_document (sl_namespace s) (ba_member pair) = false)] (λ _ stg', stg' = stg).
Proof using HS.
  unfold SetArr.judge_registration. destruct (is_registered_document _ _); [|by apply first_refusal_here].
  split; [|done]. by repeat constructor.
Qed.

Lemma spec_pure {E A B} (m : Txn E A) (f : A → Txn E B) (stg : Staging) g1 g2 Q :
  txn_spec m stg g1 (λ a stg', stg' = stg ∧ txn_spec (f a) stg g2 Q) → txn_spec (txn_bind m f) stg (g1 ++ g2) Q.
Proof using HS. intros H. apply spec_seq. eapply spec_conseq; [exact H|]. cbv beta. by intros a stg' [-> ?]. Qed.

Lemma spec_seq_end {E A B} (m : Txn E A) (f : A → Txn E B) (stg : Staging) gates Q :
  txn_spec m stg gates (λ a stg', txn_spec (f a) stg' [] Q) → txn_spec (txn_bind m f) stg gates Q.
Proof using HS. intros H. rewrite <- (app_nil_r gates). by apply spec_seq. Qed.

Lemma judge_request_ok s doc request (w : W) (stg : Staging) :
  slices w = s → core_ok s →
  txn_spec (SetArr.judge_request w doc request : Txn _ _) stg
    (head_gates s doc (SetArr.sa_head request) ++ base_gates s doc (SetArr.sa_base request) ++ [])
    (λ r stg', stg' = stg ∧ r = (draft_base (sl_arrangement s) doc, head_tell s request)).
Proof using.
  intros <- Hok. unfold SetArr.judge_request. cbv zeta.
  change (m3 w) with (sl_namespace (slices w)). change (m5 w) with (sl_arrangement (slices w)).
  set (s := slices w) in *.
  apply spec_pure. eapply spec_conseq with (Q := λ _ stg', stg' = stg).
  { unfold head_gates, fork_from. destruct (SetArr.sa_head request) as [head|]; [|by split].
    destruct (draft_base (sl_arrangement s) doc) as [b|] eqn:Eb.
    - rewrite <- (app_nil_r (pair_gates _ _ _)). apply spec_judge_pair; [by apply (co_bases s Hok doc)|by split].
    - destruct (fork_source (sl_arrangement s) doc) as [source|]; cbn [fmap option_fmap option_map].
      + destruct (published_target (sl_namespace s) source) eqn:Hp.
        * apply spec_judge_pair; [done|]. apply spec_last. rewrite negb_true_iff. apply bool_decide_eq_false.
        * apply spec_registration.
      + apply spec_registration. }
  intros [] stg' ->. split; [done|]. apply spec_pure. eapply spec_conseq with (Q := λ _ stg', stg' = stg).
  { unfold base_gates. destruct (SetArr.sa_base request) as [base|]; [|by split].
    destruct (draft_base (sl_arrangement s) doc) as [b|] eqn:Eb.
    - rewrite <- (app_nil_r (pair_gates _ _ _)).
      pose proof (spec_judge_pair s base (db_base b) (λ _, txn_ret tt) stg [] (λ _ stg', stg' = stg)
        (co_bases s Hok doc b Eb) ltac:(by split)) as H.
      unfold txn_spec, txn_bind, from_outcome, from_result, txn_ret in *.
      destruct (SetArr.judge_pair _ _ _ _ _) as [[[]|e]|]; cbn in *; done.
    - by apply first_refusal_here. }
  intros [] stg' ->. split; [done|]. unfold head_tell. destruct (SetArr.sa_head request) as [head|].
  - pose proof (trunk_head_ok (sl_namespace s) (ba_member head)) as Ht.
    destruct (trunk_head (sl_namespace s) (ba_member head)) as [[c|]|]; [| |done];
      (eapply spec_outcome; [reflexivity|]); split; try done. split; [done|]. by case_bool_decide; case_decide.
  - eapply spec_outcome; [reflexivity|]. by split.
Qed.

Lemma spec_passed {E A} (m : Txn E A) (stg : Staging) gates Q :
  txn_spec m stg gates Q → txn_spec m stg gates (λ a stg', Forall (λ g, ¬ g.2) gates ∧ Q a stg').
Proof using HS. unfold txn_spec. destruct (m stg) as [[[a|e] stg']|]; tauto. Qed.

Lemma map_err_closure {E F A} (f : E → outcome F) (m : Txn E A) : closure m → closure (SetArr.txn_map_err f m).
Proof using HS.
  intros Hm stg r stg' ([x s1] & H1 & H2)%bind_inv. apply Hm in H1. destruct x as [a|e].
  - by injection H2 as <- <-.
  - by apply bind_inv in H2 as (e' & _ & [= <- <-]).
Qed.

(** A body under the verdicts' conversion. *)
Lemma spec_map_err {E F A} (f : E → outcome F) (m : Txn E A) (stg : Staging) gates gates' Q :
  txn_spec m stg gates Q → (∀ e, first_refusal gates e → ∃ e', f e = Done e' ∧ first_refusal gates' e') →
  (Forall (λ g, ¬ g.2) gates → Forall (λ g, ¬ g.2) gates') →
  txn_spec (SetArr.txn_map_err f m) stg gates' Q.
Proof using HS.
  unfold txn_spec, SetArr.txn_map_err. intros H He Hg. destruct (m stg) as [[[a|e] stg']|]; cbn; [|..|done].
  - destruct H as [? ?]. split; [by apply Hg|done].
  - destruct (He e H) as (e' & -> & ?). done.
Qed.
End SetArr.

(** ** The two inner bodies *)

Lemma whole_span_gates s caller doc :
  is_registered_document (sl_namespace s) doc = true → owns (sl_namespace s) caller doc →
  published_target (sl_namespace s) doc = false → contents s doc ≠ [] →
  Forall (λ g, ¬ g.2) (delete_gates s caller doc (VPos_content 1) (count (contents s doc)) Unchecked).
Proof.
  intros Hd Ho Hp Hne. unfold delete_gates, edit_gates. cbn [moved_gates app].
  assert (Hc : (count (contents s doc) ≠ 0)%N) by (unfold count; destruct (contents s doc); [done|cbn; lia]).
  rewrite !Forall_cons. cbn [fst snd VPos_content vp_subspace vp_ordinal].
  split_and!; [congruence|tauto|congruence|tauto| | | |by constructor]; lia.
Qed.

Lemma stated_gates_same s s1 runs placement :
  sl_namespace s1 = sl_namespace s → sl_content s1 = sl_content s →
  stated_gates s1 runs placement = stated_gates s runs placement.
Proof.
  intros En Ec. revert placement. induction runs as [|[origin run] runs IH]; intros placement; [done|].
  cbn [stated_gates]. by rewrite En, Ec, IH.
Qed.

Lemma stated_gates_lowered s runs placement :
  Forall (λ g, SetArr.of_reinstate g.1 = Done (lowered g.1)) (stated_gates s runs placement).
Proof.
  revert placement. induction runs as [|[origin run] runs IH]; intros placement; cbn [stated_gates]; [by constructor|].
  do 4 (constructor; [done|]). apply IH.
Qed.

Lemma lower_refusal (gates : list (Reinstate.ReinstateError * Prop)) e :
  Forall (λ g, SetArr.of_reinstate g.1 = Done (lowered g.1)) gates → first_refusal gates e →
  ∃ e', SetArr.of_reinstate e = Done e' ∧ first_refusal ((λ g, (lowered g.1, g.2)) <$> gates) e'.
Proof.
  induction gates as [|[x P] gates IH]; [by intros _ ?%first_refusal_nil|]. intros [Hx Hg]%Forall_cons.
  rewrite fmap_cons. cbn [fst snd] in *. rewrite first_refusal_cons. intros [[-> HP]|[HP H]].
  - exists (lowered e). split; [done|]. by apply first_refusal_here.
  - destruct (IH Hg H) as (e' & ? & ?). exists e'. split; [done|]. by apply first_refusal_next.
Qed.

(** With the gates before the runs passed, only a run is refused. *)
Lemma reinstate_runs_only s caller doc runs e :
  is_registered_document (sl_namespace s) doc = true → owns (sl_namespace s) caller doc →
  published_target (sl_namespace s) doc = false → runs ≠ [] →
  first_refusal (reinstate_gates s caller doc (VPos_content 1) runs Unchecked) e →
  first_refusal (stated_gates s runs []) e.
Proof.
  intros Hd Ho Hp Hne. unfold reinstate_gates, edit_gates. cbn [moved_gates app].
  rewrite !first_refusal_cons. cbn [fst snd VPos_content vp_subspace vp_ordinal].
  intros [[_ ?]|(_ & [[_ ?]|(_ & [[_ ?]|(_ & [[_ ?]|(_ & [[_ ?]|(_ & H)])])])])]; [congruence|tauto|congruence|done|lia|].
  apply first_refusal_app in H as [H|[_ H]]; [done|]. rewrite first_refusal_cons, first_refusal_nil in H. naive_solver.
Qed.

Lemma reinstate_passed s caller doc runs :
  Forall (λ g, ¬ g.2) (reinstate_gates s caller doc (VPos_content 1) runs Unchecked) →
  Forall (λ g, ¬ g.2) ((λ g, (lowered g.1, g.2)) <$> stated_gates s runs []).
Proof.
  unfold reinstate_gates. rewrite Forall_app, !Forall_cons, Forall_app. intros (_ & _ & _ & H & _).
  by apply Forall_fmap.
Qed.

(** ** The body *)

Definition removal (s : Slices) (doc : Address) : list M5Rec :=
  if decide (contents s doc = []) then [] else [ContentRemove doc 1 (count (contents s doc))].

(** What the runs of the request stage. *)
Definition placement (doc : Address) (runs : list ShotRun) (placed : list M5Rec) : Prop :=
  if decide (runs = []) then placed = [] else ∃ r, placed = [r] ∧ places doc 1 (stated runs) r.

Definition set_staged (s : Slices) (doc : Address) (request : SetArr.SetArrangement)
    (v : option Address) (rs : list CoreRec) : Prop :=
  v = head_tell s request ∧ ∃ placed, placement doc (SetArr.sa_runs request) placed ∧
    rs = RecArrangement <$> removal s doc ++ placed ++ option_list (base_set s doc request).

(** The working slices between the records: only the document's content has moved. *)
Record between {debug W R} `{WS : WorldState W R} `{HS : !HasSlices debug W R}
    (s : Slices) (doc : Address) (recs : list M5Rec) (l : list Address) (stg : Staging (W := W) (R := R)) : Prop := {
  bt_base : on_base s (RecArrangement <$> recs) stg;
  bt_ok : core_ok (view stg);
  bt_namespace : sl_namespace (view stg) = sl_namespace s;
  bt_store : sl_content (view stg) = sl_content s;
  bt_here : contents (view stg) doc = l
}.

Section SetBody.
Context {debug : bool} {W R Bytes : Type} `{WS : WorldState W R} `{HS : !HasSlices debug W R}.
Context (encode_record : R → Bytes).
#[local] Notation Kernel := (Kernel (W := W) (Bytes := Bytes)).
#[local] Notation Staging := (Staging (W := W) (R := R)).
#[local] Notation Txn := (Txn (W := W) (R := R)).

Lemma then_between s doc recs l (stg stg' : Staging) r l' :
  between s doc recs l stg → then_staged s (RecArrangement <$> recs) (view stg) r stg' →
  d_content (spec_step (docs_of (sl_arrangement (view stg))) r) doc = l' →
  between s doc (recs ++ [r]) l' stg'.
Proof using HS.
  intros [Hb Hok En Ec Hl] (Hb' & Hok' & En' & Ec' & [Hd _]) <-. split; [by rewrite fmap_app|done|congruence|congruence|].
  apply (Hd doc).
Qed.

Lemma set_removal s caller doc (stg : Staging) :
  on_base s [] stg → view stg = s → core_ok s →
  is_registered_document (sl_namespace s) doc = true → owns (sl_namespace s) caller doc →
  published_target (sl_namespace s) doc = false →
  txn_spec (if (content_count (sl_arrangement s) doc =? 0)%N then txn_ret tt
    else SetArr.txn_map_err SetArr.of_delete
      (Delete.stage_delete_at caller doc (VPos_content 1) (content_count (sl_arrangement s) doc) Unchecked)) stg []
    (λ _ stg', between s doc (removal s doc) [] stg').
Proof using HS.
  intros Hb Hv Hok Hd Ho Hp. rewrite content_count_ok. change (count (vmap _)) with (count (contents s doc)).
  assert (H0 : between s doc [] (contents s doc) stg) by (split; by rewrite ?Hv).
  unfold removal. case_decide as He.
  - rewrite He in *. apply spec_ret. exact H0.
  - assert (Hc : (count (contents s doc) ≠ 0)%N) by (unfold count; destruct (contents s doc); [done|cbn; lia]).
    rewrite (proj2 (N.eqb_neq _ _) Hc).
    pose proof (whole_span_gates s caller doc Hd Ho Hp He) as Hg.
    eapply spec_map_err; [eapply spec_conseq; [by apply (delete_spec s [] s)|]|by intros e ?%first_refusal_none|by constructor].
    cbv beta. intros [] stg' Hst. rewrite <- Hv in Hst at 2.
    apply (then_between s doc [] _ stg stg' _ [] H0 Hst). cbn. unfold upd. rewrite decide_True by done.
    unfold remove_at. cbn. rewrite drop_ge; [done|]. rewrite Hv. unfold count. lia.
Qed.

Lemma set_placement s caller doc runs recs (stg : Staging) :
  between s doc recs [] stg → core_ok s → stated_ok runs →
  is_registered_document (sl_namespace s) doc = true → owns (sl_namespace s) caller doc →
  published_target (sl_namespace s) doc = false →
  txn_spec (if negb (nonemptyb runs) then txn_ret tt
    else SetArr.txn_map_err SetArr.of_reinstate
      (Reinstate.stage_reinstate_at caller doc (VPos_content 1) runs Unchecked)) stg
    ((λ g, (lowered g.1, g.2)) <$> stated_gates s runs [])
    (λ _ stg', ∃ placed, placement doc runs placed ∧ between s doc (recs ++ placed) (stated runs) stg').
Proof using HS.
  intros Hbt Hok Hs Hd Ho Hp. unfold placement. destruct (decide (runs = [])) as [->|Hne].
  { apply spec_ret. exists []. by rewrite app_nil_r. }
  assert (negb (nonemptyb runs) = false) as -> by (by destruct runs).
  pose proof Hbt as [Hb Hok1 En Ec Hl].
  pose proof (reinstate_spec s (RecArrangement <$> recs) (view stg) caller doc (VPos_content 1) runs Unchecked stg Hb eq_refl Hok1 Hs) as H.
  eapply spec_map_err; [eapply spec_conseq; [exact H|]| |].
  - cbv beta. intros [] stg' (r & Hr & Hst). exists [r]. split; [by exists r|].
    eapply then_between; [exact Hbt|exact Hst|]. destruct (places_edit (view stg) _ _ _ _ Hr) as (_ & _ & ->).
    rewrite Hl. cbn. unfold insert_at. cbn. by rewrite app_nil_r.
  - intros e He. rewrite <- En in Hd, Ho, Hp. apply reinstate_runs_only in He; try done.
    rewrite (stated_gates_same s (view stg)) in He by done. apply lower_refusal; [apply stated_gates_lowered|done].
  - intros Hg%reinstate_passed. by rewrite (stated_gates_same s (view stg)) in Hg by done.
Qed.

Lemma set_closure caller doc request as_of :
  closure (SetArr.stage_set_arrangement caller doc request as_of : Txn _ _).
Proof using.
  unfold SetArr.stage_set_arrangement, SetArr.judge_request. cbv zeta. closes; apply map_err_closure.
  - apply delete_closure.
  - apply reinstate_closure.
Qed.

Lemma base_set_published s doc request :
  core_ok s → Forall (λ g, ¬ g.2) (base_gates s doc (SetArr.sa_base request)) →
  match base_set s doc request with Some r => bases_ok (sl_namespace s) r | None => True end.
Proof using.
  intros Hok Hg. unfold base_set, base_gates in *. destruct (SetArr.sa_base request) as [base|]; [|done].
  destruct (draft_base (sl_arrangement s) doc) as [b|] eqn:Eb; [|done]. cbn.
  unfold pair_gates in Hg. rewrite !Forall_cons in Hg. destruct Hg as (_ & Hc & _). cbn in Hc.
  apply (chain_published _ _ (db_base b)); [by apply (co_bases _ Hok doc)|].
  apply not_false_iff_true. intros H%in_chain_ok. done.
Qed.

Lemma set_spec s caller doc request as_of (stg : Staging) :
  on_base s [] stg → view stg = s → core_ok s → stated_ok (SetArr.sa_runs request) →
  txn_spec (SetArr.stage_set_arrangement caller doc request as_of) stg (set_gates s caller doc request as_of)
    (λ v stg', ∃ rs, on_base s rs stg' ∧ core_ok (view stg') ∧ set_staged s doc request v rs).
Proof using HS.
  intros Hb <- Hok Hs. unfold SetArr.stage_set_arrangement, set_gates. apply spec_working.
  set (s := view stg) in *. apply spec_edit. fold s. intros Hd Ho Hp.
  rewrite app_assoc. rewrite <- (app_nil_r (base_gates s doc _)). apply spec_seq.
  eapply spec_conseq; [apply spec_passed; by apply (judge_request_ok s)|]. cbv beta.
  intros r stg1 (Hg & -> & ->). cbv beta iota zeta. change (m5 (working stg)) with (sl_arrangement s).
  rewrite !Forall_app in Hg. destruct Hg as (_ & Hg & _). pose proof (base_set_published s doc request Hok Hg) as Hbase.
  apply (spec_seq _ _ stg []). eapply spec_conseq; [by apply set_removal|]. cbv beta. intros [] stg1 Hbt1.
  apply spec_seq_end.
  eapply spec_conseq; [by apply (set_placement s caller doc _ (removal s doc))|]. cbv beta.
  intros [] stg2 (placed & Hpl & Hbt2).
  assert (Hend : ∀ stg3 : Staging,
    on_base s (RecArrangement <$> removal s doc ++ placed ++ option_list (base_set s doc request)) stg3 → core_ok (view stg3) →
    txn_spec (txn_ret (head_tell s request) : Txn SetError _) stg3 []
      (λ v stg', ∃ rs, on_base s rs stg' ∧ core_ok (view stg') ∧ set_staged s doc request v rs)).
  { intros stg3 Hb3 Hok3. apply spec_ret. eexists. split; [exact Hb3|]. split; [done|]. split; [done|]. by exists placed. }
  pose proof Hbt2 as [Hb2 Hok2 En Ec _]. unfold base_set in *.
  destruct (SetArr.sa_base request) as [base|];
    [|eapply spec_bind; [reflexivity|]; apply Hend; [by rewrite app_nil_r|done]].
  destruct (draft_base (sl_arrangement s) doc) as [b|];
    [|eapply spec_bind; [reflexivity|]; apply Hend; [by rewrite app_nil_r|done]].
  eapply (spec_stage_mid s _ stg2 (RecArrangement _) core_ok); [exact Hb2| |].
  - intros at_. edestruct (arrangement_push (debug := debug) (view stg2) at_) as (s3 & ? & ? & _);
      [exact Hok2| | | |by exists s3]; [exact I|rewrite En; exact Hbase|by intros d a ?%not_elem_of_nil].
  - intros stg3 Hb3 Hok3. apply Hend; [|done]. cbn [option_list]. rewrite app_assoc, fmap_app. exact Hb3.
Qed.
End SetBody.

(** ** What the records leave *)

Record arrangement_set (s s' : Slices) (p : Seq) (doc : Address) (request : SetArr.SetArrangement) : Prop := {
  as_namespace : sl_namespace s' = sl_namespace s;
  as_store : sl_content s' = sl_content s;
  as_here : contents s' doc = stated (SetArr.sa_runs request);
  as_elsewhere : ∀ d, d ≠ doc → contents s' d = contents s d;
  as_links : ∀ d, links s' d = links s d;
  as_moved : arranged_at_of (sl_arrangement s') doc =
    if decide (contents s doc = [] ∧ SetArr.sa_runs request = []) then arranged_at_of (sl_arrangement s) doc else Some p;
  as_unmoved : ∀ d, d ≠ doc → arranged_at_of (sl_arrangement s') d = arranged_at_of (sl_arrangement s) d;
  as_base : draft_base (sl_arrangement s') doc =
    match base_set s doc request with
    | Some (DraftBaseRec _ base extent source merge) =>
        Some (MkDraftBase base extent source ((λ m, stamped m p) <$> merge))
    | _ => draft_base (sl_arrangement s) doc
    end;
  as_bases : ∀ d, d ≠ doc → draft_base (sl_arrangement s') d = draft_base (sl_arrangement s) d
}.

Lemma fold_replay debug s p l s' :
  fold_slices (debug := debug) s p (RecArrangement <$> l) = Done s' →
  sl_namespace s' = sl_namespace s ∧ sl_content s' = sl_content s ∧
  replay (sl_arrangement s) ((λ r, (p, r)) <$> l) = Done (sl_arrangement s').
Proof.
  unfold fold_slices. revert s. induction l as [|r l IH]; intros s; [by intros [= <-]|].
  rewrite !fmap_cons, fold_world_cons. intros (s1 & H1 & H2)%bind_inv.
  change (apply_slices debug s p (RecArrangement r) = Done s1) in H1. cbn [apply_slices] in H1.
  apply bind_inv in H1 as (arr & Ha & [= <-]). destruct (IH _ H2) as (E1 & E2 & E3). cbn in E1, E2, E3.
  split_and!; [done|done|]. cbn [replay]. by rewrite Ha.
Qed.

Lemma removal_ok s doc : Forall rec_ok (removal s doc).
Proof. unfold removal. case_decide; repeat constructor. Qed.

Lemma base_set_ok s doc request : Forall rec_ok (option_list (base_set s doc request)).
Proof.
  unfold base_set. destruct (SetArr.sa_base request), (draft_base (sl_arrangement s) doc); repeat constructor.
Qed.

Lemma journal_at (p : Seq) (l : list M5Rec) : Forall rec_ok l → journal_ok ((λ r, (p, r)) <$> l).
Proof. intros H. by apply Forall_fmap. Qed.

(** The document after the records: whatever it held is gone, the stated runs stand. *)
Lemma set_docs s doc runs placed :
  placement doc runs placed → ∀ p,
  docs_eq (spec_run (docs_of (sl_arrangement s)) ((λ r, (p, r)) <$> removal s doc ++ placed))
    (MkDocs (upd (contents s) doc (stated runs)) (links s)).
Proof.
  intros Hpl p. rewrite fmap_app. unfold spec_run at 1. rewrite foldl_app.
  assert (H1 : docs_eq (spec_run (docs_of (sl_arrangement s)) ((λ r, (p, r)) <$> removal s doc))
    (MkDocs (upd (contents s) doc []) (links s))).
  { unfold removal. destruct (decide (contents s doc = [])) as [He|_]; (split; [intros d|done]); cbn; unfold upd.
    - case_decide as Ed; [by subst|done].
    - case_decide; [|done]. unfold remove_at. cbn. rewrite drop_ge; [done|]. unfold count, docs_of. cbn. lia. }
  rewrite H1. unfold placement in Hpl. destruct (decide (runs = [])) as [->|_].
  - subst placed. by split.
  - destruct Hpl as (r & -> & rs & -> & _ & Hr). split; [|done]. intros d. cbn. unfold upd.
    repeat case_decide; subst; try done. rewrite <- Hr. unfold insert_at. cbn. by rewrite app_nil_r.
Qed.

Lemma placement_ok doc runs placed : placement doc runs placed → Forall rec_ok placed.
Proof.
  unfold placement. case_decide; [by intros ->; constructor|].
  intros (r & -> & rs & -> & Hr & _). by repeat constructor.
Qed.

Lemma last_noted_app {A} (note : Seq * M5Rec → option A) j1 j2 :
  last_noted note (j1 ++ j2) =
  match last_noted note j2 with Some a => Some a | None => last_noted note j1 end.
Proof.
  induction j1 as [|e j1 IH]; cbn; [by destruct (last_noted note j2)|].
  rewrite IH. by destruct (last_noted note j2).
Qed.

Lemma base_of_app m j1 j2 d b : base_of m (j1 ++ j2) d b = base_of (spec_run m j1) j2 d (base_of m j1 d b).
Proof. revert m b. induction j1 as [|e j1 IH]; intros m b; [done|]. cbn. by rewrite IH. Qed.

(** Edit records move their document and no base. *)
Lemma removal_edits s doc : Forall (λ r, edits r doc) (removal s doc).
Proof. unfold removal. case_decide; by repeat constructor. Qed.

Lemma placement_edits doc runs placed : placement doc runs placed → Forall (λ r, edits r doc) placed.
Proof.
  unfold placement. case_decide; [by intros ->; constructor|].
  intros (r & -> & rs & -> & _). by repeat constructor.
Qed.

Lemma edits_move p doc l d :
  Forall (λ r, edits r doc) l →
  last_move ((λ r, (p, r)) <$> l) d = if decide (d = doc ∧ l ≠ []) then Some p else None.
Proof.
  intros Hl. unfold last_move. induction Hl as [|r l Hr Hl IH]; [by rewrite decide_False by tauto|].
  rewrite fmap_cons. cbn [last_noted fst snd]. rewrite IH.
  assert (Ht : touches r d = bool_decide (d = doc)).
  { destruct r; try done; cbn in Hr; subst; cbn; by apply bool_decide_ext. }
  rewrite Ht. destruct (decide (d = doc)) as [->|Hne].
  - rewrite bool_decide_eq_true_2 by done. rewrite (decide_True (P := _ ∧ r :: l ≠ [])) by done. by case_decide.
  - rewrite bool_decide_eq_false_2 by done. rewrite !decide_False; tauto.
Qed.

Lemma edits_base p doc l d m b : Forall (λ r, edits r doc) l → base_of m ((λ r, (p, r)) <$> l) d b = b.
Proof.
  intros Hl. revert m. induction Hl as [|r l Hr Hl IH]; intros m; [done|].
  rewrite fmap_cons. cbn [base_of fst snd]. rewrite <- (IH (spec_step m r)) at 2. by destruct r.
Qed.

Lemma set_moved s doc request placed p d :
  placement doc (SetArr.sa_runs request) placed →
  match last_move ((λ r, (p, r)) <$> removal s doc ++ placed ++ option_list (base_set s doc request)) d with
  | Some at_ => Some at_
  | None => arranged_at (sl_arrangement s) !! d
  end = if decide (d = doc ∧ ¬ (contents s doc = [] ∧ SetArr.sa_runs request = [])) then Some p
        else arranged_at (sl_arrangement s) !! d.
Proof.
  intros Hpl. rewrite app_assoc, fmap_app. unfold last_move. rewrite last_noted_app.
  assert (last_noted (λ e : Seq * M5Rec, if touches e.2 d then Some e.1 else None)
    ((λ r, (p, r)) <$> option_list (base_set s doc request)) = None) as ->.
  { unfold base_set. by destruct (SetArr.sa_base request), (draft_base (sl_arrangement s) doc). }
  fold (last_move ((λ r, (p, r)) <$> removal s doc ++ placed) d).
  rewrite (edits_move p doc); [|apply Forall_app; split; [apply removal_edits|by eapply placement_edits]].
  assert (Hne : removal s doc ++ placed = [] ↔ contents s doc = [] ∧ SetArr.sa_runs request = []).
  { unfold removal. unfold placement in Hpl. rewrite app_nil. repeat case_decide; destruct_and?; try tauto;
      try (subst placed); try (destruct Hpl as (r & -> & _)); intuition discriminate. }
  case_decide as H1; case_decide as H2; try done; tauto.
Qed.

Lemma set_based s doc request placed p :
  placement doc (SetArr.sa_runs request) placed →
  base_of (docs_of (sl_arrangement s))
    ((λ r, (p, r)) <$> removal s doc ++ placed ++ option_list (base_set s doc request)) doc
    (draft_base (sl_arrangement s) doc) =
  match base_set s doc request with
  | Some (DraftBaseRec _ base extent source merge) =>
      Some (MkDraftBase base extent source ((λ m, stamped m p) <$> merge))
  | _ => draft_base (sl_arrangement s) doc
  end.
Proof.
  intros Hpl. rewrite app_assoc, fmap_app, base_of_app.
  rewrite (edits_base p doc (removal s doc ++ placed)); [|apply Forall_app; split; [apply removal_edits|by eapply placement_edits]].
  unfold base_set. destruct (SetArr.sa_base request), (draft_base (sl_arrangement s) doc); try done.
  cbn. by rewrite decide_True.
Qed.

Lemma set_based_elsewhere s doc request placed p d :
  placement doc (SetArr.sa_runs request) placed → d ≠ doc →
  base_of (docs_of (sl_arrangement s))
    ((λ r, (p, r)) <$> removal s doc ++ placed ++ option_list (base_set s doc request)) d
    (draft_base (sl_arrangement s) d) = draft_base (sl_arrangement s) d.
Proof.
  intros Hpl Hd. rewrite app_assoc, fmap_app, base_of_app.
  rewrite (edits_base p doc (removal s doc ++ placed)); [|apply Forall_app; split; [apply removal_edits|by eapply placement_edits]].
  unfold base_set. destruct (SetArr.sa_base request), (draft_base (sl_arrangement s) doc); try done.
  cbn. by rewrite decide_False.
Qed.

(** The three records replayed, on the arrangement's whole state. *)
Lemma set_replayed s s' p doc request placed :
  core_ok s → placement doc (SetArr.sa_runs request) placed →
  sl_namespace s' = sl_namespace s → sl_content s' = sl_content s →
  replay (sl_arrangement s) ((λ r, (p, r)) <$> removal s doc ++ placed ++ option_list (base_set s doc request))
    = Done (sl_arrangement s') →
  arrangement_set s s' p doc request.
Proof.
  intros Hok Hpl En Ec Hrun.
  assert (Hj : journal_ok ((λ r, (p, r)) <$> removal s doc ++ placed ++ option_list (base_set s doc request))).
  { apply journal_at. rewrite !Forall_app. split_and!; [apply removal_ok|by eapply placement_ok|apply base_set_ok]. }
  destruct (replay_ok (sl_arrangement s) _ (co_m5 s Hok) Hj) as (a & Ea & [_ Hd _ _ _ _ Hm Hb]).
  rewrite Ea in Hrun. injection Hrun as ->.
  assert (Hd' : docs_eq (docs_of (sl_arrangement s')) (MkDocs (upd (contents s) doc (stated (SetArr.sa_runs request))) (links s))).
  { rewrite Hd, app_assoc, fmap_app. unfold spec_run. rewrite foldl_app. fold (spec_run (docs_of (sl_arrangement s))).
    rewrite <- (set_docs s doc _ placed Hpl p). unfold base_set.
    by destruct (SetArr.sa_base request), (draft_base (sl_arrangement s) doc). }
  destruct Hd' as [Hc Hl]. cbn [d_content d_link] in Hc, Hl.
  assert (Hmv : ∀ d, arranged_at_of (sl_arrangement s') d =
    if decide (d = doc ∧ ¬ (contents s doc = [] ∧ SetArr.sa_runs request = [])) then Some p
    else arranged_at_of (sl_arrangement s) d).
  { intros d. unfold arranged_at_of. rewrite Hm. by apply set_moved. }
  split; try done.
  - rewrite Hc. unfold upd. by rewrite decide_True.
  - intros d Hne. rewrite Hc. unfold upd. by rewrite decide_False.
  - rewrite Hmv. repeat case_decide; tauto.
  - intros d Hne. rewrite Hmv. rewrite decide_False; tauto.
  - unfold draft_base at 1. rewrite Hb. by apply set_based.
  - intros d Hne. unfold draft_base. rewrite Hb. by apply set_based_elsewhere.
Qed.

(** C7. SET_ARRANGEMENT, on any world that carries the slices: with the invariant and
    runs whose values are at hand, the call never panics and keeps the invariant. A
    refusal is the first in the pinned order of the gates (registration, ownership,
    publication, the stale-edit law, the head pair, the base pair, the runs) and
    leaves the kernel as it was. Acknowledged, the draft holds exactly the stated runs
    whatever it held before, no other document's content, link or coordinate moved,
    the draft's own coordinate is the answered one unless it was empty and stays so,
    its recorded base is the request's, stamped with that coordinate, and the answer
    names the chain's head when the request's is not it. *)
Theorem set_arrangement_exact {debug : bool} {W R Bytes : Type} `{WS : WorldState W R} `{HS : !HasSlices debug W R}
    (encode_record : R → Bytes) (k : Kernel (W := W) (Bytes := Bytes)) (answer : CommitAnswer)
    (caller : Caller) (doc : Address) (request : SetArr.SetArrangement) (as_of : AsOf) :
  let s := root_slices k in
  core_ok s → stated_ok (SetArr.sa_runs request) →
  ∃ k' e, set_arrangement encode_record k answer caller doc request as_of = Done (k', e) ∧ core_ok (root_slices k') ∧
    answers k k' e (set_gates s caller doc request as_of) (λ v p,
      v = head_tell s request ∧ arrangement_set s (root_slices k') p doc request).
Proof.
  intros s Hok Hs.
  destruct (core_call encode_record k answer (SetArr.stage_set_arrangement caller doc request as_of)
    (set_gates s caller doc request as_of) (λ v rs _, set_staged s doc request v rs) (set_closure _ _ _ _) Hok)
    as (k' & e & Ht & Hok' & H).
  { intros stg Hb Hv. by apply (set_spec s). }
  exists k', e. split; [done|]. split; [done|]. destruct e as [[[v p]|[er| | | |]]|]; try done.
  destruct H as (Hg & rs & u & (-> & placed & Hpl & ->) & _ & Hfold). split; [done|]. split; [done|].
  apply fold_replay in Hfold as (En & Ec & Hrun). by eapply set_replayed.
Qed.
