(* ===== verification/Retrieval.v ===== *)
(** * Retrieval: the seven read operations

    Models [crates/skep-retrieval] (M6): the request budgets ([budget.rs]), the
    reading of one request V-span ([vspan.rs]) and the operations over one pinned
    snapshot ([query.rs], [query/*.rs]): RETRIEVEV, the two extents, SHOWORIGIN,
    SHOWDELETIONS, COMPARE and FINDDOCSCONTAINING, each its gate in order and then
    the upstream reads it composes. The snapshot is the world; [readable] is the
    predicate the caller threads. *)

From stdpp Require Import gmap sorting.
From S2P Require Import Prelude Txns Tumblers Addresses AddrMaps Arith Spans SpanSets NsKeys NsState NsOps Runs Content RunLists VSpace Provenance Chain ArrState ArrReads World.

(** ** Budgets *)

Definition MAX_COMPARE_OPERAND_BLOCKS : N := 4096%N.
Definition MAX_COMPARE_PAIRS : N := 65536%N.
Definition MAX_FIND_COVERAGE_SPANS : N := MAX_COMPARE_OPERAND_BLOCKS.
Definition MAX_DELIVERY_ITEMS : N := 131072%N.
Definition MAX_WALK_STEPS : N := (MAX_COMPARE_OPERAND_BLOCKS * MAX_COMPARE_OPERAND_BLOCKS)%N.

Record Count := MkCount { ct_budget : N; ct_admitted : N }.

Inductive OverBudget := OverBudget_.

Definition Count_against (budget : N) : Count := MkCount budget 0.

(** [Count::admit]. *)
Definition Count_take (c : Count) (items : N) : outcome (result Count OverBudget) :=
  room ← nat_sub (ct_budget c) (ct_admitted c);
  Done (if (room <? items)%N then Err OverBudget_ else Ok (MkCount (ct_budget c) (ct_admitted c + items))).

(** ** One request V-span *)

Definition usize_max : N := (2 ^ 64 - 1)%N.

Definition to_usize (n : Nat) : option N := if (n <=? usize_max)%N then Some n else None.

Definition saturating_add (a b : N) : N := N.min (a + b) usize_max.

Module Subspace.
Inductive Subspace := Content | Link.

Definition ALL : list Subspace := [Content; Link].

Definition numeral (s : Subspace) : Nat :=
  match s with Content => content_subspace | Link => link_subspace end.

Definition of_numeral (n : Nat) : option Subspace := find (λ sub, (numeral sub =? n)%N) ALL.

Definition of_span (span : Span) : outcome (option Subspace) :=
  n ← expect_some (Tumbler_get (start span) 1);
  Done (of_numeral n).

Definition anchor (s : Subspace) : VPos := MkVPos (numeral s) 1.

Definition count (s : Subspace) (m5 : M5State) (doc : Address) : Nat :=
  match s with Content => content_count m5 doc | Link => link_count m5 doc end.

Definition runs (s : Subspace) (m5 : M5State) (doc : Address) : list Run :=
  match s with Content => content_runs m5 doc | Link => link_runs m5 doc end.

Definition run_count (s : Subspace) (m5 : M5State) (doc : Address) : N :=
  N.of_nat match s with Content => content_run_count m5 doc | Link => link_run_count m5 doc end.
End Subspace.

#[export] Instance Subspace_eq_dec : EqDecision Subspace.Subspace.
Proof. solve_decision. Defined.

Definition walk_price (m5 : M5State) (doc : Address) (span : Span) : outcome N :=
  sub ← Subspace.of_span span;
  let run_count :=
    match sub with
    | Some sub => Subspace.run_count sub m5 doc
    | None => foldl saturating_add 0%N ((λ sub, Subspace.run_count sub m5 doc) <$> Subspace.ALL)
    end in
  Done match as_ordinal_vspan span ≫= (λ shape, to_usize (ov_ordinal shape + ov_count shape)) with
       | Some reach => N.min reach run_count
       | None => run_count
       end.

Inductive SpanFault := NotOrdinalLevel | NotLevelUniform | StartNotZeroFree | StartTooShallow.

Definition gate_vspan (span : Span) : result unit SpanFault :=
  if negb (is_level_uniform span) then Err NotLevelUniform
  else if negb (bool_decide (action_point (width span) = Some (Tumbler_len (width span)))) then Err NotOrdinalLevel
  else if negb (zeros (start span) =? 0) then Err StartNotZeroFree
  else if Tumbler_len (start span) <? 2 then Err StartTooShallow
  else Ok tt.

(** ** What the operations share *)

Definition run_origin (run : Run) : outcome Address := expect_some (document_of (i_start run)).


(** A [BTreeSet] of the stream, walked in its order. *)
Definition sorted_addr_set (l : list Address) : list Address := merge_sort addr_le (remove_dups l).

Record Spec := MkSpec { sp_doc : Address; sp_span : Span }.

Record RegionSpec := MkRegionSpec { rg_doc : Address; rg_spans : list Span }.

(** ** RETRIEVEV *)

Inductive DeliveryItem :=
  | ItemContent (v : Val)
  | ItemRef (a : Address)
  | ItemWithheld (origin : Address) (width : Nat)
  | ItemBytes (bytes : list Byte.byte).

Definition piece_item (p : Piece) : DeliveryItem :=
  match p with PBytes bytes => ItemBytes bytes | PValue v => ItemContent v end.

Module Retrieve.
Inductive RetrieveError :=
  | DocNotRegistered (d : Address)
  | MalformedSpec (index : nat) (fault : SpanFault)
  | TooManyItems.

Fixpoint gate_specs (m3 : M3State) (index : nat) (specs : list Spec) : result unit RetrieveError :=
  match specs with
  | [] => Ok tt
  | spec :: specs =>
      if negb (is_registered_document m3 (sp_doc spec)) then Err (DocNotRegistered (sp_doc spec))
      else
        match gate_vspan (sp_span spec) with
        | Err fault => Err (MalformedSpec index fault)
        | Ok _ => gate_specs m3 (S index) specs
        end
  end.

Definition items_over {A} (r : result A OverBudget) : result A RetrieveError := map_err (λ _, TooManyItems) r.

Fixpoint price_specs (m3 : M3State) (m5 : M5State) (steps_priced : Count) (specs : list Spec) :
    outcome (result unit RetrieveError) :=
  match specs with
  | [] => Done (Ok tt)
  | spec :: specs =>
      surface ← reading_surface m3 (sp_doc spec);
      price ← walk_price m5 surface (sp_span spec);
      taken ← Count_take steps_priced price;
      steps_priced ←? Done (items_over taken);
      price_specs m3 m5 steps_priced specs
  end.

(** One run's positions, once it is let through. *)
Definition expand (content : ContentStore) (sub : option Subspace.Subspace) (run : Run) : outcome (list DeliveryItem) :=
  match sub with
  | Some Subspace.Content =>
      '(ps, rest) ← drain (Content.pieces content (tumbler (i_start run)) (run_width run));
      _ ← assert (pc_remaining rest =? 0)%N;
      Done (map piece_item ps)
  | Some Subspace.Link => l ← addrs_of run; Done (map ItemRef l)
  | None => Panicked
  end.

Fixpoint deliver_runs (m3 : M3State) (content : ContentStore) (sub : option Subspace.Subspace)
    (readable : Address → bool) (runs : list Run) (items_produced : Count) (out : list DeliveryItem) :
    outcome (result (Count * list DeliveryItem) RetrieveError) :=
  match runs with
  | [] => Done (Ok (items_produced, out))
  | run :: runs =>
      origin ← run_origin run;
      if negb (is_registered_document m3 origin) || negb (readable origin) then
        taken ← Count_take items_produced 1;
        items_produced ←? Done (items_over taken);
        deliver_runs m3 content sub readable runs items_produced (out ++ [ItemWithheld origin (run_width run)])
      else
        taken ← Count_take items_produced (default usize_max (to_usize (run_width run)));
        items_produced ←? Done (items_over taken);
        items ← expand content sub run;
        deliver_runs m3 content sub readable runs items_produced (out ++ items)
  end.

Fixpoint deliver_specs (m3 : M3State) (m5 : M5State) (content : ContentStore) (readable : Address → bool)
    (specs : list Spec) (items_produced : Count) (out : list DeliveryItem) :
    outcome (result (list DeliveryItem) RetrieveError) :=
  match specs with
  | [] => Done (Ok out)
  | spec :: specs =>
      sub ← Subspace.of_span (sp_span spec);
      surface ← reading_surface m3 (sp_doc spec);
      runs ← iter_resolve m5 surface (sp_span spec);
      '(items_produced, out) ←? deliver_runs m3 content sub readable runs items_produced out;
      deliver_specs m3 m5 content readable specs items_produced out
  end.
End Retrieve.

(** ** The extents *)

Module Extent.
Inductive ExtentError := DocNotRegistered.

Definition ext_span (s : Subspace.Subspace) (n : Nat) : outcome (option Span) := ordinal_vspan (Subspace.anchor s) n.

Definition sequential (m5 : M5State) (doc : Address) (sub : Subspace.Subspace) : outcome unit :=
  let count := Subspace.count sub m5 doc in
  _ ← assert (foldr N.add 0%N (map run_width (Subspace.runs sub m5 doc)) =? count)%N;
  bound ← state_point m5 doc (Subspace.anchor sub);
  assert ((count =? 0)%N || bool_decide (is_Some bound)).

Definition debug_assert_sequential_positions (debug : bool) (m5 : M5State) (doc : Address) : outcome unit :=
  if debug then
    _ ← outcome_map (sequential m5 doc) Subspace.ALL;
    Done tt
  else Done tt.

(** [filter_map] and [collect], in [ALL]'s order. *)
Fixpoint extents_of (m5 : M5State) (surface : Address) (subs : list Subspace.Subspace) : outcome (list Span) :=
  match subs with
  | [] => Done []
  | s :: subs =>
      o ← ext_span s (Subspace.count s m5 surface);
      rest ← extents_of m5 surface subs;
      Done match o with Some span => span :: rest | None => rest end
  end.
End Extent.

(** ** SHOWORIGIN, SHOWDELETIONS *)

Module Origin.
Inductive OriginError :=
  | DocNotRegistered
  | MalformedSpan (fault : SpanFault)
  | NoSuchSubspace
  | EmptySubspace
  | DepthIncompatible
  | RangeNotPresent.
End Origin.

Record Deletions := MkDeletions {
  deleted_from_a_with_b : list Address;
  deleted_from_b_with_a : list Address
}.

Inductive DeletionsError := DeletionsDocNotRegistered (d : Address).

Definition current_content (m5 : M5State) (d : Address) : outcome (list Address) :=
  l ← outcome_map addrs_of (content_runs m5 d);
  Done (concat l).

(** ** FINDDOCSCONTAINING *)

Module Find.
Inductive FindError :=
  | DocNotRegistered (d : Address)
  | MalformedSpan (region index : nat) (fault : SpanFault)
  | TooMuchCoverage.

Fixpoint gate_spans (region index : nat) (spans : list Span) : result unit FindError :=
  match spans with
  | [] => Ok tt
  | span :: spans =>
      match gate_vspan span with
      | Err fault => Err (MalformedSpan region index fault)
      | Ok _ => gate_spans region (S index) spans
      end
  end.

Fixpoint gate_regions (m3 : M3State) (region : nat) (regions : list RegionSpec) : result unit FindError :=
  match regions with
  | [] => Ok tt
  | r :: regions =>
      if negb (is_registered_document m3 (rg_doc r)) then Err (DocNotRegistered (rg_doc r))
      else
        match gate_spans region 0 (rg_spans r) with
        | Err e => Err e
        | Ok _ => gate_regions m3 (S region) regions
        end
  end.

Definition coverage_over {A} (r : result A OverBudget) : result A FindError := map_err (λ _, TooMuchCoverage) r.

Fixpoint price_spans (m5 : M5State) (doc : Address) (spans : list Span) (handed priced : Count) :
    outcome (result (Count * Count) FindError) :=
  match spans with
  | [] => Done (Ok (handed, priced))
  | span :: spans =>
      taken ← Count_take handed 1;
      handed ←? Done (coverage_over taken);
      price ← walk_price m5 doc span;
      taken ← Count_take priced price;
      priced ←? Done (coverage_over taken);
      price_spans m5 doc spans handed priced
  end.

Fixpoint price_regions (m5 : M5State) (regions : list RegionSpec) (handed priced : Count) :
    outcome (result unit FindError) :=
  match regions with
  | [] => Done (Ok tt)
  | r :: regions =>
      '(handed, priced) ←? price_spans m5 (rg_doc r) (rg_spans r) handed priced;
      price_regions m5 regions handed priced
  end.

Fixpoint cover_runs (runs : list Run) (produced : Count) (out : list Span) :
    outcome (result (Count * list Span) FindError) :=
  match runs with
  | [] => Done (Ok (produced, out))
  | run :: runs =>
      taken ← Count_take produced 1;
      produced ←? Done (coverage_over taken);
      e ← iextent run;
      cover_runs runs produced (out ++ [e])
  end.

Fixpoint cover_spans (m5 : M5State) (doc : Address) (spans : list Span) (produced : Count) (out : list Span) :
    outcome (result (Count * list Span) FindError) :=
  match spans with
  | [] => Done (Ok (produced, out))
  | span :: spans =>
      runs ← iter_resolve m5 doc span;
      '(produced, out) ←? cover_runs runs produced out;
      cover_spans m5 doc spans produced out
  end.

Fixpoint cover_regions (m5 : M5State) (regions : list RegionSpec) (produced : Count) (out : list Span) :
    outcome (result (list Span) FindError) :=
  match regions with
  | [] => Done (Ok out)
  | r :: regions =>
      '(produced, out) ←? cover_spans m5 (rg_doc r) (rg_spans r) produced out;
      cover_regions m5 regions produced out
  end.

(** The present-tense narrowing, the predicate first. *)
Fixpoint narrow (m5 : M5State) (coverage : SpanSet) (readable : Address → bool) (candidates : list Address) :
    outcome (list Address) :=
  match candidates with
  | [] => Done []
  | d :: candidates =>
      keep ← (if readable d then arranges_any m5 d coverage else Done false);
      rest ← narrow m5 coverage readable candidates;
      Done (if keep : bool then d :: rest else rest)
  end.
End Find.

(** ** COMPARE *)

Record CorrPair := MkCorrPair { cp_d1 : Address; cp_u1 : VPos; cp_d2 : Address; cp_u2 : VPos; cp_width : Nat }.

Inductive Operand := First | Second.

Module Compare.
Inductive CompareError :=
  | DocNotRegistered (d : Address)
  | NotContentSubspace (operand : Operand) (region index : nat)
  | MalformedSpan (operand : Operand) (region index : nat) (fault : SpanFault)
  | TooManyBlocks (operand : Operand)
  | TooManyPairs.

Fixpoint gate_operand_spans (operand : Operand) (region index : nat) (spans : list Span) : outcome (result unit CompareError) :=
  match spans with
  | [] => Done (Ok tt)
  | span :: spans =>
      sub ← Subspace.of_span span;
      if negb (bool_decide (sub = Some Subspace.Content)) then Done (Err (NotContentSubspace operand region index))
      else
        match gate_vspan span with
        | Err fault => Done (Err (MalformedSpan operand region index fault))
        | Ok _ => gate_operand_spans operand region (S index) spans
        end
  end.

Fixpoint gate_operand_regions (m3 : M3State) (operand : Operand) (region : nat) (regions : list RegionSpec) :
    outcome (result unit CompareError) :=
  match regions with
  | [] => Done (Ok tt)
  | r :: regions =>
      if negb (is_registered_document m3 (rg_doc r)) then Done (Err (DocNotRegistered (rg_doc r)))
      else
        _ ←? gate_operand_spans operand region 0 (rg_spans r);
        gate_operand_regions m3 operand (S region) regions
  end.

Definition gate_spec_set (m3 : M3State) (operand : Operand) (regions : list RegionSpec) : outcome (result unit CompareError) :=
  gate_operand_regions m3 operand 0 regions.

Record Block := MkBlock { bk_doc : Address; bk_v_start : VPos; bk_run : Run; bk_reach : Tumbler }.

Definition Block_new (doc : Address) (v_start : VPos) (run : Run) : outcome Block :=
  reach ← run_reach_at run;
  Done (MkBlock doc v_start run reach).

Definition bk_i_start (b : Block) : Tumbler := tumbler (i_start (bk_run b)).

Definition ordinal_gap (hi lo : Tumbler) : outcome Nat := nat_sub (ordinal hi) (ordinal lo).

Definition foot_at (b : Block) (i : Tumbler) : outcome (Address * VPos) :=
  gap ← ordinal_gap i (bk_i_start b);
  Done (bk_doc b, MkVPos (vp_subspace (bk_v_start b)) (vp_ordinal (bk_v_start b) + gap)).

Fixpoint price_operand_spans (m5 : M5State) (surface : Address) (spans : list Span) (handed priced : Count) :
    outcome (result (Count * Count) OverBudget) :=
  match spans with
  | [] => Done (Ok (handed, priced))
  | span :: spans =>
      handed ←? Count_take handed 1;
      price ← walk_price m5 surface span;
      priced ←? Count_take priced price;
      price_operand_spans m5 surface spans handed priced
  end.

Fixpoint price_operand_regions (m3 : M3State) (m5 : M5State) (regions : list RegionSpec) (handed priced : Count) :
    outcome (result unit OverBudget) :=
  match regions with
  | [] => Done (Ok tt)
  | r :: regions =>
      surface ← reading_surface m3 (rg_doc r);
      '(handed, priced) ←? price_operand_spans m5 surface (rg_spans r) handed priced;
      price_operand_regions m3 m5 regions handed priced
  end.

(** The runs of one span, each at the cursor. *)
Fixpoint build_runs (debug : bool) (m5 : M5State) (doc surface : Address) (runs : list Run) (cursor : VPos)
    (built : Count) (out : list Block) : outcome (result (Count * list Block) OverBudget) :=
  match runs with
  | [] => Done (Ok (built, out))
  | run :: runs =>
      built ←? Count_take built 1;
      _ ← (if debug then
             at_cursor ← state_point m5 surface cursor;
             assert (bool_decide (at_cursor = Some (i_start run)))
           else Done tt);
      b ← Block_new doc cursor run;
      build_runs debug m5 doc surface runs (MkVPos (vp_subspace cursor) (vp_ordinal cursor + run_width run)) built (out ++ [b])
  end.

Fixpoint build_spans (debug : bool) (m5 : M5State) (doc surface : Address) (spans : list Span)
    (built : Count) (out : list Block) : outcome (result (Count * list Block) OverBudget) :=
  match spans with
  | [] => Done (Ok (built, out))
  | span :: spans =>
      match as_ordinal_vspan span with
      | None => build_spans debug m5 doc surface spans built out
      | Some shape =>
          runs ← iter_resolve m5 surface span;
          '(built, out) ←? build_runs debug m5 doc surface runs (MkVPos (ov_subspace shape) (ov_ordinal shape)) built out;
          build_spans debug m5 doc surface spans built out
      end
  end.

Fixpoint build_regions (debug : bool) (m3 : M3State) (m5 : M5State) (regions : list RegionSpec)
    (built : Count) (out : list Block) : outcome (result (list Block) OverBudget) :=
  match regions with
  | [] => Done (Ok out)
  | r :: regions =>
      surface ← reading_surface m3 (rg_doc r);
      '(built, out) ←? build_spans debug m5 (rg_doc r) surface (rg_spans r) built out;
      build_regions debug m3 m5 regions built out
  end.

Definition resolve_blocks (debug : bool) (m3 : M3State) (m5 : M5State) (regions : list RegionSpec) :
    outcome (result (list Block) OverBudget) :=
  _ ←? price_operand_regions m3 m5 regions (Count_against MAX_COMPARE_OPERAND_BLOCKS) (Count_against MAX_WALK_STEPS);
  build_regions debug m3 m5 regions (Count_against MAX_COMPARE_OPERAND_BLOCKS) [].

(** [cmp::max] answers its second argument on a tie, [cmp::min] its first. *)
Definition overlap_pair (pb qb : Block) : outcome (option CorrPair) :=
  let start := if bk_i_start qb <?ₜ bk_i_start pb then bk_i_start pb else bk_i_start qb in
  let reach := if bk_reach qb <?ₜ bk_reach pb then bk_reach qb else bk_reach pb in
  if reach ≤?ₜ start then Done None
  else
    '(d1, u1) ← foot_at pb start;
    '(d2, u2) ← foot_at qb start;
    w ← ordinal_gap reach start;
    Done (Some (MkCorrPair d1 u1 d2 u2 w)).

Fixpoint join_one (pb : Block) (q : list Block) (produced : Count) (out : list CorrPair) :
    outcome (result (Count * list CorrPair) OverBudget) :=
  match q with
  | [] => Done (Ok (produced, out))
  | qb :: q =>
      o ← overlap_pair pb qb;
      match o with
      | Some c => produced ←? Count_take produced 1; join_one pb q produced (out ++ [c])
      | None => join_one pb q produced out
      end
  end.

Fixpoint join_all (p q : list Block) (produced : Count) (out : list CorrPair) : outcome (result (list CorrPair) OverBudget) :=
  match p with
  | [] => Done (Ok out)
  | pb :: p =>
      '(produced, out) ←? join_one pb q produced out;
      join_all p q produced out
  end.

Definition interval_join (p q : list Block) : outcome (result (list CorrPair) OverBudget) :=
  join_all p q (Count_against MAX_COMPARE_PAIRS) [].

(** [Ordering::then] down the key's four parts. *)
Definition cmp_then (c d : comparison) : comparison := match c with Eq => d | _ => c end.

Definition key_cmp (a b : CorrPair) : comparison :=
  cmp_then (Address_cmp (cp_d1 a) (cp_d1 b)) (cmp_then (VPos_cmp (cp_u1 a) (cp_u1 b))
    (cmp_then (Address_cmp (cp_d2 a) (cp_d2 b)) (VPos_cmp (cp_u2 a) (cp_u2 b)))).

(** [sort_by], which is stable: a pair goes ahead of the later ones of its key. *)
Fixpoint insert_pair (c : CorrPair) (l : list CorrPair) : list CorrPair :=
  match l with
  | [] => [c]
  | x :: l => match key_cmp c x with Gt => x :: insert_pair c l | _ => c :: x :: l end
  end.

Definition fold_adjacent (pairs : list CorrPair) : list CorrPair := pairs.

Definition deterministic_presentation (pairs : list CorrPair) : list CorrPair :=
  fold_adjacent (foldr insert_pair [] pairs).
End Compare.

Section Query.
Context {debug : bool} {W R : Type} `{WS : WorldState W R} `{HS : !HasSlices debug W R}.

Definition retrieve_v_masked (w : W) (specs : list Spec) (readable : Address → bool) :
    outcome (result (list DeliveryItem) Retrieve.RetrieveError) :=
  _ ←? Done (Retrieve.gate_specs (m3 w) 0 specs);
  _ ←? Retrieve.price_specs (m3 w) (m5 w) (Count_against MAX_WALK_STEPS) specs;
  Retrieve.deliver_specs (m3 w) (m5 w) (content_store w) readable specs (Count_against MAX_DELIVERY_ITEMS) [].

Definition retrieve_v (w : W) (specs : list Spec) : outcome (result (list DeliveryItem) Retrieve.RetrieveError) :=
  retrieve_v_masked w specs (λ _, true).

Definition doc_vspanset (w : W) (doc : Address) : outcome (result SpanSet Extent.ExtentError) :=
  if negb (is_registered_document (m3 w) doc) then Done (Err Extent.DocNotRegistered)
  else
    surface ← reading_surface (m3 w) doc;
    _ ← Extent.debug_assert_sequential_positions debug (m5 w) surface;
    l ← Extent.extents_of (m5 w) surface Subspace.ALL;
    let extents := from_iter l in
    _ ← debug_assert debug (is_normalized extents);
    Done (Ok extents).

Definition doc_vspan (w : W) (doc : Address) : outcome (result SpanSet Extent.ExtentError) :=
  extents ←? doc_vspanset w doc;
  match head (spans extents), last (spans extents) with
  | Some first, Some last =>
      r ← Span_from_endpoints (start first) (reach last);
      span ← expect_ok r;
      Done (Ok (singleton span))
  | _, _ => Done (Ok empty)
  end.

Definition show_origin_v (w : W) (doc : Address) (span : Span) : outcome (result (list Address) Origin.OriginError) :=
  if negb (is_registered_document (m3 w) doc) then Done (Err Origin.DocNotRegistered)
  else
    match gate_vspan span with
    | Err fault => Done (Err (Origin.MalformedSpan fault))
    | Ok _ =>
        surface ← reading_surface (m3 w) doc;
        sub ← Subspace.of_span span;
        match sub with
        | None => Done (Err Origin.NoSuchSubspace)
        | Some sub =>
            if (Subspace.count sub (m5 w) surface =? 0)%N then Done (Err Origin.EmptySubspace)
            else
              match as_ordinal_vspan span with
              | None => Done (Err Origin.DepthIncompatible)
              | Some shape =>
                  runs ← iter_resolve (m5 w) surface span;
                  origins ← outcome_map run_origin runs;
                  let resolved_width := foldr N.add 0%N (map run_width runs) in
                  Done (if (resolved_width <? ov_count shape)%N then Err Origin.RangeNotPresent
                        else Ok (sorted_addr_set origins))
              end
        end
    end.

Definition show_deletions (w : W) (d_a d_b : Address) : outcome (result Deletions DeletionsError) :=
  if negb (is_registered_document (m3 w) d_a) then Done (Err (DeletionsDocNotRegistered d_a))
  else if negb (is_registered_document (m3 w) d_b) then Done (Err (DeletionsDocNotRegistered d_b))
  else
    deletions_a ← deletions (m5 w) d_a;
    deletions_b ← deletions (m5 w) d_b;
    in_b ← current_content (m5 w) d_b;
    in_a ← current_content (m5 w) d_a;
    Done (Ok (MkDeletions
      (sorted_addr_set (List.filter (λ a, denotes deletions_a (tumbler a)) in_b))
      (sorted_addr_set (List.filter (λ a, denotes deletions_b (tumbler a)) in_a)))).

Definition find_docs_containing_filtered (w : W) (regions : list RegionSpec) (readable : Address → bool) :
    outcome (result (list Address) Find.FindError) :=
  _ ←? Done (Find.gate_regions (m3 w) 0 regions);
  _ ←? Find.price_regions (m5 w) regions (Count_against MAX_FIND_COVERAGE_SPANS) (Count_against MAX_WALK_STEPS);
  coverage_spans ←? Find.cover_regions (m5 w) regions (Count_against MAX_FIND_COVERAGE_SPANS) [];
  let coverage := from_iter coverage_spans in
  docs ← Find.narrow (m5 w) coverage readable (state_docs_ever_containing (m5 w) coverage);
  Done (Ok docs).

Definition find_docs_containing (w : W) (regions : list RegionSpec) : outcome (result (list Address) Find.FindError) :=
  find_docs_containing_filtered w regions (λ _, true).

Definition compare (w : W) (rho1 rho2 : list RegionSpec) : outcome (result (list CorrPair) Compare.CompareError) :=
  _ ←? Compare.gate_spec_set (m3 w) First rho1;
  _ ←? Compare.gate_spec_set (m3 w) Second rho2;
  p ← Compare.resolve_blocks debug (m3 w) (m5 w) rho1;
  p ←? Done (map_err (λ _, Compare.TooManyBlocks First) p);
  q ← Compare.resolve_blocks debug (m3 w) (m5 w) rho2;
  q ←? Done (map_err (λ _, Compare.TooManyBlocks Second) q);
  pairs ← Compare.interval_join p q;
  pairs ←? Done (map_err (λ _, Compare.TooManyPairs) pairs);
  Done (Ok (Compare.deterministic_presentation pairs)).
End Query.
