(* ===== verification/RetrievalLaws.v ===== *)
(** * What the retrieval operations share

    The budgets, counted to a total; the gate of one request span, and the shape it
    leaves; what a span resolves to in a document's own subspace; the surface an
    operation answers from; a run's origin; and the sorted set an answer is. *)

From stdpp Require Import gmap sorting.
From S2P Require Import Prelude Txns Tumblers Addresses AddrMaps Arith Spans SpanSets NsKeys NsState NsLaws NsOps NsInv NsCalls NsReach Runs Content RunLists VSpace Provenance Chain ArrState ArrReads World Edits EditInv VersionCalls Retrieval.

#[local] Arguments content_list : simpl never.
#[local] Arguments link_list : simpl never.
#[local] Arguments N.add : simpl never.

(** ** Budgets *)

Definition Count_ok (c : Count) : Prop := (ct_admitted c ≤ ct_budget c)%N.

Definition spent (c : Count) (n : N) : Count := MkCount (ct_budget c) (ct_admitted c + n).

(** What a count refuses when [total] more is asked of it. *)
Definition exceeds (c : Count) (total : N) : Prop := (ct_budget c < ct_admitted c + total)%N.

Lemma Count_against_ok b : Count_ok (Count_against b).
Proof. unfold Count_ok. cbn. lia. Qed.

Lemma Count_take_ok c n :
  Count_ok c →
  Count_take c n = Done (if (ct_budget c <? ct_admitted c + n)%N then Err OverBudget_ else Ok (spent c n)).
Proof.
  unfold Count_ok. intros Hc. unfold Count_take. rewrite nat_sub_ok by lia. cbn [mbind outcome_bind].
  destruct (N.ltb_spec (ct_budget c - ct_admitted c) n), (N.ltb_spec (ct_budget c) (ct_admitted c + n)); try lia; done.
Qed.

Lemma spent_ok c n : ¬ exceeds c n → Count_ok (spent c n).
Proof. unfold exceeds, Count_ok. cbn. lia. Qed.

Lemma exceeds_spent c n m : ¬ exceeds c n → exceeds (spent c n) m ↔ exceeds c (n + m).
Proof. unfold exceeds. cbn. by rewrite N.add_assoc. Qed.

(** A step that takes [n] of a count, ahead of [m] more. *)
Lemma judged_take {A E} (e : E) c n m (f : Count → outcome (result A E)) Q :
  Count_ok c →
  (¬ exceeds c n → Count_ok (spent c n) → ∃ r, f (spent c n) = Done r ∧ judged r [(e, exceeds (spent c n) m)] Q) →
  ∃ r, (taken ← Count_take c n; c ←? Done (map_err (λ _, e) taken); f c) = Done r ∧ judged r [(e, exceeds c (n + m))] Q.
Proof.
  intros Hc Hf. rewrite Count_take_ok by done. cbn [mbind outcome_bind].
  destruct (N.ltb_spec (ct_budget c) (ct_admitted c + n)) as [Hlt|Hge]; cbn [map_err try_bind].
  - eexists. split; [done|]. apply first_refusal_here. unfold exceeds. lia.
  - assert (Hn : ¬ exceeds c n) by (unfold exceeds; lia).
    destruct (Hf Hn (spent_ok c n Hn)) as (r & Hr & Hj). exists r. split; [done|].
    destruct r as [a|e']; cbn in *.
    + destruct Hj as [Hg ?]. split; [|done]. rewrite Forall_singleton in *. cbn in *. by rewrite <- exceeds_spent.
    + apply first_refusal_cons in Hj as [[<- Hx]|[_ []%first_refusal_nil]]. apply first_refusal_here.
      by apply exceeds_spent.
Qed.

(** The same where the budget's own refusal is the answer's. *)
Lemma judged_take_over {A} c n m (f : Count → outcome (result A OverBudget)) Q :
  Count_ok c →
  (¬ exceeds c n → Count_ok (spent c n) → ∃ r, f (spent c n) = Done r ∧ judged r [(OverBudget_, exceeds (spent c n) m)] Q) →
  ∃ r, (c ←? Count_take c n; f c) = Done r ∧ judged r [(OverBudget_, exceeds c (n + m))] Q.
Proof.
  intros Hc Hf. destruct (judged_take OverBudget_ c n m f Q Hc Hf) as (r & Hr & Hj). exists r. split; [|done].
  rewrite <- Hr. rewrite Count_take_ok by done. by destruct (_ <? _)%N.
Qed.

(** Nothing more to take. *)
Lemma judged_done {A E} (e : E) c (a : A) (Q : A → Prop) : Count_ok c → Q a → judged (Ok a) [(e, exceeds c 0)] Q.
Proof.
  intros Hc HQ. split; [|done]. constructor; [|done]. unfold exceeds, Count_ok in *. cbn. lia.
Qed.

(** ** One request span *)

Definition span_gates (span : Span) : list (SpanFault * Prop) :=
  [ (NotLevelUniform, Tumbler_len (start span) ≠ Tumbler_len (width span));
    (NotOrdinalLevel, action_point (width span) ≠ Some (Tumbler_len (width span)));
    (StartNotZeroFree, 0%N ∈ comps (start span));
    (StartTooShallow, Tumbler_len (start span) < 2) ].

Lemma separators_elem l : length (separators l) = 0 ↔ 0%N ∉ l.
Proof.
  induction l as [s Hz|s l Hz IH] using seg_ind.
  - rewrite (separators_count_zf s Hz). split; [|done]. intros _ Hin. unfold zero_free in Hz. rewrite Forall_forall in Hz. by apply (Hz _ Hin).
  - rewrite separators_count_app, separators_cons. cbn. split; [lia|]. intros Hn. exfalso. apply Hn.
    apply elem_of_app. right. by left.
Qed.

Lemma gate_vspan_ok span : judged (gate_vspan span) (span_gates span) (λ _, True).
Proof.
  unfold gate_vspan, span_gates.
  apply judged_gate; [unfold is_level_uniform; by rewrite negb_true_iff, Nat.eqb_neq|]. intros _.
  apply judged_gate; [by rewrite negb_true_iff, bool_decide_eq_false|]. intros _.
  apply judged_gate.
  { rewrite negb_true_iff, Nat.eqb_neq, zeros_separators, separators_elem. split; [|tauto]. apply dec_stable. }
  intros _. apply judged_gate; [by rewrite Nat.ltb_lt|]. intros _. by apply judged_ok.
Qed.

(** After the gate, the shape the arrangement resolves is the depth-2 one. *)
Lemma gated_shape span :
  Forall (λ g, ¬ g.2) (span_gates span) →
  2 ≤ Tumbler_len (start span) ∧ (is_Some (as_ordinal_vspan span) ↔ Tumbler_len (start span) = 2) ∧
  ∀ v, as_ordinal_vspan span = Some v → (1 ≤ ov_ordinal v)%N ∧ (1 ≤ ov_count v)%N.
Proof.
  unfold span_gates. rewrite !Forall_cons. cbn [snd]. intros (Hu & Hp & Hz & Hl & _).
  apply dec_stable in Hu. apply dec_stable in Hp. split; [lia|].
  apply action_point_Some in Hp as (i & x & ws & Hk & Hw & Hx).
  assert (Hws : ws = []).
  { unfold Tumbler_len in Hk. rewrite Hw, length_app, length_replicate in Hk. cbn in Hk. destruct ws; [done|cbn in Hk; lia]. }
  subst ws. split.
  - split.
    + intros [v Hv]. apply as_ordinal_vspan_Some in Hv as [Hv _]. unfold Tumbler_len. by rewrite Hv.
    + intros H2. destruct (comps_two _ H2) as (a & b & Es). rewrite H2 in Hu. symmetry in Hu.
      destruct (comps_two _ Hu) as (c & d & Ew). rewrite Ew in Hw.
      exists (MkOrdinalVSpan a b d). apply as_ordinal_vspan_Some. cbn. split; [done|].
      destruct i as [|[|i]]; cbn in Hw; by simplify_eq.
  - intros v [Es Ew]%as_ordinal_vspan_Some. rewrite Es in Hz. rewrite Ew in Hw. split.
    + destruct (N.eq_dec (ov_ordinal v) 0%N) as [E|]; [|lia]. exfalso. apply Hz. rewrite E. right. by left.
    + destruct i as [|[|i]]; cbn in Hw; simplify_eq; try lia; by destruct i.
Qed.

(** *** What a span names, and what it resolves to *)

Definition span_subspace (span : Span) : option Subspace.Subspace :=
  match Subspace.of_span span with Done o => o | Panicked => None end.

Lemma of_span_ok span : Subspace.of_span span = Done (span_subspace span).
Proof.
  unfold span_subspace, Subspace.of_span, Tumbler_get. pose proof (comps_nonempty (start span)).
  by destruct (comps (start span)) as [|x l].
Qed.

(** A document's own subspace, as its positions. *)
Definition held_in (s : Slices) (doc : Address) (sub : option Subspace.Subspace) : list Address :=
  match sub with
  | Some Subspace.Content => contents s doc
  | Some Subspace.Link => links s doc
  | None => []
  end.

(** The positions of [l] a V-span covers. *)
Definition clipped_to (v : OrdinalVSpan) (l : list Address) : list Address :=
  take (N.to_nat (ov_ordinal v + ov_count v - N.max (ov_ordinal v) 1)) (drop (N.to_nat (ov_ordinal v - 1)) l).

Definition resolved (s : Slices) (doc : Address) (span : Span) : list Address :=
  match as_ordinal_vspan span with
  | Some v => clipped_to v (held_in s doc (span_subspace span))
  | None => []
  end.

Lemma arr_list_subspace a span v :
  as_ordinal_vspan span = Some v →
  arr_list a (ov_subspace v) =
  match span_subspace span with
  | Some Subspace.Content => Some (content a)
  | Some Subspace.Link => Some (link a)
  | None => None
  end.
Proof.
  intros [Es _]%as_ordinal_vspan_Some. unfold arr_list, span_subspace, Subspace.of_span, Tumbler_get.
  rewrite Es. cbn [lookup list_lookup expect_some mbind outcome_bind]. unfold Subspace.of_numeral.
  cbn [find Subspace.ALL Subspace.numeral].
  rewrite (N.eqb_sym content_subspace), (N.eqb_sym link_subspace).
  destruct (_ =? content_subspace)%N; [done|]. by destruct (_ =? link_subspace)%N.
Qed.

Lemma resolve_ok s doc span :
  state_ok (sl_arrangement s) →
  ∃ rs, iter_resolve (sl_arrangement s) doc span = Done rs ∧ runs_ok rs ∧ flat rs = resolved s doc span.
Proof.
  intros Hs. unfold iter_resolve, resolved. destruct (as_ordinal_vspan span) as [v|] eqn:Ev.
  2: { exists []. split_and!; [done|apply runs_ok_nil|done]. }
  rewrite (arr_list_subspace _ _ _ Ev). destruct (lists_ok (sl_arrangement s) doc Hs) as [Hc Hl].
  destruct (span_subspace span) as [[]|]; cbn [held_in].
  - destruct (iter_resolve_range_ok _ (ov_ordinal v) (ov_count v) Hc) as (rs & E & ? & ?). by exists rs.
  - destruct (iter_resolve_range_ok _ (ov_ordinal v) (ov_count v) Hl) as (rs & E & ? & ?). by exists rs.
  - exists []. split_and!; [done|apply runs_ok_nil|]. unfold clipped_to. by rewrite drop_nil, take_nil.
Qed.

Lemma resolved_elem s doc span a : a ∈ resolved s doc span → a ∈ held_in s doc (span_subspace span).
Proof.
  unfold resolved, clipped_to. destruct (as_ordinal_vspan span); [|by intros ?%not_elem_of_nil].
  intros H%subseteq_take. by apply subseteq_drop in H.
Qed.

(** ** Prices *)

Definition price (s : Slices) (doc : Address) (span : Span) : N :=
  match walk_price (sl_arrangement s) doc span with Done n => n | Panicked => 0%N end.

Lemma walk_price_ok s doc span : walk_price (sl_arrangement s) doc span = Done (price s doc span).
Proof. unfold price, walk_price. by rewrite of_span_ok. Qed.

Definition total_of {A} (f : A → N) (l : list A) : N := foldr (λ x n, f x + n)%N 0%N l.

Lemma total_of_cons {A} (f : A → N) x l : total_of f (x :: l) = (f x + total_of f l)%N.
Proof. done. Qed.

Lemma total_of_app {A} (f : A → N) l k : total_of f (l ++ k) = (total_of f l + total_of f k)%N.
Proof. induction l as [|x l IH]; [done|]. cbn [app]. rewrite !total_of_cons, IH. lia. Qed.

(** A resolution yields at most one run per run of the list, and no more than it has
    positions. *)
Lemma outcome_map_length {A B} (f : A → outcome B) l l' : outcome_map f l = Done l' → length l' = length l.
Proof.
  revert l'. induction l as [|x l IH]; intros l'; cbn [outcome_map]; [by intros [= <-]|].
  destruct (f x) as [y|]; [|done]. cbn [mbind outcome_bind]. destruct (outcome_map f l) as [ys|]; [|done].
  cbn [mbind outcome_bind]. intros [= <-]. cbn. by rewrite (IH ys).
Qed.

Lemma omap_id_length {A} (l : list (option A)) : length (omap id l) ≤ length l.
Proof. induction l as [|[x|] l IH]; cbn; lia. Qed.

Lemma take_while_length {A} (f : A → bool) l : length (take_while f l) ≤ length l.
Proof. induction l as [|x l IH]; [done|]. cbn. destruct (f x); cbn; lia. Qed.

Lemma blocks_from_length v rs : length (blocks_from v rs) = length rs.
Proof. revert v. induction rs as [|r rs IH]; intros v; [done|]. cbn. by rewrite IH. Qed.

Lemma clipped_length l lo hi rs : clipped_runs l lo hi = Done rs → length rs ≤ run_count l.
Proof.
  unfold clipped_runs. intros (kept & Hk & [= <-])%bind_inv. unfold clipped.
  pose proof (omap_id_length kept). apply outcome_map_length in Hk. unfold run_count.
  rewrite <- (blocks_from_length 1 (rl_runs l)). fold (iter_blocks l).
  pose proof (take_while_length (λ b, match hi with Some hi => (v_start b <? hi)%N | None => true end) (iter_blocks l)).
  unfold iter_blocks, blocks_of in *. lia.
Qed.

Lemma runs_flat_length rs : runs_ok rs → length rs ≤ length (flat rs).
Proof.
  induction 1 as [|r rs [Hw _] _ IH]; [done|]. rewrite flat_cons, length_app, addrs_length. cbn. lia.
Qed.

(** ** Origins *)

Lemma document_shift a k : admits_start a = true → document_of (addr_shift a k) = document_of a.
Proof.
  intros Hs. unfold admits_start in Hs. destruct (element_field a) as [[|x [|y [|]]]|] eqn:Ef; try done.
  apply element_pair_view in Ef as (d & Hl & E).
  rewrite (document_of_under d a x y Hl E). apply (document_of_under d _ x (y + k) Hl).
  rewrite addr_shift_tumbler, (shift_app _ k (comps (tumbler d) ++ [0%N; x]) y) by (by rewrite E, <- app_assoc).
  by rewrite <- app_assoc.
Qed.

Lemma run_origin_ok r :
  run_ok r → ∃ o, run_origin r = Done o ∧ ∀ a, a ∈ addrs r → document_of a = Some o.
Proof.
  intros [_ Hs]. pose proof Hs as Hs'. unfold admits_start in Hs'.
  destruct (element_field (i_start r)) as [[|x [|y [|]]]|] eqn:Ef; try done.
  apply element_pair_view in Ef as (d & Hl & E). pose proof (document_of_under d _ x y Hl E) as Ed.
  exists d. unfold run_origin. rewrite Ed. split; [done|]. intros a (k & _ & ->)%elem_of_addrs.
  by rewrite document_shift.
Qed.

(** ** Answers as sets *)

Lemma sorted_addr_set_ok l :
  NoDup (sorted_addr_set l) ∧ StronglySorted addr_le (sorted_addr_set l) ∧ ∀ a, a ∈ sorted_addr_set l ↔ a ∈ l.
Proof.
  unfold sorted_addr_set. split_and!.
  - rewrite (merge_sort_Permutation addr_le). apply NoDup_remove_dups.
  - apply (StronglySorted_merge_sort addr_le).
  - intros a. by rewrite (merge_sort_Permutation addr_le), elem_of_remove_dups.
Qed.

(** ** Steps the operations share *)

(** What [gate_vspan] refuses, under an operation's own name. *)
Definition span_refusals {E} (f : SpanFault → E) (span : Span) : list (E * Prop) :=
  (λ g, (f g.1, g.2)) <$> span_gates span.

Lemma judged_vspan {A E} (f : SpanFault → E) span (k : result A E) gates Q :
  (Forall (λ g, ¬ g.2) (span_gates span) → judged k gates Q) →
  judged (match gate_vspan span with Err fault => Err (f fault) | Ok _ => k end) (span_refusals f span ++ gates) Q.
Proof.
  intros Hk. pose proof (judged_map_err _ f _ _ (judged_passed _ _ _ (gate_vspan_ok span))) as Hg.
  assert (E' : match gate_vspan span with Err fault => Err (f fault) | Ok _ => k end =
    match map_err f (gate_vspan span) with Ok _ => k | Err e => Err e end) by (by destruct (gate_vspan span)).
  rewrite E'. apply (judged_seq _ (λ _, k) _ _ _ _ Hg). intros _ [_ ?]. by apply Hk.
Qed.

(** A count of a [usize] that stands for a wider one: the budget is below either. *)
Lemma judged_take_usize {A E} (e : E) c n m (f : Count → outcome (result A E)) Q :
  Count_ok c → (ct_budget c < usize_max)%N →
  (¬ exceeds c n → Count_ok (spent c n) → ∃ r, f (spent c n) = Done r ∧ judged r [(e, exceeds (spent c n) m)] Q) →
  ∃ r, (taken ← Count_take c (default usize_max (to_usize n)); c ←? Done (map_err (λ _, e) taken); f c) = Done r ∧
    judged r [(e, exceeds c (n + m))] Q.
Proof.
  intros Hc Hb Hf. unfold to_usize. destruct (N.leb_spec n usize_max) as [Hle|Hgt]; cbn [default from_option].
  - by apply judged_take.
  - rewrite Count_take_ok by done. cbn [mbind outcome_bind].
    destruct (N.ltb_spec (ct_budget c) (ct_admitted c + usize_max)); [|lia]. cbn [map_err try_bind].
    eexists. split; [done|]. apply first_refusal_here. unfold exceeds. lia.
Qed.

Lemma spent_spent c n m : spent (spent c n) m = spent c (n + m).
Proof. unfold spent. cbn. f_equal. lia. Qed.

Lemma spent_0 c : spent c 0 = c.
Proof. destruct c. unfold spent. cbn. by rewrite N.add_0_r. Qed.

(** A stage that takes [n] in all, ahead of one that takes [m]. *)
Lemma judged_spend {A B E} (e : E) c n m (f : outcome (result A E)) (g : A → outcome (result B E)) P Q :
  (∃ r, f = Done r ∧ judged r [(e, exceeds c n)] P) →
  (∀ a, P a → ¬ exceeds c n → ∃ r, g a = Done r ∧ judged r [(e, exceeds (spent c n) m)] Q) →
  ∃ r, try_bind f g = Done r ∧ judged r [(e, exceeds c (n + m))] Q.
Proof.
  intros (r & -> & Hr) Hg. destruct r as [a|e']; cbn [judged try_bind outcome_bind] in *.
  - destruct Hr as [Hn HP]. rewrite Forall_singleton in Hn. cbn in Hn. destruct (Hg a HP Hn) as (r & Hr & Hj).
    exists r. split; [done|]. destruct r as [b|e']; cbn in *.
    + destruct Hj as [Hm ?]. split; [|done]. rewrite Forall_singleton in *. cbn in *. by rewrite <- exceeds_spent.
    + apply first_refusal_cons in Hj as [[<- Hx]|[_ []%first_refusal_nil]]. apply first_refusal_here.
      by apply exceeds_spent.
  - exists (Err e'). split; [done|]. cbn. apply first_refusal_cons in Hr as [[<- Hx]|[_ []%first_refusal_nil]].
    apply first_refusal_here. unfold exceeds in *. lia.
Qed.

Lemma judged_done_at {A E} (e : E) c (a : A) (Q : A → Prop) :
  Count_ok c → Q a → ∃ r, Done (Ok a) = Done r ∧ judged r [(e, exceeds c 0)] Q.
Proof. intros Hc HQ. eexists. split; [done|]. by apply judged_done. Qed.

(** ** Two counts at once *)

Lemma judged_take2 {A E} (e : E) c1 c2 n1 n2 m1 m2 (f : Count → Count → outcome (result A E)) Q :
  Count_ok c1 → Count_ok c2 →
  (Count_ok (spent c1 n1) → Count_ok (spent c2 n2) →
    ∃ r, f (spent c1 n1) (spent c2 n2) = Done r ∧
      judged r [(e, exceeds (spent c1 n1) m1 ∨ exceeds (spent c2 n2) m2)] Q) →
  ∃ r, (taken ← Count_take c1 n1; c1 ←? Done (map_err (λ _, e) taken);
        taken ← Count_take c2 n2; c2 ←? Done (map_err (λ _, e) taken); f c1 c2) = Done r ∧
    judged r [(e, exceeds c1 (n1 + m1) ∨ exceeds c2 (n2 + m2))] Q.
Proof.
  intros H1 H2 Hf. rewrite (Count_take_ok c1) by done. cbn [mbind outcome_bind].
  destruct (N.ltb_spec (ct_budget c1) (ct_admitted c1 + n1)) as [Hlt|Hge]; cbn [map_err try_bind outcome_bind].
  { eexists. split; [done|]. apply first_refusal_here. left. unfold exceeds. lia. }
  rewrite (Count_take_ok c2) by done. cbn [mbind outcome_bind].
  destruct (N.ltb_spec (ct_budget c2) (ct_admitted c2 + n2)) as [Hlt|Hge2]; cbn [map_err try_bind outcome_bind].
  { eexists. split; [done|]. apply first_refusal_here. right. unfold exceeds. lia. }
  assert (Hn1 : ¬ exceeds c1 n1) by (unfold exceeds; lia). assert (Hn2 : ¬ exceeds c2 n2) by (unfold exceeds; lia).
  destruct Hf as (r & Hr & Hj); [by apply spent_ok..|]. exists r. split; [done|].
  eapply judged_iff; [|exact Hj]. by rewrite !exceeds_spent.
Qed.

Lemma judged_spend2 {A B E} (e : E) c1 c2 n1 n2 m1 m2 (f : outcome (result A E)) (g : A → outcome (result B E)) P Q :
  (∃ r, f = Done r ∧ judged r [(e, exceeds c1 n1 ∨ exceeds c2 n2)] P) →
  (∀ a, P a → ¬ exceeds c1 n1 → ¬ exceeds c2 n2 →
    ∃ r, g a = Done r ∧ judged r [(e, exceeds (spent c1 n1) m1 ∨ exceeds (spent c2 n2) m2)] Q) →
  ∃ r, try_bind f g = Done r ∧ judged r [(e, exceeds c1 (n1 + m1) ∨ exceeds c2 (n2 + m2))] Q.
Proof.
  intros (r & -> & Hr) Hg. destruct r as [a|e']; cbn [judged try_bind outcome_bind] in *.
  - destruct Hr as [Hn HP]. rewrite Forall_singleton in Hn. cbn in Hn. assert (Hn1 : ¬ exceeds c1 n1) by tauto. assert (Hn2 : ¬ exceeds c2 n2) by tauto.
    destruct (Hg a HP Hn1 Hn2) as (r & Hr & Hj). exists r. split; [done|].
    eapply judged_iff; [|exact Hj]. by rewrite !exceeds_spent.
  - exists (Err e'). split; [done|]. cbn. apply first_refusal_cons in Hr as [[<- Hx]|[_ []%first_refusal_nil]].
    apply first_refusal_here. unfold exceeds in *. lia.
Qed.

Lemma judged_done2 {A E} (e : E) c1 c2 (a : A) (Q : A → Prop) :
  Count_ok c1 → Count_ok c2 → Q a → ∃ r, Done (Ok a) = Done r ∧ judged r [(e, exceeds c1 0 ∨ exceeds c2 0)] Q.
Proof.
  intros H1 H2 HQ. eexists. split; [done|]. split; [|done]. constructor; [|done]. unfold exceeds, Count_ok in *. cbn. lia.
Qed.

(** ** What a set of regions names *)

Definition asked_spans (s : Slices) (doc : Address) (spans : list Span) : list Address := spans ≫= resolved s doc.

(** The runs a region's spans resolve to. *)
Definition span_runs (s : Slices) (doc : Address) (span : Span) : list Run :=
  match iter_resolve (sl_arrangement s) doc span with Done rs => rs | Panicked => [] end.

Lemma span_runs_ok s doc span :
  state_ok (sl_arrangement s) →
  iter_resolve (sl_arrangement s) doc span = Done (span_runs s doc span) ∧ runs_ok (span_runs s doc span) ∧
  flat (span_runs s doc span) = resolved s doc span.
Proof.
  intros Hs. destruct (resolve_ok s doc span Hs) as (rs & E & ? & ?). unfold span_runs. by rewrite E.
Qed.

Lemma spans_runs_flat s doc spans :
  state_ok (sl_arrangement s) →
  runs_ok (spans ≫= span_runs s doc) ∧ flat (spans ≫= span_runs s doc) = asked_spans s doc spans.
Proof.
  intros Hs. unfold asked_spans. induction spans as [|x spans [IH1 IH2]]; [split; [apply runs_ok_nil|done]|].
  destruct (span_runs_ok s doc x Hs) as (_ & ? & E). rewrite !bind_cons, flat_app, E, IH2. split; [by apply runs_ok_app|done].
Qed.

Lemma outcome_map_app {A B} (f : A → outcome B) l k l' k' :
  outcome_map f l = Done l' → outcome_map f k = Done k' → outcome_map f (l ++ k) = Done (l' ++ k').
Proof.
  revert l'. induction l as [|x l IH]; intros l'; cbn [outcome_map app]; [by intros [= <-]|].
  destruct (f x) as [y|]; [|done]. cbn [mbind outcome_bind]. destruct (outcome_map f l) as [ys|]; [|done].
  cbn [mbind outcome_bind]. intros [= <-] Hk. by rewrite (IH ys eq_refl Hk).
Qed.

(** ** The walk's price *)

(** C40. The price of a walk bounds it: on a well-formed arrangement the two reads are
    total, the resolution yields no more runs than the price charged ahead of it, and
    the price is never above the runs the document keeps. *)
Theorem walk_price_bounds (m5 : M5State) (doc : Address) (span : Span) :
  state_ok m5 →
  ∃ rs n, iter_resolve m5 doc span = Done rs ∧ walk_price m5 doc span = Done n ∧
    (N.of_nat (length rs) ≤ n)%N ∧
    (n ≤ Subspace.run_count Subspace.Content m5 doc + Subspace.run_count Subspace.Link m5 doc)%N.
Proof.
  intros Hs. unfold walk_price. rewrite of_span_ok. cbn [mbind outcome_bind].
  set (runs := match span_subspace span with Some sub => _ | None => _ end).
  assert (Hruns : (runs ≤ Subspace.run_count Subspace.Content m5 doc + Subspace.run_count Subspace.Link m5 doc)%N).
  { subst runs. destruct (span_subspace span) as [[]|]; [lia..|]. cbn. unfold saturating_add. lia. }
  assert (Hrs : ∃ rs, iter_resolve m5 doc span = Done rs ∧ (N.of_nat (length rs) ≤ runs)%N ∧
    ∀ v, as_ordinal_vspan span = Some v → (N.of_nat (length rs) ≤ ov_ordinal v + ov_count v)%N).
  { unfold iter_resolve. destruct (as_ordinal_vspan span) as [v|] eqn:Ev; [|exists []; split_and!; [done|cbn; lia|done]].
    rewrite (arr_list_subspace _ _ _ Ev). subst runs. destruct (lists_ok m5 doc Hs) as [Hc Hl].
    assert (Hlist : ∀ l, RunList_ok l → ∃ rs, RunLists.iter_resolve_range l (ov_ordinal v) (ov_count v) = Done rs ∧
      (length rs ≤ run_count l) ∧ ∀ v', Some v = Some v' → (N.of_nat (length rs) ≤ ov_ordinal v' + ov_count v')%N).
    { intros l Hlist. destruct (iter_resolve_range_ok l (ov_ordinal v) (ov_count v) Hlist) as (rs & E & Hro & Hfl).
      exists rs. split_and!; [done| |].
      - revert E. unfold RunLists.iter_resolve_range. destruct (_ <? _)%N; [apply clipped_length|intros [= <-]; cbn; lia].
      - intros v' [= <-]. pose proof (runs_flat_length rs Hro) as Hle. rewrite Hfl, length_take in Hle. lia. }
    destruct (span_subspace span) as [[]|].
    - destruct (Hlist _ Hc) as (rs & E & Hle & Hv). exists rs. split_and!; [done| |done]. unfold Subspace.run_count, content_run_count. lia.
    - destruct (Hlist _ Hl) as (rs & E & Hle & Hv). exists rs. split_and!; [done| |done]. unfold Subspace.run_count, link_run_count. lia.
    - exists []. split_and!; [done|cbn; lia|cbn; lia]. }
  destruct Hrs as (rs & E & Hle & Hv). exists rs. eexists. split_and!; [done|done| |].
  - destruct (as_ordinal_vspan span) as [v|]; [|done]. cbn [mbind option_bind]. unfold to_usize.
    destruct (_ <=? _)%N; [|done]. specialize (Hv v eq_refl). lia.
  - destruct (as_ordinal_vspan span ≫= _) as [reach|]; lia.
Qed.

(** What one request span must be. The gate refuses by the first of its conditions,
    in order; and a span it lets through is one the arrangement resolves exactly when
    it is of depth two, and then from an ordinal of at least one and over at least one
    position. *)
Theorem gate_vspan_exact (span : Span) :
  judged (gate_vspan span) (span_gates span)
    (λ _, 2 ≤ Tumbler_len (start span) ∧ (is_Some (as_ordinal_vspan span) ↔ Tumbler_len (start span) = 2) ∧
      ∀ v, as_ordinal_vspan span = Some v → (1 ≤ ov_ordinal v)%N ∧ (1 ≤ ov_count v)%N).
Proof.
  eapply judged_conseq; [apply judged_passed, gate_vspan_ok|]. intros _ [_ Hg]. by apply gated_shape.
Qed.
