(* ===== verification/RetrieveCalls.v ===== *)
(** * RETRIEVEV

    What the delivery answers: it is total over a world that holds the core's
    invariant, it refuses by its gates and then by its two budgets, and what it
    delivers expands, position by position, to what the requested positions hold. *)

From stdpp Require Import gmap.
From S2P Require Import Prelude Txns Tumblers Addresses AddrMaps Arith Spans NsKeys NsState NsLaws NsOps NsInv NsCalls NsReach Runs Content RunLists VSpace Provenance Chain ArrState ArrReads World Edits EditInv VersionCalls Retrieval RetrievalLaws.

#[local] Arguments content_list : simpl never.
#[local] Arguments link_list : simpl never.
#[local] Arguments N.add : simpl never.
#[local] Arguments drain : simpl never.

(** ** What a position shows *)

Inductive Shown := ShownValue (v : Val) | ShownRef (a : Address) | ShownHidden (origin : Address).

(** An item, position by position. *)
Definition item_shows (i : DeliveryItem) : list Shown :=
  match i with
  | ItemContent v => [ShownValue v]
  | ItemBytes bytes => (λ b, ShownValue [b]) <$> bytes
  | ItemRef a => [ShownRef a]
  | ItemWithheld origin width => replicate (N.to_nat width) (ShownHidden origin)
  end.

Definition hides (s : Slices) (readable : Address → bool) (origin : Address) : bool :=
  negb (is_registered_document (sl_namespace s) origin) || negb (readable origin).

(** What position [a] of subspace [sub] shows to the caller. *)
Definition shows (s : Slices) (readable : Address → bool) (sub : option Subspace.Subspace) (a : Address) (x : Shown) : Prop :=
  ∃ origin, document_of a = Some origin ∧
    if hides s readable origin then x = ShownHidden origin
    else
      match sub with
      | Some Subspace.Content => ∃ v, stores (sl_content s) (tumbler a) v ∧ x = ShownValue v
      | Some Subspace.Link => x = ShownRef a
      | None => False
      end.

(** One requested span, resolved on the surface a reader is shown. *)
Definition spec_positions (s : Slices) (sp : Spec) : list Address :=
  resolved s (reads (sl_namespace s) (sp_doc sp)) (sp_span sp).

Definition spec_runs (s : Slices) (sp : Spec) : list Run :=
  match iter_resolve (sl_arrangement s) (reads (sl_namespace s) (sp_doc sp)) (sp_span sp) with
  | Done rs => rs
  | Panicked => []
  end.

Definition spec_shows (s : Slices) (readable : Address → bool) (sp : Spec) (xs : list Shown) : Prop :=
  Forall2 (shows s readable (span_subspace (sp_span sp))) (spec_positions s sp) xs.

(** ** One run *)

Lemma piece_item_shows ps : (piece_item <$> ps) ≫= item_shows = ShownValue <$> (ps ≫= piece_vals).
Proof.
  induction ps as [|p ps IH]; [done|]. rewrite fmap_cons, !bind_cons, fmap_app, IH.
  destruct p as [bytes|v]; [|done]. cbn [piece_item item_shows piece_vals]. by rewrite <- list_fmap_compose.
Qed.

Lemma lent_whole c r vals rest :
  (∀ a, a ∈ addrs r → ∃ v, stores c (tumbler a) v) → lent c (tumbler (i_start r)) (run_width r) vals rest →
  rest = 0%N ∧ Forall2 (λ a v, stores c (tumbler a) v) (addrs r) vals.
Proof.
  intros Hst (Hlen & Hv & Hstop). destruct (N.eq_dec rest 0%N) as [->|Hne].
  - split; [done|]. apply Forall2_same_length_lookup. split; [rewrite addrs_length; lia|].
    intros i a v Ha Hi. apply Hv in Hi. pose proof (lookup_lt_Some _ _ _ Ha) as Hlt. rewrite addrs_length in Hlt.
    rewrite <- (Nat2N.id i), addrs_lookup in Ha by lia. injection Ha as <-. by rewrite addr_shift_tumbler.
  - exfalso. destruct (Hst (addr_shift (i_start r) (N.of_nat (length vals)))) as [v Hs].
    + apply elem_of_addrs. exists (N.of_nat (length vals)). split; [lia|done].
    + apply (Hstop Hne v). by rewrite <- addr_shift_tumbler.
Qed.

Lemma expand_ok s readable sub r origin :
  core_ok s → run_ok r → run_origin r = Done origin → hides s readable origin = false →
  (∀ a, a ∈ addrs r → ∃ d, a ∈ held_in s d sub) →
  ∃ items, Retrieve.expand (sl_content s) sub r = Done items ∧
    Forall2 (shows s readable sub) (addrs r) (items ≫= item_shows).
Proof.
  intros Hok Hr Ho Hh Hin. destruct (run_origin_ok r Hr) as (o & Ho' & Hdoc). rewrite Ho in Ho'. injection Ho' as <-.
  destruct sub as [[]|]; cbn [Retrieve.expand].
  - destruct (drain_ok (sl_content s) (tumbler (i_start r)) (run_width r) (co_store _ Hok)) as (ps & p & Hd & Hl).
    rewrite Hd. cbn [mbind outcome_bind]. apply lent_whole in Hl as [Hz Hv].
    2: { intros a Ha. destruct (Hin a Ha) as [d Hd']. by apply (co_arranged _ Hok) in Hd' as (_ & _ & ?). }
    rewrite Hz. cbn [assert N.eqb mbind outcome_bind]. eexists. split; [done|].
    rewrite piece_item_shows. apply Forall2_fmap_r, Forall2_same_length_lookup. apply Forall2_same_length_lookup in Hv as [Hlen Hv].
    split; [done|]. intros i a v Ha Hi. exists origin. split; [by eapply Hdoc, list_elem_of_lookup_2|]. rewrite Hh.
    exists v. split; [by eapply (Hv i)|done].
  - rewrite addrs_of_ok. cbn [mbind outcome_bind]. eexists. split; [done|].
    assert (E' : (map ItemRef (addrs r)) ≫= item_shows = ShownRef <$> addrs r).
    { clear Hin Hdoc. induction (addrs r) as [|a l IH]; [done|]. change (ShownRef a :: (map ItemRef l ≫= item_shows) = ShownRef a :: (ShownRef <$> l)). by rewrite IH. }
    rewrite E'. apply Forall2_fmap_r, Forall_Forall2_diag, Forall_forall. intros a Ha.
    exists origin. split; [by apply Hdoc|]. by rewrite Hh.
  - exfalso. destruct Hr as [Hw _]. destruct (Hin (i_start r)) as [d Hd].
    + apply elem_of_addrs. exists 0%N. split; [lia|]. by rewrite addr_shift_0.
    + by apply not_elem_of_nil in Hd.
Qed.

Lemma hidden_shows s readable sub r origin :
  run_ok r → run_origin r = Done origin → hides s readable origin = true →
  Forall2 (shows s readable sub) (addrs r) (item_shows (ItemWithheld origin (run_width r))).
Proof.
  intros Hr Ho Hh. destruct (run_origin_ok r Hr) as (o & Ho' & Hdoc). rewrite Ho in Ho'. injection Ho' as <-.
  cbn [item_shows]. rewrite <- addrs_length. apply Forall2_replicate_r; [done|]. apply Forall_forall. intros a Ha.
  exists origin. split; [by apply Hdoc|]. by rewrite Hh.
Qed.

(** ** The delivery *)

(** What one run counts against the delivery budget. *)
Definition run_items (s : Slices) (readable : Address → bool) (r : Run) : N :=
  match run_origin r with
  | Done origin => if hides s readable origin then 1%N else run_width r
  | Panicked => 0%N
  end.

Lemma deliver_runs_ok s readable sub rs c out :
  core_ok s → Count_ok c → (ct_budget c < usize_max)%N → runs_ok rs → (∀ a, a ∈ flat rs → ∃ d, a ∈ held_in s d sub) →
  ∃ r, Retrieve.deliver_runs (sl_namespace s) (sl_content s) sub readable rs c out = Done r ∧
    judged r [(Retrieve.TooManyItems, exceeds c (total_of (run_items s readable) rs))]
      (λ x, x.1 = spent c (total_of (run_items s readable) rs) ∧
        ∃ items, x.2 = out ++ items ∧ Forall2 (shows s readable sub) (flat rs) (items ≫= item_shows)).
Proof.
  intros Hok. revert c out. induction rs as [|r rs IH]; intros c out Hc Hb Hrs Hin.
  { apply judged_done_at; [done|]. cbn. rewrite spent_0. split; [done|]. exists []. by rewrite app_nil_r. }
  apply runs_ok_cons in Hrs as [Hr Hrs]. rewrite flat_cons in Hin.
  destruct (run_origin_ok r Hr) as (origin & Ho & _). cbn [Retrieve.deliver_runs]. rewrite Ho. cbn [mbind outcome_bind].
  rewrite total_of_cons. unfold run_items at 1 3. rewrite Ho. fold (hides s readable origin).
  assert (Hstep : ∀ n items, ¬ exceeds c n → Count_ok (spent c n) →
    Forall2 (shows s readable sub) (addrs r) (items ≫= item_shows) →
    ∃ r0, Retrieve.deliver_runs (sl_namespace s) (sl_content s) sub readable rs (spent c n) (out ++ items) = Done r0 ∧
      judged r0 [(Retrieve.TooManyItems, exceeds (spent c n) (total_of (run_items s readable) rs))]
      (λ x, x.1 = spent c (n + total_of (run_items s readable) rs) ∧
        ∃ items, x.2 = out ++ items ∧ Forall2 (shows s readable sub) (flat (r :: rs)) (items ≫= item_shows))).
  { intros n items Hn Hcn Hi. destruct (IH (spent c n) (out ++ items)) as (r0 & Hr0 & Hj); [done..| |].
    { intros a Ha. apply Hin, elem_of_app. by right. }
    exists r0. split; [done|]. eapply judged_conseq; [exact Hj|]. intros x (Hx & items' & E' & Hf).
    split; [by rewrite Hx, spent_spent|]. exists (items ++ items'). split; [by rewrite E', app_assoc|].
    rewrite flat_cons, bind_app. by apply Forall2_app. }
  destruct (hides s readable origin) eqn:Hh.
  - apply (judged_take Retrieve.TooManyItems); [done|]. intros Hn Hcn. apply Hstep; [done..|].
    cbn [mbind list_bind]. rewrite app_nil_r. by apply hidden_shows.
  - apply (judged_take_usize Retrieve.TooManyItems); [done..|]. intros Hn Hcn.
    destruct (expand_ok s readable sub r origin Hok Hr Ho Hh) as (items & He & Hf).
    { intros a Ha. apply Hin, elem_of_app. by left. }
    rewrite He. cbn [mbind outcome_bind]. by apply Hstep.
Qed.

Definition spec_items (s : Slices) (readable : Address → bool) (sp : Spec) : N :=
  total_of (run_items s readable) (spec_runs s sp).

Lemma deliver_specs_ok s readable specs c out :
  core_ok s → Count_ok c → (ct_budget c < usize_max)%N →
  ∃ r, Retrieve.deliver_specs (sl_namespace s) (sl_arrangement s) (sl_content s) readable specs c out = Done r ∧
    judged r [(Retrieve.TooManyItems, exceeds c (total_of (spec_items s readable) specs))]
      (λ l, ∃ parts, l = out ++ concat parts ∧ Forall2 (λ sp items, spec_shows s readable sp (items ≫= item_shows)) specs parts).
Proof.
  intros Hok. revert c out. induction specs as [|sp specs IH]; intros c out Hc Hb.
  { apply judged_done_at; [done|]. exists []. by rewrite app_nil_r. }
  cbn [Retrieve.deliver_specs]. rewrite of_span_ok, reading_reads. cbn [mbind outcome_bind].
  destruct (resolve_ok s (reads (sl_namespace s) (sp_doc sp)) (sp_span sp) (co_m5 _ Hok)) as (rs & Hrs & Hro & Hfl).
  assert (Es : spec_runs s sp = rs) by (unfold spec_runs; by rewrite Hrs).
  rewrite Hrs. cbn [mbind outcome_bind]. rewrite total_of_cons. unfold spec_items at 1. rewrite Es.
  eapply judged_spend.
  - apply deliver_runs_ok; [done..|]. rewrite Hfl. intros a Ha%resolved_elem. by eexists.
  - intros [c' out'] (Hx & items & Eo & Hf) Hn. cbn [fst snd] in *. subst c' out'.
    destruct (IH (spent c (total_of (run_items s readable) rs)) (out ++ items)) as (r & Hr & Hj);
      [by apply spent_ok|done|]. exists r. split; [done|]. eapply judged_conseq; [exact Hj|].
    intros l (parts & -> & Hp). exists (items :: parts). split; [by rewrite <- app_assoc|].
    constructor; [|done]. unfold spec_shows. by rewrite Hfl in Hf.
Qed.

(** ** The gates and the walk's price *)

Fixpoint specs_gates (s : Slices) (index : nat) (specs : list Spec) : list (Retrieve.RetrieveError * Prop) :=
  match specs with
  | [] => []
  | sp :: specs =>
      (Retrieve.DocNotRegistered (sp_doc sp), is_registered_document (sl_namespace s) (sp_doc sp) = false) ::
      span_refusals (Retrieve.MalformedSpec index) (sp_span sp) ++ specs_gates s (S index) specs
  end.

Lemma gate_specs_ok s index specs :
  judged (Retrieve.gate_specs (sl_namespace s) index specs) (specs_gates s index specs) (λ _, True).
Proof.
  revert index. induction specs as [|sp specs IH]; intros index; [by apply judged_ok|].
  cbn [Retrieve.gate_specs specs_gates]. apply judged_gate; [by rewrite negb_true_iff|]. intros _.
  apply judged_vspan. intros _. apply IH.
Qed.

Definition spec_price (s : Slices) (sp : Spec) : N :=
  price s (reads (sl_namespace s) (sp_doc sp)) (sp_span sp).

Lemma price_specs_ok s specs c :
  Count_ok c →
  ∃ r, Retrieve.price_specs (sl_namespace s) (sl_arrangement s) c specs = Done r ∧
    judged r [(Retrieve.TooManyItems, exceeds c (total_of (spec_price s) specs))] (λ _, True).
Proof.
  revert c. induction specs as [|sp specs IH]; intros c Hc; [by apply judged_done_at|].
  cbn [Retrieve.price_specs]. rewrite reading_reads. cbn [mbind outcome_bind]. rewrite walk_price_ok. cbn [mbind outcome_bind].
  rewrite total_of_cons. apply (judged_take Retrieve.TooManyItems); [done|]. intros _ Hc'. by apply IH.
Qed.

(** The gates of a delivery, in their order: each spec's document and span; the price of
    the walks; the items. *)
Definition retrieve_gates (s : Slices) (readable : Address → bool) (specs : list Spec) : list (Retrieve.RetrieveError * Prop) :=
  specs_gates s 0 specs ++
  [ (Retrieve.TooManyItems, (MAX_WALK_STEPS < total_of (spec_price s) specs)%N);
    (Retrieve.TooManyItems, (MAX_DELIVERY_ITEMS < total_of (spec_items s readable) specs)%N) ].

Section Retrieve.
Context {debug : bool} {W R : Type} `{WS : WorldState W R} `{HS : !HasSlices debug W R}.

(** C28. RETRIEVEV answers, on any world that holds the core's invariant: it refuses by
    the first of its gates that holds — each spec's registration and well-formedness in
    the order given, then the price of the walks, then the number of items — and
    otherwise delivers, spec by spec, items that expand to exactly one showing per
    requested position that the surface arranges: the stored value of a content
    position, the address of a link position, and of an origin the caller may not read
    nothing but its name. *)
Theorem retrieve_exact (w : W) (specs : list Spec) (readable : Address → bool) :
  core_ok (slices w) →
  ∃ r, retrieve_v_masked w specs readable = Done r ∧
    judged r (retrieve_gates (slices w) readable specs)
      (λ items, ∃ parts, items = concat parts ∧
        Forall2 (λ sp items, spec_shows (slices w) readable sp (items ≫= item_shows)) specs parts).
Proof.
  intros Hok. unfold retrieve_v_masked, retrieve_gates.
  change (m3 w) with (sl_namespace (slices w)). change (m5 w) with (sl_arrangement (slices w)).
  change (content_store w) with (sl_content (slices w)). set (s := slices w) in *.
  apply (judged_try _ _ _ _ (λ _, True)).
  { eexists. split; [done|]. apply gate_specs_ok. }
  intros _ _. apply (judged_try _ _ [_] [_] (λ _, True)).
  - apply price_specs_ok, Count_against_ok.
  - intros _ _. apply (deliver_specs_ok s readable specs (Count_against MAX_DELIVERY_ITEMS) []);
      [done|apply Count_against_ok|done].
Qed.

(** The unmasked delivery is the masked one of a caller who may read everything. *)
Lemma retrieve_unmasked (w : W) (specs : list Spec) : retrieve_v w specs = retrieve_v_masked w specs (λ _, true).
Proof. done. Qed.
End Retrieve.
