(* ===== verification/ShowCalls.v ===== *)
(** * The extents, the origins and the deletions

    What a document's V-extents denote, what SHOWORIGIN and SHOWDELETIONS answer, and
    the gates of each. *)

From stdpp Require Import gmap sorting.
From S2P Require Import Prelude Txns Tumblers Addresses AddrMaps Arith Spans SpanSets NsKeys NsState NsLaws NsOps NsInv NsCalls NsReach Runs Content RunLists VSpace Provenance Chain ArrState ArrReads World Edits EditInv VersionCalls Retrieval RetrievalLaws.

#[local] Arguments content_list : simpl never.
#[local] Arguments link_list : simpl never.
#[local] Arguments N.add : simpl never.

(** ** The extents *)

Definition occupied (s : Slices) (doc : Address) (p : VPos) : Prop :=
  ∃ a, state_point (sl_arrangement s) doc p = Done (Some a).

Lemma held_count s doc sub :
  Subspace.count sub (sl_arrangement s) doc = N.of_nat (length (held_in s doc (Some sub))).
Proof. destruct sub; apply total_width_flat. Qed.

Lemma point_cases s doc p :
  state_ok (sl_arrangement s) →
  ∃ o, state_point (sl_arrangement s) doc p = Done o ∧
    (is_Some o ↔ ∃ sub, vp_subspace p = Subspace.numeral sub ∧
      (1 ≤ vp_ordinal p < 1 + Subspace.count sub (sl_arrangement s) doc)%N).
Proof.
  intros Hs. destruct (arr_list (arrangement_of (sl_arrangement s) doc) (vp_subspace p)) as [l|] eqn:E.
  - rewrite (state_point_ok _ _ _ _ Hs E). eexists. split; [done|].
    assert (Hsub : ∃ sub, vp_subspace p = Subspace.numeral sub ∧ vmap l = held_in s doc (Some sub)).
    { unfold arr_list in E. destruct (N.eqb_spec (vp_subspace p) content_subspace) as [Ec|].
      - injection E as <-. by exists Subspace.Content.
      - destruct (N.eqb_spec (vp_subspace p) link_subspace) as [El|]; [|done]. injection E as <-. by exists Subspace.Link. }
    destruct Hsub as (sub & Es & El). rewrite El. destruct (N.eqb_spec (vp_ordinal p) 0) as [E0|Hne].
    + split; [by intros []|]. intros (? & _ & ?). lia.
    + rewrite lookup_lt_is_Some. split.
      * intros Hlt. exists sub. split; [done|]. rewrite held_count. lia.
      * intros (sub' & Es' & Hlt). assert (sub' = sub) as -> by (rewrite Es in Es'; by destruct sub, sub').
        rewrite held_count in Hlt. lia.
  - exists None. unfold state_point. rewrite E. split; [done|]. split; [by intros []|]. intros (sub & Es & _).
    unfold arr_list in E. rewrite Es in E. by destruct sub.
Qed.

Lemma occupied_iff s doc p :
  state_ok (sl_arrangement s) →
  occupied s doc p ↔ ∃ sub, vp_subspace p = Subspace.numeral sub ∧
    (1 ≤ vp_ordinal p < 1 + Subspace.count sub (sl_arrangement s) doc)%N.
Proof.
  intros Hs. destruct (point_cases s doc p Hs) as (o & E & Ho). unfold occupied. rewrite E, <- Ho. split.
  - intros [a [= ->]]. by eexists.
  - intros [a ->]. by exists a.
Qed.

(** One subspace's extent. *)
Definition extent_over (sub : Subspace.Subspace) (n : N) (x : Span) : Prop :=
  comps (start x) = [Subspace.numeral sub; 1%N] ∧ comps (reach x) = [Subspace.numeral sub; (1 + n)%N] ∧
  is_level_uniform x = true ∧
  ∀ t p, at_position t p → contains x t = true ↔ vp_subspace p = Subspace.numeral sub ∧ (1 ≤ vp_ordinal p < 1 + n)%N.

Lemma ext_span_ok sub n :
  ∃ o, Extent.ext_span sub n = Done o ∧ match o with None => n = 0%N | Some x => n ≠ 0%N ∧ extent_over sub n x end.
Proof.
  unfold Extent.ext_span. destruct (decide (n = 0%N)) as [->|Hn]; [by exists None|].
  destruct (ordinal_vspan_ok (Subspace.anchor sub) n Hn) as (x & E & Es & Ew).
  destruct (ordinal_vspan_spans _ _ _ Es Ew Hn) as (Hr & Hu & Hc). exists (Some x). by split_and!.
Qed.

(** The two extents, at most one a subspace, in the order of the subspaces. *)
Lemma extents_ok s doc :
  ∃ o1 o2, Extent.extents_of (sl_arrangement s) doc Subspace.ALL = Done (option_list o1 ++ option_list o2) ∧
    match o1 with None => Subspace.count Subspace.Content (sl_arrangement s) doc = 0%N
      | Some x => Subspace.count Subspace.Content (sl_arrangement s) doc ≠ 0%N ∧
          extent_over Subspace.Content (Subspace.count Subspace.Content (sl_arrangement s) doc) x end ∧
    match o2 with None => Subspace.count Subspace.Link (sl_arrangement s) doc = 0%N
      | Some x => Subspace.count Subspace.Link (sl_arrangement s) doc ≠ 0%N ∧
          extent_over Subspace.Link (Subspace.count Subspace.Link (sl_arrangement s) doc) x end.
Proof.
  destruct (ext_span_ok Subspace.Content (Subspace.count Subspace.Content (sl_arrangement s) doc)) as (o1 & E1 & H1).
  destruct (ext_span_ok Subspace.Link (Subspace.count Subspace.Link (sl_arrangement s) doc)) as (o2 & E2 & H2).
  exists o1, o2. split; [|done]. cbn [Extent.extents_of Subspace.ALL]. rewrite E1, E2. cbn [mbind outcome_bind].
  by destruct o1, o2.
Qed.

Lemma extents_sequential debug s doc :
  state_ok (sl_arrangement s) → Extent.debug_assert_sequential_positions debug (sl_arrangement s) doc = Done tt.
Proof.
  intros Hs. unfold Extent.debug_assert_sequential_positions. destruct debug; [|done].
  assert (H : ∀ sub, Extent.sequential (sl_arrangement s) doc sub = Done tt).
  { intros sub. unfold Extent.sequential.
    assert (E : foldr N.add 0%N (map run_width (Subspace.runs sub (sl_arrangement s) doc)) = Subspace.count sub (sl_arrangement s) doc).
    { destruct sub; cbn [Subspace.runs Subspace.count]; unfold content_runs, link_runs, content_count, link_count, total_width;
        (induction (rl_runs _) as [|r l IH]; [done|cbn; by rewrite IH]). }
    rewrite E, N.eqb_refl. cbn [assert mbind outcome_bind].
    destruct (point_cases s doc (Subspace.anchor sub) Hs) as (o & -> & Ho). cbn [mbind outcome_bind].
    destruct (N.eqb_spec (Subspace.count sub (sl_arrangement s) doc) 0) as [|Hn]; [done|]. cbn [orb].
    rewrite bool_decide_eq_true_2; [done|]. apply Ho. exists sub. cbn. split; [done|lia]. }
  cbn [outcome_map Subspace.ALL]. by rewrite !H.
Qed.

Lemma extents_normal o1 o2 n1 n2 :
  match o1 with None => n1 = 0%N | Some x => n1 ≠ 0%N ∧ extent_over Subspace.Content n1 x end →
  match o2 with None => n2 = 0%N | Some x => n2 ≠ 0%N ∧ extent_over Subspace.Link n2 x end →
  is_normalized (from_iter (option_list o1 ++ option_list o2)) = true.
Proof.
  intros H1 H2. apply is_normalized_spec. exists 2. cbn [spans from_iter].
  assert (Hc : ∀ sub n x, extent_over sub n x → is_level_uniform x = true ∧ Tumbler_len (start x) = 2).
  { intros sub n x (Es & _ & Hu & _). split; [done|]. unfold Tumbler_len. by rewrite Es. }
  assert (Hg : ∀ x y, extent_over Subspace.Content n1 x → extent_over Subspace.Link n2 y → SpanSets.gap x y).
  { intros x y (_ & Hx & _) (Hy & _). unfold SpanSets.gap, Tlt, cmp. by rewrite Hx, Hy. }
  destruct o1 as [x|], o2 as [y|]; cbn in H1, H2 |- *.
  - destruct H1 as [_ H1], H2 as [_ H2]. split; [by repeat (constructor; [by eapply Hc|])|].
    constructor; [by repeat constructor|]. constructor; [by apply Hg|constructor].
  - destruct H1 as [_ H1]. split; [by repeat (constructor; [by eapply Hc|])|by repeat constructor].
  - destruct H2 as [_ H2]. split; [by repeat (constructor; [by eapply Hc|])|by repeat constructor].
  - apply canonical_nil.
Qed.

Lemma any_extents o1 o2 n1 n2 t p :
  match o1 with None => n1 = 0%N | Some x => n1 ≠ 0%N ∧ extent_over Subspace.Content n1 x end →
  match o2 with None => n2 = 0%N | Some x => n2 ≠ 0%N ∧ extent_over Subspace.Link n2 x end →
  at_position t p →
  any (option_list o1 ++ option_list o2) t = true ↔
    (vp_subspace p = Subspace.numeral Subspace.Content ∧ (1 ≤ vp_ordinal p < 1 + n1)%N) ∨
    (vp_subspace p = Subspace.numeral Subspace.Link ∧ (1 ≤ vp_ordinal p < 1 + n2)%N).
Proof.
  intros H1 H2 Hp. rewrite any_app, orb_true_iff. apply Morphisms_Prop.or_iff_morphism.
  - destruct o1 as [x|].
    + destruct H1 as (_ & _ & _ & _ & Hx). rewrite <- (Hx t p Hp). cbn. by rewrite orb_false_r.
    + cbn. split; [done|]. intros [_ ?]. lia.
  - destruct o2 as [x|].
    + destruct H2 as (_ & _ & _ & _ & Hx). rewrite <- (Hx t p Hp). cbn. by rewrite orb_false_r.
    + cbn. split; [done|]. intros [_ ?]. lia.
Qed.

(** The order of the V-positions. *)
Definition vp_le (p q : VPos) : Prop :=
  (vp_subspace p < vp_subspace q)%N ∨ vp_subspace p = vp_subspace q ∧ (vp_ordinal p ≤ vp_ordinal q)%N.

Definition in_hull (s : Slices) (doc : Address) (p : VPos) : Prop :=
  ∃ lo hi, occupied s doc lo ∧ occupied s doc hi ∧ vp_le lo p ∧ vp_le p hi.

(** Any span from the least occupied position to past the greatest covers the hull. *)
Lemma hull_contains s doc x lo hi t p :
  comps (start x) = [vp_subspace lo; vp_ordinal lo] → comps (reach x) = [vp_subspace hi; (1 + vp_ordinal hi)%N] →
  occupied s doc lo → occupied s doc hi → (∀ q, occupied s doc q → vp_le lo q ∧ vp_le q hi) →
  at_position t p → contains x t = true ↔ in_hull s doc p.
Proof.
  intros Es Er Hlo Hhi Hall Ep. rewrite contains_spec.
  assert (H : start x ≤ₜ t ∧ t <ₜ reach x ↔ vp_le lo p ∧ vp_le p hi).
  { unfold Tle, Tlt, cmp, vp_le. rewrite Es, Er, Ep. cbn.
    destruct (N.compare_spec (vp_subspace lo) (vp_subspace p)),
      (N.compare_spec (vp_subspace p) (vp_subspace hi)),
      (N.compare_spec (vp_ordinal lo) (vp_ordinal p)),
      (N.compare_spec (vp_ordinal p) (1 + vp_ordinal hi)); cbn;
      (split; [intros [? ?]|intros [[?|[? ?]] [?|[? ?]]]]); try done; try lia;
      (split; [done || lia|]); try done; lia. }
  rewrite H. split; [intros [? ?]; by exists lo, hi|]. intros (a & b & [Ha _]%Hall & [_ Hb]%Hall & Hap & Hpb).
  unfold vp_le in *. lia.
Qed.

Lemma occupied_end s doc sub :
  state_ok (sl_arrangement s) → Subspace.count sub (sl_arrangement s) doc ≠ 0%N →
  occupied s doc (Subspace.anchor sub) ∧
  occupied s doc (MkVPos (Subspace.numeral sub) (Subspace.count sub (sl_arrangement s) doc)).
Proof.
  intros Hs Hn. rewrite !occupied_iff by done. split; exists sub; cbn; (split; [done|lia]).
Qed.

(** Between the first occupied subspace's anchor and the last one's end. *)
Lemma occupied_bounds s doc s1 s2 :
  state_ok (sl_arrangement s) →
  (∀ sub, Subspace.count sub (sl_arrangement s) doc ≠ 0%N →
    (Subspace.numeral s1 ≤ Subspace.numeral sub ≤ Subspace.numeral s2)%N) →
  ∀ q, occupied s doc q →
    vp_le (Subspace.anchor s1) q ∧
    vp_le q (MkVPos (Subspace.numeral s2) (Subspace.count s2 (sl_arrangement s) doc)).
Proof.
  intros Hs Hb q (sub & Es & Ho)%occupied_iff; [|done]. specialize (Hb sub ltac:(lia)). unfold vp_le. cbn [vp_subspace vp_ordinal Subspace.anchor].
  rewrite Es. split; [lia|]. destruct (decide (sub = s2)) as [->|Hne]; [lia|]. left.
  destruct sub, s2; unfold Subspace.numeral, content_subspace, link_subspace in *; try done; lia.
Qed.

(** ** The origins *)

Lemma origins_ok rs :
  runs_ok rs →
  ∃ os, outcome_map run_origin rs = Done os ∧ ∀ o, o ∈ os ↔ ∃ a, a ∈ flat rs ∧ document_of a = Some o.
Proof.
  induction 1 as [|r rs Hr _ (os & E & Ho)]; cbn [outcome_map].
  { exists []. split; [done|]. intros o. split; [by intros ?%not_elem_of_nil|]. by intros (? & ?%not_elem_of_nil & _). }
  destruct (run_origin_ok r Hr) as (o & -> & Hd). rewrite E. cbn [mbind outcome_bind]. eexists. split; [done|].
  intros o'. rewrite elem_of_cons, Ho, flat_cons. setoid_rewrite elem_of_app. split.
  - intros [->|(a & Ha & ?)]; [|exists a; tauto]. exists (i_start r).
    assert (Hin : i_start r ∈ addrs r) by (apply elem_of_addrs; exists 0%N; rewrite addr_shift_0; split; [destruct Hr; lia|done]).
    split; [by left|by apply Hd].
  - intros (a & [Ha|Ha] & E'); [|right; by exists a]. left. apply Hd in Ha. congruence.
Qed.

Lemma width_flat rs : foldr N.add 0%N (map run_width rs) = N.of_nat (length (flat rs)).
Proof.
  induction rs as [|r rs IH]; [done|]. rewrite flat_cons, length_app, addrs_length. cbn [map foldr]. rewrite IH. lia.
Qed.

(** A span asks for a position its document does not arrange. *)
Definition asks_past (s : Slices) (doc : Address) (span : Span) : Prop :=
  ∃ t p, at_position t p ∧ contains span t = true ∧ ¬ occupied s doc p.

Lemma asks_past_ok s doc span v sub :
  state_ok (sl_arrangement s) → as_ordinal_vspan span = Some v → span_subspace span = Some sub →
  (1 ≤ ov_ordinal v)%N → (1 ≤ ov_count v)%N →
  (N.of_nat (length (resolved s doc span)) < ov_count v)%N ↔ asks_past s doc span.
Proof.
  intros Hs Ev Esub Ho Hc. unfold resolved, clipped_to. rewrite Ev, Esub, length_take, length_drop.
  pose proof (proj1 (as_ordinal_vspan_Some _ _) Ev) as [Es Ew].
  assert (Enum : ov_subspace v = Subspace.numeral sub).
  { revert Esub. unfold span_subspace, Subspace.of_span, Tumbler_get. rewrite Es.
    cbn [lookup list_lookup expect_some mbind outcome_bind]. intros H. by apply find_some in H as [_ ->%N.eqb_eq]. }
  destruct (ordinal_vspan_spans (MkVPos (ov_subspace v) (ov_ordinal v)) (ov_count v) span Es Ew ltac:(lia)) as (_ & _ & Hin).
  cbn [vp_subspace vp_ordinal] in Hin. split.
  - intros Hlt. destruct (Tumbler_new_cons (ov_subspace v) [(ov_ordinal v + ov_count v - 1)%N]) as (t & _ & Et).
    exists t, (MkVPos (ov_subspace v) (ov_ordinal v + ov_count v - 1)). split; [done|].
    rewrite (Hin t (MkVPos (ov_subspace v) (ov_ordinal v + ov_count v - 1)) Et), occupied_iff by done. cbn. split; [split; [done|lia]|]. intros (sub' & E' & Hle).
    assert (sub' = sub) as -> by (rewrite Enum in E'; by destruct sub, sub'). rewrite held_count in Hle. lia.
  - intros (t & p & Hp & Hcov & Hn). apply (Hin t p Hp) in Hcov as [Esp Hle]. rewrite occupied_iff in Hn by done.
    destruct (N.ltb_spec (N.of_nat (Nat.min (N.to_nat (ov_ordinal v + ov_count v - N.max (ov_ordinal v) 1))
      (length (held_in s doc (Some sub)) - N.to_nat (ov_ordinal v - 1)))) (ov_count v)) as [|Hge]; [done|].
    exfalso. apply Hn. exists sub. rewrite held_count. split; [by rewrite Esp|lia].
Qed.

(** ** The deletions *)

Lemma current_content_ok (s : Slices) doc : current_content (sl_arrangement s) doc = Done (contents s doc).
Proof.
  unfold current_content. rewrite (outcome_map_done _ addrs) by (intros r _; apply addrs_of_ok).
  cbn [mbind outcome_bind]. f_equal. change (contents s doc) with (flat (content_runs (sl_arrangement s) doc)).
  induction (content_runs _ doc) as [|r l IH]; [done|]. by rewrite fmap_cons, flat_cons, <- IH.
Qed.

(** What [doc] once contained and arranges no longer, of what [other] arranges now. *)
Definition deleted_half (s : Slices) (doc other : Address) (l : list Address) : Prop :=
  NoDup l ∧ StronglySorted addr_le l ∧
  ∀ a, a ∈ l ↔ a ∈ contents s other ∧ a ∉ contents s doc ∧
    denotes (ever_contained (provenance (sl_arrangement s)) doc) (tumbler a) = true.

Lemma deleted_half_ok s doc other :
  core_ok s →
  ∃ x, deletions (sl_arrangement s) doc = Done x ∧
    deleted_half s doc other (sorted_addr_set (List.filter (λ a, denotes x (tumbler a)) (contents s other))).
Proof.
  intros Hok. destruct (deletions_ok (sl_arrangement s) doc (co_m5 _ Hok)) as (x & Ex & _ & _ & Hx). exists x. split; [done|].
  destruct (sorted_addr_set_ok (List.filter (λ a, denotes x (tumbler a)) (contents s other))) as (H1 & H2 & H3).
  split_and!; [done|done|]. intros a. rewrite H3, list_elem_of_In, filter_In, <- list_elem_of_In. split.
  - intros [Ha Hd]. destruct (co_arranged _ Hok other a Ha) as (_ & Hp & _).
    apply Hx in Hd as [? ?]; [done|]. by apply content_position_admits.
  - intros (Ha & Hn & Hd). destruct (co_arranged _ Hok other a Ha) as (_ & Hp & _). split; [done|].
    apply Hx; [by apply content_position_admits|done].
Qed.

Section Shows.
Context {debug : bool} {W R : Type} `{WS : WorldState W R} `{HS : !HasSlices debug W R}.

Definition extent_promise (s : Slices) (doc : Address) (set : SpanSet) : Prop :=
  is_normalized set = true ∧ SpanSet_len set ≤ 2 ∧
  ∀ t p, at_position t p → denotes set t = true ↔ occupied s doc p.

Definition extent_gates (s : Slices) (doc : Address) : list (Extent.ExtentError * Prop) :=
  [(Extent.DocNotRegistered, is_registered_document (sl_namespace s) doc = false)].

Lemma vspanset_ok (w : W) doc :
  core_ok (slices w) →
  ∃ r, doc_vspanset w doc = Done r ∧
    judged r (extent_gates (slices w) doc)
      (λ set, extent_promise (slices w) (reads (sl_namespace (slices w)) doc) set ∧
        Extent.extents_of (sl_arrangement (slices w)) (reads (sl_namespace (slices w)) doc) Subspace.ALL = Done (spans set)).
Proof.
  intros Hok. unfold doc_vspanset. change (m3 w) with (sl_namespace (slices w)). change (m5 w) with (sl_arrangement (slices w)).
  set (s := slices w) in *. pose proof (co_m5 _ Hok) as Hs.
  destruct (is_registered_document (sl_namespace s) doc) eqn:Hr; cbn [negb].
  2: { eexists. split; [done|]. by apply first_refusal_here. }
  rewrite reading_reads. cbn [mbind outcome_bind]. set (d := reads (sl_namespace s) doc).
  rewrite extents_sequential by done. cbn [mbind outcome_bind].
  destruct (extents_ok s d) as (o1 & o2 & E & H1 & H2). rewrite E. cbn [mbind outcome_bind].
  pose proof (extents_normal _ _ _ _ H1 H2) as Hnorm. unfold debug_assert. rewrite Hnorm.
  eexists. split; [by destruct debug|]. split; [repeat constructor; congruence|]. split; [|done].
  split_and!; [done|by destruct o1, o2; cbn; lia|]. intros t p Hp.
  change (denotes (from_iter (option_list o1 ++ option_list o2)) t) with (any (option_list o1 ++ option_list o2) t).
  rewrite (any_extents _ _ _ _ t p H1 H2 Hp), occupied_iff by done. split.
  - intros [H|H]; by eexists.
  - intros ([] & H); [by left|by right].
Qed.

Definition hull_promise (s : Slices) (doc : Address) (set : SpanSet) : Prop :=
  is_normalized set = true ∧ SpanSet_len set ≤ 1 ∧
  ∀ t p, at_position t p → denotes set t = true ↔ in_hull s doc p.

(** The hull of the first extent and the last. *)
Lemma hull_ok s doc first last s1 s2 :
  state_ok (sl_arrangement s) →
  Subspace.count s1 (sl_arrangement s) doc ≠ 0%N → extent_over s1 (Subspace.count s1 (sl_arrangement s) doc) first →
  Subspace.count s2 (sl_arrangement s) doc ≠ 0%N → extent_over s2 (Subspace.count s2 (sl_arrangement s) doc) last →
  (∀ sub, Subspace.count sub (sl_arrangement s) doc ≠ 0%N →
    (Subspace.numeral s1 ≤ Subspace.numeral sub ≤ Subspace.numeral s2)%N) →
  ∃ x, Span_from_endpoints (start first) (reach last) = Done (Ok x) ∧ hull_promise s doc (singleton x).
Proof.
  intros Hs Hn1 (Es & _ & _ & _) Hn2 (_ & Er & _ & _) Hb. pose proof (Hb s1 Hn1) as Hle.
  destruct (from_endpoints_ok (start first) (reach last)) as (x & E & Ex & Exr & Hu).
  - unfold Tumbler_len. by rewrite Es, Er.
  - unfold Tlt, cmp. rewrite Es, Er. cbn -[N.compare].
    destruct (N.compare_spec (Subspace.numeral s1) (Subspace.numeral s2)); [|done|lia].
    destruct (N.compare_spec 1 (1 + Subspace.count s2 (sl_arrangement s) doc)); [lia|done|lia].
  - exists x. split; [done|]. split_and!; [|done|].
    + apply is_normalized_spec. exists (Tumbler_len (start x)). split; [constructor; [by split|constructor]|by repeat constructor].
    + intros t p Hp. unfold denotes. cbn [existsb singleton spans]. rewrite orb_false_r.
      eapply (hull_contains s doc x (Subspace.anchor s1) (MkVPos (Subspace.numeral s2) (Subspace.count s2 (sl_arrangement s) doc)));
        [by rewrite Ex|by rewrite Exr| | | |done].
      * by apply occupied_end.
      * by apply occupied_end.
      * by apply occupied_bounds.
Qed.

(** The two extents. On any world that holds the core's invariant both are total,
    in a debug build too, and refuse an unregistered document alone. [doc_vspanset]
    answers at most two spans in canonical form that denote, at depth two, exactly the
    V-positions at which the surface's point read answers an address; [doc_vspan] the
    one span, none of an empty document, that denotes exactly the V-positions between
    two such. *)
Theorem extents_exact (w : W) (doc : Address) :
  core_ok (slices w) →
  let surface := reads (sl_namespace (slices w)) doc in
  (∃ r, doc_vspanset w doc = Done r ∧ judged r (extent_gates (slices w) doc) (extent_promise (slices w) surface)) ∧
  (∃ r, doc_vspan w doc = Done r ∧ judged r (extent_gates (slices w) doc) (hull_promise (slices w) surface)).
Proof.
  intros Hok surface. destruct (vspanset_ok w doc Hok) as (r & Hr & Hj). split.
  { exists r. split; [done|]. eapply judged_conseq; [exact Hj|]. by intros set []. }
  unfold doc_vspan. rewrite <- (app_nil_r (extent_gates _ _)). eapply judged_try; [by exists r|].
  intros set [_ He]. fold surface in He. set (s := slices w) in *. pose proof (co_m5 _ Hok) as Hs.
  destruct (extents_ok s surface) as (o1 & o2 & E & H1 & H2). rewrite E in He. injection He as He. rewrite <- He.
  assert (Hstep : ∀ first last s1 s2,
    Subspace.count s1 (sl_arrangement s) surface ≠ 0%N ∧ extent_over s1 (Subspace.count s1 (sl_arrangement s) surface) first →
    Subspace.count s2 (sl_arrangement s) surface ≠ 0%N ∧ extent_over s2 (Subspace.count s2 (sl_arrangement s) surface) last →
    (∀ sub, Subspace.count sub (sl_arrangement s) surface ≠ 0%N → (Subspace.numeral s1 ≤ Subspace.numeral sub ≤ Subspace.numeral s2)%N) →
    ∃ r0, (r ← Span_from_endpoints (start first) (reach last); span ← expect_ok r; Done (Ok (singleton span))) = Done r0 ∧
      judged (E := Extent.ExtentError) r0 [] (hull_promise s surface)).
  { intros first last s1 s2 [Hn1 Hx1] [Hn2 Hx2] Hb. destruct (hull_ok s surface first last s1 s2) as (x & -> & Hx); [done..|].
    eexists. split; [done|]. by apply judged_ok. }
  destruct o1 as [x|], o2 as [y|]; cbn [option_list app head last].
  - apply (Hstep x y Subspace.Content Subspace.Link); [done..|]. intros [] _; split; by vm_compute.
  - apply (Hstep x x Subspace.Content Subspace.Content); [done..|]. intros []; [by intros _; split; vm_compute|by rewrite H2].
  - apply (Hstep y y Subspace.Link Subspace.Link); [done..|]. intros []; [by rewrite H1|by intros _; split; vm_compute].
  - eexists. split; [done|]. apply judged_ok. split_and!; [apply is_normalized_spec; exists 2; apply canonical_nil|cbn; lia|].
    intros t p _. split; [done|]. intros (lo & _ & (sub & _ & Ho)%occupied_iff & _); [|done].
    destruct sub; rewrite ?H1, ?H2 in Ho; lia.
Qed.

Definition origin_gates (s : Slices) (doc : Address) (span : Span) : list (Origin.OriginError * Prop) :=
  let surface := reads (sl_namespace s) doc in
  (Origin.DocNotRegistered, is_registered_document (sl_namespace s) doc = false) ::
  span_refusals Origin.MalformedSpan span ++
  [ (Origin.NoSuchSubspace, span_subspace span = None);
    (Origin.EmptySubspace, held_in s surface (span_subspace span) = []);
    (Origin.DepthIncompatible, as_ordinal_vspan span = None);
    (Origin.RangeNotPresent, asks_past s surface span) ].

(** The documents that minted the addresses of [l], in order, each once. *)
Definition origins_of (l : list Address) (answer : list Address) : Prop :=
  NoDup answer ∧ StronglySorted addr_le answer ∧ ∀ o, o ∈ answer ↔ ∃ a, a ∈ l ∧ document_of a = Some o.

(** SHOWORIGIN is total on any world that holds the core's invariant: it refuses by
    the first of its gates that holds, in order — an unregistered document, a span that
    is not well formed, a subspace that is none, or empty, a start too deep, a range
    that reaches past what the surface arranges — and otherwise answers the documents
    that minted the addresses at the span's positions, ascending and each once. *)
Theorem show_origin_exact (w : W) (doc : Address) (span : Span) :
  core_ok (slices w) →
  ∃ r, show_origin_v w doc span = Done r ∧
    judged r (origin_gates (slices w) doc span)
      (origins_of (resolved (slices w) (reads (sl_namespace (slices w)) doc) span)).
Proof.
  intros Hok. unfold show_origin_v, origin_gates. change (m3 w) with (sl_namespace (slices w)).
  change (m5 w) with (sl_arrangement (slices w)). set (s := slices w) in *. pose proof (co_m5 _ Hok) as Hs.
  set (d := reads (sl_namespace s) doc).
  rewrite reading_reads, of_span_ok. cbn [mbind outcome_bind]. fold d.
  destruct (resolve_ok s d span Hs) as (rs & Hrs & Hro & Hfl).
  destruct (origins_ok rs Hro) as (os & Eos & Hos). rewrite Hrs. cbn [mbind outcome_bind]. rewrite Eos.
  cbn [mbind outcome_bind]. rewrite width_flat, Hfl.
  assert (Hj : judged (if negb (is_registered_document (sl_namespace s) doc) then Err Origin.DocNotRegistered
    else match gate_vspan span with
      | Err fault => Err (Origin.MalformedSpan fault)
      | Ok _ =>
          match span_subspace span with
          | None => Err Origin.NoSuchSubspace
          | Some sub => if (Subspace.count sub (sl_arrangement s) d =? 0)%N then Err Origin.EmptySubspace
              else match as_ordinal_vspan span with
                | None => Err Origin.DepthIncompatible
                | Some shape => if (N.of_nat (length (resolved s d span)) <? ov_count shape)%N then Err Origin.RangeNotPresent
                    else Ok (sorted_addr_set os)
                end
          end
      end) (origin_gates s doc span) (origins_of (resolved s d span))).
  { unfold origin_gates. apply judged_gate; [by rewrite negb_true_iff|]. intros _. apply judged_vspan. intros Hg.
    destruct (gated_shape span Hg) as (_ & _ & Hsh).
    destruct (span_subspace span) as [sub|] eqn:Esub; [|by apply first_refusal_here].
    apply judged_skip; [done|]. fold d.
    apply judged_gate; [rewrite N.eqb_eq, held_count, <- length_zero_iff_nil; lia|]. intros _.
    destruct (as_ordinal_vspan span) as [v|] eqn:Ev; [|by apply first_refusal_here].
    destruct (Hsh v eq_refl). apply judged_skip; [done|].
    apply judged_gate; [rewrite N.ltb_lt; by eapply asks_past_ok|]. intros _. apply judged_ok.
    destruct (sorted_addr_set_ok os) as (H1 & H2 & H3). split_and!; [done|done|]. intros o. rewrite H3, Hos, Hfl. done. }
  eexists. split; [|exact Hj].
  destruct (is_registered_document (sl_namespace s) doc); [|done]. cbn [negb].
  destruct (gate_vspan span) as [[]|]; [|done]. destruct (span_subspace span) as [sub|]; [|done].
  destruct (_ =? 0)%N; [done|]. by destruct (as_ordinal_vspan span).
Qed.

Definition deletions_gates (s : Slices) (d_a d_b : Address) : list (DeletionsError * Prop) :=
  [ (DeletionsDocNotRegistered d_a, is_registered_document (sl_namespace s) d_a = false);
    (DeletionsDocNotRegistered d_b, is_registered_document (sl_namespace s) d_b = false) ].

(** SHOWDELETIONS is total on any world that holds the core's invariant: it refuses
    an unregistered document, the first before the second, and otherwise answers for
    each of the two, ascending and each once, exactly the addresses it is on record as
    having contained, arranges no longer, and the other arranges now. *)
Theorem show_deletions_exact (w : W) (d_a d_b : Address) :
  core_ok (slices w) →
  ∃ r, show_deletions w d_a d_b = Done r ∧
    judged r (deletions_gates (slices w) d_a d_b)
      (λ x, deleted_half (slices w) d_a d_b (deleted_from_a_with_b x) ∧
        deleted_half (slices w) d_b d_a (deleted_from_b_with_a x)).
Proof.
  intros Hok. unfold show_deletions, deletions_gates. change (m3 w) with (sl_namespace (slices w)).
  change (m5 w) with (sl_arrangement (slices w)). set (s := slices w) in *.
  destruct (deleted_half_ok s d_a d_b Hok) as (xa & Ea & Ha), (deleted_half_ok s d_b d_a Hok) as (xb & Eb & Hb).
  rewrite Ea, Eb, !current_content_ok. cbn [mbind outcome_bind].
  destruct (is_registered_document (sl_namespace s) d_a) eqn:Ra; cbn [negb].
  2: { eexists. split; [done|]. by apply first_refusal_here. }
  destruct (is_registered_document (sl_namespace s) d_b) eqn:Rb; cbn [negb]; (eexists; split; [done|]).
  - apply judged_skip; [done|]. apply judged_skip; [done|]. by apply judged_ok.
  - apply judged_skip; [done|]. by apply first_refusal_here.
Qed.
End Shows.
