(* ===== verification/FindCalls.v ===== *)
(** * FINDDOCSCONTAINING

    What the search answers: the readable documents that arrange now an address the
    regions name, once each and in order — with no false negative, though the
    candidates come from the record of past containment, and no false positive. *)

From stdpp Require Import gmap sorting.
From S2P Require Import Prelude Txns Tumblers Addresses AddrMaps Arith Spans SpanSets NsKeys NsState NsLaws NsOps NsInv NsCalls NsReach Runs Content RunLists VSpace Provenance Chain ArrState ArrReads World Edits EditInv VersionCalls Retrieval RetrievalLaws.

#[local] Arguments content_list : simpl never.
#[local] Arguments link_list : simpl never.
#[local] Arguments N.add : simpl never.

(** ** The gates *)

Fixpoint spans_gates (region index : nat) (spans : list Span) : list (Find.FindError * Prop) :=
  match spans with
  | [] => []
  | span :: spans => span_refusals (Find.MalformedSpan region index) span ++ spans_gates region (S index) spans
  end.

Fixpoint regions_gates (s : Slices) (region : nat) (regions : list RegionSpec) : list (Find.FindError * Prop) :=
  match regions with
  | [] => []
  | r :: regions =>
      (Find.DocNotRegistered (rg_doc r), is_registered_document (sl_namespace s) (rg_doc r) = false) ::
      spans_gates region 0 (rg_spans r) ++ regions_gates s (S region) regions
  end.

Lemma gate_spans_ok region index spans :
  judged (Find.gate_spans region index spans) (spans_gates region index spans) (λ _, True).
Proof.
  revert index. induction spans as [|x spans IH]; intros index; [by apply judged_ok|].
  cbn [Find.gate_spans spans_gates]. apply judged_vspan. intros _. apply IH.
Qed.

Lemma gate_regions_ok s region regions :
  judged (Find.gate_regions (sl_namespace s) region regions) (regions_gates s region regions) (λ _, True).
Proof.
  revert region. induction regions as [|r regions IH]; intros region; [by apply judged_ok|].
  cbn [Find.gate_regions regions_gates]. apply judged_gate; [by rewrite negb_true_iff|]. intros _.
  pose proof (gate_spans_ok region 0 (rg_spans r)) as Hg.
  eapply (judged_seq _ (λ _, Find.gate_regions (sl_namespace s) (S region) regions) _ _ _ _ Hg). intros _ _. apply IH.
Qed.

(** ** The prices *)

Definition spans_price (s : Slices) (doc : Address) (spans : list Span) : N := total_of (price s doc) spans.

Lemma find_price_spans s doc spans c1 c2 :
  Count_ok c1 → Count_ok c2 →
  ∃ r, Find.price_spans (sl_arrangement s) doc spans c1 c2 = Done r ∧
    judged r [(Find.TooMuchCoverage, exceeds c1 (N.of_nat (length spans)) ∨ exceeds c2 (spans_price s doc spans))]
      (λ x, x = (spent c1 (N.of_nat (length spans)), spent c2 (spans_price s doc spans))).
Proof.
  revert c1 c2. induction spans as [|x spans IH]; intros c1 c2 H1 H2.
  { apply judged_done2; [done|done|]. by rewrite !spent_0. }
  cbn [Find.price_spans length]. rewrite walk_price_ok. unfold spans_price. rewrite total_of_cons, Nat2N.inj_succ, <- N.add_1_l.
  apply (judged_take2 Find.TooMuchCoverage c1 c2 1 (price s doc x)); [done|done|]. intros H1' H2'.
  destruct (IH _ _ H1' H2') as (r & Hr & Hj). exists r. split; [done|].
  eapply judged_conseq; [exact Hj|]. intros y ->. by rewrite !spent_spent.
Qed.

Definition regions_spans (regions : list RegionSpec) : N := total_of (λ r, N.of_nat (length (rg_spans r))) regions.

Definition regions_price (s : Slices) (regions : list RegionSpec) : N :=
  total_of (λ r, spans_price s (rg_doc r) (rg_spans r)) regions.

Lemma find_price_regions s regions c1 c2 :
  Count_ok c1 → Count_ok c2 →
  ∃ r, Find.price_regions (sl_arrangement s) regions c1 c2 = Done r ∧
    judged r [(Find.TooMuchCoverage, exceeds c1 (regions_spans regions) ∨ exceeds c2 (regions_price s regions))] (λ _, True).
Proof.
  revert c1 c2. induction regions as [|x regions IH]; intros c1 c2 H1 H2; [by apply judged_done2|].
  cbn [Find.price_regions]. unfold regions_spans, regions_price. rewrite !total_of_cons.
  eapply judged_spend2; [by apply find_price_spans|]. intros [a b] [= -> ->] Hn1 Hn2.
  apply IH; by apply spent_ok.
Qed.

(** ** The coverage *)

Lemma find_cover_runs rs c out :
  runs_ok rs → Count_ok c →
  ∃ r, Find.cover_runs rs c out = Done r ∧
    judged r [(Find.TooMuchCoverage, exceeds c (N.of_nat (length rs)))]
      (λ x, x.1 = spent c (N.of_nat (length rs)) ∧ ∃ es, x.2 = out ++ es ∧ outcome_map iextent rs = Done es).
Proof.
  intros Hrs. revert c out. induction Hrs as [|r rs Hr Hrs IH]; intros c out Hc.
  { apply judged_done_at; [done|]. cbn. rewrite spent_0. split; [done|]. exists []. by rewrite app_nil_r. }
  cbn [Find.cover_runs length]. rewrite Nat2N.inj_succ, <- N.add_1_l.
  apply (judged_take Find.TooMuchCoverage); [done|]. intros _ Hc'.
  destruct (iextent_ok r Hr) as (e & He & _). rewrite He. cbn [mbind outcome_bind].
  destruct (IH (spent c 1) (out ++ [e]) Hc') as (x & Hx & Hj). exists x. split; [done|].
  eapply judged_conseq; [exact Hj|]. intros y (Hy & es & Ho & Hes). rewrite spent_spent in Hy. split; [done|].
  exists (e :: es). rewrite Ho, <- app_assoc. split; [done|]. cbn [outcome_map]. by rewrite He, Hes.
Qed.

Definition spans_runs (s : Slices) (doc : Address) (spans : list Span) : list Run := spans ≫= span_runs s doc.

Definition regions_runs (s : Slices) (regions : list RegionSpec) : list Run :=
  regions ≫= λ r, spans_runs s (rg_doc r) (rg_spans r).

(** What [covered] more of [es] there are after a stage of [runs]. *)
Definition covers_after (c : Count) (out : list Span) (rs : list Run) (x : Count * list Span) : Prop :=
  x.1 = spent c (N.of_nat (length rs)) ∧ ∃ es, x.2 = out ++ es ∧ outcome_map iextent rs = Done es.

Lemma covers_after_app c out rs ks x y :
  covers_after c out rs x → covers_after x.1 x.2 ks y → covers_after c out (rs ++ ks) y.
Proof.
  intros (Hx & es & Ho & He) (Hy & fs & Hp & Hf). split.
  - by rewrite Hy, Hx, spent_spent, length_app, Nat2N.inj_add.
  - exists (es ++ fs). rewrite Hp, Ho, app_assoc. split; [done|]. by apply outcome_map_app.
Qed.

Lemma find_cover_spans s doc spans c out :
  state_ok (sl_arrangement s) → Count_ok c →
  ∃ r, Find.cover_spans (sl_arrangement s) doc spans c out = Done r ∧
    judged r [(Find.TooMuchCoverage, exceeds c (N.of_nat (length (spans_runs s doc spans))))]
      (covers_after c out (spans_runs s doc spans)).
Proof.
  intros Hs. revert c out. induction spans as [|x spans IH]; intros c out Hc.
  { apply judged_done_at; [done|]. unfold covers_after. cbn. rewrite spent_0. split; [done|]. exists []. by rewrite app_nil_r. }
  destruct (span_runs_ok s doc x Hs) as (Er & Hro & _). cbn [Find.cover_spans]. rewrite Er. cbn [mbind outcome_bind].
  unfold spans_runs. rewrite bind_cons, length_app, Nat2N.inj_add. eapply judged_spend; [by apply find_cover_runs|].
  intros [c' out'] Ha Hn. pose proof (proj1 Ha) as Ec. cbn [fst] in Ec. subst c'.
  destruct (IH (spent c (N.of_nat (length (span_runs s doc x)))) out') as (r & Hr & Hj); [by apply spent_ok|].
  exists r. split; [done|]. eapply judged_conseq; [exact Hj|]. intros y Hy. by eapply covers_after_app.
Qed.

Lemma find_cover_regions s regions c out :
  state_ok (sl_arrangement s) → Count_ok c →
  ∃ r, Find.cover_regions (sl_arrangement s) regions c out = Done r ∧
    judged r [(Find.TooMuchCoverage, exceeds c (N.of_nat (length (regions_runs s regions))))]
      (λ l, ∃ es, l = out ++ es ∧ outcome_map iextent (regions_runs s regions) = Done es).
Proof.
  intros Hs. revert c out. induction regions as [|x regions IH]; intros c out Hc.
  { apply judged_done_at; [done|]. exists []. by rewrite app_nil_r. }
  cbn [Find.cover_regions]. unfold regions_runs. rewrite bind_cons, length_app, Nat2N.inj_add.
  eapply judged_spend; [by apply find_cover_spans|]. intros [c' out'] (Ec & es & Eo & He) Hn. cbn [fst snd] in *. subst c' out'.
  destruct (IH (spent c (N.of_nat (length (spans_runs s (rg_doc x) (rg_spans x))))) (out ++ es)) as (r & Hr & Hj);
    [by apply spent_ok|]. exists r. split; [done|]. eapply judged_conseq; [exact Hj|].
  intros y (fs & -> & Hf). exists (es ++ fs). rewrite app_assoc. split; [done|]. by apply outcome_map_app.
Qed.

(** ** The narrowing *)

Lemma narrow_ok s coverage readable docs :
  state_ok (sl_arrangement s) →
  ∃ l, Find.narrow (sl_arrangement s) coverage readable docs = Done l ∧ l `sublist_of` docs ∧
    ∀ d, d ∈ l ↔ d ∈ docs ∧ readable d = true ∧ arranges_any (sl_arrangement s) d coverage = Done true.
Proof.
  intros Hs. induction docs as [|d docs (l & E & Hsub & Hl)]; cbn [Find.narrow].
  { exists []. split_and!; [done|done|]. intros d. split; [by intros ?%not_elem_of_nil|]. by intros [?%not_elem_of_nil _]. }
  destruct (any_run_ok _ coverage (rl_ok _ (content_ok (sl_arrangement s) d Hs))) as (b & Eb & _).
  fold (arranges_any (sl_arrangement s) d coverage) in Eb. rewrite Eb, E. destruct (readable d) eqn:Er; cbn [mbind outcome_bind].
  - destruct b; eexists; (split; [done|]).
    + split; [by constructor|]. intros x. rewrite !elem_of_cons, Hl. split; [|naive_solver].
      intros [->|?]; [split_and!; [by left|done|done]|naive_solver].
    + split; [by constructor|]. intros x. rewrite elem_of_cons, Hl. split; [naive_solver|].
      intros ([->|?] & ? & ?); [congruence|done].
  - eexists. split; [done|]. split; [by constructor|]. intros x. rewrite elem_of_cons, Hl. split; [naive_solver|].
    intros ([->|?] & ? & ?); [congruence|done].
Qed.

Lemma sublist_sorted {A} (R : A → A → Prop) l k : l `sublist_of` k → StronglySorted R k → StronglySorted R l.
Proof.
  intros Hsub. induction Hsub as [|x l k Hsub IH|x l k Hsub IH]; intros Hk; [done| |].
  - inversion Hk as [|? ? Hk' Hf]; subst. constructor; [by apply IH|]. rewrite Forall_forall in *. intros y Hy. by eapply Hf, elem_of_sublist.
  - inversion Hk; subst. by apply IH.
Qed.

(** The addresses the regions name. *)
Definition regions_ask (s : Slices) (regions : list RegionSpec) : list Address :=
  regions ≫= λ r, asked_spans s (rg_doc r) (rg_spans r).

Lemma regions_runs_flat s regions :
  state_ok (sl_arrangement s) → runs_ok (regions_runs s regions) ∧ flat (regions_runs s regions) = regions_ask s regions.
Proof.
  intros Hs. unfold regions_runs, regions_ask. induction regions as [|x regions [IH1 IH2]]; [split; [apply runs_ok_nil|done]|].
  destruct (spans_runs_flat s (rg_doc x) (rg_spans x) Hs) as [? E]. unfold spans_runs in *. rewrite !bind_cons, flat_app, E, IH2.
  split; [by apply runs_ok_app|done].
Qed.

(** The gates of a search, in their order: each region's document, then its spans; the
    price of the walks; the runs covered. *)
Definition find_gates (s : Slices) (regions : list RegionSpec) : list (Find.FindError * Prop) :=
  regions_gates s 0 regions ++
  [ (Find.TooMuchCoverage, (MAX_FIND_COVERAGE_SPANS < regions_spans regions)%N ∨ (MAX_WALK_STEPS < regions_price s regions)%N);
    (Find.TooMuchCoverage, (MAX_FIND_COVERAGE_SPANS < N.of_nat (length (regions_runs s regions)))%N) ].

(** The readable documents that arrange an address of [l] now. *)
Definition containers_of (s : Slices) (readable : Address → bool) (l : list Address) (docs : list Address) : Prop :=
  NoDup docs ∧ StronglySorted addr_le docs ∧
  ∀ d, d ∈ docs ↔ readable d = true ∧ ∃ a, a ∈ contents s d ∧ a ∈ l.

Section Find.
Context {debug : bool} {W R : Type} `{WS : WorldState W R} `{HS : !HasSlices debug W R}.

(** C30. FINDDOCSCONTAINING is total on any world that holds the core's invariant: it
    refuses by the first of its gates that holds, in order, and otherwise answers,
    ascending and each once, exactly the documents the caller may read that arrange now
    an address one of the regions' spans resolves to: none is missed, and no document
    that only once contained one, or that contains a neighbour of one, is answered. *)
Theorem find_exact (w : W) (regions : list RegionSpec) (readable : Address → bool) :
  core_ok (slices w) →
  ∃ r, find_docs_containing_filtered w regions readable = Done r ∧
    judged r (find_gates (slices w) regions)
      (containers_of (slices w) readable (regions_ask (slices w) regions)).
Proof.
  intros Hok. unfold find_docs_containing_filtered, find_gates. change (m3 w) with (sl_namespace (slices w)).
  change (m5 w) with (sl_arrangement (slices w)). set (s := slices w) in *. pose proof (co_m5 _ Hok) as Hs.
  apply (judged_try _ _ _ _ (λ _, True)). { eexists. split; [done|]. apply gate_regions_ok. }
  intros _ _. apply (judged_try _ _ [_] [_] (λ _, True)). { apply find_price_regions; apply Count_against_ok. }
  intros _ _. rewrite <- (app_nil_r [_]). eapply judged_try.
  { apply (find_cover_regions s regions (Count_against MAX_FIND_COVERAGE_SPANS) []); [done|apply Count_against_ok]. }
  intros l (es & -> & He). cbn [app]. destruct (regions_runs_flat s regions Hs) as [Hro Hfl].
  destruct (iextents_ok _ Hro) as (es' & He' & _ & Hd). rewrite He in He'. injection He' as <-. rewrite Hfl in Hd.
  destruct (finddocs_narrowing (sl_arrangement s) (from_iter es) Hs) as (Hnd & Hso & _ & Hin).
  destruct (narrow_ok s (from_iter es) readable (state_docs_ever_containing (sl_arrangement s) (from_iter es)) Hs)
    as (docs & -> & Hsub & Hdocs). cbn [mbind outcome_bind]. eexists. split; [done|]. apply judged_ok.
  split_and!; [by eapply sublist_NoDup|by eapply sublist_sorted|]. intros d. rewrite Hdocs.
  assert (H : (∃ a, a ∈ vmap (content_list (sl_arrangement s) d) ∧ denotes (from_iter es) (tumbler a) = true) ↔
    ∃ a, a ∈ contents s d ∧ a ∈ regions_ask s regions).
  { assert (Ha : ∀ a, a ∈ contents s d → denotes (from_iter es) (tumbler a) = true ↔ a ∈ regions_ask s regions).
    { intros a Ha. change (any es (tumbler a) = true ↔ a ∈ regions_ask s regions). rewrite Hd, <- Hfl.
      apply under_some_element; [done|]. apply content_position_admits. by eapply co_arranged. }
    split; intros (a & Hc & H); exists a; (split; [done|by apply Ha]). }
  rewrite <- H, <- Hin. tauto.
Qed.
End Find.
