(* ===== verification/CompareCalls.v ===== *)
(** * COMPARE

    What the comparison answers: every pair of positions of the two operands that hold
    one address, and no other, as runs of the two documents, in the order of their key. *)

From stdpp Require Import gmap sorting.
From S2P Require Import Prelude Txns Tumblers Addresses AddrMaps Arith Spans SpanSets NsKeys NsState NsLaws NsOps NsInv NsCalls NsReach Runs Content RunLists VSpace Provenance Chain ArrState ArrReads World Edits EditInv VersionCalls Retrieval RetrievalLaws.

#[local] Arguments content_list : simpl never.
#[local] Arguments link_list : simpl never.
#[local] Arguments N.add : simpl never.

(** ** Blocks and pairs, position by position *)

Definition vp_plus (p : VPos) (k : Nat) : VPos := MkVPos (vp_subspace p) (vp_ordinal p + k).

Lemma vp_plus_plus p j k : vp_plus (vp_plus p j) k = vp_plus p (j + k).
Proof. unfold vp_plus. cbn. f_equal. lia. Qed.

Lemma vp_plus_inj p j k : vp_plus p j = vp_plus p k → j = k.
Proof. unfold vp_plus. intros [= ?]. lia. Qed.

Definition block_ok (b : Compare.Block) : Prop :=
  run_ok (Compare.bk_run b) ∧ Compare.bk_reach b = run_reach (Compare.bk_run b).

(** Position [p] of [d] holds [a], by the block. *)
Definition block_foot (b : Compare.Block) (d : Address) (p : VPos) (a : Address) : Prop :=
  ∃ k, (k < run_width (Compare.bk_run b))%N ∧ d = Compare.bk_doc b ∧
    p = vp_plus (Compare.bk_v_start b) k ∧ a = addr_shift (i_start (Compare.bk_run b)) k.

(** A pair answers that [p1] of [d1] corresponds to [p2] of [d2]. *)
Definition pair_feet (c : CorrPair) (d1 : Address) (p1 : VPos) (d2 : Address) (p2 : VPos) : Prop :=
  d1 = cp_d1 c ∧ d2 = cp_d2 c ∧
  ∃ k, (k < cp_width c)%N ∧ p1 = vp_plus (cp_u1 c) k ∧ p2 = vp_plus (cp_u2 c) k.

(** ** Two runs that overlap *)

(** A run's start inside another's extent is one of its addresses: the runs share a chain. *)
Lemma start_inside r q :
  run_ok r → run_ok q → tumbler (i_start r) ≤ₜ tumbler (i_start q) → tumbler (i_start q) <ₜ run_reach r →
  ∃ k, (k < run_width r)%N ∧ i_start q = addr_shift (i_start r) k.
Proof.
  intros Hr [_ Hq] Hle Hlt. destruct (iextent_ok r Hr) as (e & He & Es & Er & _).
  assert (Hc : contains e (tumbler (i_start q)) = true) by (rewrite contains_spec, Es, Er; done).
  apply (extent_under r e _ Hr He) in Hc. apply elem_of_addrs.
  assert (Hf : flat [r] = addrs r) by (by rewrite flat_cons, flat_nil, app_nil_r). rewrite <- Hf in Hc |- *.
  apply under_some_element; [|done|done]. by apply runs_ok_cons, conj, runs_ok_nil.
Qed.

Lemma run_reach_after r k : (k < run_width r)%N → run_reach r = shift (tumbler (addr_shift (i_start r) k)) (run_width r - k).
Proof. intros Hk. unfold run_reach. rewrite addr_shift_tumbler, shift_shift. f_equal. lia. Qed.

(** Where two runs overlap: the later start, in both. *)
Lemma overlap_start r q start reach :
  run_ok r → run_ok q →
  start = (if tumbler (i_start q) <?ₜ tumbler (i_start r) then tumbler (i_start r) else tumbler (i_start q)) →
  reach = (if run_reach q <?ₜ run_reach r then run_reach q else run_reach r) →
  if reach ≤?ₜ start then ∀ a, a ∈ addrs r → a ∉ addrs q
  else ∃ j k, (j < run_width r)%N ∧ (k < run_width q)%N ∧ start = shift (tumbler (i_start r)) j ∧
    addr_shift (i_start r) j = addr_shift (i_start q) k ∧
    reach = shift start (N.min (run_width r - j) (run_width q - k)).
Proof.
  intros Hr Hq Es Er. pose proof (leb_spec reach start) as Hb. destruct (reach ≤?ₜ start).
  - inversion Hb as [Hle|]; subst. intros a (j & Hj & ->)%elem_of_addrs (k & Hk & E)%elem_of_addrs.
    assert (E1 : shift (tumbler (i_start r)) j = shift (tumbler (i_start q)) k) by (by rewrite <- !addr_shift_tumbler, E).
    pose proof (shift_lt (tumbler (i_start r)) j _ Hj) as H1. pose proof (shift_lt (tumbler (i_start q)) k _ Hk) as H2.
    fold (run_reach r) in H1. fold (run_reach q) in H2.
    pose proof (shift_ge (tumbler (i_start r)) j). pose proof (shift_ge (tumbler (i_start q)) k).
    rewrite <- E1 in *. destruct (tumbler (i_start q) <?ₜ _), (run_reach q <?ₜ _); torder.
  - inversion Hb as [|Hlt]. pose proof (ltb_spec (tumbler (i_start q)) (tumbler (i_start r))) as Hs.
    pose proof (ltb_spec (run_reach q) (run_reach r)) as Hre.
    assert (Hjk : ∃ j k, (j < run_width r)%N ∧ (k < run_width q)%N ∧ start = shift (tumbler (i_start r)) j ∧
      addr_shift (i_start r) j = addr_shift (i_start q) k).
    { destruct (tumbler (i_start q) <?ₜ tumbler (i_start r)).
      - inversion Hs as [Hs'|]. destruct (start_inside q r Hq Hr) as (k & Hk & E); [torder| |].
        { destruct (run_reach q <?ₜ run_reach r); inversion Hre; subst; torder. }
        exists 0%N, k. rewrite addr_shift_0, shift_0. destruct Hr. split_and!; [lia|done|done|done].
      - inversion Hs as [|Hs']. destruct (start_inside r q Hr Hq) as (j & Hj & E); [torder| |].
        { destruct (run_reach q <?ₜ run_reach r); inversion Hre; subst; torder. }
        exists j, 0%N. rewrite addr_shift_0, <- addr_shift_tumbler, <- E. destruct Hq. split_and!; [done|lia|done|done]. }
    destruct Hjk as (j & k & Hj & Hk & Est & Eq). exists j, k. split_and!; [done..|].
    rewrite <- addr_shift_tumbler in Est. rewrite Er, (run_reach_after q k Hk), (run_reach_after r j Hj), <- Eq, <- Est.
    destruct (ltb_spec (shift start (run_width q - k)) (shift start (run_width r - j))) as [Hx%shift_lt_iff|Hx%shift_le_iff];
      f_equal; lia.
Qed.

Lemma gap_ok t k : Compare.ordinal_gap (shift t k) t = Done k.
Proof. apply ordinal_offset. Qed.

Lemma foot_ok b k : Compare.foot_at b (shift (Compare.bk_i_start b) k) = Done (Compare.bk_doc b, vp_plus (Compare.bk_v_start b) k).
Proof. unfold Compare.foot_at. rewrite gap_ok. done. Qed.

Lemma addr_shift_inj_l a b k : addr_shift a k = addr_shift b k → a = b.
Proof. intros E. apply Address_eq, (shift_inj _ _ k). by rewrite <- !addr_shift_tumbler, E. Qed.

Lemma overlap_pair_ok pb qb :
  block_ok pb → block_ok qb →
  ∃ o, Compare.overlap_pair pb qb = Done o ∧ (∀ c, o = Some c → (1 ≤ cp_width c)%N) ∧
    ∀ d1 p1 d2 p2, (∃ c, o = Some c ∧ pair_feet c d1 p1 d2 p2) ↔ ∃ a, block_foot pb d1 p1 a ∧ block_foot qb d2 p2 a.
Proof.
  intros [Hp Ep] [Hq Eq]. unfold Compare.overlap_pair. cbv zeta. rewrite Ep, Eq.
  set (start := if Compare.bk_i_start qb <?ₜ Compare.bk_i_start pb then Compare.bk_i_start pb else Compare.bk_i_start qb).
  set (reach := if run_reach (Compare.bk_run qb) <?ₜ run_reach (Compare.bk_run pb) then run_reach (Compare.bk_run qb)
    else run_reach (Compare.bk_run pb)).
  pose proof (overlap_start (Compare.bk_run pb) (Compare.bk_run qb) start reach Hp Hq eq_refl eq_refl) as Ho.
  destruct (reach ≤?ₜ start).
  - exists None. split_and!; [done|done|]. intros d1 p1 d2 p2. split; [by intros (? & ? & _)|].
    intros (a & (j & Hj & _ & _ & Ej) & (k & Hk & _ & _ & Ek)). exfalso. apply (Ho a); apply elem_of_addrs; [by exists j|by exists k].
  - destruct Ho as (j & k & Hj & Hk & Es & Ea & Er). 
    assert (Es' : start = shift (tumbler (i_start (Compare.bk_run qb))) k) by (by rewrite Es, <- !addr_shift_tumbler, Ea).
    assert (Hf1 : Compare.foot_at pb start = Done (Compare.bk_doc pb, vp_plus (Compare.bk_v_start pb) j)) by (rewrite Es; apply foot_ok).
    assert (Hf2 : Compare.foot_at qb start = Done (Compare.bk_doc qb, vp_plus (Compare.bk_v_start qb) k)) by (rewrite Es'; apply foot_ok).
    assert (Hg : Compare.ordinal_gap reach start = Done (N.min (run_width (Compare.bk_run pb) - j) (run_width (Compare.bk_run qb) - k)))
      by (rewrite Er; apply gap_ok).
    rewrite Hf1, Hf2. cbn [mbind outcome_bind]. rewrite Hg. cbn [mbind outcome_bind].
    eexists. split; [done|]. split; [intros c [= <-]; cbn; lia|]. intros d1 p1 d2 p2. split.
    + intros (c & [= <-] & -> & -> & m & Hm & -> & ->). cbn in *.
      exists (addr_shift (i_start (Compare.bk_run pb)) (j + m)). split.
      * exists (j + m)%N. rewrite vp_plus_plus. split_and!; [lia|done..].
      * exists (k + m)%N. rewrite vp_plus_plus. split_and!; [lia|done|done|]. by rewrite <- !addr_shift_shift, Ea.
    + intros (a & (x & Hx & -> & -> & Ex) & (y & Hy & -> & -> & Ey)). subst a.
      assert (Hxj : (j ≤ x)%N ∧ (k ≤ y)%N).
      { assert (Hge : start ≤ₜ tumbler (addr_shift (i_start (Compare.bk_run pb)) x)).
        { unfold start. destruct (_ <?ₜ _); [|rewrite Ey]; rewrite addr_shift_tumbler; apply shift_ge. }
        split; [apply (shift_le_iff (tumbler (i_start (Compare.bk_run pb))))|apply (shift_le_iff (tumbler (i_start (Compare.bk_run qb))))].
        - by rewrite <- Es, <- addr_shift_tumbler.
        - by rewrite <- Es', <- addr_shift_tumbler, <- Ey. }
      eexists. split; [done|]. split_and!; [done|done|]. cbn.
      assert (Hxy : (x - j = y - k)%N).
      { apply (addr_shift_inj (addr_shift (i_start (Compare.bk_run pb)) j)). rewrite Ea at 2.
        rewrite !addr_shift_shift. replace (j + (x - j))%N with x by lia. by replace (k + (y - k))%N with y by lia. }
      exists (x - j)%N. rewrite !vp_plus_plus. split_and!; [lia|f_equal; lia|f_equal; lia].
Qed.

(** ** The join *)

Definition overlap_of (pb qb : Compare.Block) : option CorrPair :=
  match Compare.overlap_pair pb qb with Done o => o | Panicked => None end.

(** Every pair of overlapping blocks, in the order of the join. *)
Definition overlaps (p q : list Compare.Block) : list CorrPair := p ≫= λ pb, omap (overlap_of pb) q.

Definition blocks_ok (l : list Compare.Block) : Prop := Forall block_ok l.

Lemma overlap_of_ok pb qb : block_ok pb → block_ok qb → Compare.overlap_pair pb qb = Done (overlap_of pb qb).
Proof. intros Hp Hq. destruct (overlap_pair_ok pb qb Hp Hq) as (o & E & _). unfold overlap_of. by rewrite E. Qed.

Lemma join_one_ok pb q c out :
  block_ok pb → blocks_ok q → Count_ok c →
  ∃ r, Compare.join_one pb q c out = Done r ∧
    judged r [(OverBudget_, exceeds c (N.of_nat (length (omap (overlap_of pb) q))))]
      (λ x, x = (spent c (N.of_nat (length (omap (overlap_of pb) q))), out ++ omap (overlap_of pb) q)).
Proof.
  intros Hp Hq. revert c out. induction Hq as [|qb q Hb Hq IH]; intros c out Hc.
  { apply judged_done_at; [done|]. cbn. by rewrite spent_0, app_nil_r. }
  cbn [Compare.join_one omap list_omap]. rewrite (overlap_of_ok pb qb Hp Hb). cbn [mbind outcome_bind].
  destruct (overlap_of pb qb) as [x|]; [|by apply IH]. fold (omap (overlap_of pb) q).
  cbn [length]. rewrite Nat2N.inj_succ, <- N.add_1_l. apply judged_take_over; [done|]. intros _ Hc'.
  destruct (IH (spent c 1) (out ++ [x]) Hc') as (r & Hr & Hj). exists r. split; [done|].
  eapply judged_conseq; [exact Hj|]. intros y ->. by rewrite spent_spent, <- app_assoc.
Qed.

Lemma join_overlaps_ok p q c out :
  blocks_ok p → blocks_ok q → Count_ok c →
  ∃ r, Compare.join_all p q c out = Done r ∧
    judged r [(OverBudget_, exceeds c (N.of_nat (length (overlaps p q))))] (λ l, l = out ++ overlaps p q).
Proof.
  intros Hp Hq. revert c out. induction Hp as [|pb p Hb Hp IH]; intros c out Hc.
  { apply judged_done_at; [done|]. by rewrite app_nil_r. }
  cbn [Compare.join_all]. unfold overlaps. rewrite bind_cons, length_app, Nat2N.inj_add.
  eapply judged_spend; [by apply join_one_ok|]. intros [c' out'] [= -> ->] Hn.
  destruct (IH (spent c (N.of_nat (length (omap (overlap_of pb) q)))) (out ++ omap (overlap_of pb) q)) as (r & Hr & Hj);
    [by apply spent_ok|]. exists r. split; [done|]. eapply judged_conseq; [exact Hj|]. intros l ->. by rewrite app_assoc.
Qed.

(** What the join answers: the pairs of positions, one of each operand, that hold one address. *)
Lemma overlaps_feet p q d1 p1 d2 p2 :
  blocks_ok p → blocks_ok q →
  (∃ c, c ∈ overlaps p q ∧ pair_feet c d1 p1 d2 p2) ↔
  ∃ a, (∃ b, b ∈ p ∧ block_foot b d1 p1 a) ∧ (∃ b, b ∈ q ∧ block_foot b d2 p2 a).
Proof.
  intros Hp Hq. unfold blocks_ok in *. rewrite Forall_forall in *. unfold overlaps. split.
  - intros (c & (pb & Hc & Hpb)%list_elem_of_bind & Hf). apply list_elem_of_omap in Hc as (qb & Hqb & Eo).
    destruct (overlap_pair_ok pb qb (Hp _ Hpb) (Hq _ Hqb)) as (o & E & _ & Hi).
    unfold overlap_of in Eo. rewrite E in Eo. subst o.
    destruct (proj1 (Hi d1 p1 d2 p2)) as (a & ? & ?); [by exists c|]. exists a. split; by eexists.
  - intros (a & (pb & Hpb & H1) & (qb & Hqb & H2)).
    destruct (overlap_pair_ok pb qb (Hp _ Hpb) (Hq _ Hqb)) as (o & E & _ & Hi).
    destruct (proj2 (Hi d1 p1 d2 p2)) as (c & Eo & Hf); [by exists a|]. exists c. split; [|done].
    apply list_elem_of_bind. exists pb. split; [|done]. apply list_elem_of_omap. exists qb. split; [done|].
    unfold overlap_of. by rewrite E.
Qed.

Lemma overlaps_width p q c : blocks_ok p → blocks_ok q → c ∈ overlaps p q → (1 ≤ cp_width c)%N.
Proof.
  intros Hp Hq (pb & Hc & Hpb)%list_elem_of_bind. apply list_elem_of_omap in Hc as (qb & Hqb & Eo).
  unfold blocks_ok in *. rewrite Forall_forall in *.
  destruct (overlap_pair_ok pb qb (Hp _ Hpb) (Hq _ Hqb)) as (o & E & Hw & _).
  unfold overlap_of in Eo. rewrite E in Eo. by apply Hw.
Qed.

(** ** The blocks of an operand *)

Fixpoint tiled_from (doc : Address) (cursor : VPos) (rs : list Run) : list Compare.Block :=
  match rs with
  | [] => []
  | r :: rs => Compare.MkBlock doc cursor r (run_reach r) :: tiled_from doc (vp_plus cursor (run_width r)) rs
  end.

Lemma tiled_from_ok doc cursor rs : runs_ok rs → blocks_ok (tiled_from doc cursor rs).
Proof. intros Hrs. revert cursor. induction Hrs as [|r rs Hr _ IH]; intros cursor; [constructor|]. constructor; [by split|apply IH]. Qed.

Lemma tiled_from_length doc cursor rs : length (tiled_from doc cursor rs) = length rs.
Proof. revert cursor. induction rs as [|r rs IH]; intros cursor; [done|]. cbn. by rewrite IH. Qed.

(** The blocks tile: position after position, the runs' addresses. *)
Lemma tiled_from_feet doc cursor rs d p a :
  (∃ b, b ∈ tiled_from doc cursor rs ∧ block_foot b d p a) ↔
  d = doc ∧ ∃ k, flat rs !! k = Some a ∧ p = vp_plus cursor (N.of_nat k).
Proof.
  revert cursor. induction rs as [|r rs IH]; intros cursor; cbn [tiled_from].
  { split; [by intros (? & ?%not_elem_of_nil & _)|by intros (_ & k & ? & _)]. }
  rewrite flat_cons. split.
  - intros (b & [->|Hb]%elem_of_cons & Hf).
    + destruct Hf as (k & Hk & -> & -> & ->). cbn in *. split; [done|]. exists (N.to_nat k). rewrite N2Nat.id. split; [|done].
      rewrite lookup_app_l; [by apply addrs_lookup|]. rewrite addrs_length. lia.
    + destruct (proj1 (IH _) (ex_intro _ b (conj Hb Hf))) as (-> & k & Hk & ->). split; [done|].
      exists (length (addrs r) + k). rewrite lookup_app_r by lia. replace (length (addrs r) + k - length (addrs r)) with k by lia.
      split; [done|]. rewrite vp_plus_plus, addrs_length. f_equal. lia.
  - intros (-> & k & [Hk|[Hle Hk]]%lookup_app_Some & ->).
    + eexists. split; [by left|]. pose proof (lookup_lt_Some _ _ _ Hk) as Hlt. rewrite addrs_length in Hlt.
      exists (N.of_nat k). cbn. split_and!; [lia|done|done|].
      pose proof (addrs_lookup r (N.of_nat k) ltac:(lia)) as E. rewrite Nat2N.id, Hk in E. by injection E.
    + destruct (proj2 (IH (vp_plus cursor (run_width r)))) as (b & Hb & Hf).
      * split; [done|]. exists (k - length (addrs r)). split; [done|]. rewrite vp_plus_plus, addrs_length in *. f_equal. lia.
      * exists b. split; [by right|done].
Qed.

(** The runs' addresses are what the point read answers from the cursor on. *)
Definition tiles (s : Slices) (surface : Address) (cursor : VPos) (rs : list Run) : Prop :=
  ∀ k a, flat rs !! k = Some a → state_point (sl_arrangement s) surface (vp_plus cursor (N.of_nat k)) = Done (Some a).

Lemma vp_plus_0 p : vp_plus p 0 = p.
Proof. destruct p. unfold vp_plus. cbn. by rewrite N.add_0_r. Qed.

Lemma tiles_head s surface cursor r rs :
  run_ok r → tiles s surface cursor (r :: rs) →
  state_point (sl_arrangement s) surface cursor = Done (Some (i_start r)) ∧ tiles s surface (vp_plus cursor (run_width r)) rs.
Proof.
  intros Hr Ht. split.
  - rewrite <- (vp_plus_0 cursor). apply (Ht 0). by apply flat_head.
  - intros k a Hk. rewrite vp_plus_plus. replace (run_width r + N.of_nat k)%N with (N.of_nat (length (addrs r) + k)).
    + apply Ht. rewrite flat_cons, lookup_app_r by lia. by replace (length (addrs r) + k - length (addrs r)) with k by lia.
    + rewrite addrs_length. lia.
Qed.

Lemma build_runs_ok debug s doc surface rs cursor c out :
  runs_ok rs → tiles s surface cursor rs → Count_ok c →
  ∃ r, Compare.build_runs debug (sl_arrangement s) doc surface rs cursor c out = Done r ∧
    judged r [(OverBudget_, exceeds c (N.of_nat (length (tiled_from doc cursor rs))))]
      (λ x, x = (spent c (N.of_nat (length (tiled_from doc cursor rs))), out ++ tiled_from doc cursor rs)).
Proof.
  intros Hrs. revert cursor c out. induction Hrs as [|r rs Hr Hrs IH]; intros cursor c out Ht Hc.
  { apply judged_done_at; [done|]. cbn. by rewrite spent_0, app_nil_r. }
  destruct (tiles_head _ _ _ _ _ Hr Ht) as [Hp Ht']. cbn [Compare.build_runs tiled_from length].
  rewrite Nat2N.inj_succ, <- N.add_1_l. apply judged_take_over; [done|]. intros _ Hc'.
  assert (Hd : (if debug then at_cursor ← state_point (sl_arrangement s) surface cursor;
    assert (bool_decide (at_cursor = Some (i_start r))) else Done tt) = Done tt).
  { destruct debug; [|done]. rewrite Hp. cbn [mbind outcome_bind]. by rewrite bool_decide_eq_true_2. }
  rewrite Hd. unfold Compare.Block_new. rewrite run_reach_ok. cbn [mbind outcome_bind].
  destruct (IH (vp_plus cursor (run_width r)) (spent c 1) (out ++ [Compare.MkBlock doc cursor r (run_reach r)]) Ht' Hc')
    as (x & Hx & Hj). exists x. split; [exact Hx|]. eapply judged_conseq; [exact Hj|]. intros y ->.
  by rewrite spent_spent, <- app_assoc.
Qed.

(** *** The spans of a region *)

(** What the gates leave of a span. *)
Definition span_good (span : Span) : Prop :=
  span_subspace span = Some Subspace.Content ∧ Forall (λ g, ¬ g.2) (span_gates span).

Definition cursor_of (v : OrdinalVSpan) : VPos := MkVPos (ov_subspace v) (ov_ordinal v).

Definition span_blocks (s : Slices) (doc surface : Address) (span : Span) : list Compare.Block :=
  match as_ordinal_vspan span with
  | Some v => tiled_from doc (cursor_of v) (span_runs s surface span)
  | None => []
  end.

(** Position [p] is one the span names. *)
Definition names (span : Span) (p : VPos) : Prop :=
  ∃ v, as_ordinal_vspan span = Some v ∧ vp_subspace p = ov_subspace v ∧
    (ov_ordinal v ≤ vp_ordinal p < ov_ordinal v + ov_count v)%N.

Lemma clipped_lookup v l k a :
  (1 ≤ ov_ordinal v)%N →
  clipped_to v l !! k = Some a ↔ (N.of_nat k < ov_count v)%N ∧ l !! (N.to_nat (ov_ordinal v - 1) + k) = Some a.
Proof.
  intros Ho. unfold clipped_to. replace (ov_ordinal v + ov_count v - N.max (ov_ordinal v) 1)%N with (ov_count v) by lia.
  rewrite lookup_take_Some, lookup_drop. split; intros [? ?]; split; done || lia.
Qed.

Lemma good_point s surface span v p :
  state_ok (sl_arrangement s) → span_good span → as_ordinal_vspan span = Some v → vp_subspace p = ov_subspace v →
  (1 ≤ ov_ordinal v)%N → (ov_ordinal v ≤ vp_ordinal p)%N →
  state_point (sl_arrangement s) surface p = Done (contents s surface !! N.to_nat (vp_ordinal p - 1)).
Proof.
  intros Hs [Hc Hg] Ev Ep H1 Hle. pose proof (arr_list_subspace (arrangement_of (sl_arrangement s) surface) span v Ev) as E.
  rewrite Hc, <- Ep in E. rewrite (state_point_ok _ _ _ _ Hs E). destruct (N.eqb_spec (vp_ordinal p) 0); [lia|done].
Qed.

Lemma span_flat_lookup s surface span v k a :
  state_ok (sl_arrangement s) → span_good span → as_ordinal_vspan span = Some v →
  flat (span_runs s surface span) !! k = Some a ↔
  (N.of_nat k < ov_count v)%N ∧ state_point (sl_arrangement s) surface (vp_plus (cursor_of v) (N.of_nat k)) = Done (Some a).
Proof.
  intros Hs Hgood Ev. pose proof Hgood as [Hc Hg]. destruct (gated_shape span Hg) as (_ & _ & Hsh). destruct (Hsh v Ev) as [Ho _].
  destruct (span_runs_ok s surface span Hs) as (_ & _ & ->). unfold resolved. rewrite Ev, Hc. cbn [held_in].
  rewrite clipped_lookup by done.
  rewrite (good_point s surface span v (vp_plus (cursor_of v) (N.of_nat k))); [|done..|cbn; lia].
  cbn [vp_plus cursor_of vp_ordinal]. replace (N.to_nat (ov_ordinal v + N.of_nat k - 1)) with (N.to_nat (ov_ordinal v - 1) + k) by lia.
  split; intros [? H]; (split; [done|congruence]).
Qed.

Lemma span_tiles s surface span v :
  state_ok (sl_arrangement s) → span_good span → as_ordinal_vspan span = Some v →
  tiles s surface (cursor_of v) (span_runs s surface span).
Proof. intros Hs Hg Ev k a Hk. by apply (span_flat_lookup s surface span v k a) in Hk as [_ ?]. Qed.

Lemma span_feet s doc surface span d p a :
  state_ok (sl_arrangement s) → span_good span →
  (∃ b, b ∈ span_blocks s doc surface span ∧ block_foot b d p a) ↔
  d = doc ∧ names span p ∧ state_point (sl_arrangement s) surface p = Done (Some a).
Proof.
  intros Hs Hg. unfold span_blocks, names. destruct (as_ordinal_vspan span) as [v|] eqn:Ev.
  2: { split; [by intros (? & ?%not_elem_of_nil & _)|by intros (_ & (? & ? & _) & _)]. }
  rewrite tiled_from_feet. setoid_rewrite (span_flat_lookup s surface span v _ a Hs Hg Ev). split.
  - intros (-> & k & [Hk Hp] & ->). split_and!; [done| |done]. exists v. cbn. split_and!; [done|done|lia|lia].
  - intros (-> & (v' & [= <-] & Es & Hle) & Hp). split; [done|]. exists (N.to_nat (vp_ordinal p - ov_ordinal v)).
    assert (E : p = vp_plus (cursor_of v) (N.of_nat (N.to_nat (vp_ordinal p - ov_ordinal v)))).
    { destruct p as [sub ord]. unfold vp_plus, cursor_of. cbn in *. f_equal; [done|lia]. }
    rewrite <- E. split; [|done]. split; [lia|done].
Qed.

Definition spans_blocks (s : Slices) (doc surface : Address) (spans : list Span) : list Compare.Block :=
  spans ≫= span_blocks s doc surface.

Lemma build_spans_ok debug s doc surface spans c out :
  state_ok (sl_arrangement s) → Forall span_good spans → Count_ok c →
  ∃ r, Compare.build_spans debug (sl_arrangement s) doc surface spans c out = Done r ∧
    judged r [(OverBudget_, exceeds c (N.of_nat (length (spans_blocks s doc surface spans))))]
      (λ x, x = (spent c (N.of_nat (length (spans_blocks s doc surface spans))), out ++ spans_blocks s doc surface spans)).
Proof.
  intros Hs Hg. revert c out. induction Hg as [|x spans Hx Hg IH]; intros c out Hc.
  { apply judged_done_at; [done|]. cbn. by rewrite spent_0, app_nil_r. }
  cbn [Compare.build_spans]. unfold spans_blocks. rewrite bind_cons. unfold span_blocks at 1 3 5.
  destruct (as_ordinal_vspan x) as [v|] eqn:Ev; [|by apply IH].
  destruct (span_runs_ok s surface x Hs) as (Er & Hro & _). rewrite Er. cbn [mbind outcome_bind].
  rewrite length_app, Nat2N.inj_add. eapply judged_spend.
  { apply build_runs_ok; [done|by eapply span_tiles|done]. }
  intros [c' out'] [= -> ->] Hn. fold (cursor_of v) in *.
  set (l := tiled_from doc (cursor_of v) (span_runs s surface x)) in *.
  destruct (IH (spent c (N.of_nat (length l))) (out ++ l)) as (r & Hr & Hj); [by apply spent_ok|]. exists r. split; [exact Hr|].
  eapply judged_conseq; [exact Hj|]. intros y ->. by rewrite spent_spent, <- app_assoc.
Qed.

(** *** The regions of an operand *)

Definition region_good (r : RegionSpec) : Prop := Forall span_good (rg_spans r).

Definition region_blocks (s : Slices) (r : RegionSpec) : list Compare.Block :=
  spans_blocks s (rg_doc r) (reads (sl_namespace s) (rg_doc r)) (rg_spans r).

Definition operand_blocks (s : Slices) (regions : list RegionSpec) : list Compare.Block := regions ≫= region_blocks s.

Lemma build_regions_ok debug s regions c out :
  state_ok (sl_arrangement s) → Forall region_good regions → Count_ok c →
  ∃ r, Compare.build_regions debug (sl_namespace s) (sl_arrangement s) regions c out = Done r ∧
    judged r [(OverBudget_, exceeds c (N.of_nat (length (operand_blocks s regions))))]
      (λ l, l = out ++ operand_blocks s regions).
Proof.
  intros Hs Hg. revert c out. induction Hg as [|x regions Hx Hg IH]; intros c out Hc.
  { apply judged_done_at; [done|]. by rewrite app_nil_r. }
  cbn [Compare.build_regions]. rewrite reading_reads. cbn [mbind outcome_bind].
  unfold operand_blocks. rewrite bind_cons, length_app, Nat2N.inj_add. eapply judged_spend; [by apply build_spans_ok|].
  intros [c' out'] [= -> ->] Hn. fold (region_blocks s x) in *.
  destruct (IH (spent c (N.of_nat (length (region_blocks s x)))) (out ++ region_blocks s x)) as (r & Hr & Hj);
    [by apply spent_ok|]. exists r. split; [exact Hr|].
  eapply judged_conseq; [exact Hj|]. intros y ->. by rewrite <- app_assoc.
Qed.

Definition region_price (s : Slices) (r : RegionSpec) : N :=
  total_of (price s (reads (sl_namespace s) (rg_doc r))) (rg_spans r).

Lemma compare_price_spans s surface spans c1 c2 :
  Count_ok c1 → Count_ok c2 →
  ∃ r, Compare.price_operand_spans (sl_arrangement s) surface spans c1 c2 = Done r ∧
    judged r [(OverBudget_, exceeds c1 (N.of_nat (length spans)) ∨ exceeds c2 (total_of (price s surface) spans))]
      (λ x, x = (spent c1 (N.of_nat (length spans)), spent c2 (total_of (price s surface) spans))).
Proof.
  revert c1 c2. induction spans as [|x spans IH]; intros c1 c2 H1 H2.
  { apply judged_done2; [done|done|]. by rewrite !spent_0. }
  cbn [Compare.price_operand_spans length]. rewrite walk_price_ok. rewrite total_of_cons, Nat2N.inj_succ, <- N.add_1_l.
  destruct (judged_take2 OverBudget_ c1 c2 1 (price s surface x) (N.of_nat (length spans)) (total_of (price s surface) spans)
    (λ c1 c2, Compare.price_operand_spans (sl_arrangement s) surface spans c1 c2)
    (λ y, y = (spent c1 (1 + N.of_nat (length spans)), spent c2 (price s surface x + total_of (price s surface) spans))))
    as (r & Hr & Hj); [done|done| |].
  - intros H1' H2'. destruct (IH _ _ H1' H2') as (r & Hr & Hj). exists r. split; [done|].
    eapply judged_conseq; [exact Hj|]. intros y ->. by rewrite !spent_spent.
  - exists r. split; [|exact Hj]. rewrite <- Hr. rewrite (Count_take_ok c1), (Count_take_ok c2) by done.
    cbn [try_bind mbind outcome_bind]. destruct (ct_budget c1 <? ct_admitted c1 + 1)%N; [done|]. cbn [map_err].
    rewrite (Count_take_ok c2) by done. by destruct (ct_budget c2 <? ct_admitted c2 + price s surface x)%N.
Qed.

Definition operand_spans (regions : list RegionSpec) : N := total_of (λ r, N.of_nat (length (rg_spans r))) regions.

Lemma compare_price_regions s regions c1 c2 :
  Count_ok c1 → Count_ok c2 →
  ∃ r, Compare.price_operand_regions (sl_namespace s) (sl_arrangement s) regions c1 c2 = Done r ∧
    judged r [(OverBudget_, exceeds c1 (operand_spans regions) ∨ exceeds c2 (total_of (region_price s) regions))] (λ _, True).
Proof.
  revert c1 c2. induction regions as [|x regions IH]; intros c1 c2 H1 H2; [by apply judged_done2|].
  cbn [Compare.price_operand_regions]. rewrite reading_reads. cbn [mbind outcome_bind]. unfold operand_spans. rewrite !total_of_cons.
  eapply judged_spend2; [by apply compare_price_spans|]. intros [a b] [= -> ->] Hn1 Hn2.
  apply IH; by apply spent_ok.
Qed.

(** An operand is over its budget. *)
Definition operand_over (s : Slices) (regions : list RegionSpec) : Prop :=
  (MAX_COMPARE_OPERAND_BLOCKS < operand_spans regions)%N ∨
  (MAX_WALK_STEPS < total_of (region_price s) regions)%N ∨
  (MAX_COMPARE_OPERAND_BLOCKS < N.of_nat (length (operand_blocks s regions)))%N.

Lemma resolve_blocks_ok debug s regions :
  state_ok (sl_arrangement s) → Forall region_good regions →
  ∃ r, Compare.resolve_blocks debug (sl_namespace s) (sl_arrangement s) regions = Done r ∧
    judged r [(OverBudget_, operand_over s regions)] (λ l, l = operand_blocks s regions).
Proof.
  intros Hs Hg. unfold Compare.resolve_blocks.
  destruct (compare_price_regions s regions (Count_against MAX_COMPARE_OPERAND_BLOCKS) (Count_against MAX_WALK_STEPS))
    as (r & -> & Hr); [apply Count_against_ok..|].
  destruct (build_regions_ok debug s regions (Count_against MAX_COMPARE_OPERAND_BLOCKS) [] Hs Hg (Count_against_ok _))
    as (r' & Hr' & Hj). unfold operand_over. unfold exceeds in *. cbn [ct_budget ct_admitted Count_against] in *.
  rewrite N.add_0_l in *.
  destruct r as [[]|e]; cbn [try_bind outcome_bind].
  - exists r'. split; [done|]. destruct Hr as [Hn _]. rewrite Forall_singleton in Hn. cbn in Hn.
    eapply judged_iff; [|exact Hj]. rewrite ?N.add_0_l. tauto.
  - eexists. split; [done|]. destruct e. apply first_refusal_here.
    apply first_refusal_cons in Hr as [[_ Hx]|[_ []%first_refusal_nil]]. rewrite ?N.add_0_l in *. tauto.
Qed.

(** ** The gates *)

Fixpoint compare_spans_gates (op : Operand) (region index : nat) (spans : list Span) : list (Compare.CompareError * Prop) :=
  match spans with
  | [] => []
  | span :: spans =>
      (Compare.NotContentSubspace op region index, span_subspace span ≠ Some Subspace.Content) ::
      span_refusals (Compare.MalformedSpan op region index) span ++ compare_spans_gates op region (S index) spans
  end.

Fixpoint operand_gates (s : Slices) (op : Operand) (region : nat) (regions : list RegionSpec) :
    list (Compare.CompareError * Prop) :=
  match regions with
  | [] => []
  | r :: regions =>
      (Compare.DocNotRegistered (rg_doc r), is_registered_document (sl_namespace s) (rg_doc r) = false) ::
      compare_spans_gates op region 0 (rg_spans r) ++ operand_gates s op (S region) regions
  end.

Lemma compare_gate_spans op region index spans :
  ∃ r, Compare.gate_operand_spans op region index spans = Done r ∧
    judged r (compare_spans_gates op region index spans) (λ _, Forall span_good spans).
Proof.
  revert index. induction spans as [|x spans IH]; intros index; [eexists; split; [done|by apply judged_ok]|].
  destruct (IH (S index)) as (r & Hr & Hj). cbn [Compare.gate_operand_spans compare_spans_gates]. rewrite of_span_ok, Hr.
  cbn [mbind outcome_bind].
  exists (if negb (bool_decide (span_subspace x = Some Subspace.Content)) then Err (Compare.NotContentSubspace op region index)
    else match gate_vspan x with Err fault => Err (Compare.MalformedSpan op region index fault) | Ok _ => r end).
  split; [destruct (negb _); [done|]; by destruct (gate_vspan x)|].
  apply judged_gate; [by rewrite negb_true_iff, bool_decide_eq_false|]. intros Hc%negb_false_iff%bool_decide_eq_true.
  apply judged_vspan. intros Hg. eapply judged_conseq; [exact Hj|]. intros u Hall. constructor; [by split|done].
Qed.

Lemma compare_gate_regions s op region regions :
  ∃ r, Compare.gate_operand_regions (sl_namespace s) op region regions = Done r ∧
    judged r (operand_gates s op region regions) (λ _, Forall region_good regions).
Proof.
  revert region. induction regions as [|x regions IH]; intros region; [eexists; split; [done|by apply judged_ok]|].
  cbn [Compare.gate_operand_regions operand_gates].
  destruct (is_registered_document (sl_namespace s) (rg_doc x)) eqn:Ed; cbn [negb].
  2: { eexists. split; [done|]. by apply first_refusal_here. }
  destruct (judged_try _ (λ _, Compare.gate_operand_regions (sl_namespace s) op (S region) regions) _ (operand_gates s op (S region) regions) _
    (λ _, Forall region_good (x :: regions)) (compare_gate_spans op region 0 (rg_spans x))) as (r & Hr & Hj).
  - intros u Hx. destruct (IH (S region)) as (r & Hr & Hj). exists r. split; [done|].
    eapply judged_conseq; [exact Hj|]. intros u' Hall. by constructor.
  - exists r. split; [done|]. by apply judged_skip.
Qed.

(** ** The order of the answer *)

(** A comparison that orders: it reverses, and it is transitive. *)
Record ordering {A} (f : A → A → comparison) : Prop := {
  or_flip a b : f b a = CompOpp (f a b);
  or_trans a b c : f a b ≠ Gt → f b c ≠ Gt → f a c ≠ Gt
}.

Lemma ordering_on {A B} (f : B → B → comparison) (h : A → B) : ordering f → ordering (λ a b, f (h a) (h b)).
Proof. intros [Hf Ht]. split; intros *; [apply Hf|apply Ht]. Qed.

Lemma ordering_then {A} (f g : A → A → comparison) :
  ordering f → ordering g → ordering (λ a b, Compare.cmp_then (f a b) (g a b)).
Proof.
  intros [Hf Htf] [Hg Htg]. split.
  - intros a b. rewrite (Hf a b), (Hg a b). by destruct (f a b).
  - intros a b c. pose proof (Htf a b c) as H1. pose proof (Htf b c a) as H2. pose proof (Htf c a b) as H3.
    rewrite (Hf a c), (Hf b c) in *. rewrite (Hf a b) in *. pose proof (Htg a b c) as H4.
    destruct (f a b), (f b c), (f a c); cbn in *; try done; intros; exfalso; try (by apply H1); try (by apply H2); by apply H3.
Qed.

Lemma ordering_addr : ordering Address_cmp.
Proof.
  unfold Address_cmp. split.
  - intros a b. apply cmp_antisym.
  - intros a b c. change (tumbler a ≤ₜ tumbler b → tumbler b ≤ₜ tumbler c → tumbler a ≤ₜ tumbler c). intros. torder.
Qed.

Lemma ordering_N : ordering N.compare.
Proof.
  split; [intros a b; apply N.compare_antisym|]. intros a b c.
  change ((a ≤ b)%N → (b ≤ c)%N → (a ≤ c)%N). lia.
Qed.

Lemma ordering_ext {A} (f g : A → A → comparison) : (∀ a b, f a b = g a b) → ordering f → ordering g.
Proof. intros E [Hf Ht]. split; intros *; rewrite <- !E; [apply Hf|apply Ht]. Qed.

Lemma ordering_vpos : ordering VPos_cmp.
Proof.
  apply (ordering_ext (λ a b, Compare.cmp_then (vp_subspace a ?= vp_subspace b)%N (vp_ordinal a ?= vp_ordinal b)%N)).
  - intros a b. unfold VPos_cmp. by destruct (_ ?= _)%N.
  - apply ordering_then; [apply (ordering_on N.compare vp_subspace)|apply (ordering_on N.compare vp_ordinal)]; apply ordering_N.
Qed.

Lemma ordering_key : ordering Compare.key_cmp.
Proof.
  unfold Compare.key_cmp. repeat apply ordering_then.
  - apply (ordering_on Address_cmp cp_d1), ordering_addr.
  - apply (ordering_on VPos_cmp cp_u1), ordering_vpos.
  - apply (ordering_on Address_cmp cp_d2), ordering_addr.
  - apply (ordering_on VPos_cmp cp_u2), ordering_vpos.
Qed.

Definition pair_le (a b : CorrPair) : Prop := Compare.key_cmp a b ≠ Gt.

Lemma insert_pair_perm c l : Compare.insert_pair c l ≡ₚ c :: l.
Proof.
  induction l as [|x l IH]; cbn [Compare.insert_pair]; [done|]. destruct (Compare.key_cmp c x); [done..|].
  rewrite IH. apply Permutation_swap.
Qed.

Lemma insert_pair_sorted c l : StronglySorted pair_le l → StronglySorted pair_le (Compare.insert_pair c l).
Proof.
  destruct ordering_key as [Hf Ht]. induction 1 as [|x l Hl IH Hx]; cbn [Compare.insert_pair]; [repeat constructor|].
  assert (Hc : pair_le c x → StronglySorted pair_le (c :: x :: l)).
  { intros Hle. constructor; [by constructor|]. constructor; [done|]. eapply Forall_impl; [exact Hx|].
    intros y Hy. by eapply Ht. }
  destruct (Compare.key_cmp c x) eqn:E; [apply Hc; unfold pair_le; by rewrite E..|].
  constructor; [done|]. rewrite Forall_forall in *. intros y Hy. rewrite insert_pair_perm in Hy.
  apply elem_of_cons in Hy as [->|Hy]; [|by apply Hx]. unfold pair_le. by rewrite Hf, E.
Qed.

Lemma presentation_ok pairs :
  Compare.deterministic_presentation pairs ≡ₚ pairs ∧ StronglySorted pair_le (Compare.deterministic_presentation pairs).
Proof.
  unfold Compare.deterministic_presentation, Compare.fold_adjacent. induction pairs as [|c pairs [IH1 IH2]]; cbn [foldr].
  - split; [done|constructor].
  - split; [by rewrite insert_pair_perm, IH1|by apply insert_pair_sorted].
Qed.

(** ** The answer *)

(** A region of the operand names position [p] of [d], and the reader's surface of [d]
    holds [a] there. *)
Definition operand_foot (s : Slices) (regions : list RegionSpec) (d : Address) (p : VPos) (a : Address) : Prop :=
  ∃ r span, r ∈ regions ∧ span ∈ rg_spans r ∧ d = rg_doc r ∧ names span p ∧
    state_point (sl_arrangement s) (reads (sl_namespace s) d) p = Done (Some a).

Lemma operand_blocks_ok s regions : state_ok (sl_arrangement s) → blocks_ok (operand_blocks s regions).
Proof.
  intros Hs. apply Forall_forall. intros b (r & Hb & _)%list_elem_of_bind. apply list_elem_of_bind in Hb as (x & Hb & _).
  unfold span_blocks in Hb. destruct (as_ordinal_vspan x) as [v|]; [|by apply not_elem_of_nil in Hb].
  destruct (span_runs_ok s (reads (sl_namespace s) (rg_doc r)) x Hs) as (_ & Hro & _).
  eapply (proj1 (Forall_forall _ _)) in Hb; [exact Hb|by apply tiled_from_ok].
Qed.

Lemma operand_feet s regions d p a :
  state_ok (sl_arrangement s) → Forall region_good regions →
  (∃ b, b ∈ operand_blocks s regions ∧ block_foot b d p a) ↔ operand_foot s regions d p a.
Proof.
  intros Hs Hg. rewrite Forall_forall in Hg. unfold operand_foot, operand_blocks, region_blocks, spans_blocks. split.
  - intros (b & (r & Hb & Hr)%list_elem_of_bind & Hf). apply list_elem_of_bind in Hb as (x & Hb & Hx).
    pose proof (proj1 (Forall_forall _ _) (Hg r Hr) x Hx) as Hgood.
    destruct (proj1 (span_feet s (rg_doc r) _ x d p a Hs Hgood) (ex_intro _ b (conj Hb Hf))) as (-> & Hn & Hp).
    by exists r, x.
  - intros (r & x & Hr & Hx & -> & Hn & Hp). pose proof (proj1 (Forall_forall _ _) (Hg r Hr) x Hx) as Hgood.
    destruct (proj2 (span_feet s (rg_doc r) (reads (sl_namespace s) (rg_doc r)) x (rg_doc r) p a Hs Hgood)) as (b & Hb & Hf); [done|].
    exists b. split; [|done]. apply list_elem_of_bind. exists r. split; [|done]. apply list_elem_of_bind. by exists x.
Qed.

Definition compare_gates (s : Slices) (rho1 rho2 : list RegionSpec) : list (Compare.CompareError * Prop) :=
  operand_gates s First 0 rho1 ++ operand_gates s Second 0 rho2 ++
  [ (Compare.TooManyBlocks First, operand_over s rho1);
    (Compare.TooManyBlocks Second, operand_over s rho2);
    (Compare.TooManyPairs,
      (MAX_COMPARE_PAIRS < N.of_nat (length (overlaps (operand_blocks s rho1) (operand_blocks s rho2))))%N) ].

(** The pairs answer exactly the positions that share an address, in the key's order. *)
Definition corresponds (s : Slices) (rho1 rho2 : list RegionSpec) (pairs : list CorrPair) : Prop :=
  StronglySorted pair_le pairs ∧ (∀ c, c ∈ pairs → (1 ≤ cp_width c)%N) ∧
  ∀ d1 p1 d2 p2, (∃ c, c ∈ pairs ∧ pair_feet c d1 p1 d2 p2) ↔
    ∃ a, operand_foot s rho1 d1 p1 a ∧ operand_foot s rho2 d2 p2 a.

Section Compare.
Context {debug : bool} {W R : Type} `{WS : WorldState W R} `{HS : !HasSlices debug W R}.

(** C29. COMPARE is total on any world that holds the core's invariant, its debug
    assertion included: it refuses by the first of its gates that holds, in order — the
    first operand's documents and spans, the second's, then either operand's budget and
    the budget of pairs — and otherwise answers runs, ordered by their key, that pair a
    position of the one operand with a position of the other exactly when both hold one
    and the same address. *)
Theorem compare_exact (w : W) (rho1 rho2 : list RegionSpec) :
  core_ok (slices w) →
  ∃ r, compare (debug := debug) w rho1 rho2 = Done r ∧
    judged r (compare_gates (slices w) rho1 rho2) (corresponds (slices w) rho1 rho2).
Proof.
  intros Hok. unfold compare, compare_gates. change (m3 w) with (sl_namespace (slices w)).
  change (m5 w) with (sl_arrangement (slices w)). set (s := slices w) in *. pose proof (co_m5 _ Hok) as Hs.
  eapply judged_try; [apply compare_gate_regions|]. intros u1 Hg1.
  eapply judged_try; [apply compare_gate_regions|]. intros u2 Hg2.
  destruct (resolve_blocks_ok debug s rho1 Hs Hg1) as (p & -> & Hp), (resolve_blocks_ok debug s rho2 Hs Hg2) as (q & -> & Hq).
  cbn [mbind outcome_bind]. apply (judged_map_err _ (λ _, Compare.TooManyBlocks First)) in Hp.
  apply (judged_map_err _ (λ _, Compare.TooManyBlocks Second)) in Hq.
  apply (judged_try _ _ [_] [_; _] (λ l, l = operand_blocks s rho1)); [by eexists|]. intros l1 ->.
  apply (judged_try _ _ [_] [_] (λ l, l = operand_blocks s rho2)); [by eexists|]. intros l2 ->.
  pose proof (operand_blocks_ok s rho1 Hs) as Hb1. pose proof (operand_blocks_ok s rho2 Hs) as Hb2.
  destruct (join_overlaps_ok _ _ (Count_against MAX_COMPARE_PAIRS) [] Hb1 Hb2 (Count_against_ok _)) as (x & Ex & Hx).
  unfold Compare.interval_join. rewrite Ex. cbn [mbind outcome_bind]. apply (judged_map_err _ (λ _, Compare.TooManyPairs)) in Hx.
  apply (judged_try _ _ [_] [] (λ l, l = overlaps (operand_blocks s rho1) (operand_blocks s rho2))); [by eexists|].
  intros l ->. eexists. split; [done|]. apply judged_ok.
  destruct (presentation_ok (overlaps (operand_blocks s rho1) (operand_blocks s rho2))) as [Hperm Hsort].
  split_and!; [done| |].
  - intros c Hc. rewrite Hperm in Hc. by apply (overlaps_width _ _ c Hb1 Hb2).
  - intros d1 p1 d2 p2. setoid_rewrite Hperm. rewrite overlaps_feet by done. setoid_rewrite operand_feet; done.
Qed.
End Compare.
