(* ===== verification/OrdSets.v ===== *)
(** * Ordered sets and their ranges

    An [im::OrdSet] is a finite set walked in the order of its elements; tuples
    compare lexicographically, as Rust derives it. [ord_list] is the walk, [range] a
    walk between two bounds. *)

From stdpp Require Import gmap sorting.
From S2P Require Import Prelude Tumblers.

(** ** Rust's [Ord] *)

Class Ord (A : Type) := ocmp : A → A → comparison.

Class OrdLaws (A : Type) `{Ord A} := {
  ocmp_eq (a b : A) : ocmp a b = Eq ↔ a = b;
  ocmp_antisym (a b : A) : ocmp b a = CompOpp (ocmp a b);
  ocmp_trans (a b c : A) : ocmp a b = Lt → ocmp b c = Lt → ocmp a c = Lt
}.

#[export] Instance N_ord : Ord N := N.compare.
#[export] Instance nat_ord : Ord nat := Nat.compare.
#[export] Instance tumbler_ord : Ord Tumbler := cmp.
#[export] Instance comps_ord : Ord (list Nat) := list_cmp.
#[export] Instance pair_ord {A B} `{Ord A, Ord B} : Ord (A * B) := λ p q,
  match ocmp p.1 q.1 with Eq => ocmp p.2 q.2 | c => c end.

#[export] Instance N_ord_laws : OrdLaws N.
Proof.
  split; unfold ocmp, N_ord.
  - intros a b. apply N.compare_eq_iff.
  - intros a b. apply N.compare_antisym.
  - intros a b c. rewrite !N.compare_lt_iff. lia.
Qed.

#[export] Instance nat_ord_laws : OrdLaws nat.
Proof.
  split; unfold ocmp, nat_ord.
  - intros a b. apply Nat.compare_eq_iff.
  - intros a b. apply Nat.compare_antisym.
  - intros a b c. rewrite !Nat.compare_lt_iff. lia.
Qed.

#[export] Instance tumbler_ord_laws : OrdLaws Tumbler.
Proof.
  split; unfold ocmp, tumbler_ord.
  - apply cmp_eq.
  - apply cmp_antisym.
  - intros a b c. apply list_cmp_trans.
Qed.

#[export] Instance comps_ord_laws : OrdLaws (list Nat).
Proof.
  split; unfold ocmp, comps_ord.
  - intros a b. split; [apply list_cmp_eq|]. intros ->. apply list_cmp_refl.
  - apply list_cmp_antisym.
  - apply list_cmp_trans.
Qed.

#[export] Instance pair_ord_laws {A B} `{OrdLaws A, OrdLaws B} : OrdLaws (A * B).
Proof.
  split; unfold ocmp, pair_ord.
  - intros [a b] [c d]. cbn. rewrite pair_equal_spec, <- !ocmp_eq. destruct (ocmp a c); naive_solver.
  - intros [a b] [c d]. cbn. rewrite (ocmp_antisym a c), (ocmp_antisym b d). by destruct (ocmp a c).
  - intros [a b] [c d] [e f]. cbn.
    destruct (ocmp a c) eqn:E1, (ocmp c e) eqn:E2; try done; intros H3 H4.
    + apply ocmp_eq in E1 as ->. rewrite E2. by eapply ocmp_trans.
    + apply ocmp_eq in E1 as ->. by rewrite E2.
    + apply ocmp_eq in E2 as ->. by rewrite E1.
    + by rewrite (ocmp_trans _ _ _ E1 E2).
Qed.

Section Ordered.
Context {A : Type} `{OrdLaws A}.

Definition ole (a b : A) : Prop := ocmp a b ≠ Gt.
Definition olt (a b : A) : Prop := ocmp a b = Lt.

#[global] Instance ole_dec : RelDecision ole.
Proof. intros a b. unfold ole. apply _. Defined.

Lemma ocmp_gt a b : ocmp a b = Gt ↔ olt b a.
Proof. unfold olt. rewrite (ocmp_antisym a b). by destruct (ocmp a b). Qed.

Lemma ocmp_refl a : ocmp a a = Eq.
Proof. by apply ocmp_eq. Qed.

Lemma ole_lt_eq a b : ole a b ↔ olt a b ∨ a = b.
Proof. unfold ole, olt. rewrite <- ocmp_eq. destruct (ocmp a b); naive_solver. Qed.

Lemma olt_irrefl a : ¬ olt a a.
Proof. unfold olt. by rewrite ocmp_refl. Qed.

Lemma olt_not_ole a b : olt a b ↔ ¬ ole b a.
Proof. unfold ole. rewrite ocmp_gt. split; [intros ? Hn; by apply Hn|]. intros Hn. destruct (ocmp a b) eqn:E; [|done|].
  - apply ocmp_eq in E as ->. exfalso. apply Hn. apply olt_irrefl.
  - exfalso. apply Hn. intros Hab. unfold olt in Hab. congruence. Qed.

#[global] Instance olt_trans : Transitive olt.
Proof. intros a b c. apply ocmp_trans. Qed.

#[global] Instance ole_trans : Transitive ole.
Proof.
  intros a b c. rewrite !ole_lt_eq. intros [Hab| ->]; [|done]. intros [Hbc| ->]; left; [by etransitivity|done].
Qed.

#[global] Instance ole_total : Total ole.
Proof. intros a b. destruct (ocmp a b) eqn:E; [left|left|right]; unfold ole; [congruence..|]. rewrite (ocmp_antisym a b), E. done. Qed.

Lemma ole_antisym a b : ole a b → ole b a → a = b.
Proof. rewrite !ole_lt_eq. intros [H1|?] [H2|?]; try done. exfalso. apply (olt_irrefl a). by etransitivity. Qed.
End Ordered.

(** ** The walk of a set *)

Definition ord_list {A} `{Ord A, Countable A} (s : gset A) : list A := merge_sort ole (elements s).

Inductive Bound (A : Type) := Included (a : A) | Excluded (a : A) | Unbounded.
Arguments Included {A} a.
Arguments Excluded {A} a.
Arguments Unbounded {A}.

Definition from_ok {A} `{Ord A} (lo : Bound A) (x : A) : bool :=
  match lo with
  | Included a => match ocmp a x with Gt => false | _ => true end
  | Excluded a => match ocmp a x with Lt => true | _ => false end
  | Unbounded => true
  end.

Definition to_ok {A} `{Ord A} (hi : Bound A) (x : A) : bool :=
  match hi with
  | Included a => match ocmp x a with Gt => false | _ => true end
  | Excluded a => match ocmp x a with Lt => true | _ => false end
  | Unbounded => true
  end.

(** [OrdSet::range], and [OrdMap::range] of a map held as the set of its keys. *)
Definition range {A} `{Ord A, Countable A} (lo hi : Bound A) (s : gset A) : list A :=
  List.filter (λ x, from_ok lo x && to_ok hi x) (ord_list s).

Section Walk.
Context {A : Type} `{OrdLaws A} `{!EqDecision A, !Countable A}.
Implicit Types (s : gset A).

Lemma elem_of_ord_list s x : x ∈ ord_list s ↔ x ∈ s.
Proof. unfold ord_list. by rewrite (merge_sort_Permutation ole), elem_of_elements. Qed.

Lemma ord_list_NoDup s : NoDup (ord_list s).
Proof. unfold ord_list. rewrite (merge_sort_Permutation ole). apply NoDup_elements. Qed.

Lemma ord_list_sorted s : StronglySorted ole (ord_list s).
Proof. apply (StronglySorted_merge_sort ole). Qed.

Lemma sorted_strict (l : list A) : NoDup l → StronglySorted ole l → StronglySorted olt l.
Proof.
  intros Hn Hs. induction Hs as [|x l Hs IH Hx]; [constructor|]. apply NoDup_cons in Hn as [Hxl Hn].
  constructor; [auto|]. apply Forall_forall. intros y Hy. pose proof (proj1 (Forall_forall _ _) Hx y Hy) as Hle.
  apply ole_lt_eq in Hle as [?|<-]; [done|by destruct Hxl].
Qed.

Lemma filter_strict (P : A → bool) (l : list A) : StronglySorted olt l → StronglySorted olt (List.filter P l).
Proof.
  induction 1 as [|x l Hs IH Hx]; cbn; [constructor|]. destruct (P x); [|done]. constructor; [done|].
  apply Forall_forall. intros y Hy. apply list_elem_of_In, filter_In in Hy as [Hy%list_elem_of_In _].
  by eapply (proj1 (Forall_forall _ _)) in Hx.
Qed.

(** A set's walk is strictly ascending. *)
Lemma ord_list_strict s : StronglySorted olt (ord_list s).
Proof. apply sorted_strict; [apply ord_list_NoDup|apply ord_list_sorted]. Qed.

Lemma range_strict lo hi s : StronglySorted olt (range lo hi s).
Proof. apply filter_strict, ord_list_strict. Qed.

Lemma elem_of_range lo hi s x : x ∈ range lo hi s ↔ x ∈ s ∧ from_ok lo x = true ∧ to_ok hi x = true.
Proof.
  unfold range. rewrite list_elem_of_In, filter_In, <- list_elem_of_In, elem_of_ord_list, andb_true_iff. done.
Qed.

Lemma from_ok_included a x : from_ok (Included a) x = true ↔ ole a x.
Proof. cbn. unfold ole. destruct (ocmp a x); naive_solver. Qed.

Lemma to_ok_excluded a x : to_ok (Excluded a) x = true ↔ olt x a.
Proof. cbn. unfold olt. destruct (ocmp x a); naive_solver. Qed.

Lemma to_ok_included a x : to_ok (Included a) x = true ↔ ole x a.
Proof. cbn. unfold ole. destruct (ocmp x a); naive_solver. Qed.

(** The first key at or past a bound: [range(..).next()]. *)
Lemma range_head lo hi s x rest :
  range lo hi s = x :: rest →
  x ∈ s ∧ from_ok lo x = true ∧ to_ok hi x = true ∧
  ∀ y, y ∈ s → from_ok lo y = true → to_ok hi y = true → ole x y.
Proof.
  intros E. assert (Hx : x ∈ range lo hi s) by (rewrite E; by left). apply elem_of_range in Hx as (? & ? & ?).
  split_and!; [done..|]. intros y Hy Hl Hh. assert (Hin : y ∈ range lo hi s) by by apply elem_of_range.
  pose proof (range_strict lo hi s) as Hs. rewrite E in Hin, Hs. apply elem_of_cons in Hin as [->|Hin].
  - unfold ole. by rewrite ocmp_refl.
  - inversion Hs as [|? ? _ Hf]; subst. rewrite Forall_forall in Hf. apply ole_lt_eq. left. by apply Hf.
Qed.

Lemma range_nil lo hi s : range lo hi s = [] ↔ ∀ y, y ∈ s → from_ok lo y = true → to_ok hi y = true → False.
Proof.
  split.
  - intros E y Hy Hl Hh. assert (Hin : y ∈ range lo hi s) by by apply elem_of_range. rewrite E in Hin. by apply not_elem_of_nil in Hin.
  - intros Hn. destruct (range lo hi s) as [|x r] eqn:E; [done|]. apply range_head in E as (? & ? & ? & _). by destruct (Hn x).
Qed.
End Walk.

(** Two strictly ascending lists of the same elements are one list. *)
Lemma strict_unique {A} `{OrdLaws A} (l k : list A) :
  StronglySorted olt l → StronglySorted olt k → (∀ x, x ∈ l ↔ x ∈ k) → l = k.
Proof.
  assert (Hn : ∀ l : list A, StronglySorted olt l → NoDup l).
  { induction 1 as [|x l' Hs IH Hx]; constructor; [|done]. intros Hin. eapply (proj1 (Forall_forall _ _)) in Hx; [|exact Hin].
    by apply olt_irrefl in Hx. }
  assert (Hle : ∀ l : list A, StronglySorted olt l → StronglySorted ole l).
  { induction 1; constructor; [done|]. eapply Forall_impl; [done|]. intros y Hy. apply ole_lt_eq. by left. }
  intros Hl Hk Hx. apply (StronglySorted_unique_strong ole); [|by apply Hle|by apply Hle|].
  - intros a b _ _. apply ole_antisym.
  - apply NoDup_Permutation; auto.
Qed.

(** ** Tuples *)

Lemma pair_olt {A B} `{OrdLaws A, OrdLaws B} (a c : A) (b d : B) :
  olt (a, b) (c, d) ↔ olt a c ∨ a = c ∧ olt b d.
Proof.
  unfold olt at 1. unfold ocmp at 1, pair_ord. cbn. unfold olt. rewrite <- (ocmp_eq a c). destruct (ocmp a c); naive_solver.
Qed.

Lemma pair_ole {A B} `{OrdLaws A, OrdLaws B} (a c : A) (b d : B) :
  ole (a, b) (c, d) ↔ olt a c ∨ a = c ∧ ole b d.
Proof. rewrite !ole_lt_eq, pair_olt, pair_equal_spec. naive_solver. Qed.

(** Two keys that agree on their first part bound what has that part. *)
Lemma pair_between {A B} `{OrdLaws A, OrdLaws B} (a x : A) (b d y : B) :
  ole (a, b) (x, y) → olt (x, y) (a, d) → x = a ∧ ole b y ∧ olt y d.
Proof.
  rewrite pair_ole, pair_olt. intros [Hl|[-> Hl]] [Hu|[Hu Hv]]; try done.
  - exfalso. apply (olt_irrefl a). by etransitivity.
  - subst. by apply olt_irrefl in Hl.
  - by apply olt_irrefl in Hu.
Qed.

Lemma olt_N (a b : N) : olt a b ↔ (a < b)%N.
Proof. done. Qed.

Lemma ole_N (a b : N) : ole a b ↔ (a ≤ b)%N.
Proof. done. Qed.

(** ** Keyed by tumblers *)

Definition tum_le (a b : Tumbler) : Prop := a ≤ₜ b.

#[export] Instance tum_le_dec : RelDecision tum_le.
Proof. intros a b. unfold tum_le. apply _. Defined.

#[export] Instance tum_le_trans : Transitive tum_le.
Proof. intros a b c. unfold tum_le. intros. torder. Qed.

#[export] Instance tum_le_total : Total tum_le.
Proof. intros a b. unfold tum_le. destruct (leb_spec a b); [by left|right; torder]. Qed.

(** [OrdSet::iter]. *)
Definition ord_elements (s : gset Tumbler) : list Tumbler := merge_sort tum_le (elements s).

Lemma elem_of_ord_elements s t : t ∈ ord_elements s ↔ t ∈ s.
Proof. unfold ord_elements. by rewrite (merge_sort_Permutation tum_le), elem_of_elements. Qed.

Lemma ord_elements_NoDup s : NoDup (ord_elements s).
Proof. unfold ord_elements. rewrite (merge_sort_Permutation tum_le). apply NoDup_elements. Qed.

Lemma ord_elements_sorted s : StronglySorted tum_le (ord_elements s).
Proof. apply (StronglySorted_merge_sort tum_le). Qed.

(** A sorted list without repeats is the walk of its set. *)
Lemma tum_sorted_unique l k :
  StronglySorted tum_le l → StronglySorted tum_le k → l ≡ₚ k → l = k.
Proof.
  intros Hl Hk. apply (StronglySorted_unique_strong tum_le); [|done|done].
  intros a b _ _ ? ?. unfold tum_le in *. torder.
Qed.

Lemma ord_elements_of l :
  NoDup l → StronglySorted tum_le l → ord_elements (list_to_set l) = l.
Proof.
  intros Hn Hs. apply tum_sorted_unique; [apply ord_elements_sorted|done|].
  apply NoDup_Permutation; [apply ord_elements_NoDup|done|]. intros t.
  by rewrite elem_of_ord_elements, elem_of_list_to_set.
Qed.

(** [OrdMap::iter]. *)
Definition entry_le {V} (p q : Tumbler * V) : Prop := tum_le p.1 q.1.

#[export] Instance entry_le_dec {V} : RelDecision (@entry_le V).
Proof. intros p q. unfold entry_le. apply _. Defined.

#[export] Instance entry_le_trans {V} : Transitive (@entry_le V).
Proof. intros p q s. unfold entry_le. apply tum_le_trans. Qed.

#[export] Instance entry_le_total {V} : Total (@entry_le V).
Proof. intros p q. apply tum_le_total. Qed.

Definition tum_entries {V} (m : gmap Tumbler V) : list (Tumbler * V) := merge_sort entry_le (map_to_list m).

Lemma elem_of_tum_entries {V} (m : gmap Tumbler V) t v : (t, v) ∈ tum_entries m ↔ m !! t = Some v.
Proof. unfold tum_entries. by rewrite (merge_sort_Permutation entry_le), elem_of_map_to_list. Qed.

Lemma tum_entries_NoDup {V} (m : gmap Tumbler V) : NoDup (fst <$> tum_entries m).
Proof. unfold tum_entries. rewrite (merge_sort_Permutation entry_le). apply NoDup_fst_map_to_list. Qed.

Lemma tum_entries_sorted {V} (m : gmap Tumbler V) : StronglySorted tum_le (fst <$> tum_entries m).
Proof.
  unfold tum_entries. pose proof (StronglySorted_merge_sort entry_le (map_to_list m)) as H.
  induction H as [|p l Hl IH Hp]; cbn; [constructor|]. constructor; [done|].
  apply Forall_fmap. eapply Forall_impl; [exact Hp|]. done.
Qed.
