(* ===== verification/Endsets.v ===== *)
(** * Endsets, links, and the identity of a class

    Models [crates/skep-links/src/endset.rs], [class.rs] and [dedup.rs] (M7): an endset
    is a span sequence kept as it was given, a link three or more of them; the coverage
    class is an endset's identity as a type, and the three classes of a link the
    identity by which an idempotent emit finds its incumbent. *)

From stdpp Require Import gmap sorting.
From S2P Require Import Prelude Txns Tumblers Addresses Arith NsKeys Spans SpanSets ArrReads OrdSets.

(** ** Endsets *)

Record Endset := MkEndset { endset_spans : list Span }.

#[export] Instance Endset_eq_dec : EqDecision Endset.
Proof. solve_decision. Defined.

Definition Endset_empty : Endset := MkEndset [].

Definition from_spans (l : list Span) : Endset := MkEndset l.

Definition Endset_len (e : Endset) : nat := length (endset_spans e).

Definition Endset_is_empty (e : Endset) : bool := negb (nonemptyb (endset_spans e)).

Definition Endset_covers (e : Endset) (t : Tumbler) : bool := existsb (λ s, contains s t) (endset_spans e).

Definition is_unit_depth (s : Span) : bool := bool_decide (s = subtree_of (start s)).

Definition Endset_addrs (e : Endset) : list Tumbler := start <$> List.filter is_unit_depth (endset_spans e).

Definition is_address_denoting (e : Endset) : bool := forallb is_unit_depth (endset_spans e).

Definition Endset_is_level_uniform (e : Endset) : bool := forallb is_level_uniform (endset_spans e).

Definition single_denoted (e : Endset) : option Tumbler :=
  if negb (is_address_denoting e) then None
  else
    match Endset_addrs e with
    | [] => None
    | first :: rest => if existsb (λ t, negb (bool_decide (t = first))) rest then None else Some first
    end.

Definition to_spanset (e : Endset) : SpanSet := from_iter (endset_spans e).

Definition enc (l : list Address) : Endset := from_spans ((λ a, subtree_of (tumbler a)) <$> l).

(** ** Links *)

Record Link := MkLink { slots : list Endset; slots_ok : (3 <=? length slots) = true }.

Lemma Link_eq (a b : Link) : slots a = slots b → a = b.
Proof. destruct a as [x p], b as [y q]. cbn. intros ->. f_equal. apply bool_eq_pi. Qed.

#[export] Instance Link_eq_dec : EqDecision Link.
Proof.
  intros a b. destruct (decide (slots a = slots b)) as [H|H].
  - left. by apply Link_eq.
  - right. intros ->. by apply H.
Defined.

Definition triple (from to ty : Endset) : Link := MkLink [from; to; ty] eq_refl.

Definition Link_admit (l : list Endset) (b : bool) : (3 <=? length l) = b → option Link :=
  match b with true => λ H, Some (MkLink l H) | false => λ _, None end.

(** [Link::new], and the decode door [LinkShadow], which is the same test. *)
Definition Link_new (l : list Endset) : option Link := Link_admit l _ eq_refl.

Definition arity (v : Link) : nat := length (slots v).

(** 1-based. *)
Definition Link_slot (v : Link) (slot : nat) : option Endset :=
  match slot with 0 => None | S i => slots v !! i end.

Definition slot_at (v : Link) (i : nat) : outcome Endset := index (slots v) i.

Lemma slot_done v i : i < 3 → is_done (slot_at v i) = true.
Proof.
  intros Hi. pose proof (slots_ok v) as H. apply Nat.leb_le in H. unfold slot_at, index.
  destruct (lookup_lt_is_Some_2 (slots v) i) as [e ->]; [lia|done].
Qed.

Lemma lt_0_3 : 0 < 3. Proof. lia. Qed.
Lemma lt_1_3 : 1 < 3. Proof. lia. Qed.
Lemma lt_2_3 : 2 < 3. Proof. lia. Qed.

Definition from_slot (v : Link) : Endset := total (slot_at v 0) (slot_done v 0 lt_0_3).
Definition to_slot (v : Link) : Endset := total (slot_at v 1) (slot_done v 1 lt_1_3).
Definition type_slot (v : Link) : Endset := total (slot_at v 2) (slot_done v 2 lt_2_3).

(** ** The class of an endset *)

#[export] Program Instance SpanSet_countable : Countable SpanSet := inj_countable' spans MkSpanSet _.
Next Obligation. by intros []. Qed.

#[export] Program Instance CanonicalForm_countable : Countable CanonicalForm :=
  inj_countable' as_set MkCanonicalForm _.
Next Obligation. by intros []. Qed.

Inductive CoverageClass :=
  | Addrs (minimal : gset Tumbler)
  | Extents (extents : gmap nat CanonicalForm).

#[export] Instance CoverageClass_eq_dec : EqDecision CoverageClass.
Proof. solve_decision. Defined.

#[export] Program Instance CoverageClass_countable : Countable CoverageClass :=
  inj_countable' (λ c, match c with Addrs s => inl s | Extents m => inr m end)
    (λ x, match x with inl s => Addrs s | inr m => Extents m end) _.
Next Obligation. by intros []. Qed.

Definition denoted (c : CoverageClass) : option (gset Tumbler) :=
  match c with Addrs set => Some set | Extents _ => None end.

(** The walk that keeps what no earlier kept one is a prefix of. *)
Fixpoint keep_minimal (last : option Tumbler) (l : list Tumbler) : list Tumbler :=
  match l with
  | [] => []
  | t :: l =>
      if match last with Some y => is_prefix y t | None => false end then keep_minimal last l
      else t :: keep_minimal (Some t) l
  end.

Fixpoint canonical_classes (l : list (nat * SpanSet)) : outcome (gmap nat CanonicalForm) :=
  match l with
  | [] => Done ∅
  | (start_len, part) :: l =>
      canonical ← expect_ok (canonical_key part);
      rest ← canonical_classes l;
      Done (<[start_len := canonical]> rest)
  end.

Definition coverage_class (e : Endset) : outcome CoverageClass :=
  if is_address_denoting e then
    let denoted : gset Tumbler := list_to_set (start <$> endset_spans e) in
    Done (Addrs (list_to_set (keep_minimal None (ord_elements denoted))))
  else
    extents ← canonical_classes (class_entries (by_level_class (to_spanset e)));
    Done (Extents extents).

(** ** The idempotence identity *)

Record DedupKey := MkDedupKey { dk_ty : CoverageClass; dk_from : CoverageClass; dk_to : CoverageClass }.

#[export] Instance DedupKey_eq_dec : EqDecision DedupKey.
Proof. solve_decision. Defined.

#[export] Program Instance DedupKey_countable : Countable DedupKey :=
  inj_countable' (λ k, (dk_ty k, dk_from k, dk_to k)) (λ p, MkDedupKey p.1.1 p.1.2 p.2) _.
Next Obligation. by intros []. Qed.

Definition DedupKey_of (v : Link) : outcome DedupKey :=
  ty ← coverage_class (type_slot v);
  from ← coverage_class (from_slot v);
  to ← coverage_class (to_slot v);
  Done (MkDedupKey ty from to).

(** [to_bytes_be] is the third-party natural's magnitude. *)
Definition push_tumbler (to_bytes_be : Nat → list N) (t : Tumbler) : list N :=
  len_bytes (Tumbler_len t) ++
  concat ((λ c, len_bytes (length (to_bytes_be c)) ++ to_bytes_be c) <$> comps t).

Definition push_class (to_bytes_be : Nat → list N) (c : CoverageClass) : outcome (list N) :=
  set ← expect_some (denoted c);
  Done (len_bytes (size set) ++ concat (push_tumbler to_bytes_be <$> ord_elements set)).

Definition dedup_lock_key (to_bytes_be : Nat → list N) (k : DedupKey) : outcome LockKey :=
  ty ← push_class to_bytes_be (dk_ty k);
  from ← push_class to_bytes_be (dk_from k);
  to ← push_class to_bytes_be (dk_to k);
  Done (LockKey_new Txns.CoverageClass (ty ++ from ++ to)).

(** ** Lemmas *)

Lemma is_unit_depth_iff s : is_unit_depth s = true ↔ s = subtree_of (start s).
Proof. apply bool_decide_eq_true. Qed.

Lemma unit_depth_contains s t : is_unit_depth s = true → contains s t = is_prefix (start s) t.
Proof. intros E%is_unit_depth_iff. rewrite E at 1. apply subtree_contains. Qed.

Lemma subtree_unit_depth p : is_unit_depth (subtree_of p) = true.
Proof. apply is_unit_depth_iff. by rewrite (proj1 (subtree_of_spec p)). Qed.

Lemma address_denoting_iff e : is_address_denoting e = true ↔ ∀ s, s ∈ endset_spans e → is_unit_depth s = true.
Proof. unfold is_address_denoting. rewrite forallb_forall. by setoid_rewrite list_elem_of_In. Qed.

Lemma level_uniform_iff e : Endset_is_level_uniform e = true ↔ Forall (λ s, is_level_uniform s = true) (endset_spans e).
Proof. unfold Endset_is_level_uniform. rewrite forallb_forall, Forall_forall. by setoid_rewrite list_elem_of_In. Qed.

Lemma denoting_uniform e : is_address_denoting e = true → Endset_is_level_uniform e = true.
Proof.
  rewrite address_denoting_iff, level_uniform_iff, Forall_forall. intros H s Hs.
  rewrite (proj1 (is_unit_depth_iff s) (H s Hs)). apply subtree_of_spec.
Qed.

Lemma Endset_covers_any e t : Endset_covers e t = any (endset_spans e) t.
Proof. done. Qed.

Lemma Endset_addrs_elem e t : t ∈ Endset_addrs e ↔ ∃ s, s ∈ endset_spans e ∧ is_unit_depth s = true ∧ start s = t.
Proof.
  unfold Endset_addrs. rewrite list_elem_of_fmap. setoid_rewrite list_elem_of_In. setoid_rewrite filter_In. naive_solver.
Qed.

Lemma denoting_addrs e t :
  is_address_denoting e = true → t ∈ Endset_addrs e ↔ t ∈ start <$> endset_spans e.
Proof.
  rewrite address_denoting_iff, Endset_addrs_elem, list_elem_of_fmap. naive_solver.
Qed.

Lemma denoting_covers e t :
  is_address_denoting e = true → Endset_covers e t = true ↔ ∃ p, p ∈ Endset_addrs e ∧ is_prefix p t = true.
Proof.
  intros Hd. rewrite Endset_covers_any, any_spec. pose proof (proj1 (address_denoting_iff e) Hd) as Hu.
  setoid_rewrite Endset_addrs_elem. split.
  - intros (s & Hs & Hc). exists (start s). rewrite <- unit_depth_contains by auto. split; [|done]. exists s. auto.
  - intros (p & (s & Hs & Hud & <-) & Hp). exists s. by rewrite unit_depth_contains.
Qed.

Lemma enc_denoting l : is_address_denoting (enc l) = true.
Proof.
  apply address_denoting_iff. intros s (a & -> & _)%list_elem_of_fmap. apply subtree_unit_depth.
Qed.

Lemma enc_addrs l : Endset_addrs (enc l) = tumbler <$> l.
Proof.
  unfold Endset_addrs, enc, from_spans. cbn [endset_spans]. induction l as [|a l IH]; [done|].
  rewrite !fmap_cons. cbn [List.filter]. rewrite subtree_unit_depth, fmap_cons, IH. f_equal. apply subtree_of_spec.
Qed.

(** A prefix's subtree is an interval of the order. *)
Lemma prefix_between p z t : is_prefix p t = true → p ≤ₜ z → z ≤ₜ t → is_prefix p z = true.
Proof.
  rewrite <- !subtree_contains, !contains_spec, (proj1 (subtree_of_spec p)). intros [_ Hr] ? ?. split; torder.
Qed.

Lemma prefix_refl t : is_prefix t t = true.
Proof. apply is_prefix_spec. by exists []; rewrite app_nil_r. Qed.

Lemma prefix_trans p q r : is_prefix p q = true → is_prefix q r = true → is_prefix p r = true.
Proof. rewrite !is_prefix_spec. intros H1 H2. by etransitivity. Qed.

Lemma prefix_antisym p q : is_prefix p q = true → is_prefix q p = true → p = q.
Proof. intros H1%is_prefix_spec%prefix_le H2%is_prefix_spec%prefix_le. torder. Qed.
