(* ===== verification/ClassLaws.v ===== *)
(** * What a coverage class identifies

    The class of an address-denoting endset is its coverage; the class of any other is
    its coverage level by level; and the lock an idempotent emit takes is as fine as the
    identity it locks. *)

From stdpp Require Import gmap sorting.
From S2P Require Import Prelude Txns Tumblers Addresses Arith NsKeys Spans SpanSets ArrReads Endsets OrdSets.

(** ** The minimal antichain *)

Definition minimal_in (l : list Tumbler) (t : Tumbler) : Prop :=
  t ∈ l ∧ ∀ y, y ∈ l → is_prefix y t = true → y = t.

Lemma keep_minimal_subset last l t : t ∈ keep_minimal last l → t ∈ l.
Proof.
  revert last. induction l as [|x l IH]; intros last; [done|]. cbn [keep_minimal].
  destruct (match last with Some y => is_prefix y x | None => false end); [intros ?%IH; by right|].
  intros [->|?%IH]%elem_of_cons; [by left|by right].
Qed.

Lemma keep_minimal_ok seen last l :
  StronglySorted tum_le (seen ++ l) → NoDup (seen ++ l) →
  (∀ t, t ∈ l → (∃ y, y ∈ seen ∧ is_prefix y t = true) ↔
    match last with Some y => is_prefix y t = true | None => False end) →
  ∀ t, t ∈ keep_minimal last l ↔ t ∈ l ∧ ∀ y, y ∈ seen ++ l → is_prefix y t = true → y = t.
Proof.
  revert seen last. induction l as [|x l IH]; intros seen last Hs Hn Hlast t; cbn [keep_minimal].
  { split; [by intros ?%not_elem_of_nil|by intros [?%not_elem_of_nil _]]. }
  pose proof (Hlast x ltac:(by left)) as Hx.
  assert (Hb : (match last with Some y => is_prefix y x | None => false end = true) ↔ ∃ y, y ∈ seen ∧ is_prefix y x = true).
  { rewrite Hx. by destruct last. }
  rewrite (cons_middle x seen l), app_assoc in Hs, Hn.
  assert (Hord : ∀ y u, y ∈ seen ++ [x] → u ∈ l → y ≤ₜ u).
  { intros y u Hy Hu. exact (StronglySorted_app_1_elem_of tum_le _ _ y u Hs Hy Hu). }
  assert (Hsx : ∀ y, y ∈ seen → y ≤ₜ x ∧ y ≠ x).
  { intros y Hy. split.
    - apply (StronglySorted_app_1_elem_of tum_le seen [x]); [|done|by left].
      by apply (StronglySorted_app_1_l tum_le _ l).
    - intros ->. apply NoDup_app in Hn as (Hn & _ & _). apply NoDup_app in Hn as (_ & Hn & _).
      by apply (Hn x Hy), list_elem_of_singleton. }
  assert (Hxl : x ∉ l).
  { apply NoDup_app in Hn as (_ & Hn & _). apply Hn, elem_of_app. right. by apply list_elem_of_singleton. }
  destruct (match last with Some y => is_prefix y x | None => false end) eqn:Eb.
  - destruct (proj1 Hb eq_refl) as (y & Hy & Hyx). rewrite (IH (seen ++ [x]) last Hs Hn).
    + rewrite <- app_assoc. cbn [app]. rewrite elem_of_cons. split; [naive_solver|]. intros [[->|?] Hm]; [|done]. exfalso.
      destruct (Hsx y Hy) as [_ Hne]. apply Hne, Hm; [apply elem_of_app; by left|done].
    + intros u Hu. rewrite <- Hlast by (by right). split.
      * intros (z & [Hz| ->%list_elem_of_singleton]%elem_of_app & Hzu); [by exists z|]. exists y. split; [done|]. by eapply prefix_trans.
      * intros (z & Hz & Hzu). exists z. split; [apply elem_of_app; by left|done].
  - assert (Hno : ∀ y, y ∈ seen → is_prefix y x = true → False) by (intros y Hy Hyx; assert (false = true) by (apply Hb; by exists y); done).
    rewrite elem_of_cons, (IH (seen ++ [x]) (Some x) Hs Hn).
    + rewrite <- app_assoc. cbn [app]. split.
      * intros [->|[? ?]]; [|split; [by right|done]]. split; [by left|]. intros y [Hy|[->|Hy]%elem_of_cons]%elem_of_app Hyx; [|done|].
        -- by destruct (Hno y Hy).
        -- pose proof (Hord x y ltac:(apply elem_of_app; right; by apply list_elem_of_singleton) Hy).
           apply is_prefix_spec, prefix_le in Hyx. torder.
      * intros [[->|?]%elem_of_cons Hm]; [by left|by right].
    + intros u Hu. split.
      * intros (z & [Hz| ->%list_elem_of_singleton]%elem_of_app & Hzu); [|done]. exfalso. apply (Hno z Hz).
        apply (prefix_between z x u Hzu); [by apply Hsx|]. apply Hord; [apply elem_of_app; right; by apply list_elem_of_singleton|done].
      * intros Hxu. exists x. split; [apply elem_of_app; right; by apply list_elem_of_singleton|done].
Qed.

Lemma denoted_minimal l t :
  t ∈ keep_minimal None (ord_elements (list_to_set l)) ↔ minimal_in l t.
Proof.
  rewrite (keep_minimal_ok []).
  - unfold minimal_in. cbn [app]. by setoid_rewrite elem_of_ord_elements; setoid_rewrite elem_of_list_to_set.
  - apply ord_elements_sorted.
  - apply ord_elements_NoDup.
  - intros u _. split; [|done]. by intros (y & ?%not_elem_of_nil & _).
Qed.

(** Below every tumbler of a list lies a minimal one. *)
Lemma minimal_below l t : t ∈ l → ∃ m, minimal_in l m ∧ is_prefix m t = true.
Proof.
  remember (Tumbler_len t) as n eqn:Hn. revert t Hn.
  induction n as [n IH] using lt_wf_ind. intros t -> Ht.
  destruct (decide (Exists (λ y, is_prefix y t = true ∧ y ≠ t) l)) as [H|H].
  - apply Exists_exists in H as (y & Hy & Hp & Hne).
    assert (Hlt : Tumbler_len y < Tumbler_len t).
    { pose proof Hp as [k Hk]%is_prefix_spec. unfold Tumbler_len. rewrite Hk, length_app.
      destruct k; [|cbn; lia]. rewrite app_nil_r in Hk. by destruct Hne; apply Tumbler_eq. }
    destruct (IH _ Hlt y eq_refl Hy) as (m & Hm & Hmy). exists m. split; [done|]. by eapply prefix_trans.
  - exists t. split; [|apply prefix_refl]. split; [done|]. intros y Hy Hp.
    destruct (decide (y = t)) as [|Hne]; [done|]. destruct H. apply Exists_exists. by exists y.
Qed.

Lemma covers_minimal e t :
  is_address_denoting e = true →
  Endset_covers e t = true ↔ ∃ m, minimal_in (Endset_addrs e) m ∧ is_prefix m t = true.
Proof.
  intros Hd. rewrite denoting_covers by done. split.
  - intros (p & Hp & Hpt). destruct (minimal_below _ p Hp) as (m & Hm & Hmp). exists m. split; [done|]. by eapply prefix_trans.
  - intros (m & [Hm _] & Hp). by exists m.
Qed.

Lemma minimal_of_coverage a b :
  is_address_denoting a = true → is_address_denoting b = true →
  (∀ t, Endset_covers a t = Endset_covers b t) →
  ∀ t, minimal_in (Endset_addrs a) t → minimal_in (Endset_addrs b) t.
Proof.
  intros Ha Hb H t [Ht Hm].
  assert (Hback : ∀ y, y ∈ Endset_addrs b → is_prefix y t = true → y = t).
  { intros y Hy Hyt. assert (Hc : Endset_covers a y = true).
    { rewrite H. apply denoting_covers; [done|]. exists y. split; [done|apply prefix_refl]. }
    apply denoting_covers in Hc as (q & Hq & Hqy); [|done].
    assert (q = t) as -> by (apply Hm; [done|by eapply prefix_trans]). by apply prefix_antisym. }
  split; [|done].
  assert (Hc : Endset_covers b t = true).
  { rewrite <- H. apply denoting_covers; [done|]. exists t. split; [done|apply prefix_refl]. }
  apply denoting_covers in Hc as (p & Hp & Hpt); [|done]. by rewrite <- (Hback p Hp Hpt).
Qed.

(** ** The extent classes *)

Lemma canonical_classes_ok l :
  NoDup (fst <$> l) → (∀ k part, (k, part) ∈ l → is_ok (canonical_key part) = true) →
  ∃ m, canonical_classes l = Done m ∧
    ∀ k c, m !! k = Some c ↔ ∃ part, (k, part) ∈ l ∧ canonical_key part = Ok c.
Proof.
  induction l as [|[k part] l IH]; intros Hn Hok.
  { exists ∅. split; [done|]. intros k c. rewrite lookup_empty. split; [done|]. by intros (? & ?%not_elem_of_nil & _). }
  apply NoDup_cons in Hn as [Hk Hn]. destruct IH as (m & Em & Hm); [done|intros; eapply Hok; by right|].
  cbn [canonical_classes]. pose proof (Hok k part ltac:(by left)) as H1. destruct (canonical_key part) as [c0|] eqn:Ec; [|done].
  cbn. rewrite Em. cbn. eexists. split; [done|]. intros j c. destruct (decide (k = j)) as [<-|Hj].
  - rewrite lookup_insert_eq. split.
    + intros [= <-]. exists part. split; [by left|done].
    + intros (p & [Hp|Hp]%elem_of_cons & Hc); [injection Hp as ->; congruence|]. exfalso. apply Hk, list_elem_of_fmap. by exists (k, p).
  - rewrite lookup_insert_ne by done. rewrite Hm. split; intros (p & Hp & Hc); exists p; (split; [|done]); [by right|].
    apply elem_of_cons in Hp as [[= ? _]|Hp]; [congruence|done].
Qed.

Lemma canonical_classes_panics l :
  (∃ k part, (k, part) ∈ l ∧ is_ok (canonical_key part) = false) → canonical_classes l = Panicked.
Proof.
  induction l as [|[k part] l IH]; intros (j & p & Hin & Hp); [by apply not_elem_of_nil in Hin|].
  cbn [canonical_classes]. destruct (canonical_key part) as [c|] eqn:Ec; [|done]. cbn.
  rewrite IH; [done|]. exists j, p. split; [|done]. apply elem_of_cons in Hin as [Heq|]; [|done].
  injection Heq as -> ->. by rewrite Ec in Hp.
Qed.

(** The spans of an endset at one level. *)
Definition at_level (e : Endset) (k : nat) : SpanSet := from_iter (spans_of_len k (endset_spans e)).

Lemma level_entries e k part :
  (k, part) ∈ class_entries (by_level_class (to_spanset e)) ↔ spans (at_level e k) ≠ [] ∧ part = at_level e k.
Proof.
  rewrite elem_of_class_entries, by_level_class_lookup. unfold at_level. cbn [spans to_spanset from_iter].
  destruct (spans_of_len k (endset_spans e)); [naive_solver|]. naive_solver.
Qed.

Lemma level_entries_NoDup e : NoDup (fst <$> class_entries (by_level_class (to_spanset e))).
Proof. unfold class_entries. rewrite merge_sort_Permutation. apply NoDup_fst_map_to_list. Qed.

Lemma at_level_class e k : Endset_is_level_uniform e = true → in_class k (spans (at_level e k)).
Proof.
  rewrite level_uniform_iff. intros H. apply Forall_forall. intros s [Hk Hs]%list_elem_of_filter.
  split; [|done]. by eapply (proj1 (Forall_forall _ _)) in H.
Qed.

Lemma extents_done e :
  Endset_is_level_uniform e = true →
  ∃ m, canonical_classes (class_entries (by_level_class (to_spanset e))) = Done m ∧
    ∀ k c, m !! k = Some c ↔ spans (at_level e k) ≠ [] ∧ canonical_key (at_level e k) = Ok c.
Proof.
  intros Hu. destruct (canonical_classes_ok _ (level_entries_NoDup e)) as (m & Em & Hm).
  { intros k part [_ ->]%level_entries. apply key_ok_in. exists k. by apply at_level_class. }
  exists m. split; [done|]. intros k c. rewrite Hm. setoid_rewrite level_entries. naive_solver.
Qed.

Lemma extents_panic e :
  Endset_is_level_uniform e = false →
  canonical_classes (class_entries (by_level_class (to_spanset e))) = Panicked.
Proof.
  intros Hu. destruct (decide (Exists (λ s, is_level_uniform s = false) (endset_spans e))) as [H|H].
  - apply Exists_exists in H as (s & Hs & Hf). apply canonical_classes_panics.
    set (k := Tumbler_len (start s)). exists k, (at_level e k).
    assert (Hin : s ∈ spans (at_level e k)) by by apply list_elem_of_filter.
    split; [apply level_entries; split; [|done]; intros E; rewrite E in Hin; by apply not_elem_of_nil in Hin|].
    destruct (is_ok _) eqn:E; [|done]. apply key_ok_in in E as [L HL].
    eapply (proj1 (Forall_forall _ _)) in HL as [HL _]; [|exact Hin]. congruence.
  - assert (Ht : Endset_is_level_uniform e = true); [|congruence]. apply level_uniform_iff, Forall_forall. intros s Hs.
    destruct (is_level_uniform s) eqn:E; [done|]. destruct H. apply Exists_exists. by exists s.
Qed.

Lemma at_level_empty_iff a b k :
  (∀ t, denotes (at_level a k) t = denotes (at_level b k) t) → spans (at_level a k) = [] → spans (at_level b k) = [].
Proof.
  intros H Ha. destruct (spans (at_level b k)) as [|s l] eqn:Eb; [done|]. specialize (H (start s)).
  unfold denotes in H. rewrite Ha, Eb in H. cbn in H. by rewrite contains_start in H.
Qed.

Lemma extents_agree a b (ma mb : gmap nat CanonicalForm) :
  Endset_is_level_uniform a = true → Endset_is_level_uniform b = true →
  (∀ k c, ma !! k = Some c ↔ spans (at_level a k) ≠ [] ∧ canonical_key (at_level a k) = Ok c) →
  (∀ k c, mb !! k = Some c ↔ spans (at_level b k) ≠ [] ∧ canonical_key (at_level b k) = Ok c) →
  ma = mb ↔ ∀ k t, denotes (at_level a k) t = denotes (at_level b k) t.
Proof.
  intros Hua Hub Hma Hmb.
  assert (Hkey : ∀ k, same_key (at_level a k) (at_level b k) ↔ ∀ t, denotes (at_level a k) t = denotes (at_level b k) t).
  { intros k. apply (same_key_iff k k); by apply at_level_class. }
  assert (Hok : ∀ e k, Endset_is_level_uniform e = true → ∃ c, canonical_key (at_level e k) = Ok c).
  { intros e k He. pose proof (proj2 (key_ok_in (at_level e k)) (ex_intro _ k (at_level_class e k He))) as H.
    destruct (canonical_key (at_level e k)) as [c|]; [by exists c|done]. }
  split.
  - intros <- k. apply Hkey. destruct (Hok a k Hua) as [ca Eca], (Hok b k Hub) as [cb Ecb]. unfold same_key.
    destruct (ma !! k) as [c|] eqn:Ek.
    + pose proof Ek as Ek'. apply Hma in Ek as [_ ->]. by apply Hmb in Ek' as [_ ->].
    + assert (Hempty : ∀ e c, (ma !! k = Some c ↔ spans (at_level e k) ≠ [] ∧ canonical_key (at_level e k) = Ok c) →
        canonical_key (at_level e k) = Ok c → spans (at_level e k) = []).
      { intros e c Hiff Hc. destruct (spans (at_level e k)) eqn:Es; [done|]. assert (ma !! k = Some c) by (by apply Hiff). congruence. }
      assert (at_level a k = at_level b k) as ->; [|done].
      pose proof (Hempty a ca (Hma k ca) Eca) as H1. pose proof (Hempty b cb (Hmb k cb) Ecb) as H2.
      destruct (at_level a k), (at_level b k). cbn in *. by subst.
  - intros H. apply map_eq. intros k. apply option_eq. intros c. rewrite Hma, Hmb.
    rewrite (proj2 (Hkey k) (H k)). split; intros [Hn ?]; (split; [|done]); intros E; apply Hn;
      eapply at_level_empty_iff; [|done| |done]; intros t; by rewrite H.
Qed.

(** The class of an endset, as an equation. *)
Definition same_class (a b : Endset) : Prop :=
  if is_address_denoting a
  then is_address_denoting b = true ∧ ∀ t, Endset_covers a t = Endset_covers b t
  else is_address_denoting b = false ∧ ∀ k t, denotes (at_level a k) t = denotes (at_level b k) t.

Lemma at_level_covers e t : Endset_covers e t = true ↔ ∃ k, denotes (at_level e k) t = true.
Proof.
  rewrite Endset_covers_any, any_spec. unfold denotes, at_level. cbn [spans from_iter]. split.
  - intros (s & Hs & Hc). exists (Tumbler_len (start s)). apply any_spec. exists s. split; [|done]. by apply list_elem_of_filter.
  - intros (k & (s & [_ Hs]%list_elem_of_filter & Hc)%any_spec). by exists s.
Qed.

Lemma same_class_covers a b : same_class a b → ∀ t, Endset_covers a t = Endset_covers b t.
Proof.
  unfold same_class. destruct (is_address_denoting a); intros [_ H]; [done|].
  intros t. apply eq_bool_prop_intro, iff_trans with (∃ k, denotes (at_level a k) t = true).
  - rewrite Is_true_true. apply at_level_covers.
  - rewrite Is_true_true, at_level_covers. by setoid_rewrite H.
Qed.

Lemma coverage_class_cases e :
  if is_address_denoting e
  then ∃ set, coverage_class e = Done (Addrs set) ∧ ∀ t, t ∈ set ↔ minimal_in (Endset_addrs e) t
  else if Endset_is_level_uniform e
  then ∃ m, coverage_class e = Done (Extents m) ∧
    ∀ k c, m !! k = Some c ↔ spans (at_level e k) ≠ [] ∧ canonical_key (at_level e k) = Ok c
  else coverage_class e = Panicked.
Proof.
  unfold coverage_class. destruct (is_address_denoting e) eqn:Ed.
  - eexists. split; [done|]. intros t. rewrite elem_of_list_to_set, denoted_minimal.
    unfold minimal_in. by setoid_rewrite denoting_addrs.
  - destruct (Endset_is_level_uniform e) eqn:Eu.
    + destruct (extents_done e Eu) as (m & -> & Hm). by exists m.
    + by rewrite (extents_panic e Eu).
Qed.

Lemma class_agree a b x y :
  coverage_class a = Done x → coverage_class b = Done y → x = y ↔ same_class a b.
Proof.
  intros Ea Eb. pose proof (coverage_class_cases a) as Ha. pose proof (coverage_class_cases b) as Hb. unfold same_class.
  destruct (is_address_denoting a) eqn:Da, (is_address_denoting b) eqn:Db.
  - destruct Ha as (sa & E1 & Ha), Hb as (sb & E2 & Hb). rewrite Ea in E1. rewrite Eb in E2. injection E1 as ->. injection E2 as ->.
    split.
    + intros [= ->]. split; [done|]. intros t. apply eq_bool_prop_intro. rewrite !Is_true_true, !covers_minimal by done.
      by setoid_rewrite <- Ha; setoid_rewrite <- Hb.
    + intros [_ H]. f_equal. apply set_eq. intros t. rewrite Ha, Hb. split; by apply minimal_of_coverage.
  - destruct Ha as (sa & E1 & _). rewrite Ea in E1. injection E1 as ->. split; [|by intros []]. intros <-. exfalso.
    destruct (Endset_is_level_uniform b); [destruct Hb as (m & E2 & _)|]; congruence.
  - destruct Hb as (sb & E1 & _). rewrite Eb in E1. injection E1 as ->. split; [|by intros []]. intros ->. exfalso.
    destruct (Endset_is_level_uniform a); [destruct Ha as (m & E2 & _)|]; congruence.
  - destruct (Endset_is_level_uniform a) eqn:Ua; [|congruence]. destruct (Endset_is_level_uniform b) eqn:Ub; [|congruence].
    destruct Ha as (ma & E1 & Ha), Hb as (mb & E2 & Hb). rewrite Ea in E1. rewrite Eb in E2. injection E1 as ->. injection E2 as ->.
    rewrite <- (extents_agree a b ma mb Ua Ub Ha Hb). naive_solver.
Qed.

(** C27. The identity of an endset. [coverage_class] answers on every
    level-uniform endset and panics on no other. The class of an address-denoting
    endset is its minimal antichain: what it denotes with no other of it a prefix.
    Two classes agree exactly when the endsets are of one kind and cover the same
    tumblers, level by level when they are extents; so one class is one coverage. *)
Theorem class_exact (a b : Endset) :
  is_done (coverage_class a) = Endset_is_level_uniform a ∧
  match coverage_class a, coverage_class b with
  | Done x, Done y =>
      (x = y ↔ same_class a b) ∧
      (x = y → ∀ t, Endset_covers a t = Endset_covers b t) ∧
      match denoted x with
      | Some set => is_address_denoting a = true ∧ ∀ t, t ∈ set ↔ minimal_in (Endset_addrs a) t
      | None => is_address_denoting a = false
      end
  | _, _ => Endset_is_level_uniform a && Endset_is_level_uniform b = false
  end.
Proof.
  pose proof (coverage_class_cases a) as Ha. pose proof (coverage_class_cases b) as Hb.
  assert (Hdone : ∀ e, is_done (coverage_class e) = Endset_is_level_uniform e).
  { intros e. pose proof (coverage_class_cases e) as He. destruct (is_address_denoting e) eqn:Ed.
    - destruct He as (? & -> & _). by rewrite denoting_uniform.
    - destruct (Endset_is_level_uniform e); [by destruct He as (? & -> & _)|by rewrite He]. }
  split; [done|]. pose proof (class_agree a b) as Hab. rewrite <- !Hdone.
  destruct (coverage_class a) as [x|] eqn:Ea, (coverage_class b) as [y|] eqn:Eb; try done.
  specialize (Hab x y eq_refl eq_refl). split_and!; [done| |].
  - intros H%Hab. by apply same_class_covers.
  - destruct (is_address_denoting a).
    + destruct Ha as (set & [= ->] & Ha). cbn. done.
    + destruct (Endset_is_level_uniform a); [|done]. by destruct Ha as (m & [= ->] & _).
Qed.


(** ** The lock of an identity *)

Lemma DedupKey_of_agree v w k j :
  DedupKey_of v = Done k → DedupKey_of w = Done j →
  k = j ↔ same_class (type_slot v) (type_slot w) ∧ same_class (from_slot v) (from_slot w) ∧
    same_class (to_slot v) (to_slot w).
Proof.
  unfold DedupKey_of.
  destruct (coverage_class (type_slot v)) as [t1|] eqn:T1, (coverage_class (from_slot v)) as [f1|] eqn:F1,
    (coverage_class (to_slot v)) as [g1|] eqn:G1; try done.
  destruct (coverage_class (type_slot w)) as [t2|] eqn:T2, (coverage_class (from_slot w)) as [f2|] eqn:F2,
    (coverage_class (to_slot w)) as [g2|] eqn:G2; try done.
  cbn. intros [= <-] [= <-]. rewrite <- (class_agree _ _ _ _ T1 T2), <- (class_agree _ _ _ _ F1 F2), <- (class_agree _ _ _ _ G1 G2).
  split; [by intros [= -> -> ->]|by intros (-> & -> & ->)].
Qed.

Lemma Done_inj {A} (x y : A) : Done x = Done y → x = y.
Proof. congruence. Qed.

Section Locks.
Context (to_bytes_be : Nat → list N) (to_bytes_inj : ∀ m n, to_bytes_be m = to_bytes_be n → m = n).

(** Every length the key writes is one a 64-bit count carries. *)
Definition tumbler_lockable (t : Tumbler) : Prop :=
  usize_len (Tumbler_len t) ∧ Forall (λ c, usize_len (length (to_bytes_be c))) (comps t).

Definition class_lockable (c : CoverageClass) : Prop :=
  match c with
  | Addrs set => usize_len (size set) ∧ ∀ t, t ∈ set → tumbler_lockable t
  | Extents _ => False
  end.

Definition dedup_lockable (k : DedupKey) : Prop :=
  class_lockable (dk_ty k) ∧ class_lockable (dk_from k) ∧ class_lockable (dk_to k).

Lemma push_tumbler_inj t u r1 r2 :
  tumbler_lockable t → tumbler_lockable u →
  push_tumbler to_bytes_be t ++ r1 = push_tumbler to_bytes_be u ++ r2 → t = u ∧ r1 = r2.
Proof using to_bytes_inj.
  intros [Hl1 Hc1] [Hl2 Hc2] E. unfold push_tumbler in E. rewrite <- !app_assoc in E.
  apply app_inj_1 in E as [E1 E2]; [|by rewrite !len_bytes_length].
  apply len_bytes_inj in E1; [|done..]. apply comp_bytes_inj in E2 as [E2 ->]; [|done..]. by apply Tumbler_eq in E2.
Qed.

Lemma push_tumblers_inj l k r1 r2 :
  length l = length k → Forall tumbler_lockable l → Forall tumbler_lockable k →
  concat (push_tumbler to_bytes_be <$> l) ++ r1 = concat (push_tumbler to_bytes_be <$> k) ++ r2 → l = k ∧ r1 = r2.
Proof using to_bytes_inj.
  revert k. induction l as [|t l IH]; intros [|u k] Hlen Hl Hk E; try done.
  apply Forall_cons in Hl as [Ht Hl], Hk as [Hu Hk]. cbn [fmap list_fmap concat] in E. rewrite <- !app_assoc in E.
  apply push_tumbler_inj in E as [-> E]; [|done..]. destruct (IH k) as [-> ->]; [cbn in Hlen; lia|done..].
Qed.

Lemma ord_elements_length s : length (ord_elements s) = size s.
Proof. unfold ord_elements. by rewrite (Permutation_length (merge_sort_Permutation tum_le _)). Qed.

Lemma ord_elements_inj s1 s2 : ord_elements s1 = ord_elements s2 → s1 = s2.
Proof. intros E. apply set_eq. intros t. by rewrite <- !elem_of_ord_elements, E. Qed.

Lemma push_class_addrs set :
  push_class to_bytes_be (Addrs set) =
  Done (len_bytes (size set) ++ concat (push_tumbler to_bytes_be <$> ord_elements set)).
Proof. reflexivity. Qed.

Lemma push_class_done c : class_lockable c → ∃ b, push_class to_bytes_be c = Done b.
Proof. destruct c; [|done]. by eexists. Qed.

Lemma push_class_inj c d b1 b2 r1 r2 :
  class_lockable c → class_lockable d →
  push_class to_bytes_be c = Done b1 → push_class to_bytes_be d = Done b2 →
  b1 ++ r1 = b2 ++ r2 → c = d ∧ r1 = r2.
Proof using to_bytes_inj.
  destruct c as [s1|], d as [s2|]; try done. intros [Hs1 Ht1] [Hs2 Ht2]. rewrite !push_class_addrs.
  intros <-%Done_inj <-%Done_inj E. rewrite <- !app_assoc in E.
  apply app_inj_1 in E as [E1 E2]; [|by rewrite !len_bytes_length]. apply len_bytes_inj in E1; [|done..].
  apply push_tumblers_inj in E2 as [E2 ->].
  - by apply ord_elements_inj in E2 as ->.
  - by rewrite !ord_elements_length.
  - apply Forall_forall. intros t Ht%elem_of_ord_elements. auto.
  - apply Forall_forall. intros t Ht%elem_of_ord_elements. auto.
Qed.

Lemma dedup_lock_key_done k : dedup_lockable k → ∃ l, dedup_lock_key to_bytes_be k = Done l.
Proof using.
  intros (Ht & Hf & Hg). unfold dedup_lock_key. destruct (push_class_done _ Ht) as [? ->],
    (push_class_done _ Hf) as [? ->], (push_class_done _ Hg) as [? ->]. by eexists.
Qed.

Lemma dedup_lock_key_inj k j l :
  dedup_lockable k → dedup_lockable j →
  dedup_lock_key to_bytes_be k = Done l → dedup_lock_key to_bytes_be j = Done l → k = j.
Proof using to_bytes_inj.
  intros (Ht & Hf & Hg) (Ht' & Hf' & Hg'). unfold dedup_lock_key.
  destruct (push_class_done _ Ht) as [a Ea], (push_class_done _ Hf) as [b Eb], (push_class_done _ Hg) as [c Ec],
    (push_class_done _ Ht') as [a' Ea'], (push_class_done _ Hf') as [b' Eb'], (push_class_done _ Hg') as [c' Ec'].
  rewrite Ea, Eb, Ec, Ea', Eb', Ec'. cbn. intros [= <-] [= E].
  apply (push_class_inj _ _ _ _ _ _ Ht' Ht Ea' Ea) in E as [E1 E].
  apply (push_class_inj _ _ _ _ _ _ Hf' Hf Eb' Eb) in E as [E2 E].
  rewrite <- (app_nil_r c), <- (app_nil_r c') in E.
  apply (push_class_inj _ _ _ _ _ _ Hg' Hg Ec' Ec) in E as [E3 _]. destruct k, j. cbn in *. congruence.
Qed.
End Locks.

(** The section an idempotent emit takes is as fine as the identity it
    locks: over any injective rendering of a natural's magnitude, two links whose
    three classes denote addresses both have a key, and they take one lock exactly
    when their type, from and to slots cover the same tumblers; that lock is of no
    other space. *)
Theorem dedup_lock_exact (to_bytes_be : Nat → list N) (v w : Link) (k j : DedupKey) (s : Space) (b : list N) :
  (∀ m n, to_bytes_be m = to_bytes_be n → m = n) →
  DedupKey_of v = Done k → DedupKey_of w = Done j →
  dedup_lockable to_bytes_be k → dedup_lockable to_bytes_be j →
  ∃ l l', dedup_lock_key to_bytes_be k = Done l ∧ dedup_lock_key to_bytes_be j = Done l' ∧
    (l = l' ↔ same_class (type_slot v) (type_slot w) ∧ same_class (from_slot v) (from_slot w) ∧
      same_class (to_slot v) (to_slot w)) ∧
    (l = LockKey_new s b → s = Txns.CoverageClass).
Proof.
  intros Hinj Hv Hw Hk Hj. destruct (dedup_lock_key_done _ k Hk) as [l El], (dedup_lock_key_done _ j Hj) as [l' El'].
  exists l, l'. split_and!; [done..| |].
  - rewrite <- (DedupKey_of_agree v w k j Hv Hw). split.
    + intros <-. by apply (dedup_lock_key_inj to_bytes_be Hinj k j l).
    + intros <-. congruence.
  - intros ->. revert El. unfold dedup_lock_key. intros (? & _ & (? & _ & (? & _ & E%Done_inj)%bind_inv)%bind_inv)%bind_inv.
    by apply LockKey_new_inj in E as [<- _].
Qed.
