(* ===== verification/TypeRegistry.v ===== *)
(** * The type registry

    Models [crates/skep-links/src/registry.rs] (M7): a type's shape, idempotence and
    behaviours, the five reserved type addresses, and the one immutable table from a
    coverage class to its registration, built from those constants alone. *)

From stdpp Require Import gmap.
From S2P Require Import Prelude Tumblers Addresses Arith NsKeys NsState Spans SpanSets Endsets OrdSets.

(** ** Registrations *)

Inductive Shape := Unary | Binary | Multi.

#[export] Instance Shape_eq_dec : EqDecision Shape.
Proof. solve_decision. Defined.

(** A first span, and every other equal to it. *)
Definition holds_one_span (e : Endset) : bool :=
  match endset_spans e with
  | [] => false
  | first :: rest => forallb (λ s, bool_decide (s = first)) rest
  end.

Definition sh_conf (shape : Shape) (value : Link) : bool :=
  holds_one_span (from_slot value) &&
  match shape with
  | Unary => Endset_is_empty (to_slot value)
  | Binary => holds_one_span (to_slot value)
  | Multi => true
  end.

Inductive Behavior := ReadFilter | Walk | ReverseLookup | Age.

#[export] Instance Behavior_eq_dec : EqDecision Behavior.
Proof. solve_decision. Defined.

Definition Behavior_index (b : Behavior) : nat :=
  match b with ReadFilter => 0 | Walk => 1 | ReverseLookup => 2 | Age => 3 end.

#[export] Program Instance Behavior_countable : Countable Behavior :=
  inj_countable Behavior_index (λ n, [ReadFilter; Walk; ReverseLookup; Age] !! n) _.
Next Obligation. by intros []. Qed.

Record Registration := MkRegistration { shape : Shape; idem : bool; behaviors : gset Behavior }.

(** ** The reserved addresses *)

Record ReservedAddrs := MkReservedAddrs {
  ra_pred_def : Address;
  ra_pred_stable : Address;
  ra_retired : Address;
  ra_supersedes : Address;
  ra_retraction : Address
}.

Definition ReservedAddrs_format : outcome ReservedAddrs :=
  pred_def ← ghost_position_at 1;
  pred_stable ← ghost_position_at 2;
  retired ← ghost_position_at 3;
  supersedes ← ghost_position_at 4;
  retraction ← ghost_position_at 5;
  Done (MkReservedAddrs pred_def pred_stable retired supersedes retraction).

Inductive ShippedType := Retired | Supersedes | Retraction | PredDef | PredStable.

#[export] Instance ShippedType_eq_dec : EqDecision ShippedType.
Proof. solve_decision. Defined.

Definition ShippedType_ALL : list ShippedType := [Retired; Supersedes; Retraction; PredDef; PredStable].

Record Shipped := MkShipped { sh_endset : Endset; sh_class : CoverageClass }.

Definition Shipped_of (addr : Address) : outcome Shipped :=
  _ ← assert (bool_decide (level addr = Element));
  _ ← assert (bool_decide (subspace addr = Some content_subspace));
  let endset := enc [addr] in
  class ← coverage_class endset;
  Done (MkShipped endset class).

(** ** The registry *)

Record TypeRegistry := MkTypeRegistry {
  registrations : gmap CoverageClass Registration;
  tr_retired : Shipped;
  tr_supersedes : Shipped;
  tr_retraction : Shipped;
  tr_pred_def : Shipped;
  tr_pred_stable : Shipped
}.

Definition unary_top (bs : gset Behavior) : Registration := MkRegistration Unary true bs.

(** The table's loop: each class asserted new, then bound. *)
Fixpoint seed_registrations (table : list (Shipped * Registration)) (acc : gmap CoverageClass Registration) :
    outcome (gmap CoverageClass Registration) :=
  match table with
  | [] => Done acc
  | (shipped, reg) :: table =>
      _ ← assert (negb (bool_decide (is_Some (acc !! sh_class shipped))));
      seed_registrations table (<[sh_class shipped := reg]> acc)
  end.

Definition TypeRegistry_build : outcome TypeRegistry :=
  reserved ← ReservedAddrs_format;
  retired ← Shipped_of (ra_retired reserved);
  supersedes ← Shipped_of (ra_supersedes reserved);
  retraction ← Shipped_of (ra_retraction reserved);
  pred_def ← Shipped_of (ra_pred_def reserved);
  pred_stable ← Shipped_of (ra_pred_stable reserved);
  registrations ← seed_registrations
    [(retired, unary_top {[ReadFilter]});
     (supersedes, MkRegistration Binary true {[Walk]});
     (retraction, MkRegistration Binary true ∅);
     (pred_def, unary_top ∅);
     (pred_stable, unary_top ∅)] ∅;
  Done (MkTypeRegistry registrations retired supersedes retraction pred_def pred_stable).

(** The five ghost positions, by ordinal. *)
Definition ghost (ordinal : N) (H : is_done (ghost_position_at ordinal) = true) : Address :=
  total (ghost_position_at ordinal) H.

Definition ghost_shipped (g : Address) : Shipped := MkShipped (enc [g]) (Addrs {[tumbler g]}).

(** [REGISTRY], built once: the value of [TypeRegistry_build], as [registry_is_built]
    shows. *)
Definition registry : TypeRegistry :=
  let retired := ghost_shipped (ghost 3 eq_refl) in
  let supersedes := ghost_shipped (ghost 4 eq_refl) in
  let retraction := ghost_shipped (ghost 5 eq_refl) in
  let pred_def := ghost_shipped (ghost 1 eq_refl) in
  let pred_stable := ghost_shipped (ghost 2 eq_refl) in
  MkTypeRegistry
    (<[sh_class pred_stable := unary_top ∅]>
     (<[sh_class pred_def := unary_top ∅]>
      (<[sh_class retraction := MkRegistration Binary true ∅]>
       (<[sh_class supersedes := MkRegistration Binary true {[Walk]}]>
        (<[sh_class retired := unary_top {[ReadFilter]}]> ∅)))))
    retired supersedes retraction pred_def pred_stable.

Definition registration (r : TypeRegistry) (class : CoverageClass) : option Registration :=
  registrations r !! class.

Definition declares (r : TypeRegistry) (class : CoverageClass) (behavior : Behavior) : bool :=
  match registration r class with
  | Some reg => bool_decide (behavior ∈ behaviors reg)
  | None => false
  end.

Definition is_idempotent (r : TypeRegistry) (class : CoverageClass) : bool :=
  match registration r class with Some reg => idem reg | None => false end.

(** In the order of a hash map, which is no order. *)
Definition reverse_lookup_classes (r : TypeRegistry) : list CoverageClass :=
  fst <$> List.filter (λ p, bool_decide (shape p.2 = Binary) && bool_decide (ReverseLookup ∈ behaviors p.2))
    (map_to_list (registrations r)).

Definition shipped (r : TypeRegistry) (ty : ShippedType) : Shipped :=
  match ty with
  | Retired => tr_retired r
  | Supersedes => tr_supersedes r
  | Retraction => tr_retraction r
  | PredDef => tr_pred_def r
  | PredStable => tr_pred_stable r
  end.

Definition reserved_type (r : TypeRegistry) (ty : ShippedType) : Endset := sh_endset (shipped r ty).
Definition shipped_class (r : TypeRegistry) (ty : ShippedType) : CoverageClass := sh_class (shipped r ty).

(** ** What the build establishes *)

Lemma holds_one_span_iff e : holds_one_span e = true ↔ ∃ s, ∀ x, x ∈ endset_spans e ↔ x = s.
Proof.
  unfold holds_one_span. destruct (endset_spans e) as [|first rest].
  - split; [done|]. intros [s H]. pose proof (proj2 (H s) eq_refl) as Hs. by apply not_elem_of_nil in Hs.
  - rewrite forallb_forall. setoid_rewrite <- list_elem_of_In. setoid_rewrite bool_decide_eq_true. split.
    + intros H. exists first. intros x. rewrite elem_of_cons. naive_solver.
    + intros [s H] x Hx. assert (first = s) as -> by (apply H; by left). apply H. by right.
Qed.

Lemma seed_registrations_inv table acc m :
  seed_registrations table acc = Done m →
  NoDup (sh_class ∘ fst <$> table) ∧ (∀ p, p ∈ table → acc !! sh_class p.1 = None) ∧
  ∀ c reg, m !! c = Some reg ↔ acc !! c = Some reg ∨ ∃ p, p ∈ table ∧ sh_class p.1 = c ∧ p.2 = reg.
Proof.
  revert acc. induction table as [|[sp reg] table IH]; intros acc; cbn [seed_registrations].
  { intros [= <-]. split_and!; [constructor|by intros p ?%not_elem_of_nil|]. intros c reg. split; [by left|].
    intros [?|(p & ?%not_elem_of_nil & _)]; done. }
  destruct (bool_decide _) eqn:Hb; cbn; [done|]. apply bool_decide_eq_false, eq_None_not_Some in Hb.
  intros E. destruct (IH _ E) as (Hn & Hf & Hm). split_and!.
  - apply NoDup_cons. split; [|done]. intros (p & Hp & Hin)%list_elem_of_fmap. specialize (Hf p Hin). cbn in Hp.
    rewrite <- Hp, lookup_insert_eq in Hf. done.
  - intros p [->|Hp]%elem_of_cons; [done|]. specialize (Hf p Hp).
    apply lookup_insert_None in Hf. by destruct Hf.
  - intros c r. rewrite Hm. destruct (decide (sh_class sp = c)) as [<-|Hne].
    + rewrite lookup_insert_eq. split.
      * intros [[= <-]|(p & Hp & Hc & <-)]; right; [exists (sp, reg); split_and!; [by left|done..]|exists p; split_and!; [by right|done..]].
      * rewrite Hb. intros [?|(p & [->|Hp]%elem_of_cons & Hc & <-)]; [done|by left|]. right. by exists p.
    + rewrite lookup_insert_ne by done. split.
      * intros [?|(p & Hp & Hc & <-)]; [by left|]. right. exists p. split_and!; [by right|done..].
      * intros [?|(p & [->|Hp]%elem_of_cons & Hc & <-)]; [by left|by destruct Hne|]. right. by exists p.
Qed.

(** Each shipped type's registration, as the notes pin it. *)
Definition shipped_registration (ty : ShippedType) : Registration :=
  match ty with
  | Retired => unary_top {[ReadFilter]}
  | Supersedes => MkRegistration Binary true {[Walk]}
  | Retraction => MkRegistration Binary true ∅
  | PredDef | PredStable => unary_top ∅
  end.

(** Each shipped type's ghost position. *)
Definition shipped_ordinal (ty : ShippedType) : N :=
  match ty with PredDef => 1 | PredStable => 2 | Retired => 3 | Supersedes => 4 | Retraction => 5 end%N.

Lemma Shipped_of_inv addr sp :
  Shipped_of addr = Done sp → sh_endset sp = enc [addr] ∧ coverage_class (sh_endset sp) = Done (sh_class sp).
Proof.
  unfold Shipped_of. intros (? & _ & (? & _ & (c & Hc & [= <-])%bind_inv)%bind_inv)%bind_inv. done.
Qed.

Lemma coverage_class_one a : coverage_class (enc [a]) = Done (Addrs {[tumbler a]}).
Proof.
  unfold coverage_class. rewrite enc_denoting. do 2 f_equal. apply set_eq. intros t.
  assert (E : ord_elements (list_to_set (start <$> endset_spans (enc [a]))) = [tumbler a]).
  { change (start <$> endset_spans (enc [a])) with [start (subtree_of (tumbler a))]. rewrite (proj1 (subtree_of_spec (tumbler a))).
    apply ord_elements_of; [apply NoDup_singleton|by repeat constructor]. }
  rewrite E. cbn. set_solver.
Qed.

Lemma Shipped_of_ghost g :
  level g = Element → subspace g = Some content_subspace → Shipped_of g = Done (ghost_shipped g).
Proof.
  intros Hl Hs. unfold Shipped_of, assert. rewrite !bool_decide_eq_true_2 by done. cbn [mbind outcome_bind].
  by rewrite coverage_class_one.
Qed.

Lemma ghost_done n H : ghost_position_at n = Done (ghost n H).
Proof. apply total_spec. Qed.

Lemma seed_registrations_value table acc m :
  seed_registrations table acc = Done m → m = foldl (λ acc p, <[sh_class p.1 := p.2]> acc) acc table.
Proof.
  revert acc. induction table as [|[sp reg] table IH]; intros acc; cbn [seed_registrations foldl]; [by intros [= <-]|].
  destruct (negb _); cbn; [apply IH|done].
Qed.

Lemma registry_is_built : TypeRegistry_build = Done registry.
Proof.
  unfold TypeRegistry_build, ReservedAddrs_format.
  rewrite (ghost_done 1 eq_refl), (ghost_done 2 eq_refl), (ghost_done 3 eq_refl), (ghost_done 4 eq_refl), (ghost_done 5 eq_refl).
  cbn [mbind outcome_bind ra_retired ra_supersedes ra_retraction ra_pred_def ra_pred_stable].
  rewrite !Shipped_of_ghost by (vm_compute; reflexivity). cbn [mbind outcome_bind].
  set (table := [_; _; _; _; _] : list (Shipped * Registration)).
  destruct (seed_registrations table ∅) as [m|] eqn:E.
  - apply seed_registrations_value in E as ->. reflexivity.
  - exfalso. assert (Hd : is_done (seed_registrations table ∅) = true) by (vm_compute; reflexivity). rewrite E in Hd. discriminate Hd.
Qed.

Lemma registry_built :
  NoDup (shipped_class registry <$> ShippedType_ALL) ∧
  (∀ ty, ∃ g, ghost_position_at (shipped_ordinal ty) = Done g ∧ reserved_type registry ty = enc [g] ∧
    coverage_class (reserved_type registry ty) = Done (shipped_class registry ty)) ∧
  (∀ c reg, registration registry c = Some reg ↔
    ∃ ty, shipped_class registry ty = c ∧ shipped_registration ty = reg).
Proof.
  pose proof registry_is_built as E. revert E. generalize registry. intros r E.
  unfold TypeRegistry_build in E.
  apply bind_inv in E as (ra & Era & E). unfold ReservedAddrs_format in Era.
  apply bind_inv in Era as (g1 & E1 & Era). apply bind_inv in Era as (g2 & E2 & Era).
  apply bind_inv in Era as (g3 & E3 & Era). apply bind_inv in Era as (g4 & E4 & Era).
  apply bind_inv in Era as (g5 & E5 & Era). injection Era as <-. cbn [ra_retired ra_supersedes ra_retraction ra_pred_def ra_pred_stable] in E.
  apply bind_inv in E as (s3 & S3 & E). apply bind_inv in E as (s4 & S4 & E). apply bind_inv in E as (s5 & S5 & E).
  apply bind_inv in E as (s1 & S1 & E). apply bind_inv in E as (s2 & S2 & E). apply bind_inv in E as (m & Em & E).
  injection E as <-. apply seed_registrations_inv in Em as (Hn & _ & Hm). split_and!.
  - exact Hn.
  - intros []; cbn [shipped_ordinal]; eexists; (split; [eassumption|]); unfold reserved_type, shipped_class; cbn [shipped tr_retired tr_supersedes tr_retraction tr_pred_def tr_pred_stable];
      by apply Shipped_of_inv.
  - intros c reg. unfold registration. cbn [registrations]. rewrite Hm, lookup_empty. split.
    + intros [?|(p & Hp & Hc & Hr)]; [done|]. repeat (apply elem_of_cons in Hp as [->|Hp]); try by apply not_elem_of_nil in Hp.
      * by exists Retired. * by exists Supersedes. * by exists Retraction. * by exists PredDef. * by exists PredStable.
    + intros (ty & <- & <-). right. exists (match ty with Retired => s3 | Supersedes => s4 | Retraction => s5 | PredDef => s1 | PredStable => s2 end,
        shipped_registration ty). split; [rewrite !elem_of_cons; destruct ty; cbn; tauto|]. split; [by destruct ty|done].
Qed.

Definition shipped_index (ty : ShippedType) : nat :=
  match ty with Retired => 0 | Supersedes => 1 | Retraction => 2 | PredDef => 3 | PredStable => 4 end.

Lemma shipped_class_inj t u : shipped_class registry t = shipped_class registry u → t = u.
Proof.
  intros E. assert (Hi : ∀ ty, (shipped_class registry <$> ShippedType_ALL) !! shipped_index ty = Some (shipped_class registry ty)).
  { intros ty. rewrite list_lookup_fmap. by destruct ty. }
  assert (shipped_index t = shipped_index u); [|by destruct t, u].
  eapply NoDup_lookup; [apply registry_built|apply Hi|]. rewrite E. apply Hi.
Qed.

Lemma registration_shipped ty : registration registry (shipped_class registry ty) = Some (shipped_registration ty).
Proof. destruct registry_built as (_ & _ & H). apply H. by exists ty. Qed.

Lemma reverse_lookup_none r : (∀ c, declares r c ReverseLookup = false) → reverse_lookup_classes r = [].
Proof.
  intros Hno. unfold reverse_lookup_classes. set (l := map_to_list (registrations r)).
  assert (Hl : ∀ c reg, (c, reg) ∈ l → registration r c = Some reg) by (intros c reg; apply elem_of_map_to_list).
  clearbody l. induction l as [|[c reg] l IH]; [done|]. cbn [List.filter].
  assert (bool_decide (ReverseLookup ∈ behaviors reg) = false) as Hf.
  { pose proof (Hno c) as Hc. unfold declares in Hc. by rewrite (Hl c reg ltac:(by left)) in Hc. }
  cbn [snd]. rewrite Hf, andb_false_r. apply IH. intros c' reg' Hin. apply Hl. by right.
Qed.

(** The registry the build establishes. Its assertions hold of the format's
    constants: the five shipped types are the five ghost positions, their classes are
    pairwise distinct, and the class of each is the class of the endset a caller names
    it by. A class is registered exactly when it is one of the five, with the pinned
    shape and behaviours; so a class is idempotent exactly when it is registered, only
    the filter class declares the read filter and only the supersession class the
    walk, and the reverse-lookup join covers no class. *)
Theorem registry_exact :
  TypeRegistry_build = Done registry ∧
  NoDup (shipped_class registry <$> ShippedType_ALL) ∧
  (∀ ty, ∃ g, ghost_position_at (shipped_ordinal ty) = Done g ∧
    Endset_addrs (reserved_type registry ty) = [tumbler g] ∧
    coverage_class (reserved_type registry ty) = Done (shipped_class registry ty)) ∧
  (∀ c, match registration registry c with
    | Some reg => is_idempotent registry c = true ∧
        ∃ ty, c = shipped_class registry ty ∧ reg = shipped_registration ty
    | None => is_idempotent registry c = false ∧ ∀ ty, c ≠ shipped_class registry ty
    end) ∧
  (∀ c b, declares registry c b = true ↔
    c = shipped_class registry Retired ∧ b = ReadFilter ∨ c = shipped_class registry Supersedes ∧ b = Walk) ∧
  reverse_lookup_classes registry = [].
Proof.
  pose proof registry_built as (Hn & Hg & Hr).
  assert (Hb : ∀ c b, declares registry c b = true ↔
    c = shipped_class registry Retired ∧ b = ReadFilter ∨ c = shipped_class registry Supersedes ∧ b = Walk).
  { intros c b. unfold declares. destruct (registration registry c) as [reg|] eqn:E.
    - apply Hr in E as (ty & <- & <-). rewrite bool_decide_eq_true. split.
      + destruct ty; cbn; rewrite ?elem_of_singleton, ?elem_of_empty; [by left|by right|done..].
      + intros [[->%shipped_class_inj ->]|[->%shipped_class_inj ->]]; cbn; by apply elem_of_singleton.
    - split; [done|]. intros [[-> _]|[-> _]]; by rewrite registration_shipped in E. }
  split_and!; [apply registry_is_built|done| | |done|].
  - intros ty. destruct (Hg ty) as (g & E & -> & Hc). exists g. split_and!; [done|by rewrite enc_addrs|done].
  - intros c. unfold is_idempotent. destruct (registration registry c) as [reg|] eqn:E.
    + apply Hr in E as (ty & <- & <-). split; [by destruct ty|by exists ty].
    + split; [done|]. intros ty ->. by rewrite registration_shipped in E.
  - apply reverse_lookup_none. intros c. destruct (declares registry c ReverseLookup) eqn:Hd; [|done].
    destruct (proj1 (Hb c ReverseLookup) Hd) as [[_ Hx]|[_ Hx]]; discriminate Hx.
Qed.
