(* ===== verification/Spanfilade.v ===== *)
(** * The spanfilade: a slot's coverage index

    Models the index of [crates/skep-links/src/state/spanfilade.rs] (M7): every span of
    every slot filed under its link and the link's home, a sibling run by its start and
    at one node of its coordinates' binary partition, any other span as residue; and
    the stab of one home, which answers which links' spans overlap a query from those
    sets alone. *)

From stdpp Require Import gmap sorting.
From S2P Require Import Prelude Tumblers Addresses Arith Spans SpanSets OrdSets Endsets.

Definition overlaps (a b : Span) : bool :=
  match classify_spans a b with
  | ProperOverlap | Containment | Equal => true
  | Separated | Adjacent => false
  end.

(** An [Arc] is the value it shares. *)
Definition Home : Type := Tumbler.
Definition Axis : Type := list Nat.

(** [(home, axis, level, coordinate, link)], the level a bit count. *)
Definition Filing : Type := Home * Axis * N * Nat * Tumbler.

Definition BLOCK_BITS : N := 6%N.

Definition below_every_link : Tumbler := total (from_vec [0%N]) eq_refl.

(** The match [[.., separator, subspace]]: the last two components of the axis. *)
Definition block_of (axis : Axis) (c : Nat) : Nat :=
  match rev axis with
  | subspace :: separator :: _ =>
      if (N.size separator =? 0)%N && (subspace =? content_subspace)%N then N.shiftr c BLOCK_BITS else c
  | _ => c
  end.

(** ** Sibling runs *)

Record SiblingRun := MkSiblingRun { sr_axis : Axis; sr_first : Nat; sr_end : Nat }.

Definition SiblingRun_of_at (span : Span) : outcome (option SiblingRun) :=
  let start := comps (start span) in
  let width := comps (width span) in
  if negb (length start =? length width) then Done None
  else
    step ← expect_some (last width);
    if existsb (λ w, negb (N.size w =? 0)%N) (removelast width) then Done None
    else
      first ← expect_some (last start);
      Done (Some (MkSiblingRun (removelast start) first (first + step)%N)).

(** ** One slot position's index *)

Record SlotIndex := MkSlotIndex {
  starts : gset (Home * Tumbler * Tumbler);
  axes : gset Axis;
  levels : gset (Axis * N);
  by_first : gset Filing;
  by_end : gset Filing;
  residue : gmap (Home * Tumbler * nat) Span;
  starting_homes : gset (Axis * Nat * Home);
  containing_homes : gset (Axis * N * Nat * Home)
}.

Definition SlotIndex_default : SlotIndex := MkSlotIndex ∅ ∅ ∅ ∅ ∅ ∅ ∅ ∅.

(** [if !s.contains(&x) { s.insert(x) }] *)
Definition insert_new {A} `{Countable A} (x : A) (s : gset A) : gset A :=
  if bool_decide (x ∈ s) then s else {[x]} ∪ s.

Definition SlotIndex_file (ix : SlotIndex) (home : Home) (link : Tumbler) (i : nat) (span : Span) :
    outcome SlotIndex :=
  run ← SiblingRun_of_at span;
  match run with
  | None =>
      Done (MkSlotIndex (starts ix) (axes ix) (levels ix) (by_first ix) (by_end ix)
        (<[(home, link, i) := span]> (residue ix)) (starting_homes ix) (containing_homes ix))
  | Some (MkSiblingRun axis first end_) =>
      last_ ← nat_sub end_ 1;
      let level := N.size (N.lxor first last_) in
      Done (MkSlotIndex
        ({[(home, start span, link)]} ∪ starts ix)
        (insert_new axis (axes ix))
        (insert_new (axis, level) (levels ix))
        ({[(home, axis, level, first, link)]} ∪ by_first ix)
        (if (0 <? level)%N then {[(home, axis, level, end_, link)]} ∪ by_end ix else by_end ix)
        (residue ix)
        (insert_new (axis, block_of axis first, home) (starting_homes ix))
        (insert_new (axis, level, N.shiftr first level, home) (containing_homes ix)))
  end.

(** ** Which parts of a stab *)

Definition PART_NONE : N := 0%N.
Definition STARTING : N := 1%N.
Definition CONTAINING : N := N.shiftl 1 1.
Definition RESIDUE : N := N.shiftl 1 2.
Definition PART_ALL : N := 7%N.

Definition parts_with (p q : N) : N := N.lor p q.
Definition parts_has (p q : N) : bool := negb (N.land p q =? 0)%N.

(** ** The stab of one home: the links it hands over, in order *)

Definition starting_inside (ix : SlotIndex) (home : Home) (q : Span) : list Tumbler :=
  (λ e, e.2) <$> range (Included (home, start q, below_every_link)) (Excluded (home, reach q, below_every_link)) (starts ix).

Definition collect (filings : gset Filing) (home : Home) (axis : Axis) (level : N) (from to : Nat) : list Tumbler :=
  (λ e, e.2) <$> range (Included (home, axis, level, from, below_every_link))
    (Excluded (home, axis, level, to, below_every_link)) filings.

Definition U64_MAX : N := (2 ^ 64 - 1)%N.

Definition levels_of (ix : SlotIndex) (axis : Axis) : list N :=
  snd <$> range (Included (axis, 0%N)) (Included (axis, U64_MAX)) (levels ix).

Definition containing_at (ix : SlotIndex) (home : Home) (axis : Axis) (own_axis : bool) (c : Nat) (level : N) :
    list Tumbler :=
  if (level =? 0)%N then
    if negb own_axis then collect (by_first ix) home axis 0 c (c + 1)%N else []
  else if N.testbit c (level - 1) then
    let block_end := N.shiftl (N.shiftr c level + 1) level in
    collect (by_end ix) home axis level (c + 1)%N (block_end + 1)%N
  else
    let block_start := N.shiftl (N.shiftr c level) level in
    let past := if own_axis then c else (c + 1)%N in
    collect (by_first ix) home axis level block_start past.

(** One turn of the loop over the query start's components. *)
Definition containing_depth (ix : SlotIndex) (home : Home) (cs : list Nat) (depth : nat) (c : Nat) : list Tumbler :=
  let axis := take depth cs in
  if bool_decide (axis ∈ axes ix) then
    let own_axis := S depth =? length cs in
    mjoin (containing_at ix home axis own_axis c <$> levels_of ix axis)
  else [].

Definition containing (ix : SlotIndex) (home : Home) (start : Tumbler) : list Tumbler :=
  let cs := comps start in
  mjoin (imap (containing_depth ix home cs) cs).

(** The walk of the residue from the home's first key, which stops at another home. *)
Fixpoint residue_hits (ix : SlotIndex) (home : Home) (q : Span) (keys : list (Home * Tumbler * nat)) :
    list Tumbler :=
  match keys with
  | [] => []
  | (at_, link, i) :: keys =>
      if negb (bool_decide (at_ = home)) then []
      else
        match residue ix !! (at_, link, i) with
        | Some span => if overlaps q span then link :: residue_hits ix home q keys else residue_hits ix home q keys
        | None => residue_hits ix home q keys
        end
  end.

Definition residue_in (ix : SlotIndex) (home : Home) (q : Span) : list Tumbler :=
  residue_hits ix home q (range (Included (home, below_every_link, 0)) Unbounded (dom (residue ix))).

Definition stab_in_parts (ix : SlotIndex) (home : Home) (q : Span) (parts : N) : list Tumbler :=
  (if parts_has parts STARTING then starting_inside ix home q else []) ++
  (if parts_has parts CONTAINING then containing ix home (start q) else []) ++
  (if parts_has parts RESIDUE then residue_in ix home q else []).

Definition index_stab_in (ix : SlotIndex) (home : Home) (q : Span) : list Tumbler :=
  stab_in_parts ix home q PART_ALL.

(** ** Every slot *)

Record Spanfilade := MkSpanfilade { sf_slots : list SlotIndex; sf_homes : gset Home }.

Definition Spanfilade_default : Spanfilade := MkSpanfilade [] ∅.

Fixpoint file_spans (ix : SlotIndex) (home : Home) (link : Tumbler) (i : nat) (spans : list Span) : outcome SlotIndex :=
  match spans with
  | [] => Done ix
  | span :: spans => ix ← SlotIndex_file ix home link i span; file_spans ix home link (S i) spans
  end.

(** The slots in order, an index pushed at the first link with that slot. *)
Fixpoint file_slots (ixs : list SlotIndex) (home : Home) (link : Tumbler) (position : nat) (es : list Endset) :
    outcome (list SlotIndex) :=
  match es with
  | [] => Done ixs
  | e :: es =>
      let ixs := if position =? length ixs then ixs ++ [SlotIndex_default] else ixs in
      ix ← index ixs position;
      ix ← file_spans ix home link 0 (endset_spans e);
      file_slots (<[position := ix]> ixs) home link (S position) es
  end.

Definition Spanfilade_file (sf : Spanfilade) (addr home : Tumbler) (value : Link) : outcome Spanfilade :=
  slots ← file_slots (sf_slots sf) home addr 0 (slots value);
  Done (MkSpanfilade slots (insert_new home (sf_homes sf))).

Definition Spanfilade_home (sf : Spanfilade) (home : Tumbler) : option Home :=
  if bool_decide (home ∈ sf_homes sf) then Some home else None.

(** 1-based. *)
Definition Spanfilade_slot (sf : Spanfilade) (slot : nat) : option SlotIndex :=
  match slot with 0 => None | S position => sf_slots sf !! position end.
