(* ===== verification/SpanfiladeLaws.v ===== *)
(** * The spanfilade answers overlap

    A stab of one home through the index, its starts, its binary partition and its
    residue, finds exactly the links with a filed span that overlaps the query; each
    part of the stab is characterised on its own, for the walks that run one part. *)

From Stdlib Require Import NArith.
From stdpp Require Import gmap sorting.
From S2P Require Import Prelude Tumblers Addresses Arith Spans SpanSets OrdSets Endsets Spanfilade.

(** ** Overlap *)

Lemma overlaps_iff a b : overlaps a b = true ↔ start a <ₜ reach b ∧ start b <ₜ reach a.
Proof.
  pose proof (start_lt_reach a). pose proof (start_lt_reach b).
  pose proof (relate_cases (Endpoints_of a) (Endpoints_of b) (start_lt_reach a) (start_lt_reach b)) as Hr.
  unfold overlaps, classify_spans. cbn in Hr. destruct (relate _ _); cbn; split; try done; intros ?; destruct_and?; destruct_or?;
    try (split; torder); exfalso; torder.
Qed.

Lemma overlaps_sym a b : overlaps a b = overlaps b a.
Proof. apply eq_bool_prop_intro. rewrite !Is_true_true, !overlaps_iff. tauto. Qed.

(** The split on the stored start: it starts inside the query, or contains its start. *)
Lemma overlaps_split q s :
  overlaps q s = true ↔
    (start q ≤ₜ start s ∧ start s <ₜ reach q) ∨ (start s <ₜ start q ∧ contains s (start q) = true).
Proof.
  rewrite overlaps_iff, contains_spec. pose proof (start_lt_reach s). pose proof (start_lt_reach q). split.
  - intros [? ?]. destruct (leb_spec (start q) (start s)); [left|right]; split_and?; torder.
  - intros [[? ?]|[? [? ?]]]; split; torder.
Qed.

(** ** Sibling runs *)

Lemma SiblingRun_done s : is_done (SiblingRun_of_at s) = true.
Proof.
  unfold SiblingRun_of_at. case_match; [done|].
  destruct (comps_snoc (width s)) as (w & x & Hw). destruct (comps_snoc (start s)) as (p & y & Hs).
  rewrite Hw, last_snoc, Hs, last_snoc. cbn. by case_match.
Qed.

Definition sibling_run (s : Span) : option SiblingRun := total (SiblingRun_of_at s) (SiblingRun_done s).

Lemma removelast_snoc {A} (l : list A) x : removelast (l ++ [x]) = l.
Proof. apply removelast_last. Qed.

Lemma sibling_run_spec s p x y :
  sibling_run s = Some (MkSiblingRun p x y) →
  comps (start s) = p ++ [x] ∧ comps (reach s) = p ++ [y] ∧ (x < y)%N.
Proof.
  intros E. pose proof (total_spec _ (SiblingRun_done s)) as Et. fold (sibling_run s) in Et. rewrite E in Et. clear E.
  unfold SiblingRun_of_at in Et. destruct (length (comps (start s)) =? length (comps (width s))) eqn:El; [|done]. cbn [negb] in Et.
  destruct (comps_snoc (width s)) as (w & step & Hw). destruct (comps_snoc (start s)) as (q & f & Hs).
  rewrite Hw, last_snoc, removelast_snoc in Et. cbn in Et. destruct (existsb _ w) eqn:Ez; [done|].
  rewrite Hs, last_snoc, removelast_snoc in Et. cbn in Et. injection Et as <- <- <-.
  apply Nat.eqb_eq in El. rewrite Hw, Hs, !length_app in El. cbn in El.
  assert (Hz : w = replicate (length w) 0%N).
  { apply all_zero_replicate, Forall_forall. intros c Hc. apply nonzero_false.
    destruct (N.eqb_spec (N.size c) 0) as [Hsz|Hsz]; [destruct c; [done|cbn in Hsz; lia]|].
    assert (existsb (λ w, negb (N.size w =? 0)%N) w = true); [|congruence]. apply existsb_exists.
    exists c. split; [by apply list_elem_of_In|]. by apply negb_true_iff, N.eqb_neq. }
  assert (Hstep : step ≠ 0%N).
  { intros ->. pose proof (reach_add s) as Hr. destruct (add_domain (start s) (width s)) as [k|e] eqn:Ed; [|by rewrite (add_Err _ _ _ Ed) in Hr].
    apply add_domain_Ok in Ed as [Ha _]. assert (action_point (width s) = None) as Hn; [|congruence].
    apply action_point_None. unfold Tumbler_len. rewrite Hw, length_app, replicate_add. by rewrite <- Hz. }
  destruct (add_app (start s) (width s) (length q) q f [] step []) as (t & Ht & Hc); [done|done| |done|].
  { rewrite Hw, Hz. do 2 f_equal. lia. }
  rewrite reach_add in Ht. injection Ht as ->. split_and!; [done|done|lia].
Qed.

Lemma run_interval p x y t :
  list_cmp (p ++ [x]) t ≠ Gt ∧ list_cmp t (p ++ [y]) = Lt ↔ ∃ c rest, t = p ++ c :: rest ∧ (x ≤ c < y)%N.
Proof.
  revert t. induction p as [|z p IH]; intros [|c t]; cbn [app list_cmp].
  - split; [intros [[] _]; done|]. by intros (c & r & ? & _).
  - split.
    + intros [A B]. exists c, t. split; [done|]. destruct (N.compare_spec x c), (N.compare_spec c y); subst; try done; try lia.
      all: by destruct t.
    + intros (c' & r & [= <- <-] & Hc). rewrite (proj2 (N.compare_lt_iff c y)) by lia.
      destruct (N.compare_spec x c); [by destruct t|done|lia].
  - split; [intros [[] _]; done|]. by intros (c & r & ? & _).
  - destruct (N.compare_spec z c) as [->|?|?].
    + rewrite N.compare_refl, IH. split; intros (d & r & E & ?); exists d, r; (split; [|done]); [by rewrite E|by injection E].
    + split; [|intros (d & r & [= ? _] & _); lia]. intros [_ Hl]. destruct (N.compare_spec c z); try lia; done.
    + split; [by intros [[] _]|]. intros (d & r & [= ? _] & _). lia.
Qed.

(** A sibling run is the subtrees of its siblings. *)
Lemma run_contains s p x y t :
  sibling_run s = Some (MkSiblingRun p x y) →
  contains s t = true ↔ ∃ c rest, comps t = p ++ c :: rest ∧ (x ≤ c < y)%N.
Proof.
  intros (Hs & Hr & _)%sibling_run_spec. rewrite contains_spec, <- run_interval. unfold Tle, Tlt, cmp. by rewrite Hs, Hr.
Qed.

(** ** The binary partition *)

Definition run_level (x y : Nat) : N := N.size (N.lxor x (y - 1)).

Lemma size_0 n : N.size n = 0%N ↔ n = 0%N.
Proof. split; [|by intros ->]. destruct n; [done|]. cbn. lia. Qed.

(** Two numbers that agree from bit [l] up share their block. *)
Lemma shiftr_eq_bits a b l : (∀ i, (l ≤ i)%N → N.testbit a i = N.testbit b i) → N.shiftr a l = N.shiftr b l.
Proof. intros H. apply N.bits_inj. intros i. rewrite !N.shiftr_spec by lia. apply H. lia. Qed.

Lemma block_bounds c l : (N.shiftl (N.shiftr c l) l ≤ c < N.shiftl (N.shiftr c l + 1) l)%N.
Proof.
  rewrite N.shiftr_div_pow2, !N.shiftl_mul_pow2. pose proof (N.pow_nonzero 2 l ltac:(lia)) as Hp.
  pose proof (N.Div0.mul_div_le c (2 ^ l)). pose proof (N.mul_succ_div_gt c (2 ^ l) Hp).
  rewrite N.add_1_r, !(N.mul_comm _ (2 ^ l)). lia.
Qed.

Lemma same_block a c l :
  (N.shiftl (N.shiftr c l) l ≤ a < N.shiftl (N.shiftr c l + 1) l)%N ↔ N.shiftr a l = N.shiftr c l.
Proof.
  split.
  - rewrite !N.shiftl_mul_pow2. rewrite (N.shiftr_div_pow2 a). pose proof (N.pow_nonzero 2 l ltac:(lia)) as Hp.
    set (m := N.shiftr c l). rewrite N.mul_add_distr_r, N.mul_1_l. intros [H1 H2]. symmetry.
    apply (N.div_unique a (2 ^ l) m (a - m * 2 ^ l)); rewrite ?(N.mul_comm (2 ^ l) m); lia.
  - intros <-. apply block_bounds.
Qed.

(** The midpoint of a block. *)
Lemma testbit_half c l : N.testbit c l = true ↔ (N.shiftl (N.shiftr c (l + 1)) (l + 1) + 2 ^ l ≤ c)%N.
Proof.
  rewrite N.shiftr_div_pow2, N.shiftl_mul_pow2, N.testbit_eqb, N.eqb_eq.
  pose proof (N.pow_nonzero 2 l ltac:(lia)) as Hp. rewrite N.pow_add_r, N.pow_1_r.
  rewrite <- N.Div0.div_div. pose proof (N.div_mod c (2 ^ l) Hp) as E. pose proof (N.mod_lt c (2 ^ l) Hp) as Hm.
  remember (c mod 2 ^ l)%N as r. remember (c / 2 ^ l)%N as d. remember (2 ^ l)%N as p. clear Heqp Heqd Heqr.
  pose proof (N.div_mod d 2 ltac:(lia)) as E2. pose proof (N.mod_lt d 2 ltac:(lia)) as Hm2.
  remember (d mod 2)%N as b. remember (d / 2)%N as e. clear Heqb Heqe. subst c d.
  assert (b = 0 ∨ b = 1)%N as [->| ->] by lia; split; intros; try lia; nia.
Qed.

Lemma run_level_zero x y : (x < y)%N → run_level x y = 0%N ↔ y = (x + 1)%N.
Proof. intros H. unfold run_level. rewrite size_0, N.lxor_eq_0_iff. lia. Qed.

(** A run wider than one lies in its block, across the midpoint. *)
Lemma run_level_pos x y l :
  (x < y)%N → run_level x y = (l + 1)%N →
  N.shiftr x (l + 1) = N.shiftr (y - 1) (l + 1) ∧ N.testbit x l = false ∧ N.testbit (y - 1) l = true.
Proof.
  intros Hxy Hl. unfold run_level in Hl. set (d := N.lxor x (y - 1)) in *.
  assert (Hd : d ≠ 0%N) by (intros E; rewrite E in Hl; cbn in Hl; lia).
  assert (Hlog : N.log2 d = l) by (rewrite N.size_log2 in Hl by done; lia).
  assert (Hsh : N.shiftr x (l + 1) = N.shiftr (y - 1) (l + 1)).
  { apply shiftr_eq_bits. intros i Hi. pose proof (N.bits_above_log2 d i ltac:(lia)) as Hb. unfold d in Hb.
    rewrite N.lxor_spec in Hb. by destruct (N.testbit x i), (N.testbit (y - 1) i). }
  assert (Hbit : N.testbit d l = true) by (rewrite <- Hlog; by apply N.bit_log2).
  unfold d in Hbit. rewrite N.lxor_spec in Hbit. split; [done|].
  destruct (N.testbit x l) eqn:Bx, (N.testbit (y - 1) l) eqn:By; try done. exfalso.
  assert (Hny : ¬ (N.shiftl (N.shiftr (y - 1) (l + 1)) (l + 1) + 2 ^ l ≤ y - 1)%N) by (rewrite <- testbit_half; congruence).
  apply testbit_half in Bx. rewrite Hsh in Bx. lia.
Qed.

(** A point and a run of the same level: at level zero the point is the run; above,
    below the midpoint its first coordinate decides, at or past it its end. *)
Lemma run_holds_clear x y l c :
  (x < y)%N → run_level x y = (l + 1)%N → N.testbit c l = false →
  (x ≤ c < y)%N ↔ (N.shiftl (N.shiftr c (l + 1)) (l + 1) ≤ x ≤ c)%N.
Proof.
  intros Hxy Hl Hc. destruct (run_level_pos x y l Hxy Hl) as (Hsh & Hx & Hy).
  assert (Hnc : ¬ (N.shiftl (N.shiftr c (l + 1)) (l + 1) + 2 ^ l ≤ c)%N) by (rewrite <- testbit_half; congruence).
  apply testbit_half in Hy. pose proof (block_bounds x (l + 1)) as Bx. pose proof (block_bounds c (l + 1)) as Bc. pose proof (block_bounds (y - 1) (l + 1)) as By.
  split.
  - intros [H1 H2]. assert (Hcx : N.shiftr c (l + 1) = N.shiftr x (l + 1)); [|rewrite Hcx; lia].
    apply same_block. rewrite Hsh in *. lia.
  - intros [H1 H2]. assert (Hxc : N.shiftr x (l + 1) = N.shiftr c (l + 1)) by (apply same_block; lia).
    rewrite <- Hsh, Hxc in *. lia.
Qed.

Lemma run_holds_set x y l c :
  (x < y)%N → run_level x y = (l + 1)%N → N.testbit c l = true →
  (x ≤ c < y)%N ↔ (c < y ≤ N.shiftl (N.shiftr c (l + 1) + 1) (l + 1))%N.
Proof.
  intros Hxy Hl Hc. destruct (run_level_pos x y l Hxy Hl) as (Hsh & Hx & Hy).
  assert (Hnx : ¬ (N.shiftl (N.shiftr x (l + 1)) (l + 1) + 2 ^ l ≤ x)%N) by (rewrite <- testbit_half; congruence).
  apply testbit_half in Hc. pose proof (block_bounds x (l + 1)) as Bx. pose proof (block_bounds c (l + 1)) as Bc. pose proof (block_bounds (y - 1) (l + 1)) as By.
  split.
  - intros [H1 H2]. assert (Hcx : N.shiftr c (l + 1) = N.shiftr x (l + 1)); [|rewrite Hcx, Hsh; lia].
    apply same_block. rewrite Hsh in *. lia.
  - intros [H1 H2]. assert (Hyc : N.shiftr (y - 1) (l + 1) = N.shiftr c (l + 1)) by (apply same_block; lia).
    rewrite Hsh, Hyc in *. lia.
Qed.

(** Past the midpoint a run that holds the point starts before it. *)
Lemma run_set_before x y l c :
  (x < y)%N → run_level x y = (l + 1)%N → N.testbit c l = true → (x ≤ c < y)%N → (x < c)%N.
Proof.
  intros Hxy Hl Hc H. destruct (run_level_pos x y l Hxy Hl) as (_ & Hx & _). destruct (N.eq_dec x c) as [->|]; [congruence|lia].
Qed.

(** ** What an index holds *)

(** One span filed. *)
Record Filed := MkFiled { fd_home : Home; fd_link : Tumbler; fd_index : nat; fd_span : Span }.

(** Some filing of [l] under [h] is the run [[p·x, p·y)]. *)
Definition run_in (F : list Filed) (h : Home) (l : Tumbler) (p : Axis) (x y : Nat) : Prop :=
  ∃ i s, MkFiled h l i s ∈ F ∧ sibling_run s = Some (MkSiblingRun p x y).

Record indexes (ix : SlotIndex) (F : list Filed) : Prop := {
  ix_starts h s l : (h, s, l) ∈ starts ix ↔ ∃ p x y, run_in F h l p x y ∧ comps s = p ++ [x];
  ix_axes p : p ∈ axes ix ↔ ∃ h l x y, run_in F h l p x y;
  ix_levels p v : (p, v) ∈ levels ix ↔ ∃ h l x y, run_in F h l p x y ∧ v = run_level x y;
  ix_by_first h p v x l : (h, p, v, x, l) ∈ by_first ix ↔ ∃ y, run_in F h l p x y ∧ v = run_level x y;
  ix_by_end h p v y l : (h, p, v, y, l) ∈ by_end ix ↔ ∃ x, run_in F h l p x y ∧ v = run_level x y ∧ (0 < v)%N;
  ix_residue h l i s : residue ix !! (h, l, i) = Some s ↔ MkFiled h l i s ∈ F ∧ sibling_run s = None;
  ix_starting p b h : (p, b, h) ∈ starting_homes ix ↔ ∃ l x y, run_in F h l p x y ∧ b = block_of p x;
  ix_containing p v n h : (p, v, n, h) ∈ containing_homes ix ↔
    ∃ l x y, run_in F h l p x y ∧ v = run_level x y ∧ n = N.shiftr x v
}.

Lemma run_in_lt F h l p x y : run_in F h l p x y → (x < y)%N.
Proof. intros (i & s & _ & (_ & _ & ?)%sibling_run_spec). done. Qed.

Lemma run_in_snoc F h0 l0 i0 s0 h l p x y :
  run_in (F ++ [MkFiled h0 l0 i0 s0]) h l p x y ↔
  run_in F h l p x y ∨ h = h0 ∧ l = l0 ∧ sibling_run s0 = Some (MkSiblingRun p x y).
Proof.
  unfold run_in. setoid_rewrite elem_of_app. setoid_rewrite list_elem_of_singleton. split.
  - intros (i & s & [H|[= -> -> -> ->]] & E); [left; eauto|by right].
  - intros [(i & s & H & E)|(-> & -> & E)]; eauto 6.
Qed.

Lemma indexes_default : indexes SlotIndex_default [].
Proof.
  assert (Hno : ∀ h l p x y, run_in [] h l p x y → False) by (intros h l p x y (i & s & Hx & _); by apply not_elem_of_nil in Hx).
  split; intros; cbn; rewrite ?elem_of_empty, ?lookup_empty; (split; [done|]); intros;
    repeat match goal with
    | Hx : ∃ _, _ |- _ => destruct Hx
    | Hx : _ ∧ _ |- _ => destruct Hx
    | Hx : run_in [] _ _ _ _ _ |- _ => by apply Hno in Hx
    | Hx : _ ∈ [] |- _ => by apply not_elem_of_nil in Hx
    end.
Qed.

Lemma elem_of_insert_new {A} `{Countable A} (x y : A) s : y ∈ insert_new x s ↔ y = x ∨ y ∈ s.
Proof. unfold insert_new. case_bool_decide; set_solver. Qed.

Lemma SlotIndex_file_ok ix F h l i s :
  indexes ix F → (∀ s', MkFiled h l i s' ∉ F) →
  ∃ ix', SlotIndex_file ix h l i s = Done ix' ∧ indexes ix' (F ++ [MkFiled h l i s]).
Proof.
  intros Hi Hfresh. unfold SlotIndex_file. rewrite (total_spec _ (SiblingRun_done s)). fold (sibling_run s). cbn [mbind outcome_bind].
  destruct (sibling_run s) as [[p x y]|] eqn:E.
  - destruct (sibling_run_spec s p x y E) as (Hs & _ & Hxy). rewrite nat_sub_ok by lia. cbn [mbind outcome_bind].
    fold (run_level x y). eexists. split; [reflexivity|]. destruct Hi.
    assert (Hr : ∀ h' l' p' x' y', run_in (F ++ [MkFiled h l i s]) h' l' p' x' y' ↔
      run_in F h' l' p' x' y' ∨ h' = h ∧ l' = l ∧ p' = p ∧ x' = x ∧ y' = y).
    { intros. rewrite run_in_snoc, E. naive_solver. }
    split; intros; cbn [starts axes levels by_first by_end residue starting_homes containing_homes];
      rewrite ?elem_of_insert_new, ?elem_of_union, ?elem_of_singleton; try setoid_rewrite Hr.
    + rewrite ix_starts0. split.
      * intros [[= -> -> ->]|(p' & x' & y' & ? & ?)]; [exists p, x, y; tauto|exists p', x', y'; tauto].
      * intros (p' & x' & y' & [Hrun|(-> & -> & -> & -> & ->)] & Hc); [right; eauto|left].
        f_equal. f_equal. apply Tumbler_eq. by rewrite Hc.
    + rewrite ix_axes0. clear. naive_solver.
    + rewrite ix_levels0. clear. naive_solver.
    + rewrite ix_by_first0. clear. naive_solver.
    + destruct (N.ltb_spec 0 (run_level x y)); [rewrite elem_of_union, elem_of_singleton|]; rewrite ix_by_end0; clear -H; naive_solver lia.
    + rewrite ix_residue0, elem_of_app, list_elem_of_singleton. naive_solver.
    + rewrite ix_starting0. clear. naive_solver.
    + rewrite ix_containing0. clear. naive_solver.
  - eexists. split; [reflexivity|]. destruct Hi.
    assert (Hr : ∀ h' l' p' x' y', run_in (F ++ [MkFiled h l i s]) h' l' p' x' y' ↔ run_in F h' l' p' x' y').
    { intros. rewrite run_in_snoc, E. naive_solver. }
    split; intros; cbn [starts axes levels by_first by_end residue starting_homes containing_homes]; try setoid_rewrite Hr; [eauto..| |eauto|eauto].
    rewrite elem_of_app, list_elem_of_singleton. destruct (decide ((h, l, i) = (h0, l0, i0))) as [[= <- <- <-]|Hne].
    + rewrite lookup_insert_eq. naive_solver.
    + rewrite lookup_insert_ne by done. rewrite ix_residue0. naive_solver.
Qed.

(** ** Stabbing one home *)

Section Stab.
Context (ix : SlotIndex) (F : list Filed) (Hix : indexes ix F).

(** A level is a count of bits, which a 64-bit word carries. *)
Definition levels_small : Prop := ∀ h l p x y, run_in F h l p x y → (run_level x y ≤ U64_MAX)%N.

Lemma least_below t : below_every_link ≤ₜ t.
Proof using.
  unfold Tle, cmp. destruct (comps_cons t) as (c & cs & ->). cbn -[N.compare]. destruct (N.compare_spec 0 c); [by destruct cs|done|lia].
Qed.

Lemma ole_least t : ole below_every_link t.
Proof using. apply least_below. Qed.

Lemma not_olt_least t : ¬ olt t below_every_link.
Proof using. intros H%olt_not_ole. by apply H, ole_least. Qed.

(** A range between two keys that close on a link is the keys between their fronts. *)
Lemma front_range {A} `{OrdLaws A, !EqDecision A, !Countable A} (s : gset (A * Tumbler)) (a b : A) (x : A) (l : Tumbler) :
  (x, l) ∈ range (Included (a, below_every_link)) (Excluded (b, below_every_link)) s ↔ (x, l) ∈ s ∧ ole a x ∧ olt x b.
Proof using.
  rewrite elem_of_range, from_ok_included, to_ok_excluded, pair_ole, pair_olt, (ole_lt_eq a x).
  pose proof (ole_least l). pose proof (not_olt_least l). naive_solver.
Qed.

Lemma starting_inside_iff h q l :
  l ∈ starting_inside ix h q ↔
  ∃ i s, MkFiled h l i s ∈ F ∧ is_Some (sibling_run s) ∧ start q ≤ₜ start s ∧ start s <ₜ reach q.
Proof using Hix.
  unfold starting_inside. rewrite list_elem_of_fmap. split.
  - intros ([[h' s] l'] & -> & Hin). apply front_range in Hin as (Hin & Hlo & Hhi). apply Hix in Hin as (p & x & y & (i & sp & Hf & E) & Hs).
    rewrite pair_ole in Hlo. rewrite pair_olt in Hhi.
    assert (h' = h ∧ start q ≤ₜ s ∧ s <ₜ reach q) as (-> & ? & ?).
    { destruct Hlo as [Hl|[-> Hl]], Hhi as [Hu|[Hu1 Hu2]]; subst; try (by apply olt_irrefl in Hl); try (by apply olt_irrefl in Hu).
      - exfalso. apply (olt_irrefl h). by etransitivity.
      - done. }
    assert (start sp = s) as <-.
    { apply Tumbler_eq. destruct (sibling_run_spec _ _ _ _ E) as (-> & _). done. }
    exists i, sp. cbn. split_and!; [done|by rewrite E|done..].
  - intros (i & s & Hf & [[p x y] E] & Hlo & Hhi). exists (h, start s, l). split; [done|]. apply front_range. split_and!.
    + apply Hix. exists p, x, y. split; [by exists i, s|]. by destruct (sibling_run_spec _ _ _ _ E) as (-> & _).
    + apply pair_ole. by right.
    + apply pair_olt. by right.
Qed.

Lemma elem_of_collect fs h p v from to l :
  l ∈ collect fs h p v from to ↔ ∃ c, (h, p, v, c, l) ∈ fs ∧ (from ≤ c < to)%N.
Proof using.
  unfold collect. rewrite list_elem_of_fmap. split.
  - intros ([[[[h' p'] v'] c] l'] & -> & Hin). apply front_range in Hin as (Hin & Hlo & Hhi).
    destruct (pair_between _ _ _ _ _ Hlo Hhi) as ([= -> -> ->] & Hl & Hu). exists c. split; [done|].
    split; [exact Hl|exact Hu].
  - intros (c & Hin & Hl & Hu). exists (h, p, v, c, l). split; [done|]. apply front_range. split_and!; [done| |].
    + apply pair_ole. right. split; [done|]. by apply N.compare_le_iff.
    + apply pair_olt. right. split; [done|]. by apply N.compare_lt_iff.
Qed.

Lemma elem_of_levels_of p v :
  levels_small → v ∈ levels_of ix p ↔ ∃ h l x y, run_in F h l p x y ∧ v = run_level x y.
Proof using Hix.
  intros Hsmall. unfold levels_of. rewrite list_elem_of_fmap. split.
  - intros ([p' v'] & -> & (Hin & Hlo & Hhi)%elem_of_range). apply from_ok_included in Hlo. apply to_ok_included in Hhi.
    rewrite pair_ole in Hlo, Hhi. assert (p' = p) as ->; [|by apply Hix].
    destruct Hlo as [Hl|[-> _]], Hhi as [Hu|[Hu _]]; [|done..]. exfalso. apply (olt_irrefl p). by etransitivity.
  - intros (h & l & x & y & Hr & ->). exists (p, run_level x y). split; [done|]. apply elem_of_range.
    rewrite from_ok_included, to_ok_included, !pair_ole. split_and!.
    + apply Hix. by exists h, l, x, y.
    + right. split; [done|]. unfold ole, ocmp, N_ord. apply N.compare_le_iff. lia.
    + right. split; [done|]. unfold ole, ocmp, N_ord. apply N.compare_le_iff. by eapply Hsmall.
Qed.

(** What one node of an axis answers for a point [c]. *)
Lemma containing_at_iff h p own c v l :
  l ∈ containing_at ix h p own c v ↔
  ∃ x y, run_in F h l p x y ∧ v = run_level x y ∧ (x ≤ c < y)%N ∧ (own = true → x ≠ c).
Proof using Hix.
  unfold containing_at. destruct (N.eqb_spec v 0) as [->|Hv].
  - destruct own; cbn [negb].
    + split; [by intros ?%not_elem_of_nil|]. intros (x & y & Hr & Hl & Hc & Hne). exfalso. specialize (Hne eq_refl).
      symmetry in Hl. apply run_level_zero in Hl; [|by eapply run_in_lt]. lia.
    + rewrite elem_of_collect. split.
      * intros (c' & (y & Hr & Hl)%Hix & Hc). exists c', y. pose proof (run_in_lt _ _ _ _ _ _ Hr). split_and!; [done|done|lia|lia|done].
      * intros (x & y & Hr & Hl & Hc & _). pose proof Hl as Hl'. symmetry in Hl'. apply run_level_zero in Hl'; [|by eapply run_in_lt].
        exists x. split; [|lia]. apply Hix. by exists y.
  - destruct v as [|v0] eqn:Ev; [done|]. rewrite <- Ev in *. clear Hv. assert (Hv : (v = (v - 1) + 1)%N) by lia.
    destruct (N.testbit c (v - 1)) eqn:Hb; rewrite elem_of_collect.
    + split.
      * intros (y & (x & Hr & Hl & _)%Hix & Hc). pose proof (run_in_lt _ _ _ _ _ _ Hr) as Hlt. exists x, y.
        assert (Hm : (x ≤ c < y)%N) by (eapply (run_holds_set x y (v - 1)); [done|congruence|done|rewrite <- Hv; lia]).
        split_and!; [done|done|lia|lia|]. intros _.
        pose proof (run_set_before x y (v - 1) c Hlt ltac:(congruence) Hb Hm). lia.
      * intros (x & y & Hr & Hl & Hc & _). pose proof (run_in_lt _ _ _ _ _ _ Hr) as Hlt. exists y.
        split; [apply Hix; exists x; split_and!; [done|done|lia]|].
        apply (run_holds_set x y (v - 1)) in Hc; [|done|congruence|done]. rewrite <- Hv in Hc. lia.
    + assert (Hiff : ∀ x y, run_in F h l p x y → v = run_level x y →
        (x ≤ c < y)%N ↔ (N.shiftl (N.shiftr c v) v ≤ x ≤ c)%N).
      { intros x y Hr Hl. pose proof (run_in_lt _ _ _ _ _ _ Hr). rewrite (run_holds_clear x y (v - 1) c); [by rewrite <- Hv|done|congruence|done]. }
      split.
      * intros (x & (y & Hr & Hl)%Hix & Hc). exists x, y. split_and!; [done|done| | |];
          [apply (proj2 (Hiff x y Hr Hl))..|]; destruct own; lia.
      * intros (x & y & Hr & Hl & Hc & Hne). exists x. split; [apply Hix; by exists y|]. apply (Hiff x y Hr Hl) in Hc. destruct own; [|lia].
        specialize (Hne eq_refl). lia.
Qed.

Lemma take_split {A} (l : list A) d x : l !! d = Some x → ∃ rest, l = take d l ++ x :: rest ∧ length (take d l) = d.
Proof using.
  intros Hx. exists (drop (S d) l). split; [by rewrite (take_drop_middle l d x)|]. apply lookup_lt_Some in Hx. rewrite length_take. lia.
Qed.

Lemma containing_iff h q l :
  levels_small →
  l ∈ containing ix h q ↔
  ∃ p x y c rest, run_in F h l p x y ∧ comps q = p ++ c :: rest ∧ (x ≤ c < y)%N ∧ (rest = [] → x ≠ c).
Proof using Hix.
  intros Hsmall. unfold containing. rewrite list_elem_of_join. split.
  - intros (hits & Hl & Hin). apply elem_of_lookup_imap in Hin as (d & c & -> & Hd).
    unfold containing_depth in Hl. destruct (take_split (comps q) d c Hd) as (rest & Hc & Hlen).
    case_bool_decide as Hax; [|by apply not_elem_of_nil in Hl].
    apply list_elem_of_join in Hl as (hits & Hl & (v & -> & _)%list_elem_of_fmap).
    apply containing_at_iff in Hl as (x & y & Hr & _ & Hxy & Hne). exists (take d (comps q)), x, y, c, rest. split_and!; [done|done|lia|lia|].
    intros ->. apply Hne, Nat.eqb_eq. apply (f_equal length) in Hc. rewrite length_app, Hlen in Hc. cbn in Hc. lia.
  - intros (p & x & y & c & rest & Hr & Hc & Hxy & Hne).
    exists (containing_depth ix h (comps q) (length p) c). split.
    + unfold containing_depth. assert (Hp : take (length p) (comps q) = p) by (rewrite Hc; apply take_app_length). rewrite Hp.
      rewrite bool_decide_eq_true_2 by (apply Hix; by exists h, l, x, y). apply list_elem_of_join.
      eexists. split; [|apply list_elem_of_fmap; eexists; split; [reflexivity|]; apply elem_of_levels_of; [done|]; by exists h, l, x, y].
      apply containing_at_iff. exists x, y. split_and!; [done|done|lia|lia|]. intros Hown%Nat.eqb_eq. apply Hne.
      apply (f_equal length) in Hc. rewrite length_app in Hc. cbn in Hc. destruct rest; [done|cbn in *; lia].
    + apply elem_of_lookup_imap. exists (length p), c. split; [done|]. rewrite Hc. by apply list_lookup_middle.
Qed.

(** The containing half, as overlap: the runs below the query's start that hold it. *)
Lemma containing_spans h q l :
  levels_small →
  l ∈ containing ix h q ↔
  ∃ i s, MkFiled h l i s ∈ F ∧ is_Some (sibling_run s) ∧ start s <ₜ q ∧ contains s q = true.
Proof using Hix.
  intros Hsmall. rewrite (containing_iff h q l Hsmall). split.
  - intros (p & x & y & c & rest & (i & s & Hf & E) & Hc & Hxy & Hne). exists i, s. split_and!; [done|by rewrite E| |].
    + destruct (sibling_run_spec _ _ _ _ E) as (Hs & _). unfold Tlt, cmp. rewrite Hs, Hc, list_cmp_app. cbn.
      destruct (N.compare_spec x c); [|done|lia]. destruct rest; [by destruct Hne|done].
    + apply (run_contains _ _ _ _ _ E). by exists c, rest.
  - intros (i & s & Hf & [[p x y] E] & Hlt & Hc). apply (run_contains _ _ _ _ _ E) in Hc as (c & rest & Hc & Hxy).
    exists p, x, y, c, rest. split_and!; [by exists i, s|done|lia|lia|]. intros -> ->.
    destruct (sibling_run_spec _ _ _ _ E) as (Hs & _). unfold Tlt, cmp in Hlt. by rewrite Hs, Hc, list_cmp_refl in Hlt.
Qed.

Lemma residue_hits_iff h q l keys :
  StronglySorted olt keys → (∀ k, k ∈ keys → is_Some (residue ix !! k)) → (∀ k, k ∈ keys → ole h k.1.1) →
  l ∈ residue_hits ix h q keys ↔
  ∃ i s, (h, l, i) ∈ keys ∧ residue ix !! (h, l, i) = Some s ∧ overlaps q s = true.
Proof using.
  induction keys as [|[[h' l'] i'] keys IH]; intros Hs Hin Hge; cbn [residue_hits].
  { split; [by intros ?%not_elem_of_nil|]. by intros (? & ? & ?%not_elem_of_nil & _). }
  inversion Hs as [|? ? Hs' Hf]; subst. rewrite Forall_forall in Hf.
  specialize (IH Hs' (λ k Hk, Hin k (list_elem_of_further _ _ _ Hk)) (λ k Hk, Hge k (list_elem_of_further _ _ _ Hk))).
  case_bool_decide as Hh; cbn [negb].
  - subst h'. destruct (Hin (h, l', i') ltac:(by left)) as [s Es]. rewrite Es. destruct (overlaps q s) eqn:Eo.
    + rewrite elem_of_cons, IH. setoid_rewrite elem_of_cons. split.
      * intros [->|(i & s' & ? & ? & ?)]; [by exists i', s; eauto|by exists i, s'; eauto].
      * intros (i & s' & [[= -> ->]|Hk] & ? & ?); [by left|right; by exists i, s'].
    + rewrite IH. setoid_rewrite elem_of_cons. split.
      * intros (i & s' & ? & ? & ?); by exists i, s'; eauto.
      * intros (i & s' & [[= -> ->]|Hk] & ? & ?); [congruence|by exists i, s'].
  - split; [by intros ?%not_elem_of_nil|]. intros (i & s & Hk & _). exfalso.
    pose proof (Hge (h', l', i') ltac:(by left)) as Hle. cbn in Hle. apply elem_of_cons in Hk as [[= <- _ _]|Hk]; [done|].
    specialize (Hf _ Hk). rewrite !pair_olt in Hf. apply ole_lt_eq in Hle as [Hlt| ->]; [|done].
    destruct Hf as [[Hx|[-> _]]|[[= -> _] _]]; [|done|done]. apply (olt_irrefl h). by etransitivity.
Qed.

Lemma residue_in_iff h q l :
  l ∈ residue_in ix h q ↔ ∃ i s, MkFiled h l i s ∈ F ∧ sibling_run s = None ∧ overlaps q s = true.
Proof using Hix.
  unfold residue_in. rewrite residue_hits_iff.
  - assert (Hk : ∀ i, (h, l, i) ∈ range (Included (h, below_every_link, 0)) Unbounded (dom (residue ix)) ↔ is_Some (residue ix !! (h, l, i))).
    { intros i. rewrite elem_of_range, elem_of_dom, from_ok_included, !pair_ole, pair_olt. split; [by intros [? _]|]. intros Hs. split_and!; [done| |done].
      pose proof (ole_least l) as Hl. apply ole_lt_eq in Hl as [Hl| <-]; [left; by right|right; split; [done|]].
      unfold ole, ocmp, nat_ord. apply Nat.compare_le_iff. lia. }
    setoid_rewrite Hk. setoid_rewrite (ix_residue ix F Hix). split.
    + intros (i & s & _ & [Hf E] & Ho). by exists i, s.
    + intros (i & s & Hf & E & Ho). exists i, s. split_and!; [|done..]. exists s. by apply Hix.
  - apply range_strict.
  - intros k Hk. apply elem_of_range in Hk as (Hk & _). by apply elem_of_dom in Hk.
  - intros [[h' l'] i'] (_ & Hk & _)%elem_of_range. apply from_ok_included in Hk. rewrite !pair_ole, pair_olt in Hk. cbn.
    apply ole_lt_eq. naive_solver.
Qed.

(** The parts together. *)
Lemma index_stab_in_iff h q l :
  levels_small →
  l ∈ index_stab_in ix h q ↔ ∃ i s, MkFiled h l i s ∈ F ∧ overlaps q s = true.
Proof using Hix.
  intros Hsmall. unfold index_stab_in, stab_in_parts. change (parts_has PART_ALL STARTING) with true.
  change (parts_has PART_ALL CONTAINING) with true. change (parts_has PART_ALL RESIDUE) with true. cbn [app].
  rewrite !elem_of_app, starting_inside_iff, (containing_spans h _ l Hsmall), residue_in_iff. split.
  - intros [(i & s & Hf & _ & ?)|[(i & s & Hf & _ & ?)|(i & s & Hf & _ & ?)]]; exists i, s; (split; [done|]); [apply overlaps_split; by left|apply overlaps_split; by right|done].
  - intros (i & s & Hf & Ho). destruct (sibling_run s) as [r|] eqn:E.
    + apply overlaps_split in Ho as [[? ?]|[? ?]]; [left|right; left]; exists i, s; rewrite E; eauto.
    + right. right. by exists i, s.
Qed.
End Stab.

(** ** Filing a link *)

Lemma run_in_ext F G h l p x y : (∀ f, f ∈ F ↔ f ∈ G) → run_in F h l p x y ↔ run_in G h l p x y.
Proof. intros H. unfold run_in. by setoid_rewrite H. Qed.

Lemma indexes_ext ix F G : (∀ f, f ∈ F ↔ f ∈ G) → indexes ix F → indexes ix G.
Proof.
  intros H [H1 H2 H3 H4 H5 H6 H7 H8].
  assert (Hr : ∀ h l p x y, run_in G h l p x y ↔ run_in F h l p x y) by (intros; symmetry; by apply run_in_ext).
  split; intros; setoid_rewrite Hr || setoid_rewrite <- H; auto.
Qed.

(** The filings of a span sequence, counted from [i]. *)
Fixpoint span_filings (home : Home) (link : Tumbler) (i : nat) (spans : list Span) : list Filed :=
  match spans with
  | [] => []
  | s :: spans => MkFiled home link i s :: span_filings home link (S i) spans
  end.

Lemma elem_of_span_filings home link i l f :
  f ∈ span_filings home link i l ↔ ∃ j s, l !! j = Some s ∧ f = MkFiled home link (i + j) s.
Proof.
  revert i. induction l as [|s l IH]; intros i; cbn [span_filings].
  { split; [by intros ?%not_elem_of_nil|]. by intros (j & s & ? & _). }
  rewrite elem_of_cons, IH. split.
  - intros [->|(j & s' & Hj & ->)]; [exists 0, s; split; [done|by rewrite Nat.add_0_r]|exists (S j), s'; split; [done|f_equal; lia]].
  - intros ([|j] & s' & Hj & ->); [injection Hj as ->; left; by rewrite Nat.add_0_r|right; exists j, s'; split; [done|f_equal; lia]].
Qed.

Lemma file_spans_ok ix F home link i l :
  indexes ix F → (∀ f, f ∈ F → fd_home f = home → fd_link f = link → fd_index f < i) →
  ∃ ix', file_spans ix home link i l = Done ix' ∧ indexes ix' (F ++ span_filings home link i l).
Proof.
  revert ix F i. induction l as [|s l IH]; intros ix F i Hix Hf; cbn [file_spans span_filings].
  { exists ix. by rewrite app_nil_r. }
  destruct (SlotIndex_file_ok ix F home link i s Hix) as (ix1 & E1 & H1).
  { intros s' Hin. specialize (Hf _ Hin eq_refl eq_refl). cbn in Hf. lia. }
  rewrite E1. cbn. destruct (IH ix1 _ (S i) H1) as (ix2 & E2 & H2).
  { intros f [Hin| ->%list_elem_of_singleton]%elem_of_app Hh Hl; [|cbn; lia]. specialize (Hf f Hin Hh Hl). lia. }
  exists ix2. split; [done|]. by rewrite <- app_assoc in H2.
Qed.

(** A deposit: the link's address, its home and its value. *)
Definition Filing_of : Type := Tumbler * Home * Link.

(** Every span the deposits hold at one slot position. *)
Definition slot_filings (D : list Filing_of) (position : nat) : list Filed :=
  D ≫= λ d, match slots d.2 !! position with
    | Some e => span_filings d.1.2 d.1.1 0 (endset_spans e)
    | None => []
    end.

Lemma elem_of_slot_filings D position h l i s :
  MkFiled h l i s ∈ slot_filings D position ↔
  ∃ v e, (l, h, v) ∈ D ∧ slots v !! position = Some e ∧ endset_spans e !! i = Some s.
Proof.
  unfold slot_filings. rewrite list_elem_of_bind. split.
  - intros ([[a h'] v] & Hin & HD). cbn in Hin. destruct (slots v !! position) as [e|] eqn:Ee; [|by apply not_elem_of_nil in Hin].
    apply elem_of_span_filings in Hin as (j & s' & Hj & [= -> -> -> ->]). by exists v, e.
  - intros (v & e & HD & He & Hs). exists (l, h, v). split; [|done]. cbn. rewrite He. apply elem_of_span_filings. by exists i, s.
Qed.

Record files (sf : Spanfilade) (D : list Filing_of) : Prop := {
  files_slot position ix : sf_slots sf !! position = Some ix → indexes ix (slot_filings D position);
  files_none position : sf_slots sf !! position = None → ∀ a h v, (a, h, v) ∈ D → slots v !! position = None;
  files_some position : is_Some (sf_slots sf !! position) → ∃ a h v, (a, h, v) ∈ D ∧ is_Some (slots v !! position);
  files_home h : h ∈ sf_homes sf ↔ ∃ a v, (a, h, v) ∈ D
}.

Lemma files_default : files Spanfilade_default [].
Proof.
  split; [done|by intros ? _ ? ? ? ?%not_elem_of_nil|by intros ? [? ?]|].
  intros h. cbn. split; [set_solver|by intros (? & ? & ?%not_elem_of_nil)].
Qed.

(** The slot loop: the index at each position it passes gains that slot's spans. *)
Lemma file_slots_ok ixs (G : nat → list Filed) home link position es :
  position ≤ length ixs →
  (∀ k ix, ixs !! k = Some ix → indexes ix (G k)) →
  (∀ k, length ixs ≤ k → G k = []) →
  (∀ k f, position ≤ k → f ∈ G k → fd_link f ≠ link) →
  ∃ ixs', file_slots ixs home link position es = Done ixs' ∧
    length ixs' = length ixs `max` (position + length es) ∧
    ∀ k ix, ixs' !! k = Some ix →
      indexes ix (G k ++ match es !! (k - position) with
        | Some e => if position <=? k then span_filings home link 0 (endset_spans e) else []
        | None => []
        end).
Proof.
  revert ixs G position. induction es as [|e es IH]; intros ixs G position Hpos HG Hnil Hlink; cbn [file_slots].
  { exists ixs. split_and!; [done|cbn; lia|]. intros k ix Hk. rewrite lookup_nil, app_nil_r. auto. }
  set (ixs1 := if position =? length ixs then ixs ++ [SlotIndex_default] else ixs).
  assert (Hl1 : length ixs1 = length ixs `max` S position).
  { unfold ixs1. destruct (Nat.eqb_spec position (length ixs)); [rewrite length_app; cbn|]; lia. }
  assert (HG1 : ∀ k ix, ixs1 !! k = Some ix → indexes ix (G k)).
  { intros k ix. unfold ixs1. destruct (Nat.eqb_spec position (length ixs)) as [->|]; [|apply HG].
    intros [Hk|[Hge Hk]]%lookup_app_Some; [by apply HG|]. rewrite Hnil by done. apply list_lookup_singleton_Some in Hk as [_ <-]. apply indexes_default. }
  destruct (lookup_lt_is_Some_2 ixs1 position) as [ix0 E0]; [lia|]. rewrite (index_ok _ _ _ E0). cbn.
  destruct (file_spans_ok ix0 (G position) home link 0 (endset_spans e) (HG1 _ _ E0)) as (ix1 & E1 & H1).
  { intros f Hf _ Hl. by destruct (Hlink position _ ltac:(lia) Hf). }
  rewrite E1. cbn [mbind outcome_bind].
  set (G' := λ k, if decide (k = position) then G k ++ span_filings home link 0 (endset_spans e) else G k).
  destruct (IH (<[position:=ix1]> ixs1) G' (S position)) as (ixs' & E' & Hlen & Hres).
  - rewrite length_insert. lia.
  - intros k ix Hk. unfold G'. destruct (decide (k = position)) as [->|Hne].
    + rewrite list_lookup_insert_eq in Hk by (apply lookup_lt_Some in E0; lia). by injection Hk as <-.
    + rewrite list_lookup_insert_ne in Hk by done. auto.
  - intros k. rewrite length_insert. intros Hk. unfold G'. rewrite decide_False by lia. apply Hnil. lia.
  - intros k f Hk. unfold G'. rewrite decide_False by lia. apply Hlink. lia.
  - exists ixs'. split_and!; [done|rewrite Hlen, length_insert, Hl1; cbn; lia|]. intros k ix Hk. specialize (Hres k ix Hk).
    unfold G' in Hres. destruct (decide (k = position)) as [->|Hne].
    + replace (position - position) with 0 by lia. rewrite Nat.leb_refl. cbn [lookup list_lookup].
      replace (S position <=? position) with false in Hres by (symmetry; apply Nat.leb_gt; lia).
      destruct (es !! (position - S position)); by rewrite app_nil_r in Hres.
    + destruct (Nat.leb_spec (S position) k).
      * replace (k - position) with (S (k - S position)) by lia. rewrite (proj2 (Nat.leb_le position k)) by lia. done.
      * assert (Hn : ∀ (o : option Endset), match o with Some e0 => [] | None => @nil Filed end = []) by (by intros []).
        rewrite Hn in Hres. rewrite (proj2 (Nat.leb_gt position k)) by lia. by rewrite Hn.
Qed.

Lemma Spanfilade_file_ok sf D addr home v :
  files sf D → (∀ h w, (addr, h, w) ∉ D) →
  ∃ sf', Spanfilade_file sf addr home v = Done sf' ∧ files sf' (D ++ [(addr, home, v)]).
Proof.
  intros [Hs Hn Hsome Hh] Hfresh. unfold Spanfilade_file.
  assert (Hsame : ∀ k f, f ∈ slot_filings D k → fd_link f ≠ addr).
  { intros k [h l i s] (w & e & HD & _)%elem_of_slot_filings. cbn. intros ->. by apply Hfresh in HD. }
  assert (Hnil : ∀ k, length (sf_slots sf) ≤ k → slot_filings D k = []).
  { intros k Hk. apply lookup_ge_None in Hk. pose proof (Hn k Hk) as Hno. unfold slot_filings. clear -Hno.
    induction D as [|[[a h] w] D IH]; [done|]. cbn. rewrite (Hno a h w ltac:(by left)). apply IH. intros a' h' w' Hin. apply (Hno a' h'). by right. }
  destruct (file_slots_ok (sf_slots sf) (slot_filings D) home addr 0 (slots v)) as (ixs & E & Hlen & Hix);
    [lia|exact Hs|exact Hnil|eauto|].
  rewrite E. cbn. eexists. split; [done|]. split; cbn [sf_slots sf_homes].
  - intros k ix Hk. specialize (Hix k ix Hk). rewrite Nat.sub_0_r in Hix. cbn [Nat.leb] in Hix.
    unfold slot_filings. rewrite bind_app. cbn. by rewrite app_nil_r.
  - intros k Hk a h w Hin. apply lookup_ge_None in Hk. rewrite Hlen in Hk.
    apply elem_of_app in Hin as [Hin|[= -> -> ->]%list_elem_of_singleton]; [eapply Hn, Hin; apply lookup_ge_None; lia|apply lookup_ge_None; lia].
  - intros k Hk%lookup_lt_is_Some_1. rewrite Hlen in Hk. destruct (decide (k < length (sf_slots sf))) as [Hlt|Hge].
    + destruct (Hsome k ltac:(by apply lookup_lt_is_Some_2)) as (a & h & w & Hin & ?). exists a, h, w. split; [apply elem_of_app; by left|done].
    + exists addr, home, v. split; [apply elem_of_app; right; by left|]. apply lookup_lt_is_Some_2. lia.
  - intros h. rewrite elem_of_insert_new, Hh. setoid_rewrite elem_of_app. setoid_rewrite list_elem_of_singleton. naive_solver.
Qed.

(** ** The index is a function of what was filed *)

Lemma indexes_unique ix jx F : indexes ix F → indexes jx F → ix = jx.
Proof.
  intros [A1 A2 A3 A4 A5 A6 A7 A8] [B1 B2 B3 B4 B5 B6 B7 B8]. destruct ix, jx. cbn in *. f_equal.
  - apply set_eq. intros [[h s] l]. by rewrite A1, B1.
  - apply set_eq. intros p. by rewrite A2, B2.
  - apply set_eq. intros [p v]. by rewrite A3, B3.
  - apply set_eq. intros [[[[h p] v] x] l]. by rewrite A4, B4.
  - apply set_eq. intros [[[[h p] v] y] l]. by rewrite A5, B5.
  - apply map_eq. intros [[h l] i]. apply option_eq. intros s. by rewrite A6, B6.
  - apply set_eq. intros [[p b] h]. by rewrite A7, B7.
  - apply set_eq. intros [[[p v] n] h]. by rewrite A8, B8.
Qed.

Lemma files_unique sf tf D : files sf D → files tf D → sf = tf.
Proof.
  intros [A1 A2 A3 A4] [B1 B2 B3 B4].
  assert (Hiff : ∀ k, is_Some (sf_slots sf !! k) ↔ is_Some (sf_slots tf !! k)).
  { intros k. split; intros Hk.
    - destruct (sf_slots tf !! k) eqn:E; [done|]. destruct (A3 k Hk) as (a & h & v & Hin & [e He]). by rewrite (B2 k E a h v Hin) in He.
    - destruct (sf_slots sf !! k) eqn:E; [done|]. destruct (B3 k Hk) as (a & h & v & Hin & [e He]). by rewrite (A2 k E a h v Hin) in He. }
  destruct sf as [s1 h1], tf as [s2 h2]. cbn in *. f_equal.
  - apply list_eq. intros k. destruct (s1 !! k) as [ix|] eqn:E1, (s2 !! k) as [jx|] eqn:E2.
    + f_equal. by eapply indexes_unique; eauto.
    + destruct (proj1 (Hiff k)) as [? ?]; [by exists ix|congruence].
    + destruct (proj2 (Hiff k)) as [? ?]; [by exists jx|congruence].
    + done.
  - apply set_eq. intros h. by rewrite A4, B4.
Qed.

Lemma files_ext sf D E : (∀ d, d ∈ D ↔ d ∈ E) → files sf D → files sf E.
Proof.
  intros H [H1 H2 H3 H4]. split.
  - intros k ix Hk. eapply indexes_ext; [|by apply H1]. intros [h l i s]. rewrite !elem_of_slot_filings. by setoid_rewrite H.
  - intros k Hk a h v Hin%H. by eapply H2.
  - intros k Hk. destruct (H3 k Hk) as (a & h & v & Hin%H & ?). by exists a, h, v.
  - intros h. rewrite H4. by setoid_rewrite H.
Qed.
