(* ===== verification/HomeWalk.v ===== *)
(** * The walk of candidate homes

    Models the directory side of [crates/skep-links/src/state/spanfilade.rs] (M7): the
    streams of homes a query span opens on a slot's directory, and the walk that merges
    every stream into the candidate homes, ascending, each with the query spans whose
    streams named it and the parts of a stab they stand for. *)

From stdpp Require Import gmap sorting.
From S2P Require Import Prelude Tumblers Addresses Arith Spans SpanSets OrdSets Endsets Spanfilade.

(** ** Streams *)

(** [homes] is what the iterator has still to yield. *)
Record Stream := MkStream { st_pair : nat; st_span : option nat; st_parts : N; st_homes : list Home }.

(** The exclusive bound on an axis's coordinates below a reach. *)
Inductive Past := PastEvery | PastAt (c : Nat).

Definition starts_with_axis (a r : list Nat) : bool := bool_decide (take (length a) r = a).

Definition coordinates_below (a r : list Nat) : outcome (option Past) :=
  if (length a <? length r) && starts_with_axis a r then
    at_ ← index r (length a);
    Done (Some (PastAt (if length r =? length a + 1 then at_ else (at_ + 1)%N)))
  else Done (if match list_cmp a r with Lt => true | _ => false end then Some PastEvery else None).

(** The loop over the held blocks at or past [block]; each turn seeks a later one, so
    one turn for every entry of the directory is enough. *)
Fixpoint block_loop (fuel : nat) (ix : SlotIndex) (axis : Axis) (last_block : option Nat) (block : Nat)
    (pair span : nat) : list Stream :=
  match fuel with
  | 0 => []
  | S fuel =>
      match range (Included (axis, block, below_every_link)) Unbounded (starting_homes ix) with
      | [] => []
      | (at_, held, _) :: _ =>
          if negb (bool_decide (at_ = axis)) ||
             match last_block with Some last => (last <? held)%N | None => false end
          then []
          else
            let homes := snd <$> range (Included (axis, held, below_every_link))
              (Excluded (axis, (held + 1)%N, below_every_link)) (starting_homes ix) in
            MkStream pair (Some span) STARTING homes ::
            block_loop fuel ix axis last_block (held + 1)%N pair span
      end
  end.

Definition block_streams (ix : SlotIndex) (axis : Axis) (lowest : Nat) (past : Past) (pair span : nat) :
    outcome (list Stream) :=
  let go last_block :=
    Done (block_loop (S (size (starting_homes ix))) ix axis last_block (block_of axis lowest) pair span) in
  match past with
  | PastEvery => go None
  | PastAt past =>
      if (past <=? lowest)%N then Done []
      else before ← nat_sub past 1; go (Some (block_of axis before))
  end.

Definition starting_depth (ix : SlotIndex) (s r : list Nat) (pair span depth : nat) : outcome (list Stream) :=
  let axis := take depth s in
  if bool_decide (axis ∈ axes ix) then
    c ← index s depth;
    let lowest := if depth + 1 =? length s then c else (c + 1)%N in
    past ← coordinates_below axis r;
    match past with
    | Some past => block_streams ix axis lowest past pair span
    | None => Done []
    end
  else Done [].

Definition axis_between (ix : SlotIndex) (r : list Nat) (pair span : nat) (axis : Axis) : outcome (list Stream) :=
  past ← coordinates_below axis r;
  match past with
  | Some past => block_streams ix axis 0 past pair span
  | None => Done []
  end.

Definition node_streams (ix : SlotIndex) (s : list Nat) (pair span depth : nat) (c : Nat) : list Stream :=
  let axis := take depth s in
  if bool_decide (axis ∈ axes ix) then
    let own_axis := depth + 1 =? length s in
    levels_of ix axis ≫= λ level,
      if (level =? 0)%N && own_axis then []
      else
        let node := N.shiftr c level in
        [MkStream pair (Some span) CONTAINING
           (snd <$> range (Included (axis, level, node, below_every_link))
              (Excluded (axis, level, (node + 1)%N, below_every_link)) (containing_homes ix))]
  else [].

Definition index_streams (ix : SlotIndex) (q : Span) (pair span : nat) : outcome (list Stream) :=
  let s := comps (start q) in
  let r := comps (reach q) in
  own ← outcome_map (starting_depth ix s r pair span) (seq 0 (length s));
  between ← outcome_map (axis_between ix r pair span) (range (Included s) (Excluded r) (axes ix));
  Done (mjoin own ++ mjoin between ++ mjoin (imap (node_streams ix s pair span) s)).

(** [None] where there is no residue; the homes come off its keys, so a home repeats. *)
Definition residue_stream (ix : SlotIndex) (pair : nat) : option Stream :=
  if size (residue ix) =? 0 then None
  else Some (MkStream pair None RESIDUE ((λ k, k.1.1) <$> ord_list (dom (residue ix) : gset (Home * Tumbler * nat)))).

(** ** The merge *)

Record Touch := MkTouch { to_home : Address; to_held : Home; to_named : list (nat * N * Span) }.

(** The spans named for a query, each with the parts its streams stand for. *)
Definition named_at (t : Touch) (query : nat) : list (Span * N) :=
  (λ n, (n.2, n.1.2)) <$> List.filter (λ n, n.1.1 =? query) (to_named t).

Definition touch_spans (t : Touch) (query : nat) : list Span := fst <$> named_at t query.

(** [heap] is the binary heap's entries, least first. *)
Record Touching := MkTouching { tg_spans : list (list Span); tg_streams : list Stream; tg_heap : list (Home * nat) }.

Definition heap_push (x : Home * nat) (heap : list (Home * nat)) : list (Home * nat) := merge_sort ole (x :: heap).

(** [if let Some(home) = self.streams[i].homes.next() { self.heap.push(..) }] *)
Definition advance (streams : list Stream) (heap : list (Home * nat)) (i : nat) :
    outcome (list Stream * list (Home * nat)) :=
  st ← index streams i;
  match st_homes st with
  | [] => Done (streams, heap)
  | home :: rest =>
      Done (<[i := MkStream (st_pair st) (st_span st) (st_parts st) rest]> streams, heap_push (home, i) heap)
  end.

Fixpoint open_loop (streams : list Stream) (heap : list (Home * nat)) (is_ : list nat) :
    outcome (list Stream * list (Home * nat)) :=
  match is_ with
  | [] => Done (streams, heap)
  | i :: is_ => '(streams, heap) ← advance streams heap i; open_loop streams heap is_
  end.

Definition Touching_open (spans : list (list Span)) (streams : list Stream) : outcome Touching :=
  '(streams, heap) ← open_loop streams [] (seq 0 (length streams));
  Done (MkTouching spans streams heap).

(** Every stream that names [home] is drained and advanced; [None] is out of fuel. *)
Fixpoint drain (fuel : nat) (home : Home) (streams : list Stream) (heap : list (Home * nat)) (naming : list nat) :
    outcome (option (list Stream * list (Home * nat) * list nat)) :=
  match heap with
  | [] => Done (Some (streams, heap, naming))
  | (next, i) :: rest =>
      if negb (bool_decide (next = home)) then Done (Some (streams, heap, naming))
      else
        match fuel with
        | 0 => Done None
        | S fuel =>
            '(streams, heap) ← advance streams rest i;
            drain fuel home streams heap (naming ++ [i])
        end
  end.

(** [Option<usize>]'s order: [None] first. *)
Definition span_key (o : option nat) : nat := match o with None => 0 | Some i => S i end.

Definition naming_key (streams : list Stream) (i : nat) : nat * nat :=
  match streams !! i with Some st => (st_pair st, span_key (st_span st)) | None => (0, 0) end.

Definition naming_le (streams : list Stream) (i j : nat) : Prop := ole (naming_key streams i) (naming_key streams j).

#[export] Instance naming_le_dec streams : RelDecision (naming_le streams).
Proof. intros i j. unfold naming_le. apply _. Defined.

(** The heading streams opened for [(pair, span)], consumed, their parts joined. *)
Fixpoint join_parts (at_ : list Stream) (pair : nat) (span : option nat) (parts : N) : N * list Stream :=
  match at_ with
  | [] => (parts, [])
  | st :: rest =>
      if (st_pair st =? pair) && bool_decide (st_span st = span)
      then join_parts rest pair span (parts_with parts (st_parts st))
      else (parts, at_)
  end.

(** A pair's spans, where no stream named the whole query. *)
Fixpoint name_spans (fuel : nat) (spans : list Span) (pair : nat) (at_ : list Stream) :
    outcome (list (nat * N * Span) * list Stream) :=
  match fuel, at_ with
  | S fuel, MkStream next (Some span) _ _ :: _ =>
      if negb (next =? pair) then Done ([], at_)
      else
        let '(parts, at_) := join_parts at_ pair (Some span) PART_NONE in
        q ← index spans span;
        '(named, at_) ← name_spans fuel spans pair at_;
        Done ((pair, parts, q) :: named, at_)
  | _, _ => Done ([], at_)
  end.

(** A pair's spans, where some stream named the whole query. *)
Fixpoint name_whole (i : nat) (spans : list Span) (pair : nat) (whole : N) (at_ : list Stream) :
    list (nat * N * Span) * list Stream :=
  match spans with
  | [] => ([], at_)
  | q :: spans =>
      let '(parts, at_) := join_parts at_ pair (Some i) whole in
      let '(named, at_) := name_whole (S i) spans pair whole at_ in
      ((pair, parts, q) :: named, at_)
  end.

(** Each turn consumes a stream, so one turn for every stream is enough. *)
Fixpoint name_pairs (fuel : nat) (spans : list (list Span)) (at_ : list Stream) : outcome (list (nat * N * Span)) :=
  match fuel, at_ with
  | S fuel, MkStream query _ _ _ :: _ =>
      let '(whole, at_) := join_parts at_ query None PART_NONE in
      qs ← index spans query;
      '(named, at_) ← (if (whole =? PART_NONE)%N then name_spans (length at_) qs query at_
                        else Done (name_whole 0 qs query whole at_));
      rest ← name_pairs fuel spans at_;
      Done (named ++ rest)
  | _, _ => Done []
  end.

Definition lift_home (home : Home) : outcome Address := expect_ok (validate home).

(** What the walk has still to yield, which bounds its turns. *)
Definition homes_left (t : Touching) : nat :=
  length (tg_heap t) + sum_list (length ∘ st_homes <$> tg_streams t).

Definition Touching_next (t : Touching) : outcome (option (Touch * Touching)) :=
  match tg_heap t with
  | [] => Done None
  | (home, first) :: rest =>
      '(streams, heap) ← advance (tg_streams t) rest first;
      d ← drain (homes_left t) home streams heap [first];
      '(streams, heap, naming) ← expect_some d;
      at_ ← outcome_map (index streams) (merge_sort (naming_le streams) naming);
      named ← name_pairs (length at_) (tg_spans t) at_;
      address ← lift_home home;
      Done (Some (MkTouch address home named, MkTouching (tg_spans t) streams heap))
  end.

(** The walk taken to its end. *)
Fixpoint touches (fuel : nat) (t : Touching) : outcome (list Touch) :=
  match fuel with
  | 0 => Done []
  | S fuel =>
      n ← Touching_next t;
      match n with
      | None => Done []
      | Some (touch, t) => rest ← touches fuel t; Done (touch :: rest)
      end
  end.
