(* ===== verification/HomeWalkLaws.v ===== *)
(** * The candidate homes are enough

    Every home with a filing a query span meets is named by a stream of the directory,
    at the part of the stab that finds it; and the merged walk yields each named home
    once, ascending, with every span and part its streams stand for. *)

From Stdlib Require Import NArith.
From stdpp Require Import gmap sorting.
From S2P Require Import Prelude Tumblers Addresses Arith Spans SpanSets OrdSets Endsets Spanfilade SpanfiladeLaws HomeWalk.

(** ** Coordinates below a reach *)

Lemma list_cmp_snoc_gt a c r : list_cmp a r ≠ Lt → list_cmp (a ++ [c]) r = Gt.
Proof.
  intros H. rewrite list_cmp_antisym. assert (list_cmp r (a ++ [c]) = Lt) as ->; [|done].
  assert (Hp : list_cmp a (a ++ [c]) = Lt) by (by apply list_cmp_prefix).
  destruct (list_cmp a r) eqn:E; [apply list_cmp_eq in E as <-; done|done|].
  eapply list_cmp_trans; [|exact Hp]. by rewrite list_cmp_antisym, E.
Qed.

Lemma coordinates_below_ok a r :
  ∃ o, coordinates_below a r = Done o ∧
    ∀ c, list_cmp (a ++ [c]) r = Lt ↔
      match o with None => False | Some PastEvery => True | Some (PastAt k) => (c < k)%N end.
Proof.
  unfold coordinates_below, starts_with_axis. destruct ((length a <? length r) && bool_decide (take (length a) r = a)) eqn:Hb.
  - apply andb_true_iff in Hb as [Hl%Nat.ltb_lt Ht%bool_decide_eq_true].
    assert (∃ z r', r = a ++ z :: r') as (z & r' & ->).
    { rewrite <- (take_drop (length a) r), Ht. destruct (drop (length a) r) as [|z r'] eqn:Ed; [|by exists z, r'].
      apply (f_equal length) in Ed. rewrite length_drop in Ed. cbn in Ed. lia. }
    rewrite (index_ok (a ++ z :: r') (length a) z) by (by apply list_lookup_middle). cbn [mbind outcome_bind].
    eexists. split; [reflexivity|]. intros c. rewrite list_cmp_app. cbn -[N.compare]. rewrite length_app. cbn [length].
    destruct (Nat.eqb_spec (length a + S (length r')) (length a + 1)) as [E|E].
    + destruct r'; [|cbn in E; lia]. destruct (N.compare_spec c z); split; try done; lia.
    + destruct r'; [cbn in E; lia|]. destruct (N.compare_spec c z); split; try done; lia.
  - assert (Hnp : ∀ e, e ≠ [] → r ≠ a ++ e).
    { intros e He ->. rewrite length_app, take_app_length, bool_decide_eq_true_2 in Hb by done. rewrite andb_true_r in Hb.
      apply Nat.ltb_ge in Hb. destruct e; [done|cbn in Hb; lia]. }
    destruct (list_cmp a r) eqn:E; eexists; (split; [reflexivity|]); intros c.
    + by rewrite list_cmp_snoc_gt by congruence.
    + split; [done|]. intros _. apply list_cmp_lt_inv in E as [(e & He & Hr)|(p & u & w & a' & b' & -> & -> & Huw)]; [by destruct (Hnp e)|].
      rewrite <- app_assoc. by apply list_cmp_app_lt.
    + by rewrite list_cmp_snoc_gt by congruence.
Qed.

(** ** The block streams *)

Lemma block_of_mono p x y : (x ≤ y)%N → (block_of p x ≤ block_of p y)%N.
Proof.
  intros H. unfold block_of. destruct (rev p) as [|? [|? ?]]; [done..|]. case_match; [|done].
  rewrite !N.shiftr_div_pow2. apply N.Div0.div_le_mono. done.
Qed.

Lemma filter_length_lt {A} (P Q : A → bool) l x :
  (∀ y, P y = true → Q y = true) → x ∈ l → Q x = true → P x = false →
  length (List.filter P l) < length (List.filter Q l).
Proof.
  intros HPQ Hx Hq Hp.
  assert (Hle : ∀ k, length (List.filter P k) ≤ length (List.filter Q k)).
  { induction k as [|y k IHk]; [done|]. cbn. destruct (P y) eqn:Ep; [rewrite (HPQ y Ep); cbn; lia|]. destruct (Q y); cbn; lia. }
  induction l as [|y l IH]; [by apply not_elem_of_nil in Hx|]. cbn. apply elem_of_cons in Hx as [<-|Hx].
  - rewrite Hp, Hq. cbn. specialize (Hle l). lia.
  - specialize (IH Hx). destruct (P y) eqn:Ep; [rewrite (HPQ y Ep); cbn; lia|]. destruct (Q y); cbn; lia.
Qed.

Section Streams.
Context (ix : SlotIndex) (F : list Filed) (Hix : indexes ix F).

Definition home_filed (h : Home) : Prop := ∃ l i s, MkFiled h l i s ∈ F.

Lemma run_in_home h l p x y : run_in F h l p x y → home_filed h.
Proof using. intros (i & s & Hf & _). by exists l, i, s. Qed.

(** A stream of filed homes, ascending, under its tag. *)
Definition stream_ok (pr : nat) (st : Stream) : Prop :=
  st_pair st = pr ∧ st_parts st ≠ PART_NONE ∧ StronglySorted ole (st_homes st) ∧ ∀ h, h ∈ st_homes st → home_filed h.

(** The homes of one front of a directory. *)
Lemma front_homes {A} `{OrdLaws A, !EqDecision A, !Countable A} (s : gset (A * Home)) (a b : A) :
  (∀ x, ole a x → olt x b → x = a) → olt a b →
  StronglySorted ole (snd <$> range (Included (a, below_every_link)) (Excluded (b, below_every_link)) s) ∧
  ∀ h, h ∈ snd <$> range (Included (a, below_every_link)) (Excluded (b, below_every_link)) s ↔ (a, h) ∈ s.
Proof using.
  intros Hab Hlt. split.
  - assert (Hfront : ∀ e, e ∈ range (Included (a, below_every_link)) (Excluded (b, below_every_link)) s → e.1 = a).
    { intros [x h] Hin%front_range. cbn. apply Hab; apply Hin. }
    pose proof (range_strict (Included (a, below_every_link)) (Excluded (b, below_every_link)) s) as Hs. revert Hfront.
    induction Hs as [|[x h] l Hs IH Hf]; intros Hfront; [constructor|]. cbn. constructor.
    + apply IH. intros e He. apply Hfront. by right.
    + apply Forall_fmap. apply Forall_forall. intros [x' h'] Hin. cbn. eapply (proj1 (Forall_forall _ _)) in Hf; [|exact Hin].
      pose proof (Hfront (x, h) ltac:(by left)) as E1. pose proof (Hfront (x', h') ltac:(by right)) as E2. cbn in E1, E2. subst x x'.
      rewrite pair_olt in Hf. destruct Hf as [Hf|[_ Hf]]; [by apply olt_irrefl in Hf|]. apply ole_lt_eq. by left.
  - intros h. rewrite list_elem_of_fmap. split.
    + intros ([x h'] & -> & (Hin & Hlo & Hhi)%front_range). cbn. by rewrite <- (Hab x Hlo Hhi).
    + intros Hin. exists (a, h). split; [done|]. apply front_range. split_and!; [done| |done]. apply ole_lt_eq. by right.
Qed.

Lemma succ_front {A} `{OrdLaws A} (a x : A) (n : N) (y : N) :
  ole (a, n) (x, y) → olt (x, y) (a, (n + 1)%N) → (x, y) = (a, n).
Proof using.
  intros Hlo Hhi. destruct (pair_between _ _ _ _ _ Hlo Hhi) as (-> & Hl & Hu). f_equal.
  rewrite ole_N in Hl. rewrite olt_N in Hu. lia.
Qed.

Lemma succ_olt {A} `{OrdLaws A} (a : A) (n : N) : olt (a, n) (a, (n + 1)%N).
Proof using. apply pair_olt. right. split; [done|]. apply olt_N. lia. Qed.

Lemma block_loop_ok fuel p last block pr sp :
  length (range (Included (p, block, below_every_link)) Unbounded (starting_homes ix)) < fuel →
  (∀ st, st ∈ block_loop fuel ix p last block pr sp → stream_ok pr st ∧ st_span st = Some sp) ∧
  ∀ b h, (p, b, h) ∈ starting_homes ix → (block ≤ b)%N → match last with Some k => (b ≤ k)%N | None => True end →
    ∃ st, st ∈ block_loop fuel ix p last block pr sp ∧ st_parts st = STARTING ∧ h ∈ st_homes st.
Proof using Hix.
  revert block. induction fuel as [|fuel IH]; intros block Hfuel; [lia|]. cbn [block_loop].
  destruct (range (Included (p, block, below_every_link)) Unbounded (starting_homes ix)) as [|[[at_ held] h0] rest] eqn:Er.
  { split; [by intros st ?%not_elem_of_nil|]. intros b h Hin Hb _. exfalso. pose proof (proj1 (range_nil _ _ _) Er (p, b, h) Hin) as Hno.
    apply Hno; [|done]. apply from_ok_included, pair_ole. pose proof (ole_least h) as Hl.
    rewrite pair_olt. destruct (N.eq_dec block b) as [->|]; [by right|]. left. right. split; [done|]. apply olt_N. lia. }
  pose proof (range_head _ _ _ _ _ Er) as (Hhead & Hfrom & _ & Hleast). apply from_ok_included in Hfrom. rewrite pair_ole in Hfrom.
  assert (Hge : ∀ b h, (p, b, h) ∈ starting_homes ix → (block ≤ b)%N → ole (at_, held, h0) (p, b, h)).
  { intros b h Hin Hb. apply Hleast; [done| |done]. apply from_ok_included, pair_ole. pose proof (ole_least h).
    rewrite pair_olt. destruct (N.eq_dec block b) as [->|]; [by right|]. left. right. split; [done|]. apply olt_N. lia. }
  assert (Hap : (∃ b h, (p, b, h) ∈ starting_homes ix ∧ (block ≤ b)%N) → at_ = p).
  { intros (b & h & Hin & Hb). pose proof (Hge b h Hin Hb) as Hle. rewrite pair_ole in Hle.
    assert (H1 : ole p at_) by (apply ole_lt_eq; rewrite pair_olt in Hfrom; destruct Hfrom as [[?|[-> _]]|[[= -> _] _]]; [by left|by right..]).
    assert (H2 : ole at_ p) by (apply ole_lt_eq; rewrite pair_olt in Hle; destruct Hle as [[?|[-> _]]|[[= -> _] _]]; [by left|by right..]).
    by apply ole_antisym. }
  destruct (negb (bool_decide (at_ = p)) || match last with Some k => (k <? held)%N | None => false end) eqn:Hstop.
  { split; [by intros st ?%not_elem_of_nil|]. intros b h Hin Hb Hlast. exfalso.
    assert (at_ = p) as -> by (apply Hap; by exists b, h). rewrite bool_decide_eq_true_2 in Hstop by done. cbn in Hstop.
    destruct last as [k|]; [|done]. apply N.ltb_lt in Hstop. pose proof (Hge b h Hin Hb) as Hle. rewrite pair_ole, pair_olt in Hle.
    destruct Hle as [[Hx|[_ Hx]]|[[= ->] _]]; [by apply olt_irrefl in Hx| |lia]. rewrite olt_N in Hx. lia. }
  apply orb_false_iff in Hstop as [->%negb_false_iff%bool_decide_eq_true Hlast].
  assert (Hblock : (block ≤ held)%N).
  { rewrite pair_olt in Hfrom. destruct Hfrom as [[Hx|[_ Hx]]|[[= ->] _]]; [by apply olt_irrefl in Hx| |done]. rewrite olt_N in Hx. lia. }
  destruct (front_homes (starting_homes ix) (p, held) (p, (held + 1)%N)) as [Hsort Hhomes].
  { intros [x y]. apply succ_front. } { apply succ_olt. }
  destruct (IH (held + 1)%N) as [IH1 IH2].
  { assert (Hlt : length (range (Included (p, (held + 1)%N, below_every_link)) Unbounded (starting_homes ix)) <
      length (range (Included (p, block, below_every_link)) Unbounded (starting_homes ix))); [|rewrite Er in Hlt; cbn in *; lia].
    apply (filter_length_lt _ _ _ (p, held, h0)).
    - intros e. rewrite !andb_true_r. rewrite !from_ok_included. intros He. etransitivity; [|exact He]. apply pair_ole. left. apply pair_olt.
      right. split; [done|]. apply olt_N. lia.
    - by apply elem_of_ord_list.
    - rewrite andb_true_r. apply from_ok_included. by apply pair_ole.
    - apply not_true_is_false. rewrite andb_true_r, from_ok_included, pair_ole, pair_olt. intros [[Hx|[_ Hx]]|[[= Hx] _]]; [by apply olt_irrefl in Hx| |lia].
      rewrite olt_N in Hx. lia. }
  split.
  - intros st [->|Hst]%elem_of_cons; [|auto]. split; [|done]. split_and!; [done|done|done|]. intros h Hh%Hhomes.
    apply Hix in Hh as (l & x & y & Hr & _). by eapply run_in_home.
  - intros b h Hin Hb Hk. destruct (N.eq_dec b held) as [->|Hne].
    + eexists. split; [by left|]. split; [done|]. by apply Hhomes.
    + destruct (IH2 b h Hin) as (st & Hst & ? & ?); [|done|exists st; split_and!; [by right|done..]].
      pose proof (Hge b h Hin Hb) as Hle. rewrite pair_ole, pair_olt in Hle.
      destruct Hle as [[Hx|[_ Hx]]|[[= ->] _]]; [by apply olt_irrefl in Hx| |done]. rewrite olt_N in Hx. lia.
Qed.

Lemma range_le_size {A} `{OrdLaws A, !EqDecision A, !Countable A} lo hi (s : gset A) : length (range lo hi s) ≤ size s.
Proof using.
  unfold range, size, set_size. cbn. rewrite <- (Permutation_length (merge_sort_Permutation ole (elements s))).
  unfold ord_list. generalize (merge_sort ole (elements s)). intros l. induction l as [|x l IH]; [done|].
  cbn [List.filter]. destruct (from_ok lo x && to_ok hi x); cbn [length]; lia.
Qed.

Lemma block_streams_ok p lowest past pr sp :
  ∃ sts, block_streams ix p lowest past pr sp = Done sts ∧
    (∀ st, st ∈ sts → stream_ok pr st ∧ st_span st = Some sp) ∧
    ∀ h l x y, run_in F h l p x y → (lowest ≤ x)%N →
      match past with PastEvery => True | PastAt k => (x < k)%N end →
      ∃ st, st ∈ sts ∧ st_parts st = STARTING ∧ h ∈ st_homes st.
Proof using Hix.
  assert (Hgo : ∀ last, 
    let sts := block_loop (S (size (starting_homes ix))) ix p last (block_of p lowest) pr sp in
    (∀ st, st ∈ sts → stream_ok pr st ∧ st_span st = Some sp) ∧
    ∀ h l x y, run_in F h l p x y → (lowest ≤ x)%N → match last with Some k => (block_of p x ≤ k)%N | None => True end →
      ∃ st, st ∈ sts ∧ st_parts st = STARTING ∧ h ∈ st_homes st).
  { intros last. destruct (block_loop_ok (S (size (starting_homes ix))) p last (block_of p lowest) pr sp) as [H1 H2].
    { apply Nat.lt_succ_r, range_le_size. }
    split; [done|]. intros h l x y Hr Hx Hlast. apply (H2 (block_of p x)); [|by apply block_of_mono|done]. apply Hix. by exists l, x, y. }
  unfold block_streams. destruct past as [|k].
  - eexists. split; [reflexivity|]. destruct (Hgo None) as [H1 H2]. split; [done|]. intros. by eapply H2.
  - destruct (N.leb_spec k lowest).
    { exists []. split_and!; [done|by intros st ?%not_elem_of_nil|]. intros. lia. }
    rewrite nat_sub_ok by lia. cbn [mbind outcome_bind]. eexists. split; [reflexivity|]. destruct (Hgo (Some (block_of p (k - 1)))) as [H1 H2].
    split; [done|]. intros h l x y Hr Hx Hk. eapply H2; [done|done|]. apply block_of_mono. lia.
Qed.

Lemma outcome_map_ok {A B} (f : A → outcome B) (l : list A) (P : A → B → Prop) :
  (∀ x, x ∈ l → ∃ y, f x = Done y ∧ P x y) → ∃ ys, outcome_map f l = Done ys ∧ Forall2 P l ys.
Proof using.
  induction l as [|x l IH]; intros H; [exists []; split; [done|constructor]|]. cbn.
  destruct (H x ltac:(by left)) as (y & -> & Hy). destruct IH as (ys & -> & Hys); [intros; apply H; by right|].
  exists (y :: ys). split; [done|]. by constructor.
Qed.

Lemma elem_of_mjoin_Forall2 {A B} (P : A → list B → Prop) l ls (b : B) :
  Forall2 P l ls → b ∈ mjoin ls → ∃ x y, x ∈ l ∧ P x y ∧ b ∈ y.
Proof using.
  intros HF. rewrite list_elem_of_join. intros (y & Hb & (i & Hy)%list_elem_of_lookup). destruct (Forall2_lookup_r _ _ _ _ _ HF Hy) as (x & Hx & HP).
  exists x, y. split_and!; [by eapply list_elem_of_lookup_2|done|done].
Qed.

Lemma mjoin_Forall2_elem {A B} (P : A → list B → Prop) l ls x :
  Forall2 P l ls → x ∈ l → ∃ y, P x y ∧ ∀ b, b ∈ y → b ∈ mjoin ls.
Proof using.
  intros HF (i & Hx)%list_elem_of_lookup. destruct (Forall2_lookup_l _ _ _ _ _ HF Hx) as (y & Hy & HP).
  exists y. split; [done|]. intros b Hb. apply list_elem_of_join. exists y. split; [done|]. by eapply list_elem_of_lookup_2.
Qed.

(** One axis's block streams name every home with a run starting inside. *)
Definition axis_ok (pr sp : nat) (p : Axis) (lowest : Nat) (r : list Nat) (sts : list Stream) : Prop :=
  (∀ st, st ∈ sts → stream_ok pr st ∧ st_span st = Some sp) ∧
  ∀ h l x y, run_in F h l p x y → (lowest ≤ x)%N → list_cmp (p ++ [x]) r = Lt →
    ∃ st, st ∈ sts ∧ st_parts st = STARTING ∧ h ∈ st_homes st.

Lemma axis_streams_ok p lowest r pr sp :
  ∃ sts, (past ← coordinates_below p r;
    match past with Some past => block_streams ix p lowest past pr sp | None => Done [] end) = Done sts ∧
    axis_ok pr sp p lowest r sts.
Proof using Hix.
  destruct (coordinates_below_ok p r) as (o & -> & Ho). cbn [mbind outcome_bind]. destruct o as [past|].
  - destruct (block_streams_ok p lowest past pr sp) as (sts & E & H1 & H2). exists sts. split; [done|]. split; [done|].
    intros h l x y Hr Hx Hc. eapply H2; [done|done|]. apply Ho in Hc. by destruct past.
  - exists []. split; [done|]. split; [by intros st ?%not_elem_of_nil|]. intros h l x y _ _ Hc. by apply Ho in Hc.
Qed.

Lemma starting_depth_ok q pr sp depth c :
  comps (start q) !! depth = Some c →
  ∃ sts, starting_depth ix (comps (start q)) (comps (reach q)) pr sp depth = Done sts ∧
    axis_ok pr sp (take depth (comps (start q))) (if depth + 1 =? length (comps (start q)) then c else (c + 1)%N) (comps (reach q)) sts.
Proof using Hix.
  intros Hc. unfold starting_depth. case_bool_decide as Hax.
  - rewrite (index_ok _ _ _ Hc). cbn [mbind outcome_bind]. apply axis_streams_ok.
  - exists []. split; [done|]. split; [by intros st ?%not_elem_of_nil|]. intros h l x y Hr _ _. exfalso. apply Hax. apply Hix. by exists h, l, x, y.
Qed.

Lemma node_streams_ok s pr sp depth c :
  levels_small F → s !! depth = Some c →
  (∀ st, st ∈ node_streams ix s pr sp depth c → stream_ok pr st ∧ st_span st = Some sp) ∧
  ∀ h l x y, run_in F h l (take depth s) x y → (x ≤ c < y)%N → (length s = depth + 1 → x ≠ c) →
    ∃ st, st ∈ node_streams ix s pr sp depth c ∧ st_parts st = CONTAINING ∧ h ∈ st_homes st.
Proof using Hix.
  intros Hsmall Hc. unfold node_streams.
  assert (Hfront : ∀ v n, let hs := snd <$> range (Included (take depth s, v, n, below_every_link))
      (Excluded (take depth s, v, (n + 1)%N, below_every_link)) (containing_homes ix) in
    StronglySorted ole hs ∧ ∀ h, h ∈ hs ↔ (take depth s, v, n, h) ∈ containing_homes ix).
  { intros v n. apply front_homes; [intros [a b]; apply succ_front|apply succ_olt]. }
  case_bool_decide as Hax.
  - split.
    + intros st (v & Hst & _)%list_elem_of_bind. case_match; [by apply not_elem_of_nil in Hst|].
      apply list_elem_of_singleton in Hst as ->. destruct (Hfront v (N.shiftr c v)) as [Hs Hh]. split; [|done]. split_and!; [done|done|done|].
      intros h Hin%Hh. apply Hix in Hin as (l & x & y & Hr & _). by eapply run_in_home.
    + intros h l x y Hr Hxy Hne. set (v := run_level x y). pose proof (run_in_lt _ _ _ _ _ _ Hr) as Hlt.
      destruct (Hfront v (N.shiftr c v)) as [_ Hh].
      exists (MkStream pr (Some sp) CONTAINING (snd <$> range (Included (take depth s, v, N.shiftr c v, below_every_link))
        (Excluded (take depth s, v, (N.shiftr c v + 1)%N, below_every_link)) (containing_homes ix))).
      split; [|split; [|cbn [st_homes]; apply Hh, Hix; exists l, x, y; split_and!; [done|done|]]].
      * apply list_elem_of_bind. exists v. split; [|apply (elem_of_levels_of ix F Hix); [done|by exists h, l, x, y]].
        destruct ((v =? 0)%N && (depth + 1 =? length s)) eqn:Hskip; [|by left]. exfalso. apply andb_true_iff in Hskip as [Hv%N.eqb_eq Hd%Nat.eqb_eq].
        apply (run_level_zero x y Hlt) in Hv. specialize (Hne ltac:(lia)). lia.
      * done.
      * destruct (N.eq_dec v 0%N) as [Hv|Hv].
        { rewrite Hv, !N.shiftr_0_r. apply (run_level_zero x y Hlt) in Hv. lia. }
        assert (Hv' : run_level x y = ((v - 1) + 1)%N) by (fold v; lia).
        destruct (run_level_pos x y (v - 1) Hlt Hv') as (Hsh & _). replace (v - 1 + 1)%N with v in Hsh by lia.
        apply same_block. pose proof (block_bounds x v). pose proof (block_bounds (y - 1) v) as Hb. rewrite <- Hsh in Hb. lia.
  - split; [by intros st ?%not_elem_of_nil|]. intros h l x y Hr _ _. exfalso. apply Hax. apply Hix. by exists h, l, x, y.
Qed.

(** Every home the starting half or the containing half of a stab could hit. *)
Lemma index_streams_ok q pr sp :
  levels_small F →
  ∃ sts, index_streams ix q pr sp = Done sts ∧
    (∀ st, st ∈ sts → stream_ok pr st ∧ st_span st = Some sp) ∧
    (∀ h l, l ∈ starting_inside ix h q → ∃ st, st ∈ sts ∧ st_parts st = STARTING ∧ h ∈ st_homes st) ∧
    (∀ h l, l ∈ containing ix h (start q) → ∃ st, st ∈ sts ∧ st_parts st = CONTAINING ∧ h ∈ st_homes st).
Proof using Hix.
  intros Hsmall. set (s := comps (start q)). set (r := comps (reach q)).
  destruct (outcome_map_ok (starting_depth ix s r pr sp) (seq 0 (length s))
    (λ d sts, ∀ c, s !! d = Some c → axis_ok pr sp (take d s) (if d + 1 =? length s then c else (c + 1)%N) r sts)) as (own & Eown & Hown).
  { intros d Hd%elem_of_seq. destruct (lookup_lt_is_Some_2 s d ltac:(lia)) as [c Hc].
    destruct (starting_depth_ok q pr sp d c Hc) as (sts & E & H). exists sts. split; [exact E|]. intros c' Hc'. rewrite Hc in Hc'. injection Hc' as <-. exact H. }
  destruct (outcome_map_ok (axis_between ix r pr sp) (range (Included s) (Excluded r) (axes ix))
    (λ p sts, axis_ok pr sp p 0 r sts)) as (btw & Ebtw & Hbtw).
  { intros p _. apply axis_streams_ok. }
  unfold index_streams. fold s r. rewrite Eown. cbn [mbind outcome_bind]. rewrite Ebtw. cbn [mbind outcome_bind].
  eexists. split; [reflexivity|]. split_and!.
  - intros st. rewrite !elem_of_app. intros [H|[H|H]].
    + destruct (elem_of_mjoin_Forall2 _ _ _ _ Hown H) as (d & sts & Hd%elem_of_seq & Hok & Hin).
      destruct (lookup_lt_is_Some_2 s d ltac:(lia)) as [c Hc]. by apply (Hok c Hc).
    + destruct (elem_of_mjoin_Forall2 _ _ _ _ Hbtw H) as (p & sts & _ & Hok & Hin). by apply Hok.
    + apply list_elem_of_join in H as (sts & Hin & (d & c & -> & Hc)%elem_of_lookup_imap).
      by apply (proj1 (node_streams_ok s pr sp d c Hsmall Hc)).
  - intros h l Hl. apply (starting_inside_iff ix F Hix) in Hl as (i & sp' & Hf & [[p x y] E] & Hlo & Hhi).
    assert (Hr : run_in F h l p x y) by by exists i, sp'. destruct (sibling_run_spec _ _ _ _ E) as (Hst & _).
    unfold Tle, Tlt, cmp in Hlo, Hhi. fold s in Hlo. fold r in Hhi. rewrite Hst in Hlo, Hhi.
    destruct (decide (length p < length s ∧ take (length p) s = p)) as [[Hlen Hp]|Hnp].
    + destruct (mjoin_Forall2_elem _ _ _ (length p) Hown) as (sts & Hok & Hin); [apply elem_of_seq; lia|].
      destruct (lookup_lt_is_Some_2 s (length p) Hlen) as [c Hc]. specialize (Hok c Hc). rewrite Hp in Hok.
      destruct (proj2 Hok h l x y Hr) as (st & Hst' & ? & ?); [|done|exists st; split_and!; [apply elem_of_app; auto|done|done]].
      destruct (take_split s (length p) c Hc) as (rest & Hs & _). rewrite Hp in Hs. rewrite Hs, list_cmp_app in Hlo. cbn -[N.compare] in Hlo.
      pose proof (f_equal length Hs) as Hlens. rewrite length_app in Hlens. cbn in Hlens.
      destruct (Nat.eqb_spec (length p + 1) (length s)).
      * destruct (N.compare_spec c x); [lia|lia|done].
      * destruct (N.compare_spec c x); [|lia|done]. destruct rest; [cbn in *; lia|done].
    + assert (Hax : p ∈ range (Included s) (Excluded r) (axes ix)).
      { apply elem_of_range. split_and!; [apply Hix; by exists h, l, x, y| |].
        - apply from_ok_included. unfold ole, ocmp, comps_ord. intros Hgt. rewrite list_cmp_antisym in Hgt.
          destruct (list_cmp p s) eqn:Ec; try done. apply list_cmp_lt_inv in Ec as [(e & He & Hs)|(u & a & b & p' & s' & -> & Hs & Hab)].
          + apply Hnp. rewrite Hs, length_app, take_app_length. destruct e; [done|]. cbn. split; [lia|done].
          + apply Hlo. rewrite Hs, <- app_assoc. cbn. rewrite list_cmp_antisym. by rewrite list_cmp_app_lt.
        - apply to_ok_excluded. unfold olt, ocmp, comps_ord. eapply list_cmp_trans; [|exact Hhi]. by apply list_cmp_prefix. }
      destruct (mjoin_Forall2_elem _ _ _ p Hbtw Hax) as (sts & Hok & Hin).
      destruct (proj2 Hok h l x y Hr) as (st & Hst' & ? & ?); [lia|done|]. exists st. split_and!; [|done|done]. apply elem_of_app. right. apply elem_of_app. auto.
  - intros h l Hl. apply (containing_iff ix F Hix) in Hl as (p & x & y & c & rest & Hr & Hs & Hxy & Hne); [|done]. fold s in Hs.
    assert (Hc : s !! length p = Some c) by (rewrite Hs; by apply list_lookup_middle).
    assert (Hp : take (length p) s = p) by (rewrite Hs; apply take_app_length).
    destruct (node_streams_ok s pr sp (length p) c Hsmall Hc) as [_ Hnode]. rewrite Hp in Hnode.
    destruct (Hnode h l x y Hr Hxy) as (st & Hst & ? & ?).
    { intros Hlen. apply Hne. apply (f_equal length) in Hs. rewrite length_app in Hs. cbn in Hs. destruct rest; [done|cbn in *; lia]. }
    exists st. split_and!; [|done|done]. apply elem_of_app. right. apply elem_of_app. right. apply list_elem_of_join.
    exists (node_streams ix s pr sp (length p) c). split; [done|]. apply elem_of_lookup_imap. by exists (length p), c.
Qed.

Lemma residue_stream_ok pr :
  (∀ st, residue_stream ix pr = Some st → stream_ok pr st ∧ st_span st = None) ∧
  ∀ h l q, l ∈ residue_in ix h q → ∃ st, residue_stream ix pr = Some st ∧ st_parts st = RESIDUE ∧ h ∈ st_homes st.
Proof using Hix.
  unfold residue_stream. split.
  - intros st. case_match; [done|]. intros [= <-]. split; [|done]. split_and!; [done|done| |].
    + cbn [st_homes]. pose proof (ord_list_strict (dom (residue ix) : gset (Home * Tumbler * nat))) as Hs.
      induction Hs as [|[[a b] c] l Hs IH Hf]; cbn; [constructor|]. constructor; [done|].
      apply Forall_fmap. eapply Forall_impl; [exact Hf|]. intros [[a' b'] c']. cbn. rewrite !pair_olt. intros [[?|[-> _]]|[[= -> _] _]]; apply ole_lt_eq; auto.
    + cbn [st_homes]. intros h ([[a b] c] & -> & Hin)%list_elem_of_fmap. apply elem_of_ord_list, elem_of_dom in Hin as [s Hs].
      apply Hix in Hs as [Hs _]. cbn. by exists b, c, s.
  - intros h l q (i & s & Hf & E & _)%(residue_in_iff ix F Hix). assert (Hlk : residue ix !! (h, l, i) = Some s) by by apply Hix.
    destruct (Nat.eqb_spec (size (residue ix)) 0) as [Hz|Hz]; [apply map_size_empty_inv in Hz; by rewrite Hz, lookup_empty in Hlk|].
    eexists. split; [reflexivity|]. split; [done|]. cbn [st_homes]. apply list_elem_of_fmap. exists (h, l, i). split; [done|].
    apply elem_of_ord_list, elem_of_dom. by exists s.
Qed.
End Streams.

(** ** The merge *)

(** What is still to come: a home at the heap or behind a stream's cursor. *)
Definition pending (streams : list Stream) (heap : list (Home * nat)) (h : Home) (i : nat) : Prop :=
  (h, i) ∈ heap ∨ ∃ st, streams !! i = Some st ∧ h ∈ st_homes st.

Record merging (streams : list Stream) (heap : list (Home * nat)) : Prop := {
  mg_heap : StronglySorted ole heap;
  mg_cursor i st h : streams !! i = Some st → h ∈ st_homes st → ∃ h0, (h0, i) ∈ heap ∧ ole h0 h;
  mg_sorted i st : streams !! i = Some st → StronglySorted ole (st_homes st);
  mg_bound h i : (h, i) ∈ heap → i < length streams
}.

(** The tags a stream carries, which no step changes. *)
Definition same_tags (xs ys : list Stream) : Prop :=
  length xs = length ys ∧
  ∀ i x, xs !! i = Some x → ∃ y, ys !! i = Some y ∧ st_pair y = st_pair x ∧ st_span y = st_span x ∧ st_parts y = st_parts x.

#[export] Instance same_tags_preorder : PreOrder same_tags.
Proof.
  split.
  - intros xs. split; [done|]. intros i x Hx. by exists x.
  - intros xs ys zs [L1 H1] [L2 H2]. split; [congruence|]. intros i x Hx. destruct (H1 i x Hx) as (y & Hy & ? & ? & ?).
    destruct (H2 i y Hy) as (z & Hz & ? & ? & ?). exists z. split_and!; congruence.
Qed.

Definition homes_behind (streams : list Stream) : nat := sum_list (length ∘ st_homes <$> streams).

Lemma homes_behind_insert streams i st st' :
  streams !! i = Some st → length (st_homes st) = S (length (st_homes st')) →
  homes_behind streams = S (homes_behind (<[i := st']> streams)).
Proof.
  revert i. induction streams as [|s streams IH]; intros [|i] Hs Hl; [done|done| |].
  - injection Hs as ->. change (homes_behind (st :: streams)) with (length (st_homes st) + homes_behind streams).
    change (homes_behind (<[0:=st']> (st :: streams))) with (length (st_homes st') + homes_behind streams). lia.
  - change (homes_behind (s :: streams)) with (length (st_homes s) + homes_behind streams).
    change (homes_behind (<[S i:=st']> (s :: streams))) with (length (st_homes s) + homes_behind (<[i:=st']> streams)).
    rewrite (IH i Hs Hl). lia.
Qed.

Lemma heap_push_perm x heap : heap_push x heap ≡ₚ x :: heap.
Proof. apply merge_sort_Permutation. Qed.

(** Advancing a stream whose entry was just popped. *)
Lemma advance_ok streams heap i st :
  merging streams ((st, i) :: heap) →
  ∃ streams' heap', advance streams heap i = Done (streams', heap') ∧ merging streams' heap' ∧ same_tags streams streams' ∧
    (∀ h j, pending streams ((st, i) :: heap) h j ↔ h = st ∧ j = i ∨ pending streams' heap' h j) ∧
    length heap' + homes_behind streams' + 1 = length ((st, i) :: heap) + homes_behind streams.
Proof.
  intros [Hh Hc Hs Hb]. unfold advance. destruct (lookup_lt_is_Some_2 streams i) as [s Es]; [by eapply Hb; left|].
  rewrite (index_ok _ _ _ Es). cbn [mbind outcome_bind]. inversion Hh as [|? ? Hh' Hf]; subst. rewrite Forall_forall in Hf.
  destruct (st_homes s) as [|home rest] eqn:Eh.
  - exists streams, heap. split_and!; [done| |done| |cbn; lia].
    + split; [done| |done|].
      * intros j s' h Hj Hin. destruct (Hc j s' h Hj Hin) as (h0 & [[= -> ->]|Hin0]%elem_of_cons & Hle); [|by exists h0].
        exfalso. rewrite Es in Hj. injection Hj as <-. rewrite Eh in Hin. by apply not_elem_of_nil in Hin.
      * intros h j Hin. eapply Hb. by right.
    + intros h j. unfold pending. rewrite elem_of_cons. naive_solver.
  - set (s' := MkStream (st_pair s) (st_span s) (st_parts s) rest).
    pose proof (Hs i s Es) as Hss. rewrite Eh in Hss. inversion Hss as [|? ? Hrest Hhome]; subst. rewrite Forall_forall in Hhome.
    exists (<[i:=s']> streams), (heap_push (home, i) heap).
    assert (Hperm : ∀ e, e ∈ heap_push (home, i) heap ↔ e = (home, i) ∨ e ∈ heap) by (intros e; by rewrite heap_push_perm, elem_of_cons).
    assert (Hlt : i < length streams) by by apply lookup_lt_Some in Es.
    split_and!; [done| | | |].
    + split.
      * apply (StronglySorted_merge_sort ole).
      * intros j s0 h Hj Hin. destruct (decide (i = j)) as [<-|Hne].
        -- rewrite list_lookup_insert_eq in Hj by done. injection Hj as <-. exists home. split; [apply Hperm; by left|]. by apply Hhome.
        -- rewrite list_lookup_insert_ne in Hj by done. destruct (Hc j s0 h Hj Hin) as (h0 & [[= _ ->]|Hin0]%elem_of_cons & Hle); [done|].
           exists h0. split; [apply Hperm; by right|done].
      * intros j s0 Hj. destruct (decide (i = j)) as [<-|Hne].
        -- rewrite list_lookup_insert_eq in Hj by done. by injection Hj as <-.
        -- rewrite list_lookup_insert_ne in Hj by done. by eapply Hs.
      * intros h j [[= -> ->]|Hin]%Hperm; rewrite length_insert; [done|]. eapply Hb. by right.
    + split; [by rewrite length_insert|]. intros j x Hj. destruct (decide (i = j)) as [<-|Hne].
      * rewrite list_lookup_insert_eq by done. exists s'. rewrite Es in Hj. by injection Hj as <-.
      * rewrite list_lookup_insert_ne by done. by exists x.
    + intros h j. unfold pending. rewrite elem_of_cons, Hperm. destruct (decide (i = j)) as [<-|Hne].
      * rewrite list_lookup_insert_eq by done. rewrite Es. split.
        -- intros [[[= ->]|?]|(x & [= <-] & Hin)]; [by left|right; left; by right|]. rewrite Eh in Hin.
           apply elem_of_cons in Hin as [->|Hin]; [right; left; by left|right; right; by exists s'].
        -- intros [[-> _]|[[[= ->]|?]|(x & [= <-] & Hin)]]; [left; by left|right; exists s; split; [done|rewrite Eh; by left]|left; by right|].
           right. exists s. split; [done|]. rewrite Eh. by right.
      * rewrite list_lookup_insert_ne by done. naive_solver.
    + rewrite (Permutation_length (heap_push_perm _ _)), (homes_behind_insert streams i s s' Es) by (by rewrite Eh). cbn. lia.
Qed.

(** The head of the heap is least of all that is pending. *)
Lemma merging_least streams h i heap h' j :
  merging streams ((h, i) :: heap) → pending streams ((h, i) :: heap) h' j → ole h h'.
Proof.
  intros [Hh Hc _ _] Hp. inversion Hh as [|? ? _ Hf]; subst. rewrite Forall_forall in Hf.
  assert (Hheap : ∀ a k, (a, k) ∈ (h, i) :: heap → ole h a).
  { intros a k [[= -> ->]|Hin]%elem_of_cons; [apply ole_lt_eq; by right|]. specialize (Hf _ Hin). rewrite pair_ole in Hf.
    apply ole_lt_eq. destruct Hf as [?|[-> _]]; auto. }
  destruct Hp as [Hin|(st & Est & Hin)]; [by eapply Hheap|]. destruct (Hc j st h' Est Hin) as (h0 & Hin0 & Hle).
  etransitivity; [by eapply Hheap|done].
Qed.

Lemma merging_empty streams : merging streams [] → ∀ h i, ¬ pending streams [] h i.
Proof.
  intros [_ Hc _ _] h i [Hin|(st & Est & Hin)]; [by apply not_elem_of_nil in Hin|].
  destruct (Hc i st h Est Hin) as (h0 & Hin0 & _). by apply not_elem_of_nil in Hin0.
Qed.

Lemma heap_drain_ok fuel home streams heap naming :
  merging streams heap → length heap + homes_behind streams ≤ fuel →
  (∀ h i, pending streams heap h i → ole home h) →
  ∃ streams' heap' naming', drain fuel home streams heap naming = Done (Some (streams', heap', naming')) ∧
    merging streams' heap' ∧ same_tags streams streams' ∧
    (∀ i, i ∈ naming' ↔ i ∈ naming ∨ pending streams heap home i) ∧
    (∀ h i, pending streams' heap' h i ↔ pending streams heap h i ∧ h ≠ home) ∧
    length heap' + homes_behind streams' ≤ length heap + homes_behind streams.
Proof.
  revert streams heap naming. induction fuel as [|fuel IH]; intros streams [|[next i] rest] naming Hm Hfuel Hge; cbn [drain].
  - exists streams, [], naming. pose proof (merging_empty streams Hm) as He. split_and!; [done|done|done| | |done]; [|]; intros; naive_solver.
  - cbn in Hfuel. lia.
  - exists streams, [], naming. pose proof (merging_empty streams Hm) as He. split_and!; [done|done|done| | |done]; intros; naive_solver.
  - case_bool_decide as Hn; cbn [negb].
    + subst next. destruct (advance_ok streams rest i home Hm) as (s1 & h1 & E1 & Hm1 & Ht1 & Hp1 & Hl1).
      rewrite E1. cbn [mbind outcome_bind]. destruct (IH s1 h1 (naming ++ [i]) Hm1) as (s2 & h2 & n2 & E2 & Hm2 & Ht2 & Hn2 & Hp2 & Hl2).
      * cbn in Hfuel, Hl1. lia.
      * intros h j Hp. eapply Hge. apply Hp1. by right.
      * exists s2, h2, n2. split_and!; [done|done|by etransitivity| | |cbn in *; lia].
        -- intros j. rewrite Hn2, elem_of_app, list_elem_of_singleton, Hp1. naive_solver.
        -- intros h j. rewrite Hp2, Hp1. naive_solver.
    + exists streams, ((next, i) :: rest), naming.
      assert (Hno : ∀ j, ¬ pending streams ((next, i) :: rest) home j).
      { intros j Hp. pose proof (merging_least _ _ _ _ _ _ Hm Hp) as Hle. apply Hn. apply ole_antisym; [done|].
        eapply Hge. left. by left. }
      split_and!; [done|done|done| | |done].
      * intros j. split; [by left|]. intros [?|Hp]; [done|]. by apply Hno in Hp.
      * intros h j. split; [|by intros [? _]]. intros Hp. split; [done|]. intros ->. by apply Hno in Hp.
Qed.

Lemma open_loop_ok streams heap is_ :
  NoDup is_ → (∀ i, i ∈ is_ → i < length streams) →
  StronglySorted ole heap → (∀ h i, (h, i) ∈ heap → i < length streams ∧ i ∉ is_) →
  (∀ i st, streams !! i = Some st → StronglySorted ole (st_homes st)) →
  (∀ i st h, i ∉ is_ → streams !! i = Some st → h ∈ st_homes st → ∃ h0, (h0, i) ∈ heap ∧ ole h0 h) →
  ∃ streams' heap', open_loop streams heap is_ = Done (streams', heap') ∧ merging streams' heap' ∧ same_tags streams streams' ∧
    (∀ h i, pending streams' heap' h i ↔ pending streams heap h i) ∧
    length heap' + homes_behind streams' = length heap + homes_behind streams.
Proof.
  revert streams heap. induction is_ as [|i is_ IH]; intros streams heap Hnd Hin Hheap Hb Hs Hc; cbn [open_loop].
  { exists streams, heap. split_and!; try done. split; [done| |done|]; [intros i st h; apply Hc, not_elem_of_nil|]. intros h i Hi. by apply (Hb h i). }
  apply NoDup_cons in Hnd as [Hi Hnd]. destruct (lookup_lt_is_Some_2 streams i) as [s Es]; [apply Hin; by left|].
  unfold advance. rewrite (index_ok _ _ _ Es). cbn [mbind outcome_bind]. destruct (st_homes s) as [|home rest] eqn:Eh; cbn [mbind outcome_bind].
  - apply IH; [done|intros; apply Hin; by right|done| |done|].
    + intros h j Hj. destruct (Hb h j Hj) as [? Hni]. split; [done|]. intros ?. apply Hni. by right.
    + intros j st h Hj Est Hh. destruct (decide (j = i)) as [->|Hne].
      * rewrite Es in Est. injection Est as <-. rewrite Eh in Hh. by apply not_elem_of_nil in Hh.
      * apply (Hc j st h); [|done|done]. intros [->|?]%elem_of_cons; done.
  - set (s' := MkStream (st_pair s) (st_span s) (st_parts s) rest).
    pose proof (Hs i s Es) as Hss. rewrite Eh in Hss. inversion Hss as [|? ? Hrest Hhome]; subst. rewrite Forall_forall in Hhome.
    assert (Hperm : ∀ e, e ∈ heap_push (home, i) heap ↔ e = (home, i) ∨ e ∈ heap) by (intros e; by rewrite heap_push_perm, elem_of_cons).
    assert (Hlt : i < length streams) by by apply lookup_lt_Some in Es.
    destruct (IH (<[i:=s']> streams) (heap_push (home, i) heap)) as (s2 & h2 & E2 & Hm2 & Ht2 & Hp2 & Hl2).
    + done.
    + intros j Hj. rewrite length_insert. apply Hin. by right.
    + apply (StronglySorted_merge_sort ole).
    + intros h j. rewrite Hperm, length_insert. intros [[= -> ->]|Hj]; [done|]. destruct (Hb h j Hj) as [? Hni]. split; [done|]. intros ?. apply Hni. by right.
    + intros j st Hj. destruct (decide (i = j)) as [<-|Hne]; [rewrite list_lookup_insert_eq in Hj by done; by injection Hj as <-|].
      rewrite list_lookup_insert_ne in Hj by done. by eapply Hs.
    + intros j st h Hj Est Hh. destruct (decide (i = j)) as [<-|Hne].
      * rewrite list_lookup_insert_eq in Est by done. injection Est as <-. exists home. split; [apply Hperm; by left|]. by apply Hhome.
      * rewrite list_lookup_insert_ne in Est by done. destruct (Hc j st h) as (h0 & ? & ?); [|done|done|].
        { intros [->|?]%elem_of_cons; done. } exists h0. split; [apply Hperm; by right|done].
    + exists s2, h2. split_and!; [done|done| | |].
      * etransitivity; [|exact Ht2]. split; [by rewrite length_insert|]. intros j x Hj. destruct (decide (i = j)) as [<-|Hne].
        -- rewrite list_lookup_insert_eq by done. exists s'. rewrite Es in Hj. by injection Hj as <-.
        -- rewrite list_lookup_insert_ne by done. by exists x.
      * intros h j. rewrite Hp2. unfold pending. rewrite Hperm. destruct (decide (i = j)) as [<-|Hne].
        -- rewrite list_lookup_insert_eq by done. rewrite Es. split.
           ++ intros [[[= ->]|?]|(x & [= <-] & Hx)]; [right; exists s; split; [done|rewrite Eh; by left]|by left|right; exists s; split; [done|rewrite Eh; by right]].
           ++ intros [?|(x & [= <-] & Hx)]; [left; by right|]. rewrite Eh in Hx. apply elem_of_cons in Hx as [->|Hx]; [left; by left|right; by exists s'].
        -- rewrite list_lookup_insert_ne by done. naive_solver.
      * rewrite Hl2, (Permutation_length (heap_push_perm _ _)), (homes_behind_insert streams i s s' Es) by (by rewrite Eh). cbn. lia.
Qed.

(** ** The names of a touch *)

(** A stream's key in the order the names are grouped by. *)
Definition st_key (st : Stream) : nat * nat := (st_pair st, span_key (st_span st)).

#[export] Instance naming_le_trans streams : Transitive (naming_le streams).
Proof. intros a b c. unfold naming_le. apply ole_trans. Qed.

#[export] Instance naming_le_total streams : Total (naming_le streams).
Proof. intros a b. apply ole_total. Qed.

Lemma span_key_inj a b : span_key a = span_key b → a = b.
Proof. destruct a, b; cbn; congruence. Qed.

Definition holds_parts (parts p : N) : Prop := N.land parts p = p.

Lemma holds_parts_lor a b p : holds_parts a p → holds_parts (N.lor a b) p.
Proof. unfold holds_parts. rewrite N.land_lor_distr_l. intros ->. apply N.bits_inj. intros i. rewrite N.lor_spec, N.land_spec. by destruct (N.testbit p i); rewrite ?orb_true_l, ?andb_false_r. Qed.

Lemma holds_parts_self a b : holds_parts (N.lor a b) b.
Proof. unfold holds_parts. apply N.bits_inj. intros i. rewrite N.land_spec, N.lor_spec. by destruct (N.testbit a i), (N.testbit b i). Qed.

(** The streams of one key are consumed together, and their parts joined. *)
Lemma join_parts_ok at_ pr sp parts parts' rest :
  join_parts at_ pr sp parts = (parts', rest) →
  ∃ pre, at_ = pre ++ rest ∧ (∀ st, st ∈ pre → st_key st = (pr, span_key sp) ∧ holds_parts parts' (st_parts st)) ∧
    (∀ p, holds_parts parts p → holds_parts parts' p) ∧ (pre = [] → parts' = parts) ∧
    match rest with st :: _ => st_key st ≠ (pr, span_key sp) | [] => True end.
Proof.
  revert parts. induction at_ as [|st at_ IH]; intros parts E; cbn [join_parts] in E.
  { injection E as <- <-. exists []. split_and!; [done|by intros st ?%not_elem_of_nil|done|done|done]. }
  destruct ((st_pair st =? pr) && bool_decide (st_span st = sp)) eqn:Hb.
  - apply andb_true_iff in Hb as [Hp%Nat.eqb_eq Hs%bool_decide_eq_true]. destruct (IH _ E) as (pre & -> & Hpre & Hmono & _ & Hrest).
    exists (st :: pre). split_and!; [done| | |done|done].
    + intros s [->|Hin]%elem_of_cons; [|auto]. split; [unfold st_key; by rewrite Hp, Hs|]. apply Hmono, holds_parts_self.
    + intros p Hp'. apply Hmono, holds_parts_lor, Hp'.
  - injection E as <- <-. exists []. split_and!; [done|by intros s ?%not_elem_of_nil|done|done|]. cbn.
    unfold st_key. intros [= Hp Hs%span_key_inj]. rewrite Hp, Hs, Nat.eqb_refl, bool_decide_eq_true_2 in Hb; done.
Qed.

(** Streams in the order of their keys. *)
Definition grouped (at_ : list Stream) : Prop := StronglySorted (λ a b, ole (st_key a) (st_key b)) at_.

Lemma grouped_app l k : grouped (l ++ k) → grouped k.
Proof. apply StronglySorted_app_1_r. Qed.

(** Past the streams of a key that heads, every key is above it. *)
Lemma grouped_above key at_ st :
  grouped at_ → (∀ x, x ∈ at_ → ole key (st_key x)) →
  match at_ with x :: _ => st_key x ≠ key | [] => True end → st ∈ at_ → olt key (st_key st).
Proof.
  intros Hg Hle Hh Hin. destruct at_ as [|x at_]; [by apply not_elem_of_nil in Hin|].
  assert (Hx : olt key (st_key x)).
  { pose proof (Hle x ltac:(by left)) as H. apply ole_lt_eq in H as [?|H]; [done|]. by destruct Hh. }
  inversion Hg as [|? ? _ Hf]; subst. rewrite Forall_forall in Hf. apply elem_of_cons in Hin as [->|Hin]; [done|].
  specialize (Hf st Hin). cbn in Hf. apply ole_lt_eq in Hf as [Hf|<-]; [by etransitivity|done].
Qed.

(** What one pair's streams must name. *)
Definition names (named : list (nat * N * Span)) (spans : list Span) (st : Stream) : Prop :=
  ∀ i q, spans !! i = Some q → st_span st = None ∨ st_span st = Some i →
    ∃ parts, (st_pair st, parts, q) ∈ named ∧ holds_parts parts (st_parts st).

Lemma names_app_l n1 n2 spans st : names n1 spans st → names (n1 ++ n2) spans st.
Proof. intros H i q Hi Ho. destruct (H i q Hi Ho) as (p & ? & ?). exists p. split; [|done]. apply elem_of_app. by left. Qed.
Lemma names_app_r n1 n2 spans st : names n2 spans st → names (n1 ++ n2) spans st.
Proof. intros H i q Hi Ho. destruct (H i q Hi Ho) as (p & ? & ?). exists p. split; [|done]. apply elem_of_app. by right. Qed.

Lemma olt_key_pair pr j st : olt (pr, j) (st_key st) → st_pair st = pr → j < span_key (st_span st).
Proof. unfold st_key. intros Hl <-. apply pair_olt in Hl as [Hl|[_ Hl]]; [by apply olt_irrefl in Hl|]. by apply Nat.compare_lt_iff in Hl. Qed.

Lemma name_spans_ok fuel spans pr at_ :
  length at_ ≤ fuel → grouped at_ → (∀ st, st ∈ at_ → st_pair st = pr → ∃ i, st_span st = Some i ∧ i < length spans) →
  (∀ st, st ∈ at_ → pr ≤ st_pair st) →
  ∃ named rest pre, name_spans fuel spans pr at_ = Done (named, rest) ∧ at_ = pre ++ rest ∧
    (∀ st, st ∈ pre → names named spans st) ∧ (∀ st, st ∈ pre → st_pair st = pr) ∧
    (∀ n, n ∈ named → n.1.1 = pr ∧ n.2 ∈ spans) ∧
    (∀ st, st ∈ rest → pr < st_pair st).
Proof.
  revert at_. induction fuel as [|fuel IH]; intros at_ Hf Hg Hsp Hge.
  { destruct at_; [|cbn in Hf; lia]. exists [], [], []. cbn. split_and!; [done|done|..]; intros ? ?%not_elem_of_nil; done. }
  destruct at_ as [|[p0 s0 parts0 hs0] at_]; cbn [name_spans].
  { exists [], [], []. cbn. split_and!; [done|done|..]; intros ? ?%not_elem_of_nil; done. }
  assert (Hpr : pr ≤ p0) by (apply (Hge (MkStream p0 s0 parts0 hs0)); by left).
  destruct (Nat.eqb_spec p0 pr) as [->|Hne]; cbn [negb].
  - destruct (Hsp (MkStream pr s0 parts0 hs0) ltac:(by left) eq_refl) as (i & Hi & Hlt). cbn in Hi. subst s0.
    destruct (join_parts _ pr (Some i) PART_NONE) as [parts rest] eqn:Ej.
    destruct (join_parts_ok _ _ _ _ _ _ Ej) as (pre & Hat & Hpre & _ & Hnil & Hrest).
    assert (Hpre0 : pre ≠ []).
    { intros ->. cbn in Hat. subst rest. by apply Hrest. }
    destruct (lookup_lt_is_Some_2 spans i Hlt) as [q Eq]. rewrite (index_ok _ _ _ Eq). cbn [mbind outcome_bind].
    destruct (IH rest) as (named & rest' & pre' & En & Hr & Hn & Hp' & Hns & Hab).
    + apply (f_equal length) in Hat. rewrite length_app in Hat. cbn in Hat, Hf. destruct pre; [done|cbn in Hat]. lia.
    + eapply grouped_app. by rewrite <- Hat.
    + intros st Hst. apply Hsp. rewrite Hat. apply elem_of_app. by right.
    + intros st Hst. apply Hge. rewrite Hat. apply elem_of_app. by right.
    + rewrite En. cbn [mbind outcome_bind]. exists ((pr, parts, q) :: named), rest', (pre ++ pre'). split_and!.
      * done.
      * by rewrite Hat, Hr, app_assoc.
      * intros st [Hst|Hst]%elem_of_app.
        -- destruct (Hpre st Hst) as [Hk Hp]. unfold st_key in Hk. injection Hk as Hk1 Hk2%(span_key_inj _ (Some i)).
           intros j q' Hj [Ho|Ho]; [congruence|]. rewrite Hk2 in Ho. injection Ho as ->. exists parts. split; [|done].
           rewrite Hk1. assert (q' = q) as -> by congruence. by left.
        -- apply (names_app_r [(pr, parts, q)]). by apply Hn.
      * intros st [Hst|Hst]%elem_of_app; [|by apply Hp']. destruct (Hpre st Hst) as [Hk _]. unfold st_key in Hk. by injection Hk.
      * intros n [->|Hin]%elem_of_cons; [|by apply Hns]. split; [done|]. by eapply list_elem_of_lookup_2.
      * done.
  - exists [], (MkStream p0 s0 parts0 hs0 :: at_), []. split_and!.
    + by destruct s0.
    + done.
    + by intros st ?%not_elem_of_nil.
    + by intros st ?%not_elem_of_nil.
    + by intros n ?%not_elem_of_nil.
    + intros st Hst. inversion Hg as [|? ? _ Hfa]; subst. rewrite Forall_forall in Hfa. apply elem_of_cons in Hst as [->|Hst]; [cbn; lia|].
      specialize (Hfa st Hst). cbn in Hfa. unfold st_key in Hfa. cbn in Hfa. rewrite pair_ole in Hfa.
      destruct Hfa as [Hx|[Hx _]]; [apply Nat.compare_lt_iff in Hx|]; lia.
Qed.
Lemma name_whole_ok i spans pr whole at_ :
  grouped at_ → (∀ st, st ∈ at_ → st_pair st = pr → ∃ j, st_span st = Some j ∧ i ≤ j < i + length spans) →
  (∀ st, st ∈ at_ → pr ≤ st_pair st) →
  ∃ named rest pre, name_whole i spans pr whole at_ = (named, rest) ∧ at_ = pre ++ rest ∧
    (∀ st j q, st ∈ pre → st_span st = Some (i + j) → spans !! j = Some q → ∃ parts, (pr, parts, q) ∈ named ∧ holds_parts parts (st_parts st)) ∧
    (∀ st, st ∈ pre → st_pair st = pr) ∧
    (∀ q, q ∈ spans → ∃ parts, (pr, parts, q) ∈ named ∧ ∀ p, holds_parts whole p → holds_parts parts p) ∧
    (∀ n, n ∈ named → n.1.1 = pr ∧ n.2 ∈ spans) ∧
    (∀ st, st ∈ rest → pr < st_pair st).
Proof.
  revert i at_. induction spans as [|q spans IH]; intros i at_ Hg Hsp Hge; cbn [name_whole].
  { exists [], at_, []. split_and!; [done|done|by intros st j q ?%not_elem_of_nil|by intros st ?%not_elem_of_nil|by intros q ?%not_elem_of_nil|by intros n ?%not_elem_of_nil|].
    intros st Hst. specialize (Hge st Hst). destruct (decide (st_pair st = pr)) as [E|]; [|lia]. destruct (Hsp st Hst E) as (j & _ & Hj). cbn in Hj. lia. }
  destruct (join_parts at_ pr (Some i) whole) as [parts rest] eqn:Ej.
  destruct (join_parts_ok _ _ _ _ _ _ Ej) as (pre & Hat & Hpre & Hmono & _ & Hrest).
  assert (Hgr : grouped rest) by (eapply grouped_app; by rewrite <- Hat).
  assert (Hin_rest : ∀ st, st ∈ rest → st ∈ at_) by (intros st Hst; rewrite Hat; apply elem_of_app; by right).
  destruct (IH (S i) rest Hgr) as (named & rest' & pre' & En & Hr & Hn & Hp & Hall & Hns & Hab).
  { intros st Hst Hpr. destruct (Hsp st (Hin_rest st Hst) Hpr) as (j & Hj & Hlt). exists j. split; [done|]. cbn in Hlt.
    assert (Habove : olt (pr, S i) (st_key st)).
    { eapply grouped_above; [exact Hgr| |exact Hrest|done]. intros x Hx. specialize (Hge x (Hin_rest x Hx)). unfold st_key.
      apply pair_ole. destruct (decide (st_pair x = pr)) as [E|]; [|left; apply Nat.compare_lt_iff; lia].
      right. split; [done|]. destruct (Hsp x (Hin_rest x Hx) E) as (jx & -> & Hjx). cbn. apply Nat.compare_le_iff. lia. }
    apply olt_key_pair in Habove; [|done]. rewrite Hj in Habove. cbn in Habove. lia. }
  { intros st Hst. apply Hge, Hin_rest, Hst. }
  rewrite En. exists ((pr, parts, q) :: named), rest', (pre ++ pre'). split_and!.
  - done.
  - by rewrite Hat, Hr, app_assoc.
  - intros st j q' [Hst|Hst]%elem_of_app Hspan Hq.
    + destruct (Hpre st Hst) as [Hk Hp']. unfold st_key in Hk. injection Hk as _ Hk2%(span_key_inj _ (Some i)). rewrite Hk2 in Hspan.
      injection Hspan as Hspan. assert (j = 0) as -> by lia. injection Hq as <-. exists parts. split; [by left|done].
    + assert (Hpr : st_pair st = pr) by by apply Hp. assert (Hin : st ∈ rest) by (rewrite Hr; apply elem_of_app; by left).
      destruct j as [|j].
      * exfalso. rewrite Nat.add_0_r in Hspan.
        assert (Habove : olt (pr, S i) (st_key st)).
        { eapply grouped_above; [exact Hgr| |exact Hrest|done]. intros x Hx. specialize (Hge x (Hin_rest x Hx)). unfold st_key.
          apply pair_ole. destruct (decide (st_pair x = pr)) as [E|]; [|left; apply Nat.compare_lt_iff; lia].
          right. split; [done|]. destruct (Hsp x (Hin_rest x Hx) E) as (jx & -> & Hjx). cbn. apply Nat.compare_le_iff. lia. }
        apply olt_key_pair in Habove; [|done]. rewrite Hspan in Habove. cbn in Habove. lia.
      * destruct (Hn st j q' Hst) as (p & Hin' & ?); [rewrite Hspan; f_equal; lia|done|]. exists p. split; [by right|done].
  - intros st [Hst|Hst]%elem_of_app; [|by apply Hp]. destruct (Hpre st Hst) as [Hk _]. unfold st_key in Hk. by injection Hk.
  - intros q' [->|Hq]%elem_of_cons; [exists parts; split; [by left|done]|]. destruct (Hall q' Hq) as (p & ? & ?). exists p. split; [by right|done].
  - intros n [->|Hin]%elem_of_cons; [split; [done|by left]|]. destruct (Hns n Hin). split; [done|by right].
  - done.
Qed.

(** A stream's tag names a query of the walk, and a span of it where it names one. *)
Definition tag_ok (spans : list (list Span)) (st : Stream) : Prop :=
  ∃ qs, spans !! st_pair st = Some qs ∧
    match st_span st with Some i => i < length qs | None => st_parts st ≠ PART_NONE end.

Lemma span_key_pos st pr : olt (pr, 0) (st_key st) → st_pair st = pr → ∃ i, st_span st = Some i.
Proof. intros Hl Hp. pose proof (olt_key_pair pr 0 st Hl Hp) as H. destruct (st_span st) as [i|]; [by exists i|cbn in H; lia]. Qed.

Lemma name_pairs_ok fuel spans at_ :
  length at_ ≤ fuel → grouped at_ → (∀ st, st ∈ at_ → tag_ok spans st) →
  ∃ named, name_pairs fuel spans at_ = Done named ∧
    (∀ st qs, st ∈ at_ → spans !! st_pair st = Some qs → names named qs st) ∧
    (∀ n, n ∈ named → ∃ qs, spans !! n.1.1 = Some qs ∧ n.2 ∈ qs).
Proof.
  revert at_. induction fuel as [|fuel IH]; intros at_ Hf Hg Ht.
  { destruct at_; [|cbn in Hf; lia]. exists []. split_and!; [done|by intros st qs ?%not_elem_of_nil|by intros n ?%not_elem_of_nil]. }
  destruct at_ as [|st0 at0]; [exists []; split_and!; [done|by intros st qs ?%not_elem_of_nil|by intros n ?%not_elem_of_nil]|].
  set (at_ := st0 :: at0) in *. set (pr := st_pair st0).
  assert (Hunf : name_pairs (S fuel) spans at_ =
    (let '(whole, at1) := join_parts at_ pr None PART_NONE in
     qs ← index spans pr;
     '(named, at2) ← (if (whole =? PART_NONE)%N then name_spans (length at1) qs pr at1 else Done (name_whole 0 qs pr whole at1));
     rest ← name_pairs fuel spans at2; Done (named ++ rest))) by (unfold pr, at_; by destruct st0).
  rewrite Hunf. clear Hunf. destruct (join_parts at_ pr None PART_NONE) as [whole rest] eqn:Ej.
  destruct (join_parts_ok _ _ _ _ _ _ Ej) as (pre & Hat & Hpre & _ & Hnil & Hrest).
  destruct (Ht st0 ltac:(by left)) as (qs & Eqs & _). fold pr in Eqs. rewrite (index_ok _ _ _ Eqs). cbn [mbind outcome_bind].
  assert (Hgr : grouped rest) by (eapply grouped_app; by rewrite <- Hat).
  assert (Hin_rest : ∀ st, st ∈ rest → st ∈ at_) by (intros st Hst; rewrite Hat; apply elem_of_app; by right).
  assert (Hge : ∀ st, st ∈ at_ → pr ≤ st_pair st).
  { intros st Hst. unfold at_ in Hst. apply elem_of_cons in Hst as [->|Hst]; [done|]. inversion Hg as [|? ? _ Hfa]; subst. rewrite Forall_forall in Hfa.
    specialize (Hfa st Hst). cbn in Hfa. unfold st_key in Hfa. rewrite pair_ole in Hfa.
    destruct Hfa as [Hx|[Hx _]]; [apply Nat.compare_lt_iff in Hx|]; unfold pr; lia. }
  assert (Hsome : ∀ st, st ∈ rest → st_pair st = pr → ∃ i, st_span st = Some i ∧ i < length qs).
  { intros st Hst Hpr. destruct (span_key_pos st pr) as [i Hi]; [|done|].
    - eapply (grouped_above _ rest); [exact Hgr| |exact Hrest|done]. intros x Hx. specialize (Hge x (Hin_rest x Hx)). unfold st_key. apply pair_ole.
      destruct (decide (st_pair x = pr)) as [E|]; [|left; apply Nat.compare_lt_iff; lia]. right. split; [done|]. apply Nat.compare_le_iff. lia.
    - exists i. split; [done|]. destruct (Ht st (Hin_rest st Hst)) as (qs' & Eqs' & Hi'). rewrite Hi in Hi'. rewrite Hpr, Eqs in Eqs'. by injection Eqs' as <-. }
  assert (Hstep : ∃ named rest2, (if (whole =? PART_NONE)%N then name_spans (length rest) qs pr rest else Done (name_whole 0 qs pr whole rest)) = Done (named, rest2) ∧
    (∃ mid, rest = mid ++ rest2 ∧ ∀ st, st ∈ mid → st_pair st = pr) ∧ (∀ st, st ∈ at_ → st_pair st = pr → names named qs st) ∧
    (∀ n, n ∈ named → n.1.1 = pr ∧ n.2 ∈ qs) ∧ (∀ st, st ∈ rest2 → pr < st_pair st)).
  { destruct (N.eqb_spec whole PART_NONE) as [Hw|Hw].
    - assert (pre = []) as ->.
      { destruct pre as [|s pre]; [done|]. exfalso. destruct (Hpre s ltac:(by left)) as [Hk Hp]. unfold st_key in Hk. injection Hk as Hk1 Hk2%(span_key_inj _ None).
        destruct (Ht s) as (qs' & _ & Hne); [rewrite Hat; by left|]. rewrite Hk2 in Hne. unfold holds_parts in Hp. rewrite Hw in Hp. by rewrite N.land_0_l in Hp. }
      cbn in Hat. destruct (name_spans_ok (length rest) qs pr rest) as (named & rest2 & mid & En & Hr & Hn & Hp & Hns & Hab); [done|done|done|intros; apply Hge; by rewrite Hat|].
      exists named, rest2. split_and!; [done|by exists mid| |done|done].
      intros st Hst Hpr. rewrite Hat, Hr in Hst. apply elem_of_app in Hst as [Hst|Hst]; [by apply Hn|]. apply Hab in Hst. lia.
    - destruct (name_whole_ok 0 qs pr whole rest) as (named & rest2 & mid & En & Hr & Hn & Hpm & Hall & Hns & Hab); [done| |intros; apply Hge; by apply Hin_rest|].
      { intros st Hst Hpr. destruct (Hsome st Hst Hpr) as (i & ? & ?). exists i. split; [done|lia]. }
      exists named, rest2. rewrite En. split_and!; [done|by exists mid| |done|done].
      intros st Hst Hpr i q Hi Ho. rewrite Hat in Hst. apply elem_of_app in Hst as [Hst|Hst].
      + destruct (Hpre st Hst) as [_ Hp]. rewrite Hpr. destruct (Hall q) as (p & Hin & Hmono); [by eapply list_elem_of_lookup_2|]. exists p. split; [done|]. by apply Hmono.
      + rewrite Hpr. destruct (Hsome st Hst Hpr) as (j & Hj & _). destruct Ho as [Ho|Ho]; [congruence|].
        rewrite Hr in Hst. apply elem_of_app in Hst as [Hst|Hst]; [|apply Hab in Hst; lia]. by apply (Hn st i q). }
  destruct Hstep as (named & rest2 & -> & (mid & Hmid & Hpm) & Hn & Hns & Hab). cbn [mbind outcome_bind].
  assert (Hin2 : ∀ st, st ∈ rest2 → st ∈ at_) by (intros st Hst; apply Hin_rest; rewrite Hmid; apply elem_of_app; by right).
  destruct (IH rest2) as (named2 & E2 & Hn2 & Hns2).
  - assert (Hlt : length rest2 < length at_); [|cbn in *; lia]. rewrite Hat, Hmid, !length_app. destruct (pre ++ mid) as [|x l] eqn:Epm.
    + apply app_nil in Epm as [-> ->]. cbn in Hat, Hmid. assert (Hst : st0 ∈ rest2) by (rewrite <- Hmid, <- Hat; by left). apply Hab in Hst. unfold pr in Hst. lia.
    + apply (f_equal length) in Epm. rewrite length_app in Epm. cbn in Epm. lia.
  - eapply grouped_app. by rewrite <- Hmid.
  - intros st Hst. apply Ht, Hin2, Hst.
  - rewrite E2. cbn [mbind outcome_bind]. exists (named ++ named2). split_and!; [done| |].
    + intros st qs' Hst Hq. destruct (decide (st_pair st = pr)) as [E|Hne].
      * rewrite E, Eqs in Hq. injection Hq as <-. apply names_app_l. by apply Hn.
      * apply names_app_r. apply Hn2; [|done]. rewrite Hat, Hmid in Hst. rewrite !elem_of_app in Hst. destruct Hst as [Hst|[Hst|Hst]]; [| |done].
        -- destruct (Hpre st Hst) as [Hk _]. unfold st_key in Hk. destruct Hne. by injection Hk.
        -- destruct Hne. by apply Hpm.
    + intros n [Hin|Hin]%elem_of_app; [|by apply Hns2]. destruct (Hns n Hin) as [-> ?]. by exists qs.
Qed.

(** ** The walk *)

Record walkable (spans : list (list Span)) (streams : list Stream) : Prop := {
  wk_tags st : st ∈ streams → tag_ok spans st;
  wk_homes st h : st ∈ streams → h ∈ st_homes st → is_ok (validate h) = true
}.

Lemma homes_left_eq spans streams heap : homes_left (MkTouching spans streams heap) = length heap + homes_behind streams.
Proof. done. Qed.

(** What a touch must carry for the home it names, over the walk's first streams. *)
Definition touch_ok (spans : list (list Span)) (streams : list Stream) (named_by : nat → Prop) (t : Touch) : Prop :=
  tumbler (to_home t) = to_held t ∧
  (∀ i st qs, named_by i → streams !! i = Some st → spans !! st_pair st = Some qs → names (to_named t) qs st) ∧
  ∀ n, n ∈ to_named t → ∃ qs, spans !! n.1.1 = Some qs ∧ n.2 ∈ qs.

Lemma names_tags named qs st st' :
  st_pair st' = st_pair st → st_span st' = st_span st → st_parts st' = st_parts st → names named qs st' → names named qs st.
Proof. unfold names. by intros -> -> ->. Qed.

Lemma tag_ok_tags spans st st' :
  st_pair st' = st_pair st → st_span st' = st_span st → st_parts st' = st_parts st → tag_ok spans st → tag_ok spans st'.
Proof. unfold tag_ok. by intros -> -> ->. Qed.

Lemma outcome_map_index {A} (l : list A) is_ :
  (∀ i, i ∈ is_ → i < length l) →
  ∃ ys, outcome_map (index l) is_ = Done ys ∧ Forall2 (λ i y, l !! i = Some y) is_ ys.
Proof.
  intros H. apply outcome_map_ok. intros i Hi. destruct (lookup_lt_is_Some_2 l i (H i Hi)) as [y Ey]. exists y.
  split; [by apply index_ok|done].
Qed.

Lemma Touching_next_ok spans streams0 streams heap :
  merging streams heap → same_tags streams0 streams →
  (∀ i st, streams0 !! i = Some st → tag_ok spans st) →
  (∀ h i, pending streams heap h i → is_ok (validate h) = true) →
  match heap with
  | [] => Touching_next (MkTouching spans streams heap) = Done None
  | (home, _) :: _ => ∃ t streams' heap',
      Touching_next (MkTouching spans streams heap) = Done (Some (t, MkTouching spans streams' heap')) ∧
      to_held t = home ∧ touch_ok spans streams0 (pending streams heap home) t ∧
      merging streams' heap' ∧ same_tags streams0 streams' ∧
      (∀ h i, pending streams' heap' h i ↔ pending streams heap h i ∧ h ≠ home) ∧
      length heap' + homes_behind streams' < length heap + homes_behind streams
  end.
Proof.
  intros Hm Ht Htag Hval. destruct heap as [|[home first] rest]; [done|]. unfold Touching_next. cbn [tg_heap tg_streams tg_spans].
  destruct (advance_ok streams rest first home Hm) as (s1 & h1 & E1 & Hm1 & Ht1 & Hp1 & Hl1). rewrite E1. cbn [mbind outcome_bind].
  rewrite homes_left_eq.
  destruct (heap_drain_ok (length ((home, first) :: rest) + homes_behind streams) home s1 h1 [first] Hm1) as (s2 & h2 & naming & E2 & Hm2 & Ht2 & Hn2 & Hp2 & Hl2).
  { lia. } { intros h i Hp. eapply (merging_least _ _ _ _ _ _ Hm). apply Hp1. by right. }
  rewrite E2. cbn [mbind outcome_bind expect_some].
  assert (Ht02 : same_tags streams0 s2) by (etransitivity; [exact Ht|]; etransitivity; [exact Ht1|exact Ht2]).
  assert (Hnaming : ∀ i, i ∈ naming ↔ pending streams ((home, first) :: rest) home i).
  { intros i. rewrite Hn2, Hp1, list_elem_of_singleton. naive_solver. }
  assert (Hbound : ∀ h i, pending streams ((home, first) :: rest) h i → i < length s2).
  { intros h i Hp. rewrite <- (proj1 Ht2), <- (proj1 Ht1). destruct Hp as [Hin|(st & Hst & _)]; [by eapply (mg_bound _ _ Hm)|by eapply lookup_lt_Some]. }
  set (sorted := merge_sort (naming_le s2) naming).
  assert (Hperm : sorted ≡ₚ naming) by apply merge_sort_Permutation.
  destruct (outcome_map_index s2 sorted) as (at_ & Eat & Hat).
  { intros i. rewrite Hperm, Hnaming. apply Hbound. }
  rewrite Eat. cbn [mbind outcome_bind].
  assert (Hatag : ∀ st, st ∈ at_ → ∃ i, i ∈ sorted ∧ s2 !! i = Some st).
  { intros st (k & Hk)%list_elem_of_lookup. destruct (Forall2_lookup_r _ _ _ _ _ Hat Hk) as (i & Hi & Hst). exists i. split; [by eapply list_elem_of_lookup_2|done]. }
  assert (Hback : ∀ i st2, s2 !! i = Some st2 → ∃ st0, streams0 !! i = Some st0 ∧ st_pair st2 = st_pair st0 ∧ st_span st2 = st_span st0 ∧ st_parts st2 = st_parts st0).
  { intros i st2 Hi. destruct (lookup_lt_is_Some_2 streams0 i) as [st0 Est0]; [rewrite (proj1 Ht02); by eapply lookup_lt_Some|].
    destruct (proj2 Ht02 i st0 Est0) as (y & Hy & ? & ? & ?). exists st0. rewrite Hi in Hy. injection Hy as <-. done. }
  assert (Hgroup : grouped at_).
  { assert (Hsorted : StronglySorted (naming_le s2) sorted).
    { apply (StronglySorted_merge_sort (naming_le s2)). }
    clear -Hsorted Hat. unfold grouped. revert at_ Hat. induction Hsorted as [|i l Hs IH Hf]; intros at_ Hat; inversion Hat as [|? y ? ys Hy Hys]; subst; [constructor|].
    constructor; [by apply IH|]. apply Forall_forall. intros x (k & Hk)%list_elem_of_lookup. destruct (Forall2_lookup_r _ _ _ _ _ Hys Hk) as (j & Hj & Hx).
    eapply (proj1 (Forall_forall _ _)) in Hf; [|by eapply list_elem_of_lookup_2]. unfold naming_le, naming_key in Hf. rewrite Hy, Hx in Hf. done. }
  destruct (name_pairs_ok (length at_) spans at_) as (named & En & Hnames & Hsound); [done|done| |].
  { intros st (i & _ & Hi)%Hatag. destruct (Hback i st Hi) as (st0 & H0 & ? & ? & ?). eapply tag_ok_tags; [done..|]. by eapply Htag. }
  rewrite En. cbn [mbind outcome_bind]. unfold lift_home.
  destruct (validate home) as [a|e] eqn:Ev; [|pose proof (Hval home first (or_introl (list_elem_of_here _ _))) as Hx; by rewrite Ev in Hx].
  cbn [expect_ok mbind outcome_bind]. eexists _, s2, h2. split; [done|]. cbn [to_held]. split_and!; [done| |done|done| |].
  - split_and!; cbn [to_home to_held to_named]; [by apply validate_Ok|..|done].
    intros i st qs Hp Hi Hq. destruct (proj2 Ht02 i st Hi) as (st2 & Hi2 & Hp2' & Hs2 & Hpt2).
    eapply (names_tags _ _ _ st2); [done..|]. apply Hnames; [|by rewrite Hp2'].
    assert (Hin : i ∈ sorted) by (by rewrite Hperm, Hnaming). apply list_elem_of_lookup in Hin as [k Hk].
    destruct (Forall2_lookup_l _ _ _ _ _ Hat Hk) as (y & Hy & Hy2). assert (y = st2) as -> by congruence. by eapply list_elem_of_lookup_2.
  - intros h i. rewrite Hp2, Hp1. naive_solver.
  - cbn [length] in *. lia.
Qed.

Lemma touches_ok_from spans streams0 fuel streams heap :
  length heap + homes_behind streams < fuel →
  merging streams heap → same_tags streams0 streams →
  (∀ i st, streams0 !! i = Some st → tag_ok spans st) →
  (∀ h i, pending streams heap h i → is_ok (validate h) = true) →
  ∃ ts, touches fuel (MkTouching spans streams heap) = Done ts ∧
    StronglySorted olt (to_held <$> ts) ∧
    (∀ h, h ∈ to_held <$> ts ↔ ∃ i, pending streams heap h i) ∧
    ∀ t, t ∈ ts → touch_ok spans streams0 (pending streams heap (to_held t)) t.
Proof.
  revert streams heap. induction fuel as [|fuel IH]; intros streams heap Hfuel Hm Ht Htag Hval; [lia|]. cbn [touches].
  pose proof (Touching_next_ok spans streams0 streams heap Hm Ht Htag Hval) as Hnext. destruct heap as [|[home first] rest].
  - rewrite Hnext. cbn [mbind outcome_bind]. exists []. split_and!; [done|constructor| |by intros t ?%not_elem_of_nil].
    intros h. split; [by intros ?%not_elem_of_nil|]. intros [i Hp]. by apply (merging_empty _ Hm) in Hp.
  - destruct Hnext as (t & s1 & h1 & -> & Hheld & Hok & Hm1 & Ht1 & Hp1 & Hl1). cbn [mbind outcome_bind].
    destruct (IH s1 h1) as (ts & -> & Hs & Hin & Hall); [lia|done|done|done| |].
    { intros h i Hp. apply (Hval h i). by apply Hp1 in Hp as [? _]. }
    cbn [mbind outcome_bind]. exists (t :: ts). split_and!; [done| | |].
    + cbn. rewrite Hheld. constructor; [done|]. apply Forall_forall. intros h [i [Hp Hne]%Hp1]%Hin.
      pose proof (merging_least _ _ _ _ _ _ Hm Hp) as Hle. apply ole_lt_eq in Hle as [?| <-]; done.
    + intros h. rewrite fmap_cons, elem_of_cons, Hheld, Hin. setoid_rewrite Hp1. split.
      * intros [->|[i [? _]]]; [exists first; left; by left|by exists i].
      * intros [i Hp]. destruct (decide (h = home)) as [->|]; [by left|]. right. by exists i.
    + intros t' [->|Ht']%elem_of_cons; [by rewrite Hheld|]. destruct (Hall t' Ht') as (H1 & H2 & H3). split_and!; [done| |done].
      intros i st qs Hp. apply H2. apply Hp1. split; [done|]. assert (Hh : to_held t' ∈ to_held <$> ts) by by apply list_elem_of_fmap_2.
      apply Hin in Hh as [j [_ ?]%Hp1]. done.
Qed.

(** The walk over streams that name only valid homes and their own queries' spans. *)
Lemma touches_ok spans streams :
  walkable spans streams → (∀ st, st ∈ streams → StronglySorted ole (st_homes st)) →
  ∃ t ts, Touching_open spans streams = Done t ∧ touches (S (homes_left t)) t = Done ts ∧
    StronglySorted olt (to_held <$> ts) ∧
    (∀ h, h ∈ to_held <$> ts ↔ ∃ st, st ∈ streams ∧ h ∈ st_homes st) ∧
    ∀ t, t ∈ ts → tumbler (to_home t) = to_held t ∧
      (∀ st qs, st ∈ streams → to_held t ∈ st_homes st → spans !! st_pair st = Some qs → names (to_named t) qs st) ∧
      ∀ n, n ∈ to_named t → ∃ qs, spans !! n.1.1 = Some qs ∧ n.2 ∈ qs.
Proof.
  intros [Htag Hval] Hs.
  assert (Hpend : ∀ h i, pending streams [] h i ↔ ∃ st, streams !! i = Some st ∧ h ∈ st_homes st).
  { intros h i. unfold pending. split; [intros [?%not_elem_of_nil|?]; done|by right]. }
  unfold Touching_open. destruct (open_loop_ok streams [] (seq 0 (length streams))) as (s1 & h1 & E1 & Hm & Ht & Hp & Hl).
  - apply NoDup_seq. - intros i Hi%elem_of_seq. lia. - constructor. - by intros h i ?%not_elem_of_nil.
  - intros i st Hi. apply Hs. by eapply list_elem_of_lookup_2.
  - intros i st h Hi Hst. destruct Hi. apply elem_of_seq. apply lookup_lt_Some in Hst. lia.
  - rewrite E1. cbn [mbind outcome_bind].
    destruct (touches_ok_from spans streams (S (length h1 + homes_behind s1)) s1 h1) as (ts & E2 & Hs2 & Hin & Hall); [lia|done|done| | |].
    + intros i st Hi. apply Htag. by eapply list_elem_of_lookup_2.
    + intros h i Hi%Hp%Hpend. destruct Hi as (st & Hi & Hh). eapply Hval; [by eapply list_elem_of_lookup_2|done].
    + eexists _, ts. split; [done|]. rewrite homes_left_eq. split_and!; [exact E2|done| |].
      * intros h. rewrite Hin. setoid_rewrite Hp. setoid_rewrite Hpend. split.
        -- intros (i & st & Hi & Hh). exists st. split; [by eapply list_elem_of_lookup_2|done].
        -- intros (st & (i & Hi)%list_elem_of_lookup & Hh). by exists i, st.
      * intros t Ht'. destruct (Hall t Ht') as (H1 & H2 & H3). split_and!; [done| |done].
        intros st qs (i & Hi)%list_elem_of_lookup Hh Hq. apply (H2 i); [|done|done]. apply Hp, Hpend. by exists st.
Qed.
