(* ===== verification/LinkState.v ===== *)
(** * The link store: its one delta, its hints and its fold

    Models [crates/skep-links/src/state.rs] (M7): the authoritative map of immutable
    links, the hints that the reads answer from, the fold of one deposit into both, the
    load-time rebuild of the hints, and the questions the write surface asks. *)

From stdpp Require Import gmap sorting.
From S2P Require Import Prelude Tumblers Addresses Arith NsKeys NsState OrdSets Spans SpanSets Endsets TypeRegistry Spanfilade.

Definition FROM : nat := 1.
Definition TO : nat := 2.
Definition TYPE : nat := 3.

(** [LinkRec::Deposit], its one variant. *)
Record LinkRec := Deposit { dep_addr : Tumbler; dep_value : Link }.

Record SupEdge := MkSupEdge { se_new : Tumbler; se_claim : Tumbler }.

#[export] Instance SupEdge_eq_dec : EqDecision SupEdge.
Proof. solve_decision. Defined.

#[export] Program Instance SupEdge_countable : Countable SupEdge :=
  inj_countable' (λ e, (se_new e, se_claim e)) (λ p, MkSupEdge p.1 p.2) _.
Next Obligation. by intros []. Qed.

Inductive SupSchemaFault := NotSingleDenoted | NotResident | Reflexive.

Record Hints := MkHints {
  type_slices : gmap CoverageClass (gset Tumbler);
  h_nullified : gset Tumbler;
  retractions : gmap Tumbler (gset Tumbler);
  dedup : gmap DedupKey (gset Tumbler);
  sup_fwd : gmap Tumbler (gset SupEdge);
  h_home_frontier : gmap Tumbler N;
  spanfilade : Spanfilade
}.

Definition Hints_default : Hints := MkHints ∅ ∅ ∅ ∅ ∅ ∅ Spanfilade_default.

Record LinkState := MkLinkState { links : gmap Tumbler Link; hints : Hints }.

Definition LinkState_genesis : LinkState := MkLinkState ∅ Hints_default.

(** ** The fold *)

(** [entry(k).or_default().insert(x)] *)
Definition insert_into {K A} `{Countable K, Countable A} (k : K) (x : A) (m : gmap K (gset A)) : gmap K (gset A) :=
  <[k := {[x]} ∪ default ∅ (m !! k)]> m.

Definition fold_retraction (h : Hints) (addr : Tumbler) (root : Tumbler) : Hints :=
  MkHints (type_slices h) ({[root]} ∪ h_nullified h) (insert_into root addr (retractions h)) (dedup h) (sup_fwd h)
    (h_home_frontier h) (spanfilade h).

(** [entry(old).or_default()], then an edge to each successor. *)
Definition fold_edges (news : gset Tumbler) (addr : Tumbler) (m : gmap Tumbler (gset SupEdge)) (old : Tumbler) :
    gmap Tumbler (gset SupEdge) :=
  <[old := set_map (λ new, MkSupEdge new addr) news ∪ default ∅ (m !! old)]> m.

Definition U64_WRAP : N := (2 ^ 64)%N.

Definition fold_hints (out : Hints) (addr : Tumbler) (value : Link) : outcome Hints :=
  class ← coverage_class (type_slot value);
  let out := MkHints (insert_into class addr (type_slices out)) (h_nullified out) (retractions out) (dedup out) (sup_fwd out)
    (h_home_frontier out) (spanfilade out) in
  let out :=
    if bool_decide (class = shipped_class registry Retraction)
    then foldl (λ h root, fold_retraction h addr root) out (Endset_addrs (to_slot value))
    else out in
  dedup ← (if is_idempotent registry class
           then key ← DedupKey_of value; Done (insert_into key addr (dedup out))
           else Done (dedup out));
  let sup_fwd :=
    if bool_decide (class = shipped_class registry Supersedes)
    then
      let olds : gset Tumbler := list_to_set (Endset_addrs (from_slot value)) in
      let news : gset Tumbler := list_to_set (Endset_addrs (to_slot value)) in
      foldl (fold_edges news addr) (sup_fwd out) (ord_elements olds)
    else sup_fwd out in
  address ← expect_ok (validate addr);
  home ← expect_some (document_of address);
  let frontier := <[tumbler home := ((default 0 (h_home_frontier out !! tumbler home) + 1) mod U64_WRAP)%N]> (h_home_frontier out) in
  filed ← Spanfilade_file (spanfilade out) addr (tumbler home) value;
  Done (MkHints (type_slices out) (h_nullified out) (retractions out) dedup sup_fwd frontier filed).

Definition apply_link (s : LinkState) (r : LinkRec) : outcome LinkState :=
  let displaced := links s !! dep_addr r in
  _ ← assert (negb (bool_decide (is_Some displaced)));
  hints ← fold_hints (hints s) (dep_addr r) (dep_value r);
  Done (MkLinkState (<[dep_addr r := dep_value r]> (links s)) hints).

Fixpoint fold_entries (h : Hints) (l : list (Tumbler * Link)) : outcome Hints :=
  match l with
  | [] => Done h
  | (addr, value) :: l => h ← fold_hints h addr value; fold_entries h l
  end.

Definition rebuild_derived (s : LinkState) : outcome LinkState :=
  hints ← fold_entries Hints_default (tum_entries (links s));
  Done (MkLinkState (links s) hints).

(** ** The write surface's questions *)

Definition resident (s : LinkState) (t : Tumbler) : bool := bool_decide (is_Some (links s !! t)).

Definition nullified (s : LinkState) (t : Tumbler) : bool := bool_decide (t ∈ h_nullified (hints s)).

Definition check_sup_schema (s : LinkState) (value : Link) : result unit SupSchemaFault :=
  match single_denoted (from_slot value), single_denoted (to_slot value) with
  | Some f, Some g =>
      if negb (resident s f) || negb (resident s g) then Err NotResident
      else if bool_decide (f = g) then Err Reflexive
      else Ok tt
  | _, _ => Err NotSingleDenoted
  end.

(** Kept at its width, as a release build keeps it; the addition a debug build
    would check overflows only past [2^64] links of one home, and below them the
    count is exact ([LinkStateLaws.home_frontier_exact]). *)
Definition home_frontier (s : LinkState) (home : Address) : N :=
  default 0%N (h_home_frontier (hints s) !! tumbler home).

Definition link_at (s : LinkState) (t : Tumbler) : outcome Link := expect_some (links s !! t).

Definition next_link_address (s : LinkState) (home : Address) : outcome Address :=
  let ordinal := ((1 + home_frontier s home) mod U64_WRAP)%N in
  expect_ok (elem_addr (MkElemPos home link_subspace ordinal)).

Definition lift (t : Tumbler) : outcome Address := expect_ok (validate t).

(** [.map(lift).find(..)], over the keys in order. *)
Fixpoint find_readable (readable_home : Address → bool) (keys : list Tumbler) : outcome (option Address) :=
  match keys with
  | [] => Done None
  | t :: keys =>
      addr ← lift t;
      home ← expect_some (document_of addr);
      if readable_home home then Done (Some addr) else find_readable readable_home keys
  end.

Definition active_incumbent (s : LinkState) (key : DedupKey) (readable_home : Address → bool) :
    outcome (option Address) :=
  match dedup (hints s) !! key with
  | None => Done None
  | Some keys => find_readable readable_home (List.filter (λ t, negb (nullified s t)) (ord_elements keys))
  end.
