(* ===== verification/LinkStateLaws.v ===== *)
(** * The hints are a function of the links

    Every hint the fold maintains is characterised by the map of links alone, so the
    incremental fold and the load-time rebuild agree whatever the order of the
    deposits; and the fold is total exactly on the records it documents. *)

From stdpp Require Import gmap sorting.
From S2P Require Import Prelude Tumblers Addresses Arith NsKeys NsState OrdSets Spans SpanSets Endsets ClassLaws TypeRegistry.
From S2P Require Import Spanfilade SpanfiladeLaws LinkState.

(** ** Indexes that gather *)

Section Gathers.
Context {K A : Type} `{Countable K, Countable A}.

(** A map of sets whose keys are [Q] and whose sets are [P], no set left over. *)
Record gathers (m : gmap K (gset A)) (Q : K → Prop) (P : K → A → Prop) : Prop := {
  ga_key k : is_Some (m !! k) ↔ Q k;
  ga_elem k s : m !! k = Some s → ∀ x, x ∈ s ↔ P k x;
  ga_has k x : P k x → Q k
}.

Lemma gathers_unique m n Q P : gathers m Q P → gathers n Q P → m = n.
Proof.
  intros [A1 A2 _] [B1 B2 _]. apply map_eq. intros k. destruct (m !! k) as [s|] eqn:Em, (n !! k) as [t|] eqn:En.
  - f_equal. apply set_eq. intros x. by rewrite (A2 k s Em), (B2 k t En).
  - destruct (proj2 (B1 k)) as [? ?]; [apply A1; by exists s|congruence].
  - destruct (proj2 (A1 k)) as [? ?]; [apply B1; by exists t|congruence].
  - done.
Qed.

Lemma gathers_ext m (Q R : K → Prop) (P S : K → A → Prop) :
  (∀ k, Q k ↔ R k) → (∀ k x, P k x ↔ S k x) → gathers m Q P → gathers m R S.
Proof.
  intros HQ HP [A1 A2 A3]. split.
  - intros k. by rewrite A1.
  - intros k s Hs x. by rewrite (A2 k s Hs).
  - intros k x Hs. apply HQ, (A3 k x), HP, Hs.
Qed.

Lemma gathers_empty : gathers (∅ : gmap K (gset A)) (λ _, False) (λ _ _, False).
Proof. split; [|by intros k s; rewrite lookup_empty|done]. intros k. rewrite lookup_empty. split; [by intros [? ?]|done]. Qed.

(** [entry(k).or_default()] and the union of a set into it. *)
Lemma gathers_union m Q P k s :
  gathers m Q P →
  gathers (<[k := s ∪ default ∅ (m !! k)]> m) (λ j, j = k ∨ Q j) (λ j x, j = k ∧ x ∈ s ∨ P j x).
Proof.
  intros [A1 A2 A3]. split.
  - intros j. destruct (decide (j = k)) as [->|Hne]; [rewrite lookup_insert_eq; split; [by left|by eexists]|].
    rewrite lookup_insert_ne by done. rewrite A1. naive_solver.
  - intros j t Ht x. destruct (decide (j = k)) as [->|Hne].
    + rewrite lookup_insert_eq in Ht. injection Ht as <-. rewrite elem_of_union. destruct (m !! k) as [u|] eqn:Em; cbn.
      * rewrite (A2 k u Em). naive_solver.
      * assert (HP : ¬ P k x). { intros HP%A3%A1. destruct HP. congruence. } rewrite elem_of_empty. naive_solver.
    + rewrite lookup_insert_ne in Ht by done. rewrite (A2 j t Ht). naive_solver.
  - intros j x [[-> _]|HP]; [by left|]. right. by eapply A3.
Qed.

Lemma gathers_insert_into m Q P k x :
  gathers m Q P → gathers (insert_into k x m) (λ j, j = k ∨ Q j) (λ j y, j = k ∧ y = x ∨ P j y).
Proof.
  intros Hm. eapply gathers_ext; [| |by apply (gathers_union m Q P k {[x]})]; [done|]. intros j y. cbn beta. by rewrite elem_of_singleton.
Qed.
End Gathers.

(** ** The specification of the hints *)

(** A link's home, as the fold computes it. *)
Definition home_tumbler (a : Tumbler) : option Tumbler :=
  match validate a with Ok ad => tumbler <$> document_of ad | Err _ => None end.

Section Spec.
Context (L : gmap Tumbler Link).

Definition typed (a : Tumbler) (c : CoverageClass) (v : Link) : Prop :=
  L !! a = Some v ∧ coverage_class (type_slot v) = Done c.

Definition sliced (c : CoverageClass) (a : Tumbler) : Prop := ∃ v, typed a c v.

(** The record [a] retracts the root [t]. *)
Definition retracts (t a : Tumbler) : Prop :=
  ∃ v, typed a (shipped_class registry Retraction) v ∧ t ∈ Endset_addrs (to_slot v).

Definition keyed (k : DedupKey) (a : Tumbler) : Prop :=
  ∃ v c, typed a c v ∧ is_idempotent registry c = true ∧ DedupKey_of v = Done k.

Definition claims_from (old a : Tumbler) : Prop :=
  ∃ v, typed a (shipped_class registry Supersedes) v ∧ old ∈ Endset_addrs (from_slot v).

Definition supersedes (old : Tumbler) (e : SupEdge) : Prop :=
  ∃ v, typed (se_claim e) (shipped_class registry Supersedes) v ∧ old ∈ Endset_addrs (from_slot v) ∧ se_new e ∈ Endset_addrs (to_slot v).

Definition homed_at (h : Tumbler) : gset Tumbler := filter (λ a, home_tumbler a = Some h) (dom L).

Definition link_filings : list Filing_of :=
  omap (λ p, h ← home_tumbler p.1; Some (p.1, h, p.2)) (map_to_list L).

Record hints_ok (h : Hints) : Prop := {
  ho_types : gathers (type_slices h) (λ c, ∃ a, sliced c a) sliced;
  ho_nullified t : t ∈ h_nullified h ↔ ∃ a, retracts t a;
  ho_retractions : gathers (retractions h) (λ t, ∃ a, retracts t a) retracts;
  ho_dedup : gathers (dedup h) (λ k, ∃ a, keyed k a) keyed;
  ho_sup : gathers (sup_fwd h) (λ old, ∃ a, claims_from old a) supersedes;
  ho_frontier d : h_home_frontier h !! d =
    (if decide (homed_at d = ∅) then None else Some (N.of_nat (size (homed_at d)) mod U64_WRAP)%N);
  ho_files : files (spanfilade h) link_filings
}.

Lemma elem_of_link_filings a h v : (a, h, v) ∈ link_filings ↔ L !! a = Some v ∧ home_tumbler a = Some h.
Proof.
  unfold link_filings. rewrite list_elem_of_omap. split.
  - intros ([a' v'] & Hin%elem_of_map_to_list & E). cbn in E. destruct (home_tumbler a') as [h'|] eqn:Eh; [|done]. by injection E as -> -> ->.
  - intros [Ha Hh]. exists (a, v). split; [by apply elem_of_map_to_list|]. cbn. by rewrite Hh.
Qed.

Lemma hints_unique h k : hints_ok h → hints_ok k → h = k.
Proof.
  intros [A1 A2 A3 A4 A5 A6 A7] [B1 B2 B3 B4 B5 B6 B7]. destruct h, k. cbn in *. f_equal.
  - by eapply gathers_unique.
  - apply set_eq. intros t. by rewrite A2, B2.
  - by eapply gathers_unique.
  - by eapply gathers_unique.
  - by eapply gathers_unique.
  - apply map_eq. intros d. by rewrite A6, B6.
  - by eapply files_unique.
Qed.
End Spec.

(** The records the fold is defined on, past freshness: a T4-valid element's address,
    a type slot of level-uniform spans, and every slot so under an idempotent class. *)
Definition foldable (a : Tumbler) (v : Link) : bool :=
  bool_decide (is_Some (home_tumbler a)) && is_done (coverage_class (type_slot v)) &&
  match coverage_class (type_slot v) with
  | Done c => negb (is_idempotent registry c) || is_done (DedupKey_of v)
  | Panicked => false
  end.

(** Nothing is a fact of a link that is not there. *)
Ltac by_absence Hno :=
  intros; split; [done|]; intros;
  repeat match goal with
  | H : ∃ _, _ |- _ => destruct H
  | H : _ ∧ _ |- _ => destruct H
  end; exfalso; eapply Hno; eassumption.

Lemma hints_default : hints_ok ∅ Hints_default.
Proof.
  assert (Hno : ∀ a c v, ¬ typed ∅ a c v) by (intros a c v [Hl _]; by rewrite lookup_empty in Hl).
  split; cbn; unfold sliced, retracts, keyed, claims_from, supersedes.
  - eapply gathers_ext; [| |apply gathers_empty]; by_absence Hno.
  - intros t. rewrite elem_of_empty. revert t. by_absence Hno.
  - eapply gathers_ext; [| |apply gathers_empty]; by_absence Hno.
  - eapply gathers_ext; [| |apply gathers_empty]; by_absence Hno.
  - eapply gathers_ext; [| |apply gathers_empty]; by_absence Hno.
  - intros d. rewrite lookup_empty, decide_True; [done|]. apply set_eq. intros a. unfold homed_at. rewrite elem_of_filter, dom_empty_L. set_solver.
  - eapply files_ext; [|apply files_default]. intros [[a h] v]. rewrite elem_of_link_filings, lookup_empty. split; [by intros ?%not_elem_of_nil|by intros []].
Qed.

(** ** One deposit folded *)

Lemma fold_retractions_ok addr l h Q P :
  gathers (retractions h) Q P →
  let h' := foldl (λ h root, fold_retraction h addr root) h l in
  type_slices h' = type_slices h ∧ dedup h' = dedup h ∧ sup_fwd h' = sup_fwd h ∧
  h_home_frontier h' = h_home_frontier h ∧ spanfilade h' = spanfilade h ∧
  (∀ t, t ∈ h_nullified h' ↔ t ∈ l ∨ t ∈ h_nullified h) ∧
  gathers (retractions h') (λ t, t ∈ l ∨ Q t) (λ t a, t ∈ l ∧ a = addr ∨ P t a).
Proof.
  revert h Q P. induction l as [|root l IH]; intros h Q P Hg; cbn [foldl].
  { split_and!; try done; [intros t; rewrite elem_of_nil; tauto|].
    eapply gathers_ext; [| |exact Hg]; intros; rewrite elem_of_nil; tauto. }
  destruct (IH (fold_retraction h addr root) _ _ (gathers_insert_into _ _ _ root addr Hg)) as (E1 & E2 & E3 & E4 & E5 & Hn & Hr).
  split_and!; [exact E1|exact E2|exact E3|exact E4|exact E5| |].
  - intros t. rewrite Hn. cbn [h_nullified fold_retraction]. rewrite elem_of_union, elem_of_singleton, elem_of_cons. tauto.
  - eapply gathers_ext; [| |exact Hr]; intros; cbn beta; rewrite elem_of_cons; tauto.
Qed.

Lemma fold_edges_ok news addr l m Q P :
  gathers m Q P →
  gathers (foldl (fold_edges news addr) m l) (λ old, old ∈ l ∨ Q old)
    (λ old e, old ∈ l ∧ se_claim e = addr ∧ se_new e ∈ news ∨ P old e).
Proof.
  revert m Q P. induction l as [|old l IH]; intros m Q P Hg; cbn [foldl].
  { eapply gathers_ext; [| |exact Hg]; intros; rewrite elem_of_nil; tauto. }
  assert (Hmem : ∀ e, e ∈ (set_map (λ new, MkSupEdge new addr) news : gset SupEdge) ↔ se_claim e = addr ∧ se_new e ∈ news).
  { intros [n c]. rewrite elem_of_map. cbn. split; [by intros (x & [= -> ->] & ?)|]. intros [-> ?]. by exists n. }
  eapply gathers_ext; [| |apply IH, (gathers_union m Q P old (set_map (λ new, MkSupEdge new addr) news) Hg)];
    intros; cbn beta; rewrite elem_of_cons, ?Hmem; tauto.
Qed.

Lemma typed_insert L a v b c w :
  L !! a = None → typed (<[a := v]> L) b c w ↔ (b = a ∧ w = v ∧ coverage_class (type_slot v) = Done c) ∨ typed L b c w.
Proof.
  intros Ha. unfold typed. destruct (decide (b = a)) as [->|Hne].
  - rewrite lookup_insert_eq, Ha. naive_solver.
  - rewrite lookup_insert_ne by done. naive_solver.
Qed.

Lemma homed_at_insert L a v d :
  homed_at (<[a := v]> L) d = if decide (home_tumbler a = Some d) then {[a]} ∪ homed_at L d else homed_at L d.
Proof.
  apply set_eq. intros b. unfold homed_at. rewrite elem_of_filter, dom_insert_L, elem_of_union, elem_of_singleton.
  destruct (decide (home_tumbler a = Some d)) as [E|E].
  - rewrite elem_of_union, elem_of_singleton, elem_of_filter. naive_solver.
  - rewrite elem_of_filter. naive_solver.
Qed.

Lemma link_filings_insert L a v h :
  L !! a = None → home_tumbler a = Some h →
  ∀ d, d ∈ link_filings L ++ [(a, h, v)] ↔ d ∈ link_filings (<[a := v]> L).
Proof.
  intros Ha Hh [[b k] w]. rewrite elem_of_app, list_elem_of_singleton, !elem_of_link_filings. destruct (decide (b = a)) as [->|Hne].
  - rewrite lookup_insert_eq, Ha. naive_solver.
  - rewrite lookup_insert_ne by done. naive_solver.
Qed.

Lemma home_tumbler_inv a :
  is_Some (home_tumbler a) →
  ∃ ad home, validate a = Ok ad ∧ document_of ad = Some home ∧ home_tumbler a = Some (tumbler home).
Proof.
  unfold home_tumbler. intros [h Hh]. destruct (validate a) as [ad|]; [|done]. destruct (document_of ad) as [home|] eqn:Ed; [|done]. by exists ad, home.
Qed.

Lemma foldable_inv a v :
  foldable a v = true →
  ∃ ad home c, validate a = Ok ad ∧ document_of ad = Some home ∧ home_tumbler a = Some (tumbler home) ∧
    coverage_class (type_slot v) = Done c ∧ (is_idempotent registry c = true → ∃ k, DedupKey_of v = Done k).
Proof.
  unfold foldable. intros [[Hh%bool_decide_eq_true Hc]%andb_true_iff Hk]%andb_true_iff.
  destruct (home_tumbler_inv a Hh) as (ad & home & Ev & Ed & E). clear Hh.
  destruct (coverage_class (type_slot v)) as [c|]; [|discriminate Hc].
  exists ad, home, c. split_and!; [exact Ev|exact Ed|exact E|reflexivity|]. intros Hi. rewrite Hi in Hk. cbn [negb orb] in Hk.
  destruct (DedupKey_of v) as [k|]; [by exists k|discriminate Hk].
Qed.

(** ** What one more link adds to each fact *)

Section OneMore.
Context (L : gmap Tumbler Link) (a : Tumbler) (v : Link) (c : CoverageClass).
Context (Ha : L !! a = None) (Ec : coverage_class (type_slot v) = Done c).

Lemma one_more (Φ : CoverageClass → Link → Prop) b :
  (∃ w k, typed (<[a := v]> L) b k w ∧ Φ k w) ↔ (Φ c v ∧ b = a) ∨ ∃ w k, typed L b k w ∧ Φ k w.
Proof using Ha Ec.
  setoid_rewrite (typed_insert L a v b _ _ Ha). rewrite Ec. split.
  - intros (w & k & [(-> & -> & [= <-])|Hw] & HΦ); [by left|right; by exists w, k].
  - intros [[HΦ ->]|(w & k & Hw & HΦ)]; [exists v, c; split; [by left|done]|exists w, k; split; [by right|done]].
Qed.

Lemma one_more_at k (Φ : Link → Prop) b :
  (∃ w, typed (<[a := v]> L) b k w ∧ Φ w) ↔ (c = k ∧ Φ v ∧ b = a) ∨ ∃ w, typed L b k w ∧ Φ w.
Proof using Ha Ec.
  setoid_rewrite (typed_insert L a v b k _ Ha). rewrite Ec. split.
  - intros (w & [(-> & -> & [= <-])|Hw] & HΦ); [by left|right; by exists w].
  - intros [(<- & HΦ & ->)|(w & Hw & HΦ)]; [exists v; split; [by left|done]|exists w; split; [by right|done]].
Qed.

Lemma sliced_more k b : sliced (<[a := v]> L) k b ↔ (c = k ∧ b = a) ∨ sliced L k b.
Proof using Ha Ec.
  pose proof (one_more_at k (λ _, True) b) as H. unfold sliced. split.
  - intros [w Hw]. destruct (proj1 H) as [(? & _ & ?)|(w' & ? & _)]; [by exists w|by left|right; by exists w'].
  - intros [[? ?]|[w Hw]]; destruct (proj2 H) as (w' & ? & _); [by left|by exists w'|right; by exists w|by exists w'].
Qed.

Lemma retracts_more t b :
  retracts (<[a := v]> L) t b ↔
  (c = shipped_class registry Retraction ∧ t ∈ Endset_addrs (to_slot v) ∧ b = a) ∨ retracts L t b.
Proof using Ha Ec. apply one_more_at. Qed.

Lemma claims_from_more old b :
  claims_from (<[a := v]> L) old b ↔
  (c = shipped_class registry Supersedes ∧ old ∈ Endset_addrs (from_slot v) ∧ b = a) ∨ claims_from L old b.
Proof using Ha Ec. apply one_more_at. Qed.

Lemma supersedes_more old e :
  supersedes (<[a := v]> L) old e ↔
  (c = shipped_class registry Supersedes ∧ (old ∈ Endset_addrs (from_slot v) ∧ se_new e ∈ Endset_addrs (to_slot v)) ∧ se_claim e = a) ∨
  supersedes L old e.
Proof using Ha Ec. apply one_more_at. Qed.

Lemma keyed_more k b :
  keyed (<[a := v]> L) k b ↔
  ((is_idempotent registry c = true ∧ DedupKey_of v = Done k) ∧ b = a) ∨ keyed L k b.
Proof using Ha Ec. apply (one_more (λ c v, is_idempotent registry c = true ∧ DedupKey_of v = Done k)). Qed.

(** *** Each hint, after the deposit *)

Lemma types_more m :
  gathers m (λ c, ∃ a, sliced L c a) (sliced L) →
  gathers (insert_into c a m) (λ k, ∃ b, sliced (<[a := v]> L) k b) (sliced (<[a := v]> L)).
Proof using Ha Ec.
  intros Hm. eapply gathers_ext; [| |apply (gathers_insert_into _ _ _ c a Hm)]; intros k; [|intros b; rewrite sliced_more; naive_solver].
  setoid_rewrite sliced_more. naive_solver.
Qed.

Lemma dedup_more m k :
  is_idempotent registry c = true → DedupKey_of v = Done k →
  gathers m (λ k, ∃ a, keyed L k a) (keyed L) →
  gathers (insert_into k a m) (λ k, ∃ b, keyed (<[a := v]> L) k b) (keyed (<[a := v]> L)).
Proof using Ha Ec.
  intros Hi Hk Hm. assert (Hmore : ∀ j b, keyed (<[a := v]> L) j b ↔ (j = k ∧ b = a) ∨ keyed L j b).
  { intros j b. rewrite keyed_more, Hi, Hk. clear. naive_solver. }
  eapply gathers_ext; [| |apply (gathers_insert_into _ _ _ k a Hm)]; intros j; [|intros b; by rewrite Hmore].
  setoid_rewrite Hmore. clear. naive_solver.
Qed.

Lemma dedup_same m :
  is_idempotent registry c = false →
  gathers m (λ k, ∃ a, keyed L k a) (keyed L) → gathers m (λ k, ∃ b, keyed (<[a := v]> L) k b) (keyed (<[a := v]> L)).
Proof using Ha Ec.
  intros Hi Hm. assert (Hmore : ∀ j b, keyed (<[a := v]> L) j b ↔ keyed L j b).
  { intros j b. rewrite keyed_more, Hi. clear. naive_solver. }
  eapply gathers_ext; [| |exact Hm]; intros j; [by setoid_rewrite Hmore|intros b; by rewrite Hmore].
Qed.

Lemma sup_more m :
  c = shipped_class registry Supersedes →
  gathers m (λ old, ∃ a, claims_from L old a) (supersedes L) →
  gathers (foldl (fold_edges (list_to_set (Endset_addrs (to_slot v))) a) m (ord_elements (list_to_set (Endset_addrs (from_slot v)))))
    (λ old, ∃ b, claims_from (<[a := v]> L) old b) (supersedes (<[a := v]> L)).
Proof using Ha Ec.
  intros Hc Hm. eapply gathers_ext; [| |apply (fold_edges_ok _ a _ _ _ _ Hm)]; intros old; [|intros e];
    cbn beta; rewrite elem_of_ord_elements, !elem_of_list_to_set.
  - setoid_rewrite claims_from_more. clear -Hc. naive_solver.
  - rewrite supersedes_more. clear -Hc. naive_solver.
Qed.

Lemma sup_same m :
  c ≠ shipped_class registry Supersedes →
  gathers m (λ old, ∃ a, claims_from L old a) (supersedes L) →
  gathers m (λ old, ∃ b, claims_from (<[a := v]> L) old b) (supersedes (<[a := v]> L)).
Proof using Ha Ec.
  intros Hc Hm. eapply gathers_ext; [| |exact Hm]; intros old; [|intros e]; cbn beta.
  - setoid_rewrite claims_from_more. clear -Hc. naive_solver.
  - rewrite supersedes_more. clear -Hc. naive_solver.
Qed.

Lemma retractions_more h :
  c = shipped_class registry Retraction →
  (∀ t, t ∈ h_nullified h ↔ ∃ a, retracts L t a) → gathers (retractions h) (λ t, ∃ a, retracts L t a) (retracts L) →
  let h' := foldl (λ h root, fold_retraction h a root) h (Endset_addrs (to_slot v)) in
  (∀ t, t ∈ h_nullified h' ↔ ∃ b, retracts (<[a := v]> L) t b) ∧
  gathers (retractions h') (λ t, ∃ b, retracts (<[a := v]> L) t b) (retracts (<[a := v]> L)).
Proof using Ha Ec.
  intros Hc Hn Hr. destruct (fold_retractions_ok a (Endset_addrs (to_slot v)) h _ _ Hr) as (_ & _ & _ & _ & _ & Hn' & Hr'). split.
  - intros t. rewrite Hn', Hn. setoid_rewrite retracts_more. clear -Hc. naive_solver.
  - eapply gathers_ext; [| |exact Hr']; intros t; [|intros b]; cbn beta; [setoid_rewrite retracts_more|rewrite retracts_more]; clear -Hc; naive_solver.
Qed.

Lemma retractions_same h :
  c ≠ shipped_class registry Retraction →
  (∀ t, t ∈ h_nullified h ↔ ∃ a, retracts L t a) → gathers (retractions h) (λ t, ∃ a, retracts L t a) (retracts L) →
  (∀ t, t ∈ h_nullified h ↔ ∃ b, retracts (<[a := v]> L) t b) ∧
  gathers (retractions h) (λ t, ∃ b, retracts (<[a := v]> L) t b) (retracts (<[a := v]> L)).
Proof using Ha Ec.
  intros Hc Hn Hr. assert (Hmore : ∀ t b, retracts (<[a := v]> L) t b ↔ retracts L t b).
  { intros t b. rewrite retracts_more. clear -Hc. naive_solver. }
  split; [intros t; rewrite Hn; by setoid_rewrite Hmore|].
  eapply gathers_ext; [| |exact Hr]; intros t; [by setoid_rewrite Hmore|intros b; by rewrite Hmore].
Qed.

Lemma frontier_more (m : gmap Tumbler N) home :
  home_tumbler a = Some home →
  (∀ d, m !! d = if decide (homed_at L d = ∅) then None else Some (N.of_nat (size (homed_at L d)) mod U64_WRAP)%N) →
  ∀ d, <[home := ((default 0 (m !! home) + 1) mod U64_WRAP)%N]> m !! d =
    if decide (homed_at (<[a := v]> L) d = ∅) then None else Some (N.of_nat (size (homed_at (<[a := v]> L) d)) mod U64_WRAP)%N.
Proof using Ha.
  intros Hh Hm d. rewrite homed_at_insert. destruct (decide (home_tumbler a = Some d)) as [Hd|Hd].
  - assert (d = home) as -> by congruence. rewrite lookup_insert_eq, Hm.
    rewrite (decide_False (P := {[a]} ∪ homed_at L home = ∅)) by (apply (non_empty_inhabited_L (C := gset Tumbler) a), elem_of_union; left; by apply elem_of_singleton). f_equal.
    assert (Hnot : a ∉ homed_at L home).
    { unfold homed_at. rewrite elem_of_filter. intros [_ Hin%elem_of_dom]. destruct Hin. congruence. }
    rewrite size_union by (by apply disjoint_singleton_l). rewrite size_singleton. destruct (decide (homed_at L home = ∅)) as [->|Hne]; cbn [default].
    + by rewrite size_empty.
    + unfold id. rewrite N.Div0.add_mod_idemp_l. f_equal. lia.
  - rewrite lookup_insert_ne by congruence. apply Hm.
Qed.
End OneMore.

Lemma fold_hints_ok L h a v :
  hints_ok L h → L !! a = None → foldable a v = true →
  ∃ h', fold_hints h a v = Done h' ∧ hints_ok (<[a := v]> L) h'.
Proof.
  intros [H1 H2 H3 H4 H5 H6 H7] Ha (ad & home & c & Ev & Ed & Hh & Ec & Hk)%foldable_inv.
  unfold fold_hints. rewrite Ec. cbn [mbind outcome_bind].
  set (h1 := MkHints (insert_into c a (type_slices h)) _ _ _ _ _ _).
  set (h2 := if bool_decide (c = shipped_class registry Retraction) then _ else h1).
  assert (Hh2 : type_slices h2 = type_slices h1 ∧ dedup h2 = dedup h ∧ sup_fwd h2 = sup_fwd h ∧
    h_home_frontier h2 = h_home_frontier h ∧ spanfilade h2 = spanfilade h).
  { unfold h2. case_bool_decide; [|done]. by destruct (fold_retractions_ok a (Endset_addrs (to_slot v)) h1 _ _ H3) as (? & ? & ? & ? & ? & _). }
  destruct Hh2 as (E1 & E2 & E3 & E4 & E5).
  assert (Hnr : (∀ t, t ∈ h_nullified h2 ↔ ∃ b, retracts (<[a := v]> L) t b) ∧
    gathers (retractions h2) (λ t, ∃ b, retracts (<[a := v]> L) t b) (retracts (<[a := v]> L))).
  { unfold h2. case_bool_decide; [by apply (retractions_more L a v c)|by apply (retractions_same L a v c)]. }
  assert (Hded : ∃ D, (if is_idempotent registry c then key ← DedupKey_of v; Done (insert_into key a (dedup h2)) else Done (dedup h2)) = Done D ∧
    gathers D (λ k, ∃ b, keyed (<[a := v]> L) k b) (keyed (<[a := v]> L))).
  { rewrite E2. destruct (is_idempotent registry c) eqn:Ei; [|exists (dedup h); split; [reflexivity|by apply (dedup_same L a v c)]].
    destruct (Hk eq_refl) as [k Ek]. rewrite Ek. cbn [mbind outcome_bind]. eexists. split; [reflexivity|by apply (dedup_more L a v c)]. }
  destruct Hded as (D & -> & HD). cbn [mbind outcome_bind].
  set (S := if bool_decide (c = shipped_class registry Supersedes) then _ else _).
  assert (HS : gathers S (λ old, ∃ b, claims_from (<[a := v]> L) old b) (supersedes (<[a := v]> L))).
  { unfold S. rewrite E3. case_bool_decide; [by apply (sup_more L a v c)|by apply (sup_same L a v c)]. }
  rewrite Ev. cbn [mbind outcome_bind expect_ok]. rewrite Ed. cbn [mbind outcome_bind expect_some].
  destruct (Spanfilade_file_ok (spanfilade h2) (link_filings L) a (tumbler home) v) as (sf & Esf & Hsf).
  { by rewrite E5. } { intros k w (Hl & _)%elem_of_link_filings. congruence. }
  rewrite Esf. cbn [mbind outcome_bind]. eexists. split; [reflexivity|].
  split; cbn [type_slices h_nullified retractions dedup sup_fwd h_home_frontier spanfilade].
  - rewrite E1. by apply types_more.
  - apply Hnr.
  - apply Hnr.
  - exact HD.
  - exact HS.
  - rewrite E4. by apply frontier_more.
  - eapply files_ext; [|exact Hsf]. by apply link_filings_insert.
Qed.

(** A record outside the fold's domain is a panic. *)
Lemma fold_hints_panics h a v : foldable a v = false → fold_hints h a v = Panicked.
Proof.
  intros Hf. unfold fold_hints. destruct (coverage_class (type_slot v)) as [c|] eqn:Ec; [|done]. cbn [mbind outcome_bind].
  match goal with |- (let out := ?x in _) = _ => generalize x | |- _ => idtac end.
  destruct (is_idempotent registry c) eqn:Ei; [destruct (DedupKey_of v) as [k|] eqn:Ek; [|done]|]; cbn [mbind outcome_bind].
  all: destruct (validate a) as [ad|] eqn:Ev; [|done]; cbn [mbind outcome_bind expect_ok].
  all: destruct (document_of ad) as [home|] eqn:Ed; [|done]; exfalso; unfold foldable, home_tumbler in Hf;
    rewrite Ev, Ed, Ec, Ei in Hf; cbn in Hf.
  all: rewrite ?Ek in Hf; discriminate Hf.
Qed.

(** ** The store *)

(** The records in order. *)
Fixpoint apply_links (s : LinkState) (rs : list LinkRec) : outcome LinkState :=
  match rs with
  | [] => Done s
  | r :: rs => s ← apply_link s r; apply_links s rs
  end.

Definition link_state_ok (s : LinkState) : Prop :=
  hints_ok (links s) (hints s) ∧ ∀ a v, links s !! a = Some v → foldable a v = true.

(** Below [2^64] links of a home its frontier is their count: no addition that kept
    it overflowed. *)
Lemma home_frontier_exact s d :
  link_state_ok s → (N.of_nat (size (homed_at (links s) (tumbler d))) < U64_WRAP)%N →
  home_frontier s d = N.of_nat (size (homed_at (links s) (tumbler d))).
Proof.
  intros [Hh _] Hlt. unfold home_frontier. rewrite (ho_frontier _ _ Hh).
  destruct (decide _) as [E|E]; cbn [default]; [by rewrite E, size_empty|]. by apply N.mod_small.
Qed.

Lemma links_genesis_ok : link_state_ok LinkState_genesis.
Proof. split; [apply hints_default|]. intros a v Ha. unfold LinkState_genesis in Ha. cbn [links] in Ha. by rewrite lookup_empty in Ha. Qed.

Lemma apply_link_cases s r :
  link_state_ok s →
  if bool_decide (links s !! dep_addr r = None) && foldable (dep_addr r) (dep_value r)
  then ∃ s', apply_link s r = Done s' ∧ links s' = <[dep_addr r := dep_value r]> (links s) ∧ link_state_ok s'
  else apply_link s r = Panicked.
Proof.
  intros [Hh Hf]. destruct r as [a v]. cbn [dep_addr dep_value]. unfold apply_link. cbn [dep_addr dep_value].
  destruct (links s !! a) as [w|] eqn:Ea.
  { rewrite (bool_decide_eq_true_2 (is_Some (Some w))) by done. by rewrite bool_decide_eq_false_2 by done. }
  rewrite bool_decide_eq_true_2, bool_decide_eq_false_2 by (done || by intros []). cbn [negb assert mbind outcome_bind andb].
  destruct (foldable a v) eqn:Ef.
  - destruct (fold_hints_ok (links s) (hints s) a v Hh Ea Ef) as (h' & -> & Hh'). cbn [mbind outcome_bind].
    eexists. split; [reflexivity|]. split; [done|]. split; [exact Hh'|]. intros b w. cbn [links]. destruct (decide (b = a)) as [->|Hne].
    + rewrite lookup_insert_eq. intros [= <-]. exact Ef.
    + rewrite lookup_insert_ne by done. apply Hf.
  - by rewrite fold_hints_panics.
Qed.

Lemma apply_links_ok rs s s' : link_state_ok s → apply_links s rs = Done s' → link_state_ok s'.
Proof.
  revert s. induction rs as [|r rs IH]; intros s Hs; cbn [apply_links]; [by intros <-%Done_inj|].
  intros (s1 & E1 & E)%bind_inv. pose proof (apply_link_cases s r Hs) as Hc. destruct (_ && _).
  - destruct Hc as (s2 & E2 & _ & Hs2). rewrite E2 in E1. apply Done_inj in E1 as <-. by apply (IH s2).
  - congruence.
Qed.

Lemma fold_entries_ok L h l :
  hints_ok L h → NoDup (fst <$> l) → (∀ a v, (a, v) ∈ l → L !! a = None ∧ foldable a v = true) →
  ∃ h', fold_entries h l = Done h' ∧ hints_ok (list_to_map l ∪ L) h'.
Proof.
  revert L h. induction l as [|[a v] l IH]; intros L h Hh Hn Hl; cbn [fold_entries].
  { exists h. split; [done|]. cbn. by rewrite (left_id_L ∅ (∪)). }
  cbn in Hn. apply NoDup_cons in Hn as [Hal Hn]. destruct (Hl a v ltac:(by left)) as [Ha Hf].
  destruct (fold_hints_ok L h a v Hh Ha Hf) as (h1 & -> & Hh1). cbn [mbind outcome_bind].
  destruct (IH (<[a := v]> L) h1 Hh1 Hn) as (h2 & -> & Hh2).
  { intros b w Hb. destruct (Hl b w ltac:(by right)) as [? ?]. split; [|done]. rewrite lookup_insert_ne; [done|].
    intros <-. apply Hal, list_elem_of_fmap. by exists (a, w). }
  exists h2. split; [done|]. cbn [list_to_map foldr]. rewrite <- insert_union_r in Hh2 by (by apply not_elem_of_list_to_map_1). by rewrite <- insert_union_l.
Qed.

Lemma rebuild_ok (L : gmap Tumbler Link) h0 :
  (∀ a v, L !! a = Some v → foldable a v = true) →
  ∃ h, rebuild_derived (MkLinkState L h0) = Done (MkLinkState L h) ∧ hints_ok L h.
Proof.
  intros Hf. unfold rebuild_derived. cbn [links].
  destruct (fold_entries_ok ∅ Hints_default (tum_entries L) hints_default (tum_entries_NoDup L)) as (h & -> & Hh).
  { intros a v Hin%elem_of_tum_entries. split; [by rewrite lookup_empty|auto]. }
  cbn [mbind outcome_bind]. exists h. split; [done|]. rewrite (right_id_L ∅ (∪)) in Hh.
  assert (list_to_map (tum_entries L) = L) as E; [|by rewrite E in Hh].
  apply map_eq. intros a. apply option_eq. intros v. rewrite <- elem_of_list_to_map by apply tum_entries_NoDup. apply elem_of_tum_entries.
Qed.

(** C26. The hints are a function of the links. Whatever records were folded from
    genesis, in whatever order, every later record either lands at a fresh,
    foldable address or panics; the rebuild from the decoded map alone, with no
    hint kept, gives back exactly the state the fold maintained; and two stores with
    the same links have the same hints. *)
Theorem hints_rebuilt (rs qs : list LinkRec) (s t : LinkState) (r : LinkRec) (h : Hints) :
  apply_links LinkState_genesis rs = Done s → apply_links LinkState_genesis qs = Done t →
  rebuild_derived (MkLinkState (links s) h) = Done s ∧
  (links s = links t → s = t) ∧
  (if bool_decide (links s !! dep_addr r = None) && foldable (dep_addr r) (dep_value r)
   then ∃ s', apply_link s r = Done s' ∧ links s' = <[dep_addr r := dep_value r]> (links s)
   else apply_link s r = Panicked).
Proof.
  intros [Hs Hfs]%apply_links_ok [Ht _]%apply_links_ok; [|apply links_genesis_ok..]. split_and!.
  - destruct (rebuild_ok (links s) h Hfs) as (h' & -> & Hh'). f_equal. destruct s as [L hs]. cbn in *. f_equal. by eapply hints_unique.
  - destruct s as [L hs], t as [M ht]. cbn in *. intros <-. f_equal. by eapply hints_unique.
  - pose proof (apply_link_cases s r (conj Hs Hfs)) as Hc. destruct (_ && _); [|done]. destruct Hc as (s' & ? & ? & _). by exists s'.
Qed.
