(* ===== verification/LinkReads.v ===== *)
(** * The read surface of the links

    Models [crates/skep-links/src/state/reads.rs] (M7): the raw reads, the typed
    observers with the supersession walk and currency, and the discovery primitives
    over the spanfilade, each a pure read of the store. *)

From stdpp Require Import gmap sorting.
From S2P Require Import Prelude Tumblers Addresses Arith NsKeys NsState OrdSets Spans SpanSets Endsets TypeRegistry.
From S2P Require Import Spanfilade HomeWalk LinkState.

Inductive View := ViewAudit | ViewActive | ViewDefault.

#[export] Instance View_eq_dec : EqDecision View.
Proof. solve_decision. Defined.

Record Tuple := MkTuple { tu_addr : Address; tu_from : Endset; tu_to : Endset }.

Record Pattern := MkPattern { pat_from : list Tumbler; pat_to : list Tumbler }.

Inductive Tip := Sink (a : Address) | Indeterminate.

Record CurrentMember := MkCurrentMember { cm_member : Address; cm_active : bool; cm_claims : list Address }.

(** [error.rs]'s two units. *)
Inductive Invalid := Invalid_.
Inductive NotBh4 := NotBh4_.

Definition slot_overlaps (link : Link) (slot : nat) (query : Endset) : bool :=
  match Link_slot link slot with
  | Some endset => existsb (λ q, existsb (λ s, overlaps q s) (endset_spans endset)) (endset_spans query)
  | None => false
  end.

Definition lift_denoted (t : Tumbler) : outcome Address := expect_ok (validate t).

Definition under_any (roots : list Tumbler) (probe : Tumbler) : bool := existsb (λ root, is_prefix root probe) roots.

Definition default_to_active (view : View) : View := match view with ViewDefault => ViewActive | other => other end.

Definition is_active_view (view : View) : bool := bool_decide (default_to_active view = ViewActive).

Definition home_of_key (t : Tumbler) : outcome Address := a ← lift t; expect_some (document_of a).

Definition link_chain_bounds (home : Address) : outcome (Tumbler * Tumbler) :=
  let chain last := expect_ok (Tumbler_new (comps (tumbler home) ++ [0%N; last])) in
  lo ← chain link_subspace;
  hi ← chain (link_subspace + 1)%N;
  Done (lo, hi).

Definition link_keys (s : LinkState) : gset Tumbler := dom (links s).

(** A walk of keys that seeks past each home it yields: [ClassHomes], and [homes]. *)
Fixpoint key_homes (fuel : nat) (keys : gset Tumbler) (cursor : Bound Tumbler) : outcome (list Address) :=
  match fuel with
  | 0 => Done []
  | S fuel =>
      match range cursor Unbounded keys with
      | [] => Done []
      | key :: _ =>
          home ← home_of_key key;
          bounds ← link_chain_bounds home;
          rest ← key_homes fuel keys (Included bounds.2);
          Done (home :: rest)
      end
  end.

Definition class_homes (slice : gset Tumbler) : outcome (list Home) :=
  homes ← key_homes (S (size slice)) slice Unbounded;
  Done (map tumbler homes).

(** ** Raw reads *)

Definition readlink (s : LinkState) (a : Address) : option Link := links s !! tumbler a.

Definition followlink (s : LinkState) (a : Address) (slot : nat) : result SpanSet Invalid :=
  match links s !! tumbler a with
  | None => Err Invalid_
  | Some link =>
      match Link_slot link slot with
      | None => Err Invalid_
      | Some endset => Ok (to_spanset endset)
      end
  end.

(** ** Slices *)

Definition type_slice_class (s : LinkState) (class : CoverageClass) (view : View) : list Tumbler :=
  match type_slices (hints s) !! class with
  | None => []
  | Some slice => List.filter (λ t, negb (is_active_view view && nullified s t)) (ord_elements slice)
  end.

Definition typed_links (s : LinkState) (class : CoverageClass) (view : View) : outcome (list (Tumbler * Link)) :=
  outcome_map (λ t, link ← link_at s t; Done (t, link)) (type_slice_class s class view).

Definition retired_roots (s : LinkState) : outcome (list Tumbler) :=
  typed ← typed_links s (shipped_class registry Retired) ViewActive;
  Done (typed ≫= λ p, Endset_addrs (from_slot p.2)).

Definition subtract_filtered (s : LinkState) (class : CoverageClass) (view : View) (denoted : gset Tumbler) :
    outcome (list Address) :=
  let subtract := bool_decide (view = ViewDefault) && negb (bool_decide (class = shipped_class registry Retired)) in
  roots ← (if subtract then retired_roots s else Done []);
  outcome_map lift_denoted (List.filter (λ t, negb (subtract && under_any roots t)) (ord_elements denoted)).

(** ** Typed reads *)

Definition observe (s : LinkState) (ty : Endset) (pattern : Pattern) (view : View) : outcome (list Tuple) :=
  class ← coverage_class ty;
  typed ← typed_links s class view;
  outcome_map (λ p, a ← lift p.1; Done (MkTuple a (from_slot p.2) (to_slot p.2)))
    (List.filter (λ p, forallb (Endset_covers (from_slot p.2)) (pat_from pattern) &&
                       forallb (Endset_covers (to_slot p.2)) (pat_to pattern)) typed).

Definition is_k (s : LinkState) (ty : Endset) (probe : Tumbler) : outcome bool :=
  class ← coverage_class ty;
  typed ← typed_links s class ViewActive;
  Done (existsb (λ p, Endset_covers (from_slot p.2) probe) typed).

Definition members (s : LinkState) (ty : Endset) (view : View) : outcome (list Address) :=
  class ← coverage_class ty;
  typed ← typed_links s class view;
  subtract_filtered s class view (list_to_set (typed ≫= λ p, Endset_addrs (from_slot p.2))).

Definition targets_of (s : LinkState) (ty : Endset) (x : Address) (view : View) : outcome (list Address) :=
  class ← coverage_class ty;
  typed ← typed_links s class view;
  subtract_filtered s class view
    (list_to_set (List.filter (λ p, Endset_covers (from_slot p.2) (tumbler x)) typed ≫= λ p, Endset_addrs (to_slot p.2))).

Definition is_active (s : LinkState) (a : Address) : bool := resident s (tumbler a) && negb (nullified s (tumbler a)).

Definition is_nullified (s : LinkState) (a : Address) : bool := nullified s (tumbler a).

Definition retractions_of (s : LinkState) (a : Address) : outcome (list Address) :=
  match retractions (hints s) !! tumbler a with
  | None => Done []
  | Some records => outcome_map lift (ord_elements records)
  end.

Definition is_filtered (s : LinkState) (probe : Tumbler) : outcome bool :=
  roots ← retired_roots s; Done (under_any roots probe).

Definition sources_to (s : LinkState) (ty : Endset) (target : Address) : outcome (list Address) :=
  class ← coverage_class ty;
  typed ← typed_links s class ViewActive;
  let sources : gset Tumbler := list_to_set
    (List.filter (λ p, Endset_covers (to_slot p.2) (tumbler target)) typed ≫= λ p, Endset_addrs (from_slot p.2)) in
  outcome_map lift_denoted (ord_elements sources).

(** The sole survivor; a second match is no answer. *)
Fixpoint sole_survivor (source : Tumbler) (survivor : option Link) (typed : list (Tumbler * Link)) : option Link :=
  match typed with
  | [] => survivor
  | (_, link) :: typed =>
      if existsb (λ f, bool_decide (f = source)) (Endset_addrs (from_slot link)) then
        match survivor with
        | Some _ => None
        | None => sole_survivor source (Some link) typed
        end
      else sole_survivor source survivor typed
  end.

Definition target_of_class (s : LinkState) (class : CoverageClass) (source : Address) : outcome (option Address) :=
  typed ← typed_links s class ViewActive;
  match sole_survivor (tumbler source) None typed with
  | None => Done None
  | Some survivor =>
      match single_denoted (to_slot survivor) with
      | None => Done None
      | Some t => a ← lift_denoted t; Done (Some a)
      end
  end.

Definition target_of (s : LinkState) (ty : Endset) (source : Address) : outcome (option Address) :=
  class ← coverage_class ty; target_of_class s class source.

Fixpoint keyed_targets (s : LinkState) (source : Address) (classes : list CoverageClass)
    (out : gmap CoverageClass Address) : outcome (gmap CoverageClass Address) :=
  match classes with
  | [] => Done out
  | class :: classes =>
      t ← target_of_class s class source;
      keyed_targets s source classes (match t with Some t => <[class := t]> out | None => out end)
  end.

Definition targets_keyed (s : LinkState) (source : Address) : outcome (gmap CoverageClass Address) :=
  keyed_targets s source (reverse_lookup_classes registry) ∅.

Definition age (s : LinkState) (a : Address) : outcome (option N) :=
  if negb (resident s (tumbler a)) then Done None
  else
    home ← expect_some (document_of a);
    let ord := ordinal (tumbler a) in
    _ ← assert (ord <=? U64_MAX)%N;
    if (ord <=? home_frontier s home)%N then Done (Some (home_frontier s home - ord)%N) else Panicked.

Definition stale (s : LinkState) (ty : Endset) (horizon : N) : outcome (result (list Address) NotBh4) :=
  class ← coverage_class ty;
  if negb (declares registry class Age) then Done (Err NotBh4_)
  else
    aged ← outcome_map (λ t, a ← lift t; o ← age s a; n ← expect_some o; Done (a, n)) (type_slice_class s class ViewActive);
    Done (Ok (fst <$> List.filter (λ p, (horizon <? p.2)%N) aged)).

(** ** The supersession walk *)

Definition serves_walk (ty : Endset) : outcome bool :=
  class ← coverage_class ty; Done (bool_decide (class = shipped_class registry Supersedes)).

Definition is_sink (s : LinkState) (x : Tumbler) : bool :=
  match sup_fwd (hints s) !! x with
  | None => true
  | Some edges => forallb (λ e, nullified s (se_claim e)) (elements edges)
  end.

Definition succs_operative (s : LinkState) (x : Tumbler) : gset Tumbler :=
  match sup_fwd (hints s) !! x with
  | None => ∅
  | Some edges => list_to_set (se_new <$> List.filter (λ e, negb (nullified s (se_claim e))) (elements edges))
  end.

(** Every successor some edge names: no walk visits more, past where it starts. *)
Definition successors (s : LinkState) : gset Tumbler :=
  list_to_set (map_to_list (sup_fwd (hints s)) ≫= λ p, se_new <$> elements p.2).

Definition walk_fuel (s : LinkState) : nat := S (S (size (successors s))).

(** [None] is out of fuel. *)
Fixpoint walk_loop (fuel : nat) (s : LinkState) (path : list Tumbler) (visited : gset Tumbler) (node : Tumbler) :
    option (list Tumbler * option Tumbler) :=
  match fuel with
  | 0 => None
  | S fuel =>
      match ord_elements (succs_operative s node) with
      | [] => Some (path, Some node)
      | [next] =>
          if bool_decide (next ∈ visited) then Some (path, None)
          else walk_loop fuel s (path ++ [next]) ({[next]} ∪ visited) next
      | _ => Some (path, None)
      end
  end.

Definition walk_sup (s : LinkState) (x : Tumbler) : outcome (list Tumbler * option Tumbler) :=
  expect_some (walk_loop (walk_fuel s) s [x] {[x]} x).

Definition succs (s : LinkState) (ty : Endset) (x : Address) : outcome (list Address) :=
  serves ← serves_walk ty;
  if negb serves then Done [] else outcome_map lift_denoted (ord_elements (succs_operative s (tumbler x))).

Definition chain (s : LinkState) (ty : Endset) (x : Address) : outcome (list Address) :=
  serves ← serves_walk ty;
  if negb serves then Done []
  else '(path, _) ← walk_sup s (tumbler x); outcome_map lift_denoted path.

Definition is_in_chain (s : LinkState) (ty : Endset) (addr target : Address) : outcome bool :=
  c ← chain s ty addr; Done (bool_decide (target ∈ c)).

Definition tip (s : LinkState) (ty : Endset) (x : Address) : outcome Tip :=
  serves ← serves_walk ty;
  if negb serves then Done Indeterminate
  else
    '(_, sink) ← walk_sup s (tumbler x);
    match sink with
    | Some sink => a ← lift_denoted sink; Done (Sink a)
    | None => Done Indeterminate
    end.

(** ** Currency *)

(** The successors not yet reached, each reached and pushed, in ascending order. *)
Fixpoint push_new (reach : gset Tumbler) (stack : list Tumbler) (l : list Tumbler) : gset Tumbler * list Tumbler :=
  match l with
  | [] => (reach, stack)
  | succ :: l =>
      if bool_decide (succ ∈ reach) then push_new reach stack l
      else push_new ({[succ]} ∪ reach) (succ :: stack) l
  end.

(** The stack's top is the list's head; [None] is out of fuel. *)
Fixpoint reach_loop (fuel : nat) (s : LinkState) (reach : gset Tumbler) (stack : list Tumbler) : option (gset Tumbler) :=
  match stack with
  | [] => Some reach
  | x :: stack =>
      match fuel with
      | 0 => None
      | S fuel =>
          let '(reach, stack) := push_new reach stack (ord_elements (succs_operative s x)) in
          reach_loop fuel s reach stack
      end
  end.

(** [out.binary_search_by(..)], then the claim pushed at the index found. *)
Definition push_claim (out : list (Tumbler * list Address)) (g : Tumbler) (claim : Address) : list (Tumbler * list Address) :=
  (λ p, if bool_decide (p.1 = g) then (p.1, p.2 ++ [claim]) else p) <$> out.

(** The claim is lifted where a vertex is found. *)
Definition push_claim_at (out : list (Tumbler * list Address)) (g claim : Tumbler) : outcome (list (Tumbler * list Address)) :=
  if existsb (λ p, bool_decide (p.1 = g)) out then a ← lift claim; Done (push_claim out g a) else Done out.

Fixpoint claims_loop (out : list (Tumbler * list Address)) (claim : Tumbler) (gs : list Tumbler) :
    outcome (list (Tumbler * list Address)) :=
  match gs with
  | [] => Done out
  | g :: gs => out ← push_claim_at out g claim; claims_loop out claim gs
  end.

Fixpoint out_claims_loop (out : list (Tumbler * list Address)) (typed : list (Tumbler * Link)) :
    outcome (list (Tumbler * list Address)) :=
  match typed with
  | [] => Done out
  | (claim, link) :: typed => out ← claims_loop out claim (Endset_addrs (to_slot link)); out_claims_loop out typed
  end.

Definition out_claims (s : LinkState) (vertices : gset Tumbler) : outcome (list (Tumbler * list Address)) :=
  typed ← typed_links s (shipped_class registry Supersedes) ViewActive;
  out_claims_loop ((λ t, (t, [])) <$> ord_elements vertices) typed.

Definition current (s : LinkState) (y : Address) : outcome (list CurrentMember) :=
  reach ← expect_some (reach_loop (walk_fuel s) s {[tumbler y]} [tumbler y]);
  let sinks : gset Tumbler := list_to_set (List.filter (is_sink s) (elements reach)) in
  out ← out_claims s sinks;
  outcome_map (λ p, member ← lift_denoted p.1; Done (MkCurrentMember member (is_active s member) p.2)) out.
