(* ===== verification/Supersession.v ===== *)
(** * The supersession walk and currency

    The operative graph of the supersession claims, the forward walk over it, which
    always ends, and currency: the sinks reachable from a link with the claims
    operative on each. *)

From stdpp Require Import gmap sorting.
From S2P Require Import Prelude Tumblers Addresses Arith NsKeys NsState OrdSets Spans SpanSets Endsets ClassLaws TypeRegistry.
From S2P Require Import Spanfilade SpanfiladeLaws HomeWalk HomeWalkLaws LinkState LinkStateLaws LinkReads.

(** ** The typed slices *)

(** A resident link of a class that a view admits. *)
Definition typed_in (s : LinkState) (c : CoverageClass) (view : View) (t : Tumbler) (v : Link) : Prop :=
  links s !! t = Some v ∧ coverage_class (type_slot v) = Done c ∧ (is_active_view view && nullified s t = false).

Lemma size_add (A : gset Tumbler) x : x ∉ A → size ({[x]} ∪ A) = S (size A).
Proof. intros H. rewrite size_union by set_solver. by rewrite size_singleton. Qed.

Section Ok.
Context (s : LinkState) (Hs : link_state_ok s).

Lemma elem_of_slice_class c view t : t ∈ type_slice_class s c view ↔ ∃ v, typed_in s c view t v.
Proof using Hs.
  unfold type_slice_class, typed_in. pose proof (ho_types _ _ (proj1 Hs)) as Hg. destruct (type_slices (hints s) !! c) as [slice|] eqn:E.
  - rewrite list_elem_of_In, filter_In, <- list_elem_of_In, elem_of_ord_elements, (ga_elem _ _ _ Hg c slice E), negb_true_iff.
    unfold sliced, typed. split; [intros [(v & ? & ?) ?]; by exists v|intros (v & ? & ? & ?); split; [by exists v|done]].
  - split; [by intros ?%not_elem_of_nil|]. intros (v & Ht & Hc & _).
    destruct (proj2 (ga_key _ _ _ Hg c)) as [sl Hsl]; [by exists t, v|]. by rewrite E in Hsl.
Qed.

Lemma slice_class_strict c view : StronglySorted olt (type_slice_class s c view).
Proof using.
  unfold type_slice_class. destruct (type_slices (hints s) !! c) as [slice|]; [|constructor].
  apply filter_strict. change (ord_elements slice) with (ord_list slice). apply ord_list_strict.
Qed.

Lemma typed_links_ok c view :
  ∃ l, typed_links s c view = Done l ∧ fst <$> l = type_slice_class s c view ∧ ∀ t v, (t, v) ∈ l ↔ typed_in s c view t v.
Proof using Hs.
  unfold typed_links. destruct (outcome_map_ok (λ t, link ← link_at s t; Done (t, link)) (type_slice_class s c view)
    (λ t p, p.1 = t ∧ links s !! t = Some p.2)) as (l & -> & Hl).
  { intros t (v & Hv & _)%elem_of_slice_class. unfold link_at. rewrite Hv. cbn. by exists (t, v). }
  exists l. split_and!; [done| |].
  - clear -Hl. induction Hl as [|t p ts l [Hp _] _ IH]; [done|]. cbn. by rewrite Hp, IH.
  - intros t v. split.
    + intros (i & Hi)%list_elem_of_lookup. destruct (Forall2_lookup_r _ _ _ _ _ Hl Hi) as (t' & Ht & E & Hv). cbn in E, Hv. subst t'.
      apply list_elem_of_lookup_2, elem_of_slice_class in Ht as (w & Hw). pose proof (proj1 Hw) as Hw1. rewrite Hv in Hw1. injection Hw1 as <-. exact Hw.
    + intros Ht. assert (Hin : t ∈ type_slice_class s c view) by (apply elem_of_slice_class; by exists v).
      apply list_elem_of_lookup in Hin as [i Hi]. destruct (Forall2_lookup_l _ _ _ _ _ Hl Hi) as ([t' w] & Hp & E & Hw). cbn in E, Hw. subst t'.
      destruct Ht as (Hv & _). rewrite Hv in Hw. injection Hw as <-. by eapply list_elem_of_lookup_2.
Qed.

(** ** The operative graph *)

(** A claim in force, that its [to] supersedes its [from]. *)
Definition claim_in_force (c : Tumbler) (v : Link) : Prop := typed_in s (shipped_class registry Supersedes) ViewActive c v.

Definition operative (x y : Tumbler) : Prop :=
  ∃ c v, claim_in_force c v ∧ x ∈ Endset_addrs (from_slot v) ∧ y ∈ Endset_addrs (to_slot v).

Lemma edges_operative x edges y :
  sup_fwd (hints s) !! x = Some edges → operative x y ↔ ∃ e, e ∈ edges ∧ se_new e = y ∧ nullified s (se_claim e) = false.
Proof using Hs.
  intros E. pose proof (ga_elem _ _ _ (ho_sup _ _ (proj1 Hs)) x edges E) as He. split.
  - intros (c & v & (Hv & Hc & Hn) & Hx & Hy). exists (MkSupEdge y c). split_and!; [|done|exact Hn].
    apply He. exists v. split_and!; [split; [exact Hv|exact Hc]|exact Hx|exact Hy].
  - intros (e & Hin & <- & Hn). apply He in Hin as (v & [Hv Hc] & Hx & Hy). exists (se_claim e), v.
    split_and!; [split_and!; [exact Hv|exact Hc|exact Hn]|exact Hx|exact Hy].
Qed.

Lemma no_edges_operative x y : sup_fwd (hints s) !! x = None → ¬ operative x y.
Proof using Hs.
  intros E (c & v & (Hv & Hc & _) & Hx & _). destruct (proj2 (ga_key _ _ _ (ho_sup _ _ (proj1 Hs)) x)) as [? H]; [|by rewrite E in H].
  exists c, v. split; [split; [exact Hv|exact Hc]|exact Hx].
Qed.

Lemma succs_operative_iff x y : y ∈ succs_operative s x ↔ operative x y.
Proof using Hs.
  unfold succs_operative. destruct (sup_fwd (hints s) !! x) as [edges|] eqn:E.
  - rewrite (edges_operative x edges y E), elem_of_list_to_set, list_elem_of_fmap. setoid_rewrite list_elem_of_In. setoid_rewrite filter_In.
    setoid_rewrite <- list_elem_of_In. setoid_rewrite elem_of_elements. setoid_rewrite negb_true_iff. clear. naive_solver.
  - split; [by intros ?%not_elem_of_empty|]. intros H. by destruct (no_edges_operative x y E).
Qed.

Lemma is_sink_iff x : is_sink s x = true ↔ ∀ y, ¬ operative x y.
Proof using Hs.
  unfold is_sink. destruct (sup_fwd (hints s) !! x) as [edges|] eqn:E.
  - rewrite forallb_forall. setoid_rewrite <- list_elem_of_In. setoid_rewrite elem_of_elements. split.
    + intros H y (e & He & _ & Hn)%(edges_operative x edges y E). specialize (H e He). congruence.
    + intros H e He. apply not_false_is_true. intros Hn. apply (H (se_new e)). apply (edges_operative x edges _ E). by exists e.
  - split; [|done]. intros _ y. by apply no_edges_operative.
Qed.

Lemma operative_successors x y : operative x y → y ∈ successors s.
Proof using Hs.
  intros H. unfold successors. apply elem_of_list_to_set, list_elem_of_bind. destruct (sup_fwd (hints s) !! x) as [edges|] eqn:E.
  - destruct (proj1 (edges_operative x edges y E) H) as (e & He & <- & _). exists (x, edges). split; [|by apply elem_of_map_to_list].
    apply list_elem_of_fmap. exists e. split; [done|]. by apply elem_of_elements.
  - by destruct (no_edges_operative x y E).
Qed.

(** ** The walk *)

(** Each node's sole operative successor is the next. *)
Definition linked (path : list Tumbler) : Prop :=
  ∀ i a b, path !! i = Some a → path !! S i = Some b → ∀ z, operative a z ↔ z = b.

Inductive halts (path : list Tumbler) (node : Tumbler) : option Tumbler → Prop :=
  | halts_sink : (∀ z, ¬ operative node z) → halts path node (Some node)
  | halts_branch y z : operative node y → operative node z → y ≠ z → halts path node None
  | halts_cycle y : (∀ z, operative node z ↔ z = y) → y ∈ path → halts path node None.

Lemma linked_snoc path node next :
  last path = Some node → linked path → (∀ z, operative node z ↔ z = next) → linked (path ++ [next]).
Proof using.
  intros Hl Hp Hn i a b Ha Hb. destruct (decide (S i < length path)) as [Hi|Hi].
  - rewrite lookup_app_l in Ha, Hb by lia. by apply (Hp i).
  - pose proof (lookup_lt_Some _ _ _ Hb) as Hlen. rewrite length_app in Hlen. cbn in Hlen.
    assert (S i = length path) as Hlast by lia. rewrite lookup_app_l in Ha by lia. rewrite Hlast, list_lookup_middle in Hb by done. injection Hb as <-.
    rewrite last_lookup, <- Hlast in Hl. cbn in Hl. rewrite Ha in Hl. by injection Hl as ->.
Qed.

Lemma walk_loop_ok fuel path node :
  last path = Some node → NoDup path → linked path → size (successors s ∖ list_to_set path) < fuel →
  ∃ path' node' sink, walk_loop fuel s path (list_to_set path) node = Some (path', sink) ∧
    path `prefix_of` path' ∧ last path' = Some node' ∧ NoDup path' ∧ linked path' ∧ halts path' node' sink.
Proof using Hs.
  revert path node. induction fuel as [|fuel IH]; intros path node Hl Hn Hp Hf; [lia|]. cbn [walk_loop].
  pose proof (succs_operative_iff node) as Hsucc. setoid_rewrite <- elem_of_ord_elements in Hsucc.
  pose proof (ord_elements_NoDup (succs_operative s node)) as Hnd.
  destruct (ord_elements (succs_operative s node)) as [|y [|z rest]].
  - exists path, node, (Some node). split_and!; [done..|]. constructor. intros z Hz%Hsucc. by apply not_elem_of_nil in Hz.
  - assert (Hy : ∀ z, operative node z ↔ z = y) by (intros z; by rewrite <- Hsucc, list_elem_of_singleton).
    case_bool_decide as Hv.
    + exists path, node, None. split_and!; [done..|]. apply (halts_cycle _ _ y); [done|]. by apply elem_of_list_to_set in Hv.
    + rewrite elem_of_list_to_set in Hv.
      assert ({[y]} ∪ list_to_set path = (list_to_set (path ++ [y]) : gset Tumbler)) as ->.
      { rewrite list_to_set_app_L. cbn. set_solver. }
      destruct (IH (path ++ [y]) y) as (path' & node' & sink & -> & Hpre & Hrest).
      * apply last_snoc.
      * apply NoDup_app. split_and!; [done| |apply NoDup_singleton]. intros z Hz ->%list_elem_of_singleton. done.
      * by apply (linked_snoc path node).
      * assert (Hin : y ∈ successors s) by (apply (operative_successors node), Hy; done).
        apply Nat.succ_lt_mono. eapply Nat.le_lt_trans; [|exact Hf]. apply subset_size. rewrite list_to_set_app_L. cbn. set_solver.
      * exists path', node', sink. split; [done|]. split; [|done]. etransitivity; [by apply prefix_app_r|done].
  - exists path, node, None. split_and!; [done..|]. apply NoDup_cons in Hnd as [Hyz _].
    apply (halts_branch _ _ y z); [apply Hsucc; by left|apply Hsucc; right; by left|]. intros ->. apply Hyz. by left.
Qed.

Lemma walk_sup_ok x :
  ∃ path node sink, walk_sup s x = Done (path, sink) ∧ [x] `prefix_of` path ∧ last path = Some node ∧
    NoDup path ∧ linked path ∧ halts path node sink.
Proof using Hs.
  unfold walk_sup. destruct (walk_loop_ok (walk_fuel s) [x] x) as (path & node & sink & E & H).
  - done. - apply NoDup_singleton. - intros i a b _ Hb. by destruct i.
  - unfold walk_fuel. eapply Nat.le_lt_trans; [apply subseteq_size, subseteq_difference_l; reflexivity|lia].
  - exists path, node, sink. split; [|done]. replace (list_to_set [x] : gset Tumbler) with ({[x]} : gset Tumbler) in E by (cbn; set_solver).
    by rewrite E.
Qed.

(** ** The reachable set *)

Definition reaches : relation Tumbler := rtc operative.

Lemma push_new_ok reach stack l :
  NoDup l → (∀ y, y ∈ l → y ∈ successors s) →
  let '(reach', stack') := push_new reach stack l in
  (∀ y, y ∈ reach' ↔ y ∈ reach ∨ y ∈ l) ∧ (∀ y, y ∈ stack' ↔ y ∈ stack ∨ (y ∈ l ∧ y ∉ reach)) ∧
  length stack' + size (successors s ∖ reach') = length stack + size (successors s ∖ reach).
Proof using.
  revert reach stack. induction l as [|x l IH]; intros reach stack Hn Hl; cbn [push_new].
  { split_and!; [|..|done]; intros y; [split; [by left|intros [?|?%not_elem_of_nil]; done]|split; [by left|intros [?|[?%not_elem_of_nil _]]; done]]. }
  apply NoDup_cons in Hn as [Hx Hn]. case_bool_decide as Hr.
  - specialize (IH reach stack Hn (λ y Hy, Hl y (list_elem_of_further _ _ _ Hy))). destruct (push_new reach stack l) as [reach' stack'].
    destruct IH as (H1 & H2 & H3). split_and!; [| |done]; intros y; rewrite ?H1, ?H2, elem_of_cons; clear -Hr Hx; naive_solver.
  - specialize (IH ({[x]} ∪ reach) (x :: stack) Hn (λ y Hy, Hl y (list_elem_of_further _ _ _ Hy))).
    destruct (push_new ({[x]} ∪ reach) (x :: stack) l) as [reach' stack']. destruct IH as (H1 & H2 & H3). split_and!.
    + intros y. rewrite H1, elem_of_union, elem_of_singleton, elem_of_cons. clear. naive_solver.
    + intros y. rewrite H2, !elem_of_cons, elem_of_union, elem_of_singleton. split.
      * clear -Hr. naive_solver.
      * intros [?|[[->|?] ?]]; [left; by right|left; by left|]. right. split; [done|]. intros [->|?]; done.
    + rewrite H3. cbn [length]. assert (Hin : x ∈ successors s) by (apply Hl; by left).
      assert (successors s ∖ reach = {[x]} ∪ successors s ∖ ({[x]} ∪ reach)) as E.
      { apply set_eq. intros y. rewrite elem_of_union, !elem_of_difference, elem_of_union, elem_of_singleton.
        destruct (decide (y = x)) as [->|]; [split; [by left|done]|]. clear -n. naive_solver. }
      rewrite E, size_add; [lia|]. rewrite elem_of_difference, elem_of_union, elem_of_singleton. clear. naive_solver.
Qed.

Lemma reach_loop_ok y fuel reach stack :
  length stack + size (successors s ∖ reach) ≤ fuel →
  y ∈ reach → (∀ x, x ∈ stack → x ∈ reach) → (∀ x, x ∈ reach → reaches y x) →
  (∀ x z, x ∈ reach → x ∉ stack → operative x z → z ∈ reach) →
  ∃ r, reach_loop fuel s reach stack = Some r ∧ ∀ x, x ∈ r ↔ reaches y x.
Proof using Hs.
  revert reach stack. induction fuel as [|fuel IH]; intros reach stack Hf Hy Hst Hsound Hclosed; (destruct stack as [|x stack]; cbn [reach_loop]); [|cbn in Hf; lia| |].
  1, 2: exists reach; split; [done|]; intros x; split; [apply Hsound|]; revert x; apply rtc_ind_r; [done|];
    intros a b _ Hab Ha; eapply Hclosed; [exact Ha|apply not_elem_of_nil|exact Hab].
  destruct (push_new reach stack (ord_elements (succs_operative s x))) as [reach' stack'] eqn:Ep.
  pose proof (push_new_ok reach stack (ord_elements (succs_operative s x)) (ord_elements_NoDup _)) as H. rewrite Ep in H.
  destruct H as (H1 & H2 & H3).
  { intros z Hz%elem_of_ord_elements%succs_operative_iff. by eapply operative_successors. }
  setoid_rewrite elem_of_ord_elements in H1. setoid_rewrite elem_of_ord_elements in H2. setoid_rewrite succs_operative_iff in H1. setoid_rewrite succs_operative_iff in H2.
  assert (Hx : x ∈ reach) by (apply Hst; by left). apply IH.
  - cbn [length] in Hf. lia.
  - apply H1. by left.
  - intros z [Hz|[Hz _]]%H2; apply H1; [left; apply Hst; by right|by right].
  - intros z [Hz|Hz]%H1; [by apply Hsound|]. eapply rtc_r; [by apply Hsound|done].
  - intros a z Ha Hns Haz. destruct (decide (a = x)) as [->|Hne]; [apply H1; by right|].
    apply H1. apply H1 in Ha as [Ha|Ha].
    + left. eapply Hclosed; [exact Ha| |exact Haz]. intros [->|Hin]%elem_of_cons; [done|]. apply Hns, H2. by left.
    + destruct (decide (a ∈ reach)) as [Hr|Hr]; [|destruct Hns; apply H2; by right]. left. eapply Hclosed; [exact Hr| |exact Haz].
      intros [->|Hin]%elem_of_cons; [done|]. apply Hns, H2. by left.
Qed.

(** ** The claims on each sink *)

Definition times (gs : list Tumbler) (t : Tumbler) : nat := length (List.filter (λ g, bool_decide (t = g)) gs).

Lemma push_claim_at_ok out g claim a :
  lift claim = Done a → push_claim_at out g claim = Done (push_claim out g a).
Proof using.
  intros Ha. unfold push_claim_at. destruct (existsb _ out) eqn:E; [by rewrite Ha|]. f_equal. unfold push_claim.
  induction out as [|[t cs] out IH]; [done|]. cbn in E |- *. apply orb_false_iff in E as [E1 E2]. rewrite E1. f_equal. by apply IH.
Qed.

Lemma claims_loop_ok out claim gs a :
  lift claim = Done a →
  claims_loop out claim gs = Done ((λ p, (p.1, p.2 ++ replicate (times gs p.1) a)) <$> out).
Proof using.
  intros Ha. revert out. induction gs as [|g gs IH]; intros out; cbn [claims_loop].
  - f_equal. rewrite <- (list_fmap_id out) at 1. apply list_fmap_ext. intros i [t cs] _. cbn. by rewrite app_nil_r.
  - rewrite (push_claim_at_ok out g claim a Ha). cbn [mbind outcome_bind]. rewrite IH. f_equal. unfold push_claim. rewrite <- list_fmap_compose.
    apply list_fmap_ext. intros i [t cs] _. cbn. unfold times. cbn [List.filter]. case_bool_decide; cbn; [by rewrite <- app_assoc|done].
Qed.

Definition named_by (typed : list (Tumbler * Link)) (t : Tumbler) (a : Address) : Prop :=
  ∃ v, (tumbler a, v) ∈ typed ∧ t ∈ Endset_addrs (to_slot v).

Lemma times_pos gs t : times gs t ≠ 0 ↔ t ∈ gs.
Proof using.
  unfold times. induction gs as [|g gs IH]; cbn; [split; [done|by intros ?%not_elem_of_nil]|]. rewrite elem_of_cons. case_bool_decide; cbn; [by split; [left|]|].
  rewrite IH. clear -H. naive_solver.
Qed.

Lemma out_claims_loop_ok out typed :
  (∀ p, p ∈ typed → is_ok (validate p.1) = true) →
  ∃ out', out_claims_loop out typed = Done out' ∧ fst <$> out' = fst <$> out ∧
    ∀ i t cs, out !! i = Some (t, cs) → ∃ cs', out' !! i = Some (t, cs ++ cs') ∧ (∀ a, a ∈ cs' ↔ named_by typed t a) ∧
      (StronglySorted olt (fst <$> typed) → StronglySorted ole (tumbler <$> cs')).
Proof using.
  revert out. induction typed as [|[claim v] typed IH]; intros out Hv; cbn [out_claims_loop].
  { exists out. split_and!; [done..|]. intros i t cs Hi. exists []. rewrite app_nil_r. split_and!; [done| |intros _; constructor].
    intros a. split; [by intros ?%not_elem_of_nil|]. by intros (v & ?%not_elem_of_nil & _). }
  assert (∃ a, lift claim = Done a ∧ tumbler a = claim) as (a & Ha & Ea).
  { specialize (Hv (claim, v) ltac:(by left)). cbn in Hv. unfold lift. destruct (validate claim) as [a|] eqn:Ev; [|done]. exists a. split; [done|]. by apply validate_Ok. }
  rewrite (claims_loop_ok out claim _ a Ha). cbn [mbind outcome_bind].
  destruct (IH ((λ p, (p.1, p.2 ++ replicate (times (Endset_addrs (to_slot v)) p.1) a)) <$> out)) as (out' & -> & Hfst & Hout).
  { intros p Hp. apply Hv. by right. }
  exists out'. split_and!; [done|rewrite Hfst, <- list_fmap_compose; by apply list_fmap_ext|].
  intros i t cs Hi. destruct (Hout i t (cs ++ replicate (times (Endset_addrs (to_slot v)) t) a)) as (cs' & Hcs' & Hin & Hsort).
  { by rewrite list_lookup_fmap, Hi. }
  rewrite <- app_assoc in Hcs'. eexists. split; [exact Hcs'|]. split.
  - intros b. rewrite elem_of_app, Hin. unfold named_by. setoid_rewrite elem_of_cons. split.
    + intros [[-> Ht]%elem_of_replicate|(w & Hw & Ht)]; [|exists w; split; [by right|done]].
      exists v. split; [left; by rewrite Ea|]. apply times_pos. lia.
    + intros (w & [[= Eb ->]|Hw] & Ht); [left|right; by exists w]. apply elem_of_replicate. rewrite <- Ea in Eb. apply Address_eq in Eb as ->.
      split; [done|]. apply times_pos in Ht. lia.
  - cbn [fmap list_fmap fst]. intros Hs'. inversion Hs' as [|? ? Hs'' Hf]; subst. rewrite fmap_app. rewrite Forall_fmap, Forall_forall in Hf.
    assert (Hall : ∀ x y, x ∈ replicate (times (Endset_addrs (to_slot v)) t) a → y ∈ cs' → ole (tumbler x) (tumbler y)).
    { intros x y [-> _]%elem_of_replicate (w & Hw & _)%Hin. apply ole_lt_eq. left. apply (Hf (tumbler y, w) Hw). }
    specialize (Hsort Hs''). revert Hall. generalize (times (Endset_addrs (to_slot v)) t). intros n Hall. induction n as [|n IHn]; [done|]. cbn. constructor.
    + apply IHn. intros x y Hx. apply Hall. by right.
    + apply Forall_app. split; [|apply Forall_fmap, Forall_forall; intros y Hy; apply Hall; [by left|done]].
      apply Forall_fmap, Forall_forall. intros y [-> _]%elem_of_replicate. cbn. apply ole_lt_eq. by right.
Qed.
End Ok.

(** ** The addresses a store denotes *)

(** Every address a slot denotes is T4-valid, as [enc] and [iextent] build them. *)
Definition denotes_addresses (s : LinkState) : bool :=
  forallb (λ p, forallb (λ e, forallb (λ t, is_ok (validate t)) (Endset_addrs e)) (slots p.2)) (map_to_list (links s)).

Lemma denoted_valid s a v e t :
  denotes_addresses s = true → links s !! a = Some v → e ∈ slots v → t ∈ Endset_addrs e → is_ok (validate t) = true.
Proof.
  unfold denotes_addresses. intros H Ha He Ht. rewrite forallb_forall in H. specialize (H (a, v)). rewrite <- list_elem_of_In, elem_of_map_to_list in H.
  specialize (H Ha). rewrite forallb_forall in H. specialize (H e (proj1 (list_elem_of_In _ _) He)). rewrite forallb_forall in H.
  exact (H t (proj1 (list_elem_of_In _ _) Ht)).
Qed.

Lemma slot_at_elem v i H : total (slot_at v i) H ∈ slots v.
Proof.
  pose proof (total_spec (slot_at v i) H) as E. revert E. generalize (total (slot_at v i) H). intros e' E. unfold slot_at, index in E. destruct (slots v !! i) as [e|] eqn:Ei; [|done].
  injection E as <-. by eapply list_elem_of_lookup_2.
Qed.

Lemma operative_valid s x y : denotes_addresses s = true → operative s x y → is_ok (validate y) = true.
Proof. intros Hd (c & v & (Hv & _) & _ & Hy). eapply denoted_valid; [exact Hd|exact Hv|apply slot_at_elem|exact Hy]. Qed.

Lemma lift_path l :
  (∀ t, t ∈ l → is_ok (validate t) = true) → ∃ r, outcome_map lift_denoted l = Done r ∧ tumbler <$> r = l.
Proof.
  induction l as [|t l IH]; intros Hl; [by exists []|]. destruct IH as (r & E & Hr); [intros; apply Hl; by right|]. cbn [outcome_map].
  specialize (Hl t ltac:(by left)). destruct (validate t) as [a|] eqn:Ev; [|done].
  assert (lift_denoted t = Done a) as -> by (unfold lift_denoted; by rewrite Ev). cbn [mbind outcome_bind]. rewrite E. cbn. exists (a :: r). split; [done|].
  apply validate_Ok in Ev. cbn. by rewrite Ev, Hr.
Qed.

(** A linked path's later nodes are successors. *)
Lemma linked_valid s x path :
  denotes_addresses s = true → [tumbler x] `prefix_of` path → linked s path → ∀ t, t ∈ path → is_ok (validate t) = true.
Proof.
  intros Hd [rest ->] Hl t (i & Hi)%list_elem_of_lookup. destruct i as [|i]; [injection Hi as <-; by rewrite validate_self|].
  destruct (lookup_lt_is_Some_2 ([tumbler x] ++ rest) i) as [a Ha]; [apply lookup_lt_Some in Hi; lia|].
  apply (operative_valid s a t Hd). by apply (Hl i a t Ha Hi t).
Qed.

(** C24. The supersession walk ends, and is the chain of sole successors. From any link,
    [chain] answers a path without repetition whose every node has the next as its one
    operative successor, and [tip] answers the node it halts at when that node has no
    operative successor, and nothing when it has two or returns into the path; any
    type but the shipped supersession class is unserved. *)
Theorem walk_exact (s : LinkState) (ty : Endset) (c : CoverageClass) (x : Address) :
  link_state_ok s → denotes_addresses s = true → coverage_class ty = Done c →
  if bool_decide (c = shipped_class registry Supersedes) then
    ∃ path node sink, chain s ty x = Done path ∧ head path = Some x ∧ last path = Some node ∧ NoDup path ∧
      linked s (tumbler <$> path) ∧ halts s (tumbler <$> path) (tumbler node) sink ∧
      tip s ty x = Done (match sink with Some _ => Sink node | None => Indeterminate end) ∧
      ∀ target, is_in_chain s ty x target = Done (bool_decide (target ∈ path))
  else chain s ty x = Done [] ∧ tip s ty x = Done Indeterminate.
Proof.
  intros Hs Hd Hc. unfold is_in_chain, chain, tip, serves_walk. rewrite Hc. cbn [mbind outcome_bind].
  destruct (bool_decide (c = shipped_class registry Supersedes)); cbn [negb]; [|split; reflexivity].
  destruct (walk_sup_ok s Hs (tumbler x)) as (path & node & sink & -> & Hpre & Hlast & Hn & Hl & Hh). cbn [mbind outcome_bind].
  destruct (lift_path path (linked_valid s x path Hd Hpre Hl)) as (r & Er & <-). rewrite Er. cbn [mbind outcome_bind].
  rewrite fmap_last in Hlast. apply fmap_Some in Hlast as (n & Hlast & ->).
  exists r, n, sink. split_and!; [reflexivity| |exact Hlast|by apply (NoDup_fmap_1 tumbler)|exact Hl|exact Hh| |intros; reflexivity].
  - destruct Hpre as [rest E]. destruct r as [|a r]; [discriminate E|]. injection E as E _. by apply Address_eq in E as ->.
  - destruct Hh; [|reflexivity..]. unfold lift_denoted. by rewrite validate_self.
Qed.

(** C25. Currency is entire. [current] answers, ascending and each once, exactly the
    sinks of the operative graph reachable from the argument; each with its own
    activity and, ascending, every claim in force that names it a successor, those
    from outside the reachable set among them. *)
Theorem current_exact (s : LinkState) (y : Address) :
  link_state_ok s → denotes_addresses s = true →
  ∃ ms, current s y = Done ms ∧ StronglySorted olt (tumbler ∘ cm_member <$> ms) ∧
    (∀ g, g ∈ cm_member <$> ms ↔ reaches s (tumbler y) (tumbler g) ∧ ∀ z, ¬ operative s (tumbler g) z) ∧
    ∀ m, m ∈ ms → cm_active m = is_active s (cm_member m) ∧ StronglySorted ole (tumbler <$> cm_claims m) ∧
      ∀ a, a ∈ cm_claims m ↔ ∃ v, claim_in_force s (tumbler a) v ∧ tumbler (cm_member m) ∈ Endset_addrs (to_slot v).
Proof.
  intros Hs Hd. unfold current.
  destruct (reach_loop_ok s Hs (tumbler y) (walk_fuel s) {[tumbler y]} [tumbler y]) as (reach & -> & Hreach).
  { unfold walk_fuel. cbn [length]. assert (size (successors s ∖ {[tumbler y]}) ≤ size (successors s)); [|lia].
    apply subseteq_size, subseteq_difference_l. reflexivity. }
  { by apply elem_of_singleton. } { intros x ->%list_elem_of_singleton. by apply elem_of_singleton. }
  { intros x ->%elem_of_singleton. apply rtc_refl. } { intros x z ->%elem_of_singleton Hns. destruct Hns. by left. }
  cbn [expect_some mbind outcome_bind]. set (sinks := list_to_set _ : gset Tumbler).
  assert (Hsinks : ∀ t, t ∈ sinks ↔ reaches s (tumbler y) t ∧ ∀ z, ¬ operative s t z).
  { intros t. unfold sinks. rewrite elem_of_list_to_set, list_elem_of_In, filter_In, <- list_elem_of_In, elem_of_elements, Hreach.
    by rewrite (is_sink_iff s Hs t). }
  unfold out_claims. destruct (typed_links_ok s Hs (shipped_class registry Supersedes) ViewActive) as (typed & -> & Hfst & Htyped). cbn [mbind outcome_bind].
  destruct (out_claims_loop_ok ((λ t, (t, [])) <$> ord_elements sinks) typed) as (out & -> & Ekeys & Hout).
  { intros [t v] Ht%Htyped. cbn [fst]. destruct (foldable_inv t v) as (ad & _ & _ & -> & _); [|reflexivity]. apply (proj2 Hs), Ht. }
  rewrite <- list_fmap_compose in Ekeys. rewrite (list_fmap_id (ord_elements sinks) : (fst ∘ (λ t, (t, []))) <$> ord_elements sinks = _) in Ekeys.
  cbn [mbind outcome_bind].
  destruct (outcome_map_ok (λ p, member ← lift_denoted p.1; Done (MkCurrentMember member (is_active s member) p.2)) out
    (λ p m, tumbler (cm_member m) = p.1 ∧ cm_active m = is_active s (cm_member m) ∧ cm_claims m = p.2)) as (ms & -> & Hms).
  { intros p Hp. assert (Hin : p.1 ∈ sinks) by (apply elem_of_ord_elements; rewrite <- Ekeys; by apply list_elem_of_fmap_2).
    assert (Hv : is_ok (validate p.1) = true).
    { apply Hsinks in Hin as [Hr _]. apply rtc_inv_r in Hr as [<-|(z & _ & Hz)]; [by rewrite validate_self|]. by apply (operative_valid s z). }
    unfold lift_denoted. destruct (validate p.1) as [a|] eqn:Ev; [|discriminate Hv]. cbn. eexists. split; [reflexivity|]. split_and!; [by apply validate_Ok|reflexivity..]. }
  exists ms. assert (Emem : tumbler ∘ cm_member <$> ms = ord_elements sinks).
  { rewrite <- Ekeys. clear -Hms. induction Hms as [|p m out ms (E & _) _ IH]; [done|]. cbn. by rewrite E, IH. }
  split_and!; [reflexivity|rewrite Emem; apply ord_list_strict| |].
  - intros g. rewrite <- Hsinks, <- elem_of_ord_elements, <- Emem, !list_elem_of_fmap. cbn. split; [intros (m & -> & ?); by exists m|].
    intros (m & E%Address_eq & ?). by exists m.
  - intros m (i & Hi)%list_elem_of_lookup. destruct (Forall2_lookup_r _ _ _ _ _ Hms Hi) as ([t cs] & Hp & Et & Ea & Ec). cbn in Et, Ec.
    split; [exact Ea|]. assert (Ht : ord_elements sinks !! i = Some t).
    { rewrite <- Ekeys, list_lookup_fmap, Hp. reflexivity. }
    destruct (Hout i t []) as (cs' & Hcs & Hin & Hsort); [by rewrite list_lookup_fmap, Ht|]. rewrite Hp in Hcs. injection Hcs as ->.
    rewrite Ec, Et. split.
    + apply Hsort. rewrite Hfst. apply slice_class_strict.
    + intros a. rewrite Hin. unfold named_by. by setoid_rewrite Htyped.
Qed.
