(* ===== verification/LinkFind.v ===== *)
(** * The discovery reads of the links

    Models the query family of [crates/skep-links/src/state/reads.rs] (M7): the walk of
    candidate homes, the stab of one home and of every home, the conjunction of
    per-slot overlaps, the home-first reads, and the typed stabs. An [OrdSet<Address>]
    is the finite set its walk, in address order, lists. *)

From stdpp Require Import gmap sorting.
From S2P Require Import Prelude Tumblers Addresses Arith NsKeys NsState OrdSets Spans SpanSets Endsets TypeRegistry.
From S2P Require Import Spanfilade HomeWalk LinkState LinkReads.

(** A survivor test that may panic, over a list in order. *)
Fixpoint outcome_filter {A} (f : A → outcome bool) (l : list A) : outcome (list A) :=
  match l with
  | [] => Done []
  | x :: l => b ← f x; kept ← outcome_filter f l; Done (if b : bool then x :: kept else kept)
  end.

(** [.map(lift).collect::<OrdSet<Address>>()] *)
Definition lift_all (l : list Tumbler) : outcome (gset Address) :=
  addresses ← outcome_map lift l; Done (list_to_set addresses).

(** [!(active && self.nullified(t))] *)
Definition view_admits (s : LinkState) (view : View) (t : Tumbler) : bool := negb (is_active_view view && nullified s t).

Definition related_class (named : list Tumbler) (class : CoverageClass) : bool :=
  match denoted class with
  | None => true
  | Some minimal => existsb (λ u, existsb (λ t, is_prefix u t || is_prefix t u) named) (ord_elements minimal)
  end.

(** In the order of a hash map, which is no order. *)
Definition related_slices (s : LinkState) (ty : Endset) : list (gset Tumbler) :=
  snd <$> List.filter (λ p, related_class (Endset_addrs ty) p.1) (map_to_list (type_slices (hints s))).

(** ** The candidate homes *)

Definition slice_stream (pair : nat) (slice : gset Tumbler) : outcome Stream :=
  homes ← class_homes slice; Done (MkStream pair None PART_ALL homes).

(** The streams one [(slot, query)] pair opens. *)
Definition pair_streams (s : LinkState) (pair : nat) (slot : nat) (query : Endset) : outcome (list Stream) :=
  if (slot =? TYPE) && is_address_denoting query then outcome_map (slice_stream pair) (related_slices s query)
  else
    match Spanfilade_slot (spanfilade (hints s)) slot with
    | None => Done []
    | Some ix =>
        own ← outcome_map (λ p, index_streams ix p.2 pair p.1) (imap (λ i q, (i, q)) (endset_spans query));
        Done (mjoin own ++ match residue_stream ix pair with Some st => [st] | None => [] end)
    end.

Definition homes_touching (s : LinkState) (queries : list (nat * Endset)) : outcome Touching :=
  streams ← outcome_map (λ p, pair_streams s p.1 p.2.1 p.2.2) (imap (λ i q, (i, q)) queries);
  Touching_open ((λ q, endset_spans q.2) <$> queries) (mjoin streams).

(** The walk taken to its end. *)
Definition all_touches (s : LinkState) (queries : list (nat * Endset)) : outcome (list Touch) :=
  t ← homes_touching s queries; touches (S (homes_left t)) t.

(** ** The stab *)

Definition stab_keys_in (s : LinkState) (home : Address) (slot : nat) (query : list Span) : gset Tumbler :=
  match Spanfilade_home (spanfilade (hints s)) (tumbler home), Spanfilade_slot (spanfilade (hints s)) slot with
  | Some home, Some ix => list_to_set (query ≫= index_stab_in ix home)
  | _, _ => ∅
  end.

Definition stab_in (s : LinkState) (home : Address) (slot : nat) (query : list Span) (view : View) :
    outcome (gset Address) :=
  lift_all (List.filter (view_admits s view) (ord_elements (stab_keys_in s home slot query))).

(** One read per touch, the answers gathered. *)
Definition over_touches {A} (f : Touch → outcome A) (ts : list Touch) : outcome (list A) := outcome_map f ts.

Definition stab (s : LinkState) (slot : nat) (query : Endset) (view : View) : outcome (gset Address) :=
  ts ← all_touches s [(slot, query)];
  found ← over_touches (λ t, stab_in s (to_home t) slot (touch_spans t 0) view) ts;
  Done (⋃ found).

(** ** The conjunction *)

(** One round of the walks, in turn: the first to run out, or the walks advanced. *)
Fixpoint step_walks (i : nat) (walks : list Touching) : outcome (nat + list Touching) :=
  match walks with
  | [] => Done (inr [])
  | walk :: walks =>
      n ← Touching_next walk;
      match n with
      | None => Done (inl i)
      | Some (_, walk) =>
          r ← step_walks (S i) walks;
          Done (match r with inl j => inl j | inr walks => inr (walk :: walks) end)
      end
  end.

(** [None] is out of fuel. *)
Fixpoint fewest_loop (fuel : nat) (walks : list Touching) : outcome (option nat) :=
  match fuel with
  | 0 => Done None
  | S fuel =>
      r ← step_walks 0 walks;
      match r with inl i => Done (Some i) | inr walks => fewest_loop fuel walks end
  end.

Definition fewest_homes (s : LinkState) (constraints : list (nat * Endset)) : outcome nat :=
  if length constraints <? 2 then Done 0
  else
    walks ← outcome_map (λ c, homes_touching s [c]) constraints;
    first ← index walks 0;
    found ← fewest_loop (S (homes_left first)) walks;
    expect_some found.

Definition overlaps_at (s : LinkState) (slot : nat) (query : Endset) (a : Address) : outcome bool :=
  link ← link_at s (tumbler a); Done (slot_overlaps link slot query).

(** [acc.into_iter().filter(..).collect()], for each constraint left. *)
Fixpoint narrow (s : LinkState) (rest : list (nat * Endset)) (acc : gset Address) : outcome (gset Address) :=
  match rest with
  | [] => Done acc
  | (slot, query) :: rest =>
      kept ← outcome_filter (overlaps_at s slot query) (elements acc);
      narrow s rest (list_to_set kept)
  end.

Definition scan (s : LinkState) (view : View) : outcome (gset Address) :=
  lift_all (List.filter (view_admits s view) (ord_elements (link_keys s))).

Definition match_links (s : LinkState) (constraints : list (nat * Endset)) (view : View) : outcome (gset Address) :=
  if negb (nonemptyb constraints) then scan s view
  else
    driver ← fewest_homes s constraints;
    '(slot, query) ← index constraints driver;
    acc ← stab s slot query view;
    narrow s (take driver constraints ++ drop (S driver) constraints) acc.

Definition match_links_in (s : LinkState) (home : Address) (driver : nat * list Span) (rest : list (nat * Endset))
    (view : View) : outcome (gset Address) :=
  acc ← stab_in s home driver.1 driver.2 view; narrow s rest acc.

(** ** Typed slices and homes *)

Definition type_slice (s : LinkState) (ty : Endset) (view : View) : outcome (gset Address) :=
  class ← coverage_class ty; lift_all (type_slice_class s class view).

(** One span's walk: [None] is out of fuel. *)
Fixpoint under_loop (fuel : nat) (keys : gset Tumbler) (start reach cursor : Tumbler) : outcome (option (list Address)) :=
  match fuel with
  | 0 => Done None
  | S fuel =>
      match range (Included cursor) Unbounded keys with
      | [] => Done (Some [])
      | key :: _ =>
          at_ ← home_of_key key;
          if (reach ≤?ₜ tumbler at_) then Done (Some [])
          else
            bounds ← link_chain_bounds at_;
            rest ← under_loop fuel keys start reach bounds.2;
            Done (l ← rest; Some (if (start ≤?ₜ tumbler at_) then at_ :: l else l))
      end
  end.

Definition homes_of_span (s : LinkState) (span : Span) : outcome (list Address) :=
  o ← under_loop (S (size (link_keys s))) (link_keys s) (start span) (reach span) (start span); expect_some o.

Definition homes_under (s : LinkState) (home : Endset) : outcome (gset Address) :=
  found ← outcome_map (homes_of_span s) (endset_spans home); Done (list_to_set (mjoin found)).

Definition homed_in (s : LinkState) (home : Address) (constraints : list (nat * Endset)) (view : View) :
    outcome (gset Address) :=
  _ ← assert (bool_decide (document_of home = Some home));
  bounds ← link_chain_bounds home;
  let keys := List.filter (view_admits s view) (range (Included bounds.1) (Excluded bounds.2) (link_keys s)) in
  kept ← outcome_filter (λ t, link ← link_at s t; Done (forallb (λ c, slot_overlaps link c.1 c.2) constraints)) keys;
  lift_all kept.

Definition homed_under (s : LinkState) (home : Endset) (view : View) : outcome (gset Address) :=
  homes ← homes_under s home;
  found ← outcome_map (λ at_, homed_in s at_ [] view) (elements homes);
  Done (⋃ found).

Definition homes (s : LinkState) : outcome (gset Address) :=
  found ← key_homes (S (size (link_keys s))) (link_keys s) Unbounded; Done (list_to_set found).

(** ** Several slots of one home *)

(** The sort's order: the ordinal, then the slot. *)
Definition hit_le (a b : Tumbler * nat) : Prop := ole (ordinal a.1, a.2) (ordinal b.1, b.2).

#[export] Instance hit_le_dec : RelDecision hit_le.
Proof. intros a b. unfold hit_le. apply _. Defined.

(** [Vec::dedup_by]: what follows an equal one is dropped. *)
Fixpoint dedup_from {A} (same : A → A → bool) (last : A) (l : list A) : list A :=
  match l with
  | [] => []
  | x :: l => if same x last then dedup_from same last l else x :: dedup_from same x l
  end.

Definition dedup_by {A} (same : A → A → bool) (l : list A) : list A :=
  match l with [] => [] | x :: l => x :: dedup_from same x l end.

Definition probe_hits (s : LinkState) (touch : Touch) (probe : nat * nat) : list (Tumbler * nat) :=
  match Spanfilade_slot (spanfilade (hints s)) probe.1 with
  | None => []
  | Some ix =>
      named_at touch probe.2 ≫= λ n, (λ link, (link, probe.1)) <$> stab_in_parts ix (to_held touch) n.1 n.2
  end.

(** The comparator's debug assertion, that two hits have one length, is not a
    branch here: over a findable store it holds ([LinkSlots.hits_one_length]). *)
Definition keys_in_slots (s : LinkState) (touch : Touch) (probes : list (nat * nat)) : list (Tumbler * nat) :=
  dedup_by (λ a b, bool_decide (a = b)) (merge_sort hit_le (probes ≫= probe_hits s touch)).

(** [lift]ed once for a run of one link's pairs. *)
Fixpoint lift_pairs (out : option Address) (hits : list (Tumbler * nat)) : outcome (list (Address * nat)) :=
  match hits with
  | [] => Done []
  | (t, slot) :: hits =>
      a ← match out with
          | Some a => if bool_decide (tumbler a = t) then Done a else lift t
          | None => lift t
          end;
      rest ← lift_pairs (Some a) hits;
      Done ((a, slot) :: rest)
  end.

Definition stab_in_slots (s : LinkState) (touch : Touch) (probes : list (nat * nat)) (view : View) :
    outcome (list (Address * nat)) :=
  lift_pairs None (List.filter (λ h, view_admits s view h.1) (keys_in_slots s touch probes)).

Definition count_in_slots (s : LinkState) (touch : Touch) (probes : list (nat * nat)) (view : View) : nat :=
  length (List.filter (λ h, view_admits s view h.1)
    (dedup_by (λ later earlier, bool_decide (later.1 = earlier.1)) (keys_in_slots s touch probes))).

(** ** Typed stabs *)

Definition tuple_at (s : LinkState) (t : Tumbler) : outcome Tuple :=
  link ← link_at s t; addr ← lift t; Done (MkTuple addr (from_slot link) (to_slot link)).

Definition stab_typed_in_slice (s : LinkState) (slice : gset Tumbler) (home : Address) (slot : nat) (query : list Span)
    (view : View) : outcome (list Tuple) :=
  outcome_map (tuple_at s)
    (List.filter (λ t, bool_decide (t ∈ slice) && view_admits s view t) (ord_elements (stab_keys_in s home slot query))).

(** The walk, for a type some link is filed under. *)
Definition stab_typed_walk (s : LinkState) (slice : gset Tumbler) (slot : nat) (query : Endset) (view : View) :
    outcome (list Tuple) :=
  ts ← all_touches s [(slot, query)];
  found ← over_touches (λ t, stab_typed_in_slice s slice (to_home t) slot (touch_spans t 0) view) ts;
  Done (concat found).

Definition stab_typed (s : LinkState) (ty : Endset) (slot : nat) (query : Endset) (view : View) : outcome (list Tuple) :=
  class ← coverage_class ty;
  match type_slices (hints s) !! class with
  | None => Done []
  | Some slice => stab_typed_walk s slice slot query view
  end.

Definition stab_typed_in (s : LinkState) (class : CoverageClass) (home : Address) (slot : nat) (query : list Span)
    (view : View) : outcome (list Tuple) :=
  match type_slices (hints s) !! class with
  | Some slice => stab_typed_in_slice s slice home slot query view
  | None => Done []
  end.
