(* ===== verification/LinkChains.v ===== *)
(** * Link chains, and the walks that seek past them

    A link's address is its home's [home · 0 · s_L · n]; the addresses of one home are
    one range of the order, the homes ascend with the addresses, and a walk that seeks
    past each home it meets lists every home once. *)

From stdpp Require Import gmap sorting.
From S2P Require Import Prelude Tumblers Addresses Arith NsKeys NsState NsInv OrdSets Spans SpanSets Endsets.
From S2P Require Import Spanfilade HomeWalk HomeWalkLaws LinkState LinkStateLaws LinkReads LinkFind.

(** ** One home's chain *)

Definition homed (a : Tumbler) (d : Address) : Prop :=
  level d = Document ∧ ∃ n, comps a = comps (tumbler d) ++ [0%N; link_subspace; n].

(** The test of a key, which a state's every key passes. *)
Definition on_link_chain (a : Tumbler) : bool :=
  match validate a with
  | Ok ad =>
      match document_of ad with
      | Some d => bool_decide (comps a = comps (tumbler d) ++ [0%N; link_subspace; ordinal a])
      | None => false
      end
  | Err _ => false
  end.

Definition chained (keys : gset Tumbler) : bool := forallb on_link_chain (elements keys).

Lemma on_link_chain_iff a : on_link_chain a = true ↔ is_ok (validate a) = true ∧ ∃ d, homed a d.
Proof.
  unfold on_link_chain, homed. destruct (validate a) as [ad|] eqn:Ev; [|by split; [|intros [? _]]].
  apply validate_Ok in Ev as Ea. split.
  - destruct (document_of ad) as [d|] eqn:Ed; [|done]. intros Hc%bool_decide_eq_true. split; [done|]. exists d.
    split; [|by eexists]. pose proof (document_of_segs ad) as Hd. rewrite Ed in Hd. apply Hd.
  - intros [_ (d & Hl & n & Hn)]. rewrite (document_of_under d ad link_subspace n Hl) by by rewrite Ea.
    apply bool_decide_eq_true. rewrite Hn at 1. do 3 f_equal.
    assert (ordinal a = n) as ->; [|done]. apply (ordinal_app a (comps (tumbler d) ++ [0%N; link_subspace])).
    by rewrite Hn, <- app_assoc.
Qed.

Lemma chained_homed keys a : chained keys = true → a ∈ keys → is_ok (validate a) = true ∧ ∃ d, homed a d.
Proof.
  unfold chained. rewrite forallb_forall. setoid_rewrite <- list_elem_of_In. intros H Ha. by apply on_link_chain_iff, H, elem_of_elements.
Qed.

Lemma homed_document a ad d : validate a = Ok ad → homed a d → document_of ad = Some d.
Proof. intros Ev%validate_Ok [Hl [n Hn]]. apply (document_of_under d ad link_subspace n Hl). by rewrite Ev. Qed.

Lemma homed_home a d : is_ok (validate a) = true → homed a d → home_tumbler a = Some (tumbler d).
Proof.
  intros Hv Hh. unfold home_tumbler. destruct (validate a) as [ad|] eqn:Ev; [|done]. by rewrite (homed_document a ad d).
Qed.

Lemma homed_home_of_key a d : is_ok (validate a) = true → homed a d → home_of_key a = Done d.
Proof.
  intros Hv Hh. unfold home_of_key, lift. destruct (validate a) as [ad|] eqn:Ev; [|done]. cbn [expect_ok mbind outcome_bind].
  by rewrite (homed_document a ad d).
Qed.

(** ** Documents, and what lies beneath them *)

Lemma document_extends d e c rest : level d = Document → level e = Document → comps (tumbler e) = comps (tumbler d) ++ c :: rest → c ≠ 0%N.
Proof.
  intros Hd He E ->. destruct (Address_document_view d Hd) as (n & u & f & Ed & _ & [Hn _] & [Hu _] & [Hf _]).
  destruct (Address_document_view e He) as (n' & u' & f' & _ & Es & _ & _ & [Hf' _]).
  rewrite E, Ed in Es. repeat (rewrite <- app_assoc in Es; cbn [app] in Es). rewrite !segs_app in Es by done.
  apply (f_equal length) in Es. cbn in Es. destruct (segs rest) eqn:Er; [|cbn in Es; lia].
  destruct rest as [|x rest]; [done|]. cbn in Er. by destruct (nat_is_zero x), (segs rest).
Qed.

(** The order of two documents is the order of everything beneath their separators. *)
Lemma document_order g h x y :
  level g = Document → level h = Document → tumbler g <ₜ tumbler h →
  list_cmp (comps (tumbler g) ++ 0%N :: x) (comps (tumbler h) ++ 0%N :: y) = Lt.
Proof.
  intros Hg Hh [(e & He & E)|(p & a & b & a' & b' & Ea & Eb & Hab)]%list_cmp_lt_inv.
  - destruct e as [|c rest]; [done|]. rewrite E, <- app_assoc. cbn [app]. apply list_cmp_app_lt.
    pose proof (document_extends g h c rest Hg Hh E). lia.
  - rewrite Ea, Eb, <- !app_assoc. cbn [app]. by apply list_cmp_app_lt.
Qed.

Lemma document_cmp g h : level g = Document → level h = Document → tumbler g <ₜ tumbler h ∨ g = h ∨ tumbler h <ₜ tumbler g.
Proof.
  intros _ _. destruct (ocmp (tumbler g) (tumbler h)) eqn:E.
  - right. left. apply ocmp_eq in E. by apply Address_eq.
  - by left.
  - right. right. by apply ocmp_gt.
Qed.

Lemma homed_ascend a b g h : homed a g → homed b h → tumbler g <ₜ tumbler h → a <ₜ b.
Proof.
  intros [Hg [n Hn]] [Hh [m Hm]] Hlt. unfold Tlt, cmp. rewrite Hn, Hm. by apply document_order.
Qed.

Lemma homed_unique a g h : homed a g → homed a h → g = h.
Proof.
  intros Hg Hh. destruct (document_cmp g h) as [Hlt|[?|Hlt]]; [apply Hg|apply Hh| |done|].
  - pose proof (homed_ascend a a g h Hg Hh Hlt). torder.
  - pose proof (homed_ascend a a h g Hh Hg Hlt). torder.
Qed.

(** ** A chain's bounds *)

Lemma link_chain_bounds_ok d :
  ∃ lo hi, link_chain_bounds d = Done (lo, hi) ∧
    comps lo = comps (tumbler d) ++ [0%N; link_subspace] ∧ comps hi = comps (tumbler d) ++ [0%N; (link_subspace + 1)%N].
Proof.
  assert (Hnew : ∀ x, ∃ t, expect_ok (Tumbler_new (comps (tumbler d) ++ [0%N; x])) = Done t ∧ comps t = comps (tumbler d) ++ [0%N; x]).
  { intros x. destruct (Tumbler_new (comps (tumbler d) ++ [0%N; x])) as [t|[]] eqn:E; [|by destruct (comps (tumbler d))].
    apply Tumbler_new_Ok in E. by exists t. }
  unfold link_chain_bounds. destruct (Hnew link_subspace) as (lo & -> & Hlo). destruct (Hnew (link_subspace + 1)%N) as (hi & -> & Hhi).
  cbn. by exists lo, hi.
Qed.

Lemma homed_below a d hi : homed a d → comps hi = comps (tumbler d) ++ [0%N; (link_subspace + 1)%N] → a <ₜ hi.
Proof.
  intros [_ [n Hn]] Hhi. unfold Tlt, cmp. rewrite Hn, Hhi, list_cmp_app. done.
Qed.

Lemma homed_above a d lo : homed a d → comps lo = comps (tumbler d) ++ [0%N; link_subspace] → lo <ₜ a.
Proof.
  intros [_ [n Hn]] Hlo. unfold Tlt, cmp. rewrite Hn, Hlo, list_cmp_app. done.
Qed.

(** Past a chain's end, and only there, the keys of later homes. *)
Lemma past_chain a b g h hi :
  homed a g → homed b h → a ≤ₜ b → comps hi = comps (tumbler g) ++ [0%N; (link_subspace + 1)%N] →
  hi ≤ₜ b ↔ tumbler g <ₜ tumbler h.
Proof.
  intros Hg Hh Hab Hhi. pose proof Hg as [Hlg _]. pose proof Hh as [Hlh [m Hm]]. split.
  - intros Hle. destruct (document_cmp g h Hlg Hlh) as [?|[->|Hlt]]; [done| |].
    + pose proof (homed_below b h hi Hh Hhi). torder.
    + pose proof (homed_ascend b a h g Hh Hg Hlt). torder.
  - intros Hlt. assert (hi <ₜ b); [|torder]. unfold Tlt, cmp. rewrite Hhi, Hm. by apply document_order.
Qed.

(** The keys between a chain's bounds are the home's. *)
Lemma in_chain a g d lo hi :
  homed a g → level d = Document → comps lo = comps (tumbler d) ++ [0%N; link_subspace] →
  comps hi = comps (tumbler d) ++ [0%N; (link_subspace + 1)%N] → (lo ≤ₜ a ∧ a <ₜ hi) ↔ g = d.
Proof.
  intros Ha Hd Hlo Hhi. pose proof Ha as [Hg [n Hn]]. split.
  - intros [H1 H2]. destruct (document_cmp g d Hg Hd) as [Hlt|[?|Hlt]]; [exfalso|done|exfalso].
    + assert (a <ₜ lo); [|torder]. unfold Tlt, cmp. rewrite Hn, Hlo. by apply document_order.
    + assert (hi <ₜ a); [|torder]. unfold Tlt, cmp. rewrite Hn, Hhi. by apply document_order.
  - intros ->. split; [|by eapply homed_below]. pose proof (homed_above a d lo Ha Hlo). torder.
Qed.

(** ** The walk of homes *)

Lemma seek_shorter (keys : gset Tumbler) cursor hi key rest :
  range cursor Unbounded keys = key :: rest → key <ₜ hi → (from_ok cursor hi = true) →
  length (range (Included hi) Unbounded keys) < length (range cursor Unbounded keys).
Proof.
  intros E Hlt Hc. pose proof (range_head _ _ _ _ _ E) as (Hk & Hf & _ & _). unfold range. apply (filter_length_lt _ _ _ key).
  - intros y. rewrite !andb_true_r, from_ok_included. intros Hy. destruct cursor as [c|c|]; [| |done].
    + apply from_ok_included. apply from_ok_included in Hc. by etransitivity.
    + cbn in Hc |- *. destruct (ocmp c hi) eqn:Ec; try done. apply ole_lt_eq in Hy as [Hy| <-]; [|by rewrite Ec].
      by rewrite (ocmp_trans c hi y Ec Hy).
  - by apply elem_of_ord_list.
  - by rewrite Hf.
  - rewrite andb_true_r. apply not_true_is_false. rewrite from_ok_included. intros Hle. apply ole_lt_eq in Hle as [Hle| ->]; [|by apply olt_irrefl in Hlt].
    apply (olt_irrefl key). by etransitivity.
Qed.

Lemma from_ok_up cursor k hi : from_ok cursor k = true → k <ₜ hi → from_ok cursor hi = true.
Proof.
  destruct cursor as [c|c|]; [| |done]; cbn; intros Hk Hlt.
  - destruct (ocmp c hi) eqn:E; [done..|]. apply ocmp_gt in E. destruct (ocmp c k) eqn:Ek; [| |done].
    + apply ocmp_eq in Ek as ->. exfalso. apply (olt_irrefl k). by etransitivity.
    + exfalso. apply (olt_irrefl c). etransitivity; [exact Ek|]. by etransitivity.
  - destruct (ocmp c k) eqn:Ek; try done. by rewrite (ocmp_trans c k hi Ek Hlt).
Qed.

Lemma key_homes_ok fuel keys cursor :
  chained keys = true → length (range cursor Unbounded keys) < fuel →
  ∃ l, key_homes fuel keys cursor = Done l ∧ StronglySorted olt (tumbler <$> l) ∧
    ∀ d, d ∈ l ↔ ∃ a, a ∈ keys ∧ from_ok cursor a = true ∧ homed a d.
Proof.
  intros Hc. revert cursor. induction fuel as [|fuel IH]; intros cursor Hfuel; [lia|]. cbn [key_homes].
  destruct (range cursor Unbounded keys) as [|key rest] eqn:Er.
  { exists []. split_and!; [done|constructor|]. intros d. split; [by intros ?%not_elem_of_nil|]. intros (a & Ha & Hf & _).
    exfalso. by apply (proj1 (range_nil _ _ _) Er a Ha). }
  pose proof (range_head _ _ _ _ _ Er) as (Hk & Hf & _ & Hleast).
  destruct (chained_homed keys key Hc Hk) as [Hv [g Hg]]. rewrite (homed_home_of_key key g Hv Hg). cbn [mbind outcome_bind].
  destruct (link_chain_bounds_ok g) as (lo & hi & -> & _ & Hhi). cbn [mbind outcome_bind snd].
  pose proof (homed_below key g hi Hg Hhi) as Hbelow.
  destruct (IH (Included hi)) as (l & -> & Hs & Hl).
  { pose proof (seek_shorter keys cursor hi key rest Er Hbelow (from_ok_up cursor key hi Hf Hbelow)). rewrite Er in H. lia. }
  cbn [mbind outcome_bind]. exists (g :: l).
  assert (Hpast : ∀ b h, b ∈ keys → homed b h → hi ≤ₜ b → tumbler g <ₜ tumbler h).
  { intros b h Hb Hh Hle. apply (past_chain key b g h hi Hg Hh); [torder|done|done]. }
  split_and!; [done| |].
  - cbn. constructor; [done|]. apply Forall_fmap, Forall_forall. intros d (a & Ha & Hle & Hd)%Hl. apply from_ok_included in Hle.
    eapply Hpast; [exact Ha|done|]. exact Hle.
  - intros d. rewrite elem_of_cons, Hl. split.
    + intros [->|(a & Ha & Hle & Hd)]; [by exists key|]. exists a. split_and!; [done| |done].
      apply from_ok_included in Hle. apply (from_ok_up cursor key); [done|]. apply ole_lt_eq in Hle as [Hle| <-]; [by etransitivity|done].
    + intros (a & Ha & Hfa & Hd). destruct (decide (d = g)) as [->|Hne]; [by left|right]. exists a. split_and!; [done| |done].
      apply from_ok_included. assert (Hka : key ≤ₜ a) by by apply Hleast.
      apply (past_chain key a g d hi Hg Hd Hka Hhi). destruct (document_cmp g d) as [?|[?|Hlt]]; [apply Hg|apply Hd|done|congruence|].
      pose proof (homed_ascend a key d g Hd Hg Hlt). torder.
Qed.

Lemma class_homes_ok slice :
  chained slice = true →
  ∃ hs, class_homes slice = Done hs ∧ StronglySorted ole hs ∧ ∀ h, h ∈ hs ↔ ∃ a d, a ∈ slice ∧ homed a d ∧ h = tumbler d.
Proof.
  intros Hc. unfold class_homes. destruct (key_homes_ok (S (size slice)) slice Unbounded Hc) as (l & -> & Hs & Hl).
  { apply Nat.lt_succ_r, range_le_size. }
  cbn [mbind outcome_bind]. eexists. split; [reflexivity|]. change (map tumbler l) with (tumbler <$> l). split.
  - clear Hl. induction Hs as [|x k Hk IH Hf]; constructor; [done|]. eapply Forall_impl; [exact Hf|]. intros y ?. apply ole_lt_eq. by left.
  - intros h. rewrite list_elem_of_fmap. setoid_rewrite Hl. split.
    + intros (d & -> & a & Ha & _ & Hd). by exists a, d.
    + intros (a & d & Ha & Hd & ->). exists d. split; [done|]. by exists a.
Qed.
