(* ===== verification/LinkFindLaws.v ===== *)
(** * The discovery reads find exactly the links that overlap

    Over a store whose keys are link addresses, the walk of candidate homes names every
    home of every hit with the query spans and the parts of the stab that find it; so the
    stab, home by home, answers the resident links whose slot overlaps the query, and the
    conjunction those every constrained slot of which does. *)

From stdpp Require Import gmap sorting.
From S2P Require Import Prelude Tumblers Addresses Arith NsKeys NsState NsInv OrdSets Spans SpanSets Endsets ClassLaws TypeRegistry.
From S2P Require Import Spanfilade SpanfiladeLaws HomeWalk HomeWalkLaws LinkState LinkStateLaws LinkReads LinkFind LinkChains.

(** ** What a query asks of a link *)

Definition slot_meets (v : Link) (slot : nat) (q : Span) : Prop :=
  ∃ e s, Link_slot v slot = Some e ∧ s ∈ endset_spans e ∧ overlaps q s = true.

Lemma slot_overlaps_iff v slot query :
  slot_overlaps v slot query = true ↔ ∃ q, q ∈ endset_spans query ∧ slot_meets v slot q.
Proof.
  unfold slot_overlaps, slot_meets. destruct (Link_slot v slot) as [e|].
  - rewrite existsb_exists. setoid_rewrite existsb_exists. setoid_rewrite <- list_elem_of_In. split.
    + intros (q & Hq & s & Hs & Ho). exists q. split; [done|]. by exists e, s.
    + intros (q & Hq & e' & s & [= <-] & Hs & Ho). exists q. split; [done|]. by exists s.
  - split; [done|]. by intros (q & _ & e & s & ? & _).
Qed.

(** ** The stores the reads answer over *)

(** A run's level is a [u64]. *)
Definition level_fits (s : Span) : bool :=
  match sibling_run s with
  | Some (MkSiblingRun _ x y) => (run_level x y <=? U64_MAX)%N
  | None => true
  end.

Definition levels_fit (s : LinkState) : bool :=
  forallb (λ p, forallb (λ e, forallb level_fits (endset_spans e)) (slots p.2)) (map_to_list (links s)).

Record findable (s : LinkState) : Prop := {
  fd_ok : link_state_ok s;
  fd_chained : chained (link_keys s) = true;
  fd_levels : levels_fit s = true
}.

Definition filings (s : LinkState) (position : nat) : list Filed := slot_filings (link_filings (links s)) position.

Lemma elem_of_filings s position h l i sp :
  MkFiled h l i sp ∈ filings s position ↔
  ∃ v e, links s !! l = Some v ∧ home_tumbler l = Some h ∧ slots v !! position = Some e ∧ endset_spans e !! i = Some sp.
Proof. unfold filings. rewrite elem_of_slot_filings. setoid_rewrite elem_of_link_filings. naive_solver. Qed.

Lemma levels_fit_small s position : levels_fit s = true → levels_small (filings s position).
Proof.
  unfold levels_fit. rewrite forallb_forall. setoid_rewrite <- list_elem_of_In. intros H h l p x y (i & sp & Hf & E).
  apply elem_of_filings in Hf as (v & e & Hv & _ & He & Hs).
  specialize (H (l, v) ltac:(by apply elem_of_map_to_list)). cbn in H. rewrite forallb_forall in H. setoid_rewrite <- list_elem_of_In in H.
  specialize (H e (list_elem_of_lookup_2 _ _ _ He)). rewrite forallb_forall in H. setoid_rewrite <- list_elem_of_In in H.
  specialize (H sp (list_elem_of_lookup_2 _ _ _ Hs)). unfold level_fits in H. rewrite E in H. by apply N.leb_le.
Qed.

Section Findable.
Context (s : LinkState) (Hs : findable s).

Lemma key_homed a v : links s !! a = Some v → is_ok (validate a) = true ∧ ∃ d, homed a d.
Proof using Hs. intros Ha. apply (chained_homed (link_keys s)); [apply Hs|]. apply elem_of_dom. by exists v. Qed.

Lemma key_home_tumbler a v d : links s !! a = Some v → homed a d → home_tumbler a = Some (tumbler d).
Proof using Hs. intros Ha Hd. apply homed_home; [by apply (key_homed a v)|done]. Qed.

Lemma key_home_inv a v d : links s !! a = Some v → home_tumbler a = Some (tumbler d) → homed a d.
Proof using Hs.
  intros Ha Hd. destruct (key_homed a v Ha) as [Hv [g Hg]]. rewrite (homed_home a g Hv Hg) in Hd. injection Hd as Hd.
  by apply Address_eq in Hd as ->.
Qed.

Lemma slot_index slot :
  match Spanfilade_slot (spanfilade (hints s)) slot with
  | Some ix => ∃ position, slot = S position ∧ indexes ix (filings s position)
  | None => ∀ a v q, links s !! a = Some v → ¬ slot_meets v slot q
  end.
Proof using Hs.
  pose proof (ho_files _ _ (proj1 (fd_ok s Hs))) as Hf. unfold Spanfilade_slot. destruct slot as [|position].
  - intros a v q _ (e & sp & ? & _). done.
  - destruct (sf_slots (spanfilade (hints s)) !! position) as [ix|] eqn:Ei.
    + exists position. split; [done|]. by apply (files_slot _ _ Hf).
    + intros a v q Ha (e & sp & He & _). destruct (key_homed a v Ha) as [Hv [d Hd]].
      pose proof (files_none _ _ Hf position Ei a (tumbler d) v) as Hn. cbn in He. rewrite Hn in He; [done|].
      apply elem_of_link_filings. split; [done|]. by apply homed_home.
Qed.

(** A hit, as the index files it. *)
Lemma hit_filed position a d q :
  (∃ i sp, MkFiled (tumbler d) a i sp ∈ filings s position ∧ overlaps q sp = true) ↔
  ∃ v, links s !! a = Some v ∧ homed a d ∧ slot_meets v (S position) q.
Proof using Hs.
  setoid_rewrite elem_of_filings. split.
  - intros (i & sp & (v & e & Ha & Hh & He & Hsp) & Ho). exists v. split_and!; [done|by eapply key_home_inv|].
    exists e, sp. split_and!; [done|by eapply list_elem_of_lookup_2|done].
  - intros (v & Ha & Hd & e & sp & He & (i & Hsp)%list_elem_of_lookup & Ho). exists i, sp. split; [|done].
    exists v, e. split_and!; [done|by eapply key_home_tumbler|done|done].
Qed.

(** ** The stab of one home *)

Lemma stab_keys_in_iff d slot query a :
  a ∈ stab_keys_in s d slot query ↔
  ∃ v q, links s !! a = Some v ∧ homed a d ∧ q ∈ query ∧ slot_meets v slot q.
Proof using Hs.
  pose proof (ho_files _ _ (proj1 (fd_ok s Hs))) as Hf. unfold stab_keys_in, Spanfilade_home.
  pose proof (slot_index slot) as Hslot. case_bool_decide as Hd; cycle 1.
  { split; [set_solver|]. intros (v & q & Ha & Hda & _). destruct Hd. apply (files_home _ _ Hf). exists a, v.
    apply elem_of_link_filings. split; [done|by eapply key_home_tumbler]. }
  destruct (Spanfilade_slot (spanfilade (hints s)) slot) as [ix|]; cycle 1.
  { split; [set_solver|]. intros (v & q & Ha & _ & _ & Hm). by destruct (Hslot a v q). }
  destruct Hslot as (position & -> & Hix). rewrite elem_of_list_to_set, list_elem_of_bind.
  setoid_rewrite (index_stab_in_iff ix (filings s position) Hix (tumbler d) _ a (levels_fit_small s position (fd_levels s Hs))).
  setoid_rewrite hit_filed. naive_solver.
Qed.

Lemma lift_all_ok l :
  (∀ a, a ∈ l → is_ok (validate a) = true) → ∃ r, lift_all l = Done r ∧ ∀ x, x ∈ r ↔ tumbler x ∈ l.
Proof using.
  intros Hl. unfold lift_all. destruct (outcome_map_ok lift l (λ t x, tumbler x = t)) as (r & -> & Hr).
  { intros t Ht. specialize (Hl t Ht). unfold lift. destruct (validate t) as [x|] eqn:Ev; [|done]. exists x. split; [done|]. by apply validate_Ok. }
  cbn [mbind outcome_bind]. eexists. split; [reflexivity|]. intros x. rewrite elem_of_list_to_set. split.
  - intros (i & Hi)%list_elem_of_lookup. destruct (Forall2_lookup_r _ _ _ _ _ Hr Hi) as (t & Ht & E). cbn in E. subst t. by eapply list_elem_of_lookup_2.
  - intros (i & Hi)%list_elem_of_lookup. destruct (Forall2_lookup_l _ _ _ _ _ Hr Hi) as (y & Hy & E%Address_eq). subst y. by eapply list_elem_of_lookup_2.
Qed.

(** A link a read answers: resident, admitted by the view. *)
Definition shows (view : View) (a : Address) (P : Link → Prop) : Prop :=
  ∃ v, links s !! tumbler a = Some v ∧ P v ∧ view_admits s view (tumbler a) = true.

Lemma filter_views view l a : a ∈ List.filter (view_admits s view) l ↔ a ∈ l ∧ view_admits s view a = true.
Proof using. rewrite !list_elem_of_In. by rewrite filter_In. Qed.

Lemma stab_in_ok d slot query view :
  ∃ r, stab_in s d slot query view = Done r ∧
    ∀ a, a ∈ r ↔ shows view a (λ v, homed (tumbler a) d ∧ ∃ q, q ∈ query ∧ slot_meets v slot q).
Proof using Hs.
  unfold stab_in. destruct (lift_all_ok (List.filter (view_admits s view) (ord_elements (stab_keys_in s d slot query)))) as (r & -> & Hr).
  { intros a [Ha _]%filter_views. apply elem_of_ord_elements, stab_keys_in_iff in Ha as (v & q & Ha & _). by apply (key_homed a v). }
  exists r. split; [done|]. intros a. rewrite Hr, filter_views, elem_of_ord_elements, stab_keys_in_iff. unfold shows. naive_solver.
Qed.

(** ** The streams one pair opens *)

(** At the parts a stream stands for, whatever else is joined to them, the stab of the
    home finds the link. *)
Definition finds (slot : nat) (d : Address) (q : Span) (a : Tumbler) (p : N) : Prop :=
  ∀ ix parts, Spanfilade_slot (spanfilade (hints s)) slot = Some ix → holds_parts parts p → a ∈ stab_in_parts ix (tumbler d) q parts.

Lemma holds_has parts p : p ≠ 0%N → holds_parts parts p → parts_has parts p = true.
Proof using. unfold holds_parts, parts_has. intros Hp ->. by apply negb_true_iff, N.eqb_neq. Qed.

Lemma holds_trans parts p r : holds_parts parts p → holds_parts p r → holds_parts parts r.
Proof using. unfold holds_parts. intros H1 H2. by rewrite <- H2 at 1; rewrite N.land_assoc, H1, H2. Qed.

Lemma stab_at_part ix h q parts a :
  (parts_has parts STARTING = true ∧ a ∈ starting_inside ix h q) ∨
  (parts_has parts CONTAINING = true ∧ a ∈ containing ix h (start q)) ∨
  (parts_has parts RESIDUE = true ∧ a ∈ residue_in ix h q) →
  a ∈ stab_in_parts ix h q parts.
Proof using. unfold stab_in_parts. rewrite !elem_of_app. intros [[-> ?]|[[-> ?]|[-> ?]]]; auto. Qed.

Lemma stab_all_parts ix h q a parts : holds_parts parts PART_ALL → a ∈ index_stab_in ix h q → a ∈ stab_in_parts ix h q parts.
Proof using.
  intros Hp Ha. assert (Hh : ∀ p, p ≠ 0%N → holds_parts PART_ALL p → parts_has parts p = true).
  { intros p Hne Hall. apply holds_has; [done|]. by eapply holds_trans. }
  unfold index_stab_in, stab_in_parts in Ha. change (parts_has PART_ALL STARTING) with true in Ha.
  change (parts_has PART_ALL CONTAINING) with true in Ha. change (parts_has PART_ALL RESIDUE) with true in Ha.
  rewrite !elem_of_app in Ha. apply stab_at_part. destruct Ha as [?|[?|?]]; [left|right; left|right; right]; (split; [by apply Hh|done]).
Qed.

(** What a pair's streams are, and what they reach. *)
Record opens (pair slot : nat) (query : Endset) (sts : list Stream) : Prop := {
  op_pair st : st ∈ sts → st_pair st = pair;
  op_sorted st : st ∈ sts → StronglySorted ole (st_homes st);
  op_span st : st ∈ sts →
    match st_span st with Some i => i < length (endset_spans query) | None => st_parts st ≠ PART_NONE end;
  op_homes st h : st ∈ sts → h ∈ st_homes st → ∃ a v d, links s !! a = Some v ∧ homed a d ∧ h = tumbler d;
  op_hits a v d i q :
    links s !! a = Some v → homed a d → endset_spans query !! i = Some q → slot_meets v slot q →
    ∃ st, st ∈ sts ∧ tumbler d ∈ st_homes st ∧ (st_span st = None ∨ st_span st = Some i) ∧ finds slot d q a (st_parts st)
}.

(** A home's hit at an index is found by one part, whose stream names the home. *)
Lemma hit_parts position ix a v d q :
  Spanfilade_slot (spanfilade (hints s)) (S position) = Some ix → indexes ix (filings s position) →
  links s !! a = Some v → homed a d → slot_meets v (S position) q →
  a ∈ index_stab_in ix (tumbler d) q.
Proof using Hs.
  intros Hsl Hix Ha Hd Hm. apply (index_stab_in_iff ix (filings s position) Hix); [apply levels_fit_small, Hs|].
  apply hit_filed. by exists v.
Qed.

Lemma part_finds slot ix d q a p :
  Spanfilade_slot (spanfilade (hints s)) slot = Some ix → p ≠ 0%N →
  (∀ parts, parts_has parts p = true → a ∈ stab_in_parts ix (tumbler d) q parts) → finds slot d q a p.
Proof using. intros E Hp H ix' parts E' Hh. rewrite E in E'. injection E' as <-. apply H. by apply holds_has. Qed.

Lemma home_of_filed position h :
  home_filed (filings s position) h → ∃ a v d, links s !! a = Some v ∧ homed a d ∧ h = tumbler d.
Proof using Hs.
  intros (a & i & sp & (v & e & Ha & Hh & _)%elem_of_filings). destruct (key_homed a v Ha) as [Hv [d Hd]].
  rewrite (homed_home a d Hv Hd) in Hh. injection Hh as <-. by exists a, v, d.
Qed.

Lemma index_opens pair position ix query :
  Spanfilade_slot (spanfilade (hints s)) (S position) = Some ix → indexes ix (filings s position) →
  ∃ own, outcome_map (λ p, index_streams ix p.2 pair p.1) (imap (λ i q, (i, q)) (endset_spans query)) = Done own ∧
    opens pair (S position) query (mjoin own ++ match residue_stream ix pair with Some st => [st] | None => [] end).
Proof using Hs.
  intros Hsl Hix. pose proof (levels_fit_small s position (fd_levels s Hs)) as Hsmall.
  destruct (outcome_map_ok (λ p, index_streams ix p.2 pair p.1) (imap (λ i q, (i, q)) (endset_spans query))
    (λ p sts, (∀ st, st ∈ sts → stream_ok (filings s position) pair st ∧ st_span st = Some p.1) ∧
      (∀ h l, l ∈ starting_inside ix h p.2 → ∃ st, st ∈ sts ∧ st_parts st = STARTING ∧ h ∈ st_homes st) ∧
      (∀ h l, l ∈ containing ix h (start p.2) → ∃ st, st ∈ sts ∧ st_parts st = CONTAINING ∧ h ∈ st_homes st))) as (own & -> & Hown).
  { intros [i q] _. apply (index_streams_ok ix (filings s position) Hix q pair i Hsmall). }
  exists own. split; [done|]. destruct (residue_stream_ok ix (filings s position) Hix pair) as [Hres1 Hres2].
  assert (Hst : ∀ st, st ∈ mjoin own ++ match residue_stream ix pair with Some st => [st] | None => [] end →
    stream_ok (filings s position) pair st ∧
    match st_span st with Some i => i < length (endset_spans query) | None => st_parts st ≠ PART_NONE end).
  { intros st [Hin|Hin]%elem_of_app.
    - destruct (elem_of_mjoin_Forall2 _ _ _ _ Hown Hin) as ([i q] & sts & (j & q' & [= -> ->] & Hq)%elem_of_lookup_imap & Hok & Hst).
      destruct (proj1 Hok st Hst) as [? ->]. split; [done|]. by apply lookup_lt_Some in Hq.
    - destruct (residue_stream ix pair) as [st'|]; [|by apply not_elem_of_nil in Hin]. apply list_elem_of_singleton in Hin as ->.
      destruct (Hres1 st' eq_refl) as [Hok ->]. split; [done|]. apply Hok. }
  split.
  - intros st Hin. apply (Hst st Hin).
  - intros st Hin. apply (Hst st Hin).
  - intros st Hin. apply (Hst st Hin).
  - intros st h Hin Hh. apply (home_of_filed position). by apply (Hst st Hin).
  - intros a v d i q Ha Hd Hq Hm. pose proof (hit_parts position ix a v d q Hsl Hix Ha Hd Hm) as Hhit.
    unfold index_stab_in, stab_in_parts in Hhit. change (parts_has PART_ALL STARTING) with true in Hhit.
    change (parts_has PART_ALL CONTAINING) with true in Hhit. change (parts_has PART_ALL RESIDUE) with true in Hhit.
    rewrite !elem_of_app in Hhit.
    destruct (mjoin_Forall2_elem _ _ _ (i, q) Hown) as (sts & (Hspan & Hstart & Hcont) & Hsub).
    { apply elem_of_lookup_imap. by exists i, q. }
    destruct Hhit as [Hhit|[Hhit|Hhit]].
    + destruct (Hstart (tumbler d) a Hhit) as (st & Hin & Hp & Hh). exists st. split_and!; [apply elem_of_app; left; by apply Hsub|done| |].
      * right. by apply (Hspan st Hin).
      * rewrite Hp. eapply part_finds; [done|done|]. intros parts Hpp. apply stab_at_part. by left.
    + destruct (Hcont (tumbler d) a Hhit) as (st & Hin & Hp & Hh). exists st. split_and!; [apply elem_of_app; left; by apply Hsub|done| |].
      * right. by apply (Hspan st Hin).
      * rewrite Hp. eapply part_finds; [done|done|]. intros parts Hpp. apply stab_at_part. right. by left.
    + destruct (Hres2 (tumbler d) a q Hhit) as (st & E & Hp & Hh). destruct (Hres1 st E) as [_ Hsp]. rewrite E. exists st.
      split_and!; [apply elem_of_app; right; by left|done|by left|].
      rewrite Hp. eapply part_finds; [done|done|]. intros parts Hpp. apply stab_at_part. right. by right.
Qed.

(** ** The related slices *)

Lemma subtrees_meet q u :
  is_unit_depth q = true → is_unit_depth u = true → overlaps q u = true →
  is_prefix (start q) (start u) = true ∨ is_prefix (start u) (start q) = true.
Proof using.
  intros Hq Hu [H1 H2]%overlaps_iff.
  rewrite <- !(unit_depth_contains _ _ Hq), <- !(unit_depth_contains _ _ Hu), !contains_spec.
  destruct (ocmp (start q) (start u)) eqn:E.
  - apply ocmp_eq in E. left. rewrite E in *. split; [torder|done].
  - left. split; [|done]. assert (start q <ₜ start u) by done. torder.
  - right. apply ocmp_gt in E. split; [|done]. assert (start u <ₜ start q) by done. torder.
Qed.

Lemma related_class_hit query e c q sp :
  is_address_denoting query = true → coverage_class e = Done c → q ∈ endset_spans query → sp ∈ endset_spans e →
  overlaps q sp = true → related_class (Endset_addrs query) c = true.
Proof using.
  intros Hdq Hc Hq Hsp Ho. unfold related_class. pose proof (coverage_class_cases e) as Hcases.
  destruct (is_address_denoting e) eqn:He.
  - destruct Hcases as (set & E & Hset). rewrite E in Hc. injection Hc as <-. cbn [denoted].
    pose proof (proj1 (address_denoting_iff query) Hdq q Hq) as Hqu. pose proof (proj1 (address_denoting_iff e) He sp Hsp) as Hsu.
    assert (Ha : start sp ∈ Endset_addrs e) by (apply Endset_addrs_elem; by exists sp).
    destruct (minimal_below _ _ Ha) as (m & Hm & Hp). apply existsb_exists. exists m.
    split; [by apply list_elem_of_In, elem_of_ord_elements, Hset|].
    apply existsb_exists. exists (start q). split; [apply list_elem_of_In, Endset_addrs_elem; by exists q|].
    destruct (subtrees_meet q sp Hqu Hsu Ho) as [Hqs|Hsq].
    + destruct (ocmp m (start q)) eqn:Ecmp.
      * apply ocmp_eq in Ecmp as ->. by rewrite prefix_refl.
      * apply orb_true_iff. left. apply (prefix_between m (start q) (start sp) Hp); [|by apply is_prefix_spec, prefix_le in Hqs].
        assert (m <ₜ start q) by done. torder.
      * apply ocmp_gt in Ecmp. apply orb_true_iff. right. apply (prefix_between (start q) m (start sp) Hqs); [|by apply is_prefix_spec, prefix_le in Hp].
        assert (start q <ₜ m) by done. torder.
    + apply orb_true_iff. left. by eapply prefix_trans.
  - destruct (Endset_is_level_uniform e); [|congruence]. destruct Hcases as (m & E & _). rewrite E in Hc. by injection Hc as <-.
Qed.

Lemma slice_elem c slice a :
  type_slices (hints s) !! c = Some slice →
  a ∈ slice ↔ ∃ v, links s !! a = Some v ∧ coverage_class (type_slot v) = Done c.
Proof using Hs. intros E. exact (ga_elem _ _ _ (ho_types _ _ (proj1 (fd_ok s Hs))) c slice E a). Qed.

Lemma slice_there a v c :
  links s !! a = Some v → coverage_class (type_slot v) = Done c → is_Some (type_slices (hints s) !! c).
Proof using Hs.
  intros Ha Hc. apply (ga_key _ _ _ (ho_types _ _ (proj1 (fd_ok s Hs)))). exists a, v. done.
Qed.

Lemma related_slices_iff query slice :
  slice ∈ related_slices s query ↔
  ∃ c, type_slices (hints s) !! c = Some slice ∧ related_class (Endset_addrs query) c = true.
Proof using.
  unfold related_slices. rewrite list_elem_of_fmap. setoid_rewrite list_elem_of_In. setoid_rewrite filter_In.
  setoid_rewrite <- list_elem_of_In. split.
  - intros ([c sl] & -> & [Hin%elem_of_map_to_list Hr]). by exists c.
  - intros (c & Hc & Hr). exists (c, slice). split; [done|]. split; [by apply elem_of_map_to_list|done].
Qed.

Lemma slice_is_chained c slice : type_slices (hints s) !! c = Some slice → chained slice = true.
Proof using Hs.
  intros E. unfold chained. apply forallb_forall. intros a Ha%list_elem_of_In%elem_of_elements.
  apply (slice_elem c slice a E) in Ha as (v & Ha & _). apply on_link_chain_iff. by eapply key_homed.
Qed.

Lemma type_slot_at v : Link_slot v TYPE = Some (type_slot v).
Proof using.
  unfold Link_slot, TYPE. pose proof (total_spec (slot_at v 2) (slot_done v 2 lt_2_3)) as H. change (total _ _) with (type_slot v) in H.
  unfold slot_at, index in H. by destruct (slots v !! 2) as [e|]; [injection H as ->|].
Qed.

Lemma slices_open pair query :
  is_address_denoting query = true →
  ∃ sts, outcome_map (slice_stream pair) (related_slices s query) = Done sts ∧ opens pair TYPE query sts.
Proof using Hs.
  intros Hden. destruct (outcome_map_ok (slice_stream pair) (related_slices s query)
    (λ slice st, st_pair st = pair ∧ st_span st = None ∧ st_parts st = PART_ALL ∧ StronglySorted ole (st_homes st) ∧
      ∀ h, h ∈ st_homes st ↔ ∃ a d, a ∈ slice ∧ homed a d ∧ h = tumbler d)) as (sts & -> & Hsts).
  { intros slice (c & Hc & _)%related_slices_iff. unfold slice_stream.
    destruct (class_homes_ok slice (slice_is_chained c slice Hc)) as (hs & -> & Hsort & Hhs). cbn [mbind outcome_bind]. by eexists. }
  exists sts. split; [done|].
  assert (Hin : ∀ st, st ∈ sts → ∃ c slice, type_slices (hints s) !! c = Some slice ∧ st_pair st = pair ∧ st_span st = None ∧
    st_parts st = PART_ALL ∧ StronglySorted ole (st_homes st) ∧ ∀ h, h ∈ st_homes st ↔ ∃ a d, a ∈ slice ∧ homed a d ∧ h = tumbler d).
  { intros st (i & Hi)%list_elem_of_lookup. destruct (Forall2_lookup_r _ _ _ _ _ Hsts Hi) as (slice & Hsl%list_elem_of_lookup_2 & Hok).
    apply related_slices_iff in Hsl as (c & Hc & _). by exists c, slice. }
  split.
  - intros st Hst. by destruct (Hin st Hst) as (c & sl & _ & ? & _).
  - intros st Hst. by destruct (Hin st Hst) as (c & sl & _ & _ & _ & _ & ? & _).
  - intros st Hst. by destruct (Hin st Hst) as (c & sl & _ & _ & -> & -> & _).
  - intros st h Hst Hh. destruct (Hin st Hst) as (c & sl & Hc & _ & _ & _ & _ & Hhomes).
    apply Hhomes in Hh as (a & d & Ha & Hd & ->). apply (slice_elem c sl a Hc) in Ha as (v & Ha & _). by exists a, v, d.
  - intros a v d i q Ha Hd Hq (e & sp & He & Hsp & Ho). rewrite type_slot_at in He. injection He as <-.
    destruct (foldable_inv a v (proj2 (fd_ok s Hs) a v Ha)) as (_ & _ & c & _ & _ & _ & Hc & _).
    destruct (slice_there a v c Ha Hc) as [slice Hsl].
    assert (Hr : slice ∈ related_slices s query).
    { apply related_slices_iff. exists c. split; [done|]. by apply (related_class_hit query (type_slot v) c q sp); [done|done|eapply list_elem_of_lookup_2|..]. }
    apply list_elem_of_lookup in Hr as [k Hk]. destruct (Forall2_lookup_l _ _ _ _ _ Hsts Hk) as (st & Hst & Hpair & Hspan & Hparts & _ & Hhomes).
    exists st. split_and!; [by eapply list_elem_of_lookup_2| |by left|].
    + apply Hhomes. exists a, d. split_and!; [|done|done]. apply (slice_elem c slice a Hsl). by exists v.
    + intros ix parts Hix Hp. rewrite Hparts in Hp. apply stab_all_parts; [done|].
      pose proof (slot_index TYPE) as Hsi. rewrite Hix in Hsi. destruct Hsi as (position & Epos & Hidx).
      rewrite Epos in Hix. apply (hit_parts position ix a v d q Hix Hidx Ha Hd). rewrite <- Epos. exists (type_slot v), sp. by rewrite type_slot_at.
Qed.

Lemma pair_streams_ok pair slot query :
  ∃ sts, pair_streams s pair slot query = Done sts ∧ opens pair slot query sts.
Proof using Hs.
  unfold pair_streams. destruct ((slot =? TYPE) && is_address_denoting query) eqn:Ht.
  - apply andb_true_iff in Ht as [->%Nat.eqb_eq Hd]. by apply slices_open.
  - pose proof (slot_index slot) as Hslot. destruct (Spanfilade_slot (spanfilade (hints s)) slot) as [ix|] eqn:E.
    + destruct Hslot as (position & -> & Hix). destruct (index_opens pair position ix query E Hix) as (own & -> & Ho).
      cbn [mbind outcome_bind]. by eexists.
    + exists []. split; [done|]. split; [by intros st ?%not_elem_of_nil..|by intros st h ?%not_elem_of_nil|].
      intros a v d i q Ha _ _ Hm. by destruct (Hslot a v q).
Qed.

(** ** The candidate homes *)

(** The touches name every home of every hit once, ascending, each with the spans of
    each query, at parts, that find its links there. *)
Record candidates (queries : list (nat * Endset)) (ts : list Touch) : Prop := {
  ca_sorted : StronglySorted olt (to_held <$> ts);
  ca_home t : t ∈ ts → to_held t = tumbler (to_home t) ∧ ∃ a v, links s !! a = Some v ∧ homed a (to_home t);
  ca_spans t n : t ∈ ts → n ∈ to_named t → ∃ slot query, queries !! n.1.1 = Some (slot, query) ∧ n.2 ∈ endset_spans query;
  ca_hits a v d j slot query q :
    links s !! a = Some v → homed a d → queries !! j = Some (slot, query) → q ∈ endset_spans query → slot_meets v slot q →
    ∃ t parts, t ∈ ts ∧ to_home t = d ∧ (j, parts, q) ∈ to_named t ∧ finds slot d q a parts
}.

Lemma homes_touching_ok queries :
  ∃ t ts, homes_touching s queries = Done t ∧ touches (S (homes_left t)) t = Done ts ∧ candidates queries ts.
Proof using Hs.
  unfold homes_touching.
  destruct (outcome_map_ok (λ p, pair_streams s p.1 p.2.1 p.2.2) (imap (λ i q, (i, q)) queries)
    (λ p sts, opens p.1 p.2.1 p.2.2 sts)) as (sts & -> & Hsts).
  { intros [j [slot query]] _. apply pair_streams_ok. }
  cbn [mbind outcome_bind].
  assert (Hst : ∀ st, st ∈ mjoin sts → ∃ j slot query ss, queries !! j = Some (slot, query) ∧ opens j slot query ss ∧ st ∈ ss).
  { intros st Hin. destruct (elem_of_mjoin_Forall2 _ _ _ _ Hsts Hin) as (p & ss & Hp & Ho & Hin').
    apply elem_of_lookup_imap in Hp as (j & [slot query] & -> & Hq). by exists j, slot, query, ss. }
  set (spans := (λ q, endset_spans q.2) <$> queries).
  assert (Hspans : ∀ j slot query, queries !! j = Some (slot, query) → spans !! j = Some (endset_spans query)).
  { intros j slot query Hj. unfold spans. by rewrite list_lookup_fmap, Hj. }
  destruct (touches_ok spans (mjoin sts)) as (t & ts & Ht & Hts & Hsort & Hheld & Htouch).
  - split.
    + intros st Hin. destruct (Hst st Hin) as (j & slot & query & ss & Hj & Ho & Hin'). exists (endset_spans query).
      rewrite (op_pair _ _ _ _ Ho st Hin'). split; [by eapply Hspans|]. by apply (op_span _ _ _ _ Ho).
    + intros st h Hin Hh. destruct (Hst st Hin) as (j & slot & query & ss & Hj & Ho & Hin').
      destruct (op_homes _ _ _ _ Ho st h Hin' Hh) as (a & v & d & _ & _ & ->). by rewrite validate_self.
  - intros st Hin. destruct (Hst st Hin) as (j & slot & query & ss & Hj & Ho & Hin'). by apply (op_sorted _ _ _ _ Ho).
  - exists t, ts. split_and!; [done|done|]. split; [done|..].
    + intros u Hu. destruct (Htouch u Hu) as (Heq & _ & _). split; [done|].
      assert (Hin : to_held u ∈ to_held <$> ts) by by apply list_elem_of_fmap_2. apply Hheld in Hin as (st & Hin & Hh).
      destruct (Hst st Hin) as (j & slot & query & ss & Hj & Ho & Hin'). destruct (op_homes _ _ _ _ Ho st _ Hin' Hh) as (a & v & d & Ha & Hd & E).
      rewrite E in Heq. apply Address_eq in Heq as ->. by exists a, v.
    + intros u n Hu Hn. destruct (Htouch u Hu) as (_ & _ & Hnamed). destruct (Hnamed n Hn) as (qs & Hqs & Hq).
      unfold spans in Hqs. rewrite list_lookup_fmap in Hqs. destruct (queries !! n.1.1) as [[slot query]|] eqn:E; [|done].
      injection Hqs as <-. by exists slot, query.
    + intros a v d j slot query q Ha Hd Hj (i & Hq)%list_elem_of_lookup Hm.
      destruct (mjoin_Forall2_elem _ _ _ (j, (slot, query)) Hsts) as (ss & Ho & Hsub).
      { apply elem_of_lookup_imap. by exists j, (slot, query). }
      cbn in Ho. destruct (op_hits _ _ _ _ Ho a v d i q Ha Hd Hq Hm) as (st & Hin & Hh & Hspan & Hf).
      assert (Hheld' : tumbler d ∈ to_held <$> ts) by (apply Hheld; exists st; split; [by apply Hsub|done]).
      apply list_elem_of_fmap in Hheld' as (u & Eu & Hu). destruct (Htouch u Hu) as (Heq & Hnames & _).
      rewrite <- Eu in Heq. apply Address_eq in Heq.
      assert (Hpr : spans !! st_pair st = Some (endset_spans query)) by (rewrite (op_pair _ _ _ _ Ho st Hin); by eapply Hspans).
      destruct (Hnames st (endset_spans query) (Hsub st Hin) ltac:(by rewrite <- Eu) Hpr i q Hq Hspan) as (parts & Hn & Hp).
      rewrite (op_pair _ _ _ _ Ho st Hin) in Hn. exists u, parts. split_and!; [done|done|done|].
      intros ix parts' Hix Hp'. apply (Hf ix parts' Hix). by eapply holds_trans.
Qed.
End Findable.
