(* ===== verification/LinkFindCalls.v ===== *)
(** * The discovery reads, call by call

    The stab, the conjunction, and the reads that start from a home, each characterised
    on the map of links alone. *)

From stdpp Require Import gmap sorting.
From S2P Require Import Prelude Tumblers Addresses Arith NsKeys NsState NsInv OrdSets Spans SpanSets Endsets ClassLaws TypeRegistry.
From S2P Require Import Spanfilade SpanfiladeLaws HomeWalk HomeWalkLaws LinkState LinkStateLaws LinkReads LinkFind LinkChains LinkFindLaws.

(** ** The walk, touch by touch *)

Fixpoint walks (t : Touching) (ts : list Touch) : Prop :=
  match ts with
  | [] => Touching_next t = Done None
  | x :: ts => ∃ t', Touching_next t = Done (Some (x, t')) ∧ walks t' ts
  end.

Lemma advance_left streams heap i streams' heap' :
  advance streams heap i = Done (streams', heap') →
  length heap' + homes_behind streams' = length heap + homes_behind streams.
Proof.
  unfold advance. intros (st & Hi & E)%bind_inv. unfold index in Hi. destruct (streams !! i) as [st'|] eqn:Ei; [|done].
  injection Hi as ->. destruct (st_homes st) as [|h rest] eqn:Eh; injection E as <- <-; [done|].
  rewrite (Permutation_length (heap_push_perm _ _)). cbn [length].
  rewrite (homes_behind_insert streams i st (MkStream (st_pair st) (st_span st) (st_parts st) rest) Ei) by (by rewrite Eh). lia.
Qed.

Lemma drain_left fuel home streams heap naming streams' heap' naming' :
  drain fuel home streams heap naming = Done (Some (streams', heap', naming')) →
  length heap' + homes_behind streams' ≤ length heap + homes_behind streams.
Proof.
  revert streams heap naming. induction fuel as [|fuel IH]; intros streams heap naming; (destruct heap as [|[h i] rest]; cbn [drain]; [by intros [= <- <- _]|]);
    (destruct (negb (bool_decide (h = home))); [by intros [= <- <- _]|]); [done|].
  intros ([s1 h1] & E1 & E2)%bind_inv. apply advance_left in E1. apply IH in E2. cbn [length]. lia.
Qed.

Lemma next_left t x t' : Touching_next t = Done (Some (x, t')) → homes_left t' < homes_left t.
Proof.
  destruct t as [spans streams heap]. unfold Touching_next. cbn [tg_heap tg_streams tg_spans]. destruct heap as [|[home first] rest]; [done|].
  intros ([s1 h1] & E1 & (d & E2 & ([[s2 h2] naming] & E3 & (at_ & _ & (named & _ & (ad & _ & E)%bind_inv)%bind_inv)%bind_inv)%bind_inv)%bind_inv)%bind_inv.
  injection E as _ <-. apply advance_left in E1. destruct d as [[[s2' h2'] n']|]; [|done]. injection E3 as -> -> ->.
  apply drain_left in E2. rewrite !homes_left_eq. cbn [length]. lia.
Qed.

Lemma touches_walks fuel t ts : homes_left t < fuel → touches fuel t = Done ts → walks t ts.
Proof.
  revert t ts. induction fuel as [|fuel IH]; intros t ts Hf; [lia|]. cbn [touches]. intros (n & En & E)%bind_inv.
  destruct n as [[x t']|]; [|by injection E as <-]. apply bind_inv in E as (rest & Er & E). injection E as <-.
  exists t'. split; [done|]. apply IH; [|done]. apply next_left in En. lia.
Qed.

Lemma walks_bound t ts : walks t ts → length ts ≤ homes_left t.
Proof.
  revert t. induction ts as [|x ts IH]; intros t; cbn; [lia|]. intros (t' & En & Hw). apply next_left in En. apply IH in Hw. lia.
Qed.

(** ** The constraint with the fewest homes *)

(** The earliest of the least. *)
Definition earliest_least (lens : list nat) (k : nat) : Prop :=
  ∃ n, lens !! k = Some n ∧ (∀ j m, lens !! j = Some m → n ≤ m) ∧ ∀ j m, j < k → lens !! j = Some m → n < m.

Lemma earliest_least_S lens k : earliest_least lens k → earliest_least (S <$> lens) k.
Proof.
  intros (n & Hn & H1 & H2). exists (S n). rewrite list_lookup_fmap, Hn. split_and!; [done| |].
  - intros j m Hj. rewrite list_lookup_fmap in Hj. apply fmap_Some in Hj as (m' & Hj & ->). specialize (H1 j m' Hj). lia.
  - intros j m Hlt Hj. rewrite list_lookup_fmap in Hj. apply fmap_Some in Hj as (m' & Hj & ->). specialize (H2 j m' Hlt Hj). lia.
Qed.

(** One round: the first walk that has run out, or every walk one touch on. *)
Lemma step_walks_ok i ws tss :
  Forall2 walks ws tss →
  (∃ k, step_walks i ws = Done (inl (i + k)) ∧ tss !! k = Some [] ∧ ∀ j ts, j < k → tss !! j = Some ts → ts ≠ []) ∨
  ∃ ws' tss', step_walks i ws = Done (inr ws') ∧ Forall2 walks ws' tss' ∧ length <$> tss = S <$> (length <$> tss').
Proof.
  intros H. revert i. induction H as [|w ts ws tss Hw Hws IH]; intros i; cbn [step_walks].
  { right. exists [], []. split_and!; [done|constructor|done]. }
  destruct ts as [|x ts]; cbn in Hw.
  - left. exists 0. rewrite Hw. cbn. rewrite Nat.add_0_r. split_and!; [done..|]. intros j ts Hj. lia.
  - destruct Hw as (w' & -> & Hw'). cbn [mbind outcome_bind]. destruct (IH (S i)) as [(k & -> & Hk & Hlt)|(ws' & tss' & -> & Hf & Hl)]; cbn [mbind outcome_bind].
    + left. exists (S k). split_and!; [do 2 f_equal; lia|done|]. intros [|j] us Hj Hus; [by injection Hus as <-|]. apply (Hlt j us); [lia|done].
    + right. exists (w' :: ws'), (ts :: tss'). split_and!; [done|by constructor|]. cbn. by rewrite Hl.
Qed.

Lemma fewest_loop_ok fuel ws tss :
  Forall2 walks ws tss → (∃ j ts, tss !! j = Some ts ∧ length ts < fuel) →
  ∃ k, fewest_loop fuel ws = Done (Some k) ∧ earliest_least (length <$> tss) k.
Proof.
  revert ws tss. induction fuel as [|fuel IH]; intros ws tss H (j & ts & Hj & Hlen); [lia|]. cbn [fewest_loop].
  destruct (step_walks_ok 0 ws tss H) as [(k & -> & Hk & Hlt)|(ws' & tss' & -> & Hf & Hl)]; cbn [mbind outcome_bind].
  - exists k. split; [done|]. exists 0. rewrite list_lookup_fmap, Hk. split_and!; [done|intros; lia|]. intros j' m Hj' Hm.
    rewrite list_lookup_fmap in Hm. apply fmap_Some in Hm as (us & Hus & ->). specialize (Hlt j' us Hj' Hus). destruct us; [done|cbn; lia].
  - destruct (IH ws' tss' Hf) as (k & -> & Hk).
    + pose proof (f_equal (.!! j) Hl) as E. rewrite !list_lookup_fmap, Hj in E. cbn in E.
      destruct (tss' !! j) as [us|] eqn:Eu; [|done]. cbn in E. injection E as E. exists j, us. split; [done|lia].
    + exists k. split; [done|]. rewrite Hl. by apply earliest_least_S.
Qed.

Section Findable.
Context (s : LinkState) (Hs : findable s).

Lemma all_touches_ok queries : ∃ ts, all_touches s queries = Done ts ∧ candidates s queries ts.
Proof using Hs.
  destruct (homes_touching_ok s Hs queries) as (t & ts & Ht & Hts & Hc). exists ts. unfold all_touches. by rewrite Ht.
Qed.

(** The homes a constraint's walk yields. *)
Definition candidate_homes (c : nat * Endset) : nat :=
  match all_touches s [c] with Done ts => length ts | Panicked => 0 end.

Lemma fewest_homes_ok constraints :
  constraints ≠ [] → ∃ k, fewest_homes s constraints = Done k ∧ earliest_least (candidate_homes <$> constraints) k.
Proof using Hs.
  intros Hne. unfold fewest_homes. destruct (Nat.ltb_spec (length constraints) 2) as [Hl|Hl].
  { exists 0. split; [done|]. destruct constraints as [|c [|? ?]]; [done| |cbn in Hl; lia]. exists (candidate_homes c).
    split_and!; [done|intros [|[|?]] m; naive_solver|intros; lia]. }
  destruct (outcome_map_ok (λ c, homes_touching s [c]) constraints (λ c w, ∃ ts, walks w ts ∧ length ts = candidate_homes c)) as (ws & -> & Hws).
  { intros c _. destruct (homes_touching_ok s Hs [c]) as (t & ts & Ht & Hts & _). exists t. split; [done|]. exists ts.
    split; [by apply (touches_walks (S (homes_left t))); [lia|]|]. unfold candidate_homes, all_touches. rewrite Ht. cbn [mbind outcome_bind]. by rewrite Hts. }
  cbn [mbind outcome_bind].
  assert (∃ tss, Forall2 walks ws tss ∧ length <$> tss = candidate_homes <$> constraints) as (tss & Hwalks & Hlens).
  { clear Hne Hl. induction Hws as [|c w cs ws (ts & Hw & Hl) _ IH]; [by exists []|]. destruct IH as (tss & H1 & H2). exists (ts :: tss).
    split; [by constructor|]. cbn. by rewrite Hl, H2. }
  destruct ws as [|w ws]; [inversion Hws; subst; done|]. cbn [index lookup list_lookup expect_some mbind outcome_bind].
  destruct tss as [|ts tss]; [by inversion Hwalks|].
  destruct (fewest_loop_ok (S (homes_left w)) (w :: ws) (ts :: tss) Hwalks) as (k & -> & Hk).
  { exists 0, ts. split; [done|]. inversion Hwalks as [|? ? ? ? Hw _]; subst. apply walks_bound in Hw. lia. }
  cbn. exists k. split; [done|]. by rewrite <- Hlens.
Qed.

(** ** The stab *)

Lemma elem_of_touch_spans t j q : q ∈ touch_spans t j ↔ ∃ parts, (j, parts, q) ∈ to_named t.
Proof using.
  unfold touch_spans, named_at. rewrite list_elem_of_fmap. setoid_rewrite list_elem_of_fmap. setoid_rewrite list_elem_of_In. setoid_rewrite filter_In.
  split.
  - intros ([q' p] & -> & [[j' p'] q''] & [= -> ->] & Hin & Hj%Nat.eqb_eq). cbn in Hj. subst j'. by exists p'.
  - intros (p & Hin). exists (q, p). split; [done|]. exists (j, p, q). split; [done|]. split; [done|]. apply Nat.eqb_refl.
Qed.

(** A read of each touch's home over the spans that named it reads every home over every
    span of the query. *)
Lemma over_touches_hits slot query ts a v :
  candidates s [(slot, query)] ts → links s !! a = Some v →
  (∃ t q, t ∈ ts ∧ homed a (to_home t) ∧ q ∈ touch_spans t 0 ∧ slot_meets v slot q) ↔ slot_overlaps v slot query = true.
Proof using Hs.
  intros Hc Ha. rewrite slot_overlaps_iff. split.
  - intros (t & q & Ht & Hd & (p & Hn)%elem_of_touch_spans & Hm). destruct (ca_spans _ _ _ Hc t _ Ht Hn) as (sl & qu & E & Hq).
    cbn in E. injection E as <- <-. by exists q.
  - intros (q & Hq & Hm). destruct (key_homed s Hs a v Ha) as [_ [d Hd]].
    destruct (ca_hits _ _ _ Hc a v d 0 slot query q Ha Hd eq_refl Hq Hm) as (t & p & Ht & <- & Hn & _).
    exists t, q. split_and!; [done|done| |done]. apply elem_of_touch_spans. by exists p.
Qed.

Lemma stab_ok slot query view :
  ∃ r, stab s slot query view = Done r ∧ ∀ a, a ∈ r ↔ shows s view a (λ v, slot_overlaps v slot query = true).
Proof using Hs.
  unfold stab. destruct (all_touches_ok [(slot, query)]) as (ts & -> & Hc). cbn [mbind outcome_bind].
  destruct (outcome_map_ok (λ t, stab_in s (to_home t) slot (touch_spans t 0) view) ts
    (λ t r, ∀ a, a ∈ r ↔ shows s view a (λ v, homed (tumbler a) (to_home t) ∧ ∃ q, q ∈ touch_spans t 0 ∧ slot_meets v slot q))) as (found & E & Hf).
  { intros t _. by apply stab_in_ok. }
  unfold over_touches. rewrite E. cbn [mbind outcome_bind]. eexists. split; [reflexivity|]. intros a. rewrite elem_of_union_list. unfold shows. split.
  - intros (r & Hi & Ha). apply list_elem_of_lookup in Hi as [i Hi]. destruct (Forall2_lookup_r _ _ _ _ _ Hf Hi) as (t & Ht & Hr). apply list_elem_of_lookup_2 in Ht.
    apply Hr in Ha. destruct Ha as (v & Hv & (Hd & q & Hq & Hm) & Hview). exists v. split_and!; [done| |done].
    apply (over_touches_hits slot query ts (tumbler a) v Hc Hv). by exists t, q.
  - intros (v & Hv & Ho & Hview). apply (over_touches_hits slot query ts (tumbler a) v Hc Hv) in Ho as (t & q & Ht & Hd & Hq & Hm). apply list_elem_of_lookup in Ht as [i Ht].
    destruct (Forall2_lookup_l _ _ _ _ _ Hf Ht) as (r & Hr & Hok). exists r. split; [by eapply list_elem_of_lookup_2|]. apply Hok.
    exists v. split_and!; [done|done|by exists q|done].
Qed.

(** ** The conjunction *)

Lemma outcome_filter_ok {A} (f : A → outcome bool) (g : A → bool) (l : list A) :
  (∀ x, x ∈ l → f x = Done (g x)) → outcome_filter f l = Done (List.filter g l).
Proof using.
  induction l as [|x l IH]; intros H; [done|]. cbn. rewrite H by (by left). cbn. rewrite IH by (intros; apply H; by right). by destruct (g x).
Qed.

(** Whether a link meets every constraint. *)
Definition meets_all (constraints : list (nat * Endset)) (v : Link) : bool :=
  forallb (λ c, slot_overlaps v c.1 c.2) constraints.

Lemma narrowed_ok rest acc :
  (∀ a, a ∈ acc → is_Some (links s !! tumbler a)) →
  ∃ r, narrow s rest acc = Done r ∧ ∀ a, a ∈ r ↔ a ∈ acc ∧ ∃ v, links s !! tumbler a = Some v ∧ meets_all rest v = true.
Proof using.
  revert acc. induction rest as [|[slot query] rest IH]; intros acc Hacc; cbn [narrow].
  { exists acc. split; [done|]. intros a. split; [|by intros [? _]]. intros Ha. split; [done|]. destruct (Hacc a Ha) as [v Hv]. by exists v. }
  set (g := λ a, match links s !! tumbler a with Some v => slot_overlaps v slot query | None => false end).
  rewrite (outcome_filter_ok _ g).
  - cbn [mbind outcome_bind]. destruct (IH (list_to_set (List.filter g (elements acc)))) as (r & -> & Hr).
    { intros a Ha%elem_of_list_to_set%list_elem_of_In. apply filter_In in Ha as [Ha _]. by apply Hacc, elem_of_elements, list_elem_of_In. }
    exists r. split; [done|]. intros a. rewrite Hr, elem_of_list_to_set, list_elem_of_In, filter_In, <- list_elem_of_In, elem_of_elements. unfold g. cbn.
    split.
    + intros [[Ha Hg] (v & Hv & Hm)]. split; [done|]. exists v. rewrite Hv in Hg. split; [done|]. by rewrite Hg.
    + intros [Ha (v & Hv & [Hg Hm]%andb_true_iff)]. rewrite Hv. split; [done|]. by exists v.
  - intros a Ha%elem_of_elements. unfold overlaps_at, link_at, g. by destruct (Hacc a Ha) as [v ->].
Qed.

Lemma scan_ok view : ∃ r, scan s view = Done r ∧ ∀ a, a ∈ r ↔ shows s view a (λ _, True).
Proof using Hs.
  unfold scan. destruct (lift_all_ok (List.filter (view_admits s view) (ord_elements (link_keys s)))) as (r & -> & Hr).
  { intros a [Ha _]%filter_views. apply elem_of_ord_elements in Ha. unfold link_keys in Ha. apply elem_of_dom in Ha as [v Ha]. by apply (key_homed s Hs a v). }
  exists r. split; [done|]. intros a. rewrite Hr, filter_views, elem_of_ord_elements. unfold link_keys. rewrite elem_of_dom. unfold shows, is_Some. naive_solver.
Qed.

Lemma match_links_ok constraints view :
  ∃ r, match_links s constraints view = Done r ∧ ∀ a, a ∈ r ↔ shows s view a (λ v, meets_all constraints v = true).
Proof using Hs.
  unfold match_links. destruct constraints as [|c cs] eqn:E; cbn [nonemptyb negb].
  { destruct (scan_ok view) as (r & -> & Hr). exists r. split; [done|]. intros a. rewrite Hr. unfold shows. naive_solver. }
  rewrite <- E. assert (Hne : constraints ≠ []) by by rewrite E. clear E c cs.
  destruct (fewest_homes_ok constraints Hne) as (k & -> & n & Hk & _). cbn [mbind outcome_bind].
  rewrite list_lookup_fmap in Hk. apply fmap_Some in Hk as ([slot query] & Hk & _). rewrite (index_ok _ _ _ Hk). cbn [mbind outcome_bind].
  destruct (stab_ok slot query view) as (acc & -> & Hacc). cbn [mbind outcome_bind].
  destruct (narrowed_ok (take k constraints ++ drop (S k) constraints) acc) as (r & -> & Hr).
  { intros a (v & Hv & _)%Hacc. by exists v. }
  assert (Hsplit : ∀ v, meets_all constraints v = slot_overlaps v slot query && meets_all (take k constraints ++ drop (S k) constraints) v).
  { intros v. unfold meets_all. rewrite <- (take_drop_middle constraints k (slot, query) Hk) at 1. rewrite !forallb_app. cbn [forallb fst snd].
    by destruct (slot_overlaps v slot query); rewrite ?andb_false_r. }
  exists r. split; [done|]. intros a. rewrite Hr, Hacc. unfold shows. setoid_rewrite Hsplit. setoid_rewrite andb_true_iff. split.
  - intros [(v & Hv & Ho & Hview) (w & Hw & Hm)]. rewrite Hv in Hw. injection Hw as <-. by exists v.
  - intros (v & Hv & [H1 H2] & Hview). split; by exists v.
Qed.
End Findable.
