(* ===== verification/LinkSlots.v ===== *)
(** * Several slots of one home, and the home-first reads

    One home's stabs at several slots answered together, sorted and held once per pair,
    and their count by link; then the homes under an endset, one home's range, and the
    claims of the link discovery. *)

From stdpp Require Import gmap sorting.
From S2P Require Import Prelude Tumblers Addresses Arith NsKeys NsState NsInv Spans SpanSets OrdSets Endsets ClassLaws TypeRegistry Spanfilade SpanfiladeLaws HomeWalk HomeWalkLaws LinkState LinkStateLaws LinkReads LinkFind LinkChains LinkFindLaws LinkFindCalls.

(** ** Sorted, then deduplicated *)

Section Dedup.
Context {A B : Type} `{OrdLaws B} (f : A → B) (same : A → A → bool).

(** On a list's entries, the test is equality of their keys. *)
Definition tests (l : list A) : Prop := ∀ a b, a ∈ l → b ∈ l → same a b = true ↔ f a = f b.

Lemma dedup_from_subset last l x : x ∈ dedup_from same last l → x ∈ l.
Proof using.
  revert last. induction l as [|y l IH]; intros last; cbn; [done|]. destruct (same y last); [intros ?%IH; by right|].
  intros [->|?%IH]%elem_of_cons; [by left|by right].
Qed.

Lemma dedup_from_ok last l :
  tests (last :: l) → StronglySorted (λ a b, ole (f a) (f b)) (last :: l) →
  StronglySorted (λ a b, olt (f a) (f b)) (last :: dedup_from same last l) ∧
  ∀ x, x ∈ l → ∃ y, y ∈ last :: dedup_from same last l ∧ f y = f x.
Proof using H0.
  revert last. induction l as [|y l IH]; intros last Ht Hs; cbn [dedup_from].
  { split; [by repeat constructor|by intros x ?%not_elem_of_nil]. }
  inversion Hs as [|? ? Hs' Hf]; subst. inversion Hs' as [|? ? Hs'' Hf']; subst. inversion Hf as [|? ? Hly Hfl]; subst.
  assert (Ht1 : tests (last :: l)) by (intros a b Ha Hb; apply Ht; rewrite !elem_of_cons in *; naive_solver).
  assert (Ht2 : tests (y :: l)) by (intros a b Ha Hb; apply Ht; by right).
  destruct (same y last) eqn:E.
  - apply Ht in E; [|right; by left|by left]. destruct (IH last Ht1) as [H1 H2]; [by constructor|]. split; [done|].
    intros x [->|Hx]%elem_of_cons; [exists last; split; [by left|done]|by apply H2].
  - destruct (IH y Ht2 Hs') as [H1 H2].
    assert (Hlt : olt (f last) (f y)).
    { apply ole_lt_eq in Hly as [?|Heq]; [done|]. assert (same y last = true) by (apply Ht; [right; by left|by left|done]). congruence. }
    split.
    + constructor; [done|]. constructor; [done|]. inversion H1 as [|? ? _ Hfy]; subst. eapply Forall_impl; [exact Hfy|].
      intros z Hz. by etransitivity.
    + intros x [->|Hx]%elem_of_cons; [exists y; split; [right; by left|done]|]. destruct (H2 x Hx) as (z & Hz & ?). exists z. split; [by right|done].
Qed.

Lemma dedup_by_ok l :
  tests l → StronglySorted (λ a b, ole (f a) (f b)) l →
  StronglySorted (λ a b, olt (f a) (f b)) (dedup_by same l) ∧
  (∀ x, x ∈ dedup_by same l → x ∈ l) ∧ ∀ x, x ∈ l → ∃ y, y ∈ dedup_by same l ∧ f y = f x.
Proof using H0.
  intros Ht Hs. destruct l as [|x l]; [split_and!; [constructor|done|by intros x ?%not_elem_of_nil]|]. cbn [dedup_by].
  destruct (dedup_from_ok x l Ht Hs) as [H1 H2]. split_and!; [done| |].
  - intros y [->|?%dedup_from_subset]%elem_of_cons; [by left|by right].
  - intros y [->|Hy]%elem_of_cons; [exists x; split; [by left|done]|by apply H2].
Qed.
End Dedup.

(** ** The hits of one home *)

Lemma sorted_held_inj ts t u : StronglySorted olt (to_held <$> ts) → t ∈ ts → u ∈ ts → to_held t = to_held u → t = u.
Proof.
  induction ts as [|x ts IH]; cbn; intros Hs Ht Hu E; [by apply not_elem_of_nil in Ht|]. inversion Hs as [|? ? Hs' Hf]; subst.
  rewrite Forall_fmap, Forall_forall in Hf. apply elem_of_cons in Ht as [->|Ht], Hu as [->|Hu]; [done|exfalso|exfalso|by apply IH].
  - specialize (Hf u Hu). cbn in Hf. rewrite E in Hf. by apply olt_irrefl in Hf.
  - specialize (Hf t Ht). cbn in Hf. rewrite <- E in Hf. by apply olt_irrefl in Hf.
Qed.

Section Findable.
Context (s : LinkState) (Hs : findable s).

Lemma stab_parts_all ix h q parts a : a ∈ stab_in_parts ix h q parts → a ∈ index_stab_in ix h q.
Proof using.
  unfold index_stab_in, stab_in_parts. change (parts_has PART_ALL STARTING) with true.
  change (parts_has PART_ALL CONTAINING) with true. change (parts_has PART_ALL RESIDUE) with true. rewrite !elem_of_app.
  intros [Ha|[Ha|Ha]]; (destruct (parts_has parts _); [auto|by apply not_elem_of_nil in Ha]).
Qed.

Lemma probe_hits_iff t slot j x :
  x ∈ probe_hits s t (slot, j) ↔
  x.2 = slot ∧ ∃ ix parts q, Spanfilade_slot (spanfilade (hints s)) slot = Some ix ∧ (j, parts, q) ∈ to_named t ∧
    x.1 ∈ stab_in_parts ix (to_held t) q parts.
Proof using.
  unfold probe_hits. cbn [fst snd]. destruct (Spanfilade_slot (spanfilade (hints s)) slot) as [ix|]; cycle 1.
  { split; [by intros ?%not_elem_of_nil|]. by intros (_ & ix & p & q & ? & _). }
  rewrite list_elem_of_bind. unfold named_at. split.
  - intros ([q parts] & (l & -> & Hl)%list_elem_of_fmap & Hin). cbn in *. split; [done|].
    apply list_elem_of_fmap in Hin as ([[j' p'] q'] & [= -> ->] & Hin). apply list_elem_of_In, filter_In in Hin as [Hin Hj%Nat.eqb_eq].
    cbn in Hj. subst j'. exists ix, p', q'. split_and!; [done|by apply list_elem_of_In|done].
  - intros (Hx & ix' & parts & q & [= <-] & Hn & Hin). exists (q, parts). split.
    + apply list_elem_of_fmap. exists x.1. split; [by destruct x; cbn in *; subst|done].
    + apply list_elem_of_fmap. exists (j, parts, q). split; [done|]. apply list_elem_of_In, filter_In. split; [by apply list_elem_of_In|apply Nat.eqb_refl].
Qed.

(** The walk's queries are the ones its probes ask at their slots. *)
Definition probes_ok (queries : list (nat * Endset)) (probes : list (nat * nat)) : Prop :=
  ∀ slot j, (slot, j) ∈ probes → ∃ query, queries !! j = Some (slot, query).

(** A link of the home that some probe's query overlaps at the slot. *)
Definition probed (queries : list (nat * Endset)) (probes : list (nat * nat)) (d : Address) (a : Tumbler) (slot : nat) : Prop :=
  ∃ v j query, links s !! a = Some v ∧ homed a d ∧ (slot, j) ∈ probes ∧ queries !! j = Some (slot, query) ∧
    slot_overlaps v slot query = true.

Lemma hits_iff queries probes ts t a slot :
  candidates s queries ts → t ∈ ts → probes_ok queries probes →
  (a, slot) ∈ probes ≫= probe_hits s t ↔ probed queries probes (to_home t) a slot.
Proof using Hs.
  intros Hc Ht Hp. destruct (ca_home _ _ _ Hc t Ht) as [Hheld _]. rewrite list_elem_of_bind. split.
  - intros ([sl j] & (E & ix & parts & q & Hix & Hn & Hin)%probe_hits_iff & Hpr). cbn in E, Hin. subst sl.
    destruct (Hp slot j Hpr) as [query Hj]. destruct (ca_spans _ _ _ Hc t _ Ht Hn) as (sl & qu & Hj' & Hq). cbn in Hj', Hq.
    rewrite Hj in Hj'. injection Hj' as <- <-. pose proof (slot_index s Hs slot) as Hsl. rewrite Hix in Hsl. destruct Hsl as (position & -> & Hidx).
    apply stab_parts_all in Hin. rewrite Hheld in Hin.
    apply (index_stab_in_iff ix (filings s position) Hidx) in Hin; [|apply levels_fit_small, Hs].
    apply (hit_filed s Hs) in Hin as (v & Ha & Hd & Hm). exists v, j, query. split_and!; [done..|]. apply slot_overlaps_iff. by exists q.
  - intros (v & j & query & Ha & Hd & Hpr & Hj & (q & Hq & Hm)%slot_overlaps_iff). exists (slot, j). split; [|done].
    apply probe_hits_iff. split; [done|]. cbn [fst].
    destruct (ca_hits _ _ _ Hc a v (to_home t) j slot query q Ha Hd Hj Hq Hm) as (t' & parts & Ht' & E & Hn & Hf).
    assert (t' = t) as ->.
    { apply (sorted_held_inj ts); [apply Hc|done|done|]. destruct (ca_home _ _ _ Hc t' Ht') as [-> _]. by rewrite E, Hheld. }
    pose proof (slot_index s Hs slot) as Hsl. destruct (Spanfilade_slot (spanfilade (hints s)) slot) as [ix|] eqn:Hix; [|by destruct (Hsl a v q)].
    exists ix, parts, q. split_and!; [done|done|]. rewrite Hheld. apply Hf; [done|]. unfold holds_parts. apply N.land_diag.
Qed.

(** *** Keys, on one home's links *)

Lemma homed_ordinal a d : homed a d → comps a = comps (tumbler d) ++ [0%N; link_subspace; ordinal a].
Proof using.
  intros [_ [n Hn]]. assert (ordinal a = n) as ->; [|done]. apply (ordinal_app a (comps (tumbler d) ++ [0%N; link_subspace])).
  by rewrite Hn, <- app_assoc.
Qed.

Lemma homed_ordinal_inj a b d : homed a d → homed b d → ordinal a = ordinal b → a = b.
Proof using. intros Ha%homed_ordinal Hb%homed_ordinal E. apply Tumbler_eq. by rewrite Ha, Hb, E. Qed.

Lemma homed_ordinal_lt a b d : homed a d → homed b d → (ordinal a < ordinal b)%N → a <ₜ b.
Proof using.
  intros Ha%homed_ordinal Hb%homed_ordinal Hlt. unfold Tlt, cmp. rewrite Ha, Hb. rewrite list_cmp_app. cbn -[N.compare]. rewrite !N.compare_refl. by apply N.compare_lt_iff in Hlt as ->.
Qed.

(** Two hits of one touch are links of its home, so of one length: what the
    comparator of [keys_in_slots] asserts in a debug build. *)
Lemma hits_one_length queries probes ts t x y :
  candidates s queries ts → t ∈ ts → probes_ok queries probes →
  x ∈ probes ≫= probe_hits s t → y ∈ probes ≫= probe_hits s t → Tumbler_len x.1 = Tumbler_len y.1.
Proof using Hs.
  destruct x as [a i], y as [b j]. intros Hc Ht Hp (? & ? & ? & _ & Ha & _)%(hits_iff queries probes ts) (? & ? & ? & _ & Hb & _)%(hits_iff queries probes ts); [|done..].
  unfold Tumbler_len. cbn [fst]. by rewrite (homed_ordinal a _ Ha), (homed_ordinal b _ Hb), !length_app.
Qed.

Definition hit_key (h : Tumbler * nat) : N * nat := (ordinal h.1, h.2).

Lemma hit_le_trans : Transitive hit_le.
Proof using. intros a b c. unfold hit_le. apply ole_trans. Qed.

Lemma hit_le_total : Total hit_le.
Proof using. intros a b. unfold hit_le. apply ole_total. Qed.

Lemma keys_in_slots_ok t probes d (P : Tumbler → nat → Prop) :
  (∀ a slot, (a, slot) ∈ probes ≫= probe_hits s t ↔ P a slot) → (∀ a slot, P a slot → homed a d) →
  StronglySorted (λ x y, olt (hit_key x) (hit_key y)) (keys_in_slots s t probes) ∧
  ∀ a slot, (a, slot) ∈ keys_in_slots s t probes ↔ P a slot.
Proof using.
  intros HP Hd. unfold keys_in_slots. pose proof hit_le_trans. pose proof hit_le_total.
  set (l := merge_sort hit_le (probes ≫= probe_hits s t)).
  assert (Hl : ∀ a slot, (a, slot) ∈ l ↔ P a slot) by (intros a slot; unfold l; by rewrite (merge_sort_Permutation hit_le), HP).
  destruct (dedup_by_ok hit_key (λ a b, bool_decide (a = b)) l) as (H1 & H2 & H3).
  - intros [a i] [b j] Ha Hb. rewrite bool_decide_eq_true. unfold hit_key. cbn. split; [by intros [= -> ->]|]. intros [= Ho ->]. f_equal.
    apply (homed_ordinal_inj a b d); [by eapply Hd, Hl..|done].
  - apply (StronglySorted_merge_sort hit_le).
  - split; [done|]. intros a slot. split; [intros Hin; by apply Hl, H2|]. intros Hp%Hl. destruct (H3 _ Hp) as ([b j] & Hin & E).
    unfold hit_key in E. cbn in E. injection E as Ho ->. assert (b = a) as ->; [|done]. apply (homed_ordinal_inj b a d); [|by eapply Hd, Hl|done].
    eapply Hd, Hl. by apply H2.
Qed.

Lemma lift_pairs_ok out hits :
  (∀ h, h ∈ hits → is_ok (validate h.1) = true) →
  ∃ r, lift_pairs out hits = Done r ∧ (λ p, (tumbler p.1, p.2)) <$> r = hits.
Proof using.
  revert out. induction hits as [|[t slot] hits IH]; intros out Hh; cbn [lift_pairs]; [by exists []|].
  assert (Ha : ∃ a, match out with Some a => if bool_decide (tumbler a = t) then Done a else lift t | None => lift t end = Done a ∧ tumbler a = t).
  { assert (Hlift : ∃ a, lift t = Done a ∧ tumbler a = t).
    { specialize (Hh (t, slot) ltac:(by left)). cbn in Hh. unfold lift. destruct (validate t) as [a|] eqn:Ev; [|done]. exists a. split; [done|]. by apply validate_Ok. }
    destruct out as [a|]; [|done]. case_bool_decide; [by exists a|done]. }
  destruct Ha as (a & -> & Ea). cbn [mbind outcome_bind]. destruct (IH (Some a)) as (r & -> & Hr); [intros h Hin; apply Hh; by right|].
  cbn [mbind outcome_bind]. exists ((a, slot) :: r). split; [done|]. cbn. by rewrite Ea, Hr.
Qed.

Lemma StronglySorted_filter {A} (R : relation A) (p : A → bool) l : StronglySorted R l → StronglySorted R (List.filter p l).
Proof using.
  induction 1 as [|x l Hl IH Hf]; cbn; [constructor|]. destruct (p x); [|done]. constructor; [done|].
  rewrite Forall_forall in *. intros y Hy. apply Hf. apply list_elem_of_In in Hy. apply filter_In in Hy as [Hy _]. by apply list_elem_of_In.
Qed.

Lemma elem_of_bfilter {A} (p : A → bool) l x : x ∈ List.filter p l ↔ x ∈ l ∧ p x = true.
Proof using. rewrite !list_elem_of_In. apply filter_In. Qed.

(** The pairs, in the order of address and slot. *)
Lemma stab_in_slots_ok t probes view d (P : Tumbler → nat → Prop) :
  (∀ a slot, (a, slot) ∈ probes ≫= probe_hits s t ↔ P a slot) → (∀ a slot, P a slot → homed a d ∧ is_ok (validate a) = true) →
  ∃ out, stab_in_slots s t probes view = Done out ∧
    StronglySorted olt ((λ p, (tumbler p.1, p.2)) <$> out) ∧
    ∀ a slot, (a, slot) ∈ out ↔ P (tumbler a) slot ∧ view_admits s view (tumbler a) = true.
Proof using.
  intros HP Hd. destruct (keys_in_slots_ok t probes d P HP (λ a slot Hp, proj1 (Hd a slot Hp))) as [Hsort Hkeys].
  unfold stab_in_slots. destruct (lift_pairs_ok None (List.filter (λ h, view_admits s view h.1) (keys_in_slots s t probes))) as (out & -> & Hout).
  { intros [a slot] [Ha _]%elem_of_bfilter. apply Hkeys in Ha. by apply (Hd a slot). }
  exists out. split; [done|]. rewrite Hout. split.
  - assert (Hall : ∀ h, h ∈ List.filter (λ h, view_admits s view h.1) (keys_in_slots s t probes) → homed h.1 d).
    { intros [a slot] [Ha _]%elem_of_bfilter. by apply (Hd a slot), Hkeys. }
    apply (StronglySorted_filter _ (λ h, view_admits s view h.1)) in Hsort.
    clear -Hsort Hall. induction Hsort as [|x l Hl IH Hf]; [constructor|].
    constructor; [apply IH; intros h Hin; apply Hall; by right|]. rewrite Forall_forall in *. intros y Hy. specialize (Hf y Hy).
    destruct x as [a i], y as [b j]. unfold hit_key in Hf. cbn [fst snd] in Hf. apply pair_olt in Hf. apply pair_olt.
    pose proof (Hall (a, i) ltac:(by left)) as Hda. pose proof (Hall (b, j) ltac:(by right)) as Hdb. cbn in Hda, Hdb.
    destruct Hf as [Hlt|[Heq Hlt]]; [left|right].
    + apply olt_N in Hlt. by apply (homed_ordinal_lt a b d).
    + split; [|done]. by apply (homed_ordinal_inj a b d).
  - intros a slot. split.
    + intros Hin. apply (list_elem_of_fmap_2 (λ p, (tumbler p.1, p.2))) in Hin. rewrite Hout in Hin. apply elem_of_bfilter in Hin as [Hin Hv]. split; [by apply Hkeys|done].
    + intros [Hp Hv]. assert (Hin : (tumbler a, slot) ∈ (λ p, (tumbler p.1, p.2)) <$> out) by (rewrite Hout; apply elem_of_bfilter; split; [by apply Hkeys|done]).
      apply list_elem_of_fmap in Hin as ([b j] & [= Eb ->] & Hin). by apply Address_eq in Eb as ->.
Qed.

(** The count is of the links those pairs name. *)
Lemma count_in_slots_ok t probes view d (P : Tumbler → nat → Prop) out :
  (∀ a slot, (a, slot) ∈ probes ≫= probe_hits s t ↔ P a slot) → (∀ a slot, P a slot → homed a d ∧ is_ok (validate a) = true) →
  (∀ a slot, (a, slot) ∈ out ↔ P (tumbler a) slot ∧ view_admits s view (tumbler a) = true) →
  count_in_slots s t probes view = size (list_to_set (fst <$> out) : gset Address).
Proof using.
  intros HP Hd Hout. destruct (keys_in_slots_ok t probes d P HP (λ a slot Hp, proj1 (Hd a slot Hp))) as [Hsort Hkeys].
  unfold count_in_slots. set (K := keys_in_slots s t probes) in *.
  destruct (dedup_by_ok (λ h, ordinal h.1) (λ later earlier, bool_decide (later.1 = earlier.1)) K) as (H1 & H2 & H3).
  { intros [a i] [b j] Ha Hb. rewrite bool_decide_eq_true. cbn. split; [by intros ->|]. intros Ho.
    apply (homed_ordinal_inj a b d); [by eapply Hd, Hkeys..|done]. }
  { clear -Hsort. induction Hsort as [|x l Hl IH Hf]; constructor; [done|]. eapply Forall_impl; [exact Hf|]. intros y Hy.
    unfold hit_key in Hy. apply pair_olt in Hy. apply ole_lt_eq. naive_solver. }
  set (D := List.filter (λ h, view_admits s view h.1) (dedup_by (λ later earlier, bool_decide (later.1 = earlier.1)) K)).
  assert (HD : ∀ a, a ∈ fst <$> D ↔ ∃ slot, P a slot ∧ view_admits s view a = true).
  { intros a. rewrite list_elem_of_fmap. unfold D. setoid_rewrite elem_of_bfilter. split.
    - intros ([b j] & -> & Hin & Hv). exists j. split; [by apply Hkeys, H2|done].
    - intros (slot & Hp & Hv). destruct (H3 (a, slot) (proj2 (Hkeys a slot) Hp)) as ([b j] & Hin & E). cbn in E.
      assert (b = a) as -> by (apply (homed_ordinal_inj b a d); [by eapply Hd, Hkeys, H2|by eapply Hd|done]). by exists (a, j). }
  assert (Hnd : NoDup (fst <$> D)).
  { apply (StronglySorted_filter _ (λ h, view_admits s view h.1)) in H1. fold D in H1. clear -H1. induction H1 as [|x l Hl IH Hf]; cbn; [constructor|].
    constructor; [|done]. intros (y & E & Hy)%list_elem_of_fmap. rewrite Forall_forall in Hf. specialize (Hf y Hy). cbn in Hf. rewrite E in Hf. by apply olt_irrefl in Hf. }
  destruct (lift_pairs_ok None ((λ a, (a, 0)) <$> (fst <$> D))) as (r & _ & Hr).
  { intros h (a & -> & Ha)%list_elem_of_fmap. cbn. apply HD in Ha as (slot & Hp & _). by apply (Hd a slot). }
  assert (Er : tumbler <$> (fst <$> r) = fst <$> D).
  { clear -Hr. revert Hr. generalize (fst <$> D). induction r as [|[b j] r IH]; intros [|a L]; cbn; [done..|].
    intros [= -> _ E]. f_equal. by apply IH. }
  assert (Hndr : NoDup (fst <$> r)) by (apply (NoDup_fmap_1 tumbler); by rewrite Er).
  assert (Eset : (list_to_set (fst <$> out) : gset Address) = list_to_set (fst <$> r)).
  { apply set_eq. intros a. rewrite !elem_of_list_to_set. trans (∃ slot, P (tumbler a) slot ∧ view_admits s view (tumbler a) = true).
    - rewrite list_elem_of_fmap. setoid_rewrite <- Hout. split; [by intros ([b j] & -> & ?); exists j|]. intros (slot & ?). by exists (a, slot).
    - rewrite <- HD, <- Er. split; [|by apply list_elem_of_fmap_2]. intros (b & E%Address_eq & Hb)%list_elem_of_fmap. by subst b. }
  rewrite Eset, size_list_to_set by done. rewrite length_fmap. apply (f_equal length) in Er. rewrite !length_fmap in Er. by rewrite Er.
Qed.
End Findable.

(** One home's stabs at several slots. For every touch of a walk, [stab_in_slots]
    answers the pairs (link, slot), in the order of address and then slot and each
    once, of the home's links that some probe's query overlaps at that slot and the
    view admits, although it probes only the spans that named the home at only the
    parts that named it; and [count_in_slots] is the number of distinct links among
    those pairs, with none lifted. *)
Theorem slots_exact (s : LinkState) (queries : list (nat * Endset)) (ts : list Touch) (t : Touch)
    (probes : list (nat * nat)) (view : View) :
  findable s → all_touches s queries = Done ts → t ∈ ts → probes_ok queries probes →
  ∃ out, stab_in_slots s t probes view = Done out ∧
    StronglySorted olt ((λ p, (tumbler p.1, p.2)) <$> out) ∧
    (∀ a slot, (a, slot) ∈ out ↔
      probed s queries probes (to_home t) (tumbler a) slot ∧ view_admits s view (tumbler a) = true) ∧
    count_in_slots s t probes view = size (list_to_set (fst <$> out) : gset Address).
Proof.
  intros Hs Hts Ht Hp. destruct (all_touches_ok s Hs queries) as (ts' & E & Hc). rewrite Hts in E. injection E as <-.
  pose proof (λ a slot, hits_iff s Hs queries probes ts t a slot Hc Ht Hp) as HP.
  assert (Hd : ∀ a slot, probed s queries probes (to_home t) a slot → homed a (to_home t) ∧ is_ok (validate a) = true).
  { intros a slot (v & j & query & Ha & Hd & _). split; [done|]. by apply (key_homed s Hs a v). }
  destruct (stab_in_slots_ok s t probes view (to_home t) _ HP Hd) as (out & E & Hsort & Hout).
  exists out. split_and!; [done|done|done|]. by apply (count_in_slots_ok s t probes view (to_home t) _ out HP Hd).
Qed.

(** ** Homes, and the claims of discovery *)

Lemma homed_le a b g h : homed a g → homed b h → a ≤ₜ b → tumbler g ≤ₜ tumbler h.
Proof.
  intros Hg Hh Hab. destruct (document_cmp g h) as [?|[->|Hlt]]; [apply Hg|apply Hh|torder|torder|].
  pose proof (homed_ascend b a h g Hh Hg Hlt). torder.
Qed.

Lemma home_below a d : homed a d → tumbler d ≤ₜ a.
Proof. intros [_ [n Hn]]. apply prefix_le. by exists [0%N; link_subspace; n]. Qed.

Lemma under_loop_ok fuel keys start reach cursor :
  chained keys = true → length (range (Included cursor) Unbounded keys) < fuel →
  ∃ l, under_loop fuel keys start reach cursor = Done (Some l) ∧
    ∀ d, d ∈ l ↔ (∃ a, a ∈ keys ∧ cursor ≤ₜ a ∧ homed a d) ∧ start ≤ₜ tumbler d ∧ tumbler d <ₜ reach.
Proof.
  intros Hc. revert cursor. induction fuel as [|fuel IH]; intros cursor Hfuel; [lia|]. cbn [under_loop].
  destruct (range (Included cursor) Unbounded keys) as [|key rest] eqn:Er.
  { exists []. split; [done|]. intros d. split; [by intros ?%not_elem_of_nil|]. intros [(a & Ha & Hf & _) _].
    exfalso. apply (proj1 (range_nil _ _ _) Er a Ha); [|done]. by apply from_ok_included. }
  pose proof (range_head _ _ _ _ _ Er) as (Hk & Hf & _ & Hleast). apply from_ok_included in Hf as Hck.
  assert (Hfirst : ∀ a, a ∈ keys → cursor ≤ₜ a → key ≤ₜ a).
  { intros a Ha Hle. apply Hleast; [done| |done]. by apply from_ok_included. }
  destruct (chained_homed keys key Hc Hk) as [Hv [g Hg]]. rewrite (homed_home_of_key key g Hv Hg). cbn [mbind outcome_bind].
  destruct (reach ≤?ₜ tumbler g) eqn:Hr.
  { apply leb_le in Hr. exists []. split; [done|]. intros d. split; [by intros ?%not_elem_of_nil|]. intros [(a & Ha & Hle & Hd) [_ Hlt]].
    pose proof (homed_le key a g d Hg Hd (Hfirst a Ha Hle)). exfalso. torder. }
  apply leb_gt in Hr. destruct (link_chain_bounds_ok g) as (lo & hi & -> & _ & Hhi). cbn [mbind outcome_bind snd].
  pose proof (homed_below key g hi Hg Hhi) as Hbelow.
  destruct (IH hi) as (l & -> & Hl).
  { pose proof (seek_shorter keys (Included cursor) hi key rest Er Hbelow (from_ok_up _ key hi Hf Hbelow)) as Hlt. rewrite Er in Hlt. lia. }
  assert (Hsplit : ∀ d, (∃ a, a ∈ keys ∧ cursor ≤ₜ a ∧ homed a d) ↔ d = g ∨ ∃ a, a ∈ keys ∧ hi ≤ₜ a ∧ homed a d).
  { intros d. split.
    - intros (a & Ha & Hle & Hd). destruct (decide (d = g)) as [->|Hne]; [by left|right]. exists a. split_and!; [done| |done].
      apply (past_chain key a g d hi Hg Hd (Hfirst a Ha Hle) Hhi). destruct (document_cmp g d) as [?|[?|Hlt]]; [apply Hg|apply Hd|done|congruence|].
      pose proof (homed_ascend a key d g Hd Hg Hlt). pose proof (Hfirst a Ha Hle). torder.
    - intros [->|(a & Ha & Hle & Hd)]; [by exists key|]. exists a. split_and!; [done| |done]. assert (cursor ≤ₜ key) by done. torder. }
  cbn [mbind outcome_bind option_bind]. eexists. split; [reflexivity|]. intros d. rewrite Hsplit.
  destruct (start ≤?ₜ tumbler g) eqn:Hsg; [apply leb_le in Hsg|apply leb_gt in Hsg]; rewrite ?elem_of_cons, Hl.
  - split; [intros [->|[? ?]]; [by split; [left|]|by split; [right|]]|]. intros [[->|?] ?]; [by left|by right].
  - split; [intros [? ?]; by split; [right|]|]. intros [[->|?] [? ?]]; [torder|done].
Qed.

Section Findable.
Context (s : LinkState) (Hs : findable s).

(** A home that holds a link. *)
Definition holds_links (d : Address) : Prop := ∃ a v, links s !! a = Some v ∧ homed a d.

Lemma holds_links_iff d : holds_links d ↔ ∃ a, a ∈ link_keys s ∧ homed a d.
Proof using. unfold holds_links, link_keys. setoid_rewrite elem_of_dom. unfold is_Some. naive_solver. Qed.

Lemma homes_ok : ∃ r, homes s = Done r ∧ ∀ d, d ∈ r ↔ holds_links d.
Proof using Hs.
  unfold homes. destruct (key_homes_ok (S (size (link_keys s))) (link_keys s) Unbounded (fd_chained s Hs)) as (l & -> & _ & Hl).
  { apply Nat.lt_succ_r, range_le_size. }
  cbn [mbind outcome_bind]. eexists. split; [reflexivity|]. intros d. rewrite elem_of_list_to_set, Hl, holds_links_iff. naive_solver.
Qed.

Lemma homes_of_span_ok span :
  ∃ l, homes_of_span s span = Done l ∧ ∀ d, d ∈ l ↔ holds_links d ∧ contains span (tumbler d) = true.
Proof using Hs.
  unfold homes_of_span.
  destruct (under_loop_ok (S (size (link_keys s))) (link_keys s) (start span) (reach span) (start span) (fd_chained s Hs)) as (l & -> & Hl).
  { apply Nat.lt_succ_r, range_le_size. }
  exists l. split; [done|]. intros d. rewrite Hl, holds_links_iff, contains_spec. split.
  - intros [(a & Ha & _ & Hd) ?]. split; [by exists a|done].
  - intros [(a & Ha & Hd) [? ?]]. split; [|done]. exists a. split_and!; [done| |done]. pose proof (home_below a d Hd). torder.
Qed.

Lemma homes_under_ok home :
  ∃ r, homes_under s home = Done r ∧ ∀ d, d ∈ r ↔ holds_links d ∧ Endset_covers home (tumbler d) = true.
Proof using Hs.
  unfold homes_under. destruct (outcome_map_ok (homes_of_span s) (endset_spans home)
    (λ sp l, ∀ d, d ∈ l ↔ holds_links d ∧ contains sp (tumbler d) = true)) as (found & -> & Hf).
  { intros sp _. apply homes_of_span_ok. }
  cbn [mbind outcome_bind]. eexists. split; [reflexivity|]. intros d. rewrite elem_of_list_to_set, Endset_covers_any, any_spec. split.
  - intros Hd. destruct (elem_of_mjoin_Forall2 _ _ _ _ Hf Hd) as (sp & l & Hsp & Hl & Hin). apply Hl in Hin as [? ?]. split; [done|]. by exists sp.
  - intros [Hh (sp & Hsp & Hc)]. destruct (mjoin_Forall2_elem _ _ _ sp Hf Hsp) as (l & Hl & Hsub). by apply Hsub, Hl.
Qed.

Lemma homed_in_ok d constraints view :
  level d = Document →
  ∃ r, homed_in s d constraints view = Done r ∧
    ∀ a, a ∈ r ↔ shows s view a (λ v, homed (tumbler a) d ∧ meets_all constraints v = true).
Proof using Hs.
  intros Hd. unfold homed_in. rewrite bool_decide_eq_true_2; cycle 1.
  { unfold document_of. apply total_Done. unfold document_of_at. by rewrite Hd. }
  cbn [assert mbind outcome_bind]. destruct (link_chain_bounds_ok d) as (lo & hi & -> & Hlo & Hhi). cbn [mbind outcome_bind fst snd].
  set (keys := List.filter (view_admits s view) _).
  assert (Hkeys : ∀ a, a ∈ keys ↔ (∃ v, links s !! a = Some v) ∧ homed a d ∧ view_admits s view a = true).
  { intros a. unfold keys. rewrite filter_views, elem_of_range, from_ok_included, to_ok_excluded. unfold link_keys. rewrite elem_of_dom. split.
    - intros [([v Ha] & H1 & H2) ?]. split_and!; [by exists v| |done]. destruct (key_homed s Hs a v Ha) as [_ [g Hg]].
      by rewrite <- (proj1 (in_chain a g d lo hi Hg Hd Hlo Hhi) (conj H1 H2)).
    - intros ([v Ha] & Had & ?). split; [|done]. split; [by exists v|]. by apply (in_chain a d d lo hi Had Hd Hlo Hhi). }
  set (g := λ t, match links s !! t with Some v => meets_all constraints v | None => false end).
  rewrite (outcome_filter_ok _ g); cycle 1.
  { intros t Ht. apply Hkeys in Ht as [[v Hv] _]. unfold link_at, g. by rewrite Hv. }
  cbn [mbind outcome_bind]. destruct (lift_all_ok (List.filter g keys)) as (r & -> & Hr).
  { intros a Ha. apply list_elem_of_In, filter_In in Ha as [Ha _]. apply list_elem_of_In, Hkeys in Ha as [[v Hv] _]. by apply (key_homed s Hs a v). }
  exists r. split; [done|]. intros a. rewrite Hr, list_elem_of_In, filter_In, <- list_elem_of_In, Hkeys. unfold g, shows. split.
  - intros [[[v Hv] [? ?]] Hg]. rewrite Hv in Hg. by exists v.
  - intros (v & Hv & [? ?] & ?). rewrite Hv. split; [|done]. split; [by exists v|done].
Qed.

Lemma homed_in_panics d constraints view : level d ≠ Document → homed_in s d constraints view = Panicked.
Proof using.
  intros Hd. unfold homed_in. rewrite bool_decide_eq_false_2; [done|]. intros E. pose proof (document_of_segs d) as H. rewrite E in H. by destruct H as (_ & ? & _).
Qed.

Lemma homed_under_ok home view :
  ∃ r, homed_under s home view = Done r ∧
    ∀ a, a ∈ r ↔ shows s view a (λ _, ∃ d, homed (tumbler a) d ∧ Endset_covers home (tumbler d) = true).
Proof using Hs.
  unfold homed_under. destruct (homes_under_ok home) as (hs & -> & Hhs). cbn [mbind outcome_bind].
  destruct (outcome_map_ok (λ at_, homed_in s at_ [] view) (elements hs)
    (λ d (r : gset Address), ∀ a, a ∈ r ↔ shows s view a (λ v, homed (tumbler a) d ∧ meets_all [] v = true))) as (found & -> & Hf).
  { intros d Hd%elem_of_elements. apply homed_in_ok. apply Hhs in Hd as [(a & v & _ & Hd) _]. apply Hd. }
  cbn [mbind outcome_bind]. eexists. split; [reflexivity|]. intros a. rewrite elem_of_union_list. split.
  - intros (r & Hi & Ha). apply list_elem_of_lookup in Hi as [i Hi]. destruct (Forall2_lookup_r _ _ _ _ _ Hf Hi) as (d & Hd & Hr).
    apply Hr in Ha. destruct Ha as (v & Hv & [Had _] & Hview). apply list_elem_of_lookup_2, elem_of_elements, Hhs in Hd as [_ Hc].
    exists v. split_and!; [done|by exists d|done].
  - intros (v & Hv & (d & Hd & Hc) & Hview). assert (Hin : d ∈ elements hs) by (apply elem_of_elements, Hhs; split; [by exists (tumbler a), v|done]).
    apply list_elem_of_lookup in Hin as [i Hi]. destruct (Forall2_lookup_l _ _ _ _ _ Hf Hi) as (r & Hr & Hok).
    exists r. split; [by eapply list_elem_of_lookup_2|]. apply Hok. by exists v.
Qed.

Lemma type_slice_ok ty view c :
  coverage_class ty = Done c →
  ∃ r, type_slice s ty view = Done r ∧ ∀ a, a ∈ r ↔ shows s view a (λ v, coverage_class (type_slot v) = Done c).
Proof using Hs.
  intros Ec. unfold type_slice. rewrite Ec. cbn [mbind outcome_bind].
  assert (Hin : ∀ a, a ∈ type_slice_class s c view ↔ ∃ v, links s !! a = Some v ∧ coverage_class (type_slot v) = Done c ∧ view_admits s view a = true).
  { intros a. unfold type_slice_class. destruct (type_slices (hints s) !! c) as [slice|] eqn:E.
    - change (List.filter _ _) with (List.filter (view_admits s view) (ord_elements slice)). rewrite filter_views, elem_of_ord_elements, (slice_elem s Hs c slice a E). naive_solver.
    - split; [by intros ?%not_elem_of_nil|]. intros (v & Ha & Hc & _). destruct (slice_there s Hs a v c Ha Hc). congruence. }
  destruct (lift_all_ok (type_slice_class s c view)) as (r & -> & Hr).
  { intros a Ha. apply Hin in Ha as (v & Ha & _). by apply (key_homed s Hs a v). }
  exists r. split; [done|]. intros a. rewrite Hr, Hin. unfold shows. done.
Qed.
End Findable.

(** ** The claims *)

(** C22. The stab is the overlap scan. Over a store whose keys are link addresses, the
    walk of candidate homes composed with the stab of each returns, for every slot,
    query and view, exactly the resident links whose slot overlaps the query and that
    the view admits: no hit is lost in the directory's ranges, the levels of the
    containing probe, the residue or the typed slices, and no other link is found. *)
Theorem stab_exact (s : LinkState) (slot : nat) (query : Endset) (view : View) :
  findable s →
  ∃ r, stab s slot query view = Done r ∧
    ∀ a, a ∈ r ↔ ∃ v, links s !! tumbler a = Some v ∧ slot_overlaps v slot query = true ∧
      (is_active_view view = true → nullified s (tumbler a) = false).
Proof.
  intros Hs. destruct (stab_ok s Hs slot query view) as (r & -> & Hr). exists r. split; [done|]. intros a. rewrite Hr. unfold shows, view_admits.
  destruct (is_active_view view), (nullified s (tumbler a)); naive_solver.
Qed.

(** C23. The conjunction is order-free. [match_links] drives from the constraint of the
    fewest candidate homes, the earliest of the least, and answers exactly the links
    the view admits whose every constrained slot overlaps its query; with no
    constraint, the whole view. *)
Theorem match_links_exact (s : LinkState) (constraints : list (nat * Endset)) (view : View) :
  findable s →
  (constraints ≠ [] → ∃ k, fewest_homes s constraints = Done k ∧ earliest_least (candidate_homes s <$> constraints) k) ∧
  ∃ r, match_links s constraints view = Done r ∧
    ∀ a, a ∈ r ↔ ∃ v, links s !! tumbler a = Some v ∧
      (∀ slot query, (slot, query) ∈ constraints → slot_overlaps v slot query = true) ∧
      (is_active_view view = true → nullified s (tumbler a) = false).
Proof.
  intros Hs. split; [by apply fewest_homes_ok|].
  destruct (match_links_ok s Hs constraints view) as (r & -> & Hr). exists r. split; [done|]. intros a. rewrite Hr. unfold shows, view_admits, meets_all.
  setoid_rewrite forallb_forall. setoid_rewrite <- list_elem_of_In. split.
  - intros (v & Hv & Hm & Hview). exists v. split_and!; [done|intros slot query Hin; by apply (Hm (slot, query))|].
    by destruct (is_active_view view), (nullified s (tumbler a)).
  - intros (v & Hv & Hm & Hview). exists v. split_and!; [done|by intros [slot query] ?; apply Hm|].
    destruct (is_active_view view); [by rewrite Hview|done].
Qed.

(** The reads that start from a home. The walk that seeks past each chain lists
    the homes that hold a link, and under an endset those the endset covers; one
    home's range holds its own links and no member's, and panics on an address that is
    no document; and the links homed where an endset covers are the ranges of the
    homes it covers. *)
Theorem home_first_exact (s : LinkState) (home : Endset) (d : Address) (constraints : list (nat * Endset)) (view : View) :
  findable s →
  (∃ r, homes s = Done r ∧ ∀ x, x ∈ r ↔ holds_links s x) ∧
  (∃ r, homes_under s home = Done r ∧ ∀ x, x ∈ r ↔ holds_links s x ∧ Endset_covers home (tumbler x) = true) ∧
  (if bool_decide (level d = Document) then
     ∃ r, homed_in s d constraints view = Done r ∧
       ∀ a, a ∈ r ↔ shows s view a (λ v, homed (tumbler a) d ∧ meets_all constraints v = true)
   else homed_in s d constraints view = Panicked) ∧
  (∃ r, homed_under s home view = Done r ∧
     ∀ a, a ∈ r ↔ shows s view a (λ _, ∃ x, homed (tumbler a) x ∧ Endset_covers home (tumbler x) = true)).
Proof.
  intros Hs. split_and!; [by apply homes_ok|by apply homes_under_ok| |by apply homed_under_ok].
  case_bool_decide; [by apply homed_in_ok|by apply homed_in_panics].
Qed.
