(* ===== verification/LinkSamples.v ===== *)
(** * The links at a concrete store

    Two documents' links and one supersession claim between them, folded from genesis;
    each claim of the links applied to them, its answer evaluated beside it. *)

From stdpp Require Import gmap sorting.
From S2P Require Import Prelude Txns Tumblers Addresses Arith NsKeys NsState NsInv OrdSets Spans SpanSets Endsets ClassLaws TypeRegistry.
From S2P Require Import Spanfilade HomeWalk HomeWalkLaws LinkState LinkStateLaws LinkReads Supersession LinkFind LinkChains LinkFindLaws LinkFindCalls LinkSlots.

Definition link_home : Address := adr [1; 1; 0; 1; 0; 2]%N.
Definition other_home : Address := adr [1; 1; 0; 1; 0; 3]%N.
Definition old_link : Address := adr [1; 1; 0; 1; 0; 2; 0; 2; 1]%N.
Definition new_link : Address := adr [1; 1; 0; 1; 0; 3; 0; 2; 1]%N.
Definition claim_link : Address := adr [1; 1; 0; 1; 0; 3; 0; 2; 2]%N.
Definition text (n : N) : Address := adr [1; 1; 0; 1; 0; 2; 0; 1; n]%N.
Definition jump_type : Endset := enc [adr [1; 1; 0; 1; 0; 1; 0; 3; 2]%N].

Definition old_value : Link := triple (enc [text 1]) (enc [text 2; text 3]) jump_type.
Definition new_value : Link := triple (enc [text 2]) (enc [text 4]) jump_type.
Definition claim_value : Link := triple (enc [old_link]) (enc [new_link]) (reserved_type registry Supersedes).

Definition linked_recs : list LinkRec :=
  [Deposit (tumbler old_link) old_value; Deposit (tumbler new_link) new_value; Deposit (tumbler claim_link) claim_value].

Lemma linked_done : is_done (apply_links LinkState_genesis linked_recs) = true.
Proof. vm_compute. reflexivity. Qed.

Definition linked_store : LinkState := total (apply_links LinkState_genesis linked_recs) linked_done.

Lemma linked_store_eq : apply_links LinkState_genesis linked_recs = Done linked_store.
Proof. apply total_spec. Qed.

Lemma linked_ok : link_state_ok linked_store.
Proof. eapply apply_links_ok; [apply links_genesis_ok|exact linked_store_eq]. Qed.

Lemma linked_findable : findable linked_store.
Proof. split; [exact linked_ok| |]; vm_compute; reflexivity. Qed.

(** An answer checked by evaluation. *)
Definition done_with {A} (m : outcome A) (check : A → bool) : bool := match m with Done a => check a | Panicked => false end.

Lemma hints_rebuilt_witness :
  done_with (rebuild_derived (MkLinkState (links linked_store) Hints_default)) (λ s, bool_decide (links s = links linked_store)) = true ∧
  rebuild_derived (MkLinkState (links linked_store) Hints_default) = Done linked_store.
Proof.
  split; [vm_compute; reflexivity|].
  exact (proj1 (hints_rebuilt linked_recs linked_recs linked_store linked_store (Deposit (tumbler old_link) old_value)
    Hints_default linked_store_eq linked_store_eq)).
Defined.

(** What the second text position's stab finds in each slot. *)
Lemma stab_exact_witness :
  done_with (stab linked_store FROM (enc [text 2]) ViewActive) (λ r, bool_decide (r = {[new_link]})) = true ∧
  done_with (stab linked_store TO (enc [text 2]) ViewActive) (λ r, bool_decide (r = {[old_link]})) = true ∧
  done_with (stab linked_store TYPE jump_type ViewAudit) (λ r, bool_decide (r = {[old_link; new_link]})) = true ∧
  ∃ r, stab linked_store FROM (enc [text 2]) ViewActive = Done r.
Proof.
  split; [vm_compute; reflexivity|]. split; [vm_compute; reflexivity|]. split; [vm_compute; reflexivity|].
  destruct (stab_exact linked_store FROM (enc [text 2]) ViewActive linked_findable) as (r & Hr & _). exists r. exact Hr.
Defined.

Lemma match_links_exact_witness :
  done_with (match_links linked_store [(TYPE, jump_type); (FROM, enc [text 2])] ViewActive) (λ r, bool_decide (r = {[new_link]})) = true ∧
  done_with (match_links linked_store [] ViewActive) (λ r, bool_decide (r = {[old_link; new_link; claim_link]})) = true ∧
  ∃ r, match_links linked_store [(TYPE, jump_type); (FROM, enc [text 2])] ViewActive = Done r.
Proof.
  split; [vm_compute; reflexivity|]. split; [vm_compute; reflexivity|].
  destruct (match_links_exact linked_store [(TYPE, jump_type); (FROM, enc [text 2])] ViewActive linked_findable) as (_ & r & Hr & _).
  exists r. exact Hr.
Defined.

Lemma home_first_exact_witness :
  done_with (homes linked_store) (λ r, bool_decide (r = {[link_home; other_home]})) = true ∧
  done_with (homed_in linked_store other_home [] ViewActive) (λ r, bool_decide (r = {[new_link; claim_link]})) = true ∧
  ∃ r, homes linked_store = Done r.
Proof.
  split; [vm_compute; reflexivity|]. split; [vm_compute; reflexivity|].
  destruct (home_first_exact linked_store (enc [link_home]) other_home [] ViewActive linked_findable) as ((r & Hr & _) & _).
  exists r. exact Hr.
Defined.

(** The first home's block of text is named and holds no hit. *)
Definition touched : outcome (list Touch) := all_touches linked_store [(FROM, enc [text 2]); (TO, enc [text 4])].

Lemma slots_exact_witness :
  done_with touched (λ ts, match ts with
    | [u; t] => bool_decide (to_home u = link_home ∧ to_home t = other_home) &&
        done_with (stab_in_slots linked_store u [(FROM, 0); (TO, 1)] ViewActive) (λ l, bool_decide (l = [])) &&
        done_with (stab_in_slots linked_store t [(FROM, 0); (TO, 1)] ViewActive) (λ l, bool_decide (l = [(new_link, FROM); (new_link, TO)])) &&
        (count_in_slots linked_store t [(FROM, 0); (TO, 1)] ViewActive =? 1)
    | _ => false
    end) = true ∧
  ∃ ts t out, touched = Done ts ∧ t ∈ ts ∧ stab_in_slots linked_store t [(FROM, 0); (TO, 1)] ViewActive = Done out.
Proof.
  split; [vm_compute; reflexivity|].
  assert (Hd : is_done touched = true) by (vm_compute; reflexivity).
  assert (Hne : match total touched Hd with [] => false | _ => true end = true) by (vm_compute; reflexivity).
  pose proof (total_spec touched Hd) as E. revert E Hne. generalize (total touched Hd). intros [|t ts] E Hne; [discriminate Hne|].
  destruct (slots_exact linked_store _ (t :: ts) t [(FROM, 0); (TO, 1)] ViewActive linked_findable E) as (out & Hout & _).
  - left.
  - intros slot j Hin. apply elem_of_cons in Hin as [Hin|Hin]; [injection Hin as -> ->; eexists; reflexivity|].
    apply list_elem_of_singleton in Hin. injection Hin as -> ->. eexists; reflexivity.
  - exists (t :: ts), t, out. split; [exact E|]. split; [left|exact Hout].
Defined.

Lemma walk_exact_witness :
  done_with (tip linked_store (reserved_type registry Supersedes) old_link)
    (λ t, match t with Sink a => bool_decide (a = new_link) | Indeterminate => false end) = true ∧
  done_with (chain linked_store (reserved_type registry Supersedes) old_link) (λ l, bool_decide (l = [old_link; new_link])) = true ∧
  ∃ path, chain linked_store (reserved_type registry Supersedes) old_link = Done path ∧ NoDup path.
Proof.
  split; [vm_compute; reflexivity|]. split; [vm_compute; reflexivity|].
  pose proof (walk_exact linked_store (reserved_type registry Supersedes) (shipped_class registry Supersedes) old_link linked_ok) as H.
  rewrite bool_decide_eq_true_2 in H by reflexivity.
  destruct H as (path & _ & _ & Hp & _ & _ & Hn & _); [vm_compute; reflexivity..|]. exists path. split; [exact Hp|exact Hn].
Defined.

Lemma current_exact_witness :
  done_with (current linked_store old_link)
    (λ ms, match ms with [m] => bool_decide (cm_member m = new_link ∧ cm_claims m = [claim_link]) && cm_active m | _ => false end) = true ∧
  ∃ ms, current linked_store old_link = Done ms.
Proof.
  split; [vm_compute; reflexivity|].
  destruct (current_exact linked_store old_link linked_ok) as (ms & Hms & _); [vm_compute; reflexivity|]. exists ms. exact Hms.
Defined.

(** The same denotation, spelled otherwise, takes the same lock. *)
Definition respelled_value : Link := triple (enc [text 1]) (enc [text 3; text 2; text 3]) jump_type.

(** Every length a key writes is one a 64-bit count carries. *)
Definition class_fits (c : CoverageClass) : bool :=
  match c with
  | Addrs set =>
      bool_decide (N.of_nat (size set) < 2 ^ 64)%N &&
      forallb (λ t, bool_decide (N.of_nat (Tumbler_len t) < 2 ^ 64)%N &&
        forallb (λ c, bool_decide (N.of_nat (length (be_bytes c)) < 2 ^ 64)%N) (comps t)) (elements set)
  | Extents _ => false
  end.

Lemma class_fits_lockable c : class_fits c = true → class_lockable be_bytes c.
Proof.
  destruct c as [set|m]; cbn [class_fits class_lockable]; [|discriminate]. intros [Hs%bool_decide_eq_true Hf]%andb_true_iff. split; [exact Hs|].
  intros t Ht. rewrite forallb_forall in Hf. specialize (Hf t). rewrite <- list_elem_of_In, elem_of_elements in Hf. specialize (Hf Ht).
  apply andb_true_iff in Hf as [Hl%bool_decide_eq_true Hc]. split; [exact Hl|]. apply Forall_forall. intros c Hin.
  rewrite forallb_forall in Hc. apply list_elem_of_In in Hin. specialize (Hc c Hin). by apply bool_decide_eq_true in Hc.
Qed.

Lemma key_fits_lockable k :
  class_fits (dk_ty k) && class_fits (dk_from k) && class_fits (dk_to k) = true → dedup_lockable be_bytes k.
Proof. intros [[H1 H2]%andb_true_iff H3]%andb_true_iff. split_and!; by apply class_fits_lockable. Qed.

Lemma dedup_lock_exact_witness :
  ∃ k j l, DedupKey_of old_value = Done k ∧ DedupKey_of respelled_value = Done j ∧
    dedup_lock_key be_bytes k = Done l ∧ dedup_lock_key be_bytes j = Done l ∧
    same_class (to_slot old_value) (to_slot respelled_value).
Proof.
  assert (Hk : is_done (DedupKey_of old_value) = true) by (vm_compute; reflexivity).
  assert (Hj : is_done (DedupKey_of respelled_value) = true) by (vm_compute; reflexivity).
  assert (Hfk : done_with (DedupKey_of old_value) (λ k, class_fits (dk_ty k) && class_fits (dk_from k) && class_fits (dk_to k)) = true)
    by (vm_compute; reflexivity).
  assert (Hfj : done_with (DedupKey_of respelled_value) (λ k, class_fits (dk_ty k) && class_fits (dk_from k) && class_fits (dk_to k)) = true)
    by (vm_compute; reflexivity).
  pose proof (total_spec _ Hk) as Ek. pose proof (total_spec _ Hj) as Ej.
  rewrite Ek in Hfk. rewrite Ej in Hfj. cbn [done_with] in Hfk, Hfj.
  destruct (dedup_lock_exact be_bytes old_value respelled_value _ _ Txns.CoverageClass [] be_bytes_inj Ek Ej
    (key_fits_lockable _ Hfk) (key_fits_lockable _ Hfj)) as (l & l' & El & El' & Hl & _).
  assert (E : l = l').
  { apply Done_inj. rewrite <- El, <- El'. f_equal. }
  exists (total _ Hk), (total _ Hj), l. split; [exact Ek|]. split; [exact Ej|]. split; [exact El|]. split; [rewrite E; exact El'|].
  exact (proj2 (proj2 (proj1 Hl E))).
Defined.
