(* ===== verification/LinkWorld.v ===== *)
(** * The world M7 writes to

    The core's slices and the link store, folded as [crates/skep-engine/src/world.rs]
    folds them (the four core arms, and the link store's part of the [Links] arm); the
    interface by which a world offers them ([HasLinks] and [LinkWorld] of
    [crates/skep-links/src/lib.rs]), of which [HasSlices] is a part, so that every
    theorem of M3, M4 and M5 is one of such a world; the invariant that ties the store to the
    namespace; and the two records of a deposit. *)

From stdpp Require Import gmap.
From S2P Require Import Prelude Txns Tumblers Addresses AddrMaps Arith NsKeys NsState NsLaws NsOps NsInv Spans Runs Content RunLists Provenance ArrState Views World Edits EditInv EditSteps EditCalls VersionCalls OrdSets Endsets ClassLaws TypeRegistry LinkState LinkStateLaws LinkFind LinkChains.

(** ** The slices *)

Record LinkedSlices := MkLinked { ls_core : Slices; ls_links : LinkState }.

Definition ls_namespace (s : LinkedSlices) : M3State := sl_namespace (ls_core s).

Inductive LinkedRec := RecCore (r : CoreRec) | RecLinks (r : LinkRec).

Definition apply_linked (debug : bool) (w : LinkedSlices) (at_ : Seq) (r : LinkedRec) : outcome LinkedSlices :=
  match r with
  | RecCore x => c ← apply_slices debug (ls_core w) at_ x; Done (MkLinked c (ls_links w))
  | RecLinks x => l ← apply_link (ls_links w) x; Done (MkLinked (ls_core w) l)
  end.

(** ** The interface *)

Class HasLinked (debug : bool) (W R : Type) `{WorldState W R} := {
  linked : W → LinkedSlices;
  of_linked : LinkedRec → R;
  linked_fold : ∀ w at_ r, linked <$> apply w at_ (of_linked r) = apply_linked debug (linked w) at_ r
}.

(** The slices are a world by themselves, in either build. *)
#[export] Instance linked_world (debug : bool) : WorldState LinkedSlices LinkedRec | 10 := apply_linked debug.

Lemma linked_self_fold debug (w : LinkedSlices) at_ r :
  (λ s : LinkedSlices, s) <$> apply_linked debug w at_ r = apply_linked debug w at_ r.
Proof. by destruct (apply_linked debug w at_ r). Qed.

#[export] Instance linked_has_linked debug :
  HasLinked debug LinkedSlices LinkedRec (H := linked_world debug) | 10 :=
  {| linked := λ w, w; of_linked := λ r, r; linked_fold := linked_self_fold debug |}.

(** ** Positions aside *)

Definition same_linked (u s : LinkedSlices) : Prop :=
  same_slices (ls_core u) (ls_core s) ∧ ls_links s = ls_links u.

#[export] Instance same_linked_refl : RelationClasses.Reflexive same_linked.
Proof. by split. Qed.

Lemma apply_linked_same debug u s at1 at2 r u' :
  apply_linked debug u at1 r = Done u' → same_linked u s →
  ∃ s', apply_linked debug s at2 r = Done s' ∧ same_linked u' s'.
Proof.
  intros Hu [Hc Hl]. destruct r as [r|r]; cbn [apply_linked] in *.
  - apply bind_inv in Hu as (c & Ha & [= <-]).
    destruct (apply_slices_same debug _ _ at1 at2 r c Ha Hc) as (c' & -> & Hs). by eexists.
  - apply bind_inv in Hu as (l & Ha & [= <-]). rewrite Hl, Ha. by eexists.
Qed.

Section Interface.
Context {debug : bool} {W R : Type} `{WS : WorldState W R} `{HL : !HasLinked debug W R}.
#[local] Notation Staging := (Staging (W := W) (R := R)).
#[local] Notation Txn := (Txn (W := W) (R := R)).

(** The core's interface is a part of this one. *)
#[export] Instance linked_has_slices : HasSlices debug W R.
Proof using HL.
  refine {| slices := λ w, ls_core (linked w); of_core := λ r, of_linked (RecCore r) |}.
  intros w at_ r. pose proof (linked_fold w at_ (RecCore r)) as H. cbn [apply_linked] in H.
  destruct (apply w at_ (of_linked (RecCore r))) as [w'|]; cbn in *.
  - destruct (apply_slices debug (ls_core (linked w)) at_ r) as [c|]; [|done]. cbn in H.
    injection H as H. by rewrite H.
  - by destruct (apply_slices debug (ls_core (linked w)) at_ r).
Defined.

(** [world.links()]. *)
Definition link_slice (w : W) : LinkState := ls_links (linked w).

(** [stg.base()]. *)
Definition base_world {E} : Txn E W := λ stg, Done (Ok (base stg), stg).

Definition lview (stg : Staging) : LinkedSlices := linked (working stg).

Definition fold_linked (s : LinkedSlices) (at_ : Seq) (rs : list LinkedRec) : outcome LinkedSlices :=
  fold_view (apply_linked debug) s at_ rs.

Definition on_linked (s : LinkedSlices) (rs : list LinkedRec) (stg : Staging) : Prop :=
  on_view linked of_linked (apply_linked debug) s rs stg.

Lemma closure_base {E} : closure (base_world : Txn E W).
Proof using. intros s r s' [= <- <-]. constructor. Qed.

Lemma spec_base {E B} (f : W → Txn E B) (stg : Staging) gates Q :
  txn_spec (f (base stg)) stg gates Q → txn_spec (txn_bind base_world f) stg gates Q.
Proof using. done. Qed.
End Interface.

(** ** What ties the store to the namespace *)

(** The address the home's next deposit takes. *)
Definition next_link (ns : M3State) (home a : Address) : Prop :=
  nth_in (link_ns home) (effective_frontier ns (link_ns home) + 1) = Done (Ok a).

(** Df-DISC(ii), the schema of a supersession claim. *)
Definition sup_schema (s : LinkState) (v : Link) : Prop :=
  ∃ f g, single_denoted (from_slot v) = Some f ∧ single_denoted (to_slot v) = Some g ∧
    resident s f = true ∧ resident s g = true ∧ f ≠ g.

Record linked_ok (s : LinkedSlices) : Prop := {
  lo_core : core_ok (ls_core s);
  lo_store : link_state_ok (ls_links s);
  (** A link is at a minted address of its home's chain. *)
  lo_homes : ∀ t, is_Some (links (ls_links s) !! t) →
    ∃ a d, t = tumbler a ∧ homed t d ∧ is_allocated (ls_namespace s) a = true;
  (** FrontierUnification: a home's frontier in the namespace counts its links. *)
  lo_frontier : ∀ d, level d = Document →
    N.of_nat (size (homed_at (links (ls_links s)) (tumbler d))) = effective_frontier (ls_namespace s) (link_ns d);
  (** Only a resident link is retracted. *)
  lo_tombs : ∀ t, nullified (ls_links s) t = true → resident (ls_links s) t = true;
  (** Every claim holds the schema. *)
  lo_claims : ∀ a v, typed (links (ls_links s)) a (shipped_class registry Supersedes) v → sup_schema (ls_links s) v
}.

Lemma linked_ok_same u s : linked_ok u → same_linked u s → linked_ok s.
Proof.
  intros [Hc Hs Hh Hf Ht Hcl] [Hsame E]. destruct (same_ns _ _ Hsame) as (Ef & Ea & _).
  split; rewrite ?E; try done.
  - by eapply core_ok_same.
  - intros t Hin. destruct (Hh t Hin) as (a & d & ? & ? & ?). exists a, d. split_and!; [done..|]. unfold ls_namespace in *. by rewrite Ea.
  - intros d Hd. unfold ls_namespace in *. rewrite Ef. by apply Hf.
Qed.

Lemma resident_iff s t : resident s t = true ↔ is_Some (links s !! t).
Proof. unfold resident. by rewrite bool_decide_eq_true. Qed.

Lemma nullified_iff s t : nullified s t = true ↔ t ∈ h_nullified (hints s).
Proof. unfold nullified. by rewrite bool_decide_eq_true. Qed.

Lemma check_sup_schema_iff s v : check_sup_schema s v = Ok tt ↔ sup_schema s v.
Proof.
  unfold check_sup_schema, sup_schema.
  destruct (single_denoted (from_slot v)) as [f|]; [|split; [done|by intros (f & g & ? & _)]].
  destruct (single_denoted (to_slot v)) as [g|]; [|split; [done|by intros (f' & g & _ & ? & _)]].
  destruct (resident s f) eqn:Ef, (resident s g) eqn:Eg; cbn [negb orb].
  - case_bool_decide as Hfg; (split; [done || intros _|]).
    + intros (f' & g' & [= <-] & [= <-] & _ & _ & Hne). congruence.
    + by exists f, g.
    + done.
  - split; [done|]. intros (f' & g' & [= <-] & [= <-] & _ & H & _). congruence.
  - split; [done|]. intros (f' & g' & [= <-] & [= <-] & H & _). congruence.
  - split; [done|]. intros (f' & g' & [= <-] & [= <-] & H & _). congruence.
Qed.

(** ** The two records of a deposit *)

#[local] Arguments apply_m3 : simpl never.
#[local] Arguments effective_frontier : simpl never.

(** ** A deposit *)

(** What a deposit of [v] in [home] leaves. *)
Record deposited (s : LinkedSlices) (home : Address) (v : Link) (a : Address) (s' : LinkedSlices) : Prop := {
  dp_next : next_link (ls_namespace s) home a;
  dp_fresh : is_allocated (ls_namespace s) a = false ∧ links (ls_links s) !! tumbler a = None;
  dp_frontier : effective_frontier (ls_namespace s') (link_ns home) = (effective_frontier (ls_namespace s) (link_ns home) + 1)%N;
  dp_links : links (ls_links s') = <[tumbler a := v]> (links (ls_links s));
  dp_minted : ∀ b, is_allocated (ls_namespace s') b = true ↔ is_allocated (ls_namespace s) b = true ∨ b = a;
  dp_names : nodes (ls_namespace s') = nodes (ls_namespace s) ∧ principals (ls_namespace s') = principals (ls_namespace s) ∧
    publication (ls_namespace s') = publication (ls_namespace s);
  dp_rest : same_slices (MkSlices (ls_namespace s') (sl_content (ls_core s)) (sl_arrangement (ls_core s))) (ls_core s')
}.

(** Every slot level-uniform, as the classes and the identity need. *)
Definition slots_uniform (v : Link) : Prop :=
  ∀ e, e = from_slot v ∨ e = to_slot v ∨ e = type_slot v → Endset_is_level_uniform e = true.

(** What the sole-writer fences establish of the value before it is deposited. *)
Record storable (s : LinkedSlices) (home : Address) (v : Link) : Prop := {
  sb_uniform : slots_uniform v;
  sb_retracts : coverage_class (type_slot v) = Done (shipped_class registry Retraction) →
    ∀ t, t ∈ Endset_addrs (to_slot v) → resident (ls_links s) t = true ∨ ∃ a, next_link (ls_namespace s) home a ∧ t = tumbler a;
  sb_claims : coverage_class (type_slot v) = Done (shipped_class registry Supersedes) → sup_schema (ls_links s) v
}.

Lemma uniform_class e : Endset_is_level_uniform e = true → ∃ c, coverage_class e = Done c.
Proof.
  intros Hu. pose proof (coverage_class_cases e) as H. destruct (is_address_denoting e).
  - destruct H as (set & -> & _). by eexists.
  - rewrite Hu in H. destruct H as (m & -> & _). by eexists.
Qed.

Lemma uniform_key v : slots_uniform v → ∃ k, DedupKey_of v = Done k.
Proof.
  intros Hu. unfold DedupKey_of. destruct (uniform_class (type_slot v)) as [? ->]; [auto|].
  destruct (uniform_class (from_slot v)) as [? ->]; [auto|]. destruct (uniform_class (to_slot v)) as [? ->]; [auto|]. by eexists.
Qed.

Lemma link_ns_inj d e : link_ns d = link_ns e → d = e.
Proof.
  intros E. pose proof (link_ns_slot d 1) as Hd. rewrite E, link_ns_slot in Hd. apply app_inj_2 in Hd as [Hd _]; [|done].
  by apply Address_eq, Tumbler_eq.
Qed.

Lemma next_link_homed ns home a : level home = Document → next_link ns home a → homed (tumbler a) home.
Proof.
  intros Hl (_ & _ & E)%nth_in_Ok. split; [done|]. rewrite link_ns_slot in E. by eexists.
Qed.

Lemma next_link_unique ns home a b : next_link ns home a → next_link ns home b → a = b.
Proof. unfold next_link. congruence. Qed.

Lemma sup_schema_mono s s' v : (∀ t, resident s t = true → resident s' t = true) → sup_schema s v → sup_schema s' v.
Proof. intros H (f & g & ? & ? & ? & ? & ?). exists f, g. split_and!; auto. Qed.

Section Deposit.
Context (u : LinkedSlices) (home : Address) (v : Link) (a : Address) (ns' : M3State) (l' : LinkState).
Context (Hok : linked_ok u) (Hhome : is_registered_document (ls_namespace u) home = true) (Hst : storable u home v).
Context (Hnext : next_link (ls_namespace u) home a) (Hfresh : is_allocated (ls_namespace u) a = false).
Context (Hns : m3_ok ns') (Hpre : preserved (ls_namespace u) ns').
Context (Hmint : ∀ b, is_allocated ns' b = true ↔ is_allocated (ls_namespace u) b = true ∨ b = a).
Context (Hfr : effective_frontier ns' (link_ns home) = (effective_frontier (ls_namespace u) (link_ns home) + 1)%N).
Context (Hch : ∀ key, key ≠ link_ns home → effective_frontier ns' key = effective_frontier (ls_namespace u) key).
Context (Hl : links l' = <[tumbler a := v]> (links (ls_links u))) (Hl' : link_state_ok l').

#[local] Notation u' := (MkLinked (MkSlices ns' (sl_content (ls_core u)) (sl_arrangement (ls_core u))) l').

Lemma deposit_level : level home = Document.
Proof using Hhome. by apply is_registered_document_ok in Hhome as [? _]. Qed.

Lemma deposit_homed : homed (tumbler a) home.
Proof using Hhome Hnext. apply (next_link_homed (ls_namespace u)); [apply deposit_level|done]. Qed.

Lemma deposit_absent : links (ls_links u) !! tumbler a = None.
Proof using Hok Hfresh.
  destruct (links (ls_links u) !! tumbler a) as [w|] eqn:E; [|done]. destruct (lo_homes _ Hok (tumbler a)) as (b & d & Hb & _ & Ha); [by exists w|].
  apply Address_eq in Hb as <-. congruence.
Qed.

Lemma deposit_resident t : resident l' t = true ↔ resident (ls_links u) t = true ∨ t = tumbler a.
Proof using Hl. clear -Hl. rewrite !resident_iff, Hl, lookup_insert_is_Some. destruct (decide (tumbler a = t)); naive_solver. Qed.

Lemma deposit_core : core_ok (ls_core u').
Proof using Hok Hhome Hnext Hns Hpre Hmint.
  apply core_ok_minted; [apply Hok|done| |apply Hpre|apply Hpre].
  intros b [n Hb]. apply eq_true_iff_eq. rewrite Hmint. split; [|by left]. intros [?| ->]; [done|exfalso].
  apply nth_in_Ok in Hnext as Hn. destruct Hn as (_ & Hk & E). rewrite link_ns_slot in E.
  assert (element_field a = Some [2%N; (effective_frontier (ls_namespace u) (link_ns home) + 1)%N]) as E2.
  { apply element_pair_view. exists home. split; [apply deposit_level|done]. }
  rewrite E2 in Hb. discriminate Hb.
Qed.

Lemma deposit_class : ∃ c, coverage_class (type_slot v) = Done c.
Proof using Hst. apply uniform_class, (sb_uniform _ _ _ Hst). auto. Qed.

Lemma deposit_ok : linked_ok u'.
Proof using All.
  pose proof deposit_absent as Hno. pose proof deposit_homed as Hhm. destruct deposit_class as [c Hc].
  assert (Hht : home_tumbler (tumbler a) = Some (tumbler home)) by (apply homed_home; [by rewrite validate_self|done]).
  split; cbn [ls_core ls_links].
  - apply deposit_core.
  - done.
  - intros t Ht%resident_iff%deposit_resident. destruct Ht as [Ht| ->].
    + destruct (lo_homes _ Hok t) as (b & d & ? & ? & ?); [by apply resident_iff|]. exists b, d. split_and!; [done..|]. apply Hmint. by left.
    + exists a, home. split_and!; [done..|]. apply Hmint. by right.
  - intros d Hd. rewrite Hl, homed_at_insert, Hht. unfold ls_namespace. cbn [ls_core sl_namespace].
    destruct (decide (d = home)) as [->|Hne].
    + rewrite decide_True by done. rewrite size_union, size_singleton, Hfr.
      * rewrite <- (lo_frontier _ Hok home Hd). lia.
      * apply disjoint_singleton_l. unfold homed_at. rewrite elem_of_filter. intros [_ [w Hw]%elem_of_dom]. congruence.
    + rewrite decide_False by (intros [= E]; by apply Hne, Address_eq). rewrite Hch by (intros E; by apply Hne, link_ns_inj).
      by apply (lo_frontier _ Hok d).
  - intros t Ht%nullified_iff. apply (ho_nullified _ _ (proj1 Hl')) in Ht as [b Hb]. rewrite Hl in Hb.
    apply deposit_resident. apply (retracts_more _ _ v c Hno Hc) in Hb as [(-> & Ht & _)|Hb].
    + destruct (sb_retracts _ _ _ Hst Hc t Ht) as [?|(b' & Hb' & ->)]; [by left|right]. f_equal. by eapply next_link_unique.
    + left. apply (lo_tombs _ Hok), nullified_iff, (ho_nullified _ _ (proj1 (lo_store _ Hok))). by exists b.
  - intros b w Hw. rewrite Hl in Hw. apply (sup_schema_mono (ls_links u)); [intros t Ht; apply deposit_resident; by left|].
    apply (typed_insert _ _ _ _ _ _ Hno) in Hw as [(-> & -> & Hcl)|Hw]; [by apply (sb_claims _ _ _ Hst)|by apply (lo_claims _ Hok b)].
Qed.
End Deposit.

Section Steps.
Context (debug : bool).

Lemma deposit_steps u home v :
  linked_ok u → is_registered_document (ls_namespace u) home = true → storable u home v →
  ∃ a r, mint_link (ls_namespace u) home = Done (Ok (a, r)) ∧
    ∀ at1, ∃ u1, apply_linked debug u at1 (RecCore (RecNamespace r)) = Done u1 ∧
      ∀ at2, ∃ u2, apply_linked debug u1 at2 (RecLinks (Deposit (tumbler a) v)) = Done u2 ∧
        deposited u home v a u2 ∧ linked_ok u2.
Proof.
  intros Hok Hhome Hst. pose proof (lo_core _ Hok) as Hcore.
  pose proof (gated_mint (ls_namespace u) (link_ns home) NO_PUBLICATION_STATE
    (is_registered_document (ls_namespace u) home) HomeNotRegistered (fam_link _ home)) as Hm.
  unfold mint_link. rewrite Hhome in *. cbn [negb] in *. destruct (gated _) as [[[a r]|e]|]; [|by destruct Hm|done].
  destruct Hm as [_ Hi]. exists a, r. split; [done|]. intros at1.
  pose proof Hi as (-> & Hnext & Hfresh & Happ). destruct (Happ at1) as (ns' & Hns & Hmint & Hfr).
  cbn [apply_linked apply_slices]. unfold ls_namespace in *. rewrite Hns. eexists. split; [reflexivity|]. intros at2.
  destruct (issued_ok _ _ _ _ _ _ _ (co_m3 _ Hcore) (fam_link _ home Hhome)
    (λ b, doc_chain_levels _ home _ b Hhome (or_intror (or_introl eq_refl))) Hi Hns) as [Hnok Hpre].
  pose proof Hns as (key & Hk & Ho & Hns')%apply_allocate.
  rewrite (namespace_of_nth _ _ _ Hnext) in Hk. injection Hk as <-.
  pose proof (deposit_absent u a Hok Hfresh) as Hno.
  pose proof (deposit_homed u home a Hhome Hnext) as Hhm.
  pose proof (apply_link_cases (ls_links u) (Deposit (tumbler a) v) (lo_store _ Hok)) as Hl. cbn [dep_addr dep_value] in Hl.
  assert (Hfo : foldable (tumbler a) v = true).
  { unfold foldable. destruct (uniform_class (type_slot v)) as [c ->]; [apply (sb_uniform _ _ _ Hst); auto|].
    destruct (uniform_key v (sb_uniform _ _ _ Hst)) as [k ->]. rewrite (homed_home _ home) by (by rewrite ?validate_self).
    rewrite bool_decide_eq_true_2 by done. by destruct (is_idempotent registry c). }
  rewrite Hfo, bool_decide_eq_true_2 in Hl by done. destruct Hl as (l' & Hl & Hlinks & Hlok).
  cbn [ls_links]. rewrite Hl. eexists. split; [reflexivity|].
  assert (Hch : ∀ key, key ≠ link_ns home → effective_frontier ns' key = effective_frontier (sl_namespace (ls_core u)) key).
  { intros key Hne. rewrite Hns'. unfold effective_frontier. cbn [frontiers]. by rewrite lookup_insert_ne by congruence. }
  split; [|by eapply (deposit_ok u home v a ns' l')].
  split; cbn [ls_links]; unfold ls_namespace; cbn [ls_core sl_namespace]; try done.
  rewrite Hns'. cbn. split_and!; [done..|]. destruct Hhm as [Hlv [n Hn]].
  assert (level a ≠ Document) as Hel.
  { assert (element_field a = Some [2%N; n]) as E by (apply element_pair_view; by exists home). apply element_field_level in E. congruence. }
  by rewrite bool_decide_eq_false_2.
Qed.
End Steps.
