(* ===== verification/LinkWrites.v ===== *)
(** * The link store's writes

    Models [crates/skep-links/src/writes.rs] and [writes/emit.rs], [nullify.rs],
    [supersession.rs], [makelink.rs] (M7), with [budget.rs] and the write errors of
    [error.rs]: the deposit gate every write passes, the two disciplines, the
    sole-writer classes, the lock set a deposit takes, and the operations, each its
    pre-work and one transaction. The publication ([writes/publication.rs]) is not
    here. *)

From stdpp Require Import gmap.
From S2P Require Import Prelude Txns Tumblers Addresses AddrMaps Arith NsKeys NsState NsOps Spans Runs RunLists VSpace ArrState ArrReads World Edits.
From S2P Require Import OrdSets Endsets TypeRegistry LinkState LinkReads LinkWorld.

(** ** Budgets *)

Definition MAX_SLOT_SPANS : N := 4096.
Definition MAX_SLOT_RESOLVE_STEPS : N := 64 * MAX_SLOT_SPANS.

(** ** Refusals *)

Inductive HomeFault := HF_NotRegistered | HF_NotOwner (a : Address).

Inductive EmitCoreError :=
  | EC_Home (f : HomeFault)
  | EC_NotRegistered
  | EC_ShapeViolation
  | EC_RetractionClass
  | EC_EmptyType
  | EC_Mint (e : MintError).

Inductive MakeLinkError :=
  | ML_HomeNotRegistered
  | ML_NotOwner (a : Address)
  | ML_IllFormedSpec
  | ML_NotContentSpan (slot index : nat)
  | ML_SlotTooLarge
  | ML_EmptyTypeResolution
  | ML_RetractionClass
  | ML_SupersessionClass
  | ML_ReplacesClass
  | ML_CorrespondenceClass
  | ML_Mint (e : MintError)
  | ML_Seat (e : SeatError).

Inductive EmitError :=
  | EM_HomeNotRegistered
  | EM_NotOwner (a : Address)
  | EM_NotRegistered
  | EM_RetractionClass
  | EM_ShapeViolation
  | EM_SupersessionClass
  | EM_ReplacesClass
  | EM_CorrespondenceClass
  | EM_NonAddressDenotingType
  | EM_SlotTooLarge
  | EM_Mint (e : MintError).

Inductive NullifyError :=
  | NU_HomeNotRegistered
  | NU_NotOwner (a : Address)
  | NU_BadTarget
  | NU_Mint (e : MintError).

Inductive AssertSupError :=
  | AS_HomeNotRegistered
  | AS_NotOwner (a : Address)
  | AS_EndpointNotResident
  | AS_SelfSupersession
  | AS_Mint (e : MintError).

Inductive EditLinkError :=
  | ED_OriginalNotResident
  | ED_HomeNotRegistered
  | ED_NotOwner (a : Address)
  | ED_SlotTooLarge
  | ED_IllFormedSuccessor
  | ED_DcViolation
  | ED_Mint (e : MintError).

Inductive RetractStaleError := RS_NotBh4 | RS_Nullify (e : NullifyError).

(** *** The [From] conversions: an arm the discipline proves dead is [unreachable!] *)

Definition MakeLinkError_of_home (f : HomeFault) : MakeLinkError :=
  match f with HF_NotRegistered => ML_HomeNotRegistered | HF_NotOwner a => ML_NotOwner a end.

Definition EmitError_of_home (f : HomeFault) : EmitError :=
  match f with HF_NotRegistered => EM_HomeNotRegistered | HF_NotOwner a => EM_NotOwner a end.

Definition NullifyError_of_home (f : HomeFault) : NullifyError :=
  match f with HF_NotRegistered => NU_HomeNotRegistered | HF_NotOwner a => NU_NotOwner a end.

Definition AssertSupError_of_home (f : HomeFault) : AssertSupError :=
  match f with HF_NotRegistered => AS_HomeNotRegistered | HF_NotOwner a => AS_NotOwner a end.

Definition EditLinkError_of_home (f : HomeFault) : EditLinkError :=
  match f with HF_NotRegistered => ED_HomeNotRegistered | HF_NotOwner a => ED_NotOwner a end.

Definition MakeLinkError_of_core (e : EmitCoreError) : outcome MakeLinkError :=
  match e with
  | EC_EmptyType => Done ML_EmptyTypeResolution
  | EC_Home f => Done (MakeLinkError_of_home f)
  | EC_Mint m => Done (ML_Mint m)
  | EC_NotRegistered | EC_ShapeViolation | EC_RetractionClass => Panicked
  end.

Definition EmitError_of_core (e : EmitCoreError) : outcome EmitError :=
  match e with
  | EC_Home f => Done (EmitError_of_home f)
  | EC_NotRegistered => Done EM_NotRegistered
  | EC_ShapeViolation => Done EM_ShapeViolation
  | EC_RetractionClass => Done EM_RetractionClass
  | EC_Mint m => Done (EM_Mint m)
  | EC_EmptyType => Panicked
  end.

Definition NullifyError_of_core (e : EmitCoreError) : outcome NullifyError :=
  match e with
  | EC_Home f => Done (NullifyError_of_home f)
  | EC_Mint m => Done (NU_Mint m)
  | EC_NotRegistered | EC_ShapeViolation | EC_RetractionClass | EC_EmptyType => Panicked
  end.

Definition AssertSupError_of_core (e : EmitCoreError) : outcome AssertSupError :=
  match e with
  | EC_Home f => Done (AssertSupError_of_home f)
  | EC_Mint m => Done (AS_Mint m)
  | EC_NotRegistered | EC_ShapeViolation | EC_RetractionClass | EC_EmptyType => Panicked
  end.

Definition EditLinkError_of_core (e : EmitCoreError) : outcome EditLinkError :=
  match e with
  | EC_EmptyType => Done ED_IllFormedSuccessor
  | EC_Home f => Done (EditLinkError_of_home f)
  | EC_Mint m => Done (ED_Mint m)
  | EC_NotRegistered | EC_ShapeViolation | EC_RetractionClass => Panicked
  end.

Definition AssertSupError_of_schema (f : SupSchemaFault) : outcome AssertSupError :=
  match f with
  | NotResident => Done AS_EndpointNotResident
  | Reflexive => Done AS_SelfSupersession
  | NotSingleDenoted => Panicked
  end.

(** [lift_nullify]. *)
Definition lift_nullify (e : TxnError NullifyError) : TxnError RetractStaleError :=
  match e with
  | Rejected n => Rejected (RS_Nullify n)
  | Durability => Durability
  | Unencodable => Unencodable
  | OverBudget bytes => OverBudget bytes
  | Poisoned => Poisoned
  end.

(** ** The sole-writer commons classes *)

Definition commons_type_at (l : list Nat) : outcome Address :=
  t ← expect_ok (Tumbler_new l); expect_ok (validate t).

Definition replaces_type : Address := total (commons_type_at [1; 1; 0; 1; 0; 1; 0; 3; 12]%N) eq_refl.

Definition correspondence_type : Address := total (commons_type_at [1; 1; 0; 1; 0; 1; 0; 3; 102; 1]%N) eq_refl.

Lemma class_one_done a : is_done (coverage_class (enc [a])) = true.
Proof. by rewrite coverage_class_one. Qed.

Definition replaces_class : CoverageClass := total (coverage_class (enc [replaces_type])) (class_one_done _).

Definition correspondence_class : CoverageClass := total (coverage_class (enc [correspondence_type])) (class_one_done _).

Definition is_replaces_class (ty : Endset) : outcome bool :=
  if is_address_denoting ty then class ← coverage_class ty; Done (bool_decide (class = replaces_class)) else Done false.

Definition is_correspondence_class (ty : Endset) : outcome bool :=
  if is_address_denoting ty then class ← coverage_class ty; Done (bool_decide (class = correspondence_class)) else Done false.

(** ** The tuples deposited *)

Definition emit_tuple (ty : Endset) (from : Address) (to : list Address) : option Link :=
  if (MAX_SLOT_SPANS <? N.of_nat (length to))%N || (MAX_SLOT_SPANS <? N.of_nat (Endset_len ty))%N then None
  else Some (triple (enc [from]) (enc to) ty).

Definition retraction_tuple (home target : Address) : Link :=
  triple (enc [home]) (enc [target]) (reserved_type registry Retraction).

Definition supersession_claim (old new : Address) : Link :=
  triple (enc [old]) (enc [new]) (reserved_type registry Supersedes).

(** ** The lock set *)

Section LockSet.
Context (to_bytes_be : Nat → list N).

Definition deposit_lock_set (value : Link) (home : Address) : outcome (list LockKey) :=
  class ← coverage_class (type_slot value);
  keys ← (if is_idempotent registry class then
            _ ← assert (forallb is_address_denoting (slots value));
            key ← DedupKey_of value;
            lock ← dedup_lock_key to_bytes_be key;
            Done [lock]
          else Done []);
  Done (keys ++ [link_lock_key to_bytes_be home]).
End LockSet.

(** ** The gate *)

Inductive Gate := GateOpen | GateManaged | GateRetraction.

#[export] Instance Gate_eq_dec : EqDecision Gate.
Proof. solve_decision. Defined.

Inductive Deposited := Fresh (a : Address) | Incumbent (a : Address).

Definition Deposited_address (d : Deposited) : Address := match d with Fresh a | Incumbent a => a end.

Definition Deposited_minted (d : Deposited) : outcome Address :=
  match d with Fresh a => Done a | Incumbent _ => Panicked end.

(** Every home registered, then every home owned. *)
Definition home_gate (m3 : M3State) (caller : Caller) (homes : list Address) : result unit HomeFault :=
  if existsb (λ home, negb (is_registered_document m3 home)) homes then Err HF_NotRegistered
  else
    match List.find (λ home, negb (is_owner caller m3 home)) homes with
    | Some home => Err (HF_NotOwner home)
    | None => Ok tt
    end.

Section Ops.
Context {debug : bool} {W R : Type} `{WS : WorldState W R} `{HL : !HasLinked debug W R}.
#[local] Notation Txn := (Txn (W := W) (R := R)).
#[local] Open Scope txn_scope.

(** The Managed and Retraction disciplines: the active incumbent, if there is one. *)
Definition managed_gate (visibility : W → Address → bool) (value : Link) (gate : Gate) : Txn EmitCoreError (option Address) :=
  class ←ₜ from_outcome (coverage_class (type_slot value));
  reg ←ₜ from_result (ok_or (registration registry class) EC_NotRegistered);
  _ ←ₜ refuse_if (bool_decide (gate = GateManaged) && bool_decide (class = shipped_class registry Retraction)) EC_RetractionClass;
  _ ←ₜ refuse_if (negb (sh_conf (shape reg) value)) EC_ShapeViolation;
  if idem reg then
    world ←ₜ working_world;
    key ←ₜ from_outcome (DedupKey_of value);
    from_outcome (active_incumbent (link_slice world) key (visibility world))
  else txn_ret None.

(** The mint of the home's next link address, and the link there. *)
Definition deposit_at (home : Address) (value : Link) : Txn EmitCoreError Address :=
  world ←ₜ working_world;
  minted ←ₜ from_outcome (mint_link (m3 world) home);
  '(addr, m3rec) ←ₜ from_result (map_err EC_Mint minted);
  _ ←ₜ stage (of_linked (RecCore (RecNamespace m3rec)));
  _ ←ₜ stage (of_linked (RecLinks (Deposit (tumbler addr) value)));
  txn_ret addr.

Definition emit_core (visibility : W → Address → bool) (caller : Caller) (home : Address) (value : Link) (gate : Gate) :
    Txn EmitCoreError Deposited :=
  _ ←ₜ from_outcome (assert (arity value =? 3));
  world ←ₜ working_world;
  _ ←ₜ from_result (map_err EC_Home (home_gate (m3 world) caller [home]));
  hit ←ₜ match gate with
    | GateOpen => _ ←ₜ refuse_if (Endset_is_empty (type_slot value)) EC_EmptyType; txn_ret None
    | GateManaged | GateRetraction => managed_gate visibility value gate
    end;
  match hit with
  | Some incumbent => txn_ret (Incumbent incumbent)
  | None => addr ←ₜ deposit_at home value; txn_ret (Fresh addr)
  end.

(** ** The bodies of the operations *)

Definition emit_in (visibility : W → Address → bool) (caller : Caller) (home : Address) (value : Link) : Txn EmitError Address :=
  d ←ₜ SetArr.txn_map_err EmitError_of_core (emit_core visibility caller home value GateManaged);
  txn_ret (Deposited_address d).

Definition nullify_in (visibility : W → Address → bool) (caller : Caller) (home target : Address) (value : Link) :
    Txn NullifyError Address :=
  base ←ₜ base_world;
  _ ←ₜ from_result (map_err NullifyError_of_home (home_gate (m3 base) caller [home]));
  _ ←ₜ refuse_if (negb (is_owner caller (m3 base) target)) (NU_NotOwner target);
  bad ←ₜ (if resident (link_slice base) (tumbler target) then txn_ret false
          else next ←ₜ from_outcome (next_link_address (link_slice base) home); txn_ret (negb (bool_decide (target = next))));
  _ ←ₜ refuse_if bad NU_BadTarget;
  d ←ₜ SetArr.txn_map_err NullifyError_of_core (emit_core visibility caller home value GateRetraction);
  txn_ret (Deposited_address d).

Definition assert_sup_in (visibility : W → Address → bool) (caller : Caller) (home : Address) (value : Link) :
    Txn AssertSupError Address :=
  base ←ₜ base_world;
  _ ←ₜ from_result (map_err AssertSupError_of_home (home_gate (m3 base) caller [home]));
  _ ←ₜ SetArr.txn_map_err AssertSupError_of_schema (from_result (check_sup_schema (link_slice base) value));
  d ←ₜ SetArr.txn_map_err AssertSupError_of_core (emit_core visibility caller home value GateManaged);
  txn_ret (Deposited_address d).

Record Edit := MkEdit { ed_successor : Address; ed_claim : Address }.

Definition editlink_in (visibility : W → Address → bool) (caller : Caller) (original : Address) (successor_value : Link)
    (d_s d_a : Address) : Txn EditLinkError Edit :=
  base ←ₜ base_world;
  _ ←ₜ from_result (map_err EditLinkError_of_home (home_gate (m3 base) caller [d_s; d_a]));
  _ ←ₜ refuse_if (negb (resident (link_slice base) (tumbler original))) ED_OriginalNotResident;
  _ ←ₜ refuse_if (existsb (λ e, (MAX_SLOT_SPANS <? N.of_nat (Endset_len e))%N) (slots successor_value)) ED_SlotTooLarge;
  _ ←ₜ refuse_if (negb ((arity successor_value =? 3) && forallb Endset_is_level_uniform (slots successor_value))) ED_IllFormedSuccessor;
  class ←ₜ from_outcome (coverage_class (type_slot successor_value));
  _ ←ₜ refuse_if (bool_decide (class = shipped_class registry Retraction) || bool_decide (class = replaces_class)
         || bool_decide (class = correspondence_class)) ED_DcViolation;
  _ ←ₜ refuse_if (bool_decide (class = shipped_class registry Supersedes)
         && negb (is_ok (check_sup_schema (link_slice base) successor_value))) ED_DcViolation;
  d ←ₜ SetArr.txn_map_err EditLinkError_of_core (emit_core visibility caller d_s successor_value GateOpen);
  successor ←ₜ from_outcome (Deposited_minted d);
  let claim_value := supersession_claim original successor in
  d ←ₜ SetArr.txn_map_err EditLinkError_of_core (emit_core visibility caller d_a claim_value GateManaged);
  claim ←ₜ from_outcome (Deposited_minted d);
  txn_ret (MkEdit successor claim).
End Ops.

(** ** MAKELINK's slots *)

Inductive SlotArg :=
  | SlotResolve (specs : list VSpec)
  | SlotAddrs (addrs : list Address)
  | SlotSpans (spans : list Span).

Definition SlotArg_specs (arg : SlotArg) : list VSpec :=
  match arg with SlotResolve specs => specs | SlotAddrs _ | SlotSpans _ => [] end.

Definition is_content_ispan (span : Span) : outcome bool :=
  match validate (start span) with
  | Err _ => Done false
  | Ok start =>
      if negb (bool_decide (subspace start = Some content_subspace)) then Done false
      else
        match Tumbler_get (width span) (Tumbler_len (width span)) with
        | None => Done false
        | Some count =>
            match Run_new start count with
            | Err _ => Done false
            | Ok run => extent ← iextent run; Done (bool_decide (extent = span))
            end
        end
  end.

(** [iter().position(..)], [index] counting up. *)
Fixpoint ill_formed_from (index : nat) (spans : list Span) : outcome (option nat) :=
  match spans with
  | [] => Done None
  | span :: spans =>
      content ← is_content_ispan span;
      if (content : bool) then ill_formed_from (S index) spans else Done (Some index)
  end.

Definition ill_formed_span (spans : list Span) : outcome (option nat) := ill_formed_from 0 spans.

(** The first offending I-span of the slots, in their declared order. *)
Fixpoint ill_formed_slot (slots : list (nat * SlotArg)) : outcome (option (nat * nat)) :=
  match slots with
  | [] => Done None
  | (slot, SlotSpans spans) :: slots =>
      bad ← ill_formed_span spans;
      match bad with
      | Some index => Done (Some (slot, index))
      | None => ill_formed_slot slots
      end
  | _ :: slots => ill_formed_slot slots
  end.

Definition is_wf_content_spec (m3 : M3State) (spec : VSpec) : bool :=
  is_registered_document m3 (vs_source spec) &&
  match as_ordinal_vspan (vs_span spec) with Some v => OrdinalVSpan_is_content v | None => false end.

(** The inner loop: a run at a time, until the slot is full. *)
Fixpoint keep_runs (spans : list Span) (runs : list Run) : outcome (option (list Span)) :=
  match runs with
  | [] => Done (Some spans)
  | run :: runs =>
      if (N.of_nat (length spans) =? MAX_SLOT_SPANS)%N then Done None
      else extent ← iextent run; keep_runs (spans ++ [extent]) runs
  end.

(** The outer loop: the work charged ahead of each resolution, saturating. *)
Fixpoint resolve_slot (m5 : M5State) (specs : list VSpec) (spans : list Span) (steps : N) : outcome (option (list Span)) :=
  match specs with
  | [] => Done (Some spans)
  | spec :: specs =>
      let steps := N.min (steps + N.of_nat (content_run_count m5 (vs_source spec))) u64_max in
      if (MAX_SLOT_RESOLVE_STEPS <? steps)%N then Done None
      else
        runs ← iter_resolve m5 (vs_source spec) (vs_span spec);
        kept ← keep_runs spans runs;
        match kept with
        | None => Done None
        | Some spans => resolve_slot m5 specs spans steps
        end
  end.

Definition slot_endset (m5 : M5State) (arg : SlotArg) : outcome (option Endset) :=
  match arg with
  | SlotResolve specs => spans ← resolve_slot m5 specs [] 0; Done (option_map from_spans spans)
  | SlotAddrs addrs => Done (if (N.of_nat (length addrs) <=? MAX_SLOT_SPANS)%N then Some (enc addrs) else None)
  | SlotSpans spans => Done (if (N.of_nat (length spans) <=? MAX_SLOT_SPANS)%N then Some (from_spans spans) else None)
  end.

Section MakeLink.
Context {debug : bool} {W R : Type} `{WS : WorldState W R} `{HL : !HasLinked debug W R}.
#[local] Notation Txn := (Txn (W := W) (R := R)).
#[local] Open Scope txn_scope.

Definition endset_of (base : W) (arg : SlotArg) : Txn MakeLinkError Endset :=
  e ←ₜ from_outcome (slot_endset (m5 base) arg);
  from_result (ok_or e ML_SlotTooLarge).

Definition not_content_span (bad : option (nat * nat)) : result unit MakeLinkError :=
  match bad with Some (slot, index) => Err (ML_NotContentSpan slot index) | None => Ok tt end.

(** The four sole-writer fences. *)
Definition record_fences (e3 : Endset) : Txn MakeLinkError unit :=
  class ←ₜ from_outcome (coverage_class e3);
  _ ←ₜ refuse_if (bool_decide (class = shipped_class registry Retraction)) ML_RetractionClass;
  _ ←ₜ refuse_if (bool_decide (class = shipped_class registry Supersedes)) ML_SupersessionClass;
  _ ←ₜ refuse_if (bool_decide (class = replaces_class)) ML_ReplacesClass;
  refuse_if (bool_decide (class = correspondence_class)) ML_CorrespondenceClass.

(** A link minted under the open gate, and its seat. *)
Definition deposit_and_seat (visibility : W → Address → bool) (caller : Caller) (home : Address) (value : Link) :
    Txn MakeLinkError Address :=
  d ←ₜ SetArr.txn_map_err MakeLinkError_of_core (emit_core visibility caller home value GateOpen);
  addr ←ₜ from_outcome (Deposited_minted d);
  world ←ₜ working_world;
  seat ←ₜ from_outcome (stage_seat_link (m5 world) home addr);
  seat ←ₜ from_result (map_err ML_Seat seat);
  _ ←ₜ stage (of_core (RecArrangement seat));
  txn_ret addr.

Definition stage_record (visibility : W → Address → bool) (caller : Caller) (home : Address) (from to ty : SlotArg) :
    Txn MakeLinkError Address :=
  base ←ₜ base_world;
  _ ←ₜ from_result (map_err MakeLinkError_of_home (home_gate (m3 base) caller [home]));
  _ ←ₜ refuse_if (negb (forallb (is_wf_content_spec (m3 base)) (SlotArg_specs from ++ SlotArg_specs to ++ SlotArg_specs ty))) ML_IllFormedSpec;
  bad ←ₜ from_outcome (ill_formed_slot [(FROM, from); (TO, to); (TYPE, ty)]);
  _ ←ₜ from_result (not_content_span bad);
  e1 ←ₜ endset_of base from;
  e2 ←ₜ endset_of base to;
  e3 ←ₜ endset_of base ty;
  _ ←ₜ record_fences e3;
  deposit_and_seat visibility caller home (triple e1 e2 e3).

Definition replacing_in (visibility : W → Address → bool) (caller : Caller) (home : Address) (from to ty : SlotArg)
    (replaces : Address) : Txn MakeLinkError Address :=
  record ←ₜ stage_record visibility caller home from to ty;
  _ ←ₜ deposit_and_seat visibility caller home (triple (enc [record]) (enc [replaces]) (enc [replaces_type]));
  txn_ret record.
End MakeLink.

(** ** The operations, over the kernel *)

(** [LinkWriter]: the visibility class its writes run at; the attestation a commit's
    marker carries is below the model. *)
Section Kernel.
Context {debug : bool} {W R Bytes : Type} `{WS : WorldState W R} `{HL : !HasLinked debug W R}.
Context (encode_record : R → Bytes) (to_bytes_be : Nat → list N) (visibility : W → Address → bool).
#[local] Notation Kernel := (Kernel (W := W) (Bytes := Bytes)).
#[local] Notation Call T E := (outcome (Kernel * CallEnd T E)).

Definition rejected {T E} (k : Kernel) (e : E) : Call T E := Done (k, Returned (Err (Rejected e))).

Definition emit (k : Kernel) (answer : CommitAnswer) (caller : Caller) (home : Address) (ty : Endset) (from : Address)
    (to : list Address) : Call Address EmitError :=
  if negb (is_address_denoting ty) then rejected k EM_NonAddressDenotingType
  else
    class ← coverage_class ty;
    if bool_decide (class = shipped_class registry Supersedes) then rejected k EM_SupersessionClass
    else if bool_decide (class = replaces_class) then rejected k EM_ReplacesClass
    else if bool_decide (class = correspondence_class) then rejected k EM_CorrespondenceClass
    else
      match emit_tuple ty from to with
      | None => rejected k EM_SlotTooLarge
      | Some value =>
          _ ← deposit_lock_set to_bytes_be value home;
          transact encode_record k answer (emit_in visibility caller home value)
      end.

Definition nullify (k : Kernel) (answer : CommitAnswer) (caller : Caller) (home target : Address) :
    Call Address NullifyError :=
  let value := retraction_tuple home target in
  _ ← deposit_lock_set to_bytes_be value home;
  transact encode_record k answer (nullify_in visibility caller home target value).

(** What the batch answers: its results, or the error that stopped it; nothing where a
    commit's panic propagates. *)
#[local] Notation Batch := (outcome (Kernel * option (result (list (Address * Seq)) (TxnError RetractStaleError)))).

(** [retract_stale]'s loop: one transaction a target, the disk answering each. *)
Fixpoint nullify_each (k : Kernel) (answers : nat → CommitAnswer) (caller : Caller) (d_retr : Address)
    (stale : list Address) (out : list (Address * Seq)) : Batch :=
  match stale with
  | [] => Done (k, Some (Ok out))
  | target :: stale =>
      '(k, e) ← nullify k (answers (length out)) caller d_retr target;
      match e with
      | Returned (Ok done) => nullify_each k answers caller d_retr stale (out ++ [done])
      | Returned (Err er) => Done (k, Some (Err (lift_nullify er)))
      | Propagated => Done (k, None)
      end
  end.

Definition retract_stale (k : Kernel) (answers : nat → CommitAnswer) (caller : Caller) (d_retr : Address) (ty : Endset)
    (horizon : N) : Batch :=
  targets ← stale (link_slice (c_world (snapshot k))) ty horizon;
  match targets with
  | Err NotBh4_ => Done (k, Some (Err (Rejected RS_NotBh4)))
  | Ok targets => nullify_each k answers caller d_retr targets []
  end.

Definition assert_sup (k : Kernel) (answer : CommitAnswer) (caller : Caller) (home old new : Address) :
    Call Address AssertSupError :=
  let value := supersession_claim old new in
  _ ← deposit_lock_set to_bytes_be value home;
  transact encode_record k answer (assert_sup_in visibility caller home value).

Definition editlink (k : Kernel) (answer : CommitAnswer) (caller : Caller) (original : Address) (successor_value : Link)
    (d_s d_a : Address) : Call Edit EditLinkError :=
  transact encode_record k answer (editlink_in visibility caller original successor_value d_s d_a).

Definition makelink (k : Kernel) (answer : CommitAnswer) (caller : Caller) (home : Address) (from to ty : SlotArg) :
    Call Address MakeLinkError :=
  transact encode_record k answer (stage_record visibility caller home from to ty).

Definition makelink_replacing (k : Kernel) (answer : CommitAnswer) (caller : Caller) (home : Address) (from to ty : SlotArg)
    (replaces : Address) : Call Address MakeLinkError :=
  transact encode_record k answer (replacing_in visibility caller home from to ty replaces).
End Kernel.
