(* ===== verification/LinkGate.v ===== *)
(** * The deposit gate, step by step

    What [emit_core] does on any store that holds the invariant: the two questions of
    the home, the discipline's own refusals in their order, and then one of two
    outcomes, the least active incumbent the caller can read, or a fresh link at the
    home's next address; and a whole call over the linked slices. *)

From stdpp Require Import gmap sorting.
From S2P Require Import Prelude Txns Tumblers Addresses AddrMaps Arith NsKeys NsState NsLaws NsOps NsInv NsCalls Runs Content RunLists Provenance ArrState Views World Edits EditInv EditSteps EditCalls VersionCalls SetArrCalls.
From S2P Require Import OrdSets Spans Endsets ClassLaws TypeRegistry LinkState LinkStateLaws LinkReads LinkFind LinkChains LinkWorld LinkWrites.

#[local] Arguments apply_m3 : simpl never.
#[local] Arguments effective_frontier : simpl never.
#[local] Arguments deposit_at : simpl never.
#[local] Open Scope txn_scope.

(** ** The incumbent *)

(** An active link of the value's identity, homed where the caller may read. *)
Definition incumbent (s : LinkState) (visible : Address → bool) (v : Link) (t : Tumbler) : Prop :=
  ∃ w k d, links s !! t = Some w ∧ DedupKey_of v = Done k ∧ DedupKey_of w = Done k ∧
    nullified s t = false ∧ homed t d ∧ visible d = true.

Definition least_incumbent (s : LinkState) (visible : Address → bool) (v : Link) (a : Address) : Prop :=
  incumbent s visible v (tumbler a) ∧ ∀ t, incumbent s visible v t → tumbler a ≤ₜ t.

Lemma find_readable_ok (f : Address → bool) keys :
  StronglySorted olt keys → (∀ t, t ∈ keys → is_ok (validate t) = true ∧ ∃ d, homed t d) →
  ∃ r, find_readable f keys = Done r ∧
    match r with
    | Some a => (tumbler a ∈ keys ∧ ∃ d, homed (tumbler a) d ∧ f d = true) ∧
        ∀ t d, t ∈ keys → homed t d → f d = true → tumbler a ≤ₜ t
    | None => ∀ t d, t ∈ keys → homed t d → f d = false
    end.
Proof.
  induction 1 as [|t keys Hs IH Ht]; intros Hk; cbn [find_readable].
  { exists None. split; [done|]. by intros t d ?%not_elem_of_nil. }
  destruct (Hk t ltac:(by left)) as [Hv [d Hd]]. unfold lift. destruct (validate t) as [a|] eqn:Ea; [|done].
  cbn [expect_ok mbind outcome_bind]. rewrite (homed_document t a d Ea Hd). cbn [expect_some mbind outcome_bind].
  apply validate_Ok in Ea. destruct (f d) eqn:Ef.
  - exists (Some a). split; [done|]. rewrite Ea. split; [split; [by left|by exists d]|].
    intros u e [->|Hu]%elem_of_cons _ _; [torder|]. rewrite Forall_forall in Ht. apply ole_lt_eq. left. by apply Ht.
  - destruct IH as (r & -> & Hr); [intros; apply Hk; by right|]. exists r. split; [done|]. destruct r as [b|].
    + destruct Hr as [[Hb Hd'] Hleast]. split; [split; [by right|done]|].
      intros u e [->|Hu]%elem_of_cons He Hfe; [|by eapply Hleast]. pose proof (homed_unique t d e Hd He). congruence.
    + intros u e [->|Hu]%elem_of_cons He; [|by eapply Hr]. by rewrite (homed_unique t e d He Hd).
Qed.

Lemma linked_key_ok u t : linked_ok u → is_Some (links (ls_links u) !! t) → is_ok (validate t) = true ∧ ∃ d, homed t d.
Proof. intros Hok (a & d & -> & Hd & _)%(lo_homes _ Hok). rewrite validate_self. split; [done|by exists d]. Qed.

Lemma key_type_class v c k : coverage_class (type_slot v) = Done c → DedupKey_of v = Done k → dk_ty k = c.
Proof.
  unfold DedupKey_of. intros ->. cbn [mbind outcome_bind]. intros (f & _ & (g & _ & [= <-])%bind_inv)%bind_inv. done.
Qed.

Lemma key_has_class v k : DedupKey_of v = Done k → coverage_class (type_slot v) = Done (dk_ty k).
Proof. unfold DedupKey_of. intros (c & Hc & (f & _ & (g & _ & [= <-])%bind_inv)%bind_inv)%bind_inv. exact Hc. Qed.

Lemma key_slots v k : DedupKey_of v = Done k → coverage_class (from_slot v) = Done (dk_from k) ∧ coverage_class (to_slot v) = Done (dk_to k).
Proof. unfold DedupKey_of. intros (c & _ & (f & Hf & (g & Hg & [= <-])%bind_inv)%bind_inv)%bind_inv. done. Qed.

Lemma active_incumbent_ok u visible v k :
  linked_ok u → DedupKey_of v = Done k → is_idempotent registry (dk_ty k) = true →
  ∃ r, active_incumbent (ls_links u) k visible = Done r ∧
    match r with
    | Some a => least_incumbent (ls_links u) visible v a
    | None => ∀ t, ¬ incumbent (ls_links u) visible v t
    end.
Proof.
  intros Hok Hk Hi. pose proof (ho_dedup _ _ (proj1 (lo_store _ Hok))) as Hg.
  assert (Hkeyed : ∀ t, keyed (links (ls_links u)) k t ↔ ∃ w, links (ls_links u) !! t = Some w ∧ DedupKey_of w = Done k).
  { intros t. split; [intros (w & c & [Hw _] & _ & Hkw); exists w; exact (conj Hw Hkw)|]. intros (w & Hw & Hkw). exists w, (dk_ty k).
    split; [split; [exact Hw|exact (key_has_class w k Hkw)]|]. split; [exact Hi|exact Hkw]. }
  clear Hi. unfold active_incumbent. destruct (dedup (hints (ls_links u)) !! k) as [keys|] eqn:E.
  - pose proof (ga_elem _ _ _ Hg k keys E) as Hin. change (ord_elements keys) with (ord_list keys).
    assert (Hel : ∀ t, t ∈ List.filter (λ t, negb (nullified (ls_links u) t)) (ord_list keys) ↔
      (∃ w, links (ls_links u) !! t = Some w ∧ DedupKey_of w = Done k) ∧ nullified (ls_links u) t = false).
    { intros t. rewrite list_elem_of_In, filter_In, <- list_elem_of_In, elem_of_ord_list, Hin, Hkeyed. by rewrite negb_true_iff. }
    destruct (find_readable_ok visible (List.filter (λ t, negb (nullified (ls_links u) t)) (ord_list keys))) as (r & -> & Hr).
    { apply filter_strict, ord_list_strict. }
    { intros t [(w & Hw & _) _]%Hel. apply (linked_key_ok u); [done|by exists w]. }
    exists r. split; [done|]. destruct r as [a|].
    + destruct Hr as [[Ha (d & Hd & Hf)] Hleast]. apply Hel in Ha as [(w & Hw & Hkw) Hn]. split; [by exists w, k, d|].
      intros t (w' & k' & d' & Hw' & Hkv & Hkw' & Hn' & Hd' & Hf'). rewrite Hk in Hkv. injection Hkv as <-.
      apply (Hleast t d'); [|done..]. apply Hel. split; [by exists w'|done].
    + intros t (w & k' & d & Hw & Hkv & Hkw & Hn & Hd & Hf). rewrite Hk in Hkv. injection Hkv as <-.
      rewrite (Hr t d) in Hf; [done| |done]. apply Hel. split; [by exists w|done].
  - exists None. split; [done|]. intros t (w & k' & d & Hw & Hkv & Hkw & _). rewrite Hk in Hkv. injection Hkv as <-.
    destruct (proj2 (ga_key _ _ _ Hg k)) as [? ?]; [|congruence]. exists t. apply Hkeyed. by exists w.
Qed.

(** ** The gate's own refusals, and its outcome *)

Definition home_gates {E} (of_home : HomeFault → E) (ns : M3State) (caller : Caller) (home : Address) : list (E * Prop) :=
  [(of_home HF_NotRegistered, is_registered_document ns home = false);
   (of_home (HF_NotOwner home), ¬ owns ns caller home)].

Definition class_is (v : Link) (ty : ShippedType) : Prop := coverage_class (type_slot v) = Done (shipped_class registry ty).

Lemma class_is_inj v t u : class_is v t → class_is v u → t = u.
Proof. unfold class_is. intros Ht Hu. rewrite Ht in Hu. by apply Done_inj, shipped_class_inj in Hu. Qed.

Definition discipline_gates (v : Link) (gate : Gate) : list (EmitCoreError * Prop) :=
  match gate with
  | GateOpen => [(EC_EmptyType, endset_spans (type_slot v) = [])]
  | GateManaged | GateRetraction =>
      [(EC_NotRegistered, ∀ ty, ¬ class_is v ty);
       (EC_RetractionClass, gate = GateManaged ∧ class_is v Retraction);
       (EC_ShapeViolation, ∃ ty, class_is v ty ∧ sh_conf (shape (shipped_registration ty)) v = false)]
  end.

Definition core_gates (u : LinkedSlices) (caller : Caller) (home : Address) (v : Link) (gate : Gate) :
    list (EmitCoreError * Prop) :=
  home_gates EC_Home (ls_namespace u) caller home ++ discipline_gates v gate.

Definition emitted (u : LinkedSlices) (visible : Address → bool) (home : Address) (v : Link) (gate : Gate) (d : Deposited)
    (u' : LinkedSlices) : Prop :=
  match d with
  | Incumbent a => gate ≠ GateOpen ∧ least_incumbent (ls_links u) visible v a ∧ u' = u
  | Fresh a => (gate ≠ GateOpen → ∀ t, ¬ incumbent (ls_links u) visible v t) ∧ deposited u home v a u'
  end.

Lemma home_gate_one ns caller home :
  home_gate ns caller [home] =
  if negb (is_registered_document ns home) then Err HF_NotRegistered
  else if negb (is_owner caller ns home) then Err (HF_NotOwner home) else Ok tt.
Proof. unfold home_gate. cbn. rewrite orb_false_r. by destruct (is_registered_document ns home), (is_owner caller ns home). Qed.

Lemma shipped_registration_idem ty : idem (shipped_registration ty) = true.
Proof. by destruct ty. Qed.

Lemma is_idempotent_shipped ty : is_idempotent registry (shipped_class registry ty) = true.
Proof. unfold is_idempotent. rewrite registration_shipped. apply shipped_registration_idem. Qed.

Lemma registration_cases c :
  (∃ ty, c = shipped_class registry ty ∧ registration registry c = Some (shipped_registration ty)) ∨
  (registration registry c = None ∧ ∀ ty, c ≠ shipped_class registry ty).
Proof.
  assert (Hsome : ∀ o : option Registration, registration registry c = o →
    match o with
    | Some reg => ∃ ty, c = shipped_class registry ty ∧ o = Some (shipped_registration ty)
    | None => ∀ ty, c ≠ shipped_class registry ty
    end).
  { intros [reg|] E.
    - destruct registry_built as (_ & _ & H). apply H in E as (ty & <- & <-). exists ty. exact (conj eq_refl eq_refl).
    - intros ty Ety. rewrite Ety, registration_shipped in E. discriminate E. }
  specialize (Hsome _ eq_refl). destruct (registration registry c) as [reg|]; [left; exact Hsome|right]. exact (conj eq_refl Hsome).
Qed.

Section Gate.
Context {debug : bool} {W R : Type} `{WS : WorldState W R} `{HL : !HasLinked debug W R}.
#[local] Notation Staging := (Staging (W := W) (R := R)).
#[local] Notation Txn := (Txn (W := W) (R := R)).

Lemma on_linked_push s rs (stg : Staging) r (P : LinkedSlices → Prop) :
  on_linked s rs stg → (∀ at_, ∃ s', apply_linked debug (lview stg) at_ r = Done s' ∧ P s') →
  ∃ stg', push stg (of_linked r) = Done stg' ∧ on_linked s (rs ++ [r]) stg' ∧ P (lview stg') ∧ stg_base stg' = stg_base stg.
Proof using. apply on_view_push, linked_fold. Qed.

Lemma spec_gate {E B} (m : Txn E unit) (b : bool) (e : E) (P : Prop) (f : unit → Txn E B) stg gates Q :
  m stg = Done (if b then Err e else Ok tt, stg) → (b = true ↔ P) → (b = false → txn_spec (f tt) stg gates Q) →
  txn_spec (txn_bind m f) stg ((e, P) :: gates) Q.
Proof using.
  intros Hm HP Hf. assert (Hr : txn_bind m f stg = txn_bind (refuse_if b e) f stg).
  { unfold txn_bind. rewrite Hm. by destruct b. }
  unfold txn_spec. rewrite Hr. by apply spec_refuse.
Qed.

(** The home's two questions, in an operation's own words. *)
Lemma spec_home {E B} (of_home : HomeFault → E) ns caller home (f : unit → Txn E B) stg gates Q :
  (is_registered_document ns home = true → owns ns caller home → txn_spec (f tt) stg gates Q) →
  txn_spec (txn_bind (from_result (map_err of_home (home_gate ns caller [home]))) f) stg
    (home_gates of_home ns caller home ++ gates) Q.
Proof using.
  intros Hf. rewrite home_gate_one. unfold home_gates. cbn [app].
  destruct (is_registered_document ns home) eqn:Hd; cbn [negb].
  2: { by apply first_refusal_here. }
  assert (Hb : ∀ b : bool, b = is_owner caller ns home → txn_spec (txn_bind (from_result (map_err of_home
    (if negb b then Err (HF_NotOwner home) else Ok tt))) f) stg ((of_home (HF_NotOwner home), ¬ owns ns caller home) :: gates) Q).
  { intros b Eb. apply (spec_gate _ (negb b)); [by destruct b| |].
    - rewrite negb_true_iff, Eb. rewrite <- is_owner_ok. by destruct (is_owner caller ns home).
    - intros ->%negb_false_iff. apply Hf; [done|]. by apply is_owner_ok. }
  specialize (Hb _ eq_refl). unfold txn_spec in *. destruct (txn_bind _ _ stg) as [[[a|e] stg']|]; [|by apply first_refusal_next|done].
  destruct Hb as [? ?]. split; [|done]. by constructor.
Qed.

(** *** The deposit *)

Lemma deposit_at_spec s rs (stg : Staging) home v :
  let u := lview stg in
  on_linked s rs stg → linked_ok u → is_registered_document (ls_namespace u) home = true → storable u home v →
  ∃ a stg' rs', deposit_at home v stg = Done (Ok a, stg') ∧ on_linked s (rs ++ rs') stg' ∧ linked_ok (lview stg') ∧
    deposited u home v a (lview stg') ∧ stg_base stg' = stg_base stg.
Proof using.
  cbv zeta. intros Hon Hok Hd Hst. destruct (deposit_steps debug (lview stg) home v Hok Hd Hst) as (a & r & Hm & Hstep).
  destruct (on_linked_push s rs stg (RecCore (RecNamespace r)) _ Hon Hstep) as (stg1 & Hp1 & Hon1 & Hstep1 & Hb1).
  destruct (on_linked_push s _ stg1 (RecLinks (Deposit (tumbler a) v)) _ Hon1 Hstep1) as (stg2 & Hp2 & Hon2 & [Hdep Hok2] & Hb2).
  exists a, stg2, [RecCore (RecNamespace r); RecLinks (Deposit (tumbler a) v)]. split_and!; try done.
  - unfold deposit_at, txn_bind, working_world, from_outcome, from_result, stage. cbn [mbind outcome_bind].
    change (m3 (working stg)) with (ls_namespace (lview stg)). rewrite Hm. cbn [mbind outcome_bind map_err].
    rewrite Hp1. cbn [mbind outcome_bind]. rewrite Hp2. reflexivity.
  - by rewrite <- app_assoc in Hon2.
  - congruence.
Qed.

Definition emits (visibility : W → Address → bool) (s : LinkedSlices) (rs : list LinkedRec) (stg : Staging) (home : Address)
    (v : Link) (gate : Gate) (d : Deposited) (stg' : Staging) : Prop :=
  ∃ rs', on_linked s (rs ++ rs') stg' ∧ linked_ok (lview stg') ∧ stg_base stg' = stg_base stg ∧
    emitted (lview stg) (visibility (working stg)) home v gate d (lview stg') ∧
    match d with Incumbent _ => rs' = [] ∧ stg' = stg | Fresh _ => True end.

(** The last step of the gate, on either discipline. *)
Lemma spec_outcome_of visibility s rs (stg : Staging) home v gate (r : option Address) :
  let u := lview stg in
  on_linked s rs stg → linked_ok u → is_registered_document (ls_namespace u) home = true → storable u home v →
  match r with
  | Some a => gate ≠ GateOpen ∧ least_incumbent (ls_links u) (visibility (working stg)) v a
  | None => gate ≠ GateOpen → ∀ t, ¬ incumbent (ls_links u) (visibility (working stg)) v t
  end →
  txn_spec (match r with
    | Some incumbent => txn_ret (Incumbent incumbent)
    | None => addr ←ₜ deposit_at home v; txn_ret (Fresh addr)
    end : Txn EmitCoreError Deposited) stg [] (emits visibility s rs stg home v gate).
Proof using.
  cbv zeta. intros Hon Hok Hd Hst Hr. destruct r as [a|].
  - apply spec_ret. exists []. rewrite app_nil_r. destruct Hr. by split_and!.
  - destruct (deposit_at_spec s rs stg home v Hon Hok Hd Hst) as (a & stg' & rs' & Hrun & ? & ? & ? & ?).
    eapply spec_bind; [exact Hrun|]. apply spec_ret. exists rs'. by split_and!.
Qed.

Lemma managed_gate_spec visibility (stg : Staging) v gate {B} (f : option Address → Txn EmitCoreError B) Q :
  let u := lview stg in
  gate ≠ GateOpen → linked_ok u → (∃ k, DedupKey_of v = Done k) →
  (∀ r, Forall (λ g, ¬ g.2) (discipline_gates v gate) →
    match r with
    | Some a => least_incumbent (ls_links u) (visibility (working stg)) v a
    | None => ∀ t, ¬ incumbent (ls_links u) (visibility (working stg)) v t
    end → txn_spec (f r) stg [] Q) →
  txn_spec (txn_bind (managed_gate visibility v gate) f) stg (discipline_gates v gate) Q.
Proof using.
  cbv zeta. intros Hg Hok [k Hk]. pose proof (key_has_class v k Hk) as Hc.
  assert (discipline_gates v gate = [(EC_NotRegistered, ∀ ty, ¬ class_is v ty); (EC_RetractionClass, gate = GateManaged ∧ class_is v Retraction);
     (EC_ShapeViolation, ∃ ty, class_is v ty ∧ sh_conf (shape (shipped_registration ty)) v = false)]) as -> by (destruct gate; [destruct Hg|..]; reflexivity).
  unfold managed_gate, class_is. rewrite Hc. intros Hf.
  destruct (registration_cases (dk_ty k)) as [(ty & Ety & Hreg)|[Hreg Hno]].
  2: { unfold txn_spec, txn_bind, from_outcome, from_result. cbn [mbind outcome_bind]. rewrite Hreg. cbn [ok_or mbind outcome_bind].
    apply first_refusal_here. intros ty [= E]. exact (Hno ty E). }
  assert (Hn0 : ¬ ∀ t, Done (dk_ty k) ≠ Done (shipped_class registry t)) by (intros H; apply (H ty); rewrite Ety; reflexivity).
  unfold txn_spec, txn_bind, from_outcome, from_result, refuse_if. cbn [mbind outcome_bind]. rewrite Hreg. cbn [ok_or mbind outcome_bind].
  destruct (bool_decide (gate = GateManaged) && bool_decide (dk_ty k = shipped_class registry Retraction)) eqn:Er.
  { apply andb_true_iff in Er as [E1%bool_decide_eq_true E2%bool_decide_eq_true].
    apply first_refusal_next; [exact Hn0|]. apply first_refusal_here. rewrite E2. exact (conj E1 eq_refl). }
  assert (Hn1 : ¬ (gate = GateManaged ∧ Done (dk_ty k) = Done (shipped_class registry Retraction))).
  { intros [E1 [= E2]]. rewrite (bool_decide_eq_true_2 _ E1), (bool_decide_eq_true_2 _ E2) in Er. discriminate Er. }
  cbn [txn_ret mbind outcome_bind]. destruct (sh_conf (shape (shipped_registration ty)) v) eqn:Es; cbn [negb].
  2: { cbn. apply first_refusal_next; [exact Hn0|]. apply first_refusal_next; [exact Hn1|]. apply first_refusal_here.
    exists ty. rewrite Ety. exact (conj eq_refl Es). }
  assert (Hn2 : ¬ ∃ t, Done (dk_ty k) = Done (shipped_class registry t) ∧ sh_conf (shape (shipped_registration t)) v = false).
  { intros (t & [= E] & Hs). rewrite Ety in E. apply shipped_class_inj in E as <-. rewrite Es in Hs. discriminate Hs. }
  cbn [txn_ret mbind outcome_bind]. rewrite shipped_registration_idem. unfold working_world. cbn [mbind outcome_bind]. rewrite Hk. cbn [mbind outcome_bind].
  change (link_slice (working stg)) with (ls_links (lview stg)).
  destruct (active_incumbent_ok (lview stg) (visibility (working stg)) v k Hok Hk) as (r & -> & Hr);
    [rewrite Ety; apply is_idempotent_shipped|]. cbn [mbind outcome_bind].
  assert (Hall : Forall (λ g : EmitCoreError * Prop, ¬ g.2) [(EC_NotRegistered, ∀ ty, Done (dk_ty k) ≠ Done (shipped_class registry ty));
    (EC_RetractionClass, gate = GateManaged ∧ Done (dk_ty k) = Done (shipped_class registry Retraction));
    (EC_ShapeViolation, ∃ ty, Done (dk_ty k) = Done (shipped_class registry ty) ∧ sh_conf (shape (shipped_registration ty)) v = false)]).
  { constructor; [exact Hn0|]. constructor; [exact Hn1|]. constructor; [exact Hn2|constructor]. }
  specialize (Hf r Hall Hr). unfold txn_spec in Hf. destruct (f r stg) as [[[b|e] stg']|].
  - destruct Hf as [_ HQ]. exact (conj Hall HQ).
  - apply first_refusal_nil in Hf. destruct Hf.
  - destruct Hf.
Qed.

Lemma emit_core_spec visibility s rs (stg : Staging) caller home v gate :
  let u := lview stg in
  on_linked s rs stg → linked_ok u → slots_uniform v → arity v = 3 →
  (Forall (λ g, ¬ g.2) (core_gates u caller home v gate) → storable u home v) →
  txn_spec (emit_core visibility caller home v gate) stg (core_gates u caller home v gate) (emits visibility s rs stg home v gate).
Proof using.
  cbv zeta. intros Hon Hok Hu Har Hst. unfold emit_core. eapply spec_outcome; [by rewrite Har|]. apply spec_working.
  unfold core_gates in *. apply spec_home. intros Hd Ho.
  assert (Hst' : Forall (λ g, ¬ g.2) (discipline_gates v gate) → storable (lview stg) home v).
  { intros Hg. apply Hst, Forall_app. split; [|exact Hg]. constructor; [cbn; congruence|]. constructor; [cbn; tauto|constructor]. }
  clear Hst. destruct gate.
  - assert (Hb : Endset_is_empty (type_slot v) = true ↔ endset_spans (type_slot v) = []).
    { unfold Endset_is_empty. by destruct (endset_spans (type_slot v)). }
    assert (Hrun : txn_spec (txn_bind (refuse_if (Endset_is_empty (type_slot v)) EC_EmptyType) (λ _ : unit, addr ←ₜ deposit_at home v; txn_ret (Fresh addr)))
      stg (discipline_gates v GateOpen) (emits visibility s rs stg home v GateOpen)).
    { apply spec_refuse; [exact Hb|]. intros Hne. apply (spec_outcome_of visibility s rs stg home v GateOpen None); [done..| |done].
      apply Hst'. constructor; [|constructor]. cbn. rewrite <- Hb, Hne. discriminate. }
    unfold txn_spec, txn_bind, refuse_if in *. by destruct (Endset_is_empty (type_slot v)).
  - apply managed_gate_spec; [done|done|by apply uniform_key|].
    intros r Hg Hr. apply spec_outcome_of; [done..|by apply Hst'|]. destruct r; [by split|by intros _].
  - apply managed_gate_spec; [done|done|by apply uniform_key|].
    intros r Hg Hr. apply spec_outcome_of; [done..|by apply Hst'|]. destruct r; [by split|by intros _].
Qed.
End Gate.
