(* ===== verification/LinkCalls.v ===== *)
(** * Whole calls over the linked slices

    What the link store's operations share past the gate: a body run as a transaction,
    with the refusals its conversions keep; the pre-work gates; the lock set; and what
    one deposit leaves of the tombstones and the claims. *)

From stdpp Require Import gmap sorting.
From S2P Require Import Prelude Txns Tumblers Addresses AddrMaps Arith NsKeys NsState NsLaws NsOps NsInv NsCalls Runs Content RunLists Provenance ArrState Views World Edits EditInv EditSteps EditCalls VersionCalls SetArrCalls.
From S2P Require Import OrdSets Spans Endsets ClassLaws TypeRegistry LinkState LinkStateLaws LinkReads LinkFind LinkChains Supersession LinkWorld LinkWrites LinkGate.

#[local] Opaque registry.
#[local] Open Scope txn_scope.

(** ** Refusals converted *)

(** Each gate in the operation's own words, the dead ones gone. *)
Inductive lifts {E F} (conv : E → outcome F) : list (E * Prop) → list (F * Prop) → Prop :=
  | lifts_nil : lifts conv [] []
  | lifts_dead e (P : Prop) g g' : ¬ P → lifts conv g g' → lifts conv ((e, P) :: g) g'
  | lifts_live e f (P P' : Prop) g g' : conv e = Done f → (P ↔ P') → lifts conv g g' → lifts conv ((e, P) :: g) ((f, P') :: g').

Lemma lifts_refusal {E F} (conv : E → outcome F) g g' e :
  lifts conv g g' → first_refusal g e → ∃ f, conv e = Done f ∧ first_refusal g' f.
Proof.
  induction 1 as [|x P g g' HP _ IH|x f P P' g g' Hc HP _ IH]; rewrite ?first_refusal_nil, ?first_refusal_cons; [done| |].
  - intros [[_ ?]|[_ H]]; [done|by apply IH].
  - intros [[<- Hx]|[Hx H]]; [exists f; split; [done|by apply first_refusal_here, HP]|].
    destruct (IH H) as (f' & ? & ?). exists f'. split; [done|]. apply first_refusal_next; [|done]. intros Hx'. by apply Hx, HP.
Qed.

Lemma lifts_none {E F} (conv : E → outcome F) g g' :
  lifts conv g g' → Forall (λ g, ¬ g.2) g → Forall (λ g, ¬ g.2) g'.
Proof. induction 1; rewrite ?Forall_cons; [done|tauto|cbn in *; tauto]. Qed.

Lemma enc_one_addrs a : Endset_addrs (enc [a]) = [tumbler a].
Proof. apply enc_addrs. Qed.

Lemma single_enc a : single_denoted (enc [a]) = Some (tumbler a).
Proof. unfold single_denoted. by rewrite enc_denoting, enc_one_addrs. Qed.

Lemma reserved_denoting ty : is_address_denoting (reserved_type registry ty) = true.
Proof. destruct registry_built as (_ & H & _). destruct (H ty) as (g & _ & -> & _). apply enc_denoting. Qed.

Lemma reserved_class ty : coverage_class (reserved_type registry ty) = Done (shipped_class registry ty).
Proof. destruct registry_built as (_ & H & _). by destruct (H ty) as (g & _ & _ & ?). Qed.

(** An endset of the class of one address names it. *)
Lemma class_names e t : coverage_class e = Done (Addrs {[t]}) → t ∈ Endset_addrs e.
Proof.
  intros He. pose proof (coverage_class_cases e) as H. destruct (is_address_denoting e).
  - destruct H as (set & E & Hset). rewrite E in He. injection He as ->. apply (Hset t). by apply elem_of_singleton.
  - destruct (Endset_is_level_uniform e); [destruct H as (m & E & _)|]; congruence.
Qed.

Section Tuple.
Context (a b : Address) (ty : ShippedType).
#[local] Notation tuple := (triple (enc [a]) (enc [b]) (reserved_type registry ty)).

Lemma tuple_uniform : slots_uniform tuple.
Proof using. intros e [->|[->| ->]]; apply denoting_uniform; [apply enc_denoting..|apply reserved_denoting]. Qed.

Lemma tuple_class : class_is tuple ty.
Proof using. apply reserved_class. Qed.

Lemma tuple_key : DedupKey_of tuple = Done (MkDedupKey (shipped_class registry ty) (Addrs {[tumbler a]}) (Addrs {[tumbler b]})).
Proof using.
  unfold DedupKey_of. change (type_slot tuple) with (reserved_type registry ty). change (from_slot tuple) with (enc [a]).
  change (to_slot tuple) with (enc [b]). by rewrite reserved_class, !coverage_class_one.
Qed.

Lemma tuple_conf shape : shape ≠ Unary → sh_conf shape tuple = true.
Proof using. by destruct shape. Qed.
End Tuple.

(** The link of an incumbent of such a tuple is of its class and names its two ends. *)
Lemma tuple_incumbent s visible a b ty t :
  incumbent s visible (triple (enc [a]) (enc [b]) (reserved_type registry ty)) t →
  ∃ w, typed (links s) t (shipped_class registry ty) w ∧ nullified s t = false ∧
    tumbler a ∈ Endset_addrs (from_slot w) ∧ tumbler b ∈ Endset_addrs (to_slot w).
Proof.
  intros (w & k & d & Hw & Hk & Hkw & Hn & _). rewrite tuple_key in Hk. injection Hk as <-.
  exists w. apply key_slots in Hkw as Hs. apply key_has_class in Hkw. cbn [dk_ty dk_from dk_to] in *. destruct Hs.
  split_and!; [by split|done|by apply class_names..].
Qed.

(** ** What a deposit leaves *)

Lemma deposited_same s home v a u s' : deposited s home v a u → same_linked u s' → deposited s home v a s'.
Proof.
  intros [H1 H2 Hf H3 H4 (H5 & H6 & H7) H8] [Hs E]. destruct (same_ns _ _ Hs) as (Hfr & Ha & _).
  split; rewrite ?E; try done; unfold ls_namespace in *.
  - by rewrite Hfr.
  - intros b. by rewrite Ha.
  - destruct Hs. by rewrite same_nodes, same_principals, same_publication.
  - destruct H8, Hs. cbn in *. split; cbn; (done || congruence).
Qed.

Lemma deposited_nullified s s' home v a c t :
  linked_ok s → linked_ok s' → deposited s home v a s' → coverage_class (type_slot v) = Done c →
  nullified (ls_links s') t = true ↔
  (c = shipped_class registry Retraction ∧ t ∈ Endset_addrs (to_slot v)) ∨ nullified (ls_links s) t = true.
Proof.
  intros Hok Hok' Hd Hc. rewrite !nullified_iff, (ho_nullified _ _ (proj1 (lo_store _ Hok))), (ho_nullified _ _ (proj1 (lo_store _ Hok'))).
  destruct Hd as [_ [_ Hf] _ Hl _ _ _]. rewrite Hl. setoid_rewrite (retracts_more _ _ v c Hf Hc). clear. naive_solver.
Qed.

Lemma deposited_typed s s' home v a c : deposited s home v a s' → coverage_class (type_slot v) = Done c → typed (links (ls_links s')) a.(tumbler) c v.
Proof. intros Hd Hc. split; [|done]. by rewrite (dp_links _ _ _ _ _ Hd), lookup_insert_eq. Qed.

Lemma deposited_resident s s' home v a t :
  deposited s home v a s' → resident (ls_links s') t = true ↔ resident (ls_links s) t = true ∨ t = tumbler a.
Proof.
  intros Hd. rewrite !resident_iff, (dp_links _ _ _ _ _ Hd), lookup_insert_is_Some. destruct (decide (tumbler a = t)); naive_solver.
Qed.

(** A fresh link that retracts nothing is active. *)
Lemma deposited_active s s' home v a c :
  linked_ok s → linked_ok s' → deposited s home v a s' → coverage_class (type_slot v) = Done c →
  c ≠ shipped_class registry Retraction → nullified (ls_links s') (tumbler a) = false.
Proof.
  intros Hok Hok' Hd Hc Hne. apply not_true_iff_false. rewrite (deposited_nullified s s' home v a c _ Hok Hok' Hd Hc).
  intros [[? _]|Hn]; [done|]. apply (lo_tombs _ Hok), resident_iff in Hn as [w Hw]. destruct (dp_fresh _ _ _ _ _ Hd). congruence.
Qed.

(** ** The home's next address, as the store computes it *)

Lemma next_link_address_ok s home :
  linked_ok s → level home = Document → (effective_frontier (ls_namespace s) (link_ns home) + 1 < 2 ^ 64)%N →
  ∃ a, next_link_address (ls_links s) home = Done a ∧ next_link (ls_namespace s) home a.
Proof.
  intros Hok Hl Hroom. pose proof (lo_frontier _ Hok home Hl) as Hf.
  assert (Hh : home_frontier (ls_links s) home = effective_frontier (ls_namespace s) (link_ns home)).
  { rewrite <- Hf. apply home_frontier_exact; [apply lo_store, Hok|]. rewrite Hf. unfold U64_WRAP. lia. }
  unfold next_link_address. rewrite Hh. unfold U64_WRAP. rewrite N.mod_small by lia.
  pose proof (elem_addr_cases (MkElemPos home link_subspace (1 + effective_frontier (ls_namespace s) (link_ns home)))) as H.
  destruct (elem_addr _) as [a|[]]; cbn [ep_doc ep_subspace ep_ordinal] in H.
  - destruct H as (_ & _ & _ & E). exists a. split; [done|]. apply nth_in_Ok. split_and!; [lia|apply link_ns_ok; congruence|].
    rewrite link_ns_slot, E. by rewrite N.add_comm.
  - done.
  - by destruct H.
  - destruct H as (_ & _ & H). lia.
Qed.

(** ** The lock set *)

Lemma deposit_lock_set_done to_bytes_be v home :
  forallb is_address_denoting (slots v) = true → slots_uniform v → ∃ l, deposit_lock_set to_bytes_be v home = Done l.
Proof.
  intros Hd Hu. destruct (uniform_key v Hu) as [k Hk]. pose proof (key_has_class v k Hk) as Hc. unfold deposit_lock_set.
  rewrite Hc. cbn [mbind outcome_bind]. destruct (is_idempotent registry (dk_ty k)); [|by eexists].
  rewrite Hd, Hk. cbn [assert mbind outcome_bind].
  assert (Hp : ∀ e c, e ∈ slots v → coverage_class e = Done c → ∃ b, push_class to_bytes_be c = Done b).
  { intros e c He Hec. pose proof (coverage_class_cases e) as H. rewrite forallb_forall in Hd. rewrite list_elem_of_In in He.
    rewrite (Hd e He) in H. destruct H as (set & E & _). rewrite E in Hec. injection Hec as <-. by eexists. }
  destruct (key_slots v k Hk) as [Hf Hg]. unfold dedup_lock_key.
  destruct (Hp _ _ (slot_at_elem v 2 _) Hc) as [? ->], (Hp _ _ (slot_at_elem v 0 _) Hf) as [? ->],
    (Hp _ _ (slot_at_elem v 1 _) Hg) as [? ->]. by eexists.
Qed.

(** ** Pre-work *)

Section Answers.
Context {W Bytes : Type} {T E : Type}.
#[local] Notation Kernel := (Kernel (W := W) (Bytes := Bytes)).

Lemma answers_next (k k' : Kernel) (e : CallEnd T E) x (P : Prop) gates Q :
  ¬ P → answers k k' e gates Q → answers k k' e ((x, P) :: gates) Q.
Proof using.
  intros HP. destruct e as [[[v at_]|[er| | | |]]|]; try done; cbn.
  - intros [Hg HQ]. split; [by constructor|done].
  - intros [-> Hr]. split; [done|by apply first_refusal_next].
Qed.

(** A refusal ahead of the transaction leaves the kernel as it was. *)
Lemma call_refuse (k : Kernel) (ok : Kernel → Prop) (b : bool) (x : E) (P : Prop) rest gates (Q : Kernel → T → Seq → Prop) :
  ok k → (b = true ↔ P) →
  (b = false → ∃ k' e, rest = Done (k', e) ∧ ok k' ∧ answers k k' e gates (Q k')) →
  ∃ k' e, (if b then rejected k x else rest) = Done (k', e) ∧ ok k' ∧ answers k k' e ((x, P) :: gates) (Q k').
Proof using.
  intros Hok HP Hr. destruct b.
  - eexists k, _. split; [reflexivity|]. split; [done|]. split; [done|]. apply first_refusal_here. by apply HP.
  - destruct (Hr eq_refl) as (k' & e & ? & ? & ?). exists k', e. split_and!; [done..|]. apply answers_next; [|done].
    intros Hp%HP. done.
Qed.
End Answers.

Section Calls.
Context {debug : bool} {W R Bytes : Type} `{WS : WorldState W R} `{HL : !HasLinked debug W R}.
Context (encode_record : R → Bytes).
#[local] Notation Staging := (Staging (W := W) (R := R)).
#[local] Notation Txn := (Txn (W := W) (R := R)).
#[local] Notation Kernel := (Kernel (W := W) (Bytes := Bytes)).

Definition linked_root (k : Kernel) : LinkedSlices := linked (c_world (k_root k)).

Lemma spec_convert {E F A} (conv : E → outcome F) (m : Txn E A) (stg : Staging) gates gates' Q :
  lifts conv gates gates' → txn_spec m stg gates Q → txn_spec (SetArr.txn_map_err conv m) stg gates' Q.
Proof using.
  intros Hl. unfold txn_spec, SetArr.txn_map_err. destruct (m stg) as [[[a|e] stg']|]; cbn [mbind outcome_bind]; [| |done].
  - intros [Hg HQ]. split; [by eapply lifts_none|done].
  - intros He. destruct (lifts_refusal _ _ _ _ Hl He) as (f & -> & Hf). exact Hf.
Qed.

(** A body of the linked slices, run as a call: total, the invariant kept whatever the
    disk answers, its gates the refusals it makes. *)
Lemma linked_call {T E} (k : Kernel) answer (f : Txn E T) gates (Q : T → list LinkedRec → LinkedSlices → Prop)
    (P : T → LinkedSlices → Prop) :
  closure f → linked_ok (linked_root k) →
  (∀ first, txn_spec f (Staging_new (k_root k) first) gates
     (λ v stg', ∃ rs, on_linked (linked_root k) rs stg' ∧ linked_ok (lview stg') ∧ Q v rs (lview stg'))) →
  (∀ v rs u s at_, Q v rs u → linked_ok u → linked_ok s → same_linked u s →
     fold_linked (debug := debug) (linked_root k) at_ rs = Done s → P v s) →
  ∃ k' e, transact encode_record k answer f = Done (k', e) ∧ linked_ok (linked_root k') ∧
    answers k k' e gates (λ v _, P v (linked_root k')).
Proof using.
  intros Hf Hok Hb HP.
  destruct (view_ends linked of_linked (apply_linked debug) linked_fold same_linked same_linked_refl (apply_linked_same debug)
    encode_record k answer f (first_refusal gates) (λ v rs u, Forall (λ g, ¬ g.2) gates ∧ linked_ok u ∧ Q v rs u) Hf)
    as (k' & e & Ht & Hr & He).
  { intros first. specialize (Hb first). unfold txn_spec, body_ends in *. destruct (f _) as [[[v|er] stg]|]; [|done..].
    destruct Hb as (Hg & rs & ? & ? & ?). by exists rs. }
  exists k', e. split; [done|]. split.
  - destruct Hr as [Hr|(v & at_ & rs & u & (_ & Hu & _) & Hs & _)]; [unfold linked_root; by rewrite Hr|by eapply linked_ok_same].
  - destruct e as [[[v at_]|[er| | | |]]|]; try done. destruct He as (rs & u & (Hg & Hu & HQ) & Hs & Hfold).
    split; [done|]. eapply HP; [exact HQ|exact Hu|by eapply linked_ok_same|exact Hs|exact Hfold].
Qed.

Lemma on_linked_new (k : Kernel) first : on_linked (linked_root k) [] (Staging_new (k_root k) first).
Proof using. apply on_view_new. Qed.

(** ** Closures *)

Lemma emit_core_closure visibility caller home v gate : closure (emit_core visibility caller home v gate : Txn _ _).
Proof using.
  assert (Hd : closure (deposit_at home v : Txn _ _)).
  { unfold deposit_at. closes. }
  unfold emit_core, managed_gate. closes; done.
Qed.

Lemma deposit_and_seat_closure visibility caller home v : closure (deposit_and_seat visibility caller home v : Txn _ _).
Proof using.
  unfold deposit_and_seat. apply closure_bind; [apply map_err_closure, emit_core_closure|intros d]. closes.
Qed.
End Calls.

(** Closures of the link operations' bodies. *)
Ltac link_closes :=
  repeat match goal with
  | |- closure base_world => apply closure_base
  | |- closure (SetArr.txn_map_err _ _) => apply map_err_closure
  | |- closure (emit_core _ _ _ _ _) => apply emit_core_closure
  | |- closure (deposit_and_seat _ _ _ _) => apply deposit_and_seat_closure
  | |- closure (txn_bind _ _) => apply closure_bind; [|intros ?]
  | |- closure (txn_ret _) => apply closure_ret
  | |- closure (from_result _) => apply closure_from_result
  | |- closure (from_outcome _) => apply closure_from_outcome
  | |- closure (refuse_if _ _) => apply closure_refuse_if
  | |- closure (match ?x with _ => _ end) => destruct x
  | |- closure (let _ := _ in _) => cbv zeta
  end.
