(* ===== verification/EmitCalls.v ===== *)
(** * The managed surface: emission, retraction, supersession claims

    [emit], [nullify], [assert_sup] and the batch [retract_stale] over any world whose
    linked slices hold the invariant: each is total, refuses for the first of its gates
    that holds, keeps the invariant whatever the disk answers, and on success either
    found the least active incumbent the caller may read and wrote nothing, or left one
    more link at its home's next address. *)

From stdpp Require Import gmap sorting.
From S2P Require Import Prelude Txns Tumblers Addresses AddrMaps Arith NsKeys NsState NsLaws NsOps NsInv NsCalls Runs Content RunLists Provenance ArrState Views World Edits EditInv EditSteps EditCalls VersionCalls SetArrCalls.
From S2P Require Import OrdSets Spans Endsets ClassLaws TypeRegistry LinkState LinkStateLaws LinkReads LinkFind LinkChains Supersession LinkWorld LinkWrites LinkGate LinkCalls.

#[local] Opaque registry.
#[local] Arguments emit_core : simpl never.
#[local] Open Scope txn_scope.

(** What an idempotent deposit answers with [a]. *)
Definition written (s : LinkedSlices) (visible : Address → bool) (home : Address) (v : Link) (a : Address) (s' : LinkedSlices) : Prop :=
  (least_incumbent (ls_links s) visible v a ∧ s' = s) ∨
  ((∀ t, ¬ incumbent (ls_links s) visible v t) ∧ deposited s home v a s').

Section Managed.
Context {debug : bool} {W R Bytes : Type} `{WS : WorldState W R} `{HL : !HasLinked debug W R}.
Context (encode_record : R → Bytes) (visibility : W → Address → bool).
#[local] Notation Staging := (Staging (W := W) (R := R)).
#[local] Notation Txn := (Txn (W := W) (R := R)).
#[local] Notation Kernel := (Kernel (W := W) (Bytes := Bytes)).

(** The staged outcome of a managed deposit, as [linked_call] asks it. *)
Definition wrote (s : LinkedSlices) (visible : Address → bool) (home : Address) (v : Link) (a : Address)
    (rs : list LinkedRec) (u : LinkedSlices) : Prop :=
  ∃ d, a = Deposited_address d ∧ emitted s visible home v GateManaged d u ∧
    match d with Incumbent _ => rs = [] | Fresh _ => True end.

Lemma wrote_written s visible home v a rs u s' at_ :
  wrote s visible home v a rs u → same_linked u s' → fold_linked (debug := debug) s at_ rs = Done s' →
  written s visible home v a s'.
Proof using.
  intros (d & -> & He & Hr) Hs Hf. destruct d as [a|a]; cbn in He |- *.
  - right. destruct He as [Hn Hd]. split; [by apply Hn|by eapply deposited_same].
  - left. destruct He as (_ & Hi & _). subst rs. by injection Hf as <-.
Qed.

(** The tail every managed operation shares: the gate, and the address it answers. *)
Lemma spec_emit_tail {E} (conv : EmitCoreError → outcome E) s (stg : Staging) caller home v gate gates :
  on_linked s [] stg → lview stg = s → linked_ok s → slots_uniform v → arity v = 3 → gate ≠ GateOpen →
  (Forall (λ g, ¬ g.2) (core_gates s caller home v gate) → storable s home v) →
  lifts conv (core_gates s caller home v gate) gates →
  txn_spec (d ←ₜ SetArr.txn_map_err conv (emit_core visibility caller home v gate); txn_ret (Deposited_address d)) stg gates
    (λ a stg', ∃ rs, on_linked s rs stg' ∧ linked_ok (lview stg') ∧
       wrote s (visibility (working stg)) home v a rs (lview stg')).
Proof using.
  intros Hon Hv Hok Hu Har Hg Hst Hl. rewrite <- (app_nil_r gates). apply spec_seq.
  eapply spec_conseq.
  - eapply spec_convert; [exact Hl|]. rewrite <- Hv. apply (emit_core_spec visibility (lview stg) []); rewrite ?Hv; done.
  - cbn beta. intros d stg' (rs & Hon' & Hok' & _ & He & Hd). apply spec_ret. exists rs. rewrite <- Hv. cbn [app] in Hon'.
    split_and!; [done|done|]. exists d. split; [done|]. destruct d as [a|a]; cbn in *.
    + split; [|done]. destruct He as [Hn Hdep]. split; [intros _; by apply Hn|done].
    + destruct Hd as [-> _]. destruct He as (_ & ? & ?). by split_and!.
Qed.

(** ** EMIT *)

Definition emit_gates (s : LinkedSlices) (caller : Caller) (home : Address) (ty : Endset) (from : Address) (to : list Address) :
    list (EmitError * Prop) :=
  let v := triple (enc [from]) (enc to) ty in
  [(EM_NonAddressDenotingType, is_address_denoting ty = false);
   (EM_SupersessionClass, coverage_class ty = Done (shipped_class registry Supersedes));
   (EM_ReplacesClass, coverage_class ty = Done replaces_class);
   (EM_CorrespondenceClass, coverage_class ty = Done correspondence_class);
   (EM_SlotTooLarge, (MAX_SLOT_SPANS < N.of_nat (length to))%N ∨ (MAX_SLOT_SPANS < N.of_nat (Endset_len ty))%N)] ++
  home_gates EmitError_of_home (ls_namespace s) caller home ++
  [(EM_NotRegistered, ∀ t, ¬ class_is v t);
   (EM_RetractionClass, class_is v Retraction);
   (EM_ShapeViolation, ∃ t, class_is v t ∧ sh_conf (shape (shipped_registration t)) v = false)].

Lemma emit_tuple_cases ty from to :
  match emit_tuple ty from to with
  | None => (MAX_SLOT_SPANS < N.of_nat (length to))%N ∨ (MAX_SLOT_SPANS < N.of_nat (Endset_len ty))%N
  | Some v => ¬ ((MAX_SLOT_SPANS < N.of_nat (length to))%N ∨ (MAX_SLOT_SPANS < N.of_nat (Endset_len ty))%N) ∧
      v = triple (enc [from]) (enc to) ty
  end.
Proof.
  unfold emit_tuple.
  destruct (N.ltb_spec MAX_SLOT_SPANS (N.of_nat (length to))), (N.ltb_spec MAX_SLOT_SPANS (N.of_nat (Endset_len ty))); cbn [orb];
    (split; [lia|reflexivity]) || (left; assumption) || (right; assumption).
Qed.

Lemma emit_lifts s caller home v :
  lifts EmitError_of_core (core_gates s caller home v GateManaged)
    (home_gates EmitError_of_home (ls_namespace s) caller home ++
     [(EM_NotRegistered, ∀ t, ¬ class_is v t);
      (EM_RetractionClass, class_is v Retraction);
      (EM_ShapeViolation, ∃ t, class_is v t ∧ sh_conf (shape (shipped_registration t)) v = false)]).
Proof.
  unfold core_gates, home_gates. cbn [app discipline_gates].
  do 5 (apply lifts_live; [reflexivity|tauto|]). constructor.
Qed.

Lemma emit_value_ok s caller home ty from to :
  let v := triple (enc [from]) (enc to) ty in
  is_address_denoting ty = true → coverage_class ty ≠ Done (shipped_class registry Supersedes) →
  slots_uniform v ∧ forallb is_address_denoting (slots v) = true ∧
  (Forall (λ g, ¬ g.2) (core_gates s caller home v GateManaged) → storable s home v).
Proof.
  cbv zeta. intros Hty Hsup.
  assert (Hu : slots_uniform (triple (enc [from]) (enc to) ty)).
  { intros e [->|[->| ->]]; apply denoting_uniform; [apply enc_denoting..|exact Hty]. }
  split_and!; [exact Hu| |].
  - change (slots (triple (enc [from]) (enc to) ty)) with [enc [from]; enc to; ty]. cbn [forallb]. by rewrite !enc_denoting, Hty.
  - intros Hg. split; [exact Hu| |].
    + intros Hr. exfalso. unfold core_gates, home_gates in Hg. cbn [app discipline_gates] in Hg. rewrite !Forall_cons in Hg.
      destruct Hg as (_ & _ & _ & Hg & _). apply Hg. split; [reflexivity|exact Hr].
    + intros Hc. destruct (Hsup Hc).
Qed.

Lemma emit_spec s (stg : Staging) caller home ty from to :
  let v := triple (enc [from]) (enc to) ty in
  on_linked s [] stg → lview stg = s → linked_ok s → is_address_denoting ty = true →
  coverage_class ty ≠ Done (shipped_class registry Supersedes) →
  txn_spec (emit_in visibility caller home v) stg
    (home_gates EmitError_of_home (ls_namespace s) caller home ++
     [(EM_NotRegistered, ∀ t, ¬ class_is v t);
      (EM_RetractionClass, class_is v Retraction);
      (EM_ShapeViolation, ∃ t, class_is v t ∧ sh_conf (shape (shipped_registration t)) v = false)])
    (λ a stg', ∃ rs, on_linked s rs stg' ∧ linked_ok (lview stg') ∧ wrote s (visibility (working stg)) home v a rs (lview stg')).
Proof using.
  cbv zeta. intros Hon Hv Hok Hty Hsup. destruct (emit_value_ok s caller home ty from to Hty Hsup) as (Hu & _ & Hst).
  unfold emit_in. apply (spec_emit_tail EmitError_of_core s stg caller home _ GateManaged); try done. apply emit_lifts.
Qed.

(** ** NULLIFY *)

Definition nullify_gates (s : LinkedSlices) (caller : Caller) (home target : Address) : list (NullifyError * Prop) :=
  home_gates NullifyError_of_home (ls_namespace s) caller home ++
  [(NU_NotOwner target, ¬ owns (ls_namespace s) caller target);
   (NU_BadTarget, resident (ls_links s) (tumbler target) = false ∧ ¬ next_link (ls_namespace s) home target)].

Lemma retraction_lifts s caller home target :
  is_registered_document (ls_namespace s) home = true → owns (ls_namespace s) caller home →
  lifts NullifyError_of_core (core_gates s caller home (retraction_tuple home target) GateRetraction) [].
Proof.
  intros Hd Ho. unfold core_gates, home_gates. cbn [app discipline_gates].
  pose proof (tuple_class home target Retraction) as Hc. fold (retraction_tuple home target) in Hc.
  apply lifts_dead; [congruence|]. apply lifts_dead; [tauto|]. apply lifts_dead; [intros H; exact (H Retraction Hc)|].
  apply lifts_dead; [intros [E _]; discriminate E|]. apply lifts_dead; [|constructor]. intros (t & Ht & Hs).
  rewrite <- (class_is_inj _ _ _ Hc Ht) in Hs. discriminate Hs.
Qed.

Lemma retraction_storable s home target :
  resident (ls_links s) (tumbler target) = true ∨ next_link (ls_namespace s) home target →
  storable s home (retraction_tuple home target).
Proof.
  intros Ht. pose proof (tuple_class home target Retraction) as Hc. split.
  - apply tuple_uniform.
  - intros _ t. change (Endset_addrs (to_slot (retraction_tuple home target))) with (Endset_addrs (enc [target])).
    rewrite enc_one_addrs. intros ->%list_elem_of_singleton. destruct Ht as [Hr|Hn]; [left; exact Hr|right]. exists target. exact (conj Hn eq_refl).
  - intros Hs. pose proof (class_is_inj _ _ _ Hc Hs) as E. discriminate E.
Qed.

Lemma nullify_spec s (stg : Staging) caller home target :
  on_linked s [] stg → lview stg = s → base stg = working stg → linked_ok s →
  (effective_frontier (ls_namespace s) (link_ns home) + 1 < 2 ^ 64)%N →
  txn_spec (nullify_in visibility caller home target (retraction_tuple home target)) stg (nullify_gates s caller home target)
    (λ a stg', ∃ rs, on_linked s rs stg' ∧ linked_ok (lview stg') ∧
       wrote s (visibility (working stg)) home (retraction_tuple home target) a rs (lview stg')).
Proof using.
  intros Hon Hv Hb Hok Hroom. unfold nullify_in, nullify_gates. apply spec_base. rewrite Hb.
  change (m3 (working stg)) with (ls_namespace (lview stg)). change (link_slice (working stg)) with (ls_links (lview stg)). rewrite Hv.
  apply spec_home. intros Hd Ho. apply spec_refuse.
  { rewrite negb_true_iff, <- is_owner_ok. by destruct (is_owner caller (ls_namespace s) target). }
  intros _.
  assert (Hl : level home = Document) by by apply is_registered_document_ok in Hd as [? _].
  destruct (next_link_address_ok s home Hok Hl Hroom) as (next & Hn & Hnext).
  set (bad := negb (resident (ls_links s) (tumbler target)) && negb (bool_decide (target = next))).
  assert (Hbad : bad = true ↔ resident (ls_links s) (tumbler target) = false ∧ ¬ next_link (ls_namespace s) home target).
  { subst bad. rewrite andb_true_iff, !negb_true_iff, bool_decide_eq_false. split; intros [? Hx]; (split; [done|]).
    - intros Hx'. apply Hx. by eapply next_link_unique.
    - intros ->. done. }
  eapply (spec_bind _ _ stg _ _ bad stg).
  { unfold txn_bind, from_outcome, txn_ret. subst bad. destruct (resident (ls_links s) (tumbler target)); cbn [negb andb]; [done|].
    rewrite Hn. reflexivity. }
  apply spec_refuse; [exact Hbad|]. intros Hgood.
  assert (Ht : resident (ls_links s) (tumbler target) = true ∨ next_link (ls_namespace s) home target).
  { subst bad. destruct (resident (ls_links s) (tumbler target)); [by left|right]. cbn in Hgood. apply negb_false_iff in Hgood.
    apply bool_decide_eq_true in Hgood as ->. done. }
  apply (spec_emit_tail NullifyError_of_core s stg caller home (retraction_tuple home target) GateRetraction []);
    [exact Hon|exact Hv|exact Hok|apply tuple_uniform|reflexivity|discriminate|intros _; exact (retraction_storable s home target Ht)|].
  exact (retraction_lifts s caller home target Hd Ho).
Qed.

(** The target is retracted, whichever of the two the call did. *)
Lemma nullify_effect s s' visible home target a :
  linked_ok s → linked_ok s' → written s visible home (retraction_tuple home target) a s' →
  nullified (ls_links s') (tumbler target) = true.
Proof.
  intros Hok Hok' [[[Hi _] ->]|[_ Hd]].
  - apply tuple_incumbent in Hi as (w & Hw & _ & _ & Ht). apply nullified_iff, (ho_nullified _ _ (proj1 (lo_store _ Hok))).
    exists (tumbler a), w. split; [exact Hw|exact Ht].
  - apply (deposited_nullified s s' home _ a _ _ Hok Hok' Hd (tuple_class home target Retraction)). left. split; [reflexivity|].
    change (to_slot (retraction_tuple home target)) with (enc [target]). rewrite enc_one_addrs. by left.
Qed.

(** ** ASSERT_SUP *)

Definition assert_sup_gates (s : LinkedSlices) (caller : Caller) (home old new : Address) : list (AssertSupError * Prop) :=
  home_gates AssertSupError_of_home (ls_namespace s) caller home ++
  [(AS_EndpointNotResident, resident (ls_links s) (tumbler old) = false ∨ resident (ls_links s) (tumbler new) = false);
   (AS_SelfSupersession, old = new)].

Lemma claim_lifts {E} (conv : EmitCoreError → outcome E) s caller home old new :
  is_registered_document (ls_namespace s) home = true → owns (ls_namespace s) caller home →
  lifts conv (core_gates s caller home (supersession_claim old new) GateManaged) [].
Proof.
  intros Hd Ho. unfold core_gates, home_gates. cbn [app discipline_gates].
  pose proof (tuple_class old new Supersedes) as Hc. fold (supersession_claim old new) in Hc.
  apply lifts_dead; [congruence|]. apply lifts_dead; [tauto|]. apply lifts_dead; [intros H; exact (H Supersedes Hc)|].
  apply lifts_dead; [intros [_ Ht]; pose proof (class_is_inj _ _ _ Hc Ht) as Et; discriminate Et|].
  apply lifts_dead; [|constructor]. intros (t & Ht & Hs). rewrite <- (class_is_inj _ _ _ Hc Ht) in Hs. discriminate Hs.
Qed.

Lemma claim_storable s home old new :
  resident (ls_links s) (tumbler old) = true → resident (ls_links s) (tumbler new) = true → old ≠ new →
  storable s home (supersession_claim old new).
Proof.
  intros Ho Hn Hne. pose proof (tuple_class old new Supersedes) as Hc. split.
  - apply tuple_uniform.
  - intros Hs. pose proof (class_is_inj _ _ _ Hc Hs) as E. discriminate E.
  - intros _. exists (tumbler old), (tumbler new). split_and!; [apply single_enc..|exact Ho|exact Hn|].
    intros E. apply Hne, Address_eq, E.
Qed.

Lemma claim_schema s old new :
  check_sup_schema s (supersession_claim old new) =
  if negb (resident s (tumbler old)) || negb (resident s (tumbler new)) then Err NotResident
  else if bool_decide (tumbler old = tumbler new) then Err Reflexive else Ok tt.
Proof.
  unfold check_sup_schema. change (from_slot (supersession_claim old new)) with (enc [old]).
  change (to_slot (supersession_claim old new)) with (enc [new]). by rewrite !single_enc.
Qed.

Lemma assert_sup_spec s (stg : Staging) caller home old new :
  on_linked s [] stg → lview stg = s → base stg = working stg → linked_ok s →
  txn_spec (assert_sup_in visibility caller home (supersession_claim old new)) stg (assert_sup_gates s caller home old new)
    (λ a stg', ∃ rs, on_linked s rs stg' ∧ linked_ok (lview stg') ∧
       wrote s (visibility (working stg)) home (supersession_claim old new) a rs (lview stg')).
Proof using.
  intros Hon Hv Hb Hok. unfold assert_sup_in, assert_sup_gates. apply spec_base. rewrite Hb.
  change (m3 (working stg)) with (ls_namespace (lview stg)). change (link_slice (working stg)) with (ls_links (lview stg)). rewrite Hv.
  apply spec_home. intros Hd Ho. rewrite claim_schema.
  set (b1 := negb (resident (ls_links s) (tumbler old)) || negb (resident (ls_links s) (tumbler new))).
  set (b2 := bool_decide (tumbler old = tumbler new)).
  assert (Htail : b1 = false → b2 = false → txn_spec (d ←ₜ SetArr.txn_map_err AssertSupError_of_core (emit_core visibility caller home (supersession_claim old new) GateManaged);
    txn_ret (Deposited_address d)) stg []
    (λ a stg', ∃ rs, on_linked s rs stg' ∧ linked_ok (lview stg') ∧
       wrote s (visibility (working stg)) home (supersession_claim old new) a rs (lview stg'))).
  { intros [E1%negb_false_iff E2%negb_false_iff]%orb_false_iff Hne%bool_decide_eq_false.
    apply (spec_emit_tail AssertSupError_of_core s stg caller home (supersession_claim old new) GateManaged []);
      [exact Hon|exact Hv|exact Hok|apply tuple_uniform|reflexivity|discriminate| |exact (claim_lifts _ s caller home old new Hd Ho)].
    intros _. apply claim_storable; [exact E1|exact E2|]. intros ->. by apply Hne. }
  assert (H1 : b1 = true ↔ resident (ls_links s) (tumbler old) = false ∨ resident (ls_links s) (tumbler new) = false).
  { subst b1. by rewrite orb_true_iff, !negb_true_iff. }
  assert (H2 : b2 = true ↔ old = new) by (subst b2; rewrite bool_decide_eq_true; split; [apply Address_eq|by intros ->]).
  destruct b1; [apply first_refusal_here; by apply H1|].
  assert (Hn1 : ¬ (resident (ls_links s) (tumbler old) = false ∨ resident (ls_links s) (tumbler new) = false)) by (intros H%H1; discriminate H).
  destruct b2; [apply first_refusal_next; [exact Hn1|]; apply first_refusal_here; by apply H2|].
  specialize (Htail eq_refl eq_refl). unfold txn_spec in *.
  change (txn_bind (SetArr.txn_map_err AssertSupError_of_schema (from_result (Ok tt))) ?f stg) with (f tt stg). cbv beta.
  destruct (txn_bind _ _ stg) as [[[a|e] stg']|]; [|by apply first_refusal_nil in Htail|done].
  destruct Htail as [_ HQ]. split; [|exact HQ]. constructor; [exact Hn1|]. constructor; [|constructor]. cbn. intros H%H2. discriminate H.
Qed.

(** The claim is in force, whichever of the two the call did. *)
Lemma assert_sup_effect s s' visible home old new a :
  linked_ok s → linked_ok s' → written s visible home (supersession_claim old new) a s' →
  operative (ls_links s') (tumbler old) (tumbler new).
Proof.
  intros Hok Hok' [[[Hi _] ->]|[_ Hd]].
  - apply tuple_incumbent in Hi as (w & [Hw Hc] & Hn & Hf & Ht). exists (tumbler a), w.
    split; [split; [exact Hw|split; [exact Hc|cbn; exact Hn]]|split; [exact Hf|exact Ht]].
  - pose proof (tuple_class old new Supersedes) as Hc.
    assert (Hn : nullified (ls_links s') (tumbler a) = false).
    { eapply deposited_active; [exact Hok|exact Hok'|exact Hd|exact Hc|]. intros E%shipped_class_inj. discriminate E. }
    exists (tumbler a), (supersession_claim old new). split.
    + split; [by rewrite (dp_links _ _ _ _ _ Hd), lookup_insert_eq|]. split; [exact Hc|cbn; exact Hn].
    + change (from_slot (supersession_claim old new)) with (enc [old]). change (to_slot (supersession_claim old new)) with (enc [new]).
      rewrite !enc_one_addrs. split; by left.
Qed.
End Managed.


(** ** The operations *)

Section Calls.
Context {debug : bool} {W R Bytes : Type} `{WS : WorldState W R} `{HL : !HasLinked debug W R}.
Context (encode_record : R → Bytes) (to_bytes_be : Nat → list N) (visibility : W → Address → bool).
#[local] Notation Txn := (Txn (W := W) (R := R)).
#[local] Notation Kernel := (Kernel (W := W) (Bytes := Bytes)).

Lemma emit_closure caller home v : closure (emit_in visibility caller home v : Txn _ _).
Proof using. unfold emit_in. link_closes. Qed.

Lemma nullify_closure caller home target v : closure (nullify_in visibility caller home target v : Txn _ _).
Proof using. unfold nullify_in. link_closes. Qed.

Lemma assert_sup_closure caller home v : closure (assert_sup_in visibility caller home v : Txn _ _).
Proof using. unfold assert_sup_in. link_closes. Qed.

(** A managed body as a call. *)
Lemma managed_call {E} (k : Kernel) answer (f : Txn E Address) gates home v :
  let s := linked_root k in
  closure f → linked_ok s →
  (∀ first, let stg := Staging_new (k_root k) first in
    txn_spec f stg gates (λ a stg', ∃ rs, on_linked s rs stg' ∧ linked_ok (lview stg') ∧
      wrote s (visibility (working stg)) home v a rs (lview stg'))) →
  ∃ k' e, transact encode_record k answer f = Done (k', e) ∧ linked_ok (linked_root k') ∧
    answers k k' e gates (λ a _, written s (visibility (c_world (k_root k))) home v a (linked_root k')).
Proof using.
  cbv zeta. intros Hf Hok Hb.
  apply (linked_call encode_record k answer f gates (wrote (linked_root k) (visibility (c_world (k_root k))) home v)); [done|done|exact Hb|].
  intros a rs u s at_ Hw _ _ Hs Hfold. by eapply wrote_written.
Qed.
End Calls.

(** C14. EMIT is total on any world whose linked slices hold the invariant, keeps it
    whatever the disk answers, and refuses by the first of its gates that holds, those
    that open no transaction first: a type slot that denotes no addresses, the three
    classes with a writer of their own, a slot past the budget; then an unregistered
    home, a home the caller does not own, a type outside the registry, the retraction
    class, a value off its registered shape. Acknowledged, it either answers the least
    active link of the value's identity that is homed where the caller may read, and
    the world is as it was; or there is none, and the home holds one more link, the
    value, at its next address. *)
Theorem emit_exact {debug : bool} {W R Bytes : Type} `{WS : WorldState W R} `{HL : !HasLinked debug W R}
    (encode_record : R → Bytes) (to_bytes_be : Nat → list N) (visibility : W → Address → bool)
    (k : Kernel (W := W) (Bytes := Bytes)) (answer : CommitAnswer) (caller : Caller) (home : Address) (ty : Endset)
    (from : Address) (to : list Address) :
  let s := linked_root k in
  linked_ok s →
  ∃ k' e, emit encode_record to_bytes_be visibility k answer caller home ty from to = Done (k', e) ∧
    linked_ok (linked_root k') ∧
    answers k k' e (emit_gates s caller home ty from to) (λ a _,
      written s (visibility (c_world (k_root k))) home (triple (enc [from]) (enc to) ty) a (linked_root k')).
Proof.
  cbv zeta. intros Hok. unfold emit, emit_gates. cbn [app].
  apply (call_refuse k (λ k, linked_ok (linked_root k))); [done|by rewrite negb_true_iff|]. intros Hty%negb_false_iff.
  destruct (uniform_class ty (denoting_uniform ty Hty)) as [c Hc]. rewrite Hc. cbn [mbind outcome_bind].
  assert (Hb : ∀ d, bool_decide (c = d) = true ↔ Done c = Done d).
  { intros d. rewrite bool_decide_eq_true. split; [by intros ->|apply Done_inj]. }
  apply (call_refuse k (λ k, linked_ok (linked_root k))); [done|apply Hb|]. intros Hsup.
  apply (call_refuse k (λ k, linked_ok (linked_root k))); [done|apply Hb|]. intros _.
  apply (call_refuse k (λ k, linked_ok (linked_root k))); [done|apply Hb|]. intros _.
  pose proof (emit_tuple_cases ty from to) as Ht. destruct (emit_tuple ty from to) as [v|].
  2: { eexists k, _. split; [reflexivity|]. split; [done|]. split; [done|]. by apply first_refusal_here. }
  destruct Ht as [Hsmall ->].
  assert (Hne : coverage_class ty ≠ Done (shipped_class registry Supersedes)).
  { rewrite Hc. intros E%Hb. rewrite Hsup in E. discriminate E. }
  destruct (emit_value_ok (linked_root k) caller home ty from to Hty Hne) as (Hu & Hden & _).
  destruct (deposit_lock_set_done to_bytes_be _ home Hden Hu) as [l ->]. cbn [mbind outcome_bind].
  destruct (managed_call encode_record visibility k answer _
    (home_gates EmitError_of_home (ls_namespace (linked_root k)) caller home ++
     [(EM_NotRegistered, ∀ t, ¬ class_is (triple (enc [from]) (enc to) ty) t);
      (EM_RetractionClass, class_is (triple (enc [from]) (enc to) ty) Retraction);
      (EM_ShapeViolation, ∃ t, class_is (triple (enc [from]) (enc to) ty) t ∧
         sh_conf (shape (shipped_registration t)) (triple (enc [from]) (enc to) ty) = false)])
    home (triple (enc [from]) (enc to) ty)
    (emit_closure visibility _ _ _) Hok
    (λ first, emit_spec visibility (linked_root k) _ caller home ty from to (on_linked_new k first) eq_refl Hok Hty Hne))
    as (k' & e & Hrun & Hok' & Ha).
  exists k', e. split; [exact Hrun|]. split; [exact Hok'|]. by apply answers_next.
Qed.

Lemma nullify_run {debug : bool} {W R Bytes : Type} `{WS : WorldState W R} `{HL : !HasLinked debug W R}
    (encode_record : R → Bytes) (to_bytes_be : Nat → list N) (visibility : W → Address → bool)
    (k : Kernel (W := W) (Bytes := Bytes)) (answer : CommitAnswer) (caller : Caller) (home target : Address) :
  let s := linked_root k in
  linked_ok s → (effective_frontier (ls_namespace s) (link_ns home) + 1 < 2 ^ 64)%N →
  ∃ k' e, nullify encode_record to_bytes_be visibility k answer caller home target = Done (k', e) ∧ linked_ok (linked_root k') ∧
    answers k k' e (nullify_gates s caller home target) (λ a _, written s (visibility (c_world (k_root k))) home (retraction_tuple home target) a (linked_root k')).
Proof.
  cbv zeta. intros Hok Hroom. unfold nullify. cbv zeta.
  destruct (deposit_lock_set_done to_bytes_be (retraction_tuple home target) home) as [l ->]; [|apply tuple_uniform|].
  { unfold retraction_tuple. change (slots (triple ?a ?b ?c)) with [a; b; c]. cbn [forallb]. by rewrite !enc_denoting, reserved_denoting. }
  cbn [mbind outcome_bind].
  destruct (managed_call encode_record visibility k answer _ (nullify_gates (linked_root k) caller home target) home (retraction_tuple home target)
    (nullify_closure visibility _ _ _ _) Hok
    (λ first, nullify_spec visibility (linked_root k) _ caller home target (on_linked_new k first) eq_refl eq_refl Hok Hroom))
    as (k' & e & Hrun & Hok' & Ha).
  by exists k', e.
Qed.

(** C13. NULLIFY is total where the home's next ordinal fits a machine word, and refuses in
    order: an unregistered home, a home not the caller's, a target not the caller's,
    and a target that is neither a resident link nor the address the retraction itself
    would take. Acknowledged, by a fresh retraction or by the standing one, the target
    is retracted; and no target ever was one that is not a link. *)
Theorem nullify_exact {debug : bool} {W R Bytes : Type} `{WS : WorldState W R} `{HL : !HasLinked debug W R}
    (encode_record : R → Bytes) (to_bytes_be : Nat → list N) (visibility : W → Address → bool)
    (k : Kernel (W := W) (Bytes := Bytes)) (answer : CommitAnswer) (caller : Caller) (home target : Address) :
  let s := linked_root k in
  linked_ok s → (effective_frontier (ls_namespace s) (link_ns home) + 1 < 2 ^ 64)%N →
  ∃ k' e, nullify encode_record to_bytes_be visibility k answer caller home target = Done (k', e) ∧
    linked_ok (linked_root k') ∧
    answers k k' e (nullify_gates s caller home target) (λ a _,
      let s' := linked_root k' in
      written s (visibility (c_world (k_root k))) home (retraction_tuple home target) a s' ∧
      nullified (ls_links s') (tumbler target) = true ∧
      ∀ t, nullified (ls_links s') t = true → resident (ls_links s') t = true).
Proof.
  cbv zeta. intros Hok Hroom.
  destruct (nullify_run encode_record to_bytes_be visibility k answer caller home target Hok Hroom) as (k' & e & Hrun & Hok' & Ha).
  exists k', e. split; [exact Hrun|]. split; [exact Hok'|]. destruct e as [[[a p]|[er| | | |]]|]; try exact Ha.
  destruct Ha as [Hg Hw]. split; [exact Hg|]. split; [exact Hw|]. split; [exact (nullify_effect _ _ _ _ _ _ Hok Hok' Hw)|apply Hok'].
Qed.

Lemma assert_sup_run {debug : bool} {W R Bytes : Type} `{WS : WorldState W R} `{HL : !HasLinked debug W R}
    (encode_record : R → Bytes) (to_bytes_be : Nat → list N) (visibility : W → Address → bool)
    (k : Kernel (W := W) (Bytes := Bytes)) (answer : CommitAnswer) (caller : Caller) (home old new : Address) :
  let s := linked_root k in
  linked_ok s →
  ∃ k' e, assert_sup encode_record to_bytes_be visibility k answer caller home old new = Done (k', e) ∧ linked_ok (linked_root k') ∧
    answers k k' e (assert_sup_gates s caller home old new) (λ a _, written s (visibility (c_world (k_root k))) home (supersession_claim old new) a (linked_root k')).
Proof.
  cbv zeta. intros Hok. unfold assert_sup. cbv zeta.
  destruct (deposit_lock_set_done to_bytes_be (supersession_claim old new) home) as [l ->]; [|apply tuple_uniform|].
  { unfold supersession_claim. change (slots (triple ?a ?b ?c)) with [a; b; c]. cbn [forallb]. by rewrite !enc_denoting, reserved_denoting. }
  cbn [mbind outcome_bind].
  destruct (managed_call encode_record visibility k answer _ (assert_sup_gates (linked_root k) caller home old new) home (supersession_claim old new)
    (assert_sup_closure visibility _ _ _) Hok
    (λ first, assert_sup_spec visibility (linked_root k) _ caller home old new (on_linked_new k first) eq_refl eq_refl Hok))
    as (k' & e & Hrun & Hok' & Ha).
  by exists k', e.
Qed.

(** ASSERT_SUP is total and refuses in order: an unregistered home, a home not the
    caller's, an end that is no resident link, a link asserted to supersede itself.
    Acknowledged, by a fresh claim or by the least active one the caller may read, the
    supersession is operative; and every claim in the store holds the schema the walk
    reads it under. *)
Theorem assert_sup_exact {debug : bool} {W R Bytes : Type} `{WS : WorldState W R} `{HL : !HasLinked debug W R}
    (encode_record : R → Bytes) (to_bytes_be : Nat → list N) (visibility : W → Address → bool)
    (k : Kernel (W := W) (Bytes := Bytes)) (answer : CommitAnswer) (caller : Caller) (home old new : Address) :
  let s := linked_root k in
  linked_ok s →
  ∃ k' e, assert_sup encode_record to_bytes_be visibility k answer caller home old new = Done (k', e) ∧
    linked_ok (linked_root k') ∧
    answers k k' e (assert_sup_gates s caller home old new) (λ a _,
      let s' := linked_root k' in
      written s (visibility (c_world (k_root k))) home (supersession_claim old new) a s' ∧
      operative (ls_links s') (tumbler old) (tumbler new) ∧
      ∀ c v, claim_in_force (ls_links s') c v → sup_schema (ls_links s') v).
Proof.
  cbv zeta. intros Hok.
  destruct (assert_sup_run encode_record to_bytes_be visibility k answer caller home old new Hok) as (k' & e & Hrun & Hok' & Ha).
  exists k', e. split; [exact Hrun|]. split; [exact Hok'|]. destruct e as [[[a p]|[er| | | |]]|]; try exact Ha.
  destruct Ha as [Hg Hw]. split; [exact Hg|]. split; [exact Hw|]. split; [exact (assert_sup_effect _ _ _ _ _ _ _ Hok Hok' Hw)|].
  intros c v (Hl & Hc & _). apply (lo_claims _ Hok' c). exact (conj Hl Hc).
Qed.

(** RETRACT_STALE serves no type of this format: no registration declares ages,
    so it refuses every type slot it can classify and opens no transaction. *)
Theorem retract_stale_exact {debug : bool} {W R Bytes : Type} `{WS : WorldState W R} `{HL : !HasLinked debug W R}
    (encode_record : R → Bytes) (to_bytes_be : Nat → list N) (visibility : W → Address → bool)
    (k : Kernel (W := W) (Bytes := Bytes)) (answers : nat → CommitAnswer) (caller : Caller) (d_retr : Address) (ty : Endset)
    (horizon : N) :
  retract_stale encode_record to_bytes_be visibility k answers caller d_retr ty horizon =
  if Endset_is_level_uniform ty then Done (k, Some (Err (Rejected RS_NotBh4))) else Panicked.
Proof.
  unfold retract_stale, stale. destruct (Endset_is_level_uniform ty) eqn:Hu.
  - destruct (uniform_class ty Hu) as [c ->]. cbn [mbind outcome_bind].
    assert (declares registry c Age = false) as ->; [|reflexivity].
    unfold declares. destruct (registration_cases c) as [(t & _ & ->)|[-> _]]; [|reflexivity].
    destruct t; reflexivity.
  - pose proof (coverage_class_cases ty) as H. destruct (is_address_denoting ty) eqn:Hd; [|by rewrite Hu in H; rewrite H].
    apply denoting_uniform in Hd. congruence.
Qed.
