(* ===== verification/EditLinkCalls.v ===== *)
(** * The edit of a link

    [editlink] over any world whose linked slices hold the invariant: a successor under
    the open gate and the claim that it supersedes the original, in one transaction.
    The claim's dedup is a guaranteed miss, since it names an address minted a step
    before. *)

From stdpp Require Import gmap sorting.
From S2P Require Import Prelude Txns Tumblers Addresses AddrMaps Arith NsKeys NsState NsLaws NsOps NsInv NsCalls Runs Content RunLists Provenance ArrState Views World Edits EditInv EditSteps EditCalls VersionCalls SetArrCalls.
From S2P Require Import OrdSets Spans Endsets ClassLaws TypeRegistry LinkState LinkStateLaws LinkReads LinkFind LinkChains Supersession LinkWorld LinkWrites LinkGate LinkCalls EmitCalls.

#[local] Opaque registry.
#[local] Arguments emit_core : simpl never.
#[local] Open Scope txn_scope.

(** ** What a deposit leaves of the namespace's questions *)

Lemma deposited_registered s home v a s' d :
  deposited s home v a s' → is_registered_document (ls_namespace s) d = true → is_registered_document (ls_namespace s') d = true.
Proof.
  intros Hd [Hl Ha]%is_registered_document_ok. apply is_registered_document_ok. split; [done|].
  apply (dp_minted _ _ _ _ _ Hd). by left.
Qed.

Lemma deposited_owns s home v a s' c d : deposited s home v a s' → owns (ls_namespace s) c d → owns (ls_namespace s') c d.
Proof.
  intros Hd. destruct (dp_names _ _ _ _ _ Hd) as (_ & Hp & _). destruct c as [p|]; [|done]. cbn. unfold effective_owner.
  rewrite (omega_ext (ls_namespace s) (ls_namespace s')); [done|]. intros q id. unfold covers_seat. by rewrite Hp.
Qed.

(** A claim's one successor. *)
Lemma single_denoted_addrs e g t : single_denoted e = Some g → t ∈ Endset_addrs e → t = g.
Proof.
  unfold single_denoted. destruct (negb (is_address_denoting e)); [done|]. destruct (Endset_addrs e) as [|x rest]; [done|].
  destruct (existsb _ rest) eqn:E; [done|]. intros [= ->] [->|Ht]%elem_of_cons; [done|].
  apply not_true_iff_false in E. destruct (decide (t = g)) as [|Hne]; [done|]. exfalso. apply E, existsb_exists. exists t.
  split; [by apply list_elem_of_In|]. by rewrite bool_decide_eq_false_2.
Qed.

(** No claim names an address minted after it. *)
Lemma claim_misses s mid home v a old visible :
  linked_ok s → deposited s home v a mid → (class_is v Supersedes → sup_schema (ls_links s) v) →
  ∀ t, ¬ incumbent (ls_links mid) visible (supersession_claim old a) t.
Proof.
  intros Hok Hd Hv t Hi. apply tuple_incumbent in Hi as (w & [Hw Hc] & _ & _ & Ha).
  rewrite (dp_links _ _ _ _ _ Hd) in Hw. destruct (dp_fresh _ _ _ _ _ Hd) as [_ Hf].
  assert (Hs : sup_schema (ls_links s) w).
  { destruct (decide (t = tumbler a)) as [->|Hne].
    - rewrite lookup_insert_eq in Hw. injection Hw as <-. by apply Hv.
    - rewrite lookup_insert_ne in Hw by done. apply (lo_claims _ Hok t). exact (conj Hw Hc). }
  destruct Hs as (f & g & _ & Hg & _ & Hr & _). rewrite <- (single_denoted_addrs _ _ _ Hg Ha) in Hr.
  apply resident_iff in Hr as [x Hx]. rewrite Hf in Hx. discriminate Hx.
Qed.

Section Minted.
Context {debug : bool} {W R : Type} `{WS : WorldState W R} `{HL : !HasLinked debug W R}.
#[local] Notation Staging := (Staging (W := W) (R := R)).
#[local] Notation Txn := (Txn (W := W) (R := R)).

(** A deposit that cannot meet an incumbent, and what follows it. *)
Lemma spec_minted {E B} (conv : EmitCoreError → outcome E) visibility s rs (stg : Staging) caller home v gate gates
    (f : Address → Txn E B) gates2 Q :
  let u := lview stg in
  on_linked s rs stg → linked_ok u → slots_uniform v → arity v = 3 →
  (Forall (λ g, ¬ g.2) (core_gates u caller home v gate) → storable u home v) →
  lifts conv (core_gates u caller home v gate) gates →
  (gate = GateOpen ∨ ∀ t, ¬ incumbent (ls_links u) (visibility (working stg)) v t) →
  (∀ a stg' rs', on_linked s (rs ++ rs') stg' → linked_ok (lview stg') → deposited u home v a (lview stg') →
     txn_spec (f a) stg' gates2 Q) →
  txn_spec (d ←ₜ SetArr.txn_map_err conv (emit_core visibility caller home v gate); a ←ₜ from_outcome (Deposited_minted d); f a)
    stg (gates ++ gates2) Q.
Proof using.
  cbv zeta. intros Hon Hok Hu Har Hst Hl Hmiss Hf. apply spec_seq. eapply spec_conseq.
  - eapply spec_convert; [exact Hl|]. by apply (emit_core_spec visibility s rs).
  - cbn beta. intros d stg' (rs' & Hon' & Hok' & _ & He & _). destruct d as [a|a]; cbn in He.
    + eapply spec_outcome; [reflexivity|]. apply (Hf a stg' rs'); [done|done|]. by destruct He.
    + exfalso. destruct He as (Hne & [Hi _] & _). destruct Hmiss as [?|Hno]; [done|by apply (Hno (tumbler a))].
Qed.

(** The open gate refuses an empty type slot and nothing else, past the home. *)
Lemma open_lifts {E} (conv : EmitCoreError → outcome E) e s caller home v :
  is_registered_document (ls_namespace s) home = true → owns (ls_namespace s) caller home → conv EC_EmptyType = Done e →
  lifts conv (core_gates s caller home v GateOpen) [(e, endset_spans (type_slot v) = [])].
Proof.
  intros Hd Ho He. unfold core_gates, home_gates. cbn [app discipline_gates].
  apply lifts_dead; [congruence|]. apply lifts_dead; [tauto|]. apply lifts_live; [done|done|constructor].
Qed.

(** ** EDITLINK *)

Definition editlink_gates (s : LinkedSlices) (caller : Caller) (original : Address) (v : Link) (d_s d_a : Address) :
    list (EditLinkError * Prop) :=
  let ns := ls_namespace s in
  [(ED_HomeNotRegistered, is_registered_document ns d_s = false ∨ is_registered_document ns d_a = false);
   (ED_NotOwner d_s, ¬ owns ns caller d_s);
   (ED_NotOwner d_a, ¬ owns ns caller d_a);
   (ED_OriginalNotResident, resident (ls_links s) (tumbler original) = false);
   (ED_SlotTooLarge, ∃ e, e ∈ slots v ∧ (MAX_SLOT_SPANS < N.of_nat (Endset_len e))%N);
   (ED_IllFormedSuccessor, arity v ≠ 3 ∨ ∃ e, e ∈ slots v ∧ Endset_is_level_uniform e = false);
   (ED_DcViolation, class_is v Retraction ∨ coverage_class (type_slot v) = Done replaces_class ∨
      coverage_class (type_slot v) = Done correspondence_class);
   (ED_DcViolation, class_is v Supersedes ∧ ¬ sup_schema (ls_links s) v);
   (ED_IllFormedSuccessor, endset_spans (type_slot v) = [])].

(** The successor and its claim, one after the other. *)
Definition edited (s : LinkedSlices) (original : Address) (v : Link) (d_s d_a : Address) (e : Edit) (s' : LinkedSlices) : Prop :=
  ∃ mid, linked_ok mid ∧ deposited s d_s v (ed_successor e) mid ∧
    deposited mid d_a (supersession_claim original (ed_successor e)) (ed_claim e) s'.

Lemma home_gate_two ns caller a b :
  home_gate ns caller [a; b] =
  if negb (is_registered_document ns a) || negb (is_registered_document ns b) then Err HF_NotRegistered
  else if negb (is_owner caller ns a) then Err (HF_NotOwner a)
  else if negb (is_owner caller ns b) then Err (HF_NotOwner b) else Ok tt.
Proof.
  unfold home_gate. cbn. rewrite orb_false_r.
  by destruct (is_registered_document ns a), (is_registered_document ns b), (is_owner caller ns a), (is_owner caller ns b).
Qed.

Lemma spec_homes {B} ns caller a b (f : unit → Txn EditLinkError B) stg gates Q :
  (is_registered_document ns a = true → is_registered_document ns b = true → owns ns caller a → owns ns caller b →
   txn_spec (f tt) stg gates Q) →
  txn_spec (txn_bind (from_result (map_err EditLinkError_of_home (home_gate ns caller [a; b]))) f) stg
    ((ED_HomeNotRegistered, is_registered_document ns a = false ∨ is_registered_document ns b = false) ::
     (ED_NotOwner a, ¬ owns ns caller a) :: (ED_NotOwner b, ¬ owns ns caller b) :: gates) Q.
Proof using.
  intros Hf. rewrite home_gate_two.
  assert (Hbody : txn_spec (_ ←ₜ refuse_if (negb (is_registered_document ns a) || negb (is_registered_document ns b)) ED_HomeNotRegistered;
    _ ←ₜ refuse_if (negb (is_owner caller ns a)) (ED_NotOwner a); _ ←ₜ refuse_if (negb (is_owner caller ns b)) (ED_NotOwner b); f tt) stg
    ((ED_HomeNotRegistered, is_registered_document ns a = false ∨ is_registered_document ns b = false) ::
     (ED_NotOwner a, ¬ owns ns caller a) :: (ED_NotOwner b, ¬ owns ns caller b) :: gates) Q).
  { apply spec_refuse; [by rewrite orb_true_iff, !negb_true_iff|]. intros [Ha%negb_false_iff Hb%negb_false_iff]%orb_false_iff.
    apply spec_refuse; [rewrite negb_true_iff, <- is_owner_ok; by destruct (is_owner caller ns a)|]. intros Hoa%negb_false_iff%is_owner_ok.
    apply spec_refuse; [rewrite negb_true_iff, <- is_owner_ok; by destruct (is_owner caller ns b)|]. intros Hob%negb_false_iff%is_owner_ok.
    by apply Hf. }
  unfold txn_spec, txn_bind, refuse_if, from_result in *.
  destruct (negb (is_registered_document ns a) || negb (is_registered_document ns b)); [exact Hbody|].
  destruct (negb (is_owner caller ns a)); [exact Hbody|]. by destruct (negb (is_owner caller ns b)).
Qed.

Context (visibility : W → Address → bool).

(** The claim, after its successor. *)
Lemma spec_claim s (stg : Staging) rs mid0 caller original v d_s d_a successor :
  let mid := lview stg in
  on_linked s rs stg → linked_ok mid0 → linked_ok mid → deposited mid0 d_s v successor mid →
  is_registered_document (ls_namespace mid0) d_a = true → owns (ls_namespace mid0) caller d_a →
  resident (ls_links mid0) (tumbler original) = true → (class_is v Supersedes → sup_schema (ls_links mid0) v) →
  txn_spec (d ←ₜ SetArr.txn_map_err EditLinkError_of_core (emit_core visibility caller d_a (supersession_claim original successor) GateManaged);
    claim ←ₜ from_outcome (Deposited_minted d); txn_ret (MkEdit successor claim)) stg []
    (λ e stg', ∃ rs', on_linked s (rs ++ rs') stg' ∧ linked_ok (lview stg') ∧
       ed_successor e = successor ∧ deposited mid d_a (supersession_claim original successor) (ed_claim e) (lview stg')).
Proof using.
  cbv zeta. intros Hon Hok0 Hok Hd Hra Hoa Hor Hsch.
  pose proof (deposited_registered _ _ _ _ _ _ Hd Hra) as Hra'. pose proof (deposited_owns _ _ _ _ _ _ _ Hd Hoa) as Hoa'.
  apply (spec_minted EditLinkError_of_core visibility s rs stg caller d_a (supersession_claim original successor) GateManaged [] _ []).
  - exact Hon.
  - exact Hok.
  - apply tuple_uniform.
  - reflexivity.
  - intros _. apply claim_storable.
    + apply (deposited_resident _ _ _ _ _ _ Hd). by left.
    + apply (deposited_resident _ _ _ _ _ _ Hd). by right.
    + intros <-. apply resident_iff in Hor as [w Hw]. destruct (dp_fresh _ _ _ _ _ Hd) as [_ Hf]. rewrite Hf in Hw. discriminate Hw.
  - exact (claim_lifts _ _ _ _ _ _ Hra' Hoa').
  - right. exact (claim_misses _ _ _ _ _ _ _ Hok0 Hd Hsch).
  - intros a stg' rs' Hon' Hok' Hd'. apply spec_ret. exists rs'. cbn [ed_successor ed_claim]. exact (conj Hon' (conj Hok' (conj eq_refl Hd'))).
Qed.

Lemma arity3_slots v e : arity v = 3 → (e ∈ slots v ↔ e = from_slot v ∨ e = to_slot v ∨ e = type_slot v).
Proof.
  destruct v as [l H]. unfold arity. cbn [slots]. intros Hl. destruct l as [|x [|y [|z [|? ?]]]]; try discriminate Hl.
  change (from_slot (MkLink [x; y; z] H)) with x. change (to_slot (MkLink [x; y; z] H)) with y.
  change (type_slot (MkLink [x; y; z] H)) with z. rewrite !elem_of_cons. split; [|tauto]. intros [?|[?|[?|H3]]]; [tauto..|]. by apply not_elem_of_nil in H3.
Qed.
End Minted.

Section EditLink.
Context {debug : bool} {W R Bytes : Type} `{WS : WorldState W R} `{HL : !HasLinked debug W R}.
Context (visibility : W → Address → bool).
#[local] Notation Staging := (Staging (W := W) (R := R)).
#[local] Notation Txn := (Txn (W := W) (R := R)).

Lemma arity_three_iff v : (arity v =? 3) = true ↔ arity v = 3.
Proof. apply Nat.eqb_eq. Qed.

Lemma ill_formed_iff v :
  negb ((arity v =? 3) && forallb Endset_is_level_uniform (slots v)) = true ↔
  arity v ≠ 3 ∨ ∃ e, e ∈ slots v ∧ Endset_is_level_uniform e = false.
Proof.
  rewrite negb_true_iff, andb_false_iff, Nat.eqb_neq. apply or_iff_compat_l. split.
  - intros Hf. induction (slots v) as [|e l IH]; [done|]. cbn in Hf. apply andb_false_iff in Hf as [He|Hl].
    + exists e. split; [by left|done].
    + destruct (IH Hl) as (x & ? & ?). exists x. split; [by right|done].
  - intros (e & He & Hu). apply not_true_iff_false. rewrite forallb_forall. intros H. apply list_elem_of_In in He.
    rewrite (H e He) in Hu. discriminate Hu.
Qed.

Lemma oversized_iff v :
  existsb (λ e, (MAX_SLOT_SPANS <? N.of_nat (Endset_len e))%N) (slots v) = true ↔
  ∃ e, e ∈ slots v ∧ (MAX_SLOT_SPANS < N.of_nat (Endset_len e))%N.
Proof. rewrite existsb_exists. by setoid_rewrite N.ltb_lt; setoid_rewrite list_elem_of_In. Qed.

(** The guards of a class, as equations of the class. *)
Lemma class_iff v c d : coverage_class (type_slot v) = Done c → bool_decide (c = d) = true ↔ coverage_class (type_slot v) = Done d.
Proof. intros ->. rewrite bool_decide_eq_true. split; [by intros ->|apply Done_inj]. Qed.

Lemma schema_ok_iff s v : is_ok (check_sup_schema s v) = true ↔ sup_schema s v.
Proof. rewrite <- check_sup_schema_iff. by destruct (check_sup_schema s v) as [[]|]. Qed.

Lemma successor_storable s home v :
  slots_uniform v → ¬ (class_is v Retraction ∨ coverage_class (type_slot v) = Done replaces_class ∨
    coverage_class (type_slot v) = Done correspondence_class) →
  (class_is v Supersedes → sup_schema (ls_links s) v) → storable s home v.
Proof. intros Hu Hn Hs. split; [exact Hu| |exact Hs]. intros Hr. destruct Hn. left. exact Hr. Qed.

Lemma editlink_spec s (stg : Staging) caller original v d_s d_a :
  on_linked s [] stg → lview stg = s → base stg = working stg → linked_ok s →
  txn_spec (editlink_in visibility caller original v d_s d_a) stg (editlink_gates s caller original v d_s d_a)
    (λ e stg', ∃ rs, on_linked s rs stg' ∧ linked_ok (lview stg') ∧ edited s original v d_s d_a e (lview stg')).
Proof using.
  intros Hon Hv Hb Hok. unfold editlink_in, editlink_gates. cbv zeta. apply spec_base. rewrite Hb.
  change (m3 (working stg)) with (ls_namespace (lview stg)). change (link_slice (working stg)) with (ls_links (lview stg)). rewrite Hv.
  apply spec_homes. intros Hrs Hra Hos Hoa.
  apply spec_refuse; [apply negb_true_iff|]. intros Hor%negb_false_iff.
  apply spec_refuse; [apply oversized_iff|]. intros _.
  apply spec_refuse; [apply ill_formed_iff|]. intros Hwf%negb_false_iff%andb_true_iff. destruct Hwf as [Har%arity_three_iff Hun].
  assert (Hu : slots_uniform v).
  { intros e He%(arity3_slots v e Har). rewrite forallb_forall in Hun. by apply Hun, list_elem_of_In. }
  destruct (uniform_class (type_slot v)) as [c Hc]; [apply Hu; auto|].
  eapply spec_outcome; [exact Hc|]. pose proof (λ d, class_iff v c d Hc) as Hcd.
  apply spec_refuse; [rewrite !orb_true_iff, !Hcd; unfold class_is; tauto|].
  intros [[Hr Hrep]%orb_false_iff Hcor]%orb_false_iff.
  assert (Hfence : ¬ (class_is v Retraction ∨ coverage_class (type_slot v) = Done replaces_class ∨
    coverage_class (type_slot v) = Done correspondence_class)).
  { intros [H%Hcd|[H%Hcd|H%Hcd]]; congruence. }
  apply spec_refuse.
  { rewrite andb_true_iff, Hcd, negb_true_iff, <- not_true_iff_false, schema_ok_iff. unfold class_is. tauto. }
  intros Hsup.
  assert (Hsch : class_is v Supersedes → sup_schema (ls_links s) v).
  { intros Hs. apply Hcd in Hs. rewrite Hs in Hsup. cbn [andb] in Hsup. apply negb_false_iff in Hsup. by apply schema_ok_iff. }
  clear Hsup Hcd Hr Hrep Hcor.
  rewrite <- Hv in Hok, Hrs, Hos.
  apply (spec_minted EditLinkError_of_core visibility s [] stg caller d_s v GateOpen [(ED_IllFormedSuccessor, endset_spans (type_slot v) = [])] _ []).
  - exact Hon.
  - exact Hok.
  - exact Hu.
  - exact Har.
  - intros _. rewrite Hv. exact (successor_storable s d_s v Hu Hfence Hsch).
  - exact (open_lifts EditLinkError_of_core _ _ _ _ _ Hrs Hos eq_refl).
  - left. reflexivity.
  - intros a stg' rs' Hon' Hok' Hd. rewrite Hv in Hok, Hd. cbn [app] in Hon'. cbv zeta.
    eapply spec_conseq; [exact (spec_claim visibility s stg' rs' s caller original v d_s d_a a Hon' Hok Hok' Hd Hra Hoa Hor Hsch)|].
    intros e stg'' (rs'' & Hon'' & Hok'' & <- & Hd'). exists (rs' ++ rs''). split; [exact Hon''|]. split; [exact Hok''|].
    exists (lview stg'). exact (conj Hok' (conj Hd Hd')).
Qed.

(** The supersession an edit leaves is operative. *)
Lemma edited_effect s original v d_s d_a e s' :
  linked_ok s' → edited s original v d_s d_a e s' →
  operative (ls_links s') (tumbler original) (tumbler (ed_successor e)).
Proof.
  intros Hok' (mid & Hok & _ & Hd). apply (assert_sup_effect mid s' (λ _, false) d_a original (ed_successor e) (ed_claim e)); [done|done|].
  right. split; [|done]. intros t (w & k & d & _ & _ & _ & _ & _ & Hf). discriminate Hf.
Qed.
End EditLink.

(** C12. EDITLINK is total on any world whose linked slices hold the invariant, and refuses by
    the first of its gates that holds: an unregistered home, either of two, then the
    first the caller does not own, an original that is not resident, a slot past the
    budget, a successor not of three level-uniform slots, one of a class with a writer
    of its own, a claim that breaks the schema, an empty type slot. Acknowledged, two
    links are deposited in one commit, the successor at its home's next address and
    then the claim at its own's, each fresh, and the supersession is operative. *)
Theorem editlink_exact {debug : bool} {W R Bytes : Type} `{WS : WorldState W R} `{HL : !HasLinked debug W R}
    (encode_record : R → Bytes) (visibility : W → Address → bool) (k : Kernel (W := W) (Bytes := Bytes)) (answer : CommitAnswer)
    (caller : Caller) (original : Address) (v : Link) (d_s d_a : Address) :
  let s := linked_root k in
  linked_ok s →
  ∃ k' e, editlink encode_record visibility k answer caller original v d_s d_a = Done (k', e) ∧ linked_ok (linked_root k') ∧
    answers k k' e (editlink_gates s caller original v d_s d_a) (λ e _,
      let s' := linked_root k' in
      edited s original v d_s d_a e s' ∧ operative (ls_links s') (tumbler original) (tumbler (ed_successor e))).
Proof.
  cbv zeta. intros Hok. unfold editlink.
  apply (linked_call encode_record k answer (editlink_in visibility caller original v d_s d_a)
    (editlink_gates (linked_root k) caller original v d_s d_a) (λ e _ u, edited (linked_root k) original v d_s d_a e u)
    (λ e s', edited (linked_root k) original v d_s d_a e s' ∧ operative (ls_links s') (tumbler original) (tumbler (ed_successor e)))); [unfold editlink_in; link_closes|exact Hok| |].
  - intros first. exact (editlink_spec visibility (linked_root k) _ caller original v d_s d_a (on_linked_new k first) eq_refl eq_refl Hok).
  - intros e rs u s at_ (mid & Hm & H1 & H2) _ Hs Hsame _.
    assert (He : edited (linked_root k) original v d_s d_a e s).
    { exists mid. split; [exact Hm|]. split; [exact H1|]. exact (deposited_same _ _ _ _ _ _ H2 Hsame). }
    split; [exact He|]. exact (edited_effect _ _ _ _ _ _ _ Hs He).
Qed.
