(* ===== verification/SlotCalls.v ===== *)
(** * The slots of a MAKELINK

    What [slot_endset] builds, and the two budgets it is held to: a resolved slot is
    the extents of the runs its specs resolve to, in order and uncoalesced, so that it
    covers exactly what they name; an address slot its names; a span slot its spans.
    Beside it the shape test of a content I-span, which accepts the extents of content
    runs and nothing else. *)

From stdpp Require Import gmap sorting.
From S2P Require Import Prelude Txns Tumblers Addresses AddrMaps Arith NsKeys NsState NsLaws NsOps NsInv NsCalls Runs Content RunLists VSpace Provenance ArrState ArrReads Views World Edits EditInv EditSteps EditCalls RetrievalLaws CopyCalls.
From S2P Require Import OrdSets Spans Endsets ClassLaws TypeRegistry LinkState LinkReads LinkWorld LinkWrites.

(** ** The content I-span *)

Definition content_ispan (s : Span) : Prop :=
  ∃ r, run_ok r ∧ subspace (i_start r) = Some content_subspace ∧ iextent r = Done s.

(** An extent's width is the run's, at the start's own length. *)
Lemma extent_width r s :
  run_ok r → iextent r = Done s → Tumbler_get (width s) (Tumbler_len (width s)) = Some (run_width r).
Proof.
  intros Hr Hs. destruct (iextent_ok r Hr) as (s' & E & Hst & Hre & Hu). rewrite E in Hs. injection Hs as ->.
  destruct (comps_snoc (tumbler (i_start r))) as (q & x & Ex). destruct Hr as [Hw _].
  destruct (Tumbler_new (replicate (length q) 0%N ++ [run_width r])) as [w|[]] eqn:Ew.
  2: { by destruct (replicate (length q) 0%N). }
  apply Tumbler_new_Ok in Ew.
  destruct (add_app (tumbler (i_start r)) w (length q) q x [] (run_width r) []) as (t & Ht & Et); [done|done|done|lia|].
  assert (Hsp : ∃ sp, Span_new (start s) w = Ok sp).
  { rewrite Hst. destruct (Span_new (tumbler (i_start r)) w) as [sp|e] eqn:En; [by exists sp|]. exfalso.
    apply Span_new_Err in En. unfold add in Ht. by destruct e; rewrite En in Ht. }
  destruct Hsp as [sp Hsp]. apply Span_new_Ok in Hsp as [Hss Hsw].
  assert (sp = s) as ->.
  { apply uniform_span_eq; [|exact Hu|done|].
    - unfold is_level_uniform. rewrite Hss, Hsw, Hst. unfold Tumbler_len. rewrite Ew, Ex, !length_app, length_replicate. by apply Nat.eqb_refl.
    - pose proof (reach_add sp) as Ha. rewrite Hss, Hsw, Hst, Ht in Ha. injection Ha as <-. rewrite Hre. unfold run_reach.
      apply Tumbler_eq. rewrite Et. by rewrite (shift_app _ _ _ _ Ex). }
  rewrite Hsw. unfold Tumbler_get, Tumbler_len. rewrite Ew, length_app, length_replicate. cbn [length].
  rewrite Nat.add_1_r. cbn. rewrite lookup_app_r by (rewrite length_replicate; lia). by rewrite length_replicate, Nat.sub_diag.
Qed.

Lemma is_content_ispan_ok s : ∃ b, is_content_ispan s = Done b ∧ (b = true ↔ content_ispan s).
Proof.
  unfold is_content_ispan, content_ispan. destruct (validate (start s)) as [a|] eqn:Ea.
  2: { exists false. split; [done|]. split; [done|]. intros (r & Hr & _ & He). destruct (iextent_ok r Hr) as (s' & E & Hst & _).
    rewrite E in He. injection He as ->. by rewrite Hst, validate_self in Ea. }
  apply validate_Ok in Ea.
  assert (Hstart : ∀ r, run_ok r → iextent r = Done s → i_start r = a).
  { intros r Hr He. destruct (iextent_ok r Hr) as (s' & E & Hst & _). rewrite E in He. injection He as ->.
    apply Address_eq. congruence. }
  case_bool_decide as Hsub; cbn [negb].
  2: { exists false. split; [done|]. split; [done|]. intros (r & Hr & Hc & He). destruct Hsub. by rewrite <- (Hstart r Hr He). }
  destruct (Tumbler_get (width s) (Tumbler_len (width s))) as [n|] eqn:En.
  2: { exists false. split; [done|]. split; [done|]. intros (r & Hr & _ & He). by rewrite (extent_width r s Hr He) in En. }
  destruct (Run_new a n) as [run|e] eqn:Er.
  - assert (Hrun : run_ok run ∧ i_start run = a ∧ run_width run = n).
    { unfold Run_new in Er. rewrite nat_is_zero_eqb in Er. destruct (N.eqb_spec n 0); [done|].
      destruct (admits_start a) eqn:Had; [|done]. injection Er as <-. split; [|done]. split; [cbn; lia|done]. }
    destruct Hrun as (Hrun & Hra & Hrn). destruct (iextent_ok run Hrun) as (s' & E & Hst & Hre & Hu). rewrite E. cbn [mbind outcome_bind].
    eexists. split; [reflexivity|]. rewrite bool_decide_eq_true. split.
    + intros ->. exists run. split_and!; [done|by rewrite Hra|done].
    + intros (r & Hr & Hc & He). pose proof (Hstart r Hr He) as Hsr. pose proof (extent_width r s Hr He) as Hw.
      rewrite En in Hw. injection Hw as Hw. assert (r = run) as ->; [|congruence].
      destruct r, run. cbn in *. congruence.
  - exists false. split; [done|]. split; [done|]. intros (r & Hr & _ & He). pose proof (Hstart r Hr He) as Hsr.
    pose proof (extent_width r s Hr He) as Hw. rewrite En in Hw. injection Hw as Hw. unfold Run_new in Er. destruct Hr as [Hw1 Had].
    rewrite nat_is_zero_eqb in Er. destruct (N.eqb_spec n 0); [lia|]. rewrite <- Hsr, Had in Er. discriminate Er.
Qed.

(** The refusals of a slot's spans, by index. *)
Definition ispan_gates (slot : nat) (arg : SlotArg) : list (MakeLinkError * Prop) :=
  match arg with
  | SlotSpans spans => imap (λ i s, (ML_NotContentSpan slot i, ¬ content_ispan s)) spans
  | SlotResolve _ | SlotAddrs _ => []
  end.

Lemma ill_formed_from_ok slot n spans :
  ∃ r, ill_formed_from n spans = Done r ∧
    match r with
    | None => Forall content_ispan spans
    | Some i => first_refusal (imap (λ j s, (ML_NotContentSpan slot (n + j), ¬ content_ispan s)) spans) (ML_NotContentSpan slot i)
    end.
Proof.
  revert n. induction spans as [|s spans IH]; intros n; cbn [ill_formed_from]; [by exists None|].
  destruct (is_content_ispan_ok s) as (b & -> & Hb). cbn [mbind outcome_bind]. rewrite imap_cons.
  assert (Hfun : ∀ j : nat, n + S j = S n + j) by lia.
  destruct b.
  - destruct (IH (S n)) as (r & -> & Hr). exists r. split; [done|]. destruct r as [i|].
    + apply first_refusal_next; [cbn; intros Hn; apply Hn; by apply Hb|]. erewrite imap_ext; [exact Hr|].
      intros j x _. cbn. do 2 f_equal. lia.
    + constructor; [by apply Hb|done].
  - eexists. split; [reflexivity|]. rewrite Nat.add_0_r. apply first_refusal_here. cbn. intros H%Hb. discriminate H.
Qed.

Lemma first_refusal_left {E} (g1 g2 : list (E * Prop)) e : first_refusal g1 e → first_refusal (g1 ++ g2) e.
Proof. intros (l & P & k & -> & HP & Hl). exists l, P, (k ++ g2). split_and!; [by rewrite <- app_assoc|done|done]. Qed.

Lemma first_refusal_skip {E} (g1 g2 : list (E * Prop)) e :
  Forall (λ g, ¬ g.2) g1 → first_refusal g2 e → first_refusal (g1 ++ g2) e.
Proof. induction 1 as [|g l Hg _ IH]; [done|]. intros H. cbn. apply first_refusal_next; [done|by apply IH]. Qed.

(** The refusals of the three slots, in their declared order. *)
Lemma ill_formed_slot_ok l :
  ∃ r, ill_formed_slot l = Done r ∧
    match r with
    | None => Forall (λ p, Forall (λ g : MakeLinkError * Prop, ¬ g.2) (ispan_gates p.1 p.2)) l
    | Some (slot, i) => first_refusal (l ≫= λ p, ispan_gates p.1 p.2) (ML_NotContentSpan slot i)
    end.
Proof.
  induction l as [|[slot arg] l (r & IHr & IH)]; cbn [ill_formed_slot]; [by exists None|].
  change (((slot, arg) :: l) ≫= λ p, ispan_gates p.1 p.2) with (ispan_gates slot arg ++ (l ≫= λ p, ispan_gates p.1 p.2)).
  assert (Hskip : Forall (λ g : MakeLinkError * Prop, ¬ g.2) (ispan_gates slot arg) →
    ∃ r, ill_formed_slot l = Done r ∧ match r with
      | None => Forall (λ p, Forall (λ g : MakeLinkError * Prop, ¬ g.2) (ispan_gates p.1 p.2)) ((slot, arg) :: l)
      | Some (sl, i) => first_refusal (ispan_gates slot arg ++ (l ≫= λ p, ispan_gates p.1 p.2)) (ML_NotContentSpan sl i)
      end).
  { intros Hg. exists r. split; [exact IHr|]. destruct r as [[sl i]|]; [|by constructor]. by apply first_refusal_skip. }
  destruct arg as [specs|addrs|spans]; [by apply Hskip; constructor..|].
  destruct (ill_formed_from_ok slot 0 spans) as (b & Hb & Hr). unfold ill_formed_span. rewrite Hb. cbn [mbind outcome_bind].
  destruct b as [i|].
  - eexists. split; [reflexivity|]. cbn. by apply first_refusal_left.
  - apply Hskip. cbn [ispan_gates]. apply Forall_lookup. intros j g Hg. rewrite list_lookup_imap in Hg.
    destruct (spans !! j) as [s|] eqn:Es; [|discriminate Hg]. injection Hg as <-. cbn. intros Hn. apply Hn.
    by eapply Forall_lookup_1.
Qed.

(** ** The endset of a slot *)

Definition run_extents (runs : list Run) : list Span :=
  match outcome_map iextent runs with Done es => es | Panicked => [] end.

(** The runs a slot's specs resolve to, and the work charged for them. *)
Definition slot_runs (s : Slices) (specs : list VSpec) : list Run := specs ≫= spec_runs s.

Definition slot_work (s : Slices) (specs : list VSpec) : N :=
  foldr (λ spec n, N.of_nat (content_run_count (sl_arrangement s) (vs_source spec)) + n)%N 0%N specs.

Definition slot_of (s : Slices) (arg : SlotArg) : Endset :=
  match arg with
  | SlotResolve specs => from_spans (run_extents (slot_runs s specs))
  | SlotAddrs addrs => enc addrs
  | SlotSpans spans => from_spans spans
  end.

(** A slot past its budgets. *)
Definition slot_over (s : Slices) (arg : SlotArg) : Prop :=
  (MAX_SLOT_SPANS < N.of_nat (Endset_len (slot_of s arg)))%N ∨ (MAX_SLOT_RESOLVE_STEPS < slot_work s (SlotArg_specs arg))%N.

(** What the pre-work has checked of a slot. *)
Record slot_wf (s : Slices) (arg : SlotArg) : Prop := {
  sw_specs : Forall (λ spec, is_wf_content_spec (sl_namespace s) spec = true) (SlotArg_specs arg);
  sw_spans : match arg with SlotSpans spans => Forall content_ispan spans | _ => True end
}.

Lemma wf_spec_runs s spec :
  core_ok s → is_wf_content_spec (sl_namespace s) spec = true →
  iter_resolve (sl_arrangement s) (vs_source spec) (vs_span spec) = Done (spec_runs s spec) ∧
  runs_ok (spec_runs s spec) ∧ flat (spec_runs s spec) = spec_addrs s spec.
Proof.
  intros Hok [_ Hw]%andb_true_iff. destruct (as_ordinal_vspan (vs_span spec)) as [o|] eqn:Eo; [|discriminate Hw].
  apply N.eqb_eq in Hw. by apply (spec_runs_ok s spec o).
Qed.

Lemma slot_runs_ok s specs :
  core_ok s → Forall (λ spec, is_wf_content_spec (sl_namespace s) spec = true) specs →
  runs_ok (slot_runs s specs) ∧ flat (slot_runs s specs) = specs ≫= spec_addrs s.
Proof.
  intros Hok. induction 1 as [|spec specs Hs _ [IHr IHf]]; [split; [apply runs_ok_nil|done]|].
  destruct (wf_spec_runs s spec Hok Hs) as (_ & Hr & Hf). unfold slot_runs in *. cbn. split.
  - by apply Forall_app.
  - by rewrite flat_app, Hf, IHf.
Qed.

Lemma extents_of_ok runs :
  runs_ok runs →
  outcome_map iextent runs = Done (run_extents runs) ∧ length (run_extents runs) = length runs ∧
  Forall is_extent (run_extents runs) ∧ ∀ t, Endset_covers (from_spans (run_extents runs)) t = true ↔ under_some (flat runs) t.
Proof.
  intros Hr. destruct (iextents_ok runs Hr) as (es & E & He & Hd). unfold run_extents. rewrite E.
  split_and!; [done| |done|exact Hd]. clear -E. revert es E. induction runs as [|r runs IH]; intros es E; cbn in E; [by injection E as <-|].
  apply bind_inv in E as (x & _ & E). apply bind_inv in E as (l & El & [= <-]). cbn. by rewrite (IH l El).
Qed.

Lemma keep_runs_ok spans runs :
  runs_ok runs → (N.of_nat (length spans) ≤ MAX_SLOT_SPANS)%N →
  keep_runs spans runs = Done (if (MAX_SLOT_SPANS <? N.of_nat (length spans + length runs))%N then None else Some (spans ++ run_extents runs)).
Proof.
  intros Hr. revert spans. induction runs as [|r runs IH]; intros spans Hs; cbn [keep_runs].
  - cbn [length]. rewrite Nat.add_0_r, (proj2 (N.ltb_ge _ _) Hs). unfold run_extents. cbn. by rewrite app_nil_r.
  - apply runs_ok_cons in Hr as [Hr Hrs]. destruct (N.eqb_spec (N.of_nat (length spans)) MAX_SLOT_SPANS) as [E|E].
    + destruct (N.ltb_spec MAX_SLOT_SPANS (N.of_nat (length spans + length (r :: runs)))); [done|cbn in *; lia].
    + destruct (iextent_ok r Hr) as (x & Ex & _). rewrite Ex. cbn [mbind outcome_bind]. rewrite IH; [|done|rewrite length_app; cbn; lia].
      rewrite length_app. cbn [length]. replace (length spans + 1 + length runs) with (length spans + S (length runs)) by lia.
      destruct (N.ltb_spec MAX_SLOT_SPANS (N.of_nat (length spans + S (length runs)))); [done|].
      do 2 f_equal. rewrite <- app_assoc. f_equal. unfold run_extents. cbn [outcome_map]. rewrite Ex. cbn [mbind outcome_bind].
      destruct (extents_of_ok runs Hrs) as (-> & _). done.
Qed.

Lemma extents_of_app l k : runs_ok l → runs_ok k → run_extents (l ++ k) = run_extents l ++ run_extents k.
Proof.
  intros (El & _)%extents_of_ok (Ek & _)%extents_of_ok. unfold run_extents at 1. by rewrite (outcome_map_app _ _ _ _ _ El Ek).
Qed.

(** The two loops of a slot, whose budgets cut in at different moments, answer by their
    totals alone. *)
Lemma resolve_slot_ok s specs spans steps :
  core_ok s → Forall (λ spec, is_wf_content_spec (sl_namespace s) spec = true) specs →
  (N.of_nat (length spans) ≤ MAX_SLOT_SPANS)%N → (steps ≤ MAX_SLOT_RESOLVE_STEPS)%N →
  resolve_slot (sl_arrangement s) specs spans steps =
  Done (if (MAX_SLOT_SPANS <? N.of_nat (length spans + length (slot_runs s specs)))%N || (MAX_SLOT_RESOLVE_STEPS <? steps + slot_work s specs)%N
        then None else Some (spans ++ run_extents (slot_runs s specs))).
Proof.
  intros Hok Hw. revert spans steps. induction Hw as [|spec specs Hs Hw IH]; intros spans steps Hsp Hst; cbn [resolve_slot].
  - unfold slot_runs. cbn. rewrite Nat.add_0_r, N.add_0_r, (proj2 (N.ltb_ge _ _) Hsp), (proj2 (N.ltb_ge _ _) Hst). by rewrite app_nil_r.
  - cbv zeta. unfold slot_work. cbn [foldr]. fold (slot_work s specs). set (n := N.of_nat (content_run_count _ _)).
    unfold slot_runs. cbn [mbind list_bind]. fold (slot_runs s specs).
    destruct (wf_spec_runs s spec Hok Hs) as (Er & Hr & _). destruct (slot_runs_ok s specs Hok Hw) as [Hrs _].
    assert (Hmax : (MAX_SLOT_RESOLVE_STEPS < u64_max)%N) by reflexivity.
    destruct (N.ltb_spec MAX_SLOT_RESOLVE_STEPS (N.min (steps + n) u64_max)).
    { destruct (N.ltb_spec MAX_SLOT_RESOLVE_STEPS (steps + (n + slot_work s specs))); [by rewrite orb_true_r|lia]. }
    rewrite Er. cbn [mbind outcome_bind]. rewrite keep_runs_ok by done. cbn [mbind outcome_bind]. rewrite length_app.
    destruct (N.ltb_spec MAX_SLOT_SPANS (N.of_nat (length spans + length (spec_runs s spec)))).
    { destruct (N.ltb_spec MAX_SLOT_SPANS (N.of_nat (length spans + (length (spec_runs s spec) + length (slot_runs s specs))))); [done|lia]. }
    destruct (extents_of_ok _ Hr) as (_ & Hlen & _). rewrite IH; [|rewrite length_app, Hlen; lia|lia].
    rewrite length_app, Hlen, N.min_l by lia. rewrite Nat.add_assoc, N.add_assoc, extents_of_app by done. by rewrite app_assoc.
Qed.

Lemma slot_endset_ok s arg :
  core_ok s → slot_wf s arg →
  ∃ e, slot_endset (sl_arrangement s) arg = Done e ∧
    match e with None => slot_over s arg | Some e => ¬ slot_over s arg ∧ e = slot_of s arg end.
Proof.
  intros Hok Hw. unfold slot_over. destruct arg as [specs|addrs|spans]; cbn [slot_endset slot_of SlotArg_specs].
  - destruct Hw as [Hs _]. cbn [SlotArg_specs] in Hs. rewrite resolve_slot_ok by done. destruct (slot_runs_ok s specs Hok Hs) as [Hr _].
    destruct (extents_of_ok _ Hr) as (_ & Hlen & _). cbn [mbind outcome_bind length]. eexists. split; [reflexivity|].
    unfold Endset_len. cbn [endset_spans from_spans]. rewrite Hlen, N.add_0_l, Nat.add_0_l, app_nil_l.
    destruct (N.ltb_spec MAX_SLOT_SPANS (N.of_nat (length (slot_runs s specs)))); cbn [orb option_map]; [by left|].
    destruct (N.ltb_spec MAX_SLOT_RESOLVE_STEPS (slot_work s specs)); cbn [option_map]; [by right|]. split; [lia|done].
  - eexists. split; [reflexivity|]. unfold Endset_len, enc. cbn [endset_spans from_spans slot_work foldr]. rewrite length_fmap.
    destruct (N.leb_spec (N.of_nat (length addrs)) MAX_SLOT_SPANS); [|by left].
    split; [|done]. intros [?|H0]; [lia|discriminate H0].
  - eexists. split; [reflexivity|]. unfold Endset_len. cbn [endset_spans from_spans slot_work foldr].
    destruct (N.leb_spec (N.of_nat (length spans)) MAX_SLOT_SPANS); [|by left].
    split; [|done]. intros [?|H0]; [lia|discriminate H0].
Qed.

Lemma slot_uniform s arg : core_ok s → slot_wf s arg → Endset_is_level_uniform (slot_of s arg) = true.
Proof.
  intros Hok [Hs Hsp]. destruct arg as [specs|addrs|spans]; cbn [slot_of].
  - destruct (slot_runs_ok s specs Hok Hs) as [Hr _]. destruct (extents_of_ok _ Hr) as (_ & _ & He & _). apply level_uniform_iff.
    eapply Forall_impl; [exact He|]. apply is_extent_uniform.
  - apply denoting_uniform, enc_denoting.
  - apply level_uniform_iff. eapply Forall_impl; [exact Hsp|]. intros x (r & Hr & _ & Hx). apply is_extent_uniform. by exists r.
Qed.

(** A resolved slot covers what its specs name, and nothing else. *)
Lemma slot_covers s specs t :
  core_ok s → Forall (λ spec, is_wf_content_spec (sl_namespace s) spec = true) specs →
  Endset_covers (slot_of s (SlotResolve specs)) t = true ↔ under_some (specs ≫= spec_addrs s) t.
Proof.
  intros Hok Hs. destruct (slot_runs_ok s specs Hok Hs) as [Hr <-]. by destruct (extents_of_ok _ Hr) as (_ & _ & _ & ?).
Qed.
