(* ===== verification/MakeLinkCalls.v ===== *)
(** * MAKELINK

    [makelink] and [makelink_replacing] over any world whose linked slices hold the
    invariant: the pre-work on the three slots, the sole-writer fences, the deposit
    under the open gate, and the seat of the minted address in its home. *)

From stdpp Require Import gmap sorting.
From S2P Require Import Prelude Txns Tumblers Addresses AddrMaps Arith NsKeys NsState NsLaws NsOps NsInv NsCalls Runs Content RunLists VSpace Provenance ArrState Views World Edits EditInv EditSteps EditCalls VersionCalls SetArrCalls CopyCalls.
From S2P Require Import OrdSets Spans Endsets ClassLaws TypeRegistry LinkState LinkStateLaws LinkReads LinkFind LinkChains Supersession LinkWorld LinkWrites LinkGate LinkCalls EmitCalls EditLinkCalls SlotCalls.

#[local] Opaque registry.
#[local] Arguments emit_core : simpl never.
#[local] Open Scope txn_scope.

(** ** The seat *)

(** What a seat leaves: the home's links gain one at the end. *)
Record seated (s : LinkedSlices) (home a : Address) (s' : LinkedSlices) : Prop := {
  st_links : ls_links s' = ls_links s;
  st_rest : same_slices (MkSlices (sl_namespace (ls_core s)) (sl_content (ls_core s)) (sl_arrangement (ls_core s'))) (ls_core s');
  st_contents : ∀ d, EditInv.contents (ls_core s') d = EditInv.contents (ls_core s) d;
  st_seats : ∀ d, EditInv.links (ls_core s') d =
    if decide (d = home) then EditInv.links (ls_core s) home ++ [a] else EditInv.links (ls_core s) d
}.

(** A link deposited in [home] and seated there. *)
Definition filed (s : LinkedSlices) (home : Address) (v : Link) (a : Address) (s' : LinkedSlices) : Prop :=
  ∃ mid, linked_ok mid ∧ deposited s home v a mid ∧ seated mid home a s'.

Lemma seated_same s home a u s' : seated s home a u → same_linked u s' → seated s home a s'.
Proof.
  intros [H1 H2 H3 H4] [Hs E]. destruct (same_docs _ _ Hs) as [Hc Hl]. split.
  - by rewrite E.
  - destruct H2, Hs. cbn in *. split; cbn; (done || congruence || (intros b; by rewrite same_minted0, same_minted)).
  - intros d. rewrite <- H3. cbn. by rewrite Hc.
  - intros d. rewrite <- H4. cbn. by rewrite Hl.
Qed.

Lemma filed_same s home v a u s' : filed s home v a u → same_linked u s' → filed s home v a s'.
Proof. intros (mid & ? & ? & ?) Hs. exists mid. split_and!; [done..|by eapply seated_same]. Qed.

Lemma filed_docs s home v a s' :
  filed s home v a s' →
  (∀ d, EditInv.contents (ls_core s') d = EditInv.contents (ls_core s) d) ∧
  (∀ d, EditInv.links (ls_core s') d =
     if decide (d = home) then EditInv.links (ls_core s) home ++ [a] else EditInv.links (ls_core s) d).
Proof.
  intros (mid & _ & Hd & Hs). destruct (same_docs _ _ (dp_rest _ _ _ _ _ Hd)) as [Hc Hl]. cbn in Hc, Hl. split; intros d.
  - rewrite (st_contents _ _ _ _ Hs). cbn. by rewrite Hc.
  - rewrite (st_seats _ _ _ _ Hs). cbn. by rewrite !Hl.
Qed.

(** The home's address after a filing is the one after it. *)
Lemma filed_next s home v a s' b :
  filed s home v a s' →
  next_link (ls_namespace s') home b ↔ nth_in (link_ns home) (effective_frontier (ls_namespace s) (link_ns home) + 2) = Done (Ok b).
Proof.
  intros (mid & _ & Hd & Hs). destruct (same_ns _ _ (st_rest _ _ _ _ Hs)) as (Hf & _). cbn in Hf. unfold next_link, ls_namespace in *.
  rewrite Hf. pose proof (dp_frontier _ _ _ _ _ Hd) as E. unfold ls_namespace in E. rewrite E. by rewrite <- N.add_assoc.
Qed.

Lemma filed_registered s home v a s' d :
  filed s home v a s' → is_registered_document (ls_namespace s) d = true → is_registered_document (ls_namespace s') d = true.
Proof.
  intros (mid & _ & Hd & Hs) Hr. apply (deposited_registered _ _ _ _ _ _ Hd) in Hr.
  destruct (same_ns _ _ (st_rest _ _ _ _ Hs)) as (_ & _ & E). cbn in E. unfold ls_namespace in *. by rewrite E.
Qed.

Lemma filed_owns s home v a s' c d : filed s home v a s' → owns (ls_namespace s) c d → owns (ls_namespace s') c d.
Proof.
  intros (mid & _ & Hd & Hs) Ho. apply (deposited_owns _ _ _ _ _ c d Hd) in Ho. revert Ho.
  pose proof (same_principals _ _ (st_rest _ _ _ _ Hs)) as Hp. cbn in Hp. destruct c as [p|]; [|done]. cbn. unfold effective_owner.
  rewrite (omega_ext (ls_namespace mid) (ls_namespace s')); [done|]. intros q id. unfold covers_seat, ls_namespace. by rewrite Hp.
Qed.

Section Seat.
Context {debug : bool} {W R : Type} `{WS : WorldState W R} `{HL : !HasLinked debug W R}.
Context (visibility : W → Address → bool).
#[local] Notation Staging := (Staging (W := W) (R := R)).
#[local] Notation Txn := (Txn (W := W) (R := R)).

Lemma seat_step u at_ home a :
  linked_ok u → admits_start a = true →
  ∃ u', apply_linked debug u at_ (RecCore (RecArrangement (LinkSeat home a))) = Done u' ∧ linked_ok u' ∧ seated u home a u'.
Proof using.
  intros Hok Ha. destruct (arrangement_push (debug := debug) (ls_core u) at_ (LinkSeat home a) (lo_core _ Hok) I I)
    as (c & Hc & Hcok & Hns & Hco & Hdc & Hdl); [by intros d b ?%not_elem_of_nil|].
  cbn [apply_linked]. rewrite Hc. eexists. split; [reflexivity|]. cbn in Hdc, Hdl. rewrite Ha in Hdc, Hdl. cbn in Hdc, Hdl. split.
  - destruct Hok as [_ Hs Hh Hf Ht Hcl]. unfold ls_namespace in *. split; unfold ls_namespace; cbn [ls_core ls_links]; rewrite ?Hns; done.
  - split; cbn [ls_core ls_links]; [done| |exact Hdc|exact Hdl]. rewrite <- Hns, <- Hco. by destruct c.
Qed.

(** The seat of a fresh link: only a squatted address can refuse it. *)
Lemma spec_seat s rs (stg : Staging) home a :
  let u := lview stg in
  on_linked s rs stg → linked_ok u → homed (tumbler a) home →
  txn_spec (world ←ₜ working_world; seat ←ₜ from_outcome (stage_seat_link (m5 world) home a);
    seat ←ₜ from_result (map_err ML_Seat seat); _ ←ₜ stage (of_core (RecArrangement seat)); txn_ret a) stg
    [(ML_Seat AlreadySeated, a ∈ EditInv.links (ls_core u) home)]
    (λ v stg', ∃ rs', on_linked s (rs ++ rs') stg' ∧ linked_ok (lview stg') ∧ v = a ∧ seated u home a (lview stg')).
Proof using.
  cbv zeta. intros Hon Hok Hh. apply spec_working. change (m5 (working stg)) with (sl_arrangement (ls_core (lview stg))).
  assert (He : element_field a = Some [link_subspace; default 0%N (last (comps (tumbler a)))]).
  { destruct Hh as [Hl [n Hn]]. apply element_pair_view. exists home. split; [done|]. rewrite Hn. do 3 f_equal. by rewrite last_app. }
  assert (Ha : admits_start a = true) by (unfold admits_start; by rewrite He).
  assert (Hsub : subspace a = Some link_subspace).
  { unfold subspace. apply total_Done. by rewrite He. }
  assert (Hdoc : document_of a = Some home) by (apply (homed_document (tumbler a)); [by apply validate_self|done]).
  pose proof (stage_seat_ok (ls_core (lview stg)) home a (lo_core _ Hok)) as H.
  destruct (stage_seat_link (sl_arrangement (ls_core (lview stg))) home a) as [[r|e]|]; [| |done].
  - destruct H as (Hg & -> & _). unfold seat_gates in Hg. rewrite !Forall_cons in Hg. destruct Hg as (_ & _ & Hn & _). cbn in Hn.
    assert (Hd : ∀ at_, ∃ s', apply_linked debug (lview stg) at_ (RecCore (RecArrangement (LinkSeat home a))) = Done s' ∧
      linked_ok s' ∧ seated (lview stg) home a s') by (intros at_; by apply seat_step).
    destruct (on_linked_push s rs stg _ _ Hon Hd) as (stg' & Hp & Hon' & [Hok' Hse] & _).
    unfold txn_spec, txn_bind, from_outcome, from_result, stage. cbn [mbind outcome_bind map_err].
    change (of_core (RecArrangement (LinkSeat home a))) with (of_linked (RecCore (RecArrangement (LinkSeat home a)))).
    rewrite Hp. cbn [mbind outcome_bind txn_ret]. split; [by constructor|]. by exists [RecCore (RecArrangement (LinkSeat home a))].
  - unfold txn_spec, txn_bind, from_outcome, from_result. cbn. unfold seat_gates in H. rewrite !first_refusal_cons, first_refusal_nil in H.
    destruct H as [[_ [H|H]]|[_ [[_ H]|[_ [[<- H]|[_ []]]]]]]; [congruence|done..|]. by apply first_refusal_here.
Qed.

Lemma spec_gates {E A} (m : Txn E A) (stg : Staging) gates gates' Q :
  txn_spec m stg gates Q → (∀ e, first_refusal gates e → first_refusal gates' e) →
  (Forall (λ g, ¬ g.2) gates → Forall (λ g, ¬ g.2) gates') → txn_spec m stg gates' Q.
Proof using. unfold txn_spec. intros H He Hg. destruct (m stg) as [[[a|e] stg']|]; [|by apply He|done]. destruct H. by split; [apply Hg|]. Qed.

(** ** A filing *)

Lemma spec_filing s rs (stg : Staging) caller home v :
  let u := lview stg in
  on_linked s rs stg → linked_ok u → slots_uniform v → arity v = 3 → storable u home v →
  is_registered_document (ls_namespace u) home = true → owns (ls_namespace u) caller home →
  txn_spec (deposit_and_seat visibility caller home v) stg
    [(ML_EmptyTypeResolution, endset_spans (type_slot v) = []);
     (ML_Seat AlreadySeated, ∃ a, next_link (ls_namespace u) home a ∧ a ∈ EditInv.links (ls_core u) home)]
    (λ a stg', ∃ rs', on_linked s (rs ++ rs') stg' ∧ linked_ok (lview stg') ∧ filed u home v a (lview stg')).
Proof using.
  cbv zeta. intros Hon Hok Hu Har Hst Hd Ho. unfold deposit_and_seat.
  apply (spec_minted MakeLinkError_of_core visibility s rs stg caller home v GateOpen [_] _ [_] _ Hon Hok Hu Har).
  - intros _. exact Hst.
  - exact (open_lifts MakeLinkError_of_core _ _ _ _ _ Hd Ho eq_refl).
  - left. reflexivity.
  - intros a stg' rs' Hon' Hok' Hdep. pose proof (dp_next _ _ _ _ _ Hdep) as Hnext.
    assert (Hh : homed (tumbler a) home) by (apply (next_link_homed (ls_namespace (lview stg))); [by apply is_registered_document_ok in Hd as [? _]|done]).
    destruct (same_docs _ _ (dp_rest _ _ _ _ _ Hdep)) as [_ Hl].
    assert (Hg : a ∈ EditInv.links (ls_core (lview stg')) home ↔
      ∃ b, next_link (ls_namespace (lview stg)) home b ∧ b ∈ EditInv.links (ls_core (lview stg)) home).
    { cbn. rewrite Hl. cbn. split; [intros Hin; by exists a|]. intros (b & Hb & Hin). by rewrite (next_link_unique _ _ _ _ Hnext Hb). }
    pose proof (spec_seat s (rs ++ rs') stg' home a Hon' Hok' Hh) as Hs. unfold txn_spec in *.
    match goal with |- match ?run with _ => _ end => destruct run as [[[b|e] stg'']|]; [| |done] end.
    + destruct Hs as [Hn (rs'' & Hon'' & Hok'' & -> & Hse)]. split.
      * apply (proj1 (Forall_singleton _ _)) in Hn. apply Forall_singleton. intros Hx. exact (Hn (proj2 Hg Hx)).
      * exists (rs' ++ rs''). rewrite app_assoc. split; [exact Hon''|]. split; [exact Hok''|]. exists (lview stg'). exact (conj Hok' (conj Hdep Hse)).
    + apply first_refusal_cons in Hs as [[<- Hx]|[_ []%first_refusal_nil]]. apply first_refusal_here. exact (proj1 Hg Hx).
Qed.

(** ** The pre-work *)

Definition fence_gates (ty : Endset) : list (MakeLinkError * Prop) :=
  [(ML_RetractionClass, coverage_class ty = Done (shipped_class registry Retraction));
   (ML_SupersessionClass, coverage_class ty = Done (shipped_class registry Supersedes));
   (ML_ReplacesClass, coverage_class ty = Done replaces_class);
   (ML_CorrespondenceClass, coverage_class ty = Done correspondence_class)].

Lemma fences_spec ty (stg : Staging) :
  Endset_is_level_uniform ty = true → txn_spec (record_fences ty) stg (fence_gates ty) (λ _ stg', stg' = stg).
Proof using HL.
  intros [c Hc]%uniform_class. unfold record_fences, fence_gates. eapply spec_outcome; [exact Hc|].
  assert (Hb : ∀ d, bool_decide (c = d) = true ↔ coverage_class ty = Done d).
  { intros d. rewrite bool_decide_eq_true, Hc. split; [by intros ->|apply Done_inj]. }
  clear Hc. do 3 (apply spec_refuse; [apply Hb|intros _]). apply spec_last, Hb.
Qed.

Lemma spec_slot {B} (w : W) s arg (f : Endset → Txn MakeLinkError B) (stg : Staging) gates Q :
  linked w = s → core_ok (ls_core s) → slot_wf (ls_core s) arg →
  txn_spec (f (slot_of (ls_core s) arg)) stg gates Q →
  txn_spec (txn_bind (endset_of w arg) f) stg ((ML_SlotTooLarge, slot_over (ls_core s) arg) :: gates) Q.
Proof using.
  intros Hw Hok Hwf Hf. unfold endset_of. change (m5 w) with (sl_arrangement (ls_core (linked w))). rewrite Hw.
  destruct (slot_endset_ok (ls_core s) arg Hok Hwf) as (e & -> & He). unfold txn_spec, txn_bind, from_outcome, from_result in *.
  cbn [mbind outcome_bind]. destruct e as [e|]; cbn [ok_or mbind outcome_bind].
  - destruct He as [Hn ->]. destruct (f _ stg) as [[[b|x] stg']|]; [|by apply first_refusal_next|done].
    destruct Hf. split; [by constructor|done].
  - by apply first_refusal_here.
Qed.

Definition makelink_gates (s : LinkedSlices) (caller : Caller) (home : Address) (from to ty : SlotArg) :
    list (MakeLinkError * Prop) :=
  let core := ls_core s in
  home_gates MakeLinkError_of_home (ls_namespace s) caller home ++
  [(ML_IllFormedSpec, ∃ spec, spec ∈ SlotArg_specs from ++ SlotArg_specs to ++ SlotArg_specs ty ∧
      is_wf_content_spec (ls_namespace s) spec = false)] ++
  (ispan_gates FROM from ++ ispan_gates TO to ++ ispan_gates TYPE ty) ++
  [(ML_SlotTooLarge, slot_over core from); (ML_SlotTooLarge, slot_over core to); (ML_SlotTooLarge, slot_over core ty)] ++
  fence_gates (slot_of core ty) ++
  [(ML_EmptyTypeResolution, endset_spans (slot_of core ty) = []);
   (ML_Seat AlreadySeated, ∃ a, next_link (ls_namespace s) home a ∧ a ∈ EditInv.links core home)].

(** The link the three slots make. *)
Definition link_of (s : LinkedSlices) (from to ty : SlotArg) : Link :=
  triple (slot_of (ls_core s) from) (slot_of (ls_core s) to) (slot_of (ls_core s) ty).

Lemma ispan_gates_ok slot spans :
  Forall (λ g : MakeLinkError * Prop, ¬ g.2) (ispan_gates slot (SlotSpans spans)) → Forall content_ispan spans.
Proof using.
  cbn [ispan_gates]. intros Hs. apply Forall_lookup. intros j x Hx.
  rewrite Forall_lookup in Hs. specialize (Hs j (ML_NotContentSpan slot j, ¬ content_ispan x)). rewrite list_lookup_imap, Hx in Hs.
  specialize (Hs eq_refl). cbn in Hs. destruct (is_content_ispan_ok x) as (b & _ & Hb). destruct b; [by apply Hb|].
  exfalso. apply Hs. intros Hx'%Hb. discriminate Hx'.
Qed.

Lemma spec_ispans {B} from to ty (f : unit → Txn MakeLinkError B) (stg : Staging) gates Q :
  ((∀ slot arg, (slot, arg) ∈ [(FROM, from); (TO, to); (TYPE, ty)] → match arg with SlotSpans spans => Forall content_ispan spans | _ => True end) →
   txn_spec (f tt) stg gates Q) →
  txn_spec (bad ←ₜ from_outcome (ill_formed_slot [(FROM, from); (TO, to); (TYPE, ty)]);
    txn_bind (from_result (not_content_span bad)) f) stg
    ((ispan_gates FROM from ++ ispan_gates TO to ++ ispan_gates TYPE ty) ++ gates) Q.
Proof using.
  intros Hf. destruct (ill_formed_slot_ok [(FROM, from); (TO, to); (TYPE, ty)]) as (r & Hr & H).
  eapply spec_outcome; [exact Hr|]. cbn [mbind list_bind fst snd] in H. rewrite app_nil_r in H.
  apply spec_seq. unfold txn_spec, from_result. destruct r as [[slot i]|]; cbn; [exact H|]. rewrite !Forall_cons in H. cbn [fst snd] in H.
  split; [by rewrite !Forall_app; tauto|]. apply Hf. intros slot arg Hin.
  assert (Hs : Forall (λ g : MakeLinkError * Prop, ¬ g.2) (ispan_gates slot arg)).
  { rewrite !elem_of_cons in Hin. destruct Hin as [[= -> ->]|[[= -> ->]|[[= -> ->]|[]%not_elem_of_nil]]]; tauto. }
  destruct arg as [| |spans]; [done..|]. by apply (ispan_gates_ok slot).
Qed.

Lemma ill_formed_specs_iff ns (specs : list VSpec) :
  negb (forallb (is_wf_content_spec ns) specs) = true ↔ ∃ spec, spec ∈ specs ∧ is_wf_content_spec ns spec = false.
Proof using.
  rewrite negb_true_iff. induction specs as [|x specs IH]; cbn [forallb].
  - split; [done|]. by intros (? & []%not_elem_of_nil & _).
  - rewrite andb_false_iff, IH. setoid_rewrite elem_of_cons. split; [intros [?|(y & ? & ?)]; eauto|].
    intros (y & [->|?] & ?); eauto.
Qed.

Lemma link_storable s home from to ty :
  slots_uniform (link_of s from to ty) → Forall (λ g, ¬ g.2) (fence_gates (slot_of (ls_core s) ty)) →
  storable s home (link_of s from to ty).
Proof using.
  intros Hu Hg. unfold fence_gates in Hg. rewrite !Forall_cons in Hg. destruct Hg as (Hr & Hs & _). cbn [snd] in Hr, Hs. split.
  - exact Hu.
  - intros H. destruct (Hr H).
  - intros H. destruct (Hs H).
Qed.

Lemma stage_record_spec s (stg : Staging) caller home from to ty :
  on_linked s [] stg → lview stg = s → base stg = working stg → linked_ok s →
  txn_spec (stage_record visibility caller home from to ty) stg (makelink_gates s caller home from to ty)
    (λ a stg', ∃ rs, on_linked s rs stg' ∧ linked_ok (lview stg') ∧ filed s home (link_of s from to ty) a (lview stg') ∧
       is_registered_document (ls_namespace s) home = true ∧ owns (ls_namespace s) caller home).
Proof using HL.
  intros Hon Hv Hb Hok. unfold stage_record, makelink_gates. cbv zeta. apply spec_base. rewrite Hb.
  change (m3 (working stg)) with (ls_namespace (lview stg)). rewrite Hv.
  apply spec_home. intros Hd Ho. cbn [app].
  apply spec_refuse; [apply ill_formed_specs_iff|]. intros Hwf%negb_false_iff. rewrite !forallb_app, !andb_true_iff in Hwf.
  destruct Hwf as (Hwf & Hwt & Hwy).
  apply spec_ispans. intros Hsp.
  assert (Hslot : ∀ slot arg, (slot, arg) ∈ [(FROM, from); (TO, to); (TYPE, ty)] → slot_wf (ls_core s) arg).
  { intros slot arg Hin. split; [|by apply (Hsp slot)]. rewrite !elem_of_cons in Hin.
    destruct Hin as [[= -> ->]|[[= -> ->]|[[= -> ->]|[]%not_elem_of_nil]]]; apply Forall_forall; intros x Hx%list_elem_of_In.
    all: rewrite ?forallb_forall in *; eauto. }
  assert (Hf : slot_wf (ls_core s) from) by (eapply Hslot; by left).
  assert (Ht : slot_wf (ls_core s) to) by (eapply Hslot; right; by left).
  assert (Hy : slot_wf (ls_core s) ty) by (eapply Hslot; right; right; by left).
  pose proof (lo_core _ Hok) as Hc.
  do 3 (apply spec_slot; [exact Hv|exact Hc|assumption|]).
  assert (Hu : slots_uniform (link_of s from to ty)) by (intros e [->|[->| ->]]; by apply slot_uniform).
  apply spec_pure. eapply spec_conseq; [apply spec_passed, fences_spec; by apply slot_uniform|].
  cbn beta. intros [] stg' [Hg ->]. split; [reflexivity|].
  subst s. eapply spec_conseq.
  - exact (spec_filing (lview stg) [] stg caller home (link_of (lview stg) from to ty) Hon Hok Hu eq_refl (link_storable _ _ _ _ _ Hu Hg) Hd Ho).
  - cbn beta. intros a stg' (rs & Hon' & Hok' & Hfl). exists rs. exact (conj Hon' (conj Hok' (conj Hfl (conj Hd Ho)))).
Qed.
End Seat.

(** ** The record that replaces another *)

Lemma replaces_class_apart ty : replaces_class ≠ shipped_class registry ty.
Proof. destruct ty; vm_compute; discriminate. Qed.

Lemma replaces_class_done : coverage_class (enc [replaces_type]) = Done replaces_class.
Proof. apply total_spec. Qed.

Lemma annotation_storable s home a b :
  let v := triple (enc [a]) (enc [b]) (enc [replaces_type]) in slots_uniform v ∧ storable s home v.
Proof.
  assert (Hu : slots_uniform (triple (enc [a]) (enc [b]) (enc [replaces_type]))).
  { intros e [->|[->| ->]]; apply denoting_uniform, enc_denoting. }
  assert (Hc : ∀ ty, ¬ class_is (triple (enc [a]) (enc [b]) (enc [replaces_type])) ty).
  { intros ty H. unfold class_is in H. change (type_slot _) with (enc [replaces_type]) in H. rewrite replaces_class_done in H.
    apply Done_inj in H. exact (replaces_class_apart ty H). }
  split; [exact Hu|]. split; [exact Hu| |]; intros H; destruct (Hc _ H).
Qed.

Definition replacing_gates (s : LinkedSlices) (caller : Caller) (home : Address) (from to ty : SlotArg) :
    list (MakeLinkError * Prop) :=
  makelink_gates s caller home from to ty ++
  [(ML_Seat AlreadySeated, ∃ b, nth_in (link_ns home) (effective_frontier (ls_namespace s) (link_ns home) + 2) = Done (Ok b) ∧
      b ∈ EditInv.links (ls_core s) home)].

(** The record, and the annotation that says what it replaces. *)
Definition replaced (s : LinkedSlices) (home : Address) (v : Link) (replaces record : Address) (s' : LinkedSlices) : Prop :=
  ∃ mid annotation, filed s home v record mid ∧
    filed mid home (triple (enc [record]) (enc [replaces]) (enc [replaces_type])) annotation s'.

(** The second seat finds what the first did, one ordinal on. *)
Lemma filed_squat s home v a mid :
  filed s home v a mid →
  (∃ b, next_link (ls_namespace mid) home b ∧ b ∈ EditInv.links (ls_core mid) home) ↔
  ∃ b, nth_in (link_ns home) (effective_frontier (ls_namespace s) (link_ns home) + 2) = Done (Ok b) ∧ b ∈ EditInv.links (ls_core s) home.
Proof.
  intros Hf. destruct (filed_docs _ _ _ _ _ Hf) as [_ Hl]. setoid_rewrite (filed_next _ _ _ _ _ _ Hf). rewrite Hl, decide_True by done.
  assert (Hne : ∀ b, nth_in (link_ns home) (effective_frontier (ls_namespace s) (link_ns home) + 2) = Done (Ok b) → b ≠ a).
  { intros b (_ & _ & Hb)%nth_in_Ok ->. destruct Hf as (m & _ & Hd & _). pose proof (dp_next _ _ _ _ _ Hd) as (_ & _ & Ha)%nth_in_Ok.
    rewrite link_ns_slot in *. rewrite Ha in Hb. apply app_inv_head in Hb. injection Hb. lia. }
  split; intros (b & Hb & Hin); exists b; (split; [done|]); [|apply elem_of_app; by left].
  apply elem_of_app in Hin as [?|?%list_elem_of_singleton]; [done|]. by destruct (Hne b Hb).
Qed.

Section MakeLink.
Context {debug : bool} {W R Bytes : Type} `{WS : WorldState W R} `{HL : !HasLinked debug W R}.
Context (visibility : W → Address → bool).
#[local] Notation Staging := (Staging (W := W) (R := R)).
#[local] Notation Txn := (Txn (W := W) (R := R)).

Lemma stage_record_closure caller home from to ty : closure (stage_record visibility caller home from to ty : Txn _ _).
Proof using. unfold stage_record, endset_of, record_fences. link_closes. Qed.

Lemma replacing_spec s (stg : Staging) caller home from to ty replaces :
  on_linked s [] stg → lview stg = s → base stg = working stg → linked_ok s →
  txn_spec (replacing_in visibility caller home from to ty replaces) stg (replacing_gates s caller home from to ty)
    (λ a stg', ∃ rs, on_linked s rs stg' ∧ linked_ok (lview stg') ∧ replaced s home (link_of s from to ty) replaces a (lview stg')).
Proof using HL.
  intros Hon Hv Hb Hok. unfold replacing_in, replacing_gates. apply spec_seq.
  eapply spec_conseq; [exact (stage_record_spec visibility s stg caller home from to ty Hon Hv Hb Hok)|].
  cbn beta. intros a mid (rs & Hon' & Hok' & Hfl & Hd & Ho).
  destruct (annotation_storable (lview mid) home a replaces) as [Hu Hst].
  apply spec_seq_end. eapply spec_gates.
  - eapply spec_conseq; [apply (spec_filing visibility s rs mid caller home _ Hon' Hok' Hu eq_refl Hst)|].
    + exact (filed_registered _ _ _ _ _ _ Hfl Hd).
    + exact (filed_owns _ _ _ _ _ _ _ Hfl Ho).
    + cbn beta. intros b stg' (rs' & Hon'' & Hok'' & Hfl'). apply spec_ret. exists (rs ++ rs'). split; [exact Hon''|].
      split; [exact Hok''|]. exists (lview mid), b. exact (conj Hfl Hfl').
  - apply filed_squat in Hfl. intros e. rewrite !first_refusal_cons, first_refusal_nil.
    intros [[_ H]|[_ [[<- H]|[_ []]]]]; [discriminate H|]. left. exact (conj eq_refl (proj1 Hfl H)).
  - apply filed_squat in Hfl. intros Hg. rewrite !Forall_cons in *. destruct Hg as (_ & Hg & _). split; [|constructor].
    intros H. exact (Hg (proj2 Hfl H)).
Qed.

(** What each slot of an acknowledged link covers. *)
Definition slot_exact (s : Slices) (arg : SlotArg) : Prop :=
  match arg with
  | SlotResolve specs => ∀ t, Endset_covers (slot_of s arg) t = true ↔ under_some (specs ≫= spec_addrs s) t
  | SlotAddrs addrs => Endset_addrs (slot_of s arg) = tumbler <$> addrs ∧ is_address_denoting (slot_of s arg) = true
  | SlotSpans spans => endset_spans (slot_of s arg) = spans ∧ Forall content_ispan spans
  end.

Lemma makelink_slots s caller home from to ty arg :
  linked_ok s → Forall (λ g, ¬ g.2) (makelink_gates s caller home from to ty) → arg ∈ [from; to; ty] → slot_exact (ls_core s) arg.
Proof using.
  intros Hok Hg Hin. unfold makelink_gates in Hg. rewrite !Forall_app, Forall_singleton in Hg. destruct Hg as (_ & Hwf & Hsp & _). cbn [snd] in Hwf.
  assert (Hs : Forall (λ g : MakeLinkError * Prop, ¬ g.2) (ispan_gates FROM arg) ∨ Forall (λ g : MakeLinkError * Prop, ¬ g.2) (ispan_gates TO arg) ∨
    Forall (λ g : MakeLinkError * Prop, ¬ g.2) (ispan_gates TYPE arg)).
  { rewrite !elem_of_cons in Hin. destruct Hin as [->|[->|[->|[]%not_elem_of_nil]]]; tauto. }
  assert (Hw : Forall (λ spec, is_wf_content_spec (sl_namespace (ls_core s)) spec = true) (SlotArg_specs arg)).
  { apply Forall_forall. intros spec Hspec. apply not_false_iff_true. intros Hf. apply Hwf. exists spec. split; [|exact Hf].
    rewrite !elem_of_app. rewrite !elem_of_cons in Hin. destruct Hin as [->|[->|[->|[]%not_elem_of_nil]]]; tauto. }
  destruct arg as [specs|addrs|spans]; cbn [slot_exact].
  - intros t. apply slot_covers; [apply Hok|exact Hw].
  - split; [apply enc_addrs|apply enc_denoting].
  - split; [reflexivity|]. by destruct Hs as [Hs|[Hs|Hs]]; apply ispan_gates_ok in Hs.
Qed.
End MakeLink.

(** C11. MAKELINK is total on any world whose linked slices hold the invariant and keeps
    it, whatever the disk answers. It refuses by the first of its gates that holds: the
    home's two, a spec that is not a content span of a registered document, the first
    span of the first slot that is not the extent of content, a slot past either budget,
    a type of one of the four classes with a writer of their own, an empty type slot, a
    seat the address the link would take already holds. Acknowledged, the link is the
    three slots', each covering what its argument names and nothing else; it stands at
    the home's next address, is the last of the home's links, and no content moved. *)
Theorem makelink_exact {debug : bool} {W R Bytes : Type} `{WS : WorldState W R} `{HL : !HasLinked debug W R}
    (encode_record : R → Bytes) (visibility : W → Address → bool) (k : Kernel (W := W) (Bytes := Bytes)) (answer : CommitAnswer)
    (caller : Caller) (home : Address) (from to ty : SlotArg) :
  let s := linked_root k in
  linked_ok s →
  ∃ k' e, makelink encode_record visibility k answer caller home from to ty = Done (k', e) ∧ linked_ok (linked_root k') ∧
    answers k k' e (makelink_gates s caller home from to ty) (λ a _,
      let s' := linked_root k' in
      filed s home (link_of s from to ty) a s' ∧
      (∀ arg, arg ∈ [from; to; ty] → slot_exact (ls_core s) arg) ∧
      (∀ d, EditInv.contents (ls_core s') d = EditInv.contents (ls_core s) d) ∧
      (∀ d, EditInv.links (ls_core s') d =
         if decide (d = home) then EditInv.links (ls_core s) home ++ [a] else EditInv.links (ls_core s) d)).
Proof.
  cbv zeta. intros Hok. unfold makelink.
  destruct (linked_call encode_record k answer (stage_record visibility caller home from to ty)
    (makelink_gates (linked_root k) caller home from to ty) (λ a _ u, filed (linked_root k) home (link_of (linked_root k) from to ty) a u)
    (λ a s', filed (linked_root k) home (link_of (linked_root k) from to ty) a s')) as (k' & e & Hrun & Hok' & Ha);
    [apply stage_record_closure|exact Hok| |intros a rs u s at_ Hf _ _ Hs _; exact (filed_same _ _ _ _ _ _ Hf Hs)|].
  - intros first. eapply spec_conseq; [exact (stage_record_spec visibility (linked_root k) _ caller home from to ty (on_linked_new k first) eq_refl eq_refl Hok)|].
    cbn beta. intros a stg' (rs & ? & ? & ? & _). by exists rs.
  - exists k', e. split; [exact Hrun|]. split; [exact Hok'|]. destruct e as [[[a p]|[er| | | |]]|]; try exact Ha.
    destruct Ha as [Hg Hf]. split; [exact Hg|]. split; [exact Hf|]. split; [|exact (filed_docs _ _ _ _ _ Hf)].
    intros arg. exact (makelink_slots _ _ _ _ _ _ arg Hok Hg).
Qed.

(** MAKELINK with a record it replaces, in one commit: the record as MAKELINK files
    it, and an annotation of the replacement class from it to the one replaced, at the
    home's next two addresses, both seated there in order. *)
Theorem makelink_replacing_exact {debug : bool} {W R Bytes : Type} `{WS : WorldState W R} `{HL : !HasLinked debug W R}
    (encode_record : R → Bytes) (visibility : W → Address → bool) (k : Kernel (W := W) (Bytes := Bytes)) (answer : CommitAnswer)
    (caller : Caller) (home : Address) (from to ty : SlotArg) (replaces : Address) :
  let s := linked_root k in
  linked_ok s →
  ∃ k' e, makelink_replacing encode_record visibility k answer caller home from to ty replaces = Done (k', e) ∧ linked_ok (linked_root k') ∧
    answers k k' e (replacing_gates s caller home from to ty) (λ a _,
      replaced s home (link_of s from to ty) replaces a (linked_root k')).
Proof.
  cbv zeta. intros Hok. unfold makelink_replacing.
  apply (linked_call encode_record k answer (replacing_in visibility caller home from to ty replaces)
    (replacing_gates (linked_root k) caller home from to ty) (λ a _ u, replaced (linked_root k) home (link_of (linked_root k) from to ty) replaces a u)
    (λ a s', replaced (linked_root k) home (link_of (linked_root k) from to ty) replaces a s')).
  - unfold replacing_in. apply closure_bind; [apply stage_record_closure|intros a]. link_closes.
  - exact Hok.
  - intros first. exact (replacing_spec visibility (linked_root k) _ caller home from to ty replaces (on_linked_new k first) eq_refl eq_refl Hok).
  - intros a rs u s at_ (mid & b & H1 & H2) _ _ Hs _. exists mid, b. split; [exact H1|exact (filed_same _ _ _ _ _ _ H2 Hs)].
Qed.
