(* ===== verification/Discovery.v ===== *)
(** * Discovery over one snapshot

    Models [crates/skep-discovery/src] (M8): the image of a region, the links that touch
    it, as a set, a count, a page, by home and with their history, the endsets touching
    it, the descriptor reads, the projection and reachability of one link, the orphans a
    deletion would leave, and the supersession claims on a link. A snapshot is the world
    it pins; an iterator is the list it yields. *)

From stdpp Require Import gmap sorting.
From S2P Require Import Prelude Txns Tumblers Addresses Arith NsKeys NsState NsOps Spans SpanSets Runs Content RunLists RunUnions VSpace Chain ArrState ArrReads World Edits OrdSets Endsets TypeRegistry.
From S2P Require Import Spanfilade HomeWalk LinkState LinkReads LinkFind LinkWorld.

(** ** Budgets *)

Definition MAX_IMAGE_RUNS : N := 2 ^ 12.
Definition MAX_JOIN_STEPS : N := MAX_IMAGE_RUNS * MAX_IMAGE_RUNS.
Definition MAX_ANSWER_SPANS : N := 2 ^ 16.

(** ** Answers and refusals *)

Definition Cursor : Type := option Address.

Record Window := MkWindow { wi_batch : list Address; wi_next : Cursor; wi_exhausted : bool }.

Record HomeCounts := MkHomeCounts { hc_homes : list (Address * nat); hc_exhausted : bool }.

Record LinkRow := MkLinkRow { lr_a : Address; lr_at : option Seq; lr_retracted_at : option Seq }.

Record LinkRows := MkLinkRows { rw_links : list LinkRow; rw_next : Cursor; rw_exhausted : bool }.

Record SupClaim := MkSupClaim { sc_claim : Address; sc_old : Address; sc_new : Address; sc_home : Address; sc_active : bool }.

Record OrphanReport := MkOrphanReport { orphaned : list Address }.

Inductive QueryError := QE_DocNotRegistered | QE_NotALink | QE_BadRegion | QE_ImageTooLarge | QE_EndsetsTooLarge.

Inductive OrphanError := OE_DocNotRegistered | OE_NotContentSubspace | OE_EmptyWidth | OE_OutOfBounds | OE_ImageTooLarge.

(** ** Homes *)

#[export] Instance address_ord : Ord Address := λ a b, cmp (tumbler a) (tumbler b).

#[export] Instance address_ord_laws : OrdLaws Address.
Proof.
  split; unfold ocmp, address_ord.
  - intros a b. rewrite cmp_eq. split; [by intros ?%Address_eq|by intros ->].
  - intros a b. apply cmp_antisym.
  - intros a b c. apply list_cmp_trans.
Qed.

Definition home_of (a : Address) : option Address := document_of a.

Definition home_readable (readable : Address → bool) (a : Address) : bool :=
  match home_of a with None => true | Some home => readable home end.

Definition home_admitted (readable : Address → bool) (home : Address) : bool := readable home.

Definition home_behind (home cursor : Address) : bool :=
  match home_of cursor with
  | Some resumes_in => (tumbler home <?ₜ tumbler resumes_in)
  | None => (tumbler home <?ₜ tumbler cursor)
  end.

(** ** The image of a region *)

Definition content_vspan (at_ : VPos) (count : Nat) : outcome (option Span) :=
  if negb (VPos_is_content at_) then Done None else ordinal_vspan at_ count.

Definition is_content_vspan (span : Span) : bool :=
  match as_ordinal_vspan span with Some v => OrdinalVSpan_is_content v | None => false end.

Fixpoint check_region (region : list Span) : result unit QueryError :=
  match region with
  | [] => Ok tt
  | span :: region => if negb (is_content_vspan span) then Err QE_BadRegion else check_region region
  end.

(** What one span's resolution walks past: its end less one, or the whole list where
    that is more than a [usize] or than the list. *)
Definition span_walk (run_count : N) (span : Span) : N :=
  match as_ordinal_vspan span with
  | None => run_count
  | Some v =>
      let e := (ov_ordinal v + ov_count v)%N in
      if (e <=? u64_max)%N then N.min (e - 1) run_count else run_count
  end.

Definition run_list_walk (region : list Span) (run_count : N) : N :=
  foldl (λ steps span, N.min (steps + span_walk run_count span) u64_max) 0%N region.

(** The inner loop of [image_on]: [None] is past the budget. *)
Fixpoint gather_runs (runs resolved : list Run) : option (list Run) :=
  match resolved with
  | [] => Some runs
  | r :: resolved => if (N.of_nat (length runs) =? MAX_IMAGE_RUNS)%N then None else gather_runs (runs ++ [r]) resolved
  end.

Fixpoint gather_region (m5 : M5State) (surface : Address) (region : list Span) (runs : list Run) :
    outcome (result (list Run) QueryError) :=
  match region with
  | [] => Done (Ok runs)
  | span :: region =>
      resolved ← iter_resolve m5 surface span;
      match gather_runs runs resolved with
      | None => Done (Err QE_ImageTooLarge)
      | Some runs => gather_region m5 surface region runs
      end
  end.

(** ** Sets *)

Definition V1_SLOTS : list nat := [FROM; TO; TYPE].

(** [filter(|r| seen.insert(r))]. *)
Fixpoint first_seen (seen runs : list Run) : list Run :=
  match runs with
  | [] => []
  | r :: runs => if bool_decide (r ∈ seen) then first_seen seen runs else r :: first_seen (r :: seen) runs
  end.

Definition extents (runs : list Run) : outcome Endset :=
  l ← outcome_map iextent (first_seen [] runs); Done (from_spans l).

Definition probes (first : nat) : list (nat * nat) := imap (λ i slot, (slot, first + i)) V1_SLOTS.

Definition distinct (pairs : list (Address * nat)) : list Address :=
  fst <$> dedup_by (λ later earlier, bool_decide (later.1 = earlier.1)) pairs.

(** One home's share of a selection, ascending, and the part of it past a cursor. *)
Class Share (S : Type) := past : option Address → S → list Address.

#[export] Instance set_share : Share (gset Address) := λ cursor s,
  range (match cursor with None => Unbounded | Some c => Excluded c end) Unbounded s.

#[export] Instance list_share : Share (list Address) := λ cursor l,
  let from := match cursor with None => 0 | Some c => partition_point (λ a, tumbler a ≤?ₜ tumbler c) l end in
  drop from l.

Definition window_over {S} `{Share S} (candidates : S) (cur : Cursor) (n : nat) (keep : Address → bool) : Window :=
  let n := Nat.max n 1 in
  let batch := take n (List.filter keep (past cur candidates)) in
  MkWindow batch (match last batch with Some a => Some a | None => cur end) (length batch <? n).

(** [window_homes]'s loop: [n] is at least one, and never met on entry. *)
Fixpoint window_loop {H S} `{Share S} (home : H → Address) (links : H → outcome S) (readable : Address → bool)
    (cur : Cursor) (n : nat) (homes : list H) (batch : list Address) : outcome (list Address) :=
  match homes with
  | [] => Done batch
  | candidate :: homes =>
      if match cur with Some c => home_behind (home candidate) c | None => false end
      then window_loop home links readable cur n homes batch
      else if negb (home_admitted readable (home candidate)) then window_loop home links readable cur n homes batch
      else
        share ← links candidate;
        room ← usize_sub n (length batch);
        let page := window_over share cur room (λ _, true) in
        let batch := batch ++ wi_batch page in
        if length batch =? n then Done batch else window_loop home links readable cur n homes batch
  end.

Definition window_homes {H S} `{Share S} (homes : list H) (home : H → Address) (links : H → outcome S)
    (readable : Address → bool) (cur : Cursor) (n : nat) : outcome Window :=
  let n := Nat.max n 1 in
  batch ← window_loop home links readable cur n homes [];
  Done (MkWindow batch (match last batch with Some a => Some a | None => cur end) (length batch <? n)).

(** ** The reads of a region *)

Definition touching (l : LinkState) (query : Endset) : outcome (list Touch) :=
  all_touches l ((λ slot, (slot, query)) <$> V1_SLOTS).

Definition touched_by_slot (l : LinkState) (touch : Touch) : outcome (list (Address * nat)) :=
  stab_in_slots l touch (probes 0) ViewActive.

Definition touched (l : LinkState) (touch : Touch) : outcome (list Address) :=
  pairs ← touched_by_slot l touch; Done (distinct pairs).

Definition admitted_touches (readable : Address → bool) (ts : list Touch) : list Touch :=
  List.filter (λ t, home_admitted readable (to_home t)) ts.

Definition selection (l : LinkState) (query : Endset) (readable : Address → bool) : outcome (list Address) :=
  ts ← touching l query;
  found ← outcome_map (touched l) (admitted_touches readable ts);
  Done (concat found).

(** [count_v_by_home_on]'s loop. *)
Fixpoint count_homes (l : LinkState) (n : nat) (except : list Address) (readable : Address → bool) (ts : list Touch)
    (homes : list (Address * nat)) (sum : nat) : list (Address * nat) * nat :=
  match ts with
  | [] => (homes, sum)
  | touch :: ts =>
      if bool_decide (to_home touch ∈ except) then count_homes l n except readable ts homes sum
      else if negb (home_admitted readable (to_home touch)) then count_homes l n except readable ts homes sum
      else
        let count := count_in_slots l touch (probes 0) ViewActive in
        if count =? 0 then count_homes l n except readable ts homes sum
        else
          let sum := sum + count in
          let homes := homes ++ [(to_home touch, count)] in
          if n <=? sum then (homes, sum) else count_homes l n except readable ts homes sum
  end.

Definition touched_audit (l : LinkState) (touch : Touch) : outcome (list Address) :=
  pairs ← stab_in_slots l touch (probes 0) ViewAudit; Done (distinct pairs).

(** [Iterator::min]. *)
Definition min_of (l : list N) : option N :=
  match l with [] => None | x :: l => Some (foldl N.min x l) end.

Definition retracted_at (l : LinkState) (m3 : M3State) (a : Address) : outcome (option Seq) :=
  records ← retractions_of l a; Done (min_of (omap (minted_at_of m3) records)).

Definition history_row (l : LinkState) (m3 : M3State) (a : Address) : outcome LinkRow :=
  r ← retracted_at l m3 a; Done (MkLinkRow a (minted_at_of m3 a) r).

(** One touch's pairs, each endset kept once; [None] is past the span budget. *)
Fixpoint keep_endsets (l : LinkState) (pairs : list (Address * nat)) (kept : list (nat * Endset)) (spans_kept : N) :
    outcome (option (list (nat * Endset) * N)) :=
  match pairs with
  | [] => Done (Some (kept, spans_kept))
  | (a, i) :: pairs =>
      link ← expect_some (readlink l a);
      e ← expect_some (Link_slot link i);
      if bool_decide ((i, e) ∈ kept) then keep_endsets l pairs kept spans_kept
      else
        let spans_kept := (spans_kept + N.of_nat (Endset_len e))%N in
        if (MAX_ANSWER_SPANS <? spans_kept)%N then Done None else keep_endsets l pairs (kept ++ [(i, e)]) spans_kept
  end.

Fixpoint keep_touches (l : LinkState) (readable : Address → bool) (ts : list Touch) (kept : list (nat * Endset))
    (spans_kept : N) : outcome (option (list (nat * Endset))) :=
  match ts with
  | [] => Done (Some kept)
  | touch :: ts =>
      if negb (home_admitted readable (to_home touch)) then keep_touches l readable ts kept spans_kept
      else
        by_slot ← touched_by_slot l touch;
        r ← keep_endsets l by_slot kept spans_kept;
        match r with
        | None => Done None
        | Some (kept, spans_kept) => keep_touches l readable ts kept spans_kept
        end
  end.

(** [Iterator::cmp]. *)
Fixpoint lex_cmp {A} `{Ord A} (l k : list A) : comparison :=
  match l, k with
  | [], [] => Eq
  | [], _ :: _ => Lt
  | _ :: _, [] => Gt
  | x :: l, y :: k => match ocmp x y with Eq => lex_cmp l k | c => c end
  end.

#[export] Instance spans_ord : Ord (list (Tumbler * Tumbler)) := lex_cmp.

(** The order of the answer: the slot, then the spans as (start, width) pairs. *)
Definition endset_key (p : nat * Endset) : nat * list (Tumbler * Tumbler) :=
  (p.1, (λ sp, (start sp, width sp)) <$> endset_spans p.2).

Definition endset_le (p q : nat * Endset) : Prop := ole (endset_key p) (endset_key q).

#[export] Instance endset_le_dec : RelDecision endset_le.
Proof. intros p q. unfold endset_le. apply _. Defined.

(** ** Descriptors *)

Inductive SlotSpec := SpecAny | SpecEmpty | SpecSpans (e : Endset).

Record FourSet := MkFourSet { fs_home : SlotSpec; fs_from : SlotSpec; fs_to : SlotSpec; fs_ty : SlotSpec }.

Definition FourSet_any : FourSet := MkFourSet SpecAny SpecAny SpecAny SpecAny.

Definition is_unsatisfiable (q : FourSet) : bool :=
  existsb (λ spec, match spec with SpecAny => false | SpecEmpty => true | SpecSpans e => Endset_is_empty e end)
    [fs_home q; fs_from q; fs_to q; fs_ty q].

Definition spec_constraint (slot : nat) (spec : SlotSpec) : list (nat * Endset) :=
  match spec with SpecSpans e => [(slot, e)] | SpecAny | SpecEmpty => [] end.

Definition link_constraints (q : FourSet) : option (list (nat * Endset)) :=
  if is_unsatisfiable q then None
  else Some (spec_constraint FROM (fs_from q) ++ spec_constraint TO (fs_to q) ++ spec_constraint TYPE (fs_ty q)).

Inductive Candidate :=
  | Candidate_Chain (home : Address)
  | Candidate_Within (home : Address) (slot : nat) (query : Endset) (rest : list (nat * Endset))
  | Candidate_Driven (touch : Touch) (slot : nat) (rest : list (nat * Endset)).

Definition Candidate_home (c : Candidate) : Address :=
  match c with
  | Candidate_Chain home | Candidate_Within home _ _ _ => home
  | Candidate_Driven touch _ _ => to_home touch
  end.

Definition Candidate_satisfying (l : LinkState) (c : Candidate) : outcome (gset Address) :=
  match c with
  | Candidate_Chain home => homed_in l home [] ViewActive
  | Candidate_Within home slot query rest => match_links_in l home (slot, endset_spans query) rest ViewActive
  | Candidate_Driven touch slot rest => match_links_in l (to_home touch) (slot, touch_spans touch 0) rest ViewActive
  end.

Definition candidates (l : LinkState) (q : FourSet) : outcome (list Candidate) :=
  match link_constraints q with
  | None => Done []
  | Some [] =>
      homes ← match fs_home q with
        | SpecSpans h => homes_under l h
        | SpecAny => homes l
        | SpecEmpty => Panicked
        end;
      Done (Candidate_Chain <$> ord_list homes)
  | Some constraints =>
      driver ← fewest_homes l constraints;
      '(slot, query) ← index constraints driver;
      let rest := take driver constraints ++ drop (S driver) constraints in
      match fs_home q with
      | SpecSpans h =>
          homes ← homes_under l h;
          Done ((λ home, Candidate_Within home slot query rest) <$> ord_list homes)
      | SpecAny | SpecEmpty =>
          ts ← all_touches l [(slot, query)];
          Done ((λ touch, Candidate_Driven touch slot rest) <$> ts)
      end
  end.

Definition satisfying (l : LinkState) (q : FourSet) (readable : Address → bool) : outcome (list Address) :=
  cands ← candidates l q;
  found ← outcome_map (Candidate_satisfying l) (List.filter (λ c, home_admitted readable (Candidate_home c)) cands);
  Done (found ≫= ord_list).

(** ** Orphans *)

Record DeletePartition := MkDeletePartition { pt_deleted : Span; pt_prefix : option Span; pt_suffix : option Span }.

Definition DeletePartition_of (m5 : M5State) (d : Address) (p : VPos) (width : Nat) :
    outcome (result DeletePartition OrphanError) :=
  if negb (VPos_is_content p) then Done (Err OE_NotContentSubspace)
  else if nat_is_zero width then Done (Err OE_EmptyWidth)
  else
    let suffix_start := (vp_ordinal p + width)%N in
    let content_end := (content_count m5 d + 1)%N in
    if nat_is_zero (vp_ordinal p) || (content_end <? suffix_start)%N then Done (Err OE_OutOfBounds)
    else
      suffix_count ← nat_sub content_end suffix_start;
      deleted ← content_vspan p width;
      deleted ← expect_some deleted;
      before ← nat_sub (vp_ordinal p) 1;
      prefix ← content_vspan (VPos_content 1) before;
      suffix ← content_vspan (VPos_content suffix_start) suffix_count;
      Done (Ok (MkDeletePartition deleted prefix suffix)).

Definition touching_side (l : LinkState) (touch : Touch) (first : nat) : outcome (list Address) :=
  pairs ← stab_in_slots l touch (probes first) ViewActive; Done (distinct pairs).

(** [binary_search] on an ascending slice. *)
Definition orphans_of (l : LinkState) (readable : Address → bool) (touch : Touch) : outcome (list Address) :=
  if forallb (λ i, negb (nonemptyb (touch_spans touch i))) (seq 0 (length V1_SLOTS)) then Done []
  else if negb (home_admitted readable (to_home touch)) then Done []
  else
    touching_deleted ← touching_side l touch 0;
    touching_retained ← touching_side l touch (length V1_SLOTS);
    Done (List.filter (λ a, negb (bool_decide (a ∈ touching_retained))) touching_deleted).

(** ** Claims *)

Inductive Endpoint := EndOld | EndNew.

Definition Endpoint_slot (e : Endpoint) : nat := match e with EndOld => FROM | EndNew => TO end.

Definition Endpoint_read_out (e : Endpoint) (t : Tuple) : option Address :=
  let slot := match e with EndOld => tu_from t | EndNew => tu_to t end in
  match single_denoted slot with
  | None => None
  | Some a => match validate a with Ok a => Some a | Err _ => None end
  end.

Definition Endpoint_of (e : Endpoint) (c : SupClaim) : Address := match e with EndOld => sc_old c | EndNew => sc_new c end.

Definition sup_claim (l : LinkState) (t : Tuple) : outcome (option SupClaim) :=
  match Endpoint_read_out EndOld t, Endpoint_read_out EndNew t with
  | Some old, Some new =>
      home ← expect_some (home_of (tu_addr t));
      Done (Some (MkSupClaim (tu_addr t) old new home (is_active l (tu_addr t))))
  | _, _ => Done None
  end.

(** The loop over the touches; [resident] once the key was found a link or a member. *)
Fixpoint claims_over (l : LinkState) (key : Address) (endpoint : Endpoint) (view : View) (readable member : Address → bool)
    (ts : list Touch) (resident : bool) (found : list SupClaim) : outcome (list SupClaim) :=
  match ts with
  | [] => Done found
  | touch :: ts =>
      if negb (home_admitted readable (to_home touch)) then claims_over l key endpoint view readable member ts resident found
      else
        claims ← stab_typed_in l (shipped_class registry Supersedes) (to_home touch) (Endpoint_slot endpoint) (touch_spans touch 0) view;
        if negb (nonemptyb claims) then claims_over l key endpoint view readable member ts resident found
        else if negb resident && negb (bool_decide (is_Some (readlink l key))) && negb (member key) then Done []
        else
          claims ← outcome_map (sup_claim l) claims;
          claims_over l key endpoint view readable member ts true
            (found ++ List.filter (λ c, bool_decide (Endpoint_of endpoint c = key)) (omap id claims))
  end.

Definition claims_naming (l : LinkState) (key : Address) (endpoint : Endpoint) (view : View) (readable member : Address → bool) :
    outcome (list SupClaim) :=
  ts ← all_touches l [(Endpoint_slot endpoint, enc [key])];
  claims_over l key endpoint view readable member ts false [].

Definition is_version_member (m3 : M3State) (a : Address) : bool :=
  bool_decide (level a = Document) && negb (bool_decide (trunk_of a = a)) && is_registered_document m3 a.

(** ** One link *)

Definition join_within_budget (span_count run_count max_product : N) : bool :=
  (run_count <=? MAX_IMAGE_RUNS)%N && (N.min (span_count * run_count) u64_max <=? max_product)%N.

Record SpanBounds := MkSpanBounds { sb_start : Tumbler; sb_reach : Tumbler }.

Definition SpanBounds_of (s : Span) : SpanBounds := MkSpanBounds (start s) (reach s).

Definition SpanBounds_overlaps (a b : SpanBounds) : bool :=
  (sb_start a <?ₜ sb_reach b) && (sb_start b <?ₜ sb_reach a).

Definition endset_touches (e : Endset) (extent_bounds : list SpanBounds) : bool :=
  existsb (λ span, existsb (SpanBounds_overlaps (SpanBounds_of span)) extent_bounds) (endset_spans e).

(** ** The reads *)

Section Reads.
Context {debug : bool} {W R : Type} `{WS : WorldState W R} `{HL : !HasLinked debug W R}.

Definition image_on (w : W) (d : Address) (region : list Span) : outcome (result (list Run) QueryError) :=
  if negb (is_registered_document (m3 w) d) then Done (Err QE_DocNotRegistered)
  else
    _ ←? Done (check_region region);
    surface ← reading_surface (m3 w) d;
    let run_count := N.of_nat (content_run_count (m5 w) surface) in
    if (MAX_JOIN_STEPS <? run_list_walk region run_count)%N then Done (Err QE_ImageTooLarge)
    else gather_region (m5 w) surface region [].

Definition findlinks_v_on (w : W) (d : Address) (region : list Span) (readable : Address → bool) :
    outcome (result (list Address) QueryError) :=
  image ←? image_on w d region;
  query ← extents image;
  found ← selection (link_slice w) query readable;
  Done (Ok found).

Definition count_v_on (w : W) (d : Address) (region : list Span) (readable : Address → bool) :
    outcome (result nat QueryError) :=
  image ←? image_on w d region;
  query ← extents image;
  found ← selection (link_slice w) query readable;
  Done (Ok (length found)).

Definition window_v_on (w : W) (d : Address) (region : list Span) (cur : Cursor) (n : nat) (readable : Address → bool) :
    outcome (result Window QueryError) :=
  image ←? image_on w d region;
  query ← extents image;
  ts ← touching (link_slice w) query;
  page ← window_homes ts to_home (touched (link_slice w)) readable cur n;
  Done (Ok page).

Definition count_v_by_home_on (w : W) (d : Address) (region : list Span) (n : nat) (except : list Address)
    (readable : Address → bool) : outcome (result HomeCounts QueryError) :=
  image ←? image_on w d region;
  query ← extents image;
  let n := Nat.max n 1 in
  ts ← touching (link_slice w) query;
  let '(homes, sum) := count_homes (link_slice w) n except readable ts [] 0 in
  Done (Ok (MkHomeCounts homes (sum <? n))).

Definition find_links_v_history_on (w : W) (d : Address) (region : list Span) (cur : Cursor) (n : nat)
    (readable : Address → bool) : outcome (result LinkRows QueryError) :=
  image ←? image_on w d region;
  query ← extents image;
  ts ← touching (link_slice w) query;
  page ← window_homes ts to_home (touched_audit (link_slice w)) readable cur n;
  links ← outcome_map (history_row (link_slice w) (m3 w)) (wi_batch page);
  Done (Ok (MkLinkRows links (wi_next page) (wi_exhausted page))).

Definition retrieve_endsets_on (w : W) (d : Address) (region : list Span) (readable : Address → bool) :
    outcome (result (list (nat * Endset)) QueryError) :=
  image ←? image_on w d region;
  query ← extents image;
  ts ← touching (link_slice w) query;
  kept ← keep_touches (link_slice w) readable ts [] 0;
  match kept with
  | None => Done (Err QE_EndsetsTooLarge)
  | Some kept => Done (Ok (merge_sort endset_le kept))
  end.

Definition findlinks_ftt_on (w : W) (q : FourSet) (readable : Address → bool) : outcome (list Address) :=
  satisfying (link_slice w) q readable.

Definition count_ftt_on (w : W) (q : FourSet) (readable : Address → bool) : outcome nat :=
  found ← satisfying (link_slice w) q readable; Done (length found).

Definition window_ftt_on (w : W) (q : FourSet) (cur : Cursor) (n : nat) (readable : Address → bool) : outcome Window :=
  cands ← candidates (link_slice w) q;
  window_homes cands Candidate_home (Candidate_satisfying (link_slice w)) readable cur n.

Definition resolve_all (m5 : M5State) (d : Address) (spans : list (option Span)) : outcome (list Run) :=
  found ← outcome_map (iter_resolve m5 d) (omap id spans); Done (concat found).

Definition delete_orphans_on (w : W) (d : Address) (p : VPos) (width : Nat) (readable : Address → bool) :
    outcome (result OrphanReport OrphanError) :=
  if negb (is_registered_document (m3 w) d) then Done (Err OE_DocNotRegistered)
  else
    part ←? DeletePartition_of (m5 w) d p width;
    let link_runs_held := link_run_count (m5 w) d in
    if (MAX_IMAGE_RUNS <? N.of_nat (content_run_count (m5 w) d + link_runs_held))%N then Done (Err OE_ImageTooLarge)
    else
      a_del ← resolve (m5 w) d (pt_deleted part);
      retained ← resolve_all (m5 w) d [pt_prefix part; pt_suffix part];
      if (MAX_IMAGE_RUNS <? N.of_nat (length a_del + length retained + link_runs_held))%N then Done (Err OE_ImageTooLarge)
      else
        deleted ← extents a_del;
        kept ← extents (retained ++ link_runs (m5 w) d);
        let pairs := ((λ slot, (slot, deleted)) <$> V1_SLOTS) ++ ((λ slot, (slot, kept)) <$> V1_SLOTS) in
        ts ← all_touches (link_slice w) pairs;
        found ← outcome_map (orphans_of (link_slice w) readable) ts;
        Done (Ok (MkOrphanReport (concat found))).

Definition in_claims_on (w : W) (y : Address) (view : View) (readable : Address → bool) : outcome (list SupClaim) :=
  claims_naming (link_slice w) y EndOld view readable (is_version_member (m3 w)).

Definition out_claims_on (w : W) (x : Address) (view : View) (readable : Address → bool) : outcome (list SupClaim) :=
  claims_naming (link_slice w) x EndNew view readable (is_version_member (m3 w)).

Definition project_on (w : W) (a : Address) (slot : nat) (d : Address) (readable : Address → bool) :
    outcome (result SpanSet QueryError) :=
  if negb (is_registered_document (m3 w) d) then Done (Err QE_DocNotRegistered)
  else if negb (home_readable readable a) then Done (Err QE_NotALink)
  else
    coverage ←? Done (map_err (λ _, QE_NotALink) (followlink (link_slice w) a slot));
    surface ← reading_surface (m3 w) d;
    let run_count := N.of_nat (content_run_count (m5 w) surface) in
    if negb (join_within_budget (N.of_nat (SpanSet_len coverage)) run_count MAX_ANSWER_SPANS) then Done (Err QE_ImageTooLarge)
    else shown ← project (m5 w) surface coverage; Done (Ok shown).

Definition addressably_discoverable_from_on (w : W) (a d : Address) (readable : Address → bool) :
    outcome (result bool QueryError) :=
  if negb (is_registered_document (m3 w) d) then Done (Err QE_DocNotRegistered)
  else if negb (home_readable readable a) then Done (Err QE_NotALink)
  else
    match readlink (link_slice w) a with
    | None => Done (Err QE_NotALink)
    | Some link =>
        if negb (is_active (link_slice w) a) then Done (Ok false)
        else
          surface ← reading_surface (m3 w) d;
          let span_count := sum_list (Endset_len <$> slots link) in
          let run_count := content_run_count (m5 w) surface + link_run_count (m5 w) surface in
          if negb (join_within_budget (N.of_nat span_count) (N.of_nat run_count) MAX_JOIN_STEPS) then Done (Err QE_ImageTooLarge)
          else
            extents ← outcome_map iextent (content_runs (m5 w) surface ++ link_runs (m5 w) surface);
            let extent_bounds := SpanBounds_of <$> extents in
            Done (Ok (existsb (λ e, endset_touches e extent_bounds) (slots link)))
    end.
End Reads.
