(* ===== verification/DiscoveryLaws.v ===== *)
(** * Homes, pages and touches

    What the discovery reads share: the order of links across homes, so that one walk
    of homes lists links in address order; the page cut from such a list, whatever
    homes it skips; and the links one touch stands for. *)

From stdpp Require Import gmap sorting.
From S2P Require Import Prelude Txns Tumblers Addresses Arith NsKeys NsState NsLaws NsOps NsInv Spans SpanSets Runs Content RunLists RunUnions VSpace Chain ArrState ArrReads World Edits OrdSets Endsets ClassLaws TypeRegistry.
From S2P Require Import Spanfilade SpanfiladeLaws HomeWalk HomeWalkLaws LinkState LinkStateLaws LinkReads LinkFind LinkChains LinkFindLaws LinkFindCalls LinkSlots LinkWorld Discovery.

(** ** A home's links, against documents and cursors *)

Lemma document_before g h x :
  level g = Document → level h = Document → tumbler g <ₜ tumbler h → list_cmp (comps (tumbler g) ++ 0%N :: x) (comps (tumbler h)) = Lt.
Proof.
  intros Hg Hh [(e & He & E)|(p & a & b & a' & b' & Ea & Eb & Hab)]%list_cmp_lt_inv.
  - destruct e as [|c rest]; [done|]. rewrite E. apply list_cmp_app_lt.
    pose proof (document_extends g h c rest Hg Hh E). lia.
  - rewrite Ea, Eb, <- !app_assoc. cbn [app]. by apply list_cmp_app_lt.
Qed.

Lemma document_prefix_level d c :
  level d = Document → is_prefix (tumbler d) (tumbler c) = true → 2 ≤ level_index (level c).
Proof.
  intros Hd [k Hk]%is_prefix_spec. destruct (Address_document_view d Hd) as (n & u & f & Ed & _ & [Hn _] & [Hu _] & _).
  pose proof (Address_level_segs c) as Hl. rewrite Hk, Ed in Hl. repeat (rewrite <- app_assoc in Hl; cbn [app] in Hl).
  rewrite !segs_app in Hl by done. destruct (segs_nonempty (f ++ k)) as (x & r & E). rewrite E in Hl. cbn in Hl. lia.
Qed.

(** Every link of a home behind a cursor is at or before it. *)
Lemma behind_ok d c a : homed a d → home_behind d c = true → a ≤ₜ tumbler c.
Proof.
  intros [Hd [n Hn]] Hb. unfold home_behind, home_of in Hb. pose proof (document_of_segs c) as Hc.
  destruct (document_of c) as [r|]; apply ltb_lt in Hb.
  - destruct Hc as (_ & Hr & _ & _ & Hp). assert (a <ₜ tumbler r).
    { unfold Tlt, cmp. rewrite Hn. by apply document_before. }
    apply is_prefix_spec, prefix_le in Hp. torder.
  - assert (a <ₜ tumbler c); [|torder]. unfold Tlt, cmp. rewrite Hn.
    apply list_cmp_lt_inv in Hb as [(e & _ & E)|(p & x & y & x' & y' & Ea & Eb & Hxy)].
    + assert (is_prefix (tumbler d) (tumbler c) = true) as Hp by (apply is_prefix_spec; by exists e).
      apply (document_prefix_level d c Hd) in Hp. lia.
    + rewrite Ea, Eb, <- !app_assoc. cbn [app]. by apply list_cmp_app_lt.
Qed.

(** ** Pages *)

(** What a cursor has still to show. *)
Definition after (cur : Cursor) (a : Address) : bool :=
  match cur with None => true | Some c => tumbler c <?ₜ tumbler a end.

(** The page of [n] of a listing, from a cursor. *)
Definition page_of (l : list Address) (cur : Cursor) (n : nat) : Window :=
  let n := Nat.max n 1 in
  let batch := take n (List.filter (after cur) l) in
  MkWindow batch (match last batch with Some a => Some a | None => cur end) (length batch <? n).

(** A share lists [l] past any cursor. *)
Definition lists {S} `{Share S} (s : S) (l : list Address) : Prop := ∀ cur, past cur s = List.filter (after cur) l.

Lemma set_lists (s : gset Address) : lists s (ord_list s).
Proof.
  intros cur. unfold past, set_share, range. apply List.filter_ext. intros x. rewrite andb_true_r.
  destruct cur as [c|]; [|done]. cbn. unfold ocmp, address_ord, ltb. by destruct (cmp (tumbler c) (tumbler x)).
Qed.

Lemma filter_never {A} (p : A → bool) l : (∀ x, x ∈ l → p x = false) → List.filter p l = [].
Proof.
  intros H. induction l as [|x l IH]; [done|]. cbn. rewrite H by (by left). apply IH. intros y Hy. apply H. by right.
Qed.

Lemma filter_every {A} (p : A → bool) l : (∀ x, x ∈ l → p x = true) → List.filter p l = l.
Proof.
  intros H. induction l as [|x l IH]; [done|]. cbn. rewrite H by (by left). rewrite IH; [done|]. intros y Hy. apply H. by right.
Qed.

Lemma list_lists (l : list Address) : StronglySorted olt l → lists l l.
Proof.
  intros Hs cur. unfold past, list_share. destruct cur as [c|]; [|by rewrite drop_0, filter_every].
  induction Hs as [|x l Hs IH Hf]; [done|]. unfold partition_point in *. cbn [take_while List.filter after].
  destruct (leb_spec (tumbler x) (tumbler c)) as [Hle|Hlt].
  - cbn [length]. rewrite skipn_cons, IH. by rewrite (proj2 (ltb_ge _ _) Hle).
  - cbn [length]. rewrite drop_0, (proj2 (ltb_lt _ _) Hlt). f_equal. symmetry. apply filter_every. intros y Hy.
    rewrite Forall_forall in Hf. specialize (Hf y Hy). apply ltb_lt. assert (tumbler x <ₜ tumbler y) by exact Hf. torder.
Qed.

Lemma filter_after (l : list Address) cur pre a post :
  StronglySorted olt l → List.filter (after cur) l = pre ++ a :: post → List.filter (after (Some a)) l = post.
Proof.
  intros Hs E. assert (Ha : after cur a = true) by (apply (elem_of_bfilter (after cur) l); rewrite E; set_solver).
  assert (Hsub : List.filter (after (Some a)) l = List.filter (after (Some a)) (List.filter (after cur) l)).
  { clear E Hs. induction l as [|x l IH]; [done|]. cbn [List.filter]. destruct (after (Some a) x) eqn:Ex; cycle 1.
    - rewrite IH. destruct (after cur x); cbn [List.filter]; by rewrite ?Ex.
    - rewrite IH. assert (after cur x = true) as ->; [|cbn [List.filter]; by rewrite Ex]. destruct cur as [c|]; [|done]. cbn in *.
      apply ltb_lt in Ha, Ex. apply ltb_lt. torder. }
  apply (StronglySorted_filter olt (after cur)) in Hs. rewrite Hsub, E in *. clear E Hsub Ha. induction pre as [|x pre IH]; cbn [app List.filter] in *.
  - inversion Hs as [|? ? _ Hf]; subst. cbn [after]. rewrite (proj2 (ltb_ge _ _)) by torder. apply filter_every. intros y Hy.
    rewrite Forall_forall in Hf. apply ltb_lt. by apply (Hf y Hy).
  - inversion Hs as [|? ? Hs' Hf]; subst. rewrite Forall_forall in Hf. assert (Hx : tumbler x <ₜ tumbler a) by (apply (Hf a); set_solver).
    cbn [after]. rewrite (proj2 (ltb_ge _ _)) by torder. by apply IH.
Qed.

(** A page and what follows its cursor are what the reader had still to see. *)
Definition tiles (l : list Address) (cur : Cursor) (n : nat) (p : Window) : Prop :=
  wi_batch p ++ List.filter (after (wi_next p)) l = List.filter (after cur) l ∧
  length (wi_batch p) ≤ Nat.max n 1 ∧
  (if wi_exhausted p then List.filter (after (wi_next p)) l = [] else length (wi_batch p) = Nat.max n 1).

Lemma page_tiles l cur n : StronglySorted olt l → tiles l cur n (page_of l cur n).
Proof.
  intros Hs. unfold tiles, page_of. cbn [wi_batch wi_next wi_exhausted]. set (f := List.filter (after cur) l).
  set (k := Nat.max n 1). assert (Hk : 1 ≤ k) by (unfold k; lia). clearbody k.
  assert (Hnext : List.filter (after (match last (take k f) with Some a => Some a | None => cur end)) l = drop k f).
  { destruct (last (take k f)) as [a|] eqn:E.
    - apply last_Some in E as [pre E]. apply (filter_after l cur pre a); [done|]. fold f. by rewrite <- (take_drop k f) at 1; rewrite E, <- app_assoc.
    - apply last_None in E. fold f. destruct f as [|x f']; [by rewrite drop_nil|]. destruct k; [lia|done]. }
  rewrite Hnext, take_drop. split; [done|]. rewrite length_take. split; [lia|].
  destruct (Nat.ltb_spec (k `min` length f) k); [apply drop_ge; lia|lia].
Qed.

Section Pages.
Context {H S : Type} `{Share S} (home : H → Address) (links : H → outcome S) (listing : H → list Address).
Context (readable : Address → bool).

(** The whole listing of a walk: the admitted homes' shares, in order. *)
Definition full (hs : list H) : list Address := List.filter (λ h, home_admitted readable (home h)) hs ≫= listing.

Definition shares_ok (hs : list H) : Prop :=
  ∀ h, h ∈ hs → (home_admitted readable (home h) = true → ∃ sh, links h = Done sh ∧ lists sh (listing h)) ∧
    ∀ a, a ∈ listing h → homed (tumbler a) (home h).

Lemma bfilter_app {A} (p : A → bool) l k : List.filter p (l ++ k) = List.filter p l ++ List.filter p k.
Proof using. induction l as [|x l IH]; cbn; [done|]. by destruct (p x); cbn; rewrite IH. Qed.

Lemma window_loop_ok cur n hs batch :
  shares_ok hs → length batch < n →
  window_loop home links readable cur n hs batch = Done (take n (batch ++ List.filter (after cur) (full hs))).
Proof using.
  revert batch. induction hs as [|h hs IH]; intros batch Hok Hlt; cbn [window_loop].
  { unfold full. cbn. rewrite app_nil_r, take_ge by lia. done. }
  destruct (Hok h ltac:(by left)) as [Hsh Hhm]. assert (Hrest : shares_ok hs) by (intros x Hx; apply Hok; by right).
  unfold full. cbn [List.filter]. fold (full hs).
  destruct (match cur with Some c => home_behind (home h) c | None => false end) eqn:Eb.
  - rewrite IH by done. do 3 f_equal. destruct (home_admitted readable (home h)); [|done]. cbn [mbind list_bind]. fold (full hs).
    rewrite bfilter_app, (filter_never _ (listing h)); [done|]. intros a Ha. destruct cur as [c|]; [|done]. cbn.
    apply ltb_ge. eapply behind_ok; [by apply Hhm|exact Eb].
  - destruct (home_admitted readable (home h)) eqn:Ea; cbn [negb]; [|by apply IH]. cbn [mbind list_bind]. fold (full hs).
    destruct (Hsh eq_refl) as (sh & -> & Hl). cbn [mbind outcome_bind]. unfold usize_sub.
    rewrite (proj2 (Nat.leb_le _ _)) by lia. cbn [mbind outcome_bind]. unfold window_over. cbn [wi_batch].
    rewrite Nat.max_l by lia. rewrite (Hl cur), (filter_every (λ _, true)) by done. rewrite bfilter_app.
    set (page := List.filter (after cur) (listing h)). rewrite length_app, length_take.
    destruct (Nat.eqb_spec (length batch + min (n - length batch) (length page)) n) as [E|E].
    + rewrite take_app. rewrite (take_ge batch) by lia. do 2 f_equal. rewrite take_app_le by lia. done.
    + rewrite (take_ge page) by lia. rewrite IH; [|done|rewrite length_app; lia]. by rewrite <- app_assoc.
Qed.

Lemma window_homes_ok cur n hs :
  shares_ok hs → window_homes hs home links readable cur n = Done (page_of (full hs) cur n).
Proof using.
  intros Hok. unfold window_homes. rewrite window_loop_ok by (done || (cbn; lia)). done.
Qed.
End Pages.

(** ** One walk of homes lists links in address order *)

Lemma sorted_app {A} (R : relation A) l k :
  StronglySorted R l → StronglySorted R k → (∀ x y, x ∈ l → y ∈ k → R x y) → StronglySorted R (l ++ k).
Proof.
  induction 1 as [|x l Hl IH Hf]; intros Hk Hlk; [done|]. cbn. constructor.
  - apply IH; [done|]. intros a b Ha Hb. apply Hlk; [by right|done].
  - apply Forall_app. split; [done|]. apply Forall_forall. intros y Hy. apply Hlk; [by left|done].
Qed.

Section Ascending.
Context {H : Type} (home : H → Address) (listing : H → list Address).

Definition ascending (hs : list H) : Prop := StronglySorted (λ x y, tumbler (home x) <ₜ tumbler (home y)) hs.

Definition listing_ok (h : H) : Prop :=
  StronglySorted olt (listing h) ∧ ∀ a, a ∈ listing h → homed (tumbler a) (home h).

Lemma listings_sorted hs : ascending hs → (∀ h, h ∈ hs → listing_ok h) → StronglySorted olt (hs ≫= listing).
Proof using.
  induction 1 as [|h hs Hs IH Hf]; intros Hl; cbn; [constructor|]. destruct (Hl h ltac:(by left)) as [H1 H2]. apply sorted_app.
  - done.
  - apply IH. intros x Hx. apply Hl. by right.
  - intros a b Ha Hb. apply list_elem_of_bind in Hb as (x & Hb & Hx). rewrite Forall_forall in Hf.
    destruct (Hl x ltac:(by right)) as [_ Hx2]. exact (homed_ascend _ _ _ _ (H2 a Ha) (Hx2 b Hb) (Hf x Hx)).
Qed.

Lemma full_sorted readable hs :
  ascending hs → (∀ h, h ∈ hs → home_admitted readable (home h) = true → listing_ok h) → StronglySorted olt (full home listing readable hs).
Proof using.
  intros Hs Hl. apply listings_sorted; [by apply StronglySorted_filter|]. intros h [Hh Ha]%elem_of_bfilter. by apply Hl.
Qed.

Lemma elem_of_full readable hs a :
  a ∈ full home listing readable hs ↔ ∃ h, h ∈ hs ∧ readable (home h) = true ∧ a ∈ listing h.
Proof using. unfold full. rewrite list_elem_of_bind. setoid_rewrite elem_of_bfilter. unfold home_admitted. naive_solver. Qed.

Lemma homed_in_home h a : listing_ok h → a ∈ listing h → home_of a = Some (home h).
Proof using. intros [_ Hl] Ha. unfold home_of. apply (homed_document (tumbler a)); [apply validate_self|by apply Hl]. Qed.

Lemma find_home hs h : ascending hs → h ∈ hs → List.find (λ x, bool_decide (home x = home h)) hs = Some h.
Proof using.
  induction 1 as [|x hs Hs IH Hf]; [by intros ?%not_elem_of_nil|]. intros [->|Hin]%elem_of_cons; cbn [List.find].
  - by rewrite bool_decide_eq_true_2.
  - rewrite Forall_forall in Hf. specialize (Hf h Hin). rewrite bool_decide_eq_false_2 by (intros E; rewrite E in Hf; torder).
    by apply IH.
Qed.

(** The listing of one home is what of the whole has that home. *)
Lemma full_of_home readable hs d :
  ascending hs → (∀ h, h ∈ hs → home_admitted readable (home h) = true → listing_ok h) →
  List.filter (λ a, bool_decide (home_of a = Some d)) (full home listing readable hs) =
  match List.find (λ h, bool_decide (home h = d)) hs with
  | Some h => if home_admitted readable d then listing h else []
  | None => []
  end.
Proof using.
  intros Hs Hl. unfold full. induction Hs as [|h hs Hs IH Hf]; [done|]. cbn [List.filter List.find].
  specialize (IH (λ x Hx, Hl x (list_elem_of_further _ _ _ Hx))). specialize (Hl h ltac:(by left)).
  assert (Hthis : home_admitted readable (home h) = true →
    List.filter (λ a, bool_decide (home_of a = Some d)) (listing h) = if bool_decide (home h = d) then listing h else []).
  { intros Ha. specialize (Hl Ha). case_bool_decide as E; [apply filter_every|apply filter_never]; intros a Hin.
    - apply bool_decide_eq_true. rewrite (homed_in_home h a Hl Hin). by f_equal.
    - apply bool_decide_eq_false. rewrite (homed_in_home h a Hl Hin). congruence. }
  destruct (home_admitted readable (home h)) eqn:Ha; cbn [mbind list_bind]; rewrite ?bfilter_app, ?IH, ?Hthis by done; clear Hthis;
    case_bool_decide as E; try done; subst d; rewrite ?Ha.
  - destruct (List.find _ hs) as [g|] eqn:Eg; [|by rewrite app_nil_r]. exfalso. apply find_some in Eg as [Hg%list_elem_of_In Eg].
    apply bool_decide_eq_true in Eg. rewrite Forall_forall in Hf. specialize (Hf g Hg). rewrite Eg in Hf. torder.
  - by destruct (List.find _ hs).
Qed.
End Ascending.

(** ** Counts by home *)

(** The shortest prefix whose counts reach [n] from [sum], or all. *)
Fixpoint cut (n sum : nat) (rows : list (Address * nat)) : list (Address * nat) :=
  match rows with
  | [] => []
  | (h, c) :: rows => (h, c) :: if n <=? sum + c then [] else cut n (sum + c) rows
  end.

Definition counted (rows : list (Address * nat)) : nat := sum_list (snd <$> rows).

Lemma total_app l k : counted (l ++ k) = counted l + counted k.
Proof. unfold counted. by rewrite fmap_app, sum_list_with_app. Qed.

Lemma cut_ok n sum rows :
  sum < n → ∃ rest, rows = cut n sum rows ++ rest ∧ (rest ≠ [] → n ≤ sum + counted (cut n sum rows)) ∧
    ∀ pre x, cut n sum rows = pre ++ [x] → sum + counted pre < n.
Proof.
  revert sum. induction rows as [|[h c] rows IH]; intros sum Hlt; cbn [cut].
  - exists []. split_and!; [done|done|]. by intros [|??] ? ?.
  - destruct (Nat.leb_spec n (sum + c)).
    + exists rows. split_and!; [done|unfold counted; cbn; lia|]. intros [|y pre] x E; [cbn; unfold counted; cbn; lia|]. by destruct pre.
    + destruct (IH (sum + c)) as (rest & E & H1 & H2); [done|]. exists rest. cbn [app]. rewrite <- E. split; [done|]. split.
      * intros Hr. specialize (H1 Hr). unfold counted in *. cbn. lia.
      * intros [|y pre] x Ex; [unfold counted; cbn; lia|]. injection Ex as <- Ex. specialize (H2 _ _ Ex). unfold counted in *. cbn. lia.
Qed.

(** ** The pairs of one touch, by address *)

Lemma distinct_ok (pairs : list (Address * nat)) :
  StronglySorted olt ((λ p, (tumbler p.1, p.2)) <$> pairs) →
  StronglySorted olt (distinct pairs) ∧ ∀ a, a ∈ distinct pairs ↔ ∃ i, (a, i) ∈ pairs.
Proof.
  intros Hs. destruct (dedup_by_ok (λ p, tumbler p.1) (λ later earlier, bool_decide (later.1 = earlier.1)) pairs) as (H1 & H2 & H3).
  { intros a b _ _. rewrite bool_decide_eq_true. split; [by intros ->|by intros ?%Address_eq]. }
  { remember ((λ p, (tumbler p.1, p.2)) <$> pairs) as k eqn:E. revert pairs E. induction Hs as [|x l Hl IH Hf]; intros [|p pairs] E; try done; [constructor|].
    cbn in E. injection E as -> ->. constructor; [by apply IH|]. apply Forall_forall. intros q Hq. rewrite Forall_forall in Hf.
    specialize (Hf (tumbler q.1, q.2) (list_elem_of_fmap_2 _ _ _ Hq)). apply pair_olt in Hf. apply ole_lt_eq. naive_solver. }
  unfold distinct. split.
  - clear -H1. induction H1 as [|x l Hl IH Hf]; cbn; constructor; [done|]. apply Forall_fmap. eapply Forall_impl; [exact Hf|]. by intros y Hy.
  - intros a. rewrite list_elem_of_fmap. split.
    + intros ([b i] & -> & Hin). exists i. by apply H2.
    + intros (i & Hin). destruct (H3 _ Hin) as ([b j] & Hb & E). cbn in E. apply Address_eq in E as ->. by exists (a, j).
Qed.

Section Touches.
Context (s : LinkState) (Hs : findable s).

Definition slot_listing (probes : list (nat * nat)) (view : View) (t : Touch) : list Address :=
  match stab_in_slots s t probes view with Done pairs => distinct pairs | Panicked => [] end.

(** A resident link of [d] some slot of which meets its probe's query. *)
Definition probed_link (queries : list (nat * Endset)) (probes : list (nat * nat)) (view : View) (d a : Address) : Prop :=
  ∃ slot, probed s queries probes d (tumbler a) slot ∧ view_admits s view (tumbler a) = true.

Lemma slot_listing_ok queries ts t probes view :
  all_touches s queries = Done ts → t ∈ ts → probes_ok queries probes →
  ∃ pairs, stab_in_slots s t probes view = Done pairs ∧ slot_listing probes view t = distinct pairs ∧
    listing_ok to_home (slot_listing probes view) t ∧
    (∀ a slot, (a, slot) ∈ pairs ↔ probed s queries probes (to_home t) (tumbler a) slot ∧ view_admits s view (tumbler a) = true) ∧
    (∀ a, a ∈ slot_listing probes view t ↔ probed_link queries probes view (to_home t) a) ∧
    count_in_slots s t probes view = length (slot_listing probes view t).
Proof using Hs.
  intros Hts Ht Hp. destruct (slots_exact s queries ts t probes view Hs Hts Ht Hp) as (out & Ho & Hsort & Hin & Hcount).
  destruct (distinct_ok out Hsort) as [Hd1 Hd2]. unfold slot_listing, listing_ok. rewrite Ho. exists out.
  assert (Hm : ∀ a, a ∈ distinct out ↔ probed_link queries probes view (to_home t) a).
  { intros a. rewrite Hd2. unfold probed_link. by setoid_rewrite Hin. }
  split_and!; [done|done|done| |done|done|].
  - intros a (slot & (v & j & q & _ & Hh & _) & _)%Hm. exact Hh.
  - rewrite Hcount. assert ((list_to_set out.*1 : gset Address) = list_to_set (distinct out)) as ->.
    { apply set_eq. intros a. rewrite !elem_of_list_to_set, Hd2, list_elem_of_fmap. split; [intros ([b i] & -> & ?); by exists i|].
      intros (i & ?). by exists (a, i). }
    apply size_list_to_set. clear -Hd1. induction Hd1 as [|x l Hl IH Hf]; constructor; [|done]. intros Hx.
    rewrite Forall_forall in Hf. exact (olt_irrefl _ (Hf x Hx)).
Qed.

Lemma touches_ascending queries ts : all_touches s queries = Done ts → ascending to_home ts.
Proof using Hs.
  intros Hts. destruct (all_touches_ok s Hs queries) as (ts' & E & Hc). rewrite Hts in E. injection E as <-.
  pose proof (ca_sorted _ _ _ Hc) as Hsort. pose proof (λ t Ht, proj1 (ca_home _ _ _ Hc t Ht)) as Hh. clear -Hsort Hh. unfold ascending.
  induction ts as [|t ts IH]; [constructor|]. cbn in Hsort. inversion Hsort as [|? ? Hs' Hf]; subst. constructor.
  - apply IH; [done|]. intros x Hx. apply Hh. by right.
  - apply Forall_forall. intros x Hx. rewrite Forall_forall in Hf. specialize (Hf (to_held x) (list_elem_of_fmap_2 _ _ _ Hx)).
    rewrite (Hh t ltac:(by left)), (Hh x ltac:(by right)) in Hf. exact Hf.
Qed.

(** Every home with a hit is touched. *)
Lemma probed_touched queries ts probes d a slot :
  all_touches s queries = Done ts → probed s queries probes d a slot → ∃ t, t ∈ ts ∧ to_home t = d.
Proof using Hs.
  intros Hts (v & j & query & Ha & Hd & _ & Hj & (q & Hq & Hm)%slot_overlaps_iff).
  destruct (all_touches_ok s Hs queries) as (ts' & E & Hc). rewrite Hts in E. injection E as <-.
  destruct (ca_hits _ _ _ Hc a v d j slot query q Ha Hd Hj Hq Hm) as (t & p & Ht & E & _). by exists t.
Qed.
End Touches.

(** ** The store the writes leave *)

(** Every store the link writes reach is searchable, while its levels fit. *)
Lemma linked_ok_findable s : linked_ok s → levels_fit (ls_links s) = true → findable (ls_links s).
Proof.
  intros Hs Hl. split; [apply Hs| |done]. unfold chained. apply forallb_forall. intros t Ht%list_elem_of_In. apply elem_of_elements in Ht. unfold link_keys in Ht. apply elem_of_dom in Ht.
  destruct (lo_homes s Hs t Ht) as (a & d & -> & Hd & _). apply on_link_chain_iff. rewrite validate_self. split; [done|]. by exists d.
Qed.
