(* ===== verification/DiscoveryCalls.v ===== *)
(** * The reads of a region

    The image of a region on the reading surface, and the reads of the links that touch
    it, each characterised on the map of links and the addresses the surface shows: the
    set, its count, its pages, its counts by home, its history, and the endsets. *)

From stdpp Require Import gmap sorting.
From S2P Require Import Prelude Txns Tumblers Addresses AddrMaps Arith NsKeys NsState NsLaws NsOps NsInv NsCalls Spans SpanSets Runs Content RunLists RunUnions VSpace Provenance Chain ArrState ArrReads World Edits EditInv EditSteps EditCalls CopyCalls VersionCalls RetrievalLaws OrdSets Endsets ClassLaws TypeRegistry.
From S2P Require Import Spanfilade SpanfiladeLaws HomeWalk HomeWalkLaws LinkState LinkStateLaws LinkReads LinkFind LinkChains LinkFindLaws LinkFindCalls LinkSlots LinkWorld Discovery DiscoveryLaws SlotCalls.

(** ** A gate ahead of a read *)

Lemma judged_gate_done {A E} (b : bool) (e : E) (P : Prop) (m : outcome (result A E)) gates Q :
  (b = true ↔ P) → (b = false → ∃ r, m = Done r ∧ judged r gates Q) →
  ∃ r, (if b then Done (Err e) else m) = Done r ∧ judged r ((e, P) :: gates) Q.
Proof.
  intros Hb Hr. destruct b; [exists (Err e); split; [done|]; apply first_refusal_here; by apply Hb|].
  destruct (Hr eq_refl) as (r & -> & Hj). exists r. split; [done|]. by apply (judged_gate false e P r).
Qed.

(** ** Overlap, as a common position *)

Lemma overlaps_common q s : overlaps q s = true ↔ ∃ t, contains q t = true ∧ contains s t = true.
Proof.
  rewrite overlaps_iff. setoid_rewrite contains_spec. pose proof (start_lt_reach q). pose proof (start_lt_reach s). split.
  - intros [? ?]. destruct (leb_spec (start q) (start s)); [exists (start s)|exists (start q)]; split_and!; torder.
  - intros (t & [? ?] & [? ?]). split; torder.
Qed.

Lemma covers_iff e t : Endset_covers e t = true ↔ ∃ s, s ∈ endset_spans e ∧ contains s t = true.
Proof. unfold Endset_covers. rewrite existsb_exists. by setoid_rewrite list_elem_of_In. Qed.

Lemma slot_overlaps_covers v slot query :
  slot_overlaps v slot query = true ↔
  ∃ e t, Link_slot v slot = Some e ∧ Endset_covers e t = true ∧ Endset_covers query t = true.
Proof.
  rewrite slot_overlaps_iff. unfold slot_meets. destruct (Link_slot v slot) as [e|]; [|naive_solver].
  setoid_rewrite covers_iff. setoid_rewrite overlaps_common. naive_solver.
Qed.

Lemma concat_bind {A B} (f : A → list B) l : concat (f <$> l) = l ≫= f.
Proof. induction l as [|x l IH]; cbn; [done|]. by rewrite IH. Qed.

(** ** The image *)

Definition region_runs (s : Slices) (d : Address) (region : list Span) : list Run :=
  region ≫= λ span, spec_runs s (MkVSpec (reads (sl_namespace s) d) span).

(** The addresses a reader of [d] is shown at the region's positions, in order. *)
Definition region_addrs (s : Slices) (d : Address) (region : list Span) : list Address :=
  region ≫= λ span, spec_addrs s (MkVSpec (reads (sl_namespace s) d) span).

Definition image_gates (s : Slices) (d : Address) (region : list Span) : list (QueryError * Prop) :=
  [(QE_DocNotRegistered, is_registered_document (sl_namespace s) d = false);
   (QE_BadRegion, ∃ span, span ∈ region ∧ is_content_vspan span = false);
   (QE_ImageTooLarge,
     (MAX_JOIN_STEPS < run_list_walk region (N.of_nat (content_run_count (sl_arrangement s) (reads (sl_namespace s) d))))%N ∨
     (MAX_IMAGE_RUNS < N.of_nat (length (region_runs s d region)))%N)].

Lemma check_region_ok region :
  judged (check_region region) [(QE_BadRegion, ∃ span, span ∈ region ∧ is_content_vspan span = false)]
    (λ _, ∀ span, span ∈ region → is_content_vspan span = true).
Proof.
  induction region as [|x region IH]; cbn [check_region].
  - split; [|by intros span ?%not_elem_of_nil]. constructor; [|constructor]. by intros (span & ?%not_elem_of_nil & _).
  - destruct (is_content_vspan x) eqn:Ex; cbn [negb]; [|by apply first_refusal_here; exists x; split; [left|]].
    destruct (check_region region) as [u|e]; cbn in *.
    + destruct IH as [Hn Hall]. apply (proj1 (Forall_singleton _ _)) in Hn. cbn in Hn. split.
      * constructor; [|constructor]. cbn. intros (span & [->|Hin]%elem_of_cons & Hf); [congruence|]. apply Hn. by exists span.
      * intros span [->|Hin]%elem_of_cons; [done|by apply Hall].
    + apply first_refusal_cons in IH as [[<- (span & Hin & Hf)]|[_ []%first_refusal_nil]]. apply first_refusal_here. exists span. split; [by right|done].
Qed.

Lemma gather_runs_ok runs resolved :
  (N.of_nat (length runs) ≤ MAX_IMAGE_RUNS)%N →
  gather_runs runs resolved = if (MAX_IMAGE_RUNS <? N.of_nat (length runs + length resolved))%N then None else Some (runs ++ resolved).
Proof.
  revert runs. induction resolved as [|r resolved IH]; intros runs Hr; cbn [gather_runs].
  - cbn [length]. by rewrite Nat.add_0_r, (proj2 (N.ltb_ge _ _) Hr), app_nil_r.
  - destruct (N.eqb_spec (N.of_nat (length runs)) MAX_IMAGE_RUNS) as [E|E].
    + destruct (N.ltb_spec MAX_IMAGE_RUNS (N.of_nat (length runs + length (r :: resolved)))); [done|cbn in *; lia].
    + rewrite IH by (rewrite length_app; cbn; lia). rewrite length_app, <- app_assoc. cbn [length app].
      by replace (length runs + 1 + length resolved) with (length runs + S (length resolved)) by lia.
Qed.

Lemma content_spec_runs s d span :
  core_ok s → is_content_vspan span = true →
  iter_resolve (sl_arrangement s) (reads (sl_namespace s) d) span = Done (spec_runs s (MkVSpec (reads (sl_namespace s) d) span)) ∧
  runs_ok (spec_runs s (MkVSpec (reads (sl_namespace s) d) span)) ∧
  flat (spec_runs s (MkVSpec (reads (sl_namespace s) d) span)) = spec_addrs s (MkVSpec (reads (sl_namespace s) d) span).
Proof.
  unfold is_content_vspan. intros Hok Hc. destruct (as_ordinal_vspan span) as [o|] eqn:Eo; [|discriminate Hc].
  apply N.eqb_eq in Hc. by apply (spec_runs_ok s (MkVSpec (reads (sl_namespace s) d) span) o).
Qed.

Lemma gather_region_ok s d region runs :
  core_ok s → (∀ span, span ∈ region → is_content_vspan span = true) → (N.of_nat (length runs) ≤ MAX_IMAGE_RUNS)%N →
  gather_region (sl_arrangement s) (reads (sl_namespace s) d) region runs =
  Done (if (MAX_IMAGE_RUNS <? N.of_nat (length runs + length (region_runs s d region)))%N then Err QE_ImageTooLarge
        else Ok (runs ++ region_runs s d region)).
Proof.
  intros Hok. revert runs. induction region as [|x region IH]; intros runs Hr Hn; cbn [gather_region].
  - unfold region_runs. cbn. by rewrite Nat.add_0_r, (proj2 (N.ltb_ge _ _) Hn), app_nil_r.
  - destruct (content_spec_runs s d x Hok (Hr x ltac:(by left))) as (-> & _). cbn [mbind outcome_bind].
    unfold region_runs. cbn [mbind list_bind]. fold (region_runs s d region). rewrite gather_runs_ok by done. rewrite length_app.
    set (y := spec_runs s _). destruct (N.ltb_spec MAX_IMAGE_RUNS (N.of_nat (length runs + length y))).
    + by rewrite (proj2 (N.ltb_lt _ _)) by lia.
    + rewrite IH; [|intros span Hin; apply Hr; by right|rewrite length_app; lia]. by rewrite length_app, <- app_assoc, Nat.add_assoc.
Qed.

Lemma region_runs_ok s d region :
  core_ok s → (∀ span, span ∈ region → is_content_vspan span = true) →
  runs_ok (region_runs s d region) ∧ flat (region_runs s d region) = region_addrs s d region.
Proof.
  intros Hok. induction region as [|x region IH]; intros Hr; [split; [apply runs_ok_nil|done]|].
  destruct (content_spec_runs s d x Hok (Hr x ltac:(by left))) as (_ & H1 & H2).
  destruct IH as [H3 H4]; [intros span Hin; apply Hr; by right|]. unfold region_runs, region_addrs in *. cbn. split.
  - by apply Forall_app.
  - by rewrite flat_app, H2, H4.
Qed.

(** *** The image's extents, each once *)

Lemma elem_of_first_seen seen runs r : r ∈ first_seen seen runs ↔ r ∈ runs ∧ r ∉ seen.
Proof.
  revert seen. induction runs as [|x runs IH]; intros seen; cbn [first_seen]; [split; [by intros ?%not_elem_of_nil|by intros [?%not_elem_of_nil _]]|].
  case_bool_decide as Hx; rewrite ?elem_of_cons, ?IH, ?elem_of_cons.
  - split; [tauto|]. intros [[->|?] ?]; tauto.
  - destruct (decide (r = x)) as [->|?]; naive_solver.
Qed.

Lemma query_extents_ok runs :
  runs_ok runs → ∃ e, extents runs = Done e ∧ Forall is_extent (endset_spans e) ∧
    ∀ t, Endset_covers e t = true ↔ under_some (flat runs) t.
Proof.
  intros Hr. unfold extents. assert (Hf : runs_ok (first_seen [] runs)).
  { apply Forall_forall. intros r [Hin _]%elem_of_first_seen. by apply (proj1 (Forall_forall _ _) Hr). }
  destruct (iextents_ok _ Hf) as (es & -> & He & Hd). cbn [mbind outcome_bind]. eexists. split; [reflexivity|]. split; [exact He|].
  intros t. unfold Endset_covers. cbn [endset_spans from_spans]. rewrite (Hd t : existsb _ _ = true ↔ _). unfold under_some, flat.
  setoid_rewrite list_elem_of_bind. setoid_rewrite elem_of_first_seen.
  split; intros (b & (r & Hb & Hin) & Hp); exists b; (split; [exists r; split; [done|]|done]); [by apply Hin|].
  split; [done|apply not_elem_of_nil].
Qed.

(** ** What touches a region *)

(** Some slot of the link covers a position at or under an address of the region. *)
Definition meets_slot (v : Link) (slot : nat) (addrs : list Address) : Prop :=
  ∃ e t, Link_slot v slot = Some e ∧ Endset_covers e t = true ∧ under_some addrs t.

Definition meets_region (v : Link) (addrs : list Address) : Prop := ∃ slot, slot ∈ V1_SLOTS ∧ meets_slot v slot addrs.

(** A link of a home the reader may read, resident, in the view, that meets the region. *)
Definition region_link (l : LinkState) (view : View) (addrs : list Address) (readable : Address → bool) (a : Address) : Prop :=
  ∃ v d, LinkState.links l !! tumbler a = Some v ∧ homed (tumbler a) d ∧ readable d = true ∧
    view_admits l view (tumbler a) = true ∧ meets_region v addrs.

Definition region_queries (query : Endset) : list (nat * Endset) := (λ slot, (slot, query)) <$> V1_SLOTS.

Lemma region_probes_ok query : probes_ok (region_queries query) (probes 0).
Proof.
  intros slot j Hin. unfold probes, V1_SLOTS in Hin. cbn in Hin. rewrite !elem_of_cons in Hin.
  destruct Hin as [[= -> ->]|[[= -> ->]|[[= -> ->]|[]%not_elem_of_nil]]]; by exists query.
Qed.

Lemma region_probed l query addrs d a slot :
  (∀ t, Endset_covers query t = true ↔ under_some addrs t) →
  probed l (region_queries query) (probes 0) d a slot ↔
  ∃ v, LinkState.links l !! a = Some v ∧ homed a d ∧ slot ∈ V1_SLOTS ∧ meets_slot v slot addrs.
Proof.
  intros Hq. unfold probed, meets_slot. setoid_rewrite slot_overlaps_covers. split.
  - intros (v & j & qu & Ha & Hd & Hpr & Hj & e & t & He). unfold region_queries in Hj. rewrite list_lookup_fmap in Hj.
    apply fmap_Some in Hj as (sl & Hj & [= -> ->]). exists v. split_and!; [done|done|by apply list_elem_of_lookup_2 in Hj|].
    exists e, t. split_and!; [apply He..|]. apply Hq, He.
  - intros (v & Ha & Hd & Hin & e & t & He). apply list_elem_of_lookup in Hin as [j Hj]. exists v, j, query.
    split_and!; [done|done| |unfold region_queries; by rewrite list_lookup_fmap, Hj|].
    2: { exists e, t. split_and!; [apply He..|]. apply Hq, He. }
    unfold probes. apply elem_of_lookup_imap. by exists j, slot.
Qed.

Section Region.
Context {debug : bool} {W R : Type} `{WS : WorldState W R} `{HL : !HasLinked debug W R}.
Context (w : W) (Hcore : core_ok (slices w)) (Hfind : findable (link_slice w)).
#[local] Notation l := (link_slice w).
#[local] Notation core := (slices w).

Lemma region_image_ok d region :
  ∃ r, image_on w d region = Done r ∧
    judged r (image_gates core d region) (λ image, runs_ok image ∧ flat image = region_addrs core d region).
Proof using Hcore.
  unfold image_on, image_gates. change (m3 w) with (sl_namespace core). change (m5 w) with (sl_arrangement core).
  destruct (is_registered_document (sl_namespace core) d) eqn:Ed; cbn [negb]; cycle 1.
  { eexists. split; [reflexivity|]. by apply first_refusal_here. }
  pose proof (check_region_ok region) as Hc. destruct (check_region region) as [u|e]; cbn [mbind outcome_bind].
  2: { eexists. split; [reflexivity|]. cbn in Hc. apply first_refusal_cons in Hc as [[<- Hx]|[_ []%first_refusal_nil]].
       apply first_refusal_next; [cbn; congruence|]. by apply first_refusal_here. }
  destruct Hc as [Hn Hall]. apply (proj1 (Forall_singleton _ _)) in Hn. rewrite reading_reads. cbn [mbind outcome_bind].
  set (gates := [_; _; _]).
  assert (Hlast : ∀ P : Prop, P → (P ↔ (MAX_JOIN_STEPS < run_list_walk region (N.of_nat (content_run_count (sl_arrangement core) (reads (sl_namespace core) d))))%N ∨
     (MAX_IMAGE_RUNS < N.of_nat (length (region_runs core d region)))%N) → judged (Err QE_ImageTooLarge) gates
    (λ image, runs_ok image ∧ flat image = region_addrs core d region)).
  { intros P HP Hiff. apply first_refusal_next; [cbn; congruence|]. apply first_refusal_next; [done|]. apply first_refusal_here. by apply Hiff. }
  destruct (N.ltb_spec MAX_JOIN_STEPS (run_list_walk region (N.of_nat (content_run_count (sl_arrangement core) (reads (sl_namespace core) d))))) as [Hw|Hw].
  { eexists. split; [reflexivity|]. apply (Hlast True); [done|]. split; [intros _; by left|done]. }
  rewrite gather_region_ok by (done || apply N.le_0_l). eexists. split; [reflexivity|]. cbn [length Nat.add].
  destruct (N.ltb_spec MAX_IMAGE_RUNS (N.of_nat (length (region_runs core d region)))) as [Hr|Hr].
  { apply (Hlast True); [done|]. split; [intros _; by right|done]. }
  destruct (region_runs_ok core d region Hcore Hall). split; [|done]. constructor; [cbn; congruence|].
  constructor; [done|]. constructor; [|constructor]. cbn [snd]. lia.
Qed.

(** ** One walk *)

Section Walk.
Context (query : Endset) (addrs : list Address) (Hq : ∀ t, Endset_covers query t = true ↔ under_some addrs t).
Context (ts : list Touch) (Hts : touching l query = Done ts).

Lemma region_listing t view :
  t ∈ ts →
  ∃ pairs, stab_in_slots l t (probes 0) view = Done pairs ∧ slot_listing l (probes 0) view t = distinct pairs ∧
    listing_ok to_home (slot_listing l (probes 0) view) t ∧
    (∀ a slot, (a, slot) ∈ pairs ↔ (∃ v, LinkState.links l !! tumbler a = Some v ∧ homed (tumbler a) (to_home t) ∧ slot ∈ V1_SLOTS ∧ meets_slot v slot addrs) ∧
      view_admits l view (tumbler a) = true) ∧
    (∀ a, a ∈ slot_listing l (probes 0) view t ↔ ∃ v, LinkState.links l !! tumbler a = Some v ∧ homed (tumbler a) (to_home t) ∧
      view_admits l view (tumbler a) = true ∧ meets_region v addrs) ∧
    count_in_slots l t (probes 0) view = length (slot_listing l (probes 0) view t).
Proof using Hfind Hq Hts.
  intros Ht. destruct (slot_listing_ok l Hfind (region_queries query) ts t (probes 0) view Hts Ht (region_probes_ok query))
    as (pairs & H1 & H2 & H3 & H4 & H5 & H6). exists pairs. split; [done|]. split; [done|]. split; [done|]. split; [|split; [|done]].
  - intros a slot. rewrite H4. by rewrite (region_probed l query addrs) by done.
  - intros a. rewrite H5. unfold probed_link. setoid_rewrite (region_probed l query addrs); [|done]. unfold meets_region. naive_solver.
Qed.

Definition region_full (view : View) (readable : Address → bool) : list Address :=
  full to_home (slot_listing l (probes 0) view) readable ts.

Lemma region_full_ok view readable :
  StronglySorted olt (region_full view readable) ∧
  ∀ a, a ∈ region_full view readable ↔ region_link l view addrs readable a.
Proof using Hfind Hq Hts.
  split.
  - apply full_sorted; [by apply (touches_ascending l Hfind (region_queries query))|]. intros t Ht _.
    by destruct (region_listing t view Ht) as (_ & _ & _ & ? & _).
  - intros a. unfold region_full. rewrite elem_of_full. unfold region_link. split.
    + intros (t & Ht & Hr & Ha). destruct (region_listing t view Ht) as (_ & _ & _ & _ & _ & Hm & _). apply Hm in Ha as (v & ? & ? & ? & ?).
      by exists v, (to_home t).
    + intros (v & d & Hv & Hd & Hr & Hview & slot & Hin & Hmeet).
      assert (Hp : probed l (region_queries query) (probes 0) d (tumbler a) slot) by (apply (region_probed l query addrs); [done|by exists v]).
      destruct (probed_touched l Hfind _ ts _ d (tumbler a) slot Hts Hp) as (t & Ht & <-). exists t. split_and!; [done|done|].
      destruct (region_listing t view Ht) as (_ & _ & _ & _ & _ & Hm & _). apply Hm. exists v. split_and!; [done|done|done|]. by exists slot.
Qed.

Lemma selection_ok readable : selection l query readable = Done (region_full ViewActive readable).
Proof using Hfind Hq Hts.
  unfold selection. rewrite Hts. cbn [mbind outcome_bind].
  rewrite (outcome_map_done _ (slot_listing l (probes 0) ViewActive)); [by cbn; rewrite concat_bind|].
  intros t [Ht _]%elem_of_bfilter. destruct (region_listing t ViewActive Ht) as (pairs & H1 & H2 & _).
  unfold touched, touched_by_slot. by rewrite H1, H2.
Qed.

Lemma region_window cur n view readable :
  window_homes ts to_home (λ t, pairs ← stab_in_slots l t (probes 0) view; Done (distinct pairs)) readable cur n =
  Done (page_of (region_full view readable) cur n).
Proof using Hfind Hq Hts.
  apply (window_homes_ok to_home _ (slot_listing l (probes 0) view)). intros t Ht.
  destruct (region_listing t view Ht) as (pairs & H1 & H2 & [H3 H4] & _). split; [|done].
  intros _. exists (distinct pairs). rewrite H1. split; [done|]. rewrite H2. apply list_lists. by rewrite <- H2.
Qed.

Definition home_row (except : list Address) (readable : Address → bool) (t : Touch) : list (Address * nat) :=
  if bool_decide (to_home t ∈ except) then []
  else if negb (home_admitted readable (to_home t)) then []
  else let c := length (slot_listing l (probes 0) ViewActive t) in if c =? 0 then [] else [(to_home t, c)].

Definition home_rows (except : list Address) (readable : Address → bool) (us : list Touch) : list (Address * nat) :=
  us ≫= home_row except readable.

Lemma elem_of_home_row except readable t h c :
  (h, c) ∈ home_row except readable t ↔
  to_home t ∉ except ∧ home_admitted readable (to_home t) = true ∧ c ≠ 0 ∧ h = to_home t ∧ c = length (slot_listing l (probes 0) ViewActive t).
Proof using.
  unfold home_row. case_bool_decide as He; [by split; [intros ?%not_elem_of_nil|intros []]|].
  destruct (home_admitted readable (to_home t)); cbn [negb]; [|split; [by intros ?%not_elem_of_nil|by intros (_ & ? & _)]].
  cbv zeta. destruct (Nat.eqb_spec (length (slot_listing l (probes 0) ViewActive t)) 0) as [E|E].
  - split; [by intros ?%not_elem_of_nil|]. intros (_ & _ & Hc & _ & Ec). congruence.
  - rewrite list_elem_of_singleton. split; [by intros [= -> ->]|]. by intros (_ & _ & _ & -> & ->).
Qed.

Lemma count_homes_ok n except readable us homes sum :
  us ⊆ ts →
  count_homes l n except readable us homes sum =
  (homes ++ cut n sum (home_rows except readable us), sum + counted (cut n sum (home_rows except readable us))).
Proof using Hfind Hq Hts.
  revert homes sum. induction us as [|t us IH]; intros homes sum Hsub; cbn [count_homes].
  { unfold home_rows. cbn. by rewrite app_nil_r, Nat.add_0_r. }
  assert (Hsub' : us ⊆ ts) by (intros x Hx; apply Hsub; by right).
  unfold home_rows. cbn [mbind list_bind]. fold (home_rows except readable us). unfold home_row.
  case_bool_decide as He; [by apply IH|]. destruct (home_admitted readable (to_home t)); cbn [negb]; [|by apply IH].
  destruct (region_listing t ViewActive (Hsub t ltac:(by left))) as (_ & _ & _ & _ & _ & _ & ->). cbv zeta.
  destruct (Nat.eqb_spec (length (slot_listing l (probes 0) ViewActive t)) 0); [by apply IH|]. cbn [app cut].
  destruct (Nat.leb_spec n (sum + length (slot_listing l (probes 0) ViewActive t))).
  - unfold counted. cbn. by rewrite Nat.add_0_r.
  - rewrite IH by done. rewrite <- app_assoc. unfold counted. cbn. f_equal. lia.
Qed.

(** The rows are the homes of the listing, in order, each with its share. *)
Lemma home_rows_ok except readable :
  StronglySorted (λ x y, tumbler x.1 <ₜ tumbler y.1) (home_rows except readable ts) ∧
  ∀ h c, (h, c) ∈ home_rows except readable ts ↔
    h ∉ except ∧ c ≠ 0 ∧ c = length (List.filter (λ a, bool_decide (home_of a = Some h)) (region_full ViewActive readable)).
Proof using Hfind Hq Hts.
  assert (Hasc : ascending to_home ts) by by apply (touches_ascending l Hfind (region_queries query)).
  assert (Hlist : ∀ t, t ∈ ts → home_admitted readable (to_home t) = true → listing_ok to_home (slot_listing l (probes 0) ViewActive) t).
  { intros t Ht _. by destruct (region_listing t ViewActive Ht) as (_ & _ & _ & ? & _). }
  split.
  - clear Hlist Hts. induction Hasc as [|t us Hs IH Hf]; [constructor|]. unfold home_rows. cbn [mbind list_bind]. fold (home_rows except readable us).
    apply sorted_app; [|exact IH|].
    + unfold home_row. case_bool_decide; [constructor|]. destruct (home_admitted readable (to_home t)); [|constructor]. cbv zeta. cbn [negb].
      destruct (Nat.eqb _ 0); repeat constructor.
    + intros [x cx] [y cy] (_ & _ & _ & -> & _)%elem_of_home_row Hy. apply list_elem_of_bind in Hy as (u & (_ & _ & _ & -> & _)%elem_of_home_row & Hu).
      rewrite Forall_forall in Hf. exact (Hf u Hu).
  - intros h c. unfold region_full. rewrite (full_of_home _ _ _ _ h Hasc Hlist). unfold home_rows. rewrite list_elem_of_bind. split.
    + intros (t & (He & Ha & Hc & -> & ->)%elem_of_home_row & Ht). by rewrite (find_home _ _ t Hasc Ht), Ha.
    + intros (He & Hc & E). destruct (List.find _ ts) as [t|] eqn:Ef; [|cbn in E; lia]. apply find_some in Ef as [Ht%list_elem_of_In Eh%bool_decide_eq_true].
      subst h. destruct (home_admitted readable (to_home t)) eqn:Ha; [|cbn in E; lia]. exists t. split; [|done]. by apply elem_of_home_row.
Qed.
End Walk.

(** A read that judges the image and then answers from the touches of its extents. *)
Lemma region_read {A} d region (f : Endset → outcome (result A QueryError)) gates Q :
  (∀ query ts, (∀ t, Endset_covers query t = true ↔ under_some (region_addrs core d region) t) → touching l query = Done ts →
    ∃ r, f query = Done r ∧ judged r gates Q) →
  ∃ r, (image ←? image_on w d region; query ← extents image; f query) = Done r ∧ judged r (image_gates core d region ++ gates) Q.
Proof using Hcore Hfind.
  intros Hf. eapply judged_try; [apply region_image_ok|]. intros image [Hr Hflat].
  destruct (query_extents_ok image Hr) as (query & -> & _ & Hq). cbn [mbind outcome_bind]. rewrite Hflat in Hq.
  destruct (all_touches_ok l Hfind (region_queries query)) as (ts & Hts & _). by apply (Hf query ts).
Qed.
End Region.

(** ** When a link was retracted *)

Definition least (P : N → Prop) (m : option N) : Prop :=
  match m with Some x => P x ∧ ∀ y, P y → (x ≤ y)%N | None => ∀ y, ¬ P y end.

Lemma min_of_ok l : least (λ x, x ∈ l) (min_of l).
Proof.
  destruct l as [|x l]; cbn [min_of least]; [by intros y ?%not_elem_of_nil|].
  revert x. induction l as [|z l IH]; intros x; cbn [foldl]; [split; [by left|]; intros y ->%list_elem_of_singleton; lia|].
  destruct (IH (N.min x z)) as [H1 H2]. split.
  - apply elem_of_cons in H1 as [E|?]; [|by right; right]. destruct (N.min_spec x z) as [[_ Em]|[_ Em]]; rewrite E, Em; [by left|by right; left].
  - intros y. rewrite !elem_of_cons. pose proof (H2 (N.min x z) ltac:(by left)).
    intros [->|[->|Hy]]; [lia|lia|]. apply H2. by right.
Qed.

Lemma retractions_of_ok l a : findable l → ∃ records, retractions_of l a = Done records ∧
  ∀ r, r ∈ records ↔ retracts (LinkState.links l) (tumbler a) (tumbler r).
Proof.
  intros Hs. pose proof (ho_retractions _ _ (proj1 (fd_ok l Hs))) as Hg. unfold retractions_of.
  destruct (retractions (hints l) !! tumbler a) as [records|] eqn:E.
  - destruct (outcome_map_ok lift (ord_elements records) (λ t r, tumbler r = t)) as (rs & -> & Hrs).
    { intros t Ht%elem_of_ord_elements. apply (ga_elem _ _ _ Hg _ _ E) in Ht as (v & [Hv _] & _).
      destruct (key_homed l Hs t v Hv) as [Hok _]. unfold lift. destruct (validate t) as [r|] eqn:Ev; [|done]. exists r. split; [done|by apply validate_Ok]. }
    exists rs. split; [done|]. intros r. rewrite <- (ga_elem _ _ _ Hg _ _ E), <- elem_of_ord_elements. split.
    + intros (i & Hi)%list_elem_of_lookup. destruct (Forall2_lookup_r _ _ _ _ _ Hrs Hi) as (t & Ht & <-). by apply list_elem_of_lookup_2 in Ht.
    + intros (i & Hi)%list_elem_of_lookup. destruct (Forall2_lookup_l _ _ _ _ _ Hrs Hi) as (x & Hx & Ex%Address_eq). subst x.
      by apply list_elem_of_lookup_2 in Hx.
  - exists []. split; [done|]. intros r. split; [by intros ?%not_elem_of_nil|]. intros Hr. exfalso.
    assert (is_Some (retractions (hints l) !! tumbler a)) as [? ?]; [|congruence]. apply (ga_key _ _ _ Hg). by exists (tumbler r).
Qed.

(** A link's row: its own deposit, and the earliest deposit among what retracts it. *)
Definition row_ok (l : LinkState) (m : M3State) (row : LinkRow) : Prop :=
  lr_at row = minted_at_of m (lr_a row) ∧
  least (λ q, ∃ r, retracts (LinkState.links l) (tumbler (lr_a row)) (tumbler r) ∧ minted_at_of m r = Some q) (lr_retracted_at row).

Lemma history_row_ok l m a : findable l → ∃ row, history_row l m a = Done row ∧ lr_a row = a ∧ row_ok l m row.
Proof.
  intros Hs. unfold history_row, retracted_at. destruct (retractions_of_ok l a Hs) as (records & -> & Hr). cbn [mbind outcome_bind].
  eexists. split; [reflexivity|]. split; [done|]. split; [done|]. cbn [lr_a lr_retracted_at].
  assert (Hin : ∀ q, q ∈ omap (minted_at_of m) records ↔ ∃ r, retracts (LinkState.links l) (tumbler a) (tumbler r) ∧ minted_at_of m r = Some q).
  { intros q. rewrite list_elem_of_omap. by setoid_rewrite Hr. }
  pose proof (min_of_ok (omap (minted_at_of m) records)) as H. destruct (min_of _) as [q|]; cbn [least] in *; setoid_rewrite <- Hin; done.
Qed.

Section Reads.
Context {debug : bool} {W R : Type} `{WS : WorldState W R} `{HL : !HasLinked debug W R}.

(** C15. The links that touch a region. Over a sound core and a link store whose keys are
    link addresses, [findlinks_v_on] is total; it refuses by the first of its gates, the
    document, then a span that is no content span, then the budgets on what the image
    walks and gathers; and otherwise it answers, in address order and each once, exactly
    the resident active links, homed in a document the reader may read, some of whose
    first three slots covers a position at or under an address the reading surface shows
    in the region. *)
Theorem findlinks_v_exact (w : W) (d : Address) (region : list Span) (readable : Address → bool) :
  core_ok (slices w) → findable (link_slice w) →
  ∃ r, findlinks_v_on w d region readable = Done r ∧
    judged r (image_gates (slices w) d region) (λ found, StronglySorted olt found ∧
      ∀ a, a ∈ found ↔ region_link (link_slice w) ViewActive (region_addrs (slices w) d region) readable a).
Proof.
  intros Hc Hf. rewrite <- (app_nil_r (image_gates _ _ _)). apply region_read; [done..|]. intros query ts Hq Hts.
  rewrite (selection_ok w Hf query _ Hq ts Hts). eexists. split; [reflexivity|]. apply judged_ok.
  by apply (region_full_ok w Hf query _ Hq ts Hts).
Qed.

(** What the other reads answer, where [findlinks_v_on] answers [r]. *)
Definition beside {A B} (r : result A QueryError) (q : result B QueryError) (P : A → B → Prop) : Prop :=
  match r, q with
  | Ok a, Ok b => P a b
  | Err e, Err e' => e = e'
  | _, _ => False
  end.

(** Two reads over one image. *)
Lemma image_beside {A B} (w : W) d region (f : Endset → outcome (result A QueryError)) (g : Endset → outcome (result B QueryError)) P :
  core_ok (slices w) → findable (link_slice w) →
  (∀ query ts addrs, (∀ t, Endset_covers query t = true ↔ under_some addrs t) → touching (link_slice w) query = Done ts →
    addrs = region_addrs (slices w) d region →
    ∃ a b, f query = Done a ∧ g query = Done b ∧ beside a b P) →
  ∃ a b, (image ←? image_on w d region; query ← extents image; f query) = Done a ∧
    (image ←? image_on w d region; query ← extents image; g query) = Done b ∧ beside a b P.
Proof.
  intros Hc Hf Hfg. destruct (region_image_ok w Hc d region) as (r & -> & Hr). destruct r as [image|e]; cbn [try_bind mbind outcome_bind].
  - destruct Hr as [_ [Hr Hflat]]. destruct (query_extents_ok image Hr) as (query & -> & _ & Hq). rewrite Hflat in Hq. cbn [mbind outcome_bind].
    destruct (all_touches_ok _ Hf (region_queries query)) as (ts & Hts & _). by apply (Hfg query ts _ Hq Hts).
  - by exists (Err e), (Err e).
Qed.

(** C16. Pages of a region. [window_v_on] refuses as [findlinks_v_on] does and answers the
    page of that read's answer: from any cursor, a link of it or not, the batch and what
    follows the next cursor are what followed the cursor, in order and nothing twice, of
    at most [n] links, a zero read as one; a page that is not the last is full, and an
    exhausted one leaves nothing. The homes it skips behind the cursor hold nothing the
    page would show. *)
Theorem window_v_exact (w : W) (d : Address) (region : list Span) (cur : Cursor) (n : nat) (readable : Address → bool) :
  core_ok (slices w) → findable (link_slice w) →
  ∃ r page, findlinks_v_on w d region readable = Done r ∧ window_v_on w d region cur n readable = Done page ∧
    beside r page (λ found page, page = page_of found cur n ∧ tiles found cur n page).
Proof.
  intros Hc Hf. apply image_beside; [done..|]. intros query ts addrs Hq Hts _.
  rewrite (selection_ok w Hf query _ Hq ts Hts), Hts. cbn [mbind outcome_bind].
  change (touched (link_slice w)) with (λ t, pairs ← stab_in_slots (link_slice w) t (probes 0) ViewActive; Done (distinct pairs)).
  rewrite (region_window w Hf query addrs Hq ts Hts). eexists _, _. split_and!; [reflexivity..|]. split; [done|].
  apply page_tiles. by apply (region_full_ok w Hf query addrs Hq ts Hts).
Qed.

(** [count_v_on] counts [findlinks_v_on]'s answer, and refuses as it does. *)
Theorem count_v_exact (w : W) (d : Address) (region : list Span) (readable : Address → bool) :
  core_ok (slices w) → findable (link_slice w) →
  ∃ r c, findlinks_v_on w d region readable = Done r ∧ count_v_on w d region readable = Done c ∧
    beside r c (λ found c, c = length found).
Proof.
  intros Hc Hf. apply image_beside; [done..|]. intros query ts addrs Hq Hts _.
  rewrite (selection_ok w Hf query _ Hq ts Hts). cbn [mbind outcome_bind]. by eexists _, _.
Qed.

(** Counts by home. The rows are, in the order of homes, those homes outside the
    exceptions that hold a link of [findlinks_v_on]'s answer, each with the number it
    holds, cut at the first row where the running sum reaches [n]: what follows the cut
    was not needed, no shorter prefix reaches [n], and the answer is exhausted exactly
    when the sum falls short. *)
Theorem count_v_by_home_exact (w : W) (d : Address) (region : list Span) (n : nat) (except : list Address) (readable : Address → bool) :
  core_ok (slices w) → findable (link_slice w) →
  ∃ r c, findlinks_v_on w d region readable = Done r ∧ count_v_by_home_on w d region n except readable = Done c ∧
    beside r c (λ found counts, ∃ rest,
      StronglySorted (λ x y, tumbler x.1 <ₜ tumbler y.1) (hc_homes counts ++ rest) ∧
      (∀ h k, (h, k) ∈ hc_homes counts ++ rest ↔
        h ∉ except ∧ k ≠ 0 ∧ k = length (List.filter (λ a, bool_decide (home_of a = Some h)) found)) ∧
      hc_exhausted counts = (counted (hc_homes counts) <? Nat.max n 1) ∧
      (rest ≠ [] → Nat.max n 1 ≤ counted (hc_homes counts)) ∧
      (∀ pre x, hc_homes counts = pre ++ [x] → counted pre < Nat.max n 1)).
Proof.
  intros Hc Hf. apply image_beside; [done..|]. intros query ts addrs Hq Hts _.
  rewrite (selection_ok w Hf query _ Hq ts Hts), Hts. cbn [mbind outcome_bind].
  rewrite (count_homes_ok w Hf query addrs Hq ts Hts) by done. eexists _, _. split_and!; [reflexivity..|]. cbn [beside hc_homes hc_exhausted app].
  destruct (cut_ok (Nat.max n 1) 0 (home_rows w except readable ts)) as (rest & E & H1 & H2); [lia|].
  exists rest. rewrite <- E. destruct (home_rows_ok w Hf query addrs Hq ts Hts except readable) as [H3 H4]. by split_and!.
Qed.
(** C21. History of a region. [find_links_v_history_on] pages the links that touch the region
    active or retracted; each row has the position of the link's own deposit and the
    least position among the deposits of the records that retract it, none where no
    record does. *)
Theorem find_links_v_history_exact (w : W) (d : Address) (region : list Span) (cur : Cursor) (n : nat) (readable : Address → bool) :
  core_ok (slices w) → findable (link_slice w) →
  ∃ r, find_links_v_history_on w d region cur n readable = Done r ∧
    judged r (image_gates (slices w) d region) (λ rows, ∃ found, StronglySorted olt found ∧
      (∀ a, a ∈ found ↔ region_link (link_slice w) ViewAudit (region_addrs (slices w) d region) readable a) ∧
      MkWindow (lr_a <$> rw_links rows) (rw_next rows) (rw_exhausted rows) = page_of found cur n ∧
      Forall (row_ok (link_slice w) (m3 w)) (rw_links rows)).
Proof.
  intros Hc Hf. rewrite <- (app_nil_r (image_gates _ _ _)). apply region_read; [done..|]. intros query ts Hq Hts.
  rewrite Hts. cbn [mbind outcome_bind].
  change (touched_audit (link_slice w)) with (λ t, pairs ← stab_in_slots (link_slice w) t (probes 0) ViewAudit; Done (distinct pairs)).
  rewrite (region_window w Hf query _ Hq ts Hts). cbn [mbind outcome_bind].
  destruct (outcome_map_ok (history_row (link_slice w) (m3 w)) (wi_batch (page_of (region_full w ts ViewAudit readable) cur n))
    (λ a row, lr_a row = a ∧ row_ok (link_slice w) (m3 w) row)) as (rows & -> & Hrows); [intros a _; by apply history_row_ok|].
  cbn [mbind outcome_bind]. eexists. split; [reflexivity|]. apply judged_ok. exists (region_full w ts ViewAudit readable).
  destruct (region_full_ok w Hf query _ Hq ts Hts ViewAudit readable) as [H1 H2]. cbn [rw_links rw_next rw_exhausted].
  split; [done|]. split; [done|]. split.
  - destruct (page_of _ cur n) as [batch next ex]. cbn in *. f_equal. clear -Hrows. induction Hrows as [|a row l k [<- _] Hl IH]; [done|]. cbn. by f_equal.
  - clear -Hrows. induction Hrows as [|a row l k [_ H] Hl IH]; by constructor.
Qed.
End Reads.

(** ** The order of the endsets *)

#[export] Instance lex_ord_laws {A} `{OrdLaws A} : @OrdLaws (list A) lex_cmp.
Proof.
  split; unfold ocmp.
  - intros l. induction l as [|x l IH]; intros [|y k]; cbn; try done. destruct (ocmp x y) eqn:E.
    + apply ocmp_eq in E as ->. rewrite IH. split; [by intros ->|by intros [= ->]].
    + split; [done|]. intros [= -> _]. by rewrite ocmp_refl in E.
    + split; [done|]. intros [= -> _]. by rewrite ocmp_refl in E.
  - intros l. induction l as [|x l IH]; intros [|y k]; cbn; try done. rewrite (ocmp_antisym x y). destruct (ocmp x y); cbn; [apply IH|done|done].
  - intros l. induction l as [|x l IH]; intros [|y k] [|z m]; cbn; try done.
    destruct (ocmp x y) eqn:E1; [apply ocmp_eq in E1 as ->| |done]; destruct (ocmp y z) eqn:E2; try done; try apply ocmp_eq in E2 as <-.
    + apply IH.
    + by rewrite E1.
    + by rewrite (ocmp_trans _ _ _ E1 E2).
Qed.

#[export] Instance endset_le_trans : Transitive endset_le.
Proof. intros p q r. unfold endset_le. apply (@ole_trans _ _ (@pair_ord_laws _ _ _ _ _ lex_ord_laws)). Qed.

#[export] Instance endset_le_total : Total endset_le.
Proof. intros p q. unfold endset_le. apply (@ole_total _ _ (@pair_ord_laws _ _ _ _ _ lex_ord_laws)). Qed.

(** ** Keeping each pair once *)

Fixpoint keep (kept ps : list (nat * Endset)) : list (nat * Endset) :=
  match ps with
  | [] => kept
  | p :: ps => if bool_decide (p ∈ kept) then keep kept ps else keep (kept ++ [p]) ps
  end.

Lemma keep_ok kept ps : NoDup kept → NoDup (keep kept ps) ∧ (∀ p, p ∈ keep kept ps ↔ p ∈ kept ∨ p ∈ ps) ∧ ∃ more, keep kept ps = kept ++ more.
Proof.
  revert kept. induction ps as [|x ps IH]; intros kept Hn; cbn [keep].
  - split_and!; [done| |exists []; by rewrite app_nil_r]. intros p. split; [by left|by intros [?|?%not_elem_of_nil]].
  - case_bool_decide as Hx.
    + destruct (IH kept Hn) as (H1 & H2 & H3). split_and!; [done| |done]. intros p. rewrite H2, elem_of_cons. split; [tauto|]. intros [?|[->|?]]; tauto.
    + destruct (IH (kept ++ [x])) as (H1 & H2 & more & H3).
      { apply NoDup_app. split_and!; [done| |apply NoDup_singleton]. intros y Hy ->%list_elem_of_singleton. done. }
      split_and!; [done| |exists (x :: more); by rewrite H3, <- app_assoc]. intros p. rewrite H2, elem_of_app, list_elem_of_singleton, elem_of_cons. tauto.
Qed.

Lemma keep_app kept ps qs : keep kept (ps ++ qs) = keep (keep kept ps) qs.
Proof. revert kept. induction ps as [|x ps IH]; intros kept; cbn; [done|]. case_bool_decide; apply IH. Qed.

Definition spans_of (l : list (nat * Endset)) : N := total_of (λ p, N.of_nat (Endset_len p.2)) l.

Lemma spans_of_keep kept ps : NoDup kept → (spans_of kept ≤ spans_of (keep kept ps))%N.
Proof. intros Hn. destruct (keep_ok kept ps Hn) as (_ & _ & more & ->). unfold spans_of. rewrite total_of_app. lia. Qed.

Lemma spans_of_perm l k : l ≡ₚ k → spans_of l = spans_of k.
Proof. unfold spans_of. induction 1; rewrite ?total_of_cons in *; rewrite ?total_of_cons; lia. Qed.

(** The endset a pair names. *)
Definition end_of (l : LinkState) (p : Address * nat) : list (nat * Endset) :=
  match readlink l p.1 with
  | Some v => match Link_slot v p.2 with Some e => [(p.2, e)] | None => [] end
  | None => []
  end.

Definition within (k : list (nat * Endset)) : option (list (nat * Endset)) :=
  if (MAX_ANSWER_SPANS <? spans_of k)%N then None else Some k.

Lemma keep_endsets_ok l pairs kept :
  (∀ a i, (a, i) ∈ pairs → ∃ v e, readlink l a = Some v ∧ Link_slot v i = Some e) → NoDup kept → (spans_of kept ≤ MAX_ANSWER_SPANS)%N →
  keep_endsets l pairs kept (spans_of kept) = Done ((λ k, (k, spans_of k)) <$> within (keep kept (pairs ≫= end_of l))).
Proof.
  revert kept. induction pairs as [|[a i] pairs IH]; intros kept Hp Hn Hs; cbn [keep_endsets].
  - cbn. unfold within. by rewrite (proj2 (N.ltb_ge _ _) Hs).
  - destruct (Hp a i ltac:(by left)) as (v & e & Ev & Ee). rewrite Ev. cbn [expect_some mbind outcome_bind]. rewrite Ee. cbn [expect_some mbind outcome_bind].
    assert (Hp' : ∀ b j, (b, j) ∈ pairs → ∃ v e, readlink l b = Some v ∧ Link_slot v j = Some e) by (intros b j ?; apply Hp; by right).
    assert (Ehd : end_of l (a, i) = [(i, e)]) by (unfold end_of; cbn [fst snd]; by rewrite Ev, Ee).
    cbn [mbind list_bind]. rewrite Ehd. change (list_bind _ _ (end_of l) pairs) with (pairs ≫= end_of l). cbn [app keep].
    case_bool_decide as Hin; [by apply IH|]. cbv zeta.
    assert (Hn' : NoDup (kept ++ [(i, e)])).
    { apply NoDup_app. split_and!; [done| |apply NoDup_singleton]. intros y Hy ->%list_elem_of_singleton. done. }
    assert (Esp : (spans_of kept + N.of_nat (Endset_len e))%N = spans_of (kept ++ [(i, e)])).
    { unfold spans_of. rewrite total_of_app. unfold total_of at 3. cbn. lia. }
    rewrite Esp. destruct (N.ltb_spec MAX_ANSWER_SPANS (spans_of (kept ++ [(i, e)]))) as [Hb|Hb]; [|by apply IH].
    unfold within. pose proof (spans_of_keep (kept ++ [(i, e)]) (pairs ≫= end_of l) Hn').
    by rewrite (proj2 (N.ltb_lt _ _)) by lia.
Qed.

(** ** The endsets of a walk *)

Section Walk.
Context {debug : bool} {W R : Type} `{WS : WorldState W R} `{HL : !HasLinked debug W R}.
Context (w : W) (Hcore : core_ok (slices w)) (Hfind : findable (link_slice w)).
#[local] Notation l := (link_slice w).
Context (query : Endset) (addrs : list Address) (Hq : ∀ t, Endset_covers query t = true ↔ under_some addrs t).
Context (ts : list Touch) (Hts : touching l query = Done ts).

Definition touch_ends (t : Touch) : list (nat * Endset) :=
  match touched_by_slot l t with Done pairs => pairs ≫= end_of l | Panicked => [] end.

(** A (slot, endset) pair of an active, readable link that meets the region at the slot. *)
Definition region_endset (readable : Address → bool) (p : nat * Endset) : Prop :=
  ∃ a v d, LinkState.links l !! tumbler a = Some v ∧ homed (tumbler a) d ∧ readable d = true ∧ nullified l (tumbler a) = false ∧
    p.1 ∈ V1_SLOTS ∧ Link_slot v p.1 = Some p.2 ∧ meets_slot v p.1 addrs.

Lemma touch_ends_ok t : t ∈ ts →
  ∃ pairs, touched_by_slot l t = Done pairs ∧ (∀ a i, (a, i) ∈ pairs → ∃ v e, readlink l a = Some v ∧ Link_slot v i = Some e) ∧
    touch_ends t = pairs ≫= end_of l ∧
    ∀ p, p ∈ touch_ends t ↔ ∃ a v, LinkState.links l !! tumbler a = Some v ∧ homed (tumbler a) (to_home t) ∧ nullified l (tumbler a) = false ∧
      p.1 ∈ V1_SLOTS ∧ Link_slot v p.1 = Some p.2 ∧ meets_slot v p.1 addrs.
Proof using Hfind Hq Hts.
  intros Ht. destruct (region_listing w Hfind query addrs Hq ts Hts t ViewActive Ht) as (pairs & E & _ & _ & Hp & _).
  unfold touch_ends, touched_by_slot. rewrite E. exists pairs. split; [done|]. split; [|split; [done|]].
  - intros a i ((v & Hv & _ & _ & e & _ & He & _) & _)%Hp. by exists v, e.
  - assert (Hact : ∀ x, view_admits l ViewActive x = true ↔ nullified l x = false).
    { intros x. unfold view_admits. cbn. by destruct (nullified l x). }
    intros [i e]. cbn [fst snd]. rewrite list_elem_of_bind. split.
    + intros ([a j] & Hin & ((v & Hv & Hh & Hj & Hm) & Hn%Hact)%Hp). unfold end_of, readlink in Hin. cbn [fst snd] in Hin. rewrite Hv in Hin.
      destruct (Link_slot v j) as [e'|] eqn:Ee; [|by apply not_elem_of_nil in Hin]. apply list_elem_of_singleton in Hin as [= -> ->]. by exists a, v.
    + intros (a & v & Hv & Hh & Hn & Hj & He & Hm). exists (a, i). split.
      * unfold end_of, readlink. cbn [fst snd]. rewrite Hv, He. by left.
      * apply Hp. split; [by exists v|by apply Hact].
Qed.

Definition all_ends (readable : Address → bool) (us : list Touch) : list (nat * Endset) :=
  us ≫= λ t, if home_admitted readable (to_home t) then touch_ends t else [].

Lemma keep_touches_ok readable us kept :
  us ⊆ ts → NoDup kept → (spans_of kept ≤ MAX_ANSWER_SPANS)%N →
  keep_touches l readable us kept (spans_of kept) = Done (within (keep kept (all_ends readable us))).
Proof using Hfind Hq Hts.
  revert kept. induction us as [|t us IH]; intros kept Hsub Hn Hs; cbn [keep_touches].
  - cbn. unfold within. by rewrite (proj2 (N.ltb_ge _ _) Hs).
  - assert (Hsub' : us ⊆ ts) by (intros x Hx; apply Hsub; by right).
    unfold all_ends. cbn [mbind list_bind]. fold (all_ends readable us).
    destruct (home_admitted readable (to_home t)); cbn [negb]; [|by apply IH].
    destruct (touch_ends_ok t (Hsub t ltac:(by left))) as (pairs & E & Hp & Et & _). rewrite E. cbn [mbind outcome_bind].
    rewrite (keep_endsets_ok l pairs kept Hp Hn Hs). cbn [mbind outcome_bind]. rewrite <- Et, keep_app.
    destruct (keep_ok kept (touch_ends t) Hn) as (Hn' & _ & _). unfold within at 1.
    destruct (N.ltb_spec MAX_ANSWER_SPANS (spans_of (keep kept (touch_ends t)))) as [Hb|Hb]; cbn [fmap option_fmap option_map]; [|by apply IH].
    unfold within. pose proof (spans_of_keep _ (all_ends readable us) Hn'). by rewrite (proj2 (N.ltb_lt _ _)) by lia.
Qed.

Lemma elem_of_all_ends readable p : p ∈ all_ends readable ts ↔ region_endset readable p.
Proof using Hfind Hq Hts.
  unfold all_ends, region_endset. rewrite list_elem_of_bind. unfold home_admitted. split.
  - intros (t & Hin & Ht). destruct (readable (to_home t)) eqn:Hr; [|by apply not_elem_of_nil in Hin].
    destruct (touch_ends_ok t Ht) as (_ & _ & _ & _ & Hp). apply Hp in Hin as (a & v & ? & ? & ? & ? & ? & ?). by exists a, v, (to_home t).
  - intros (a & v & d & Hv & Hh & Hr & Hn & Hi & He & Hm).
    assert (Hpr : probed l (region_queries query) (probes 0) d (tumbler a) p.1) by (apply (region_probed l query addrs); [done|by exists v]).
    destruct (probed_touched l Hfind _ ts _ d (tumbler a) p.1 Hts Hpr) as (t & Ht & <-). exists t. rewrite Hr. split; [|done].
    destruct (touch_ends_ok t Ht) as (_ & _ & _ & _ & Hp). apply Hp. by exists a, v.
Qed.
End Walk.

(** ** RETRIEVEENDSETS *)

Section Read.
Context {debug : bool} {W R : Type} `{WS : WorldState W R} `{HL : !HasLinked debug W R}.

(** [l] lists, each once, the endsets that touch the region. *)
Definition lists_endsets (w : W) (d : Address) (region : list Span) (readable : Address → bool) (k : list (nat * Endset)) : Prop :=
  NoDup k ∧ ∀ p, p ∈ k ↔ region_endset w (region_addrs (slices w) d region) readable p.

(** C17. The endsets that touch a region. [retrieve_endsets_on] refuses as the region's reads
    do, or when the distinct pairs hold more spans than one answer may; otherwise it
    answers each pair of a slot and an endset of an active readable link that meets the
    region at that slot once, in the order of slots and then of the spans. *)
Theorem retrieve_endsets_exact (w : W) (d : Address) (region : list Span) (readable : Address → bool) :
  core_ok (slices w) → findable (link_slice w) →
  ∃ r, retrieve_endsets_on w d region readable = Done r ∧
    judged r (image_gates (slices w) d region ++
        [(QE_EndsetsTooLarge, ∃ k, lists_endsets w d region readable k ∧ (MAX_ANSWER_SPANS < spans_of k)%N)])
      (λ ends, lists_endsets w d region readable ends ∧ StronglySorted endset_le ends).
Proof.
  intros Hc Hf. apply region_read; [done..|]. intros query ts Hq Hts. rewrite Hts. cbn [mbind outcome_bind].
  change 0%N with (spans_of []). rewrite (keep_touches_ok w Hf query _ Hq ts Hts) by (done || exact NoDup_nil_2 || (unfold spans_of; cbn; lia)).
  cbn [mbind outcome_bind]. destruct (keep_ok [] (all_ends w readable ts) NoDup_nil_2) as (Hn & Hin & _). set (k := keep [] _) in *.
  assert (Hk : lists_endsets w d region readable k).
  { split; [done|]. intros p. rewrite Hin, (elem_of_all_ends w Hf query _ Hq ts Hts). split; [by intros [?%not_elem_of_nil|]|by right]. }
  unfold within. destruct (N.ltb_spec MAX_ANSWER_SPANS (spans_of k)) as [Hb|Hb]; (eexists; split; [reflexivity|]).
  - apply first_refusal_here. by exists k.
  - split.
    + constructor; [|constructor]. intros (k' & [Hn' Hin'] & Hb'). cbn in Hb'. rewrite (spans_of_perm k' k) in Hb'; [lia|].
      apply NoDup_Permutation; [done..|]. intros p. rewrite Hin'. symmetry. apply Hk.
    + split; [|by apply StronglySorted_merge_sort; apply _]. split.
      * by rewrite merge_sort_Permutation.
      * intros p. rewrite merge_sort_Permutation. apply Hk.
Qed.
End Read.
