(* ===== verification/DescriptorCalls.v ===== *)
(** * The reads of a descriptor

    A four-slot descriptor constrains a link's home and its from, to and type slots.
    Whatever drives the walk, the chains of the homes, the homes a home slot covers or
    the touches of the rarest constraint, the answer is the links that meet every
    slot, in address order, and its pages. Then the two reads of one link against a
    document: where a slot's content shows there, and whether anything there reaches it. *)

From stdpp Require Import gmap sorting.
From S2P Require Import Prelude Txns Tumblers Addresses AddrMaps Arith NsKeys NsState NsLaws NsOps NsInv NsCalls Spans SpanSets Runs Content RunLists RunUnions VSpace Provenance Chain ArrState ArrReads World Edits EditInv EditSteps EditCalls CopyCalls VersionCalls RetrievalLaws OrdSets Endsets ClassLaws TypeRegistry.
From S2P Require Import Spanfilade SpanfiladeLaws HomeWalk HomeWalkLaws LinkState LinkStateLaws LinkReads LinkFind LinkChains LinkFindLaws LinkFindCalls LinkSlots LinkWorld Discovery DiscoveryLaws DiscoveryCalls SlotCalls.

(** ** What a descriptor asks *)

Definition spec_meets (slot : nat) (spec : SlotSpec) (v : Link) : Prop :=
  match spec with SpecAny => True | SpecEmpty => False | SpecSpans e => slot_overlaps v slot e = true end.

Definition home_meets (spec : SlotSpec) (d : Address) : Prop :=
  match spec with SpecAny => True | SpecEmpty => False | SpecSpans e => Endset_covers e (tumbler d) = true end.

Definition slots_meet (q : FourSet) (v : Link) : Prop :=
  spec_meets FROM (fs_from q) v ∧ spec_meets TO (fs_to q) v ∧ spec_meets TYPE (fs_ty q) v.

(** An active link of [d] that meets the descriptor. *)
Definition four_at (l : LinkState) (q : FourSet) (d a : Address) : Prop :=
  shows l ViewActive a (λ v, homed (tumbler a) d ∧ home_meets (fs_home q) d ∧ slots_meet q v).

Definition four_link (l : LinkState) (q : FourSet) (readable : Address → bool) (a : Address) : Prop :=
  ∃ d, readable d = true ∧ four_at l q d a.

Lemma empty_meets e v slot : Endset_is_empty e = true → slot_overlaps v slot e = false.
Proof.
  intros He. apply not_true_is_false. rewrite slot_overlaps_iff. intros (q & Hq & _).
  unfold Endset_is_empty in He. destruct (endset_spans e); [by apply not_elem_of_nil in Hq|done].
Qed.

Lemma unsatisfiable_ok q d v : is_unsatisfiable q = true → home_meets (fs_home q) d → ¬ slots_meet q v.
Proof.
  unfold is_unsatisfiable, slots_meet. intros H Hh (H1 & H2 & H3). apply existsb_exists in H as (spec & Hin & Hs).
  assert (Hslot : ∀ slot, spec_meets slot spec v → False).
  { intros slot Hm. destruct spec as [| |e]; cbn in *; [done|done|]. by rewrite (empty_meets e v slot Hs) in Hm. }
  destruct Hin as [E|[E|[E|[E|[]]]]]; subst spec; try by eapply Hslot.
  destruct (fs_home q) as [| |e]; cbn in *; [done|done|]. unfold Endset_is_empty in Hs. unfold Endset_covers in Hh. by destruct (endset_spans e).
Qed.

Lemma constraints_ok q : match link_constraints q with
  | None => ∀ d v, home_meets (fs_home q) d → ¬ slots_meet q v
  | Some cs => fs_home q ≠ SpecEmpty ∧ ∀ v, slots_meet q v ↔ meets_all cs v = true
  end.
Proof.
  unfold link_constraints. destruct (is_unsatisfiable q) eqn:E; [intros d v; by apply unsatisfiable_ok|].
  unfold is_unsatisfiable in E. destruct q as [h f t y]. cbn [fs_home fs_from fs_to fs_ty existsb] in *. apply orb_false_iff in E as [Eh E].
  apply orb_false_iff in E as [Ef E]. apply orb_false_iff in E as [Et E]. apply orb_false_iff in E as [Ey _].
  split; [by intros ->|]. intros v. unfold slots_meet, meets_all. rewrite !forallb_app, !andb_true_iff. cbn [fs_from fs_to fs_ty].
  assert (Hone : ∀ slot spec, match spec with SpecAny => false | SpecEmpty => true | SpecSpans e => Endset_is_empty e end = false →
    spec_meets slot spec v ↔ forallb (λ c, slot_overlaps v c.1 c.2) (spec_constraint slot spec) = true).
  { intros slot [| |e] Hs; cbn; [done|done|]. by rewrite andb_true_r. }
  by rewrite !Hone.
Qed.

(** One constraint taken out of the list. *)
Lemma meets_all_driver cs k c v :
  cs !! k = Some c → meets_all cs v = slot_overlaps v c.1 c.2 && meets_all (take k cs ++ drop (S k) cs) v.
Proof.
  intros Hk. unfold meets_all. rewrite <- (take_drop_middle cs k c Hk) at 1. rewrite !forallb_app. cbn.
  by destruct (forallb _ (take k cs)), (slot_overlaps v c.1 c.2).
Qed.

Section Findable.
Context (l : LinkState) (Hs : findable l).

Lemma match_links_in_ok d slot query rest view :
  ∃ r, match_links_in l d (slot, query) rest view = Done r ∧
    ∀ a, a ∈ r ↔ shows l view a (λ v, homed (tumbler a) d ∧ (∃ q, q ∈ query ∧ slot_meets v slot q) ∧ meets_all rest v = true).
Proof using Hs.
  unfold match_links_in. cbn [fst snd]. destruct (stab_in_ok l Hs d slot query view) as (acc & -> & Hacc). cbn [mbind outcome_bind].
  destruct (narrowed_ok l rest acc) as (r & -> & Hr). { intros a (v & Hv & _)%Hacc. by exists v. }
  exists r. split; [done|]. intros a. rewrite Hr, Hacc. unfold shows. split.
  - intros [(v & Hv & [Hd Hm] & Hview) (v' & Hv' & Hall)]. rewrite Hv in Hv'. injection Hv' as <-. by exists v.
  - intros (v & Hv & (Hd & Hm & Hall) & Hview). split; by exists v.
Qed.

Context (q : FourSet).

Definition candidate_ok (c : Candidate) : Prop :=
  ∃ s, Candidate_satisfying l c = Done s ∧ ∀ a, a ∈ s ↔ four_at l q (Candidate_home c) a.

Definition walk_ok (cands : list Candidate) : Prop :=
  ascending Candidate_home cands ∧ (∀ c, c ∈ cands → candidate_ok c) ∧
  ∀ d a, four_at l q d a → ∃ c, c ∈ cands ∧ Candidate_home c = d.

(** The candidates of a set of homes: every home that holds links and that the home
    slot admits. *)
Lemma homes_walk_ok (f : Address → Candidate) (hs : gset Address) :
  (∀ d, Candidate_home (f d) = d) → (∀ d, d ∈ hs ↔ holds_links l d ∧ home_meets (fs_home q) d) → (∀ d, d ∈ hs → candidate_ok (f d)) →
  walk_ok (f <$> ord_list hs).
Proof using.
  intros Hf Hhs Hok. split; [|split].
  - pose proof (ord_list_strict hs) as Hsort. induction Hsort as [|d k Hk IH Hd]; cbn; constructor; [done|]. apply Forall_fmap.
    eapply Forall_impl; [exact Hd|]. intros x Hx. cbn. by rewrite !Hf.
  - intros c (d & -> & Hd)%list_elem_of_fmap. apply Hok. by apply elem_of_ord_list.
  - intros d a (v & Hv & (Hd & Hh & _) & _). exists (f d). split; [|by apply Hf]. apply list_elem_of_fmap_2, elem_of_ord_list, Hhs. split; [|done].
    apply holds_links_iff. exists (tumbler a). split; [|done]. apply elem_of_dom. by exists v.
Qed.

(** The candidates of one constraint's touches. *)
Lemma driven_walk_ok slot query rest ts :
  fs_home q = SpecAny → (∀ v, slots_meet q v ↔ slot_overlaps v slot query = true ∧ meets_all rest v = true) →
  LinkFindLaws.candidates l [(slot, query)] ts → ascending to_home ts → walk_ok ((λ touch, Candidate_Driven touch slot rest) <$> ts).
Proof using Hs.
  intros Eh Hsplit Hc Hasc. split; [|split].
  - clear -Hasc. induction Hasc as [|t ts Hts IH Ht]; cbn; constructor; [done|]. apply Forall_fmap. exact Ht.
  - intros c (t & -> & Ht)%list_elem_of_fmap. unfold candidate_ok. cbn [Candidate_satisfying Candidate_home].
    destruct (match_links_in_ok (to_home t) slot (touch_spans t 0) rest ViewActive) as (r & -> & Hr). exists r. split; [done|]. intros a. rewrite Hr.
    assert (Hhit : ∀ v, LinkState.links l !! tumbler a = Some v → homed (tumbler a) (to_home t) →
      (∃ p, p ∈ touch_spans t 0 ∧ slot_meets v slot p) ↔ slot_overlaps v slot query = true).
    { intros v Hv Hd. rewrite <- (over_touches_hits l Hs slot query ts (tumbler a) v Hc Hv). split; [intros (p & Hp & Hm); by exists t, p|].
      intros (u & p & Hu & Hdu & Hp & Hm). pose proof (homed_unique _ _ _ Hd Hdu) as E.
      pose proof (find_home to_home ts t Hasc Ht) as Ft. pose proof (find_home to_home ts u Hasc Hu) as Fu. rewrite <- E, Ft in Fu. injection Fu as <-.
      by exists p. }
    unfold four_at, shows. rewrite Eh. setoid_rewrite Hsplit. split.
    + intros (v & Hv & (Hd & Hm & Hall) & Hview). exists v. split_and!; [done|done|done|by apply (Hhit v Hv Hd)|done|done].
    + intros (v & Hv & (Hd & _ & Ho & Hall) & Hview). exists v. split_and!; [done|done|by apply (Hhit v Hv Hd)|done|done].
  - intros d a (v & Hv & (Hd & _ & Hm) & _). apply Hsplit in Hm as [Ho _].
    apply (over_touches_hits l Hs slot query ts (tumbler a) v Hc Hv) in Ho as (t & _ & Ht & Hdt & _).
    exists (Candidate_Driven t slot rest). split; [by apply (list_elem_of_fmap_2 (λ t, Candidate_Driven t slot rest))|].
    cbn. by apply (homed_unique (tumbler a)).
Qed.

Lemma candidates_ok : ∃ cands, candidates l q = Done cands ∧ walk_ok cands.
Proof using Hs.
  unfold candidates. pose proof (constraints_ok q) as Hcs. destruct (link_constraints q) as [cs|]; cycle 1.
  { exists []. split; [done|]. split; [constructor|]. split; [by intros c ?%not_elem_of_nil|].
    intros d a (v & _ & (_ & Hh & Hm) & _). by destruct (Hcs d v). }
  destruct Hcs as [Hhome Hmeet]. destruct cs as [|c cs'] eqn:Ecs.
  - assert (∃ hs, match fs_home q with SpecSpans h => homes_under l h | SpecAny => homes l | SpecEmpty => Panicked end = Done hs ∧
      ∀ d, d ∈ hs ↔ holds_links l d ∧ home_meets (fs_home q) d) as (hs & -> & Hhs).
    { destruct (fs_home q) as [| |h]; [|done|by apply homes_under_ok]. destruct (homes_ok l Hs) as (hs & -> & Hhs). exists hs.
      split; [done|]. intros d. rewrite Hhs. cbn. tauto. }
    cbn [mbind outcome_bind]. eexists. split; [reflexivity|]. apply homes_walk_ok; [done|done|]. intros d [Hd Hh]%Hhs.
    apply holds_links_iff in Hd as (x & _ & Hx). unfold candidate_ok. cbn [Candidate_satisfying Candidate_home].
    destruct (homed_in_ok l Hs d [] ViewActive) as (r & -> & Hr); [apply Hx|]. exists r. split; [done|]. intros a. rewrite Hr. unfold four_at, shows.
    setoid_rewrite Hmeet. naive_solver.
  - rewrite <- Ecs in *. assert (Hne : cs ≠ []) by by rewrite Ecs. clear Ecs c cs'.
    destruct (fewest_homes_ok l Hs cs Hne) as (k & -> & n & Hk & _). cbn [mbind outcome_bind].
    rewrite list_lookup_fmap in Hk. apply fmap_Some in Hk as ([slot query] & Hk & _). rewrite (index_ok _ _ _ Hk). cbn [mbind outcome_bind].
    set (rest := take k cs ++ drop (S k) cs).
    assert (Hsplit : ∀ v, slots_meet q v ↔ slot_overlaps v slot query = true ∧ meets_all rest v = true).
    { intros v. rewrite Hmeet, (meets_all_driver cs k _ v Hk), andb_true_iff. done. }
    assert (Hdriven : fs_home q = SpecAny → ∃ cands, (ts ← all_touches l [(slot, query)]; Done ((λ touch, Candidate_Driven touch slot rest) <$> (ts : list Touch))) = Done cands ∧ walk_ok cands).
    { intros Eh. destruct (all_touches_ok l Hs [(slot, query)]) as (ts & Hts & Hc). rewrite Hts. cbn [mbind outcome_bind]. eexists. split; [reflexivity|].
      pose proof (touches_ascending l Hs _ ts Hts) as Hasc. by apply (driven_walk_ok slot query rest ts). }
    destruct (fs_home q) as [| |h] eqn:Eh; [by apply Hdriven|done|].
    destruct (homes_under_ok l Hs h) as (hs & -> & Hhs). cbn [mbind outcome_bind]. eexists. split; [reflexivity|].
    apply homes_walk_ok; [done|by rewrite Eh|]. intros d [_ Hh]%Hhs. unfold candidate_ok. cbn [Candidate_satisfying Candidate_home].
    destruct (match_links_in_ok d slot (endset_spans query) rest ViewActive) as (r & -> & Hr). exists r. split; [done|]. intros a. rewrite Hr. unfold four_at, shows.
    rewrite Eh. setoid_rewrite Hsplit. setoid_rewrite slot_overlaps_iff. cbn. naive_solver.
Qed.

Definition candidate_listing (c : Candidate) : list Address :=
  match Candidate_satisfying l c with Done s => ord_list s | Panicked => [] end.

Section Walk.
Context (cands : list Candidate) (Hw : walk_ok cands).

Lemma candidate_listing_ok c : c ∈ cands → ∃ s, Candidate_satisfying l c = Done s ∧ candidate_listing c = ord_list s ∧
  listing_ok Candidate_home candidate_listing c ∧ ∀ a, a ∈ candidate_listing c ↔ four_at l q (Candidate_home c) a.
Proof using Hw.
  intros Hc. destruct (proj1 (proj2 Hw) c Hc) as (s & E & Hin). unfold listing_ok, candidate_listing. rewrite E. exists s.
  assert (Hm : ∀ a, a ∈ ord_list s ↔ four_at l q (Candidate_home c) a) by (intros a; by rewrite elem_of_ord_list).
  split_and!; [done|done|apply ord_list_strict| |done]. intros a (v & _ & [Hd _] & _)%Hm. exact Hd.
Qed.

Definition four_full (readable : Address → bool) : list Address := full Candidate_home candidate_listing readable cands.

Lemma four_full_ok readable : StronglySorted olt (four_full readable) ∧ ∀ a, a ∈ four_full readable ↔ four_link l q readable a.
Proof using Hw.
  split.
  - apply full_sorted; [apply Hw|]. intros c Hc _. by destruct (candidate_listing_ok c Hc) as (_ & _ & _ & ? & _).
  - intros a. unfold four_full. rewrite elem_of_full. unfold four_link. split.
    + intros (c & Hc & Hr & Ha). destruct (candidate_listing_ok c Hc) as (_ & _ & _ & _ & Hm). exists (Candidate_home c). split; [done|]. by apply Hm.
    + intros (d & Hr & Ha). destruct (proj2 (proj2 Hw) d a Ha) as (c & Hc & <-). exists c. split_and!; [done|done|].
      destruct (candidate_listing_ok c Hc) as (_ & _ & _ & _ & Hm). by apply Hm.
Qed.

Lemma satisfying_all readable :
  outcome_map (Candidate_satisfying l) (List.filter (λ c, home_admitted readable (Candidate_home c)) cands) =
    Done ((λ c, match Candidate_satisfying l c with Done s => s | Panicked => ∅ end) <$> List.filter (λ c, home_admitted readable (Candidate_home c)) cands).
Proof using Hw.
  apply outcome_map_done. intros c [Hc _]%elem_of_bfilter. by destruct (candidate_listing_ok c Hc) as (s & -> & _).
Qed.

Lemma four_gathered readable :
  ((λ c, match Candidate_satisfying l c with Done s => s | Panicked => ∅ end) <$> List.filter (λ c, home_admitted readable (Candidate_home c)) cands)
    ≫= ord_list = four_full readable.
Proof using Hw.
  unfold four_full, full. set (cs := List.filter _ cands). assert (Hcs : cs ⊆ cands) by by intros c [Hc _]%elem_of_bfilter.
  clearbody cs. induction cs as [|c cs IH]; [done|]. cbn. rewrite IH by (intros x Hx; apply Hcs; by right). f_equal.
  destruct (candidate_listing_ok c (Hcs c ltac:(by left))) as (s & -> & -> & _). done.
Qed.

Lemma four_window cur n readable :
  window_homes cands Candidate_home (Candidate_satisfying l) readable cur n = Done (page_of (four_full readable) cur n).
Proof using Hw.
  apply (window_homes_ok Candidate_home _ candidate_listing). intros c Hc.
  destruct (candidate_listing_ok c Hc) as (s & E & El & [_ H] & _). split; [|done]. intros _. exists s. split; [done|]. rewrite El. apply set_lists.
Qed.
End Walk.
End Findable.

Section Reads.
Context {debug : bool} {W R : Type} `{WS : WorldState W R} `{HL : !HasLinked debug W R}.

(** C18. Descriptors. Whatever the descriptor constrains, the walk it opens is total and
    answers, in address order and each once, exactly the active links, homed in a
    readable document that the home slot covers, whose every constrained slot overlaps
    its endset; an empty slot, however it is written, admits no link, and an
    unconstrained descriptor admits every one. The count is the answer's length and a
    window is a page of it. *)
Theorem findlinks_ftt_exact (w : W) (q : FourSet) (readable : Address → bool) :
  findable (link_slice w) →
  ∃ found, findlinks_ftt_on w q readable = Done found ∧ StronglySorted olt found ∧
    (∀ a, a ∈ found ↔ four_link (link_slice w) q readable a) ∧ count_ftt_on w q readable = Done (length found) ∧
    ∀ cur n, window_ftt_on w q cur n readable = Done (page_of found cur n) ∧ tiles found cur n (page_of found cur n).
Proof.
  intros Hf. destruct (candidates_ok _ Hf q) as (cands & Hc & Hw). exists (four_full (link_slice w) cands readable).
  destruct (four_full_ok _ q cands Hw readable) as [H1 H2].
  assert (Hsat : satisfying (link_slice w) q readable = Done (four_full (link_slice w) cands readable)).
  { unfold satisfying. rewrite Hc. cbn [mbind outcome_bind]. rewrite (satisfying_all _ q cands Hw). cbn [mbind outcome_bind].
    by rewrite (four_gathered _ q cands Hw). }
  split_and!; [done|done|done| |].
  - unfold count_ftt_on. by rewrite Hsat.
  - intros cur n. split; [|by apply page_tiles]. unfold window_ftt_on. rewrite Hc. cbn [mbind outcome_bind]. by apply (four_window _ q).
Qed.
End Reads.

(** ** One link *)

Definition over_join (span_count run_count max_product : N) : Prop :=
  (MAX_IMAGE_RUNS < run_count ∨ max_product < N.min (span_count * run_count) u64_max)%N.

Lemma join_ok span_count run_count max_product :
  negb (join_within_budget span_count run_count max_product) = true ↔ over_join span_count run_count max_product.
Proof. unfold join_within_budget, over_join. rewrite negb_true_iff, andb_false_iff, !N.leb_gt. done. Qed.

Section OneLink.
Context {debug : bool} {W R : Type} `{WS : WorldState W R} `{HL : !HasLinked debug W R}.

Definition slot_of_link (w : W) (a : Address) (slot : nat) : option Endset := v ← readlink (link_slice w) a; Link_slot v slot.

Definition project_gates (w : W) (a : Address) (slot : nat) (d : Address) (readable : Address → bool) : list (QueryError * Prop) :=
  [(QE_DocNotRegistered, is_registered_document (m3 w) d = false); (QE_NotALink, home_readable readable a = false);
   (QE_NotALink, slot_of_link w a slot = None);
   (QE_ImageTooLarge, ∃ e, slot_of_link w a slot = Some e ∧
      over_join (N.of_nat (Endset_len e)) (N.of_nat (content_run_count (m5 w) (reads (m3 w) d))) MAX_ANSWER_SPANS)].

(** Projection. [project_on] refuses, in order, an unregistered document, a link homed
    where the reader may not read, a link or slot that is not there, and a join over its
    budget; otherwise its answer is the normal form of exactly the content positions of
    the reading surface that show an address the slot covers. *)
Theorem project_on_exact (w : W) (a : Address) (slot : nat) (d : Address) (readable : Address → bool) :
  core_ok (slices w) →
  ∃ r, project_on w a slot d readable = Done r ∧
    judged r (project_gates w a slot d readable) (λ f, canonical 2 (spans f) ∧ ∃ e, slot_of_link w a slot = Some e ∧
      ∀ t p, at_position t p →
        denotes f t = true ↔ VPos_is_content p = true ∧ (1 ≤ vp_ordinal p)%N ∧
          ∃ x, contents (slices w) (reads (m3 w) d) !! N.to_nat (vp_ordinal p - 1) = Some x ∧ Endset_covers e (tumbler x) = true).
Proof.
  intros Hc. unfold project_on, project_gates. change (m3 w) with (sl_namespace (slices w)). change (m5 w) with (sl_arrangement (slices w)).
  apply judged_gate_done; [by destruct (is_registered_document _ _)|]. intros _.
  apply judged_gate_done; [by destruct (home_readable readable a)|]. intros _.
  assert (Hslot : map_err (λ _, QE_NotALink) (followlink (link_slice w) a slot) = match slot_of_link w a slot with Some e => Ok (to_spanset e) | None => Err QE_NotALink end).
  { unfold followlink, slot_of_link, readlink. destruct (LinkState.links _ !! tumbler a) as [v|]; [|done]. cbn. by destruct (Link_slot v slot). }
  rewrite Hslot. destruct (slot_of_link w a slot) as [e|]; cbn [try_bind mbind outcome_bind]; cycle 1.
  { eexists. split; [reflexivity|]. by apply first_refusal_here. }
  rewrite reading_reads. cbn [mbind outcome_bind]. set (surface := reads _ d).
  destruct (project_ok (sl_arrangement (slices w)) surface (to_spanset e) (co_m5 _ Hc)) as (f & Ef & Hcan & Hden).
  assert (H : ∃ r, (if negb (join_within_budget (N.of_nat (SpanSet_len (to_spanset e))) (N.of_nat (content_run_count (sl_arrangement (slices w)) surface)) MAX_ANSWER_SPANS)
      then Done (Err QE_ImageTooLarge) else shown ← project (sl_arrangement (slices w)) surface (to_spanset e); Done (Ok shown)) = Done r ∧
    judged r [(QE_ImageTooLarge, ∃ e', Some e = Some e' ∧ over_join (N.of_nat (Endset_len e')) (N.of_nat (content_run_count (sl_arrangement (slices w)) surface)) MAX_ANSWER_SPANS)] (λ g, g = f)).
  { apply judged_gate_done; [|intros _; rewrite Ef; by exists (Ok f)]. rewrite join_ok. split; [intros Ho; by exists e|]. by intros (e' & [= <-] & Ho). }
  destruct H as (r & -> & Hr). exists r. split; [done|].
  destruct r as [g|x]; cbn in *; [|by apply first_refusal_next]. destruct Hr as [Hg ->]. split; [by constructor|]. split; [done|]. by exists e.
Qed.

Definition discover_gates (w : W) (a d : Address) (readable : Address → bool) : list (QueryError * Prop) :=
  [(QE_DocNotRegistered, is_registered_document (m3 w) d = false); (QE_NotALink, home_readable readable a = false);
   (QE_NotALink, readlink (link_slice w) a = None);
   (QE_ImageTooLarge, ∃ v, readlink (link_slice w) a = Some v ∧ is_active (link_slice w) a = true ∧
      over_join (N.of_nat (sum_list (Endset_len <$> slots v)))
        (N.of_nat (content_run_count (m5 w) (reads (m3 w) d) + link_run_count (m5 w) (reads (m3 w) d))) MAX_JOIN_STEPS)].

Lemma touches_common e es :
  endset_touches e (SpanBounds_of <$> es) = true ↔ ∃ t, Endset_covers e t = true ∧ any es t = true.
Proof.
  unfold endset_touches. rewrite existsb_exists. setoid_rewrite existsb_exists. setoid_rewrite <- list_elem_of_In. split.
  - intros (q & Hq & b & (s & -> & Hs)%list_elem_of_fmap & Ho). assert (overlaps q s = true) as (t & H1 & H2)%overlaps_common.
    { apply overlaps_iff. unfold SpanBounds_overlaps in Ho. apply andb_true_iff in Ho as [?%ltb_lt ?%ltb_lt]. done. }
    exists t. split; [by exists q|by exists s].
  - intros (t & (q & Hq & H1) & (s & Hs & H2)). exists q. split; [done|]. exists (SpanBounds_of s). split; [by apply list_elem_of_fmap_2|].
    assert (overlaps q s = true) as [? ?]%overlaps_iff by (apply overlaps_common; by exists t).
    unfold SpanBounds_overlaps. apply andb_true_iff. split; by apply ltb_lt.
Qed.

(** Reachability. [addressably_discoverable_from_on] is yes exactly when the link is active
    and some slot of it, the later ones too, covers a position at or under an address the
    reading surface shows or a link it seats; a retracted link is answered no whatever
    the join would cost. *)
Theorem addressably_discoverable_exact (w : W) (a d : Address) (readable : Address → bool) :
  core_ok (slices w) →
  ∃ r, addressably_discoverable_from_on w a d readable = Done r ∧
    judged r (discover_gates w a d readable) (λ b, b = true ↔ is_active (link_slice w) a = true ∧ ∃ v e t,
      readlink (link_slice w) a = Some v ∧ e ∈ slots v ∧ Endset_covers e t = true ∧
      under_some (contents (slices w) (reads (m3 w) d) ++ EditInv.links (slices w) (reads (m3 w) d)) t).
Proof.
  intros Hc. unfold addressably_discoverable_from_on, discover_gates. change (m3 w) with (sl_namespace (slices w)). change (m5 w) with (sl_arrangement (slices w)).
  apply judged_gate_done; [by destruct (is_registered_document _ _)|]. intros _.
  apply judged_gate_done; [by destruct (home_readable readable a)|]. intros _.
  destruct (readlink (link_slice w) a) as [v|] eqn:Ev; cycle 1.
  { eexists. split; [reflexivity|]. by apply first_refusal_here. }
  destruct (is_active (link_slice w) a) eqn:Ea; cbn [negb]; cycle 1.
  { eexists. split; [reflexivity|]. split; [|split; [done|by intros [? _]]]. constructor; [done|]. constructor; [|constructor]. by intros (? & _ & ? & _). }
  rewrite reading_reads. cbn [mbind outcome_bind]. set (surface := reads _ d).
  destruct (lists_ok (sl_arrangement (slices w)) surface (co_m5 _ Hc)) as [[Hc1 _] [Hl1 _]].
  assert (Hruns : runs_ok (content_runs (sl_arrangement (slices w)) surface ++ link_runs (sl_arrangement (slices w)) surface)) by (apply Forall_app; by split).
  destruct (iextents_ok _ Hruns) as (es & Ees & _ & Hes).
  change (flat _) with (flat (content_runs (sl_arrangement (slices w)) surface ++ link_runs (sl_arrangement (slices w)) surface)) in Hes. rewrite flat_app in Hes.
  assert (H : ∃ r, (if negb (join_within_budget (N.of_nat (sum_list (Endset_len <$> slots v)))
        (N.of_nat (content_run_count (sl_arrangement (slices w)) surface + link_run_count (sl_arrangement (slices w)) surface)) MAX_JOIN_STEPS)
      then Done (Err QE_ImageTooLarge)
      else extents ← outcome_map iextent (content_runs (sl_arrangement (slices w)) surface ++ link_runs (sl_arrangement (slices w)) surface);
        Done (Ok (existsb (λ e, endset_touches e (SpanBounds_of <$> extents)) (slots v)))) = Done r ∧
    judged r [(QE_ImageTooLarge, ∃ v', Some v = Some v' ∧ true = true ∧ over_join (N.of_nat (sum_list (Endset_len <$> slots v')))
        (N.of_nat (content_run_count (sl_arrangement (slices w)) surface + link_run_count (sl_arrangement (slices w)) surface)) MAX_JOIN_STEPS)]
      (λ b, b = existsb (λ e, endset_touches e (SpanBounds_of <$> es)) (slots v))).
  { apply judged_gate_done; [|intros _; rewrite Ees; by eexists (Ok _)]. rewrite join_ok. split; [intros Ho; by exists v|]. by intros (v' & [= <-] & _ & Ho). }
  destruct H as (r & -> & Hr). exists r. split; [done|].
  destruct r as [b|x]; cbn [judged] in *; [|by apply first_refusal_next]. destruct Hr as [Hg ->]. split; [by constructor|].
  rewrite existsb_exists. setoid_rewrite <- list_elem_of_In. setoid_rewrite touches_common. setoid_rewrite Hes. split.
  - intros (e & He & t & Ht & Hu). split; [done|]. by exists v, e, t.
  - intros (_ & v' & e & t & [= <-] & He & Ht & Hu). exists e. split; [done|]. by exists t.
Qed.
End OneLink.
