(* ===== verification/OrphanCalls.v ===== *)
(** * Orphans and claims

    What a deletion would orphan, the active links that touch what it deletes and
    nothing it keeps; and the supersession claims that name an address, on either
    side. *)

From stdpp Require Import gmap sorting.
From S2P Require Import Prelude Txns Tumblers Addresses AddrMaps Arith NsKeys NsState NsLaws NsOps NsInv NsCalls Spans SpanSets Runs Content RunLists RunUnions VSpace Provenance Chain ArrState ArrReads World Edits EditInv EditSteps EditCalls CopyCalls VersionCalls RetrievalLaws OrdSets Endsets ClassLaws TypeRegistry.
From S2P Require Import Spanfilade SpanfiladeLaws HomeWalk HomeWalkLaws LinkState LinkStateLaws LinkReads LinkFind LinkChains LinkFindLaws LinkFindCalls LinkSlots LinkWorld LinkCalls Discovery DiscoveryLaws DiscoveryCalls SlotCalls.

(** ** The parts of a deletion *)

(** The positions of [n] values from ordinal [o]. *)
Definition part (o n : N) (l : list Address) : list Address := take (N.to_nat n) (drop (N.to_nat (o - 1)) l).

Definition part_runs (s : Slices) (d : Address) (o n : N) : list Run :=
  if (n =? 0)%N then []
  else match iter_resolve_range (content_list (sl_arrangement s) d) o n with Done rs => rs | Panicked => [] end.

Definition names_part (o n : N) (span : option Span) : Prop :=
  match span with
  | None => n = 0%N
  | Some span => n ≠ 0%N ∧ as_ordinal_vspan span = Some (MkOrdinalVSpan content_subspace o n)
  end.

Lemma content_vspan_ok o n : ∃ span, content_vspan (VPos_content o) n = Done span ∧ names_part o n span.
Proof.
  unfold content_vspan, VPos_is_content. cbn [VPos_content vp_subspace]. rewrite N.eqb_refl. cbn [negb].
  destruct (N.eq_dec n 0%N) as [->|Hn]; [by exists None|].
  destruct (ordinal_vspan_ok (VPos_content o) n Hn) as (span & E & Hst & Hw). exists (Some span). split; [exact E|]. split; [done|].
  by apply as_ordinal_vspan_Some.
Qed.

Lemma part_runs_ok s d o n :
  core_ok s → (1 ≤ o)%N → runs_ok (part_runs s d o n) ∧ flat (part_runs s d o n) = part o n (contents s d).
Proof.
  intros Hok Ho. unfold part_runs, part. destruct (N.eqb_spec n 0) as [->|Hn]; [split; [apply runs_ok_nil|done]|].
  assert (Hl : RunList_ok (content_list (sl_arrangement s) d)) by apply content_ok, Hok.
  destruct (iter_resolve_range_ok _ o n Hl) as (rs & -> & Hr & Hf). split; [done|]. rewrite Hf.
  change (vmap (content_list (sl_arrangement s) d)) with (contents s d).
  by replace (N.to_nat (o + n - N.max o 1)) with (N.to_nat n) by lia.
Qed.

Lemma named_part s d o n span :
  core_ok s → (1 ≤ o)%N → names_part o n (Some span) → iter_resolve (sl_arrangement s) d span = Done (part_runs s d o n).
Proof.
  intros Hok Ho [Hn Hv]. unfold iter_resolve, part_runs. rewrite Hv. cbn [ov_subspace ov_ordinal ov_count]. unfold arr_list. rewrite N.eqb_refl.
  rewrite (proj2 (N.eqb_neq _ _) Hn). change (content (arrangement_of (sl_arrangement s) d)) with (content_list (sl_arrangement s) d).
  assert (Hl : RunList_ok (content_list (sl_arrangement s) d)) by apply content_ok, Hok.
  by destruct (iter_resolve_range_ok _ o n Hl) as (rs & -> & _).
Qed.

Lemma named_parts s d o n span : core_ok s → (1 ≤ o)%N → names_part o n span →
  outcome_map (iter_resolve (sl_arrangement s) d) (omap id [span]) = Done (if (n =? 0)%N then [] else [part_runs s d o n]).
Proof.
  intros Hok Ho Hp. destruct span as [span|].
  - cbn. rewrite (named_part s d o n span Hok Ho Hp). cbn. destruct Hp as [Hn _]. by rewrite (proj2 (N.eqb_neq _ _) Hn).
  - cbn in Hp. by subst.
Qed.

Definition partition_gates (s : Slices) (d : Address) (p : VPos) (n : N) : list (OrphanError * Prop) :=
  [(OE_NotContentSubspace, VPos_is_content p = false); (OE_EmptyWidth, n = 0%N);
   (OE_OutOfBounds, vp_ordinal p = 0%N ∨ (N.of_nat (length (contents s d)) + 1 < vp_ordinal p + n)%N)].

Definition rest_of (s : Slices) (d : Address) (o n : N) : N := (N.of_nat (length (contents s d)) + 1 - (o + n))%N.

Definition partitions (s : Slices) (d : Address) (o n : N) (pt : DeletePartition) : Prop :=
  (1 ≤ o)%N ∧ n ≠ 0%N ∧ names_part o n (Some (pt_deleted pt)) ∧ names_part 1 (o - 1) (pt_prefix pt) ∧
  names_part (o + n) (rest_of s d o n) (pt_suffix pt).

Lemma DeletePartition_of_ok s d p n :
  ∃ r, DeletePartition_of (sl_arrangement s) d p n = Done r ∧
    judged r (partition_gates s d p n) (partitions s d (vp_ordinal p) n).
Proof.
  unfold DeletePartition_of, partition_gates. rewrite content_count_ok. unfold ArrState.count. change (vmap (content_list (sl_arrangement s) d)) with (contents s d).
  destruct (VPos_is_content p) eqn:Ep; cbn [negb]; [|eexists; split; [reflexivity|by apply first_refusal_here]].
  assert (∃ o, p = VPos_content o) as [o ->].
  { exists (vp_ordinal p). unfold VPos_is_content in Ep. apply N.eqb_eq in Ep. destruct p; cbn in *; by subst. }
  clear Ep. cbn [VPos_content vp_ordinal].
  rewrite nat_is_zero_eqb. destruct (N.eqb_spec n 0) as [Hn|Hn].
  { eexists. split; [reflexivity|]. apply first_refusal_next; [done|]. by apply first_refusal_here. }
  rewrite nat_is_zero_eqb. destruct (orb _ _) eqn:Eb.
  { eexists. split; [reflexivity|]. do 2 (apply first_refusal_next; [done|]). apply first_refusal_here.
    apply orb_true_iff in Eb as [?%N.eqb_eq|?%N.ltb_lt]; [by left|by right]. }
  apply orb_false_iff in Eb as [Eo%N.eqb_neq Eb%N.ltb_ge]. rewrite nat_sub_ok by lia. cbn [mbind outcome_bind].
  destruct (content_vspan_ok o n) as ([del|] & -> & Hdel); [|done]. cbn [expect_some mbind outcome_bind].
  rewrite nat_sub_ok by lia. cbn [mbind outcome_bind].
  destruct (content_vspan_ok 1 (o - 1)) as (pre & -> & Hpre). cbn [mbind outcome_bind].
  destruct (content_vspan_ok (o + n) (rest_of s d o n)) as (suf & Es & Hsuf). unfold rest_of in Es. rewrite Es.
  cbn [mbind outcome_bind]. eexists. split; [reflexivity|]. split.
  - constructor; [done|]. constructor; [done|]. constructor; [|constructor]. cbn [snd]. lia.
  - unfold partitions. cbn [pt_deleted pt_prefix pt_suffix]. split_and!; [lia|done|apply Hdel..|done|done].
Qed.

(** ** The two sides of a touch *)

Lemma side_probes_ok pre query post :
  probes_ok (pre ++ region_queries query ++ post) (probes (length pre)).
Proof.
  intros slot j Hin. unfold probes in Hin. apply elem_of_lookup_imap in Hin as (i & x & [= -> ->] & Hi). exists query.
  rewrite lookup_app_r by lia. replace (length pre + i - length pre) with i by lia. apply lookup_app_l_Some.
  unfold region_queries. by rewrite list_lookup_fmap, Hi.
Qed.

Lemma side_probed l pre query post addrs d a slot :
  (∀ t, Endset_covers query t = true ↔ under_some addrs t) →
  probed l (pre ++ region_queries query ++ post) (probes (length pre)) d a slot ↔
  ∃ v, LinkState.links l !! a = Some v ∧ homed a d ∧ slot ∈ V1_SLOTS ∧ meets_slot v slot addrs.
Proof.
  intros Hq. rewrite <- (region_probed l query addrs d a slot Hq). unfold probed.
  assert (Hj : ∀ sl j, (sl, j) ∈ probes (length pre) → ∃ i, j = length pre + i ∧ (sl, i) ∈ probes 0 ∧ V1_SLOTS !! i = Some sl).
  { intros sl j (i & x & [= -> ->] & Hi)%elem_of_lookup_imap. exists i. split; [done|]. split; [|done]. apply elem_of_lookup_imap. by exists i, x. }
  assert (Hk : ∀ i sl, V1_SLOTS !! i = Some sl → (pre ++ region_queries query ++ post) !! (length pre + i) = region_queries query !! i).
  { intros i sl Hi. rewrite lookup_app_r by lia. replace (length pre + i - length pre) with i by lia.
    apply lookup_app_l. unfold region_queries. rewrite length_fmap. by apply lookup_lt_Some in Hi. }
  split; intros (v & j & qu & Ha & Hd & Hp & Hl & Ho).
  - destruct (Hj _ _ Hp) as (i & -> & Hp' & Hi). exists v, i, qu. rewrite (Hk i slot Hi) in Hl. by split_and!.
  - apply elem_of_lookup_imap in Hp as (i & x & [= -> ->] & Hi). exists v, (length pre + i), qu. rewrite (Hk i x Hi).
    split_and!; [done|done| |done|done]. apply elem_of_lookup_imap. by exists i, x.
Qed.

Section Orphans.
Context (l : LinkState) (Hs : findable l) (deleted kept : Endset) (gone left : list Address).
Context (Hgone : ∀ t, Endset_covers deleted t = true ↔ under_some gone t) (Hleft : ∀ t, Endset_covers kept t = true ↔ under_some left t).
#[local] Notation queries := (region_queries deleted ++ region_queries kept).
Context (ts : list Touch) (Hts : all_touches l queries = Done ts).

(** An active link of [d] that touches what goes and nothing that stays. *)
Definition orphan_at (d a : Address) : Prop :=
  shows l ViewActive a (λ v, homed (tumbler a) d ∧ meets_region v gone ∧ ¬ meets_region v left).

Definition orphan_listing (t : Touch) : list Address :=
  List.filter (λ a, negb (bool_decide (a ∈ slot_listing l (probes (length V1_SLOTS)) ViewActive t))) (slot_listing l (probes 0) ViewActive t).

Lemma side_ok t first query addrs :
  t ∈ ts → (first, query, addrs) ∈ [(0, deleted, gone); (3, kept, left)] →
  touching_side l t first = Done (slot_listing l (probes first) ViewActive t) ∧ listing_ok to_home (slot_listing l (probes first) ViewActive) t ∧
  ∀ a, a ∈ slot_listing l (probes first) ViewActive t ↔ shows l ViewActive a (λ v, homed (tumbler a) (to_home t) ∧ meets_region v addrs).
Proof using Hs Hts Hgone Hleft.
  intros Ht Hin. assert (∃ pre post, queries = pre ++ region_queries query ++ post ∧ first = length pre ∧ ∀ u, Endset_covers query u = true ↔ under_some addrs u)
    as (pre & post & Eq & -> & Hq).
  { apply elem_of_cons in Hin as [[= -> -> ->]|Hin%list_elem_of_singleton]; [by exists [], (region_queries kept)|].
    injection Hin as -> -> ->. exists (region_queries deleted), []. split; [by rewrite app_nil_r|]. split; [done|exact Hleft]. }
  rewrite Eq in Hts. destruct (slot_listing_ok l Hs _ ts t _ ViewActive Hts Ht (side_probes_ok pre query post)) as (pairs & E & El & Hok & _ & Hm & _).
  split_and!; [|done|].
  - unfold touching_side. by rewrite E, El.
  - intros a. rewrite Hm. unfold probed_link. setoid_rewrite (side_probed l pre query post addrs); [|done]. unfold shows, meets_region. naive_solver.
Qed.

(** A touch no span of the deleted side named lists nothing on it. *)
Lemma unnamed_side t :
  t ∈ ts → forallb (λ i, negb (nonemptyb (touch_spans t i))) (seq 0 (length V1_SLOTS)) = true → slot_listing l (probes 0) ViewActive t = [].
Proof using Hs Hts Hgone Hleft.
  intros Ht Hun. destruct (slot_listing l (probes 0) ViewActive t) as [|a rest] eqn:El; [done|]. exfalso.
  destruct (all_touches_ok l Hs queries) as (ts' & E & Hc). rewrite Hts in E. injection E as <-.
  pose proof (touches_ascending l Hs _ ts Hts) as Hasc.
  destruct (slot_listing_ok l Hs _ ts t _ ViewActive Hts Ht (side_probes_ok [] deleted (region_queries kept))) as (_ & _ & _ & _ & _ & Hm & _).
  assert (Ha : a ∈ slot_listing l (probes 0) ViewActive t) by (rewrite El; by left). apply Hm in Ha as (slot & (v & j & q & Hv & Hd & Hp & Hj & Ho) & _).
  apply slot_overlaps_iff in Ho as (sp & Hsp & Hmeet). destruct (ca_hits _ _ _ Hc _ v _ j slot q sp Hv Hd Hj Hsp Hmeet) as (u & parts & Hu & Eu & Hn & _).
  pose proof (find_home to_home ts t Hasc Ht) as Ft. pose proof (find_home to_home ts u Hasc Hu) as Fu. rewrite Eu, Ft in Fu. injection Fu as <-.
  assert (Hsp' : sp ∈ touch_spans t j) by (apply elem_of_touch_spans; by exists parts).
  rewrite forallb_forall in Hun. apply elem_of_lookup_imap in Hp as (i & x & [= -> ->] & Hi). apply lookup_lt_Some in Hi.
  specialize (Hun i). rewrite <- list_elem_of_In, elem_of_seq in Hun. specialize (Hun ltac:(lia)). cbn [Nat.add] in Hsp'.
  by destruct (touch_spans t i); [apply not_elem_of_nil in Hsp'|].
Qed.

Lemma orphans_of_ok readable t :
  t ∈ ts → orphans_of l readable t = Done (if home_admitted readable (to_home t) then orphan_listing t else []).
Proof using Hs Hts Hgone Hleft.
  intros Ht. unfold orphans_of. destruct (forallb _ _) eqn:Eun.
  { unfold orphan_listing. rewrite (unnamed_side t Ht Eun). by destruct (home_admitted _ _). }
  destruct (home_admitted readable (to_home t)); cbn [negb]; [|done].
  destruct (side_ok t 0 deleted gone Ht ltac:(by left)) as (-> & _). destruct (side_ok t 3 kept left Ht ltac:(right; by left)) as (E & _).
  change (length V1_SLOTS) with 3. by rewrite E.
Qed.

Lemma orphan_listing_ok t : t ∈ ts → listing_ok to_home orphan_listing t ∧ ∀ a, a ∈ orphan_listing t ↔ orphan_at (to_home t) a.
Proof using Hs Hts Hgone Hleft.
  intros Ht. destruct (side_ok t 0 deleted gone Ht ltac:(by left)) as (_ & [H1 H2] & Hm).
  destruct (side_ok t 3 kept left Ht ltac:(right; by left)) as (_ & _ & Hk). unfold orphan_listing. change (length V1_SLOTS) with 3. split.
  - split; [by apply StronglySorted_filter|]. intros a [Ha _]%elem_of_bfilter. by apply H2.
  - intros a. rewrite elem_of_bfilter, negb_true_iff, bool_decide_eq_false, Hm, Hk. unfold orphan_at, shows. split.
    + intros [(v & Hv & [Hd Hg] & Hact) Hno]. exists v. split_and!; [done|done|done| |done]. intros Hl. apply Hno. by exists v.
    + intros (v & Hv & (Hd & Hg & Hno) & Hact). split; [by exists v|]. intros (v' & Hv' & [_ Hl] & _). rewrite Hv in Hv'. by injection Hv' as <-.
Qed.

Lemma orphans_all readable :
  ∃ found, outcome_map (orphans_of l readable) ts = Done found ∧ StronglySorted olt (concat found) ∧
    ∀ a, a ∈ concat found ↔ ∃ d, readable d = true ∧ orphan_at d a.
Proof using Hs Hts Hgone Hleft.
  eexists. split; [by apply outcome_map_done, orphans_of_ok|]. rewrite concat_bind. split.
  - apply (listings_sorted to_home (λ t, if home_admitted readable (to_home t) then orphan_listing t else [])); [by apply (touches_ascending l Hs queries)|].
    intros t Ht. unfold listing_ok. destruct (home_admitted readable (to_home t)); [by apply orphan_listing_ok|]. split; [constructor|by intros a ?%not_elem_of_nil].
  - intros a. rewrite list_elem_of_bind. split.
    + intros (t & Ha & Ht). destruct (home_admitted readable (to_home t)) eqn:Hr; [|by apply not_elem_of_nil in Ha]. exists (to_home t). split; [done|].
      by apply orphan_listing_ok.
    + intros (d & Hr & v & Hv & (Hd & (slot & Hsl & Hg) & Hno) & Hact).
      assert (Hp : probed l queries (probes 0) d (tumbler a) slot).
      { apply (side_probed l [] deleted (region_queries kept) gone); [exact Hgone|by exists v]. }
      destruct (probed_touched l Hs _ ts _ d (tumbler a) slot Hts Hp) as (t & Ht & <-). exists t. unfold home_admitted. rewrite Hr. split; [|done].
      apply orphan_listing_ok; [done|]. exists v. split_and!; [done|done|by exists slot|done|done].
Qed.
End Orphans.

(** ** The read *)

Definition gone_of (s : Slices) (d : Address) (o n : N) : list Address := part o n (contents s d).

(** What the document keeps: its other content, and the links it seats. *)
Definition left_of (s : Slices) (d : Address) (o n : N) : list Address :=
  take (N.to_nat (o - 1)) (contents s d) ++ drop (N.to_nat (o - 1 + n)) (contents s d) ++ EditInv.links s d.

Definition left_runs (s : Slices) (d : Address) (o n : N) : list Run :=
  part_runs s d 1 (o - 1) ++ part_runs s d (o + n) (rest_of s d o n).

Definition orphan_gates (s : Slices) (d : Address) (p : VPos) (n : N) : list (OrphanError * Prop) :=
  (OE_DocNotRegistered, is_registered_document (sl_namespace s) d = false) :: partition_gates s d p n ++
  [(OE_ImageTooLarge,
     (MAX_IMAGE_RUNS < N.of_nat (content_run_count (sl_arrangement s) d + link_run_count (sl_arrangement s) d))%N);
   (OE_ImageTooLarge,
     (MAX_IMAGE_RUNS < N.of_nat (length (part_runs s d (vp_ordinal p) n) + length (left_runs s d (vp_ordinal p) n) +
        link_run_count (sl_arrangement s) d))%N)].

Lemma left_runs_ok s d o n :
  core_ok s → (1 ≤ o)%N → runs_ok (left_runs s d o n ++ link_runs (sl_arrangement s) d) ∧
    flat (left_runs s d o n ++ link_runs (sl_arrangement s) d) = left_of s d o n.
Proof.
  intros Hok Ho. unfold left_runs, left_of. destruct (part_runs_ok s d 1 (o - 1) Hok) as [H1 E1]; [lia|].
  destruct (part_runs_ok s d (o + n) (rest_of s d o n) Hok) as [H2 E2]; [lia|].
  destruct (lists_ok (sl_arrangement s) d (co_m5 _ Hok)) as [_ Hl]. split.
  - apply Forall_app. split; [by apply Forall_app|]. apply Hl.
  - rewrite !flat_app, E1, E2, <- app_assoc. unfold part. rewrite drop_0. f_equal. f_equal.
    replace (N.to_nat (o + n - 1)) with (N.to_nat (o - 1 + n)) by lia. apply take_ge. rewrite length_drop. unfold rest_of. lia.
Qed.

Lemma resolve_all_ok s d o n pre suf :
  core_ok s → (1 ≤ o)%N → names_part 1 (o - 1) pre → names_part (o + n) (rest_of s d o n) suf →
  resolve_all (sl_arrangement s) d [pre; suf] = Done (left_runs s d o n).
Proof.
  intros Hok Ho Hp Hsuf. unfold resolve_all, left_runs. change [pre; suf] with ([pre] ++ [suf]). rewrite omap_app.
  rewrite (outcome_map_app _ _ _ _ _ (named_parts s d 1 (o - 1) pre Hok ltac:(lia) Hp) (named_parts s d (o + n) _ suf Hok ltac:(lia) Hsuf)).
  cbn [mbind outcome_bind]. rewrite concat_app. f_equal.
  assert (Hone : ∀ a b, concat (if (b =? 0)%N then [] else [part_runs s d a b]) = part_runs s d a b).
  { intros a b. destruct (N.eqb_spec b 0) as [->|]; [done|]. cbn. by rewrite app_nil_r. }
  by rewrite !Hone.
Qed.

Section Deletion.
Context {debug : bool} {W R : Type} `{WS : WorldState W R} `{HL : !HasLinked debug W R}.

(** C19. Orphans. [delete_orphans_on] refuses by the document, then by DELETE's own range gates,
    then by the budgets on the runs held and resolved; otherwise it reports, in address
    order, exactly the active links of readable homes that touch an address the deletion
    would take and none the document would keep, its other content or a link it seats:
    an address arranged twice and deleted once orphans nothing. *)
Theorem delete_orphans_exact (w : W) (d : Address) (p : VPos) (width : Nat) (readable : Address → bool) :
  core_ok (slices w) → findable (link_slice w) →
  ∃ r, delete_orphans_on w d p width readable = Done r ∧
    judged r (orphan_gates (slices w) d p width) (λ report, StronglySorted olt (orphaned report) ∧
      ∀ a, a ∈ orphaned report ↔ ∃ home, readable home = true ∧
        orphan_at (link_slice w) (gone_of (slices w) d (vp_ordinal p) width) (left_of (slices w) d (vp_ordinal p) width) home a).
Proof.
  intros Hc Hf. unfold delete_orphans_on, orphan_gates. change (m3 w) with (sl_namespace (slices w)). change (m5 w) with (sl_arrangement (slices w)).
  apply judged_gate_done; [by destruct (is_registered_document _ _)|]. intros _.
  eapply judged_try; [apply DeletePartition_of_ok|]. intros pt (Ho & Hn & Hdel & Hpre & Hsuf).
  apply judged_gate_done; [apply N.ltb_lt|]. intros _. unfold resolve. rewrite (named_part _ _ _ _ _ Hc Ho Hdel). cbn [mbind outcome_bind].
  rewrite (resolve_all_ok _ _ _ _ _ _ Hc Ho Hpre Hsuf). cbn [mbind outcome_bind].
  apply judged_gate_done; [apply N.ltb_lt|]. intros _.
  destruct (part_runs_ok (slices w) d (vp_ordinal p) width Hc Ho) as [Hr1 E1].
  destruct (left_runs_ok (slices w) d (vp_ordinal p) width Hc Ho) as [Hr2 E2].
  destruct (query_extents_ok _ Hr1) as (deleted & -> & _ & Hgone). rewrite E1 in Hgone. cbn [mbind outcome_bind].
  destruct (query_extents_ok _ Hr2) as (kept & -> & _ & Hleft). rewrite E2 in Hleft. cbn [mbind outcome_bind].
  destruct (all_touches_ok _ Hf (region_queries deleted ++ region_queries kept)) as (ts & Hts & _). unfold region_queries in Hts at 1 2. rewrite Hts. cbn [mbind outcome_bind].
  destruct (orphans_all _ Hf deleted kept _ _ Hgone Hleft ts Hts readable) as (found & -> & Hsort & Hin). cbn [mbind outcome_bind].
  eexists. split; [reflexivity|]. by apply judged_ok.
Qed.
End Deletion.

(** ** Claims *)

Lemma ord_elements_strict s : StronglySorted Tlt (ord_elements s).
Proof.
  pose proof (ord_elements_NoDup s) as Hn. pose proof (ord_elements_sorted s) as Hs. induction Hs as [|t l Hl IH Hf]; [constructor|].
  apply NoDup_cons in Hn as [Ht Hn]. constructor; [by apply IH|]. rewrite Forall_forall in Hf. apply Forall_forall. intros u Hu. specialize (Hf u Hu).
  unfold tum_le in Hf. destruct (decide (t = u)) as [->|]; [done|]. torder.
Qed.

Lemma slot_eq e v : Link_slot v (Endpoint_slot e) = Some (match e with EndOld => from_slot v | EndNew => to_slot v end).
Proof. destruct v as [[|f [|t rest]] Hv]; [done|done|]. by destruct e. Qed.

Lemma single_denoted_covers e t : single_denoted e = Some t → Endset_covers e t = true.
Proof.
  unfold single_denoted. destruct (is_address_denoting e) eqn:Hd; [|done]. cbn [negb]. destruct (Endset_addrs e) as [|x rest] eqn:E; [done|].
  destruct (existsb _ rest); [done|]. intros [= ->]. apply (denoting_covers e t Hd). exists t. rewrite E. split; [by left|].
  apply is_prefix_spec. exists []. by rewrite app_nil_r.
Qed.

Lemma read_out_iff e t a :
  Endpoint_read_out e t = Some a ↔ single_denoted (match e with EndOld => tu_from t | EndNew => tu_to t end) = Some (tumbler a).
Proof.
  unfold Endpoint_read_out. destruct (single_denoted _) as [x|]; [|done]. destruct (validate x) as [b|] eqn:Ev; cycle 1.
  - split; [done|]. intros [= ->]. by rewrite validate_self in Ev.
  - apply validate_Ok in Ev as <-. split; [by intros [= ->]|]. by intros [= ->%Address_eq].
Qed.

Lemma omap_id_map {A B} (f : A → option B) (l : list A) : omap id (f <$> l) = omap f l.
Proof. induction l as [|x l IH]; [done|]. cbn. destruct (f x); cbn; by rewrite IH. Qed.

Lemma map_bind {A B C} (g : B → C) (f : A → list B) (l : list A) : g <$> (l ≫= f) = l ≫= λ x, g <$> f x.
Proof. induction l as [|x l IH]; [done|]. cbn. by rewrite <- IH, <- fmap_app. Qed.

Section Claims.
Context (l : LinkState) (Hs : findable l).

(** The tuples one home's typed stab answers. *)
Lemma stab_typed_in_ok class d slot query view :
  ∃ tuples, stab_typed_in l class d slot query view = Done tuples ∧ StronglySorted Tlt ((λ t, tumbler (tu_addr t)) <$> tuples) ∧
    ∀ t, t ∈ tuples ↔ ∃ v, typed (LinkState.links l) (tumbler (tu_addr t)) class v ∧ homed (tumbler (tu_addr t)) d ∧
      (∃ q, q ∈ query ∧ slot_meets v slot q) ∧ view_admits l view (tumbler (tu_addr t)) = true ∧ tu_from t = from_slot v ∧ tu_to t = to_slot v.
Proof using Hs.
  unfold stab_typed_in. destruct (type_slices (hints l) !! class) as [slice|] eqn:Esl; cycle 1.
  { exists []. split_and!; [done|constructor|]. intros t. split; [by intros ?%not_elem_of_nil|]. intros (v & [Hv Hc] & _).
    destruct (slice_there l Hs _ v class Hv Hc). congruence. }
  unfold stab_typed_in_slice. set (keys := List.filter _ _).
  assert (Hkeys : ∀ a, a ∈ keys ↔ ∃ v, typed (LinkState.links l) a class v ∧ homed a d ∧ (∃ q, q ∈ query ∧ slot_meets v slot q) ∧ view_admits l view a = true).
  { intros a. unfold keys. rewrite elem_of_bfilter, elem_of_ord_elements, (stab_keys_in_iff l Hs), andb_true_iff, bool_decide_eq_true, (slice_elem l Hs class slice a Esl).
    unfold typed. split.
    - intros [(v & q & Hv & Hd & Hq & Hm) [(v' & Hv' & Hc) Hview]]. rewrite Hv in Hv'. injection Hv' as <-. exists v. split_and!; [done|done|done|by exists q|done].
    - intros (v & [Hv Hc] & Hd & (q & Hq & Hm) & Hview). split; [by exists v, q|]. split; [by exists v|done]. }
  destruct (outcome_map_ok (tuple_at l) keys (λ a t, tumbler (tu_addr t) = a ∧ ∃ v, LinkState.links l !! a = Some v ∧ tu_from t = from_slot v ∧ tu_to t = to_slot v))
    as (tuples & -> & Ht).
  { intros a (v & [Hv _] & _)%Hkeys. destruct (key_homed l Hs a v Hv) as [Hok _]. unfold tuple_at, link_at, lift. rewrite Hv. cbn [expect_some mbind outcome_bind].
    destruct (validate a) as [x|] eqn:Ev; [|done]. cbn. eexists. split; [reflexivity|]. split; [by apply validate_Ok|]. by exists v. }
  exists tuples. split; [done|].
  assert (Emap : (λ t, tumbler (tu_addr t)) <$> tuples = keys) by (clear -Ht; induction Ht as [|a t k ts [E _] _ IH]; [done|]; cbn; by f_equal).
  split; [rewrite Emap; by apply StronglySorted_filter, ord_elements_strict|]. intros t. split.
  - intros (i & Hi)%list_elem_of_lookup. destruct (Forall2_lookup_r _ _ _ _ _ Ht Hi) as (a & Ha & <- & v & Hv & Hf & Hto). apply list_elem_of_lookup_2, Hkeys in Ha as (v' & [Hv' Hc] & ? & ? & ?).
    rewrite Hv in Hv'. injection Hv' as <-. by exists v.
  - intros (v & Hty & Hd & Hq & Hview & Hf & Hto). assert (Ha : tumbler (tu_addr t) ∈ keys) by (apply Hkeys; by exists v).
    apply list_elem_of_lookup in Ha as [i Ha]. destruct (Forall2_lookup_l _ _ _ _ _ Ht Ha) as (t' & Hi & Et & v' & Hv' & Hf' & Hto').
    destruct Hty as [Hv _]. rewrite Hv in Hv'. injection Hv' as <-. apply Address_eq in Et. destruct t, t'. cbn in *. subst. by apply list_elem_of_lookup_2 in Hi.
Qed.

Definition sup_claim_of (t : Tuple) : option SupClaim :=
  match Endpoint_read_out EndOld t, Endpoint_read_out EndNew t, home_of (tu_addr t) with
  | Some old, Some new, Some home => Some (MkSupClaim (tu_addr t) old new home (is_active l (tu_addr t)))
  | _, _, _ => None
  end.

Lemma sup_claim_ok t d : homed (tumbler (tu_addr t)) d → sup_claim l t = Done (sup_claim_of t).
Proof using.
  intros Hd. unfold sup_claim, sup_claim_of, home_of. rewrite (homed_document (tumbler (tu_addr t)) (tu_addr t) d) by (done || apply validate_self).
  by destruct (Endpoint_read_out EndOld t), (Endpoint_read_out EndNew t).
Qed.

Context (key : Address) (endpoint : Endpoint) (view : View) (readable : Address → bool).

(** A claim of supersession that names the key at its endpoint. *)
Definition claim_at (d : Address) (c : SupClaim) : Prop :=
  ∃ v, typed (LinkState.links l) (tumbler (sc_claim c)) (shipped_class registry Supersedes) v ∧ homed (tumbler (sc_claim c)) d ∧ sc_home c = d ∧
    view_admits l view (tumbler (sc_claim c)) = true ∧ single_denoted (from_slot v) = Some (tumbler (sc_old c)) ∧
    single_denoted (to_slot v) = Some (tumbler (sc_new c)) ∧ sc_active c = is_active l (sc_claim c) ∧ Endpoint_of endpoint c = key.

Definition home_claims (t : Touch) : list SupClaim :=
  match stab_typed_in l (shipped_class registry Supersedes) (to_home t) (Endpoint_slot endpoint) (touch_spans t 0) view with
  | Done tuples => List.filter (λ c, bool_decide (Endpoint_of endpoint c = key)) (omap sup_claim_of tuples)
  | Panicked => []
  end.

Lemma claims_sorted tuples :
  StronglySorted Tlt ((λ t, tumbler (tu_addr t)) <$> tuples) → StronglySorted olt (sc_claim <$> omap sup_claim_of tuples).
Proof using.
  intros Hs'. remember ((λ t, tumbler (tu_addr t)) <$> tuples) as k eqn:E. revert tuples E. induction Hs' as [|x k Hk IH Hf]; intros [|t ts] E; try done; [constructor|].
  injection E as -> ->. cbn. destruct (sup_claim_of t) as [c|] eqn:Ec; cbn; [|by apply IH].
  assert (Hc : ∀ u c', sup_claim_of u = Some c' → sc_claim c' = tu_addr u).
  { intros u c' Hu. unfold sup_claim_of in Hu. repeat case_match; try done. by injection Hu as <-. }
  constructor; [by apply IH|]. apply Forall_forall. intros y (c' & -> & (u & Hu & Eu)%list_elem_of_omap)%list_elem_of_fmap.
  rewrite (Hc t c Ec), (Hc u c' Eu). rewrite Forall_forall in Hf. apply (Hf (tumbler (tu_addr u))). by apply (list_elem_of_fmap_2 (λ t, tumbler (tu_addr t))).
Qed.

Lemma claims_filtered (p : SupClaim → bool) cs : StronglySorted olt (sc_claim <$> cs) → StronglySorted olt (sc_claim <$> List.filter p cs).
Proof using.
  induction cs as [|c cs IH]; [done|]. cbn. intros Hc. inversion Hc as [|? ? Hs' Hf]; subst. destruct (p c); [|by apply IH]. cbn. constructor; [by apply IH|].
  apply Forall_forall. intros y (c' & -> & [Hc' _]%elem_of_bfilter)%list_elem_of_fmap. rewrite Forall_forall in Hf. apply Hf. by apply list_elem_of_fmap_2.
Qed.

Lemma claim_overlaps v c :
  single_denoted (from_slot v) = Some (tumbler (sc_old c)) → single_denoted (to_slot v) = Some (tumbler (sc_new c)) → Endpoint_of endpoint c = key →
  slot_overlaps v (Endpoint_slot endpoint) (enc [key]) = true.
Proof using.
  intros Ho Hn <-. apply slot_overlaps_covers. exists (match endpoint with EndOld => from_slot v | EndNew => to_slot v end), (tumbler (Endpoint_of endpoint c)).
  split; [apply slot_eq|]. split; [|by apply single_denoted_covers, single_enc]. apply single_denoted_covers. by destruct endpoint.
Qed.

Section Walk.
Context (ts : list Touch) (Hts : all_touches l [(Endpoint_slot endpoint, enc [key])] = Done ts).

Lemma home_claims_ok t : t ∈ ts →
  ∃ tuples, stab_typed_in l (shipped_class registry Supersedes) (to_home t) (Endpoint_slot endpoint) (touch_spans t 0) view = Done tuples ∧
    outcome_map (sup_claim l) tuples = Done (sup_claim_of <$> tuples) ∧
    home_claims t = List.filter (λ c, bool_decide (Endpoint_of endpoint c = key)) (omap sup_claim_of tuples) ∧
    listing_ok to_home (λ t, sc_claim <$> home_claims t) t ∧ ∀ c, c ∈ home_claims t ↔ claim_at (to_home t) c.
Proof using Hs Hts.
  intros Ht. destruct (stab_typed_in_ok (shipped_class registry Supersedes) (to_home t) (Endpoint_slot endpoint) (touch_spans t 0) view) as (tuples & E & Hsort & Hin).
  exists tuples. split; [done|]. split.
  { apply outcome_map_done. intros u (v & _ & Hd & _)%Hin. by apply (sup_claim_ok u (to_home t)). }
  unfold listing_ok, home_claims. rewrite E. split; [done|].
  assert (Hm : ∀ c, c ∈ List.filter (λ c, bool_decide (Endpoint_of endpoint c = key)) (omap sup_claim_of tuples) ↔ claim_at (to_home t) c).
  { intros c. rewrite elem_of_bfilter, bool_decide_eq_true, list_elem_of_omap. unfold claim_at. split.
    - intros [(u & (v & Hty & Hd & _ & Hview & Hf & Hto)%Hin & Eu) Hk]. unfold sup_claim_of in Eu.
      destruct (Endpoint_read_out EndOld u) as [old|] eqn:Eo; [|done]. destruct (Endpoint_read_out EndNew u) as [new|] eqn:En; [|done].
      unfold home_of in Eu. rewrite (homed_document (tumbler (tu_addr u)) (tu_addr u) (to_home t)) in Eu by (done || apply validate_self). injection Eu as <-. cbn in *.
      apply read_out_iff in Eo, En. rewrite Hf in Eo. rewrite Hto in En. by exists v.
    - intros (v & Hty & Hd & Eh & Hview & Ho & Hn & Ha & Hk). split; [|done]. exists (MkTuple (sc_claim c) (from_slot v) (to_slot v)). split.
      + apply Hin. exists v. cbn. split_and!; [done|done| |done|done|done].
        destruct (all_touches_ok l Hs [(Endpoint_slot endpoint, enc [key])]) as (ts' & Ets & Hc). rewrite Hts in Ets. injection Ets as <-.
        assert (Hov : slot_overlaps v (Endpoint_slot endpoint) (enc [key]) = true) by by apply claim_overlaps with c.
        apply (over_touches_hits l Hs _ _ ts (tumbler (sc_claim c)) v Hc (proj1 Hty)) in Hov as (u & q & Hu & Hdu & Hq & Hmeet).
        pose proof (homed_unique _ _ _ Hd Hdu) as Eu. pose proof (touches_ascending l Hs _ ts Hts) as Hasc.
        pose proof (find_home to_home ts t Hasc Ht) as Ft. pose proof (find_home to_home ts u Hasc Hu) as Fu. rewrite <- Eu, Ft in Fu. injection Fu as <-. by exists q.
      + assert (E1 : Endpoint_read_out EndOld (MkTuple (sc_claim c) (from_slot v) (to_slot v)) = Some (sc_old c)) by by apply read_out_iff.
        assert (E2 : Endpoint_read_out EndNew (MkTuple (sc_claim c) (from_slot v) (to_slot v)) = Some (sc_new c)) by by apply read_out_iff.
        unfold sup_claim_of. rewrite E1, E2. unfold home_of. cbn [tu_addr].
        rewrite (homed_document (tumbler (sc_claim c)) (sc_claim c) (to_home t)) by (done || apply validate_self). rewrite <- Ha, <- Eh. by destruct c. }
  split; [|exact Hm]. split.
  - by apply claims_filtered, claims_sorted.
  - intros a (c & -> & (v & _ & Hd & _)%Hm)%list_elem_of_fmap. exact Hd.
Qed.

(** Whether the key is one that claims are answered for. *)
Definition keyable (member : Address → bool) : Prop := is_Some (readlink l key) ∨ member key = true.

Definition walk_claims (us : list Touch) : list SupClaim :=
  us ≫= λ t, if home_admitted readable (to_home t) then home_claims t else [].

Lemma claims_over_keyable member us resident found :
  keyable member → us ⊆ ts →
  claims_over l key endpoint view readable member us resident found = Done (found ++ walk_claims us).
Proof using Hs Hts.
  intros Hk. revert resident found. induction us as [|t us IH]; intros resident found Hsub; cbn [claims_over]; [by rewrite app_nil_r|].
  assert (Hsub' : us ⊆ ts) by (intros x Hx; apply Hsub; by right).
  unfold walk_claims. cbn [mbind list_bind]. fold (walk_claims us).
  destruct (home_admitted readable (to_home t)); cbn [negb]; [|by apply IH].
  destruct (home_claims_ok t (Hsub t ltac:(by left))) as (tuples & -> & Em & Eh & _). cbn [mbind outcome_bind].
  destruct (nonemptyb tuples) eqn:En; cbn [negb]; cycle 1.
  { rewrite Eh. destruct tuples; [|done]. by apply IH. }
  replace (negb resident && negb (bool_decide (is_Some (readlink l key))) && negb (member key)) with false; cycle 1.
  { symmetry. destruct Hk as [Hk| ->]; [rewrite (bool_decide_eq_true_2 _ Hk)|]; by destruct resident, (bool_decide (is_Some (readlink l key))). }
  rewrite Em. cbn [mbind outcome_bind]. rewrite IH by done. rewrite Eh, omap_id_map, <- app_assoc. done.
Qed.

Lemma claims_over_other member us :
  ¬ keyable member → us ⊆ ts → claims_over l key endpoint view readable member us false [] = Done [].
Proof using Hs Hts.
  intros Hk. induction us as [|t us IH]; intros Hsub; cbn [claims_over]; [done|].
  assert (Hsub' : us ⊆ ts) by (intros x Hx; apply Hsub; by right).
  destruct (home_admitted readable (to_home t)); cbn [negb]; [|by apply IH].
  destruct (home_claims_ok t (Hsub t ltac:(by left))) as (tuples & -> & _). cbn [mbind outcome_bind].
  destruct (nonemptyb tuples); cbn [negb]; [|by apply IH].
  unfold keyable in Hk. rewrite bool_decide_eq_false_2 by tauto. destruct (member key); [tauto|done].
Qed.

Lemma walk_claims_ok :
  StronglySorted olt (sc_claim <$> walk_claims ts) ∧
  ∀ c, c ∈ walk_claims ts ↔ readable (sc_home c) = true ∧ claim_at (sc_home c) c.
Proof using Hs Hts.
  split.
  - unfold walk_claims. rewrite map_bind. apply (listings_sorted to_home); [by apply (touches_ascending l Hs _ ts Hts)|].
    intros t Ht. unfold listing_ok. destruct (home_admitted readable (to_home t)); [by destruct (home_claims_ok t Ht) as (_ & _ & _ & _ & ? & _)|].
    split; [constructor|by intros a ?%not_elem_of_nil].
  - intros c. unfold walk_claims. rewrite list_elem_of_bind. unfold home_admitted. split.
    + intros (t & Hin & Ht). destruct (readable (to_home t)) eqn:Hr; [|by apply not_elem_of_nil in Hin].
      destruct (home_claims_ok t Ht) as (_ & _ & _ & _ & _ & Hm). apply Hm in Hin. assert (sc_home c = to_home t) as Eh by by destruct Hin as (v & _ & _ & ? & _).
      by rewrite Eh.
    + intros [Hr Hc]. pose proof Hc as (v & Hty & Hd & _ & _ & Ho & Hn & _ & Hk).
      destruct (all_touches_ok l Hs [(Endpoint_slot endpoint, enc [key])]) as (ts' & Ets & Hcand). rewrite Hts in Ets. injection Ets as <-.
      assert (Hov : slot_overlaps v (Endpoint_slot endpoint) (enc [key]) = true) by by apply claim_overlaps with c.
      apply (over_touches_hits l Hs _ _ ts (tumbler (sc_claim c)) v Hcand (proj1 Hty)) in Hov as (t & q & Ht & Hdt & _).
      pose proof (homed_unique _ _ _ Hd Hdt) as Eh. exists t. rewrite <- Eh, Hr. split; [|done].
      destruct (home_claims_ok t Ht) as (_ & _ & _ & _ & _ & Hm). apply Hm. by rewrite <- Eh.
Qed.
End Walk.

Lemma claims_naming_ok member :
  ∃ found, claims_naming l key endpoint view readable member = Done found ∧ StronglySorted olt (sc_claim <$> found) ∧
    ∀ c, c ∈ found ↔ keyable member ∧ readable (sc_home c) = true ∧ claim_at (sc_home c) c.
Proof using Hs.
  unfold claims_naming. destruct (all_touches_ok l Hs [(Endpoint_slot endpoint, enc [key])]) as (ts & Hts & _). rewrite Hts. cbn [mbind outcome_bind].
  assert (Hk : keyable member ∨ ¬ keyable member).
  { unfold keyable. destruct (readlink l key), (member key); [left|left|left|right]; try (left; done); try (by right). by intros [[? ?]|?]. }
  destruct Hk as [Hk|Hk].
  - rewrite (claims_over_keyable ts Hts) by done. destruct (walk_claims_ok ts Hts) as [H1 H2]. eexists. split; [reflexivity|]. split; [exact H1|].
    intros c. rewrite app_nil_l, H2. tauto.
  - rewrite (claims_over_other ts Hts) by done. exists []. split_and!; [done|constructor|]. intros c. split; [by intros ?%not_elem_of_nil|]. by intros [? _].
Qed.
End Claims.

Section Lineage.
Context {debug : bool} {W R : Type} `{WS : WorldState W R} `{HL : !HasLinked debug W R}.

(** C20. Claims. The in-claims on an address are the supersession claims whose from side
    denotes it alone, the out-claims those whose to side does; each answers, in the order
    of the claims' addresses, every such claim of a readable home that the view admits
    and whose two sides each denote one address, with those, its home and whether it is
    active; and none at all when the address is neither a resident link nor a registered
    version member. *)
Theorem claims_exact (w : W) (key : Address) (view : View) (readable : Address → bool) :
  findable (link_slice w) →
  ∃ ins outs, in_claims_on w key view readable = Done ins ∧ out_claims_on w key view readable = Done outs ∧
    StronglySorted olt (sc_claim <$> ins) ∧ StronglySorted olt (sc_claim <$> outs) ∧
    (∀ c, c ∈ ins ↔ keyable (link_slice w) key (is_version_member (m3 w)) ∧ readable (sc_home c) = true ∧
      claim_at (link_slice w) key EndOld view (sc_home c) c) ∧
    (∀ c, c ∈ outs ↔ keyable (link_slice w) key (is_version_member (m3 w)) ∧ readable (sc_home c) = true ∧
      claim_at (link_slice w) key EndNew view (sc_home c) c).
Proof.
  intros Hs. unfold in_claims_on, out_claims_on.
  destruct (claims_naming_ok _ Hs key EndOld view readable (is_version_member (m3 w))) as (ins & -> & H1 & H2).
  destruct (claims_naming_ok _ Hs key EndNew view readable (is_version_member (m3 w))) as (outs & -> & H3 & H4).
  by exists ins, outs.
Qed.
End Lineage.
