(* ===== verification/CoreReach.v ===== *)
(** * Whole histories of calls

    The slices at genesis are sound; every call of the namespace and of the
    arrangement keeps them sound and only adds to what a reader may rely on. So any
    sequence of calls, whatever the disk answers each, runs to its end: no call ever
    panics. The claims of the editing operations are applied here at concrete
    kernels. *)

From stdpp Require Import gmap.
From S2P Require Import Prelude Txns Tumblers Addresses AddrMaps Arith NsKeys NsState NsLaws NsOps NsInv NsCalls NsReach Runs Content RunLists VSpace Provenance Chain ArrState ArrReads World Edits EditInv EditSteps EditCalls CopyCalls InsertCalls VersionCalls RunUnions Shots Minted PublishOp PublishGates PublishBody PublishCalls SetArrCalls.

#[local] Arguments apply_m3 : simpl never.
#[local] Arguments apply_m5 : simpl never.
#[local] Arguments published_target : simpl never.
#[local] Arguments content_list : simpl never.
#[local] Arguments namespace_of : simpl never.

(** ** Genesis *)

Definition core_genesis : Slices := MkSlices M3State_genesis ∅ genesis.

(** No content or link chain has begun at genesis: every frontier is of a field chain. *)
Lemma genesis_frontiers key m : frontiers M3State_genesis !! key = Some m → ns_g key = NextField.
Proof.
  assert (H : forallb (λ e, bool_decide (ns_g e.1 = NextField)) (map_to_list (frontiers M3State_genesis)) = true)
    by (vm_compute; reflexivity).
  rewrite forallb_forall in H. intros Hk%elem_of_map_to_list.
  specialize (H (key, m)). rewrite <- list_elem_of_In in H. apply H, bool_decide_eq_true in Hk. exact Hk.
Qed.

Lemma genesis_no_content a : content_position a → is_allocated M3State_genesis a = false.
Proof.
  intros Ha. apply not_true_iff_false. pose proof Ha as (d & n & Hl & E)%content_position_view.
  pose proof (content_slot_namespace d a n Hl E) as Hk. destruct Ha as [x Ha%element_field_level].
  rewrite is_allocated_chain by congruence. intros (key & Hk' & _ & m & Hm & _)%is_chain_member_ok.
  rewrite Hk in Hk'. injection Hk' as <-. apply genesis_frontiers in Hm. done.
Qed.

Lemma core_genesis_ok : core_ok core_genesis.
Proof.
  split; cbn.
  - apply m3_genesis_ok.
  - apply genesis_ok.
  - by split.
  - done.
  - intros a Ha. rewrite genesis_no_content by done. split; [done|]. by intros (v & key & s & k & ? & _).
  - intros doc a Ha. by apply not_elem_of_nil in Ha.
  - done.
Qed.

(** ** What no call takes back *)

Record advances (s s' : Slices) : Prop := {
  adv_docs : ∀ d, is_registered_document (sl_namespace s) d = true → is_registered_document (sl_namespace s') d = true;
  adv_bits : ∀ d b, publication (sl_namespace s) !! d = Some b → publication (sl_namespace s') !! d = Some b;
  adv_seats : ∀ p id, principals (sl_namespace s) !! p = Some id → principals (sl_namespace s') !! p = Some id;
  adv_stores : ∀ t v, stores (sl_content s) t v → stores (sl_content s') t v;
  adv_published : ∀ d, published_target (sl_namespace s) d = true → contents s d `prefix_of` contents s' d
}.

#[export] Instance advances_preorder : PreOrder advances.
Proof.
  split; [by intros s; split|]. intros s1 s2 s3 [D1 B1 P1 S1 F1] [D2 B2 P2 S2 F2]. split; auto.
  intros d Hd. etransitivity; [by apply F1|]. apply F2. by eapply published_grown.
Qed.

(** An edit of a draft. *)
Lemma edited_advances s s' doc :
  sl_namespace s' = sl_namespace s → sl_content s' = sl_content s →
  published_target (sl_namespace s) doc = false → (∀ d, d ≠ doc → contents s' d = contents s d) → advances s s'.
Proof.
  intros En Ec Hp Hd. split; rewrite ?En, ?Ec; try done.
  intros d Hpd. rewrite Hd; [done|]. intros ->. congruence.
Qed.

Lemma forked_advances s s' p surface fork bit :
  core_ok s → forked s s' p surface fork bit → advances s s'.
Proof.
  intros Hok [[Hf Hr _ _ Hb Ho Hpr] Hst _ He _]. split.
  - intros d [Hl Ha]%is_registered_document_ok. apply is_registered_document_ok. split; [done|]. apply Ho. by left.
  - exact Hb.
  - by rewrite Hpr.
  - by rewrite Hst.
  - intros d _. destruct (decide (d = fork)) as [->|Hd]; [|by destruct (He d Hd) as [-> _]].
    rewrite (unregistered_empty s fork Hok Hf). apply prefix_nil.
Qed.

#[local] Instance declared_deposit_dec s doc at_ deposit : Decision (declared_deposit s doc at_ deposit).
Proof.
  destruct deposit as [|ty]; [right; by intros (ty & ? & _)|].
  refine (cast_if (decide (ty ∈ deposit_class_types ∧ vp_subspace at_ = content_subspace ∧
    (count (contents s (lands (sl_namespace s) doc)) < vp_ordinal at_)%N))).
  - abstract (by exists ty).
  - abstract (intros (ty' & [= <-] & H); done).
Defined.

(** An insert appends to a published document, at most. *)
Lemma inserted_advances s s' p caller doc at_ values deposit as_of l :
  Forall (λ g, ¬ g.2) (insert_gates s caller doc at_ values deposit as_of) →
  inserted s s' doc values l →
  edited (sl_arrangement s) (sl_arrangement s') p (lands (sl_namespace s) doc)
    (insert_at (vp_ordinal at_) l (contents s (lands (sl_namespace s) doc))) →
  advances s s'.
Proof.
  intros Hg Hi [Hh He _ _ _]. unfold insert_gates in Hg. rewrite !Forall_cons in Hg.
  destruct Hg as (_ & _ & Hp & _). cbn [snd] in Hp. split.
  - intros d. by rewrite (in_docs _ _ _ _ _ Hi).
  - intros d b. by rewrite (in_publication _ _ _ _ _ Hi).
  - intros q id. by rewrite (in_principals _ _ _ _ _ Hi).
  - intros t v Hv. apply (in_stores _ _ _ _ _ Hi). by left.
  - intros d Hd. cbn [docs_of d_content] in *. destruct (decide (d = lands (sl_namespace s) doc)) as [->|Hne]; [|by rewrite He].
    rewrite Hh. destruct (published_target (sl_namespace s) doc) eqn:Hpd.
    + assert (Hdep : declared_deposit s doc at_ deposit) by (apply dec_stable; tauto).
      destruct Hdep as (ty & _ & _ & _ & Hlt). unfold insert_at. rewrite take_ge; [by apply prefix_app_r|].
      unfold count in Hlt. cbn [docs_of d_content] in Hlt. lia.
    + unfold lands in Hd. rewrite Hpd in Hd. congruence.
Qed.

(** ** Each call, as a step *)

Section Serve.
Context {debug : bool} {W R Bytes : Type} `{WS : WorldState W R} `{HS : !HasSlices debug W R}.
Context (encode_record : R → Bytes).
#[local] Notation Kernel := (Kernel (W := W) (Bytes := Bytes)).
#[local] Notation Staging := (Staging (W := W) (R := R)).
#[local] Notation Txn := (Txn (W := W) (R := R)).

(** A call that ends, on a sound root that only gained. *)
Definition served {T E} (k : Kernel) (c : outcome (Kernel * CallEnd T E)) : Prop :=
  ∃ k' e, c = Done (k', e) ∧ core_ok (root_slices k') ∧ advances (root_slices k) (root_slices k').

Lemma served_refused {T E} k (e : CallEnd T E) : core_ok (root_slices k) → served k (Done (k, e)).
Proof using. intros Hok. by exists k, e. Qed.

Lemma core_served {T E} (k : Kernel) answer (f : Txn E T) gates (Q : T → list CoreRec → Slices → Prop) :
  closure f → core_ok (root_slices k) →
  (∀ first, let stg := Staging_new (k_root k) first in on_base (root_slices k) [] stg → view stg = root_slices k →
     txn_spec f stg gates (λ v stg', ∃ rs, on_base (root_slices k) rs stg' ∧ core_ok (view stg') ∧ Q v rs (view stg'))) →
  (∀ v rs u p s', Forall (λ g, ¬ g.2) gates → Q v rs u → same_slices u s' →
     fold_slices (debug := debug) (root_slices k) p rs = Done s' → advances (root_slices k) s') →
  served k (transact encode_record k answer f).
Proof using.
  intros Hf Hok Hspec Hadv. destruct (core_ends encode_record k answer f gates Q Hf) as (k' & e & Ht & Hr & _).
  { intros first. apply Hspec; [apply on_base_new|done]. }
  exists k', e. split; [done|]. destruct Hr as [Hr|(v & p & Hg & rs & u & Hu & HQ & Hsame & Hfold)].
  - unfold root_slices in *. by rewrite Hr.
  - split; [by eapply core_ok_same|by eapply Hadv].
Qed.

(** A body that stages one edit record of an unpublished document. *)
Lemma edit_served {E} (k : Kernel) answer (f : Txn E unit) gates doc (P : M5Rec → Prop) :
  closure f → core_ok (root_slices k) → (∀ r, P r → rec_ok r ∧ edits r doc) →
  (Forall (λ g, ¬ g.2) gates → published_target (sl_namespace (root_slices k)) doc = false) →
  (∀ stg, on_base (root_slices k) [] stg → view stg = root_slices k →
     txn_spec f stg gates (λ _ stg', ∃ r, P r ∧ on_base (root_slices k) [RecArrangement r] stg' ∧ core_ok (view stg'))) →
  served k (transact encode_record k answer f).
Proof using.
  intros Hf Hok HP Hp Hspec.
  apply (core_served k answer f gates (λ _ rs _, ∃ r, P r ∧ rs = [RecArrangement r]) Hf Hok).
  - intros first stg Hb Hv. eapply spec_conseq; [by apply Hspec|]. cbv beta. intros [] stg' (r & Hr & ? & ?).
    eexists. split; [done|]. split; [done|]. by exists r.
  - intros _ rs u p s' Hg (r & Hr & ->) _ Hfold. destruct (HP r Hr) as [Hro He].
    destruct (fold_edit debug _ p r doc s' Hok Hro He Hfold) as (En & Ec & [_ Hd _ _ _]).
    apply (edited_advances _ _ doc); [done|done|by apply Hp|exact Hd].
Qed.

Lemma edit_gates_private {E} (nr : E) no pt am s caller doc as_of rest :
  Forall (λ g, ¬ g.2) (edit_gates nr no pt am s caller doc as_of ++ rest) → published_target (sl_namespace s) doc = false.
Proof using. unfold edit_gates. cbn [app]. rewrite !Forall_cons. intros (_ & _ & H & _). by apply not_true_iff_false. Qed.

Lemma delete_served k answer caller doc p width as_of :
  core_ok (root_slices k) → served k (delete encode_record k answer caller doc p width as_of).
Proof using.
  intros Hok. apply (edit_served k answer _ (delete_gates (root_slices k) caller doc p width as_of) doc
    (eq (ContentRemove doc (vp_ordinal p) width))); [apply delete_closure|done|by intros ? <-|apply edit_gates_private|].
  intros stg Hb Hv. eapply spec_conseq; [by apply (delete_spec (root_slices k) [])|].
  intros [] stg' (? & ? & _). by eexists.
Qed.

Lemma rearrange_served k answer caller doc cuts as_of :
  core_ok (root_slices k) → served k (rearrange encode_record k answer caller doc cuts as_of).
Proof using.
  intros Hok. apply (edit_served k answer _ (rearrange_gates (root_slices k) caller doc cuts as_of) doc
    (eq (ContentReorder doc (vp_ordinal <$> cuts)))); [apply rearrange_closure|done|by intros ? <-|apply edit_gates_private|].
  intros stg Hb Hv. eapply spec_conseq; [by apply rearrange_spec|]. intros [] stg' [? ?]. by eexists.
Qed.

Lemma copy_served k answer caller doc at_ specs as_of :
  core_ok (root_slices k) → served k (copy encode_record k answer caller doc at_ specs as_of).
Proof using.
  intros Hok. apply (edit_served k answer _ (copy_gates (root_slices k) caller doc at_ specs as_of) doc
    (places doc (vp_ordinal at_) (copied (root_slices k) specs)));
    [apply copy_closure|done|by intros r (? & ? & _)%(places_edit (root_slices k))|apply edit_gates_private|].
  intros stg Hb Hv. by apply copy_spec.
Qed.

Lemma reinstate_served k answer caller doc at_ runs as_of :
  core_ok (root_slices k) → stated_ok runs → served k (reinstate encode_record k answer caller doc at_ runs as_of).
Proof using.
  intros Hok Hs. apply (edit_served k answer _ (reinstate_gates (root_slices k) caller doc at_ runs as_of) doc
    (places doc (vp_ordinal at_) (stated runs)));
    [apply reinstate_closure|done|by intros r (? & ? & _)%(places_edit (root_slices k))|apply edit_gates_private|].
  intros stg Hb Hv. eapply spec_conseq; [by apply (reinstate_spec (root_slices k) [])|].
  intros [] stg' (r & ? & ? & ? & _). by exists r.
Qed.

Lemma insert_served k answer caller doc at_ values deposit as_of :
  core_ok (root_slices k) → usize_len (length values) →
  served k (insert encode_record k answer caller doc at_ values deposit as_of).
Proof using.
  intros Hok Hlen. apply (core_served k answer _ (insert_gates (root_slices k) caller doc at_ values deposit as_of)
    (insert_staged (root_slices k) doc at_ values)); [apply insert_closure|done|intros first stg Hb Hv; by apply insert_spec|].
  intros v rs u p s' Hg Hst Hsame Hf.
  destruct (insert_folded debug _ _ _ _ _ _ _ _ _ Hok Hst Hsame Hf) as (l & _ & Hi & He).
  by eapply inserted_advances.
Qed.

Lemma set_arrangement_served k answer caller doc request as_of :
  core_ok (root_slices k) → stated_ok (SetArr.sa_runs request) →
  served k (set_arrangement encode_record k answer caller doc request as_of).
Proof using.
  intros Hok Hs. apply (core_served k answer _ (set_gates (root_slices k) caller doc request as_of)
    (λ v rs _, set_staged (root_slices k) doc request v rs)); [apply set_closure|done|intros first stg Hb Hv; by apply set_spec|].
  intros v rs u p s' Hg (_ & placed & Hpl & ->) _ (En & Ec & Hrun)%fold_replay.
  destruct (set_replayed _ _ _ _ _ _ Hok Hpl En Ec Hrun) as [_ _ _ He _ _ _ _ _].
  apply (edited_advances _ _ doc); [done|done|by eapply edit_gates_private|done].
Qed.

Lemma seat_link_served k answer doc link :
  core_ok (root_slices k) → served k (seat_link encode_record k answer doc link).
Proof using.
  intros Hok. unfold seat_link.
  match goal with |- served k (transact _ _ _ ?f) =>
    apply (core_served k answer f (seat_gates (root_slices k) doc link)
      (λ v rs _, v = link ∧ rs = [RecArrangement (LinkSeat doc link)] ∧ admits_start link = true)) end;
    [closes|done|intros first stg Hb Hv; by apply seat_spec|].
  intros v rs u p s' _ (_ & -> & Ha) _ (arr & Happ & ->)%fold_one_arrangement.
  destruct (apply_m5_ok (sl_arrangement (root_slices k)) p (LinkSeat doc link) (co_m5 _ Hok) I)
    as (a2 & Ha' & [_ [Hc _] _]). rewrite Happ in Ha'. injection Ha' as <-.
  split; try done. intros d _. cbn [sl_arrangement]. rewrite Hc. cbn [spec_step]. by rewrite Ha.
Qed.

(** The forks of VERSION's two branches and of STAGE. *)
Lemma fork_served k answer branch source published gates key :
  let bit := default (published_target (sl_namespace (root_slices k)) source) published in
  core_ok (root_slices k) →
  (∀ stg : Staging, on_base (root_slices k) [] stg → view stg = root_slices k →
     txn_spec (Version.version_in branch source published) stg gates
       (λ fork stg', ∃ rs, on_base (root_slices k) rs stg' ∧ core_ok (view stg') ∧
          version_staged (root_slices k) source bit key fork rs)) →
  served k (transact encode_record k answer (Version.version_in branch source published)).
Proof using.
  intros bit Hok Hspec.
  apply (core_served k answer _ gates (λ fork rs _, version_staged (root_slices k) source bit key fork rs));
    [apply version_closure|done|intros first; apply Hspec|].
  intros fork rs u p s' _ (r & -> & Hk & Hi) _ Hf.
  destruct (fold_fork _ _ _ _ _ _ _ _ _ Hok Hk Hi Hf) as [Hfk _]. by eapply forked_advances.
Qed.

Lemma version_served k answer principal source published :
  core_ok (root_slices k) → served k (version encode_record k answer principal source published).
Proof using.
  intros Hok. unfold version, Version.version_prework. change (m3 (c_world (snapshot k))) with (sl_namespace (root_slices k)).
  destruct (is_registered_document _ source) eqn:Hd; cbn [negb]; [|by apply served_refused].
  unfold is_effective_owner. case_bool_decide as Ho.
  - eapply fork_served; [done|]. intros stg Hb Hv. by apply owned_spec.
  - destruct (principal_prefix _ principal) as [prefix|]; [|by apply served_refused].
    destruct (is_registered_account _ prefix) eqn:Hacc; cbn [negb]; [|by apply served_refused].
    eapply fork_served; [done|]. intros stg Hb Hv. by apply cross_spec.
Qed.

Lemma stage_draft_served k answer principal from :
  core_ok (root_slices k) → served k (stage_draft encode_record k answer principal from).
Proof using.
  intros Hok. unfold stage_draft, Stage.stage_prework. change (m3 (c_world (snapshot k))) with (sl_namespace (root_slices k)).
  destruct (is_registered_document _ from) eqn:Hd; cbn [negb]; [|by apply served_refused].
  destruct (principal_prefix _ principal) as [prefix|]; [|by apply served_refused].
  destruct (is_registered_account _ prefix) eqn:Hacc; cbn [negb]; [|by apply served_refused].
  apply (core_served k answer _ [] (λ draft rs _, draft_staged (root_slices k) prefix from draft rs));
    [apply stage_closure|done|intros first stg Hb Hv; by apply stage_spec|].
  intros draft rs u p s' _ (r & -> & Hi) _ Hf.
  assert (Hk : document_key (sl_namespace (root_slices k)) (document_ns prefix)) by (right; by exists prefix).
  destruct (fold_draft _ _ _ _ _ _ _ _ Hok Hk Hi Hf) as (Hfk & _ & _). by eapply forked_advances.
Qed.

(** A shot adds one published document, and the values it re-inserts. *)
Lemma shot_advances s s' p doc shot f member :
  core_ok s → shot_done s s' p doc shot f member → advances s s'.
Proof using.
  intros Hok [_ _ Hfr Hd _ Hb _ Hp _ Hs He _ _]. split.
  - intros d Hd'. apply Hd. by left.
  - exact Hb.
  - by rewrite Hp.
  - intros t v Hv. apply Hs. by left.
  - intros d _. destruct (decide (d = member)) as [->|Hne].
    + rewrite (unregistered_empty s member Hok Hfr). apply prefix_nil.
    + cbn [docs_of d_content]. by rewrite (ed_elsewhere _ _ _ _ _ He).
Qed.

Lemma publish_served k answer caller doc shot readable :
  core_ok (root_slices k) → stated_ok (sh_runs shot) →
  served k (publish encode_record k answer caller doc shot readable).
Proof using.
  intros Hok Hr. set (s := root_slices k).
  apply (core_served k answer _ (publish_gates s caller doc shot (readable (c_world (k_root k))))
    (λ v rs _, ∃ out, v = fst out ∧ shot_staged (debug := debug) s doc shot out rs)); [apply publish_closure|done|..].
  - intros first stg Hb Hv. unfold Publish.publish_in. rewrite <- (app_nil_r (publish_gates _ _ _ _ _)). apply spec_seq.
    eapply spec_conseq; [by apply publish_spec|]. cbv beta. intros [member pairing] stg' (rs & ? & ? & ?). apply spec_ret.
    exists rs. split_and!; [done|done|by exists (member, pairing)].
  - intros v rs u p s' Hg (out & -> & Hst) _ Hf. unfold publish_gates in Hg. apply Forall_app in Hg as [Hadm _].
    destruct (anchor_registered s caller doc shot _ Hok Hadm) as (_ & _ & Htr & Hanc & Hta).
    destruct (shot_folded debug s s' p doc shot out rs Hok Htr Hanc Hta Hst Hf) as (f & blocks & _ & Hd & _).
    by eapply shot_advances.
Qed.

(** *** The namespace's calls *)

Lemma fold_namespace s p (rs : list M3Rec) s' :
  fold_slices (debug := debug) s p (RecNamespace <$> rs) = Done s' →
  s' = MkSlices (sl_namespace s') (sl_content s) (sl_arrangement s) ∧
  fold_world (sl_namespace s) p rs = Done (sl_namespace s').
Proof using.
  unfold fold_slices. revert s. induction rs as [|r rs IH]; intros s.
  { intros [= <-]. by destruct s. }
  rewrite fmap_cons, !fold_world_cons. intros (s1 & H1 & H2)%bind_inv.
  change (apply_slices debug s p (RecNamespace r) = Done s1) in H1. cbn [apply_slices] in H1.
  apply bind_inv in H1 as (ns & Hns & [= <-]). destruct (IH _ H2) as [-> H3]. split; [done|].
  change (apply (sl_namespace s) p r) with (apply_m3 (sl_namespace s) p r). by rewrite Hns.
Qed.

(** Records of the registry that mint no element. *)
Definition registers (ns : M3State) (rs : list M3Rec) : Prop :=
  ∀ p, ∃ ns', fold_world ns p rs = Done ns' ∧ m3_ok ns' ∧ preserved ns ns' ∧
    ∀ b, level b = Element → is_allocated ns' b = is_allocated ns b.

Lemma registered_root s ns' :
  core_ok s → m3_ok ns' → preserved (sl_namespace s) ns' →
  (∀ b, level b = Element → is_allocated ns' b = is_allocated (sl_namespace s) b) →
  let s' := MkSlices ns' (sl_content s) (sl_arrangement s) in core_ok s' ∧ advances s s'.
Proof using.
  intros Hok Hns (G & P & Q & _) Hel. split; [by apply core_ok_grown|]. split; cbn; try done.
  intros d [Hl Ha]%is_registered_document_ok. apply is_registered_document_ok. split; [done|by apply G].
Qed.

Lemma ns_served {T E} (k : Kernel) answer (f : Txn E T) :
  closure f → core_ok (root_slices k) →
  (∀ first, match f (Staging_new (k_root k) first) with
     | Done (Ok v, stg) => ∃ rs, stg_records stg = of_m3 <$> rs ∧ registers (sl_namespace (root_slices k)) rs
     | Done (Err _, _) => True
     | Panicked => False
     end) →
  served k (transact encode_record k answer f).
Proof using.
  intros Hf Hok Hspec. destruct (transact_done encode_record k answer f Hf) as (k' & e & Ht).
  { intros first. specialize (Hspec first). destruct (f _) as [[r stg]|]; [|done]. exists r, stg. split; [done|].
    intros v p ->. destruct Hspec as (rs & -> & Hrs). destruct (Hrs p) as (ns' & Hns & _). by eapply fold_m3_total. }
  exists k', e. split; [done|]. destruct (transact_inv encode_record k answer f k' e Hf Ht) as [[Hr|(v & first & stg & Hs & Hw)] _].
  - unfold root_slices in *. by rewrite Hr.
  - specialize (Hspec first). rewrite Hs in Hspec. destruct Hspec as (rs & Hrec & Hrs). rewrite Hrec in Hw.
    destruct (Hrs (c_seq (k_root k'))) as (ns' & Hns & Hns_ok & Hpre & Hel).
    pose proof (fold_slices_world (c_world (k_root k)) (c_seq (k_root k')) (RecNamespace <$> rs)) as Hfold.
    rewrite <- list_fmap_compose in Hfold. change (of_core ∘ RecNamespace) with of_m3 in Hfold.
    rewrite Hw in Hfold. symmetry in Hfold. apply fold_namespace in Hfold as [Hroot Hns'].
    change (slices (c_world (k_root k))) with (root_slices k) in *.
    change (slices (c_world (k_root k'))) with (root_slices k') in *. rewrite Hns in Hns'. injection Hns' as ->.
    rewrite Hroot. by apply registered_root.
Qed.

Lemma document_registers ns account bit d r :
  m3_ok ns → is_registered_account ns account = true → issued ns (document_ns account) bit d r → registers ns [r].
Proof using.
  intros Hok Ha Hi p. destruct (issued_facts _ _ _ _ _ Hi) as (-> & Hk & _ & _ & Hd). destruct (Hd p) as (ns' & Hns).
  destruct (document_key_facts ns (document_ns account)) as [Hf Hlev]; [right; by exists account|].
  exists ns'. split; [by rewrite fold_one|].
  destruct (issued_ok ns _ bit d _ p ns' Hok Hf (λ b Hb, ltac:(by rewrite (Hlev b Hb))) Hi Hns) as [? ?].
  split_and!; [done|done|]. intros b Hb. apply eq_true_iff_eq. pose proof (Hlev d Hk) as Hl.
  rewrite (allocated_allocate ns p d bit ns' b) by congruence. split; [|by left]. intros [?|Heq]; [done|congruence].
Qed.

Lemma create_served k answer caller account flag :
  core_ok (root_slices k) → served k (create_new_document encode_record k answer caller account flag).
Proof using.
  intros Hok. apply ns_served; [apply create_closure|done|]. intros first.
  pose proof (create_in_ok caller account flag (k_root k) first) as H. cbv zeta in H.
  destruct (create_new_document_in _ _ _ _) as [[[a|e] stg]|]; [|done..].
  destruct H as (_ & Ha & Hi & Hrec & _). eexists [_]. split; [exact Hrec|].
  exact (document_registers _ account _ a _ (co_m3 _ Hok) Ha Hi).
Qed.

Lemma register_node_served k answer t :
  core_ok (root_slices k) → served k (register_node encode_record k answer t).
Proof using.
  intros Hok. unfold register_node. destruct (register_node_prework t) as [n|e] eqn:Hpre; [|by apply served_refused].
  apply ns_served; [apply register_node_closure|done|]. intros first.
  pose proof (register_node_in_ok n (k_root k) first) as H. cbv zeta in H.
  destruct (register_node_in _ _) as [[[a|e] stg]|]; [|done..].
  destruct H as (_ & Hn & Hb & Hrec & _). eexists [_]. split; [exact Hrec|]. intros p. eexists. split; [reflexivity|].
  destruct (m3_step_ok (sl_namespace (root_slices k)) _ (co_m3 _ Hok) (node_step _ t n p _ Hpre Hn Hb eq_refl)) as [? ?].
  split_and!; [done|done|]. intros b Hl. unfold is_allocated. by rewrite Hl.
Qed.

Lemma delegate_served k answer delegator t id :
  core_ok (root_slices k) → served k (delegate encode_record k answer delegator t id).
Proof using.
  intros Hok. unfold delegate. destruct (delegate_prework t) as [np|e] eqn:Hpre; [|by apply served_refused].
  destruct (delegate_prework_ok t np Hpre) as [Hl _]. destruct (account_parent np Hl) as [par Hpar].
  rewrite Hpar. cbn [expect_some mbind outcome_bind].
  apply ns_served; [apply delegate_closure|done|]. intros first.
  pose proof (delegate_in_ok delegator par np id (k_root k) first (co_m3 _ Hok)) as H. cbv zeta in H.
  destruct (delegate_in _ _ _ _ _) as [[[a|e] stg]|]; [|done..].
  destruct H as (_ & Hg & Hrec & Hi & _). exists (delegation np id). split; [exact Hrec|]. intros p.
  destruct (issued_facts _ _ _ _ _ Hi) as (_ & _ & _ & _ & Hd). destruct (Hd p) as (ns1 & Hns1).
  set (ns' := MkM3State (frontiers ns1) (nodes ns1) (insert_absent np id (principals ns1)) (publication ns1) (minted_at ns1)).
  assert (Hfold : fold_world (sl_namespace (root_slices k)) p (delegation np id) = Done ns').
  { unfold delegation. rewrite fold_world_cons. change (apply (sl_namespace (root_slices k)) p ?r)
      with (apply_m3 (sl_namespace (root_slices k)) p r).
    change (m3 (c_world (k_root k))) with (sl_namespace (root_slices k)) in Hns1. by rewrite Hns1. }
  exists ns'. split; [done|].
  destruct (m3_step_ok _ _ (co_m3 _ Hok) (delegate_step_of _ _ _ _ _ _ _ _ (co_m3 _ Hok) Hpre Hpar Hg Hfold)) as [? ?].
  split_and!; [done|done|]. intros b Hb. apply eq_true_iff_eq.
  assert (is_allocated ns' b = is_allocated ns1 b) as -> by (unfold is_allocated; by rewrite Hb).
  rewrite (allocated_allocate _ p np _ ns1 b ltac:(congruence) Hns1). split; [|by left]. intros [?|Heq]; [done|congruence].
Qed.
End Serve.

(** ** Histories *)

(** A call as a value: what a client may ask of the namespace and of the arrangement. *)
Inductive Request {W : Type} :=
  | AskCreate (caller : PrincipalId) (account : Address) (flag : option bool)
  | AskDelegate (delegator : PrincipalId) (t : Tumbler) (new_id : PrincipalId)
  | AskRegisterNode (t : Tumbler)
  | AskInsert (caller : Caller) (doc : Address) (at_ : VPos) (values : list (list Byte.byte)) (deposit : Deposit) (as_of : AsOf)
  | AskDelete (caller : Caller) (doc : Address) (p : VPos) (width : Nat) (as_of : AsOf)
  | AskRearrange (caller : Caller) (doc : Address) (cuts : list VPos) (as_of : AsOf)
  | AskCopy (caller : Caller) (doc : Address) (at_ : VPos) (specs : list VSpec) (as_of : AsOf)
  | AskReinstate (caller : Caller) (doc : Address) (at_ : VPos) (runs : list ShotRun) (as_of : AsOf)
  | AskSetArrangement (caller : Caller) (doc : Address) (request : SetArr.SetArrangement) (as_of : AsOf)
  | AskVersion (principal : PrincipalId) (source : Address) (published : option bool)
  | AskStage (principal : PrincipalId) (from : Address)
  | AskPublish (caller : Caller) (doc : Address) (shot : Shot) (readable : W → Address → bool)
  | AskSeatLink (doc link : Address).

(** What the types of a request already promise: a slice's length is a [usize], and a
    run came through [Run]'s own doors. *)
Definition request_ok {W} (q : Request (W := W)) : Prop :=
  match q with
  | AskInsert _ _ _ values _ _ => usize_len (length values)
  | AskReinstate _ _ _ runs _ => stated_ok runs
  | AskSetArrangement _ _ request _ => stated_ok (SetArr.sa_runs request)
  | AskPublish _ _ shot _ => stated_ok (sh_runs shot)
  | _ => True
  end.

Section History.
Context {debug : bool} {W R Bytes : Type} `{WS : WorldState W R} `{HS : !HasSlices debug W R}.
Context (encode_record : R → Bytes).
#[local] Notation Kernel := (Kernel (W := W) (Bytes := Bytes)).

#[local] Notation Request := (Request (W := W)).

Definition left_by {T E} (c : outcome (Kernel * CallEnd T E)) : outcome Kernel := fst <$> c.

Definition serve (k : Kernel) (answer : CommitAnswer) (q : Request) : outcome Kernel :=
  match q with
  | AskCreate caller account flag => left_by (create_new_document encode_record k answer caller account flag)
  | AskDelegate delegator t new_id => left_by (delegate encode_record k answer delegator t new_id)
  | AskRegisterNode t => left_by (register_node encode_record k answer t)
  | AskInsert caller doc at_ values deposit as_of => left_by (insert encode_record k answer caller doc at_ values deposit as_of)
  | AskDelete caller doc p width as_of => left_by (delete encode_record k answer caller doc p width as_of)
  | AskRearrange caller doc cuts as_of => left_by (rearrange encode_record k answer caller doc cuts as_of)
  | AskCopy caller doc at_ specs as_of => left_by (copy encode_record k answer caller doc at_ specs as_of)
  | AskReinstate caller doc at_ runs as_of => left_by (reinstate encode_record k answer caller doc at_ runs as_of)
  | AskSetArrangement caller doc request as_of => left_by (set_arrangement encode_record k answer caller doc request as_of)
  | AskVersion principal source published => left_by (version encode_record k answer principal source published)
  | AskStage principal from => left_by (stage_draft encode_record k answer principal from)
  | AskPublish caller doc shot readable => left_by (publish encode_record k answer caller doc shot readable)
  | AskSeatLink doc link => left_by (seat_link encode_record k answer doc link)
  end.

Fixpoint serve_all (k : Kernel) (l : list (CommitAnswer * Request)) : outcome Kernel :=
  match l with
  | [] => Done k
  | (answer, q) :: l => k ← serve k answer q; serve_all k l
  end.

Lemma left_by_served {T E} (k : Kernel) (c : outcome (Kernel * CallEnd T E)) :
  served k c → ∃ k', left_by c = Done k' ∧ core_ok (root_slices k') ∧ advances (root_slices k) (root_slices k').
Proof using. intros (k' & e & -> & ? & ?). by exists k'. Qed.

Lemma serve_ok k answer q :
  core_ok (root_slices k) → request_ok q →
  ∃ k', serve k answer q = Done k' ∧ core_ok (root_slices k') ∧ advances (root_slices k) (root_slices k').
Proof using.
  intros Hok Hq. destruct q; cbn [serve request_ok] in *; apply left_by_served.
  - by apply create_served.
  - by apply delegate_served.
  - by apply register_node_served.
  - by apply insert_served.
  - by apply delete_served.
  - by apply rearrange_served.
  - by apply copy_served.
  - by apply reinstate_served.
  - by apply set_arrangement_served.
  - by apply version_served.
  - by apply stage_draft_served.
  - by apply publish_served.
  - by apply seat_link_served.
Qed.

Lemma serve_all_ok k l :
  core_ok (root_slices k) → Forall (λ x, request_ok x.2) l →
  ∃ k', serve_all k l = Done k' ∧ core_ok (root_slices k') ∧ advances (root_slices k) (root_slices k').
Proof using.
  intros Hok Hl. revert k Hok. induction Hl as [|[answer q] l Hq Hl IH]; intros k Hok; [by exists k|].
  cbn [serve_all]. destruct (serve_ok k answer q Hok Hq) as (k1 & -> & Hok1 & Ha1). cbn [mbind outcome_bind].
  destruct (IH k1 Hok1) as (k' & ? & ? & ?). exists k'. split_and!; [done|done|]. by etransitivity.
Qed.
End History.

(** ** A published document, frozen *)

(** A call that changed nothing, the journal included: a kernel that is poisoned says so,
    and any other rejects a caller who does not own the document, then everyone. *)
Definition turned_away {W Bytes T E} (k : Kernel (W := W) (Bytes := Bytes)) (owner : bool) (not_owner published : E)
    (c : outcome (Kernel (W := W) (Bytes := Bytes) * CallEnd T E)) : Prop :=
  ∃ er, c = Done (k, Returned (Err er)) ∧
    er = if k_poisoned k then Poisoned else Rejected (if owner then published else not_owner).

Section Frozen.
Context {debug : bool} {W R Bytes : Type} `{WS : WorldState W R} `{HS : !HasSlices debug W R}.
Context (encode_record : R → Bytes).
#[local] Notation Kernel := (Kernel (W := W) (Bytes := Bytes)).
#[local] Notation Staging := (Staging (W := W) (R := R)).
#[local] Notation Txn := (Txn (W := W) (R := R)).

(** Every edit of the document, by anyone and whatever the disk would have answered, is
    turned away, save an insert declared a deposit past the document's end. *)
Definition frozen (k : Kernel) (d : Address) : Prop :=
  ∀ answer caller as_of,
  let s := root_slices k in let owner := is_owner caller (sl_namespace s) d in
  (∀ p width, turned_away k owner (Delete.NotOwner d) Delete.PublishedTarget (delete encode_record k answer caller d p width as_of)) ∧
  (∀ cuts, turned_away k owner (Rearrange.NotOwner d) Rearrange.PublishedTarget (rearrange encode_record k answer caller d cuts as_of)) ∧
  (∀ at_ specs, turned_away k owner (Copy.NotOwner d) Copy.PublishedTarget (copy encode_record k answer caller d at_ specs as_of)) ∧
  (∀ at_ runs, stated_ok runs →
     turned_away k owner (Reinstate.NotOwner d) Reinstate.PublishedTarget (reinstate encode_record k answer caller d at_ runs as_of)) ∧
  (∀ request, stated_ok (SetArr.sa_runs request) →
     turned_away k owner (SetArr.NotOwner d) SetArr.PublishedTarget (set_arrangement encode_record k answer caller d request as_of)) ∧
  (∀ at_ values deposit, usize_len (length values) → ¬ declared_deposit s d at_ deposit →
     turned_away k owner (Insert.NotOwner d) Insert.PublishedTarget (insert encode_record k answer caller d at_ values deposit as_of)).

(** A body whose third gate holds, behind registration and ownership. *)
Lemma third_gate {T E} (k : Kernel) answer (f : Txn E T) caller d (third : Prop) (nr no pt : E) rest Q :
  is_registered_document (sl_namespace (root_slices k)) d = true → third →
  (∀ first, txn_spec f (Staging_new (k_root k) first)
     ((nr, is_registered_document (sl_namespace (root_slices k)) d = false) ::
      (no, ¬ owns (sl_namespace (root_slices k)) caller d) :: (pt, third) :: rest) Q) →
  turned_away k (is_owner caller (sl_namespace (root_slices k)) d) no pt (transact encode_record k answer f).
Proof using.
  intros Hr Ht Hf. unfold turned_away, transact. destruct (k_poisoned k); [by eexists|].
  specialize (Hf (N.min (high_water (k_sequencer k) + 1) u64_max)). unfold txn_spec in Hf.
  destruct (f _) as [[[v|er] stg]|]; cbn [mbind outcome_bind]; [exfalso| |done].
  - destruct Hf as [Hf _]. rewrite !Forall_cons in Hf. cbn [snd] in Hf. tauto.
  - exists (Rejected er). split; [done|]. f_equal. pose proof (is_owner_ok (sl_namespace (root_slices k)) caller d) as Ho.
    apply first_refusal_cons in Hf as [[_ ?]|[_ Hf]]; [congruence|].
    apply first_refusal_cons in Hf as [[<- Hn]|[Hn Hf]]; [by destruct (is_owner _ _ _); [destruct Hn; apply Ho|]|].
    apply first_refusal_cons in Hf as [[<- _]|[? _]]; [|done]. destruct (is_owner _ _ _); [done|]. exfalso. apply Hn. intros Hown. by apply Ho in Hown.
Qed.

(** A registered published document is frozen. *)
Lemma published_frozen k d :
  core_ok (root_slices k) → is_registered_document (sl_namespace (root_slices k)) d = true →
  published_target (sl_namespace (root_slices k)) d = true → frozen k d.
Proof using.
  intros Hok Hr Hp answer caller as_of. cbv zeta.
  assert (Hb : ∀ first, on_base (root_slices k) [] (Staging_new (k_root k) first)) by apply on_base_new.
  split_and!.
  - intros p width. eapply third_gate; [exact Hr|exact Hp|]. intros first. exact (delete_spec (root_slices k) [] (root_slices k) caller d p width as_of _ (Hb first) eq_refl Hok).
  - intros cuts. eapply third_gate; [exact Hr|exact Hp|]. intros first. exact (rearrange_spec (root_slices k) caller d cuts as_of _ (Hb first) eq_refl Hok).
  - intros at_ specs. eapply third_gate; [exact Hr|exact Hp|]. intros first. exact (copy_spec (root_slices k) caller d at_ specs as_of _ (Hb first) eq_refl Hok).
  - intros at_ runs Hs. eapply third_gate; [exact Hr|exact Hp|]. intros first. exact (reinstate_spec (root_slices k) [] (root_slices k) caller d at_ runs as_of _ (Hb first) eq_refl Hok Hs).
  - intros request Hs. eapply third_gate; [exact Hr|exact Hp|]. intros first. exact (set_spec (root_slices k) caller d request as_of _ (Hb first) eq_refl Hok Hs).
  - intros at_ values deposit Hlen Hd. eapply third_gate; [exact Hr|exact (conj Hp Hd)|]. intros first.
    exact (insert_spec (root_slices k) caller d at_ values deposit as_of _ (Hb first) eq_refl Hok Hlen).
Qed.
End Frozen.

(** A registered document's bit is the bit of its trunk, on whichever side it falls. *)
Lemma published_same ns ns' d :
  m3_ok ns → (∀ x b, publication ns !! x = Some b → publication ns' !! x = Some b) →
  is_registered_document ns d = true → published_target ns' d = published_target ns d.
Proof.
  intros Hok Hb Hd. unfold published_target, published. apply (trunk_registered ns d Hok), (inv_publication ns Hok) in Hd as [b E].
  by rewrite E, (Hb _ _ E).
Qed.

(** ** The claims *)

(** C1. No history of calls panics. From a kernel whose slices are genesis's, any
    sequence of the namespace's and the arrangement's calls, by any callers, with any
    answer of the disk to each, runs to its end; and what it leaves is sound: every
    position a document arranges is a content position whose value is stored and whose
    document is registered, a content position is allocated exactly when its value is
    stored, each draft's base is published, each registered account or document hangs
    under a registered parent. *)
Theorem service_total {debug : bool} {W R Bytes : Type} `{WS : WorldState W R} `{HS : !HasSlices debug W R}
    (encode_record : R → Bytes) (k : Kernel (W := W) (Bytes := Bytes)) (l : list (CommitAnswer * Request (W := W))) :
  root_slices k = core_genesis → Forall (λ x, request_ok x.2) l →
  ∃ k', serve_all encode_record k l = Done k' ∧
    let s := root_slices k' in
    (∀ doc a, a ∈ contents s doc →
       is_registered_document (sl_namespace s) doc = true ∧ content_position a ∧
       is_allocated (sl_namespace s) a = true ∧ ∃ v, stores (sl_content s) (tumbler a) v) ∧
    (∀ a, content_position a →
       is_allocated (sl_namespace s) a = true ↔ ∃ v, stores (sl_content s) (tumbler a) v) ∧
    (∀ d b, draft_base (sl_arrangement s) d = Some b → published_target (sl_namespace s) (db_base b) = true) ∧
    (∀ a, level a = Account ∨ level a = Document → is_allocated (sl_namespace s) a = true →
       ∃ p lv, parent a = Some p ∧ entity_level (sl_namespace s) p = Some lv).
Proof.
  intros Hk Hl. destruct (serve_all_ok encode_record k l) as (k' & E & Hok & _); [rewrite Hk; apply core_genesis_ok|done|].
  exists k'. split; [done|]. split_and!.
  - intros doc a Ha. destruct (co_arranged _ Hok doc a Ha) as (? & ? & ?). split_and!; try done. by apply (co_minted _ Hok).
  - apply (co_minted _ Hok).
  - apply (co_bases _ Hok).
  - intros a. apply parent_registered, Hok.
Qed.

(** C2. What a reader may keep relying on, over any history from a sound kernel. A
    registered document stays registered, and keeps its publication bit whichever it is:
    no call publishes a draft in place and none takes a publication back, so a registered
    document reads as published afterwards exactly when it did before. A seat stays
    taken; a stored value stays at its address. A published document only ever gains
    content past its end; and after the history DELETE, REARRANGE, COPY, REINSTATE and
    SET_ARRANGEMENT of it, whoever asks, and any INSERT not declared a deposit past its
    end, reject the caller (NotOwner, or PublishedTarget for its owner) and leave the
    kernel as it was, whatever the disk would have answered. *)
Theorem service_permanent {debug : bool} {W R Bytes : Type} `{WS : WorldState W R} `{HS : !HasSlices debug W R}
    (encode_record : R → Bytes) (k k' : Kernel (W := W) (Bytes := Bytes)) (l : list (CommitAnswer * Request (W := W))) :
  core_ok (root_slices k) → Forall (λ x, request_ok x.2) l → serve_all encode_record k l = Done k' →
  let s := root_slices k in let s' := root_slices k' in
  (∀ d, is_registered_document (sl_namespace s) d = true → is_registered_document (sl_namespace s') d = true) ∧
  (∀ d b, publication (sl_namespace s) !! d = Some b → publication (sl_namespace s') !! d = Some b) ∧
  (∀ d, is_registered_document (sl_namespace s) d = true →
     published_target (sl_namespace s') d = published_target (sl_namespace s) d) ∧
  (∀ p id, principals (sl_namespace s) !! p = Some id → principals (sl_namespace s') !! p = Some id) ∧
  (∀ t v, stores (sl_content s) t v → stores (sl_content s') t v) ∧
  (∀ d, published_target (sl_namespace s) d = true →
     published_target (sl_namespace s') d = true ∧ contents s d `prefix_of` contents s' d) ∧
  (∀ d, is_registered_document (sl_namespace s) d = true → published_target (sl_namespace s) d = true →
     frozen encode_record k' d).
Proof.
  intros Hok Hl E. destruct (serve_all_ok encode_record k l Hok Hl) as (k2 & E2 & Hok' & [D B P S F]).
  rewrite E in E2. injection E2 as <-. split_and!; try done.
  - intros d Hd. exact (published_same _ _ d (co_m3 _ Hok) B Hd).
  - intros d Hd. split; [by eapply published_grown|by apply F].
  - intros d Hr Hd. apply published_frozen; [done|by apply D|by eapply published_grown].
Qed.
