(* ===== verification/CoreSamples.v ===== *)
(** * The editing calls at concrete kernels

    A draft created and filled on a kernel opened at genesis, in the debug build; the
    claims of the editing operations, of whole histories and of the reads applied to it,
    each call evaluated beside them. *)

From stdpp Require Import gmap.
From S2P Require Import Prelude Txns Tumblers Addresses AddrMaps Arith NsKeys NsState NsLaws NsOps NsInv NsCalls NsReach Spans SpanSets Runs Content RunLists RunUnions VSpace Provenance Chain ArrState ArrReads World Edits EditInv Shots Minted PublishOp EditSteps EditCalls CopyCalls InsertCalls PublishGates PublishBody VersionCalls PublishCalls SetArrCalls Retrieval RetrievalLaws RetrieveCalls ShowCalls FindCalls CompareCalls CoreReach.

#[local] Instance sample_world : WorldState Slices CoreRec | 0 := slices_world true.
#[local] Instance sample_slices : HasSlices true Slices CoreRec | 0 := slices_has_slices true.
#[local] Notation Kernel := (Kernel (W := Slices) (Bytes := CoreRec)).
#[local] Notation Request := (Request (W := Slices)).

Definition fresh_kernel : Kernel := opened core_genesis Rollback.

Definition sample_draft : Address := adr [1; 1; 0; 1; 0; 3]%N.
Definition sample_position (n : Nat) : Address := adr [1; 1; 0; 1; 0; 3; 0; 1; n]%N.
Definition sample_link : Address := adr [1; 1; 0; 1; 0; 3; 0; 2; 1]%N.
Definition sample_values : list (list Byte.byte) := [[Byte.x61]; [Byte.x62; Byte.x63]; [Byte.x64]; [Byte.x65]].

Definition draft_calls : list (CommitAnswer * Request) :=
  [ (Acked, AskCreate SYSTEM_PRINCIPAL system_account (Some false));
    (FailClean, AskStage SYSTEM_PRINCIPAL head_document);
    (Acked, AskInsert Caller_System sample_draft (VPos_content 1) sample_values Undeclared Unchecked) ].

Definition drafted : Kernel :=
  match serve_all id fresh_kernel draft_calls with Done k => k | Panicked => fresh_kernel end.

Lemma draft_calls_ok : Forall (λ x, request_ok x.2) draft_calls.
Proof. repeat constructor; cbn; unfold usize_len; cbn; lia. Qed.

Lemma drafted_ok : core_ok (root_slices drafted).
Proof.
  destruct (serve_all_ok id fresh_kernel draft_calls) as (k & E & H & _); [exact core_genesis_ok|exact draft_calls_ok|].
  unfold drafted. rewrite E. exact H.
Qed.

(** What a document holds, by the ordinals of its positions. *)
Definition shown (s : Slices) (doc : Address) : list Nat := (λ a, ordinal (tumbler a)) <$> contents s doc.

(** An acknowledged call, its answer and what it leaves checked by evaluation. *)
Definition acked {T E} (c : outcome (Kernel * CallEnd T E)) (check : T → Slices → bool) : bool :=
  match c with Done (k, Returned (Ok (v, _))) => check v (root_slices k) | _ => false end.

Example drafted_shows : shown (root_slices drafted) sample_draft = [1; 2; 3; 4]%N.
Proof. vm_compute. reflexivity. Qed.

Lemma delete_exact_witness :
  let call := delete id drafted Acked Caller_System sample_draft (VPos_content 2) 2 Unchecked in
  acked call (λ _ s, bool_decide (shown s sample_draft = [1; 4]%N)) = true ∧
  ∃ k' e, call = Done (k', e) ∧ core_ok (root_slices k').
Proof.
  split; [vm_compute; reflexivity|].
  destruct (delete_exact id drafted Acked Caller_System sample_draft (VPos_content 2) 2 Unchecked drafted_ok)
    as (k' & e & Ht & Hok & _). exists k', e. split; [exact Ht|exact Hok].
Defined.

Lemma rearrange_exact_witness :
  let cuts := [VPos_content 1; VPos_content 2; VPos_content 4] in
  let call := rearrange id drafted Acked Caller_System sample_draft cuts Unchecked in
  acked call (λ _ s, bool_decide (shown s sample_draft = [2; 3; 1; 4]%N)) = true ∧
  ∃ k' e, call = Done (k', e) ∧ core_ok (root_slices k').
Proof.
  cbv zeta. split; [vm_compute; reflexivity|].
  destruct (rearrange_exact id drafted Acked Caller_System sample_draft
    [VPos_content 1; VPos_content 2; VPos_content 4] Unchecked drafted_ok) as (k' & e & Ht & Hok & _).
  exists k', e. split; [exact Ht|exact Hok].
Defined.

Lemma seat_link_exact_witness :
  let call := seat_link id drafted Acked sample_draft sample_link in
  acked call (λ _ s, bool_decide (links s sample_draft = [sample_link])) = true ∧
  ∃ k' e, call = Done (k', e) ∧ core_ok (root_slices k').
Proof.
  split; [vm_compute; reflexivity|].
  destruct (seat_link_exact id drafted Acked sample_draft sample_link drafted_ok) as (k' & e & Ht & Hok & _).
  exists k', e. split; [exact Ht|exact Hok].
Defined.

(** The draft's middle, by its own V-span. *)
Definition sample_specs : list VSpec :=
  match ordinal_vspan (VPos_content 2) 2 with Done (Some s) => [MkVSpec sample_draft s] | _ => [] end.

Lemma copy_exact_witness :
  let call := copy id drafted Acked Caller_System sample_draft (VPos_content 1) sample_specs Unchecked in
  acked call (λ _ s, bool_decide (shown s sample_draft = [2; 3; 1; 2; 3; 4]%N)) = true ∧
  ∃ k' e, call = Done (k', e) ∧ core_ok (root_slices k').
Proof.
  split; [vm_compute; reflexivity|].
  destruct (copy_exact id drafted Acked Caller_System sample_draft (VPos_content 1) sample_specs Unchecked drafted_ok)
    as (k' & e & Ht & Hok & _). exists k', e. split; [exact Ht|exact Hok].
Defined.

Definition stated_sample : list ShotRun := [MkShotRun sample_draft (MkRun (sample_position 3) 2)].

Lemma stated_sample_ok : stated_ok stated_sample.
Proof. repeat constructor; cbn; lia. Qed.

Lemma reinstate_exact_witness :
  let call := reinstate id drafted Acked Caller_System sample_draft (VPos_content 1) stated_sample Unchecked in
  acked call (λ _ s, bool_decide (shown s sample_draft = [3; 4; 1; 2; 3; 4]%N)) = true ∧
  ∃ k' e, call = Done (k', e) ∧ core_ok (root_slices k').
Proof.
  split; [vm_compute; reflexivity|].
  destruct (reinstate_exact id drafted Acked Caller_System sample_draft (VPos_content 1) stated_sample Unchecked
    drafted_ok stated_sample_ok) as (k' & e & Ht & Hok & _). exists k', e. split; [exact Ht|exact Hok].
Defined.

Lemma insert_exact_witness :
  let call := insert id drafted Acked Caller_System sample_draft (VPos_content 2) [[Byte.x7a]] Undeclared Unchecked in
  acked call (λ a s, bool_decide (a = sample_position 5) && bool_decide (shown s sample_draft = [1; 5; 2; 3; 4]%N)) = true ∧
  ∃ k' e, call = Done (k', e) ∧ core_ok (root_slices k').
Proof.
  split; [vm_compute; reflexivity|].
  destruct (insert_exact id drafted Acked Caller_System sample_draft (VPos_content 2) [[Byte.x7a]] Undeclared Unchecked
    drafted_ok) as (k' & e & Ht & Hok & _); [unfold usize_len; cbn; lia|].
  exists k', e. split; [exact Ht|exact Hok].
Defined.

Lemma version_exact_witness :
  let call := version id drafted Acked SYSTEM_PRINCIPAL head_document None in
  acked call (λ a s, bool_decide (comps (tumbler a) = [1; 1; 0; 1; 0; 2; 1]%N) && published_target (sl_namespace s) a) = true ∧
  ∃ k' e, call = Done (k', e) ∧ core_ok (root_slices k').
Proof.
  split; [vm_compute; reflexivity|].
  destruct (version_exact id drafted Acked SYSTEM_PRINCIPAL head_document None drafted_ok) as (k' & e & Ht & Hok & _).
  exists k', e. split; [exact Ht|exact Hok].
Defined.

Lemma stage_exact_witness :
  let call := stage_draft id drafted Acked SYSTEM_PRINCIPAL sample_draft in
  acked call (λ a s, bool_decide (comps (tumbler a) = [1; 1; 0; 1; 0; 4]%N) && bool_decide (shown s a = [1; 2; 3; 4]%N)) = true ∧
  ∃ k' e, call = Done (k', e) ∧ core_ok (root_slices k').
Proof.
  split; [vm_compute; reflexivity|].
  destruct (stage_exact id drafted Acked SYSTEM_PRINCIPAL sample_draft drafted_ok) as (k' & e & Ht & Hok & _).
  exists k', e. split; [exact Ht|exact Hok].
Defined.

Lemma set_arrangement_exact_witness :
  let request := SetArr.MkSetArrangement stated_sample None None None in
  let call := set_arrangement id drafted Acked Caller_System sample_draft request Unchecked in
  acked call (λ _ s, bool_decide (shown s sample_draft = [3; 4]%N)) = true ∧
  ∃ k' e, call = Done (k', e) ∧ core_ok (root_slices k').
Proof.
  cbv zeta. split; [vm_compute; reflexivity|].
  destruct (set_arrangement_exact id drafted Acked Caller_System sample_draft
    (SetArr.MkSetArrangement stated_sample None None None) Unchecked drafted_ok stated_sample_ok) as (k' & e & Ht & Hok & _).
  exists k', e. split; [exact Ht|exact Hok].
Defined.

Lemma service_total_witness :
  Forall (λ x, request_ok x.2) draft_calls ∧
  ∃ k', serve_all id fresh_kernel draft_calls = Done k' ∧
    ∀ doc a, a ∈ contents (root_slices k') doc → is_allocated (sl_namespace (root_slices k')) a = true.
Proof.
  split; [exact draft_calls_ok|].
  destruct (service_total id fresh_kernel draft_calls) as (k' & E & H & _); [reflexivity|exact draft_calls_ok|].
  exists k'. split; [exact E|]. intros doc a Ha. by apply (H doc a Ha).
Defined.

Definition more_calls : list (CommitAnswer * Request) :=
  [ (Acked, AskVersion SYSTEM_PRINCIPAL head_document None);
    (Acked, AskDelete Caller_System head_document (VPos_content 1) 1 Unchecked) ].

Lemma service_permanent_witness :
  published_target (sl_namespace (root_slices drafted)) head_document = true ∧
  published_target (sl_namespace (root_slices drafted)) sample_draft = false ∧
  ∃ k', serve_all id drafted more_calls = Done k' ∧
    published_target (sl_namespace (root_slices k')) head_document = true ∧
    published_target (sl_namespace (root_slices k')) sample_draft = false ∧
    delete id k' Acked Caller_System head_document (VPos_content 1) 1 Unchecked =
      Done (k', Returned (Err (Rejected Delete.PublishedTarget))).
Proof.
  split; [vm_compute; reflexivity|]. split; [vm_compute; reflexivity|].
  assert (Hl : Forall (λ x, request_ok x.2) more_calls) by repeat constructor.
  assert (Hd : match serve_all id drafted more_calls with Done k' => negb (k_poisoned k') | Panicked => false end = true) by (vm_compute; reflexivity).
  destruct (serve_all id drafted more_calls) as [k'|] eqn:E; [|discriminate Hd]. exists k'. split; [reflexivity|].
  destruct (service_permanent id drafted k' more_calls drafted_ok Hl E) as (_ & _ & Hsame & _ & _ & _ & Hfrozen).
  split; [rewrite Hsame; vm_compute; reflexivity|]. split; [rewrite Hsame; vm_compute; reflexivity|].
  destruct (Hfrozen head_document ltac:(vm_compute; reflexivity) ltac:(vm_compute; reflexivity) Acked Caller_System Unchecked) as [Hdel _].
  destruct (Hdel (VPos_content 1) 1%N) as (er & -> & ->). apply negb_true_iff in Hd. by rewrite Hd.
Defined.

(** The draft's positions out of order, one twice: the base-less shot that bears a chain. *)
Definition sample_shot : Shot :=
  MkShot None (Some sample_draft) []
    [MkShotRun sample_draft (MkRun (sample_position 3) 2); MkShotRun sample_draft (MkRun (sample_position 1) 1);
     MkShotRun sample_draft (MkRun (sample_position 4) 1)].

Definition sample_readable (_ : Slices) (d : Address) : bool := bool_decide (d = sample_draft).

Lemma sample_shot_ok : stated_ok (sh_runs sample_shot).
Proof. repeat constructor; cbn; lia. Qed.

Definition landed (n : Nat) : Address := adr [1; 1; 0; 1; 0; 2; 0; 1; n]%N.

Lemma publish_exact_witness :
  let call := publish id drafted Acked Caller_System head_document sample_shot sample_readable in
  acked call (λ a s, bool_decide (comps (tumbler a) = [1; 1; 0; 1; 0; 2; 1]%N) &&
    bool_decide (contents s a = [landed 1; landed 2; landed 3; landed 2])) = true ∧
  ∃ k' e, call = Done (k', e) ∧ core_ok (root_slices k').
Proof.
  split; [vm_compute; reflexivity|].
  destruct (publish_exact id drafted Acked Caller_System head_document sample_shot sample_readable drafted_ok sample_shot_ok)
    as (k' & e & Ht & Hok & _). exists k', e. split; [exact Ht|exact Hok].
Defined.

Lemma pairing_exact_witness :
  let call := transact id drafted Acked (Publish.stage_publish Caller_System head_document sample_shot sample_readable) in
  acked call (λ out _, bool_decide ((λ e, (mr_index e, mr_minted e, i_start (mr_to e), run_width (mr_to e))) <$> out.2 =
    [(0, true, landed 1, 2%N); (1, true, landed 3, 1%N); (2, false, landed 2, 1%N)])) = true ∧
  ∃ k' e, call = Done (k', e).
Proof.
  split; [vm_compute; reflexivity|].
  destruct (pairing_exact id drafted Acked Caller_System head_document sample_shot sample_readable drafted_ok sample_shot_ok)
    as (k' & e & Ht & _). exists k', e. exact Ht.
Defined.

Lemma shot_admission_exact_witness :
  let w := c_world (k_root drafted) in
  (∃ r, Publish.shot_admission w Caller_System sample_draft sample_shot sample_readable = Done (Err r)) ∧
  ∃ r, Publish.shot_admission w Caller_System sample_draft sample_shot sample_readable = Done r ∧
    judged r (admission_gates (slices w) Caller_System sample_draft sample_shot (sample_readable w)) (λ _, True).
Proof.
  split; [exists Publish.PrivateSourceVersionless; vm_compute; reflexivity|].
  exact (proj1 (shot_admission_exact (c_world (k_root drafted)) Caller_System sample_draft system_account sample_shot
    sample_readable drafted_ok sample_shot_ok)).
Defined.

(** ** The reads *)

Notation drafted_world := (c_world (k_root drafted)).

Definition vspan (at_ : VPos) (count : Nat) : Span :=
  match ordinal_vspan at_ count with Done (Some s) => s | _ => subtree_of (tumbler sample_draft) end.

(** The draft's middle, and all of it. *)
Definition middle : Span := vspan (VPos_content 2) 2.
Definition whole : Span := vspan (VPos_content 1) 4.

(** An answer checked by evaluation. *)
Definition answers {A E} (m : outcome (result A E)) (check : A → bool) : bool :=
  match m with Done (Ok a) => check a | _ => false end.

Lemma retrieve_exact_witness :
  let specs := [Retrieval.MkSpec sample_draft middle] in
  answers (retrieve_v_masked drafted_world specs (λ _, true))
    (λ l, match l with [ItemContent v; ItemBytes b] => bool_decide (v = [Byte.x62; Byte.x63] ∧ b = [Byte.x64]) | _ => false end) = true ∧
  answers (retrieve_v_masked drafted_world specs (λ _, false))
    (λ l, match l with [ItemWithheld o n] => bool_decide (o = sample_draft ∧ n = 2%N) | _ => false end) = true ∧
  ∃ r, retrieve_v_masked drafted_world specs (λ _, true) = Done r.
Proof.
  cbv zeta. split; [vm_compute; reflexivity|]. split; [vm_compute; reflexivity|].
  destruct (retrieve_exact drafted_world [Retrieval.MkSpec sample_draft middle] (λ _, true) drafted_ok) as (r & Hr & _).
  exists r. exact Hr.
Defined.

Lemma extents_exact_witness :
  answers (doc_vspanset drafted_world sample_draft) (λ s, bool_decide (spans s = [whole])) = true ∧
  ∃ r, doc_vspan drafted_world sample_draft = Done r.
Proof.
  split; [vm_compute; reflexivity|].
  destruct (extents_exact drafted_world sample_draft drafted_ok) as (_ & r & Hr & _). exists r. exact Hr.
Defined.

Lemma show_origin_exact_witness :
  answers (show_origin_v drafted_world sample_draft middle) (λ l, bool_decide (l = [sample_draft])) = true ∧
  ∃ r, show_origin_v drafted_world sample_draft middle = Done r.
Proof.
  split; [vm_compute; reflexivity|].
  destruct (show_origin_exact drafted_world sample_draft middle drafted_ok) as (r & Hr & _). exists r. exact Hr.
Defined.

(** A second document, into which the draft's middle is copied; the draft then loses its
    third position. *)
Definition sample_second : Address := adr [1; 1; 0; 1; 0; 4]%N.

Definition copy_calls : list (CommitAnswer * Request) :=
  [ (Acked, AskCreate SYSTEM_PRINCIPAL system_account (Some false));
    (Acked, AskCopy Caller_System sample_second (VPos_content 1) sample_specs Unchecked);
    (Acked, AskDelete Caller_System sample_draft (VPos_content 3) 1 Unchecked) ].

Definition copied_kernel : Kernel :=
  match serve_all id drafted copy_calls with Done k => k | Panicked => drafted end.

Notation copied_world := (c_world (k_root copied_kernel)).

Lemma copied_ok : core_ok (root_slices copied_kernel).
Proof.
  destruct (serve_all_ok id drafted copy_calls) as (k & E & H & _); [exact drafted_ok|repeat constructor|].
  unfold copied_kernel. rewrite E. exact H.
Qed.

Example copied_shows :
  shown (root_slices copied_kernel) sample_draft = [1; 2; 4]%N ∧ shown (root_slices copied_kernel) sample_second = [2; 3]%N.
Proof. split; vm_compute; reflexivity. Qed.

Lemma show_deletions_exact_witness :
  answers (show_deletions copied_world sample_draft sample_second)
    (λ x, bool_decide (deleted_from_a_with_b x = [sample_position 3] ∧ deleted_from_b_with_a x = [])) = true ∧
  ∃ r, show_deletions copied_world sample_draft sample_second = Done r.
Proof.
  split; [vm_compute; reflexivity|].
  destruct (show_deletions_exact copied_world sample_draft sample_second copied_ok) as (r & Hr & _). exists r. exact Hr.
Defined.

Lemma find_exact_witness :
  let regions := [MkRegionSpec sample_second [whole]] in
  answers (find_docs_containing_filtered copied_world regions (λ _, true)) (λ l, bool_decide (l = [sample_draft; sample_second])) = true ∧
  answers (find_docs_containing_filtered copied_world regions (λ d, bool_decide (d = sample_second)))
    (λ l, bool_decide (l = [sample_second])) = true ∧
  ∃ r, find_docs_containing_filtered copied_world regions (λ _, true) = Done r.
Proof.
  cbv zeta. split; [vm_compute; reflexivity|]. split; [vm_compute; reflexivity|].
  destruct (find_exact copied_world [MkRegionSpec sample_second [whole]] (λ _, true) copied_ok) as (r & Hr & _).
  exists r. exact Hr.
Defined.

Lemma compare_exact_witness :
  let rho1 := [MkRegionSpec sample_draft [whole]] in
  let rho2 := [MkRegionSpec sample_second [whole]] in
  answers (compare (debug := true) copied_world rho1 rho2)
    (λ l, match l with [c] => bool_decide (cp_u1 c = VPos_content 2 ∧ cp_u2 c = VPos_content 1 ∧ cp_width c = 1%N) | _ => false end) = true ∧
  ∃ r, compare (debug := true) copied_world rho1 rho2 = Done r.
Proof.
  cbv zeta. split; [vm_compute; reflexivity|].
  destruct (compare_exact copied_world [MkRegionSpec sample_draft [whole]] [MkRegionSpec sample_second [whole]] copied_ok)
    as (r & Hr & _). exists r. exact Hr.
Defined.

Lemma walk_price_bounds_witness :
  ∃ rs n, iter_resolve (sl_arrangement (root_slices drafted)) sample_draft middle = Done rs ∧ walk_price (sl_arrangement (root_slices drafted)) sample_draft middle = Done n ∧
    (N.of_nat (length rs) ≤ n)%N.
Proof.
  destruct (walk_price_bounds (sl_arrangement (root_slices drafted)) sample_draft middle (co_m5 _ drafted_ok)) as (rs & n & H1 & H2 & H3 & _).
  exists rs, n. exact (conj H1 (conj H2 H3)).
Defined.
