(* ===== verification/WriteSamples.v ===== *)
(** * The link store's writes at concrete kernels

    A draft with four positions, and an empty link store beside it; links made, claimed,
    edited and retracted there, each claim of the writes applied to its call and the
    call evaluated beside it. *)

From stdpp Require Import gmap sorting.
From S2P Require Import Prelude Txns Tumblers Addresses AddrMaps Arith NsKeys NsState NsLaws NsOps NsInv NsCalls Runs Content RunLists VSpace Provenance Chain ArrState ArrReads Views World Edits EditInv EditSteps EditCalls VersionCalls SetArrCalls CopyCalls CoreReach CoreSamples.
From S2P Require Import Spans SpanSets OrdSets Endsets ClassLaws TypeRegistry LinkState LinkStateLaws LinkReads LinkFind LinkChains LinkFindLaws Supersession LinkSamples LinkWorld LinkWrites LinkGate LinkCalls EmitCalls EditLinkCalls SlotCalls MakeLinkCalls Discovery DiscoveryLaws DiscoveryCalls DescriptorCalls OrphanCalls.

(** ** A store with no link in it *)

Definition unlinked (ns : M3State) : bool :=
  forallb (λ p, match Tumbler_new (slot p.1 1) with Ok t => negb (on_link_chain t) | Err _ => true end) (map_to_list (frontiers ns)).

Lemma unlinked_frontier ns d : unlinked ns = true → level d = Document → effective_frontier ns (link_ns d) = 0%N.
Proof.
  unfold unlinked. rewrite forallb_forall. intros H Hl. unfold effective_frontier.
  assert (Hg : ghost_floor (link_ns d) = 0%N).
  { unfold ghost_floor, is_ghost_ns. case_bool_decide as E; [|done]. exfalso.
    pose proof (link_ns_slot d 1) as Hd. rewrite E, content_ns_slot in Hd. by apply app_inj_2 in Hd as [_ [=]]. }
  rewrite Hg, N.max_0_r. destruct (frontiers ns !! link_ns d) as [n|] eqn:E; [|done]. exfalso.
  specialize (H (link_ns d, n)). rewrite <- list_elem_of_In, elem_of_map_to_list in H. specialize (H E). cbn [fst] in H.
  rewrite link_ns_slot in H.
  pose proof (elem_addr_cases (MkElemPos d link_subspace 1)) as Ha. cbn [ep_doc ep_subspace ep_ordinal] in Ha.
  destruct (elem_addr _) as [a|[]]; [|done|by destruct Ha|by destruct Ha as (_ & _ & [=])].
  destruct Ha as (_ & _ & _ & Ha). destruct (Tumbler_new _) as [t|[]] eqn:Et; [|by destruct (comps (tumbler d))].
  apply Tumbler_new_Ok in Et. apply negb_true_iff, not_true_iff_false in H. apply H, on_link_chain_iff.
  assert (t = tumbler a) as -> by (apply Tumbler_eq; rewrite Et; symmetry; exact Ha). rewrite validate_self. split; [done|]. exists d. split; [done|].
  exists 1%N. exact Ha.
Qed.

Lemma unlinked_ok c : core_ok c → unlinked (sl_namespace c) = true → linked_ok (MkLinked c LinkState_genesis).
Proof.
  intros Hc Hu. assert (He : ∀ t : Tumbler, LinkState.links LinkState_genesis !! t = None) by (intros t; apply lookup_empty).
  split; unfold ls_namespace; cbn [ls_core ls_links].
  - exact Hc.
  - exact links_genesis_ok.
  - intros t [v Hv]. by rewrite He in Hv.
  - intros d Hd. rewrite unlinked_frontier by done.
    assert (homed_at (LinkState.links LinkState_genesis) (tumbler d) = ∅) as ->; [|by rewrite size_empty].
    apply elem_of_equiv_empty_L. intros t. unfold homed_at. rewrite elem_of_filter, elem_of_dom, He. intros [_ [? [=]]].
  - intros t Ht%nullified_iff. by apply not_elem_of_empty in Ht.
  - intros a v [Hv _]. by rewrite He in Hv.
Qed.

(** The engine's genesis holds the invariant, as does the draft's store. *)
Lemma linked_genesis_ok : linked_ok (MkLinked core_genesis LinkState_genesis).
Proof. apply unlinked_ok; [exact core_genesis_ok|vm_compute; reflexivity]. Qed.

(** ** The kernels *)

#[local] Instance sample_linked_world : WorldState LinkedSlices LinkedRec | 0 := linked_world true.
#[local] Instance sample_linked : HasLinked true LinkedSlices LinkedRec | 0 := linked_has_linked true.
#[local] Notation Kernel := (Kernel (W := LinkedSlices) (Bytes := LinkedRec)).

Definition unread (w : LinkedSlices) (a : Address) : bool := true.
Definition sample_bytes (n : Nat) : list N := [n].

Definition unlinked_kernel : Kernel := opened (MkLinked (c_world (k_root drafted)) LinkState_genesis) Rollback.

Lemma unlinked_kernel_ok : linked_ok (linked_root unlinked_kernel).
Proof. apply unlinked_ok; [exact drafted_ok|vm_compute; reflexivity]. Qed.

Definition after {T E} (k : Kernel) (c : outcome (Kernel * CallEnd T E)) : Kernel :=
  match c with Done (k', _) => k' | Panicked => k end.

Definition acked_with {T E} (c : outcome (Kernel * CallEnd T E)) (check : T → LinkedSlices → bool) : bool :=
  match c with Done (k, Returned (Ok (v, _))) => check v (linked_root k) | _ => false end.

Definition jump : SlotArg := SlotAddrs [adr [1; 1; 0; 1; 0; 1; 0; 3; 2]%N].
Definition sample_home_link (n : Nat) : Address := adr [1; 1; 0; 1; 0; 3; 0; 2; n]%N.

(** A link from what the draft's middle shows to its last position. *)
Definition make (k : Kernel) : outcome (Kernel * CallEnd Address MakeLinkError) :=
  makelink id unread k Acked Caller_System sample_draft (SlotResolve sample_specs) (SlotAddrs [sample_position 4]) jump.

Lemma make_ok k : linked_ok (linked_root k) → linked_ok (linked_root (after k (make k))).
Proof.
  intros Hok. unfold make, makelink.
  destruct (linked_call id k Acked (stage_record unread Caller_System sample_draft (SlotResolve sample_specs) (SlotAddrs [sample_position 4]) jump)
    (makelink_gates (linked_root k) Caller_System sample_draft (SlotResolve sample_specs) (SlotAddrs [sample_position 4]) jump)
    (λ _ _ _, True) (λ _ _, True) (stage_record_closure _ _ _ _ _ _) Hok) as (k' & e & -> & Hok' & _).
  - intros first. eapply spec_conseq; [exact (stage_record_spec unread (linked_root k) _ Caller_System sample_draft _ _ _ (on_linked_new k first) eq_refl eq_refl Hok)|].
    cbn beta. intros a stg' (rs & ? & ? & _). by exists rs.
  - done.
  - exact Hok'.
Qed.

Definition linked_kernel : Kernel := after (after unlinked_kernel (make unlinked_kernel)) (make (after unlinked_kernel (make unlinked_kernel))).

Lemma linked_kernel_ok : linked_ok (linked_root linked_kernel).
Proof. apply make_ok, make_ok, unlinked_kernel_ok. Qed.

Example linked_kernel_shows :
  EditInv.links (ls_core (linked_root linked_kernel)) sample_draft = [sample_home_link 1; sample_home_link 2].
Proof. vm_compute. reflexivity. Qed.

(** ** The claims, applied *)

Lemma makelink_exact_witness :
  acked_with (make unlinked_kernel) (λ a s, bool_decide (a = sample_home_link 1) &&
    bool_decide (EditInv.links (ls_core s) sample_draft = [a]) && resident (ls_links s) (tumbler a)) = true ∧
  ∃ k' e, make unlinked_kernel = Done (k', e) ∧ linked_ok (linked_root k').
Proof.
  split; [vm_compute; reflexivity|].
  destruct (makelink_exact id unread unlinked_kernel Acked Caller_System sample_draft (SlotResolve sample_specs)
    (SlotAddrs [sample_position 4]) jump unlinked_kernel_ok) as (k' & e & Ht & Hok & _).
  exists k', e. split; [exact Ht|exact Hok].
Defined.

Lemma makelink_replacing_exact_witness :
  let call := makelink_replacing id unread linked_kernel Acked Caller_System sample_draft (SlotResolve sample_specs)
    (SlotAddrs [sample_position 4]) jump (sample_home_link 1) in
  acked_with call (λ a s, bool_decide (a = sample_home_link 3) &&
    bool_decide (EditInv.links (ls_core s) sample_draft = sample_home_link <$> [1; 2; 3; 4]%N)) = true ∧
  ∃ k' e, call = Done (k', e) ∧ linked_ok (linked_root k').
Proof.
  cbv zeta. split; [vm_compute; reflexivity|].
  destruct (makelink_replacing_exact id unread linked_kernel Acked Caller_System sample_draft (SlotResolve sample_specs)
    (SlotAddrs [sample_position 4]) jump (sample_home_link 1) linked_kernel_ok) as (k' & e & Ht & Hok & _).
  exists k', e. split; [exact Ht|exact Hok].
Defined.

(** An emission, and the same again: the second finds the first. *)
Definition retire (k : Kernel) : outcome (Kernel * CallEnd Address EmitError) :=
  emit id sample_bytes unread k Acked Caller_System sample_draft (reserved_type registry Retired) (sample_home_link 1) [].

Lemma emit_exact_witness :
  acked_with (retire linked_kernel) (λ a _, bool_decide (a = sample_home_link 3)) = true ∧
  acked_with (retire (after linked_kernel (retire linked_kernel))) (λ a s, bool_decide (a = sample_home_link 3) &&
    negb (resident (ls_links s) (tumbler (sample_home_link 4)))) = true ∧
  ∃ k' e, retire linked_kernel = Done (k', e) ∧ linked_ok (linked_root k').
Proof.
  split; [vm_compute; reflexivity|]. split; [vm_compute; reflexivity|].
  destruct (emit_exact id sample_bytes unread linked_kernel Acked Caller_System sample_draft (reserved_type registry Retired)
    (sample_home_link 1) [] linked_kernel_ok) as (k' & e & Ht & Hok & _).
  exists k', e. split; [exact Ht|exact Hok].
Defined.

Lemma nullify_exact_witness :
  let call := nullify id sample_bytes unread linked_kernel Acked Caller_System sample_draft (sample_home_link 1) in
  acked_with call (λ a s, bool_decide (a = sample_home_link 3) && nullified (ls_links s) (tumbler (sample_home_link 1)) &&
    negb (nullified (ls_links s) (tumbler (sample_home_link 2)))) = true ∧
  ∃ k' e, call = Done (k', e) ∧ linked_ok (linked_root k').
Proof.
  cbv zeta. split; [vm_compute; reflexivity|].
  destruct (nullify_exact id sample_bytes unread linked_kernel Acked Caller_System sample_draft (sample_home_link 1) linked_kernel_ok)
    as (k' & e & Ht & Hok & _); [vm_compute; reflexivity|].
  exists k', e. split; [exact Ht|exact Hok].
Defined.

Lemma assert_sup_exact_witness :
  let call := assert_sup id sample_bytes unread linked_kernel Acked Caller_System sample_draft (sample_home_link 1) (sample_home_link 2) in
  acked_with call (λ a s, bool_decide (a = sample_home_link 3)) = true ∧
  ∃ k' e, call = Done (k', e) ∧ linked_ok (linked_root k').
Proof.
  cbv zeta. split; [vm_compute; reflexivity|].
  destruct (assert_sup_exact id sample_bytes unread linked_kernel Acked Caller_System sample_draft (sample_home_link 1)
    (sample_home_link 2) linked_kernel_ok) as (k' & e & Ht & Hok & _).
  exists k', e. split; [exact Ht|exact Hok].
Defined.

Definition edited_value : Link := triple (enc [sample_position 1]) (enc [sample_position 4]) (enc [adr [1; 1; 0; 1; 0; 1; 0; 3; 2]%N]).

Lemma editlink_exact_witness :
  let call := editlink id unread linked_kernel Acked Caller_System (sample_home_link 1) edited_value sample_draft sample_draft in
  acked_with call (λ e s, bool_decide (ed_successor e = sample_home_link 3) && bool_decide (ed_claim e = sample_home_link 4) &&
    bool_decide (LinkState.links (ls_links s) !! tumbler (ed_successor e) = Some edited_value)) = true ∧
  ∃ k' e, call = Done (k', e) ∧ linked_ok (linked_root k').
Proof.
  cbv zeta. split; [vm_compute; reflexivity|].
  destruct (editlink_exact id unread linked_kernel Acked Caller_System (sample_home_link 1) edited_value sample_draft sample_draft
    linked_kernel_ok) as (k' & e & Ht & Hok & _).
  exists k', e. split; [exact Ht|exact Hok].
Defined.

(** ** Discovery *)

(** The two links of the draft; then the first one claimed succeeded by the second, and
    retracted. *)
Definition linked_view : LinkedSlices := linked_root linked_kernel.

Definition retracted_view : LinkedSlices :=
  linked_root (after linked_kernel (nullify id sample_bytes unread linked_kernel Acked Caller_System sample_draft (sample_home_link 1))).

Definition claimed_view : LinkedSlices :=
  linked_root (after linked_kernel (assert_sup id sample_bytes unread linked_kernel Acked Caller_System sample_draft (sample_home_link 1) (sample_home_link 2))).

Lemma searchable s : linked_ok s → levels_fit (ls_links s) = true → core_ok (slices s) ∧ findable (link_slice s).
Proof. intros Hs Hl. split; [exact (lo_core s Hs)|by apply (linked_ok_findable s)]. Qed.

Lemma linked_view_ok : core_ok (slices linked_view) ∧ findable (link_slice linked_view).
Proof. apply searchable; [exact linked_kernel_ok|vm_compute; reflexivity]. Qed.

Lemma retracted_view_ok : core_ok (slices retracted_view) ∧ findable (link_slice retracted_view).
Proof.
  apply searchable; [|vm_compute; reflexivity]. unfold retracted_view.
  destruct (nullify_run id sample_bytes unread linked_kernel Acked Caller_System sample_draft (sample_home_link 1) linked_kernel_ok) as (k' & e & -> & Hok & _);
    [vm_compute; reflexivity|exact Hok].
Qed.

Lemma claimed_view_ok : core_ok (slices claimed_view) ∧ findable (link_slice claimed_view).
Proof.
  apply searchable; [|vm_compute; reflexivity]. unfold claimed_view.
  destruct (assert_sup_run id sample_bytes unread linked_kernel Acked Caller_System sample_draft (sample_home_link 1) (sample_home_link 2) linked_kernel_ok)
    as (k' & e & -> & Hok & _). exact Hok.
Qed.

Definition found_are (m : outcome (result (list Address) QueryError)) (l : list Nat) : bool :=
  answers m (λ found, bool_decide (found = sample_home_link <$> l)).

Lemma findlinks_v_exact_witness :
  found_are (findlinks_v_on linked_view sample_draft [middle] (λ _, true)) [1; 2]%N = true ∧
  found_are (findlinks_v_on linked_view sample_draft [middle] (λ _, false)) [] = true ∧
  findlinks_v_on linked_view sample_draft [middle; subtree_of (tumbler sample_draft)] (λ _, true) = Done (Err QE_BadRegion) ∧
  ∃ r, findlinks_v_on linked_view sample_draft [middle] (λ _, true) = Done r.
Proof.
  split; [vm_compute; reflexivity|]. split; [vm_compute; reflexivity|]. split; [vm_compute; reflexivity|].
  destruct (findlinks_v_exact linked_view sample_draft [middle] (λ _, true) (proj1 linked_view_ok) (proj2 linked_view_ok)) as (r & Hr & _).
  exists r. exact Hr.
Defined.

Definition window_is (m : outcome (result Window QueryError)) (l : list Nat) (exhausted : bool) : bool :=
  answers m (λ p, bool_decide (wi_batch p = sample_home_link <$> l) && Bool.eqb (wi_exhausted p) exhausted).

Lemma window_v_exact_witness :
  window_is (window_v_on linked_view sample_draft [middle] None 1 (λ _, true)) [1]%N false = true ∧
  window_is (window_v_on linked_view sample_draft [middle] (Some (sample_home_link 1)) 2 (λ _, true)) [2]%N true = true ∧
  ∃ r page, findlinks_v_on linked_view sample_draft [middle] (λ _, true) = Done r ∧
    window_v_on linked_view sample_draft [middle] None 1 (λ _, true) = Done page.
Proof.
  split; [vm_compute; reflexivity|]. split; [vm_compute; reflexivity|].
  destruct (window_v_exact linked_view sample_draft [middle] None 1 (λ _, true) (proj1 linked_view_ok) (proj2 linked_view_ok)) as (r & page & H1 & H2 & _).
  exists r, page. exact (conj H1 H2).
Defined.

Lemma count_v_by_home_exact_witness :
  answers (count_v_by_home_on linked_view sample_draft [middle] 5 [] (λ _, true))
    (λ c, bool_decide (hc_homes c = [(sample_draft, 2)]) && hc_exhausted c) = true ∧
  ∃ r c, findlinks_v_on linked_view sample_draft [middle] (λ _, true) = Done r ∧
    count_v_by_home_on linked_view sample_draft [middle] 5 [] (λ _, true) = Done c.
Proof.
  split; [vm_compute; reflexivity|].
  destruct (count_v_by_home_exact linked_view sample_draft [middle] 5 [] (λ _, true) (proj1 linked_view_ok) (proj2 linked_view_ok)) as (r & c & H1 & H2 & _).
  exists r, c. exact (conj H1 H2).
Defined.

Lemma find_links_v_history_exact_witness :
  answers (find_links_v_history_on retracted_view sample_draft [middle] None 5 (λ _, true))
    (λ rows, bool_decide (lr_a <$> rw_links rows = sample_home_link <$> [1; 2; 3]%N) &&
      bool_decide (lr_at <$> rw_links rows = [Some 3; Some 6; Some 8]%N) &&
      bool_decide ((λ r, bool_decide (is_Some (lr_retracted_at r))) <$> rw_links rows = [true; false; false])) = true ∧
  ∃ r, find_links_v_history_on retracted_view sample_draft [middle] None 5 (λ _, true) = Done r.
Proof.
  split; [vm_compute; reflexivity|].
  destruct (find_links_v_history_exact retracted_view sample_draft [middle] None 5 (λ _, true) (proj1 retracted_view_ok) (proj2 retracted_view_ok)) as (r & Hr & _).
  exists r. exact Hr.
Defined.

Lemma retrieve_endsets_exact_witness :
  answers (retrieve_endsets_on linked_view sample_draft [whole] (λ _, true))
    (λ ends, bool_decide ((λ p, (p.1, start <$> endset_spans p.2)) <$> ends =
      [(FROM, [tumbler (sample_position 2)]); (TO, [tumbler (sample_position 4)])])) = true ∧
  ∃ r, retrieve_endsets_on linked_view sample_draft [whole] (λ _, true) = Done r.
Proof.
  split; [vm_compute; reflexivity|].
  destruct (retrieve_endsets_exact linked_view sample_draft [whole] (λ _, true) (proj1 linked_view_ok) (proj2 linked_view_ok)) as (r & Hr & _).
  exists r. exact Hr.
Defined.

(** The links to the draft's last position that hang off its home. *)
Definition sample_four : FourSet := MkFourSet (SpecSpans (enc [sample_draft])) SpecAny (SpecSpans (enc [sample_position 4])) SpecAny.

Lemma findlinks_ftt_exact_witness :
  done_with (findlinks_ftt_on linked_view sample_four (λ _, true)) (λ l, bool_decide (l = sample_home_link <$> [1; 2]%N)) = true ∧
  done_with (findlinks_ftt_on linked_view (MkFourSet SpecAny SpecEmpty SpecAny SpecAny) (λ _, true)) (λ l, bool_decide (l = [])) = true ∧
  done_with (findlinks_ftt_on retracted_view FourSet_any (λ _, true)) (λ l, bool_decide (l = sample_home_link <$> [2; 3]%N)) = true ∧
  ∃ found, findlinks_ftt_on linked_view sample_four (λ _, true) = Done found.
Proof.
  split; [vm_compute; reflexivity|]. split; [vm_compute; reflexivity|]. split; [vm_compute; reflexivity|].
  destruct (findlinks_ftt_exact linked_view sample_four (λ _, true) (proj2 linked_view_ok)) as (found & Hr & _).
  exists found. exact Hr.
Defined.

Lemma delete_orphans_exact_witness :
  answers (delete_orphans_on linked_view sample_draft (VPos_content 2) 3 (λ _, true))
    (λ r, bool_decide (orphaned r = sample_home_link <$> [1; 2]%N)) = true ∧
  answers (delete_orphans_on linked_view sample_draft (VPos_content 2) 2 (λ _, true)) (λ r, bool_decide (orphaned r = [])) = true ∧
  delete_orphans_on linked_view sample_draft (VPos_content 4) 2 (λ _, true) = Done (Err OE_OutOfBounds) ∧
  ∃ r, delete_orphans_on linked_view sample_draft (VPos_content 2) 3 (λ _, true) = Done r.
Proof.
  split; [vm_compute; reflexivity|]. split; [vm_compute; reflexivity|]. split; [vm_compute; reflexivity|].
  destruct (delete_orphans_exact linked_view sample_draft (VPos_content 2) 3 (λ _, true) (proj1 linked_view_ok) (proj2 linked_view_ok)) as (r & Hr & _).
  exists r. exact Hr.
Defined.

Lemma claims_exact_witness :
  done_with (in_claims_on claimed_view (sample_home_link 1) ViewActive (λ _, true))
    (λ l, bool_decide (sc_claim <$> l = [sample_home_link 3]) && bool_decide (sc_new <$> l = [sample_home_link 2])) = true ∧
  done_with (out_claims_on claimed_view (sample_home_link 1) ViewActive (λ _, true)) (λ l, bool_decide (sc_claim <$> l = [])) = true ∧
  ∃ ins outs, in_claims_on claimed_view (sample_home_link 1) ViewActive (λ _, true) = Done ins ∧
    out_claims_on claimed_view (sample_home_link 1) ViewActive (λ _, true) = Done outs.
Proof.
  split; [vm_compute; reflexivity|]. split; [vm_compute; reflexivity|].
  destruct (claims_exact claimed_view (sample_home_link 1) ViewActive (λ _, true) (proj2 claimed_view_ok)) as (ins & outs & H1 & H2 & _).
  exists ins, outs. exact (conj H1 H2).
Defined.

Lemma project_on_exact_witness :
  answers (project_on linked_view (sample_home_link 1) FROM sample_draft (λ _, true)) (λ s, bool_decide (spans s = [middle])) = true ∧
  project_on linked_view (sample_home_link 3) FROM sample_draft (λ _, true) = Done (Err QE_NotALink) ∧
  ∃ r, project_on linked_view (sample_home_link 1) FROM sample_draft (λ _, true) = Done r.
Proof.
  split; [vm_compute; reflexivity|]. split; [vm_compute; reflexivity|].
  destruct (project_on_exact linked_view (sample_home_link 1) FROM sample_draft (λ _, true) (proj1 linked_view_ok)) as (r & Hr & _).
  exists r. exact Hr.
Defined.

Lemma addressably_discoverable_exact_witness :
  addressably_discoverable_from_on linked_view (sample_home_link 1) sample_draft (λ _, true) = Done (Ok true) ∧
  addressably_discoverable_from_on retracted_view (sample_home_link 1) sample_draft (λ _, true) = Done (Ok false) ∧
  ∃ r, addressably_discoverable_from_on linked_view (sample_home_link 1) sample_draft (λ _, true) = Done r.
Proof.
  split; [vm_compute; reflexivity|]. split; [vm_compute; reflexivity|].
  destruct (addressably_discoverable_exact linked_view (sample_home_link 1) sample_draft (λ _, true) (proj1 linked_view_ok)) as (r & Hr & _).
  exists r. exact Hr.
Defined.
